(* ===== verification/_CoqProject ===== *)
-Q . S2P
Prelude.v
Archive.v
Serialize.v
LazyArchive.v
Message.v
Socket.v
SpinLock.v
Queue.v
Channel.v
RpcChannel.v
Master.v
MasterClient.v
Locks.v
LexicalCast.v
Nodes.v
FairQueue.v
RpcContext.v
Dealers.v
FrontEnd.v
HashTable.v
LruCache.v
PoolHashTable.v
PoolMap.v
Codec.v
Registry.v
Discovery.v
Store.v
Service.v
System.v
Barrier.v
Aggregator.v
Accumulator.v
AccSystem.v
