(* ===== verification/Prelude.v ===== *)
(** * prpc: a verification of the RPC library

    prpc is an RPC framework in C++.  Processes find each other through a master, a
    server that holds a tree of named nodes; they exchange requests and responses over
    pairs of TCP connections, and inside a process dealers hand them to the threads that
    issue and serve calls.  The development follows a call from top to bottom:

    - Archive.v ([MemoryArchive], src/src/rpc/Archive.h): the growable byte buffer;
    - Serialize.v (the serializers of Archive.h) and LazyArchive.v
      (src/src/rpc/LazyArchive.h): values as bytes and as shared blocks;
    - Message.v (src/src/rpc/RpcMessage.h, RpcMessage.cpp): requests, responses and the
      message they become;
    - Socket.v (RpcSocket and TcpSocket of src/src/rpc): messages cut into the streams of
      two descriptors and put together again;
    - FairQueue.v and RpcContext.v (RpcContext and Dealer of src/src/rpc): the tables that
      route requests to servers and responses to callers; Dealers.v: the life of a dealer
      and what the tables say of it; FrontEnd.v (src/src/rpc/FrontEnd.h,
      FrontEnd.cpp): the threads that share a connection for sending;
    - Master.v (src/src/rpc/Master.h, Master.cpp): the tree, its handlers and the serving loop;
      MasterClient.v (src/src/rpc/TcpMasterClient.cpp, MasterClient.cpp): the calls of a
      client and its watchers; Locks.v (MasterClient.cpp): node operations, generated
      identifiers and distributed locks; Nodes.v: the node operations as equations on the
      tree; Registry.v (MasterClient.cpp): the services and servers recorded in the tree;
      Discovery.v (MasterClient.cpp, src/src/rpc/RpcService.cpp): the start of a client and
      the way from the registry to the routing tables; Store.v (MasterClient.cpp): what else
      the client keeps in the tree, as finite maps; Barrier.v (MasterClient.cpp): the
      distributed barrier;
    - Service.v (src/src/rpc/RpcService.cpp, RpcServer.cpp, RpcClient.cpp, Dealer.cpp): the
      objects of a process, who made which dealer, and the calls that go through several
      parts; System.v: a master and its processes, with every call of the library as a step;
    - LexicalCast.v (src/src/common/pico_lexical_cast.h): the numbers in the text of nodes;
    - SpinLock.v, Queue.v, Channel.v, RpcChannel.v (src/src/thread): the locks, queues and
      channels underneath; HashTable.v (src/src/misc/HashTable.h): the table with linear hashing;
      PoolHashTable.v (src/src/misc/PoolHashTable.h): the table in one array, and PoolMap.v:
      the proofs about it; LruCache.v (src/src/misc/LRUCache.h): the cache of recently used
      items; Codec.v (src/src/codec): Base64 and percent encoding;
    - Aggregator.v, Accumulator.v and AccSystem.v (src/src/accumulator): the statistics
      that the threads of a cluster add up through the library: what is added up, the
      operations of accumulators, clients and the server, and a cluster of them.

    This file holds what all of them share: the [result] type of code that may abort,
    machine integers, in-place edits of lists, counting, and the automation.

    ** How the code is modelled

    A C++ object is a record with the names of its members, and a method a function from
    the record to the record after the call.  A failed [SCHECK] is [Abort].  A [w]-bit
    integer is a [Z] and its conversions are written out.  A pointer with a length is the
    list of the bytes it points to; objects that are shared (nodes of queues, dealers,
    frontends) live in heaps and are referred to by addresses.  Unordered maps are finite
    maps with the order of iteration as a parameter.  Concurrent code is a step function
    on the shared state and the states of the threads, one step per atomic instruction
    (SpinLock.v, Queue.v, RpcChannel.v), per critical section (Channel.v, RpcContext.v) or per remote
    call (Locks.v, Barrier.v), and the theorems hold for every interleaving.

    What the library cannot see is a parameter: the bytes of fresh memory ([junk]), the
    numeric values of addresses ([addr]), the answers of the kernel to [send], [recv] and
    allocation, the events of [poll], [rand()] and [boost::split].

    Three interfaces separate clients from implementations: [Serialize.Lawful] (with
    [LazyArchive]'s counterpart) is what a serializer promises, with one instance per
    overload; [Locks.MasterService] is what the master promises to the client
    library, with the master of Master.v as its instance, and locks, registry and barrier are
    proved against it; [Aggregator.AggregatorLaws] is what accumulators need of an
    aggregator, with one instance per class.

    From the parts to the whole there are three agreements.  [Dealers.Agrees]: the tables
    of a context are those of an assignment of roles to dealers and of a set of servers.
    [Service.ProcInv]: this set is the one of the process's server objects, and every object
    knows its dealers.  [System.Consistent]: the registry, the nodes of the master and the
    processes tell the same story.  Each is kept by every operation, and an operation used
    as the one above it uses it fails no check.

    ** What the theorems show

    - C1: a memory archive is a FIFO queue of bytes; Archive.v also shows that its pointers
      stay ordered, and that it loses its content when it grows out of a foreign buffer.
    - C2, C22, C27: the hash table in one array is a finite map, growing it in place ends and
      gives what building it again gives, and erasing while iterating visits every item
      once; PoolMap.v also shows that linear probing never takes place, and that
      [prioritise] may use an item after its end.
    - C3, C7: the channel between threads delivers what is sent, in order, and wakes the
      receiver; RpcChannel.v also shows where timeouts and [terminate] break it.
    - C4-C6: serialization, lazy archives and messages are round trips, for the types of
      [Serialize.ty] and [LazyArchive.lty] and lengths within the machine's; Message.v also
      shows that a received message that is sent on is not.
    - C8, C9: sockets transmit messages unchanged however the kernel cuts them; Socket.v
      also shows that the sizes in a head are trusted.
    - C10: the cache of recently used items is a list in the order of use, with no more items
      than its limit between calls; LruCache.v also
      shows what inserting a key again does.
    - C11: the reader-writer lock excludes; SpinLock.v also shows that it is never stuck.
    - C12, C29, C32: in a cluster of accumulators used as [AccSystem.legal] says every object has
      the class of its name and no step aborts; steps that keep the values of a name
      ([AccSystem.keeps]) lose and count twice nothing of it; and a send thread empties its
      buffers, whatever the other processes do meanwhile.
    - C13, C14: the lock-free queues are FIFO queues and never touch freed memory.
    - C15, C16: channels are FIFO queues and lose no wake-up; Channel.v also shows the two
      exceptions, after running out of memory and after changing the capacity.
    - C17: a text is converted to an integer exactly when it is a numeral in range, and
      which out-of-range numerals the code lets through.
    - C18: the registry in the tree implements a map from names to services with their
      servers; names have different numbers.
    - C19-C21: the master's handlers implement a tree, the serving loop is safe, and a
      closed connection takes its nodes along; Master.v also shows that stopping leaves
      nothing behind.
    - C23, C24: the calls of a client are operations on the tree, and a notification wakes
      the watchers of the path and its ancestors.
    - C31: contexts, models, roles, nodes and the state of the task are finite maps and two
      marks, and which two calls fail; Store.v also shows what a node that vanishes does.
    - C25, C26: the distributed lock excludes and is never stuck; Locks.v also shows that
      generated identifiers increase.
    - C28, C30: the fair queue loses no request (FairQueue.v also shows that it serves its
      dealers in turn), and the routing tables agree with the list of services.
    - C33, C34: calls to a server and to nobody come back to their caller; C33 goes from the
      registry to the answer, in any system that can be reached.  RpcContext.v has the calls
      within a process, and shows that a server that was local and is gone is not reported.
    - C35: the hash table is a finite map and iteration visits it; HashTable.v also shows
      that [reserve] breaks it.
    - C36: Base64 is RFC 4648 and decoding undoes it; Codec.v also has the percent encoding.
    - C37: the whole library is safe: whatever the processes call, in any order, as long as each
      call is one that [System.sys_legal] and [Service.legal] allow, no check fails and all
      parts agree.  Service.v also shows that moving a dealer breaks it.
    - C38: the threads of a frontend write one at a time, in order, and lose nothing, in an
      environment that is [FrontEnd.well_behaved].
      FrontEnd.v also shows that an idle connection that ends is never reopened, and that
      giving up a connection releases it one instruction too early.
    - C39, C40: the barrier lets nobody through before all have come, and lets all through
      when they have.

    ** Fuel

    The loops of the code that are not structural take fuel.  [Socket.v]'s receive loop
    and [LazyArchive]'s readers get the length of what they read; [gen_id] the number of
    used numbers plus one, which [RpcContext.gen_id_fresh] proves to be enough, as
    [Service.new_dealer] needs; [LruCache.delete_from] one more than the heap has cells;
    [Codec]'s decoding one round per four characters; the loops of [PoolHashTable] over the
    nodes one round per node, and as many again where a round may place an item without
    moving on ([PoolMap.scan_ok]); [RpcChannel]'s receiver a weight that
    every step lowers; the retry of a master call is a
    list of attempts; [Registry.wait] evaluates its condition once, which is enough for a
    client that is alone (C18).  Theorems about them state that the result is reached.

    ** Not modelled

    The RDMA transport (behind USE_RDMA), the ZooKeeper client, epoll, connecting and
    accepting, memory accounting, logging, metrics, files and processes are system calls
    or external libraries.  Aggregators of floating point numbers, sums of signed ones and the
    reports of the accumulator server are not modelled, nor are load factors of the hash
    table in one array below 1 and its queue in a file.  The JSON reader and the hash functions under
    src/src/addition are third-party code.  Registrations are not interleaved with each other:
    C25 shows that the lock they take excludes.  Nor do the remote calls overlap that an
    accumulator client makes through its one dealer.  That a waiting thread of a lock or a barrier
    is woken is not modelled: it may evaluate its condition at any time.  Memory is sequentially consistent: the
    orderings of the atomic operations are not distinguished. *)
From stdpp Require Export base gmap strings list list_numbers fin_maps relations.
From coqutil Require Export Word.LittleEndianList Byte.
From Stdlib Require Export ZArith Lia.

#[global] Open Scope Z_scope.

Declare Scope prpc_scope.
Delimit Scope prpc_scope with prpc.
#[global] Open Scope prpc_scope.

(** ** Failing code

    A failed [SCHECK]/[PSCHECK] or an [SLOG(FATAL)] (src/src/common/pico_log.h)
    does not return.  Code that may fail so returns a [result]: [Ok] of its value,
    or [Abort].  The instances give the [x ← m; k] notation of stdpp. *)
Inductive result (A : Type) : Type :=
  | Ok (a : A)
  | Abort.
Arguments Ok {A} a.
Arguments Abort {A}.

#[global] Instance result_ret : MRet result := λ A a, Ok a.
#[global] Instance result_bind : MBind result := λ A B f m,
  match m with Ok a => f a | Abort => Abort end.
#[global] Instance result_fmap : FMap result := λ A B f m,
  match m with Ok a => Ok (f a) | Abort => Abort end.

(** [SCHECK(b)]. *)
Definition SCHECK (b : bool) : result unit := if b then Ok () else Abort.

Definition is_ok {A} (m : result A) : Prop := ∃ a, m = Ok a.

Lemma SCHECK_ok b : b = true → SCHECK b = Ok ().
Proof. by intros ->. Qed.

Lemma bind_ok {A B} (m : result A) (f : A → result B) b :
  (m ≫= f) = Ok b ↔ ∃ a, m = Ok a ∧ f a = Ok b.
Proof. destruct m; cbn; naive_solver. Qed.

(** ** Machine integers

    A [w]-bit unsigned value is a [Z] in [0 .. 2^w); [wrap] and [swrap] are the
    conversions of C++ to the unsigned and to the two's complement signed type. *)
Definition wrap (w : Z) (z : Z) : Z := z mod 2 ^ w.
Definition swrap (w : Z) (z : Z) : Z := (z + 2 ^ (w - 1)) mod 2 ^ w - 2 ^ (w - 1).

Abbreviation u16 := (wrap 16).
Abbreviation u32 := (wrap 32).
Abbreviation u64 := (wrap 64).
Abbreviation i16 := (swrap 16).
Abbreviation i32 := (swrap 32).
Abbreviation i64 := (swrap 64).

Definition in_unsigned (w z : Z) : Prop := 0 ≤ z < 2 ^ w.
Definition in_signed (w z : Z) : Prop := - 2 ^ (w - 1) ≤ z < 2 ^ (w - 1).

Lemma wrap_small w z : in_unsigned w z → wrap w z = z.
Proof. apply Z.mod_small. Qed.

Lemma wrap_range w z : 0 ≤ w → in_unsigned w (wrap w z).
Proof. intros. apply Z.mod_pos_bound, Z.pow_pos_nonneg; lia. Qed.

Lemma pow2_half w : 0 < w → 2 ^ w = 2 * 2 ^ (w - 1).
Proof. intros. rewrite <- Z.pow_succ_r by lia. f_equal; lia. Qed.

Lemma swrap_small w z : 0 < w → in_signed w z → swrap w z = z.
Proof.
  unfold swrap, in_signed. intros Hw Hz. pose proof (pow2_half w Hw).
  rewrite Z.mod_small; lia.
Qed.

Lemma swrap_range w z : 0 < w → in_signed w (swrap w z).
Proof.
  unfold swrap, in_signed. intros Hw. pose proof (pow2_half w Hw).
  pose proof (Z.mod_pos_bound (z + 2 ^ (w - 1)) (2 ^ w)). lia.
Qed.

Lemma swrap_wrap w z : 0 < w → swrap w (wrap w z) = swrap w z.
Proof.
  unfold swrap, wrap. intros. f_equal. rewrite Zplus_mod_idemp_l. done.
Qed.

(** ** Lists *)
Section lists.
Context {A : Type}.
Implicit Types l : list A.

(** [memcpy] of [p] over the cells of [l] from offset [i]. *)
Definition splice (i : nat) (p l : list A) : list A :=
  take i l ++ p ++ drop (i + length p) l.

Lemma length_splice i p l :
  (i + length p ≤ length l)%nat → length (splice i p l) = length l.
Proof.
  intros. unfold splice. rewrite !length_app, length_take, length_drop. lia.
Qed.

Lemma take_splice i p l :
  (i ≤ length l)%nat → take (i + length p) (splice i p l) = take i l ++ p.
Proof.
  intros. unfold splice. rewrite app_assoc, take_app_le, take_ge; [done| |];
    rewrite ?length_app, ?length_take; lia.
Qed.

(** The cells [i .. j) of [l]. *)
Definition slice (i j : nat) (l : list A) : list A := take (j - i) (drop i l).

Lemma slice_alt i j l : slice i j l = drop i (take j l).
Proof.
  unfold slice. destruct (decide (i ≤ j)%nat).
  - rewrite firstn_skipn_comm. do 2 f_equal. lia.
  - replace (j - i)%nat with 0%nat by lia. symmetry.
    apply drop_ge. rewrite length_take. lia.
Qed.
End lists.

(** ** Counting *)
Section counting.
Context {A : Type}.

Definition cnt (p : A → bool) (l : list A) : Z :=
  Z.of_nat (length (filter (λ x, p x = true) l)).

Lemma cnt_cons p x l : cnt p (x :: l) = Z.b2z (p x) + cnt p l.
Proof.
  unfold cnt. rewrite filter_cons. destruct (p x); case_decide; cbn [length Z.b2z]; lia || done.
Qed.

(** Replacing one element. *)
Lemma cnt_insert p l i a b :
  l !! i = Some a → cnt p (<[i := b]> l) = cnt p l - Z.b2z (p a) + Z.b2z (p b).
Proof.
  revert i. induction l as [|x l IH]; intros [|i] H; try done.
  - injection H as ->. change (<[0%nat := b]> (a :: l)) with (b :: l). rewrite !cnt_cons. lia.
  - change (<[S i := b]> (x :: l)) with (x :: <[i := b]> l).
    rewrite !cnt_cons, (IH i) by done. lia.
Qed.

Lemma cnt_nonneg p l : 0 ≤ cnt p l.
Proof. unfold cnt. lia. Qed.

Lemma cnt_zero p l : Forall (λ x, p x = false) l → cnt p l = 0.
Proof. induction 1 as [|x l Hx _ IH]; [done|]. by rewrite cnt_cons, Hx, IH. Qed.

Lemma cnt_lookup p l i x : l !! i = Some x → p x = true → 1 ≤ cnt p l.
Proof.
  intros Hi Hx. unfold cnt. apply list_elem_of_lookup_2 in Hi.
  assert (x ∈ filter (λ x, p x = true) l) as Hin by by apply list_elem_of_filter.
  destruct (filter (λ x, p x = true) l); [by apply not_elem_of_nil in Hin|cbn; lia].
Qed.
End counting.

Lemma filter_all {A} (P : A → Prop) `{∀ x, Decision (P x)} l : Forall P l → filter P l = l.
Proof. induction 1 as [|x l Hx _ IH]; [done|]. by rewrite filter_cons_True, IH. Qed.

Lemma filter_ext_in {A} (P Q : A → Prop) `{∀ x, Decision (P x), ∀ x, Decision (Q x)} (l : list A) :
  (∀ x, x ∈ l → P x ↔ Q x) → filter P l = filter Q l.
Proof.
  induction l as [|x l IH]; intros HPQ; [done|]. rewrite !filter_cons.
  rewrite IH by (intros y Hy; apply HPQ; by right). pose proof (HPQ x (list_elem_of_here x l)) as Hx.
  destruct (decide (P x)), (decide (Q x)); naive_solver.
Qed.

(** ** Automation

    [prpc] resolves the side conditions of the machine integers; [prpc_len] normalizes
    lengths of lists, and [len] decides the inequalities between them; [step_ok] runs the
    checks of a [result] computation whose outcome is known. *)
Create HintDb prpc discriminated.
#[export] Hint Resolve SCHECK_ok wrap_small swrap_small wrap_range swrap_range cnt_nonneg : prpc.

Create HintDb prpc_len.
#[export] Hint Rewrite @length_app @length_take @length_drop @length_replicate @length_insert
  @length_fmap @length_nil @length_cons using done : prpc_len.

Ltac len := autorewrite with prpc_len in *; lia.

Ltac step_ok := cbn [mbind result_bind SCHECK].
