(* ===== verification/Archive.v ===== *)
(** * The memory archive: a growable byte buffer with a read and a write end

    [MemoryArchive] of src/src/rpc/Archive.h.  The four pointers
    [_buffer <= _cursor <= _end <= _border] of the class are a block of memory and
    two offsets into it: [a_buf] is the block [[_buffer, _border)] ([None] when
    [_buffer] is [nullptr]) and [a_cursor], [a_end] are [_cursor - _buffer] and
    [_end - _buffer].  The bytes of a fresh allocation are unspecified: they are the
    parameter [junk] of the whole file.  Allocation is assumed to succeed (the
    allocators of src/src/common/pico_memory.h handle exhaustion by themselves).

    The theorems: every operation keeps [cursor <= end <= capacity]; writing appends
    to the readable content whatever reallocation happens underneath, reading
    consumes exactly its front, and reading more than is there aborts. *)
From S2P Require Import Prelude.

Module MemoryArchive.
Section archive.
Context (junk : nat → byte).

(** The [_deleter] of an archive: frees with the archive's own allocator, does
    nothing, runs code handed in by the owner, or only warns about a leak. *)
Inductive deleter :=
  | DelDefault (is_msg : bool)
  | DelNone
  | DelUser
  | DelWarn.

Record archive := MkArchive {
  a_buf : option (list byte);
  a_cursor : nat;
  a_end : nat;
  a_is_msg : bool;
  a_is_default_malloc : bool;
  a_deleter : deleter;
}.

Definition mem (a : archive) : list byte :=
  match a_buf a with Some b => b | None => [] end.
Definition capacity (a : archive) : nat := length (mem a).
Definition length_ (a : archive) : nat := a_end a.
Definition readable_length (a : archive) : nat := (a_end a - a_cursor a)%nat.
Definition is_exhausted (a : archive) : bool := (a_end a =? a_cursor a)%nat.

(** *** Allocation *)
Definition buf_malloc (size : nat) : list byte := junk <$> seq 0 size.

(** The [is_msg] branch allocates and copies the first [min cur_size new_size]
    bytes; the other branch is the allocator's [reallocate], which keeps what fits
    of the old block. *)
Definition buf_realloc (old : list byte) (cur_size new_size : nat) (is_msg : bool) : list byte :=
  let keep := if is_msg then (cur_size `min` new_size)%nat else (length old `min` new_size)%nat in
  take keep old ++ drop keep (buf_malloc new_size).

(** *** Construction and ownership *)
Definition MemoryArchive_ (is_msg : bool) : archive :=
  MkArchive None 0 0 is_msg true (DelDefault is_msg).

Definition set_default_deleter (a : archive) : archive :=
  MkArchive (a_buf a) (a_cursor a) (a_end a) (a_is_msg a) true (DelDefault (a_is_msg a)).

Definition view (a : archive) : archive :=
  MkArchive (a_buf a) (a_cursor a) (a_end a) (a_is_msg a) false DelNone.

Definition reset (a : archive) : archive :=
  MkArchive None 0 0 (a_is_msg a) (a_is_default_malloc a) (a_deleter a).

Definition release (a : archive) : archive * option (list byte) :=
  (MkArchive None 0 0 (a_is_msg a) (a_is_default_malloc a) DelNone, a_buf a).

(** [operator=(const MemoryArchive&)], for [&other != this]. *)
Definition copy_assign (self other : archive) : archive :=
  let self := reset self in
  if (capacity other =? 0)%nat then
    MkArchive None 0 0 (a_is_msg other) (a_is_default_malloc self) (a_deleter self)
  else
    let self := set_default_deleter
      (MkArchive (Some (buf_malloc (capacity other))) 0 0 (a_is_msg other)
         (a_is_default_malloc self) (a_deleter self)) in
    MkArchive (Some (splice 0 (take (a_end other) (mem other)) (mem self)))
      (a_cursor other) (a_end other) (a_is_msg self) (a_is_default_malloc self) (a_deleter self).

(** [operator=(MemoryArchive&&)]: the new value of [*this] and of [other]. *)
Definition move_assign (self other : archive) : archive * archive :=
  (MkArchive (a_buf other) (a_cursor other) (a_end other) (a_is_msg other)
     (a_is_default_malloc other) (a_deleter other),
   (release other).1).

(** [set_buffer(buffer, length, capacity, deleter)]; [buffer] is the block of
    [capacity] bytes, [None] when it is [nullptr]. *)
Definition set_buffer (a : archive) (buffer : option (list byte)) (length_ capacity_ : nat)
    (d : deleter) : result archive :=
  _ ← SCHECK (bool_decide (is_Some buffer) || (capacity_ =? 0)%nat);
  _ ← SCHECK (length_ <=? capacity_)%nat;
  Ok (MkArchive buffer 0 length_ (a_is_msg a) false d).

Definition set_read_buffer (a : archive) (buffer : list byte) (d : deleter) : result archive :=
  set_buffer a (Some buffer) (length buffer) (length buffer) d.

Definition set_write_buffer (a : archive) (buffer : list byte) (d : deleter) : result archive :=
  set_buffer a (Some buffer) 0 (length buffer) d.

Definition assign (a : archive) (buffer : list byte) : archive :=
  let a' :=
    if bool_decide (a_buf a = None) || (capacity a <? length buffer)%nat then
      let a := reset a in
      set_default_deleter
        (MkArchive (Some (buf_malloc (length buffer))) 0 0 (a_is_msg a)
           (a_is_default_malloc a) (a_deleter a))
    else a in
  MkArchive (Some (splice 0 buffer (mem a'))) 0 (length buffer) (a_is_msg a')
    (a_is_default_malloc a') (a_deleter a').

(** *** Cursors.  A pointer argument is given as its offset from [_buffer]. *)
Definition with_cursor (a : archive) (c : nat) : archive :=
  MkArchive (a_buf a) c (a_end a) (a_is_msg a) (a_is_default_malloc a) (a_deleter a).
Definition with_end (a : archive) (e : nat) : archive :=
  MkArchive (a_buf a) (a_cursor a) e (a_is_msg a) (a_is_default_malloc a) (a_deleter a).

Definition rewind (a : archive) : archive := with_cursor a 0.

Definition set_cursor (a : archive) (cursor : nat) : result archive :=
  _ ← SCHECK (cursor <=? a_end a)%nat; Ok (with_cursor a cursor).

Definition advance_cursor (a : archive) (offset : nat) : result archive :=
  _ ← SCHECK (offset <=? a_end a - a_cursor a)%nat; Ok (with_cursor a (a_cursor a + offset)).

Definition set_end (a : archive) (e : nat) : result archive :=
  _ ← SCHECK ((a_cursor a <=? e)%nat && (e <=? capacity a)%nat); Ok (with_end a e).

Definition advance_end (a : archive) (offset : nat) : result archive :=
  _ ← SCHECK (offset <=? capacity a - a_end a)%nat; Ok (with_end a (a_end a + offset)).

Definition clear (a : archive) : archive := with_end (with_cursor a 0) 0.

(** *** Growing *)
Definition round64 (n : nat) : nat := ((n + 64 - 1) / 64 * 64)%nat.

(** In the branch of a foreign buffer [reset()] has already set the four pointers
    to [nullptr] when [_cursor - _buffer] and [_end - _buffer] are read. *)
Definition reserve (a : archive) (newcap : nat) : archive :=
  if (capacity a <? newcap)%nat then
    let newcap := round64 newcap in
    if a_is_default_malloc a then
      let buffer := buf_realloc (mem a) (length_ a) newcap (a_is_msg a) in
      MkArchive (Some buffer) (a_cursor a) (a_end a) (a_is_msg a)
        (a_is_default_malloc a) (a_deleter a)
    else
      let buffer := splice 0 (take (length_ a) (mem a)) (buf_malloc newcap) in
      let a := set_default_deleter (reset a) in
      MkArchive (Some buffer) (a_cursor a) (a_end a) (a_is_msg a)
        (a_is_default_malloc a) (a_deleter a)
  else a.

Definition resize (a : archive) (size : nat) : archive :=
  let a := if (capacity a <? size)%nat then reserve a ((capacity a * 2) `max` size) else a in
  with_cursor (with_end a size) (a_cursor a `min` size).

Definition prepare_read (a : archive) (size : nat) : result unit :=
  SCHECK (size <=? a_end a - a_cursor a)%nat.

Definition prepare_write (a : archive) (size : nat) : archive :=
  if (capacity a - a_end a <? size)%nat
  then reserve a ((capacity a * 2) `max` (length_ a + size)) else a.

(** *** Raw input and output *)
Definition read_raw (a : archive) (len : nat) : result (archive * list byte) :=
  if (0 <? len)%nat then
    _ ← prepare_read a len;
    let p := slice (a_cursor a) (a_cursor a + len) (mem a) in
    a ← advance_cursor a len;
    Ok (a, p)
  else Ok (a, []).

(** [None] is the return value [false]. *)
Definition read_raw_uncheck (a : archive) (len : nat) : result (archive * option (list byte)) :=
  if (0 <? len)%nat then
    if is_exhausted a then Ok (a, None)
    else r ← read_raw a len; Ok (r.1, Some r.2)
  else Ok (a, Some []).

Definition write_raw (a : archive) (p : list byte) : result archive :=
  if (0 <? length p)%nat then
    let a := prepare_write a (length p) in
    let a := MkArchive (Some (splice (a_end a) p (mem a))) (a_cursor a) (a_end a)
               (a_is_msg a) (a_is_default_malloc a) (a_deleter a) in
    advance_end a (length p)
  else Ok a.

Definition write_raw_uncheck (a : archive) (p : list byte) : result (archive * bool) :=
  a ← write_raw a p; Ok (a, true).

Definition read_back (a : archive) (len : nat) : result (archive * list byte) :=
  if (0 <? len)%nat then
    _ ← SCHECK (len <=? a_end a - a_cursor a)%nat;
    Ok (with_end a (a_end a - len), slice (a_end a - len) (a_end a) (mem a))
  else Ok (a, []).

(** ** Lemmas *)
Definition wf (a : archive) : Prop := (a_cursor a ≤ a_end a ≤ capacity a)%nat.

(** The readable content: the bytes from [_cursor] to [_end]. *)
Definition content (a : archive) : list byte := slice (a_cursor a) (a_end a) (mem a).

(** Appending [n] bytes does not have to move a buffer the archive did not allocate. *)
Definition can_append (a : archive) (n : nat) : Prop :=
  a_is_default_malloc a = true ∨ (n ≤ capacity a - a_end a)%nat.

Lemma mem_mk b c e m d del : mem (MkArchive (Some b) c e m d del) = b.
Proof. done. Qed.

Lemma set_read_buffer_ok a b d :
  set_read_buffer a b d = Ok (MkArchive (Some b) 0 (length b) (a_is_msg a) false d).
Proof.
  unfold set_read_buffer, set_buffer. rewrite bool_decide_true by done. cbn.
  by rewrite (proj2 (Nat.leb_le _ _) (Nat.le_refl _)).
Qed.

Lemma content_whole b m d del : content (MkArchive (Some b) 0 (length b) m d del) = b.
Proof. unfold content, slice. rewrite mem_mk. cbn. by rewrite Nat.sub_0_r, firstn_all. Qed.

Lemma length_buf_malloc n : length (buf_malloc n) = n.
Proof. unfold buf_malloc. by rewrite length_fmap, length_seq. Qed.

Lemma length_buf_realloc old cur n m :
  (cur ≤ length old)%nat → length (buf_realloc old cur n m) = n.
Proof.
  intros. unfold buf_realloc. destruct m;
    rewrite length_app, length_take, length_drop, length_buf_malloc; lia.
Qed.

Lemma take_buf_realloc k old cur n m :
  (k ≤ cur)%nat → (cur ≤ length old)%nat → (k ≤ n)%nat →
  take k (buf_realloc old cur n m) = take k old.
Proof.
  intros. unfold buf_realloc.
  destruct m; rewrite take_app_le by (rewrite length_take; lia);
    rewrite take_take; f_equal; lia.
Qed.

Lemma round64_ge n : (n ≤ round64 n)%nat.
Proof.
  unfold round64. pose proof (Nat.div_mod_eq (n + 64 - 1) 64).
  pose proof (Nat.mod_upper_bound (n + 64 - 1) 64). lia.
Qed.

Lemma content_take a b :
  take (a_end a) (mem a) = take (a_end b) (mem b) → a_cursor a = a_cursor b →
  content a = content b.
Proof. intros H1 H2. unfold content. rewrite !slice_alt. congruence. Qed.

Lemma length_content a : wf a → length (content a) = readable_length a.
Proof.
  unfold wf, content, readable_length, slice, capacity. intros.
  rewrite length_take, length_drop. lia.
Qed.

Lemma reserve_wf a n : wf a → wf (reserve a n).
Proof.
  unfold wf, reserve, capacity, length_. intros Hwf. case_match eqn:Hc; [|done].
  apply Nat.ltb_lt in Hc. pose proof (round64_ge n).
  destruct (a_is_default_malloc a); cbn [a_cursor a_end set_default_deleter reset]; [|lia].
  rewrite mem_mk, length_buf_realloc; lia.
Qed.

Lemma reserve_spec a n :
  wf a → a_is_default_malloc a = true →
  let a' := reserve a n in
  (n ≤ capacity a')%nat ∧ a_is_default_malloc a' = true ∧
  a_cursor a' = a_cursor a ∧ a_end a' = a_end a ∧
  take (a_end a') (mem a') = take (a_end a) (mem a).
Proof.
  unfold wf, reserve. intros Hwf Hd. rewrite Hd. case_match eqn:Hc; cbv zeta;
    cbn [a_cursor a_end a_is_default_malloc].
  - apply Nat.ltb_lt in Hc. pose proof (round64_ge n).
    unfold capacity, length_ in *. rewrite mem_mk.
    rewrite length_buf_realloc, take_buf_realloc by lia. repeat split; lia.
  - apply Nat.ltb_ge in Hc. auto.
Qed.

Lemma prepare_write_spec a n :
  wf a → can_append a n →
  let a' := prepare_write a n in
  (a_end a' + n ≤ capacity a')%nat ∧ a_is_default_malloc a' = a_is_default_malloc a ∧
  a_cursor a' = a_cursor a ∧ a_end a' = a_end a ∧
  take (a_end a') (mem a') = take (a_end a) (mem a).
Proof.
  unfold prepare_write. intros Hwf Hc. case_match eqn:E; cbn.
  - apply Nat.ltb_lt in E. destruct Hc as [Hd|?]; [|lia].
    destruct (reserve_spec a ((capacity a * 2) `max` (length_ a + n))%nat Hwf Hd)
      as (?&?&?&?&?). unfold length_ in *. repeat split; try congruence; lia.
  - apply Nat.ltb_ge in E. unfold wf in *. repeat split; lia.
Qed.

(** Every write of the archive appends to its readable content. *)
Lemma write_raw_spec a p :
  wf a → can_append a (length p) →
  ∃ a', write_raw a p = Ok a' ∧ wf a' ∧ content a' = content a ++ p ∧
        a_cursor a' = a_cursor a ∧ a_end a' = (a_end a + length p)%nat ∧
        a_is_default_malloc a' = a_is_default_malloc a.
Proof.
  intros Hwf Hc. unfold write_raw. destruct (Nat.ltb_spec 0 (length p)) as [Hp|Hp].
  2: { destruct p; [|cbn in *; lia]. exists a. rewrite app_nil_r. cbn.
       repeat split; auto; apply Hwf || lia. }
  destruct (prepare_write_spec a (length p) Hwf Hc) as (Hcap&Hd&Hcur&Hend&Htake).
  set (a1 := prepare_write a (length p)) in *.
  unfold advance_end, capacity in *; cbn [a_end]. rewrite mem_mk.
  rewrite SCHECK_ok by (rewrite length_splice by lia; apply Nat.leb_le; lia).
  eexists; split; [reflexivity|]. unfold wf, content, capacity, with_end in *.
  cbn [a_cursor a_end a_buf a_is_default_malloc]. rewrite mem_mk, length_splice by lia.
  repeat split; try lia; [|congruence].
  rewrite !slice_alt, take_splice by lia.
  rewrite Htake, drop_app_le, Hcur; [done|]. rewrite length_take. lia.
Qed.

(** Reading consumes exactly the front of the readable content. *)
Lemma read_raw_spec a len :
  wf a → (len ≤ readable_length a)%nat →
  ∃ a', read_raw a len = Ok (a', take len (content a)) ∧ wf a' ∧
        content a' = drop len (content a) ∧ a_is_default_malloc a' = a_is_default_malloc a.
Proof.
  unfold read_raw, readable_length. intros Hwf Hlen.
  destruct (Nat.ltb_spec 0 len) as [?|?].
  2: { replace len with 0%nat by lia. eauto. }
  unfold prepare_read, advance_cursor. rewrite !SCHECK_ok by (apply Nat.leb_le; lia). cbn.
  eexists. split; [f_equal; f_equal|].
  - unfold content, slice. rewrite take_take. f_equal. lia.
  - unfold wf, content, capacity, mem in *; cbn in *. repeat split; try lia.
    rewrite slice_alt, drop_drop. apply slice_alt.
Qed.

(** Reading past the readable content does not return. *)
Lemma read_raw_short a len : (readable_length a < len)%nat → read_raw a len = Abort.
Proof.
  unfold read_raw, prepare_read, readable_length. intros.
  destruct (Nat.ltb_spec 0 len); [|lia].
  destruct (Nat.leb_spec len (a_end a - a_cursor a)); [lia|done].
Qed.

Lemma read_raw_uncheck_spec a len :
  wf a → (len ≤ readable_length a)%nat →
  ∃ a', read_raw_uncheck a len = Ok (a', Some (take len (content a))) ∧ wf a' ∧
        content a' = drop len (content a) ∧ a_is_default_malloc a' = a_is_default_malloc a.
Proof.
  intros Hwf Hlen. unfold read_raw_uncheck, is_exhausted.
  destruct (Nat.ltb_spec 0 len).
  2: { replace len with 0%nat by lia. eauto. }
  destruct (Nat.eqb_spec (a_end a) (a_cursor a)); [unfold readable_length in *; lia|].
  destruct (read_raw_spec a len Hwf Hlen) as (a'&->&?). cbn. eauto.
Qed.

Lemma write_raw_uncheck_spec a p :
  wf a → a_is_default_malloc a = true →
  ∃ a', write_raw_uncheck a p = Ok (a', true) ∧ wf a' ∧ content a' = content a ++ p ∧
        a_cursor a' = a_cursor a ∧ a_is_default_malloc a' = true.
Proof.
  intros Hwf Hd. destruct (write_raw_spec a p Hwf) as (a'&Hw&?&?&?&?&?); [by left|].
  exists a'. unfold write_raw_uncheck. rewrite Hw. cbn.
  do 4 (split; [done|]). congruence.
Qed.

(** *** All operations of the class as one step function *)
Inductive op :=
  | OpReset | OpRelease | OpClear | OpRewind
  | OpSetDefaultDeleter
  | OpCopyAssign (other : archive)
  | OpMoveAssign (other : archive)
  | OpMovedFrom (dest : archive)
  | OpSetBuffer (buffer : option (list byte)) (len : nat) (d : deleter)
  | OpAssign (buffer : list byte)
  | OpSetCursor (c : nat) | OpAdvanceCursor (n : nat)
  | OpSetEnd (e : nat) | OpAdvanceEnd (n : nat)
  | OpReserve (n : nat) | OpResize (n : nat)
  | OpWriteRaw (p : list byte) | OpReadRaw (n : nat) | OpReadBack (n : nat).

Definition run_op (a : archive) (o : op) : result archive :=
  match o with
  | OpReset => Ok (reset a)
  | OpRelease => Ok (release a).1
  | OpClear => Ok (clear a)
  | OpRewind => Ok (rewind a)
  | OpSetDefaultDeleter => Ok (set_default_deleter a)
  | OpCopyAssign other => Ok (copy_assign a other)
  | OpMoveAssign other => Ok (move_assign a other).1
  | OpMovedFrom dest => Ok (move_assign dest a).2
  | OpSetBuffer buffer len d =>
      set_buffer a buffer len (match buffer with Some b => length b | None => 0 end) d
  | OpAssign buffer => Ok (assign a buffer)
  | OpSetCursor c => set_cursor a c
  | OpAdvanceCursor n => advance_cursor a n
  | OpSetEnd e => set_end a e
  | OpAdvanceEnd n => advance_end a n
  | OpReserve n => Ok (reserve a n)
  | OpResize n => Ok (resize a n)
  | OpWriteRaw p => write_raw a p
  | OpReadRaw n => fst <$> read_raw a n
  | OpReadBack n => fst <$> read_back a n
  end.

(** The archives handed to an operation are well-formed themselves. *)
Definition op_wf (o : op) : Prop :=
  match o with
  | OpCopyAssign other | OpMoveAssign other => wf other
  | _ => True
  end.

Lemma capacity_reserve_ge a n : wf a → (n ≤ capacity (reserve a n))%nat.
Proof.
  intros Hwf. destruct (a_is_default_malloc a) eqn:Hd.
  { by apply reserve_spec. }
  unfold reserve, wf, capacity, length_ in *. rewrite Hd.
  destruct (Nat.ltb_spec (length (mem a)) n); [|lia].
  pose proof (round64_ge n). rewrite mem_mk, length_splice; rewrite length_buf_malloc;
    [lia|]. rewrite length_take. lia.
Qed.

Lemma resize_wf a n : wf a → wf (resize a n).
Proof.
  intros Hwf. unfold resize.
  set (a1 := if (capacity a <? n)%nat then _ else a).
  assert (n ≤ capacity a1)%nat.
  { subst a1. destruct (Nat.ltb_spec (capacity a) n); [|lia].
    pose proof (capacity_reserve_ge a ((capacity a * 2) `max` n)%nat Hwf). lia. }
  unfold wf, capacity, mem, with_cursor, with_end in *; cbn in *. lia.
Qed.

Lemma assign_wf a b : wf (assign a b).
Proof.
  unfold assign, wf.
  match goal with |- context [mem (if ?c then ?x else a)] =>
    set (a' := if c then x else a) end.
  assert (length b ≤ length (mem a'))%nat.
  { subst a'. case_match eqn:E.
    - unfold set_default_deleter; cbn [a_buf]. rewrite mem_mk, length_buf_malloc. lia.
    - apply orb_false_iff in E as [_ E%Nat.ltb_ge]. done. }
  unfold capacity. rewrite mem_mk. cbn [a_cursor a_end].
  rewrite length_splice; lia.
Qed.

Lemma copy_assign_wf a b : wf b → wf (copy_assign a b).
Proof.
  unfold copy_assign, wf. intros Hb.
  destruct (Nat.eqb_spec (capacity b) 0); [cbn; lia|].
  unfold capacity in *. unfold set_default_deleter. cbn [a_cursor a_end a_buf].
  rewrite !mem_mk, length_splice; rewrite length_buf_malloc; [lia|].
  rewrite length_take. lia.
Qed.

Lemma write_raw_wf a p a' : wf a → write_raw a p = Ok a' → wf a'.
Proof.
  intros Hwf. unfold write_raw, advance_end.
  destruct (Nat.ltb_spec 0 (length p)); [|naive_solver].
  intros (?&Hs&[= <-])%bind_ok.
  unfold SCHECK in Hs. case_match eqn:Hle; [|done]. apply Nat.leb_le in Hle.
  assert (wf (prepare_write a (length p))) as Hwf'.
  { unfold prepare_write. case_match; [by apply reserve_wf|done]. }
  unfold wf, with_end, capacity in *. cbn [a_end a_cursor a_buf] in *.
  rewrite mem_mk in *. lia.
Qed.

(** Closes a goal about an operation guarded by [SCHECK]. *)
Ltac scheck_cases :=
  repeat match goal with
  | H : (_ ≫= _) = Ok _ |- _ => apply bind_ok in H as (?&?&?)
  | H : SCHECK ?b = Ok _ |- _ => unfold SCHECK in H; destruct b eqn:?; [|done]
  | H : (_ && _) = true |- _ => apply andb_true_iff in H as [??]
  | H : (_ <=? _)%nat = true |- _ => apply Nat.leb_le in H
  | H : Ok _ = Ok _ |- _ => injection H as <-
  end.

Lemma run_op_wf a o a' : wf a → op_wf o → run_op a o = Ok a' → wf a'.
Proof.
  intros Hwf Ho. destruct o; cbn [run_op op_wf] in *; intros H;
    try (injection H as <-;
         first [ apply assign_wf | by apply copy_assign_wf | by apply reserve_wf
               | by apply resize_wf | exact Ho | exact Hwf | unfold wf, capacity, mem in *; cbn; lia ]).
  - unfold set_buffer in H. scheck_cases. unfold wf, capacity, mem; cbn.
    destruct buffer; cbn in *; lia.
  - unfold set_cursor in H. scheck_cases. unfold wf, capacity, mem in *; cbn in *; lia.
  - unfold advance_cursor in H. scheck_cases. unfold wf, capacity, mem in *; cbn in *; lia.
  - unfold set_end in H. scheck_cases. unfold wf, capacity, mem in *; cbn in *; lia.
  - unfold advance_end in H. scheck_cases. unfold wf, capacity, mem in *; cbn in *; lia.
  - by eapply write_raw_wf.
  - destruct (read_raw a n) as [[? ?]|] eqn:E; cbn in H; [|done]. injection H as <-.
    unfold read_raw, advance_cursor in E. case_match; scheck_cases; simplify_eq; [|done].
    unfold wf, capacity, mem in *; cbn in *; lia.
  - destruct (read_back a n) as [[? ?]|] eqn:E; cbn in H; [|done]. injection H as <-.
    unfold read_back in E. case_match; scheck_cases; simplify_eq; [|done].
    unfold wf, capacity, mem in *; cbn in *; lia.
Qed.

End archive.
End MemoryArchive.

(** ** The contract: a first-in first-out stream of bytes

    What a user of an archive relies on, with no buffer, cursor or capacity: writing
    appends, reading takes from the front, and a read of more than is there aborts. *)
Module ByteFifo.
Inductive io := Put (p : list byte) | Get (n : nat).

Fixpoint run (q : list byte) (ops : list io) : result (list byte * list (list byte)) :=
  match ops with
  | [] => Ok (q, [])
  | Put p :: ops => run (q ++ p) ops
  | Get n :: ops =>
      if (n <=? length q)%nat then
        r ← run (drop n q) ops; Ok (r.1, take n q :: r.2)
      else Abort
  end.
End ByteFifo.

Section contract.
Context (junk : nat → byte).
Import MemoryArchive ByteFifo.

Fixpoint archive_run (a : archive) (ops : list io) : result (archive * list (list byte)) :=
  match ops with
  | [] => Ok (a, [])
  | Put p :: ops => a ← write_raw junk a p; archive_run a ops
  | Get n :: ops =>
      x ← read_raw a n; r ← archive_run x.1 ops; Ok (r.1, x.2 :: r.2)
  end.

Lemma archive_run_refines a ops :
  wf a → a_is_default_malloc a = true →
  match run (content a) ops with
  | Ok (q, outs) => ∃ a', archive_run a ops = Ok (a', outs) ∧ content a' = q ∧ wf a'
  | Abort => archive_run a ops = Abort
  end.
Proof.
  revert a. induction ops as [|[p|n] ops IH]; intros a Hwf Hd; cbn [run archive_run].
  - eauto.
  - destruct (write_raw_spec junk a p Hwf) as (a'&->&Hwf'&Hc&_&_&Hd'); [by left|].
    rewrite <- Hc. apply IH; [done|congruence].
  - pose proof (length_content a Hwf) as Hl. destruct (Nat.leb_spec n (length (content a))).
    2: { rewrite read_raw_short by lia. done. }
    destruct (read_raw_spec a n Hwf) as (a'&->&Hwf'&Hc&Hd'); [lia|]. cbn.
    specialize (IH a' Hwf' ltac:(congruence)). rewrite Hc in IH.
    destruct (run (drop n (content a)) ops) as [[q outs]|]; cbn.
    + destruct IH as (a''&->&?&?). cbn. eauto.
    + by rewrite IH.
Qed.
End contract.

(** ** Properties *)

(** C1: an archive created by its constructor and used through any sequence of
    [write_raw] and [read_raw] calls behaves as a first-in first-out byte stream:
    it returns the same bytes, aborts exactly when a read asks for more than was
    written, and what remains readable at the end is what was written and not read;
    the reallocations in between are not observable. *)
Theorem archive_refines_fifo (junk : nat → byte) (is_msg : bool) (ops : list ByteFifo.io) :
  match ByteFifo.run [] ops with
  | Ok (q, outs) => ∃ a, archive_run junk (MemoryArchive.MemoryArchive_ is_msg) ops = Ok (a, outs)
                         ∧ MemoryArchive.content a = q
  | Abort => archive_run junk (MemoryArchive.MemoryArchive_ is_msg) ops = Abort
  end.
Proof.
  pose proof (archive_run_refines junk (MemoryArchive.MemoryArchive_ is_msg) ops) as H.
  change (MemoryArchive.content (MemoryArchive.MemoryArchive_ is_msg)) with (@nil byte) in H.
  destruct (ByteFifo.run [] ops) as [[q outs]|].
  - destruct H as (a&?&?&_); [by repeat split|done|]. eauto.
  - apply H; [by repeat split|done].
Qed.

(** The invariant [_buffer <= _cursor <= _end <= _border] of the class is kept by
    every operation that returns, reallocation, assignment and buffer replacement
    included. *)
Theorem archive_ops_preserve_wf (junk : nat → byte) (a a' : MemoryArchive.archive)
    (ops : list MemoryArchive.op) :
  MemoryArchive.wf a → Forall MemoryArchive.op_wf ops →
  foldl (λ r o, x ← r; MemoryArchive.run_op junk x o) (Ok a) ops = Ok a' →
  MemoryArchive.wf a'.
Proof.
  revert a. induction ops as [|o ops IH]; intros a Hwf Hops; cbn; [by intros [= <-]|].
  inv Hops. destruct (MemoryArchive.run_op junk a o) as [b|] eqn:E.
  - apply IH; [by eapply MemoryArchive.run_op_wf|done].
  - intros H. exfalso. clear -H. induction ops; cbn in H; [done|auto].
Qed.

Lemma archive_ops_preserve_wf_witness :
  MemoryArchive.wf
    (MemoryArchive.MkArchive (Some (replicate 64 Byte.x00)) 1 2 false true
       (MemoryArchive.DelDefault false)).
Proof.
  apply (archive_ops_preserve_wf (λ _, Byte.x00) (MemoryArchive.MemoryArchive_ false) _
    [MemoryArchive.OpReserve 1; MemoryArchive.OpWriteRaw [Byte.x00; Byte.x00];
     MemoryArchive.OpReadRaw 1]); [vm_compute; lia|repeat constructor|vm_compute; reflexivity].
Defined.

(** Growing an archive that was attached to a foreign buffer loses what was in
    it: a write that does not fit leaves only the bytes written by that very call
    readable. *)
Theorem foreign_buffer_growth_drops_content (junk : nat → byte) (a : MemoryArchive.archive)
    (buffer p : list byte) :
  p ≠ [] →
  ∃ b c, MemoryArchive.set_read_buffer a buffer MemoryArchive.DelUser = Ok b ∧
         MemoryArchive.content b = buffer ∧
         MemoryArchive.write_raw junk b p = Ok c ∧ MemoryArchive.content c = p.
Proof.
  intros Hp. unfold MemoryArchive.set_read_buffer, MemoryArchive.set_buffer.
  rewrite (SCHECK_ok (_ || _)) by (by rewrite bool_decide_true).
  rewrite (SCHECK_ok (_ <=? _)%nat) by (apply Nat.leb_le; lia). cbn [mbind result_bind].
  set (b := MemoryArchive.MkArchive (Some buffer) 0 (length buffer) _ false _).
  set (n := ((length buffer * 2) `max` (length buffer + length p))%nat).
  assert (0 < length p)%nat by (destruct p; cbn; [done|lia]).
  assert (Hb : MemoryArchive.capacity b = length buffer) by done.
  assert (Hprep : MemoryArchive.prepare_write junk b (length p) =
      MemoryArchive.MkArchive (Some (splice 0 buffer (MemoryArchive.buf_malloc junk
        (MemoryArchive.round64 n)))) 0 0 (MemoryArchive.a_is_msg a) true
        (MemoryArchive.DelDefault (MemoryArchive.a_is_msg a))).
  { unfold MemoryArchive.prepare_write, MemoryArchive.reserve. rewrite Hb.
    change (MemoryArchive.a_end b) with (length buffer).
    change (MemoryArchive.length_ b) with (length buffer).
    change (MemoryArchive.mem b) with buffer. fold n.
    rewrite (proj2 (Nat.ltb_lt _ _)), (proj2 (Nat.ltb_lt _ _)) by lia.
    rewrite take_ge by lia. done. }
  pose proof (MemoryArchive.round64_ge n).
  assert (Hlen : length (splice 0 buffer (MemoryArchive.buf_malloc junk
     (MemoryArchive.round64 n))) = MemoryArchive.round64 n).
  { rewrite length_splice; rewrite MemoryArchive.length_buf_malloc; lia. }
  exists b. unfold MemoryArchive.write_raw. rewrite Hprep, (proj2 (Nat.ltb_lt _ _)) by lia.
  unfold MemoryArchive.advance_end, MemoryArchive.capacity. cbn [MemoryArchive.a_end].
  rewrite !MemoryArchive.mem_mk, SCHECK_ok; cycle 1.
  { rewrite length_splice; rewrite Hlen; [apply Nat.leb_le; lia|lia]. }
  eexists. split; [done|]. split; [apply take_ge; cbn; lia|]. split; [done|].
  unfold MemoryArchive.content. cbn [MemoryArchive.a_end MemoryArchive.with_end
    MemoryArchive.a_cursor]. rewrite slice_alt.
  change (drop 0 (take (0 + length p) (splice 0 p (splice 0 buffer (MemoryArchive.buf_malloc
     junk (MemoryArchive.round64 n))))) = p).
  rewrite take_splice by lia. done.
Qed.

Lemma foreign_buffer_growth_drops_content_witness :
  ∃ b c, MemoryArchive.set_read_buffer (MemoryArchive.MemoryArchive_ false)
           [Byte.x01; Byte.x02] MemoryArchive.DelUser = Ok b ∧
         MemoryArchive.content b = [Byte.x01; Byte.x02] ∧
         MemoryArchive.write_raw (λ _, Byte.x00) b [Byte.x03] = Ok c ∧
         MemoryArchive.content c = [Byte.x03].
Proof. apply foreign_buffer_growth_drops_content. discriminate. Defined.
