(* ===== verification/Serialize.v ===== *)
(** * Binary serialization

    [Archive<BinaryArchiveType>] and the [pico_serialize]/[pico_deserialize] overloads
    of src/src/rpc/Archive.h for binary archives.  The overload set is a combinator
    library: a [codec T] is the pair of functions the overloads for [T] define, and an
    overload for a container takes the codec of its elements.  The functions return
    the archive after the call together with their boolean result ([None] is [false]
    for [pico_deserialize], which otherwise hands back the value it has filled in).

    The interface between the overloads and their users is the class [Lawful]: what
    a codec writes is appended to the archive, and reading it back consumes exactly
    those bytes and gives the value back.  Every overload has an instance, so that
    the round trip of a compound type is found by instance resolution. *)
From S2P Require Import Prelude Archive.
Import MemoryArchive.

(** ** Values of arithmetic type *)
Record int_type := IntType { it_size : nat; it_signed : bool }.

Definition t_i8 := IntType 1 true.
Definition t_i16 := IntType 2 true.
Definition t_u16 := IntType 2 false.
Definition t_i32 := IntType 4 true.
Definition t_u32 := IntType 4 false.
Definition t_u64 := IntType 8 false.
Definition t_size := t_u64.

Definition in_int (t : int_type) (z : Z) : Prop :=
  if it_signed t then in_signed (Z.of_nat (it_size t) * 8) z
  else in_unsigned (Z.of_nat (it_size t) * 8) z.

(** A trivially copyable type: its object representation and what the bytes mean. *)
Record pod (T : Type) := Pod {
  pod_size : nat;
  pod_bytes : T → list byte;
  pod_value : list byte → T;
}.
Arguments Pod {T}.
Arguments pod_size {T}.
Arguments pod_bytes {T}.
Arguments pod_value {T}.

Definition pod_int (t : int_type) : pod Z := Pod (it_size t) (le_split (it_size t))
  (λ bs, if it_signed t then swrap (Z.of_nat (it_size t) * 8) (le_combine bs)
         else le_combine bs).

Definition pod_bool : pod bool :=
  Pod 1 (λ b, le_split 1 (Z.b2z b)) (λ bs, negb (le_combine bs =? 0)).

Section codecs.
Context (junk : nat → byte).

Record codec (T : Type) := Codec {
  pico_serialize : archive → T → result (archive * bool);
  pico_deserialize : archive → result (archive * option T);
}.
#[global] Arguments Codec {T}.
#[global] Arguments pico_serialize {T}.
#[global] Arguments pico_deserialize {T}.

(** [operator<<] and [operator>>]: a serializer that returns [false] is fatal. *)
Definition op_out {T} (c : codec T) (a : archive) (x : T) : result archive :=
  r ← pico_serialize c a x; _ ← SCHECK r.2; Ok r.1.

Definition op_in {T} (c : codec T) (a : archive) : result (archive * T) :=
  match pico_deserialize c a with
  | Ok (a, Some x) => Ok (a, x)
  | _ => Abort
  end.

(** *** Plain old data *)
Definition write_pod_uncheck {T} (p : pod T) (a : archive) (x : T) : result (archive * bool) :=
  a ← write_raw junk a (pod_bytes p x); Ok (a, true).

Definition read_pod_uncheck {T} (p : pod T) (a : archive) : result (archive * option T) :=
  if is_exhausted a then Ok (a, None)
  else r ← read_raw a (pod_size p); Ok (r.1, Some (pod_value p r.2)).

(** Arithmetic types. *)
Definition c_pod {T} (p : pod T) : codec T := Codec (write_pod_uncheck p) (read_pod_uncheck p).
Definition c_int (t : int_type) : codec Z := c_pod (pod_int t).
Definition c_bool : codec bool := c_pod pod_bool.

(** *** Sequencing

    [if (!pico_serialize(ar, x)) return false; rest] and the same for reading. *)
Definition and_also (m : result (archive * bool)) (k : archive → result (archive * bool))
    : result (archive * bool) :=
  match m with
  | Ok (a, true) => k a
  | Ok (a, false) => Ok (a, false)
  | Abort => Abort
  end.

Definition and_then {A B} (m : result (archive * option A))
    (k : archive → A → result (archive * option B)) : result (archive * option B) :=
  match m with
  | Ok (a, Some x) => k a x
  | Ok (a, None) => Ok (a, None)
  | Abort => Abort
  end.

(** [PICO_ENUM_SERIALIZATION(TYPE, INTTYPE)]: [to] and [from] are the casts. *)
Definition c_enum {E} (t : int_type) (to : E → Z) (from : Z → E) : codec E := Codec
  (λ a e, and_also (pico_serialize (c_int t) a (to e)) (λ a, Ok (a, true)))
  (λ a, and_then (pico_deserialize (c_int t) a) (λ a z, Ok (a, Some (from z)))).

(** *** Sequences of values *)
Fixpoint serialize_list {T} (c : codec T) (a : archive) (xs : list T) : result (archive * bool) :=
  match xs with
  | [] => Ok (a, true)
  | x :: xs => and_also (pico_serialize c a x) (λ a, serialize_list c a xs)
  end.

Fixpoint deserialize_list {T} (c : codec T) (a : archive) (n : nat)
    : result (archive * option (list T)) :=
  match n with
  | O => Ok (a, Some [])
  | S n =>
      and_then (pico_deserialize c a) (λ a x,
      and_then (deserialize_list c a n) (λ a xs, Ok (a, Some (x :: xs))))
  end.

(** [std::vector<T>] of a type that is not trivially copyable, element by element. *)
Definition c_vector {T} (c : codec T) : codec (list T) := Codec
  (λ a xs, and_also (pico_serialize (c_int t_size) a (Z.of_nat (length xs)))
             (λ a, serialize_list c a xs))
  (λ a, and_then (pico_deserialize (c_int t_size) a)
          (λ a size, deserialize_list c a (Z.to_nat size))).

(** [std::deque<T>] and [std::valarray<T>]: element by element whatever [T] is. *)
Definition c_deque {T} (c : codec T) : codec (list T) := Codec
  (λ a xs, and_also (pico_serialize (c_int t_size) a (Z.of_nat (length xs)))
             (λ a, serialize_list c a xs))
  (λ a, and_then (pico_deserialize (c_int t_size) a)
          (λ a size, deserialize_list c a (Z.to_nat size))).

Definition c_valarray {T} (c : codec T) : codec (list T) := Codec
  (λ a xs, and_also (pico_serialize (c_int t_size) a (Z.of_nat (length xs)))
             (λ a, serialize_list c a xs))
  (λ a, and_then (pico_deserialize (c_int t_size) a)
          (λ a size, deserialize_list c a (Z.to_nat size))).

(** The object representation of an array of [T]. *)
Definition pods_bytes {T} (p : pod T) (xs : list T) : list byte := xs ≫= pod_bytes p.

Fixpoint pods_value {T} (p : pod T) (n : nat) (bs : list byte) : list T :=
  match n with
  | O => []
  | S n => pod_value p (take (pod_size p) bs) :: pods_value p n (drop (pod_size p) bs)
  end.

(** [std::vector<T>] of a trivially copyable type: the size and one block of memory. *)
Definition c_vector_pod {T} (p : pod T) : codec (list T) := Codec
  (λ a xs, and_also (pico_serialize (c_int t_size) a (Z.of_nat (length xs)))
             (λ a, write_raw_uncheck junk a (pods_bytes p xs)))
  (λ a, and_then (pico_deserialize (c_int t_size) a)
          (λ a size, let n := Z.to_nat size in
             and_then (read_raw_uncheck a (pod_size p * n)) (λ a bs, Ok (a, Some (pods_value p n bs))))).

(** [std::array<T, N>]: no size. *)
Definition c_array_pod {T} (p : pod T) (N : nat) : codec (list T) := Codec
  (λ a xs, write_raw_uncheck junk a (pods_bytes p xs))
  (λ a, and_then (read_raw_uncheck a (pod_size p * N)) (λ a bs, Ok (a, Some (pods_value p N bs)))).

Definition c_array {T} (c : codec T) (N : nat) : codec (list T) := Codec
  (λ a xs, serialize_list c a xs) (λ a, deserialize_list c a N).

(** [T (&arr)[N]]: the size is written and must match. *)
Definition c_carray_pod {T} (p : pod T) (N : nat) : codec (list T) := Codec
  (λ a xs, and_also (pico_serialize (c_int t_size) a (Z.of_nat N))
             (λ a, write_raw_uncheck junk a (pods_bytes p xs)))
  (λ a, and_then (pico_deserialize (c_int t_size) a)
          (λ a size, if size =? Z.of_nat N then
             and_then (read_raw_uncheck a (pod_size p * N)) (λ a bs, Ok (a, Some (pods_value p N bs)))
             else Ok (a, None))).

Definition c_carray {T} (c : codec T) (N : nat) : codec (list T) := Codec
  (λ a xs, and_also (pico_serialize (c_int t_size) a (Z.of_nat N))
             (λ a, serialize_list c a xs))
  (λ a, and_then (pico_deserialize (c_int t_size) a)
          (λ a size, if size =? Z.of_nat N then deserialize_list c a N else Ok (a, None))).

(** [std::string]. *)
Definition c_string : codec (list byte) := Codec
  (λ a str, and_also (pico_serialize (c_int t_size) a (Z.of_nat (length str)))
              (λ a, write_raw_uncheck junk a str))
  (λ a, and_then (pico_deserialize (c_int t_size) a) (λ a size, read_raw_uncheck a (Z.to_nat size))).

(** *** [std::vector<bool>]: 64 flags per word *)
Fixpoint serialize_bits (a : archive) (bits offset : Z) (vect : list bool)
    : result (archive * bool) :=
  match vect with
  | [] => if 0 <? offset then a ← op_out (c_int t_u64) a bits; Ok (a, true) else Ok (a, true)
  | val :: vect =>
      let set bits offset := if val : bool then Z.lor bits (Z.shiftl 1 offset) else bits in
      if offset =? 64 then
        and_also (pico_serialize (c_int t_u64) a bits) (λ a, serialize_bits a (set 0 0) 1 vect)
      else serialize_bits a (set bits offset) (offset + 1) vect
  end.

Fixpoint deserialize_bits (a : archive) (bits offset : Z) (n : nat)
    : result (archive * option (list bool)) :=
  match n with
  | O => Ok (a, Some [])
  | S n =>
      if offset =? 64 then
        and_then (pico_deserialize (c_int t_u64) a) (λ a bits,
        and_then (deserialize_bits a bits 1 n) (λ a vect,
          Ok (a, Some (negb (Z.land bits (Z.shiftl 1 0) =? 0) :: vect))))
      else
        and_then (deserialize_bits a bits (offset + 1) n) (λ a vect,
          Ok (a, Some (negb (Z.land bits (Z.shiftl 1 offset) =? 0) :: vect)))
  end.

Definition c_vector_bool : codec (list bool) := Codec
  (λ a xs, and_also (pico_serialize (c_int t_size) a (Z.of_nat (length xs)))
             (λ a, serialize_bits a 0 0 xs))
  (λ a, and_then (pico_deserialize (c_int t_size) a)
          (λ a size, deserialize_bits a 0 64 (Z.to_nat size))).

(** *** Pairs, and the fields of a [PICO_SERIALIZATION] structure *)
Definition c_pair {A B} (ca : codec A) (cb : codec B) : codec (A * B) := Codec
  (λ a p, and_also (pico_serialize ca a p.1) (λ a, pico_serialize cb a p.2))
  (λ a, and_then (pico_deserialize ca a) (λ a x,
        and_then (pico_deserialize cb a) (λ a y, Ok (a, Some (x, y))))).

(** *** Keyed containers.  [elems] is the iteration order of the container. *)
Section keyed.
Context {K : Type} `{Countable K}.

Fixpoint deserialize_map {V} (ck : codec K) (cv : codec V) (a : archive) (m : gmap K V) (n : nat)
    : result (archive * option (gmap K V)) :=
  match n with
  | O => Ok (a, Some m)
  | S n =>
      and_then (pico_deserialize ck a) (λ a k,
      and_then (pico_deserialize cv a) (λ a v,
        match m !! k with
        | Some _ => Ok (a, None)
        | None => deserialize_map ck cv a (<[k:=v]> m) n
        end))
  end.

(** [std::map], [std::unordered_map] and [HashTable]. *)
Definition c_map {V} (elems : gmap K V → list (K * V)) (ck : codec K) (cv : codec V)
    : codec (gmap K V) := Codec
  (λ a m, and_also (pico_serialize (c_int t_size) a (Z.of_nat (size m)))
            (λ a, serialize_list (c_pair ck cv) a (elems m)))
  (λ a, and_then (pico_deserialize (c_int t_size) a)
          (λ a size, deserialize_map ck cv a ∅ (Z.to_nat size))).

Fixpoint deserialize_set (ck : codec K) (a : archive) (s : gset K) (n : nat)
    : result (archive * option (gset K)) :=
  match n with
  | O => Ok (a, Some s)
  | S n =>
      and_then (pico_deserialize ck a) (λ a k,
        if bool_decide (k ∈ s) then Ok (a, None) else deserialize_set ck a ({[k]} ∪ s) n)
  end.

(** [std::set] and [std::unordered_set]. *)
Definition c_set (elems : gset K → list K) (ck : codec K) : codec (gset K) := Codec
  (λ a s, and_also (pico_serialize (c_int t_size) a (Z.of_nat (size s)))
            (λ a, serialize_list ck a (elems s)))
  (λ a, and_then (pico_deserialize (c_int t_size) a)
          (λ a size, deserialize_set ck a ∅ (Z.to_nat size))).
End keyed.

End codecs.

(** ** The interface *)
Definition ready (a : archive) : Prop := wf a ∧ a_is_default_malloc a = true.

(** [a'] is [a] after [bs] was appended, and after [bs] was consumed. *)
Definition appended (a : archive) (bs : list byte) (a' : archive) : Prop :=
  ready a' ∧ content a' = content a ++ bs ∧ a_cursor a' = a_cursor a.
Definition consumed (a : archive) (rest : list byte) (a' : archive) : Prop :=
  wf a' ∧ content a' = rest ∧ a_is_default_malloc a' = a_is_default_malloc a.

Class Lawful {T} (c : codec T) (valid : T → Prop) (enc : T → list byte) := {
  lawful_ser a x : ready a → valid x →
    ∃ a', pico_serialize c a x = Ok (a', true) ∧ appended a (enc x) a';
  lawful_des a x rest : wf a → valid x → content a = enc x ++ rest →
    ∃ a', pico_deserialize c a = Ok (a', Some x) ∧ consumed a rest a';
}.

Class LawfulPod {T} (p : pod T) (valid : T → Prop) := {
  lawful_pod_size x : length (pod_bytes p x) = pod_size p;
  lawful_pod_pos : (0 < pod_size p)%nat;
  lawful_pod_value x : valid x → pod_value p (pod_bytes p x) = x;
}.

(** The side condition of the integer instances. *)
#[global] Hint Extern 1 (0 < it_size _)%nat => first [assumption | cbn; lia] : typeclass_instances.

Section laws.
Context (junk : nat → byte).

Lemma and_also_ok m k a : m = Ok (a, true) → and_also m k = k a.
Proof. by intros ->. Qed.

Lemma and_then_ok {A B} (m : result (archive * option A))
    (k : archive → A → result (archive * option B)) a x :
  m = Ok (a, Some x) → and_then m k = k a x.
Proof. by intros ->. Qed.

Lemma appended_trans a bs1 b bs2 c :
  appended a bs1 b → appended b bs2 c → appended a (bs1 ++ bs2) c.
Proof.
  intros (_&H1&C1) (?&H2&C2). unfold appended. by rewrite H2, H1, app_assoc, C2, C1.
Qed.

Lemma appended_nil a : ready a → appended a [] a.
Proof. intros. unfold appended. by rewrite app_nil_r. Qed.

Lemma consumed_trans a r1 b r2 c : consumed a r1 b → consumed b r2 c → consumed a r2 c.
Proof. intros (_&_&H1) (?&?&H2). unfold consumed. rewrite <- H1. auto. Qed.

Lemma write_raw_appended a bs :
  ready a → ∃ a', write_raw_uncheck junk a bs = Ok (a', true) ∧ appended a bs a'.
Proof.
  intros [Hwf Hd]. destruct (write_raw_uncheck_spec junk a bs Hwf Hd) as (a'&?&?&?&?&?).
  exists a'. unfold appended, ready. auto.
Qed.

Lemma read_raw_consumed a bs rest :
  wf a → content a = bs ++ rest →
  ∃ a', read_raw_uncheck a (length bs) = Ok (a', Some bs) ∧ consumed a rest a'.
Proof.
  intros Hwf Hc. pose proof (length_content a Hwf) as Hl. rewrite Hc, length_app in Hl.
  destruct (read_raw_uncheck_spec a (length bs) Hwf) as (a'&Hr&?&Hc'&?); [lia|].
  exists a'. rewrite Hc, take_app_length in Hr. rewrite Hc, drop_app_length in Hc'.
  unfold consumed. auto.
Qed.

#[global] Instance lawful_pod_int t :
  (0 < it_size t)%nat → LawfulPod (pod_int t) (in_int t).
Proof.
  intros Hs. split; cbn.
  - apply length_le_split.
  - done.
  - intros z Hz. rewrite le_combine_split.
    fold (wrap (Z.of_nat (it_size t) * 8) z). unfold in_int in Hz. destruct (it_signed t).
    + rewrite (swrap_wrap _ z), swrap_small by (done || lia). done.
    + by apply wrap_small.
Qed.

#[global] Instance lawful_pod_bool : LawfulPod pod_bool (λ _, True).
Proof. split; [done|cbn; lia|]. by intros []. Qed.

#[global] Instance lawful_c_pod {T} (p : pod T) valid :
  LawfulPod p valid → Lawful (c_pod junk p) valid (pod_bytes p).
Proof.
  intros Hp. split; cbn.
  - intros a x Ha _. destruct (write_raw_appended a (pod_bytes p x) Ha) as (a'&Hw&?).
    unfold write_raw_uncheck in Hw. apply bind_ok in Hw as (?&Hw&[= ->]).
    exists a'. unfold write_pod_uncheck. by rewrite Hw.
  - intros a x rest Hwf Hx Hc. destruct (read_raw_consumed a _ _ Hwf Hc) as (a'&Hr&?).
    exists a'. unfold read_raw_uncheck in Hr. rewrite lawful_pod_size in Hr.
    pose proof lawful_pod_pos. destruct (Nat.ltb_spec 0 (pod_size p)); [|lia].
    unfold read_pod_uncheck. destruct (is_exhausted a); [done|].
    apply bind_ok in Hr as ([? ?]&->&[= -> ->]). cbn. by rewrite lawful_pod_value.
Qed.

#[global] Instance lawful_c_int t :
  (0 < it_size t)%nat → Lawful (c_int junk t) (in_int t) (le_split (it_size t)).
Proof. intros. apply (lawful_c_pod (pod_int t)). by apply lawful_pod_int. Qed.

#[global] Instance lawful_c_size : Lawful (c_int junk t_size) (in_int t_size) (le_split 8).
Proof. apply (lawful_c_int t_size). cbn. lia. Qed.

#[global] Instance lawful_c_bool :
  Lawful (c_bool junk) (λ _, True) (λ b, le_split 1 (Z.b2z b)).
Proof. apply (lawful_c_pod pod_bool), _. Qed.

#[global] Instance lawful_c_enum {E} t (to : E → Z) from (valid : E → Prop) :
  (0 < it_size t)%nat → (∀ e, valid e → in_int t (to e) ∧ from (to e) = e) →
  Lawful (c_enum junk t to from) valid (λ e, le_split (it_size t) (to e)).
Proof.
  intros Hs Hv. split; cbn.
  - intros a e Ha He. destruct (lawful_ser (c := c_int junk t) a (to e)) as (a'&Hw&?);
      [done|by apply Hv|]. exists a'. by erewrite and_also_ok.
  - intros a e rest Hwf He Hc.
    destruct (lawful_des (c := c_int junk t) a (to e) rest) as (a'&Hr&?);
      [done|by apply Hv|done|]. exists a'. erewrite and_then_ok by done.
    by destruct (Hv e He) as [_ ->].
Qed.

(** *** Sequences *)
Section list_laws.
Context {T : Type} (c : codec T) (valid : T → Prop) (enc : T → list byte).
Context `{!Lawful c valid enc}.

Lemma serialize_list_ok xs : ∀ a, ready a → Forall valid xs →
  ∃ a', serialize_list c a xs = Ok (a', true) ∧ appended a (xs ≫= enc) a'.
Proof.
  induction xs as [|x xs IH]; intros a Ha Hv; cbn.
  { exists a. split; [done|by apply appended_nil]. }
  inv Hv. destruct (lawful_ser (c := c) a x) as (b&Hb&Hab); [done..|].
  erewrite and_also_ok by done. destruct (IH b) as (a'&->&?); [apply Hab|done|].
  exists a'. split; [done|]. by eapply appended_trans.
Qed.

Lemma deserialize_list_ok xs : ∀ a rest, wf a → Forall valid xs →
  content a = (xs ≫= enc) ++ rest →
  ∃ a', deserialize_list c a (length xs) = Ok (a', Some xs) ∧ consumed a rest a'.
Proof.
  induction xs as [|x xs IH]; intros a rest Hwf Hv Hc; cbn in *.
  { by exists a. }
  inv Hv. rewrite <- app_assoc in Hc.
  destruct (lawful_des (c := c) a x ((xs ≫= enc) ++ rest)) as (b&Hb&Hab);
    [done..|].
  erewrite and_then_ok by done.
  destruct (IH b rest) as (a'&Hr&?); [apply Hab|done|apply Hab|].
  exists a'. erewrite and_then_ok by done. split; [done|]. by eapply consumed_trans.
Qed.

(** A size prefix followed by a body that is lawful for containers of that size. *)
Lemma sized_ser a n (k : archive → result (archive * bool)) bs :
  ready a → in_int t_size (Z.of_nat n) →
  (∀ b, ready b → ∃ b', k b = Ok (b', true) ∧ appended b bs b') →
  ∃ a', and_also (pico_serialize (c_int junk t_size) a (Z.of_nat n)) k = Ok (a', true) ∧
        appended a (le_split 8 (Z.of_nat n) ++ bs) a'.
Proof.
  intros Ha Hn Hk. destruct (lawful_ser (c := c_int junk t_size) a (Z.of_nat n)) as (b&Hb&Hab);
    [done..|]. erewrite and_also_ok by done.
  destruct (Hk b) as (a'&->&?); [apply Hab|]. exists a'. split; [done|].
  by eapply appended_trans.
Qed.

Lemma sized_des {B} a n (k : archive → Z → result (archive * option B)) bs rest y :
  wf a → in_int t_size (Z.of_nat n) → content a = (le_split 8 (Z.of_nat n) ++ bs) ++ rest →
  (∀ b, wf b → content b = bs ++ rest →
     ∃ b', k b (Z.of_nat n) = Ok (b', Some y) ∧ consumed b rest b') →
  ∃ a', and_then (pico_deserialize (c_int junk t_size) a) k = Ok (a', Some y) ∧
        consumed a rest a'.
Proof.
  intros Hwf Hn Hc Hk. rewrite <- app_assoc in Hc.
  destruct (lawful_des (c := c_int junk t_size) a (Z.of_nat n) _ Hwf Hn Hc) as (b&Hb&Hab).
  erewrite and_then_ok by done.
  destruct (Hk b) as (a'&->&?); [apply Hab..|]. exists a'. split; [done|].
  by eapply consumed_trans.
Qed.
End list_laws.

Definition valid_list {T} (valid : T → Prop) (xs : list T) : Prop :=
  in_int t_size (Z.of_nat (length xs)) ∧ Forall valid xs.
Definition enc_list {T} (enc : T → list byte) (xs : list T) : list byte :=
  le_split 8 (Z.of_nat (length xs)) ++ (xs ≫= enc).

#[global] Instance lawful_c_vector {T} (c : codec T) valid enc :
  Lawful c valid enc → Lawful (c_vector junk c) (valid_list valid) (enc_list enc).
Proof.
  intros Hc. split; cbn.
  - intros a xs Ha [??]. apply sized_ser; [done..|]. intros. by eapply serialize_list_ok.
  - intros a xs rest Hwf [??] Hcont. eapply sized_des; [done..|]. intros b Hb Hcb.
    cbn. rewrite Nat2Z.id. by eapply deserialize_list_ok.
Qed.

#[global] Instance lawful_c_deque {T} (c : codec T) valid enc :
  Lawful c valid enc → Lawful (c_deque junk c) (valid_list valid) (enc_list enc).
Proof. apply lawful_c_vector. Qed.

#[global] Instance lawful_c_valarray {T} (c : codec T) valid enc :
  Lawful c valid enc → Lawful (c_valarray junk c) (valid_list valid) (enc_list enc).
Proof. apply lawful_c_vector. Qed.

#[global] Instance lawful_c_string :
  Lawful (c_string junk) (λ s, in_int t_size (Z.of_nat (length s)))
    (λ s, le_split 8 (Z.of_nat (length s)) ++ s).
Proof.
  split; cbn [c_string pico_serialize pico_deserialize].
  - intros a s Ha Hs. apply sized_ser; [done..|]. intros. by apply write_raw_appended.
  - intros a s rest Hwf Hs Hcont. eapply sized_des; [done..|]. intros b Hb Hcb.
    cbn. rewrite Nat2Z.id. by apply read_raw_consumed.
Qed.

#[global] Instance lawful_c_pair {A B} (ca : codec A) (cb : codec B) va vb ea eb :
  Lawful ca va ea → Lawful cb vb eb →
  Lawful (c_pair ca cb) (λ p, va p.1 ∧ vb p.2) (λ p, ea p.1 ++ eb p.2).
Proof.
  intros Ha Hb. split; cbn.
  - intros a [x y] Hr [??]; cbn in *.
    destruct (lawful_ser (c := ca) a x) as (b&?&Hab); [done..|].
    erewrite and_also_ok by done.
    destruct (lawful_ser (c := cb) b y) as (a'&?&?); [apply Hab|done|].
    exists a'. split; [done|]. by eapply appended_trans.
  - intros a [x y] rest Hwf [??] Hc; cbn in *. rewrite <- app_assoc in Hc.
    destruct (lawful_des (c := ca) a x (eb y ++ rest)) as (b&?&Hab); [done..|].
    erewrite and_then_ok by done.
    destruct (lawful_des (c := cb) b y rest) as (a'&?&?); [apply Hab|done|apply Hab|].
    exists a'. erewrite and_then_ok by done. split; [done|]. by eapply consumed_trans.
Qed.
(** *** Blocks of trivially copyable values *)
Section pods_laws.
Context {T : Type} (p : pod T) (valid : T → Prop) `{!LawfulPod p valid}.

Lemma length_pods_bytes xs : length (pods_bytes p xs) = (pod_size p * length xs)%nat.
Proof.
  induction xs as [|x xs IH]; cbn; [lia|].
  rewrite length_app, lawful_pod_size. unfold pods_bytes in IH. rewrite IH. lia.
Qed.

Lemma pods_value_bytes xs :
  Forall valid xs → pods_value p (length xs) (pods_bytes p xs) = xs.
Proof.
  induction 1 as [|x xs Hx _ IH]; cbn; [done|].
  rewrite take_app_length' by (symmetry; apply lawful_pod_size).
  rewrite drop_app_length' by (symmetry; apply lawful_pod_size).
  rewrite lawful_pod_value by done. unfold pods_bytes in IH. by rewrite IH.
Qed.

Lemma read_pods_ok a xs rest :
  wf a → Forall valid xs → content a = pods_bytes p xs ++ rest →
  ∃ a', and_then (read_raw_uncheck a (pod_size p * length xs))
          (λ a bs, Ok (a, Some (pods_value p (length xs) bs))) = Ok (a', Some xs) ∧
        consumed a rest a'.
Proof.
  intros Hwf Hv Hc. rewrite <- length_pods_bytes.
  destruct (read_raw_consumed a _ _ Hwf Hc) as (a'&Hr&?). exists a'.
  erewrite and_then_ok by done. by rewrite pods_value_bytes.
Qed.

#[global] Instance lawful_c_vector_pod :
  Lawful (c_vector_pod junk p) (valid_list valid) (enc_list (pod_bytes p)).
Proof.
  split; cbn [c_vector_pod pico_serialize pico_deserialize].
  - intros a xs Ha [??]. apply sized_ser; [done..|]. intros. by apply write_raw_appended.
  - intros a xs rest Hwf [??] Hcont. eapply sized_des; [done..|]. intros b Hb Hcb.
    cbv zeta. rewrite Nat2Z.id. by apply read_pods_ok.
Qed.

#[global] Instance lawful_c_array_pod N :
  Lawful (c_array_pod junk p N) (λ xs, length xs = N ∧ Forall valid xs) (pods_bytes p).
Proof.
  split; cbn [c_array_pod pico_serialize pico_deserialize].
  - intros a xs Ha _. by apply write_raw_appended.
  - intros a xs rest Hwf [<- ?] Hc. by apply read_pods_ok.
Qed.

#[global] Instance lawful_c_carray_pod N :
  Lawful (c_carray_pod junk p N) (λ xs, length xs = N ∧ valid_list valid xs)
    (enc_list (pod_bytes p)).
Proof.
  split; cbn [c_carray_pod pico_serialize pico_deserialize].
  - intros a xs Ha [<- [??]]. apply sized_ser; [done..|]. intros.
    by apply write_raw_appended.
  - intros a xs rest Hwf [<- [??]] Hcont. eapply sized_des; [done..|]. intros b Hb Hcb.
    cbv beta. rewrite Z.eqb_refl. by apply read_pods_ok.
Qed.
End pods_laws.

#[global] Instance lawful_c_array {T} (c : codec T) valid enc N :
  Lawful c valid enc →
  Lawful (c_array c N) (λ xs, length xs = N ∧ Forall valid xs) (λ xs, xs ≫= enc).
Proof.
  intros Hc. split; cbn.
  - intros a xs Ha [_ ?]. by eapply serialize_list_ok.
  - intros a xs rest Hwf [<- ?] ?. by eapply deserialize_list_ok.
Qed.

#[global] Instance lawful_c_carray {T} (c : codec T) valid enc N :
  Lawful c valid enc →
  Lawful (c_carray junk c N) (λ xs, length xs = N ∧ valid_list valid xs) (enc_list enc).
Proof.
  intros Hc. split; cbn [c_carray pico_serialize pico_deserialize].
  - intros a xs Ha [<- [??]]. apply sized_ser; [done..|]. intros. by eapply serialize_list_ok.
  - intros a xs rest Hwf [<- [??]] Hcont. eapply sized_des; [done..|]. intros b Hb Hcb.
    cbv beta. rewrite Z.eqb_refl. by eapply deserialize_list_ok.
Qed.

(** *** Packed flags *)
Fixpoint word_of (vs : list bool) : Z :=
  match vs with [] => 0 | v :: vs => Z.b2z v + 2 * word_of vs end.

Lemma word_of_bit vs i : Z.testbit (word_of vs) (Z.of_nat i) = default false (vs !! i).
Proof.
  revert i. induction vs as [|v vs IH]; intros i; [by rewrite Z.bits_0|].
  cbn [word_of]. rewrite Z.add_comm. destruct i as [|i].
  - apply Z.testbit_0_r.
  - rewrite Nat2Z.inj_succ, Z.testbit_succ_r by lia. apply IH.
Qed.

Lemma word_of_range vs : 0 ≤ word_of vs < 2 ^ Z.of_nat (length vs).
Proof.
  induction vs as [|v vs IH]; cbn [word_of length]; [done|].
  rewrite Nat2Z.inj_succ, Z.pow_succ_r by lia. destruct v; cbn; lia.
Qed.

Lemma word_of_u64 vs : (length vs ≤ 64)%nat → in_int t_u64 (word_of vs).
Proof.
  intros. unfold in_int, in_unsigned; cbn. pose proof (word_of_range vs).
  pose proof (Z.pow_le_mono_r 2 (Z.of_nat (length vs)) 64). lia.
Qed.

Lemma land_bit b n : 0 ≤ n → negb (Z.land b (Z.shiftl 1 n) =? 0) = Z.testbit b n.
Proof.
  intros. rewrite Z.shiftl_1_l. destruct (Z.testbit b n) eqn:E.
  - apply negb_true_iff, Z.eqb_neq. intros Hz.
    assert (Ht : Z.testbit (Z.land b (2 ^ n)) n = false) by (by rewrite Hz, Z.bits_0).
    rewrite Z.land_spec, Z.pow2_bits_true, E in Ht by done. done.
  - apply negb_false_iff, Z.eqb_eq, Z.bits_inj'. intros m Hm.
    rewrite Z.land_spec, Z.bits_0, Z.pow2_bits_eqb by done.
    destruct (Z.eqb_spec n m) as [<-|]; [by rewrite E|apply andb_false_r].
Qed.

Lemma word_of_snoc vs v :
  (if v : bool then Z.lor (word_of vs) (Z.shiftl 1 (Z.of_nat (length vs))) else word_of vs)
  = word_of (vs ++ [v]).
Proof.
  apply Z.bits_inj'. intros n Hn. rewrite <- (Z2Nat.id n) by done.
  rewrite word_of_bit. set (i := Z.to_nat n).
  destruct (decide (i < length vs)%nat).
  - rewrite lookup_app_l by done. destruct v; [|apply word_of_bit].
    rewrite Z.lor_spec, word_of_bit, Z.shiftl_1_l, Z.pow2_bits_false by lia.
    apply orb_false_r.
  - rewrite lookup_app_r by lia.
    assert (Hv : Z.testbit (word_of vs) (Z.of_nat i) = false).
    { rewrite word_of_bit, (proj2 (lookup_ge_None vs i)) by lia. done. }
    destruct (decide (i = length vs)) as [Heq|].
    + rewrite Heq in *. rewrite Nat.sub_diag; cbn.
      destruct v; [|done]. rewrite Z.lor_spec, Z.shiftl_1_l, Z.pow2_bits_true by lia.
      apply orb_true_r.
    + destruct (i - length vs)%nat eqn:E; [lia|]. cbn.
      destruct v; [|done]. rewrite Z.lor_spec, Hv, Z.shiftl_1_l, Z.pow2_bits_false by lia.
      done.
Qed.

(** The words written for [vs] when the flags [done] are pending in the current one. *)
Fixpoint enc_bits (pending vs : list bool) : list byte :=
  match vs with
  | [] => if (0 <? length pending)%nat then le_split 8 (word_of pending) else []
  | v :: vs =>
      if (length pending =? 64)%nat then le_split 8 (word_of pending) ++ enc_bits [v] vs
      else enc_bits (pending ++ [v]) vs
  end.

Lemma enc_bits_unfold pending vs :
  (length pending ≤ 64)%nat → pending ++ vs ≠ [] →
  enc_bits pending vs = le_split 8 (word_of (take 64 (pending ++ vs))) ++
                        enc_bits [] (drop 64 (pending ++ vs)).
Proof.
  revert pending. induction vs as [|v vs IH]; intros pending Hl Hne.
  - rewrite app_nil_r in *. rewrite take_ge, drop_ge by done. cbn [enc_bits length].
    destruct (Nat.ltb_spec 0 (length pending)); [by rewrite app_nil_r|].
    destruct pending; cbn in *; [done|lia].
  - cbn [enc_bits]. destruct (Nat.eqb_spec (length pending) 64).
    + rewrite take_app_length', drop_app_length' by done. done.
    + rewrite IH by (rewrite ?length_app; cbn; lia || by destruct pending).
      by rewrite <- app_assoc.
Qed.

Lemma serialize_bits_ok vs : ∀ a pending,
  ready a → (length pending ≤ 64)%nat →
  ∃ a', serialize_bits junk a (word_of pending) (Z.of_nat (length pending)) vs = Ok (a', true) ∧
        appended a (enc_bits pending vs) a'.
Proof.
  induction vs as [|v vs IH]; intros a pending Ha Hl; cbn [serialize_bits enc_bits].
  - destruct (Nat.ltb_spec 0 (length pending)), (Z.ltb_spec 0 (Z.of_nat (length pending)));
      try lia.
    + destruct (lawful_ser (c := c_int junk t_u64) a (word_of pending)) as (a'&Hw&?);
        [done|by apply word_of_u64|]. exists a'. unfold op_out. rewrite Hw. done.
    + exists a. split; [done|]. split; [done|]. by rewrite app_nil_r.
  - destruct (Nat.eqb_spec (length pending) 64), (Z.eqb_spec (Z.of_nat (length pending)) 64);
      try lia.
    + destruct (lawful_ser (c := c_int junk t_u64) a (word_of pending)) as (b&Hw&Hab);
        [done|by apply word_of_u64|]. erewrite and_also_ok by done.
      destruct (IH b [v]) as (a'&Hr&?); [apply Hab|cbn; lia|]. exists a'.
      change (word_of [v]) with (word_of ([] ++ [v])) in Hr.
      rewrite <- word_of_snoc in Hr. split; [exact Hr|]. by eapply appended_trans.
    + rewrite (word_of_snoc pending v).
      replace (Z.of_nat (length pending) + 1) with (Z.of_nat (length (pending ++ [v])))
        by (rewrite length_app; cbn; lia).
      apply IH; [done|]. rewrite length_app. cbn. lia.
Qed.

Lemma deserialize_bits_ok vs : ∀ a rest bits w off,
  wf a → (off ≤ 64)%nat → length w = off →
  (off < 64 → bits = word_of (w ++ take (64 - off) vs))%nat →
  content a = enc_bits [] (drop (64 - off) vs) ++ rest →
  ∃ a', deserialize_bits junk a bits (Z.of_nat off) (length vs) = Ok (a', Some vs) ∧
        consumed a rest a'.
Proof.
  induction vs as [|v vs IH]; intros a rest bits w off Hwf Hoff Hw Hbits Hc.
  { exists a. rewrite drop_nil in Hc. split; [done|]. unfold consumed. auto. }
  cbn [deserialize_bits length]. destruct (Z.eqb_spec (Z.of_nat off) 64).
  - replace off with 64%nat in Hc by lia. cbn [Nat.sub drop] in Hc.
    rewrite enc_bits_unfold, <- app_assoc in Hc by (cbn; lia || done). cbn [app] in Hc.
    destruct (lawful_des (c := c_int junk t_u64) a (word_of (take 64 (v :: vs)))
      (enc_bits [] (drop 64 (v :: vs)) ++ rest)) as (b&Hr&Hab);
      [done|apply word_of_u64; rewrite length_take; lia|done|].
    erewrite and_then_ok by done.
    destruct (IH b rest (word_of (take 64 (v :: vs))) [v] 1%nat) as (a'&Hr'&?);
      [apply Hab|lia|done|done|apply Hab|].
    exists a'. erewrite and_then_ok by exact Hr'.
    rewrite (land_bit _ 0) by lia. rewrite (word_of_bit _ 0). split; [done|].
    by eapply consumed_trans.
  - rewrite Hbits by lia.
    assert (E : (64 - off = S (64 - S off))%nat) by lia. rewrite E in *.
    cbn [take drop] in *.
    destruct (IH a rest (word_of (w ++ v :: take (64 - S off) vs)) (w ++ [v]) (S off))
      as (a'&Hr&?); [done|lia|rewrite length_app; cbn; lia|by rewrite <- app_assoc|done|].
    rewrite Nat2Z.inj_succ, <- Z.add_1_r in Hr.
    exists a'. erewrite and_then_ok by exact Hr.
    rewrite land_bit, word_of_bit by lia. rewrite lookup_app_r by lia.
    replace (off - length w)%nat with 0%nat by lia. done.
Qed.

#[global] Instance lawful_c_vector_bool :
  Lawful (c_vector_bool junk) (λ vs, in_int t_size (Z.of_nat (length vs)))
    (λ vs, le_split 8 (Z.of_nat (length vs)) ++ enc_bits [] vs).
Proof.
  split; cbn [c_vector_bool pico_serialize pico_deserialize].
  - intros a vs Ha ?. apply sized_ser; [done..|]. intros b Hb.
    apply (serialize_bits_ok vs b []); [done|cbn; lia].
  - intros a vs rest Hwf ? Hcont. eapply sized_des; [done..|]. intros b Hb Hcb.
    cbv beta. rewrite Nat2Z.id.
    by apply (deserialize_bits_ok vs b rest 0 (replicate 64 false) 64).
Qed.
End laws.

(** *** Keyed containers *)
Section keyed_laws.
Context (junk : nat → byte) {K : Type} `{Countable K}.
Context (ck : codec K) (vk : K → Prop) (ek : K → list byte) `{!Lawful ck vk ek}.

Section maps.
Context {V : Type} (cv : codec V) (vv : V → Prop) (ev : V → list byte) `{!Lawful cv vv ev}.
Notation enc_kv := (λ kv : K * V, ek kv.1 ++ ev kv.2).

Lemma deserialize_map_ok kvs : ∀ a m rest,
  wf a → NoDup kvs.*1 → Forall (λ kv, vk kv.1 ∧ vv kv.2 ∧ m !! kv.1 = None) kvs →
  content a = (kvs ≫= enc_kv) ++ rest →
  ∃ a', deserialize_map ck cv a m (length kvs) = Ok (a', Some (list_to_map kvs ∪ m)) ∧
        consumed a rest a'.
Proof.
  induction kvs as [|[k v] kvs IH]; intros a m rest Hwf Hnd Hv Hc; cbn in *.
  { exists a. rewrite (left_id_L ∅ (∪)). split; [done|]. unfold consumed. auto. }
  apply NoDup_cons in Hnd as [Hk Hnd]. apply Forall_cons in Hv as [(Hvk&Hvv&Hm) Hv].
  cbn in *. rewrite <- !app_assoc in Hc.
  destruct (lawful_des (c := ck) a k (ev v ++ (kvs ≫= enc_kv) ++ rest)) as (b&Hb&Hab);
    [done..|]. erewrite and_then_ok by done.
  destruct (lawful_des (c := cv) b v ((kvs ≫= enc_kv) ++ rest)) as (b'&Hb'&Hbb);
    [apply Hab|done|apply Hab|]. erewrite and_then_ok by done.
  rewrite Hm. destruct (IH b' (<[k:=v]> m) rest) as (a'&->&?); [apply Hbb|done| |apply Hbb|].
  { eapply Forall_impl; [eapply Forall_and; split; [exact Hv|]|].
    { apply Forall_forall. intros kv Hin. exact (list_elem_of_fmap_2 fst _ _ Hin). }
    intros kv [(?&?&?) Hin]. repeat split; try done.
    rewrite lookup_insert_ne; [done|]. by intros ->. }
  exists a'. split; [|by eapply consumed_trans; [|eapply consumed_trans]].
  do 3 f_equal. rewrite <- insert_union_r by by apply not_elem_of_list_to_map_1.
  by rewrite insert_union_l.
Qed.

#[global] Instance lawful_c_map (elems : gmap K V → list (K * V)) :
  (∀ m, elems m ≡ₚ map_to_list m) →
  Lawful (c_map junk elems ck cv)
    (λ m, in_int t_size (Z.of_nat (size m)) ∧ map_Forall (λ k v, vk k ∧ vv v) m)
    (λ m, le_split 8 (Z.of_nat (size m)) ++ (elems m ≫= enc_kv)).
Proof.
  intros He.
  assert (Hall : ∀ m, map_Forall (λ k v, vk k ∧ vv v) m →
    Forall (λ kv, vk kv.1 ∧ vv kv.2) (elems m)).
  { intros m Hm. rewrite He. apply Forall_forall. intros [k v] ?%elem_of_map_to_list.
    by apply (Hm k v). }
  split; cbn [c_map pico_serialize pico_deserialize].
  - intros a m Ha [??]. apply sized_ser; [done..|]. intros b Hb.
    eapply serialize_list_ok; [apply _|done|by apply Hall].
  - intros a m rest Hwf [? Hm] Hcont. eapply sized_des; [done..|]. intros b Hb Hcb.
    cbv beta. rewrite Nat2Z.id.
    assert (Hlen : length (elems m) = size m).
    { rewrite He. apply length_map_to_list. }
    assert (Hnd : NoDup (elems m).*1) by (rewrite He; apply NoDup_fst_map_to_list).
    destruct (deserialize_map_ok (elems m) b ∅ rest) as (b'&Hr&?); [done..| |done|].
    { eapply Forall_impl; [by apply Hall|]. intros kv [??]. by rewrite lookup_empty. }
    exists b'. rewrite <- Hlen, Hr, map_union_empty. split; [|done].
    do 3 f_equal. trans (list_to_map (M := gmap K V) (map_to_list m)).
    + by apply list_to_map_proper.
    + apply list_to_map_to_list.
Qed.
End maps.

Lemma deserialize_set_ok ks : ∀ a s rest,
  wf a → NoDup ks → Forall (λ k, vk k ∧ k ∉ s) ks →
  content a = (ks ≫= ek) ++ rest →
  ∃ a', deserialize_set ck a s (length ks) = Ok (a', Some (list_to_set ks ∪ s)) ∧
        consumed a rest a'.
Proof.
  induction ks as [|k ks IH]; intros a s rest Hwf Hnd Hv Hc; cbn in *.
  { exists a. rewrite (left_id_L ∅ (∪)). split; [done|]. unfold consumed. auto. }
  apply NoDup_cons in Hnd as [Hk Hnd]. apply Forall_cons in Hv as [[Hvk Hs] Hv].
  rewrite <- app_assoc in Hc. destruct (lawful_des (c := ck) a k ((ks ≫= ek) ++ rest)) as (b&Hb&Hab); [done..|].
  erewrite and_then_ok by done. rewrite bool_decide_false by done.
  destruct (IH b ({[k]} ∪ s) rest) as (a'&->&?); [apply Hab|done| |apply Hab|].
  { apply Forall_forall. intros k' Hk'. rewrite Forall_forall in Hv.
    destruct (Hv k' Hk'). set_solver. }
  exists a'. split; [|by eapply consumed_trans]. do 3 f_equal. set_solver.
Qed.

#[global] Instance lawful_c_set (elems : gset K → list K) :
  (∀ s, elems s ≡ₚ elements s) →
  Lawful (c_set junk elems ck)
    (λ s, in_int t_size (Z.of_nat (size s)) ∧ set_Forall vk s)
    (λ s, le_split 8 (Z.of_nat (size s)) ++ (elems s ≫= ek)).
Proof.
  intros He.
  assert (Hall : ∀ s, set_Forall vk s → Forall vk (elems s)).
  { intros s Hs. rewrite He. by apply set_Forall_elements. }
  split; cbn [c_set pico_serialize pico_deserialize].
  - intros a s Ha [??]. apply sized_ser; [done..|]. intros b Hb.
    eapply serialize_list_ok; [apply _|done|by apply Hall].
  - intros a s rest Hwf [? Hm] Hcont. eapply sized_des; [done..|]. intros b Hb Hcb.
    cbv beta. rewrite Nat2Z.id.
    assert (Hlen : length (elems s) = size s) by (by rewrite He).
    destruct (deserialize_set_ok (elems s) b ∅ rest) as (b'&Hr&?); [done|..|done|].
    { rewrite He. apply NoDup_elements. }
    { eapply Forall_impl; [by apply Hall|]. intros k Hk. split; [done|set_solver]. }
    exists b'. rewrite <- Hlen, Hr, (right_id_L ∅ (∪)). split; [|done].
    do 3 f_equal. apply set_eq. intros k. rewrite elem_of_list_to_set, He.
    by rewrite elem_of_elements.
Qed.
End keyed_laws.

(** ** Serializable types

    The types built from the overloads above, with strings as the keys of maps and
    sets; a value of an enumeration is its number.  [order] and [order_set] are the iteration orders of the keyed containers. *)
#[global] Instance byte_eq_dec : EqDecision byte := Byte.byte_eq_dec.
#[global] Instance byte_countable : Countable byte :=
  inj_countable Byte.to_N Byte.of_N Byte.of_to_N.

Inductive ty :=
  | TyInt (t : int_type)
  | TyBool
  | TyString
  | TyVecBool
  | TyVecInt (t : int_type)
  | TyVec (t : ty)
  | TyDeque (t : ty)
  | TyArray (N : nat) (t : ty)
  | TyPair (t1 t2 : ty)
  | TyMap (t : ty)
  | TySet
  | TyEnum (t : int_type).

Fixpoint value (t : ty) : Type :=
  match t with
  | TyInt _ | TyEnum _ => Z
  | TyBool => bool
  | TyString => list byte
  | TyVecBool => list bool
  | TyVecInt _ => list Z
  | TyVec t | TyDeque t | TyArray _ t => list (value t)
  | TyPair t1 t2 => value t1 * value t2
  | TyMap t => gmap (list byte) (value t)
  | TySet => gset (list byte)
  end.

Definition str_ok (s : list byte) : Prop := in_int t_size (Z.of_nat (length s)).

(** Every integer is in the range of its type and every size fits in a [size_t]. *)
Fixpoint valid_ty (t : ty) : value t → Prop :=
  match t with
  | TyInt it | TyEnum it => λ z, (0 < it_size it)%nat ∧ in_int it z
  | TyBool => λ _, True
  | TyString => str_ok
  | TyVecBool => λ vs, in_int t_size (Z.of_nat (length vs))
  | TyVecInt it => λ zs, (0 < it_size it)%nat ∧ valid_list (in_int it) zs
  | TyVec t | TyDeque t => valid_list (valid_ty t)
  | TyArray N t => λ xs, length xs = N ∧ Forall (valid_ty t) xs
  | TyPair t1 t2 => λ p, valid_ty t1 p.1 ∧ valid_ty t2 p.2
  | TyMap t => λ m, in_int t_size (Z.of_nat (size m)) ∧
                    map_Forall (λ k v, str_ok k ∧ valid_ty t v) m
  | TySet => λ s, in_int t_size (Z.of_nat (size s)) ∧ set_Forall str_ok s
  end.

Section universe.
Context (junk : nat → byte).
Context (order : ∀ V, gmap (list byte) V → list (list byte * V)).
Context (order_set : gset (list byte) → list (list byte)).

Fixpoint codec_of (t : ty) : codec (value t) :=
  match t with
  | TyInt it => c_int junk it
  | TyBool => c_bool junk
  | TyString => c_string junk
  | TyVecBool => c_vector_bool junk
  | TyVecInt it => c_vector_pod junk (pod_int it)
  | TyVec t => c_vector junk (codec_of t)
  | TyDeque t => c_deque junk (codec_of t)
  | TyArray N t => c_array (codec_of t) N
  | TyPair t1 t2 => c_pair (codec_of t1) (codec_of t2)
  | TyMap t => c_map junk (order _) (c_string junk) (codec_of t)
  | TySet => c_set junk order_set (c_string junk)
  | TyEnum it => c_enum junk it id id
  end.

(** [ar << x1 << x2 ...] and [ar >> y1 >> y2 ...]. *)
Fixpoint put_all (a : archive) (xs : list (sigT value)) : result archive :=
  match xs with
  | [] => Ok a
  | existT t x :: xs => a ← op_out (codec_of t) a x; put_all a xs
  end.

Fixpoint get_all (a : archive) (ts : list ty) : result (archive * list (sigT value)) :=
  match ts with
  | [] => Ok (a, [])
  | t :: ts =>
      '(a, x) ← op_in (codec_of t) a;
      '(a, xs) ← get_all a ts;
      Ok (a, existT t x :: xs)
  end.

Hypothesis order_perm : ∀ V (m : gmap (list byte) V), order V m ≡ₚ map_to_list m.
Hypothesis order_set_perm : ∀ s, order_set s ≡ₚ elements s.

Lemma codec_of_lawful t : ∃ enc, Lawful (codec_of t) (valid_ty t) enc.
Proof.
  assert (Hguard : ∀ T (c : codec T) (P : Prop) valid enc,
    (P → Lawful c valid enc) → Lawful c (λ x, P ∧ valid x) enc).
  { intros T c P valid enc Hc. split.
    - intros a x Ha [HP Hx]. specialize (Hc HP). by apply lawful_ser.
    - intros a x rest Ha [HP Hx] ?. specialize (Hc HP). by apply lawful_des. }
  induction t as [it| | | |it|t [e IH]|t [e IH]|N t [e IH]|t1 [e1 IH1] t2 [e2 IH2]|t [e IH]| |it];
    cbn [codec_of valid_ty].
  - eexists. apply Hguard. intros. by apply lawful_c_int.
  - eexists. apply _.
  - eexists. apply lawful_c_string.
  - eexists. apply _.
  - eexists. apply Hguard. intros. apply lawful_c_vector_pod. by apply lawful_pod_int.
  - eexists. by apply lawful_c_vector.
  - eexists. by apply lawful_c_deque.
  - eexists. by apply lawful_c_array.
  - eexists. by apply lawful_c_pair.
  - eexists. by apply lawful_c_map; [apply lawful_c_string|..].
  - eexists. by apply lawful_c_set; [apply lawful_c_string|..].
  - eexists. apply Hguard. intros. by apply lawful_c_enum.
Qed.

Definition valid_any (x : sigT value) : Prop := valid_ty (projT1 x) (projT2 x).

Lemma put_get_all xs : ∀ a, ready a → Forall valid_any xs →
  ∃ a' bs, put_all a xs = Ok a' ∧ appended a bs a' ∧
    ∀ b rest, wf b → content b = bs ++ rest →
      ∃ b', get_all b (projT1 <$> xs) = Ok (b', xs) ∧ consumed b rest b'.
Proof.
  induction xs as [|[t x] xs IH]; intros a Ha Hv; cbn.
  { exists a, []. split; [done|]. split; [by apply appended_nil|].
    intros b rest Hb Hc. exists b. unfold consumed. auto. }
  apply Forall_cons in Hv as [Hx Hv]. destruct (codec_of_lawful t) as [enc Ht].
  destruct (lawful_ser (c := codec_of t) a x Ha Hx) as (a1&Hs&Hap).
  destruct (IH a1) as (a'&bs&Hput&Hap'&Hget); [apply Hap|done|].
  exists a', (enc x ++ bs). unfold op_out. rewrite Hs. cbn. split; [done|].
  split; [by eapply appended_trans|]. intros b rest Hb Hc. rewrite <- app_assoc in Hc.
  destruct (lawful_des (c := codec_of t) b x (bs ++ rest) Hb Hx Hc) as (b1&Hd&Hco).
  destruct (Hget b1 rest) as (b'&Hg&?); [apply Hco..|]. exists b'.
  unfold op_in. rewrite Hd. cbn. rewrite Hg. split; [done|]. by eapply consumed_trans.
Qed.
End universe.

(** ** Properties *)

(** C4: round trip of the binary archive, for the types [ty]: the integers of any width (in
    range), bool, enumerations over such an integer, strings, vectors of bool, vectors of
    integers (copied as a block), vectors, double-ended queues and arrays of values of
    these types (element by element), pairs of them, maps from strings to them, and sets of strings, nested in any
    way, with every length below 2^64.  Whatever such values are streamed with [<<] into a fresh
    archive, streaming the same types out of it with [>>] gives the same values back and
    leaves the archive exhausted.  The iteration order of maps and sets may be any enumeration
    of their elements.  (Floating point numbers, pointers, tuples and keys of other types are
    not among the types.) *)
Theorem archive_roundtrip (junk : nat → byte)
    (order : ∀ V, gmap (list byte) V → list (list byte * V))
    (order_set : gset (list byte) → list (list byte))
    (is_msg : bool) (xs : list (sigT value)) :
  (∀ V (m : gmap (list byte) V), order V m ≡ₚ map_to_list m) →
  (∀ s, order_set s ≡ₚ elements s) →
  Forall valid_any xs →
  ∃ a b, put_all junk order order_set (MemoryArchive_ is_msg) xs = Ok a ∧
         get_all junk order order_set a (projT1 <$> xs) = Ok (b, xs) ∧
         content b = [] ∧ is_exhausted b = true.
Proof.
  intros Ho Hos Hv.
  destruct (put_get_all junk order order_set Ho Hos xs (MemoryArchive_ is_msg))
    as (a&bs&Hput&([Hwf ?]&Hc&_)&Hget); [repeat split; cbn; lia|done|].
  destruct (Hget a []) as (b&Hg&Hwf'&Hb&_); [done|by rewrite app_nil_r|].
  exists a, b. repeat split; try done.
  pose proof (length_content b Hwf') as Hl. rewrite Hb in Hl. cbn in Hl.
  unfold is_exhausted, readable_length, wf in *. apply Nat.eqb_eq. lia.
Qed.

Lemma archive_roundtrip_witness :
  let xs := [existT (TyInt t_i16) (-2); existT (TyPair TyString TyVecBool) ([Byte.x61], [true; false]);
             existT (TyVec (TyInt t_u32)) [7; 8]] in
  ∃ a b, put_all (λ _, Byte.x00) (λ V, map_to_list) elements (MemoryArchive_ true) xs = Ok a ∧
         get_all (λ _, Byte.x00) (λ V, map_to_list) elements a (projT1 <$> xs) = Ok (b, xs) ∧
         content b = [] ∧ is_exhausted b = true.
Proof.
  apply archive_roundtrip; [done|done|].
  repeat (apply Forall_cons; split); [..|by apply Forall_nil]; cbn;
    repeat match goal with |- _ ∧ _ => split | |- valid_list _ _ => split end;
    repeat (apply Forall_cons; split); try apply Forall_nil; try split;
    first [by repeat constructor | vm_compute; congruence].
Defined.
