(* ===== verification/LazyArchive.v ===== *)
(** * Lazy archives: values that travel as shared blocks

    src/src/rpc/LazyArchive.h (the build without USE_RDMA).

    A [LazyArchive] keeps the values streamed into it and serializes them when the
    message is built: a vector of plain data becomes a block that refers to the vector's
    own memory, everything else goes to a meta archive that becomes the last block.  The
    receiver attaches the blocks and streams the values out of them.

    A pointer with a length is modelled by the bytes it points to; the numeric value of
    the pointer, which is part of the structure, is [addr] of those bytes. *)
From S2P Require Import Prelude Archive Serialize.
Import MemoryArchive.

(** ** Data blocks *)
Record data_block_t := DataBlock {
  db_ptr : Z;
  db_bytes : list byte;
  db_owner : Z;
}.

Definition db_length (b : data_block_t) : nat := length (db_bytes b).

(** [data_block_t()], which is also what a move leaves behind. *)
Definition empty_block : data_block_t := DataBlock 0 [] 0.

(** [delete_t::operator()]: whether it frees the block. *)
Definition delete_block (owner : Z) : result bool :=
  _ ← SCHECK (owner <=? 1); Ok (owner =? 1).

(** [release_deleter]: the deleter handed out and the block without it. *)
Definition release_deleter (b : data_block_t) : Z * data_block_t :=
  (db_owner b, DataBlock (db_ptr b) (db_bytes b) 0).

Section lazy.
Context (junk : nat → byte) (addr : list byte → Z).

(** [data_block_t(uint32_t len)]: the block owns fresh memory. *)
Definition alloc_block (len : nat) : data_block_t :=
  if (len =? 0)%nat then empty_block
  else let mem := buf_malloc junk len in DataBlock (addr mem) mem 1.

(** [data_block_t(char* data, uint32_t length)]: no ownership. *)
Definition ref_block (mem : list byte) (len : nat) : data_block_t :=
  DataBlock (addr mem) (take len mem) 0.

(** ** Shared readers and writers *)
Record SharedArchiveReader := SharedReader { sr_data : list data_block_t; sr_pos : nat }.

Definition shared_exhausted (s : SharedArchiveReader) : bool := (sr_pos s =? length (sr_data s))%nat.

(** [get_shared_uncheck<T>] with [sizeof(T)] given: the number of elements, and the block,
    which moves to the caller.  [_data[_pos]] out of range is undefined. *)
Definition get_shared_uncheck (sizeof : nat) (s : SharedArchiveReader)
    : result (SharedArchiveReader * nat * data_block_t) :=
  match sr_data s !! sr_pos s with
  | None => Abort
  | Some b =>
      let size := (db_length b / sizeof)%nat in
      _ ← SCHECK (db_length b =? size * sizeof)%nat;
      Ok (SharedReader (<[sr_pos s := empty_block]> (sr_data s)) (S (sr_pos s)), size, b)
  end.

(** [put_shared_uncheck(p, size)] on the memory of an array: the length is an [uint32_t]. *)
Definition put_shared_uncheck (data : list data_block_t) (mem : list byte)
    : list data_block_t :=
  data ++ [ref_block mem (Z.to_nat (u32 (Z.of_nat (length mem))))].

(** ** The overloads of [pico_serialize] and [pico_deserialize] *)
Record lcodec (T : Type) := LCodec {
  l_serialize : archive → list data_block_t → T → result (archive * list data_block_t);
  l_deserialize : archive → SharedArchiveReader → result (archive * SharedArchiveReader * T);
}.
#[global] Arguments LCodec {T}.
#[global] Arguments l_serialize {T}.
#[global] Arguments l_deserialize {T}.

(** A binary serializable type goes to the meta archive. *)
Definition lc_binary {T} (c : codec T) : lcodec T := LCodec
  (λ ar d x, ar ← op_out c ar x; Ok (ar, d))
  (λ ar s, '(ar, x) ← op_in c ar; Ok (ar, s, x)).

(** [data_block_t]; what is observed of the block received is its bytes. *)
Definition deserialize_block (s : SharedArchiveReader)
    : result (SharedArchiveReader * data_block_t) :=
  '(s, _, b) ← get_shared_uncheck 1 s; Ok (s, b).

Definition lc_block : lcodec (list byte) := LCodec
  (λ ar d x, Ok (ar, put_shared_uncheck d x))
  (λ ar s, '(s, b) ← deserialize_block s; Ok (ar, s, db_bytes b)).

(** [BinaryArchive]: the readable bytes; the archive received owns the block. *)
Definition deserialize_archive (dst : archive) (s : SharedArchiveReader)
    : result (SharedArchiveReader * archive) :=
  '(s, len, own) ← get_shared_uncheck 1 s;
  dst ← set_read_buffer dst (take len (db_bytes own))
          (if (release_deleter own).1 =? 1 then DelUser else DelNone);
  Ok (s, dst).

Definition lc_archive : lcodec (list byte) := LCodec
  (λ ar d x, Ok (ar, put_shared_uncheck d x))
  (λ ar s, '(s, b) ← deserialize_archive (MemoryArchive_ false) s; Ok (ar, s, content b)).

(** [std::vector<T>] of a trivially copyable type: the memory of the vector is shared. *)
Definition lc_vector_pod {T} (p : pod T) : lcodec (list T) := LCodec
  (λ ar d xs, Ok (ar, put_shared_uncheck d (pods_bytes p xs)))
  (λ ar s, '(s, size, own) ← get_shared_uncheck (pod_size p) s;
           Ok (ar, s, pods_value p size (db_bytes own))).

Fixpoint l_serialize_list {T} (c : lcodec T) (ar : archive) (d : list data_block_t) (xs : list T)
    : result (archive * list data_block_t) :=
  match xs with
  | [] => Ok (ar, d)
  | x :: xs => '(ar, d) ← l_serialize c ar d x; l_serialize_list c ar d xs
  end.

Fixpoint l_deserialize_list {T} (c : lcodec T) (ar : archive) (s : SharedArchiveReader) (n : nat)
    : result (archive * SharedArchiveReader * list T) :=
  match n with
  | O => Ok (ar, s, [])
  | S n => '(ar, s, x) ← l_deserialize c ar s;
           '(ar, s, xs) ← l_deserialize_list c ar s n; Ok (ar, s, x :: xs)
  end.

(** [std::vector<T>] of any other type: the size, then the elements. *)
Definition lc_vector {T} (c : lcodec T) : lcodec (list T) := LCodec
  (λ ar d xs, ar ← op_out (c_int junk t_size) ar (Z.of_nat (length xs));
              l_serialize_list c ar d xs)
  (λ ar s, '(ar, size) ← op_in (c_int junk t_size) ar;
           l_deserialize_list c ar s (Z.to_nat size)).

Definition lc_pair {A B} (ca : lcodec A) (cb : lcodec B) : lcodec (A * B) := LCodec
  (λ ar d x, '(ar, d) ← l_serialize ca ar d x.1; l_serialize cb ar d x.2)
  (λ ar s, '(ar, s, x) ← l_deserialize ca ar s;
           '(ar, s, y) ← l_deserialize cb ar s; Ok (ar, s, (x, y))).

(** [std::map]: the key goes to the meta archive. *)
Section map.
Context {K V : Type} `{Countable K}.

Fixpoint l_deserialize_map (ck : codec K) (cv : lcodec V) (ar : archive) (s : SharedArchiveReader)
    (m : gmap K V) (n : nat) : result (archive * SharedArchiveReader * gmap K V) :=
  match n with
  | O => Ok (ar, s, m)
  | S n =>
      '(ar, k) ← op_in ck ar;
      '(ar, s, v) ← l_deserialize cv ar s;
      _ ← SCHECK (bool_decide (m !! k = None));
      l_deserialize_map ck cv ar s (<[k:=v]> m) n
  end.

Definition lc_map (elems : gmap K V → list (K * V)) (ck : codec K) (cv : lcodec V)
    : lcodec (gmap K V) := LCodec
  (λ ar d m, ar ← op_out (c_int junk t_size) ar (Z.of_nat (size m));
             l_serialize_list (lc_pair (lc_binary ck) cv) ar d (elems m))
  (λ ar s, '(ar, size) ← op_in (c_int junk t_size) ar;
           l_deserialize_map ck cv ar s ∅ (Z.to_nat size)).
End map.
End lazy.

(** ** Streamable types and the archive itself *)
Inductive lty :=
  | LBinary (t : ty)
  | LBlock
  | LArchive
  | LVecInt (t : int_type)
  | LVec (t : lty)
  | LPair (t1 t2 : lty)
  | LMap (t : lty).

#[global] Instance int_type_eq_dec : EqDecision int_type.
Proof. solve_decision. Defined.
#[global] Instance ty_eq_dec : EqDecision ty.
Proof. solve_decision. Defined.
#[global] Instance lty_eq_dec : EqDecision lty.
Proof. solve_decision. Defined.

Fixpoint lvalue (t : lty) : Type :=
  match t with
  | LBinary t => value t
  | LBlock | LArchive => list byte
  | LVecInt _ => list Z
  | LVec t => list (lvalue t)
  | LPair t1 t2 => lvalue t1 * lvalue t2
  | LMap t => gmap (list byte) (lvalue t)
  end.

(** A block is shorter than 4 GiB, whatever it holds. *)
Definition block_ok (bs : list byte) : Prop := in_unsigned 32 (Z.of_nat (length bs)).

Fixpoint lvalid (t : lty) : lvalue t → Prop :=
  match t with
  | LBinary t => valid_ty t
  | LBlock | LArchive => block_ok
  | LVecInt it => λ zs, (0 < it_size it)%nat ∧ Forall (in_int it) zs ∧
                        block_ok (pods_bytes (pod_int it) zs)
  | LVec t => valid_list (lvalid t)
  | LPair t1 t2 => λ p, lvalid t1 p.1 ∧ lvalid t2 p.2
  | LMap t => λ m, in_int t_size (Z.of_nat (size m)) ∧
                   map_Forall (λ k v, str_ok k ∧ lvalid t v) m
  end.

Section archive.
Context (junk : nat → byte) (addr : list byte → Z).
Context (order : ∀ V, gmap (list byte) V → list (list byte * V)).
Context (order_set : gset (list byte) → list (list byte)).

Fixpoint lcodec_of (t : lty) : lcodec (lvalue t) :=
  match t with
  | LBinary t => lc_binary (codec_of junk order order_set t)
  | LBlock => lc_block addr
  | LArchive => lc_archive addr
  | LVecInt it => lc_vector_pod addr (pod_int it)
  | LVec t => lc_vector junk (lcodec_of t)
  | LPair t1 t2 => lc_pair (lcodec_of t1) (lcodec_of t2)
  | LMap t => lc_map junk (order _) (c_string junk) (lcodec_of t)
  end.

Record LazyArchive := MkLazy {
  la_meta_ar : archive;
  la_ar : archive;
  la_shared : SharedArchiveReader;
  la_lazy : list (sigT lvalue);
  la_cur : nat;
}.

Definition LazyArchive_ : LazyArchive :=
  MkLazy (MemoryArchive_ true) (MemoryArchive_ false) (SharedReader [] 0) [] 0.

(** [operator<<]. *)
Definition lazy_put (l : LazyArchive) (x : sigT lvalue) : LazyArchive :=
  MkLazy (la_meta_ar l) (la_ar l) (la_shared l) (la_lazy l ++ [x]) (la_cur l).

(** [Lazy<T>::get]. *)
Definition lazy_get_local (x : sigT lvalue) (t : lty) : result (lvalue t) :=
  match decide (projT1 x = t) with
  | left e => Ok (eq_rect _ lvalue (projT2 x) _ e)
  | right _ => Abort
  end.

(** [operator>>]. *)
Definition lazy_get (l : LazyArchive) (t : lty) : result (LazyArchive * lvalue t) :=
  if is_exhausted (la_ar l) && shared_exhausted (la_shared l) then
    match la_lazy l !! la_cur l with
    | None => Abort
    | Some x =>
        v ← lazy_get_local x t;
        Ok (MkLazy (la_meta_ar l) (la_ar l) (la_shared l) (la_lazy l) (S (la_cur l)), v)
    end
  else
    '(ar, s, v) ← l_deserialize (lcodec_of t) (la_ar l) (la_shared l);
    Ok (MkLazy (la_meta_ar l) ar s (la_lazy l) (la_cur l), v).

(** [attach]: the last block is the meta archive, which stays in the array. *)
Definition attach (l : LazyArchive) (data : list data_block_t) : result LazyArchive :=
  ar ← match last data with
       | Some b => set_read_buffer (la_ar l) (db_bytes b) DelNone
       | None => Ok (la_ar l)
       end;
  Ok (MkLazy (la_meta_ar l) ar (SharedReader data 0) [] 0).

(** [apply]: the blocks of the message, and what is left of the archive. *)
Fixpoint apply_lazy (ar : archive) (d : list data_block_t) (xs : list (sigT lvalue))
    : result (archive * list data_block_t) :=
  match xs with
  | [] => Ok (ar, d)
  | existT t x :: xs => '(ar, d) ← l_serialize (lcodec_of t) ar d x; apply_lazy ar d xs
  end.

Definition apply (l : LazyArchive) : result (LazyArchive * list data_block_t) :=
  let data := sr_data (la_shared l) in
  let shared := SharedReader [] (sr_pos (la_shared l)) in
  match la_lazy l with
  | [] => Ok (MkLazy (la_meta_ar l) (la_ar l) shared [] (la_cur l), data)
  | _ =>
      '(ar, data) ← apply_lazy (clear (la_meta_ar l)) data (drop (la_cur l) (la_lazy l));
      Ok (MkLazy ar (la_ar l) shared (la_lazy l) (la_cur l `max` length (la_lazy l)),
          data ++ [ref_block addr (take (length_ ar) (mem ar))
                     (Z.to_nat (u32 (Z.of_nat (length_ ar))))])
  end.

(** [lazy << x1 << x2 ...] and [lazy >> y1 >> y2 ...]. *)
Definition lazy_put_all (l : LazyArchive) (xs : list (sigT lvalue)) : LazyArchive :=
  foldl lazy_put l xs.

Fixpoint lazy_get_all (l : LazyArchive) (ts : list lty) : result (LazyArchive * list (sigT lvalue)) :=
  match ts with
  | [] => Ok (l, [])
  | t :: ts => '(l, x) ← lazy_get l t; '(l, xs) ← lazy_get_all l ts; Ok (l, existT t x :: xs)
  end.
End archive.

(** ** The interface of the overloads *)

(** The blocks a reader has not handed out. *)
Definition blocks_left (s : SharedArchiveReader) : list (list byte) :=
  db_bytes <$> drop (sr_pos s) (sr_data s).

(** [enc] is what goes to the meta archive, [blk] what is shared. *)
Class LazyLawful {T} (c : lcodec T) (valid : T → Prop) (enc : T → list byte)
    (blk : T → list (list byte)) := {
  llawful_ser ar d x : ready ar → valid x →
    ∃ ar' d', l_serialize c ar d x = Ok (ar', d ++ d') ∧ appended ar (enc x) ar' ∧
              db_bytes <$> d' = blk x;
  llawful_des ar s x rest brest : wf ar → valid x →
    content ar = enc x ++ rest → blocks_left s = blk x ++ brest →
    ∃ ar' s', l_deserialize c ar s = Ok (ar', s', x) ∧ consumed ar rest ar' ∧
              blocks_left s' = brest;
}.

Lemma op_out_ok {T} (c : codec T) valid enc `{!Lawful c valid enc} a x :
  ready a → valid x → ∃ a', op_out c a x = Ok a' ∧ appended a (enc x) a'.
Proof.
  intros Ha Hx. destruct (lawful_ser (c := c) a x Ha Hx) as (a'&Hs&?).
  exists a'. unfold op_out. by rewrite Hs.
Qed.

Lemma op_in_ok {T} (c : codec T) valid enc `{!Lawful c valid enc} a x rest :
  wf a → valid x → content a = enc x ++ rest →
  ∃ a', op_in c a = Ok (a', x) ∧ consumed a rest a'.
Proof.
  intros Ha Hx Hc. destruct (lawful_des (c := c) a x rest Ha Hx Hc) as (a'&Hs&?).
  exists a'. unfold op_in. by rewrite Hs.
Qed.

Lemma get_shared_ok sizeof k s b rest :
  (0 < sizeof)%nat → length b = (k * sizeof)%nat → blocks_left s = b :: rest →
  ∃ s' own, get_shared_uncheck sizeof s = Ok (s', k, own) ∧ db_bytes own = b ∧
            blocks_left s' = rest.
Proof.
  destruct s as [data pos]. unfold blocks_left, get_shared_uncheck.
  cbn [sr_data sr_pos]. intros Hpos Hb Hl.
  destruct (data !! pos) as [own|] eqn:Eown.
  2: { by rewrite drop_ge in Hl by by apply lookup_ge_None. }
  rewrite (drop_S _ _ _ Eown) in Hl. injection Hl as Hob Hr.
  assert (Hk : (db_length own / sizeof)%nat = k).
  { unfold db_length. rewrite Hob, Hb. apply Nat.div_mul. lia. }
  rewrite Hk, SCHECK_ok by (apply Nat.eqb_eq; unfold db_length; by rewrite Hob).
  eexists _, own. split; [reflexivity|]. split; [done|]. cbn [sr_data sr_pos].
  by rewrite drop_insert_lt by lia.
Qed.

Lemma put_shared_ok addr d bs :
  block_ok bs → put_shared_uncheck addr d bs = d ++ [DataBlock (addr bs) bs 0].
Proof.
  intros Hb. unfold put_shared_uncheck, ref_block.
  by rewrite wrap_small, Nat2Z.id, firstn_all by done.
Qed.

Section llaws.
Context (junk : nat → byte) (addr : list byte → Z).

#[global] Instance llawful_binary {T} (c : codec T) valid enc :
  Lawful c valid enc → LazyLawful (lc_binary c) valid enc (λ _, []).
Proof.
  intros Hc. split; cbn.
  - intros ar d x Ha Hx. destruct (op_out_ok c valid enc ar x Ha Hx) as (a'&->&?).
    exists a', []. by rewrite app_nil_r.
  - intros ar s x rest brest Ha Hx Hcont Hs.
    destruct (op_in_ok c valid enc ar x rest Ha Hx Hcont) as (a'&->&?). by exists a', s.
Qed.

(** The overloads that only share a block. *)
Lemma llawful_shared {T} (c : lcodec T) valid (bytes : T → list byte) :
  (∀ x, valid x → block_ok (bytes x)) →
  (∀ ar d x, l_serialize c ar d x = Ok (ar, put_shared_uncheck addr d (bytes x))) →
  (∀ ar s x brest, valid x → blocks_left s = bytes x :: brest →
    ∃ s', l_deserialize c ar s = Ok (ar, s', x) ∧ blocks_left s' = brest) →
  LazyLawful c valid (λ _, []) (λ x, [bytes x]).
Proof.
  intros Hok Hser Hdes. split.
  - intros ar d x Ha Hx. rewrite Hser, put_shared_ok by auto.
    eexists ar, _. split; [reflexivity|]. split; [by apply appended_nil|done].
  - intros ar s x rest brest Ha Hx Hc Hs. destruct (Hdes ar s x brest Hx Hs) as (s'&->&?).
    exists ar, s'. unfold consumed. auto.
Qed.

#[global] Instance llawful_block : LazyLawful (lc_block addr) block_ok (λ _, []) (λ x, [x]).
Proof.
  apply llawful_shared; [done|done|]. intros ar s x brest _ Hs. cbn. unfold deserialize_block.
  destruct (get_shared_ok 1 (length x) s x brest) as (s'&own&->&Hown&?); [lia|lia|done|].
  exists s'. cbn. by rewrite Hown.
Qed.

#[global] Instance llawful_archive : LazyLawful (lc_archive addr) block_ok (λ _, []) (λ x, [x]).
Proof.
  apply llawful_shared; [done|done|]. intros ar s x brest _ Hs. cbn. unfold deserialize_archive.
  destruct (get_shared_ok 1 (length x) s x brest) as (s'&own&->&Hown&?); [lia|lia|done|].
  exists s'. cbn [mbind result_bind]. rewrite Hown, firstn_all, set_read_buffer_ok.
  cbn [mbind result_bind]. by rewrite content_whole.
Qed.

#[global] Instance llawful_vector_pod {T} (p : pod T) valid :
  LawfulPod p valid →
  LazyLawful (lc_vector_pod addr p) (λ xs, Forall valid xs ∧ block_ok (pods_bytes p xs))
    (λ _, []) (λ xs, [pods_bytes p xs]).
Proof.
  intros Hp. apply llawful_shared; [by intros xs []|done|]. intros ar s xs brest [Hv _] Hs. cbn.
  destruct (get_shared_ok (pod_size p) (length xs) s (pods_bytes p xs) brest)
    as (s'&own&->&Hown&?); [apply lawful_pod_pos| |done|].
  { rewrite (length_pods_bytes p valid). lia. }
  exists s'. cbn. by rewrite Hown, (pods_value_bytes p valid) by done.
Qed.

#[global] Instance llawful_pair {A B} (ca : lcodec A) (cb : lcodec B) va vb ea eb ba bb :
  LazyLawful ca va ea ba → LazyLawful cb vb eb bb →
  LazyLawful (lc_pair ca cb) (λ x, va x.1 ∧ vb x.2) (λ x, ea x.1 ++ eb x.2)
    (λ x, ba x.1 ++ bb x.2).
Proof.
  intros Ha Hb. split; cbn.
  - intros ar d [x y] Har [Hx Hy]. cbn in *.
    destruct (llawful_ser (c := ca) ar d x Har Hx) as (ar1&d1&->&Hap1&Hd1).
    cbn. destruct (llawful_ser (c := cb) ar1 (d ++ d1) y) as (ar2&d2&->&Hap2&Hd2);
      [apply Hap1|done|].
    exists ar2, (d1 ++ d2). rewrite app_assoc, fmap_app, Hd1, Hd2.
    split; [done|]. split; [by eapply appended_trans|done].
  - intros ar s [x y] rest brest Har [Hx Hy] Hc Hs. cbn in *. rewrite <- app_assoc in Hc, Hs.
    destruct (llawful_des (c := ca) ar s x _ _ Har Hx Hc Hs) as (ar1&s1&->&Hco1&Hs1).
    cbn. destruct (llawful_des (c := cb) ar1 s1 y rest brest) as (ar2&s2&->&Hco2&Hs2);
      [apply Hco1|done|apply Hco1|done|].
    exists ar2, s2. split; [done|]. split; [by eapply consumed_trans|done].
Qed.

Section list_llaws.
Context {T : Type} (c : lcodec T) (valid : T → Prop) (enc : T → list byte).
Context (blk : T → list (list byte)) `{!LazyLawful c valid enc blk}.

Lemma l_serialize_list_ok xs : ∀ ar d, ready ar → Forall valid xs →
  ∃ ar' d', l_serialize_list c ar d xs = Ok (ar', d ++ d') ∧ appended ar (xs ≫= enc) ar' ∧
            db_bytes <$> d' = xs ≫= blk.
Proof.
  induction xs as [|x xs IH]; intros ar d Ha Hv; cbn [l_serialize_list].
  { exists ar, []. rewrite app_nil_r. split; [done|]. split; [by apply appended_nil|done]. }
  inv Hv. destruct (llawful_ser (c := c) ar d x) as (ar1&d1&->&Hap&Hd1); [done..|].
  cbn. destruct (IH ar1 (d ++ d1)) as (ar2&d2&->&Hap2&Hd2); [apply Hap|done|].
  exists ar2, (d1 ++ d2). rewrite app_assoc, fmap_app, Hd1, Hd2.
  split; [done|]. split; [by eapply appended_trans|done].
Qed.

Lemma l_deserialize_list_ok xs : ∀ ar s rest brest, wf ar → Forall valid xs →
  content ar = (xs ≫= enc) ++ rest → blocks_left s = (xs ≫= blk) ++ brest →
  ∃ ar' s', l_deserialize_list c ar s (length xs) = Ok (ar', s', xs) ∧ consumed ar rest ar' ∧
            blocks_left s' = brest.
Proof.
  induction xs as [|x xs IH]; intros ar s rest brest Ha Hv Hc Hs; cbn [length l_deserialize_list].
  { exists ar, s. unfold consumed. auto. }
  inv Hv. rewrite bind_cons, <- app_assoc in Hc. rewrite bind_cons, <- app_assoc in Hs.
  destruct (llawful_des (c := c) ar s x _ _ Ha ltac:(done) Hc Hs) as (ar1&s1&->&Hco&Hs1).
  cbn. destruct (IH ar1 s1 rest brest) as (ar2&s2&->&?&?); [apply Hco|done|apply Hco|done|].
  exists ar2, s2. split; [done|]. split; [by eapply consumed_trans|done].
Qed.
End list_llaws.

#[global] Instance llawful_vector {T} (c : lcodec T) valid enc blk :
  LazyLawful c valid enc blk →
  LazyLawful (lc_vector junk c) (valid_list valid) (enc_list enc) (λ xs, xs ≫= blk).
Proof.
  intros Hc. split; cbn [lc_vector l_serialize l_deserialize].
  - intros ar d xs Ha [Hn Hv].
    destruct (op_out_ok (c_int junk t_size) _ _ ar _ Ha Hn) as (ar1&->&Hap). cbn.
    destruct (l_serialize_list_ok c valid enc blk xs ar1 d) as (ar2&d2&->&Hap2&?);
      [apply Hap|done|].
    exists ar2, d2. split; [done|]. split; [by eapply appended_trans|done].
  - intros ar s xs rest brest Ha [Hn Hv] Hcont Hs. unfold enc_list in Hcont.
    rewrite <- app_assoc in Hcont.
    destruct (op_in_ok (c_int junk t_size) _ _ ar _ _ Ha Hn Hcont) as (ar1&->&Hco).
    cbn. rewrite Nat2Z.id.
    destruct (l_deserialize_list_ok c valid enc blk xs ar1 s rest brest) as (ar2&s2&->&?&?);
      [apply Hco|done|apply Hco|done|].
    exists ar2, s2. split; [done|]. split; [by eapply consumed_trans|done].
Qed.
End llaws.

Section map_llaws.
Context (junk : nat → byte) {K V : Type} `{Countable K}.
Context (ck : codec K) (vk : K → Prop) (ek : K → list byte) `{!Lawful ck vk ek}.
Context (cv : lcodec V) (vv : V → Prop) (ev : V → list byte) (bv : V → list (list byte)).
Context `{!LazyLawful cv vv ev bv}.
Notation enc_kv := (λ kv : K * V, ek kv.1 ++ ev kv.2).
Notation blk_kv := (λ kv : K * V, [] ++ bv kv.2).

Lemma l_deserialize_map_ok kvs : ∀ ar s m rest brest,
  wf ar → NoDup kvs.*1 → Forall (λ kv, vk kv.1 ∧ vv kv.2 ∧ m !! kv.1 = None) kvs →
  content ar = (kvs ≫= enc_kv) ++ rest → blocks_left s = (kvs ≫= blk_kv) ++ brest →
  ∃ ar' s', l_deserialize_map ck cv ar s m (length kvs) = Ok (ar', s', list_to_map kvs ∪ m) ∧
            consumed ar rest ar' ∧ blocks_left s' = brest.
Proof.
  induction kvs as [|[k v] kvs IH]; intros ar s m rest brest Hwf Hnd Hv Hc Hs.
  { exists ar, s. cbn. rewrite (left_id_L ∅ (∪)). split; [done|]. unfold consumed. auto. }
  apply NoDup_cons in Hnd as [Hk Hnd]. apply Forall_cons in Hv as [(Hvk&Hvv&Hm) Hv].
  cbn [fst snd] in *. rewrite bind_cons, <- !app_assoc in Hc.
  rewrite bind_cons, <- !app_assoc in Hs. cbn [length l_deserialize_map fst snd app] in *.
  destruct (op_in_ok ck vk ek ar k _ Hwf Hvk Hc) as (b&->&Hab). cbn [mbind result_bind].
  destruct (llawful_des (c := cv) b s v _ _ ltac:(apply Hab) Hvv ltac:(apply Hab) Hs)
    as (b'&s'&->&Hbb&Hs'). cbn [mbind result_bind].
  rewrite SCHECK_ok by (by apply bool_decide_eq_true_2). cbn [mbind result_bind].
  destruct (IH b' s' (<[k:=v]> m) rest brest) as (a'&s''&->&?&?);
    [apply Hbb|done| |apply Hbb|done|].
  { eapply Forall_impl; [eapply Forall_and; split; [exact Hv|]|].
    { apply Forall_forall. intros kv Hin. exact (list_elem_of_fmap_2 fst _ _ Hin). }
    intros kv [(?&?&?) Hin]. repeat split; try done.
    rewrite lookup_insert_ne; [done|]. by intros ->. }
  exists a', s''. split; [|split; [by eapply consumed_trans; [|eapply consumed_trans]|done]].
  do 2 f_equal. cbn [list_to_map]. rewrite <- insert_union_r by by apply not_elem_of_list_to_map_1.
  by rewrite insert_union_l.
Qed.

#[global] Instance llawful_map (elems : gmap K V → list (K * V)) :
  (∀ m, elems m ≡ₚ map_to_list m) →
  LazyLawful (lc_map junk elems ck cv)
    (λ m, in_int t_size (Z.of_nat (size m)) ∧ map_Forall (λ k v, vk k ∧ vv v) m)
    (λ m, le_split 8 (Z.of_nat (size m)) ++ (elems m ≫= enc_kv))
    (λ m, elems m ≫= blk_kv).
Proof.
  intros He.
  assert (Hall : ∀ m, map_Forall (λ k v, vk k ∧ vv v) m →
    Forall (λ kv, vk kv.1 ∧ vv kv.2) (elems m)).
  { intros m Hm. rewrite He. apply Forall_forall. intros [k v] ?%elem_of_map_to_list.
    by apply (Hm k v). }
  split; cbn [lc_map l_serialize l_deserialize].
  - intros ar d m Ha [Hn Hm].
    destruct (op_out_ok (c_int junk t_size) _ _ ar _ Ha Hn) as (ar1&->&Hap). cbn [mbind result_bind].
    destruct (l_serialize_list_ok (lc_pair (lc_binary ck) cv) _ _ _ (elems m) ar1 d)
      as (ar2&d2&->&Hap2&?); [apply Hap|by apply Hall|].
    exists ar2, d2. split; [done|]. split; [by eapply appended_trans|done].
  - intros ar s m rest brest Ha [Hn Hm] Hcont Hs. rewrite <- app_assoc in Hcont.
    destruct (op_in_ok (c_int junk t_size) _ _ ar _ _ Ha Hn Hcont) as (ar1&->&Hco).
    cbn [mbind result_bind]. rewrite Nat2Z.id.
    assert (Hlen : length (elems m) = size m) by (rewrite He; apply length_map_to_list).
    assert (Hnd : NoDup (elems m).*1) by (rewrite He; apply NoDup_fst_map_to_list).
    destruct (l_deserialize_map_ok (elems m) ar1 s ∅ rest brest) as (b'&s'&Hr&?&?);
      [apply Hco|done| |apply Hco|done|].
    { eapply Forall_impl; [by apply Hall|]. intros kv [??]. by rewrite lookup_empty. }
    exists b', s'. rewrite <- Hlen, Hr, map_union_empty.
    split; [|split; [by eapply consumed_trans|done]].
    do 2 f_equal. trans (list_to_map (M := gmap K V) (map_to_list m)).
    + by apply list_to_map_proper.
    + apply list_to_map_to_list.
Qed.
End map_llaws.

Section lazy_universe.
Context (junk : nat → byte) (addr : list byte → Z).
Context (order : ∀ V, gmap (list byte) V → list (list byte * V)).
Context (order_set : gset (list byte) → list (list byte)).
Hypothesis order_perm : ∀ V (m : gmap (list byte) V), order V m ≡ₚ map_to_list m.
Hypothesis order_set_perm : ∀ s, order_set s ≡ₚ elements s.

Notation lcodec_of := (lcodec_of junk addr order order_set).
Notation lazy_get := (lazy_get junk addr order order_set).
Notation lazy_get_all := (lazy_get_all junk addr order order_set).
Notation apply_lazy := (apply_lazy junk addr order order_set).
Notation apply := (apply junk addr order order_set).

Lemma lcodec_of_lawful t : ∃ enc blk, LazyLawful (lcodec_of t) (lvalid t) enc blk.
Proof.
  induction t as [t| | |it|t (e&b&IH)|t1 (e1&b1&IH1) t2 (e2&b2&IH2)|t (e&b&IH)];
    cbn [LazyArchive.lcodec_of lvalid].
  - destruct (codec_of_lawful junk order order_set order_perm order_set_perm t) as [e Ht].
    exists e, (λ _, []). by apply llawful_binary.
  - eexists _, _. apply _.
  - eexists _, _. apply llawful_archive.
  - exists (λ _, []), (λ xs, [pods_bytes (pod_int it) xs]).
    split.
    + intros ar d x Ha (Hs&?&?). pose proof (lawful_pod_int it Hs) as Hp.
      by apply (llawful_ser (LazyLawful := llawful_vector_pod addr _ _ Hp)).
    + intros ar s x rest brest Ha (Hs&?&?). pose proof (lawful_pod_int it Hs) as Hp.
      by apply (llawful_des (LazyLawful := llawful_vector_pod addr _ _ Hp)).
  - eexists _, _. by apply llawful_vector.
  - eexists _, _. by apply llawful_pair.
  - eexists _, _. by eapply llawful_map; [apply lawful_c_string|..].
Qed.

Definition lvalid_any (x : sigT lvalue) : Prop := lvalid (projT1 x) (projT2 x).

(** A reader that has a block left deserializes. *)
Lemma lazy_get_remote l t : blocks_left (la_shared l) ≠ [] →
  lazy_get l t = '(ar, s, v) ← l_deserialize (lcodec_of t) (la_ar l) (la_shared l);
                 Ok (MkLazy (la_meta_ar l) ar s (la_lazy l) (la_cur l), v).
Proof.
  intros Hl. unfold LazyArchive.lazy_get.
  assert (shared_exhausted (la_shared l) = false) as ->.
  { apply Nat.eqb_neq. intros Hp. apply Hl. unfold blocks_left.
    by rewrite Hp, drop_all. }
  by rewrite andb_false_r.
Qed.

(** What [apply] produces streams back, in front of whatever else is in the blocks. *)
Lemma apply_get_all xs : ∀ ar d, ready ar → Forall lvalid_any xs →
  ∃ ar' d' bs, apply_lazy ar d xs = Ok (ar', d ++ d') ∧ appended ar bs ar' ∧
    ∀ l rest brest, wf (la_ar l) → content (la_ar l) = bs ++ rest → brest ≠ [] →
      blocks_left (la_shared l) = (db_bytes <$> d') ++ brest →
      ∃ l', lazy_get_all l (projT1 <$> xs) = Ok (l', xs) ∧
            wf (la_ar l') ∧ content (la_ar l') = rest ∧ blocks_left (la_shared l') = brest.
Proof.
  induction xs as [|[t x] xs IH]; intros ar d Ha Hv.
  { exists ar, [], []. cbn. rewrite app_nil_r. split; [done|].
    split; [by apply appended_nil|]. intros l rest brest ????. by exists l. }
  apply Forall_cons in Hv as [Hx Hv]. destruct (lcodec_of_lawful t) as (enc&blk&Ht).
  destruct (llawful_ser (c := lcodec_of t) ar d x Ha Hx) as (a1&d1&Hs&Hap&Hd1).
  destruct (IH a1 (d ++ d1)) as (a'&d2&bs&Hput&Hap'&Hget); [apply Hap|done|].
  exists a', (d1 ++ d2), (enc x ++ bs).
  cbn [LazyArchive.apply_lazy]. rewrite Hs. cbn [mbind result_bind].
  rewrite Hput, app_assoc. split; [done|]. split; [by eapply appended_trans|].
  intros l rest brest Hwf Hc Hne Hb. rewrite <- app_assoc in Hc.
  rewrite fmap_app, <- app_assoc, Hd1 in Hb.
  destruct (llawful_des (c := lcodec_of t) (la_ar l) (la_shared l) x (bs ++ rest)
    ((db_bytes <$> d2) ++ brest) Hwf Hx Hc Hb) as (b1&s1&Hd&Hco&Hs1).
  rewrite fmap_cons. cbn [projT1 LazyArchive.lazy_get_all]. rewrite lazy_get_remote, Hd.
  2: { rewrite Hb. by destruct (blk x), (db_bytes <$> d2), brest. }
  cbn [mbind result_bind].
  destruct (Hget (MkLazy (la_meta_ar l) b1 s1 (la_lazy l) (la_cur l)) rest brest)
    as (l'&Hg&?); [apply Hco|apply Hco|done|done|].
  rewrite Hg. cbn [mbind result_bind]. by exists l'.
Qed.

(** Before the archive is sent, the values come back as they were put in. *)
Lemma lazy_get_all_local xs : ∀ l,
  is_exhausted (la_ar l) && shared_exhausted (la_shared l) = true →
  drop (la_cur l) (la_lazy l) = xs →
  ∃ l', lazy_get_all l (projT1 <$> xs) = Ok (l', xs).
Proof.
  induction xs as [|[t x] xs IH]; intros l Hex Hl; [by exists l|].
  rewrite fmap_cons. cbn [projT1 LazyArchive.lazy_get_all]. unfold LazyArchive.lazy_get.
  rewrite Hex. destruct (la_lazy l !! la_cur l) as [y|] eqn:Ey.
  2: { by rewrite drop_ge in Hl by by apply lookup_ge_None. }
  rewrite (drop_S _ _ _ Ey) in Hl. injection Hl as -> Hl.
  unfold lazy_get_local. cbn [projT1 projT2]. destruct (decide (t = t)) as [e|]; [|done].
  rewrite (proof_irrel e eq_refl). cbn [eq_rect mbind result_bind].
  destruct (IH (MkLazy (la_meta_ar l) (la_ar l) (la_shared l) (la_lazy l) (S (la_cur l))))
    as (l'&Hg); [done|done|].
  rewrite Hg. by exists l'.
Qed.

Lemma lazy_put_all_lazy xs : ∀ l, lazy_put_all l xs =
  MkLazy (la_meta_ar l) (la_ar l) (la_shared l) (la_lazy l ++ xs) (la_cur l).
Proof.
  induction xs as [|x xs IH]; intros l; cbn; [by destruct l; cbn; rewrite app_nil_r|].
  rewrite IH. cbn. by rewrite <- app_assoc.
Qed.
Lemma apply_attach xs :
  Forall lvalid_any xs →
  ∃ l data, apply (lazy_put_all LazyArchive_ xs) = Ok (l, data) ∧
    (block_ok (content (la_meta_ar l)) →
     ∀ received, db_bytes <$> received = db_bytes <$> data →
     ∃ r r', attach LazyArchive_ received = Ok r ∧
             lazy_get_all r (projT1 <$> xs) = Ok (r', xs)).
Proof.
  intros Hv.
  assert (Hsent : lazy_put_all LazyArchive_ xs = MkLazy (MemoryArchive_ true)
    (MemoryArchive_ false) (SharedReader [] 0) xs 0) by apply lazy_put_all_lazy.
  rewrite Hsent. unfold LazyArchive.apply. cbn [la_lazy la_meta_ar la_cur la_shared sr_data].
  destruct (apply_get_all xs (clear (MemoryArchive_ true)) [])
    as (ar&d&bs&Hap&([Hwf Hdm]&Hc&Hcur)&Hget); [repeat split; cbn; lia|done|].
  destruct xs as [|x xs].
  { eexists _, []. split; [reflexivity|]. intros _ rc ->%fmap_nil_inv. by eexists _, _. }
  rewrite drop_0, Hap. eexists _, _. cbn [mbind result_bind app la_meta_ar].
  split; [reflexivity|]. cbn [la_meta_ar]. intros Hok rc Hrc.
  assert (Hmem : take (length_ ar) (mem ar) = content ar).
  { unfold content. by rewrite slice_alt, Hcur, drop_0. }
  pose proof (length_content ar Hwf) as Hlen. unfold readable_length in Hlen.
  rewrite Hcur in Hlen. cbn [clear with_end with_cursor a_cursor] in Hlen.
  rewrite Nat.sub_0_r in Hlen. unfold block_ok in Hok. rewrite Hlen in Hok.
  rewrite Hmem, wrap_small, Nat2Z.id in Hrc by done.
  rewrite fmap_app in Hrc. apply fmap_app_inv in Hrc as (rc1&rc2&Hrc1&Hrc2&->).
  symmetry in Hrc2. apply fmap_cons_inv in Hrc2 as (mb&rc3&Hmb&Hnil&->).
  symmetry in Hnil. apply fmap_nil_inv in Hnil as ->.
  unfold attach. rewrite last_snoc, set_read_buffer_ok. cbn [mbind result_bind].
  set (r := MkLazy _ _ _ _ _). exists r. destruct (Hget r [] [db_bytes mb]) as (r'&Hr'&_).
  5: { exists r'. split; [reflexivity|exact Hr']. }
  - unfold wf, capacity, r. cbn [la_ar]. rewrite mem_mk. cbn [a_cursor a_end]. lia.
  - unfold r. cbn [la_ar]. rewrite content_whole, <- Hmb. cbn [ref_block db_bytes].
    rewrite take_ge by (unfold length_ in *; lia). rewrite Hc. by rewrite app_nil_r.
  - done.
  - unfold blocks_left, r. cbn [la_shared sr_data sr_pos]. rewrite drop_0, fmap_app, <- Hrc1.
    reflexivity.
Qed.
End lazy_universe.

(** ** Properties *)

(** C5: round trip of the lazy archive, for values of the types [lty]: what the binary archive
    streams (in the types [ty] of Serialize.v), blocks of bytes, whole archives, vectors of
    integers, which are shared as one block, and vectors, pairs and maps with string keys of
    these. Every block must be shorter than 4 GiB, since its length is kept in 32 bits, and
    every count below 2^64. Whatever such values are put into a fresh lazy archive, [apply]
    turns them into blocks; provided the meta archive is shorter than 4 GiB too, an archive that
    [attach]es blocks with the same bytes, wherever they now lie and whoever owns them, streams
    the same values out in order. An archive that was not sent hands the values back directly. *)
Theorem lazy_roundtrip (junk : nat → byte) (addr : list byte → Z)
    (order : ∀ V, gmap (list byte) V → list (list byte * V))
    (order_set : gset (list byte) → list (list byte)) (xs : list (sigT lvalue)) :
  (∀ V (m : gmap (list byte) V), order V m ≡ₚ map_to_list m) →
  (∀ s, order_set s ≡ₚ elements s) →
  Forall lvalid_any xs →
  let sent := lazy_put_all LazyArchive_ xs in
  (∃ l data, apply junk addr order order_set sent = Ok (l, data) ∧
    (block_ok (content (la_meta_ar l)) →
     ∀ received, db_bytes <$> received = db_bytes <$> data →
     ∃ r r', attach LazyArchive_ received = Ok r ∧
             lazy_get_all junk addr order order_set r (projT1 <$> xs) = Ok (r', xs))) ∧
  (∃ l, lazy_get_all junk addr order order_set sent (projT1 <$> xs) = Ok (l, xs)).
Proof.
  intros Ho Hos Hv sent. split; [by apply apply_attach|].
  unfold sent. rewrite lazy_put_all_lazy. by apply lazy_get_all_local.
Qed.

Lemma lazy_roundtrip_witness :
  let xs := [existT (LVecInt t_i32) [1; -2; 3]; existT (LPair (LBinary TyString) LBlock)
               ([Byte.x61], [Byte.x01; Byte.x02]); existT (LVec LArchive) [[Byte.x07]; []]] in
  let sent := lazy_put_all LazyArchive_ xs in
  let J := λ _ : nat, Byte.x00 in let A := λ _ : list byte, 4096 in
  let O := λ V (m : gmap (list byte) V), map_to_list m in
  (∃ l data, apply J A O elements sent = Ok (l, data) ∧
    (block_ok (content (la_meta_ar l)) →
     ∀ received, db_bytes <$> received = db_bytes <$> data →
     ∃ r r', attach LazyArchive_ received = Ok r ∧
             lazy_get_all J A O elements r (projT1 <$> xs) = Ok (r', xs))) ∧
  (∃ l, lazy_get_all J A O elements sent (projT1 <$> xs) = Ok (l, xs)).
Proof.
  apply lazy_roundtrip; [done|done|].
  repeat (apply Forall_cons; split); [..|by apply Forall_nil]; cbn;
    repeat match goal with |- _ ∧ _ => split | |- valid_list _ _ => split end;
    repeat (apply Forall_cons; split); try apply Forall_nil; try split;
    first [by repeat constructor | vm_compute; congruence].
Defined.
