(* ===== verification/Message.v ===== *)
(** * RPC messages and the byte cursor that sends them

    src/src/rpc/RpcMessage.h, src/src/rpc/RpcMessage.cpp and [data_block_t] of
    src/src/rpc/LazyArchive.h (the build without USE_RDMA).

    A message is a contiguous block that starts with the object representation of
    [rpc_head_t] followed by the body, and a list of data blocks that are not copied
    into it.  What a [byte_cursor] hands to the socket is: head and body, the array of
    [data_block_t] structures as it lies in memory, the blocks shorter than
    [MIN_ZERO_COPY_SIZE]; and, through a second cursor, the longer blocks.

    A pointer with a length is modelled by the bytes it points to; the padding of a
    structure is the parameter [junk].  [_hold], which keeps the sender's blocks alive
    until the message is gone, has no counterpart: the bytes are values here. *)
From S2P Require Import Prelude Archive Serialize LazyArchive.
Import MemoryArchive.

(** ** The head *)

(** [RpcErrorCodeType]. *)
Definition SUCC : Z := 0.
Definition ENOSUCHSERVER : Z := 101.
Definition ENOSUCHRANK : Z := 102.
Definition ENOSUCHSERVICE : Z := 103.
Definition ELOGICERROR : Z := 104.
Definition EILLEGALMSG : Z := 105.
Definition ETIMEOUT : Z := 106.
Definition ENOTFOUND : Z := 107.
Definition ECONNECTION : Z := 108.

Record rpc_head_t := RpcHead {
  body_size : Z;
  src_rank : Z;
  dest_rank : Z;
  src_dealer : Z;
  dest_dealer : Z;
  rpc_id : Z;
  sid : Z;
  extra_block_count : Z;
  extra_block_length : Z;
  error_code : Z;
}.

Definition rpc_head_default : rpc_head_t := RpcHead 0 (-1) (-1) (-1) (-1) (-1) (-1) 0 0 SUCC.

(** [sizeof(rpc_head_t)]: 8, 2 + 2, six times 4 and 2, rounded up to the alignment 8. *)
Definition head_size : nat := 40.

(** [sizeof(data_block_t)]: a pointer, [length] and [deleter.owner]. *)
Definition block_size : nat := 16.

Definition MIN_ZERO_COPY_SIZE : nat := 4 * 1024.

(** [rpc_head_t::msg_size]: 64-bit arithmetic. *)
Definition msg_size (h : rpc_head_t) : Z :=
  u64 (Z.of_nat head_size + extra_block_length h + body_size h).

Definition head_ok (h : rpc_head_t) : Prop :=
  in_unsigned 64 (body_size h) ∧ in_signed 16 (src_rank h) ∧ in_signed 16 (dest_rank h) ∧
  in_signed 32 (src_dealer h) ∧ in_signed 32 (dest_dealer h) ∧ in_signed 32 (rpc_id h) ∧
  in_signed 32 (sid h) ∧ in_unsigned 32 (extra_block_count h) ∧
  in_unsigned 32 (extra_block_length h) ∧ in_signed 16 (error_code h).

(** The fields in the order and at the width they have in memory. *)
Definition head_layout : list int_type :=
  [t_u64; t_i16; t_i16; t_i32; t_i32; t_i32; t_i32; t_u32; t_u32; t_i16].

Definition head_fields (h : rpc_head_t) : list Z :=
  [body_size h; src_rank h; dest_rank h; src_dealer h; dest_dealer h; rpc_id h; sid h;
   extra_block_count h; extra_block_length h; error_code h].

Fixpoint fields_bytes (ts : list int_type) (zs : list Z) : list byte :=
  match ts, zs with
  | t :: ts, z :: zs => pod_bytes (pod_int t) z ++ fields_bytes ts zs
  | _, _ => []
  end.

Fixpoint fields_value (ts : list int_type) (bs : list byte) : list Z :=
  match ts with
  | [] => []
  | t :: ts => pod_value (pod_int t) (take (it_size t) bs) :: fields_value ts (drop (it_size t) bs)
  end.

(** [reinterpret_cast<rpc_head_t*>(p)] on the bytes at [p]. *)
Definition head_of_bytes (bs : list byte) : rpc_head_t :=
  match fields_value head_layout bs with
  | [a; b; c; d; e; f; g; h; i; j] => RpcHead a b c d e f g h i j
  | _ => rpc_head_default
  end.

Section message.
Context (junk : nat → byte) (addr : list byte → Z).

Definition head_bytes (h : rpc_head_t) : list byte :=
  fields_bytes head_layout (head_fields h) ++ [junk 0; junk 1].

(** ** Data blocks *)

(** The structure as it lies in the [_data] array. *)
Definition block_bytes (b : data_block_t) : list byte :=
  le_split 8 (db_ptr b) ++ le_split 4 (Z.of_nat (db_length b)) ++ le_split 4 (db_owner b).

(** [reinterpret_cast<data_block_t*>(p)->length]. *)
Definition block_length_of_bytes (bs : list byte) : nat :=
  Z.to_nat (le_combine (take 4 (drop 8 bs))).

(** The blocks that are copied along with the message. *)
Definition is_small (b : data_block_t) : bool := (db_length b <? MIN_ZERO_COPY_SIZE)%nat.

(** ** Messages.  [m_start] is the memory from [_start] on. *)
Record RpcMessage := MkMessage {
  m_start : list byte;
  m_data : list data_block_t;
  m_pending_block_cnt : nat;
}.

Definition head (m : RpcMessage) : rpc_head_t := head_of_bytes (m_start m).

(** [lazy_meta()] and [extra()]: the memory behind the body. *)
Definition lazy_meta (m : RpcMessage) : list byte :=
  drop (head_size + Z.to_nat (body_size (head m))) (m_start m).
Definition extra (m : RpcMessage) : list byte :=
  drop (Z.to_nat (extra_block_count (head m)) * block_size) (lazy_meta m).

(** [RpcMessage(const rpc_head_t&)]. *)
Definition RpcMessage_of_head (h : rpc_head_t) : RpcMessage := MkMessage (head_bytes h) [] 0.

(** [RpcMessage::initialize] after [lazy.apply(_data)] has left [data] in [_data]; [ar] is
    the memory [[ar.buffer(), ar.end())]. *)
Definition build (h : rpc_head_t) (ar : list byte) (data : list data_block_t) : RpcMessage :=
  let ebc := u32 (Z.of_nat (length data)) in
  let ebl := foldl (λ acc b, if is_small b then u32 (acc + Z.of_nat (db_length b)) else acc)
               (u32 (Z.of_nat block_size * Z.of_nat (length data))) data in
  let h := RpcHead (u64 (Z.of_nat (length ar) - Z.of_nat head_size)) (src_rank h) (dest_rank h)
             (src_dealer h) (dest_dealer h) (rpc_id h) (sid h) ebc ebl (error_code h) in
  MkMessage (splice 0 (head_bytes h) ar) data 0.

(** The receiving constructor [RpcMessage(char* start, buffer)], [start] being the
    memory from the message to the end of what was received.  A block shorter than
    [MIN_ZERO_COPY_SIZE] is copied from the extra bytes; a longer one is allocated, its
    contents unspecified, and arrives separately.  [Abort] is a read past the memory. *)
Fixpoint recv_blocks (n : nat) (meta cur : list byte) : result (list data_block_t * nat) :=
  match n with
  | O => Ok ([], 0%nat)
  | S n =>
      let len := block_length_of_bytes meta in
      if (len <? MIN_ZERO_COPY_SIZE)%nat then
        _ ← SCHECK (len <=? length cur)%nat;
        '(bs, pending) ← recv_blocks n (drop block_size meta) (drop len cur);
        let b := alloc_block junk addr len in
        Ok (DataBlock (db_ptr b) (take len cur) (db_owner b) :: bs, pending)
      else
        '(bs, pending) ← recv_blocks n (drop block_size meta) cur;
        Ok (alloc_block junk addr len :: bs, S pending)
  end.

Definition RpcMessage_recv (start : list byte) : result RpcMessage :=
  let m := MkMessage start [] 0 in
  let n := Z.to_nat (extra_block_count (head m)) in
  _ ← SCHECK (n * block_size <=? length (lazy_meta m))%nat;
  '(bs, pending) ← recv_blocks n (lazy_meta m) (extra m);
  Ok (MkMessage start bs pending).

End message.

(** ** Byte cursors *)
Module byte_cursor.

Record t := Mk { _i : nat; _cur : list (list byte) }.

Definition reset : t := Mk 0 [].

(** The two [if]s of the loop in [attach]. *)
Definition picks (zero_copy : bool) (b : data_block_t) : bool :=
  if zero_copy then (MIN_ZERO_COPY_SIZE <=? db_length b)%nat
  else (db_length b <? MIN_ZERO_COPY_SIZE)%nat && (0 <? db_length b)%nat.

(** [attach(msg, zero_copy)]. *)
Definition attach (m : RpcMessage) (zero_copy : bool) : t :=
  let front :=
    if zero_copy then []
    else take (head_size + Z.to_nat (body_size (head m))) (m_start m) ::
         (if (0 <? length (m_data m))%nat then [m_data m ≫= block_bytes] else []) in
  Mk 0 (front ++ (db_bytes <$> filter (λ b, picks zero_copy b = true) (m_data m))).

Definition cursor (m : RpcMessage) : t := attach m false.
Definition zero_copy_cursor (m : RpcMessage) : t := attach m true.

Definition has_next (c : t) : bool := negb (_i c =? length (_cur c))%nat.
Definition size (c : t) : nat := (length (_cur c) - _i c)%nat.
(** [_cur[_i]]; out of range is undefined. *)
Definition head (c : t) : option (list byte) := _cur c !! _i c.

(** [while (_i < _cur.size() && _cur[_i].second == 0) ++_i]. *)
Fixpoint skip (cur : list (list byte)) (i fuel : nat) : nat :=
  match fuel with
  | O => i
  | S fuel => match cur !! i with Some [] => skip cur (S i) fuel | _ => i end
  end.

Definition advance (c : t) (nbytes : nat) : result t :=
  match _cur c !! _i c with
  | None => Abort
  | Some seg =>
      _ ← SCHECK (nbytes <=? length seg)%nat;
      let cur := <[_i c := drop nbytes seg]> (_cur c) in
      Ok (Mk (skip cur (_i c) (length cur - _i c)) cur)
  end.

(** The bytes still to be sent. *)
Definition remaining (c : t) : list byte := concat (drop (_i c) (_cur c)).

(** No segment that is still to be sent is empty. *)
Definition wf (c : t) : Prop :=
  (_i c ≤ length (_cur c))%nat ∧ Forall (λ s, s ≠ []) (drop (_i c) (_cur c)).
End byte_cursor.

(** ** Requests and responses

    [RpcRequest] and [RpcResponse] have the same members and the same conversions from
    and to messages; [item] stands for either. *)
Record item := Item {
  q_head : rpc_head_t;
  q_ar : archive;
  q_lazy : LazyArchive;
  q_msg : option RpcMessage;
}.

Definition with_head (q : item) (h : rpc_head_t) : item := Item h (q_ar q) (q_lazy q) (q_msg q).
Definition with_ar (q : item) (ar : archive) : item := Item (q_head q) ar (q_lazy q) (q_msg q).
Definition with_lazy (q : item) (l : LazyArchive) : item := Item (q_head q) (q_ar q) l (q_msg q).

Section item.
Context (junk : nat → byte) (addr : list byte → Z).
Context (order : ∀ V, gmap (list byte) V → list (list byte * V)).
Context (order_set : gset (list byte) → list (list byte)).

(** [_ar.resize(sizeof(_head)); _ar.set_cursor(_ar.end())]: room for the head. *)
Definition empty_body : result archive :=
  let ar := resize junk (MemoryArchive_ false) head_size in set_cursor ar (a_end ar).

(** [RpcRequest(dest_rank)]. *)
Definition RpcRequest_new (dest : Z) : result item :=
  ar ← empty_body;
  Ok (Item (RpcHead 0 (-1) dest (-1) (-1) (-1) (-1) 0 0 SUCC) ar LazyArchive_ None).

(** [RpcResponse(const rpc_head_t&)]: addressed to where the request came from. *)
Definition RpcResponse_head (hd : rpc_head_t) : rpc_head_t :=
  RpcHead 0 (dest_rank hd) (src_rank hd) (-1) (src_dealer hd) (rpc_id hd) (sid hd) 0 0 SUCC.

Definition RpcResponse_new (hd : rpc_head_t) : result item :=
  ar ← empty_body; Ok (Item (RpcResponse_head hd) ar LazyArchive_ None).

Definition set_error_code (q : item) (err : Z) : item :=
  let hd := q_head q in
  with_head q (RpcHead (body_size hd) (src_rank hd) (dest_rank hd) (src_dealer hd)
    (dest_dealer hd) (rpc_id hd) (sid hd) (extra_block_count hd) (extra_block_length hd) err).

Definition set_sid (q : item) (s : Z) : item :=
  let hd := q_head q in
  with_head q (RpcHead (body_size hd) (src_rank hd) (dest_rank hd) (src_dealer hd)
    (dest_dealer hd) (rpc_id hd) s (extra_block_count hd) (extra_block_length hd) (error_code hd)).

(** [operator<<], [operator>>] and [lazy() <<], [lazy() >>], for sequences of values. *)
Definition item_put (q : item) (xs : list (sigT value)) : result item :=
  ar ← put_all junk order order_set (q_ar q) xs; Ok (with_ar q ar).
Definition item_get (q : item) (ts : list ty) : result (item * list (sigT value)) :=
  '(ar, xs) ← get_all junk order order_set (q_ar q) ts; Ok (with_ar q ar, xs).
Definition item_put_lazy (q : item) (xs : list (sigT lvalue)) : item :=
  with_lazy q (lazy_put_all (q_lazy q) xs).
Definition item_get_lazy (q : item) (ts : list lty) : result (item * list (sigT lvalue)) :=
  '(l, xs) ← lazy_get_all junk addr order order_set (q_lazy q) ts; Ok (with_lazy q l, xs).

(** [RpcMessage::initialize]. *)
Definition initialize (h : rpc_head_t) (ar : archive) (lazy : LazyArchive) : result RpcMessage :=
  '(_, data) ← apply junk addr order order_set lazy;
  Ok (build junk h (take (a_end ar) (mem ar)) data).

(** [RpcMessage::finalize]: the head, an archive positioned behind it, the lazy archive;
    the blocks move out of the message. *)
Definition finalize (m : RpcMessage) (ar : archive) (lazy : LazyArchive)
    : result (rpc_head_t * archive * LazyArchive * RpcMessage) :=
  let h := head m in
  ar ← set_read_buffer ar (take (Z.to_nat (body_size h) + head_size) (m_start m)) DelNone;
  ar ← advance_cursor ar head_size;
  lazy ← attach lazy (m_data m);
  Ok (h, ar, lazy, MkMessage (m_start m) [] (m_pending_block_cnt m)).

(** [RpcMessage(RpcRequest&&)] and [RpcMessage(RpcResponse&&)]. *)
Definition RpcMessage_of_item (q : item) : result RpcMessage :=
  match q_msg q with
  | Some m => Ok m
  | None => initialize (q_head q) (q_ar q) (q_lazy q)
  end.

(** [RpcRequest(RpcMessage&&)] and [RpcResponse(RpcMessage&&)]. *)
Definition item_of_message (m : RpcMessage) : result item :=
  '(h, ar, lazy, m) ← finalize m (MemoryArchive_ false) LazyArchive_;
  Ok (Item h ar lazy (Some m)).
End item.

(** ** Lemmas on the layout *)
Lemma fields_value_bytes ts : ∀ zs rest,
  Forall2 (λ t z, (0 < it_size t)%nat ∧ in_int t z) ts zs →
  fields_value ts (fields_bytes ts zs ++ rest) = zs.
Proof.
  induction ts as [|t ts IH]; intros zs rest Hz; inv Hz; [done|].
  destruct H1 as [Hs Hin]. cbn [fields_value fields_bytes].
  pose proof (lawful_pod_int t Hs) as Hp.
  pose proof (lawful_pod_size (p := pod_int t) y) as Hl. rewrite <- app_assoc.
  rewrite take_app_length', drop_app_length', IH by done.
  by rewrite lawful_pod_value.
Qed.

Lemma length_head_bytes junk h : length (head_bytes junk h) = head_size.
Proof. done. Qed.

Lemma head_of_head_bytes junk h rest :
  head_ok h → head_of_bytes (head_bytes junk h ++ rest) = h.
Proof.
  intros Hok. unfold head_of_bytes, head_bytes. rewrite <- app_assoc.
  rewrite fields_value_bytes; [by destruct h|].
  destruct Hok as (?&?&?&?&?&?&?&?&?&?).
  repeat (constructor; [split; [cbn; lia|done]|]). constructor.
Qed.

Fixpoint fields_size (ts : list int_type) : nat :=
  match ts with [] => 0 | t :: ts => it_size t + fields_size ts end.

Lemma fields_value_take ts : ∀ n bs,
  (fields_size ts ≤ n)%nat → fields_value ts (take n bs) = fields_value ts bs.
Proof.
  induction ts as [|t ts IH]; intros n bs Hn; cbn in *; [done|].
  rewrite take_take, Nat.min_l by lia. f_equal.
  rewrite <- (IH (n - it_size t)%nat (drop (it_size t) bs)) by lia.
  rewrite firstn_skipn_comm. do 3 f_equal. lia.
Qed.

Lemma head_of_bytes_take n bs :
  (head_size ≤ n)%nat → head_of_bytes (take n bs) = head_of_bytes bs.
Proof.
  intros Hn. unfold head_of_bytes. rewrite fields_value_take; [done|].
  unfold head_size in Hn. cbn. lia.
Qed.

Lemma head_of_bytes_app n bs rest :
  (head_size ≤ n)%nat → (n ≤ length bs)%nat →
  head_of_bytes (take n bs ++ rest) = head_of_bytes bs.
Proof.
  intros. rewrite <- (head_of_bytes_take n (_ ++ _)) by done.
  rewrite take_app_length' by (rewrite length_take; lia). by apply head_of_bytes_take.
Qed.

Lemma length_block_bytes b : length (block_bytes b) = block_size.
Proof. done. Qed.

Lemma block_length_of_block_bytes b rest :
  in_unsigned 32 (Z.of_nat (db_length b)) →
  block_length_of_bytes (block_bytes b ++ rest) = db_length b.
Proof.
  intros Hb. unfold block_length_of_bytes, block_bytes. rewrite <- !app_assoc.
  rewrite drop_app_length' by (by rewrite length_le_split).
  rewrite take_app_length' by (by rewrite length_le_split).
  rewrite le_combine_split. fold (wrap (Z.of_nat 4 * 8) (Z.of_nat (db_length b))).
  rewrite wrap_small by done. apply Nat2Z.id.
Qed.

Lemma length_blocks_bytes data :
  length (data ≫= block_bytes) = (length data * block_size)%nat.
Proof.
  induction data as [|b data IH]; cbn [mbind list_bind length]; [done|].
  rewrite length_app, length_block_bytes, IH. lia.
Qed.

(** ** What a message is on the wire *)

(** The bytes of the small blocks and of the large ones, in order. *)
Definition small_bytes (data : list data_block_t) : list byte :=
  data ≫= λ b, if is_small b then db_bytes b else [].
Definition large_bytes (data : list data_block_t) : list byte :=
  data ≫= λ b, if is_small b then [] else db_bytes b.

Definition wire (m : RpcMessage) : list byte :=
  take (head_size + Z.to_nat (body_size (head m))) (m_start m) ++
  (m_data m ≫= block_bytes) ++ small_bytes (m_data m).

(** A message as [initialize] makes it: the head agrees with the memory and with the
    blocks, and no size wraps around. *)
Record sendable (m : RpcMessage) : Prop := {
  sd_head : head_ok (head m);
  sd_body : (head_size + Z.to_nat (body_size (head m)) ≤ length (m_start m))%nat;
  sd_count : extra_block_count (head m) = Z.of_nat (length (m_data m));
  sd_length : extra_block_length (head m) =
              Z.of_nat (length (m_data m) * block_size + length (small_bytes (m_data m)));
  sd_size : Z.of_nat head_size + extra_block_length (head m) + body_size (head m) < 2 ^ 64;
  sd_blocks : Forall (λ b, in_unsigned 32 (Z.of_nat (db_length b))) (m_data m);
}.

Lemma length_wire m : sendable m → Z.of_nat (length (wire m)) = msg_size (head m).
Proof.
  intros [Hh Hb Hc Hl Hs _]. unfold wire, msg_size.
  rewrite !length_app, length_take, length_blocks_bytes, Nat.min_l by done.
  destruct Hh as [Hbs _]. unfold in_unsigned in Hbs.
  rewrite wrap_small by (unfold in_unsigned; lia). rewrite Hl. lia.
Qed.

Lemma filter_small_bytes data :
  concat (db_bytes <$> filter (λ b, byte_cursor.picks false b = true) data) = small_bytes data.
Proof.
  induction data as [|b data IH]; [done|].
  unfold small_bytes in *; cbn [mbind list_bind]. rewrite filter_cons.
  unfold is_small at 1.
  case_decide as Hp; unfold byte_cursor.picks in Hp; cbn [fmap list_fmap concat];
    rewrite ?IH; destruct (Nat.ltb_spec (db_length b) MIN_ZERO_COPY_SIZE); try done.
  destruct (Nat.ltb_spec 0 (db_length b)); [done|]. unfold db_length in *.
  by destruct (db_bytes b); [|cbn in *; lia].
Qed.

Lemma filter_large_bytes data :
  concat (db_bytes <$> filter (λ b, byte_cursor.picks true b = true) data) = large_bytes data.
Proof.
  induction data as [|b data IH]; [done|].
  unfold large_bytes in *; cbn [mbind list_bind]. rewrite filter_cons.
  unfold is_small at 1.
  case_decide as Hp; unfold byte_cursor.picks in Hp; cbn [fmap list_fmap concat];
    rewrite ?IH; destruct (Nat.ltb_spec (db_length b) MIN_ZERO_COPY_SIZE),
      (Nat.leb_spec MIN_ZERO_COPY_SIZE (db_length b)); try lia; done.
Qed.

(** The cursors of a message enumerate its wire format. *)
Lemma cursor_remaining m : byte_cursor.remaining (byte_cursor.cursor m) = wire m.
Proof.
  unfold byte_cursor.remaining, byte_cursor.cursor, byte_cursor.attach, wire.
  cbv zeta. cbn [byte_cursor._i byte_cursor._cur]. rewrite drop_0, concat_app,
    filter_small_bytes. cbn [concat]. rewrite <- app_assoc. f_equal.
  destruct (m_data m); [done|]. cbn [length Nat.ltb Nat.leb concat]. by rewrite app_nil_r.
Qed.

Lemma zero_copy_cursor_remaining m :
  byte_cursor.remaining (byte_cursor.zero_copy_cursor m) = large_bytes (m_data m).
Proof.
  unfold byte_cursor.remaining, byte_cursor.zero_copy_cursor, byte_cursor.attach.
  cbn [byte_cursor._i byte_cursor._cur drop app]. apply filter_large_bytes.
Qed.

Lemma picks_nonempty zc data :
  Forall (λ s, s ≠ []) (db_bytes <$> filter (λ b, byte_cursor.picks zc b = true) data).
Proof.
  apply Forall_fmap, Forall_forall. intros b [Hp _]%list_elem_of_filter Hb.
  unfold compose, byte_cursor.picks, db_length in *. rewrite Hb in Hp. by destruct zc.
Qed.

Lemma cursor_wf m : sendable m → byte_cursor.wf (byte_cursor.cursor m).
Proof.
  intros Hm. split; [apply Nat.le_0_l|].
  unfold byte_cursor.cursor, byte_cursor.attach. cbv zeta.
  cbn [byte_cursor._i byte_cursor._cur]. rewrite drop_0. apply Forall_app. split; [|apply picks_nonempty].
  constructor.
  - intros Hnil. apply (f_equal length) in Hnil. rewrite length_take in Hnil.
    pose proof (sd_body m Hm). unfold head_size in *. cbn [length] in Hnil. lia.
  - destruct (Nat.ltb_spec 0 (length (m_data m))); [|constructor].
    constructor; [|constructor]. intros Hnil. apply (f_equal length) in Hnil.
    rewrite length_blocks_bytes in Hnil. unfold block_size in *. cbn [length] in Hnil. lia.
Qed.

Lemma zero_copy_cursor_wf m : byte_cursor.wf (byte_cursor.zero_copy_cursor m).
Proof. split; [apply Nat.le_0_l|]. apply (picks_nonempty true). Qed.

(** *** The cursor consumes its bytes from the front *)
Lemma advance_spec c seg n :
  byte_cursor.wf c → byte_cursor.head c = Some seg → (n ≤ length seg)%nat →
  ∃ c', byte_cursor.advance c n = Ok c' ∧ byte_cursor.wf c' ∧
        byte_cursor.remaining c' = drop n (byte_cursor.remaining c) ∧
        take n (byte_cursor.remaining c) = take n seg ∧
        (drop n seg ≠ [] → byte_cursor.head c' = Some (drop n seg)).
Proof.
  destruct c as [i cur]. unfold byte_cursor.wf, byte_cursor.head, byte_cursor.remaining.
  cbn [byte_cursor._i byte_cursor._cur]. intros [Hi Hne] Hseg Hn.
  pose proof (lookup_lt_Some _ _ _ Hseg) as Hlt.
  pose proof (drop_S cur seg i Hseg) as Hd. rewrite Hd in *. cbn [concat].
  apply Forall_cons in Hne as [_ Hne].
  unfold byte_cursor.advance. cbn [byte_cursor._i byte_cursor._cur]. rewrite Hseg.
  rewrite SCHECK_ok by (by apply Nat.leb_le). cbn [mbind result_bind].
  set (cur' := <[i:=drop n seg]> cur).
  assert (Hl : length cur' = length cur) by apply length_insert.
  assert (Hi' : cur' !! i = Some (drop n seg)) by by apply list_lookup_insert_eq.
  assert (Htl : drop (S i) cur' = drop (S i) cur) by (apply drop_insert_lt; lia).
  assert (Hnext : ∀ fuel, byte_cursor.skip cur' (S i) fuel = S i).
  { intros [|fuel]; [done|]. cbn. destruct (cur' !! S i) as [s|] eqn:Es; [|done].
    apply drop_S in Es. rewrite Htl in Es. rewrite Es in Hne.
    apply Forall_cons in Hne as [Hs _]. by destruct s. }
  eexists. split; [reflexivity|]. cbn [byte_cursor._i byte_cursor._cur].
  assert (Htake : take n (seg ++ concat (drop (S i) cur)) = take n seg).
  { by rewrite take_app_le. }
  assert (Hdrop : drop n (seg ++ concat (drop (S i) cur)) =
                  drop n seg ++ concat (drop (S i) cur)) by (by rewrite drop_app_le).
  rewrite Hdrop. destruct (length cur' - i)%nat as [|fuel] eqn:Ef; [lia|].
  cbn [byte_cursor.skip]. rewrite Hi'. destruct (drop n seg) as [|x xs] eqn:Eds.
  - rewrite Hnext, Htl. repeat split; try done; lia.
  - rewrite (drop_S cur' _ i Hi'), Htl. cbn [concat]. repeat split; try done; [lia|].
    by constructor.
Qed.

(** *** [build] makes sendable messages *)
Record init_ok (h : rpc_head_t) (ar : list byte) (data : list data_block_t) : Prop := {
  io_head : head_ok h;
  io_room : (head_size ≤ length ar)%nat;
  io_body : Z.of_nat (length ar) < 2 ^ 63;
  io_extra : Z.of_nat (length data * block_size + length (small_bytes data)) < 2 ^ 32;
  io_blocks : Forall (λ b, in_unsigned 32 (Z.of_nat (db_length b))) data;
}.

Lemma extra_length_fold data : ∀ acc,
  0 ≤ acc → acc + Z.of_nat (length (small_bytes data)) < 2 ^ 32 →
  foldl (λ acc b, if is_small b then u32 (acc + Z.of_nat (db_length b)) else acc) acc data
  = acc + Z.of_nat (length (small_bytes data)).
Proof.
  induction data as [|b data IH]; intros acc Ha Hb; [cbn; lia|].
  unfold small_bytes in *. cbn [foldl mbind list_bind] in *. rewrite length_app in *.
  destruct (is_small b); cbn [length] in *.
  - unfold db_length in *. rewrite wrap_small by (unfold in_unsigned; lia).
    rewrite IH; lia.
  - by rewrite IH.
Qed.

Lemma build_sendable junk h ar data :
  init_ok h ar data →
  let m := build junk h ar data in
  sendable m ∧ m_data m = data ∧
  take (head_size + Z.to_nat (body_size (head m))) (m_start m) =
    head_bytes junk (head m) ++ drop head_size ar ∧
  body_size (head m) = Z.of_nat (length ar - head_size) ∧
  src_rank (head m) = src_rank h ∧ dest_rank (head m) = dest_rank h ∧
  src_dealer (head m) = src_dealer h ∧ dest_dealer (head m) = dest_dealer h ∧
  rpc_id (head m) = rpc_id h ∧ sid (head m) = sid h ∧ error_code (head m) = error_code h.
Proof.
  intros [Hh Hroom Hbody Hextra Hbl]. cbv zeta.
  assert (H32 : in_unsigned 32 (Z.of_nat (length data))).
  { unfold in_unsigned, block_size in *. lia. }
  set (h' := RpcHead (Z.of_nat (length ar - head_size)) (src_rank h) (dest_rank h)
    (src_dealer h) (dest_dealer h) (rpc_id h) (sid h) (Z.of_nat (length data))
    (Z.of_nat (length data * block_size + length (small_bytes data))) (error_code h)).
  assert (Hok : head_ok h').
  { destruct Hh as (_&?&?&?&?&?&?&_&_&?). unfold h', head_ok; cbn -[block_size].
    unfold in_unsigned, in_signed in *. repeat split; cbn in *; lia. }
  assert (Hm : build junk h ar data = MkMessage (splice 0 (head_bytes junk h') ar) data 0).
  { unfold build. do 2 f_equal. unfold h'.
    rewrite (wrap_small 32 (Z.of_nat (length data))) by done.
    rewrite (wrap_small 32 (_ * _)) by (unfold in_unsigned, block_size in *; lia).
    rewrite extra_length_fold by lia.
    rewrite wrap_small by (unfold in_unsigned; lia). f_equal; f_equal; lia. }
  assert (Hst : m_start (build junk h ar data) = head_bytes junk h' ++ drop head_size ar).
  { rewrite Hm. done. }
  assert (Hhd : head (build junk h ar data) = h').
  { unfold head. rewrite Hst. by apply head_of_head_bytes. }
  rewrite Hhd, Hst.
  assert (Hlen : (head_size + Z.to_nat (body_size h') =
                  length (head_bytes junk h' ++ drop head_size ar))%nat).
  { rewrite length_app, length_drop, length_head_bytes. cbn -[head_size]. lia. }
  split; [|rewrite take_ge by lia; rewrite Hm; done].
  split; rewrite ?Hhd, ?Hst, ?Hm; try done; [lia|].
  unfold h' in *; cbn [extra_block_length body_size]. lia.
Qed.

(** *** The receiving constructor rebuilds the message *)
Section recv.
Context (junk : nat → byte) (addr : list byte → Z).

(** The block the receiver has for the sender's block [b] before large blocks arrive. *)
Definition recv_block (b : data_block_t) : data_block_t :=
  let a := alloc_block junk addr (db_length b) in
  if is_small b then DataBlock (db_ptr a) (db_bytes b) (db_owner a) else a.

Definition count_large (data : list data_block_t) : nat :=
  length (filter (λ b, is_small b = false) data).

Lemma recv_blocks_spec data : ∀ r1 r2,
  Forall (λ b, in_unsigned 32 (Z.of_nat (db_length b))) data →
  recv_blocks junk addr (length data) ((data ≫= block_bytes) ++ r1) (small_bytes data ++ r2)
  = Ok (recv_block <$> data, count_large data).
Proof.
  induction data as [|b data IH]; intros r1 r2 Hb; [done|].
  apply Forall_cons in Hb as [Hb Hd]. unfold small_bytes in *.
  rewrite !bind_cons. cbn [length recv_blocks]. rewrite <- !app_assoc.
  rewrite block_length_of_block_bytes by done.
  rewrite (drop_app_length' (block_bytes b)) by done. unfold count_large.
  cbn [fmap list_fmap]. rewrite filter_cons. unfold recv_block at 1.
  fold (is_small b). destruct (is_small b) eqn:Es.
  - rewrite SCHECK_ok by (apply Nat.leb_le; rewrite length_app; unfold db_length; lia).
    cbn [mbind result_bind]. rewrite drop_app_length', take_app_length' by done.
    rewrite IH by done. rewrite decide_False by done. done.
  - rewrite app_nil_l, IH by done. rewrite decide_True by done. done.
Qed.

(** What [RpcMessage_recv] makes of the bytes [wire m ++ rest]. *)
Definition received (m : RpcMessage) (rest : list byte) : RpcMessage :=
  MkMessage (wire m ++ rest) (recv_block <$> m_data m) (count_large (m_data m)).

Lemma head_wire m rest : sendable m → head_of_bytes (wire m ++ rest) = head m.
Proof.
  intros Hm. unfold wire. rewrite <- app_assoc.
  apply head_of_bytes_app; [lia|apply Hm].
Qed.

Lemma drop_wire_body m rest :
  sendable m →
  drop (head_size + Z.to_nat (body_size (head m))) (wire m ++ rest) =
  (m_data m ≫= block_bytes) ++ small_bytes (m_data m) ++ rest.
Proof.
  intros Hm. unfold wire. rewrite <- !app_assoc. apply drop_app_length'.
  rewrite length_take, Nat.min_l; [done|apply Hm].
Qed.

Lemma RpcMessage_recv_spec m rest :
  sendable m → RpcMessage_recv junk addr (wire m ++ rest) = Ok (received m rest).
Proof.
  intros Hm. unfold RpcMessage_recv, extra, lazy_meta.
  assert (Hh : head (MkMessage (wire m ++ rest) [] 0) = head m) by by apply head_wire.
  rewrite Hh. cbn [m_start]. rewrite drop_wire_body by done.
  rewrite (sd_count m Hm), Nat2Z.id.
  rewrite SCHECK_ok by (apply Nat.leb_le; rewrite length_app, length_blocks_bytes; lia).
  cbn [mbind result_bind]. rewrite (drop_app_length' (m_data m ≫= block_bytes))
    by (by rewrite length_blocks_bytes).
  rewrite recv_blocks_spec by apply Hm. done.
Qed.
End recv.

(** ** From a request to the wire and back *)
Section roundtrip.
Context (junk : nat → byte) (addr : list byte → Z).
Context (order : ∀ V, gmap (list byte) V → list (list byte * V)).
Context (order_set : gset (list byte) → list (list byte)).
Hypothesis order_perm : ∀ V (m : gmap (list byte) V), order V m ≡ₚ map_to_list m.
Hypothesis order_set_perm : ∀ s, order_set s ≡ₚ elements s.

(** The sizes that have to fit in the fields of the head and of the blocks. *)
Record fits (q : item) (m : RpcMessage) : Prop := {
  ft_body : Z.of_nat (length (m_start m)) < 2 ^ 63;
  ft_extra : Z.of_nat (length (m_data m) * block_size + length (small_bytes (m_data m))) < 2 ^ 32;
  ft_blocks : Forall (λ b, in_unsigned 32 (Z.of_nat (db_length b))) (m_data m);
  ft_meta : ∀ l data, apply junk addr order order_set (q_lazy q) = Ok (l, data) →
            block_ok (content (la_meta_ar l));
}.

(** [m'] is [m] after its bytes have arrived, followed by [rest]. *)
Definition arrived (m m' : RpcMessage) : Prop :=
  (∃ rest, m_start m' = wire m ++ rest) ∧ db_bytes <$> m_data m' = db_bytes <$> m_data m.

(** What the head says about the addressing of a message. *)
Definition routing (h : rpc_head_t) :=
  (src_rank h, dest_rank h, src_dealer h, dest_dealer h, rpc_id h, sid h, error_code h).

Lemma empty_body_eq : empty_body junk =
  Ok (MkArchive (Some (buf_malloc junk 64)) head_size head_size false true (DelDefault false)).
Proof. reflexivity. Qed.

(** The archive of a request after its arguments were streamed in. *)
Lemma item_put_spec q0 ar0 xs :
  empty_body junk = Ok ar0 → q_ar q0 = ar0 → Forall valid_any xs →
  ∃ ar bs, item_put junk order order_set q0 xs = Ok (with_ar q0 ar) ∧
    (head_size ≤ length (take (a_end ar) (mem ar)))%nat ∧
    drop head_size (take (a_end ar) (mem ar)) = bs ∧
    ∀ b rest, wf b → content b = bs ++ rest →
      ∃ b', get_all junk order order_set b (projT1 <$> xs) = Ok (b', xs).
Proof.
  rewrite empty_body_eq. intros [= <-] Hq Hv. unfold item_put. rewrite Hq.
  match goal with |- context [put_all _ _ _ ?a _] => set (ar0 := a) end.
  destruct (put_get_all junk order order_set order_perm order_set_perm xs ar0)
    as (ar&bs&->&([Hwf _]&Hc&Hcur)&Hget); [|done|].
  { split; [|done]. unfold wf, capacity, ar0. rewrite mem_mk, length_buf_malloc.
    cbn [a_cursor a_end]. unfold head_size. lia. }
  exists ar, bs. cbn [mbind result_bind]. split; [done|].
  unfold content in Hc. rewrite !slice_alt in Hc. rewrite Hcur in Hc.
  change (a_cursor ar0) with head_size in *.
  assert (Hn : drop head_size (take (a_end ar0) (mem ar0)) = []).
  { apply drop_ge. rewrite length_take. cbn [ar0 a_end]. lia. }
  rewrite Hn in Hc. split; [|split; [done|]].
  - unfold wf, capacity in Hwf. rewrite Hcur in Hwf. rewrite length_take. lia.
  - intros b rest Hb Hcb. destruct (Hget b rest Hb Hcb) as (b'&?&_). eauto.
Qed.

(** Receiving what [build] makes. *)
Lemma finalize_arrived h ar data m' :
  init_ok h ar data → arrived (build junk h ar data) m' →
  ∃ b m2, finalize m' (MemoryArchive_ false) LazyArchive_ =
    (lazy ← attach LazyArchive_ (m_data m');
     Ok (head (build junk h ar data), b, lazy, m2)) ∧
    wf b ∧ content b = drop head_size ar.
Proof.
  intros Hio [[rest Hst] _]. destruct (build_sendable junk h ar data Hio)
    as (Hs&_&Hfront&Hbody&_). set (m := build junk h ar data) in *.
  unfold finalize. assert (Hh : head m' = head m).
  { unfold head at 1. rewrite Hst. by apply head_wire. }
  rewrite Hh, Hst, set_read_buffer_ok. cbn [mbind result_bind].
  assert (Ht : take (Z.to_nat (body_size (head m)) + head_size) (wire m ++ rest) =
    head_bytes junk (head m) ++ drop head_size ar).
  { unfold wire. rewrite <- app_assoc, Nat.add_comm, take_app_length', Hfront; [done|].
    rewrite length_take, Nat.min_l; [done|apply Hs]. }
  rewrite Ht. set (buf := head_bytes junk (head m) ++ drop head_size ar).
  assert (Hlen : length buf = (head_size + (length ar - head_size))%nat).
  { unfold buf. by rewrite length_app, length_head_bytes, length_drop. }
  unfold advance_cursor. cbn [a_end a_cursor].
  rewrite SCHECK_ok by (apply Nat.leb_le; lia). cbn [mbind result_bind].
  eexists _, _. split; [reflexivity|]. unfold with_cursor. cbn [a_buf a_end a_cursor].
  split.
  - unfold wf, capacity. rewrite mem_mk. cbn [a_cursor a_end]. lia.
  - unfold content. rewrite mem_mk. cbn [a_cursor a_end].
    rewrite slice_alt, firstn_all. unfold buf. by rewrite drop_app_length'.
Qed.

Lemma item_roundtrip h ar0 xs ys :
  empty_body junk = Ok ar0 → head_ok h → Forall valid_any xs → Forall lvalid_any ys →
  ∃ q m,
    (q1 ← item_put junk order order_set (Item h ar0 LazyArchive_ None) xs;
     Ok (item_put_lazy q1 ys)) = Ok q ∧
    RpcMessage_of_item junk addr order order_set q = Ok m ∧
    (fits q m →
     sendable m ∧ routing (head m) = routing h ∧
     ∀ m', arrived m m' →
     ∃ q1 q2 q3, item_of_message m' = Ok q1 ∧ routing (q_head q1) = routing h ∧
       item_get junk order order_set q1 (projT1 <$> xs) = Ok (q2, xs) ∧
       item_get_lazy junk addr order order_set q2 (projT1 <$> ys) = Ok (q3, ys)).
Proof.
  intros He Hh Hx Hy.
  destruct (item_put_spec (Item h ar0 LazyArchive_ None) ar0 xs He eq_refl Hx)
    as (ar&bs&->&Hroom&Hbs&Hget).
  destruct (apply_attach junk addr order order_set order_perm order_set_perm ys Hy)
    as (l&data&Hap&Hatt).
  cbn [mbind result_bind]. eexists _, _. split; [reflexivity|].
  unfold RpcMessage_of_item, initialize, item_put_lazy, with_ar, with_lazy.
  cbn [q_msg q_head q_ar q_lazy]. rewrite Hap. cbn [mbind result_bind].
  split; [reflexivity|]. intros [Hb Hx2 Hbl Hm]. cbn [q_lazy] in Hm.
  set (mem_ar := take (a_end ar) (mem ar)) in *.
  assert (Hio : init_ok h mem_ar data).
  { split; try done. cbn [build m_start] in Hb. unfold splice in Hb.
    rewrite !length_app, length_head_bytes, length_take, length_drop in Hb. lia. }
  destruct (build_sendable junk h mem_ar data Hio)
    as (Hs&Hdata&_&_&R1&R2&R3&R4&R5&R6&R7).
  assert (Hr : routing (head (build junk h mem_ar data)) = routing h)
    by (unfold routing; congruence).
  split; [done|]. split; [done|]. intros m' Harr.
  destruct (finalize_arrived h mem_ar data m' Hio Harr) as (b&m2&Hfin&Hwf&Hc).
  destruct Harr as [_ Hd]. rewrite Hdata in Hd.
  destruct (Hatt (Hm _ _ Hap) (m_data m') Hd) as (r&r'&Hr1&Hr2).
  unfold item_of_message. rewrite Hfin, Hr1. cbn [mbind result_bind].
  destruct (Hget b [] Hwf) as (b'&Hg); [by rewrite Hc, app_nil_r|].
  eexists _, _, _. split; [reflexivity|]. split; [done|].
  unfold item_get, item_get_lazy, with_ar, with_lazy. cbn [q_ar q_lazy].
  rewrite Hg. cbn [mbind result_bind]. split; [reflexivity|]. cbn [q_lazy].
  rewrite Hr2. reflexivity.
Qed.
End roundtrip.

(** ** Properties *)

(** C6: a request or a response survives its trip as bytes.  Take a fresh request or
    response with any head, stream any values into its archive and into its lazy archive
    and convert it to a message.  If the sizes fit in the fields of the head, the message
    is consistent; when the bytes its cursors enumerate have arrived, in front of
    whatever follows them, the request or response built from them has the same
    addressing and gives the same values back.  A message without zero-copy blocks is
    complete once the first cursor's bytes are there. *)
Theorem rpc_message_roundtrip (junk : nat → byte) (addr : list byte → Z)
    (order : ∀ V, gmap (list byte) V → list (list byte * V))
    (order_set : gset (list byte) → list (list byte))
    (h : rpc_head_t) (ar0 : archive) (xs : list (sigT value)) (ys : list (sigT lvalue)) :
  (∀ V (m : gmap (list byte) V), order V m ≡ₚ map_to_list m) →
  (∀ s, order_set s ≡ₚ elements s) →
  empty_body junk = Ok ar0 → head_ok h → Forall valid_any xs → Forall lvalid_any ys →
  ∃ q m,
    (q1 ← item_put junk order order_set (Item h ar0 LazyArchive_ None) xs;
     Ok (item_put_lazy q1 ys)) = Ok q ∧
    RpcMessage_of_item junk addr order order_set q = Ok m ∧
    (fits junk addr order order_set q m →
     (byte_cursor.remaining (byte_cursor.cursor m) = wire m ∧
      Z.of_nat (length (wire m)) = msg_size (head m)) ∧
     (∀ m', arrived m m' →
      ∃ q1 q2 q3, item_of_message m' = Ok q1 ∧ routing (q_head q1) = routing h ∧
       item_get junk order order_set q1 (projT1 <$> xs) = Ok (q2, xs) ∧
       item_get_lazy junk addr order order_set q2 (projT1 <$> ys) = Ok (q3, ys)) ∧
     (∀ rest, count_large (m_data m) = 0%nat →
      ∃ m', RpcMessage_recv junk addr (wire m ++ rest) = Ok m' ∧ arrived m m')).
Proof.
  intros Ho Hos He Hh Hx Hy.
  destruct (item_roundtrip junk addr order order_set Ho Hos h ar0 xs ys He Hh Hx Hy)
    as (q&m&Hq&Hm&Hrest).
  exists q, m. split; [done|]. split; [done|]. intros (Hs&_&Hall)%Hrest.
  split; [split; [apply cursor_remaining|by apply length_wire]|]. split; [done|].
  intros rest Hz. exists (received junk addr m rest).
  split; [by apply RpcMessage_recv_spec|]. split; [by exists rest|].
  cbn [received m_data]. rewrite <- list_fmap_compose. apply list_fmap_ext.
  intros i b Hb. unfold compose, recv_block. destruct (is_small b) eqn:Es; [done|].
  apply length_zero_iff_nil in Hz. apply list_elem_of_lookup_2 in Hb.
  assert (b ∈ filter (λ b, is_small b = false) (m_data m)) as Hin
    by by apply list_elem_of_filter.
  rewrite Hz in Hin. by apply not_elem_of_nil in Hin.
Qed.

Lemma rpc_message_roundtrip_witness :
  let J := λ _ : nat, Byte.x00 in let A := λ _ : list byte, 4096 in
  let O := λ V (m : gmap (list byte) V), map_to_list m in
  let xs := [existT (TyInt t_i32) 5; existT TyString [Byte.x61; Byte.x62]] in
  let ys := [existT (LVecInt t_i16) [7; -8]] in
  let ar0 := MkArchive (Some (buf_malloc J 64)) head_size head_size false true
               (DelDefault false) in
  let h := RpcHead 0 0 1 2 (-1) 9 3 0 0 SUCC in
  ∃ q m,
    (q1 ← item_put J O elements (Item h ar0 LazyArchive_ None) xs;
     Ok (item_put_lazy q1 ys)) = Ok q ∧
    RpcMessage_of_item J A O elements q = Ok m ∧
    (fits J A O elements q m →
     (byte_cursor.remaining (byte_cursor.cursor m) = wire m ∧
      Z.of_nat (length (wire m)) = msg_size (head m)) ∧
     (∀ m', arrived m m' →
      ∃ q1 q2 q3, item_of_message m' = Ok q1 ∧ routing (q_head q1) = routing h ∧
       item_get J O elements q1 (projT1 <$> xs) = Ok (q2, xs) ∧
       item_get_lazy J A O elements q2 (projT1 <$> ys) = Ok (q3, ys)) ∧
     (∀ rest, count_large (m_data m) = 0%nat →
      ∃ m', RpcMessage_recv J A (wire m ++ rest) = Ok m' ∧ arrived m m')).
Proof.
  intros J A O xs ys ar0 h. apply rpc_message_roundtrip; [done|done|reflexivity|..].
  - repeat split; vm_compute; congruence.
  - repeat (apply Forall_cons; split); [..|by apply Forall_nil]; cbn;
      repeat match goal with |- _ ∧ _ => split end; try split;
      first [by repeat constructor | vm_compute; congruence].
  - repeat (apply Forall_cons; split); [..|by apply Forall_nil]; cbn;
      repeat match goal with |- _ ∧ _ => split end;
      repeat (apply Forall_cons; split); try apply Forall_nil; try split;
      first [by repeat constructor | vm_compute; congruence].
Defined.

(** A received request or response loses its blocks when it is sent on.  [finalize]
    moves the blocks from the message to the lazy archive, and [RpcMessage(RpcRequest&&)]
    sends the kept message instead of applying the lazy archive: the head still announces
    the blocks, so fewer bytes go out than the head says and the peer takes the start of
    the next message for the rest of this one. *)
Theorem resent_message_is_short (junk : nat → byte) (addr : list byte → Z)
    (order : ∀ V, gmap (list byte) V → list (list byte * V))
    (order_set : gset (list byte) → list (list byte)) (m : RpcMessage) (q : item) :
  sendable m → m_data m ≠ [] → item_of_message m = Ok q →
  ∃ m2, RpcMessage_of_item junk addr order order_set q = Ok m2 ∧
        head m2 = head m ∧ byte_cursor.remaining (byte_cursor.zero_copy_cursor m2) = [] ∧
        Z.of_nat (length (byte_cursor.remaining (byte_cursor.cursor m2))) < msg_size (head m2).
Proof.
  intros Hs Hd Hq. unfold item_of_message, finalize in Hq.
  apply bind_ok in Hq as ([[[h b] l] m1]&Hq&[= <-]).
  apply bind_ok in Hq as (b1&_&Hq). apply bind_ok in Hq as (b2&_&Hq).
  apply bind_ok in Hq as (l1&_&[= <- <- <- <-]).
  eexists. split; [reflexivity|]. split; [done|]. split; [done|].
  rewrite cursor_remaining. unfold wire, head. cbn [m_start m_data].
  fold (head m). change ([] ≫= block_bytes) with (@nil byte).
  change (small_bytes []) with (@nil byte).
  rewrite !app_nil_r, length_take, Nat.min_l by apply Hs.
  rewrite <- (length_wire m Hs). unfold wire. rewrite !length_app, length_take, Nat.min_l by apply Hs.
  rewrite length_blocks_bytes. destruct (m_data m); [done|]. cbn [length]. unfold block_size. lia.
Qed.

Lemma resent_message_is_short_witness :
  let J := λ _ : nat, Byte.x00 in let A := λ _ : list byte, 4096 in
  let O := λ V (m : gmap (list byte) V), map_to_list m in
  let m := build J (RpcHead 0 0 1 2 (-1) 9 3 0 0 SUCC) (buf_malloc J 48)
             [DataBlock 0 [Byte.x01] 0; DataBlock 0 [] 0] in
  ∃ q m2, item_of_message m = Ok q ∧ RpcMessage_of_item J A O elements q = Ok m2 ∧
    head m2 = head m ∧ byte_cursor.remaining (byte_cursor.zero_copy_cursor m2) = [] ∧
    Z.of_nat (length (byte_cursor.remaining (byte_cursor.cursor m2))) < msg_size (head m2).
Proof.
  intros J A O m.
  assert (Hs : sendable m).
  { apply build_sendable. split; [repeat split; vm_compute; congruence|vm_compute; lia|done|done|].
    repeat constructor; vm_compute; congruence. }
  destruct (item_of_message m) as [q|] eqn:Eq; [|by vm_compute in Eq].
  exists q. destruct (resent_message_is_short J A O elements m q Hs ltac:(done) Eq) as (m2&?).
  by exists m2.
Defined.
