(* ===== verification/Socket.v ===== *)
(** * The socket: sending cursors, reassembling messages

    src/src/rpc/RpcSocket.h, RpcSocket.cpp, TcpSocket.h and TcpSocket.cpp.

    A [TcpSocket] has two connections to its peer: [_fd] carries heads, bodies and small
    blocks, [_fd2] the blocks that are not copied.  The kernel is a parameter: its answers
    to [send] and [recv] are scripts, so that every statement holds for every way it may
    cut the streams.  [retry_eintr_call] has been applied to the answers, and the flags of
    [send] (MSG_MORE, MSG_DONTWAIT, MSG_NOSIGNAL) do not change which bytes it takes. *)
From S2P Require Import Prelude Archive Serialize LazyArchive Message.
Import MemoryArchive.

(** ** Sending *)

(** An answer of [send]: [n] bytes were taken (all it was offered, if that is less),
    EAGAIN, or another error. *)
Inductive send_res := Sent (n : nat) | SendAgain | SendErr.

(** [Returned b]: the call returned [b].  [Waiting]: the script is used up inside a
    blocking [send].  [Spinning]: the loop makes no progress. *)
Inductive send_out := Returned (b : bool) | Waiting | Spinning.

(** The memory the next [send] is given: what is left of the segment, else the next one. *)
Definition offered (cur : byte_cursor.t) (seg : list byte) : option (list byte) :=
  match seg with
  | [] => if byte_cursor.has_next cur then byte_cursor.head cur else None
  | _ => Some seg
  end.

(** [_send]: [seg] is [ptr + sent .. ptr + size] of the inner loop, empty when it is done.
    The second component is what the kernel took. *)
Fixpoint _send (cur : byte_cursor.t) (seg : list byte) (ks : list send_res)
    : result (byte_cursor.t * list byte * list send_res * send_out) :=
  match offered cur seg with
  | None => Ok (cur, [], ks, Returned true)
  | Some [] => Ok (cur, [], ks, Spinning)
  | Some seg =>
      match ks with
      | [] => Ok (cur, [], [], Waiting)
      | Sent n :: ks =>
          let n := (n `min` length seg)%nat in
          cur ← byte_cursor.advance cur n;
          '(cur, out, ks, r) ← _send cur (drop n seg) ks;
          Ok (cur, take n seg ++ out, ks, r)
      | SendAgain :: ks => Ok (cur, [], ks, Returned true)
      | SendErr :: ks => Ok (cur, [], ks, Returned false)
      end
  end.

(** What a call of [TcpSocket::send_msg] handed to the two connections. *)
Record sent := MkSent { s_fd : list byte; s_fd2 : list byte }.

(** [TcpSocket::send_msg]; [k1] and [k2] are the answers on [_fd] and on [_fd2]. *)
Definition send_msg (it1 it2 : byte_cursor.t) (k1 k2 : list send_res)
    : result (byte_cursor.t * byte_cursor.t * sent * send_out) :=
  if byte_cursor.has_next it2 then
    '(it1, out1, _, r1) ← _send it1 [] k1;
    match r1 with
    | Returned true =>
        '(it2, out2, _, r2) ← _send it2 [] k2;
        Ok (it1, it2, MkSent out1 out2, r2)
    | _ => Ok (it1, it2, MkSent out1 [], r1)
    end
  else
    '(it1, out1, _, r1) ← _send it1 [] k1;
    Ok (it1, it2, MkSent out1 [], r1).

(** Calling [send_msg] again and again with the same cursors, as the front end does when
    the socket becomes writable. *)
Fixpoint send_calls (it1 it2 : byte_cursor.t) (calls : list (list send_res * list send_res))
    : result (byte_cursor.t * byte_cursor.t * sent) :=
  match calls with
  | [] => Ok (it1, it2, MkSent [] [])
  | (k1, k2) :: calls =>
      '(it1, it2, s, r) ← send_msg it1 it2 k1 k2;
      match r with
      | Returned true =>
          '(it1, it2, s') ← send_calls it1 it2 calls;
          Ok (it1, it2, MkSent (s_fd s ++ s_fd s') (s_fd2 s ++ s_fd2 s'))
      | _ => Ok (it1, it2, s)
      end
  end.

(** [RpcSocket::send_rpc_message]: blocking, with fresh cursors. *)
Definition send_rpc_message (m : RpcMessage) (k1 k2 : list send_res) :=
  send_msg (byte_cursor.cursor m) (byte_cursor.zero_copy_cursor m) k1 k2.

(** ** Receiving *)

(** What [recv] will answer: data, EAGAIN, end of file, another error.  Data longer than
    what was asked for stays for the next call; an empty script means EAGAIN. *)
Inductive recv_ev := RData (bs : list byte) | RAgain | RClosed | RErr.

Inductive recv_ret := Got (bs : list byte) | GotAgain | GotEof | GotErr.

Definition recv (size : Z) (ks : list recv_ev) : recv_ret * list recv_ev :=
  match ks with
  | [] => (GotAgain, [])
  | RAgain :: ks => (GotAgain, ks)
  | RClosed :: _ => (GotEof, ks)
  | RErr :: ks => (GotErr, ks)
  | RData [] :: ks => (GotAgain, ks)
  | RData bs :: ks' =>
      let n := Z.to_nat size in
      if (n =? 0)%nat then (GotEof, ks)
      else if (length bs <=? n)%nat then (Got bs, ks')
      else (Got (take n bs), RData (drop n bs) :: ks')
  end.

(** [recv_buffer_t]: [b_bytes] is what lies between [ptr] and [cursor], [b_msg] the
    offset of [msg_cursor]. *)
Record recv_buffer_t := RecvBuffer { b_size : Z; b_bytes : list byte; b_msg : nat }.

Definition no_buffer : recv_buffer_t := RecvBuffer 0 [] 0.

Definition BLOCK : Z := 256 * 1024.

Definition b_cursor (b : recv_buffer_t) : Z := Z.of_nat (length (b_bytes b)).
Definition avaliable_size (b : recv_buffer_t) : Z := b_size b - b_cursor b.

(** [tmp.alloc(sz); memcpy(...); _buffer = std::move(tmp)].  Copying more than [sz] bytes
    is out of bounds. *)
Definition realloc (b : recv_buffer_t) (sz : Z) : result recv_buffer_t :=
  let part := drop (b_msg b) (b_bytes b) in
  _ ← SCHECK (Z.of_nat (length part) <=? sz);
  Ok (RecvBuffer sz part 0).

Section receive.
Context (junk : nat → byte) (addr : list byte → Z).

(** The inner [for (;;)]: the messages handed to [func]; [false] when the fuel is used
    up.  Pointers past the end of the buffer are not wrapped around. *)
Fixpoint parse (fuel : nat) (b : recv_buffer_t)
    : result (recv_buffer_t * list RpcMessage * bool) :=
  match fuel with
  | O => Ok (b, [], false)
  | S fuel =>
      if Z.of_nat (b_msg b) + Z.of_nat head_size <=? b_cursor b then
        let hd := head_of_bytes (drop (b_msg b) (b_bytes b)) in
        let expected_msg_end := Z.of_nat (b_msg b) + msg_size hd in
        if expected_msg_end <=? b_cursor b then
          m ← RpcMessage_recv junk addr (drop (b_msg b) (b_bytes b));
          '(b, ms, ok) ← parse fuel (RecvBuffer (b_size b) (b_bytes b) (Z.to_nat expected_msg_end));
          Ok (b, m :: ms, ok)
        else if b_size b <? expected_msg_end then
          b ← realloc b (Z.max (msg_size hd) BLOCK);
          Ok (b, [], true)
        else Ok (b, [], true)
      else if b_size b <? Z.of_nat (b_msg b) + Z.of_nat head_size then
        b ← realloc b BLOCK;
        Ok (b, [], true)
      else Ok (b, [], true)
  end.

(** Whether the connection is still alive, or the fuel is used up. *)
Inductive recv_out := Alive | Dead | OutOfFuel.
#[global] Instance recv_out_eq_dec : EqDecision recv_out.
Proof. solve_decision. Defined.

(** [RpcSocket::try_recv_msgs]; a message takes at least [head_size] bytes, so the bytes
    in the buffer bound the rounds of the inner loop. *)
Fixpoint try_recv_msgs (fuel : nat) (b : recv_buffer_t) (ks : list recv_ev)
    : result (recv_buffer_t * list recv_ev * list RpcMessage * recv_out) :=
  match fuel with
  | O => Ok (b, ks, [], OutOfFuel)
  | S fuel =>
      b ← (if avaliable_size b =? 0 then realloc b BLOCK else Ok b);
      match recv (avaliable_size b) ks with
      | (GotAgain, ks) => Ok (b, ks, [], Alive)
      | (GotEof, ks) | (GotErr, ks) => Ok (b, ks, [], Dead)
      | (Got bs, ks) =>
          let b := RecvBuffer (b_size b) (b_bytes b ++ bs) (b_msg b) in
          '(b, ms, ok) ← parse (S (length (b_bytes b))) b;
          if ok : bool then
            '(b, ks, ms', r) ← try_recv_msgs fuel b ks;
            Ok (b, ks, ms ++ ms', r)
          else Ok (b, ks, ms, OutOfFuel)
      end
  end.

(** *** The messages whose blocks arrive on [_fd2] *)
Record pending := Pending {
  p_msgs : list RpcMessage;
  p_block_id : nat;
  p_received : nat;
  p_errno_again : bool;    (** whether [errno] is EAGAIN *)
}.

Definition no_pending : pending := Pending [] 0 0 false.

Definition with_block (m : RpcMessage) (i : nat) (b : data_block_t) : RpcMessage :=
  MkMessage (m_start m) (<[i := b]> (m_data m)) (m_pending_block_cnt m).

(** One round of [TcpSocket::try_recv_pending]: the messages handed to [func], and
    [Some] when the loop is left.  [_data[_block_id]] out of range is undefined. *)
Definition recv_pending_round (p : pending) (ks : list recv_ev)
    : result (pending * list recv_ev * list RpcMessage * option bool) :=
  match p_msgs p with
  | [] => Ok (p, ks, [], Some true)
  | msg :: msgs =>
      match m_data msg !! p_block_id p with
      | None => Abort
      | Some blk =>
          let size := (db_length blk - p_received p)%nat in
          if (db_length blk <? MIN_ZERO_COPY_SIZE)%nat || (size =? 0)%nat then
            let id := S (p_block_id p) in
            if Z.of_nat id =? extra_block_count (head msg) then
              Ok (Pending msgs 0 0 (p_errno_again p), ks, [msg], None)
            else Ok (Pending (msg :: msgs) id 0 (p_errno_again p), ks, [], None)
          else
            match recv (Z.of_nat size) ks with
            | (Got bs, ks) =>
                let blk := DataBlock (db_ptr blk) (splice (p_received p) bs (db_bytes blk))
                             (db_owner blk) in
                Ok (Pending (with_block msg (p_block_id p) blk :: msgs) (p_block_id p)
                      (p_received p + length bs) (p_errno_again p), ks, [], None)
            | (GotAgain, ks) => Ok (Pending (msg :: msgs) (p_block_id p) (p_received p) true,
                                    ks, [], Some true)
            | (GotEof, ks) => Ok (p, ks, [], Some (p_errno_again p))
            | (GotErr, ks) => Ok (Pending (msg :: msgs) (p_block_id p) (p_received p) false,
                                  ks, [], Some false)
            end
      end
  end.

Fixpoint try_recv_pending (fuel : nat) (p : pending) (ks : list recv_ev)
    : result (pending * list recv_ev * list RpcMessage * recv_out) :=
  match fuel with
  | O => Ok (p, ks, [], OutOfFuel)
  | S fuel =>
      '(p, ks, out, stop) ← recv_pending_round p ks;
      match stop with
      | Some alive => Ok (p, ks, out, if alive : bool then Alive else Dead)
      | None => '(p, ks, out', r) ← try_recv_pending fuel p ks; Ok (p, ks, out ++ out', r)
      end
  end.

(** ** [TcpSocket::handle_event] *)
Record tcp := Tcp { t_buffer : recv_buffer_t; t_pending : pending }.

Definition tcp_init : tcp := Tcp no_buffer no_pending.

(** [tcp_func]: a message without blocks is delivered at once. *)
Definition is_plain (m : RpcMessage) : bool := extra_block_count (head m) =? 0.

Definition handle_fd2 (fuel : nat) (t : tcp) (k2 : list recv_ev)
    : result (tcp * list recv_ev * list RpcMessage * recv_out) :=
  '(p, k2, out, r) ← try_recv_pending fuel (t_pending t) k2;
  Ok (Tcp (t_buffer t) p, k2, out, r).

Definition handle_fd (fuel : nat) (t : tcp) (k1 k2 : list recv_ev)
    : result (tcp * list recv_ev * list recv_ev * list RpcMessage * recv_out) :=
  '(b, k1, ms, r) ← try_recv_msgs fuel (t_buffer t) k1;
  let plain := filter (λ m, is_plain m = true) ms in
  let p := t_pending t in
  let p := Pending (p_msgs p ++ filter (λ m, is_plain m = false) ms) (p_block_id p)
             (p_received p) (match r with Alive => false | _ => p_errno_again p end) in
  match r with
  | Alive =>
      '(p, k2, out, r) ← try_recv_pending fuel p k2;
      Ok (Tcp b p, k1, k2, plain ++ out, r)
  | _ => Ok (Tcp b p, k1, k2, plain, r)
  end.

(** A run of the receiving thread: on which descriptor epoll reported input. *)
Inductive fd_event := OnFd | OnFd2.

Fixpoint run_events (fuel : nat) (t : tcp) (k1 k2 : list recv_ev) (evs : list fd_event)
    : result (tcp * list recv_ev * list recv_ev * list RpcMessage * recv_out) :=
  match evs with
  | [] => Ok (t, k1, k2, [], Alive)
  | ev :: evs =>
      '(t, k1, k2, out, r) ←
        match ev with
        | OnFd => handle_fd fuel t k1 k2
        | OnFd2 => '(t, k2, out, r) ← handle_fd2 fuel t k2; Ok (t, k1, k2, out, r)
        end;
      match r with
      | Alive => '(t, k1, k2, out', r) ← run_events fuel t k1 k2 evs;
                 Ok (t, k1, k2, out ++ out', r)
      | _ => Ok (t, k1, k2, out, r)
      end
  end.
End receive.

(** ** Lemmas: sending *)

(** [seg] is what is left of the segment at the head of the cursor. *)
Definition in_segment (c : byte_cursor.t) (seg : list byte) : Prop :=
  seg = [] ∨ byte_cursor.head c = Some seg.

Lemma has_next_spec c :
  byte_cursor.wf c →
  if byte_cursor.has_next c then
    ∃ seg, byte_cursor.head c = Some seg ∧ seg ≠ [] ∧
           ∃ more, byte_cursor.remaining c = seg ++ more
  else byte_cursor.remaining c = [].
Proof.
  destruct c as [i cur]. unfold byte_cursor.wf, byte_cursor.has_next, byte_cursor.head,
    byte_cursor.remaining. cbn [byte_cursor._i byte_cursor._cur]. intros [Hi Hne].
  destruct (Nat.eqb_spec i (length cur)) as [->|Hn]; cbn [negb].
  - by rewrite drop_all.
  - destruct (lookup_lt_is_Some_2 cur i) as [seg Hseg]; [lia|]. exists seg.
    rewrite (drop_S _ _ _ Hseg) in *. apply Forall_cons in Hne as [??].
    split; [done|]. split; [done|]. by eexists.
Qed.

Lemma offered_spec c seg :
  byte_cursor.wf c → in_segment c seg →
  match offered c seg with
  | Some s => byte_cursor.head c = Some s ∧ s ≠ []
  | None => byte_cursor.remaining c = []
  end.
Proof.
  intros Hwf Hseg. pose proof (has_next_spec c Hwf) as Hn. unfold offered.
  destruct seg as [|x seg]; [|by destruct Hseg].
  destruct (byte_cursor.has_next c); [|done]. by destruct Hn as (s&->&?&_).
Qed.

Lemma _send_spec ks : ∀ c seg,
  byte_cursor.wf c → in_segment c seg →
  ∃ c' out ks' r, _send c seg ks = Ok (c', out, ks', r) ∧ byte_cursor.wf c' ∧
    out ++ byte_cursor.remaining c' = byte_cursor.remaining c ∧ r ≠ Spinning ∧
    (r = Returned true → SendAgain ∉ ks → byte_cursor.remaining c' = []).
Proof.
  induction ks as [|k ks IH]; intros c seg Hwf Hseg; cbn [_send];
    pose proof (offered_spec c seg Hwf Hseg) as Ho;
    (destruct (offered c seg) as [[|x s]|]; [by destruct Ho| |by eexists _, _, _, _; auto]).
  { by eexists _, _, _, _. }
  destruct Ho as [Hh _]. destruct k as [n| |].
  2: { eexists _, _, _, _. do 4 (split; [done|]). set_solver. }
  2: { by eexists _, _, _, _. }
  set (k := (n `min` length (x :: s))%nat).
  destruct (advance_spec c (x :: s) k Hwf Hh) as (c1&->&Hwf1&Hrem&Htake&Hhead); [lia|].
  cbn [mbind result_bind].
  destruct (IH c1 (drop k (x :: s))) as (c2&out&ks'&r&->&Hwf2&Hout&Hr&Hall); [done| |].
  { unfold in_segment. destruct (drop k (x :: s)); [by left|right; by apply Hhead]. }
  cbn [mbind result_bind]. eexists _, _, _, _. split; [reflexivity|].
  split; [done|]. split; [|split; [done|]].
  - rewrite <- app_assoc, Hout, Hrem, <- Htake. apply take_drop.
  - intros Ht Hin. apply Hall; [done|]. set_solver.
Qed.

Lemma send_msg_spec it1 it2 k1 k2 :
  byte_cursor.wf it1 → byte_cursor.wf it2 →
  ∃ it1' it2' s r, send_msg it1 it2 k1 k2 = Ok (it1', it2', s, r) ∧
    byte_cursor.wf it1' ∧ byte_cursor.wf it2' ∧ r ≠ Spinning ∧
    s_fd s ++ byte_cursor.remaining it1' = byte_cursor.remaining it1 ∧
    s_fd2 s ++ byte_cursor.remaining it2' = byte_cursor.remaining it2 ∧
    (r = Returned true → SendAgain ∉ k1 → SendAgain ∉ k2 →
     byte_cursor.remaining it1' = [] ∧ byte_cursor.remaining it2' = []).
Proof.
  intros H1 H2. unfold send_msg. pose proof (has_next_spec it2 H2) as Hn.
  destruct (_send_spec k1 it1 [] H1) as (c1&o1&ks1&r1&->&?&?&?&Hall1); [by left|].
  destruct (_send_spec k2 it2 [] H2) as (c2&o2&ks2&r2&->&?&?&?&Hall2); [by left|].
  destruct (byte_cursor.has_next it2); cbn [mbind result_bind].
  - destruct r1 as [[]| |]; eexists _, _, _, _; (split; [reflexivity|]); naive_solver.
  - eexists _, _, _, _; (split; [reflexivity|]); naive_solver.
Qed.

Lemma send_calls_spec calls : ∀ it1 it2,
  byte_cursor.wf it1 → byte_cursor.wf it2 →
  ∃ it1' it2' s, send_calls it1 it2 calls = Ok (it1', it2', s) ∧
    s_fd s ++ byte_cursor.remaining it1' = byte_cursor.remaining it1 ∧
    s_fd2 s ++ byte_cursor.remaining it2' = byte_cursor.remaining it2.
Proof.
  induction calls as [|[k1 k2] calls IH]; intros it1 it2 H1 H2; cbn [send_calls].
  { by exists it1, it2, (MkSent [] []). }
  destruct (send_msg_spec it1 it2 k1 k2 H1 H2) as (a&b&s&r&->&?&?&?&Hs1&Hs2&_).
  cbn [mbind result_bind]. destruct r as [[]| |]; try (by exists a, b, s).
  destruct (IH a b) as (a'&b'&s'&->&Hs1'&Hs2'); [done..|].
  cbn [mbind result_bind]. eexists _, _, _. split; [reflexivity|].
  cbn [s_fd s_fd2]. by rewrite <- !app_assoc, Hs1', Hs2'.
Qed.

(** ** Lemmas: receiving *)

(** The bytes a script holds, and a bound on the calls it can answer. *)
Definition data (ks : list recv_ev) : list byte :=
  ks ≫= λ k, match k with RData bs => bs | _ => [] end.
Definition weight (ks : list recv_ev) : nat :=
  sum_list_with (λ k, match k with RData bs => S (length bs) | _ => 1%nat end) ks.

Lemma recv_spec size ks :
  0 < size →
  match recv size ks with
  | (Got bs, ks') => bs ≠ [] ∧ Z.of_nat (length bs) ≤ size ∧ data ks = bs ++ data ks' ∧
                     (weight ks' < weight ks)%nat
  | (_, ks') => data ks' = data ks ∧ (weight ks' ≤ weight ks)%nat
  end.
Proof.
  intros Hs. unfold weight.
  destruct ks as [|[[|x bs]| | |] ks]; cbn [recv sum_list_with]; try (split; [done|lia]).
  destruct (Nat.eqb_spec (Z.to_nat size) 0); [lia|].
  destruct (Nat.leb_spec (length (x :: bs)) (Z.to_nat size)) as [Hle|Hle].
  - split; [done|]. split; [lia|]. split; [done|lia].
  - unfold data. rewrite !bind_cons. cbn [sum_list_with].
    rewrite length_take, length_drop, app_assoc, take_drop.
    split; [by destruct (Z.to_nat size)|]. split; [lia|]. split; [done|lia].
Qed.

Section receive_lemmas.
Context (junk : nat → byte) (addr : list byte → Z).

(** What the receiver has of message [m] when the first connection delivers it. *)
Definition is_received (m' m : RpcMessage) : Prop := ∃ rest, m' = received junk addr m rest.

Definition part (b : recv_buffer_t) : list byte := drop (b_msg b) (b_bytes b).

Record buffer_ok (b : recv_buffer_t) : Prop := {
  bo_msg : (b_msg b ≤ length (b_bytes b))%nat;
  bo_cursor : b_cursor b ≤ b_size b;
}.

(** What is in the buffer is less than the next message. *)
Definition short (p : list byte) (rs : list RpcMessage) : Prop :=
  match rs with [] => p = [] | m :: _ => (length p < length (wire m))%nat end.

Definition wires (rs : list RpcMessage) : list byte := rs ≫= wire.

Lemma wire_head_size m : sendable m → (head_size ≤ length (wire m))%nat.
Proof.
  intros Hm. unfold wire. rewrite length_app, length_take. pose proof (sd_body m Hm). lia.
Qed.

Lemma realloc_spec b sz :
  Z.of_nat (length (part b)) < sz →
  ∃ b', realloc b sz = Ok b' ∧ buffer_ok b' ∧ part b' = part b ∧ b_cursor b' < b_size b'.
Proof.
  intros. unfold realloc. fold (part b). rewrite SCHECK_ok by (apply Z.leb_le; lia).
  eexists. split; [reflexivity|]. split; [|split; [done|done]].
  split; unfold b_cursor; cbn [b_msg b_bytes b_size]; lia.
Qed.

Lemma length_part b : buffer_ok b → Z.of_nat (length (part b)) = b_cursor b - Z.of_nat (b_msg b).
Proof. intros [H _]. unfold part, b_cursor. rewrite length_drop. lia. Qed.

(** The head of a message can be read off any long enough prefix of the stream. *)
Lemma head_of_part p future m rs :
  p ++ future = wires (m :: rs) → sendable m → (head_size ≤ length p)%nat →
  head_of_bytes p = head m.
Proof.
  intros He Hm Hl. unfold wires in He. rewrite bind_cons in He.
  rewrite <- (head_wire m (rs ≫= wire) Hm), <- He.
  rewrite <- (head_of_bytes_take (length p) (p ++ future)) by done.
  by rewrite take_app_length.
Qed.

(** One round on a complete message, and the last round. *)
Lemma parse_complete fuel b m p2 :
  buffer_ok b → sendable m → part b = wire m ++ p2 →
  ∃ b1, buffer_ok b1 ∧ part b1 = p2 ∧
    parse junk addr (S fuel) b =
      ('(b', ms, ok) ← parse junk addr fuel b1; Ok (b', received junk addr m p2 :: ms, ok)).
Proof.
  intros Hb Hm Hp. pose proof (length_part b Hb) as Hlp. pose proof (wire_head_size m Hm) as Hw.
  rewrite Hp, length_app in Hlp.
  set (b1 := RecvBuffer (b_size b) (b_bytes b)
    (Z.to_nat (Z.of_nat (b_msg b) + Z.of_nat (length (wire m))))).
  exists b1. split.
  { split; unfold b1; cbn [b_msg b_bytes b_size]; [|apply Hb].
    unfold b_cursor in *. lia. }
  split.
  { transitivity (drop (length (wire m)) (part b)).
    - unfold part, b1. cbn [b_msg b_bytes]. rewrite drop_drop. f_equal. lia.
    - rewrite Hp. apply drop_app_length. }
  cbn [parse]. fold (part b). rewrite (proj2 (Z.leb_le _ _)) by lia.
  rewrite Hp, head_wire, <- length_wire by done. rewrite (proj2 (Z.leb_le _ _)) by lia.
  by rewrite RpcMessage_recv_spec by done.
Qed.

Lemma parse_short fuel b rs future :
  buffer_ok b → Forall sendable rs → part b ++ future = wires rs → short (part b) rs →
  ∃ b', parse junk addr (S fuel) b = Ok (b', [], true) ∧ buffer_ok b' ∧ part b' = part b ∧
        b_cursor b' < b_size b'.
Proof.
  intros Hb Hrs He Hs. cbn [parse]. fold (part b). pose proof (length_part b Hb) as Hlp.
  pose proof (bo_cursor b Hb) as Hcs.
  destruct (Z.leb_spec (Z.of_nat (b_msg b) + Z.of_nat head_size) (b_cursor b)) as [Hh|Hh].
  - destruct rs as [|m rs]; cbn [short] in Hs.
    { rewrite Hs in Hlp. unfold head_size in *. cbn in Hlp. lia. }
    apply Forall_cons in Hrs as [Hm Hrs].
    rewrite (head_of_part _ _ _ _ He Hm), <- length_wire by (done || lia).
    rewrite (proj2 (Z.leb_gt _ _)) by lia.
    destruct (Z.ltb_spec (b_size b) (Z.of_nat (b_msg b) + Z.of_nat (length (wire m)))).
    + destruct (realloc_spec b (Z.max (Z.of_nat (length (wire m))) BLOCK)) as (b'&->&?); [lia|].
      by exists b'.
    + exists b. split; [done|]. split; [done|]. split; [done|lia].
  - destruct (Z.ltb_spec (b_size b) (Z.of_nat (b_msg b) + Z.of_nat head_size)).
    + destruct (realloc_spec b BLOCK) as (b'&->&?); [unfold head_size, BLOCK in *; lia|].
      by exists b'.
    + exists b. split; [done|]. split; [done|]. split; [done|]. unfold head_size in *. lia.
Qed.

(** The inner loop hands over every complete message, in order, and stops. *)
Lemma parse_spec fuel : ∀ b rs future,
  buffer_ok b → Forall sendable rs → part b ++ future = wires rs →
  (length (part b) < fuel)%nat →
  ∃ b' out rs1 rs2, parse junk addr fuel b = Ok (b', out, true) ∧ rs = rs1 ++ rs2 ∧
    Forall2 is_received out rs1 ∧ part b' ++ future = wires rs2 ∧
    buffer_ok b' ∧ short (part b') rs2 ∧ b_cursor b' < b_size b'.
Proof.
  induction fuel as [|fuel IH]; intros b rs future Hb Hrs He Hf; [lia|].
  assert (Hdec : short (part b) rs ∨
    ∃ m rs', rs = m :: rs' ∧ (length (wire m) ≤ length (part b))%nat).
  { destruct rs as [|m rs]; cbn [short].
    - left. by apply app_eq_nil in He as [-> _].
    - destruct (decide (length (part b) < length (wire m))%nat); [by left|].
      right. exists m, rs. split; [done|lia]. }
  destruct Hdec as [Hs|(m&rs'&->&Hl)].
  - destruct (parse_short fuel b rs future Hb Hrs He Hs) as (b'&->&?&Hp'&?).
    exists b', [], [], rs. by rewrite Hp'.
  - apply Forall_cons in Hrs as [Hm Hrs]. unfold wires in He. rewrite bind_cons in He.
    assert (Hp : part b = wire m ++ drop (length (wire m)) (part b)).
    { rewrite <- (take_drop (length (wire m)) (part b)) at 1. f_equal.
      rewrite <- (take_app_le (part b) future) by lia. rewrite He. by rewrite take_app_length. }
    destruct (parse_complete fuel b m _ Hb Hm Hp) as (b1&Hb1&Hp1&->).
    pose proof (wire_head_size m Hm) as Hw. unfold head_size in Hw.
    destruct (IH b1 rs' future) as (b'&out&rs1&rs2&->&->&HF&He'&Hb'&Hs'&Ha'); [done..| | |].
    + rewrite Hp1. rewrite Hp, <- app_assoc in He. by apply (inj (wire m ++.)) in He.
    + rewrite Hp1, length_drop. lia.
    + cbn [mbind result_bind]. exists b'. eexists _, (m :: rs1), rs2. split; [reflexivity|].
      split; [done|]. split; [|done]. constructor; [|done]. by eexists.
Qed.

(** [try_recv_msgs] hands over every complete message of what it reads. *)
Definition buffer_idle (b : recv_buffer_t) : Prop :=
  buffer_ok b ∧ (b_cursor b < b_size b ∨ part b = []).

Lemma try_recv_msgs_spec fuel : ∀ b ks rs future,
  buffer_idle b → Forall sendable rs → part b ++ data ks ++ future = wires rs →
  short (part b) rs → (weight ks < fuel)%nat →
  ∃ b' ks' out r rs1 rs2, try_recv_msgs junk addr fuel b ks = Ok (b', ks', out, r) ∧
    r ≠ OutOfFuel ∧ (weight ks' ≤ weight ks)%nat ∧
    rs = rs1 ++ rs2 ∧ Forall2 is_received out rs1 ∧
    part b' ++ data ks' ++ future = wires rs2 ∧ buffer_idle b' ∧ short (part b') rs2.
Proof.
  induction fuel as [|fuel IH]; intros b ks rs future [Hb Hidle] Hrs He Hs Hf; [lia|].
  cbn [try_recv_msgs].
  assert (Hb1 : ∃ b1, (if avaliable_size b =? 0 then realloc b BLOCK else Ok b) = Ok b1 ∧
    buffer_ok b1 ∧ part b1 = part b ∧ b_cursor b1 < b_size b1).
  { pose proof (bo_cursor b Hb). unfold avaliable_size.
    destruct (Z.eqb_spec (b_size b - b_cursor b) 0).
    - destruct Hidle as [?|Hp]; [lia|]. apply realloc_spec. rewrite Hp. done.
    - exists b. split; [done|]. split; [done|]. split; [done|lia]. }
  destruct Hb1 as (b1&->&Hb1&Hp1&Ha1). cbn [mbind result_bind].
  pose proof (recv_spec (avaliable_size b1) ks) as Hr.
  destruct (recv (avaliable_size b1) ks) as [ret ks1]. unfold avaliable_size in Hr.
  specialize (Hr ltac:(lia)).
  destruct ret as [bs| | |];
    [|exists b1, ks1, []; eexists _, [], rs; rewrite Hp1; destruct Hr as [-> ?];
      (split; [reflexivity|]); unfold buffer_idle; auto 10..].
  destruct Hr as (Hne&Hlen&Hdata&Hw).
  set (b2 := RecvBuffer (b_size b1) (b_bytes b1 ++ bs) (b_msg b1)).
  assert (Hp2 : part b2 = part b ++ bs).
  { unfold part in *. cbn [b2 b_msg b_bytes]. rewrite <- Hp1, drop_app_le; [done|apply Hb1]. }
  assert (Hb2 : buffer_ok b2).
  { destruct Hb1 as [Hm Hc]. split; unfold b_cursor in *; cbn [b2 b_msg b_bytes b_size];
      rewrite length_app; lia. }
  destruct (parse_spec (S (length (b_bytes b2))) b2 rs (data ks1 ++ future))
    as (b3&out&rs1&rs2&->&->&HF&He3&Hb3&Hs3&Ha3); [done|done| | |].
  { rewrite Hp2. rewrite Hdata in He. by rewrite <- !app_assoc in *. }
  { unfold part. rewrite length_drop. lia. }
  cbn [mbind result_bind]. apply Forall_app in Hrs as [_ Hrs].
  destruct (IH b3 ks1 rs2 future)
    as (b4&ks4&out4&r&rs3&rs4&->&Hr4&Hw4&->&HF4&He4&Hb4&Hs4);
    [by split; auto|done|done|done|lia|].
  cbn [mbind result_bind]. exists b4, ks4. eexists _, r, (rs1 ++ rs3), rs4.
  split; [reflexivity|]. split; [done|]. split; [lia|]. split; [by rewrite app_assoc|].
  split; [by apply Forall2_app|]. auto.
Qed.
End receive_lemmas.

Section pending_lemmas.
Context (junk : nat → byte) (addr : list byte → Z).
Notation is_received := (is_received junk addr).
Notation recv_block := (recv_block junk addr).

(** A message that needs blocks. *)
Definition blocked (q : RpcMessage) : Prop := sendable q ∧ m_data q ≠ [].

(** Block [b'] of the receiver holds the first [r] bytes of the sender's block [b]. *)
Definition block_progress (b b' : data_block_t) (r : nat) : Prop :=
  db_length b' = db_length b ∧
  if is_small b then r = 0%nat ∧ db_bytes b' = db_bytes b
  else (r ≤ db_length b)%nat ∧ take r (db_bytes b') = take r (db_bytes b).

(** [msg] is the receiver's copy of [q], complete up to byte [r] of block [i]; [left] is
    what it still lacks, [todo] the number of blocks that are not complete. *)
Inductive progress (q : RpcMessage) (i r : nat) (msg : RpcMessage) (left : list byte)
    (todo : nat) : Prop :=
  | Progress rest done done' b b' tl :
      m_start msg = wire q ++ rest → m_data q = done ++ b :: tl → length done = i →
      m_data msg = done' ++ b' :: (recv_block <$> tl) →
      db_bytes <$> done' = db_bytes <$> done →
      block_progress b b' r →
      left = (if is_small b then [] else drop r (db_bytes b)) ++ large_bytes tl →
      todo = S (length tl) →
      progress q i r msg left todo.

Lemma block_progress_start b : block_progress b (recv_block b) 0.
Proof.
  assert (Hl : db_length (alloc_block junk addr (db_length b)) = db_length b).
  { unfold alloc_block. destruct (Nat.eqb_spec (db_length b) 0) as [->|]; [done|].
    apply length_buf_malloc. }
  unfold block_progress, LazyArchive.db_length, Message.recv_block.
  destruct (is_small b); [done|]. split; [done|]. split; [lia|done].
Qed.

Lemma progress_start q msg :
  blocked q → is_received msg q →
  progress q 0 0 msg (large_bytes (m_data q)) (length (m_data q)).
Proof.
  intros [Hs Hne] [rest ->]. destruct (m_data q) as [|b tl] eqn:Ed; [done|].
  apply (Progress _ _ _ _ _ _ rest [] [] b (recv_block b) tl); try done.
  - cbn [received m_data]. by rewrite Ed.
  - apply block_progress_start.
Qed.

(** The pending queue: [qs] are the sender's messages. *)
Inductive queue : list RpcMessage → pending → list byte → nat → Prop :=
  | QueueNil e : queue [] (Pending [] 0 0 e) [] 0
  | QueueCons q qs msg msgs i r e left todo :
      blocked q → Forall blocked qs → progress q i r msg left todo →
      Forall2 is_received msgs qs →
      queue (q :: qs) (Pending (msg :: msgs) i r e) (left ++ (qs ≫= λ q, large_bytes (m_data q)))
        (todo + sum_list_with (λ q, length (m_data q)) qs).

Lemma queue_start qs msgs e :
  Forall blocked qs → Forall2 is_received msgs qs →
  queue qs (Pending msgs 0 0 e) (qs ≫= λ q, large_bytes (m_data q))
    (sum_list_with (λ q, length (m_data q)) qs).
Proof.
  intros Hq Hf. destruct Hf as [|msg q msgs qs Hr Hf]; [constructor|].
  apply Forall_cons in Hq as [??]. rewrite bind_cons. cbn [sum_list_with].
  constructor; [done..| |done]. by apply progress_start.
Qed.

Lemma queue_push qs p left todo ms qs' e :
  queue qs p left todo → Forall blocked qs' → Forall2 is_received ms qs' →
  queue (qs ++ qs') (Pending (p_msgs p ++ ms) (p_block_id p) (p_received p) e)
    (left ++ (qs' ≫= λ q, large_bytes (m_data q)))
    (todo + sum_list_with (λ q, length (m_data q)) qs').
Proof.
  intros Hq Hb Hf. destruct Hq as [e0|q qs msg msgs i r e0 left todo Hq Hqs Hp Hfs].
  - by apply queue_start.
  - cbn [p_msgs p_block_id p_received app]. rewrite <- app_assoc, <- bind_app.
    rewrite <- Nat.add_assoc, <- sum_list_with_app.
    constructor; [done|by apply Forall_app|done|by apply Forall2_app].
Qed.

(** The block is complete exactly when the loop moves on. *)
Definition block_complete (b' : data_block_t) (r : nat) : bool :=
  (db_length b' <? MIN_ZERO_COPY_SIZE)%nat || (db_length b' - r =? 0)%nat.

Lemma block_progress_complete b b' r :
  block_progress b b' r → block_complete b' r = true →
  db_bytes b' = db_bytes b ∧ (if is_small b then [] else drop r (db_bytes b)) = [].
Proof.
  unfold block_progress, block_complete, is_small. intros [Hl Hp]. rewrite Hl.
  destruct (db_length b <? MIN_ZERO_COPY_SIZE)%nat; cbn [orb].
  { by destruct Hp. }
  intros Hr%Nat.eqb_eq. destruct Hp as [Hle Ht]. unfold db_length in *.
  rewrite !take_ge in Ht by lia. split; [done|]. apply drop_ge. lia.
Qed.

Lemma block_progress_step b b' r bs more :
  block_progress b b' r → block_complete b' r = false → bs ≠ [] →
  (length bs ≤ db_length b' - r)%nat →
  (if is_small b then [] else drop r (db_bytes b)) ++ more = bs ++ drop (length bs)
    ((if is_small b then [] else drop r (db_bytes b)) ++ more) →
  let b2 := DataBlock (db_ptr b') (splice r bs (db_bytes b')) (db_owner b') in
  block_progress b b2 (r + length bs) ∧
  drop (length bs) ((if is_small b then [] else drop r (db_bytes b)) ++ more) =
  (if is_small b then [] else drop (r + length bs) (db_bytes b)) ++ more.
Proof.
  unfold block_progress, block_complete, is_small. intros [Hl Hp]. rewrite Hl.
  destruct (db_length b <? MIN_ZERO_COPY_SIZE)%nat; cbn [orb]; [done|].
  intros _ Hne Hlen He. destruct Hp as [Hle Ht]. unfold db_length in *.
  rewrite drop_app_le in * by (rewrite length_drop; lia). rewrite drop_drop in *.
  split; [|done]. cbn [db_bytes]. rewrite length_splice by lia. split; [done|]. split; [lia|].
  rewrite app_assoc in He. apply app_inv_tail in He. unfold splice.
  rewrite app_assoc, take_app_length'.
  2: { rewrite length_app, length_take. lia. }
  rewrite Ht. rewrite <- (take_drop r (db_bytes b)) at 2. rewrite He.
  rewrite take_app_add' by (rewrite length_take; lia). by rewrite take_app_length.
Qed.

Lemma progress_head q i r msg left todo :
  sendable q → progress q i r msg left todo → head msg = head q.
Proof. intros Hq [rest ? ? ? ? ? Hst]. unfold head at 1. rewrite Hst. by apply head_wire. Qed.

(** What one round does: it stops when a block still lacks bytes, else it gets closer. *)
Definition round_ok (qs : list RpcMessage) (left : list byte) (todo : nat) (ks : list recv_ev)
    (future more : list byte) (res : pending * list recv_ev * list RpcMessage * option bool) : Prop :=
  let '(p', ks', out, stop) := res in
  match stop with
  | Some alive => out = [] ∧ (weight ks' ≤ weight ks)%nat ∧ data ks' = data ks ∧
                  queue qs p' left todo ∧ (qs ≠ [] → left ≠ [])
  | None => ∃ qs1 qs2 left' todo', qs = qs1 ++ qs2 ∧ Forall2 (flip arrived) out qs1 ∧
             queue qs2 p' left' todo' ∧ data ks' ++ future = left' ++ more ∧
             (weight ks' + todo' < weight ks + todo)%nat
  end.

Lemma pending_round_complete q qs msg msgs i r e left todo ks future more b' :
  blocked q → Forall blocked qs → progress q i r msg left todo → Forall2 is_received msgs qs →
  m_data msg !! i = Some b' → block_complete b' r = true →
  let left := left ++ (qs ≫= λ q, large_bytes (m_data q)) in
  let todo := (todo + sum_list_with (λ q, length (m_data q)) qs)%nat in
  data ks ++ future = left ++ more →
  round_ok (q :: qs) left todo ks future more
    (if Z.of_nat (S i) =? extra_block_count (head msg)
     then (Pending msgs 0 0 e, ks, [msg], None)
     else (Pending (msg :: msgs) (S i) 0 e, ks, [], None)).
Proof.
  intros Hq Hqs Hp Hfs Hlk Hc left1 todo1 Hd. unfold left1, todo1 in *. clear left1 todo1.
  rewrite (progress_head _ _ _ _ _ _ (proj1 Hq) Hp), (sd_count _ (proj1 Hq)).
  destruct Hp as [rest dn dn' b b1 tl Hst Hdq Hi Hdm Hdn Hbp Hleft Htodo].
  assert (Hldn : length dn' = i).
  { apply (f_equal length) in Hdn. rewrite !length_fmap in Hdn. lia. }
  rewrite Hdm, lookup_app_r, Hldn, Nat.sub_diag in Hlk by lia. injection Hlk as ->.
  destruct (block_progress_complete b b' r Hbp Hc) as [Hbb Hnil].
  rewrite Hnil in Hleft. rewrite Hdq, length_app. cbn [length].
  destruct (Z.eqb_spec (Z.of_nat (S i)) (Z.of_nat (length dn + S (length tl)))) as [Heq|Hne].
  - assert (tl = []) as -> by (apply length_zero_iff_nil; lia).
    exists [q], qs, (qs ≫= λ q, large_bytes (m_data q)),
      (sum_list_with (λ q, length (m_data q)) qs).
    split; [done|]. split; [constructor; [|constructor]|].
    { split; [by exists rest|]. by rewrite Hdq, Hdm, !fmap_app, Hdn, !fmap_cons, Hbb. }
    split; [by apply queue_start|]. split; [|cbn in *; lia]. by rewrite Hd, Hleft.
  - destruct tl as [|b2 tl]; [cbn in *; lia|].
    exists [], (q :: qs), (large_bytes (b2 :: tl) ++ (qs ≫= λ q, large_bytes (m_data q))),
      (S (length tl) + sum_list_with (λ q, length (m_data q)) qs)%nat.
    split; [done|]. split; [constructor|]. split; [|split; [by rewrite Hd, Hleft|cbn in *; lia]].
    constructor; [done..| |done].
    apply (Progress _ _ _ _ _ _ rest (dn ++ [b]) (dn' ++ [b']) b2 (recv_block b2) tl); try done.
    + by rewrite <- app_assoc.
    + rewrite length_app. cbn [length]. lia.
    + by rewrite <- app_assoc.
    + by rewrite !fmap_app, Hdn, !fmap_cons, Hbb.
    + apply block_progress_start.
Qed.

Lemma pending_round_recv q qs msg msgs i r e left todo ks ks' future more b' bs :
  blocked q → Forall blocked qs → progress q i r msg left todo → Forall2 is_received msgs qs →
  m_data msg !! i = Some b' → block_complete b' r = false →
  bs ≠ [] → (length bs ≤ db_length b' - r)%nat → data ks = bs ++ data ks' →
  (weight ks' < weight ks)%nat →
  let left := left ++ (qs ≫= λ q, large_bytes (m_data q)) in
  let todo := (todo + sum_list_with (λ q, length (m_data q)) qs)%nat in
  data ks ++ future = left ++ more →
  round_ok (q :: qs) left todo ks future more
    (Pending (with_block msg i
        (DataBlock (db_ptr b') (splice r bs (db_bytes b')) (db_owner b')) :: msgs) i
       (r + length bs) e, ks', [], None).
Proof.
  intros Hq Hqs Hp Hfs Hlk Hc Hne Hlen Hdata Hw left1 todo1 Hd. unfold left1, todo1 in *. clear left1 todo1.
  destruct Hp as [rest dn dn' b b1 tl Hst Hdq Hi Hdm Hdn Hbp Hleft Htodo].
  assert (Hldn : length dn' = i).
  { apply (f_equal length) in Hdn. rewrite !length_fmap in Hdn. lia. }
  rewrite Hdm, lookup_app_r, Hldn, Nat.sub_diag in Hlk by lia. injection Hlk as ->.
  set (tail := large_bytes tl ++ (qs ≫= λ q, large_bytes (m_data q)) ++ more).
  rewrite Hleft, <- !app_assoc in Hd. fold tail in Hd.
  rewrite Hdata, <- app_assoc in Hd.
  destruct (block_progress_step b b' r bs tail Hbp Hc Hne Hlen) as [Hbp' Hdrop].
  { rewrite <- Hd. by rewrite drop_app_length. }
  eexists [], (q :: qs), _, _. split; [done|]. split; [constructor|]. split; [|split].
  - constructor; [done..| |done].
    eapply (Progress _ _ _ _ _ _ rest dn dn' b _ tl); [done|done|done| |done|exact Hbp'|reflexivity..].
    unfold with_block. cbn [m_data]. rewrite Hdm, insert_app_r_alt, Hldn, Nat.sub_diag by lia. done.
  - rewrite <- !app_assoc. fold tail. rewrite <- Hdrop, <- Hd. by rewrite drop_app_length.
  - lia.
Qed.

Lemma pending_round_spec qs p left todo ks future more :
  queue qs p left todo → data ks ++ future = left ++ more →
  ∃ res, recv_pending_round p ks = Ok res ∧ round_ok qs left todo ks future more res.
Proof.
  intros Hq Hd. destruct Hq as [e|q qs msg msgs i r e left todo Hq Hqs Hp Hfs].
  { eexists. split; [reflexivity|]. repeat split; done || constructor. }
  cbn [recv_pending_round p_msgs p_block_id p_received].
  assert (Hlk : ∃ b', m_data msg !! i = Some b' ∧
    (block_complete b' r = false → left ≠ [])).
  { destruct Hp as [rest dn dn' b b' tl _ _ Hi Hdm Hdn Hbp -> _]. exists b'.
    rewrite Hdm, lookup_app_r; apply (f_equal length) in Hdn; rewrite !length_fmap in Hdn; [|lia].
    replace (i - length dn')%nat with 0%nat by lia. split; [done|].
    unfold block_complete, block_progress, is_small in *. destruct Hbp as [Hl Hbp].
    rewrite Hl. destruct (db_length b <? MIN_ZERO_COPY_SIZE)%nat; [done|].
    intros Hn%Nat.eqb_neq Hnil. apply app_eq_nil in Hnil as [Hnil _].
    apply (f_equal length) in Hnil. rewrite length_drop in Hnil. unfold db_length in *.
    cbn in Hnil. lia. }
  destruct Hlk as (b'&Hlk&Hleft). rewrite Hlk. fold (block_complete b' r).
  destruct (block_complete b' r) eqn:Ec.
  { eexists. split; [|by eapply (pending_round_complete q qs msg msgs i r e)].
    by case_match. }
  pose proof (recv_spec (Z.of_nat (db_length b' - r)) ks) as Hr.
  unfold block_complete in Ec. apply orb_false_iff in Ec as [Ec1 Ec2]. apply Nat.eqb_neq in Ec2.
  specialize (Hr ltac:(lia)).
  destruct (recv (Z.of_nat (db_length b' - r)) ks) as [[bs| | |] ks'];
    (eexists; split; [reflexivity|]).
  { destruct Hr as (?&?&?&?). apply (pending_round_recv q qs msg msgs i r e); try done; [|lia].
    unfold block_complete. rewrite Ec1. by apply Nat.eqb_neq. }
  all: destruct Hr as [??]; split; [done|]; split; [done|]; split; [done|];
    split; [by constructor|]; intros _ Hn; apply app_eq_nil in Hn as [? _]; by apply Hleft.
Qed.

Lemma try_recv_pending_spec fuel : ∀ qs p left todo ks future more,
  queue qs p left todo → data ks ++ future = left ++ more → (weight ks + todo < fuel)%nat →
  ∃ p' ks' out r qs1 qs2 left' todo', try_recv_pending fuel p ks = Ok (p', ks', out, r) ∧
    r ≠ OutOfFuel ∧ qs = qs1 ++ qs2 ∧ Forall2 (flip arrived) out qs1 ∧
    queue qs2 p' left' todo' ∧ data ks' ++ future = left' ++ more ∧
    (weight ks' + todo' ≤ weight ks + todo)%nat ∧ (qs2 ≠ [] → left' ≠ []).
Proof.
  induction fuel as [|fuel IH]; intros qs p left todo ks future more Hq Hd Hf; [lia|].
  cbn [try_recv_pending].
  destruct (pending_round_spec qs p left todo ks future more Hq Hd) as ([[[p1 ks1] out] stop]&->&Hr).
  cbn [mbind result_bind]. destruct stop as [alive|].
  - destruct Hr as (->&Hw&Hdk&Hq1&Hl). eexists p1, ks1, [], _, [], qs, left, todo.
    split; [reflexivity|]. split; [by destruct alive|]. split; [done|]. split; [constructor|].
    split; [done|]. rewrite Hdk. split; [done|]. split; [lia|done].
  - destruct Hr as (qs1&qs2&left1&todo1&->&HF&Hq1&Hd1&Hw1).
    destruct (IH qs2 p1 left1 todo1 ks1 future more Hq1 Hd1)
      as (p2&ks2&out2&r&qs3&qs4&left2&todo2&->&Hr&->&HF2&Hq2&Hd2&Hw2&Hl2); [lia|].
    cbn [mbind result_bind]. eexists p2, ks2, _, r, (qs1 ++ qs3), qs4, left2, todo2.
    split; [reflexivity|]. split; [done|]. split; [by rewrite app_assoc|].
    split; [by apply Forall2_app|]. split; [done|]. split; [done|]. split; [lia|done].
Qed.
End pending_lemmas.

Section transfer.
Context (junk : nat → byte) (addr : list byte → Z).
Notation is_received := (is_received junk addr).
Notation queue := (queue junk addr).

Notation plain := (filter (λ m, is_plain m = true)).
Notation with_blocks := (filter (λ m, is_plain m = false)).
Notation large qs := (qs ≫= λ q, large_bytes (m_data q)).
Notation count qs := (sum_list_with (λ q, length (m_data q)) qs).

Lemma is_plain_same m' m rest :
  sendable m → m_start m' = wire m ++ rest → is_plain m' = is_plain m.
Proof. intros Hm Hst. unfold is_plain, head at 1. by rewrite Hst, head_wire. Qed.

Lemma is_plain_data m : sendable m → is_plain m = bool_decide (m_data m = []).
Proof.
  intros Hm. unfold is_plain. rewrite (sd_count m Hm). by destruct (m_data m).
Qed.

Lemma arrived_is_plain m m' : sendable m → arrived m m' → is_plain m' = is_plain m.
Proof. intros Hm [[rest Hst] _]. by eapply is_plain_same. Qed.

(** A list of received messages, split the way [tcp_func] splits it. *)
Lemma split_received out rs :
  Forall sendable rs → Forall2 is_received out rs →
  Forall2 (flip arrived) (plain out) (plain rs) ∧
  Forall2 is_received (with_blocks out) (with_blocks rs) ∧ Forall blocked (with_blocks rs) ∧
  large (with_blocks rs) = large rs ∧ count (with_blocks rs) = count rs.
Proof.
  intros Hs HF. revert Hs. induction HF as [|m' m out rs [rest Hm'] HF IH]; intros Hs; [done|].
  apply Forall_cons in Hs as [Hm Hs]. destruct (IH Hs) as (H1&H2&H3&H4&H5).
  rewrite !filter_cons. assert (Hp : is_plain m' = is_plain m).
  { apply (is_plain_same _ _ rest Hm). by rewrite Hm'. }
  rewrite Hp. pose proof (is_plain_data m Hm) as Hd. destruct (is_plain m).
  - rewrite !(decide_True (P := true = true)), !(decide_False (P := true = false)) by done.
    symmetry in Hd. apply bool_decide_eq_true in Hd.
    split; [constructor; [|done]|].
    { rewrite Hm'. unfold flip, arrived. cbn [received m_start m_data]. rewrite Hd.
      split; [by eexists|done]. }
    rewrite bind_cons, Hd. cbn [sum_list_with]. by rewrite Hd.
  - rewrite !(decide_False (P := false = true)), !(decide_True (P := false = false)) by done.
    symmetry in Hd. apply bool_decide_eq_false in Hd.
    split; [done|]. split; [constructor; [by eexists|done]|].
    split; [by constructor|]. rewrite !bind_cons, H4. cbn [sum_list_with]. by rewrite H5.
Qed.

Lemma filter_arrived (k : bool) out qs :
  Forall sendable qs → Forall2 (flip arrived) out qs →
  Forall2 (flip arrived) (filter (λ m, is_plain m = k) out) (filter (λ m, is_plain m = k) qs).
Proof.
  intros Hs HF. revert Hs. induction HF as [|m' m out qs Ha HF IH]; intros Hs; [done|].
  apply Forall_cons in Hs as [Hm Hs]. rewrite !filter_cons, (arrived_is_plain m m') by done.
  case_decide; [constructor|]; auto.
Qed.

(** The state of the receiver: [rs] is still to come on the first connection, [qs] waits
    for its blocks. *)
Record tcp_inv (fuel : nat) (t : tcp) (k1 k2 : list recv_ev) (f1 f2 : list byte)
    (rs qs : list RpcMessage) : Prop := {
  ti_buffer : buffer_idle (t_buffer t);
  ti_rs : Forall sendable rs;
  ti_fd : part (t_buffer t) ++ data k1 ++ f1 = wires rs;
  ti_short : short (part (t_buffer t)) rs;
  ti_qs : Forall blocked qs;
  ti_fd2 : ∃ left todo, queue qs (t_pending t) left todo ∧
             data k2 ++ f2 = left ++ large rs ∧ (qs ≠ [] → left ≠ []) ∧
             (weight k1 + weight k2 + todo + count rs < fuel)%nat;
}.

(** What an event delivers: [rs1] is parsed, [ps] was waiting for blocks. *)
Record step_ok (fuel : nat) (t' : tcp) (k1' k2' : list recv_ev) (f1 f2 : list byte)
    (rs qs : list RpcMessage) (out : list RpcMessage) (r : recv_out) : Prop := {
  so_fuel : r ≠ OutOfFuel;
  so_split : ∃ rs1 rs2 ps qs2,
    rs = rs1 ++ rs2 ∧ (r = Alive → qs ++ with_blocks rs1 = ps ++ qs2) ∧
    (r ≠ Alive → ∃ l, qs ++ with_blocks rs1 = ps ++ l) ∧
    (∃ o2, out = o2.1 ++ o2.2 ∧ Forall2 (flip arrived) o2.1 (plain rs1) ∧
           Forall2 (flip arrived) o2.2 ps) ∧
    (r = Alive → tcp_inv fuel t' k1' k2' f1 f2 rs2 qs2);
}.

Lemma handle_fd2_spec fuel t k1 k2 f1 f2 rs qs :
  tcp_inv fuel t k1 k2 f1 f2 rs qs →
  ∃ t' k2' out r, handle_fd2 fuel t k2 = Ok (t', k2', out, r) ∧
    step_ok fuel t' k1 k2' f1 f2 rs qs out r.
Proof.
  intros [Hb Hrs H1 Hs Hqs (left&todo&Hq&H2&Hl&Hf)]. unfold handle_fd2.
  destruct (try_recv_pending_spec junk addr fuel qs (t_pending t) left todo k2 f2 (large rs) Hq H2)
    as (p'&ks'&out&r&qs1&qs2&left'&todo'&->&Hr&->&HF&Hq'&H2'&Hw&Hl'); [lia|].
  cbn [mbind result_bind]. eexists _, _, _, _. split; [reflexivity|]. split; [done|].
  apply Forall_app in Hqs as [_ Hqs].
  exists [], rs, qs1, qs2. split; [done|]. split; [intros _; by rewrite app_nil_r|].
  split; [intros _; exists qs2; by rewrite app_nil_r|].
  split; [by exists ([], out)|]. intros _. split; cbn [t_buffer t_pending]; try done.
  exists left', todo'. split; [done|]. split; [done|]. split; [done|lia].
Qed.

Lemma handle_fd_spec fuel t k1 k2 f1 f2 rs qs :
  tcp_inv fuel t k1 k2 f1 f2 rs qs →
  ∃ t' k1' k2' out r, handle_fd junk addr fuel t k1 k2 = Ok (t', k1', k2', out, r) ∧
    step_ok fuel t' k1' k2' f1 f2 rs qs out r.
Proof.
  intros [Hb Hrs H1 Hs Hqs (left&todo&Hq&H2&Hl&Hf)]. unfold handle_fd.
  destruct (try_recv_msgs_spec junk addr fuel (t_buffer t) k1 rs f1 Hb Hrs H1 Hs)
    as (b'&k1'&ms&r&rs1&rs2&->&Hr&Hw1&->&HF&H1'&Hb'&Hs'); [lia|].
  cbn [mbind result_bind]. apply Forall_app in Hrs as [Hrs1 Hrs2].
  destruct (split_received ms rs1 Hrs1 HF) as (Hpl&Hbl&Hblk&Hlarge&Hcount).
  destruct r; [|by eexists _, _, _, _, _; split; [reflexivity|]; split; [done|];
    exists rs1, rs2, [], []; split; [done|]; split; [done|]; split; [by eexists|];
    split; [exists (plain ms, []); cbn; by rewrite app_nil_r|]|done].
  pose proof (queue_push junk addr _ _ _ _ _ _ false Hq Hblk Hbl) as Hq1.
  rewrite Hlarge, Hcount in Hq1. rewrite bind_app, app_assoc in H2.
  rewrite sum_list_with_app in Hf.
  destruct (try_recv_pending_spec junk addr fuel _ _ _ _ k2 f2 (large rs2) Hq1 H2)
    as (p'&ks'&out&r&qs1&qs2&left'&todo'&->&Hr'&Hqs12&HF2&Hq'&H2'&Hw&Hl'); [lia|].
  cbn [mbind result_bind]. eexists _, _, _, _, _. split; [reflexivity|]. split; [done|].
  exists rs1, rs2, qs1, qs2. split; [done|]. split; [done|]. split; [by eexists|].
  split; [by exists (plain ms, out)|]. intros _.
  assert (Forall blocked (qs1 ++ qs2)) as [_ Hb2]%Forall_app.
  { rewrite <- Hqs12. by apply Forall_app. }
  split; cbn [t_buffer t_pending]; try done.
  exists left', todo'. split; [done|]. split; [done|]. split; [done|lia].
Qed.

(** When everything has been read, nothing is left over. *)
Lemma tcp_inv_drained fuel t k1 k2 rs qs :
  tcp_inv fuel t k1 k2 [] [] rs qs → data k1 = [] → data k2 = [] → rs = [] ∧ qs = [].
Proof.
  intros [Hb Hrs H1 Hs Hqs (left&todo&Hq&H2&Hl&Hf)] E1 E2.
  rewrite E1, !app_nil_r in H1. rewrite E2 in H2. symmetry in H2. apply app_eq_nil in H2 as [H2 _].
  split.
  - destruct rs as [|m rs]; [done|]. cbn [short] in Hs. rewrite H1 in Hs.
    unfold wires in Hs. rewrite bind_cons, length_app in Hs. lia.
  - destruct qs; [done|]. by destruct Hl.
Qed.

Lemma all_plain (k : bool) out qs :
  Forall (λ m, is_plain m = k) qs → Forall sendable qs → Forall2 (flip arrived) out qs →
  filter (λ m, is_plain m = k) out = out ∧ filter (λ m, is_plain m = negb k) out = [].
Proof.
  intros Hk Hs HF. revert Hk Hs. induction HF as [|m' m out qs Ha HF IH]; intros Hk Hs; [done|].
  apply Forall_cons in Hk as [Hk Hks]. apply Forall_cons in Hs as [Hm Hs].
  rewrite !filter_cons, (arrived_is_plain m m'), Hk by done.
  rewrite decide_True, decide_False by (done || by destruct k).
  destruct (IH Hks Hs) as [-> ->]. done.
Qed.

(** The two classes of messages in what a step delivers. *)
Lemma step_filter rs1 ps o1 o2 :
  Forall sendable rs1 → Forall blocked ps →
  Forall2 (flip arrived) o1 (plain rs1) → Forall2 (flip arrived) o2 ps →
  Forall2 (flip arrived) (plain (o1 ++ o2)) (plain rs1) ∧
  Forall2 (flip arrived) (with_blocks (o1 ++ o2)) ps.
Proof.
  intros Hrs Hps H1 H2. rewrite !filter_app.
  destruct (all_plain true o1 (plain rs1)) as [-> Hn1]; [| |done|].
  { apply Forall_forall. by intros m [? _]%list_elem_of_filter. }
  { rewrite Forall_forall in *. intros m [_ ?]%list_elem_of_filter. by apply Hrs. }
  destruct (all_plain false o2 ps) as [-> Hn2];
    [| |done|cbn [negb] in *; by rewrite Hn1, Hn2, app_nil_r].
  - eapply Forall_impl; [exact Hps|]. intros m [Hm Hd]. rewrite is_plain_data by done.
    by apply bool_decide_eq_false.
  - eapply Forall_impl; [exact Hps|]. by intros m [? _].
Qed.

Lemma run_events_spec fuel evs : ∀ t k1 k2 f1 f2 rs qs,
  tcp_inv fuel t k1 k2 f1 f2 rs qs →
  ∃ t' k1' k2' out r p1 p2 b1 b2,
    run_events junk addr fuel t k1 k2 evs = Ok (t', k1', k2', out, r) ∧ r ≠ OutOfFuel ∧
    plain rs = p1 ++ p2 ∧ qs ++ with_blocks rs = b1 ++ b2 ∧
    Forall2 (flip arrived) (plain out) p1 ∧ Forall2 (flip arrived) (with_blocks out) b1 ∧
    (r = Alive → f1 = [] → f2 = [] → data k1' = [] → data k2' = [] → p2 = [] ∧ b2 = []).
Proof.
  induction evs as [|ev evs IH]; intros t k1 k2 f1 f2 rs qs Hinv; cbn [run_events].
  { exists t, k1, k2, [], Alive, [], (plain rs), [], (qs ++ with_blocks rs).
    repeat (split; [done|]). intros _ -> -> E1 E2.
    by destruct (tcp_inv_drained _ _ _ _ _ _ Hinv E1 E2) as [-> ->]. }
  assert (Hstep : ∃ t' k1' k2' out r,
    match ev with
    | OnFd => handle_fd junk addr fuel t k1 k2
    | OnFd2 => '(t, k2, out, r) ← handle_fd2 fuel t k2; Ok (t, k1, k2, out, r)
    end = Ok (t', k1', k2', out, r) ∧ step_ok fuel t' k1' k2' f1 f2 rs qs out r).
  { destruct ev; [by apply handle_fd_spec|].
    destruct (handle_fd2_spec _ _ _ _ _ _ _ _ Hinv) as (t'&k2'&out&r&->&?).
    by exists t', k1, k2', out, r. }
  destruct Hstep as (t'&k1'&k2'&out&r&->&[Hr (rs1&rs2&ps&qs2&->&Hal&Hdead&Hout&Hinv')]).
  destruct Hout as ([o1 o2]&->&Ho1&Ho2). cbn [fst snd mbind result_bind] in *.
  pose proof (ti_rs _ _ _ _ _ _ _ _ Hinv) as [Hrs1 Hrs2]%Forall_app.
  assert (Hbl : Forall blocked (qs ++ with_blocks rs1)).
  { apply Forall_app. split; [apply Hinv|]. apply Forall_forall.
    intros m [Hm Hin]%list_elem_of_filter. rewrite Forall_forall in Hrs1.
    specialize (Hrs1 m Hin). split; [done|]. rewrite is_plain_data in Hm by done.
    by apply bool_decide_eq_false in Hm. }
  assert (Hps : Forall blocked ps).
  { destruct (decide (r = Alive)) as [e|e]; [rewrite (Hal e) in Hbl|
      destruct (Hdead e) as [l Hdl]; rewrite Hdl in Hbl]; by apply Forall_app in Hbl as [??]. }
  destruct (step_filter rs1 ps o1 o2 Hrs1 Hps Ho1 Ho2) as [Hp Hb].
  destruct (decide (r = Alive)) as [->|Hne].
  - destruct (IH t' k1' k2' f1 f2 rs2 qs2) as (t2&k3&k4&out&r&p1&p2&b1&b2&->&?&Ep&Eb&?&?&?);
      [by apply Hinv'|].
    cbn [mbind result_bind]. exists t2, k3, k4. eexists _, r, (plain rs1 ++ p1), p2, (ps ++ b1), b2.
    split; [reflexivity|]. split; [done|]. rewrite !(filter_app _ (o1 ++ o2)), !(filter_app _ rs1), Ep.
    split; [by rewrite app_assoc|]. split; [|split; [by apply Forall2_app|split; [by apply Forall2_app|done]]].
    rewrite app_assoc, Hal by done. rewrite <- !app_assoc. by rewrite Eb.
  - destruct (Hdead Hne) as [l Hdl].
    exists t', k1', k2', (o1 ++ o2), r, (plain rs1), (plain rs2), ps, (l ++ with_blocks rs2).
    split; [by destruct r|]. split; [done|]. rewrite !(filter_app _ rs1). split; [done|].
    split; [by rewrite !app_assoc, Hdl|]. split; [done|]. split; [done|]. by intros.
Qed.
End transfer.

(** ** Properties *)

(** C8: sending loses and repeats nothing.  However the kernel cuts the two streams, and
    however often [send_msg] is called again with the same cursors after EAGAIN, what
    [_fd] and [_fd2] were given so far, followed by what the cursors still hold, is the
    message; no check of the cursor fails and the loop does not spin.  A blocking
    [send_rpc_message] that returns [true] has sent all of it. *)
Theorem send_transmits_message (m : RpcMessage) (calls : list (list send_res * list send_res))
    (k1 k2 : list send_res) :
  sendable m →
  (∃ it1 it2 s,
    send_calls (byte_cursor.cursor m) (byte_cursor.zero_copy_cursor m) calls = Ok (it1, it2, s) ∧
    s_fd s ++ byte_cursor.remaining it1 = wire m ∧
    s_fd2 s ++ byte_cursor.remaining it2 = large_bytes (m_data m)) ∧
  (∃ it1 it2 s r, send_rpc_message m k1 k2 = Ok (it1, it2, s, r) ∧ r ≠ Spinning ∧
    (r = Returned true → SendAgain ∉ k1 → SendAgain ∉ k2 →
     s_fd s = wire m ∧ s_fd2 s = large_bytes (m_data m))).
Proof.
  intros Hm. pose proof (cursor_wf m Hm) as H1. pose proof (zero_copy_cursor_wf m) as H2.
  rewrite <- cursor_remaining, <- zero_copy_cursor_remaining.
  split; [by apply send_calls_spec|]. unfold send_rpc_message.
  destruct (send_msg_spec _ _ k1 k2 H1 H2) as (a&b&s&r&->&_&_&?&<-&<-&Hall).
  exists a, b, s, r. split; [done|]. split; [done|]. intros ???.
  destruct Hall as [-> ->]; [done..|]. by rewrite !app_nil_r.
Qed.

Lemma send_transmits_message_witness :
  let m := build (λ _, Byte.x00) (RpcHead 0 0 1 2 (-1) 9 3 0 0 SUCC)
             (buf_malloc (λ _, Byte.x00) 44) [DataBlock 0 [Byte.x01; Byte.x02] 0] in
  let calls := [([Sent 7; SendAgain], []); ([Sent 100; Sent 1; Sent 100], [])] in
  (∃ it1 it2 s,
    send_calls (byte_cursor.cursor m) (byte_cursor.zero_copy_cursor m) calls = Ok (it1, it2, s) ∧
    s_fd s ++ byte_cursor.remaining it1 = wire m ∧
    s_fd2 s ++ byte_cursor.remaining it2 = large_bytes (m_data m)) ∧
  (∃ it1 it2 s r, send_rpc_message m [Sent 50; Sent 50] [] = Ok (it1, it2, s, r) ∧ r ≠ Spinning ∧
    (r = Returned true → SendAgain ∉ [Sent 50; Sent 50] → SendAgain ∉ @nil send_res →
     s_fd s = wire m ∧ s_fd2 s = large_bytes (m_data m))).
Proof.
  intros m calls. apply send_transmits_message. apply build_sendable.
  split; [repeat split; vm_compute; congruence|vm_compute; lia|done|done|].
  repeat constructor; vm_compute; congruence.
Defined.



(** The sizes in a head are taken on trust.  [msg_size] is computed modulo [2^64] and
    not checked, so a head without blocks whose [body_size] is [2^64 - 40] announces a
    message of zero bytes: the inner loop of [try_recv_msgs] hands the same head to [func]
    again and again and never ends. *)
Theorem wrapped_body_size_never_ends (junk : nat → byte) (addr : list byte → Z) (fuel : nat)
    (b : recv_buffer_t) :
  (b_msg b + head_size ≤ length (b_bytes b))%nat →
  body_size (head_of_bytes (drop (b_msg b) (b_bytes b))) = 2 ^ 64 - Z.of_nat head_size →
  extra_block_count (head_of_bytes (drop (b_msg b) (b_bytes b))) = 0 →
  extra_block_length (head_of_bytes (drop (b_msg b) (b_bytes b))) = 0 →
  parse junk addr fuel b =
    Ok (b, replicate fuel (MkMessage (drop (b_msg b) (b_bytes b)) [] 0), false).
Proof.
  intros Hl Hb Hc He. induction fuel as [|fuel IH]; [done|]. cbn [parse].
  rewrite (proj2 (Z.leb_le _ _)) by (unfold b_cursor; lia).
  assert (Hz : msg_size (head_of_bytes (drop (b_msg b) (b_bytes b))) = 0).
  { unfold msg_size. rewrite Hb, He. reflexivity. }
  rewrite Hz, Z.add_0_r, Nat2Z.id, (proj2 (Z.leb_le _ _)) by (unfold b_cursor; lia).
  unfold RpcMessage_recv, extra, head. cbn [m_start]. rewrite Hc.
  cbn [Z.to_nat recv_blocks Nat.mul Nat.leb SCHECK mbind result_bind].
  replace (RecvBuffer (b_size b) (b_bytes b) (b_msg b)) with b by by destruct b.
  rewrite IH. reflexivity.
Qed.

Lemma wrapped_body_size_never_ends_witness :
  let J := λ _ : nat, Byte.x00 in let A := λ _ : list byte, 4096 in
  let h := RpcHead (2 ^ 64 - 40) 0 1 2 (-1) 9 3 0 0 SUCC in
  let b := RecvBuffer BLOCK (head_bytes J h) 0 in
  parse J A 5 b = Ok (b, replicate 5 (MkMessage (head_bytes J h) [] 0), false).
Proof.
  intros J A h b.
  exact (wrapped_body_size_never_ends J A 5 b ltac:(vm_compute; lia) ltac:(reflexivity)
           ltac:(reflexivity) ltac:(reflexivity)).
Defined.
