(* ===== verification/SpinLock.v ===== *)
(** * Spin locks

    src/src/thread/SpinLock.h: [SpinLock], a test-and-set flag, and [RWSpinLock], a
    reader-writer lock in one 32-bit word that several readers may ask to upgrade.

    A thread is in one of the states below; every atomic instruction of the source is one
    step.  The loops [ttas] and [lock] retry such steps, and their tests only decide when
    to retry; a compare-and-swap that fails leaves everything as it was. *)
From S2P Require Import Prelude.

(** ** [SpinLock] *)
Module SpinLock.

(** [_.test_and_set]: the new flag and whether the lock was taken. *)
Definition try_lock (flag : bool) : bool * bool := (true, negb flag).
Definition unlock (flag : bool) : bool := false.

(** [holder i] while thread [i] is between [lock] and [unlock]. *)
Record state := State { flag : bool; holding : list bool }.

Inductive op := TryLock | Unlock.

Definition step (s : state) (i : nat) (o : op) : option state :=
  h ← holding s !! i;
  match o, h with
  | TryLock, false => let '(f, ok) := try_lock (flag s) in Some (State f (<[i := ok]> (holding s)))
  | Unlock, true => Some (State (unlock (flag s)) (<[i := false]> (holding s)))
  | _, _ => None
  end.
End SpinLock.

(** ** [RWSpinLock] *)
Definition UPGRADE : Z := Z.shiftl 1 16.
Definition READER : Z := 2.
Definition WRITER : Z := 1.

Definition test_lock (value : Z) : bool := value =? 0.
Definition test_lock_shared (value : Z) : bool := Z.land value WRITER =? 0.
Definition test_lock_shared_low (value : Z) : bool :=
  (value <? UPGRADE) && (Z.land value WRITER =? 0).
Definition test_upgrade (value : Z) : bool :=
  (Z.land value WRITER =? 0) && (value `quot` UPGRADE =? (value `rem` UPGRADE) `quot` READER).

(** The atomic operations on the word: the new word. *)
Definition fetch_add (w d : Z) : Z := i32 (w + d).
Definition fetch_sub (w d : Z) : Z := i32 (w - d).
Definition fetch_xor (w d : Z) : Z := i32 (Z.lxor w d).
Definition compare_exchange (w expect new : Z) : option Z := if w =? expect then Some new else None.

(** What a thread is doing.  [Backoff]: it has added a reader and found the lock taken.
    [Upgrading]: a reader that has announced itself and waits.  [Downgrading]: a writer
    that has already added itself as a reader. *)
Inductive thread := Idle | Reader | Backoff | Upgrading | Writer | Downgrading.
#[global] Instance thread_eq_dec : EqDecision thread.
Proof. solve_decision. Defined.

(** The instructions.  [value] is the word the thread has read before. *)
Inductive instr :=
  | TryLock (value : Z)          (** [try_lock(value)] of [lock] and [try_lock] *)
  | AddReader (low : bool)       (** the [fetch_add] of [try_lock_shared(_low)] *)
  | SubReader                    (** the [fetch_sub] when that failed *)
  | AnnounceUpgrade              (** the [fetch_add] of [upgrade] *)
  | TryUpgrade (value : Z)       (** [try_upgrade(value)] of [upgrade] *)
  | TryUpgradeOnly               (** the public [try_upgrade()] *)
  | Unlock
  | UnlockShared
  | DowngradeAdd                 (** the [fetch_add] of [downgrade] *)
  | DowngradeXor.                (** its [fetch_xor] *)

(** An instruction on word [w] by a thread in state [t]; [None] when a thread in that
    state does not execute it, or when the compare-and-swap fails. *)
Definition exec (w : Z) (t : thread) (i : instr) : option (Z * thread) :=
  match i, t with
  | TryLock value, Idle =>
      if test_lock value then
        w' ← compare_exchange w value WRITER; Some (w', Writer)
      else None
  | AddReader low, Idle =>
      let ok := if low : bool then test_lock_shared_low w else test_lock_shared w in
      Some (fetch_add w READER, if ok : bool then Reader else Backoff)
  | SubReader, Backoff => Some (fetch_sub w READER, Idle)
  | AnnounceUpgrade, Reader => Some (fetch_add w UPGRADE, Upgrading)
  | TryUpgrade value, Upgrading =>
      if test_upgrade value then
        w' ← compare_exchange w value (i32 (value - UPGRADE - READER + WRITER)); Some (w', Writer)
      else None
  | TryUpgradeOnly, Reader => w' ← compare_exchange w READER WRITER; Some (w', Writer)
  | Unlock, Writer => Some (fetch_xor w WRITER, Idle)
  | UnlockShared, Reader => Some (fetch_sub w READER, Idle)
  | DowngradeAdd, Writer => Some (fetch_add w READER, Downgrading)
  | DowngradeXor, Downgrading => Some (fetch_xor w WRITER, Reader)
  | _, _ => None
  end.

Record lock_state := LockState { word : Z; threads : list thread }.

Definition lock_step (s : lock_state) (i : nat) (op : instr) : option lock_state :=
  t ← threads s !! i;
  '(w, t) ← exec (word s) t op;
  Some (LockState w (<[i := t]> (threads s))).

Definition lock_init (n : nat) : lock_state := LockState 0 (replicate n Idle).

(** The states that [n] threads can bring about. *)
Inductive reachable (n : nat) : lock_state → Prop :=
  | reachable_init : reachable n (lock_init n)
  | reachable_step s i op s' : reachable n s → lock_step s i op = Some s' → reachable n s'.

(** Runs an interleaving, for examples. *)
Fixpoint run (s : lock_state) (ops : list (nat * instr)) : option lock_state :=
  match ops with
  | [] => Some s
  | (i, op) :: ops => s ← lock_step s i op; run s ops
  end.

(** ** Lemmas *)
Definition count (k : thread) (ts : list thread) : Z := cnt (λ t, bool_decide (t = k)) ts.
Definition ind (k t : thread) : Z := if decide (t = k) then 1 else 0.

Lemma b2z_ind k t : Z.b2z (bool_decide (t = k)) = ind k t.
Proof. unfold ind. case_bool_decide; by case_decide. Qed.

Lemma count_cons k t ts : count k (t :: ts) = ind k t + count k ts.
Proof. unfold count. by rewrite cnt_cons, b2z_ind. Qed.

Lemma count_insert k ts i a b :
  ts !! i = Some a → count k (<[i := b]> ts) = count k ts - ind k a + ind k b.
Proof. intros H. unfold count. by rewrite (cnt_insert _ _ _ _ _ H), !b2z_ind. Qed.

Lemma count_nonneg k ts : 0 ≤ count k ts.
Proof. apply cnt_nonneg. Qed.

Lemma count_lookup k ts i : ts !! i = Some k → 1 ≤ count k ts.
Proof. intros H. apply (cnt_lookup _ _ _ _ H). by apply bool_decide_eq_true. Qed.

Lemma count_total ts :
  count Idle ts + count Reader ts + count Backoff ts + count Upgrading ts + count Writer ts +
  count Downgrading ts = Z.of_nat (length ts).
Proof.
  induction ts as [|t ts IH]; [done|]. rewrite !count_cons. cbn [length].
  destruct t; unfold ind; repeat (case_decide; try done); lia.
Qed.

(** The word is determined by what the threads are doing. *)
Record lock_inv (n : nat) (s : lock_state) : Prop := {
  li_length : length (threads s) = n;
  li_word : word s = 65536 * count Upgrading (threads s) +
    2 * (count Reader (threads s) + count Backoff (threads s) + count Upgrading (threads s) +
         count Downgrading (threads s)) +
    (count Writer (threads s) + count Downgrading (threads s));
  li_writers : count Writer (threads s) + count Downgrading (threads s) ≤ 1;
  li_excl : 1 ≤ count Writer (threads s) + count Downgrading (threads s) →
            count Reader (threads s) = 0;
}.

Lemma land_1 w : Z.land w WRITER = w mod 2.
Proof. apply (Z.land_ones w 1). lia. Qed.

Lemma lxor_1 w : w mod 2 = 1 → Z.lxor w WRITER = w - 1.
Proof.
  intros Hw. unfold WRITER. rewrite (Z.div_mod w 2), Hw at 1 by lia.
  apply Z.bits_inj'. intros k Hk. rewrite Z.lxor_spec.
  replace (w - 1) with (2 * (w / 2)) by (pose proof (Z.div_mod w 2); lia).
  destruct (decide (k = 0)) as [->|].
  - by rewrite Z.testbit_odd_0, Z.testbit_even_0.
  - replace k with (Z.succ (k - 1)) by lia.
    rewrite Z.testbit_odd_succ, Z.testbit_even_succ by lia. change 1 with (2 * 0 + 1) at 2.
    rewrite Z.testbit_odd_succ by lia. by rewrite Z.testbit_0_l, xorb_false_r.
Qed.

Lemma test_upgrade_spec u k w :
  0 ≤ u → 0 ≤ k → 0 ≤ w ≤ 1 → 2 * k + w < 65536 →
  test_upgrade (65536 * u + 2 * k + w) = true ↔ w = 0 ∧ u = k.
Proof.
  intros. unfold test_upgrade, UPGRADE, READER. change (Z.shiftl 1 16) with 65536.
  rewrite land_1, Z.quot_div_nonneg, Z.rem_mod_nonneg by lia.
  assert ((65536 * u + 2 * k + w) / 65536 = u) as ->.
  { symmetry. apply (Z.div_unique _ _ _ (2 * k + w)); lia. }
  assert ((65536 * u + 2 * k + w) mod 65536 = 2 * k + w) as ->.
  { symmetry. apply (Z.mod_unique _ _ u); lia. }
  assert ((65536 * u + 2 * k + w) mod 2 = w) as ->.
  { symmetry. apply (Z.mod_unique _ _ (32768 * u + k)); lia. }
  rewrite Z.quot_div_nonneg by lia.
  assert ((2 * k + w) / 2 = k) as -> by (symmetry; apply (Z.div_unique _ _ _ w); lia).
  rewrite andb_true_iff, !Z.eqb_eq. done.
Qed.

(** Applies the effect of one thread changing its state to all the counts. *)
Ltac recount Hlk :=
  rewrite !(count_insert _ _ _ _ _ Hlk); unfold ind;
  repeat (case_decide; try done).

Ltac counts ts :=
  pose proof (count_nonneg Idle ts); pose proof (count_nonneg Reader ts);
  pose proof (count_nonneg Backoff ts); pose proof (count_nonneg Upgrading ts);
  pose proof (count_nonneg Writer ts); pose proof (count_nonneg Downgrading ts);
  pose proof (count_total ts).

(** What a thread may do in a state that satisfies the invariant, without overflow. *)
Definition effect (w : Z) (ts : list thread) (t t' : thread) (w' : Z) : Prop :=
  match t, t' with
  | Idle, Writer => w = 0 ∧ w' = 1
  | Idle, Reader => count Writer ts + count Downgrading ts = 0 ∧ w' = w + 2
  | Idle, Backoff => w' = w + 2
  | Backoff, Idle | Reader, Idle => w' = w - 2
  | Reader, Upgrading => w' = w + 65536
  | Upgrading, Writer => count Writer ts = 0 ∧ count Downgrading ts = 0 ∧
      count Reader ts = 0 ∧ count Backoff ts = 0 ∧ w' = w - 65537
  | Reader, Writer => w = 2 ∧ w' = 1
  | Writer, Idle => w' = w - 1
  | Writer, Downgrading => w' = w + 2
  | Downgrading, Reader => w' = w - 1
  | _, _ => False
  end.

Lemma exec_effect n w ts i t op w' t' :
  Z.of_nat n < 2 ^ 15 → lock_inv n (LockState w ts) → ts !! i = Some t →
  exec w t op = Some (w', t') → effect w ts t t' w'.
Proof.
  intros Hn [Hlen Hw Hwr Hex] Ht He. cbn [word threads] in *.
  pose proof (count_lookup _ _ _ Ht) as Hc. counts ts.
  assert (Hmod : w mod 2 = count Writer ts + count Downgrading ts).
  { symmetry. apply (Z.mod_unique _ _ (32768 * count Upgrading ts + count Reader ts +
      count Backoff ts + count Upgrading ts + count Downgrading ts)); lia. }
  pose proof (test_upgrade_spec (count Upgrading ts) (count Reader ts + count Backoff ts +
    count Upgrading ts + count Downgrading ts) (count Writer ts + count Downgrading ts)
    ltac:(lia) ltac:(lia) ltac:(lia) ltac:(lia)) as Htu. rewrite <- Hw in Htu.
  unfold exec, compare_exchange, fetch_add, fetch_sub, fetch_xor, UPGRADE, READER, test_lock,
    test_lock_shared, test_lock_shared_low in He.
  change (Z.shiftl 1 16) with 65536 in He. rewrite ?land_1 in He.
  destruct op as [v|[]| | |v| | | | |], t; try discriminate He;
    repeat (case_match; try discriminate He); cbn in He; simplify_eq/=; cbn [effect];
    rewrite ?lxor_1 by lia;
    repeat match goal with
    | H : (_ && _) = true |- _ => apply andb_true_iff in H as [??]
    | H : (_ =? _) = true |- _ => apply Z.eqb_eq in H
    end; subst;
    try match goal with H : test_upgrade _ = true |- _ => apply Htu in H as [??] end;
    rewrite ?swrap_small by (unfold in_signed, WRITER in *; lia); unfold WRITER in *; lia.
Qed.

Lemma lock_step_inv n s i op s' :
  Z.of_nat n < 2 ^ 15 → lock_inv n s → lock_step s i op = Some s' → lock_inv n s'.
Proof.
  intros Hn Hinv Hs. destruct s as [w ts]. unfold lock_step in Hs. cbn [word threads] in *.
  destruct (ts !! i) as [t|] eqn:Ht; [|done]. cbn [mbind option_bind] in Hs.
  destruct (exec w t op) as [[w' t']|] eqn:He; [|done]. injection Hs as <-.
  pose proof (exec_effect n w ts i t op w' t' Hn Hinv Ht He) as Heff.
  pose proof (count_lookup _ _ _ Ht) as Hc. destruct Hinv as [Hlen Hw Hwr Hex].
  cbn [word threads] in *. counts ts.
  split; cbn [word threads]; [by rewrite length_insert|..];
    destruct t, t'; cbn [effect] in Heff; try done; recount Ht; lia.
Qed.

Lemma reachable_inv n s : Z.of_nat n < 2 ^ 15 → reachable n s → lock_inv n s.
Proof.
  intros Hn. induction 1 as [|s i op s' _ IH Hs]; [|by eapply lock_step_inv].
  assert (Hz : ∀ k, k ≠ Idle → count k (replicate n Idle) = 0).
  { intros k Hk. clear Hn. induction n as [|n IH]; [done|]. cbn [replicate].
    rewrite count_cons, IH. unfold ind. by case_decide. }
  split; cbn [lock_init word threads]; [apply length_replicate|rewrite !Hz by done; lia..].
Qed.

Lemma count_two k ts i j : i ≠ j → ts !! i = Some k → ts !! j = Some k → 2 ≤ count k ts.
Proof.
  intros Hij Hi Hj. destruct (decide (k = Idle)) as [->|Hk].
  - pose proof (count_insert Idle ts i Idle Reader Hi) as Hc. unfold ind in Hc.
    destruct (decide (Reader = Idle)); [done|]. destruct (decide (Idle = Idle)); [|done].
    assert (<[i := Reader]> ts !! j = Some Idle) as Hj' by by rewrite list_lookup_insert_ne.
    pose proof (count_lookup _ _ _ Hj'). lia.
  - pose proof (count_insert k ts i k Idle Hi) as Hc. unfold ind in Hc.
    destruct (decide (Idle = k)); [by subst|]. destruct (decide (k = k)); [|done].
    assert (<[i := Idle]> ts !! j = Some k) as Hj' by by rewrite list_lookup_insert_ne.
    pose proof (count_lookup _ _ _ Hj'). lia.
Qed.

Lemma count_zero k ts : (∀ i t, ts !! i = Some t → t ≠ k) → count k ts = 0.
Proof.
  intros H. apply cnt_zero, Forall_lookup. intros i t Hi. apply bool_decide_eq_false. by eapply H.
Qed.

Lemma run_reachable n ops : ∀ s s', reachable n s → run s ops = Some s' → reachable n s'.
Proof.
  induction ops as [|[i op] ops IH]; intros s s' Hs Hr; cbn [run] in Hr; [by injection Hr as <-|].
  destruct (lock_step s i op) eqn:E; [|done]. eapply IH; [|exact Hr]. by eapply reachable_step.
Qed.

(** ** Properties *)

(** The states in which a thread may write, and may read. *)
Definition writes (t : thread) : bool := bool_decide (t = Writer ∨ t = Downgrading).
Definition reads (t : thread) : bool := bool_decide (t = Reader ∨ t = Writer ∨ t = Downgrading).

(** C11: mutual exclusion of [RWSpinLock].  However fewer than [2^15] threads interleave
    the atomic instructions of locking, unlocking, upgrading and downgrading, while one
    thread holds the lock for writing no other thread holds it in any mode; and the word,
    which never overflows, always says what the threads are doing. *)
Theorem rwspinlock_exclusion (n : nat) (s : lock_state) :
  Z.of_nat n < 2 ^ 15 → reachable n s →
  (∀ i j ti tj, i ≠ j → threads s !! i = Some ti → threads s !! j = Some tj →
     writes ti = true → reads tj = false) ∧
  0 ≤ word s < 2 ^ 31 ∧
  (Z.odd (word s) = true ↔ ∃ i t, threads s !! i = Some t ∧ writes t = true).
Proof.
  intros Hn Hr. pose proof (reachable_inv n s Hn Hr) as [Hlen Hw Hwr Hex]. split; [|split].
  - intros i j ti tj Hij Hi Hj Hwi. apply bool_decide_eq_true in Hwi.
    apply bool_decide_eq_false. counts (threads s).
    pose proof (count_lookup _ _ _ Hi). pose proof (count_lookup _ _ _ Hj).
    destruct Hwi as [-> | ->]; intros [-> |[-> | ->]]; try lia;
      pose proof (count_two _ _ _ _ Hij Hi Hj); lia.
  - counts (threads s). lia.
  - rewrite Z.odd_spec. counts (threads s). split.
    + intros [k Hk]. destruct (decide (Exists (λ t, writes t = true) (threads s)))
        as [(t&Ht&?)%Exists_exists|Hno].
      { apply list_elem_of_lookup_1 in Ht as [i ?]. by exists i, t. }
      rewrite (count_zero Writer), (count_zero Downgrading) in Hw; [lia|..];
        intros i t Hi ->; apply Hno, Exists_exists; eexists; (split; [by eapply list_elem_of_lookup_2|done]).
    + intros (i&t&Hi&Ht). pose proof (count_lookup _ _ _ Hi).
      apply bool_decide_eq_true in Ht. exists (32768 * count Upgrading (threads s) +
        (count Reader (threads s) + count Backoff (threads s) + count Upgrading (threads s) +
         count Downgrading (threads s))).
      destruct Ht as [-> | ->]; lia.
Qed.

Lemma rwspinlock_exclusion_witness :
  let s := LockState 65541 [Writer; Upgrading; Backoff] in
  reachable 3 s ∧
  (∀ i j ti tj, i ≠ j → threads s !! i = Some ti → threads s !! j = Some tj →
     writes ti = true → reads tj = false) ∧
  0 ≤ word s < 2 ^ 31 ∧
  (Z.odd (word s) = true ↔ ∃ i t, threads s !! i = Some t ∧ writes t = true).
Proof.
  intros s.
  assert (Hr : reachable 3 s).
  { apply (run_reachable 3 [(0%nat, AddReader false); (1%nat, AddReader true); (0%nat, AnnounceUpgrade);
      (1%nat, AnnounceUpgrade); (0%nat, TryUpgrade 131076); (2%nat, AddReader false)]
      (lock_init 3)); [constructor|reflexivity]. }
  split; [exact Hr|]. by apply (rwspinlock_exclusion 3).
Defined.

(** No instruction is stuck for good.  In every reachable state: if no thread uses
    the lock, [lock] succeeds at its next attempt; if the only threads that use it are
    waiting to upgrade, each of them succeeds at its next attempt, however many readers
    upgrade at once; and as long as one is waiting, no [lock] succeeds. *)
Theorem rwspinlock_progress (n : nat) (s : lock_state) (i : nat) :
  Z.of_nat n < 2 ^ 15 → reachable n s →
  (threads s !! i = Some Idle → (∀ j t, threads s !! j = Some t → t = Idle) →
   ∃ s', lock_step s i (TryLock (word s)) = Some s' ∧ threads s' !! i = Some Writer) ∧
  (threads s !! i = Some Upgrading →
   (∀ j t, threads s !! j = Some t → t = Idle ∨ t = Upgrading) →
   ∃ s', lock_step s i (TryUpgrade (word s)) = Some s' ∧ threads s' !! i = Some Writer) ∧
  (threads s !! i = Some Upgrading → ∀ j v, lock_step s j (TryLock v) = None).
Proof.
  intros Hn Hr. pose proof (reachable_inv n s Hn Hr) as [Hlen Hw Hwr Hex].
  destruct s as [w ts]. cbn [word threads] in *. counts ts.
  unfold lock_step; cbn [threads word]. split; [|split].
  - intros Hi Hall. rewrite Hi. cbn [mbind option_bind exec].
    assert (Hz : w = 0).
    { rewrite (count_zero Writer), (count_zero Downgrading), (count_zero Upgrading),
        (count_zero Reader), (count_zero Backoff) in Hw;
        [lia|intros j t Hj ->; by specialize (Hall _ _ Hj)..]. }
    subst w. rewrite Hz. cbn. eexists. split; [reflexivity|]. cbn [threads].
    apply list_lookup_insert_eq. by eapply lookup_lt_Some.
  - intros Hi Hall. rewrite Hi. cbn [mbind option_bind exec].
    assert (Hz : ∀ k, k ≠ Idle → k ≠ Upgrading → count k ts = 0).
    { intros k ??. apply count_zero. intros j t Hj ->. by destruct (Hall _ _ Hj). }
    pose proof (proj2 (test_upgrade_spec (count Upgrading ts) (count Reader ts +
      count Backoff ts + count Upgrading ts + count Downgrading ts)
      (count Writer ts + count Downgrading ts) ltac:(lia) ltac:(lia) ltac:(lia) ltac:(lia)))
      as Htu.
    rewrite <- Hw in Htu. pose proof (Hz Writer ltac:(done) ltac:(done)).
    pose proof (Hz Reader ltac:(done) ltac:(done)).
    pose proof (Hz Backoff ltac:(done) ltac:(done)).
    pose proof (Hz Downgrading ltac:(done) ltac:(done)). rewrite Htu by lia.
    unfold compare_exchange. rewrite Z.eqb_refl. cbn [mbind option_bind].
    eexists. split; [reflexivity|]. cbn [threads].
    apply list_lookup_insert_eq. by eapply lookup_lt_Some.
  - intros Hi j v. pose proof (count_lookup _ _ _ Hi).
    destruct (ts !! j) as [t|]; [|done]. cbn [mbind option_bind exec].
    destruct t; try done. unfold test_lock, compare_exchange.
    destruct (Z.eqb_spec v 0) as [->|]; [|done]. by destruct (Z.eqb_spec w 0); [lia|].
Qed.

Lemma rwspinlock_progress_witness :
  let s := LockState 131076 [Upgrading; Upgrading] in
  reachable 2 s ∧
  (threads s !! 1%nat = Some Idle → (∀ j t, threads s !! j = Some t → t = Idle) →
   ∃ s', lock_step s 1 (TryLock (word s)) = Some s' ∧ threads s' !! 1%nat = Some Writer) ∧
  (threads s !! 1%nat = Some Upgrading →
   (∀ j t, threads s !! j = Some t → t = Idle ∨ t = Upgrading) →
   ∃ s', lock_step s 1 (TryUpgrade (word s)) = Some s' ∧ threads s' !! 1%nat = Some Writer) ∧
  (threads s !! 1%nat = Some Upgrading → ∀ j v, lock_step s j (TryLock v) = None).
Proof.
  intros s.
  assert (Hr : reachable 2 s).
  { apply (run_reachable 2 [(0%nat, AddReader false); (1%nat, AddReader true);
      (0%nat, AnnounceUpgrade); (1%nat, AnnounceUpgrade)] (lock_init 2));
      [constructor|reflexivity]. }
  split; [exact Hr|]. by apply (rwspinlock_progress 2).
Defined.
