(* ===== verification/Queue.v ===== *)
(** * Lock-free queues

    src/src/thread/MpscQueue.h: many producers, one consumer; src/src/thread/SpscQueue.h:
    one producer that recycles the nodes the consumer has left behind.

    The heap maps the addresses of the live nodes to their contents; an access to any
    other address is [Abort].  Each atomic access of the source is a step, and the steps
    of the threads interleave in any order (sequentially consistent memory). *)
From S2P Require Import Prelude.

Abbreviation addr_t := nat.

Section nodes.
Context {T : Type}.

(** [v] is [None] in the dummy node and after the value was moved out. *)
Record node := Node { n_v : option T; n_next : option addr_t }.
Abbreviation heap := (gmap addr_t node).

Definition load (h : heap) (a : addr_t) : result node :=
  match h !! a with Some n => Ok n | None => Abort end.
Lemma load_ok h a n : h !! a = Some n → load h a = Ok n.
Proof. unfold load. by intros ->. Qed.
Definition store_next (h : heap) (a : addr_t) (next : option addr_t) : result heap :=
  n ← load h a; Ok (<[a := Node (n_v n) next]> h).
Definition store_v (h : heap) (a : addr_t) (v : option T) : result heap :=
  n ← load h a; Ok (<[a := Node v (n_next n)]> h).
Definition delete_node (h : heap) (a : addr_t) : result heap :=
  _ ← load h a; Ok (delete a h).
End nodes.
#[global] Arguments node : clear implicits.

Module MpscQueue.
Section mpsc.
Context {T : Type}.
Abbreviation heap := (gmap addr_t (node T)).

(** [linking]: the producers between [_head.exchange] and [prev_head->next.store], as
    pairs [(prev_head, n)]. *)
Record state := State {
  mem : heap;
  _tail : addr_t;
  _head : addr_t;
  linking : list (addr_t * addr_t);
}.

(** [MpscQueue()], with the dummy node at address [a]. *)
Definition init (a : addr_t) : state := State {[ a := Node None None ]} a a [].

(** [push(v)] up to the exchange; [n] is the address [new_node] returns. *)
Definition push_exchange (s : state) (v : T) (n : addr_t) : state :=
  State (<[n := Node (Some v) None]> (mem s)) (_tail s) n (linking s ++ [(_head s, n)]).

(** [prev_head->next.store(n)]. *)
Definition push_link (s : state) (prev n : addr_t) : result state :=
  mem ← store_next (mem s) prev (Some n);
  Ok (State mem (_tail s) (_head s) (filter (λ p, p ≠ (prev, n)) (linking s))).

Definition pop (s : state) : result (state * option T) :=
  t ← load (mem s) (_tail s);
  match n_next t with
  | Some next =>
      n ← load (mem s) next;
      mem ← store_v (mem s) next None;
      mem ← delete_node mem (_tail s);
      Ok (State mem next (_head s) (linking s), n_v n)
  | None => Ok (s, None)
  end.

Definition top (s : state) : result (option T) :=
  t ← load (mem s) (_tail s);
  match n_next t with
  | Some next => n ← load (mem s) next; Ok (n_v n)
  | None => Ok None
  end.

(** A step of some thread.  [new_node] returns an address that is not in use, and a
    producer links what it exchanged: other choices are not steps. *)
Inductive action := Exchange (v : T) (n : addr_t) | Link (prev n : addr_t) | Pop.

Definition enabled (s : state) (a : action) : bool :=
  match a with
  | Exchange _ n => bool_decide (mem s !! n = None)
  | Link prev n => bool_decide ((prev, n) ∈ linking s)
  | Pop => true
  end.

(** What the step returns: [Some r] when it is a [pop]. *)
Definition step (s : state) (a : action) : result (state * option (option T)) :=
  match a with
  | Exchange v n => Ok (push_exchange s v n, None)
  | Link prev n => s ← push_link s prev n; Ok (s, None)
  | Pop => '(s, r) ← pop s; Ok (s, Some r)
  end.

(** A schedule; the values that were pushed, in the order of the exchanges, and the
    answers of [pop]. *)
Fixpoint run (s : state) (acts : list action) : result (state * list T * list (option T)) :=
  match acts with
  | [] => Ok (s, [], [])
  | a :: acts =>
      if enabled s a then
        '(s, r) ← step s a;
        '(s, vs, rs) ← run s acts;
        Ok (s, match a with Exchange v _ => v :: vs | _ => vs end,
            match r with Some r => r :: rs | None => rs end)
      else run s acts
  end.

(** Popping until the queue answers that it is empty. *)
Fixpoint drain (fuel : nat) (s : state) : result (state * list T) :=
  match fuel with
  | O => Abort
  | S fuel =>
      '(s, r) ← pop s;
      match r with
      | Some v => '(s, vs) ← drain fuel s; Ok (s, v :: vs)
      | None => Ok (s, [])
      end
  end.

(** ** The invariant

    [ns] are the nodes behind the dummy, oldest first, [vs] their values.  A node is
    linked from its predecessor, or a producer is about to link it. *)
Record inv (s : state) (ns : list addr_t) (vs : list T) : Prop := {
  iv_nodup : NoDup (_tail s :: ns);
  iv_dom : dom (mem s) = list_to_set (_tail s :: ns);
  iv_head : last (_tail s :: ns) = Some (_head s);
  iv_head_next : n_next <$> mem s !! _head s = Some None;
  iv_next i a b : (_tail s :: ns) !! i = Some a → ns !! i = Some b →
    n_next <$> mem s !! a = Some (Some b) ∧ (a, b) ∉ linking s ∨
    n_next <$> mem s !! a = Some None ∧ (a, b) ∈ linking s;
  iv_values : Forall2 (λ n v, n_v <$> mem s !! n = Some (Some v)) ns vs;
  iv_links a b : (a, b) ∈ linking s → ∃ i, (_tail s :: ns) !! i = Some a ∧ ns !! i = Some b;
}.

Lemma inv_init a : inv (init a) [] [].
Proof.
  split; cbn [init mem _tail _head linking]; try done.
  - apply NoDup_singleton.
  - rewrite dom_singleton_L. set_solver.
  - by rewrite lookup_singleton_eq.
  - intros a0 b Hin. by apply not_elem_of_nil in Hin.
Qed.

Lemma inv_live s ns vs a : inv s ns vs → a ∈ _tail s :: ns → ∃ n, mem s !! a = Some n.
Proof.
  intros Hi Ha. apply elem_of_dom. rewrite (iv_dom s ns vs Hi). by apply elem_of_list_to_set.
Qed.

Lemma inv_fresh s ns vs n : inv s ns vs → mem s !! n = None → n ∉ _tail s :: ns.
Proof.
  intros Hi Hn Hin. destruct (inv_live s ns vs n Hi Hin) as [? Hs]. by rewrite Hs in Hn.
Qed.

Lemma head_live s ns vs : inv s ns vs → _head s ∈ _tail s :: ns.
Proof. intros Hi. apply last_Some_elem_of, Hi. Qed.

(** The values survive a change of the heap that keeps them. *)
Lemma values_change (m m' : heap) ns (vs : list T) :
  Forall2 (λ n v, n_v <$> m !! n = Some (Some v)) ns vs →
  (∀ n, n ∈ ns → n_v <$> m' !! n = n_v <$> m !! n) →
  Forall2 (λ n v, n_v <$> m' !! n = Some (Some v)) ns vs.
Proof.
  induction 1 as [|n v ns vs Hn _ IH]; intros Hs; constructor.
  - rewrite Hs; [done|]. left.
  - apply IH. intros. apply Hs. by right.
Qed.

Lemma push_exchange_inv s ns vs v n :
  inv s ns vs → mem s !! n = None → inv (push_exchange s v n) (ns ++ [n]) (vs ++ [v]).
Proof.
  intros Hi Hn. pose proof (inv_fresh _ _ _ _ Hi Hn) as Hfr.
  pose proof (head_live _ _ _ Hi) as Hhl.
  assert (Hne : ∀ a, a ∈ _tail s :: ns → a ≠ n) by (intros a Ha ->; done).
  split; cbn [push_exchange mem _tail _head linking].
  - rewrite app_comm_cons. apply NoDup_app. split; [apply Hi|].
    split; [set_solver|apply NoDup_singleton].
  - rewrite dom_insert_L, (iv_dom _ _ _ Hi), app_comm_cons, list_to_set_app_L. set_solver.
  - by rewrite app_comm_cons, last_snoc.
  - by rewrite lookup_insert_eq.
  - intros i a b Ha Hb. rewrite app_comm_cons in Ha.
    destruct (decide (i < length ns)%nat) as [Hlt|Hge].
    + rewrite lookup_app_l in Ha by (cbn; lia). rewrite lookup_app_l in Hb by done.
      rewrite lookup_insert_ne by (symmetry; apply Hne; by eapply list_elem_of_lookup_2).
      destruct (iv_next _ _ _ Hi i a b Ha Hb) as [[??]|[??]]; [left|right]; (split; [done|]);
        [|set_solver].
      intros [?|Hab]%elem_of_app; [done|]. apply list_elem_of_singleton in Hab as [= _ ->].
      apply (Hne n); [|done]. right. by eapply list_elem_of_lookup_2.
    + apply lookup_lt_Some in Hb as Hb'. rewrite length_app in Hb'. cbn in Hb'.
      assert (i = length ns) as -> by lia. rewrite lookup_app_r, Nat.sub_diag in Hb by lia.
      injection Hb as <-. rewrite lookup_app_l in Ha by (cbn; lia).
      assert (a = _head s) as ->.
      { pose proof (iv_head _ _ _ Hi) as Hl. rewrite last_lookup in Hl. cbn [length pred] in Hl.
        congruence. }
      right. rewrite lookup_insert_ne by (symmetry; by apply Hne). split; [apply Hi|set_solver].
  - apply Forall2_app; [|constructor; [by rewrite lookup_insert_eq|constructor]].
    eapply values_change; [apply Hi|]. intros a Ha. rewrite lookup_insert_ne; [done|].
    intros ->. apply (Hne a); [by right|done].
  - intros a b [Hin|Hin]%elem_of_app.
    + destruct (iv_links _ _ _ Hi a b Hin) as (i&Ha&Hb). exists i.
      rewrite app_comm_cons. split; by apply lookup_app_l_Some.
    + apply list_elem_of_singleton in Hin as [= -> ->]. exists (length ns).
      rewrite app_comm_cons, lookup_app_l, lookup_app_r, Nat.sub_diag by (cbn; lia).
      split; [|done]. pose proof (iv_head _ _ _ Hi) as Hl. by rewrite last_lookup in Hl.
Qed.

Lemma push_link_inv s ns vs prev n :
  inv s ns vs → (prev, n) ∈ linking s →
  ∃ s', push_link s prev n = Ok s' ∧ inv s' ns vs ∧ _tail s' = _tail s ∧
        linking s' = filter (λ p, p ≠ (prev, n)) (linking s).
Proof.
  intros Hi Hin. destruct (iv_links _ _ _ Hi _ _ Hin) as (k&Hk&Hkn).
  destruct (inv_live s ns vs prev Hi) as [nd Hnd]; [by eapply list_elem_of_lookup_2|].
  unfold push_link, store_next, load. rewrite Hnd. cbn [mbind result_bind].
  eexists. split; [reflexivity|]. split; [|done].
  assert (Hidx : ∀ i a, (_tail s :: ns) !! i = Some a → a = prev → i = k).
  { intros i a Ha ->. by eapply NoDup_lookup; [apply Hi|..]. }
  assert (Hprev : prev ≠ _head s).
  { intros ->. pose proof (iv_head _ _ _ Hi) as Hl. rewrite last_lookup in Hl.
    cbn [length pred] in Hl. specialize (Hidx _ _ Hl eq_refl) as <-.
    apply lookup_lt_Some in Hkn. lia. }
  split; cbn [mem _tail _head linking].
  - apply Hi.
  - rewrite dom_insert_L, (iv_dom _ _ _ Hi).
    assert (prev ∈ _tail s :: ns) by (by eapply list_elem_of_lookup_2). set_solver.
  - apply Hi.
  - rewrite lookup_insert_ne by done. apply Hi.
  - intros i a b Ha Hb. destruct (decide (a = prev)) as [->|Hne].
    + rewrite (Hidx i _ Ha eq_refl) in Hb. assert (b = n) as -> by congruence.
      left. rewrite lookup_insert_eq. split; [done|]. by intros [? _]%list_elem_of_filter.
    + rewrite lookup_insert_ne by done.
      destruct (iv_next _ _ _ Hi i a b Ha Hb) as [[??]|[??]]; [left|right]; (split; [done|]).
      * by intros [_ ?]%list_elem_of_filter.
      * apply list_elem_of_filter. split; [congruence|done].
  - eapply values_change; [apply Hi|]. intros a _. destruct (decide (a = prev)) as [->|].
    + by rewrite lookup_insert_eq, Hnd.
    + by rewrite lookup_insert_ne.
  - intros a b [_ ?]%list_elem_of_filter. by apply (iv_links _ _ _ Hi).
Qed.

(** What [pop] does: it takes the oldest value, unless its producer has not linked it. *)
Lemma pop_inv s ns vs :
  inv s ns vs →
  ∃ s' r, pop s = Ok (s', r) ∧
    match r with
    | Some v => ∃ ns' vs', vs = v :: vs' ∧ inv s' ns' vs' ∧ linking s' = linking s
    | None => s' = s ∧ (vs = [] ∨ ∃ n, (_tail s, n) ∈ linking s)
    end.
Proof.
  intros Hi. unfold pop.
  destruct (inv_live s ns vs (_tail s) Hi) as [t Ht]; [left|]. rewrite (load_ok _ _ _ Ht). cbn [mbind result_bind].
  pose proof (iv_values _ _ _ Hi) as Hv. destruct Hv as [|n v ns vs Hn Hv].
  { assert (_head s = _tail s) as Hht by (pose proof (iv_head _ _ _ Hi) as [=]; done).
    pose proof (iv_head_next _ _ _ Hi) as Hnx. rewrite Hht, Ht in Hnx. injection Hnx as ->.
    exists s, None. auto. }
  pose proof (iv_next _ _ _ Hi 0 (_tail s) n eq_refl eq_refl) as Hnx. rewrite Ht in Hnx.
  destruct Hnx as [[Hnx Hlk]|[Hnx Hlk]]; injection Hnx as ->; [|exists s, None; eauto].
  pose proof (iv_nodup _ _ _ Hi) as [Htn Hnd]%NoDup_cons.
  destruct (mem s !! n) as [nd|] eqn:End; [|done]. injection Hn as Hnv.
  assert (Hne : n ≠ _tail s) by (intros ->; apply Htn; left).
  unfold store_v, delete_node. rewrite (load_ok _ _ _ End). cbn [mbind result_bind].
  rewrite (load_ok _ _ t) by by rewrite lookup_insert_ne. cbn [mbind result_bind]. rewrite Hnv.
  eexists _, (Some v). split; [reflexivity|]. exists ns, vs. split; [done|]. split; [|done].
  assert (Hother : ∀ a, a ≠ _tail s → a ≠ n →
    delete (_tail s) (<[n := Node None (n_next nd)]> (mem s)) !! a = mem s !! a).
  { intros. by rewrite lookup_delete_ne, lookup_insert_ne. }
  assert (Hnext : ∀ a, a ≠ _tail s →
    n_next <$> delete (_tail s) (<[n := Node None (n_next nd)]> (mem s)) !! a =
    n_next <$> mem s !! a).
  { intros a Ha. destruct (decide (a = n)) as [->|]; [|by rewrite Hother].
    by rewrite lookup_delete_ne, lookup_insert_eq, End. }
  split; cbn [mem _tail _head linking].
  - done.
  - rewrite dom_delete_L, dom_insert_L, (iv_dom _ _ _ Hi). set_solver.
  - apply (iv_head _ _ _ Hi).
  - rewrite Hnext; [apply Hi|]. intros Heq.
    pose proof (iv_head _ _ _ Hi) as Hl. rewrite last_cons_cons in Hl.
    apply last_Some_elem_of in Hl. by rewrite Heq in Hl.
  - intros i a b Ha Hb. rewrite Hnext; [by apply (iv_next _ _ _ Hi (S i))|].
    intros ->. apply Htn. by eapply list_elem_of_lookup_2.
  - eapply values_change; [exact Hv|]. intros a Ha. rewrite Hother; [done|..].
    + intros ->. apply Htn. by right.
    + intros ->. by apply NoDup_cons in Hnd as [? _].
  - intros a b Hin. destruct (iv_links _ _ _ Hi a b Hin) as ([|i]&Ha&Hb).
    + cbn in Ha, Hb. simplify_eq.
    + by exists i.
Qed.

(** A whole schedule. *)
Lemma run_inv acts : ∀ s ns vs,
  inv s ns vs →
  ∃ s' ns' vs' pushed rs, run s acts = Ok (s', pushed, rs) ∧ inv s' ns' vs' ∧
    vs ++ pushed = omap id rs ++ vs'.
Proof.
  induction acts as [|a acts IH]; intros s ns vs Hi; cbn [run].
  { exists s, ns, vs, [], []. rewrite app_nil_r. auto. }
  destruct (enabled s a) eqn:Hen; [|by eapply IH].
  destruct a as [v n|prev n|]; cbn [enabled step] in *.
  - apply bool_decide_eq_true in Hen. cbn [mbind result_bind].
    destruct (IH _ _ _ (push_exchange_inv s ns vs v n Hi Hen)) as (s'&ns'&vs'&p&rs&->&Hi'&He).
    cbn [mbind result_bind]. exists s', ns', vs', (v :: p), rs. split; [done|]. split; [done|].
    by rewrite <- He, <- app_assoc.
  - apply bool_decide_eq_true in Hen.
    destruct (push_link_inv s ns vs prev n Hi Hen) as (s1&->&Hi1&_). cbn [mbind result_bind].
    destruct (IH _ _ _ Hi1) as (s'&ns'&vs'&p&rs&->&Hi'&He). cbn [mbind result_bind]. eauto 10.
  - destruct (pop_inv s ns vs Hi) as (s1&r&->&Hr). cbn [mbind result_bind].
    destruct r as [v|].
    + destruct Hr as (ns1&vs1&->&Hi1&_).
      destruct (IH _ _ _ Hi1) as (s'&ns'&vs'&p&rs&->&Hi'&He). cbn [mbind result_bind].
      exists s', ns', vs', p, (Some v :: rs). split; [done|]. split; [done|].
      cbn [omap list_omap id]. cbn. by rewrite He.
    + destruct Hr as [-> _].
      destruct (IH _ _ _ Hi) as (s'&ns'&vs'&p&rs&->&Hi'&He). cbn [mbind result_bind].
      exists s', ns', vs', p, (None :: rs). auto.
Qed.

Lemma drain_inv fuel : ∀ s ns vs,
  inv s ns vs → linking s = [] → (length vs < fuel)%nat →
  ∃ s', drain fuel s = Ok (s', vs) ∧ size (mem s') = 1%nat.
Proof.
  induction fuel as [|fuel IH]; intros s ns vs Hi Hl Hf; [lia|]. cbn [drain].
  destruct (pop_inv s ns vs Hi) as (s1&r&->&Hr). cbn [mbind result_bind]. destruct r as [v|].
  - destruct Hr as (ns1&vs1&->&Hi1&Hl1). cbn [length] in Hf.
    destruct (IH s1 ns1 vs1) as (s'&->&?); [done|by rewrite Hl1|lia|]. by exists s'.
  - destruct Hr as [-> [->|[n Hn]]]; [|rewrite Hl in Hn; by apply not_elem_of_nil in Hn].
    exists s. split; [done|]. rewrite <- size_dom, (iv_dom _ _ _ Hi).
    pose proof (iv_values _ _ _ Hi) as Hv. inversion Hv. cbn.
    by rewrite (right_id_L ∅ (∪)), size_singleton.
Qed.
End mpsc.
End MpscQueue.

Module SpscQueue.
Section spsc.
Context {T : Type}.
Abbreviation heap := (gmap addr_t (node T)).

(** Where the producer is in [push], and the consumer in [pop]. *)
Inductive producer := PIdle | PAllocated (n : addr_t) (v : T) | PLinked (n : addr_t).
Inductive consumer := CIdle | CTaken (next : addr_t).

Record state := State {
  mem : heap;
  _tail : addr_t;
  _head : addr_t;
  _first : addr_t;
  _tailcopy : addr_t;
  prod : producer;
  cons : consumer;
}.

Definition init (a : addr_t) : state := State {[ a := Node None None ]} a a a a PIdle CIdle.

(** The two branches of [alloc_node] that recycle the node [_first]. *)
Definition recycle (s : state) (tailcopy : addr_t) (v : T) : result state :=
  n ← load (mem s) (_first s);
  match n_next n with
  | None => Abort
  | Some next =>
      mem ← store_next (mem s) (_first s) None;
      mem ← store_v mem (_first s) (Some v);
      Ok (State mem (_tail s) (_head s) next tailcopy (PAllocated (_first s) v) (cons s))
  end.

(** [alloc_node(v)]; [a] is the address [new] would return. *)
Definition alloc_node (s : state) (v : T) (a : addr_t) : result state :=
  _ ← load (mem s) (_first s);
  if decide (_first s = _tailcopy s) then
    let tailcopy := _tail s in
    if decide (_first s = tailcopy) then
      Ok (State (<[a := Node (Some v) None]> (mem s)) (_tail s) (_head s) (_first s) tailcopy
            (PAllocated a v) (cons s))
    else recycle s tailcopy v
  else recycle s (_tailcopy s) v.

(** [h->next.store(n)] and [_head.store(n)]. *)
Definition push_link (s : state) (n : addr_t) : result state :=
  mem ← store_next (mem s) (_head s) (Some n);
  Ok (State mem (_tail s) (_head s) (_first s) (_tailcopy s) (PLinked n) (cons s)).

Definition push_head (s : state) (n : addr_t) : state :=
  State (mem s) (_tail s) n (_first s) (_tailcopy s) PIdle (cons s).

(** [pop] up to [v = std::move(next->v)], and [_tail.store(next)]. *)
Definition pop_take (s : state) : result (state * option T) :=
  t ← load (mem s) (_tail s);
  match n_next t with
  | Some next =>
      n ← load (mem s) next;
      mem ← store_v (mem s) next None;
      Ok (State mem (_tail s) (_head s) (_first s) (_tailcopy s) (prod s) (CTaken next), n_v n)
  | None => Ok (s, None)
  end.

Definition pop_store (s : state) (next : addr_t) : state :=
  State (mem s) next (_head s) (_first s) (_tailcopy s) (prod s) CIdle.

(** The next step of the producer, which pushes [v] when it is idle, and of the consumer. *)
Inductive action := Produce (v : T) (a : addr_t) | Consume.

(** The value that became visible, and the answer of [pop]. *)
Definition step (s : state) (a : action) : result (state * option T * option (option T)) :=
  match a with
  | Produce v a =>
      match prod s with
      | PIdle => s ← alloc_node s v a; Ok (s, None, None)
      | PAllocated n v => s ← push_link s n; Ok (s, Some v, None)
      | PLinked n => Ok (push_head s n, None, None)
      end
  | Consume =>
      match cons s with
      | CIdle => '(s, r) ← pop_take s; Ok (s, None, Some r)
      | CTaken next => Ok (pop_store s next, None, None)
      end
  end.

Definition enabled (s : state) (a : action) : bool :=
  match a with Produce _ a => bool_decide (mem s !! a = None) | Consume => true end.

Fixpoint run (s : state) (acts : list action) : result (state * list T * list (option T)) :=
  match acts with
  | [] => Ok (s, [], [])
  | a :: acts =>
      if enabled s a then
        '(s, v, r) ← step s a;
        '(s, vs, rs) ← run s acts;
        Ok (s, match v with Some v => v :: vs | None => vs end,
            match r with Some r => r :: rs | None => rs end)
      else run s acts
  end.

(** ** The invariant

    The list of nodes: [r1] the producer may recycle, [r2] the consumer has left but the
    producer has not noticed, then the dummy [_tail] and the nodes [ns] behind it. *)
Definition nodes (r1 r2 : list addr_t) (s : state) (ns : list addr_t) : list addr_t :=
  r1 ++ r2 ++ _tail s :: ns.

(** The node that is allocated but not in the list. *)
Definition spare (s : state) : list addr_t :=
  match prod s with PAllocated n _ => [n] | _ => [] end.

Record inv (s : state) (r1 r2 ns : list addr_t) (vs : list T) : Prop := {
  iv_nodup : NoDup (nodes r1 r2 s ns ++ spare s);
  iv_dom : dom (mem s) = list_to_set (nodes r1 r2 s ns ++ spare s);
  iv_first : hd_error (nodes r1 r2 s ns) = Some (_first s);
  iv_tailcopy : hd_error (r2 ++ _tail s :: ns) = Some (_tailcopy s);
  iv_head : last (_tail s :: ns) = Some (match prod s with PLinked n => n | _ => _head s end);
  iv_next i a : nodes r1 r2 s ns !! i = Some a →
    n_next <$> mem s !! a = Some (nodes r1 r2 s ns !! S i);
  iv_values : ∃ taken pend, ns = taken ++ pend ∧
    taken = (match cons s with CTaken n => [n] | CIdle => [] end) ∧
    Forall2 (λ n v, n_v <$> mem s !! n = Some (Some v)) pend vs;
  iv_spare n v : prod s = PAllocated n v → mem s !! n = Some (Node (Some v) None);
}.

Lemma spsc_inv_init a : inv (init a) [] [] [] [].
Proof.
  split; cbn; try done.
  - apply NoDup_singleton.
  - rewrite dom_singleton_L. set_solver.
  - intros [|i] b; cbn; [|done]. intros [= <-]. by rewrite lookup_singleton_eq.
  - by exists [], [].
Qed.

Lemma spsc_inv_live s r1 r2 ns vs a :
  inv s r1 r2 ns vs → a ∈ nodes r1 r2 s ns → ∃ n, mem s !! a = Some n.
Proof.
  intros Hi Ha. apply elem_of_dom. rewrite (iv_dom _ _ _ _ _ Hi). set_solver.
Qed.

Lemma spsc_values_change (m m' : heap) ns (vs : list T) :
  Forall2 (λ n v, n_v <$> m !! n = Some (Some v)) ns vs →
  (∀ n, n ∈ ns → n_v <$> m' !! n = n_v <$> m !! n) →
  Forall2 (λ n v, n_v <$> m' !! n = Some (Some v)) ns vs.
Proof. apply MpscQueue.values_change. Qed.

(** The producer notices how far the consumer has come. *)
Lemma reload_tailcopy s r1 r2 ns vs :
  inv s r1 r2 ns vs →
  inv (State (mem s) (_tail s) (_head s) (_first s) (_tail s) (prod s) (cons s)) (r1 ++ r2) [] ns vs.
Proof.
  intros Hi. assert (Hn : nodes (r1 ++ r2) [] s ns = nodes r1 r2 s ns).
  { unfold nodes. by rewrite <- app_assoc. }
  destruct Hi. split; cbn [mem _tail _head _first _tailcopy prod cons]; try done.
  all: change (nodes ?a ?b (State _ _ _ _ _ _ _) ?d) with (nodes a b s d) in *.
  all: change (spare (State _ _ _ _ _ _ _)) with (spare s); by rewrite Hn.
Qed.

Lemma recycle_inv s n r1 r2 ns vs v :
  inv s (n :: r1) r2 ns vs → prod s = PIdle →
  ∃ s', recycle s (_tailcopy s) v = Ok s' ∧ inv s' r1 r2 ns vs ∧ prod s' = PAllocated n v.
Proof.
  intros Hi Hp. pose proof (iv_first _ _ _ _ _ Hi) as [= Hf].
  destruct (spsc_inv_live _ _ _ _ _ n Hi) as [nd Hnd]; [left|].
  pose proof (iv_next _ _ _ _ _ Hi 0 n eq_refl) as Hnx. rewrite Hnd in Hnx. cbn in Hnx.
  assert (Hex : ∃ f', nodes r1 r2 s ns !! 0%nat = Some f').
  { unfold nodes. destruct r1; [|by eexists]. destruct r2; by eexists. }
  destruct Hex as [f' Hf'].
  assert (Hnx' : n_next nd = Some f').
  { injection Hnx as ->. exact Hf'. }
  unfold recycle, store_next, store_v. rewrite <- Hf, (load_ok _ _ _ Hnd).
  cbn [mbind result_bind]. rewrite Hnx'.
  rewrite (load_ok _ n (Node (n_v nd) None)) by by rewrite lookup_insert_eq.
  cbn [mbind result_bind]. rewrite insert_insert_eq. cbn [n_next].
  eexists. split; [reflexivity|]. split; [|done].
  pose proof (iv_nodup _ _ _ _ _ Hi) as Hnd'. unfold spare in Hnd'. rewrite Hp, app_nil_r in Hnd'.
  change (nodes (n :: r1) r2 s ns) with (n :: nodes r1 r2 s ns) in *.
  apply NoDup_cons in Hnd' as [Hnin Hnd'].
  split; cbn [mem _tail _head _first _tailcopy prod cons spare];
    change (nodes ?a ?b (State _ _ _ _ _ _ _) ?d) with (nodes a b s d).
  - apply NoDup_app. split; [done|]. split; [set_solver|apply NoDup_singleton].
  - rewrite dom_insert_L, (iv_dom _ _ _ _ _ Hi). unfold spare. rewrite Hp.
    change (nodes (n :: r1) r2 s ns) with (n :: nodes r1 r2 s ns).
    rewrite !list_to_set_app_L. set_solver.
  - by rewrite <- head_lookup in Hf'.
  - apply (iv_tailcopy _ _ _ _ _ Hi).
  - pose proof (iv_head _ _ _ _ _ Hi) as Hh. by rewrite Hp in Hh.
  - intros i a Ha. rewrite lookup_insert_ne.
    + apply (iv_next _ _ _ _ _ Hi (S i)). exact Ha.
    + intros ->. apply Hnin. by eapply list_elem_of_lookup_2.
  - destruct (iv_values _ _ _ _ _ Hi) as (tk&pd&->&Htk&Hv). exists tk, pd.
    split; [done|]. split; [done|]. eapply spsc_values_change; [exact Hv|].
    intros a Ha. rewrite lookup_insert_ne; [done|]. intros ->. apply Hnin.
    unfold nodes. set_solver.
  - intros n0 v0 [= <- <-]. by rewrite lookup_insert_eq.
Qed.

Lemma alloc_node_inv s r1 r2 ns vs v a :
  inv s r1 r2 ns vs → prod s = PIdle → mem s !! a = None →
  ∃ s' r1' r2' n, alloc_node s v a = Ok s' ∧ inv s' r1' r2' ns vs ∧ prod s' = PAllocated n v.
Proof.
  intros Hi Hp Ha. unfold alloc_node. pose proof (iv_nodup _ _ _ _ _ Hi) as Hnd.
  unfold spare in Hnd. rewrite Hp, app_nil_r in Hnd.
  destruct (spsc_inv_live _ _ _ _ _ (_first s) Hi) as [nd Hl].
  { pose proof (iv_first _ _ _ _ _ Hi) as Hf. rewrite head_lookup in Hf.
    by eapply list_elem_of_lookup_2. }
  rewrite (load_ok _ _ _ Hl). cbn [mbind result_bind].
  pose proof (iv_first _ _ _ _ _ Hi) as Hf. pose proof (iv_tailcopy _ _ _ _ _ Hi) as Htc.
  unfold nodes in Hf, Hnd.
  destruct (decide (_first s = _tailcopy s)) as [Heq|Hne].
  - assert (r1 = []) as ->.
    { destruct r1 as [|x r1]; [done|]. injection Hf as ->. rewrite Heq in Hnd.
      apply NoDup_cons in Hnd as [Hnin _]. exfalso. apply Hnin. apply elem_of_app. right.
      rewrite head_lookup in Htc. by eapply list_elem_of_lookup_2. }
    destruct (decide (_first s = _tail s)) as [Heq'|Hne'].
    + eexists _, [], r2, a. split; [reflexivity|]. split; [|done].
      assert (Hnin : a ∉ nodes [] r2 s ns).
      { intros Hin. destruct (spsc_inv_live _ _ _ _ _ a Hi Hin). congruence. }
      assert (r2 = []) as ->.
      { destruct r2 as [|x r2]; [done|]. injection Hf as ->. rewrite Heq' in Hnd.
        apply NoDup_cons in Hnd as [Hx _]. exfalso. apply Hx. set_solver. }
      split; cbn [mem _tail _head _first _tailcopy prod cons spare];
        change (nodes ?a ?b (State _ _ _ _ _ _ _) ?d) with (nodes a b s d).
      * apply NoDup_app. split; [done|]. split; [set_solver|apply NoDup_singleton].
      * rewrite dom_insert_L, (iv_dom _ _ _ _ _ Hi). unfold spare. rewrite Hp.
        rewrite !list_to_set_app_L. set_solver.
      * apply Hi.
      * done.
      * pose proof (iv_head _ _ _ _ _ Hi) as Hh. by rewrite Hp in Hh.
      * intros i b Hb. rewrite lookup_insert_ne; [by apply (iv_next _ _ _ _ _ Hi)|].
        intros ->. apply Hnin. by eapply list_elem_of_lookup_2.
      * destruct (iv_values _ _ _ _ _ Hi) as (tk&pd&->&Htk&Hv). exists tk, pd.
        split; [done|]. split; [done|]. eapply spsc_values_change; [exact Hv|].
        intros b Hb. rewrite lookup_insert_ne; [done|]. intros ->. apply Hnin.
        unfold nodes. set_solver.
      * intros n0 v0 [= <- <-]. by rewrite lookup_insert_eq.
    + destruct r2 as [|x r2]; [cbn in Hf; congruence|]. injection Hf as Hx.
      pose proof (reload_tailcopy _ _ _ _ _ Hi) as Hi2. cbn [app] in Hi2.
      destruct (recycle_inv _ x r2 [] ns vs v Hi2 Hp) as (s'&Hr&Hi'&Hp').
      exists s', r2, [], x. split; [exact Hr|done].
  - destruct r1 as [|x r1].
    { cbn [app] in Hf. congruence. }
    injection Hf as Hx. destruct (recycle_inv s x r1 r2 ns vs v Hi Hp) as (s'&Hr&Hi'&Hp').
    exists s', r1, r2, x. done.
Qed.

Lemma spsc_push_link_inv s r1 r2 ns vs n v :
  inv s r1 r2 ns vs → prod s = PAllocated n v →
  ∃ s', push_link s n = Ok s' ∧ inv s' r1 r2 (ns ++ [n]) (vs ++ [v]).
Proof.
  intros Hi Hp. pose proof (iv_head _ _ _ _ _ Hi) as Hh. rewrite Hp in Hh.
  pose proof (iv_nodup _ _ _ _ _ Hi) as Hnd. unfold spare in Hnd. rewrite Hp in Hnd.
  assert (Hin : _head s ∈ nodes r1 r2 s ns).
  { unfold nodes. apply last_Some_elem_of in Hh. set_solver. }
  destruct (spsc_inv_live _ _ _ _ _ (_head s) Hi Hin) as [h Hhd].
  assert (Hnn : nodes r1 r2 s (ns ++ [n]) = nodes r1 r2 s ns ++ [n]).
  { unfold nodes. by rewrite app_comm_cons, !app_assoc. }
  assert (Hlast : last (nodes r1 r2 s ns) = Some (_head s)).
  { unfold nodes. by rewrite app_assoc, last_app, Hh. }
  assert (Hne : n ≠ _head s).
  { intros ->. apply NoDup_app in Hnd as (_&Hx&_). apply (Hx _ Hin). left. }
  pose proof (iv_spare _ _ _ _ _ Hi n v Hp) as Hn.
  unfold push_link, store_next. rewrite (load_ok _ _ _ Hhd). cbn [mbind result_bind].
  eexists. split; [reflexivity|].
  split; cbn [mem _tail _head _first _tailcopy prod cons spare];
    change (nodes ?a ?b (State _ _ _ _ _ _ _) ?d) with (nodes a b s d); rewrite ?Hnn, ?app_nil_r.
  - done.
  - rewrite dom_insert_L, (iv_dom _ _ _ _ _ Hi). unfold spare. rewrite Hp. set_solver.
  - pose proof (iv_first _ _ _ _ _ Hi) as Hf. rewrite head_lookup in *.
    by apply lookup_app_l_Some.
  - pose proof (iv_tailcopy _ _ _ _ _ Hi) as Hf. rewrite head_lookup in *.
    rewrite app_comm_cons, app_assoc. by apply lookup_app_l_Some.
  - by rewrite app_comm_cons, last_snoc.
  - intros i a Ha. destruct (decide (a = n)) as [->|Han].
    + rewrite lookup_insert_ne, Hn by done. cbn. f_equal. symmetry.
      apply lookup_ge_None. rewrite length_app. cbn.
      apply lookup_app_Some in Ha as [Ha|[Hle Ha]].
      * exfalso. apply NoDup_app in Hnd as (_&Hx&_). apply (Hx n); [|left].
        by eapply list_elem_of_lookup_2.
      * lia.
    + apply lookup_app_Some in Ha as [Ha|[_ Ha]];
        [|apply list_lookup_singleton_Some in Ha as [_ ->]; done].
      destruct (decide (a = _head s)) as [->|Hah].
      * rewrite lookup_insert_eq. cbn. f_equal. symmetry.
        apply NoDup_app in Hnd as (Hnd&_&_). rewrite last_lookup in Hlast.
        pose proof (NoDup_lookup _ _ _ _ Hnd Ha Hlast) as ->.
        apply lookup_lt_Some in Ha.
        rewrite lookup_app_r by lia. by replace (S (pred _) - _)%nat with 0%nat by lia.
      * rewrite lookup_insert_ne by done. rewrite (iv_next _ _ _ _ _ Hi i a Ha). f_equal.
        symmetry. apply lookup_app_l. apply lookup_lt_Some in Ha as Hlt.
        destruct (decide (S i < length (nodes r1 r2 s ns))%nat); [done|].
        exfalso. apply Hah. rewrite last_lookup in Hlast.
        replace (pred (length (nodes r1 r2 s ns))) with i in Hlast by lia. congruence.
  - destruct (iv_values _ _ _ _ _ Hi) as (tk&pd&->&Htk&Hv). exists tk, (pd ++ [n]).
    split; [by rewrite app_assoc|]. split; [done|].
    apply Forall2_app; [|constructor; [|constructor]].
    + eapply spsc_values_change; [exact Hv|]. intros a _. destruct (decide (a = _head s)) as [->|].
      * by rewrite lookup_insert_eq, Hhd.
      * by rewrite lookup_insert_ne.
    + by rewrite lookup_insert_ne, Hn.
  - done.
Qed.

Lemma push_head_inv s r1 r2 ns vs n :
  inv s r1 r2 ns vs → prod s = PLinked n → inv (push_head s n) r1 r2 ns vs.
Proof.
  intros [] Hp. rewrite Hp in *. unfold spare in *. rewrite Hp in *.
  split; cbn [push_head mem _tail _head _first _tailcopy prod cons spare]; done.
Qed.

Lemma pop_take_inv s r1 r2 ns vs :
  inv s r1 r2 ns vs → cons s = CIdle →
  ∃ s' r, pop_take s = Ok (s', r) ∧
    match r with
    | Some v => ∃ vs', vs = v :: vs' ∧ inv s' r1 r2 ns vs'
    | None => s' = s ∧ vs = []
    end.
Proof.
  intros Hi Hc. destruct (iv_values _ _ _ _ _ Hi) as (tk&pd&Hns&Htk&Hv).
  rewrite Hc in Htk. subst tk. cbn [app] in Hns. subst pd.
  destruct (spsc_inv_live _ _ _ _ _ (_tail s) Hi) as [t Ht]; [unfold nodes; set_solver|].
  unfold pop_take. rewrite (load_ok _ _ _ Ht). cbn [mbind result_bind].
  assert (Hnx : n_next t = ns !! 0%nat).
  { assert (Hl : nodes r1 r2 s ns !! length (r1 ++ r2) = Some (_tail s)).
    { unfold nodes. rewrite app_assoc. by rewrite lookup_app_r, Nat.sub_diag by lia. }
    pose proof (iv_next _ _ _ _ _ Hi _ _ Hl) as Hx. rewrite Ht in Hx. injection Hx as ->.
    unfold nodes. rewrite app_assoc, lookup_app_r by lia.
    by replace (S (length (r1 ++ r2)) - length (r1 ++ r2))%nat with 1%nat by lia. }
  rewrite Hnx. destruct Hv as [|n v ns vs Hn Hv]; [by exists s, None|].
  cbn. destruct (mem s !! n) as [nd|] eqn:End; [|done]. injection Hn as Hnv.
  unfold store_v. rewrite !(load_ok _ _ _ End). cbn [mbind result_bind].
  eexists _, _. split; [reflexivity|]. rewrite Hnv. exists vs. split; [done|].
  assert (Hnext : ∀ a, n_next <$> <[n := Node None (n_next nd)]> (mem s) !! a =
                       n_next <$> mem s !! a).
  { intros a. destruct (decide (a = n)) as [->|]; [by rewrite lookup_insert_eq, End|].
    by rewrite lookup_insert_ne. }
  pose proof (iv_nodup _ _ _ _ _ Hi) as Hnd.
  split; cbn [mem _tail _head _first _tailcopy prod cons];
    change (nodes ?a ?b (State _ _ _ _ _ _ _) ?d) with (nodes a b s d);
    change (spare (State _ _ _ _ _ _ _)) with (spare s); try apply Hi.
  - rewrite dom_insert_L, (iv_dom _ _ _ _ _ Hi).
    assert (n ∈ nodes r1 r2 s (n :: ns)) by (unfold nodes; set_solver). set_solver.
  - intros i a Ha. rewrite Hnext. by apply (iv_next _ _ _ _ _ Hi).
  - exists [n], ns. split; [done|]. split; [done|]. eapply spsc_values_change; [exact Hv|].
    intros a Ha. rewrite lookup_insert_ne; [done|]. intros ->.
    unfold nodes in Hnd. rewrite !NoDup_app, !NoDup_cons in Hnd. naive_solver.
  - intros a v0 Hp. rewrite lookup_insert_ne; [by apply (iv_spare _ _ _ _ _ Hi)|].
    intros ->. unfold nodes, spare in Hnd. rewrite Hp in Hnd.
    apply NoDup_app in Hnd as (_&Hx&_). apply (Hx a); set_solver.
Qed.

Lemma pop_store_inv s r1 r2 ns vs n :
  inv s r1 r2 ns vs → cons s = CTaken n →
  ∃ ns', ns = n :: ns' ∧ inv (pop_store s n) r1 (r2 ++ [_tail s]) ns' vs.
Proof.
  intros Hi Hc. destruct (iv_values _ _ _ _ _ Hi) as (tk&pd&Hns&Htk&Hv).
  rewrite Hc in Htk. subst tk. exists pd. split; [done|]. subst ns. cbn [app] in *.
  assert (Hn : nodes r1 (r2 ++ [_tail s]) (pop_store s n) pd = nodes r1 r2 s (n :: pd)).
  { unfold nodes. cbn [pop_store _tail]. by rewrite <- app_assoc. }
  split; rewrite ?Hn; change (spare (pop_store s n)) with (spare s);
    cbn [pop_store mem _tail _head _first _tailcopy prod cons]; try apply Hi.
  - rewrite <- app_assoc. apply (iv_tailcopy _ _ _ _ _ Hi).
  - by exists [], pd.
Qed.

Lemma spsc_run_inv acts : ∀ s r1 r2 ns vs,
  inv s r1 r2 ns vs →
  ∃ s' r1' r2' ns' vs' pushed rs, run s acts = Ok (s', pushed, rs) ∧ inv s' r1' r2' ns' vs' ∧
    vs ++ pushed = omap id rs ++ vs'.
Proof.
  induction acts as [|a acts IH]; intros s r1 r2 ns vs Hi; cbn [run].
  { exists s, r1, r2, ns, vs, [], []. rewrite app_nil_r. auto. }
  destruct (enabled s a) eqn:Hen; [|by eapply IH].
  destruct a as [v a|]; cbn [enabled step] in *.
  - apply bool_decide_eq_true in Hen. destruct (prod s) as [|n w|n] eqn:Hp.
    + destruct (alloc_node_inv s r1 r2 ns vs v a Hi Hp Hen) as (s1&r3&r4&n&->&Hi1&_).
      cbn [mbind result_bind].
      destruct (IH _ _ _ _ _ Hi1) as (s'&?&?&?&?&?&?&->&?&?). cbn [mbind result_bind]. eauto 12.
    + destruct (spsc_push_link_inv s r1 r2 ns vs n w Hi Hp) as (s1&->&Hi1). cbn [mbind result_bind].
      destruct (IH _ _ _ _ _ Hi1) as (s'&r3&r4&ns'&vs'&p&rs&->&Hi'&He). cbn [mbind result_bind].
      exists s', r3, r4, ns', vs', (w :: p), rs. split; [done|]. split; [done|].
      by rewrite <- He, <- app_assoc.
    + cbn [mbind result_bind].
      destruct (IH _ _ _ _ _ (push_head_inv _ _ _ _ _ _ Hi Hp)) as (s'&?&?&?&?&?&?&->&?&?).
      cbn [mbind result_bind]. eauto 12.
  - destruct (cons s) as [|n] eqn:Hc.
    + destruct (pop_take_inv s r1 r2 ns vs Hi Hc) as (s1&r&->&Hr). cbn [mbind result_bind].
      destruct r as [v|].
      * destruct Hr as (vs1&->&Hi1).
        destruct (IH _ _ _ _ _ Hi1) as (s'&r3&r4&ns'&vs'&p&rs&->&Hi'&He). cbn [mbind result_bind].
        exists s', r3, r4, ns', vs', p, (Some v :: rs). split; [done|]. split; [done|].
        cbn. by rewrite He.
      * destruct Hr as [-> ->].
        destruct (IH _ _ _ _ _ Hi) as (s'&r3&r4&ns'&vs'&p&rs&->&Hi'&He). cbn [mbind result_bind].
        exists s', r3, r4, ns', vs', p, (None :: rs). auto.
    + cbn [mbind result_bind]. destruct (pop_store_inv _ _ _ _ _ _ Hi Hc) as (ns'&_&Hi1).
      destruct (IH _ _ _ _ _ Hi1) as (s'&?&?&?&?&?&?&->&?&?). cbn [mbind result_bind]. eauto 12.
Qed.
End spsc.
End SpscQueue.

(** ** Properties *)

(** C13: the queue of many producers is a FIFO queue.  However the exchanges and links of
    the producers and the pops of the consumer interleave, and whatever addresses the
    allocator returns, nodes already freed and handed out again included: no step touches
    a node that is not allocated; the values popped, followed by those still in the queue,
    are the values pushed, in the order of the exchanges; one node more than there are
    values is allocated; and once every producer has linked its node, popping until the
    queue is empty gives the remaining values and leaves the dummy node. *)
Theorem mpsc_is_fifo {T : Type} (a : addr_t) (acts : list (MpscQueue.action (T := T))) :
  ∃ s pushed rs left,
    MpscQueue.run (MpscQueue.init a) acts = Ok (s, pushed, rs) ∧
    pushed = omap id rs ++ left ∧
    size (MpscQueue.mem s) = S (length left) ∧
    (MpscQueue.linking s = [] →
     ∃ s', MpscQueue.drain (S (length left)) s = Ok (s', left) ∧ size (MpscQueue.mem s') = 1%nat).
Proof.
  destruct (MpscQueue.run_inv acts _ _ _ (MpscQueue.inv_init a))
    as (s&ns&left&pushed&rs&->&Hi&He).
  exists s, pushed, rs, left. split; [done|]. split; [done|]. split.
  - rewrite <- size_dom, (MpscQueue.iv_dom _ _ _ Hi), size_list_to_set by apply Hi.
    cbn. f_equal. by eapply Forall2_length, Hi.
  - intros Hl. eapply MpscQueue.drain_inv; [done|done|lia].
Qed.

(** C14: the queue of one producer is a FIFO queue that never overwrites a value.  However
    the steps of the producer and of the consumer interleave, no step touches a node that
    is not allocated, although the producer takes back the nodes the consumer has passed;
    the values popped, followed by those still in the queue, are the values pushed, in
    order; and the consumer, when it is at rest, is told that the queue is empty only when
    it is. *)
Theorem spsc_is_fifo {T : Type} (a : addr_t) (acts : list (SpscQueue.action (T := T))) :
  ∃ s pushed rs left,
    SpscQueue.run (SpscQueue.init a) acts = Ok (s, pushed, rs) ∧
    pushed = omap id rs ++ left ∧
    (SpscQueue.cons s = SpscQueue.CIdle →
     ∃ s', SpscQueue.pop_take s = Ok (s', head left)).
Proof.
  destruct (SpscQueue.spsc_run_inv acts _ _ _ _ _ (SpscQueue.spsc_inv_init a))
    as (s&r1&r2&ns&left&pushed&rs&->&Hi&He).
  exists s, pushed, rs, left. split; [done|]. split; [done|]. intros Hc.
  destruct (SpscQueue.pop_take_inv _ _ _ _ _ Hi Hc) as (s'&r&->&Hr). exists s'.
  destruct r as [v|]; [by destruct Hr as (vs'&->&_)|]. by destruct Hr as [_ ->].
Qed.
