(* ===== verification/Channel.v ===== *)
(** * Channels

    src/src/thread/ChannelEntity.h and Channel.h: a bounded FIFO queue between threads, a
    monitor with the condition variables [_empty_cond] and [_full_cond].

    A thread runs from the moment it has the mutex until it returns or waits; that is one
    step.  [notify_one] wakes one of the threads that wait, [notify_all] all of them, and
    a thread may also wake up for no reason; a woken thread takes the mutex later, after
    any other.  Memory may be exhausted: each [push_back] on [_data] asks an oracle, while
    [_reserved_data] has its one slot reserved and never allocates. *)
From S2P Require Import Prelude.

Section channel.
Context {T : Type}.

Record chan := Chan {
  _data : list T;
  _reserved_data : list T;
  _shared_count : nat;
  _oom_flag : bool;
  _closed : bool;
  _capacity : Z;
}.

(** [std::numeric_limits<size_t>::max()]. *)
Definition unbounded : Z := 2 ^ 64 - 1.
Definition ChannelEntity : chan := Chan [] [] 0 false false unbounded.
Definition size_unlocked (c : chan) : nat := (length (_data c) + length (_reserved_data c))%nat.
Definition full_unlocked (c : chan) : bool := _capacity c <=? Z.of_nat (size_unlocked c).
Definition empty_unlocked (c : chan) : bool :=
  bool_decide (_data c = []) && bool_decide (_reserved_data c = []).

(** The constructor with a capacity, and [set_capacity]. *)
Definition set_capacity (c : chan) (capacity : Z) : result chan :=
  _ ← SCHECK (1 <=? capacity);
  Ok (Chan (_data c) (_reserved_data c) (_shared_count c) (_oom_flag c) (_closed c) capacity).
Definition ChannelEntity_of (capacity : Z) : result chan := set_capacity ChannelEntity capacity.

Definition open (c : chan) : chan :=
  Chan (_data c) (_reserved_data c) (_shared_count c) (_oom_flag c) false (_capacity c).
Definition shared_open (c : chan) : chan :=
  Chan (_data c) (_reserved_data c) (S (_shared_count c)) (_oom_flag c) false (_capacity c).

(** [close]: the channel, and whether it notifies everybody. *)
Definition close (c : chan) : chan * bool :=
  let n := pred (_shared_count c) in
  if negb (_shared_count c =? 0)%nat && negb (n =? 0)%nat then
    (Chan (_data c) (_reserved_data c) n (_oom_flag c) (_closed c) (_capacity c), false)
  else (Chan (_data c) (_reserved_data c) n (_oom_flag c) true (_capacity c), true).

(** [read_unlocked]: the value, and whether it notifies [_full_cond]. *)
Definition read_unlocked (c : chan) : chan * option (T * bool) :=
  if empty_unlocked c then (c, None)
  else
    let oom := if _closed c then _oom_flag c else false in
    match _reserved_data c, _data c with
    | v :: _, d => (Chan d (removelast (_reserved_data c)) (_shared_count c) oom (_closed c)
                      (_capacity c), Some (v, negb (_closed c)))
    | [], v :: d => (Chan d [] (_shared_count c) oom (_closed c) (_capacity c),
                     Some (v, negb (_closed c)))
    | [], [] => (c, None)
    end.

(** [write_unlocked] and [write_move_unlocked]: [None] is [std::bad_alloc]; a value that
    was written notifies [_empty_cond]. *)
Definition write_unlocked (c : chan) (v : T) (alloc_ok : bool) : option (chan * bool) :=
  if _closed c || full_unlocked c then Some (c, false)
  else if empty_unlocked c then
    Some (Chan (_data c) (_reserved_data c ++ [v]) (_shared_count c) (_oom_flag c) (_closed c)
            (_capacity c), true)
  else if alloc_ok then
    Some (Chan (_data c ++ [v]) (_reserved_data c) (_shared_count c) (_oom_flag c) (_closed c)
            (_capacity c), true)
  else None.

Definition set_oom (c : chan) : chan :=
  Chan (_data c) (_reserved_data c) (_shared_count c) true (_closed c) (_capacity c).

(** What a thread is doing: [n] elements still to read, [vs] still to write. *)
Inductive wait := Waiting | Woken.
Inductive thread := Idle | Reading (n : nat) (w : wait) | Writing (vs : list T) (w : wait).

(** The outcome of a critical section: values taken and put, notifications of
    [_full_cond] and of [_empty_cond], and what the thread does next. *)
Record section := Section_ {
  s_chan : chan;
  s_got : list T;
  s_put : list T;
  s_full : nat;
  s_empty : nat;
  s_next : thread;
}.

Definition no_effect (c : chan) (t : thread) : section := Section_ c [] [] 0 0 t.

(** [read(vals, n)], and [read(val)] for [n = 1]. *)
Fixpoint read (c : chan) (n : nat) : section :=
  match n with
  | O => no_effect c Idle
  | S n' =>
      if negb (empty_unlocked c) || _closed c then
        match read_unlocked c with
        | (c, None) => no_effect c Idle
        | (c, Some (v, notify)) =>
            let s := read c n' in
            Section_ (s_chan s) (v :: s_got s) (s_put s) (Nat.b2n notify + s_full s) (s_empty s)
              (s_next s)
        end
      else no_effect c (Reading (S n') Waiting)
  end.

(** [write(vals, n)], [write_move(vals, n)] and [write(val)]: [safe_write_unlocked] for each
    value.  [oracle] says which allocations succeed; by default they do. *)
Fixpoint write (c : chan) (vs : list T) (oracle : list bool) : section :=
  match vs with
  | [] => no_effect c Idle
  | v :: vs' =>
      if (negb (_oom_flag c) && negb (full_unlocked c)) || _closed c then
        match write_unlocked c v (default true (head oracle)) with
        | None => no_effect (set_oom c) (Writing (v :: vs') Waiting)
        | Some (c, false) => no_effect c Idle
        | Some (c, true) =>
            let s := write c vs' (tail oracle) in
            Section_ (s_chan s) (s_got s) (v :: s_put s) (s_full s) (S (s_empty s)) (s_next s)
        end
      else no_effect c (Writing (v :: vs') Waiting)
  end.

Definition try_read (c : chan) : section :=
  if empty_unlocked c then no_effect c Idle
  else match read_unlocked c with
       | (c, None) => no_effect c Idle
       | (c, Some (v, notify)) => Section_ c [v] [] (Nat.b2n notify) 0 Idle
       end.

Definition try_write (c : chan) (v : T) (alloc_ok : bool) : section :=
  if _closed c || full_unlocked c then no_effect c Idle
  else match write_unlocked c v alloc_ok with
       | None | Some (_, false) => no_effect c Idle
       | Some (c, true) => Section_ c [] [v] 0 1 Idle
       end.

(** ** The monitor *)
Record monitor := Monitor { m_chan : chan; m_threads : list thread }.

Definition is_waiting_reader (t : thread) : bool :=
  match t with Reading _ Waiting => true | _ => false end.
Definition is_waiting_writer (t : thread) : bool :=
  match t with Writing _ Waiting => true | _ => false end.
Definition wake (t : thread) : thread :=
  match t with Reading n _ => Reading n Woken | Writing vs _ => Writing vs Woken | Idle => Idle end.

(** [notify_one] on the condition variable of the threads that satisfy [p], [n] times. *)
Inductive notify (p : thread → bool) : nat → list thread → list thread → Prop :=
  | notify_done ts : notify p 0 ts ts
  | notify_nobody n ts ts' : Forall (λ t, p t = false) ts → notify p n ts ts' →
      notify p (S n) ts ts'
  | notify_wake n ts ts' i t : ts !! i = Some t → p t = true →
      notify p n (<[i := wake t]> ts) ts' → notify p (S n) ts ts'.

Definition notify_all (ts : list thread) : list thread := wake <$> ts.

(** What a thread that gets the mutex executes. *)
Inductive call :=
  | CRead (n : nat)
  | CTryRead
  | CWrite (vs : list T) (oracle : list bool)
  | CTryWrite (v : T) (alloc_ok : bool)
  | CResume (oracle : list bool).    (** it was waiting *)

Definition execute (c : chan) (t : thread) (k : call) : option section :=
  match k, t with
  | CRead n, Idle => Some (read c n)
  | CTryRead, Idle => Some (try_read c)
  | CWrite vs oracle, Idle => Some (write c vs oracle)
  | CTryWrite v ok, Idle => Some (try_write c v ok)
  | CResume _, Reading n _ => Some (read c n)
  | CResume oracle, Writing vs _ => Some (write c vs oracle)
  | _, _ => None
  end.

(** One step, with the values it put and the values it took. *)
Inductive label := LCall (i : nat) (k : call) | LOpen | LSharedOpen | LClose | LCapacity (n : Z).

Inductive step : monitor → label → list T → list T → monitor → Prop :=
  | step_call c ts i t k s ts1 ts2 :
      ts !! i = Some t → execute c t k = Some s →
      notify is_waiting_writer (s_full s) (<[i := Idle]> ts) ts1 →
      notify is_waiting_reader (s_empty s) ts1 ts2 →
      step (Monitor c ts) (LCall i k) (s_put s) (s_got s)
        (Monitor (s_chan s) (<[i := s_next s]> ts2))
  | step_open c ts : step (Monitor c ts) LOpen [] [] (Monitor (open c) ts)
  | step_shared_open c ts : step (Monitor c ts) LSharedOpen [] [] (Monitor (shared_open c) ts)
  | step_close c ts :
      step (Monitor c ts) LClose [] []
        (Monitor (close c).1 (if (close c).2 then notify_all ts else ts))
  | step_set_capacity c c' ts n :
      set_capacity c n = Ok c' → step (Monitor c ts) (LCapacity n) [] [] (Monitor c' ts).

Inductive steps : monitor → list label → list T → list T → monitor → Prop :=
  | steps_refl m : steps m [] [] [] m
  | steps_snoc m1 ls put1 got1 m2 l put2 got2 m3 :
      steps m1 ls put1 got1 m2 → step m2 l put2 got2 m3 →
      steps m1 (ls ++ [l]) (put1 ++ put2) (got1 ++ got2) m3.

(** ** Lemmas: the values *)
Definition content (c : chan) : list T := _reserved_data c ++ _data c.

Record chan_ok (c : chan) : Prop := {
  co_reserved : (length (_reserved_data c) ≤ 1)%nat;
  co_capacity : 1 ≤ _capacity c;
}.

Lemma size_content c : size_unlocked c = length (content c).
Proof. unfold size_unlocked, content. rewrite length_app. lia. Qed.

Lemma empty_content c : empty_unlocked c = bool_decide (content c = []).
Proof. unfold empty_unlocked, content. by destruct (_reserved_data c), (_data c). Qed.

Lemma full_spec c : full_unlocked c = (_capacity c <=? Z.of_nat (length (content c))).
Proof. unfold full_unlocked. by rewrite size_content. Qed.

(** What stays the same in every critical section. *)
Definition same_config (c c' : chan) : Prop :=
  _closed c' = _closed c ∧ _capacity c' = _capacity c ∧ _shared_count c' = _shared_count c.

Lemma read_unlocked_spec c :
  chan_ok c →
  match content c with
  | [] => read_unlocked c = (c, None)
  | v :: vs => ∃ c', read_unlocked c = (c', Some (v, negb (_closed c))) ∧ content c' = vs ∧
                     chan_ok c' ∧ same_config c c' ∧
                     _oom_flag c' = (if _closed c then _oom_flag c else false)
  end.
Proof.
  intros [Hr Hc]. unfold read_unlocked. rewrite empty_content. unfold content in *.
  destruct c as [d [|v [|w r]] sh oom cl cap]; cbn in *; [|clear Hr|lia].
  - destruct d as [|v d]; [done|]. cbn. eexists. split; [reflexivity|].
    split; [done|]. split; [by split; cbn|]. done.
  - eexists. split; [reflexivity|]. split; [done|]. split; [split; cbn; [lia|done]|]. done.
Qed.

Lemma write_unlocked_spec c v ok :
  chan_ok c →
  match write_unlocked c v ok with
  | None => _closed c = false ∧ full_unlocked c = false ∧ content c ≠ [] ∧ ok = false
  | Some (c', false) => c' = c ∧ (_closed c || full_unlocked c) = true
  | Some (c', true) => _closed c = false ∧ full_unlocked c = false ∧
      content c' = content c ++ [v] ∧ chan_ok c' ∧ same_config c c' ∧ _oom_flag c' = _oom_flag c
  end.
Proof.
  intros [Hr Hc]. unfold write_unlocked. rewrite empty_content.
  destruct (_closed c) eqn:Ecl; cbn [orb]; [done|].
  destruct (full_unlocked c) eqn:Ef; [done|].
  case_bool_decide as He.
  - unfold content in *. apply app_eq_nil in He as [He1 He2]. rewrite He1, He2 in *.
    repeat split; cbn in *; done || lia.
  - destruct ok; [|done]. unfold content in *. cbn. rewrite <- app_assoc.
    repeat split; cbn in *; done || lia.
Qed.

(** The effect of a critical section on the values. *)
Record section_ok (c : chan) (s : section) : Prop := {
  so_values : content c ++ s_put s = s_got s ++ content (s_chan s);
  so_ok : chan_ok (s_chan s);
  so_config : same_config c (s_chan s);
  so_full : s_full s = (if _closed c then 0%nat else length (s_got s));
  so_empty : s_empty s = length (s_put s);
  so_bound : s_put s ≠ [] → Z.of_nat (length (content (s_chan s))) ≤ _capacity c;
}.

Lemma no_effect_ok c t : chan_ok c → section_ok c (no_effect c t).
Proof. intros. split; cbn; try done; [by rewrite app_nil_r|by destruct (_closed c)]. Qed.

Lemma read_ok n : ∀ c, chan_ok c → section_ok c (read c n) ∧ s_put (read c n) = [] ∧
  (_oom_flag c = false → _oom_flag (s_chan (read c n)) = false).
Proof.
  induction n as [|n IH]; intros c Hc; cbn [read]; [by split; [apply no_effect_ok|]|].
  destruct (negb (empty_unlocked c) || _closed c); [|by split; [apply no_effect_ok|]].
  pose proof (read_unlocked_spec c Hc) as Hr. destruct (content c) as [|v vs] eqn:Ec.
  { rewrite Hr. by split; [apply no_effect_ok|]. }
  destruct Hr as (c'&->&Hc'&Hok&(Hcl&Hcap&Hsh)&Hoom).
  destruct (IH c' Hok) as ([Hv Hok2 (Hcl2&Hcap2&Hsh2) Hf He Hb]&Hp&Ho).
  cbn [s_put s_chan]. split; [|split; [done|]].
  - split; cbn [s_chan s_got s_put s_full s_empty]; try done.
    + rewrite Ec. rewrite <- Hc'. by rewrite <- app_comm_cons, Hv.
    + unfold same_config. rewrite Hcl2, Hcap2, Hsh2. done.
    + rewrite Hf, Hcl. by destruct (_closed c).
  - intros Hf0. apply Ho. rewrite Hoom. by destruct (_closed c).
Qed.

Lemma write_ok vs : ∀ c oracle, chan_ok c → section_ok c (write c vs oracle) ∧
  s_got (write c vs oracle) = [] ∧
  (_oom_flag c = false → Forall (.= true) oracle → _oom_flag (s_chan (write c vs oracle)) = false).
Proof.
  induction vs as [|v vs IH]; intros c oracle Hc; cbn [write]; [by split; [apply no_effect_ok|]|].
  destruct ((negb (_oom_flag c) && negb (full_unlocked c)) || _closed c);
    [|by split; [apply no_effect_ok|]].
  pose proof (write_unlocked_spec c v (default true (head oracle)) Hc) as Hw.
  destruct (write_unlocked c v (default true (head oracle))) as [[c' []]|].
  - destruct Hw as (Hncl&Hnf&Hct&Hok&(Hcl&Hcap&Hsh)&Hoom).
    destruct (IH c' (tail oracle) Hok) as ([Hv Hok2 (Hcl2&Hcap2&Hsh2) Hf He Hb]&Hp&Ho).
    cbn [s_got s_chan]. split; [|split; [done|]].
    + split; cbn [s_chan s_got s_put s_full s_empty]; try done.
      * rewrite Hct, <- app_assoc in Hv. done.
      * unfold same_config. by rewrite Hcl2, Hcap2, Hsh2.
      * by rewrite Hf, Hcl.
      * cbn. by rewrite He.
      * intros _. destruct (s_put (write c' vs (tail oracle))) eqn:Ep.
        -- rewrite app_nil_r, Hp in Hv. cbn in Hv. rewrite <- Hv, Hct, length_app.
           rewrite full_spec in Hnf. apply Z.leb_gt in Hnf. cbn. lia.
        -- rewrite <- Hcap. by apply Hb.
    + intros Hf0 HF. apply Ho; [by rewrite Hoom|]. by destruct oracle; [|inversion HF].
  - destruct Hw as [-> _]. by split; [apply no_effect_ok|].
  - destruct Hw as (_&_&_&Hof). split; [|split; [done|]].
    + destruct (no_effect_ok c Idle Hc) as [? [] ? ? ? ?]. split; try done.
    + intros _ HF. by destruct oracle as [|b oracle]; inversion HF; subst; cbn in Hof.
Qed.

Lemma try_read_ok c : chan_ok c → section_ok c (try_read c) ∧ s_put (try_read c) = [] ∧
  (_oom_flag c = false → _oom_flag (s_chan (try_read c)) = false).
Proof.
  intros Hc. unfold try_read. pose proof (read_unlocked_spec c Hc) as Hr.
  destruct (empty_unlocked c); [by split; [apply no_effect_ok|]|].
  destruct (content c) as [|v vs] eqn:Ec; [rewrite Hr; by split; [apply no_effect_ok|]|].
  destruct Hr as (c'&->&Hc'&Hok&Hcfg&Hoom). cbn [s_put s_chan].
  split; [|split; [done|intros Ho; rewrite Hoom, Ho; by destruct (_closed c)]].
  split; cbn [s_chan s_got s_put s_full s_empty]; try done.
  - by rewrite Ec, Hc', app_nil_r.
  - by destruct (_closed c).
Qed.

Lemma try_write_ok c v ok : chan_ok c → section_ok c (try_write c v ok) ∧
  s_got (try_write c v ok) = [] ∧
  (_oom_flag c = false → _oom_flag (s_chan (try_write c v ok)) = false).
Proof.
  intros Hc. unfold try_write. pose proof (write_unlocked_spec c v ok Hc) as Hw.
  destruct (_closed c || full_unlocked c); [by split; [apply no_effect_ok|]|].
  destruct (write_unlocked c v ok) as [[c' []]|]; [|by split; [apply no_effect_ok|]..].
  destruct Hw as (Hncl&Hnf&Hct&Hok&Hcfg&Hoom). cbn [s_got s_chan].
  split; [|split; [done|intros; by rewrite Hoom]].
  split; cbn [s_chan s_got s_put s_full s_empty]; try done.
  - by rewrite Hncl.
  - intros _. rewrite Hct, length_app. rewrite full_spec in Hnf. apply Z.leb_gt in Hnf. cbn. lia.
Qed.

Lemma execute_ok c t k s : chan_ok c → execute c t k = Some s → section_ok c s.
Proof.
  intros Hc He. unfold execute in He. destruct k, t; simplify_eq.
  - by apply read_ok.
  - by apply try_read_ok.
  - by apply write_ok.
  - by apply try_write_ok.
  - by apply read_ok.
  - by apply write_ok.
Qed.

Lemma step_values m l put got m' :
  step m l put got m' → chan_ok (m_chan m) →
  chan_ok (m_chan m') ∧ content (m_chan m) ++ put = got ++ content (m_chan m') ∧
  (put ≠ [] → Z.of_nat (length (content (m_chan m'))) ≤ _capacity (m_chan m')).
Proof.
  intros Hs Hc. destruct Hs as [c ts i t k s ts1 ts2 Hi He _ _|c ts|c ts|c ts|c c' ts n Hn];
    cbn [m_chan] in *.
  - destruct (execute_ok c t k s Hc He) as [? ? (?&Hcap&?) ? ? Hb]. rewrite Hcap. auto.
  - destruct Hc. repeat split; try done. by rewrite app_nil_r.
  - destruct Hc. repeat split; try done. by rewrite app_nil_r.
  - unfold close. destruct Hc. case_match; repeat split; cbn; try done; by rewrite app_nil_r.
  - unfold set_capacity in Hn. apply bind_ok in Hn as ([]&Hchk&[= <-]). destruct Hc.
    unfold SCHECK in Hchk. case_match eqn:El; [|done]. apply Z.leb_le in El.
    repeat split; try done. by rewrite app_nil_r.
Qed.

Lemma steps_values m ls put got m' :
  steps m ls put got m' → chan_ok (m_chan m) →
  chan_ok (m_chan m') ∧ content (m_chan m) ++ put = got ++ content (m_chan m').
Proof.
  intros Hs Hc. induction Hs as [|m1 ls put1 got1 m2 l put2 got2 m3 _ IH Hst];
    [by rewrite app_nil_r|].
  destruct (IH Hc) as [Hc2 Hv]. destruct (step_values _ _ _ _ _ Hst Hc2) as (Hc3&Hv2&_).
  split; [done|]. by rewrite app_assoc, Hv, <- app_assoc, Hv2, app_assoc.
Qed.

(** ** Lemmas: the waiting threads *)
Definition is_woken_reader (t : thread) : bool :=
  match t with Reading _ Woken => true | _ => false end.
Definition is_woken_writer (t : thread) : bool :=
  match t with Writing _ Woken => true | _ => false end.

(** Notifying moves threads from waiting to woken, one class only. *)
Lemma notify_writers n ts ts' :
  notify is_waiting_writer n ts ts' →
  let k := Z.min (Z.of_nat n) (cnt is_waiting_writer ts) in
  cnt is_waiting_writer ts' = cnt is_waiting_writer ts - k ∧
  cnt is_woken_writer ts' = cnt is_woken_writer ts + k ∧
  cnt is_waiting_reader ts' = cnt is_waiting_reader ts ∧
  cnt is_woken_reader ts' = cnt is_woken_reader ts ∧
  (∀ i, ts !! i = Some Idle → ts' !! i = Some Idle).
Proof.
  induction 1 as [ts|n ts ts' Hz Hn IH|n ts ts' i t Hi Hp Hn IH]; cbv zeta in *.
  - pose proof (cnt_nonneg is_waiting_writer ts). repeat split; try done; lia.
  - pose proof (cnt_zero _ _ Hz) as Hz'. destruct IH as (?&?&?&?&?).
    repeat split; try done; lia.
  - destruct t as [| |vs []]; try done. destruct IH as (H1&H2&H3&H4&H5). cbn [wake] in *.
    rewrite !(cnt_insert _ _ _ _ _ Hi) in *. cbn in *.
    pose proof (cnt_nonneg is_waiting_writer (<[i:=Writing vs Woken]> ts)) as Hnn.
    rewrite (cnt_insert _ _ _ _ _ Hi) in Hnn. cbn in Hnn.
    split; [lia|]. split; [lia|]. split; [lia|]. split; [lia|].
    intros j Hj. apply H5. rewrite list_lookup_insert_ne; [done|]. intros ->. congruence.
Qed.

Lemma notify_readers n ts ts' :
  notify is_waiting_reader n ts ts' →
  let k := Z.min (Z.of_nat n) (cnt is_waiting_reader ts) in
  cnt is_waiting_reader ts' = cnt is_waiting_reader ts - k ∧
  cnt is_woken_reader ts' = cnt is_woken_reader ts + k ∧
  cnt is_waiting_writer ts' = cnt is_waiting_writer ts ∧
  cnt is_woken_writer ts' = cnt is_woken_writer ts ∧
  (∀ i, ts !! i = Some Idle → ts' !! i = Some Idle).
Proof.
  induction 1 as [ts|n ts ts' Hz Hn IH|n ts ts' i t Hi Hp Hn IH]; cbv zeta in *.
  - pose proof (cnt_nonneg is_waiting_reader ts). repeat split; try done; lia.
  - pose proof (cnt_zero _ _ Hz) as Hz'. destruct IH as (?&?&?&?&?).
    repeat split; try done; lia.
  - destruct t as [|m []|]; try done. destruct IH as (H1&H2&H3&H4&H5). cbn [wake] in *.
    rewrite !(cnt_insert _ _ _ _ _ Hi) in *. cbn in *.
    pose proof (cnt_nonneg is_waiting_reader (<[i:=Reading m Woken]> ts)) as Hnn.
    rewrite (cnt_insert _ _ _ _ _ Hi) in Hnn. cbn in Hnn.
    split; [lia|]. split; [lia|]. split; [lia|]. split; [lia|].
    intros j Hj. apply H5. rewrite list_lookup_insert_ne; [done|]. intros ->. congruence.
Qed.

(** When a critical section ends in a wait, and when it gets something done. *)
Lemma read_wait n : ∀ c, chan_ok c →
  (s_next (read c n) = Idle ∨ ∃ m, s_next (read c n) = Reading (S m) Waiting ∧
     content (s_chan (read c n)) = [] ∧ _closed c = false) ∧
  (n ≠ 0%nat → content c ≠ [] → s_got (read c n) ≠ []).
Proof.
  induction n as [|n IH]; intros c Hc; cbn [read]; [by split; [left|]|].
  rewrite empty_content. case_bool_decide as He; cbn [negb orb].
  - destruct (_closed c) eqn:Ecl; [|by split; [right; by exists n|]].
    pose proof (read_unlocked_spec c Hc) as Hr. rewrite He in Hr. rewrite Hr.
    by split; [left|].
  - pose proof (read_unlocked_spec c Hc) as Hr. destruct (content c) as [|v vs]; [done|].
    destruct Hr as (c'&->&Hc'&Hok&(Hcl&_)&_). cbn [s_next s_chan s_got]. split; [|done].
    destruct (IH c' Hok) as [Hn _]. by rewrite Hcl in Hn.
Qed.

Lemma write_wait vs : ∀ c oracle, chan_ok c → _oom_flag c = false → Forall (.= true) oracle →
  (s_next (write c vs oracle) = Idle ∨ ∃ v vs', s_next (write c vs oracle) = Writing (v :: vs') Waiting ∧
     full_unlocked (s_chan (write c vs oracle)) = true ∧ _closed c = false) ∧
  (vs ≠ [] → _closed c = false → full_unlocked c = false → s_put (write c vs oracle) ≠ []).
Proof.
  induction vs as [|v vs IH]; intros c oracle Hc Ho HF; cbn [write]; [by split; [left|]|].
  rewrite Ho. cbn [negb andb].
  pose proof (write_unlocked_spec c v (default true (head oracle)) Hc) as Hw.
  destruct (full_unlocked c) eqn:Ef, (_closed c) eqn:Ecl; cbn [negb orb].
  - destruct (write_unlocked c v (default true (head oracle))) as [[c' []]|];
      [by destruct Hw|by split; [left|]|by destruct Hw as (?&_)].
  - split; [|done]. right. exists v, vs. auto.
  - destruct (write_unlocked c v (default true (head oracle))) as [[c' []]|];
      [by destruct Hw|by split; [left|]|by destruct Hw as (?&_)].
  - destruct (write_unlocked c v (default true (head oracle))) as [[c' []]|]; [| |].
    + destruct Hw as (_&_&_&Hok&(Hcl&_)&Hoom). cbn [s_next s_chan s_put]. split; [|done].
      destruct (IH c' (tail oracle) Hok) as [Hn _]; [by rewrite Hoom|by destruct oracle; inversion HF|].
      rewrite Hcl in Hn. by rewrite Ecl in Hn.
    + destruct Hw as [-> Hx]. by rewrite orb_false_l in Hx.
    + destruct Hw as (_&_&_&Hof). destruct oracle as [|b o]; inversion HF; subst; cbn in Hof; done.
Qed.

(** ** No wake-up is lost *)
Definition thread_ok (t : thread) : Prop :=
  match t with Idle => True | Reading n _ => n ≠ 0%nat | Writing vs _ => vs ≠ [] end.

Record wake_inv (m : monitor) : Prop := {
  wi_chan : chan_ok (m_chan m);
  wi_oom : _oom_flag (m_chan m) = false;
  wi_bound : Z.of_nat (length (content (m_chan m))) ≤ _capacity (m_chan m);
  wi_threads : Forall thread_ok (m_threads m);
  wi_closed : _closed (m_chan m) = true →
    cnt is_waiting_reader (m_threads m) = 0 ∧ cnt is_waiting_writer (m_threads m) = 0;
  wi_readers : 0 < cnt is_waiting_reader (m_threads m) →
    Z.of_nat (length (content (m_chan m))) ≤ cnt is_woken_reader (m_threads m);
  wi_writers : 0 < cnt is_waiting_writer (m_threads m) →
    _capacity (m_chan m) - Z.of_nat (length (content (m_chan m))) ≤
    cnt is_woken_writer (m_threads m);
}.

Lemma notify_thread_ok p n ts ts' :
  notify p n ts ts' → Forall thread_ok ts → Forall thread_ok ts'.
Proof.
  induction 1 as [|n ts ts' _ _ IH|n ts ts' i t Hi _ _ IH]; intros Hts; auto.
  apply IH. apply Forall_insert; [done|]. rewrite Forall_lookup in Hts.
  specialize (Hts i t Hi). by destruct t.
Qed.

(** What a call does to the counts: [g] values taken, [p] values put. *)
Lemma call_counts c ts i t s ts1 ts2 :
  ts !! i = Some t → section_ok c s →
  notify is_waiting_writer (s_full s) (<[i := Idle]> ts) ts1 →
  notify is_waiting_reader (s_empty s) ts1 ts2 →
  let ts' := <[i := s_next s]> ts2 in
  let g := if _closed c then 0 else Z.of_nat (length (s_got s)) in
  let p := Z.of_nat (length (s_put s)) in
  let ww := cnt is_waiting_writer ts - Z.b2z (is_waiting_writer t) in
  let wr := cnt is_waiting_reader ts - Z.b2z (is_waiting_reader t) in
  cnt is_waiting_writer ts' = ww - Z.min g ww + Z.b2z (is_waiting_writer (s_next s)) ∧
  cnt is_woken_writer ts' = cnt is_woken_writer ts - Z.b2z (is_woken_writer t) + Z.min g ww +
    Z.b2z (is_woken_writer (s_next s)) ∧
  cnt is_waiting_reader ts' = wr - Z.min p wr + Z.b2z (is_waiting_reader (s_next s)) ∧
  cnt is_woken_reader ts' = cnt is_woken_reader ts - Z.b2z (is_woken_reader t) + Z.min p wr +
    Z.b2z (is_woken_reader (s_next s)) ∧ 0 ≤ ww ∧ 0 ≤ wr.
Proof.
  intros Hi [_ _ _ Hf He _] H1 H2. cbv zeta.
  destruct (notify_writers _ _ _ H1) as (A1&A2&A3&A4&A5).
  destruct (notify_readers _ _ _ H2) as (B1&B2&B3&B4&B5).
  assert (Hidle : ts2 !! i = Some Idle).
  { apply B5, A5. apply list_lookup_insert_eq. by eapply lookup_lt_Some. }
  rewrite !(cnt_insert _ _ _ _ _ Hidle). cbn [is_waiting_writer is_woken_writer
    is_waiting_reader is_woken_reader Z.b2z] in *.
  rewrite !(cnt_insert _ _ _ _ _ Hi) in *. cbn [Z.b2z is_waiting_writer is_woken_writer
    is_waiting_reader is_woken_reader] in *.
  pose proof (cnt_nonneg is_waiting_writer (<[i:=Idle]> ts)) as N1.
  pose proof (cnt_nonneg is_waiting_reader (<[i:=Idle]> ts)) as N2.
  rewrite (cnt_insert _ _ _ _ _ Hi) in N1. rewrite (cnt_insert _ _ _ _ _ Hi) in N2. cbn in N1, N2.
  rewrite Hf in *. rewrite He in *. destruct (_closed c); lia.
Qed.

(** A call that succeeds in every allocation keeps the invariant. *)
Definition alloc_ok (k : call) : Prop :=
  match k with
  | CWrite _ o | CResume o => Forall (.= true) o
  | CTryWrite _ ok => ok = true
  | _ => True
  end.

(** What a call without a failing allocation amounts to. *)
Record turn (c : chan) (t : thread) (s : section) : Prop := {
  tu_oom : _oom_flag (s_chan s) = false;
  tu_next : s_next s = Idle ∨
    (∃ m, s_next s = Reading (S m) Waiting ∧ content (s_chan s) = [] ∧ _closed c = false) ∨
    (∃ v vs, s_next s = Writing (v :: vs) Waiting ∧ full_unlocked (s_chan s) = true ∧
             _closed c = false);
  tu_reader : is_woken_reader t = true → content c ≠ [] → s_got s ≠ [];
  tu_writer : is_woken_writer t = true → _closed c = false → full_unlocked c = false → s_put s ≠ [];
}.

Lemma execute_turn c t k s :
  chan_ok c → _oom_flag c = false → thread_ok t → alloc_ok k → execute c t k = Some s → turn c t s.
Proof.
  intros Hc Ho Ht Hal He. unfold execute in He.
  assert (Hread : ∀ n, thread_ok (Reading n Woken) ∨ t = Idle → is_woken_writer t = false →
    turn c t (read c n)).
  { intros n Hn Hw. destruct (read_wait n c Hc) as [[Hnx|Hnx] Hg]; split;
      try (by apply read_ok); try (by intros; congruence); auto;
      intros Hwk; apply Hg; destruct Hn as [?| ->]; done. }
  assert (Hwrite : ∀ vs o, thread_ok (Writing vs Woken) ∨ t = Idle → is_woken_reader t = false →
    Forall (.= true) o → turn c t (write c vs o)).
  { intros vs o Hn Hr HF. destruct (write_wait vs c o Hc Ho HF) as [[Hnx|Hnx] Hg]; split;
      try (by apply write_ok); try (by intros; congruence); auto;
      intros Hwk; apply Hg; destruct Hn as [?| ->]; done. }
  destruct k, t; simplify_eq; cbn [alloc_ok] in Hal; auto.
  - split; try done; [by apply try_read_ok|]. left. unfold try_read.
    repeat (case_match; try done).
  - split; try done; [by apply try_write_ok|]. left. unfold try_write.
    repeat (case_match; try done).
Qed.

Lemma call_wake_inv c ts i t k s ts1 ts2 :
  wake_inv (Monitor c ts) → ts !! i = Some t → execute c t k = Some s → alloc_ok k →
  notify is_waiting_writer (s_full s) (<[i := Idle]> ts) ts1 →
  notify is_waiting_reader (s_empty s) ts1 ts2 →
  wake_inv (Monitor (s_chan s) (<[i := s_next s]> ts2)).
Proof.
  intros [Hc Ho Hb Hts Hcl Hr Hw] Hi He Hal H1 H2. cbn [m_chan m_threads] in *.
  pose proof (execute_ok c t k s Hc He) as Hok.
  destruct (call_counts c ts i t s ts1 ts2 Hi Hok H1 H2) as (C1&C2&C3&C4&P1&P2).
  pose proof Hok as [Hv Hc' (Ecl&Ecap&_) Hf Hem Hbd].
  apply (f_equal length) in Hv. rewrite !length_app in Hv.
  assert (Ht : thread_ok t) by (rewrite Forall_lookup in Hts; by eapply Hts).
  assert (Hts2 : Forall thread_ok ts2).
  { eapply notify_thread_ok; [exact H2|]. eapply notify_thread_ok; [exact H1|].
    by apply Forall_insert. }
  destruct (execute_turn c t k s Hc Ho Ht Hal He) as [Ho' Hnx Htr Htw].
  rewrite full_spec in Htw. rewrite full_spec in Hnx.
  assert (Hbd' : Z.of_nat (length (content (s_chan s))) ≤ _capacity c).
  { destruct (s_put s); [cbn in Hv; lia|by apply Hbd]. }
  assert (Htr' : is_woken_reader t = true → (length (content c) ≠ 0 → length (s_got s) ≠ 0)%nat).
  { intros Hk Hn Hg. apply length_zero_iff_nil in Hg. apply Htr in Hg; [done|done|].
    intros He'. by rewrite He' in Hn. }
  assert (Htw' : is_woken_writer t = true → _closed c = false →
    Z.of_nat (length (content c)) < _capacity c → (length (s_put s) ≠ 0)%nat).
  { intros Hk Hcl' Hn Hg. apply length_zero_iff_nil in Hg. apply Htw in Hg; [done|done|done|].
    by apply Z.leb_gt. }
  assert (Hnext : Forall thread_ok (<[i:=s_next s]> ts2)).
  { apply Forall_insert; [done|].
    destruct Hnx as [->|[(m&->&_)|(v&vs&->&_)]]; cbn [thread_ok]; done || lia. }
  assert (Hn : s_next s = Idle ∨
    (is_waiting_reader (s_next s) = true ∧ is_waiting_writer (s_next s) = false ∧
     length (content (s_chan s)) = 0%nat ∧ _closed c = false) ∨
    (is_waiting_writer (s_next s) = true ∧ is_waiting_reader (s_next s) = false ∧
     _capacity c ≤ Z.of_nat (length (content (s_chan s))) ∧ _closed c = false)).
  { destruct Hnx as [->|[(m&->&->&->)|(v&vs&->&Hfu&->)]]; [by left|right; by left|right; right].
    rewrite Ecap in Hfu. apply Z.leb_le in Hfu. done. }
  assert (Hwk : is_woken_reader (s_next s) = false ∧ is_woken_writer (s_next s) = false).
  { by destruct Hnx as [->|[(m&->&_)|(v&vs&->&_)]]. }
  assert (K1 : is_woken_reader t = true → 1 ≤ cnt is_woken_reader ts) by by eapply cnt_lookup.
  assert (K2 : is_woken_writer t = true → 1 ≤ cnt is_woken_writer ts) by by eapply cnt_lookup.
  pose proof (cnt_nonneg is_woken_reader ts) as N1. pose proof (cnt_nonneg is_woken_writer ts) as N2.
  destruct Hwk as [Hwk1 Hwk2]. rewrite Hwk1 in C4. rewrite Hwk2 in C2.
  clear Hnx Htr Htw Hem Hf H1 H2 He Hok Hal Hbd.
  split; cbn [m_chan m_threads]; rewrite ?C1, ?C2, ?C3, ?C4, ?Ecap, ?Ecl; try done;
    clear C1 C2 C3 C4 Hts Hts2 Ecl Ecap; destruct (_closed c) eqn:Eclo;
    (destruct Hn as [Hn|[(Hn1&Hn2&Hn0&?)|(Hn1&Hn2&Hn0&?)]]; try discriminate);
    rewrite ?Hn, ?Hn1, ?Hn2; destruct t as [|nr []|wv []];
    cbn [is_waiting_reader is_woken_reader is_waiting_writer is_woken_writer Z.b2z] in *;
    try specialize (Htr' eq_refl); try specialize (K1 eq_refl); try specialize (K2 eq_refl);
    try specialize (Htw' eq_refl eq_refl); lia.
Qed.

(** The steps that neither run out of memory nor change the capacity. *)
Definition regular (l : label) : Prop :=
  match l with LCall _ k => alloc_ok k | LCapacity _ => False | _ => True end.

Lemma step_wake_inv m l put got m' :
  step m l put got m' → regular l → wake_inv m → wake_inv m'.
Proof.
  intros Hs Hl Hi. destruct Hs as [c ts i t k s ts1 ts2|c ts|c ts|c ts|c c' ts n]; cbn in Hl.
  - by eapply call_wake_inv.
  - destruct Hi as [[] ? ? ? ? ? ?]. by split.
  - destruct Hi as [[] ? ? ? ? ? ?]. by split.
  - unfold close. destruct Hi as [[] ? ? Hth ? ? ?].
    destruct (negb _ && negb _); [by split|]. cbn [fst snd m_chan m_threads] in *.
    assert (Hz : cnt is_waiting_reader (notify_all ts) = 0 ∧ cnt is_waiting_writer (notify_all ts) = 0).
    { split; apply cnt_zero, Forall_fmap, Forall_forall; intros t _; by destruct t. }
    destruct Hz as [Hz1 Hz2]. split; cbn [m_chan m_threads]; rewrite ?Hz1, ?Hz2; try done.
    apply Forall_fmap. eapply Forall_impl; [exact Hth|]. intros t Ht. by destruct t.
  - done.
Qed.

Lemma steps_wake_inv m ls put got m' :
  steps m ls put got m' → Forall regular ls → wake_inv m → wake_inv m'.
Proof.
  intros Hs Hl Hi. induction Hs as [|m1 ls put1 got1 m2 l put2 got2 m3 _ IH Hst]; [done|].
  apply Forall_app in Hl as [Hls Hl]. inversion Hl; subst.
  eapply step_wake_inv; [exact Hst|done|auto].
Qed.
End channel.
#[global] Arguments chan : clear implicits.
#[global] Arguments thread : clear implicits.
#[global] Arguments monitor : clear implicits.
#[global] Arguments call : clear implicits.
#[global] Arguments section : clear implicits.
#[global] Arguments label : clear implicits.

(** ** Properties *)

(** A channel with capacity [cap] and [n] threads that have not called it yet. *)
Definition monitor_init (T : Type) (cap : Z) (n : nat) : monitor T :=
  Monitor (Chan [] [] 0 false false cap) (replicate n Idle).

(** C15: a channel delivers what was written, once, in order.  However the calls of any
    number of threads interleave, with bulk reads and writes that wait in the middle,
    spurious wake-ups, failing allocations, closing, reopening and changes of capacity:
    the values written, in the order of the critical sections, are the values read
    followed by the content; at most one value is in the reserved slot; and a write never
    brings the channel over its capacity. *)
Theorem channel_is_fifo (T : Type) (cap : Z) (n : nat) (ls : list (label T))
    (put got : list T) (m : monitor T) :
  1 ≤ cap → steps (monitor_init T cap n) ls put got m →
  put = got ++ content (m_chan m) ∧
  (length (_reserved_data (m_chan m)) ≤ 1)%nat ∧
  (∀ l put' got' m', step m l put' got' m' → put' ≠ [] →
     Z.of_nat (size_unlocked (m_chan m')) ≤ _capacity (m_chan m')).
Proof.
  intros Hcap Hs. destruct (steps_values _ _ _ _ _ Hs) as [Hok Hv].
  { by split; cbn; [lia|]. }
  split; [exact Hv|]. split; [apply Hok|]. intros l put' got' m' Hst Hne.
  destruct (step_values _ _ _ _ _ Hst Hok) as (_&_&Hb). rewrite size_content. by apply Hb.
Qed.

(** C16: no wake-up is lost.  As long as no allocation fails and the capacity is not
    changed, whenever a reader sleeps, at least as many readers have been woken and not
    yet run as there are values to read, and whenever a writer sleeps, at least as many
    writers as there are free slots; nobody sleeps on a closed channel.  So a thread
    sleeps only while it has to, or while others that were woken will come first. *)
Theorem channel_no_lost_wakeup (T : Type) (cap : Z) (n : nat) (ls : list (label T))
    (put got : list T) (m : monitor T) :
  1 ≤ cap → Forall regular ls → steps (monitor_init T cap n) ls put got m →
  (0 < cnt is_waiting_reader (m_threads m) →
   _closed (m_chan m) = false ∧
   Z.of_nat (size_unlocked (m_chan m)) ≤ cnt is_woken_reader (m_threads m)) ∧
  (0 < cnt is_waiting_writer (m_threads m) →
   _closed (m_chan m) = false ∧
   _capacity (m_chan m) - Z.of_nat (size_unlocked (m_chan m)) ≤ cnt is_woken_writer (m_threads m)).
Proof.
  intros Hcap Hl Hs.
  assert (Hz : ∀ p, p Idle = false → cnt p (replicate n (@Idle T)) = 0).
  { intros p Hp. apply cnt_zero, Forall_replicate, Hp. }
  destruct (steps_wake_inv _ _ _ _ _ Hs Hl) as [Hc Ho Hb Hts Hcl Hr Hw].
  { split; cbn [monitor_init m_chan m_threads]; rewrite ?Hz by done; try done; try lia.
    - by split; cbn; [lia|].
    - cbn. lia.
    - by apply Forall_replicate. }
  rewrite size_content. split; intros Hn; (split; [|auto]);
    destruct (_closed (m_chan m)); try done; destruct (Hcl eq_refl); lia.
Qed.

(** A call whose notifications find nobody waiting. *)
Lemma step_call_quiet {T} (c : chan T) ts i t k s put got m' :
  ts !! i = Some t → execute c t k = Some s →
  Forall (λ t, is_waiting_writer t = false) (<[i := Idle]> ts) →
  Forall (λ t, is_waiting_reader t = false) (<[i := Idle]> ts) →
  put = s_put s → got = s_got s → m' = Monitor (s_chan s) (<[i := s_next s]> ts) →
  step (Monitor c ts) (LCall i k) put got m'.
Proof.
  intros Hi He Hw Hr -> -> ->.
  assert (Hq : ∀ p n, Forall (λ t, p t = false) (<[i := Idle]> ts) →
    notify p n (<[i := Idle]> ts) (<[i := Idle]> ts)).
  { intros p n Hp. induction n; [constructor|by constructor]. }
  pose proof (step_call c ts i t k s _ _ Hi He (Hq _ _ Hw) (Hq _ _ Hr)) as Hs.
  by rewrite list_insert_insert_eq in Hs.
Qed.

Ltac quiet_call := eapply step_call_quiet;
  [reflexivity|reflexivity|by repeat constructor|by repeat constructor|reflexivity..].

Lemma channel_is_fifo_witness :
  ∃ ls m, steps (monitor_init Z 2 2) ls [5; 6] [5] m ∧
  [5; 6] = [5] ++ content (m_chan m) ∧
  (length (_reserved_data (m_chan m)) ≤ 1)%nat ∧
  (∀ l put' got' m', step m l put' got' m' → put' ≠ [] →
     Z.of_nat (size_unlocked (m_chan m')) ≤ _capacity (m_chan m')).
Proof.
  eexists ([LCall 0 (CWrite [5; 6] [])] ++ [LCall 1 (CRead 1)]), _.
  assert (Hs : steps (monitor_init Z 2 2) ([LCall 0 (CWrite [5; 6] [])] ++ [LCall 1 (CRead 1)])
    [5; 6] [5] (Monitor (Chan [6] [] 0 false false 2) [Idle; Idle])).
  { apply (steps_snoc _ _ [5; 6] [] (Monitor (Chan [6] [5] 0 false false 2) [Idle; Idle])
      _ [] [5]); [|quiet_call].
    apply (steps_snoc _ [] [] [] (monitor_init Z 2 2) _ [5; 6] []); [constructor|quiet_call]. }
  split; [exact Hs|]. exact (channel_is_fifo Z 2 2 _ _ _ _ ltac:(lia) Hs).
Defined.

Lemma channel_no_lost_wakeup_witness :
  let m : monitor Z := Monitor (Chan [] [] 0 false false 2) [Reading 1 Waiting; Idle] in
  (0 < cnt is_waiting_reader (m_threads m) →
   _closed (m_chan m) = false ∧
   Z.of_nat (size_unlocked (m_chan m)) ≤ cnt is_woken_reader (m_threads m)) ∧
  (0 < cnt is_waiting_writer (m_threads m) →
   _closed (m_chan m) = false ∧
   _capacity (m_chan m) - Z.of_nat (size_unlocked (m_chan m)) ≤ cnt is_woken_writer (m_threads m)).
Proof.
  intros m.
  assert (Hs : steps (monitor_init Z 2 2) ([] ++ [LCall 0 (CRead 1)]) [] [] m).
  { apply (steps_snoc _ [] [] [] (monitor_init Z 2 2) _ [] []); [constructor|quiet_call]. }
  exact (channel_no_lost_wakeup Z 2 2 [LCall 0 (CRead 1)] _ _ m ltac:(lia)
           ltac:(by repeat constructor) Hs).
Defined.

(** A channel that ran out of memory stays blocked when it is reopened.  Reading
    resets [_oom_flag] only while the channel is open, and neither [close] nor [open] do:
    a write fails to allocate, the channel is closed, drained and opened again; it is then
    open and empty, and every blocking write to it waits, without a reader that could
    ever wake it. *)
Theorem reopened_channel_blocks_writers {T : Type} (a b : T) :
  ∃ ls m, steps (monitor_init T unbounded 2) ls [a] [a] m ∧
    content (m_chan m) = [] ∧ _closed (m_chan m) = false ∧ m_threads m = [Idle; Idle] ∧
    (∀ v vs oracle, write (m_chan m) (v :: vs) oracle =
                    no_effect (m_chan m) (Writing (v :: vs) Waiting)) ∧
    (∀ k, read (m_chan m) (S k) = no_effect (m_chan m) (Reading (S k) Waiting)).
Proof.
  eexists ((((((([] ++ [LCall 0 (CWrite [a] [])]) ++ [LCall 1 (CWrite [b] [false])]) ++ [LClose]) ++
    [LCall 1 (CResume [])]) ++ [LCall 0 (CRead 1)]) ++ [LOpen])),
    (Monitor (Chan [] [] 0 true false unbounded) [Idle; Idle]).
  split; [|split; [done|split; [done|split; [done|split; [done|done]]]]].
  apply (steps_snoc _ _ [a] [a] (Monitor (Chan [] [] 0 true true unbounded) [Idle; Idle])
    _ [] []); [|apply step_open].
  apply (steps_snoc _ _ [a] [] (Monitor (Chan [] [a] 0 true true unbounded) [Idle; Idle])
    _ [] [a]); [|quiet_call].
  apply (steps_snoc _ _ [a] []
    (Monitor (Chan [] [a] 0 true true unbounded) [Idle; Writing [b] Woken]) _ [] []); [|quiet_call].
  apply (steps_snoc _ _ [a] []
    (Monitor (Chan [] [a] 0 true false unbounded) [Idle; Writing [b] Waiting]) _ [] []).
  2: { exact (step_close (Chan [] [a] 0 true false unbounded) [Idle; Writing [b] Waiting]). }
  apply (steps_snoc _ _ [a] [] (Monitor (Chan [] [a] 0 false false unbounded) [Idle; Idle])
    _ [] []); [|quiet_call].
  apply (steps_snoc _ [] [] [] (monitor_init T unbounded 2) _ [a] []); [constructor|quiet_call].
Qed.

(** Growing the capacity wakes nobody.  [set_capacity] does not notify [_full_cond]:
    a writer that waits because the channel is full keeps sleeping although there is room
    now, and no other writer has been woken in its place. *)
Theorem set_capacity_loses_wakeup {T : Type} (a b : T) :
  ∃ ls m, steps (monitor_init T 1 2) ls [a] [] m ∧
    full_unlocked (m_chan m) = false ∧ _closed (m_chan m) = false ∧
    _oom_flag (m_chan m) = false ∧ m_threads m = [Idle; Writing [b] Waiting].
Proof.
  eexists ((([] ++ [LCall 0 (CWrite [a] [])]) ++ [LCall 1 (CWrite [b] [])]) ++ [LCapacity 10]),
    (Monitor (Chan [] [a] 0 false false 10) [Idle; Writing [b] Waiting]).
  split; [|done].
  apply (steps_snoc _ _ [a] []
    (Monitor (Chan [] [a] 0 false false 1) [Idle; Writing [b] Waiting]) _ [] []);
    [|by apply step_set_capacity].
  apply (steps_snoc _ _ [a] [] (Monitor (Chan [] [a] 0 false false 1) [Idle; Idle]) _ [] []);
    [|quiet_call].
  apply (steps_snoc _ [] [] [] (monitor_init T 1 2) _ [a] []); [constructor|quiet_call].
Qed.
