(* ===== verification/RpcChannel.v ===== *)
(** * The channel between threads

    src/src/thread/RpcChannel.h: many threads [send], one thread [recv]s.  The items are
    in an [MpscQueue]; [_size] counts them, and goes to -1 when the receiver sleeps on the
    eventfd [_fd] or has taken an item its sender has not counted yet.

    A step is one access to shared state: the exchange or the link of a push, a pop, a
    [fetch_add] or load of [_size], a read, write or poll of [_fd].  The eventfd is a
    semaphore: a write adds one, a read takes one and blocks at zero. *)
From S2P Require Import Prelude Queue.

Section channel.
Context {T : Type}.

(** A sender: outside; before [prev_head->next.store]; before [_size.fetch_add]; before the
    write of [_fd]. *)
Inductive sender := SIdle | SLink (prev n : addr_t) | SAdd | SWrite.

(** The receiver: before a pop of the first loop, with the iterations that are left; with
    an item, before [fetch_add] or the read that follows; before the second [fetch_add];
    before the blocking read; before the load; before [poll]; after it timed out; before
    the read and the pop after it; before a pop of the last loops. *)
Inductive receiver :=
  | RSpin (left : nat) | RTaken (item : T) | RToken (item : T) | RWait | RBlock | RLoad
  | RPoll | RUndo | RDrain | RTry | RGet.

(** [recv]: what the receiver is doing, with the [timeout] of the call.  The last three
    fields are history: what was pushed, what the calls of [recv] returned, and whether
    [terminate] was called. *)
Record chan := Chan {
  _q : MpscQueue.state (T := T);
  _size : Z;
  _fd : Z;
  senders : list sender;
  recv : option (Z * receiver);
  pushed : list T;
  returned : list (Z * option T);
  stopped : bool;
}.

Definition RpcChannel_ (a : addr_t) (n : nat) : chan :=
  Chan (MpscQueue.init a) 0 0 (replicate n SIdle) None [] [] false.

Definition with_q (c : chan) (q : MpscQueue.state) : chan :=
  Chan q (_size c) (_fd c) (senders c) (recv c) (pushed c) (returned c) (stopped c).
Definition with_size (c : chan) (z : Z) : chan :=
  Chan (_q c) z (_fd c) (senders c) (recv c) (pushed c) (returned c) (stopped c).
Definition with_fd (c : chan) (z : Z) : chan :=
  Chan (_q c) (_size c) z (senders c) (recv c) (pushed c) (returned c) (stopped c).
Definition at_sender (c : chan) (i : nat) (p : sender) : chan :=
  Chan (_q c) (_size c) (_fd c) (<[i := p]> (senders c)) (recv c) (pushed c) (returned c) (stopped c).
Definition at_receiver (c : chan) (timeout : Z) (p : receiver) : chan :=
  Chan (_q c) (_size c) (_fd c) (senders c) (Some (timeout, p)) (pushed c) (returned c) (stopped c).
(** [return item] and [return false]. *)
Definition finish (c : chan) (timeout : Z) (r : option T) : chan :=
  Chan (_q c) (_size c) (_fd c) (senders c) None (pushed c) (returned c ++ [(timeout, r)]) (stopped c).

(** [terminate()]. *)
Definition terminate (c : chan) : chan :=
  Chan (_q c) (_size c) (_fd c + 1) (senders c) (recv c) (pushed c) (returned c) true.

(** [send(v)]: the exchange of [_q.push]; [n] is the address of the new node. *)
Definition send (c : chan) (i : nat) (v : T) (n : addr_t) : chan :=
  Chan (MpscQueue.push_exchange (_q c) v n) (_size c) (_fd c)
    (<[i := SLink (MpscQueue._head (_q c)) n]> (senders c)) (recv c) (pushed c ++ [v]) (returned c) (stopped c).

(** The rest of [send]. *)
Definition send_step (c : chan) (i : nat) : result chan :=
  match senders c !! i with
  | Some (SLink prev n) =>
      q ← MpscQueue.push_link (_q c) prev n; Ok (at_sender (with_q c q) i SAdd)
  | Some SAdd =>
      let sz := _size c in
      Ok (at_sender (with_size c (i64 (sz + 1))) i (if sz =? -1 then SWrite else SIdle))
  | Some SWrite => Ok (at_sender (with_fd c (_fd c + 1)) i SIdle)
  | _ => Ok c
  end.

(** [recv(item, timeout, spin_count)] begins. *)
Definition recv_begin (c : chan) (timeout : Z) (spin_count : nat) : chan :=
  at_receiver c timeout (RSpin spin_count).

(** The rest of [recv]; a step that blocks changes nothing.  [late]: the time of [poll] is
    over. *)
Definition recv_step (c : chan) (late : bool) : result chan :=
  match recv c with
  | None => Ok c
  | Some (timeout, p) =>
      match p with
      | RSpin O => Ok (if timeout =? 0 then finish c timeout None else at_receiver c timeout RWait)
      | RSpin (S k) =>
          '(q, r) ← MpscQueue.pop (_q c);
          Ok (match r with
              | Some v => at_receiver (with_q c q) timeout (RTaken v)
              | None => at_receiver (with_q c q) timeout (RSpin k)
              end)
      | RTaken v =>
          let sz := _size c in
          let c := with_size c (i64 (sz - 1)) in
          Ok (if sz =? 0 then at_receiver c timeout (RToken v) else finish c timeout (Some v))
      | RToken v =>
          Ok (if 0 <? _fd c then finish (with_fd c (_fd c - 1)) timeout (Some v) else c)
      | RWait =>
          let sz := _size c in
          let c := with_size c (i64 (sz - 1)) in
          _ ← SCHECK (0 <=? sz);
          Ok (at_receiver c timeout
                (if sz =? 0 then if timeout =? -1 then RBlock else RPoll else RGet))
      | RBlock => Ok (if 0 <? _fd c then at_receiver (with_fd c (_fd c - 1)) timeout RLoad else c)
      | RLoad => Ok (if 0 <=? _size c then at_receiver c timeout RGet else finish c timeout None)
      | RPoll =>
          Ok (if 0 <? _fd c then at_receiver c timeout RDrain
              else if late && (0 <? timeout) then at_receiver c timeout RUndo else c)
      | RUndo => Ok (finish (with_size c (i64 (_size c + 1))) timeout None)
      | RDrain => Ok (if 0 <? _fd c then at_receiver (with_fd c (_fd c - 1)) timeout RTry else c)
      | RTry => '(q, r) ← MpscQueue.pop (_q c); Ok (finish (with_q c q) timeout r)
      | RGet =>
          '(q, r) ← MpscQueue.pop (_q c);
          Ok (match r with Some _ => finish (with_q c q) timeout r | None => with_q c q end)
      end
  end.

(** Whether a call that waits has returned false. *)
Definition was_told (l : list (Z * option T)) : bool :=
  existsb (λ r, match r with (t, None) => t =? -1 | _ => false end) l.

(** ** Runs

    [recv] is called with the timeouts -1 (wait) and 0 (look), the ones the library
    itself uses.  [terminate] is called between the sends, nobody sends after it, and the
    receiver does not call again once it was told. *)
Inductive cstep : chan → chan → Prop :=
  | cs_send c i v n :
      senders c !! i = Some SIdle → MpscQueue.mem (_q c) !! n = None → stopped c = false →
      Z.of_nat (length (pushed c)) < 2 ^ 63 - 1 → cstep c (send c i v n)
  | cs_sender c i c' : send_step c i = Ok c' → cstep c c'
  | cs_recv c timeout spin_count :
      recv c = None → timeout = -1 ∨ timeout = 0 → was_told (returned c) = false →
      cstep c (recv_begin c timeout spin_count)
  | cs_receiver c late c' : recv_step c late = Ok c' → cstep c c'
  | cs_terminate c :
      Forall (λ p, p = SIdle) (senders c) → stopped c = false → cstep c (terminate c).

(** ** The invariant *)

Definition uncounted (p : sender) : bool := match p with SLink _ _ | SAdd => true | _ => false end.
Definition writing (p : sender) : bool := match p with SWrite => true | _ => false end.

(** The item the receiver has taken and not yet returned. *)
Definition in_hand (p : option (Z * receiver)) : option T :=
  match p with Some (_, (RTaken v | RToken v)) => Some v | _ => None end.
(** Taken and not yet counted, less counted and not yet taken. *)
Definition ahead (p : option (Z * receiver)) : Z :=
  match p with Some (_, RTaken _) => 1 | Some (_, (RBlock | RLoad | RGet)) => -1 | _ => 0 end.
Definition sleeping (p : option (Z * receiver)) : bool :=
  match p with Some (_, (RToken _ | RBlock)) => true | _ => false end.

(** Where a call with a timeout of -1 or 0 can be. *)
Definition at_ok (p : option (Z * receiver)) : Prop :=
  match p with
  | Some (t, (RSpin _ | RTaken _ | RToken _)) => t = -1 ∨ t = 0
  | Some (t, (RWait | RBlock | RLoad | RGet)) => t = -1
  | Some _ => False
  | None => True
  end.

(** The producers between exchange and link are the senders that are there. *)
Record Links (q : MpscQueue.state (T := T)) (ss : list sender) : Prop := {
  lk_link i a b : ss !! i = Some (SLink a b) → (a, b) ∈ MpscQueue.linking q;
  lk_linking a b : (a, b) ∈ MpscQueue.linking q → ∃ i, ss !! i = Some (SLink a b);
  lk_apart i j a a' b : ss !! i = Some (SLink a b) → ss !! j = Some (SLink a' b) → i = j;
}.

(** The numbers: [n] items in the queue, [a] of them (or of those taken) not counted, [w]
    writes to come, [td] whether the receiver was told.  There is a token for a receiver
    that sleeps although there is something for it, and one for [terminate] until the
    receiver has seen it. *)
Record Counts (sz fd n a w : Z) (r : option (Z * receiver)) (td st : bool) : Prop := {
  cn_pos : 0 ≤ fd ∧ 0 ≤ n ∧ 0 ≤ a ∧ 0 ≤ w;
  cn_size : sz = n - a + ahead r - Z.b2z td;
  cn_tokens :
    if sleeping r
    then sz = -1 ∧ fd + w = Z.b2z st ∨ 0 ≤ sz ∧ fd + w = 1 + Z.b2z st
    else 0 ≤ sz ∧ fd + w = Z.b2z st ∨
         sz = -1 ∧ fd + w = 0 ∧ st = true ∧ n = 0 ∧ (td = true ∨ r = Some (-1, RLoad));
  cn_stopped : st = true → a = 0 ∧ w = 0;
  cn_told : td = true → r = None ∧ st = true ∧ n = 0;
}.

Record CInv (c : chan) (ns : list addr_t) (vs : list T) : Prop := {
  ci_queue : MpscQueue.inv (_q c) ns vs;
  ci_links : Links (_q c) (senders c);
  ci_items : pushed c = omap snd (returned c) ++ option_list (in_hand (recv c)) ++ vs;
  ci_bound : Z.of_nat (length (pushed c)) < 2 ^ 63;
  ci_at : at_ok (recv c);
  ci_counts : Counts (_size c) (_fd c) (Z.of_nat (length vs)) (cnt uncounted (senders c)) (cnt writing (senders c))
                (recv c) (was_told (returned c)) (stopped c);
}.

Lemma was_told_snoc l t r :
  was_told (l ++ [(t, r)]) = was_told l || match r with None => t =? -1 | _ => false end.
Proof. unfold was_told. rewrite existsb_app. cbn. by rewrite orb_false_r. Qed.

Lemma items_snoc (l : list (Z * option T)) t r : omap snd (l ++ [(t, r)]) = omap snd l ++ option_list r.
Proof. rewrite omap_app. by destruct r. Qed.

(** *** The numbers of each step *)
Section counts.
Context (sz fd n a w : Z) (r : option (Z * receiver)) (td st : bool).
Context (Hc : Counts sz fd n a w r td st).

Lemma counts_send : st = false → Counts sz fd (n + 1) (a + 1) w r td st.
Proof.
  intros ->. destruct Hc as [(?&?&?&?) ? Hk Hs Htd]. split; try done; try lia.
  - destruct (sleeping r); intuition (done || lia).
  - intros ->. naive_solver.
Qed.

Lemma counts_add : 1 ≤ a → Counts (sz + 1) fd n (a - 1) (w + Z.b2z (sz =? -1)) r td st.
Proof.
  intros Ha. destruct Hc as [(?&?&?&?) ? Hk Hs Htd].
  assert (Hst : st = false) by (destruct st; [lia|done]). rewrite Hst in *.
  destruct (Z.eqb_spec sz (-1)); cbn [Z.b2z] in *; split; try done; try lia;
    destruct (sleeping r); cbn [Z.b2z] in *; intuition (done || lia).
Qed.

Lemma counts_write : 1 ≤ w → Counts sz (fd + 1) n a (w - 1) r td st.
Proof.
  intros Hw. destruct Hc as [(?&?&?&?) ? Hk Hs Htd].
  assert (Hst : st = false) by (destruct st; [lia|done]). rewrite Hst in *.
  split; try done; try lia. destruct (sleeping r); intuition (done || lia).
Qed.

Lemma counts_stop : a = 0 → w = 0 → st = false → Counts sz (fd + 1) n a w r td true.
Proof.
  intros -> -> ->. destruct Hc as [(?&?&?&?) ? Hk Hs Htd]. cbn [Z.b2z] in *. split; try done; try lia.
  - cbn [Z.b2z]. destruct (sleeping r); intuition (done || lia).
  - intros ->. naive_solver.
Qed.

Lemma counts_awake : sleeping r = false → td = false → r ≠ Some (-1, RLoad) → 0 ≤ sz ∧ fd + w = Z.b2z st.
Proof.
  intros Hsl Htd Hr. pose proof (cn_tokens _ _ _ _ _ _ _ _ Hc) as Hk. rewrite Hsl in Hk.
  destruct Hk as [?|(_&_&_&_&[?|?])]; [done|congruence|done].
Qed.

(** The receiver moves without touching a number. *)
Lemma counts_move r' :
  td = false → ahead r' = ahead r → sleeping r = false → sleeping r' = false → r ≠ Some (-1, RLoad) →
  Counts sz fd n a w r' td st.
Proof.
  intros Htd Ha Hsl Hsl' Hr. pose proof (counts_awake Hsl Htd Hr) as Hk. destruct Hc as [Hp Hz _ Hs _].
  rewrite Htd in *. split; try done; [by rewrite Ha|]. rewrite Hsl'. by left.
Qed.

(** An item is taken in the first loop. *)
Lemma counts_take t k v :
  r = Some (t, RSpin k) → td = false → 1 ≤ n → Counts sz fd (n - 1) a w (Some (t, RTaken v)) td st.
Proof.
  intros Hr Htd Hn. pose proof counts_awake as Hk. destruct Hc as [Hp Hz _ Hs _].
  rewrite Hr, Htd in *. cbn [ahead sleeping Z.b2z] in *. specialize (Hk eq_refl eq_refl ltac:(done)).
  split; cbn [ahead sleeping Z.b2z]; try done; try lia.
Qed.

(** An item that was taken is counted: with zero there is a token to come. *)
Lemma counts_counted t v :
  r = Some (t, RTaken v) → td = false →
  if sz =? 0 then Counts (sz - 1) fd n a w (Some (t, RToken v)) td st else Counts (sz - 1) fd n a w None td st.
Proof.
  intros Hr Htd. pose proof counts_awake as Hk. destruct Hc as [Hp Hz _ Hs _].
  rewrite Hr, Htd in *. cbn [ahead sleeping Z.b2z] in *. specialize (Hk eq_refl eq_refl ltac:(done)).
  destruct (Z.eqb_spec sz 0); split; cbn [ahead sleeping Z.b2z]; try done; try lia.
Qed.

Lemma counts_token t v :
  r = Some (t, RToken v) → td = false → 0 < fd → Counts sz (fd - 1) n a w None td st.
Proof.
  intros Hr Htd Hfd. destruct Hc as [Hp Hz Hk Hs _]. rewrite Hr, Htd in *. cbn [ahead sleeping Z.b2z] in *.
  split; cbn [ahead sleeping Z.b2z]; try done; try lia. left.
  destruct st; cbn [Z.b2z] in *; [specialize (Hs eq_refl)|]; lia.
Qed.

Lemma counts_wait t :
  r = Some (t, RWait) → td = false →
  Counts (sz - 1) fd n a w (Some (t, if sz =? 0 then RBlock else RGet)) td st.
Proof.
  intros Hr Htd. pose proof counts_awake as Hk. destruct Hc as [Hp Hz _ Hs _].
  rewrite Hr, Htd in *. cbn [ahead sleeping Z.b2z] in *. specialize (Hk eq_refl eq_refl ltac:(done)).
  destruct (Z.eqb_spec sz 0); split; cbn [ahead sleeping Z.b2z]; try done; try lia.
Qed.

Lemma counts_block :
  r = Some (-1, RBlock) → td = false → 0 < fd → Counts sz (fd - 1) n a w (Some (-1, RLoad)) td st.
Proof.
  intros Hr Htd Hfd. destruct Hc as [Hp Hz Hk Hs _]. rewrite Hr, Htd in *. cbn [ahead sleeping Z.b2z] in *.
  split; cbn [ahead sleeping Z.b2z]; try done; try lia. destruct Hk as [[? ?]|[? ?]]; [|left; lia].
  right. destruct st; cbn [Z.b2z] in *; [specialize (Hs eq_refl)|lia].
  split; [lia|]. split; [lia|]. split; [done|]. split; [lia|by right].
Qed.

Lemma counts_load :
  r = Some (-1, RLoad) → td = false →
  if 0 <=? sz then Counts sz fd n a w (Some (-1, RGet)) td st else Counts sz fd n a w None true st.
Proof.
  intros Hr Htd. destruct Hc as [Hp Hz Hk Hs _]. rewrite Hr, Htd in *. cbn [ahead sleeping Z.b2z] in *.
  destruct (Z.leb_spec 0 sz).
  - split; cbn [ahead sleeping Z.b2z]; try done; try lia.
  - destruct Hk as [?|(?&?&?&?&_)]; [lia|]. split; cbn [ahead sleeping Z.b2z]; try done; try lia.
    right. auto 10.
Qed.

(** An item that was counted is taken: there is one. *)
Lemma counts_get_some t : r = Some (t, RGet) → td = false → 1 + a ≤ n.
Proof.
  intros Hr Htd. pose proof counts_awake as Hk. destruct Hc as [Hp Hz _ _ _]. rewrite Hr, Htd in *.
  cbn [ahead sleeping Z.b2z] in *. specialize (Hk eq_refl eq_refl ltac:(done)). lia.
Qed.

Lemma counts_get t : r = Some (t, RGet) → td = false → Counts sz fd (n - 1) a w None td st.
Proof.
  intros Hr Htd. pose proof (counts_get_some t Hr Htd). pose proof counts_awake as Hk.
  destruct Hc as [Hp Hz _ Hs _]. rewrite Hr, Htd in *.
  cbn [ahead sleeping Z.b2z] in *. specialize (Hk eq_refl eq_refl ltac:(done)).
  split; cbn [ahead sleeping Z.b2z]; try done; try lia.
Qed.

(** When no sender is under way, a receiver that sleeps without a token has nothing to
    receive, and nobody has called [terminate]. *)
Lemma counts_asleep : sleeping r = true → a = 0 → w = 0 → fd = 0 → n = 0 ∧ r = Some (-1, RBlock) ∧ st = false ∨ ¬ at_ok r.
Proof.
  intros Hsl -> -> ->. destruct Hc as [Hp Hz Hk Hs Htd]. rewrite Hsl in Hk.
  destruct (decide (td = true)) as [Ht|Ht]; [destruct (Htd Ht) as [-> _]; done|]. apply not_true_is_false in Ht. subst td.
  destruct r as [[t []]|]; try done; cbn [ahead Z.b2z at_ok] in *.
  - destruct st; cbn [Z.b2z] in *; lia.
  - destruct (decide (t = -1)) as [->|?]; [|by right]. left. destruct st; cbn [Z.b2z] in *; [lia|]. split; [lia|done].
Qed.
End counts.

(** *** The links of each step *)
Definition no_link (p : sender) : Prop := match p with SLink _ _ => False | _ => True end.

Lemma links_send q ss ns vs i v n :
  MpscQueue.inv q ns vs → Links q ss → ss !! i = Some SIdle → MpscQueue.mem q !! n = None →
  Links (MpscQueue.push_exchange q v n) (<[i := SLink (MpscQueue._head q) n]> ss).
Proof.
  intros Hq [Hl Hg Ha] Hi Hn. pose proof (MpscQueue.inv_fresh _ _ _ _ Hq Hn) as Hfr.
  assert (Hnew : ∀ j a b, ss !! j = Some (SLink a b) → b ≠ n).
  { intros j a b Hj ->. apply Hl in Hj. destruct (MpscQueue.iv_links _ _ _ Hq _ _ Hj) as (k&_&Hk).
    apply Hfr. right. by eapply list_elem_of_lookup_2. }
  assert (Hil : (i < length ss)%nat) by by eapply lookup_lt_Some.
  split; cbn [MpscQueue.push_exchange MpscQueue.linking].
  - intros j a b. rewrite list_lookup_insert_Some, elem_of_app, list_elem_of_singleton.
    intros [(_&[= <- <-]&_)|[_ Hj]]; [by right|left; by eapply Hl].
  - intros a b. rewrite elem_of_app, list_elem_of_singleton. intros [Hin|[= -> ->]].
    + destruct (Hg a b Hin) as [j Hj]. exists j. apply list_lookup_insert_Some. right. split; [congruence|done].
    + exists i. by apply list_lookup_insert_eq.
  - intros j k a a' b. rewrite !list_lookup_insert_Some.
    intros [(<-&[= <- <-]&_)|[_ Hj]] [(<-&[= <-]&_)|[_ Hk]]; [done|..].
    + by apply Hnew in Hk.
    + subst b. by apply Hnew in Hj.
    + by eapply Ha.
Qed.

Lemma links_link q q' ss i a b :
  Links q ss → ss !! i = Some (SLink a b) →
  MpscQueue.linking q' = filter (λ p, p ≠ (a, b)) (MpscQueue.linking q) → Links q' (<[i := SAdd]> ss).
Proof.
  intros [Hl Hg Ha] Hi Hq. split; rewrite ?Hq.
  - intros j a' b'. rewrite list_lookup_insert_Some. intros [(_&?&_)|[Hne Hj]]; [done|].
    apply list_elem_of_filter. split; [|by eapply Hl]. intros [= -> ->]. apply Hne. by eapply Ha.
  - intros a' b' [Hne Hin]%list_elem_of_filter. destruct (Hg a' b' Hin) as [j Hj]. exists j.
    apply list_lookup_insert_Some. right. split; [|done]. intros ->. congruence.
  - intros j k c c' d. rewrite !list_lookup_insert_Some. intros [(_&?&_)|[_ Hj]]; [done|].
    intros [(_&?&_)|[_ Hk]]; [done|]. by eapply Ha.
Qed.

Lemma links_keep q q' ss i p p' :
  Links q ss → ss !! i = Some p → no_link p → no_link p' → MpscQueue.linking q' = MpscQueue.linking q →
  Links q' (<[i := p']> ss).
Proof.
  intros [Hl Hg Ha] Hi Hp Hp' Hq. split; rewrite ?Hq.
  - intros j a b. rewrite list_lookup_insert_Some. intros [(_&->&_)|[_ Hj]]; [done|by eapply Hl].
  - intros a b Hin. destruct (Hg a b Hin) as [j Hj]. exists j. apply list_lookup_insert_Some. right.
    split; [|done]. intros ->. assert (p = SLink a b) as -> by congruence. done.
  - intros j k a a' b. rewrite !list_lookup_insert_Some. intros [(_&->&_)|[_ Hj]]; [done|].
    intros [(_&->&_)|[_ Hk]]; [done|]. by eapply Ha.
Qed.

Lemma links_same q q' ss : Links q ss → MpscQueue.linking q' = MpscQueue.linking q → Links q' ss.
Proof. intros [Hl Hg Ha] Hq. split; rewrite ?Hq; done. Qed.

(** *** The steps *)
Lemma cinv_init a n : CInv (RpcChannel_ a n) [] [].
Proof.
  assert (Hidle : ∀ i p, replicate n SIdle !! i = Some p → p = SIdle) by (intros i p [-> _]%lookup_replicate; done).
  assert (Hz : ∀ f, f SIdle = false → cnt f (replicate n SIdle) = 0)
    by (intros f Hf; by apply cnt_zero, Forall_replicate).
  split; cbn; [apply MpscQueue.inv_init| |done|done|done|].
  - split; cbn; [intros i ? ? ?%Hidle; done|intros ? ? ?%not_elem_of_nil; done|intros i ? ? ? ? ?%Hidle; done].
  - rewrite !Hz by done. split; cbn; try done. by left.
Qed.

Lemma at_receiver_same c t p : at_receiver (with_fd (with_size c (_size c)) (_fd c)) t p = at_receiver c t p.
Proof. by destruct c. Qed.
Lemma finish_same c t r : finish (with_fd (with_size c (_size c)) (_fd c)) t r = finish c t r.
Proof. by destruct c. Qed.
Lemma with_q_same c : with_q c (_q c) = c.
Proof. by destruct c. Qed.

(** How many steps [recv] takes at most, apart from waiting. *)
Definition rweight (p : option (Z * receiver)) : nat :=
  match p with
  | None => 0
  | Some (_, RSpin k) => 6 + k
  | Some (_, RWait) => 5 | Some (_, RBlock) => 4 | Some (_, RLoad) => 3
  | Some (_, (RTaken _ | RGet)) => 2
  | Some (_, _) => 1
  end.

(** The receiver has moved on. *)
Definition advances (c c' : chan) : Prop :=
  (∃ ns vs, CInv c' ns vs) ∧ senders c' = senders c ∧ stopped c' = stopped c ∧ pushed c' = pushed c ∧
  (rweight (recv c') < rweight (recv c))%nat.

Section step.
Context (c : chan) (ns : list addr_t) (vs : list T) (Hc : CInv c ns vs).

Lemma cinv_send i v n :
  senders c !! i = Some SIdle → MpscQueue.mem (_q c) !! n = None → stopped c = false →
  Z.of_nat (length (pushed c)) < 2 ^ 63 - 1 → CInv (send c i v n) (ns ++ [n]) (vs ++ [v]).
Proof.
  intros Hi Hn Hst Hb. destruct Hc as [Hq Hl Hit Hbd Hat Hcn]. split; cbn.
  - by apply MpscQueue.push_exchange_inv.
  - by eapply links_send.
  - by rewrite Hit, !app_assoc.
  - len.
  - done.
  - rewrite !(cnt_insert _ _ _ _ _ Hi). cbn [uncounted writing Z.b2z]. rewrite length_app. cbn [length].
    replace (Z.of_nat (length vs + 1)) with (Z.of_nat (length vs) + 1) by lia.
    replace (cnt uncounted (senders c) - 0 + 1) with (cnt uncounted (senders c) + 1) by lia.
    replace (cnt writing (senders c) - 0 + 0) with (cnt writing (senders c)) by lia. by apply counts_send.
Qed.

Lemma size_bound : -1 ≤ _size c ∧ _size c + cnt uncounted (senders c) ≤ Z.of_nat (length (pushed c)).
Proof.
  destruct Hc as [_ _ Hit _ _ [(?&?&?&?) Hz Hk _ _]]. split; [destruct (sleeping (recv c)); lia|].
  rewrite Hz, Hit, !length_app. destruct (recv c) as [[u []]|]; cbn; destruct (was_told _); cbn; lia.
Qed.

Lemma send_step_ok i : ∃ c' ns' vs', send_step c i = Ok c' ∧ CInv c' ns' vs'.
Proof.
  unfold send_step. pose proof size_bound as Hsz. pose proof Hc as [Hq Hl Hit Hbd Hat Hcn].
  destruct (senders c !! i) as [[|a b| |]|] eqn:Hi; [by exists c, ns, vs| | | |by exists c, ns, vs].
  - destruct (MpscQueue.push_link_inv _ ns vs a b Hq) as (q&->&Hq'&_&Hlk); [by eapply lk_link|]. step_ok.
    eexists _, ns, vs. split; [done|]. split; cbn; try done; [by eapply links_link|].
    rewrite !(cnt_insert _ _ _ _ _ Hi). cbn [uncounted writing Z.b2z].
    rewrite !Z.sub_0_r, !Z.add_0_r, Z.sub_add. done.
  - eexists _, ns, vs. split; [done|]. split; cbn; try done; [by eapply links_keep; try done; case_match|].
    pose proof (cnt_lookup uncounted _ _ _ Hi eq_refl) as Hone.
    rewrite !(cnt_insert _ _ _ _ _ Hi), swrap_small by (unfold in_signed; lia). cbn [uncounted writing Z.b2z].
    rewrite Z.sub_0_r. pose proof (counts_add _ _ _ _ _ _ _ _ Hcn Hone) as Hn.
    destruct (_size c =? -1); cbn [uncounted writing Z.b2z] in *; by rewrite !Z.add_0_r in *.
  - eexists _, ns, vs. split; [done|]. split; cbn; try done; [by eapply links_keep|].
    rewrite !(cnt_insert _ _ _ _ _ Hi). cbn [uncounted writing Z.b2z].
    rewrite !Z.add_0_r, Z.sub_0_r. apply counts_write; [done|]. by apply (cnt_lookup _ _ _ _ Hi).
Qed.

Lemma cinv_stop :
  Forall (λ p, p = SIdle) (senders c) → stopped c = false → CInv (terminate c) ns vs.
Proof.
  intros Hid Hst. destruct Hc as [Hq Hl Hit Hbd Hat Hcn]. split; cbn; try done.
  apply (counts_stop _ _ _ _ _ _ _ _ Hcn); [| |done]; apply cnt_zero; eapply Forall_impl; try done; by intros ? ->.
Qed.

Lemma not_told p : recv c = Some p → was_told (returned c) = false.
Proof.
  intros Hr. destruct (was_told (returned c)) eqn:Ht; [|done].
  destruct (cn_told _ _ _ _ _ _ _ _ (ci_counts _ _ _ Hc) Ht) as [E _]. congruence.
Qed.

Lemma cinv_begin t k :
  recv c = None → t = -1 ∨ t = 0 → was_told (returned c) = false → CInv (recv_begin c t k) ns vs.
Proof.
  intros Hr Ht Htd. destruct Hc as [Hq Hl Hit Hbd Hat Hcn]. rewrite Hr in *. split; cbn; try done.
  by apply (counts_move _ _ _ _ _ _ _ _ Hcn).
Qed.

(** A pop, with the queue it leaves. *)
Lemma cinv_pop :
  ∃ q r, MpscQueue.pop (_q c) = Ok (q, r) ∧
    match r with
    | Some v => ∃ ns' vs', vs = v :: vs' ∧ MpscQueue.inv q ns' vs' ∧ Links q (senders c)
    | None => q = _q c ∧ (vs = [] ∨ 1 ≤ cnt uncounted (senders c))
    end.
Proof.
  destruct Hc as [Hq Hl _ _ _ _]. destruct (MpscQueue.pop_inv _ _ _ Hq) as (q&r&->&Hr). exists q, r. split; [done|].
  destruct r as [v|].
  - destruct Hr as (ns'&vs'&->&Hq'&Hk). exists ns', vs'. split; [done|]. split; [done|]. by eapply links_same.
  - destruct Hr as [-> [->|[n Hn]]]; [by auto|]. split; [done|right].
    destruct (lk_linking _ _ Hl _ _ Hn) as [i Hi]. by eapply cnt_lookup.
Qed.


(** The receiver goes on, or returns, and the items stay where they are. *)
Lemma adv_goto z f t p :
  at_ok (Some (t, p)) → in_hand (Some (t, p)) = in_hand (recv c) →
  Counts z f (Z.of_nat (length vs)) (cnt uncounted (senders c)) (cnt writing (senders c))
    (Some (t, p)) (was_told (returned c)) (stopped c) →
  (rweight (Some (t, p)) < rweight (recv c))%nat →
  advances c (at_receiver (with_fd (with_size c z) f) t p).
Proof.
  intros Hat' Hh Hcn Hw. destruct Hc as [Hq Hl Hit Hbd Hat _]. split; [|done]. exists ns, vs.
  split; try done. cbn [at_receiver with_fd with_size pushed returned recv]. by rewrite Hit, <- Hh.
Qed.

Lemma adv_finish z f t r :
  r = in_hand (recv c) → recv c ≠ None →
  Counts z f (Z.of_nat (length vs)) (cnt uncounted (senders c)) (cnt writing (senders c))
    None (was_told (returned c) || match r with None => t =? -1 | _ => false end) (stopped c) →
  advances c (finish (with_fd (with_size c z) f) t r).
Proof.
  intros Hh Hn Hcn. destruct Hc as [Hq Hl Hit Hbd Hat _]. split.
  - exists ns, vs. split; cbn [finish with_fd with_size pushed returned recv _size _fd senders stopped]; try done.
    + rewrite items_snoc, Hit, <- Hh. cbn [in_hand option_list]. by rewrite <- app_assoc.
    + by rewrite was_told_snoc.
  - split; [done|]. split; [done|]. split; [done|]. destruct (recv c) as [[? []]|]; cbn; lia || done.
Qed.

(** The receiver has popped [v]. *)
Lemma adv_popped q ns' vs' v p l :
  vs = v :: vs' → MpscQueue.inv q ns' vs' → Links q (senders c) → at_ok p → in_hand (recv c) = None →
  omap snd l ++ option_list (in_hand p) = omap snd (returned c) ++ [v] →
  Counts (_size c) (_fd c) (Z.of_nat (length vs')) (cnt uncounted (senders c)) (cnt writing (senders c))
    p (was_told l) (stopped c) →
  (rweight p < rweight (recv c))%nat →
  advances c (Chan q (_size c) (_fd c) (senders c) p (pushed c) l (stopped c)).
Proof.
  intros Hv Hq' Hl' Hat' Hh Hl Hcn Hw. destruct Hc as [_ _ Hit Hbd Hat _]. split; [|done]. exists ns', vs'.
  split; try done. cbn [pushed returned recv]. rewrite Hit, Hh, Hv. cbn [option_list app].
  by rewrite (app_assoc (omap snd l)), Hl, <- app_assoc.
Qed.

(** What a step of the receiver does: it moves on, or it waits for a token or for a
    producer to link. *)
Definition waits : Prop :=
  sleeping (recv c) = true ∧ _fd c = 0 ∨ (∃ t, recv c = Some (t, RGet)) ∧ 1 ≤ cnt uncounted (senders c).
Definition goes_on (x : result chan) : Prop := ∃ c', x = Ok c' ∧ (advances c c' ∨ c' = c ∧ waits).

Lemma recv_spin late t k : recv c = Some (t, RSpin k) → goes_on (recv_step c late).
Proof.
  intros Hr. pose proof (not_told _ Hr) as Htd. pose proof (ci_at _ _ _ Hc) as Hat. rewrite Hr in Hat.
  pose proof (ci_counts _ _ _ Hc) as Hcn. unfold recv_step. rewrite Hr. destruct k as [|k].
  - eexists. split; [reflexivity|]. left. destruct (Z.eqb_spec t 0) as [->|Hne].
    + rewrite <- finish_same. apply adv_finish; [by rewrite Hr|by rewrite Hr|]. rewrite Htd in *. cbn [orb].
      rewrite Hr in Hcn. by apply (counts_move _ _ _ _ _ _ _ _ Hcn).
    + rewrite <- at_receiver_same. cbn [at_ok] in Hat. apply adv_goto; rewrite ?Hr; cbn; [lia|done| |lia].
      rewrite Hr in Hcn. by apply (counts_move _ _ _ _ _ _ _ _ Hcn).
  - destruct cinv_pop as (q&r&->&Hp). step_ok. eexists. split; [reflexivity|]. left. destruct r as [v|].
    + destruct Hp as (ns'&vs'&Hv&Hq'&Hl'). eapply adv_popped; try done; rewrite ?Hr; cbn; try done; try lia.
      replace (Z.of_nat (length vs')) with (Z.of_nat (length vs) - 1) by (rewrite Hv; cbn; lia).
      eapply counts_take; [exact Hcn|exact Hr|done|]. rewrite Hv. cbn; lia.
    + destruct Hp as [-> _]. rewrite with_q_same, <- at_receiver_same.
      apply adv_goto; rewrite ?Hr; cbn; [done|done| |lia].
      rewrite Hr in Hcn. by apply (counts_move _ _ _ _ _ _ _ _ Hcn).
Qed.

Lemma recv_taken late t v : recv c = Some (t, RTaken v) → goes_on (recv_step c late).
Proof.
  intros Hr. pose proof (not_told _ Hr) as Htd. pose proof (ci_at _ _ _ Hc) as Hat. rewrite Hr in Hat.
  pose proof (counts_counted _ _ _ _ _ _ _ _ (ci_counts _ _ _ Hc) t v Hr Htd) as Hcn.
  pose proof size_bound as [Hlo Hhi]. pose proof (cnt_nonneg uncounted (senders c)). pose proof (ci_bound _ _ _ Hc).
  unfold recv_step. rewrite Hr. cbn zeta. rewrite swrap_small by (unfold in_signed; lia).
  eexists. split; [reflexivity|]. left. destruct (_size c =? 0).
  - apply (adv_goto _ (_fd c)); rewrite ?Hr; [done|done|done|cbn; lia].
  - apply (adv_finish _ (_fd c)); rewrite ?Hr; [done|done|]. by rewrite orb_false_r.
Qed.

Lemma recv_token late t v : recv c = Some (t, RToken v) → goes_on (recv_step c late).
Proof.
  intros Hr. pose proof (not_told _ Hr) as Htd. pose proof (ci_counts _ _ _ Hc) as Hcn.
  unfold recv_step. rewrite Hr. eexists. split; [reflexivity|]. destruct (Z.ltb_spec 0 (_fd c)).
  - left. apply (adv_finish (_size c)); rewrite ?Hr; [done|done|]. rewrite orb_false_r.
    by eapply counts_token.
  - right. split; [done|]. left. rewrite Hr. split; [done|]. pose proof (cn_pos _ _ _ _ _ _ _ _ Hcn). lia.
Qed.

Lemma recv_wait late t : recv c = Some (t, RWait) → goes_on (recv_step c late).
Proof.
  intros Hr. pose proof (not_told _ Hr) as Htd. pose proof (ci_at _ _ _ Hc) as Hat. rewrite Hr in Hat. cbn in Hat. subst t.
  pose proof (ci_counts _ _ _ Hc) as Hcn. pose proof (counts_wait _ _ _ _ _ _ _ _ Hcn (-1) Hr Htd) as Hcn'.
  pose proof size_bound as [Hlo Hhi]. pose proof (cnt_nonneg uncounted (senders c)). pose proof (ci_bound _ _ _ Hc).
  destruct (counts_awake _ _ _ _ _ _ _ _ Hcn) as [Hsz _]; [by rewrite Hr|done|by rewrite Hr|].
  unfold recv_step. rewrite Hr. cbn zeta. rewrite swrap_small by (unfold in_signed; lia).
  rewrite (proj2 (Z.leb_le 0 (_size c))) by done. step_ok. eexists. split; [reflexivity|]. left.
  apply (adv_goto _ (_fd c)); rewrite ?Hr; destruct (_size c =? 0); cbn; done || lia.
Qed.

Lemma recv_block late t : recv c = Some (t, RBlock) → goes_on (recv_step c late).
Proof.
  intros Hr. pose proof (not_told _ Hr) as Htd. pose proof (ci_at _ _ _ Hc) as Hat. rewrite Hr in Hat. cbn in Hat. subst t.
  pose proof (ci_counts _ _ _ Hc) as Hcn. unfold recv_step. rewrite Hr. eexists. split; [reflexivity|].
  destruct (Z.ltb_spec 0 (_fd c)).
  - left. apply (adv_goto (_size c)); rewrite ?Hr; [done|done| |cbn; lia]. by eapply counts_block.
  - right. split; [done|]. left. rewrite Hr. split; [done|]. pose proof (cn_pos _ _ _ _ _ _ _ _ Hcn). lia.
Qed.

Lemma recv_load late t : recv c = Some (t, RLoad) → goes_on (recv_step c late).
Proof.
  intros Hr. pose proof (not_told _ Hr) as Htd. pose proof (ci_at _ _ _ Hc) as Hat. rewrite Hr in Hat. cbn in Hat. subst t.
  pose proof (counts_load _ _ _ _ _ _ _ _ (ci_counts _ _ _ Hc) Hr Htd) as Hcn.
  unfold recv_step. rewrite Hr. eexists. split; [reflexivity|]. left. destruct (0 <=? _size c).
  - rewrite <- at_receiver_same. apply adv_goto; rewrite ?Hr; [done|done|done|cbn; lia].
  - rewrite <- finish_same. apply adv_finish; rewrite ?Hr; [done|done|]. by rewrite orb_true_r.
Qed.

Lemma recv_get late t : recv c = Some (t, RGet) → goes_on (recv_step c late).
Proof.
  intros Hr. pose proof (not_told _ Hr) as Htd. pose proof (ci_counts _ _ _ Hc) as Hcn.
  pose proof (counts_get_some _ _ _ _ _ _ _ _ Hcn t Hr Htd) as Hsome.
  pose proof (counts_get _ _ _ _ _ _ _ _ Hcn t Hr Htd) as Hcn'. pose proof (cnt_nonneg uncounted (senders c)).
  unfold recv_step. rewrite Hr. destruct cinv_pop as (q&r&->&Hp). step_ok. eexists. split; [reflexivity|].
  destruct r as [v|].
  - left. destruct Hp as (ns'&vs'&Hv&Hq'&Hl'). eapply adv_popped; try done; rewrite ?Hr; cbn -[was_told]; try done; try lia.
    + by rewrite items_snoc, app_nil_r.
    + rewrite was_told_snoc, orb_false_r. replace (Z.of_nat (length vs')) with (Z.of_nat (length vs) - 1); [done|].
      rewrite Hv. cbn; lia.
  - right. destruct Hp as [-> [Hv|Hu]]; [rewrite Hv in Hsome; cbn in Hsome; lia|].
    split; [apply with_q_same|]. right. split; [|done]. by eexists.
Qed.

Lemma recv_step_ok late : recv c ≠ None → goes_on (recv_step c late).
Proof.
  intros Hr. pose proof (ci_at _ _ _ Hc) as Hat. destruct (recv c) as [[t p]|] eqn:E; [|done].
  destruct p; try done; eauto using recv_spin, recv_taken, recv_token, recv_wait, recv_block, recv_load, recv_get.
Qed.
End step.

Lemma cstep_inv c c' ns vs : CInv c ns vs → cstep c c' → ∃ ns' vs', CInv c' ns' vs'.
Proof.
  intros Hc Hs. destruct Hs as [c i v n Hi Hn Hst Hb|c i c' He|c t k Hr Ht Htd|c late c' He|c Hid Hst].
  - eexists _, _. by apply cinv_send.
  - destruct (send_step_ok c ns vs Hc i) as (c2&ns2&vs2&He2&?). exists ns2, vs2. congruence.
  - eexists _, _. by apply cinv_begin.
  - destruct (recv c) eqn:Hr.
    + destruct (recv_step_ok c ns vs Hc late) as (c2&He2&H); [by rewrite Hr|]. assert (c2 = c') as -> by congruence.
      destruct H as [[? _]|[-> _]]; [done|]. by exists ns, vs.
    + unfold recv_step in He. rewrite Hr in He. injection He as <-. by exists ns, vs.
  - eexists _, _. by apply cinv_stop.
Qed.

Lemma creach_inv a n c : rtc cstep (RpcChannel_ a n) c → ∃ ns vs, CInv c ns vs.
Proof.
  intros Hr. assert (Hi : ∃ ns vs, CInv (RpcChannel_ a n) ns vs) by (eexists _, _; apply cinv_init).
  induction Hr as [|c0 c1 c Hs _ IH]; [done|]. destruct Hi as (ns&vs&Hi). apply IH. by eapply cstep_inv.
Qed.

(** Nobody is in [send]. *)
Definition quiet (c : chan) : Prop := Forall (λ p, p = SIdle) (senders c).

Lemma quiet_counts c : quiet c → cnt uncounted (senders c) = 0 ∧ cnt writing (senders c) = 0.
Proof. intros Hq. split; apply cnt_zero; (eapply Forall_impl; [exact Hq|]); by intros ? ->. Qed.

(** [recv] run on its own. *)
Fixpoint recv_loop (fuel : nat) (c : chan) : result chan :=
  match fuel with
  | O => Ok c
  | S fuel => c ← recv_step c false; recv_loop fuel c
  end.

(** A call keeps its timeout and returns once. *)
Lemma recv_step_shape c late c' t p :
  recv c = Some (t, p) → recv_step c late = Ok c' →
  (∃ p', recv c' = Some (t, p') ∧ returned c' = returned c) ∨
  (recv c' = None ∧ ∃ r, returned c' = returned c ++ [(t, r)]).
Proof.
  intros Hr. unfold recv_step. rewrite Hr. intros He.
  destruct p as [[|k]|v|v| | | | | | | |]; try apply bind_ok in He as ([]&_&He); injection He as <-;
    repeat case_match; cbn; rewrite ?Hr; eauto.
Qed.

Lemma recv_loop_idle fuel c : recv c = None → recv_loop fuel c = Ok c.
Proof.
  induction fuel as [|fuel IH]; intros Hr; [done|]. cbn [recv_loop]. unfold recv_step at 1. rewrite Hr. by apply IH.
Qed.

(** When nobody is in [send] and there is something to return, the receiver moves on. *)
Lemma recv_advances c ns vs t p rest late :
  CInv c ns vs → recv c = Some (t, p) → quiet c → pushed c = omap snd (returned c) ++ rest →
  rest ≠ [] ∨ stopped c = true ∨ t = 0 → ∃ c', recv_step c late = Ok c' ∧ advances c c'.
Proof.
  intros Hc Hr Hq Hrest Hsome. destruct (recv_step_ok c ns vs Hc late) as (c'&He&[?|[_ Hw]]); [by rewrite Hr|eauto|].
  exfalso. destruct (quiet_counts c Hq) as [Hu Hwr]. destruct Hw as [[Hsl Hfd]|[_ ?]]; [|lia].
  pose proof (ci_items _ _ _ Hc) as Hit. rewrite Hrest in Hit. apply app_inv_head in Hit.
  destruct (counts_asleep _ _ _ _ _ _ _ _ (ci_counts _ _ _ Hc) Hsl Hu Hwr Hfd) as [(Hn&Hb&Hst)|Hat];
    [|by apply Hat, (ci_at _ _ _ Hc)].
  rewrite Hb in Hr. injection Hr as <- <-. destruct Hsome as [Hne|[?|?]]; [|congruence|done]. apply Hne. rewrite Hit, Hb.
  destruct vs; [done|cbn in Hn; lia].
Qed.

Lemma recv_returns fuel : ∀ c ns vs t p rest,
  CInv c ns vs → recv c = Some (t, p) → quiet c → pushed c = omap snd (returned c) ++ rest →
  rest ≠ [] ∨ stopped c = true ∨ t = 0 → (rweight (recv c) ≤ fuel)%nat →
  ∃ c' r ns' vs', recv_loop fuel c = Ok c' ∧ recv c' = None ∧ returned c' = returned c ++ [(t, r)] ∧
    pushed c' = pushed c ∧ stopped c' = stopped c ∧ CInv c' ns' vs'.
Proof.
  induction fuel as [|fuel IH]; intros c ns vs t p rest Hc Hr Hq Hrest Hsome Hf.
  { rewrite Hr in Hf. destruct p; cbn in Hf; lia. }
  destruct (recv_advances c ns vs t p rest false) as (c1&He&((ns1&vs1&Hc1)&Hsd&Hst&Hpu&Hw)); try done.
  cbn [recv_loop]. rewrite He. step_ok. destruct (recv_step_shape c false c1 t p Hr He) as [(p'&Hr1&Hret)|(Hr1&r&Hret)].
  - destruct (IH c1 ns1 vs1 t p' rest) as (c'&r&ns'&vs'&Hl&Hr'&Hret'&Hpu'&Hst'&Hc'); try done.
    + unfold quiet. by rewrite Hsd.
    + by rewrite Hpu, Hret.
    + by rewrite Hst.
    + lia.
    + exists c', r, ns', vs'. split; [done|]. split; [done|]. by rewrite Hret', Hret, Hpu', Hpu, Hst'.
  - exists c1, r, ns1, vs1. split; [by apply recv_loop_idle|]. auto.
Qed.

(** A [send] under way: how many steps are left. *)
Definition sweight (p : sender) : nat := match p with SIdle => 0 | SLink _ _ => 3 | SAdd => 2 | SWrite => 1 end.

Lemma send_advances c ns vs i p :
  CInv c ns vs → senders c !! i = Some p → p ≠ SIdle →
  ∃ c' p', send_step c i = Ok c' ∧ senders c' !! i = Some p' ∧ (sweight p' < sweight p)%nat.
Proof.
  intros Hc Hi Hp. destruct (send_step_ok c ns vs Hc i) as (c'&_&_&He&_). unfold send_step in *. rewrite Hi in *.
  assert (Hil : (i < length (senders c))%nat) by by eapply lookup_lt_Some.
  destruct p as [|a b| |]; [done|..]; try (apply bind_ok in He as (q&Hq&He); rewrite Hq; step_ok);
    eexists _, _; (split; [reflexivity|]); cbn [at_sender with_q with_size with_fd senders];
    rewrite list_lookup_insert_eq by done; (split; [reflexivity|]); try case_match; cbn; lia.
Qed.

(** ** Schedules *)
Inductive caction :=
  | ASend (i : nat) (v : T) (n : addr_t) | ASender (i : nat)
  | ARecv (timeout : Z) (spin_count : nat) | AReceiver (late : bool) | ATerminate.

Definition exec (c : chan) (x : caction) : result chan :=
  match x with
  | ASend i v n => Ok (send c i v n)
  | ASender i => send_step c i
  | ARecv t k => Ok (recv_begin c t k)
  | AReceiver late => recv_step c late
  | ATerminate => Ok (terminate c)
  end.

Fixpoint run_chan (c : chan) (xs : list caction) : result chan :=
  match xs with
  | [] => Ok c
  | x :: xs => c ← exec c x; run_chan c xs
  end.

(** The conditions of [cstep]. *)
Definition allowed (c : chan) (x : caction) : bool :=
  match x with
  | ASend i v n =>
      match senders c !! i, MpscQueue.mem (_q c) !! n with Some SIdle, None => true | _, _ => false end
      && negb (stopped c) && (Z.of_nat (length (pushed c)) <? 2 ^ 63 - 1)
  | ARecv t _ =>
      match recv c with None => true | _ => false end && ((t =? -1) || (t =? 0)) && negb (was_told (returned c))
  | ATerminate => forallb (λ p, match p with SIdle => true | _ => false end) (senders c) && negb (stopped c)
  | _ => true
  end.

Fixpoint run_allowed (c : chan) (xs : list caction) : result chan :=
  match xs with
  | [] => Ok c
  | x :: xs => _ ← SCHECK (allowed c x); c ← exec c x; run_allowed c xs
  end.

Lemma run_allowed_reach xs : ∀ c c', run_allowed c xs = Ok c' → rtc cstep c c'.
Proof.
  induction xs as [|x xs IH]; intros c c'; cbn [run_allowed]; [intros [= ->]; constructor|].
  destruct (allowed c x) eqn:Ha; [|done]. step_ok. rewrite bind_ok. intros (c1&He&Hr).
  eapply rtc_l; [|by apply IH]. destruct x as [i v n|i|t k|late|]; cbn [exec allowed] in *.
  - injection He as <-. apply andb_prop in Ha as [[Ha Hst]%andb_prop Hb].
    destruct (senders c !! i) as [[]|] eqn:Hi; try done. destruct (MpscQueue.mem (_q c) !! n) eqn:Hn; [done|].
    apply cs_send; [done|done|by destruct (stopped c)|by apply Z.ltb_lt].
  - by eapply cs_sender.
  - injection He as <-. apply andb_prop in Ha as [[Ha Ht]%andb_prop Hw].
    apply cs_recv; [by destruct (recv c)|lia|by destruct (was_told _)].
  - by eapply cs_receiver.
  - injection He as <-. apply andb_prop in Ha as [Hf Hst]. apply cs_terminate; [|by destruct (stopped c)].
    apply Forall_forall. intros p Hp. rewrite forallb_forall in Hf. apply list_elem_of_In, Hf in Hp. by destruct p.
Qed.
End channel.
Arguments chan : clear implicits.
Arguments receiver : clear implicits.
Arguments caction : clear implicits.

(** ** Properties *)

(** C3: the channel delivers. Any number of threads send and one receives, interleaved access by
    access, with timeouts -1 (wait) and 0 (look); [terminate] is called at most once, while no
    [send] is under way, and nobody sends after it; fewer than 2^63 items are sent; and the
    receiver does not call [recv] again once a waiting call has returned false (such a call
    fails the check that the counter is not negative). In every reachable state what the calls
    of [recv] returned, followed by the item in the receiver's hands and those in the queue, is
    what was sent, in the order of the exchanges; a call that waits has returned false only
    after [terminate] and when every item has been returned; no step aborts. *)
Theorem rpc_channel_delivers {T : Type} (a : addr_t) (n : nat) (c : chan T) :
  rtc cstep (RpcChannel_ a n) c →
  (∃ ns left, MpscQueue.inv (_q c) ns left ∧
     pushed c = omap snd (returned c) ++ option_list (in_hand (recv c)) ++ left) ∧
  (was_told (returned c) = true → stopped c = true ∧ pushed c = omap snd (returned c)) ∧
  (∀ i, is_ok (send_step c i)) ∧ (∀ late, is_ok (recv_step c late)).
Proof.
  intros (ns&vs&Hc)%creach_inv. split; [exists ns, vs; split; apply Hc|]. split; [|split].
  - intros Htd. destruct (cn_told _ _ _ _ _ _ _ _ (ci_counts _ _ _ Hc) Htd) as (Hr&Hst&Hn). split; [done|].
    rewrite (ci_items _ _ _ Hc), Hr. destruct vs; [by rewrite app_nil_r|cbn in Hn; lia].
  - intros i. destruct (send_step_ok c ns vs Hc i) as (c'&_&_&He&_). by exists c'.
  - intros late. destruct (recv c) eqn:Hr; [|unfold recv_step; rewrite Hr; by eexists].
    destruct (recv_step_ok c ns vs Hc late) as (c'&He&_); [by rewrite Hr|]. by exists c'.
Qed.

(** C7: the receiver is woken. The channel is used as for the delivery: one receiver, timeouts
    -1 and 0, [terminate] at most once, between the sends and after the last of them, and no
    call of [recv] after a waiting one that returned false (it would abort). In every state so
    reached a [send] under way has at most three steps left and none of them blocks; and when no
    [send] is under way, a call of [recv] that has begun returns within a number of steps that
    depends on its spin count only, if there is an item for it, or [terminate] was called, or
    its timeout is 0. It returns the oldest item; it returns none only with timeout 0, or after
    [terminate] when there is none. *)
Theorem rpc_channel_wakes {T : Type} (a : addr_t) (n : nat) (c : chan T) :
  rtc cstep (RpcChannel_ a n) c →
  (∀ i p, senders c !! i = Some p → p ≠ SIdle →
     ∃ c' p', send_step c i = Ok c' ∧ senders c' !! i = Some p' ∧ (sweight p' < sweight p ≤ 3)%nat) ∧
  (∀ t p rest, recv c = Some (t, p) → quiet c → pushed c = omap snd (returned c) ++ rest →
     rest ≠ [] ∨ stopped c = true ∨ t = 0 →
     ∃ c' r, recv_loop (rweight (recv c)) c = Ok c' ∧ recv c' = None ∧ returned c' = returned c ++ [(t, r)] ∧
       match r with Some v => head rest = Some v | None => t = 0 ∨ stopped c = true ∧ rest = [] end).
Proof.
  intros (ns&vs&Hc)%creach_inv. split.
  - intros i p Hi Hp. destruct (send_advances c ns vs i p Hc Hi Hp) as (c'&p'&He&Hs&Hw). exists c', p'.
    split; [done|]. split; [done|]. split; [done|]. destruct p; cbn; lia.
  - intros t p rest Hr Hq Hrest Hsome.
    destruct (recv_returns (rweight (recv c)) c ns vs t p rest) as (c'&r&ns'&vs'&Hl&Hr'&Hret&Hpu&Hstp&Hc'); try done.
    exists c', r. split; [done|]. split; [done|]. split; [done|].
    pose proof (ci_items _ _ _ Hc') as Hit. rewrite Hpu, Hrest, Hret, items_snoc, Hr', <- app_assoc in Hit.
    apply app_inv_head in Hit. destruct r as [v|]; [by rewrite Hit|].
    destruct (Z.eqb_spec t (-1)) as [->|Hne].
    + right. assert (Htd : was_told (returned c') = true) by (rewrite Hret, was_told_snoc; apply orb_true_r).
      destruct (cn_told _ _ _ _ _ _ _ _ (ci_counts _ _ _ Hc') Htd) as (_&Hst&Hn).
      rewrite Hit. destruct vs'; [|cbn in Hn; lia]. by rewrite <- Hstp.
    + left. pose proof (ci_at _ _ _ Hc) as Hat. rewrite Hr in Hat. destruct p; cbn in Hat; try done; lia.
Qed.

(** ** Witnesses *)
#[local] Abbreviation recvs k := (replicate k (AReceiver false)).

(** Two senders; the second item is in the queue, the first one was received by a call
    that waited for it. *)
Definition demo_chan : chan nat :=
  match run_allowed (RpcChannel_ 0 2)
    ([ARecv (-1) 1] ++ recvs 3 ++ [ASend 0 10%nat 1; ASender 0; ASender 0; ASender 0] ++ recvs 3 ++
     [ASend 1 11%nat 2; ASender 1; ASender 1; ARecv (-1) 1]) with
  | Ok c => c
  | Abort => RpcChannel_ 0 2
  end.

Lemma demo_chan_reach : rtc cstep (RpcChannel_ 0 2) demo_chan.
Proof. unfold demo_chan. destruct (run_allowed _ _) eqn:E; [|constructor]. by eapply run_allowed_reach. Qed.

Lemma rpc_channel_delivers_witness :
  pushed demo_chan = [10; 11]%nat ∧ returned demo_chan = [(-1, Some 10%nat)] ∧
  (∃ ns left, MpscQueue.inv (_q demo_chan) ns left ∧
     pushed demo_chan = omap snd (returned demo_chan) ++ option_list (in_hand (recv demo_chan)) ++ left) ∧
  (∀ late, is_ok (recv_step demo_chan late)).
Proof.
  split; [vm_compute; reflexivity|]. split; [vm_compute; reflexivity|].
  destruct (rpc_channel_delivers 0 2 demo_chan demo_chan_reach) as (H1&_&_&H2). split; [exact H1|exact H2].
Defined.

Lemma rpc_channel_wakes_witness :
  ∃ c' r, recv_loop (rweight (recv demo_chan)) demo_chan = Ok c' ∧ recv c' = None ∧
    returned c' = [(-1, Some 10%nat); (-1, r)] ∧ r = Some 11%nat.
Proof.
  destruct (rpc_channel_wakes 0 2 demo_chan demo_chan_reach) as [_ H].
  assert (Hr : recv demo_chan = Some (-1, RSpin 1)) by (vm_compute; reflexivity).
  assert (Hret : returned demo_chan = [(-1, Some 10%nat)]) by (vm_compute; reflexivity).
  destruct (H (-1) (RSpin 1) [11%nat] Hr) as (c'&r&Hl&Hn&Hr'&Hm);
    [vm_compute; repeat constructor|vm_compute; reflexivity|by left|].
  exists c', r. split; [exact Hl|]. split; [exact Hn|]. rewrite Hr', Hret. split; [reflexivity|].
  destruct r as [v|]; [by injection Hm as <-|]. destruct Hm as [?|[_ ?]]; discriminate.
Defined.

(** ** Where the channel fails *)

(** A send that meets a timeout leaves a token behind: two calls later, a call that waits
    returns false although nobody has called [terminate], and the next call fails its
    check. *)
Theorem timeout_leaves_token :
  let xs := [ARecv 5 0; AReceiver false; AReceiver false; AReceiver true;
             ASend 0 10%nat 1; ASender 0; ASender 0; ASender 0; AReceiver false;
             ARecv (-1) 1; AReceiver false; AReceiver false; ARecv (-1) 1] ++ recvs 5 in
  match run_chan (RpcChannel_ 0 1) xs with
  | Ok c => returned c = [(5, None); (-1, Some 10%nat); (-1, None)] ∧ stopped c = false ∧
            run_chan c ([ARecv (-1) 1] ++ recvs 3) = Abort
  | Abort => False
  end.
Proof. vm_compute. repeat split. Qed.

(** [terminate] while a [send] is between its push and its count: the receiver takes the
    item and the token, and fails its check in the next call. *)
Theorem terminate_races_send :
  run_chan (RpcChannel_ 0 1)
    ([ASend 0 10%nat 1; ASender 0; ATerminate; ARecv (-1) 1] ++ recvs 3 ++ [ARecv (-1) 1] ++ recvs 3) = Abort.
Proof. vm_compute. reflexivity. Qed.

(** A call with a timeout that is woken while the oldest item is not linked returns false
    and forgets an item: the receiver ends up with it in its hands, waiting for a token
    that nobody will write. *)
Theorem poll_forgets_item :
  let xs := [ARecv 5 0; AReceiver false; AReceiver false;
             ASend 0 10%nat 1; ASend 1 11%nat 2; ASender 1; ASender 1; ASender 1] ++ recvs 3 ++
            [ASender 0; ASender 0; ARecv (-1) 1] ++ recvs 2 ++ [ARecv (-1) 1] ++ recvs 2 in
  match run_chan (RpcChannel_ 0 2) xs with
  | Ok c => returned c = [(5, None); (-1, Some 10%nat)] ∧ senders c = [SIdle; SIdle] ∧
            recv c = Some (-1, RToken 11%nat) ∧ _fd c = 0
  | Abort => False
  end.
Proof. vm_compute. repeat split. Qed.
