(* ===== verification/Master.v ===== *)
(** * The master: a tree of named nodes served over the socket

    src/src/rpc/Master.h and src/src/rpc/Master.cpp.  The master keeps a map from
    paths to nodes.  A node is permanent, or ephemeral: owned by the connection that
    created it and removed with it.  Every node lists the names of its children, so
    that the map is a tree whose edges are stored twice; clients add, delete, read
    and list nodes, have names generated, and are notified of every change.

    A [TcpSocket*] is an abstract identity.  The log [_sent] holds the calls of
    [send_rpc_message], in order.  The iteration order of the unordered maps is a
    parameter.  Sockets, [poll] and the serving thread are Socket.v's business; here a
    readable descriptor delivers decoded messages. *)
From stdpp Require Import sorting.
From S2P Require Import Prelude Archive Serialize LazyArchive Message.
Import MemoryArchive.

(** ** Strings *)

(** [std::string]. *)
Abbreviation str := (list byte).

Definition lit (s : string) : str := String.list_byte_of_string s.

Definition slash : byte := Byte.x2f.

(** [std::to_string] of an [int]: the digits, most significant first. *)
Definition digit (z : Z) : byte := byte.of_Z (48 + z).

Fixpoint digits (fuel : nat) (z : Z) : str :=
  match fuel with
  | O => []
  | S fuel => if z <? 10 then [digit z] else digits fuel (z / 10) ++ [digit (z mod 10)]
  end.

Definition to_string (z : Z) : str :=
  if z <? 0 then Byte.x2d :: digits 20 (- z) else digits 20 z.

(** [operator<] of [std::string]: bytes compare as [unsigned char]. *)
Fixpoint str_ltb (s t : str) : bool :=
  match s, t with
  | _, [] => false
  | [], _ :: _ => true
  | c :: s, d :: t =>
      if byte.unsigned c <? byte.unsigned d then true
      else if byte.unsigned d <? byte.unsigned c then false
      else str_ltb s t
  end.

Definition str_le (s t : str) : Prop := str_ltb t s = false.

#[global] Instance str_le_dec : RelDecision str_le.
Proof. intros s t. unfold str_le. apply _. Defined.

(** [path.find_last_of('/')]; [None] is [npos]. *)
Fixpoint find_last_of (c : byte) (s : str) : option nat :=
  match s with
  | [] => None
  | d :: s =>
      match find_last_of c s with
      | Some p => Some (S p)
      | None => if decide (d = c) then Some 0%nat else None
      end
  end.

(** [path.substr(p + 1)] and [path.substr(0, p)]; [npos + 1] is 0. *)
Definition key_of (path : str) : str :=
  match find_last_of slash path with Some p => drop (S p) path | None => path end.
Definition parent_of (path : str) : str :=
  match find_last_of slash path with Some p => take p path | None => path end.

(** The loop of [master_check_valid_path]: no ['/'] ends the path or precedes another. *)
Fixpoint check_slashes (path : str) : bool :=
  match path with
  | [] => true
  | c :: rest =>
      if decide (c = slash) then
        match rest with
        | [] => false
        | d :: _ => if decide (d = slash) then false else check_slashes rest
        end
      else check_slashes rest
  end.

Definition master_check_valid_path (path : str) : bool :=
  match path with
  | [] => false
  | c :: _ => if decide (c = slash) then check_slashes path else false
  end.

(** ** Protocol *)
Definition WATCHER_NOTIFY_RPC_ID : Z := -1.

Inductive MasterStatus := OK | NODE_FAILED | PATH_FAILED | DISCONNECTED | ERROR.

Definition status_to (s : MasterStatus) : Z :=
  match s with OK => 0 | NODE_FAILED => 1 | PATH_FAILED => 2 | DISCONNECTED => 3 | ERROR => 4 end.

(** [OTHER_REQ] is a value of the enum's type that no enumerator has. *)
Inductive PicoMasterReqType :=
  | MASTER_GEN | MASTER_ADD | MASTER_DEL | MASTER_GET | MASTER_SET | MASTER_SUB
  | MASTER_EXIT | MASTER_CLIENT_FINALIZE | OTHER_REQ (z : Z).

Definition req_to (r : PicoMasterReqType) : Z :=
  match r with
  | MASTER_GEN => 0 | MASTER_ADD => 1 | MASTER_DEL => 2 | MASTER_GET => 3 | MASTER_SET => 4
  | MASTER_SUB => 5 | MASTER_EXIT => 6 | MASTER_CLIENT_FINALIZE => 7 | OTHER_REQ z => z
  end.

Definition req_from (z : Z) : PicoMasterReqType :=
  match z with
  | 0 => MASTER_GEN | 1 => MASTER_ADD | 2 => MASTER_DEL | 3 => MASTER_GET | 4 => MASTER_SET
  | 5 => MASTER_SUB | 6 => MASTER_EXIT | 7 => MASTER_CLIENT_FINALIZE | _ => OTHER_REQ z
  end.

(** The values streamed into requests and responses. *)
Definition v_status (s : MasterStatus) : sigT value := existT (TyInt t_i8) (status_to s).
Definition v_req (r : PicoMasterReqType) : sigT value := existT (TyInt t_i8) (req_to r).
Definition v_string (s : str) : sigT value := existT TyString s.
Definition v_strings (l : list str) : sigT value := existT (TyVec TyString) l.
Definition v_bool (b : bool) : sigT value := existT TyBool b.

(** ** State *)
Abbreviation sock := nat.

Record MasterNode := Node {
  owner : option sock;
  node_value : str;
  sub : gset str;
}.

(** A response on its way: the socket, the head, the streamed values. *)
Record packet := Packet { p_to : sock; p_head : rpc_head_t; p_body : list (sigT value) }.

Record Master := MkMaster {
  _gen_id : gmap str Z;
  _path : gmap str MasterNode;
  _fd_socket_map : gmap Z sock;
  _watchers : gmap sock rpc_head_t;
  _sent : list packet;
}.

Definition init : Master := MkMaster ∅ ∅ ∅ ∅ [].

Definition with_gen (s : Master) g := MkMaster g (_path s) (_fd_socket_map s) (_watchers s) (_sent s).
Definition with_path (s : Master) p := MkMaster (_gen_id s) p (_fd_socket_map s) (_watchers s) (_sent s).
Definition with_socks (s : Master) f := MkMaster (_gen_id s) (_path s) f (_watchers s) (_sent s).
Definition with_watchers (s : Master) w := MkMaster (_gen_id s) (_path s) (_fd_socket_map s) w (_sent s).
Definition send (s : Master) (ps : list packet) :=
  MkMaster (_gen_id s) (_path s) (_fd_socket_map s) (_watchers s) (_sent s ++ ps).

(** [it->second.sub] changed in place. *)
Definition with_sub (n : MasterNode) (k : gset str) : MasterNode := Node (owner n) (node_value n) k.

Definition default_node : MasterNode := Node None [] ∅.

(** The elements of a [std::set<std::string>], in order. *)
Definition in_order (k : gset str) : list str := merge_sort str_le (elements k).

Section handlers.
Context (junk : nat → byte).
(** Iteration over [_path] and over [_watchers]. *)
Context (iter_path : gmap str MasterNode → list (str * MasterNode)).
Context (iter_watchers : gmap sock rpc_head_t → list (sock * rpc_head_t)).

Definition notify_watchers (s : Master) (path : str) : Master :=
  send s ((λ w, Packet w.1 (RpcResponse_head w.2) [v_string path]) <$> iter_watchers (_watchers s)).

(** One turn of the second loop of [disconnect_clear_data].  [_path[parent]] creates
    the parent when it is missing. *)
Definition clear_one (s : Master) (path : str) : result Master :=
  let key := key_of path in
  let parent := parent_of path in
  _ ← SCHECK (bool_decide (is_Some (_path s !! path)));
  let m := delete path (_path s) in
  let pn := default default_node (m !! parent) in
  _ ← SCHECK (bool_decide (key ∈ sub pn));
  Ok (notify_watchers (with_path s (<[parent := with_sub pn (sub pn ∖ {[key]})]> m)) path).

Fixpoint clear_all (s : Master) (temp : list str) : result Master :=
  match temp with
  | [] => Ok s
  | path :: temp => s ← clear_one s path; clear_all s temp
  end.

Definition disconnect_clear_data (s : Master) (tcp_socket : sock) : result Master :=
  clear_all s (fst <$> filter (λ p, owner p.2 = Some tcp_socket) (iter_path (_path s))).

(** The handlers return the values streamed into the response. *)
Definition reply (s : Master) (xs : list (sigT value)) : result (Master * list (sigT value)) :=
  Ok (s, xs).

(** [while (key.length() < 10) key = '0' + key]. *)
Definition pad (key : str) : str := replicate (10 - length key) Byte.x30 ++ key.

Definition master_gen (s : Master) (tcp_socket : sock) (req : archive)
    : result (Master * list (sigT value)) :=
  '(req, parent) ← op_in (c_string junk) req;
  '(req, value) ← op_in (c_string junk) req;
  '(req, ephemeral) ← op_in (c_bool junk) req;
  if negb (master_check_valid_path parent) then reply s [v_status ERROR]
  else match _path s !! parent with
  | None => reply s [v_status NODE_FAILED]
  | Some pn =>
      if decide (is_Some (owner pn)) then reply s [v_status NODE_FAILED]
      else
        let own := if (ephemeral : bool) then Some tcp_socket else None in
        let n := default 0 (_gen_id s !! parent) in
        let s := with_gen s (<[parent := i32 (n + 1)]> (_gen_id s)) in
        let key := Byte.x5f :: pad (to_string n) in
        let path := parent ++ [slash] ++ key in
        if (11 <? length key)%nat then reply s [v_status ERROR]
        else match _path s !! path with
        | Some _ => reply s [v_status PATH_FAILED]
        | None =>
            let m := <[path := Node own value ∅]> (_path s) in
            _ ← SCHECK (bool_decide (key ∉ sub pn));
            let s := with_path s (<[parent := with_sub pn ({[key]} ∪ sub pn)]> m) in
            reply (notify_watchers s path) [v_status OK; v_string key]
        end
  end.

Definition master_add (s : Master) (tcp_socket : sock) (req : archive)
    : result (Master * list (sigT value)) :=
  '(req, path) ← op_in (c_string junk) req;
  '(req, value) ← op_in (c_string junk) req;
  '(req, ephemeral) ← op_in (c_bool junk) req;
  if negb (master_check_valid_path path) then reply s [v_status ERROR]
  else
    let key := key_of path in
    let parent := parent_of path in
    match _path s !! parent with
    | None => reply s [v_status PATH_FAILED]
    | Some pn =>
        if decide (is_Some (owner pn)) then reply s [v_status PATH_FAILED]
        else
          let own := if (ephemeral : bool) then Some tcp_socket else None in
          match _path s !! path with
          | Some _ => reply s [v_status NODE_FAILED]
          | None =>
              let m := <[path := Node own value ∅]> (_path s) in
              _ ← SCHECK (bool_decide (key ∉ sub pn));
              let s := with_path s (<[parent := with_sub pn ({[key]} ∪ sub pn)]> m) in
              reply (notify_watchers s path) [v_status OK]
          end
    end.

Definition master_del (s : Master) (req : archive) : result (Master * list (sigT value)) :=
  '(req, path) ← op_in (c_string junk) req;
  if negb (master_check_valid_path path) then reply s [v_status ERROR]
  else
    let key := key_of path in
    let parent := parent_of path in
    match _path s !! path with
    | None => reply s [v_status NODE_FAILED]
    | Some n =>
        if negb (bool_decide (sub n = ∅)) then reply s [v_status PATH_FAILED]
        else
          let m := delete path (_path s) in
          let s := with_gen s (delete path (_gen_id s)) in
          match m !! parent with
          | None => Abort
          | Some pn =>
              _ ← SCHECK (bool_decide (key ∈ sub pn));
              let s := with_path s (<[parent := with_sub pn (sub pn ∖ {[key]})]> m) in
              reply (notify_watchers s path) [v_status OK]
          end
    end.

Definition master_set (s : Master) (req : archive) : result (Master * list (sigT value)) :=
  '(req, path) ← op_in (c_string junk) req;
  '(req, value) ← op_in (c_string junk) req;
  if negb (master_check_valid_path path) then reply s [v_status ERROR]
  else match _path s !! path with
  | None => reply s [v_status NODE_FAILED]
  | Some n =>
      let s := with_path s (<[path := Node (owner n) value (sub n)]> (_path s)) in
      reply (notify_watchers s path) [v_status OK]
  end.

Definition master_get (s : Master) (req : archive) : result (Master * list (sigT value)) :=
  '(req, path) ← op_in (c_string junk) req;
  if negb (master_check_valid_path path) then reply s [v_status ERROR]
  else match _path s !! path with
  | None => reply s [v_status NODE_FAILED]
  | Some n => reply s [v_status OK; v_string (node_value n)]
  end.

Definition master_sub (s : Master) (req : archive) : result (Master * list (sigT value)) :=
  '(req, path) ← op_in (c_string junk) req;
  if negb (master_check_valid_path path) then reply s [v_status ERROR]
  else match _path s !! path with
  | None => reply s [v_status NODE_FAILED]
  | Some n => reply s [v_status OK; v_strings (in_order (sub n))]
  end.

(** [_path[""]]. *)
Definition touch_root (s : Master) : Master :=
  match _path s !! [] with
  | Some _ => s
  | None => with_path s (<[[] := default_node]> (_path s))
  end.

(** The last component is the flag [exit]. *)
Definition handle_op (s : Master) (tcp_socket : sock) (req : archive) (exit : bool)
    : result (Master * list (sigT value) * bool) :=
  let s := touch_root s in
  '(req, op) ← op_in (c_enum junk t_i8 req_to req_from) req;
  match op with
  | MASTER_GEN => '(s, resp) ← master_gen s tcp_socket req; Ok (s, resp, exit)
  | MASTER_ADD => '(s, resp) ← master_add s tcp_socket req; Ok (s, resp, exit)
  | MASTER_DEL => '(s, resp) ← master_del s req; Ok (s, resp, exit)
  | MASTER_SET => '(s, resp) ← master_set s req; Ok (s, resp, exit)
  | MASTER_GET => '(s, resp) ← master_get s req; Ok (s, resp, exit)
  | MASTER_SUB => '(s, resp) ← master_sub s req; Ok (s, resp, exit)
  | MASTER_EXIT => Ok (s, [], true)
  | MASTER_CLIENT_FINALIZE =>
      s ← disconnect_clear_data s tcp_socket;
      Ok (with_watchers s (delete tcp_socket (_watchers s)), [], exit)
  | OTHER_REQ _ => Ok (s, [], exit)
  end.

(** ** The serving loop *)

(** What [poll] and the socket of a descriptor report: a connection (the new
    descriptor and object), or the complete requests of a descriptor (head and body)
    and whether its connection is still open. *)
Inductive event :=
  | Accepted (fd : Z) (tcp_socket : sock)
  | Readable (fd : Z) (reqs : list (rpc_head_t * archive)) (socket_alive : bool).

(** The head of the request registered for a watcher: [RpcRequest fake(-1)]. *)
Definition fake_head : rpc_head_t :=
  RpcHead 0 (-1) (-1) (-1) (-1) WATCHER_NOTIFY_RPC_ID (-1) 0 0 SUCC.

Fixpoint handle_messages (s : Master) (tcp_socket : sock) (reqs : list (rpc_head_t * archive))
    (exit : bool) : result (Master * bool) :=
  match reqs with
  | [] => Ok (s, exit)
  | (hd, req) :: reqs =>
      '(s, resp, exit) ← handle_op s tcp_socket req exit;
      handle_messages (send s [Packet tcp_socket (RpcResponse_head hd) resp]) tcp_socket reqs exit
  end.

(** The body of the loop over the ready descriptors.  [emplace] and [insert] keep an
    entry that exists. *)
Definition serve_event (s : Master) (exit : bool) (e : event) : result (Master * bool) :=
  match e with
  | Accepted fd tcp_socket =>
      let s := with_watchers s (match _watchers s !! tcp_socket with
                                | Some _ => _watchers s
                                | None => <[tcp_socket := fake_head]> (_watchers s)
                                end) in
      Ok (with_socks s (match _fd_socket_map s !! fd with
                        | Some _ => _fd_socket_map s
                        | None => <[fd := tcp_socket]> (_fd_socket_map s)
                        end), exit)
  | Readable fd reqs socket_alive =>
      match _fd_socket_map s !! fd with
      | None => Abort
      | Some tcp_socket =>
          '(s, exit) ← handle_messages s tcp_socket reqs exit;
          if (socket_alive : bool) then Ok (s, exit)
          else
            s ← disconnect_clear_data s tcp_socket;
            let s := with_watchers s (delete tcp_socket (_watchers s)) in
            Ok (with_socks s (delete fd (_fd_socket_map s)), exit)
      end
  end.

(** One turn of [serving]: the descriptors one [poll] returned. *)
Fixpoint serve_round (s : Master) (exit : bool) (es : list event) : result (Master * bool) :=
  match es with
  | [] => Ok (s, exit)
  | e :: es => '(s, exit) ← serve_event s exit e; serve_round s exit es
  end.

(** [serving]: rounds until an exit was requested and every client is gone. *)
Fixpoint serving (s : Master) (exit : bool) (rounds : list (list event))
    : result (Master * bool) :=
  match rounds with
  | [] => Ok (s, false)
  | es :: rounds =>
      '(s, exit) ← serve_round s exit es;
      if exit && bool_decide (_fd_socket_map s = ∅) then Ok (s, true) else serving s exit rounds
  end.
End handlers.

(** ** Paths *)

(** The path of the child [k] of [p]. *)
Definition child (p k : str) : str := p ++ [slash] ++ k.
Definition good_key (k : str) : Prop := slash ∉ k ∧ k ≠ [].
Definition good_path (p : str) : Prop := p = [] ∨ master_check_valid_path p = true.

Lemma find_last_of_none k : slash ∉ k → find_last_of slash k = None.
Proof.
  induction k as [|c k IH]; intros Hk; [done|]. apply not_elem_of_cons in Hk as [? ?].
  cbn. rewrite IH by done. by rewrite decide_False.
Qed.

Lemma find_last_of_child p k : slash ∉ k → find_last_of slash (child p k) = Some (length p).
Proof.
  intros Hk. induction p as [|c p IH].
  - cbn. by rewrite find_last_of_none.
  - change (child (c :: p) k) with (c :: child p k). cbn [find_last_of]. by rewrite IH.
Qed.

Lemma parent_child p k : slash ∉ k → parent_of (child p k) = p.
Proof. intros. unfold parent_of. rewrite find_last_of_child by done. apply take_app_length. Qed.

Lemma key_child p k : slash ∉ k → key_of (child p k) = k.
Proof.
  intros. unfold key_of. rewrite find_last_of_child by done. unfold child.
  rewrite app_assoc, drop_app_length'; [done|]. rewrite length_app. cbn. lia.
Qed.

Lemma child_inj p k q l : slash ∉ k → slash ∉ l → child p k = child q l → p = q ∧ k = l.
Proof.
  intros Hk Hl E. split.
  - by rewrite <- (parent_child p k), E, parent_child.
  - by rewrite <- (key_child p k), E, key_child.
Qed.

Lemma child_ne_nil p k : child p k ≠ [].
Proof. by destruct p. Qed.

Lemma check_slashes_app p k :
  check_slashes p = true → check_slashes (slash :: k) = true →
  check_slashes (p ++ slash :: k) = true.
Proof.
  intros Hp Hk. induction p as [|c p IH]; [done|]. cbn [app]. cbn [check_slashes] in Hp |- *.
  destruct (decide (c = slash)); [|by apply IH]. destruct p as [|d p]; [done|]. cbn [app].
  destruct (decide (d = slash)); [done|by apply IH].
Qed.

Lemma check_slashes_prefix p k :
  check_slashes (p ++ slash :: k) = true → check_slashes p = true.
Proof.
  induction p as [|c p IH]; [done|]. cbn [app]. cbn [check_slashes].
  case_decide; [|by apply IH]. destruct p as [|d p]; cbn [app]; case_decide; done.
Qed.

Lemma check_slashes_suffix p k : check_slashes (p ++ k) = true → check_slashes k = true.
Proof.
  induction p as [|c p IH]; [done|]. cbn [app]. cbn [check_slashes].
  case_decide; [|by apply IH]. destruct (p ++ k) eqn:E; [done|].
  case_decide; [done|by apply IH].
Qed.

Lemma check_slashes_key k : good_key k → check_slashes (slash :: k) = true.
Proof.
  intros [Hk Hne]. destruct k as [|c k]; [done|]. cbn [check_slashes].
  rewrite decide_True by done. assert (c ≠ slash) by (intros ->; apply Hk; left).
  rewrite !decide_False by done. clear Hne. revert Hk.
  induction k as [|d k IH]; intros Hk; [done|]. cbn [check_slashes].
  rewrite !not_elem_of_cons in Hk. rewrite decide_False by naive_solver.
  apply IH. rewrite not_elem_of_cons. naive_solver.
Qed.

Lemma valid_child p k : good_path p → good_key k → master_check_valid_path (child p k) = true.
Proof.
  intros Hp Hk. pose proof (check_slashes_key k Hk) as Hc.
  destruct p as [|c p]; [unfold child; cbn [app master_check_valid_path];
    by rewrite decide_True|].
  destruct Hp as [?|Hp]; [done|]. unfold child. cbn [app]. unfold master_check_valid_path in *.
  case_decide; [|done]. by apply (check_slashes_app (c :: p)).
Qed.

Lemma last_slash p : slash ∈ p → ∃ q k, p = child q k ∧ slash ∉ k.
Proof.
  induction p as [|c p IH]; intros Hp; [by apply not_elem_of_nil in Hp|].
  destruct (decide (slash ∈ p)) as [Hin|Hin].
  - destruct (IH Hin) as (q&k&->&?). by exists (c :: q), k.
  - apply elem_of_cons in Hp as [<-|]; [|done]. by exists [], p.
Qed.

Lemma valid_split p :
  master_check_valid_path p = true →
  ∃ q k, p = child q k ∧ good_key k ∧ good_path q.
Proof.
  destruct p as [|c p]; [done|]. unfold master_check_valid_path. case_decide; [subst|done].
  intros Hc. destruct (last_slash (slash :: p)) as (q&k&E&Hk); [left|].
  rewrite E in *. exists q, k. split; [done|]. split.
  - split; [done|]. intros ->. unfold child in Hc. apply check_slashes_suffix in Hc. done.
  - destruct q as [|d q]; [by left|right]. injection E as <- _.
    unfold child in Hc. cbn [app] in Hc. apply (check_slashes_prefix (slash :: q)) in Hc.
    unfold master_check_valid_path. by rewrite decide_True.
Qed.

(** ** The order of strings, and generated names *)
Lemma str_ltb_irrefl s : str_ltb s s = false.
Proof. induction s as [|c s IH]; [done|]. cbn. by rewrite Z.ltb_irrefl. Qed.

Lemma str_ltb_trans s : ∀ t u, str_ltb s t = true → str_ltb t u = true → str_ltb s u = true.
Proof.
  induction s as [|c s IH]; intros [|d t] [|e u]; cbn; try done.
  destruct (Z.ltb_spec (byte.unsigned c) (byte.unsigned d)),
    (Z.ltb_spec (byte.unsigned d) (byte.unsigned e)),
    (Z.ltb_spec (byte.unsigned d) (byte.unsigned c)),
    (Z.ltb_spec (byte.unsigned e) (byte.unsigned d)),
    (Z.ltb_spec (byte.unsigned c) (byte.unsigned e)),
    (Z.ltb_spec (byte.unsigned e) (byte.unsigned c)); try done; try lia. apply IH.
Qed.

Lemma str_ltb_total s : ∀ t, str_ltb s t = false → str_ltb t s = false → s = t.
Proof.
  induction s as [|c s IH]; intros [|d t]; cbn; try done.
  destruct (Z.ltb_spec (byte.unsigned c) (byte.unsigned d)),
    (Z.ltb_spec (byte.unsigned d) (byte.unsigned c)); try done.
  intros. f_equal; [apply byte.unsigned_inj; lia|by apply IH].
Qed.

Lemma str_ltb_asym s t : str_ltb s t = true → str_ltb t s = false.
Proof.
  intros H. destruct (str_ltb t s) eqn:E; [|done].
  by rewrite <- (str_ltb_irrefl s), (str_ltb_trans s t s).
Qed.

#[global] Instance str_le_total : Total str_le.
Proof. intros s t. unfold str_le. destruct (str_ltb s t) eqn:E; [|by right].
  left. by apply str_ltb_asym. Qed.

#[global] Instance str_le_trans : Transitive str_le.
Proof.
  intros s t u. unfold str_le. intros H1 H2. destruct (str_ltb u s) eqn:E; [|done].
  destruct (str_ltb s t) eqn:E1.
  - by rewrite (str_ltb_trans u s t E E1) in H2.
  - by rewrite (str_ltb_total s t E1 H1), H2 in E.
Qed.

#[global] Instance str_le_antisym : AntiSymm (=) str_le.
Proof. intros s t H1 H2. by apply str_ltb_total. Qed.

Lemma str_ltb_snoc s : ∀ t c d, length s = length t →
  str_ltb (s ++ [c]) (t ++ [d]) =
  str_ltb s t || (bool_decide (s = t) && (byte.unsigned c <? byte.unsigned d)).
Proof.
  induction s as [|a s IH]; intros [|b t] c d Hl; try done.
  - cbn. destruct (Z.ltb_spec (byte.unsigned c) (byte.unsigned d)); [done|].
    by destruct (_ <? _).
  - injection Hl as Hl. cbn. rewrite (IH t c d Hl).
    destruct (Z.ltb_spec (byte.unsigned a) (byte.unsigned b)); [done|].
    destruct (Z.ltb_spec (byte.unsigned b) (byte.unsigned a)).
    + rewrite bool_decide_false by (intros [= -> ->]; lia). done.
    + assert (a = b) as -> by (apply byte.unsigned_inj; lia).
      f_equal. f_equal. apply bool_decide_ext. naive_solver.
Qed.

Lemma in_order_spec k x : x ∈ in_order k ↔ x ∈ k.
Proof. unfold in_order. rewrite merge_sort_Permutation. apply elem_of_elements. Qed.

Lemma in_order_sorted k : StronglySorted str_le (in_order k).
Proof. apply StronglySorted_merge_sort; apply _. Qed.

(** *** Ten decimal digits *)
Fixpoint dec (k : nat) (z : Z) : str :=
  match k with O => [] | S k => dec k (z / 10) ++ [digit (z mod 10)] end.

Lemma length_dec k : ∀ z, length (dec k z) = k.
Proof. induction k as [|k IH]; intros z; [done|]. cbn. rewrite length_app, IH. cbn. lia. Qed.

Lemma dec_zero k : dec k 0 = replicate k Byte.x30.
Proof.
  induction k as [|k IH]; [done|]. cbn [dec]. change (0 / 10) with 0. rewrite IH.
  change [digit (0 mod 10)] with (replicate 1 Byte.x30).
  rewrite <- replicate_add. f_equal. lia.
Qed.

Lemma pow10 k : 10 ^ Z.of_nat (S k) = 10 * 10 ^ Z.of_nat k.
Proof. rewrite Nat2Z.inj_succ, Z.pow_succ_r; lia. Qed.

Lemma digits_dec k : ∀ fuel z, (k < fuel)%nat → 0 ≤ z < 10 ^ Z.of_nat (S k) →
  (length (digits fuel z) ≤ S k)%nat ∧
  replicate (S k - length (digits fuel z)) Byte.x30 ++ digits fuel z = dec (S k) z.
Proof.
  induction k as [|k IH]; intros [|fuel] z Hf Hz; try lia; cbn [digits].
  - destruct (Z.ltb_spec z 10); [|cbn in Hz; lia]. cbn.
    rewrite Z.mod_small by lia. split; [lia|done].
  - destruct (Z.ltb_spec z 10).
    + split; [cbn; lia|].
      change (dec (S (S k)) z) with (dec (S k) (z / 10) ++ [digit (z mod 10)]).
      rewrite (Z.div_small z 10), dec_zero, Z.mod_small by lia. cbn [length].
      do 2 f_equal.
    + rewrite pow10 in Hz. destruct (IH fuel (z / 10)) as [Hl He]; [lia| |].
      { split; [apply Z.div_pos; lia|]. apply Z.div_lt_upper_bound; lia. }
      rewrite length_app. cbn [length]. split; [lia|].
      change (dec (S (S k)) z) with (dec (S k) (z / 10) ++ [digit (z mod 10)]).
      rewrite <- He, <- app_assoc. do 2 f_equal. lia.
Qed.

Lemma pad_to_string z : 0 ≤ z < 2 ^ 31 → pad (to_string z) = dec 10 z.
Proof.
  intros Hz. unfold to_string. destruct (Z.ltb_spec z 0); [lia|].
  by apply (digits_dec 9 20 z); [lia|cbn; lia].
Qed.

Lemma unsigned_digit z : 0 ≤ z < 10 → byte.unsigned (digit z) = 48 + z.
Proof.
  intros. unfold digit. rewrite byte.unsigned_of_Z. apply Z.mod_small. lia.
Qed.

(** The order of the names is the order of the numbers. *)
Lemma dec_inj k : ∀ y z, 0 ≤ y < 10 ^ Z.of_nat k → 0 ≤ z < 10 ^ Z.of_nat k →
  dec k y = dec k z → y = z.
Proof.
  induction k as [|k IH]; intros y z Hy Hz; [cbn in *; lia|]. rewrite pow10 in Hy, Hz.
  cbn [dec]. intros [E1 [= E2]]%app_inj_2; [|done]. apply (f_equal byte.unsigned) in E2.
  rewrite !unsigned_digit in E2 by (apply Z.mod_pos_bound; lia).
  apply IH in E1; [|split; [apply Z.div_pos|apply Z.div_lt_upper_bound]; lia..].
  rewrite (Z.div_mod y 10), (Z.div_mod z 10) by lia. lia.
Qed.

Lemma dec_lt k : ∀ y z, 0 ≤ y → y < z → z < 10 ^ Z.of_nat k →
  str_ltb (dec k y) (dec k z) = true.
Proof.
  induction k as [|k IH]; intros y z Hy Hyz Hz; [cbn in *; lia|]. rewrite pow10 in Hz.
  cbn [dec]. rewrite str_ltb_snoc by by rewrite !length_dec.
  pose proof (Z.div_mod y 10). pose proof (Z.div_mod z 10).
  pose proof (Z.mod_pos_bound y 10). pose proof (Z.mod_pos_bound z 10).
  destruct (decide (y / 10 = z / 10)) as [E|E].
  - rewrite E, bool_decide_true, !unsigned_digit by (done || lia).
    apply orb_true_iff. right. apply Z.ltb_lt. lia.
  - rewrite IH; [done|apply Z.div_pos; lia| |apply Z.div_lt_upper_bound; lia].
    assert (y / 10 ≤ z / 10) by (apply Z.div_le_mono; lia). lia.
Qed.

Lemma dec_no_slash k : ∀ z, slash ∉ dec k z.
Proof.
  induction k as [|k IH]; intros z; cbn [dec]; [apply not_elem_of_nil|].
  rewrite not_elem_of_app, list_elem_of_singleton. split; [apply IH|].
  intros E. apply (f_equal byte.unsigned) in E.
  pose proof (Z.mod_pos_bound z 10). rewrite unsigned_digit in E by lia. cbn in E. lia.
Qed.

(** ** The tree the map stands for

    The abstract state has no lists of children: they are the paths below a path. *)
Record tree := Tree {
  t_nodes : gmap str (option sock * str);
  t_gen : gmap str Z;
}.

Definition absm (m : gmap str MasterNode) : gmap str (option sock * str) :=
  (λ n, (owner n, node_value n)) <$> m.
Definition abs (s : Master) : tree := Tree (absm (_path s)) (_gen_id s).

Definition children_of (t : gmap str (option sock * str)) (p : str) : gset str :=
  set_map key_of (filter (λ q, q ≠ [] ∧ parent_of q = p) (dom t)).

(** The map is a tree: every node but the root hangs below a permanent node that lists
    it, and every listed child is there. *)
Record PInv (m : gmap str MasterNode) : Prop := {
  pi_root n : m !! [] = Some n → owner n = None;
  pi_good p n : m !! p = Some n → good_path p;
  pi_down p n k : m !! p = Some n → k ∈ sub n →
    good_key k ∧ owner n = None ∧ is_Some (m !! child p k);
  pi_up p k : good_key k → is_Some (m !! child p k) → ∃ n, m !! p = Some n ∧ k ∈ sub n;
}.

Record Inv (s : Master) : Prop := {
  inv_path : PInv (_path s);
  inv_gen p z : _gen_id s !! p = Some z → ∃ n, _path s !! p = Some n ∧ owner n = None;
}.

Lemma child_ne p k : child p k ≠ p.
Proof.
  intros E. apply (f_equal length) in E. unfold child in E. rewrite !length_app in E.
  cbn in E. lia.
Qed.

Lemma pinv_ephemeral m p n : PInv m → m !! p = Some n → is_Some (owner n) → sub n = ∅.
Proof.
  intros Hm Hp [o Ho]. apply set_eq. intros k. split; [|set_solver].
  intros Hk. destruct (pi_down m Hm p n k Hp Hk) as (_&Hno&_). congruence.
Qed.

Lemma pinv_split m p n :
  PInv m → m !! p = Some n → p ≠ [] → ∃ q k, p = child q k ∧ good_key k ∧ good_path q.
Proof.
  intros Hm Hp Hne. destruct (pi_good m Hm p n Hp) as [|Hv]; [done|]. by apply valid_split.
Qed.

Lemma pinv_children m p n : PInv m → m !! p = Some n → sub n = children_of (absm m) p.
Proof.
  intros Hm Hp. apply set_eq. intros k. unfold children_of, absm.
  rewrite elem_of_map. setoid_rewrite elem_of_filter. setoid_rewrite dom_fmap_L.
  setoid_rewrite elem_of_dom. split.
  - intros Hk. destruct (pi_down m Hm p n k Hp Hk) as ([Hs ?]&_&?). exists (child p k).
    rewrite key_child, parent_child by done. pose proof (child_ne_nil p k). done.
  - intros (q&->&[Hne <-]&[c Hq]).
    destruct (pinv_split m q c Hm Hq Hne) as (p&k&->&[Hs ?]&_).
    rewrite parent_child in Hp by done. rewrite key_child by done.
    destruct (pi_up m Hm p k) as (n'&?&?); [done|eauto|]. by simplify_eq.
Qed.

Section edits.
Context (m : gmap str MasterNode) (Hm : PInv m).

Lemma pinv_add p pn k own v :
  m !! p = Some pn → owner pn = None → good_key k → m !! child p k = None →
  k ∉ sub pn ∧
  PInv (<[p := with_sub pn ({[k]} ∪ sub pn)]> (<[child p k := Node own v ∅]> m)) ∧
  absm (<[p := with_sub pn ({[k]} ∪ sub pn)]> (<[child p k := Node own v ∅]> m)) =
    <[child p k := (own, v)]> (absm m).
Proof.
  intros Hp Ho Hk Hn. pose proof (child_ne p k) as Hne. split; [|split].
  - intros Hin. destruct (pi_down m Hm p pn k Hp Hin) as (_&_&Hs). rewrite Hn in Hs.
    by apply is_Some_None in Hs.
  - split.
    + intros n. rewrite lookup_insert_Some, lookup_insert_ne by apply child_ne_nil.
      intros [[-> <-]|[_ Hr]]; [done|by eapply pi_root].
    + intros q n. rewrite !lookup_insert_Some. intros [[<- _]|[_ [[<- _]|[_ Hq]]]].
      * by eapply pi_good.
      * right. apply valid_child; [by eapply pi_good|done].
      * by eapply pi_good.
    + intros q n l. rewrite !lookup_insert_Some. intros [[<- <-]|[Hpq [[<- <-]|[Hcq Hq]]]].
      * cbn [sub with_sub owner]. rewrite elem_of_union, elem_of_singleton.
        intros [->|Hl]; [split; [done|]; split; [done|]|].
        { rewrite lookup_insert_ne, lookup_insert_eq by done. by eexists. }
        destruct (pi_down m Hm p pn l Hp Hl) as (?&?&[c Hc]). split; [done|]. split; [done|].
        rewrite lookup_insert_ne by (intros E; symmetry in E; by apply child_ne in E).
        destruct (decide (child p k = child p l)) as [->|]; [rewrite lookup_insert_eq|
          rewrite lookup_insert_ne by done]; eauto.
      * cbn. set_solver.
      * intros Hl. destruct (pi_down m Hm q n l Hq Hl) as (?&?&Hc). split; [done|].
        split; [done|]. destruct (decide (p = child q l)) as [->|];
          [rewrite lookup_insert_eq; by eexists|rewrite lookup_insert_ne by done].
        destruct (decide (child p k = child q l)) as [->|]; [rewrite lookup_insert_eq; by eexists|].
        by rewrite lookup_insert_ne.
    + intros q l Hl [c Hc]. destruct (decide (child p k = child q l)) as [E|E].
      { apply child_inj in E as [<- <-]; [|by apply Hk|by apply Hl].
        eexists. rewrite lookup_insert_eq. split; [done|]. cbn. set_solver. }
      assert (is_Some (m !! child q l)) as Hs.
      { revert Hc. rewrite !lookup_insert_Some. intros [[<- _]|[_ [[? _]|[_ Hq]]]]; [eauto|done|eauto]. }
      destruct (pi_up m Hm q l Hl Hs) as (n&Hq&Hin).
      destruct (decide (p = q)) as [<-|].
      { simplify_eq. eexists. rewrite lookup_insert_eq. split; [done|]. cbn. set_solver. }
      exists n. rewrite !lookup_insert_ne; [done| |done]. congruence.
  - unfold absm. rewrite !fmap_insert. cbn [with_sub owner node_value].
    rewrite insert_insert_ne by done. f_equal. apply insert_id.
    by rewrite lookup_fmap, Hp.
Qed.

Lemma pinv_del p k n :
  good_key k → m !! child p k = Some n → sub n = ∅ →
  ∃ pn, delete (child p k) m !! p = Some pn ∧ k ∈ sub pn ∧
    PInv (<[p := with_sub pn (sub pn ∖ {[k]})]> (delete (child p k) m)) ∧
    absm (<[p := with_sub pn (sub pn ∖ {[k]})]> (delete (child p k) m)) =
      delete (child p k) (absm m).
Proof.
  intros Hk Hn Hs. pose proof (child_ne p k) as Hne.
  destruct (pi_up m Hm p k Hk) as (pn&Hp&Hin); [eauto|]. exists pn.
  rewrite lookup_delete_ne by done. split; [done|]. split; [done|]. split.
  - split.
    + intros c. rewrite lookup_insert_Some, lookup_delete_ne by apply child_ne_nil.
      intros [[-> <-]|[_ Hr]]; [exact (pi_root m Hm pn Hp)|exact (pi_root m Hm c Hr)].
    + intros q c. rewrite lookup_insert_Some, lookup_delete_Some.
      intros [[<- _]|[_ [_ Hq]]]; by eapply pi_good.
    + intros q c l. rewrite lookup_insert_Some, lookup_delete_Some.
      intros [[<- <-]|[Hpq [Hcq Hq]]].
      * cbn [sub with_sub owner]. rewrite elem_of_difference, elem_of_singleton.
        intros [Hl Hlk]. destruct (pi_down m Hm p pn l Hp Hl) as ([Hsl ?]&?&?).
        split; [done|]. split; [done|].
        rewrite lookup_insert_ne by (intros E; symmetry in E; by apply child_ne in E).
        rewrite lookup_delete_ne; [done|]. intros E.
        apply child_inj in E as [_ ?]; [congruence|apply Hk|done].
      * intros Hl. destruct (pi_down m Hm q c l Hq Hl) as (?&?&Hc). split; [done|].
        split; [done|]. destruct (decide (p = child q l)) as [->|];
          [rewrite lookup_insert_eq; by eexists|rewrite lookup_insert_ne by done].
        destruct (decide (child p k = child q l)) as [E|]; [|by rewrite lookup_delete_ne].
        apply child_inj in E as [<- _]; [done|apply Hk|by destruct (pi_down m Hm q c l Hq Hl) as ([??]&_)].
    + intros q l Hl [c Hc].
      assert (child p k ≠ child q l ∧ is_Some (m !! child q l)) as [E Hs'].
      { revert Hc. rewrite lookup_insert_Some, lookup_delete_Some.
        intros [[E _]|[_ [? Hq]]]; [|eauto]. rewrite <- E, Hp. split; [congruence|by eexists]. }
      destruct (pi_up m Hm q l Hl Hs') as (d&Hq&Hind).
      destruct (decide (p = q)) as [<-|].
      { simplify_eq. eexists. rewrite lookup_insert_eq. split; [done|]. cbn [sub with_sub].
        assert (k ≠ l) by congruence. set_solver. }
      exists d. rewrite lookup_insert_ne by done. rewrite lookup_delete_ne; [done|].
      intros <-. simplify_eq. rewrite Hs in Hind. set_solver.
  - unfold absm. rewrite fmap_insert, fmap_delete. apply insert_id.
    by rewrite lookup_delete_ne, lookup_fmap, Hp.
Qed.

Lemma pinv_set p n v :
  m !! p = Some n →
  PInv (<[p := Node (owner n) v (sub n)]> m) ∧
  absm (<[p := Node (owner n) v (sub n)]> m) = <[p := (owner n, v)]> (absm m).
Proof.
  intros Hp. split; [|unfold absm; by rewrite fmap_insert].
  assert (Hdom : ∀ q, is_Some (m !! q) → is_Some (<[p := Node (owner n) v (sub n)]> m !! q)).
  { intros q ?. destruct (decide (p = q)) as [->|];
      [rewrite lookup_insert_eq; by eexists|by rewrite lookup_insert_ne]. }
  split.
  - intros c. rewrite lookup_insert_Some. intros [[-> <-]|[_ Hr]]; [exact (pi_root m Hm n Hp)|exact (pi_root m Hm c Hr)].
  - intros q c. rewrite lookup_insert_Some. intros [[-> _]|[_ ?]]; by eapply pi_good.
  - intros q c k. rewrite lookup_insert_Some. intros [[<- <-]|[_ Hq]] Hk.
    + destruct (pi_down m Hm p n k Hp Hk) as (?&?&?). auto.
    + destruct (pi_down m Hm q c k Hq Hk) as (?&?&?). auto.
  - intros q k Hk [c Hc]. destruct (pi_up m Hm q k Hk) as (d&Hq&?).
    { revert Hc. rewrite lookup_insert_Some. intros [[<- _]|[_ ?]]; eauto. }
    destruct (decide (p = q)) as [->|]; [|exists d; by rewrite lookup_insert_ne].
    simplify_eq. eexists. by rewrite lookup_insert_eq.
Qed.

Lemma pinv_root : m !! [] = None →
  PInv (<[[] := default_node]> m) ∧ absm (<[[] := default_node]> m) = <[[] := (None, [])]> (absm m).
Proof.
  intros Hr. split; [|unfold absm; by rewrite fmap_insert]. split.
  - intros n. rewrite lookup_insert_eq. by intros [= <-].
  - intros p n. rewrite lookup_insert_Some. intros [[<- _]|[_ ?]]; [by left|by eapply pi_good].
  - intros p n k. rewrite lookup_insert_Some. intros [[<- <-]|[? Hp]] Hk; [set_solver|].
    destruct (pi_down m Hm p n k Hp Hk) as (?&?&?). split; [done|]. split; [done|].
    rewrite lookup_insert_ne; [done|]. intros E. by apply (child_ne_nil p k).
  - intros p k Hk. rewrite lookup_insert_ne by (intros E; by apply (child_ne_nil p k)).
    intros Hc. destruct (pi_up m Hm p k Hk Hc) as (n&?&?). exists n.
    rewrite lookup_insert_ne; [done|]. intros <-. congruence.
Qed.
End edits.

(** ** Specification of the operations *)

(** A request after its arguments were streamed out. *)
Inductive request :=
  | Gen (parent value : str) (ephemeral : bool)
  | Add (path value : str) (ephemeral : bool)
  | Del (path : str)
  | Set_ (path value : str)
  | Get (path : str)
  | Sub (path : str)
  | Exit
  | Finalize
  | Irrelevant.

(** The name [master_gen] makes from the counter. *)
Definition gen_key (n : Z) : str := Byte.x5f :: pad (to_string n).

(** One operation on the tree: the new tree, the response, the paths that changed.
    The connection [c] made the request. *)
Definition spec_op (t : tree) (c : sock) (r : request) : tree * list (sigT value) * gset str :=
  let fail st := (t, [v_status st], ∅) in
  match r with
  | Gen p v e =>
      if master_check_valid_path p then
        match t_nodes t !! p with
        | Some (None, _) =>
            let n := default 0 (t_gen t !! p) in
            let gen := <[p := i32 (n + 1)]> (t_gen t) in
            let path := child p (gen_key n) in
            if (11 <? length (gen_key n))%nat then (Tree (t_nodes t) gen, [v_status ERROR], ∅)
            else match t_nodes t !! path with
            | Some _ => (Tree (t_nodes t) gen, [v_status PATH_FAILED], ∅)
            | None => (Tree (<[path := (if e then Some c else None, v)]> (t_nodes t)) gen,
                       [v_status OK; v_string (gen_key n)], {[path]})
            end
        | _ => fail NODE_FAILED
        end
      else fail ERROR
  | Add p v e =>
      if master_check_valid_path p then
        match t_nodes t !! parent_of p, t_nodes t !! p with
        | Some (None, _), None =>
            (Tree (<[p := (if e then Some c else None, v)]> (t_nodes t)) (t_gen t),
             [v_status OK], {[p]})
        | Some (None, _), Some _ => fail NODE_FAILED
        | _, _ => fail PATH_FAILED
        end
      else fail ERROR
  | Del p =>
      if master_check_valid_path p then
        match t_nodes t !! p with
        | None => fail NODE_FAILED
        | Some _ =>
            if decide (children_of (t_nodes t) p = ∅)
            then (Tree (delete p (t_nodes t)) (delete p (t_gen t)), [v_status OK], {[p]})
            else fail PATH_FAILED
        end
      else fail ERROR
  | Set_ p v =>
      if master_check_valid_path p then
        match t_nodes t !! p with
        | None => fail NODE_FAILED
        | Some (o, _) => (Tree (<[p := (o, v)]> (t_nodes t)) (t_gen t), [v_status OK], {[p]})
        end
      else fail ERROR
  | Get p =>
      if master_check_valid_path p then
        match t_nodes t !! p with
        | None => fail NODE_FAILED
        | Some (_, v) => (t, [v_status OK; v_string v], ∅)
        end
      else fail ERROR
  | Sub p =>
      if master_check_valid_path p then
        match t_nodes t !! p with
        | None => fail NODE_FAILED
        | Some _ => (t, [v_status OK; v_strings (in_order (children_of (t_nodes t) p))], ∅)
        end
      else fail ERROR
  | Finalize =>
      (Tree (filter (λ pn, pn.2.1 ≠ Some c) (t_nodes t)) (t_gen t), [],
       dom (filter (λ pn, pn.2.1 = Some c) (t_nodes t)))
  | Exit | Irrelevant => (t, [], ∅)
  end.

(** The root exists from the first request on. *)
Definition t_root (t : tree) : tree :=
  match t_nodes t !! [] with
  | Some _ => t
  | None => Tree (<[[] := (None, [])]> (t_nodes t)) (t_gen t)
  end.

Lemma digits_no_slash fuel : ∀ z, 0 ≤ z → slash ∉ digits fuel z.
Proof.
  assert (Hd : ∀ z, 0 ≤ z < 10 → slash ∉ [digit z]).
  { intros z Hz. rewrite list_elem_of_singleton. intros E. apply (f_equal byte.unsigned) in E.
    rewrite unsigned_digit in E by done. cbn in E. lia. }
  induction fuel as [|fuel IH]; intros z Hz; cbn [digits]; [apply not_elem_of_nil|].
  destruct (Z.ltb_spec z 10); [apply Hd; lia|]. rewrite not_elem_of_app.
  split; [apply IH, Z.div_pos; lia|]. apply Hd, Z.mod_pos_bound. lia.
Qed.

Lemma gen_key_good n : good_key (gen_key n).
Proof.
  split; [|done]. unfold gen_key, pad. rewrite not_elem_of_cons, not_elem_of_app.
  split; [done|]. split.
  - intros [E _]%elem_of_replicate. done.
  - unfold to_string. destruct (Z.ltb_spec n 0); [rewrite not_elem_of_cons; split; [done|]|];
      apply digits_no_slash; lia.
Qed.

(** ** The handlers implement the specification *)
Section refinement.
Context (junk : nat → byte).
Context (iter_path : gmap str MasterNode → list (str * MasterNode)).
Context (iter_watchers : gmap sock rpc_head_t → list (sock * rpc_head_t)).

Definition decode (req : archive) : result request :=
  '(req, op) ← op_in (c_enum junk t_i8 req_to req_from) req;
  match op with
  | MASTER_GEN =>
      '(req, p) ← op_in (c_string junk) req; '(req, v) ← op_in (c_string junk) req;
      '(req, e) ← op_in (c_bool junk) req; Ok (Gen p v e)
  | MASTER_ADD =>
      '(req, p) ← op_in (c_string junk) req; '(req, v) ← op_in (c_string junk) req;
      '(req, e) ← op_in (c_bool junk) req; Ok (Add p v e)
  | MASTER_DEL => '(req, p) ← op_in (c_string junk) req; Ok (Del p)
  | MASTER_SET =>
      '(req, p) ← op_in (c_string junk) req; '(req, v) ← op_in (c_string junk) req;
      Ok (Set_ p v)
  | MASTER_GET => '(req, p) ← op_in (c_string junk) req; Ok (Get p)
  | MASTER_SUB => '(req, p) ← op_in (c_string junk) req; Ok (Sub p)
  | MASTER_EXIT => Ok Exit
  | MASTER_CLIENT_FINALIZE => Ok Finalize
  | OTHER_REQ _ => Ok Irrelevant
  end.

(** The notifications of a list of changes. *)
Definition notices (s : Master) (paths : list str) : list packet :=
  paths ≫= λ path,
    (λ w, Packet w.1 (RpcResponse_head w.2) [v_string path]) <$> iter_watchers (_watchers s).

(** [s'] and [resp] are what the specification of [r] asks for from [s], and the
    watchers have been told what changed. *)
Record implements (s : Master) (c : sock) (r : request) (s' : Master) (resp : list (sigT value))
    : Prop := {
  im_inv : Inv s';
  im_spec : ∃ changed paths, spec_op (abs s) c r = (abs s', resp, changed) ∧
              paths ≡ₚ elements changed ∧ _sent s' = _sent s ++ notices s paths;
  im_socks : _fd_socket_map s' = _fd_socket_map s;
  im_watchers : _watchers s' = _watchers s;
}.

Lemma implements_read s c r resp :
  Inv s → spec_op (abs s) c r = (abs s, resp, ∅) → implements s c r s resp.
Proof.
  intros Hs He. split; [done| |done|done]. exists ∅, []. split; [done|].
  split; [done|]. cbn. by rewrite app_nil_r.
Qed.

(** A handler that replaced the map and told the watchers about [path]. *)
Lemma implements_change s c r g m path resp :
  PInv m →
  (∀ p z, g !! p = Some z → ∃ n, m !! p = Some n ∧ owner n = None) →
  spec_op (abs s) c r = (Tree (absm m) g, resp, {[path]}) →
  implements s c r (notify_watchers iter_watchers (with_path (with_gen s g) m) path) resp.
Proof.
  intros Hm Hg He. split; [by split|..]; [|done|done]. exists {[path]}, [path].
  split; [done|]. rewrite elements_singleton. split; [done|].
  cbn [notify_watchers send _sent with_path with_gen _watchers notices].
  unfold notices. by rewrite bind_cons, app_nil_r.
Qed.

Lemma absm_lookup m p n : m !! p = Some n → absm m !! p = Some (owner n, node_value n).
Proof. intros Hp. unfold absm. by rewrite lookup_fmap, Hp. Qed.
Lemma absm_lookup_none m p : m !! p = None → absm m !! p = None.
Proof. intros Hp. unfold absm. by rewrite lookup_fmap, Hp. Qed.

(** Changing the children of a node keeps the permanent nodes. *)
Lemma permanent_kept (m' : gmap str MasterNode) p pn k q :
  m' !! p = Some pn →
  (∃ n, m' !! q = Some n ∧ owner n = None) →
  ∃ n, <[p := with_sub pn k]> m' !! q = Some n ∧ owner n = None.
Proof.
  intros Hp (n&Hq&Ho). destruct (decide (p = q)) as [<-|].
  - simplify_eq. eexists. by rewrite lookup_insert_eq.
  - exists n. by rewrite lookup_insert_ne.
Qed.

(** What a new child does to the state; shared by [master_gen] and [master_add]. *)
Lemma implements_add s c r g p pn k own v resp :
  Inv s → _path s !! p = Some pn → owner pn = None → good_key k →
  _path s !! child p k = None →
  (∀ q z, g !! q = Some z → q = p ∨ is_Some (_gen_id s !! q)) →
  spec_op (abs s) c r = (Tree (<[child p k := (own, v)]> (absm (_path s))) g, resp, {[child p k]}) →
  k ∉ sub pn ∧
  implements s c r
    (notify_watchers iter_watchers
       (with_path (with_gen s g) (<[p := with_sub pn ({[k]} ∪ sub pn)]>
                                    (<[child p k := Node own v ∅]> (_path s)))) (child p k)) resp.
Proof.
  intros [Hm Hg] Hp Ho Hk Hn Hgen He.
  destruct (pinv_add _ Hm p pn k own v Hp Ho Hk Hn) as (Hin&Hm'&Ha). split; [done|].
  apply implements_change; [done| |by rewrite Ha].
  intros q z Hq. apply permanent_kept.
  { by rewrite lookup_insert_ne by apply child_ne. }
  assert (∃ n, _path s !! q = Some n ∧ owner n = None) as (n&Hqn&?).
  { destruct (Hgen q z Hq) as [->|[z' ?]]; eauto. }
  exists n. rewrite lookup_insert_ne; [done|congruence].
Qed.

Lemma master_gen_refines s c req a1 a2 a3 p v e :
  Inv s → op_in (c_string junk) req = Ok (a1, p) → op_in (c_string junk) a1 = Ok (a2, v) →
  op_in (c_bool junk) a2 = Ok (a3, e) →
  ∃ s' resp, master_gen junk iter_watchers s c req = Ok (s', resp) ∧
             implements s c (Gen p v e) s' resp.
Proof.
  intros Hs E1 E2 E3. unfold master_gen. rewrite E1. cbn [mbind result_bind]. rewrite E2.
  cbn [mbind result_bind]. rewrite E3. cbn [mbind result_bind]. unfold reply.
  destruct (master_check_valid_path p) eqn:Ev; cbn [negb].
  2: { do 2 eexists. split; [done|]. apply implements_read; [done|]. cbn. by rewrite Ev. }
  destruct (_path s !! p) as [pn|] eqn:Ep.
  2: { do 2 eexists. split; [done|]. apply implements_read; [done|]. cbn. rewrite Ev.
       by rewrite absm_lookup_none. }
  pose proof (absm_lookup _ _ _ Ep) as Ha. case_decide as Ho.
  { do 2 eexists. split; [done|]. apply implements_read; [done|]. cbn. rewrite Ev, Ha.
    by destruct Ho as [o ->]. }
  assert (owner pn = None) as Ho' by (by apply eq_None_not_Some). rewrite Ho' in Ha.
  cbn zeta. change (Byte.x5f :: pad (to_string ?n)) with (gen_key n).
  set (n := default 0 (_gen_id s !! p)).
  assert (Hg : ∀ q z, <[p := i32 (n + 1)]> (_gen_id s) !! q = Some z →
    q = p ∨ is_Some (_gen_id s !! q)).
  { intros q z. rewrite lookup_insert_Some. intros [[-> _]|[_ ?]]; eauto. }
  assert (Hinv : Inv (with_gen s (<[p := i32 (n + 1)]> (_gen_id s)))).
  { split; [apply Hs|]. intros q z [->|[z' Hz]]%Hg; [eauto|exact (inv_gen s Hs q z' Hz)]. }
  destruct (Nat.ltb_spec 11 (length (gen_key n))) as [Hl|Hl].
  { do 2 eexists. split; [done|]. split; [done| |done|done]. exists ∅, [].
    split; [|split; [done|by rewrite app_nil_r]]. cbn [spec_op abs t_nodes t_gen].
    rewrite Ev, Ha. cbn zeta. fold n. destruct (Nat.ltb_spec 11 (length (gen_key n))); [done|lia]. }
  cbn [with_gen _path]. fold (child p (gen_key n)).
  destruct (_path s !! child p (gen_key n)) as [cn|] eqn:Ec.
  { do 2 eexists. split; [done|]. split; [done| |done|done]. exists ∅, [].
    split; [|split; [done|by rewrite app_nil_r]]. cbn [spec_op abs t_nodes t_gen].
    rewrite Ev, Ha. cbn zeta. fold n. destruct (Nat.ltb_spec 11 (length (gen_key n))); [lia|].
    by rewrite (absm_lookup _ _ _ Ec). }
  destruct (implements_add s c (Gen p v e) (<[p := i32 (n + 1)]> (_gen_id s)) p pn (gen_key n)
    (if e then Some c else None) v [v_status OK; v_string (gen_key n)])
    as [Hin Him]; try done; [apply gen_key_good| |].
  { cbn [spec_op abs t_nodes t_gen]. rewrite Ev, Ha. cbn zeta. fold n.
    destruct (Nat.ltb_spec 11 (length (gen_key n))); [lia|]. by rewrite absm_lookup_none. }
  rewrite bool_decide_true by done. cbn [SCHECK mbind result_bind]. eauto.
Qed.

Lemma master_add_refines s c req a1 a2 a3 p v e :
  Inv s → op_in (c_string junk) req = Ok (a1, p) → op_in (c_string junk) a1 = Ok (a2, v) →
  op_in (c_bool junk) a2 = Ok (a3, e) →
  ∃ s' resp, master_add junk iter_watchers s c req = Ok (s', resp) ∧
             implements s c (Add p v e) s' resp.
Proof.
  intros Hs E1 E2 E3. unfold master_add. rewrite E1. cbn [mbind result_bind]. rewrite E2.
  cbn [mbind result_bind]. rewrite E3. cbn [mbind result_bind]. unfold reply.
  destruct (master_check_valid_path p) eqn:Ev; cbn [negb].
  2: { do 2 eexists. split; [done|]. apply implements_read; [done|]. cbn. by rewrite Ev. }
  destruct (_path s !! parent_of p) as [pn|] eqn:Ep.
  2: { do 2 eexists. split; [done|]. apply implements_read; [done|]. cbn. rewrite Ev.
       by rewrite absm_lookup_none. }
  pose proof (absm_lookup _ _ _ Ep) as Ha. case_decide as Ho.
  { do 2 eexists. split; [done|]. apply implements_read; [done|]. cbn. rewrite Ev, Ha.
    by destruct Ho as [o ->]. }
  assert (owner pn = None) as Ho' by (by apply eq_None_not_Some). rewrite Ho' in Ha.
  destruct (_path s !! p) as [cn|] eqn:Ec.
  { do 2 eexists. split; [done|]. apply implements_read; [done|]. cbn. rewrite Ev, Ha.
    by rewrite (absm_lookup _ _ _ Ec). }
  pose proof (valid_split p Ev) as (q&k&->&Hk&_). pose proof Hk as [Hk' _].
  rewrite parent_child in * by done. rewrite !key_child by done.
  destruct (implements_add s c (Add (child q k) v e) (_gen_id s) q pn k
    (if e then Some c else None) v [v_status OK]) as [Hin Him]; try done; [eauto| |].
  { cbn. rewrite Ev, parent_child, Ha by done. by rewrite absm_lookup_none. }
  rewrite bool_decide_true by done. cbn [SCHECK mbind result_bind]. destruct s. eauto.
Qed.

Lemma master_del_refines s c req a1 p :
  Inv s → op_in (c_string junk) req = Ok (a1, p) →
  ∃ s' resp, master_del junk iter_watchers s req = Ok (s', resp) ∧
             implements s c (Del p) s' resp.
Proof.
  intros Hs E1. unfold master_del. rewrite E1. cbn [mbind result_bind]. unfold reply.
  destruct (master_check_valid_path p) eqn:Ev; cbn [negb].
  2: { do 2 eexists. split; [done|]. apply implements_read; [done|]. cbn. by rewrite Ev. }
  destruct (_path s !! p) as [n|] eqn:Ep.
  2: { do 2 eexists. split; [done|]. apply implements_read; [done|]. cbn. rewrite Ev.
       by rewrite absm_lookup_none. }
  pose proof (absm_lookup _ _ _ Ep) as Ha. destruct Hs as [Hm Hg].
  pose proof (pinv_children _ p n Hm Ep) as Hch. case_bool_decide as He; cbn [negb].
  2: { do 2 eexists. split; [done|]. apply implements_read; [done|]. cbn. rewrite Ev, Ha.
       rewrite decide_False by congruence. done. }
  pose proof (valid_split p Ev) as (q&k&->&Hk&_). pose proof Hk as [Hk' _].
  rewrite parent_child, key_child by done.
  destruct (pinv_del _ Hm q k n Hk Ep He) as (pn&Hpn&Hin&Hm'&Ha'). cbn [with_gen _path].
  cbn zeta. rewrite Hpn. rewrite bool_decide_true by done. cbn [SCHECK mbind result_bind].
  do 2 eexists. split; [done|]. apply implements_change; [done| |].
  - intros r z [Hne Hr]%lookup_delete_Some. apply permanent_kept; [done|].
    destruct (Hg r z Hr) as (nr&?&?). exists nr. by rewrite lookup_delete_ne.
  - cbn. rewrite Ev, Ha, Ha'. by rewrite decide_True by congruence.
Qed.

Lemma master_set_refines s c req a1 a2 p v :
  Inv s → op_in (c_string junk) req = Ok (a1, p) → op_in (c_string junk) a1 = Ok (a2, v) →
  ∃ s' resp, master_set junk iter_watchers s req = Ok (s', resp) ∧
             implements s c (Set_ p v) s' resp.
Proof.
  intros Hs E1 E2. unfold master_set. rewrite E1. cbn [mbind result_bind]. rewrite E2.
  cbn [mbind result_bind]. unfold reply.
  destruct (master_check_valid_path p) eqn:Ev; cbn [negb].
  2: { do 2 eexists. split; [done|]. apply implements_read; [done|]. cbn. by rewrite Ev. }
  destruct (_path s !! p) as [n|] eqn:Ep.
  2: { do 2 eexists. split; [done|]. apply implements_read; [done|]. cbn. rewrite Ev.
       by rewrite absm_lookup_none. }
  pose proof (absm_lookup _ _ _ Ep) as Ha. destruct Hs as [Hm Hg].
  destruct (pinv_set _ Hm p n v Ep) as [Hm' Ha']. destruct s as [g m f w o]; cbn in *.
  do 2 eexists. split; [done|].
  apply (implements_change (MkMaster g m f w o) c (Set_ p v) g); [done| |].
  - intros q z Hq. destruct (Hg q z Hq) as (nq&Hnq&?). destruct (decide (p = q)) as [->|].
    + simplify_eq. eexists. by rewrite lookup_insert_eq.
    + exists nq. by rewrite lookup_insert_ne.
  - cbn. by rewrite Ev, Ha, Ha'.
Qed.

Lemma master_get_refines s c req a1 p :
  Inv s → op_in (c_string junk) req = Ok (a1, p) →
  ∃ s' resp, master_get junk s req = Ok (s', resp) ∧ implements s c (Get p) s' resp.
Proof.
  intros Hs E1. unfold master_get. rewrite E1. cbn [mbind result_bind]. unfold reply.
  destruct (master_check_valid_path p) eqn:Ev; cbn [negb]; [destruct (_path s !! p) as [n|] eqn:Ep|];
    do 2 eexists; (split; [reflexivity|]); (apply implements_read; [done|]); cbn; rewrite Ev; [..|done].
  - by rewrite (absm_lookup _ _ _ Ep).
  - by rewrite absm_lookup_none.
Qed.

Lemma master_sub_refines s c req a1 p :
  Inv s → op_in (c_string junk) req = Ok (a1, p) →
  ∃ s' resp, master_sub junk s req = Ok (s', resp) ∧ implements s c (Sub p) s' resp.
Proof.
  intros Hs E1. unfold master_sub. rewrite E1. cbn [mbind result_bind]. unfold reply.
  destruct (master_check_valid_path p) eqn:Ev; cbn [negb]; [destruct (_path s !! p) as [n|] eqn:Ep|];
    do 2 eexists; (split; [reflexivity|]); (apply implements_read; [done|]); cbn; rewrite Ev; [..|done].
  - rewrite (absm_lookup _ _ _ Ep). by rewrite <- (pinv_children _ p n (inv_path s Hs) Ep).
  - by rewrite absm_lookup_none.
Qed.

(** *** A connection that goes away *)
Lemma clear_one_spec s c path v :
  Inv s → absm (_path s) !! path = Some (Some c, v) →
  ∃ s', clear_one iter_watchers s path = Ok s' ∧ Inv s' ∧
    absm (_path s') = delete path (absm (_path s)) ∧ _gen_id s' = _gen_id s ∧
    _sent s' = _sent s ++ notices s [path] ∧
    _fd_socket_map s' = _fd_socket_map s ∧ _watchers s' = _watchers s.
Proof.
  intros [Hm Hg] Ha. unfold absm in Ha. rewrite lookup_fmap_Some in Ha.
  destruct Ha as (n&[= Ho Hv]&Hp).
  destruct (pinv_split _ path n Hm Hp) as (q&k&->&Hk&_).
  { intros ->. rewrite (pi_root _ Hm n Hp) in Ho. done. }
  pose proof Hk as [Hk' _].
  assert (He : sub n = ∅) by (eapply pinv_ephemeral; [done..|rewrite Ho; by eexists]).
  destruct (pinv_del _ Hm q k n Hk Hp He) as (pn&Hpn&Hin&Hm'&Ha').
  unfold clear_one. rewrite parent_child, key_child by done. rewrite Hp, Hpn.
  rewrite bool_decide_true by eauto. cbn [SCHECK mbind result_bind default].
  rewrite bool_decide_true by done. cbn [SCHECK mbind result_bind].
  eexists. split; [done|]. split.
  - split; [done|]. intros r z Hr. cbn [_gen_id notify_watchers send with_path] in Hr.
    apply permanent_kept; [done|]. destruct (Hg r z Hr) as (nr&Hnr&Hno). exists nr.
    rewrite lookup_delete_ne; [done|]. intros <-. congruence.
  - split; [done|]. split; [done|]. split; [|done].
    cbn [notify_watchers send _sent with_path _watchers]. unfold notices.
    by rewrite bind_cons, app_nil_r.
Qed.

Lemma clear_all_spec c temp : ∀ s,
  Inv s → NoDup temp → (∀ p, p ∈ temp → ∃ v, absm (_path s) !! p = Some (Some c, v)) →
  ∃ s', clear_all iter_watchers s temp = Ok s' ∧ Inv s' ∧
    absm (_path s') = filter (λ pn, pn.1 ∉ temp) (absm (_path s)) ∧ _gen_id s' = _gen_id s ∧
    _sent s' = _sent s ++ notices s temp ∧
    _fd_socket_map s' = _fd_socket_map s ∧ _watchers s' = _watchers s.
Proof.
  induction temp as [|path temp IH]; intros s Hs Hnd Ht; cbn [clear_all].
  { exists s. split; [done|]. split; [done|]. split.
    { symmetry. apply map_filter_id. intros ? ? _. apply not_elem_of_nil. }
    split; [done|]. by rewrite app_nil_r. }
  apply NoDup_cons in Hnd as [Hni Hnd]. destruct (Ht path) as [v Hv]; [left|].
  destruct (clear_one_spec s c path v Hs Hv) as (s1&->&Hs1&Ha1&Hg1&Ho1&Hf1&Hw1).
  destruct (IH s1 Hs1 Hnd) as (s2&He&Hs2&Ha2&Hg2&Ho2&Hf2&Hw2).
  { intros p Hp. rewrite Ha1, lookup_delete_ne by (intros ->; done). apply Ht. by right. }
  cbn [mbind result_bind]. exists s2. split; [done|]. split; [done|].
  split; [|split; [congruence|split; [|split; congruence]]].
  - rewrite Ha2, Ha1. apply map_eq. intros p. apply option_eq. intros x.
    rewrite !map_lookup_filter_Some, lookup_delete_Some. cbn [fst].
    rewrite not_elem_of_cons. naive_solver.
  - rewrite Ho2, Ho1, <- app_assoc. unfold notices. rewrite !bind_cons, Hw1. cbn [mbind list_bind].
    by rewrite app_nil_r.
Qed.

Hypothesis iter_path_perm : ∀ m, iter_path m ≡ₚ map_to_list m.

Lemma disconnect_refines s c :
  Inv s →
  ∃ s', disconnect_clear_data iter_path iter_watchers s c = Ok s' ∧
        implements s c Finalize s' [].
Proof.
  intros Hs. unfold disconnect_clear_data.
  set (temp := fst <$> filter (λ p, owner p.2 = Some c) (iter_path (_path s))).
  assert (Ht : ∀ p, p ∈ temp ↔ ∃ v, absm (_path s) !! p = Some (Some c, v)).
  { intros p. unfold temp, absm. rewrite list_elem_of_fmap. setoid_rewrite list_elem_of_filter.
    setoid_rewrite iter_path_perm. setoid_rewrite lookup_fmap_Some. split.
    - intros ([q n]&->&Ho&Hin%elem_of_map_to_list). cbn in *. exists (node_value n), n.
      by rewrite <- Ho.
    - intros (v&n&[= Ho Hv]&Hp). exists (p, n). split; [done|]. split; [done|].
      by apply elem_of_map_to_list. }
  assert (Hnd : NoDup temp).
  { unfold temp. eapply sublist_NoDup; [|apply fmap_sublist, sublist_filter].
    rewrite iter_path_perm. apply NoDup_fst_map_to_list. }
  destruct (clear_all_spec c temp s Hs Hnd) as (s'&He&Hs'&Ha&Hg&Ho&Hf&Hw); [by apply Ht|].
  exists s'. split; [done|]. split; [done| |done|done].
  exists (dom (filter (λ pn, pn.2.1 = Some c) (absm (_path s)))), temp. split; [|split; [|done]].
  - cbn [spec_op]. unfold abs. cbn [t_nodes t_gen]. rewrite Ha, Hg. do 3 f_equal.
    apply map_filter_ext. intros p [o v] Hp. cbn [fst snd]. rewrite Ht. split.
    + intros Hne (v'&Hp'). congruence.
    + intros Hno [= ->]. naive_solver.
  - apply NoDup_Permutation; [done|apply NoDup_elements|]. intros p.
    rewrite elem_of_elements, elem_of_dom, Ht. split.
    + intros (v&Hv). exists (Some c, v). by apply map_lookup_filter_Some.
    + intros ([o v]&[Hv [= ->]]%map_lookup_filter_Some). eauto.
Qed.

(** *** The dispatcher *)
Lemma touch_root_spec s :
  Inv s → Inv (touch_root s) ∧ abs (touch_root s) = t_root (abs s) ∧
    _sent (touch_root s) = _sent s ∧ _fd_socket_map (touch_root s) = _fd_socket_map s ∧
    _watchers (touch_root s) = _watchers s.
Proof.
  intros [Hm Hg]. unfold touch_root, t_root, abs. cbn [t_nodes t_gen].
  destruct (_path s !! []) as [n|] eqn:Er.
  - rewrite (absm_lookup _ _ _ Er). done.
  - rewrite absm_lookup_none by done. destruct (pinv_root _ Hm Er) as [Hm' Ha'].
    cbn [with_path _path _gen_id]. rewrite Ha'. split; [|done]. split; [done|].
    intros p z Hp. destruct (Hg p z Hp) as (n&Hn&?). exists n. cbn [with_path _path].
    rewrite lookup_insert_ne; [done|congruence].
Qed.

Definition is_exit (r : request) : bool := match r with Exit => true | _ => false end.
Definition is_finalize (r : request) : bool := match r with Finalize => true | _ => false end.

Ltac served := cbn [mbind result_bind is_exit is_finalize]; rewrite orb_false_r; eauto 10.

(** Everything [handle_op] does; the watcher is dropped by a finalizing client. *)
Lemma handle_op_refines s c req r exit :
  Inv s → decode req = Ok r →
  ∃ s1 s' resp, handle_op junk iter_path iter_watchers s c req exit =
      Ok (s', resp, exit || is_exit r) ∧
    implements (touch_root s) c r s1 resp ∧
    s' = if is_finalize r then with_watchers s1 (delete c (_watchers s1)) else s1.
Proof.
  intros Hs. destruct (touch_root_spec s Hs) as (Hr&_). unfold decode, handle_op.
  destruct (op_in (c_enum junk t_i8 req_to req_from) req) as [[req' op]|]; [|done].
  cbn [mbind result_bind]. destruct op; rewrite ?bind_ok.
  - intros ([a1 p]&E1&([a2 v]&E2&([a3 e]&E3&[= <-])%bind_ok)%bind_ok).
    destruct (master_gen_refines _ c _ _ _ _ _ _ _ Hr E1 E2 E3) as (s'&resp&->&Him).
    served.
  - intros ([a1 p]&E1&([a2 v]&E2&([a3 e]&E3&[= <-])%bind_ok)%bind_ok).
    destruct (master_add_refines _ c _ _ _ _ _ _ _ Hr E1 E2 E3) as (s'&resp&->&Him).
    served.
  - intros ([a1 p]&E1&[= <-]).
    destruct (master_del_refines _ c _ _ _ Hr E1) as (s'&resp&->&Him).
    served.
  - intros ([a1 p]&E1&[= <-]).
    destruct (master_get_refines _ c _ _ _ Hr E1) as (s'&resp&->&Him).
    served.
  - intros ([a1 p]&E1&([a2 v]&E2&[= <-])%bind_ok).
    destruct (master_set_refines _ c _ _ _ _ _ Hr E1 E2) as (s'&resp&->&Him).
    served.
  - intros ([a1 p]&E1&[= <-]).
    destruct (master_sub_refines _ c _ _ _ Hr E1) as (s'&resp&->&Him).
    served.
  - intros [= <-]. cbn [is_exit is_finalize]. rewrite orb_true_r.
    do 3 eexists. split; [done|]. split; [|done]. by apply implements_read.
  - intros [= <-]. destruct (disconnect_refines _ c Hr) as (s'&->&Him).
    served.
  - intros [= <-]. cbn [is_exit is_finalize]. rewrite orb_false_r.
    do 3 eexists. split; [done|]. split; [|done]. by apply implements_read.
Qed.
End refinement.

(** ** Connections *)

(** [c] is a connection the master holds. *)
Definition alive (s : Master) (c : sock) : Prop := ∃ fd, _fd_socket_map s !! fd = Some c.

(** Owners and watchers are connections the master holds: no pointer to a destroyed
    socket is kept. *)
Record Live (s : Master) : Prop := {
  live_inv : Inv s;
  live_owner p o v : absm (_path s) !! p = Some (Some o, v) → alive s o;
  live_watcher c : is_Some (_watchers s !! c) → alive s c;
  live_inj fd fd' c : _fd_socket_map s !! fd = Some c → _fd_socket_map s !! fd' = Some c → fd = fd';
}.

Lemma spec_op_owner t c r t' resp ch p o v :
  spec_op t c r = (t', resp, ch) → t_nodes t' !! p = Some (Some o, v) →
  o = c ∨ ∃ p' v', t_nodes t !! p' = Some (Some o, v').
Proof.
  destruct r as [q w e|q w e|q|q w|q|q| | |]; cbn [spec_op];
    repeat (case_match; simplify_eq; cbn [t_nodes]); intros; simplify_eq; cbn [t_nodes] in *; eauto;
    match goal with
    | H : <[_ := _]> _ !! _ = Some _ |- _ =>
        apply lookup_insert_Some in H as [[_ ?]|[_ ?]]; simplify_eq; eauto
    | H : delete _ _ !! _ = Some _ |- _ => apply lookup_delete_Some in H as [_ ?]; eauto
    | H : filter _ _ !! _ = Some _ |- _ => apply map_lookup_filter_Some in H as [? _]; eauto
    end.
Qed.

Lemma t_root_owner t p o v :
  t_nodes (t_root t) !! p = Some (Some o, v) → t_nodes t !! p = Some (Some o, v).
Proof.
  unfold t_root. case_match; [done|]. cbn [t_nodes]. rewrite lookup_insert_Some. naive_solver.
Qed.

Section serving.
Context (junk : nat → byte).
Context (iter_path : gmap str MasterNode → list (str * MasterNode)).
Context (iter_watchers : gmap sock rpc_head_t → list (sock * rpc_head_t)).
Hypothesis iter_path_perm : ∀ m, iter_path m ≡ₚ map_to_list m.
Hypothesis iter_watchers_perm : ∀ m, iter_watchers m ≡ₚ map_to_list m.

(** What may happen next: a new connection has a descriptor and an object that are not
    in use, and a readable descriptor is one of the polled ones and delivers requests
    that decode. *)
Definition possible (s : Master) (e : event) : Prop :=
  match e with
  | Accepted fd c => _fd_socket_map s !! fd = None ∧ ¬ alive s c
  | Readable fd reqs _ => is_Some (_fd_socket_map s !! fd) ∧
                          Forall (λ hr, is_ok (decode junk hr.2)) reqs
  end.

(** What was sent between two states went to connections the first one held. *)
Definition sent_to_alive (s s' : Master) : Prop :=
  ∃ ps, _sent s' = _sent s ++ ps ∧ Forall (λ p, alive s (p_to p)) ps.

Lemma notices_alive s paths :
  (∀ c, is_Some (_watchers s !! c) → alive s c) →
  Forall (λ p, alive s (p_to p)) (notices iter_watchers s paths).
Proof.
  intros Hw. unfold notices. apply Forall_forall. intros pk Hin.
  apply list_elem_of_bind in Hin as (path&Hin&_). apply list_elem_of_fmap in Hin as ([w h]&->&Hin).
  rewrite iter_watchers_perm in Hin. apply elem_of_map_to_list in Hin. apply Hw. by eexists.
Qed.

(** A request or the end of a connection, as the specification sees it. *)
Lemma implements_live s c r s' resp :
  Live s → alive s c → implements iter_watchers s c r s' resp →
  Live s' ∧ sent_to_alive s s' ∧ _fd_socket_map s' = _fd_socket_map s ∧
  _watchers s' = _watchers s.
Proof.
  intros [Hs Ho Hw Hi] Hc [Hs' (ch&paths&Hop&_&Hsent) Hf Hws].
  assert (Hal : ∀ c, alive s' c ↔ alive s c) by (intros; unfold alive; by rewrite Hf).
  split; [split|split; [|done]].
  - done.
  - intros p o v Hp. apply Hal.
    destruct (spec_op_owner _ _ _ _ _ _ p o v Hop Hp) as [->|(p'&v'&Hp')]; [done|].
    by eapply Ho.
  - intros d. rewrite Hws, Hal. apply Hw.
  - rewrite Hf. done.
  - exists (notices iter_watchers s paths). split; [done|]. by apply notices_alive.
Qed.

Lemma touch_root_live s : Live s → Live (touch_root s).
Proof.
  intros [Hs Ho Hw Hi]. destruct (touch_root_spec s Hs) as (Hs'&Ha&_&Hf&Hws). split; [done| | |].
  - intros p o v Hp. change (absm (_path (touch_root s))) with (t_nodes (abs (touch_root s))) in Hp.
    rewrite Ha in Hp. apply t_root_owner in Hp. unfold alive. rewrite Hf. by eapply Ho.
  - intros c. rewrite Hws. unfold alive. rewrite Hf. apply Hw.
  - rewrite Hf. done.
Qed.

(** The connection that ended, after its nodes were removed. *)
Lemma erase_live s fd c :
  Live s → _fd_socket_map s !! fd = Some c → (∀ p v, absm (_path s) !! p ≠ Some (Some c, v)) →
  Live (with_socks (with_watchers s (delete c (_watchers s))) (delete fd (_fd_socket_map s))).
Proof.
  intros [[Hm Hg] Ho Hw Hi] Hfd Hc.
  assert (Hal : ∀ d, d ≠ c → alive s d → ∃ fd', delete fd (_fd_socket_map s) !! fd' = Some d).
  { intros d Hne [fd' Hd]. exists fd'. apply lookup_delete_Some. split; [congruence|done]. }
  split; [by split| | |]; cbn.
  - intros p o v Hp. apply Hal; [|by eapply Ho]. intros ->. by eapply Hc.
  - intros d [h [Hne Hd]%lookup_delete_Some]. apply Hal; [done|]. apply Hw. by exists h.
  - intros f f' d [_ H1]%lookup_delete_Some [_ H2]%lookup_delete_Some. by eapply Hi.
Qed.

Lemma drop_watcher_live s c : Live s → Live (with_watchers s (delete c (_watchers s))).
Proof.
  intros [Hs Ho Hw Hi]. split; [by destruct Hs; split|done| |done].
  cbn. intros d [h [_ Hd]%lookup_delete_Some]. apply Hw. by exists h.
Qed.

Lemma sent_to_alive_trans s1 s2 s3 :
  _fd_socket_map s2 = _fd_socket_map s1 →
  sent_to_alive s1 s2 → sent_to_alive s2 s3 → sent_to_alive s1 s3.
Proof.
  intros Hf (p1&H1&F1) (p2&H2&F2). exists (p1 ++ p2). rewrite H2, H1, app_assoc.
  split; [done|]. apply Forall_app. split; [done|].
  unfold alive in *. rewrite Hf in F2. done.
Qed.

Lemma handle_messages_live reqs : ∀ s c exit,
  Live s → alive s c → Forall (λ hr, is_ok (decode junk hr.2)) reqs →
  ∃ s' exit', handle_messages junk iter_path iter_watchers s c reqs exit = Ok (s', exit') ∧
    Live s' ∧ sent_to_alive s s' ∧ _fd_socket_map s' = _fd_socket_map s.
Proof.
  induction reqs as [|[hd req] reqs IH]; intros s c exit Hs Hc Hok; cbn [handle_messages].
  { exists s, exit. split; [done|]. split; [done|]. split; [|done]. exists [].
    by rewrite app_nil_r. }
  apply Forall_cons in Hok as [[r Hr] Hok]. cbn [snd] in Hr.
  destruct (handle_op_refines junk iter_path iter_watchers iter_path_perm s c req r exit
    (live_inv s Hs) Hr) as (s1&s2&resp&->&Him&->). cbn [mbind result_bind].
  destruct (touch_root_spec s (live_inv s Hs)) as (_&_&Hro&Hrf&_).
  destruct (implements_live (touch_root s) c r s1 resp) as (Hs1&Hsent&Hf&_);
    [by apply touch_root_live|unfold alive; by rewrite Hrf|done|]. rewrite Hrf in Hf.
  assert (sent_to_alive s s1) as Hsent0.
  { destruct Hsent as (ps&Hps&Hfa). exists ps. rewrite Hps, Hro. split; [done|].
    unfold alive in *. by rewrite Hrf in Hfa. }
  set (s2 := if is_finalize r then _ else _).
  assert (Live s2 ∧ _sent s2 = _sent s1 ∧ _fd_socket_map s2 = _fd_socket_map s1) as (Hs2&Ho2&Hf2).
  { unfold s2. destruct (is_finalize r); [|done]. split; [by apply drop_watcher_live|done]. }
  destruct (IH (send s2 [Packet c (RpcResponse_head hd) resp]) c (exit || is_exit r))
    as (s'&exit'&->&Hs'&Hsent'&Hf'); [|by unfold alive; cbn; rewrite Hf2, Hf|done|].
  { destruct Hs2 as [[??] ???]. by split. }
  exists s', exit'. split; [done|]. split; [done|]. cbn in Hf'. rewrite Hf2, Hf in Hf'.
  split; [|done]. eapply sent_to_alive_trans; [|exact Hsent0|]; [done|].
  eapply sent_to_alive_trans; [|  |exact Hsent'].
  - cbn. by rewrite Hf2.
  - exists [Packet c (RpcResponse_head hd) resp]. cbn. rewrite Ho2. split; [done|].
    constructor; [|done]. unfold alive. cbn. by rewrite Hf.
Qed.

Lemma serve_event_live s exit e :
  Live s → possible s e →
  ∃ s' exit', serve_event junk iter_path iter_watchers s exit e = Ok (s', exit') ∧
    Live s' ∧ sent_to_alive s s'.
Proof.
  intros Hs He. destruct e as [fd c|fd reqs al]; cbn [possible serve_event] in *.
  - destruct He as [Hfd Hc]. cbn [with_watchers _fd_socket_map]. rewrite Hfd.
    assert (_watchers s !! c = None) as Hw.
    { apply eq_None_not_Some. intros ?%(live_watcher s Hs). done. }
    rewrite Hw. do 2 eexists. split; [done|]. destruct Hs as [[Hm Hg] Ho Hwa Hi].
    assert (Hal : ∀ d, alive s d → ∃ fd', <[fd := c]> (_fd_socket_map s) !! fd' = Some d).
    { intros d [fd' Hd]. exists fd'. rewrite lookup_insert_ne; [done|congruence]. }
    split; [|exists []; by rewrite app_nil_r]. split; [by split| | |].
    + intros p o v Hp. apply Hal. by eapply Ho.
    + intros d Hd. destruct (decide (d = c)) as [->|].
      * exists fd. apply lookup_insert_eq.
      * apply Hal, Hwa. cbn in Hd. by rewrite lookup_insert_ne in Hd.
    + intros f f' d. cbn. rewrite !lookup_insert_Some.
      intros [[<- <-]|[? H1]] [[<- E]|[? H2]]; [done| | |by eapply Hi].
      * destruct Hc. by exists f'.
      * destruct Hc. exists f. congruence.
  - destruct He as [[c Hc] Hok]. rewrite Hc.
    destruct (handle_messages_live reqs s c exit) as (s1&x1&->&Hs1&Hsent&Hf); [done|by exists fd|done|].
    cbn [mbind result_bind]. destruct al; [eauto|].
    destruct (disconnect_refines junk iter_path iter_watchers iter_path_perm s1 c (live_inv s1 Hs1))
      as (s2&->&Him). cbn [mbind result_bind]. do 2 eexists. split; [done|].
    destruct (implements_live s1 c Finalize s2 [] Hs1) as (Hs2&Hsent2&Hf2&_);
      [by exists fd; rewrite Hf|done|].
    split.
    + apply (erase_live s2 fd c Hs2); [by rewrite Hf2, Hf|]. intros p v Hp.
      destruct (im_spec _ _ _ _ _ _ Him) as (ch&paths&[= Hn _]&_). unfold abs in Hn.
      cbn [t_nodes] in Hn. rewrite <- Hn in Hp. by apply map_lookup_filter_Some in Hp as [_ ?].
    + by eapply sent_to_alive_trans; [|exact Hsent|exact Hsent2].
Qed.
End serving.

Section reachable.
Context (junk : nat → byte).
Context (iter_path : gmap str MasterNode → list (str * MasterNode)).
Context (iter_watchers : gmap sock rpc_head_t → list (sock * rpc_head_t)).

(** The states of the serving loop. *)
Inductive serves : Master → bool → Prop :=
  | serves_init : serves init false
  | serves_step s exit e s' exit' :
      serves s exit → possible junk s e →
      serve_event junk iter_path iter_watchers s exit e = Ok (s', exit') → serves s' exit'.

Lemma init_live : Live init.
Proof.
  split.
  - split; [split|]; cbn; intros *; rewrite ?lookup_empty; try done;
      try by intros _ [? ?].
  - intros p o v. unfold absm. cbn. by rewrite fmap_empty, lookup_empty.
  - intros c [? ?]. done.
  - intros fd fd' c. cbn. by rewrite lookup_empty.
Qed.

Hypothesis iter_path_perm : ∀ m, iter_path m ≡ₚ map_to_list m.
Hypothesis iter_watchers_perm : ∀ m, iter_watchers m ≡ₚ map_to_list m.

Lemma serves_live s exit : serves s exit → Live s.
Proof.
  induction 1 as [|s x e s' x' _ IH He Hev]; [apply init_live|].
  destruct (serve_event_live junk iter_path iter_watchers iter_path_perm iter_watchers_perm s x e
    IH He) as (s2&x2&Hev'&Hl&_). congruence.
Qed.
End reachable.

(** ** Properties *)

(** C19: the master's handlers implement a tree.  Forget the lists of children and the
    nodes of the master are a map from paths to owners and values.  Every request that
    decodes is answered, none of the handler's internal checks fails, the new state and
    the response are what [spec_op] says of that map (the children of a path being the
    paths one step below it, in the order of strings), every watcher is told of exactly
    the changed paths, and the two representations of the edges still agree. *)
Theorem master_refines_tree (junk : nat → byte)
    (iter_path : gmap str MasterNode → list (str * MasterNode))
    (iter_watchers : gmap sock rpc_head_t → list (sock * rpc_head_t))
    (s : Master) (c : sock) (req : archive) (r : request) (exit : bool) :
  (∀ m, iter_path m ≡ₚ map_to_list m) →
  Inv s → decode junk req = Ok r →
  ∃ s' resp changed paths,
    handle_op junk iter_path iter_watchers s c req exit = Ok (s', resp, exit || is_exit r) ∧
    spec_op (t_root (abs s)) c r = (abs s', resp, changed) ∧
    paths ≡ₚ elements changed ∧ _sent s' = _sent s ++ notices iter_watchers s paths ∧
    _watchers s' = (if is_finalize r then delete c (_watchers s) else _watchers s) ∧ Inv s'.
Proof.
  intros Hip Hs Hr.
  destruct (handle_op_refines junk iter_path iter_watchers Hip s c req r exit Hs Hr)
    as (s1&s'&resp&Hop&[Hi (ch&paths&Hsp&Hpe&Hse) _ Hw]&->).
  destruct (touch_root_spec s Hs) as (_&Ha&Ho&_&Hrw). rewrite Ha in Hsp.
  rewrite Ho in Hse. unfold notices in Hse. rewrite Hrw in Hse. rewrite Hrw in Hw.
  exists (if is_finalize r then with_watchers s1 (delete c (_watchers s1)) else s1), resp, ch, paths.
  split; [done|]. destruct (is_finalize r); cbn [_sent with_watchers _watchers abs _gen_id _path];
    rewrite ?Hw; [|done]. split; [done|]. split; [done|]. split; [done|]. split; [done|].
  destruct Hi. by split.
Qed.

(** A request body. *)
Definition body_of (xs : list (sigT value)) : archive :=
  match put_all (λ _, Byte.x00) (λ V, map_to_list) elements (MemoryArchive_ false) xs with
  | Ok a => a
  | Abort => MemoryArchive_ false
  end.

Lemma master_refines_tree_witness :
  let req := body_of [v_req MASTER_ADD; v_string (lit "/a"); v_string (lit "v"); v_bool true] in
  ∃ s' resp changed paths,
    handle_op (λ _, Byte.x00) map_to_list map_to_list init 7%nat req false = Ok (s', resp, false) ∧
    spec_op (t_root (abs init)) 7%nat (Add (lit "/a") (lit "v") true) = (abs s', resp, changed) ∧
    paths ≡ₚ elements changed ∧ _sent s' = _sent init ++ notices map_to_list init paths ∧
    _watchers s' = _watchers init ∧ Inv s'.
Proof.
  apply (master_refines_tree (λ _, Byte.x00) map_to_list map_to_list init 7%nat _
    (Add (lit "/a") (lit "v") true) false); [done|apply init_live|vm_compute; reflexivity].
Defined.

(** C20: the serving loop is safe.  Whatever connections come, whatever decodable
    requests they send and whenever they end, no check of the master fails: it handles
    the next event; afterwards the stored edges still form a tree, every owner and every
    watcher is a connection the master still holds, and nothing was sent to any other. *)
Theorem master_serving_safe (junk : nat → byte)
    (iter_path : gmap str MasterNode → list (str * MasterNode))
    (iter_watchers : gmap sock rpc_head_t → list (sock * rpc_head_t))
    (s : Master) (exit : bool) (e : event) :
  (∀ m, iter_path m ≡ₚ map_to_list m) → (∀ m, iter_watchers m ≡ₚ map_to_list m) →
  serves junk iter_path iter_watchers s exit → possible junk s e →
  ∃ s' exit', serve_event junk iter_path iter_watchers s exit e = Ok (s', exit') ∧
    Live s' ∧ sent_to_alive s s'.
Proof.
  intros Hip Hiw Hs He. apply serve_event_live; [done|done| |done]. by eapply serves_live.
Qed.

(** Two connections, one of which has created an ephemeral node. *)
Definition example_req : archive :=
  body_of [v_req MASTER_ADD; v_string (lit "/a"); v_string (lit "v"); v_bool true].
Definition example_events : list event :=
  [Accepted 5 1%nat; Accepted 6 2%nat; Readable 5 [(rpc_head_default, example_req)] true].
Definition example_state (n : nat) : Master :=
  match serve_round (λ _, Byte.x00) map_to_list map_to_list init false (take n example_events) with
  | Ok (s, _) => s
  | Abort => init
  end.

Lemma example_serves :
  serves (λ _, Byte.x00) map_to_list map_to_list (example_state 3) false ∧
  _fd_socket_map (example_state 3) !! 5 = Some 1%nat.
Proof.
  split; [|vm_compute; reflexivity].
  assert (serves (λ _, Byte.x00) map_to_list map_to_list (example_state 1) false) as H1.
  { apply (serves_step _ _ _ init false (Accepted 5 1%nat)); [apply serves_init| |reflexivity].
    split; [done|]. by intros [fd Hfd]. }
  assert (serves (λ _, Byte.x00) map_to_list map_to_list (example_state 2) false) as H2.
  { apply (serves_step _ _ _ _ false (Accepted 6 2%nat) _ _ H1); [|vm_compute; reflexivity].
    split; [done|]. intros [fd Hfd].
    change (<[5 := 1%nat]> (∅ : gmap Z sock) !! fd = Some 2%nat) in Hfd.
    apply lookup_insert_Some in Hfd as [[_ ?]|[_ ?]]; done. }
  apply (serves_step _ _ _ _ false (Readable 5 [(rpc_head_default, example_req)] true) _ _ H2);
    [|vm_compute; reflexivity].
  split; [by exists 1%nat|]. constructor; [|done].
  exists (Add (lit "/a") (lit "v") true). vm_compute. reflexivity.
Qed.

Lemma master_serving_safe_witness :
  ∃ s, serves (λ _, Byte.x00) map_to_list map_to_list s false ∧ possible (λ _, Byte.x00) s (Readable 5 [] false) ∧
  ∃ s' exit', serve_event (λ _, Byte.x00) map_to_list map_to_list s false (Readable 5 [] false) = Ok (s', exit') ∧
    Live s' ∧ sent_to_alive s s'.
Proof.
  destruct example_serves as [Hs Hfd]. exists (example_state 3). split; [done|].
  assert (possible (λ _, Byte.x00) (example_state 3) (Readable 5 [] false)) as Hp by (split; [by eexists|done]).
  split; [done|]. by apply (master_serving_safe (λ _, Byte.x00) map_to_list map_to_list (example_state 3) false).
Defined.

(** C21: the end of a connection removes exactly the nodes it owned.  Permanent nodes
    and the nodes of other connections stay as they are, and so do the counters of the
    generated names; the connection is forgotten as a watcher and as a socket, and each
    removal has been announced to every watcher. *)
Theorem closed_connection_removes_its_nodes (junk : nat → byte)
    (iter_path : gmap str MasterNode → list (str * MasterNode))
    (iter_watchers : gmap sock rpc_head_t → list (sock * rpc_head_t))
    (s : Master) (exit : bool) (fd : Z) (c : sock) :
  (∀ m, iter_path m ≡ₚ map_to_list m) → (∀ m, iter_watchers m ≡ₚ map_to_list m) →
  serves junk iter_path iter_watchers s exit → _fd_socket_map s !! fd = Some c →
  ∃ s' paths, serve_event junk iter_path iter_watchers s exit (Readable fd [] false) = Ok (s', exit) ∧
    abs s' = Tree (filter (λ pn, pn.2.1 ≠ Some c) (t_nodes (abs s))) (t_gen (abs s)) ∧
    (∀ p, p ∈ paths ↔ ∃ v, t_nodes (abs s) !! p = Some (Some c, v)) ∧ NoDup paths ∧
    _sent s' = _sent s ++ notices iter_watchers s paths ∧
    _watchers s' = delete c (_watchers s) ∧ _fd_socket_map s' = delete fd (_fd_socket_map s).
Proof.
  intros Hip Hiw Hs Hfd. pose proof (serves_live _ _ _ Hip Hiw _ _ Hs) as Hl.
  cbn [serve_event handle_messages]. rewrite Hfd. cbn [mbind result_bind].
  destruct (disconnect_refines junk iter_path iter_watchers Hip s c (live_inv s Hl))
    as (s2&->&[_ (ch&paths&[= Hn Hg <-]&Hp&Ho) Hf Hw]). cbn [mbind result_bind].
  eexists _, paths. split; [done|]. cbn [_sent _watchers _fd_socket_map with_socks with_watchers].
  rewrite Hf, Hw. split; [|split; [|split; [|done]]].
  - unfold abs in *. cbn [t_nodes t_gen _path _gen_id with_socks with_watchers] in *. congruence.
  - intros p. rewrite Hp, elem_of_elements, elem_of_dom. split.
    + intros ([o v]&[Hv [= ->]]%map_lookup_filter_Some). eauto.
    + intros (v&Hv). exists (Some c, v). by apply map_lookup_filter_Some.
  - rewrite Hp. apply NoDup_elements.
Qed.

Lemma closed_connection_removes_its_nodes_witness :
  ∃ s, serves (λ _, Byte.x00) map_to_list map_to_list s false ∧ _fd_socket_map s !! 5 = Some 1%nat ∧
  ∃ s' paths, serve_event (λ _, Byte.x00) map_to_list map_to_list s false (Readable 5 [] false) = Ok (s', false) ∧
    abs s' = Tree (filter (λ pn, pn.2.1 ≠ Some 1%nat) (t_nodes (abs s))) (t_gen (abs s)) ∧
    (∀ p, p ∈ paths ↔ ∃ v, t_nodes (abs s) !! p = Some (Some 1%nat, v)) ∧ NoDup paths ∧
    _sent s' = _sent s ++ notices map_to_list s paths ∧
    _watchers s' = delete 1%nat (_watchers s) ∧ _fd_socket_map s' = delete 5 (_fd_socket_map s).
Proof.
  destruct example_serves as [Hs Hfd]. exists (example_state 3). split; [done|]. split; [done|].
  by apply (closed_connection_removes_its_nodes (λ _, Byte.x00) map_to_list map_to_list (example_state 3) false).
Defined.

Section stopping.
Context (junk : nat → byte).
Context (iter_path : gmap str MasterNode → list (str * MasterNode)).
Context (iter_watchers : gmap sock rpc_head_t → list (sock * rpc_head_t)).

(** Each event of a round, and of a sequence of rounds, is possible when its turn comes. *)
Fixpoint possible_round (s : Master) (exit : bool) (es : list event) : Prop :=
  match es with
  | [] => True
  | e :: es => possible junk s e ∧
      ∀ s' exit', serve_event junk iter_path iter_watchers s exit e = Ok (s', exit') →
        possible_round s' exit' es
  end.

Fixpoint possible_rounds (s : Master) (exit : bool) (rounds : list (list event)) : Prop :=
  match rounds with
  | [] => True
  | es :: rounds => possible_round s exit es ∧
      ∀ s' exit', serve_round junk iter_path iter_watchers s exit es = Ok (s', exit') →
        possible_rounds s' exit' rounds
  end.

Hypothesis iter_path_perm : ∀ m, iter_path m ≡ₚ map_to_list m.
Hypothesis iter_watchers_perm : ∀ m, iter_watchers m ≡ₚ map_to_list m.

Lemma serve_round_live es : ∀ s exit,
  Live s → possible_round s exit es →
  ∃ s' exit', serve_round junk iter_path iter_watchers s exit es = Ok (s', exit') ∧ Live s'.
Proof.
  induction es as [|e es IH]; intros s exit Hs Hp; cbn [serve_round]; [eauto|].
  destruct Hp as [He Hes].
  destruct (serve_event_live junk iter_path iter_watchers iter_path_perm iter_watchers_perm
    s exit e Hs He) as (s1&x1&Hev&Hs1&_). rewrite Hev. cbn [mbind result_bind]. eauto.
Qed.

Lemma serving_live rounds : ∀ s exit,
  Live s → possible_rounds s exit rounds →
  ∃ s' stopped, serving junk iter_path iter_watchers s exit rounds = Ok (s', stopped) ∧ Live s' ∧
    (stopped = true → _fd_socket_map s' = ∅).
Proof.
  induction rounds as [|es rounds IH]; intros s exit Hs Hp; cbn [serving].
  { exists s, false. done. }
  destruct Hp as [He Hes]. destruct (serve_round_live es s exit Hs He) as (s1&x1&Hr&Hs1).
  rewrite Hr. cbn [mbind result_bind]. destruct (x1 && bool_decide _) eqn:Ex; [|by apply IH; auto].
  exists s1, true. apply andb_true_iff in Ex as [_ Ex%bool_decide_eq_true]. done.
Qed.
End stopping.

(** The serving loop never fails a check, and it leaves nothing behind.  As long as
    the descriptors are real and the requests decode, [serving] runs through any
    sequence of rounds without aborting; when it stops, no connection is left, hence no
    ephemeral node and no registered watcher. *)
Theorem master_stops_clean (junk : nat → byte)
    (iter_path : gmap str MasterNode → list (str * MasterNode))
    (iter_watchers : gmap sock rpc_head_t → list (sock * rpc_head_t))
    (rounds : list (list event)) :
  (∀ m, iter_path m ≡ₚ map_to_list m) → (∀ m, iter_watchers m ≡ₚ map_to_list m) →
  possible_rounds junk iter_path iter_watchers init false rounds →
  ∃ s stopped, serving junk iter_path iter_watchers init false rounds = Ok (s, stopped) ∧ Live s ∧
    (stopped = true →
     _watchers s = ∅ ∧ ∀ p o v, absm (_path s) !! p = Some (o, v) → o = None).
Proof.
  intros Hip Hiw Hp.
  destruct (serving_live junk iter_path iter_watchers Hip Hiw rounds init false init_live Hp)
    as (s&st&Hs&Hl&Hst). exists s, st. split; [done|]. split; [done|]. intros Hf%Hst.
  assert (Hno : ∀ c, ¬ alive s c) by (intros c [fd Hfd]; by rewrite Hf in Hfd). split.
  - apply map_empty. intros c. apply eq_None_not_Some. intros Hc%(live_watcher s Hl). by eapply Hno.
  - intros p [o|] v Hv; [|done]. destruct (Hno o). by eapply (live_owner s Hl).
Qed.

Lemma master_stops_clean_witness :
  let rounds := [[Accepted 5 1%nat]; [Readable 5 [(rpc_head_default, body_of [v_req MASTER_EXIT])] true];
                 [Readable 5 [] false]] in
  (∃ s, serving (λ _, Byte.x00) map_to_list map_to_list init false rounds = Ok (s, true)) ∧
  ∃ s stopped, serving (λ _, Byte.x00) map_to_list map_to_list init false rounds = Ok (s, stopped) ∧ Live s ∧
    (stopped = true → _watchers s = ∅ ∧ ∀ p o v, absm (_path s) !! p = Some (o, v) → o = None).
Proof.
  split; [eexists; vm_compute; reflexivity|].
  apply master_stops_clean; [done|done|].
  split; [split; [|done]|].
  { split; [done|]. by intros [fd Hfd]. }
  intros s1 x1 E1. vm_compute in E1. injection E1 as <- <-. split; [split; [|done]|].
  { split; [by exists 1%nat|]. constructor; [|done]. exists Exit. vm_compute. reflexivity. }
  intros s2 x2 E2.
  apply (f_equal (λ r, match r with Ok (s, _) => _fd_socket_map s !! 5 | Abort => None end)) in E2.
  vm_compute in E2. split; [split; [|done]|done]. split; [|done]. exists 1%nat. by symmetry.
Defined.
