(* ===== verification/MasterClient.v ===== *)
(** * Clients of the master: requests, watchers, names, identifiers and locks

    src/src/rpc/TcpMasterClient.cpp, src/src/rpc/MasterClient.h and
    src/src/rpc/MasterClient.cpp.

    [TcpMasterClient] turns the virtual methods [master_gen] ... [master_sub] into
    requests.  [MasterClient] builds on them: a table of watchers that the
    notifications of the master invoke, generated identifiers and distributed locks.
    The last two are proved against the class [MasterService], which says what the
    master promises; Master.v's refinement theorem is its instance.

    [boost::split] is a parameter, with what its documentation says of it as the
    hypothesis [split_spec]. *)
From stdpp Require Import sorting.
From Stdlib Require Import Eqdep_dec.
From S2P Require Import Prelude Archive Serialize LazyArchive Message Master.
Import MemoryArchive.

(** ** Requests and responses of [TcpMasterClient] *)

Module TcpMasterClient.

(** The methods of the interface; [m_value] is the caller's buffer, which [master_get]
    sends along. *)
Inductive method :=
  | master_gen (path value : str) (ephemeral : bool)
  | master_add (path value : str) (ephemeral : bool)
  | master_set (path value : str)
  | master_get (path m_value : str)
  | master_del (path : str)
  | master_sub (path : str).

(** The input side of [RPC_METHOD]. *)
Definition rpc_request (f : method) : list (sigT value) :=
  match f with
  | master_gen path value ephemeral =>
      [v_req MASTER_GEN; v_string path; v_string value; v_bool ephemeral]
  | master_add path value ephemeral =>
      [v_req MASTER_ADD; v_string path; v_string value; v_bool ephemeral]
  | master_set path value => [v_req MASTER_SET; v_string path; v_string value]
  | master_get path value => [v_req MASTER_GET; v_string path; v_string value]
  | master_del path => [v_req MASTER_DEL; v_string path]
  | master_sub path => [v_req MASTER_SUB; v_string path]
  end.

Definition status_from (z : Z) : MasterStatus :=
  match z with 0 => OK | 1 => NODE_FAILED | 2 => PATH_FAILED | 3 => DISCONNECTED | _ => ERROR end.

(** The output parameters. *)
Inductive output := out_void | out_string (s : str) | out_strings (l : list str).

(** The output side of [RPC_METHOD]: the status, and the results when it is [OK]. *)
Definition rpc_response (junk : nat → byte) (f : method) (resp : archive)
    : result (MasterStatus * output) :=
  '(resp, ret) ← op_in (c_enum junk t_i8 status_to status_from) resp;
  match ret with
  | OK =>
      match f with
      | master_gen _ _ _ | master_get _ _ =>
          '(_, s) ← op_in (c_string junk) resp; Ok (ret, out_string s)
      | master_sub _ =>
          '(_, l) ← op_in (c_vector junk (c_string junk)) resp; Ok (ret, out_strings l)
      | _ => Ok (ret, out_void)
      end
  | _ => Ok (ret, out_void)
  end.

(** The request the master decodes. *)
Definition request_of (f : method) : request :=
  match f with
  | master_gen p v e => Gen p v e
  | master_add p v e => Add p v e
  | master_set p v => Set_ p v
  | master_get p _ => Get p
  | master_del p => Del p
  | master_sub p => Sub p
  end.

(** What the caller gets for a response of the specification. *)
Definition result_of (xs : list (sigT value)) : MasterStatus * output :=
  match xs with
  | [existT (TyInt _) z] => (status_from z, out_void)
  | [existT (TyInt _) z; existT TyString s] => (status_from z, out_string s)
  | [existT (TyInt _) z; existT (TyVec TyString) l] => (status_from z, out_strings l)
  | _ => (ERROR, out_void)
  end.

End TcpMasterClient.
Import TcpMasterClient.

#[global] Instance int_type_eq_dec : EqDecision int_type.
Proof. solve_decision. Defined.
#[global] Instance ty_eq_dec : EqDecision ty.
Proof. solve_decision. Defined.

Lemma existT_inj (t : ty) (x y : value t) : existT t x = existT t y → x = y.
Proof. apply inj_pair2_eq_dec, ty_eq_dec. Qed.

Section streams.
Context (junk : nat → byte).
Context (order : ∀ V, gmap (list byte) V → list (list byte * V)).
Context (order_set : gset (list byte) → list (list byte)).

(** The server reads the same stream it would read value by value. *)
Lemma get_all_cons a t x ts b xs :
  get_all junk order order_set a (t :: ts) = Ok (b, existT t x :: xs) →
  ∃ a', op_in (codec_of junk order order_set t) a = Ok (a', x) ∧
    get_all junk order order_set a' ts = Ok (b, xs).
Proof.
  cbn [get_all]. rewrite bind_ok. intros ([a' y]&Hx&Hr). rewrite bind_ok in Hr.
  destruct Hr as ([a2 ys]&Hy&E).
  assert (existT t y = existT t x ∧ ys = xs ∧ a2 = b) as (->%existT_inj&->&->).
  { assert (existT t y :: ys = existT t x :: xs ∧ a2 = b) as [E1 ->] by naive_solver.
    split; [by apply (f_equal (hd (existT t x))) in E1|]. split; [|done].
    by apply (f_equal tail) in E1. }
  eauto.
Qed.

Lemma op_in_enum {E} to (from : Z → E) a a' z :
  op_in (c_int junk t_i8) a = Ok (a', z) →
  op_in (c_enum junk t_i8 to from) a = Ok (a', from z).
Proof.
  unfold op_in.
  change (pico_deserialize (c_enum junk t_i8 to from) a) with
    (and_then (pico_deserialize (c_int junk t_i8) a) (λ a z, Ok (a, Some (from z)))).
  destruct (pico_deserialize (c_int junk t_i8) a) as [[a1 [x|]]|]; [|done..]. cbn [and_then]. by intros [= -> ->].
Qed.

(** Streams out the first value of [H]. *)
Ltac next_value H :=
  let a := fresh "a" in let E := fresh "E" in
  apply get_all_cons in H as (a&E&H);
  lazymatch type of E with
  | op_in (codec_of _ _ _ TyString) ?x = Ok ?y => change (op_in (c_string junk) x = Ok y) in E
  | op_in (codec_of _ _ _ TyBool) ?x = Ok ?y => change (op_in (c_bool junk) x = Ok y) in E
  | op_in (codec_of _ _ _ (TyInt _)) ?x = Ok ?y => change (op_in (c_int junk t_i8) x = Ok y) in E
  | op_in (codec_of _ _ _ (TyVec TyString)) ?x = Ok ?y =>
      change (op_in (c_vector junk (c_string junk)) x = Ok y) in E
  end.

(** Rewrites with what was streamed out. *)
Ltac streamed := repeat match goal with
  | H : op_in ?c ?x = Ok _ |- context [op_in ?c ?x] => rewrite H; cbn [mbind result_bind]
  end.

Lemma decode_request f a b :
  get_all junk order order_set a (projT1 <$> rpc_request f) = Ok (b, rpc_request f) →
  decode junk a = Ok (request_of f).
Proof.
  destruct f; cbn [rpc_request fmap list_fmap projT1 v_req v_string v_bool]; intros H;
    repeat next_value H; unfold decode;
    rewrite (op_in_enum req_to req_from _ _ _ E); cbn [mbind result_bind req_to req_from];
    streamed; reflexivity.
Qed.

(** What the specification of a method responds, and what the client makes of it. *)
Inductive answers : method → list (sigT value) → Prop :=
  | answer_fail f st : st ≠ OK → answers f [v_status st]
  | answer_gen p v e k : answers (master_gen p v e) [v_status OK; v_string k]
  | answer_add p v e : answers (master_add p v e) [v_status OK]
  | answer_set p v : answers (master_set p v) [v_status OK]
  | answer_get p b v : answers (master_get p b) [v_status OK; v_string v]
  | answer_del p : answers (master_del p) [v_status OK]
  | answer_sub p l : answers (master_sub p) [v_status OK; v_strings l].

Lemma spec_answers t c f t' resp ch :
  spec_op t c (request_of f) = (t', resp, ch) → answers f resp.
Proof.
  destruct f; cbn [request_of spec_op]; repeat case_match; intros; simplify_eq; by constructor.
Qed.

Lemma read_response f a b resp :
  answers f resp → get_all junk order order_set a (projT1 <$> resp) = Ok (b, resp) →
  rpc_response junk f a = Ok (result_of resp).
Proof.
  intros Ha. destruct Ha; cbn [fmap list_fmap projT1 v_status v_string v_strings]; intros Hg;
    repeat next_value Hg; unfold rpc_response;
    rewrite (op_in_enum status_to status_from _ _ _ E);
    cbn [mbind result_bind status_to status_from]; streamed; try reflexivity.
  by destruct st.
Qed.
End streams.

(** *** One value stream through a message, without zero-copy blocks *)
Section transport.
Context (junk : nat → byte) (addr : list byte → Z).
Context (order : ∀ V, gmap (list byte) V → list (list byte * V)).
Context (order_set : gset (list byte) → list (list byte)).
Hypothesis order_perm : ∀ V (m : gmap (list byte) V), order V m ≡ₚ map_to_list m.
Hypothesis order_set_perm : ∀ s, order_set s ≡ₚ elements s.

Lemma stream_through h ar0 xs :
  empty_body junk = Ok ar0 → head_ok h → Forall valid_any xs →
  ∃ q m, item_put junk order order_set (Item h ar0 LazyArchive_ None) xs = Ok q ∧
    RpcMessage_of_item junk addr order order_set q = Ok m ∧
    (fits junk addr order order_set q m → ∀ m', arrived m m' →
     ∃ q1 b, item_of_message m' = Ok q1 ∧ routing (q_head q1) = routing h ∧
       get_all junk order order_set (q_ar q1) (projT1 <$> xs) = Ok (b, xs)).
Proof.
  intros He Hh Hx.
  destruct (item_roundtrip junk addr order order_set order_perm order_set_perm h ar0 xs [] He Hh Hx)
    as (q&m&Hq&Hm&Hall); [done|]. apply bind_ok in Hq as (q0&Hq0&[= <-]).
  assert (item_put_lazy q0 [] = q0) as E by by destruct q0. rewrite E in *.
  exists q0, m. split; [done|]. split; [done|]. intros (_&_&Harr)%Hall m' Hm'.
  destruct (Harr m' Hm') as (q1&q2&q3&H1&H2&H3&_). exists q1.
  unfold item_get in H3. apply bind_ok in H3 as ([b ys]&Hg&[= _ ->]). eauto.
Qed.

Lemma response_head_ok h h' : head_ok h → routing h' = routing h → head_ok (RpcResponse_head h').
Proof.
  unfold head_ok, routing, RpcResponse_head. cbn. intros (?&?&?&?&?&?&?&?&?&?) [= E1 E2 E3 E4 E5 E6 E7].
  rewrite E1, E2, E3, E5, E6.
  repeat match goal with |- _ ∧ _ => split end; try done.
Qed.
End transport.

(** C23: a call of a [TcpMasterClient] method is an operation on the tree.  The request
    that the method streams, once it has arrived as bytes, is decoded by the master as
    the operation with the same arguments; the master performs it on its tree without a
    failed check, and the response, once it has arrived, carries the number of the
    request and gives the caller the status and the results of the specification. *)
Theorem master_call_roundtrip (junk : nat → byte) (addr : list byte → Z)
    (order : ∀ V, gmap (list byte) V → list (list byte * V))
    (order_set : gset (list byte) → list (list byte))
    (iter_path : gmap str MasterNode → list (str * MasterNode))
    (iter_watchers : gmap sock rpc_head_t → list (sock * rpc_head_t))
    (s : Master) (c : sock) (exit : bool) (h : rpc_head_t) (ar0 : archive) (f : method) :
  (∀ V (m : gmap (list byte) V), order V m ≡ₚ map_to_list m) →
  (∀ s, order_set s ≡ₚ elements s) → (∀ m, iter_path m ≡ₚ map_to_list m) →
  Inv s → empty_body junk = Ok ar0 → head_ok h → Forall valid_any (rpc_request f) →
  ∃ q m, item_put junk order order_set (Item h ar0 LazyArchive_ None) (rpc_request f) = Ok q ∧
    RpcMessage_of_item junk addr order order_set q = Ok m ∧
    (fits junk addr order order_set q m → ∀ m', arrived m m' →
     ∃ q1 s' resp changed, item_of_message m' = Ok q1 ∧
       handle_op junk iter_path iter_watchers s c (q_ar q1) exit = Ok (s', resp, exit) ∧
       spec_op (t_root (abs s)) c (request_of f) = (abs s', resp, changed) ∧ Inv s' ∧
       (Forall valid_any resp →
        ∃ r m2, item_put junk order order_set
                  (Item (RpcResponse_head (q_head q1)) ar0 LazyArchive_ None) resp = Ok r ∧
          RpcMessage_of_item junk addr order order_set r = Ok m2 ∧
          (fits junk addr order order_set r m2 → ∀ m2', arrived m2 m2' →
           ∃ r1, item_of_message m2' = Ok r1 ∧ rpc_id (q_head r1) = rpc_id h ∧
             rpc_response junk f (q_ar r1) = Ok (result_of resp)))).
Proof.
  intros Ho Hos Hip Hs He Hh Hv.
  destruct (stream_through junk addr order order_set Ho Hos h ar0 _ He Hh Hv) as (q&m&Hq&Hm&Harr).
  exists q, m. split; [done|]. split; [done|]. intros Hfit m' Hm'.
  destruct (Harr Hfit m' Hm') as (q1&b&Hq1&Hrt&Hg). apply decode_request in Hg.
  destruct (handle_op_refines junk iter_path iter_watchers Hip s c _ _ exit Hs Hg)
    as (s1&s'&resp&Hop&[Hi (ch&paths&Hsp&_) _ _]&->).
  destruct (touch_root_spec s Hs) as (_&Ha&_). rewrite Ha in Hsp.
  assert (is_exit (request_of f) = false ∧ is_finalize (request_of f) = false) as [Hex Hfi]
    by by destruct f. rewrite Hex, Hfi, orb_false_r in Hop.
  exists q1, s1, resp, ch. split; [done|]. split; [done|]. split; [done|]. split; [done|].
  intros Hr.
  destruct (stream_through junk addr order order_set Ho Hos (RpcResponse_head (q_head q1)) ar0 resp He)
    as (r&m2&Hr1&Hr2&Harr2); [by eapply response_head_ok|done|].
  exists r, m2. split; [done|]. split; [done|]. intros Hfit2 m2' Hm2.
  destruct (Harr2 Hfit2 m2' Hm2) as (r1&b1&Hi1&Hrt1&Hg1). exists r1. split; [done|]. split.
  - unfold routing, RpcResponse_head in *. cbn in Hrt1. congruence.
  - eapply read_response; [by eapply spec_answers|done].
Qed.

Lemma master_call_roundtrip_witness :
  let J := λ _ : nat, Byte.x00 in let A := λ _ : list byte, 4096 in
  let O := λ V, @map_to_list str V (gmap str V) _ in let OS := elements (C := gset str) in
  let f := master_add (lit "/a") (lit "v") true in
  let ar0 := MkArchive (Some (buf_malloc J 64)) head_size head_size false true (DelDefault false) in
  ∃ q m, item_put J O OS (Item rpc_head_default ar0 LazyArchive_ None) (rpc_request f) = Ok q ∧
    RpcMessage_of_item J A O OS q = Ok m ∧
    (fits J A O OS q m → ∀ m', arrived m m' →
     ∃ q1 s' resp changed, item_of_message m' = Ok q1 ∧
       handle_op J map_to_list map_to_list init 7%nat (q_ar q1) false = Ok (s', resp, false) ∧
       spec_op (t_root (abs init)) 7%nat (request_of f) = (abs s', resp, changed) ∧ Inv s' ∧
       (Forall valid_any resp →
        ∃ r m2, item_put J O OS (Item (RpcResponse_head (q_head q1)) ar0 LazyArchive_ None) resp = Ok r ∧
          RpcMessage_of_item J A O OS r = Ok m2 ∧
          (fits J A O OS r m2 → ∀ m2', arrived m2 m2' →
           ∃ r1, item_of_message m2' = Ok r1 ∧ rpc_id (q_head r1) = rpc_id rpc_head_default ∧
             rpc_response J f (q_ar r1) = Ok (result_of resp)))).
Proof.
  intros J A O OS f ar0. apply (master_call_roundtrip J A O OS map_to_list map_to_list
    init 7%nat false rpc_head_default ar0 f); [done|done|done|apply init_live|reflexivity| |].
  - vm_compute. intuition congruence.
  - unfold f, rpc_request. repeat (apply Forall_cons; split); [..|by apply Forall_nil];
      vm_compute; intuition (congruence || lia).
Defined.

(** ** [WatcherTable] and the notifications *)

(** Callbacks are identified by numbers: [std::list] iterators do not change. *)
Abbreviation WatcherTable := (gmap str (list nat)).

Definition wt_insert (t : WatcherTable) (key : str) (callback : nat) : WatcherTable :=
  <[key := default [] (t !! key) ++ [callback]]> t.

(** [erase]: the list of a key goes away with its last callback. *)
Definition wt_erase (t : WatcherTable) (key : str) (callback : nat) : result WatcherTable :=
  match t !! key with
  | None => Abort
  | Some l =>
      let l := filter (λ w, w ≠ callback) l in
      Ok (if decide (l = []) then delete key t else <[key := l]> t)
  end.

(** [invoke]: the callbacks of [key], in order. *)
Definition wt_invoke (t : WatcherTable) (key : str) : list nat := default [] (t !! key).

Section notifications.
(** [boost::split(segs, path, boost::is_any_of(sep))] with the separator ['/']. *)
Context (split : str → list str).

(** The loop of [MasterClient::notify_watchers] from the accumulated path [cur]. *)
Fixpoint invoke_segs (t : WatcherTable) (cur : str) (segs : list str) : list nat :=
  match segs with
  | [] => []
  | seg :: segs =>
      if decide (seg = []) then invoke_segs t cur segs
      else let cur := cur ++ [slash] ++ seg in wt_invoke t cur ++ invoke_segs t cur segs
  end.

Definition notify_watchers (t : WatcherTable) (path : str) : list nat :=
  invoke_segs t [] (split path).

(** Joining with ['/']. *)
Fixpoint join (segs : list str) : str :=
  match segs with
  | [] => []
  | [seg] => seg
  | seg :: segs => seg ++ [slash] ++ join segs
  end.

(** [split] cuts at every separator and keeps the empty pieces. *)
Hypothesis split_spec : ∀ s, join (split s) = s ∧ Forall (λ seg, slash ∉ seg) (split s) ∧ split s ≠ [].

Definition rooted (segs : list str) : str := segs ≫= λ seg, slash :: seg.

Lemma join_rooted seg segs : join (seg :: segs) = seg ++ rooted segs.
Proof.
  revert seg. induction segs as [|s segs IH]; intros seg; [cbn; by rewrite app_nil_r|].
  change (join (seg :: s :: segs)) with (seg ++ [slash] ++ join (s :: segs)).
  rewrite IH. unfold rooted. by rewrite bind_cons.
Qed.

(** The pieces of a valid path: an empty one, then the names. *)
Lemma split_valid path :
  master_check_valid_path path = true →
  ∃ segs, split path = [] :: segs ∧ path = rooted segs ∧ Forall good_key segs.
Proof.
  intros Hv. destruct (split_spec path) as (Hj&Hs&Hne).
  destruct (split path) as [|seg segs]; [done|]. rewrite join_rooted in Hj.
  apply Forall_cons in Hs as [Hseg Hs].
  assert (seg = []) as ->.
  { destruct path as [|x path]; [done|]. unfold master_check_valid_path in Hv. case_decide; [|done].
    subst x. destruct seg as [|y seg]; [done|]. injection Hj as -> _. destruct Hseg. left. }
  exists segs. split; [done|]. split; [by symmetry|]. cbn in Hj.
  assert (check_slashes (rooted segs) = true) as Hc.
  { rewrite Hj. destruct path; [done|]. unfold master_check_valid_path in Hv. by case_decide. }
  clear Hj Hv Hseg Hne. induction segs as [|s segs IH]; [done|].
  unfold rooted in Hc. rewrite bind_cons in Hc. fold (rooted segs) in Hc.
  apply Forall_cons in Hs as [Hs1 Hs]. apply Forall_cons. split.
  - split; [done|]. intros ->. cbn [app] in Hc.
    destruct segs as [|s2 segs]; [done|]. unfold rooted in Hc. rewrite bind_cons in Hc. done.
  - apply IH; [done|]. by apply check_slashes_suffix in Hc.
Qed.

Lemma invoke_rooted t segs : ∀ pre, Forall good_key segs →
  invoke_segs t (rooted pre) segs =
    seq 1 (length segs) ≫= λ k, wt_invoke t (rooted (pre ++ take k segs)).
Proof.
  induction segs as [|s segs IH]; intros pre Hg; [done|]. apply Forall_cons in Hg as [Hs Hg].
  cbn [invoke_segs length seq]. rewrite decide_False by apply Hs.
  assert (E : rooted pre ++ [slash] ++ s = rooted (pre ++ [s])).
  { unfold rooted. rewrite bind_app. cbn. by rewrite app_nil_r. }
  cbn zeta. rewrite E, IH by done. rewrite bind_cons.
  change (take 1 (s :: segs)) with [s]. f_equal.
  rewrite <- (fmap_S_seq 1), list_fmap_bind. apply list_bind_ext; [|done].
  intros k. unfold compose. by rewrite <- app_assoc.
Qed.

(** A path above or at [q]. *)
Definition ancestor (p q : str) : Prop := p ≠ [] ∧ (p = q ∨ ∃ rest, q = p ++ [slash] ++ rest).

Lemma ancestor_rooted p segs :
  Forall good_key segs →
  ancestor p (rooted segs) ↔ ∃ k, (1 ≤ k ≤ length segs)%nat ∧ p = rooted (take k segs).
Proof.
  intros Hg. split.
  - intros [Hne Hp]. revert p Hne Hp. induction segs as [|s segs IH]; intros p Hne Hp.
    { destruct Hp as [->|[rest E]]; [done|]. by destruct p. }
    apply Forall_cons in Hg as [Hs Hg]. unfold rooted in Hp. rewrite bind_cons in Hp.
    fold (rooted segs) in Hp. destruct p as [|x p]; [done|].
    assert (x = slash ∧ ∃ p', p = s ++ p' ∧ (p' = [] ∨ ancestor p' (rooted segs))) as (->&p'&->&Hp').
    { destruct Hp as [[= -> ->]|[rest [= <- E]]].
      - split; [done|]. exists (rooted segs). split; [done|].
        destruct segs; [by left|right]. by split; [|left].
      - split; [done|]. apply app_eq_inv in E as [(l&->&El)|(l&->&El)].
        + exists []. rewrite app_nil_r. destruct l as [|y l]; [by rewrite app_nil_r; eauto|].
          injection El as <- _. destruct Hs as [Hs _]. destruct Hs. set_solver.
        + exists l. split; [done|]. destruct l; [by left|right]. split; [done|]. right. by exists rest. }
    destruct Hp' as [->|Hp'].
    + exists 1%nat. split; [cbn; lia|]. cbn. by rewrite !app_nil_r.
    + destruct (IH Hg p') as (k&Hk&->); [apply Hp'..|]. exists (S k). split; [cbn; lia|].
      unfold rooted. cbn [take]. by rewrite bind_cons.
  - intros (k&Hk&->). split.
    + destruct segs, k; cbn in *; try lia; done.
    + assert (rooted segs = rooted (take k segs) ++ rooted (drop k segs)) as ->.
      { unfold rooted. by rewrite <- bind_app, take_drop. }
      destruct (drop k segs) as [|s l]; [left; cbn; by rewrite app_nil_r|].
      right. exists (s ++ rooted l). done.
Qed.

Lemma notify_ancestors t path cb :
  master_check_valid_path path = true →
  cb ∈ notify_watchers t path ↔ ∃ p, ancestor p path ∧ cb ∈ wt_invoke t p.
Proof.
  intros Hv. destruct (split_valid path Hv) as (segs&Hsp&->&Hg).
  unfold notify_watchers. rewrite Hsp. cbn [invoke_segs]. rewrite decide_True by done.
  change [] with (rooted []) at 1. rewrite invoke_rooted by done. rewrite list_elem_of_bind.
  setoid_rewrite elem_of_seq. setoid_rewrite (ancestor_rooted _ segs Hg). split.
  - intros (k&Hcb&Hk). exists (rooted (take k segs)). split; [|done]. exists k. split; [lia|done].
  - intros (p&(k&Hk&->)&Hcb). exists k. split; [done|lia].
Qed.
End notifications.

(** C24: what a notification wakes.  When the master announces a change at [path], the
    callbacks that run are exactly those registered at [path] or at a node above it; so
    whoever waits on a node hears of everything below it.  Registering and cancelling a
    callback leaves the other registrations as they were. *)
Theorem notification_wakes_ancestors (split : str → list str) (t : WatcherTable)
    (p path : str) (cb : nat) :
  (∀ s, join (split s) = s ∧ Forall (λ seg, slash ∉ seg) (split s) ∧ split s ≠ []) →
  master_check_valid_path path = true →
  (∀ w, w ∈ notify_watchers split t path ↔ ∃ q, ancestor q path ∧ w ∈ wt_invoke t q) ∧
  (ancestor p path → cb ∈ notify_watchers split (wt_insert t p cb) path) ∧
  (cb ∉ wt_invoke t p →
   ∃ t', wt_erase (wt_insert t p cb) p cb = Ok t' ∧ ∀ q, wt_invoke t' q = wt_invoke t q).
Proof.
  intros Hsp Hv. split; [|split].
  - intros w. by apply notify_ancestors.
  - intros Ha. apply notify_ancestors; [done|done|]. exists p. split; [done|].
    unfold wt_invoke, wt_insert. rewrite lookup_insert_eq. cbn. set_solver.
  - intros Hcb. unfold wt_erase, wt_insert. rewrite lookup_insert_eq. eexists. split; [done|].
    assert (E : filter (λ w, w ≠ cb) (default [] (t !! p) ++ [cb]) = default [] (t !! p)).
    { rewrite filter_app, filter_cons_False, filter_nil, app_nil_r by naive_solver.
      apply filter_all. apply Forall_forall. intros w Hw ->. done. }
    rewrite E. intros q. unfold wt_invoke.
    destruct (decide (default [] (t !! p) = [])) as [Hnil|Hnil], (decide (p = q)) as [->|Hpq].
    + by rewrite lookup_delete_eq, Hnil.
    + by rewrite lookup_delete_ne, lookup_insert_ne.
    + by rewrite lookup_insert_eq.
    + by rewrite !lookup_insert_ne.
Qed.

(** A function that splits as documented. *)
Fixpoint split_slash (s : str) : list str :=
  match s with
  | [] => [[]]
  | c :: s =>
      if decide (c = slash) then [] :: split_slash s
      else match split_slash s with
           | seg :: segs => (c :: seg) :: segs
           | [] => [[c]]
           end
  end.

Lemma split_slash_spec s :
  join (split_slash s) = s ∧ Forall (λ seg, slash ∉ seg) (split_slash s) ∧ split_slash s ≠ [].
Proof.
  induction s as [|c s (Hj&Hf&Hne)]; cbn [split_slash].
  { split; [done|]. split; [|done]. constructor; [apply not_elem_of_nil|done]. }
  destruct (split_slash s) as [|seg segs]; [done|]. case_decide as Hc.
  - subst c. split; [by rewrite <- Hj|]. split; [|done].
    constructor; [apply not_elem_of_nil|done].
  - rewrite join_rooted in *. rewrite <- Hj. split; [done|]. split; [|done].
    apply Forall_cons in Hf as [? ?]. constructor; [|done].
    rewrite not_elem_of_cons. split; [congruence|done].
Qed.

Lemma notification_wakes_ancestors_witness :
  let t := wt_insert ∅ (lit "/root/_lock_/l") 3%nat in
  let path := lit "/root/_lock_/l/_0000000000" in
  notify_watchers split_slash t path = [3%nat] ∧
  (∀ w, w ∈ notify_watchers split_slash t path ↔ ∃ q, ancestor q path ∧ w ∈ wt_invoke t q) ∧
  (ancestor (lit "/root") path → 4%nat ∈ notify_watchers split_slash (wt_insert t (lit "/root") 4%nat) path) ∧
  (4%nat ∉ wt_invoke t (lit "/root") →
   ∃ t', wt_erase (wt_insert t (lit "/root") 4%nat) (lit "/root") 4%nat = Ok t' ∧
         ∀ q, wt_invoke t' q = wt_invoke t q).
Proof.
  intros t path. split; [vm_compute; reflexivity|].
  apply notification_wakes_ancestors; [apply split_slash_spec|vm_compute; reflexivity].
Defined.
