(* ===== verification/Locks.v ===== *)
(** * The client library of the master: node operations, identifiers, locks

    src/src/rpc/MasterClient.cpp: the [tree_node_*] operations, [generate_id],
    [acquire_lock] and [release_lock].

    [MasterService] is the interface [MasterClient] programs against: the virtual
    methods [master_gen] ... [master_sub], and what they promise in terms of the tree of
    Master.v.  [master_service] shows that the master of Master.v, reached through the
    requests of [TcpMasterClient], keeps that promise.  Everything else here is proved
    from the interface alone.

    A lock is a node; whoever wants it generates an ephemeral child and owns the lock
    while that child is the first one.  Threads of several processes, the end of their
    connections and unrelated requests are interleaved call by call. *)
From stdpp Require Import sorting.
From S2P Require Import Prelude Archive Serialize LazyArchive Message Master MasterClient.
Import MemoryArchive TcpMasterClient.

(** ** The interface *)

(** Only permanent nodes have children. *)
Definition tree_ok (t : tree) : Prop :=
  ∀ p n, t_nodes t !! p = Some n → p ≠ [] → ∃ v, t_nodes t !! parent_of p = Some (None, v).

Class MasterService (S : Type) := {
  ms_good : S → Prop;
  ms_view : S → tree;
  ms_call : S → sock → method → result (S * (MasterStatus * output));
  ms_drop : S → sock → result S;
  ms_tree s : ms_good s → tree_ok (ms_view s);
  ms_call_spec s c f : ms_good s → Forall valid_any (rpc_request f) →
    ∃ s' resp changed, ms_call s c f = Ok (s', result_of resp) ∧ ms_good s' ∧
      spec_op (t_root (ms_view s)) c (request_of f) = (ms_view s', resp, changed);
  ms_drop_spec s c : ms_good s →
    ∃ s' changed, ms_drop s c = Ok s' ∧ ms_good s' ∧
      spec_op (ms_view s) c Finalize = (ms_view s', [], changed);
}.

(** The master behind the requests of [TcpMasterClient]. *)
Section service.
Context (junk : nat → byte).
Context (order : ∀ V, gmap (list byte) V → list (list byte * V)).
Context (order_set : gset (list byte) → list (list byte)).
Context (iter_path : gmap str MasterNode → list (str * MasterNode)).
Context (iter_watchers : gmap sock rpc_head_t → list (sock * rpc_head_t)).
Hypothesis order_perm : ∀ V (m : gmap (list byte) V), order V m ≡ₚ map_to_list m.
Hypothesis order_set_perm : ∀ s, order_set s ≡ₚ elements s.
Hypothesis iter_path_perm : ∀ m, iter_path m ≡ₚ map_to_list m.

Definition tcp_call (s : Master) (c : sock) (f : method) : result (Master * (MasterStatus * output)) :=
  req ← put_all junk order order_set (MemoryArchive_ false) (rpc_request f);
  '(s, resp, _) ← handle_op junk iter_path iter_watchers s c req false;
  Ok (s, result_of resp).

Lemma inv_tree_ok s : Inv s → tree_ok (abs s).
Proof.
  intros [Hm _] p n Hp Hne. cbn [abs t_nodes] in *. unfold absm in Hp.
  apply lookup_fmap_Some in Hp as (nd&_&Hp).
  destruct (pinv_split _ p nd Hm Hp Hne) as (q&k&->&Hk&_). pose proof Hk as [Hk' _].
  destruct (pi_up _ Hm q k Hk) as (pn&Hq&Hin); [eauto|].
  destruct (pi_down _ Hm q pn k Hq Hin) as (_&Ho&_). exists (node_value pn).
  by rewrite parent_child, (absm_lookup _ _ _ Hq), Ho.
Qed.

#[global] Instance master_service : MasterService Master.
Proof.
  refine {| ms_good := Inv; ms_view := abs; ms_call := tcp_call;
            ms_drop := disconnect_clear_data iter_path iter_watchers |}.
  - apply inv_tree_ok.
  - intros s c f Hs Hv. unfold tcp_call.
    destruct (put_get_all junk order order_set order_perm order_set_perm (rpc_request f)
      (MemoryArchive_ false)) as (a&bs&->&([Hwf _]&Hc&_)&Hget); [split; [|done]; split; cbn; lia|done|].
    step_ok. destruct (Hget a []) as (b&Hg&_); [done|by rewrite app_nil_r|].
    apply decode_request in Hg.
    destruct (handle_op_refines junk iter_path iter_watchers iter_path_perm s c a _ false Hs Hg)
      as (s1&s'&resp&->&[Hi (ch&paths&Hsp&_) _ _]&->). step_ok.
    destruct (touch_root_spec s Hs) as (_&Ha&_). rewrite Ha in Hsp.
    assert (is_finalize (request_of f) = false) as -> by by destruct f. eauto 10.
  - intros s c Hs. destruct (disconnect_refines junk iter_path iter_watchers iter_path_perm s c Hs)
      as (s'&Hd&[Hi (ch&paths&Hsp&_) _ _]). eauto 10.
Defined.
End service.

(** ** The node operations of [MasterClient] *)
Definition PATH_GENERATE_ID : str := lit "_id_gen_".
Definition PATH_LOCK : str := lit "_lock_".

#[global] Instance MasterStatus_eq_dec : EqDecision MasterStatus.
Proof. solve_decision. Defined.

(** The constructor of [MasterClient]: a root path starts and ends with ['/']. *)
Definition MasterClient_root (root_path : str) : str :=
  match root_path with
  | [] => [slash]
  | c :: _ =>
      let r := if decide (c = slash) then root_path else slash :: root_path in
      if decide (last r = Some slash) then r else r ++ [slash]
  end.

Section client.
Context {S : Type} `{!MasterService S}.
Context (_root_path : str).

(** The loop of [RETRY_MASTER_METHOD]; [fuel] bounds the repetitions after
    [DISCONNECTED], which a [MasterService] never answers. *)
Fixpoint retry (fuel : nat) (s : S) (c : sock) (f : method) : result (S * MasterStatus * output) :=
  match fuel with
  | O => Abort
  | Datatypes.S fuel =>
      '(s, (status, out)) ← ms_call s c f;
      _ ← SCHECK (negb (bool_decide (status = ERROR)));
      if decide (status = DISCONNECTED) then retry fuel s c f else Ok (s, status, out)
  end.

Definition RETRY_MASTER_METHOD (s : S) (c : sock) (path : str) (f : method) : result (S * bool * output) :=
  _ ← SCHECK (master_check_valid_path path);
  '(s, status, out) ← retry 1 s c f;
  Ok (s, bool_decide (status = OK), out).

Definition tree_node_gen (s : S) (c : sock) (path value : str) (ephemeral : bool) : result (S * str) :=
  let path := _root_path ++ path in
  _ ← SCHECK (master_check_valid_path path);
  '(s, _, out) ← retry 1 s c (master_gen path value ephemeral);
  Ok (s, match out with out_string gen => gen | _ => [] end).

Definition tree_node_add (s : S) (c : sock) (path value : str) (ephemeral : bool) : result (S * bool) :=
  let path := _root_path ++ path in
  '(s, b, _) ← RETRY_MASTER_METHOD s c path (master_add path value ephemeral); Ok (s, b).

Definition tree_node_set (s : S) (c : sock) (path value : str) : result (S * bool) :=
  let path := _root_path ++ path in
  '(s, b, _) ← RETRY_MASTER_METHOD s c path (master_set path value); Ok (s, b).

(** The second component is the new content of the caller's buffer. *)
Definition tree_node_get (s : S) (c : sock) (path buf : str) : result (S * bool * str) :=
  let path := _root_path ++ path in
  '(s, b, out) ← RETRY_MASTER_METHOD s c path (master_get path buf);
  Ok (s, b, match out with out_string v => v | _ => buf end).

Definition tree_node_del (s : S) (c : sock) (path : str) : result (S * bool) :=
  let path := _root_path ++ path in
  '(s, b, _) ← RETRY_MASTER_METHOD s c path (master_del path); Ok (s, b).

Definition tree_node_sub (s : S) (c : sock) (path : str) (children : list str)
    : result (S * bool * list str) :=
  let path := _root_path ++ path in
  '(s, b, out) ← RETRY_MASTER_METHOD s c path (master_sub path);
  Ok (s, b, match out with out_strings l => l | _ => children end).

(** *** [generate_id] *)

(** [std::stoi] of a string of digits. *)
Fixpoint stoi (acc : Z) (s : str) : Z :=
  match s with
  | [] => acc
  | c :: s => stoi (10 * acc + (byte.unsigned c - 48)) s
  end.

Definition generate_id (s : S) (c : sock) (key : str) : result (S * Z) :=
  let path := PATH_GENERATE_ID ++ [slash] ++ key in
  '(s, _) ← tree_node_add s c path [] false;
  '(s, gen) ← tree_node_gen s c path [] true;
  _ ← SCHECK (1 <? length gen)%nat;
  Ok (s, stoi 0 (drop 1 gen)).

(** *** [acquire_lock] and [release_lock], call by call *)

(** Where a thread is: before [acquire_lock]; after [tree_node_add]; waiting with its
    generated name; past the wait, before the entry is made; holding; between
    [tree_node_del] and the end of [release_lock]; its connection has ended. *)
Inductive pc :=
  | Idle | Added | Waiting (gen : str) | Owner (gen : str) | Holding (gen : str) | Releasing | Dead.

(** The service, the entries of the processes for this lock in [_acquired_lock], the
    processes whose [_client_mtx] is taken, and the threads with the connection of
    their process. *)
Record lock_sys := LockSys {
  svc : S;
  _acquired_lock : gmap sock str;
  mtx : gset sock;
  threads : list (sock * pc);
}.

Context (lock_name : str).

Definition lock_path : str := PATH_LOCK ++ [slash] ++ lock_name.

Definition goto (y : lock_sys) (s : S) (i : nat) (c : sock) (p : pc) : lock_sys :=
  LockSys s (_acquired_lock y) (mtx y) (<[i := (c, p)]> (threads y)).

(** The next action of a thread.  A thread that finds the mutex taken does not move. *)
Definition thread_step (y : lock_sys) (i : nat) : result lock_sys :=
  match threads y !! i with
  | None => Ok y
  | Some (c, p) =>
      match p with
      | Idle =>
          '(s, _) ← tree_node_add (svc y) c lock_path [] false;
          Ok (goto y s i c Added)
      | Added =>
          '(s, gen) ← tree_node_gen (svc y) c lock_path [] true;
          _ ← SCHECK (negb (bool_decide (gen = [])));
          Ok (goto y s i c (Waiting gen))
      | Waiting gen =>
          '(s, b, children) ← tree_node_sub (svc y) c lock_path [];
          _ ← SCHECK b;
          match children with
          | [] => Abort
          | k :: _ => Ok (goto y s i c (if decide (gen = k) then Owner gen else Waiting gen))
          end
      | Owner gen =>
          if decide (c ∈ mtx y) then Ok y
          else
            _ ← SCHECK (bool_decide (_acquired_lock y !! c = None));
            Ok (LockSys (svc y) (<[c := lock_path ++ [slash] ++ gen]> (_acquired_lock y)) (mtx y)
                  (<[i := (c, Holding gen)]> (threads y)))
      | Holding _ =>
          if decide (c ∈ mtx y) then Ok y
          else
            match _acquired_lock y !! c with
            | None => Abort
            | Some path =>
                '(s, b) ← tree_node_del (svc y) c path;
                _ ← SCHECK b;
                Ok (LockSys s (_acquired_lock y) ({[c]} ∪ mtx y) (<[i := (c, Releasing)]> (threads y)))
            end
      | Releasing =>
          Ok (LockSys (svc y) (delete c (_acquired_lock y)) (mtx y ∖ {[c]})
                (<[i := (c, Idle)]> (threads y)))
      | Dead => Ok y
      end
  end.

(** The connection of a process ends, and the process with it. *)
Definition drop_step (y : lock_sys) (c : sock) : result lock_sys :=
  s ← ms_drop (svc y) c;
  Ok (LockSys s (delete c (_acquired_lock y)) (mtx y ∖ {[c]})
        ((λ cp, if decide (cp.1 = c) then (c, Dead) else cp) <$> threads y)).
End client.

(** ** Generated names *)
Lemma gen_key_dec n : 0 ≤ n < 2 ^ 31 → gen_key n = Byte.x5f :: dec 10 n.
Proof. intros. unfold gen_key. by rewrite pad_to_string. Qed.

Lemma length_gen_key n : 0 ≤ n < 2 ^ 31 → length (gen_key n) = 11%nat.
Proof. intros. rewrite gen_key_dec by done. cbn [length]. by rewrite length_dec. Qed.

Lemma gen_key_lt m n : 0 ≤ m → m < n → n < 2 ^ 31 → str_ltb (gen_key m) (gen_key n) = true.
Proof.
  intros. rewrite !gen_key_dec by lia. cbn [str_ltb]. rewrite Z.ltb_irrefl. apply dec_lt; cbn; lia.
Qed.

Lemma gen_key_inj m n : 0 ≤ m < 2 ^ 31 → 0 ≤ n < 2 ^ 31 → gen_key m = gen_key n → m = n.
Proof.
  intros Hm Hn. rewrite !gen_key_dec by done. intros E.
  apply (dec_inj 10); [cbn; lia..|]. congruence.
Qed.

Lemma stoi_app s : ∀ acc t, stoi acc (s ++ t) = stoi (stoi acc s) t.
Proof. induction s as [|c s IH]; intros acc t; [done|]. apply IH. Qed.

Lemma stoi_dec k : ∀ z, 0 ≤ z < 10 ^ Z.of_nat k → stoi 0 (dec k z) = z.
Proof.
  induction k as [|k IH]; intros z Hz; [cbn in *; lia|]. cbn [dec]. rewrite pow10 in Hz.
  rewrite stoi_app, IH by (split; [apply Z.div_pos|apply Z.div_lt_upper_bound]; lia).
  cbn [stoi]. rewrite unsigned_digit by (apply Z.mod_pos_bound; lia).
  pose proof (Z.div_mod z 10). lia.
Qed.

(** ** What the node operations do to the tree *)

(** The owner of a node: [None] when there is no node. *)
Definition own (t : tree) (p : str) : option (option sock) := fst <$> t_nodes t !! p.
Definition counter (t : tree) (p : str) : Z := default 0 (t_gen t !! p).

Lemma own_root t p : p ≠ [] → own (t_root t) p = own t p.
Proof.
  intros Hp. unfold own, t_root. destruct (t_nodes t !! []); [done|]. cbn [t_nodes].
  by rewrite lookup_insert_ne.
Qed.
Lemma counter_root t p : counter (t_root t) p = counter t p.
Proof. unfold counter, t_root. by destruct (t_nodes t !! []). Qed.
Lemma root_ok t : tree_ok t → tree_ok (t_root t).
Proof.
  intros Ht p n. unfold t_root. destruct (t_nodes t !! []) as [r|] eqn:Er; [apply Ht|]. cbn [t_nodes].
  rewrite lookup_insert_Some. intros [[<- _]|[_ Hp]] Hne; [done|].
  destruct (Ht p n Hp Hne) as [v Hv]. exists v. rewrite lookup_insert_ne; [done|]. congruence.
Qed.

Lemma valid_ne p : master_check_valid_path p = true → p ≠ [].
Proof. by intros H ->. Qed.

Lemma str_ok_lt s : Z.of_nat (length s) < 2 ^ 64 → str_ok s.
Proof. intros. unfold str_ok. split; [lia|done]. Qed.

Definition method_path (f : method) : str :=
  match f with
  | master_gen p _ _ | master_add p _ _ | master_set p _ | master_get p _ | master_del p
  | master_sub p => p
  end.
Definition method_value (f : method) : str :=
  match f with
  | master_gen _ v _ | master_add _ v _ | master_set _ v | master_get _ v => v
  | _ => []
  end.

Lemma request_valid f :
  str_ok (method_path f) → str_ok (method_value f) → Forall valid_any (rpc_request f).
Proof.
  intros. destruct f; cbn [rpc_request method_path method_value] in *;
    repeat (apply Forall_cons; split); try apply Forall_nil; unfold valid_any;
    cbn [projT1 projT2 v_req v_string v_bool valid_ty]; try done;
    (split; [cbn; lia|vm_compute; intuition congruence]).
Qed.

Section operations.
Context {S : Type} `{!MasterService S}.

(** A name can be generated. *)
Definition gen_room (t : tree) (f : method) : Prop :=
  match f with master_gen p _ _ => 0 ≤ counter t p < 2 ^ 31 - 1 | _ => True end.

(** The status is never [DISCONNECTED] and, for a valid path with room for the name,
    never [ERROR]: the loop runs once. *)
Lemma spec_status t c f t' resp ch :
  spec_op t c (request_of f) = (t', resp, ch) → master_check_valid_path (method_path f) = true →
  gen_room t f → (result_of resp).1 ≠ ERROR ∧ (result_of resp).1 ≠ DISCONNECTED.
Proof.
  intros Hs Hv Hc. destruct f; cbn [request_of spec_op method_path gen_room] in *; rewrite Hv in Hs;
    repeat case_match; simplify_eq; try done.
  exfalso. fold (counter t path) in *.
  match goal with H : (11 <? _)%nat = true |- _ => apply Nat.ltb_lt in H;
    rewrite length_gen_key in H by lia; lia end.
Qed.

Lemma retry_spec s c f :
  ms_good s → master_check_valid_path (method_path f) = true →
  str_ok (method_path f) → str_ok (method_value f) → gen_room (ms_view s) f →
  ∃ s' resp ch, retry 1 s c f = Ok (s', (result_of resp).1, (result_of resp).2) ∧ ms_good s' ∧
    spec_op (t_root (ms_view s)) c (request_of f) = (ms_view s', resp, ch).
Proof.
  intros Hs Hv Hp Hval Hc.
  destruct (ms_call_spec s c f Hs (request_valid f Hp Hval)) as (s'&resp&ch&Hcall&Hs'&Hsp).
  exists s', resp, ch. split; [|done]. cbn [retry]. rewrite Hcall. step_ok.
  destruct (spec_status _ _ _ _ _ _ Hsp Hv) as [H1 H2].
  { destruct f; try done. cbn [gen_room] in *. by rewrite counter_root. }
  destruct (result_of resp) as [st out]. cbn [fst snd] in *.
  rewrite bool_decide_false by done. step_ok. cbn [negb]. step_ok. by rewrite decide_False.
Qed.

Lemma own_root_some t p x : own t p = Some x → own (t_root t) p = Some x.
Proof.
  intros Hp. destruct (decide (p = [])) as [->|]; [|by rewrite own_root].
  unfold own, t_root in *. destruct (t_nodes t !! []) eqn:E; [by rewrite E|done].
Qed.

(** [t'] differs from [t] at most at [p], the root apart. *)
Definition only_at (p : str) (t t' : tree) : Prop := ∀ q, q ≠ p → own t' q = own (t_root t) q.

Lemma own_insert t p x g q :
  own (Tree (<[p := x]> (t_nodes t)) g) q = if decide (p = q) then Some x.1 else own t q.
Proof.
  unfold own. cbn [t_nodes]. case_decide as E; [subst; by rewrite lookup_insert_eq|].
  by rewrite lookup_insert_ne.
Qed.

Lemma own_delete t p g q :
  own (Tree (delete p (t_nodes t)) g) q = if decide (p = q) then None else own t q.
Proof.
  unfold own. cbn [t_nodes]. case_decide as E; [subst; by rewrite lookup_delete_eq|].
  by rewrite lookup_delete_ne.
Qed.

Lemma own_some t p o : own t p = Some o → ∃ v, t_nodes t !! p = Some (o, v).
Proof. unfold own. intros ([o' v]&Hp&->)%fmap_Some. by exists v. Qed.
Lemma own_none t p : own t p = None → t_nodes t !! p = None.
Proof. unfold own. apply fmap_None. Qed.

Lemma parent_of_child q p :
  slash ∈ p → parent_of q = p → q = child p (key_of q) ∧ slash ∉ key_of q.
Proof.
  intros Hp <-. destruct (decide (slash ∈ q)) as [Hq|Hq].
  - destruct (last_slash q Hq) as (r&k&->&Hk). by rewrite parent_child, key_child.
  - exfalso. unfold parent_of in Hp. rewrite find_last_of_none in Hp by done. done.
Qed.

Lemma valid_slash p : master_check_valid_path p = true → slash ∈ p.
Proof. intros (q&k&->&_)%valid_split. unfold child. set_solver. Qed.

Lemma elem_of_children t p k :
  slash ∈ p → k ∈ children_of (t_nodes t) p ↔ slash ∉ k ∧ is_Some (own t (child p k)).
Proof.
  intros Hp. unfold children_of. rewrite elem_of_map. setoid_rewrite elem_of_filter.
  setoid_rewrite elem_of_dom. unfold own. split.
  - intros (q&->&[_ Hq]&Hs). destruct (parent_of_child q p Hp Hq) as [E ?].
    rewrite <- E. split; [done|]. by apply fmap_is_Some.
  - intros (Hk&Hs%fmap_is_Some). exists (child p k). rewrite key_child, parent_child by done.
    pose proof (child_ne_nil p k). done.
Qed.

(** An ephemeral node has no children. *)
Lemma ephemeral_childless t p c :
  tree_ok t → slash ∈ p → own t p = Some (Some c) → children_of (t_nodes t) p = ∅.
Proof.
  intros Ht Hs Hp. apply set_eq. intros k. split; [|set_solver].
  rewrite elem_of_children by done. intros [Hk [o Ho]]. apply own_some in Ho as [v Hv].
  destruct (Ht _ _ Hv (child_ne_nil p k)) as [w Hw]. rewrite parent_child in Hw by done.
  apply own_some in Hp as [? Hp]. congruence.
Qed.

Section at_node.
Context (root path : str).
Let L := root ++ path.
Context (HL : master_check_valid_path L = true) (Hlen : Z.of_nat (length L) + 12 < 2 ^ 64).

Lemma tree_node_add_spec s c :
  ms_good s → own (ms_view s) (parent_of L) = Some None →
  own (ms_view s) L = None ∨ own (ms_view s) L = Some None →
  ∃ s' b, tree_node_add root s c path [] false = Ok (s', b) ∧ ms_good s' ∧
    own (ms_view s') L = Some None ∧ only_at L (ms_view s) (ms_view s') ∧
    counter (ms_view s') L = counter (ms_view s) L.
Proof.
  intros Hs Hp Ho. unfold tree_node_add, RETRY_MASTER_METHOD. fold L. rewrite HL. step_ok.
  destruct (retry_spec s c (master_add L [] false) Hs) as (s'&resp&ch&->&Hs'&Hsp);
    [done|apply str_ok_lt; cbn [method_path]; lia|by apply str_ok_lt|done|].
  step_ok. do 2 eexists. split; [done|]. split; [done|].
  cbn [request_of spec_op] in Hsp. rewrite HL in Hsp.
  apply own_root_some, own_some in Hp as [v Hv]. rewrite Hv in Hsp.
  pose proof (valid_ne _ HL) as Hne. rewrite <- (own_root _ L) in Ho by done. destruct Ho as [Ho|Ho].
  - rewrite (own_none _ _ Ho) in Hsp. injection Hsp as <- _ _.
    rewrite own_insert, decide_True by done. split; [done|]. split; [|apply counter_root].
    intros q HqL. by rewrite own_insert, decide_False.
  - pose proof Ho as Ho'. apply own_some in Ho as [w Hw]. rewrite Hw in Hsp.
    injection Hsp as <- _ _. split; [done|]. split; [|apply counter_root].
    by intros q _.
Qed.

Lemma tree_node_gen_spec s c :
  let n := counter (ms_view s) L in
  ms_good s → own (ms_view s) L = Some None → 0 ≤ n < 2 ^ 31 - 1 →
  own (ms_view s) (child L (gen_key n)) = None →
  ∃ s', tree_node_gen root s c path [] true = Ok (s', gen_key n) ∧ ms_good s' ∧
    own (ms_view s') (child L (gen_key n)) = Some (Some c) ∧
    only_at (child L (gen_key n)) (ms_view s) (ms_view s') ∧ counter (ms_view s') L = n + 1.
Proof.
  intros n Hs Ho Hn Hc. unfold tree_node_gen. fold L. rewrite HL. step_ok.
  destruct (retry_spec s c (master_gen L [] true) Hs) as (s'&resp&ch&->&Hs'&Hsp);
    [done|apply str_ok_lt; cbn [method_path]; lia|by apply str_ok_lt|done|].
  step_ok. cbn [request_of spec_op] in Hsp. rewrite HL in Hsp.
  apply own_root_some, own_some in Ho as [v Hv]. rewrite Hv in Hsp. cbn zeta in Hsp.
  fold (counter (t_root (ms_view s)) L) in Hsp. rewrite counter_root in Hsp. fold n in Hsp.
  rewrite length_gen_key in Hsp by lia. cbn [Nat.ltb Nat.leb] in Hsp.
  rewrite <- (own_root _ (child L (gen_key n))) in Hc by apply child_ne_nil.
  rewrite (own_none _ _ Hc) in Hsp. injection Hsp as Ht <- _.
  exists s'. split; [done|]. split; [done|]. rewrite <- Ht.
  rewrite own_insert, decide_True by done. split; [done|]. split.
  - intros q HqL. by rewrite own_insert, decide_False.
  - unfold counter at 1. cbn [t_gen]. rewrite lookup_insert_eq. cbn. apply swrap_small; [lia|].
    unfold in_signed. lia.
Qed.

Lemma tree_node_sub_spec s c l0 :
  ms_good s → own (ms_view s) L = Some None →
  ∃ s' l, tree_node_sub root s c path l0 = Ok (s', true, l) ∧ ms_good s' ∧
    ms_view s' = t_root (ms_view s) ∧ StronglySorted str_le l ∧
    ∀ k, k ∈ l ↔ slash ∉ k ∧ is_Some (own (ms_view s) (child L k)).
Proof.
  intros Hs Ho. unfold tree_node_sub, RETRY_MASTER_METHOD. fold L. rewrite HL. step_ok.
  destruct (retry_spec s c (master_sub L) Hs) as (s'&resp&ch&->&Hs'&Hsp);
    [done|apply str_ok_lt; cbn [method_path]; lia|by apply str_ok_lt|done|].
  step_ok. cbn [request_of spec_op] in Hsp. rewrite HL in Hsp.
  apply own_root_some, own_some in Ho as [v Hv]. rewrite Hv in Hsp. injection Hsp as Ht <- _.
  exists s', (in_order (children_of (t_nodes (t_root (ms_view s))) L)).
  split; [done|]. split; [done|]. split; [done|]. split; [apply in_order_sorted|].
  intros k. rewrite in_order_spec, elem_of_children by by apply valid_slash.
  by rewrite own_root by apply child_ne_nil.
Qed.

Lemma tree_node_del_spec s c g o :
  ms_good s → good_key g → (length g ≤ 11)%nat → own (ms_view s) (child L g) = Some (Some o) →
  ∃ s', tree_node_del root s c (path ++ [slash] ++ g) = Ok (s', true) ∧ ms_good s' ∧
    own (ms_view s') (child L g) = None ∧ only_at (child L g) (ms_view s) (ms_view s') ∧
    counter (ms_view s') L = counter (ms_view s) L.
Proof.
  intros Hs Hg Hlg Ho. unfold tree_node_del, RETRY_MASTER_METHOD.
  replace (root ++ path ++ [slash] ++ g) with (child L g) by (unfold child, L; by rewrite <- app_assoc).
  assert (Hv : master_check_valid_path (child L g) = true) by (apply valid_child; [by right|done]).
  rewrite Hv. step_ok.
  destruct (retry_spec s c (master_del (child L g)) Hs) as (s'&resp&ch&->&Hs'&Hsp);
    [done|apply str_ok_lt; cbn [method_path]; unfold child; len|by apply str_ok_lt|done|].
  step_ok. cbn [request_of spec_op] in Hsp. rewrite Hv in Hsp.
  apply own_root_some in Ho.
  rewrite decide_True in Hsp
    by (apply (ephemeral_childless _ _ o); [by apply root_ok, ms_tree|by apply valid_slash|done]).
  apply own_some in Ho as [v Hw]. rewrite Hw in Hsp. injection Hsp as Ht <- _.
  exists s'. split; [done|]. split; [done|]. rewrite <- Ht.
  rewrite own_delete, decide_True by done. split; [done|]. split.
  - intros q Hqg. by rewrite own_delete, decide_False.
  - unfold counter at 1. cbn [t_gen]. rewrite lookup_delete_ne by apply child_ne.
    apply counter_root.
Qed.
End at_node.
End operations.

(** ** Locks *)
Section locking.
Context {S : Type} `{!MasterService S} (root name : str).
Let path := lock_path name.
Let L := root ++ path.
Context (HL : master_check_valid_path L = true) (Hlen : Z.of_nat (length L) + 12 < 2 ^ 64).

(** Requests that leave the lock's node, its parent and its children alone. *)
Definition foreign (f : method) : Prop :=
  match f with
  | master_gen p _ _ => p ≠ L ∧ p ≠ parent_of L
  | master_add p _ _ => p ≠ L ∧ parent_of p ≠ L
  | master_del p => p ≠ L ∧ p ≠ parent_of L ∧ parent_of p ≠ L
  | _ => True
  end.

(** What the protocol sees of the tree. *)
Definition same_lock (t t' : tree) : Prop :=
  counter t' L = counter t L ∧ own t' L = own t L ∧ own t' (parent_of L) = own t (parent_of L) ∧
  ∀ k, slash ∉ k → own t' (child L k) = own t (child L k).

Lemma same_lock_insert t p x g :
  g !! L = t_gen t !! L → p ≠ L →
  (parent_of p ≠ L ∨ own t p = Some x.1) → (p ≠ parent_of L ∨ own t p = Some x.1) →
  same_lock t (Tree (<[p := x]> (t_nodes t)) g).
Proof.
  intros Hg H1 H2 H3. split; [unfold counter; cbn [t_gen]; by rewrite Hg|].
  rewrite !own_insert. split; [by rewrite decide_False|].
  split; [case_decide; [subst; naive_solver|done]|].
  intros k Hk. rewrite own_insert. case_decide; [|done]. subst p. rewrite parent_child in H2 by done.
  naive_solver.
Qed.

(** A new node elsewhere. *)
Lemma same_lock_new t p x g :
  g !! L = t_gen t !! L → own t (parent_of L) = Some None → t_nodes t !! p = None →
  p ≠ L → parent_of p ≠ L → same_lock t (Tree (<[p := x]> (t_nodes t)) g).
Proof.
  intros Hg Hp Hn H1 H2. apply same_lock_insert; [done|done|by left|left].
  intros ->. unfold own in Hp. by rewrite Hn in Hp.
Qed.

Lemma same_lock_gen t p z : p ≠ L → same_lock t (Tree (t_nodes t) (<[p := z]> (t_gen t))).
Proof. intros. split; [|done]. unfold counter. cbn [t_gen]. by rewrite lookup_insert_ne. Qed.

Lemma same_lock_child t p k x z :
  own t (parent_of L) = Some None → t_nodes t !! child p k = None → slash ∉ k →
  p ≠ L → p ≠ parent_of L →
  same_lock t (Tree (<[child p k := x]> (t_nodes t)) (<[p := z]> (t_gen t))).
Proof.
  intros. apply same_lock_new; [by rewrite lookup_insert_ne|done|done| |by rewrite parent_child].
  intros E. by rewrite <- E, parent_child in *.
Qed.

Lemma same_lock_set t p o v w :
  t_nodes t !! p = Some (o, w) → same_lock t (Tree (<[p := (o, v)]> (t_nodes t)) (t_gen t)).
Proof.
  intros H. assert (own t p = Some o) as Ho by (unfold own; by rewrite H).
  destruct (decide (p = L)) as [->|]; [|apply same_lock_insert; auto].
  split; [done|]. rewrite !own_insert, decide_True by done. split; [done|].
  split; [case_decide as E; [by rewrite <- E, Ho|done]|]. intros k Hk. rewrite own_insert, decide_False; [done|].
  intros E. symmetry in E. by apply child_ne in E.
Qed.

Lemma spec_foreign t c f t' resp ch :
  spec_op t c (request_of f) = (t', resp, ch) → foreign f → own t (parent_of L) = Some None →
  same_lock t t'.
Proof.
  intros Hs Hf Hp. assert (Hid : same_lock t t) by done.
  destruct f as [p v e|p v e|p v|p v|p|p]; cbn [request_of spec_op foreign] in Hs, Hf;
    repeat case_match; simplify_eq; try done; destruct_and?;
    first [by apply same_lock_gen | by apply same_lock_new
          | by apply same_lock_child; [..|apply gen_key_good| |] | by eapply same_lock_set | idtac].
  split; [unfold counter; cbn [t_gen]; by rewrite lookup_delete_ne|].
  rewrite !own_delete, !decide_False by done. split; [done|]. split; [done|].
  intros k Hk. rewrite own_delete, decide_False; [done|]. intros ->. by rewrite parent_child in *.
Qed.

(** The generated name a thread has a node for; the name with which it owns the lock. *)
Definition has (p : pc) : option str :=
  match p with Waiting g | Owner g | Holding g => Some g | _ => None end.
Definition owns (p : pc) : option str := match p with Owner g | Holding g => Some g | _ => None end.

Definition V (y : @lock_sys S) : tree := ms_view (svc y).

Record LInv (y : lock_sys) : Prop := {
  li_good : ms_good (svc y);
  li_parent : own (V y) (parent_of L) = Some None;
  li_node : own (V y) L = Some None ∨
    own (V y) L = None ∧ ∀ i c p, threads y !! i = Some (c, p) → p = Idle ∨ p = Dead;
  li_counter : 0 ≤ counter (V y) L < 2 ^ 31;
  li_threads i c p g : threads y !! i = Some (c, p) → has p = Some g →
    slash ∉ g ∧ own (V y) (child L g) = Some (Some c);
  li_children k : slash ∉ k → is_Some (own (V y) (child L k)) →
    ∃ n i c p, k = gen_key n ∧ 0 ≤ n < counter (V y) L ∧ threads y !! i = Some (c, p) ∧ has p = Some k;
  li_distinct i j c d p q g : threads y !! i = Some (c, p) → threads y !! j = Some (d, q) →
    has p = Some g → has q = Some g → i = j;
  li_min i c p g k : threads y !! i = Some (c, p) → owns p = Some g → slash ∉ k →
    is_Some (own (V y) (child L k)) → str_le g k;
  li_entry c a : _acquired_lock y !! c = Some a →
    ∃ i p, threads y !! i = Some (c, p) ∧ (p = Releasing ∨ ∃ g, p = Holding g);
  li_holding i c g : threads y !! i = Some (c, Holding g) →
    _acquired_lock y !! c = Some (path ++ [slash] ++ g);
  li_mtx c : c ∈ mtx y ↔ ∃ i, threads y !! i = Some (c, Releasing);
  li_release i j c p : threads y !! i = Some (c, Releasing) → threads y !! j = Some (c, p) →
    i ≠ j → p ≠ Releasing ∧ ∀ g, p ≠ Holding g;
}.

Lemma owns_has p g : owns p = Some g → has p = Some g.
Proof. by destruct p. Qed.

(** The names of the threads are generated ones. *)
Lemma thread_name y i c p g :
  LInv y → threads y !! i = Some (c, p) → has p = Some g →
  ∃ n, g = gen_key n ∧ 0 ≤ n < counter (V y) L ∧ good_key g ∧ (length g ≤ 11)%nat.
Proof.
  intros Hy Hi Hg. destruct (li_threads y Hy i c p g Hi Hg) as [Hs Ho].
  destruct (li_children y Hy g Hs) as (n&_&_&_&->&Hn&_); [by rewrite Ho|].
  exists n. split; [done|]. split; [done|]. split; [apply gen_key_good|].
  pose proof (li_counter y Hy). rewrite length_gen_key by lia. lia.
Qed.

(** At most one thread owns the lock. *)
Lemma linv_exclusion y i j c d p q g h :
  LInv y → threads y !! i = Some (c, p) → threads y !! j = Some (d, q) →
  owns p = Some g → owns q = Some h → i = j.
Proof.
  intros Hy Hi Hj Hg Hh.
  destruct (li_threads y Hy i c p g Hi (owns_has _ _ Hg)) as [Hsg Hog].
  destruct (li_threads y Hy j d q h Hj (owns_has _ _ Hh)) as [Hsh Hoh].
  assert (g = h) as ->.
  { apply (anti_symm str_le).
    - eapply li_min; [done|exact Hi|done|done|by rewrite Hoh].
    - eapply li_min; [done|exact Hj|done|done|by rewrite Hog]. }
  eapply li_distinct; [done|exact Hi|exact Hj|by apply owns_has..].
Qed.

(** *** Changes elsewhere *)
Lemma same_lock_root t : own t (parent_of L) = Some None → same_lock t (t_root t).
Proof.
  intros Hp. split; [apply counter_root|]. split; [by apply own_root, valid_ne|].
  split; [rewrite Hp; by apply own_root_some|]. intros. apply own_root, child_ne_nil.
Qed.

Lemma same_lock_trans t1 t2 t3 : same_lock t1 t2 → same_lock t2 t3 → same_lock t1 t3.
Proof.
  intros (A1&A2&A3&A4) (B1&B2&B3&B4). split; [congruence|]. split; [congruence|].
  split; [congruence|]. intros k Hk. by rewrite B4, A4.
Qed.

Lemma linv_same y s' :
  LInv y → ms_good s' → same_lock (V y) (ms_view s') →
  LInv (LockSys s' (_acquired_lock y) (mtx y) (threads y)).
Proof.
  intros [] Hs (H1&H2&H3&H4). split; unfold V in *; cbn [svc threads _acquired_lock mtx] in *;
    rewrite ?H1, ?H2, ?H3; try done.
  - intros i c p g Hi Hg. destruct (li_threads0 i c p g Hi Hg) as [Hsl Ho]. by rewrite H4.
  - intros k Hk. rewrite H4 by done. auto.
  - intros i c p g k Hi Hg Hk. rewrite H4 by done. by eapply li_min0.
Qed.

(** *** The steps of a thread *)
Ltac thread_upd := repeat match goal with
  | H : <[_ := _]> _ !! _ = Some _ |- _ =>
      apply list_lookup_insert_Some in H as [(->&?&_)|[? H]]; simplify_eq; try done
  end.

(** A thread moves between points at which it has the same node or none, and the tree
    does not change. *)
Lemma linv_move y i c p p' :
  LInv y → threads y !! i = Some (c, p) →
  (own (V y) L = Some None) →
  has p' = has p →
  (∀ g, owns p' = Some g → ∀ k, slash ∉ k → is_Some (own (V y) (child L k)) → str_le g k) →
  p ≠ Releasing → (∀ g, p ≠ Holding g) → p' ≠ Releasing → (∀ g, p' ≠ Holding g) →
  LInv (goto y (svc y) i c p').
Proof.
  intros Hy Hi HL' Hh Ho Hp1 Hp2 Hp1' Hp2'. assert (Hlt : (i < length (threads y))%nat)
    by by eapply lookup_lt_Some.
  destruct Hy. split; unfold V, goto in *; cbn [svc threads _acquired_lock mtx] in *; try done.
  - by left.
  - intros j d q g Hj Hg. thread_upd; [rewrite Hh in Hg|]; eauto.
  - intros k Hk Hs. destruct (li_children0 k Hk Hs) as (n&j&d&q&->&Hn&Hj&Hq).
    destruct (decide (i = j)) as [<-|Hne]; simplify_eq.
    + exists n, i, c, p'. rewrite list_lookup_insert_eq by done. by rewrite Hh.
    + exists n, j, d, q. by rewrite list_lookup_insert_ne.
  - intros j1 j2 d1 d2 q1 q2 g H1 H2 Hg1 Hg2. thread_upd; rewrite ?Hh in *; eauto.
  - intros j d q g k Hj Hg. thread_upd; eauto.
  - intros d a Ha. destruct (li_entry0 d a Ha) as (j&q&Hj&Hq). exists j, q.
    split; [|done]. rewrite list_lookup_insert_ne; [done|]. intros <-. simplify_eq. naive_solver.
  - intros j d g Hj. thread_upd; [naive_solver|eauto].
  - intros d. rewrite li_mtx0. split; intros [j Hj].
    + exists j. rewrite list_lookup_insert_ne; [done|]. intros <-. by simplify_eq.
    + thread_upd. eauto.
  - intros j1 j2 d q H1 H2 Hne. thread_upd; eauto.
Qed.

Lemma parent_ne : parent_of L ≠ L.
Proof.
  destruct (valid_split L HL) as (q&k&E&[Hk _]&_). rewrite E at 1. rewrite parent_child by done.
  intros ->. symmetry in E. by apply child_ne in E.
Qed.

Lemma parent_ne_child k : slash ∉ k → parent_of L ≠ child L k.
Proof.
  intros Hk E. destruct (valid_split L HL) as (q&l&EL&[Hl _]&_).
  rewrite EL in E. rewrite parent_child in E by done. apply (f_equal length) in E.
  unfold child in E. len.
Qed.

Lemma linv_tree_add y s' :
  LInv y → ms_good s' → own (ms_view s') L = Some None → only_at L (V y) (ms_view s') →
  counter (ms_view s') L = counter (V y) L →
  LInv (LockSys s' (_acquired_lock y) (mtx y) (threads y)).
Proof.
  intros [] Hs HL' Hat Hc.
  assert (Hch : ∀ k, own (ms_view s') (child L k) = own (V y) (child L k)).
  { intros k. rewrite Hat by apply child_ne. apply own_root, child_ne_nil. }
  split; unfold V in *; cbn [svc threads _acquired_lock mtx] in *; rewrite ?Hc; try done.
  - rewrite Hat by apply parent_ne. by apply own_root_some.
  - by left.
  - intros i c p g. rewrite Hch. apply li_threads0.
  - intros k. rewrite Hch. apply li_children0.
  - intros i c p g k. rewrite Hch. apply li_min0.
Qed.

Lemma linv_gen y s' i c :
  let n := counter (V y) L in
  LInv y → threads y !! i = Some (c, Added) → n < 2 ^ 31 - 1 → own (V y) L = Some None →
  ms_good s' → own (ms_view s') (child L (gen_key n)) = Some (Some c) →
  only_at (child L (gen_key n)) (V y) (ms_view s') → counter (ms_view s') L = n + 1 →
  LInv (goto y s' i c (Waiting (gen_key n))).
Proof.
  intros n Hy Hi Hn HL' Hs Hown Hat Hc.
  pose proof (λ j d p g Hj Hg, thread_name y j d p g Hy Hj Hg) as Hname.
  destruct Hy. pose proof (gen_key_good n) as [Hsl _].
  assert (Hlt : (i < length (threads y))%nat) by by eapply lookup_lt_Some.
  assert (Hch : ∀ k, slash ∉ k → k ≠ gen_key n → own (ms_view s') (child L k) = own (V y) (child L k)).
  { intros k Hk Hne. rewrite Hat; [apply own_root, child_ne_nil|].
    intros E. apply child_inj in E as [_ ?]; done. }
  assert (Hfresh : ∀ j d p g, threads y !! j = Some (d, p) → has p = Some g → g ≠ gen_key n).
  { intros j d p g Hj Hg ->. destruct (Hname j d p _ Hj Hg) as (m&E&Hm&_).
    apply gen_key_inj in E; unfold n in *; lia. }
  split; unfold V, goto in *; cbn [svc threads _acquired_lock mtx] in *; rewrite ?Hc; try done.
  - rewrite Hat by by apply parent_ne_child. by apply own_root_some.
  - left. rewrite Hat by (intros E; symmetry in E; by apply child_ne in E).
    by apply own_root_some.
  - unfold n in *. lia.
  - intros j d p g Hj Hg. thread_upd; [cbn in Hg; by simplify_eq|].
    destruct (li_threads0 j d p g Hj Hg). split; [done|]. rewrite Hch; eauto.
  - intros k Hk Hs'. destruct (decide (k = gen_key n)) as [->|Hne].
    + exists n, i, c, (Waiting (gen_key n)). split; [done|]. split; [unfold n in *; lia|].
      by rewrite list_lookup_insert_eq.
    + rewrite Hch in Hs' by done. destruct (li_children0 k Hk Hs') as (m&j&d&p&->&Hm&Hj&Hp).
      exists m, j, d, p. split; [done|]. split; [unfold n; lia|]. split; [|done].
      rewrite list_lookup_insert_ne; [done|]. intros <-. by simplify_eq.
  - intros j1 j2 d1 d2 q1 q2 g H1 H2 Hg1 Hg2. thread_upd; cbn [has] in *; simplify_eq;
      [exfalso; by eapply Hfresh..|eauto].
  - intros j d p g k Hj Hg Hk Hs'. thread_upd.
    destruct (decide (k = gen_key n)) as [->|Hne]; [|rewrite Hch in Hs' by done; eauto].
    destruct (Hname j d p g Hj (owns_has _ _ Hg)) as (m&->&Hm&_).
    apply str_ltb_asym, gen_key_lt; unfold n in *; lia.
  - intros d a Ha. destruct (li_entry0 d a Ha) as (j&q&Hj&Hq). exists j, q.
    split; [|done]. rewrite list_lookup_insert_ne; [done|]. intros <-. simplify_eq. naive_solver.
  - intros j d g Hj. thread_upd. eauto.
  - intros d. rewrite li_mtx0. split; intros [j Hj].
    + exists j. rewrite list_lookup_insert_ne; [done|]. intros <-. by simplify_eq.
    + thread_upd. eauto.
  - intros j1 j2 d q H1 H2 Hne. thread_upd; eauto.
Qed.

Lemma linv_enter y i c g :
  LInv y → threads y !! i = Some (c, Owner g) → c ∉ mtx y →
  _acquired_lock y !! c = None ∧
  LInv (LockSys (svc y) (<[c := path ++ [slash] ++ g]> (_acquired_lock y)) (mtx y)
          (<[i := (c, Holding g)]> (threads y))).
Proof.
  intros Hy Hi Hm. assert (Hlt : (i < length (threads y))%nat) by by eapply lookup_lt_Some.
  assert (Hex : ∀ j d h, threads y !! j = Some (d, Holding h) → False).
  { intros j d h Hj. assert (i = j) as ->; [|by simplify_eq].
    by eapply linv_exclusion; [exact Hy|exact Hi|exact Hj|..]. }
  assert (Hnone : _acquired_lock y !! c = None).
  { apply eq_None_not_Some. intros [a Ha].
    destruct (li_entry y Hy c a Ha) as (j&q&Hj&[->|[h ->]]); [|by eapply Hex].
    apply Hm. apply li_mtx; [done|]. eauto. }
  split; [done|]. destruct Hy. split; unfold V in *; cbn [svc threads _acquired_lock mtx] in *; try done.
  - destruct li_node0 as [?|[_ Hall]]; [by left|]. by destruct (Hall i c _ Hi).
  - intros j d p h Hj Hh. thread_upd; [cbn in Hh; simplify_eq|]; eauto.
  - intros k Hk Hs. destruct (li_children0 k Hk Hs) as (n&j&d&p&->&Hn&Hj&Hp).
    destruct (decide (i = j)) as [<-|Hne]; simplify_eq.
    + exists n, i, c, (Holding g). by rewrite list_lookup_insert_eq.
    + exists n, j, d, p. by rewrite list_lookup_insert_ne.
  - intros j1 j2 d1 d2 q1 q2 h H1 H2 Hg1 Hg2. thread_upd; cbn [has] in *; simplify_eq; eauto.
  - intros j d p h k Hj Hh. thread_upd; cbn [owns] in *; simplify_eq; eauto.
  - intros d a. rewrite lookup_insert_Some. intros [[<- _]|[Hne Ha]].
    + exists i, (Holding g). rewrite list_lookup_insert_eq by done. eauto.
    + destruct (li_entry0 d a Ha) as (j&p&Hj&Hp). exists j, p. split; [|done].
      rewrite list_lookup_insert_ne; [done|]. intros <-. by simplify_eq.
  - intros j d h Hj. thread_upd; [by rewrite lookup_insert_eq|]. by destruct (Hex j d h).
  - intros d. rewrite li_mtx0. split; intros [j Hj].
    + exists j. rewrite list_lookup_insert_ne; [done|]. intros <-. by simplify_eq.
    + thread_upd. eauto.
  - intros j1 j2 d p H1 H2 Hne. thread_upd; [|eauto].
    exfalso. apply Hm, li_mtx0. eauto.
Qed.

Lemma linv_release y s' i c g :
  LInv y → threads y !! i = Some (c, Holding g) → c ∉ mtx y → ms_good s' →
  own (ms_view s') (child L g) = None → only_at (child L g) (V y) (ms_view s') →
  counter (ms_view s') L = counter (V y) L →
  LInv (LockSys s' (_acquired_lock y) ({[c]} ∪ mtx y) (<[i := (c, Releasing)]> (threads y))).
Proof.
  intros Hy Hi Hm Hs Hown Hat Hc.
  assert (Hlt : (i < length (threads y))%nat) by by eapply lookup_lt_Some.
  assert (Hex : ∀ j d h, threads y !! j = Some (d, Holding h) → i = j).
  { intros j d h Hj. by eapply linv_exclusion; [exact Hy|exact Hi|exact Hj|..]. }
  destruct (thread_name y i c _ g Hy Hi eq_refl) as (n&_&_&[Hsl _]&_).
  assert (Hch : ∀ k, slash ∉ k → k ≠ g → own (ms_view s') (child L k) = own (V y) (child L k)).
  { intros k Hk Hne. rewrite Hat; [apply own_root, child_ne_nil|].
    intros E. apply child_inj in E as [_ ?]; done. }
  assert (Hne' : ∀ j d p, threads y !! j = Some (d, p) → i ≠ j → has p ≠ Some g).
  { intros j d p Hj Hij Hp. apply Hij. by eapply li_distinct; [exact Hy|exact Hi|exact Hj|..]. }
  assert (Hgk : ∀ k, is_Some (own (ms_view s') (child L k)) → k ≠ g)
    by (intros k [? Hk] ->; congruence).
  destruct Hy. split; unfold V in *; cbn [svc threads _acquired_lock mtx] in *; rewrite ?Hc; try done.
  - rewrite Hat by by apply parent_ne_child. by apply own_root_some.
  - left. rewrite Hat by (intros E; symmetry in E; by apply child_ne in E). apply own_root_some.
    destruct li_node0 as [?|[_ Hall]]; [done|]. by destruct (Hall i c _ Hi).
  - intros j d p h Hj Hh. thread_upd. destruct (li_threads0 j d p h Hj Hh). split; [done|].
    rewrite Hch; [done..|]. intros ->. by eapply Hne'.
  - intros k Hk Hs'. pose proof (Hgk k Hs') as Hkg. rewrite Hch in Hs' by done.
    destruct (li_children0 k Hk Hs') as (m&j&d&p&->&Hm'&Hj&Hp).
    exists m, j, d, p. split; [done|]. split; [done|]. split; [|done].
    rewrite list_lookup_insert_ne; [done|]. intros <-.
    rewrite Hi in Hj. injection Hj as <- <-. cbn [has] in Hp. congruence.
  - intros j1 j2 d1 d2 q1 q2 h H1 H2 Hg1 Hg2. thread_upd. eauto.
  - intros j d p h k Hj Hh Hk Hs'. thread_upd. rewrite Hch in Hs'; eauto.
  - intros d a Ha. destruct (li_entry0 d a Ha) as (j&p&Hj&Hp). destruct (decide (i = j)) as [<-|Hij].
    + simplify_eq. exists i, Releasing. rewrite list_lookup_insert_eq by done. eauto.
    + exists j, p. by rewrite list_lookup_insert_ne.
  - intros j d h Hj. thread_upd. eauto.
  - intros d. rewrite elem_of_union, elem_of_singleton, li_mtx0. split.
    + intros [->|[j Hj]]; [exists i; by rewrite list_lookup_insert_eq|]. exists j.
      rewrite list_lookup_insert_ne; [done|]. intros <-. by simplify_eq.
    + intros [j Hj]. thread_upd; [by left|right; eauto].
  - intros j1 j2 d p H1 H2 Hne. thread_upd; [| |eauto].
    + exfalso. apply Hm, li_mtx0. eauto.
    + split; [intros ->; apply Hm, li_mtx0; eauto|]. intros h ->.
      by pose proof (Hex _ _ _ H2).
Qed.

Lemma linv_done y i c :
  LInv y → threads y !! i = Some (c, Releasing) →
  LInv (LockSys (svc y) (delete c (_acquired_lock y)) (mtx y ∖ {[c]}) (<[i := (c, Idle)]> (threads y))).
Proof.
  intros Hy Hi. assert (Hlt : (i < length (threads y))%nat) by by eapply lookup_lt_Some.
  destruct Hy. split; unfold V in *; cbn [svc threads _acquired_lock mtx] in *; try done.
  - destruct li_node0 as [?|[_ Hall]]; [by left|]. by destruct (Hall i c _ Hi).
  - intros j d p g Hj Hg. thread_upd. eauto.
  - intros k Hk Hs. destruct (li_children0 k Hk Hs) as (n&j&d&p&->&Hn&Hj&Hp).
    exists n, j, d, p. split; [done|]. split; [done|]. split; [|done].
    rewrite list_lookup_insert_ne; [done|]. intros <-. by simplify_eq.
  - intros j1 j2 d1 d2 q1 q2 g H1 H2 Hg1 Hg2. thread_upd. eauto.
  - intros j d p g k Hj Hg. thread_upd. eauto.
  - intros d a [Hne Ha]%lookup_delete_Some. destruct (li_entry0 d a Ha) as (j&p&Hj&Hp).
    exists j, p. split; [|done]. rewrite list_lookup_insert_ne; [done|]. intros <-. by simplify_eq.
  - intros j d g Hj. thread_upd. rewrite lookup_delete_ne; [eauto|]. intros <-.
    by destruct (li_release0 i j c _ Hi Hj) as [_ Hno]; [done|]; destruct (Hno g).
  - intros d. rewrite elem_of_difference, elem_of_singleton, li_mtx0. split.
    + intros [[j Hj] Hne]. exists j. rewrite list_lookup_insert_ne; [done|]. intros <-. by simplify_eq.
    + intros [j Hj]. thread_upd. split; [eauto|]. intros ->.
      by destruct (li_release0 i j c _ Hi Hj) as [? _].
  - intros j1 j2 d p H1 H2 Hne. thread_upd; eauto.
Qed.

Lemma own_drop t c q :
  own (Tree (filter (λ pn, pn.2.1 ≠ Some c) (t_nodes t)) (t_gen t)) q =
  if decide (own t q = Some (Some c)) then None else own t q.
Proof.
  unfold own. cbn [t_nodes]. destruct (t_nodes t !! q) as [[o v]|] eqn:Eq; cbn.
  - case_decide as E.
    + apply fmap_None, map_lookup_filter_None. right. intros x Hx. naive_solver.
    + apply fmap_Some. exists (o, v). split; [|done]. apply map_lookup_filter_Some. naive_solver.
  - rewrite decide_False by done. apply fmap_None, map_lookup_filter_None. by left.
Qed.

Lemma linv_drop y c : LInv y → ∃ y', drop_step y c = Ok y' ∧ LInv y'.
Proof.
  intros Hy. unfold drop_step.
  destruct (ms_drop_spec (svc y) c (li_good y Hy)) as (s'&ch&->&Hs'&Hsp). step_ok.
  eexists. split; [done|]. cbn [spec_op] in Hsp. injection Hsp as Ht _.
  assert (Hown : ∀ q, own (ms_view s') q =
    if decide (own (V y) q = Some (Some c)) then None else own (V y) q).
  { intros q. rewrite <- Ht. apply own_drop. }
  assert (Hperm : ∀ q, own (V y) q = Some None → own (ms_view s') q = Some None).
  { intros q Hq. rewrite Hown, Hq. by rewrite decide_False. }
  assert (Hc : counter (ms_view s') L = counter (V y) L) by by rewrite <- Ht.
  assert (Hlive : ∀ i d p,
    (λ cp, if decide (cp.1 = c) then (c, Dead) else cp) <$> threads y !! i = Some (d, p) →
    p = Dead ∨ d ≠ c ∧ threads y !! i = Some (d, p)).
  { intros i d p Hi. destruct (threads y !! i) as [[d' p']|]; [|done]. cbn in Hi.
    case_decide; naive_solver. }
  assert (Hkeep : ∀ i d p, threads y !! i = Some (d, p) → d ≠ c →
    (λ cp, if decide (cp.1 = c) then (c, Dead) else cp) <$> threads y !! i = Some (d, p)).
  { intros i d p -> Hd. cbn. by rewrite decide_False. }
  destruct Hy. split; unfold V in *; cbn [svc threads _acquired_lock mtx] in *;
    rewrite ?Hc; try setoid_rewrite list_lookup_fmap; try done.
  - by apply Hperm.
  - destruct li_node0 as [?|[Hn Hall]]; [left; by apply Hperm|right]. split.
    + rewrite Hown, Hn. by rewrite decide_False.
    + intros i d p [->|[_ Hi]]%Hlive; eauto.
  - intros i d p g [->|[Hd Hi]]%Hlive Hg; [done|]. destruct (li_threads0 i d p g Hi Hg) as [? Ho].
    split; [done|]. rewrite Hown, Ho, decide_False; [done|congruence].
  - intros k Hk. rewrite Hown. case_decide as Hkc; [by intros [? ?]|]. intros Hs.
    destruct (li_children0 k Hk Hs) as (n&j&d&p&->&Hn&Hj&Hp). exists n, j, d, p.
    split; [done|]. split; [done|]. split; [|done]. apply Hkeep; [done|]. intros ->.
    destruct (li_threads0 j c p _ Hj Hp) as [_ Ho]. done.
  - intros i j d1 d2 p q g [->|[_ Hi]]%Hlive [->|[_ Hj]]%Hlive Hp Hq; try done. eauto.
  - intros i d p g k [->|[_ Hi]]%Hlive Hg Hk; [done|]. rewrite Hown.
    case_decide; [by intros [? ?]|eauto].
  - intros d a [Hne Ha]%lookup_delete_Some. destruct (li_entry0 d a Ha) as (i&p&Hi&Hp).
    exists i, p. split; [|done]. by apply Hkeep.
  - intros i d g [?|[Hd Hi]]%Hlive; [done|]. rewrite lookup_delete_ne by done. eauto.
  - intros d. rewrite elem_of_difference, elem_of_singleton, li_mtx0. split.
    + intros [[i Hi] Hd]. exists i. by apply Hkeep.
    + intros [i [?|[Hd Hi]]%Hlive]; [done|]. eauto.
  - intros i j d p [?|[Hd Hi]]%Hlive [->|[_ Hj]]%Hlive Hij; [done|done|done|eauto].
Qed.

(** *** The system *)

(** There is room for another name. *)
Definition room (y : @lock_sys S) : Prop := counter (V y) L < 2 ^ 31 - 1.

Lemma thread_step_ok y i : LInv y → room y → ∃ y', thread_step root name y i = Ok y' ∧ LInv y'.
Proof.
  intros Hy Hroom. unfold thread_step. destruct (threads y !! i) as [[c p]|] eqn:Hi; [|eauto].
  fold path. pose proof (li_good y Hy) as Hs. pose proof (li_parent y Hy) as Hp.
  assert (Hnode : p ≠ Idle → p ≠ Dead → own (V y) L = Some None).
  { intros H1 H2. destruct (li_node y Hy) as [?|[_ Hall]]; [done|].
    by destruct (Hall i c p Hi). }
  destruct p as [| |g|g|g| |].
  - destruct (tree_node_add_spec root path HL Hlen (svc y) c Hs Hp) as (s'&b&->&Hs'&Ho&Hat&Hc).
    { destruct (li_node y Hy) as [?|[? _]]; auto. }
    step_ok. eexists. split; [done|]. pose proof (linv_tree_add y s' Hy Hs' Ho Hat Hc) as Hy'.
    by apply (linv_move _ i c Idle Added Hy').
  - pose proof (li_counter y Hy) as Hcnt. unfold room in Hroom.
    destruct (tree_node_gen_spec root path HL Hlen (svc y) c Hs) as (s'&->&Hs'&Ho&Hat&Hc);
      [by apply Hnode|unfold V, L in *; lia| |].
    { apply eq_None_not_Some. intros Hsome.
      destruct (li_children y Hy (gen_key (counter (V y) L))) as (n&_&_&_&E&Hn&_);
        [apply gen_key_good|done|]. apply gen_key_inj in E; lia. }
    step_ok. eexists. split; [done|]. by apply (linv_gen y s' i c Hy Hi Hroom (Hnode ltac:(done) ltac:(done)) Hs').
  - destruct (tree_node_sub_spec root path HL Hlen (svc y) c [] Hs) as (s'&l&->&Hs'&Hv&Hsort&Hel);
      [by apply Hnode|]. step_ok.
    destruct (li_threads y Hy i c _ g Hi eq_refl) as [Hsl Hog].
    assert (g ∈ l) as Hgl by (apply Hel; split; [done|eexists; exact Hog]).
    destruct l as [|k l]; [by apply not_elem_of_nil in Hgl|]. eexists. split; [done|].
    assert (same_lock (V y) (ms_view s')) as Hsame by (rewrite Hv; by apply same_lock_root).
    pose proof (linv_same y s' Hy Hs' Hsame) as Hy'. destruct Hsame as (_&HsL&_&Hsk).
    apply (linv_move _ i c (Waiting g) _ Hy'); try done.
    + unfold V. cbn [svc]. rewrite HsL. by apply Hnode.
    + by case_decide.
    + case_decide; [subst k|done]. intros ? [= <-] k Hk Hch. unfold V in Hch. cbn [svc] in Hch.
      rewrite Hsk in Hch by done. apply StronglySorted_inv in Hsort as [_ Hall].
      assert (k ∈ g :: l) as Hkl by by apply Hel.
      apply elem_of_cons in Hkl as [->|Hkl]; [apply str_ltb_irrefl|].
      by eapply Forall_forall in Hall.
    + by case_decide.
    + intros h. by case_decide.
  - case_decide as Hm; [eauto|]. destruct (linv_enter y i c g Hy Hi Hm) as [Hnone Hy'].
    rewrite bool_decide_true by done. step_ok. eauto.
  - case_decide as Hm; [eauto|]. rewrite (li_holding y Hy i c g Hi).
    destruct (thread_name y i c _ g Hy Hi eq_refl) as (n&_&_&Hgood&Hlg).
    destruct (li_threads y Hy i c _ g Hi eq_refl) as [_ Hog].
    destruct (tree_node_del_spec root path HL Hlen (svc y) c g c Hs Hgood Hlg Hog)
      as (s'&->&Hs'&Ho&Hat&Hc). step_ok. eexists. split; [done|]. by apply (linv_release y s' i c g).
  - eexists. split; [done|]. by apply linv_done.
  - eauto.
Qed.

(** A step of a thread, the end of a connection, a request of somebody else. *)
Inductive lock_step : @lock_sys S → lock_sys → Prop :=
  | step_thread y i y' : room y → thread_step root name y i = Ok y' → lock_step y y'
  | step_drop y c y' : drop_step y c = Ok y' → lock_step y y'
  | step_foreign y c f s' r :
      foreign f → Forall valid_any (rpc_request f) → ms_call (svc y) c f = Ok (s', r) →
      lock_step y (LockSys s' (_acquired_lock y) (mtx y) (threads y)).

(** Nobody has started; the node above the lock exists; the lock's own node may exist,
    with generated names used up, but has no children. *)
Record lock_init (y : @lock_sys S) : Prop := {
  in_good : ms_good (svc y);
  in_parent : own (V y) (parent_of L) = Some None;
  in_node : own (V y) L = None ∨ own (V y) L = Some None;
  in_counter : 0 ≤ counter (V y) L < 2 ^ 31;
  in_children k : slash ∉ k → own (V y) (child L k) = None;
  in_threads : Forall (λ cp, cp.2 = Idle) (threads y);
  in_entries : _acquired_lock y = ∅;
  in_mtx : mtx y = ∅;
}.

Lemma lock_init_inv y : lock_init y → LInv y.
Proof.
  intros [Hs Hp Hn Hc Hch Hth He Hm].
  assert (Hidle : ∀ i c p, threads y !! i = Some (c, p) → p = Idle).
  { intros i c p Hi. by eapply (Forall_lookup_1 _ _ _ _ Hth) in Hi. }
  split; try done.
  - destruct Hn as [Hn|Hn]; [right|by left]. split; [done|]. intros i c p Hi. left. eauto.
  - intros i c p g ->%Hidle. done.
  - intros k Hk [x Hx]. by rewrite Hch in Hx.
  - intros i j c d p q g ->%Hidle. done.
  - intros i c p g k ->%Hidle. done.
  - intros c a. by rewrite He.
  - intros i c g ?%Hidle. done.
  - intros c. rewrite Hm. split; [set_solver|]. intros [i ?%Hidle]. done.
  - intros i j c p ?%Hidle. done.
Qed.

Lemma lock_move_inv y y' : LInv y → lock_step y y' → LInv y'.
Proof.
  intros Hy Hl. revert Hy. destruct Hl as [y i y2 Hr Hst|y c y2 Hd|y c f s' r Hf Hv Hc]; intros Hy.
  - destruct (thread_step_ok _ i Hy Hr) as (y3&?&?). congruence.
  - destruct (linv_drop _ c Hy) as (y3&?&?). congruence.
  - destruct (ms_call_spec _ c f (li_good _ Hy) Hv) as (s2&resp&ch&Hc2&Hs2&Hsp).
    rewrite Hc in Hc2. injection Hc2 as <- _. apply linv_same; [done|done|].
    pose proof (li_parent _ Hy) as Hp. apply (same_lock_trans _ (t_root (V y))).
    + by apply same_lock_root.
    + eapply spec_foreign; [done|done|by apply own_root_some].
Qed.

Lemma lock_reach_inv y0 y : lock_init y0 → rtc lock_step y0 y → LInv y.
Proof.
  intros H0%lock_init_inv Hr. induction Hr as [|y0 y1 y Hst _ IH]; [done|].
  apply IH. by eapply lock_move_inv.
Qed.

(** The check of the thread with the first name succeeds. *)
Lemma first_owns y i c g :
  LInv y → threads y !! i = Some (c, Waiting g) →
  (∀ k, slash ∉ k → is_Some (own (V y) (child L k)) → str_le g k) →
  ∃ y', thread_step root name y i = Ok y' ∧ threads y' !! i = Some (c, Owner g).
Proof.
  intros Hy Hi Hmin. unfold thread_step. rewrite Hi. fold path.
  assert (Hnode : own (V y) L = Some None).
  { destruct (li_node y Hy) as [?|[_ Hall]]; [done|]. by destruct (Hall i c _ Hi). }
  destruct (tree_node_sub_spec root path HL Hlen (svc y) c [] (li_good y Hy) Hnode)
    as (s'&l&->&_&_&Hsort&Hel). step_ok.
  destruct (li_threads y Hy i c _ g Hi eq_refl) as [Hsl Hog].
  assert (g ∈ l) as Hgl by (apply Hel; split; [done|eexists; exact Hog]).
  destruct l as [|k l]; [by apply not_elem_of_nil in Hgl|].
  assert (k ∈ k :: l) as Hkl by left. apply Hel in Hkl as [Hk Hks].
  assert (g = k) as ->.
  { apply (anti_symm str_le); [by apply Hmin|]. apply StronglySorted_inv in Hsort as [_ Hall].
    apply elem_of_cons in Hgl as [->|Hgl]; [apply str_ltb_irrefl|].
    by eapply Forall_forall in Hall. }
  rewrite decide_True by done. eexists. split; [done|]. cbn [goto threads].
  apply list_lookup_insert_eq. by eapply lookup_lt_Some.
Qed.

(** The smallest child of the lock's node. *)
Lemma first_child y i c p g :
  LInv y → threads y !! i = Some (c, p) → has p = Some g →
  ∃ k, slash ∉ k ∧ is_Some (own (V y) (child L k)) ∧
    ∀ k', slash ∉ k' → is_Some (own (V y) (child L k')) → str_le k k'.
Proof.
  intros Hy Hi Hg. assert (Hnode : own (V y) L = Some None).
  { destruct (li_node y Hy) as [?|[_ Hall]]; [done|]. by destruct (Hall i c _ Hi) as [->| ->]. }
  destruct (tree_node_sub_spec root path HL Hlen (svc y) c [] (li_good y Hy) Hnode)
    as (s'&l&_&_&_&Hsort&Hel).
  destruct (li_threads y Hy i c p g Hi Hg) as [Hsl Hog].
  assert (g ∈ l) as Hgl by (apply Hel; split; [done|eexists; exact Hog]).
  destruct l as [|k l]; [by apply not_elem_of_nil in Hgl|]. exists k.
  assert (k ∈ k :: l) as Hkl by left. apply Hel in Hkl as [Hk Hks]. split; [done|]. split; [done|].
  intros k' Hk' Hks'. apply StronglySorted_inv in Hsort as [_ Hall].
  assert (k' ∈ k :: l) as Hin by by apply Hel.
  apply elem_of_cons in Hin as [->|Hin]; [apply str_ltb_irrefl|]. by eapply Forall_forall in Hall.
Qed.
End locking.

(** Threads scheduled one after the other. *)
Section schedule.
Context {S : Type} `{!MasterService S} (root name : str).

Fixpoint run_threads (y : @lock_sys S) (schedule : list nat) : result lock_sys :=
  match schedule with
  | [] => Ok y
  | i :: schedule =>
      _ ← SCHECK (counter (V y) (root ++ lock_path name) <? 2 ^ 31 - 1);
      y ← thread_step root name y i; run_threads y schedule
  end.

Lemma run_threads_reach schedule : ∀ y y',
  run_threads y schedule = Ok y' → rtc (lock_step root name) y y'.
Proof.
  induction schedule as [|i schedule IH]; intros y y'; cbn [run_threads]; [intros [= ->]; constructor|].
  destruct (Z.ltb_spec (counter (V y) (root ++ lock_path name)) (2 ^ 31 - 1)); [|done]. step_ok.
  rewrite bind_ok. intros (y1&Hst&Hr). eapply rtc_l; [|by apply IH]. by eapply step_thread.
Qed.
End schedule.

(** ** Properties *)

(** C25: the distributed lock excludes.  Any number of threads in any number of
    processes run [acquire_lock] and [release_lock] on one name, interleaved call by
    call with each other, with ends of connections and with requests that leave the
    lock's nodes alone.  At most one thread is past [acquire_lock] and not yet in
    [release_lock], and none of the checks in the two functions ever fails.  (Fewer than
    2^31 - 1 names must have been generated below the lock's node.) *)
Theorem lock_mutual_exclusion {S : Type} `{!MasterService S} (root name : str)
    (y0 y : @lock_sys S) :
  let L := root ++ lock_path name in
  master_check_valid_path L = true → Z.of_nat (length L) + 12 < 2 ^ 64 →
  lock_init root name y0 → rtc (lock_step root name) y0 y →
  (∀ i j c d p q g h, threads y !! i = Some (c, p) → threads y !! j = Some (d, q) →
     owns p = Some g → owns q = Some h → i = j) ∧
  (room root name y → ∀ i, is_ok (thread_step root name y i)).
Proof.
  intros L HL Hlen H0 Hr. pose proof (lock_reach_inv root name HL Hlen y0 y H0 Hr) as Hy. split.
  - intros i j c d p q g h. by apply (linv_exclusion root name).
  - intros Hroom i. destruct (thread_step_ok root name HL Hlen y i Hy Hroom) as (y'&?&_). by eexists.
Qed.

(** C26: the distributed lock is never stuck.  In every state in which some thread waits
    and none owns the lock, there is a waiting thread whose next check succeeds: the one
    whose name was generated first.  A thread that has to wait for the mutex of its
    process waits for a thread that is about to give it back. *)
Theorem lock_progress {S : Type} `{!MasterService S} (root name : str) (y0 y : @lock_sys S)
    (i : nat) (c : sock) (g : str) :
  let L := root ++ lock_path name in
  master_check_valid_path L = true → Z.of_nat (length L) + 12 < 2 ^ 64 →
  lock_init root name y0 → rtc (lock_step root name) y0 y →
  threads y !! i = Some (c, Waiting g) →
  (∀ j d p, threads y !! j = Some (d, p) → owns p = None) →
  (∃ j d k y', threads y !! j = Some (d, Waiting k) ∧ str_le k g ∧
     thread_step root name y j = Ok y' ∧ threads y' !! j = Some (d, Owner k)) ∧
  (∀ d, d ∈ mtx y → ∃ j, threads y !! j = Some (d, Releasing)).
Proof.
  intros L HL Hlen H0 Hr Hi Hno. pose proof (lock_reach_inv root name HL Hlen y0 y H0 Hr) as Hy.
  split; [|intros d; by apply (li_mtx root name y Hy)].
  destruct (first_child root name HL Hlen y i c _ g Hy Hi eq_refl) as (k&Hk&Hks&Hmin).
  destruct (li_children _ _ y Hy k Hk Hks) as (n&j&d&p&_&_&Hj&Hp).
  pose proof (Hno j d p Hj) as Hn. destruct p; try done. injection Hp as ->.
  destruct (first_owns root name HL Hlen y j d k Hy Hj Hmin) as (y'&Hst&Hy').
  destruct (li_threads _ _ y Hy i c _ g Hi eq_refl) as [Hsl Hog].
  exists j, d, k, y'. split; [done|]. split; [apply Hmin; [done|eexists; exact Hog]|]. done.
Qed.

(** ** Generated identifiers *)
Section ids.
Context {S : Type} `{!MasterService S} (root key : str).
Let P := root ++ PATH_GENERATE_ID ++ [slash] ++ key.
Context (Hlen : Z.of_nat (length P) < 2 ^ 64).

Definition id_room (s : S) : Prop := 0 ≤ counter (ms_view s) P < 2 ^ 31 - 1.

(** What becomes of the counter. *)
Lemma spec_counter t c f t' resp ch :
  spec_op t c (request_of f) = (t', resp, ch) → f ≠ master_del P →
  counter t' P = counter t P ∨ counter t' P = i32 (counter t P + 1).
Proof.
  intros Hs Hf. destruct f as [p v e|p v e|p v|p v|p|p]; cbn [request_of spec_op] in Hs;
    repeat case_match; simplify_eq; auto; unfold counter; cbn [t_gen].
  1-4: destruct (decide (p = P)) as [->|];
    [right; by rewrite lookup_insert_eq|left; by rewrite lookup_insert_ne].
  left. rewrite lookup_delete_ne; [done|congruence].
Qed.

Lemma generate_id_counts s c s' id :
  ms_good s → id_room s → generate_id root s c key = Ok (s', id) →
  ms_good s' ∧ id = counter (ms_view s) P ∧ counter (ms_view s') P = id + 1.
Proof.
  intros Hs Hroom. unfold generate_id, tree_node_add, tree_node_gen, RETRY_MASTER_METHOD. fold P.
  destruct (master_check_valid_path P) eqn:HP; [|done]. step_ok.
  destruct (retry_spec s c (master_add P [] false) Hs HP) as (s1&r1&ch1&->&Hs1&Hsp1);
    [by apply str_ok_lt|by apply str_ok_lt|done|]. step_ok.
  assert (Hc1 : counter (ms_view s1) P = counter (ms_view s) P).
  { rewrite <- (counter_root (ms_view s)). cbn [request_of spec_op] in Hsp1. unfold counter.
    repeat case_match; simplify_eq; cbn [t_gen];
      match goal with H : _ = ms_view s1 |- _ => by rewrite <- H end. }
  unfold id_room in Hroom. rewrite <- Hc1 in *.
  destruct (retry_spec s1 c (master_gen P [] true) Hs1 HP) as (s2&r2&ch2&->&Hs2&Hsp2);
    [by apply str_ok_lt|by apply str_ok_lt|done|]. step_ok.
  cbn [request_of spec_op] in Hsp2. rewrite HP in Hsp2. cbn zeta in Hsp2.
  fold (counter (t_root (ms_view s1)) P) in Hsp2. rewrite counter_root in Hsp2.
  rewrite length_gen_key in Hsp2 by lia. cbn [Nat.ltb Nat.leb] in Hsp2.
  repeat case_match; simplify_eq; try done.
  match goal with H : (result_of _).2 = out_string _ |- _ =>
    cbn [result_of v_status v_string snd] in H; injection H as <- end.
  rewrite length_gen_key by lia. cbn [Nat.ltb Nat.leb]. step_ok.
  assert (stoi 0 (drop 1 (gen_key (counter (ms_view s1) P))) = counter (ms_view s1) P) as ->.
  { rewrite gen_key_dec by lia. apply (stoi_dec 10). cbn. lia. }
  intros [= <- <-]. split; [done|]. split; [done|].
  match goal with H : _ = ms_view s2 |- _ => rewrite <- H end.
  unfold counter at 1. cbn [t_gen]. rewrite lookup_insert_eq. apply swrap_small; [lia|].
  unfold in_signed. lia.
Qed.

(** Identifiers handed out while anything but the deletion of the node happens. *)
Inductive id_run : S → list Z → S → Prop :=
  | id_nil s : id_run s [] s
  | id_next s c s1 id ids s2 :
      id_room s → generate_id root s c key = Ok (s1, id) → id_run s1 ids s2 →
      id_run s (id :: ids) s2
  | id_call s c f s1 r ids s2 :
      id_room s → f ≠ master_del P → Forall valid_any (rpc_request f) →
      ms_call s c f = Ok (s1, r) → id_run s1 ids s2 → id_run s ids s2
  | id_drop s c s1 ids s2 : ms_drop s c = Ok s1 → id_run s1 ids s2 → id_run s ids s2.

Lemma id_run_increasing s ids s2 :
  id_run s ids s2 → ms_good s → 
  StronglySorted Z.lt ids ∧ Forall (λ id, counter (ms_view s) P ≤ id) ids.
Proof.
  induction 1 as [s|s c s1 id ids s2 Hr Hg _ IH|s c f s1 r ids s2 Hr Hf Hv Hc _ IH|s c s1 ids s2 Hd _ IH];
    intros Hs; [by split; constructor|..].
  - destruct (generate_id_counts s c s1 id Hs Hr Hg) as (Hs1&->&Hc).
    destruct (IH Hs1) as [Hsort Hall]. rewrite Hc in Hall. split.
    + constructor; [done|]. eapply Forall_impl; [done|]. cbn. lia.
    + constructor; [done|]. eapply Forall_impl; [done|]. cbn. lia.
  - destruct (ms_call_spec s c f Hs Hv) as (s'&resp&ch&Hc2&Hs'&Hsp). rewrite Hc in Hc2.
    injection Hc2 as <- _. destruct (IH Hs') as [Hsort Hall]. split; [done|].
    eapply Forall_impl; [done|]. cbn. unfold id_room in Hr.
    destruct (spec_counter _ _ _ _ _ _ Hsp Hf) as [->| ->]; rewrite counter_root; [done|].
    rewrite swrap_small; [lia|lia|]. unfold in_signed. lia.
  - destruct (ms_drop_spec s c Hs) as (s'&ch&Hd2&Hs'&Hsp). rewrite Hd in Hd2.
    injection Hd2 as <-. destruct (IH Hs') as [Hsort Hall]. split; [done|].
    cbn [spec_op] in Hsp. injection Hsp as Ht _. unfold counter in *. rewrite <- Ht in Hall. done.
Qed.
End ids.

(** Identifiers are handed out once.  However many processes call [generate_id]
    with one key, and whatever other requests and ends of connections happen in between
    (the deletion of the key's node, which is [reset_generate_id], apart), the
    identifiers form a strictly increasing sequence. *)
Theorem generated_ids_increase {S : Type} `{!MasterService S} (root key : str)
    (s s' : S) (ids : list Z) :
  Z.of_nat (length (root ++ PATH_GENERATE_ID ++ [slash] ++ key)) < 2 ^ 64 →
  ms_good s → id_run root key s ids s' → StronglySorted Z.lt ids.
Proof. intros Hlen Hs Hr. by apply (id_run_increasing root key Hlen s ids s' Hr). Qed.

(** Two processes and a master on which the node above the locks exists. *)
Definition example_service : MasterService Master :=
  master_service (λ _, Byte.x00) (λ V, map_to_list) elements map_to_list map_to_list
    (λ _ _, Permutation_refl _) (λ _, Permutation_refl _) (λ _, Permutation_refl _).

Definition example_master : Master :=
  match @ms_call Master example_service init 1%nat (master_add (lit "/_lock_") [] false) with
  | Ok (s, _) => s
  | Abort => init
  end.

Definition example_sys : @lock_sys Master := LockSys example_master ∅ ∅ [(1%nat, Idle); (2%nat, Idle)].

Lemma example_lock_init : @lock_init Master example_service (lit "/") (lit "l") example_sys.
Proof.
  assert (Hv : @V Master example_service example_sys =
    Tree (<[lit "/_lock_" := (None, [])]> (<[[] := (None, [])]> ∅)) ∅) by (vm_compute; reflexivity).
  split; [|vm_compute; reflexivity|left; vm_compute; reflexivity|vm_compute; intuition congruence| |
    by repeat constructor|done|done].
  - destruct (@ms_call_spec Master example_service init 1%nat (master_add (lit "/_lock_") [] false))
      as (s'&resp&ch&Hcall&Hs'&_);
      [apply init_live|apply request_valid; by apply str_ok_lt|].
    unfold example_sys, example_master. cbn [svc]. by rewrite Hcall.
  - intros k Hk. rewrite Hv. unfold own. cbn [t_nodes].
    rewrite !lookup_insert_ne; [done|by intros ?%eq_sym%child_ne_nil|].
    intros E. apply (f_equal length) in E. unfold child in E. autorewrite with prpc_len in E.
    cbn in E. lia.
Qed.

Definition example_run (schedule : list nat) : @lock_sys Master :=
  match @run_threads Master example_service (lit "/") (lit "l") example_sys schedule with
  | Ok y => y
  | Abort => example_sys
  end.

Lemma example_run_reach schedule :
  rtc (@lock_step Master example_service (lit "/") (lit "l")) example_sys (example_run schedule).
Proof.
  unfold example_run. destruct (run_threads _ _ _ _) eqn:E; [|constructor].
  by eapply run_threads_reach.
Qed.

Lemma lock_mutual_exclusion_witness :
  let I := example_service in let y := example_run [0; 0; 1; 1; 0; 1; 0]%nat in
  threads y = [(1%nat, Holding (gen_key 0)); (2%nat, Waiting (gen_key 1))] ∧
  (∀ i j c d p q g h, threads y !! i = Some (c, p) → threads y !! j = Some (d, q) →
     owns p = Some g → owns q = Some h → i = j) ∧
  (@room Master I (lit "/") (lit "l") y → ∀ i, is_ok (@thread_step Master I (lit "/") (lit "l") y i)).
Proof.
  intros I y. split; [vm_compute; reflexivity|].
  apply (lock_mutual_exclusion (lit "/") (lit "l") example_sys y);
    [vm_compute; reflexivity|done|apply example_lock_init|apply example_run_reach].
Defined.

Lemma lock_progress_witness :
  let I := example_service in let y := example_run [0; 0; 1; 1]%nat in
  threads y = [(1%nat, Waiting (gen_key 0)); (2%nat, Waiting (gen_key 1))] ∧
  (∃ j d k y', threads y !! j = Some (d, Waiting k) ∧ str_le k (gen_key 1) ∧
     @thread_step Master I (lit "/") (lit "l") y j = Ok y' ∧ threads y' !! j = Some (d, Owner k)) ∧
  (∀ d, d ∈ mtx y → ∃ j, threads y !! j = Some (d, Releasing)).
Proof.
  intros I y. assert (Ht : threads y = [(1%nat, Waiting (gen_key 0)); (2%nat, Waiting (gen_key 1))])
    by (vm_compute; reflexivity).
  split; [done|].
  apply (lock_progress (lit "/") (lit "l") example_sys y 1%nat 2%nat (gen_key 1));
    [vm_compute; reflexivity|done|apply example_lock_init|apply example_run_reach|by rewrite Ht|].
  intros [|[|j]] d p; rewrite Ht; [intros [= <- <-]; done..|done].
Defined.

(** A master on which the node above the identifiers exists. *)
Definition example_ids (n : nat) : result (Master * list Z) :=
  let I := example_service in
  '(s, _) ← @ms_call Master I init 1%nat (master_add (lit "/_id_gen_") [] false);
  Nat.iter n (λ r, '(s, ids) ← r;
    '(s, id) ← @generate_id Master I (lit "/") s 1%nat (lit "k"); Ok (s, ids ++ [id])) (Ok (s, [])).

Lemma generated_ids_increase_witness :
  let I := example_service in
  (∃ s, example_ids 3 = Ok (s, [0; 1; 2])) ∧
  ∀ s s' id, @ms_call Master I init 1%nat (master_add (lit "/_id_gen_") [] false) = Ok (s, (OK, out_void)) →
    @generate_id Master I (lit "/") s 1%nat (lit "k") = Ok (s', id) → StronglySorted Z.lt [id].
Proof.
  intros I. split.
  { assert (match example_ids 3 with Ok (_, ids) => ids | Abort => [] end = [0; 1; 2]) as E
      by (vm_compute; reflexivity).
    destruct (example_ids 3) as [[s ids]|]; [|done]. exists s. by rewrite E. }
  intros s s' id Hc Hg.
  destruct (@ms_call_spec Master I init 1%nat (master_add (lit "/_id_gen_") [] false))
    as (s1&resp&ch&Hc1&Hs1&Hsp);
    [apply init_live|apply request_valid; by apply str_ok_lt|].
  rewrite Hc in Hc1. injection Hc1 as <- _. apply (f_equal (λ x, t_gen x.1.1)) in Hsp.
  apply (generated_ids_increase (lit "/") (lit "k") s s' [id]); [done|done|].
  eapply id_next; [|done|constructor]. cbn [fst] in Hsp.
  unfold id_room, counter. rewrite <- Hsp. vm_compute. intuition congruence.
Defined.
