(* ===== verification/LexicalCast.v ===== *)
(** * Numbers in text

    src/src/common/pico_lexical_cast.h: [pico_lexical_cast] from a string to [bool] and to
    the integer types, with the checks its macros make around [strtol] and its relatives.
    The master's nodes hold numbers as text; Registry.v reads them with this code.

    A C string is the list of its bytes before the terminating zero.  An exception is
    [None]. *)
From S2P Require Import Prelude Archive Serialize LazyArchive Message Master MasterClient Locks.

(** ** The C library *)

(** What a [const char*] obtained with [c_str] shows of a string. *)
Fixpoint c_str (s : str) : str :=
  match s with
  | [] => []
  | c :: s => if decide (c = Byte.x00) then [] else c :: c_str s
  end.

(** [s[i]]: the terminating zero follows the last byte. *)
Definition char_at (s : str) (i : nat) : byte := default Byte.x00 (s !! i).

Definition isspace (c : byte) : bool :=
  let z := byte.unsigned c in (z =? 32) || ((9 <=? z) && (z <=? 13)).

Definition isdigit (c : byte) : bool := (48 <=? byte.unsigned c) && (byte.unsigned c <=? 57).

Definition minus : byte := Byte.x2d.
Definition plus : byte := Byte.x2b.

Fixpoint span (p : byte → bool) (s : str) : nat :=
  match s with
  | [] => 0
  | c :: s => if p c then S (span p s) else 0
  end.

(** The text [strtol] converts: where the digits start, whether a minus precedes them and
    where they end; without digits nothing is converted. *)
Definition subject (s : str) : option (bool * str * nat) :=
  let ws := span isspace s in
  let c := char_at s ws in
  let neg := bool_decide (c = minus) in
  let start := if neg || bool_decide (c = plus) then S ws else ws in
  let n := span isdigit (drop start s) in
  if decide (n = 0%nat) then None
  else Some (neg, take n (drop start s), (start + n)%nat).

(** The value, the offset of the end pointer, and whether [errno] is [ERANGE]. *)
Definition strtol (s : str) : Z * nat * bool :=
  match subject s with
  | None => (0, 0%nat, false)
  | Some (neg, ds, pos) =>
      let z := if neg then - stoi 0 ds else stoi 0 ds in
      if z <? - 2 ^ 63 then (- 2 ^ 63, pos, true)
      else if 2 ^ 63 - 1 <? z then (2 ^ 63 - 1, pos, true)
      else (z, pos, false)
  end.

Definition strtoul (s : str) : Z * nat * bool :=
  match subject s with
  | None => (0, 0%nat, false)
  | Some (neg, ds, pos) =>
      let z := stoi 0 ds in
      if 2 ^ 64 - 1 <? z then (2 ^ 64 - 1, pos, true)
      else (u64 (if neg then - z else z), pos, false)
  end.

(** [strncmp(s, t, n) == 0]. *)
Definition strncmp_eq (s t : str) (n : nat) : bool := bool_decide (take n s = take n t).

(** ** pico_lexical_cast.h *)

Definition bool_to_string (b : bool) : str := lit (if b then "true" else "false").

(** [inner_lexical_cast<bool>]. *)
Definition inner_lexical_cast_bool (s : str) (count : nat) : option bool :=
  let actual_len := if (0 <? count)%nat then count else length s in
  if (actual_len =? 1)%nat then Some (negb (strncmp_eq s (lit "0") 1))
  else if (actual_len =? 4)%nat && (strncmp_eq s (lit "True") 4 || strncmp_eq s (lit "true") 4) then Some true
  else if (actual_len =? 5)%nat && (strncmp_eq s (lit "False") 5 || strncmp_eq s (lit "false") 5) then Some false
  else None.

Definition inner_lexical_cast_string_precheck (s : str) (count : nat) : option unit :=
  if isspace (char_at s 0) then None
  else if (0 <? count)%nat && (length s <? count)%nat then None
  else Some ().

Definition inner_lexical_cast_string_prechecku (s : str) (count : nat) : option unit :=
  _ ← inner_lexical_cast_string_precheck s count;
  if decide (char_at s 0 = minus) then None else Some ().

Definition inner_lexical_cast_string_aftcheck (s : str) (pos count : nat) (erange : bool) : option unit :=
  if decide (pos = 0%nat) then None
  else if ((0 <? count)%nat && negb (pos =? count)%nat)
       || ((count =? 0)%nat && negb (bool_decide (char_at s pos = Byte.x00))) then None
  else if erange then None
  else Some ().

Definition inner_lexical_cast_range_check (min max num : Z) : option unit :=
  if (num <? min) || (max <? num) then None else Some ().

Definition strntox (func : str → Z * nat * bool) (s : str) (num : nat) : Z * nat * bool :=
  if (0 <? num)%nat && negb (isspace (char_at s num)) && negb (bool_decide (char_at s num = Byte.x00))
  then func (c_str (take num s))
  else func s.

Inductive cast_type :=
  | uint8_t | uint16_t | uint32_t | uint64_t | int8_t | int16_t | int32_t | int64_t.

(** The eight instances of [inner_lexical_cast] from [const char*]. *)
Definition inner_lexical_cast (T : cast_type) (s : str) (count : nat) : option Z :=
  let unsigned :=
    _ ← inner_lexical_cast_string_prechecku s count; Some (strntox strtoul s count) in
  let signed :=
    _ ← inner_lexical_cast_string_precheck s count; Some (strntox strtol s count) in
  match T with
  | uint8_t =>
      '(v, pos, erange) ← unsigned; let ret := u32 v in
      _ ← inner_lexical_cast_string_aftcheck s pos count erange;
      _ ← inner_lexical_cast_range_check 0 (2 ^ 8 - 1) ret; Some ret
  | uint16_t =>
      '(v, pos, erange) ← unsigned; let ret := u32 v in
      _ ← inner_lexical_cast_string_aftcheck s pos count erange;
      _ ← inner_lexical_cast_range_check 0 (2 ^ 16 - 1) ret; Some ret
  | uint32_t =>
      '(v, pos, erange) ← unsigned; let ret := u32 v in
      _ ← inner_lexical_cast_string_aftcheck s pos count erange; Some ret
  | uint64_t =>
      '(v, pos, erange) ← unsigned;
      _ ← inner_lexical_cast_string_aftcheck s pos count erange; Some v
  | int8_t =>
      '(v, pos, erange) ← signed; let ret := i32 v in
      _ ← inner_lexical_cast_string_aftcheck s pos count erange;
      _ ← inner_lexical_cast_range_check (- 2 ^ 7) (2 ^ 7 - 1) ret; Some ret
  | int16_t =>
      '(v, pos, erange) ← signed; let ret := i32 v in
      _ ← inner_lexical_cast_range_check (- 2 ^ 15) (2 ^ 15 - 1) ret;
      _ ← inner_lexical_cast_string_aftcheck s pos count erange; Some ret
  | int32_t =>
      '(v, pos, erange) ← signed; let ret := i32 v in
      _ ← inner_lexical_cast_string_aftcheck s pos count erange; Some ret
  | int64_t =>
      '(v, pos, erange) ← signed;
      _ ← inner_lexical_cast_string_aftcheck s pos count erange; Some v
  end.

(** [pico_lexical_cast<T>(s, count)] of a [std::string]; the variant with an output
    parameter, which keeps its old value after an exception; the variant that checks. *)
Definition pico_lexical_cast (T : cast_type) (s : str) (count : nat) : option Z :=
  inner_lexical_cast T (c_str s) count.

Definition pico_lexical_cast_to (T : cast_type) (s : str) (t : Z) (count : nat) : Z * bool :=
  match pico_lexical_cast T s count with Some v => (v, true) | None => (t, false) end.

Definition pico_lexical_cast_check (T : cast_type) (s : str) (count : nat) : result Z :=
  let '(t, ok) := pico_lexical_cast_to T s 0 count in
  _ ← SCHECK ok; Ok t.

(** ** Numerals *)

(** What a text denotes: an optional sign and digits. *)
Inductive numeral : str → Z → Prop :=
  | num_digits ds : ds ≠ [] → Forall (λ c, isdigit c = true) ds → numeral ds (stoi 0 ds)
  | num_plus ds : ds ≠ [] → Forall (λ c, isdigit c = true) ds → numeral (plus :: ds) (stoi 0 ds)
  | num_minus ds : ds ≠ [] → Forall (λ c, isdigit c = true) ds → numeral (minus :: ds) (- stoi 0 ds).

Definition is_unsigned (T : cast_type) : bool :=
  match T with uint8_t | uint16_t | uint32_t | uint64_t => true | _ => false end.

(** The range of the C function that converts, the conversion of its result, and the
    range that is checked. *)
Definition parsed (T : cast_type) (z : Z) : Prop :=
  if is_unsigned T then 0 ≤ z < 2 ^ 64 else in_signed 64 z.
Definition narrow (T : cast_type) (z : Z) : Z :=
  match T with
  | uint64_t | int64_t => z
  | uint8_t | uint16_t | uint32_t => u32 z
  | _ => i32 z
  end.
Definition checked (T : cast_type) (v : Z) : Prop :=
  match T with
  | uint8_t => v < 2 ^ 8
  | uint16_t => v < 2 ^ 16
  | int8_t => in_signed 8 v
  | int16_t => in_signed 16 v
  | _ => True
  end.
(** The range of the type itself. *)
Definition fits (T : cast_type) (z : Z) : Prop :=
  match T with
  | uint8_t => in_unsigned 8 z | uint16_t => in_unsigned 16 z
  | uint32_t => in_unsigned 32 z | uint64_t => in_unsigned 64 z
  | int8_t => in_signed 8 z | int16_t => in_signed 16 z
  | int32_t => in_signed 32 z | int64_t => in_signed 64 z
  end.

(** ** Lemmas *)
Lemma c_str_zero s : Byte.x00 ∉ c_str s.
Proof.
  induction s as [|c s IH]; cbn; [apply not_elem_of_nil|]. case_decide; [apply not_elem_of_nil|].
  by rewrite not_elem_of_cons.
Qed.

Lemma c_str_id s : Byte.x00 ∉ s → c_str s = s.
Proof.
  induction s as [|c s IH]; [done|]. rewrite not_elem_of_cons. intros [Hc Hs]. cbn.
  rewrite decide_False by congruence. by rewrite IH.
Qed.

Lemma char_at_zero s i : Byte.x00 ∉ s → char_at s i = Byte.x00 ↔ (length s ≤ i)%nat.
Proof.
  intros Hs. unfold char_at. destruct (s !! i) as [c|] eqn:Hi; cbn.
  - pose proof (lookup_lt_Some _ _ _ Hi). apply list_elem_of_lookup_2 in Hi. split; [congruence|lia].
  - apply lookup_ge_None in Hi. done.
Qed.

Lemma char_at_drop s n i : char_at (drop n s) i = char_at s (n + i).
Proof. unfold char_at. by rewrite lookup_drop. Qed.

Lemma span_le p s : (span p s ≤ length s)%nat.
Proof. induction s as [|c s IH]; cbn; [lia|]. destruct (p c); lia. Qed.

Lemma span_all p s : Forall (λ c, p c = true) s → span p s = length s.
Proof. induction 1 as [|c s Hc _ IH]; cbn; [done|]. by rewrite Hc, IH. Qed.

Lemma span_take p s : Forall (λ c, p c = true) (take (span p s) s).
Proof.
  induction s as [|c s IH]; [constructor|]. cbn. destruct (p c) eqn:Hc; cbn; by constructor.
Qed.

(** A span does not see what follows a byte outside it. *)
Lemma span_cut p s n : p (char_at s n) = false → span p (take n s) = span p s.
Proof.
  revert n. induction s as [|c s IH]; intros [|n] Hn; cbn; try done.
  - unfold char_at in Hn. cbn in Hn. by rewrite Hn.
  - destruct (p c); [|done]. f_equal. by apply IH.
Qed.

Lemma take_span_cut p s n :
  p (char_at s n) = false → take (span p s) (take n s) = take (span p s) s.
Proof.
  intros Hn. rewrite take_take. f_equal. pose proof (span_cut p s n Hn) as E.
  pose proof (span_le p (take n s)). rewrite length_take in *. lia.
Qed.

Definition sign_len (s : str) : nat :=
  if bool_decide (char_at s 0 = minus) || bool_decide (char_at s 0 = plus) then 1 else 0.

(** Without white space in front. *)
Lemma subject_nospace s :
  isspace (char_at s 0) = false →
  subject s = let n := span isdigit (drop (sign_len s) s) in
    if decide (n = 0%nat) then None
    else Some (bool_decide (char_at s 0 = minus), take n (drop (sign_len s) s), (sign_len s + n)%nat).
Proof.
  intros Hs. unfold subject. assert (span isspace s = 0%nat) as ->; [|done].
  destruct s as [|c s]; [done|]. cbn in *. by rewrite Hs.
Qed.

Lemma subject_cut s n :
  isspace (char_at s 0) = false → (0 < n)%nat → isdigit (char_at s n) = false →
  subject (take n s) = subject s.
Proof.
  intros Hs Hn Hd.
  assert (H0 : char_at (take n s) 0 = char_at s 0) by (unfold char_at; by rewrite lookup_take_lt by lia).
  rewrite !subject_nospace by by rewrite ?H0. unfold sign_len. rewrite H0.
  set (k := if _ : bool then 1%nat else 0%nat).
  assert (Hk : (k ≤ n)%nat) by (unfold k; case_match; lia).
  rewrite skipn_firstn_comm. cbn zeta.
  assert (Hdk : isdigit (char_at (drop k s) (n - k)) = false)
    by (rewrite char_at_drop; by replace (k + (n - k))%nat with n by lia).
  rewrite span_cut by done. by rewrite take_span_cut.
Qed.

Definition signed (neg : bool) (z : Z) : Z := if neg then - z else z.

Lemma stoi_nonneg ds : ∀ acc, Forall (λ c, isdigit c = true) ds → 0 ≤ acc → 0 ≤ stoi acc ds.
Proof.
  induction ds as [|c ds IH]; intros acc Hd Ha; [done|]. apply Forall_cons in Hd as [Hc Hd]. cbn [stoi].
  apply IH; [done|]. unfold isdigit in Hc. apply andb_prop in Hc as [Hc _].
  apply Z.leb_le in Hc. lia.
Qed.

Lemma subject_sound s neg ds pos :
  isspace (char_at s 0) = false → subject s = Some (neg, ds, pos) →
  numeral (take pos s) (signed neg (stoi 0 ds)) ∧ (0 < pos ≤ length s)%nat ∧
  neg = bool_decide (char_at s 0 = minus) ∧ Forall (λ c, isdigit c = true) ds.
Proof.
  intros Hs. rewrite subject_nospace by done. cbn zeta. case_decide as Hn; [done|]. intros [= <- <- <-].
  pose proof (span_le isdigit (drop (sign_len s) s)) as Hle. rewrite length_drop in Hle.
  pose proof (span_take isdigit (drop (sign_len s) s)) as Hd.
  assert (Hne : take (span isdigit (drop (sign_len s) s)) (drop (sign_len s) s) ≠ []).
  { intros E. apply (f_equal length) in E. rewrite length_take, length_drop in E. cbn in E. lia. }
  split; [|split; [lia|done]]. unfold sign_len in *. destruct s as [|c s]; [done|].
  change (char_at (c :: s) 0) with c in *.
  destruct (decide (c = minus)) as [->|Hm].
  { rewrite bool_decide_true in * by done. cbn [orb drop] in *. by apply num_minus. }
  rewrite (bool_decide_false (c = minus)) in * by done. cbn [orb] in *.
  case_bool_decide as Hp; [subst c|]; cbn [drop] in *; [by apply num_plus|by apply num_digits].
Qed.

Lemma digit_plain c : isdigit c = true → c ≠ minus ∧ c ≠ plus ∧ isspace c = false.
Proof. intros H. split; [by intros ->|]. split; [by intros ->|]. unfold isdigit, isspace in *. lia. Qed.

Lemma numeral_shape s z :
  numeral s z → isspace (char_at s 0) = false ∧ s ≠ [] ∧
    ∃ ds, subject s = Some (bool_decide (char_at s 0 = minus), ds, length s) ∧
      z = signed (bool_decide (char_at s 0 = minus)) (stoi 0 ds) ∧ Forall (λ c, isdigit c = true) ds.
Proof.
  intros [ds Hne Hd|ds Hne Hd|ds Hne Hd]; destruct ds as [|c ds]; try done.
  all: assert (Hn : span isdigit (c :: ds) = length (c :: ds)) by by apply span_all.
  1: pose proof (digit_plain c (proj1 (proj1 (Forall_cons _ _ _) Hd))) as (Hm&Hp&Hs).
  all: split; [done|]; split; [done|]; rewrite subject_nospace by done; unfold sign_len.
  - change (char_at (c :: ds) 0) with c. rewrite !(bool_decide_false _ Hm), (bool_decide_false _ Hp).
    cbn [orb drop]. cbn zeta. rewrite Hn, firstn_all. eauto.
  - change (char_at (plus :: c :: ds) 0) with plus. cbn [bool_decide]. 
    exists (c :: ds). cbn zeta. change (drop _ (plus :: c :: ds)) with (c :: ds). rewrite Hn, firstn_all. done.
  - change (char_at (minus :: c :: ds) 0) with minus. 
    exists (c :: ds). cbn zeta. change (drop _ (minus :: c :: ds)) with (c :: ds). rewrite Hn, firstn_all. done.
Qed.

(** [strtoul] or [strtol] with what the checks around it let through. *)
Definition range (u : bool) (z : Z) : Prop := if u then 0 ≤ z < 2 ^ 64 else in_signed 64 z.
Definition conv (u : bool) : str → Z * nat * bool := if u then strtoul else strtol.

Lemma conv_cut u s n :
  isspace (char_at s 0) = false → (0 < n)%nat → isdigit (char_at s n) = false →
  conv u (take n s) = conv u s.
Proof. intros. unfold conv. destruct u; [unfold strtoul|unfold strtol]; by rewrite subject_cut by done. Qed.

Lemma conv_sound u s v pos :
  isspace (char_at s 0) = false → (u = true → char_at s 0 ≠ minus) →
  conv u s = (v, pos, false) → pos ≠ 0%nat →
  numeral (take pos s) v ∧ range u v ∧ (pos ≤ length s)%nat.
Proof.
  intros Hs Hu Hc Hp. revert Hc.
  destruct (subject s) as [[[neg ds] n]|] eqn:Hsub;
    [|unfold conv, strtoul, strtol; destruct u; rewrite Hsub; intros [=]; lia].
  destruct (subject_sound s neg ds n Hs Hsub) as (Hnum&Hn&Hneg&Hd).
  pose proof (stoi_nonneg ds 0 Hd ltac:(lia)) as H0.
  assert (Hun : u = true → neg = false) by (intros E; subst neg; by rewrite bool_decide_false by auto).
  destruct u; unfold conv; [unfold strtoul|unfold strtol]; rewrite Hsub.
  - rewrite (Hun eq_refl) in *. destruct (Z.ltb_spec (2 ^ 64 - 1) (stoi 0 ds)); [done|]. intros [= <- <-].
    rewrite wrap_small by (unfold in_unsigned; lia). split; [done|]. unfold range. lia.
  - fold (signed neg (stoi 0 ds)). destruct (Z.ltb_spec (signed neg (stoi 0 ds)) (- 2 ^ 63)); [done|].
    destruct (Z.ltb_spec (2 ^ 63 - 1) (signed neg (stoi 0 ds))); [done|]. intros [= <- <-].
    split; [done|]. unfold range, in_signed. lia.
Qed.

Lemma conv_complete u s z :
  numeral s z → range u z → (u = true → char_at s 0 ≠ minus) → conv u s = (z, length s, false).
Proof.
  intros Hnum Hr Hu. destruct (numeral_shape s z Hnum) as (Hs&_&ds&Hsub&->&Hd).
  unfold conv. destruct u; unfold range, in_signed in Hr; [unfold strtoul|unfold strtol]; rewrite Hsub.
  - rewrite (bool_decide_false _ (Hu eq_refl)) in *. cbn [signed] in *.
    destruct (Z.ltb_spec (2 ^ 64 - 1) (stoi 0 ds)); [lia|]. by rewrite wrap_small.
  - fold (signed (bool_decide (char_at s 0 = minus)) (stoi 0 ds)).
    destruct (Z.ltb_spec (signed (bool_decide (char_at s 0 = minus)) (stoi 0 ds)) (- 2 ^ 63)); [lia|].
    by destruct (Z.ltb_spec (2 ^ 63 - 1) (signed (bool_decide (char_at s 0 = minus)) (stoi 0 ds))); [lia|].
Qed.

(** The bytes a cast is about. *)
Definition text (s : str) (count : nat) : str := if decide (count = 0%nat) then s else take count s.

(** A conversion between its checks, the same for all types. *)
Definition raw (u : bool) (s : str) (count : nat) : option Z :=
  _ ← (if u then inner_lexical_cast_string_prechecku s count
       else inner_lexical_cast_string_precheck s count);
  let '(v, pos, erange) := strntox (conv u) s count in
  _ ← inner_lexical_cast_string_aftcheck s pos count erange; Some v.

Lemma precheck_ok (s : str) count :
  is_Some (inner_lexical_cast_string_precheck s count) ↔
  isspace (char_at s 0) = false ∧ (count ≤ length s)%nat.
Proof.
  unfold inner_lexical_cast_string_precheck. destruct (isspace (char_at s 0)).
  { split; [by intros [? ?]|by intros [? _]]. }
  destruct (Nat.ltb_spec 0 count), (Nat.ltb_spec (length s) count); cbn [andb];
    (split; [intros [? [=]]; by split; [|lia]|intros [_ ?]; first [by eexists|lia]]).
Qed.

Lemma pre_ok (u : bool) (s : str) count :
  is_Some (if u then inner_lexical_cast_string_prechecku s count
           else inner_lexical_cast_string_precheck s count) ↔
  isspace (char_at s 0) = false ∧ (count ≤ length s)%nat ∧ (u = true → char_at s 0 ≠ minus).
Proof.
  destruct u; [|rewrite precheck_ok; naive_solver]. unfold inner_lexical_cast_string_prechecku.
  rewrite (assoc and), <- precheck_ok.
  destruct (inner_lexical_cast_string_precheck s count) as [[]|]; cbn [mbind option_bind].
  - case_decide as E; (split; [|naive_solver]); [by intros [? ?]|by intros _].
  - split; [by intros [? ?]|by intros [[? ?] _]].
Qed.

(** The end pointer is where it should be exactly when all of the text was converted. *)
Lemma strntox_text u s count v pos erange :
  Byte.x00 ∉ s → isspace (char_at s 0) = false → (count ≤ length s)%nat →
  (u = true → char_at s 0 ≠ minus) → strntox (conv u) s count = (v, pos, erange) →
  is_Some (inner_lexical_cast_string_aftcheck s pos count erange) →
  numeral (text s count) v ∧ range u v.
Proof.
  intros Hz Hs Hlen Hu Hc. unfold inner_lexical_cast_string_aftcheck, text, strntox in *.
  destruct (decide (pos = 0%nat)) as [|Hp]; [by intros [? ?]|].
  destruct (Nat.ltb_spec 0 count); cbn [andb] in Hc.
  - rewrite decide_False by lia. replace (count =? 0)%nat with false by (symmetry; apply Nat.eqb_neq; lia).
    cbn [andb orb]. destruct (Nat.eqb_spec pos count) as [->|]; [cbn|by intros [? ?]].
    destruct erange; [by intros [? ?]|]. intros _.
    assert (H0 : char_at (take count s) 0 = char_at s 0) by (unfold char_at; by rewrite lookup_take_lt by lia).
    assert (Hc2 : conv u (take count s) = (v, count, false)).
    { rewrite c_str_id in Hc by (intros (?&?&?)%elem_of_take; by eapply Hz, list_elem_of_lookup_2).
      destruct (isspace (char_at s count)) eqn:Hsp; cbn [negb andb] in Hc.
      { rewrite conv_cut by (try done; unfold isspace, isdigit in *; lia). done. }
      case_bool_decide as Hnul; cbn [negb] in Hc; [|done]. rewrite conv_cut; [done..|by rewrite Hnul]. }
    apply conv_sound in Hc2; [|by rewrite ?H0..|lia]. destruct Hc2 as (Hn&Hr&_).
    by rewrite take_take, Nat.min_id in Hn.
  - assert (count = 0%nat) as -> by lia. rewrite decide_True by done. cbn [Nat.eqb andb orb].
    case_bool_decide as Hnul; [cbn [negb]|by intros [? ?]]. destruct erange; [by intros [? ?]|]. intros _.
    apply conv_sound in Hc; [|done..]. destruct Hc as (Hn&Hr&Hle).
    apply char_at_zero in Hnul; [|done]. by rewrite take_ge in Hn by lia.
Qed.

Lemma strntox_complete u s count v :
  Byte.x00 ∉ s → (count ≤ length s)%nat → numeral (text s count) v → range u v →
  (u = true → char_at s 0 ≠ minus) →
  isspace (char_at s 0) = false ∧
  ∃ pos, strntox (conv u) s count = (v, pos, false) ∧
    inner_lexical_cast_string_aftcheck s pos count false = Some ().
Proof.
  intros Hz Hlen Hn Hr Hu. pose proof (numeral_shape _ _ Hn) as (Hs&Hne&_). revert Hn Hs Hne.
  unfold text, strntox, inner_lexical_cast_string_aftcheck. destruct (Nat.ltb_spec 0 count) as [Hcnt|Hcnt].
  - rewrite decide_False by lia. intros Hn Hs Hne.
    assert (H0 : char_at (take count s) 0 = char_at s 0) by (unfold char_at; by rewrite lookup_take_lt by lia).
    rewrite H0 in Hs. split; [done|]. exists count.
    apply (conv_complete u) in Hn; [|done|by rewrite H0]. rewrite length_take_le in Hn by done.
    replace (count =? 0)%nat with false by (symmetry; apply Nat.eqb_neq; lia).
    rewrite decide_False, Nat.eqb_refl by lia. split; [|done]. cbn [andb].
    rewrite c_str_id by (intros (?&?&?)%elem_of_take; by eapply Hz, list_elem_of_lookup_2).
    destruct (isspace (char_at s count)) eqn:Hsp; cbn [negb andb].
    { rewrite <- (conv_cut u s count) by (try done; unfold isspace, isdigit in *; lia). done. }
    case_bool_decide as Hnul; cbn [negb]; [|done]. rewrite <- (conv_cut u s count); [done..|by rewrite Hnul].
  - assert (count = 0%nat) as -> by lia. rewrite decide_True by done. intros Hn Hs Hne. split; [done|].
    exists (length s). apply (conv_complete u) in Hn; [|done|done]. split; [done|].
    rewrite decide_False by (destruct s; [done|cbn; lia]). cbn [Nat.eqb andb orb].
    rewrite bool_decide_true; [done|]. by apply char_at_zero.
Qed.

Lemma raw_spec u s count v :
  Byte.x00 ∉ s →
  raw u s count = Some v ↔
    (count ≤ length s)%nat ∧ numeral (text s count) v ∧ range u v ∧ (u = true → char_at s 0 ≠ minus).
Proof.
  intros Hz. unfold raw. rewrite bind_Some. split.
  - intros (x&Hpre&Hc). destruct (proj1 (pre_ok u s count)) as (Hs&Hlen&Hu); [by eexists|].
    destruct (strntox (conv u) s count) as [[w pos] erange] eqn:Hx.
    apply bind_Some in Hc as (y&Haft&[= ->]).
    edestruct (strntox_text u s count v pos erange) as [Hn Hr]; [done..|by eexists|done].
  - intros (Hlen&Hn&Hr&Hu). destruct (strntox_complete u s count v) as (Hs&pos&Hx&Haft); [done..|].
    destruct (proj2 (pre_ok u s count)) as [x Hpre]; [done|]. exists x. split; [done|].
    rewrite Hx. by rewrite Haft.
Qed.

#[global] Instance checked_dec T v : Decision (checked T v).
Proof. destruct T; cbn; unfold in_signed; apply _. Defined.

Lemma range_check_iff min max v (P : Prop) `{!Decision P} :
  (min ≤ v ≤ max ↔ P) →
  (_ ← inner_lexical_cast_range_check min max v; Some v) = if decide P then Some v else None.
Proof.
  intros HP. unfold inner_lexical_cast_range_check.
  destruct (Z.ltb_spec v min), (Z.ltb_spec max v), (decide P) as [Hp|Hp]; cbn; try done; exfalso;
    rewrite <- HP in Hp; lia.
Qed.

Lemma i32_range v : - 2 ^ 31 ≤ i32 v < 2 ^ 31.
Proof. apply (swrap_range 32 v). lia. Qed.
Lemma u32_range v : 0 ≤ u32 v < 2 ^ 32.
Proof. apply (wrap_range 32 v). lia. Qed.

Lemma inner_raw T s count :
  inner_lexical_cast T s count =
  v ← raw (is_unsigned T) s count;
  if decide (checked T (narrow T v)) then Some (narrow T v) else None.
Proof.
  unfold inner_lexical_cast, raw.
  destruct T; cbn [is_unsigned]; destruct (_ s count) as [[]|]; cbn [mbind option_bind]; try done;
    unfold conv; destruct (strntox _ s count) as [[v pos] er]; cbn [mbind option_bind];
    try (destruct (inner_lexical_cast_string_aftcheck _ _ _ _); cbn [mbind option_bind]; [|try done]);
    cbn [narrow]; pose proof (i32_range v); pose proof (u32_range v);
    try (apply range_check_iff; cbn [checked]; unfold in_signed; lia).
  all: try by rewrite decide_True.
  by destruct (inner_lexical_cast_range_check _ _ _).
Qed.

(** *** [std::to_string] *)
Lemma isdigit_digit z : 0 ≤ z < 10 → isdigit (digit z) = true.
Proof. intros. unfold isdigit. rewrite unsigned_digit by done. lia. Qed.

Lemma digits_numeral fuel : ∀ z, 0 ≤ z < 10 ^ Z.of_nat fuel → (0 < fuel)%nat →
  digits fuel z ≠ [] ∧ Forall (λ c, isdigit c = true) (digits fuel z) ∧ stoi 0 (digits fuel z) = z.
Proof.
  induction fuel as [|fuel IH]; intros z Hz Hf; [lia|]. cbn [digits]. rewrite pow10 in Hz.
  destruct (Z.ltb_spec z 10).
  - split; [done|]. split; [constructor; [apply isdigit_digit; lia|done]|].
    cbn [stoi]. rewrite unsigned_digit by lia. lia.
  - assert (0 ≤ z mod 10 < 10) by (apply Z.mod_pos_bound; lia).
    assert (Hq : 0 ≤ z / 10 < 10 ^ Z.of_nat fuel)
      by (split; [apply Z.div_pos|apply Z.div_lt_upper_bound]; lia).
    destruct fuel as [|fuel]; [cbn in Hz; lia|]. destruct (IH (z / 10) Hq) as (_&Hd&He); [lia|].
    split; [intros E; by apply app_nil in E as [_ ?]|]. split.
    + apply Forall_app. split; [done|]. constructor; [apply isdigit_digit; lia|done].
    + rewrite stoi_app, He. cbn [stoi]. rewrite unsigned_digit by done. pose proof (Z.div_mod z 10). lia.
Qed.

Lemma to_string_numeral z : - 10 ^ 20 < z < 10 ^ 20 → numeral (to_string z) z.
Proof.
  intros Hz. unfold to_string. destruct (Z.ltb_spec z 0).
  - destruct (digits_numeral 20 (- z)) as (Hn&Hd&He); [cbn; lia|lia|].
    rewrite <- (Z.opp_involutive z) at 2. rewrite <- He at 2. by apply num_minus.
  - destruct (digits_numeral 20 z) as (Hn&Hd&He); [cbn; lia|lia|].
    rewrite <- He at 2. by apply num_digits.
Qed.

Lemma numeral_bytes s z c : numeral s z → c ∈ s → isdigit c = true ∨ c = plus ∨ c = minus.
Proof.
  intros [ds _ Hd|ds _ Hd|ds _ Hd] Hc; try (apply elem_of_cons in Hc as [->|Hc]; [by auto|]);
    left; by eapply Forall_forall in Hd.
Qed.

Lemma numeral_zero_free s z : numeral s z → Byte.x00 ∉ s.
Proof. intros Hn Hc. by destruct (numeral_bytes s z _ Hn Hc) as [|[|]]. Qed.

Lemma to_string_not_minus z : 0 ≤ z < 10 ^ 20 → char_at (to_string z) 0 ≠ minus.
Proof.
  intros Hz. unfold to_string. destruct (Z.ltb_spec z 0); [lia|].
  destruct (digits_numeral 20 z) as (Hne&Hd&_); [cbn; lia|lia|].
  destruct (digits 20 z) as [|c ds]; [done|]. apply Forall_cons in Hd as [Hc _].
  by apply digit_plain in Hc as [? _].
Qed.

Lemma fits_parsed T z : fits T z → parsed T z ∧ narrow T z = z ∧ checked T z.
Proof.
  destruct T; cbn; unfold parsed, in_unsigned, in_signed; cbn [is_unsigned]; unfold in_signed; intros;
    (split; [lia|]; split; [|lia || done]);
    first [done | apply wrap_small; unfold in_unsigned; lia | apply swrap_small; [lia|unfold in_signed; lia]].
Qed.

Lemma to_string_zero_free z : - 10 ^ 20 < z < 10 ^ 20 → Byte.x00 ∉ to_string z.
Proof. intros. by eapply numeral_zero_free, to_string_numeral. Qed.

Lemma pico_lexical_cast_spec T s count v :
  pico_lexical_cast T s count = Some v ↔
  ∃ z, (count ≤ length (c_str s))%nat ∧ numeral (text (c_str s) count) z ∧ parsed T z ∧
    (is_unsigned T = true → char_at (c_str s) 0 ≠ minus) ∧ v = narrow T z ∧ checked T v.
Proof.
  unfold pico_lexical_cast. rewrite inner_raw, bind_Some. setoid_rewrite raw_spec; [|apply c_str_zero].
  unfold parsed. fold (range (is_unsigned T)). split.
  - intros (z&(Hl&Hn&Hr&Hu)&Hv). exists z. case_decide; [|done]. injection Hv as <-. done.
  - intros (z&Hl&Hn&Hr&Hu&->&Hc). exists z. split; [done|]. by rewrite decide_True.
Qed.

(** The number that was written is read back. *)
Lemma lexical_cast_to_string T z : fits T z → pico_lexical_cast_check T (to_string z) 0 = Ok z.
Proof.
  intros Hf. destruct (fits_parsed T z Hf) as (Hp&Hnar&Hch).
  assert (Hz : - 10 ^ 20 < z < 10 ^ 20)
    by (destruct T; unfold parsed, in_signed in Hp; cbn [is_unsigned] in Hp; lia).
  unfold pico_lexical_cast_check, pico_lexical_cast_to.
  assert (pico_lexical_cast T (to_string z) 0 = Some z) as ->; [|done].
  apply pico_lexical_cast_spec. exists z. rewrite c_str_id by by apply to_string_zero_free.
  split; [lia|]. split; [by apply to_string_numeral|]. split; [done|]. split; [|done].
  intros Hu. apply to_string_not_minus. unfold parsed in Hp. rewrite Hu in Hp. lia.
Qed.

(** ** Properties *)

(** C17: what a cast from text to an integer accepts and returns.  It succeeds exactly on
    the texts that are an optional sign and digits, with nothing before or after them
    (the first [count] bytes, or the whole string when [count] is zero), without a minus
    for the unsigned types, whose value the C function can represent in 64 bits; the
    value is then cut to 32 bits for the smaller types, and the range of the 8-bit and
    16-bit types is checked after that.  So every number that fits into the type is
    converted to itself, and what [std::to_string] printed is read back. *)
Theorem lexical_cast_exact (T : cast_type) (s : str) (count : nat) :
  (∀ v, pico_lexical_cast T s count = Some v ↔
     ∃ z, (count ≤ length (c_str s))%nat ∧ numeral (text (c_str s) count) z ∧ parsed T z ∧
       (is_unsigned T = true → char_at (c_str s) 0 ≠ minus) ∧ v = narrow T z ∧ checked T v) ∧
  (∀ z, (count ≤ length (c_str s))%nat → numeral (text (c_str s) count) z → fits T z →
     (is_unsigned T = true → char_at (c_str s) 0 ≠ minus) → pico_lexical_cast T s count = Some z) ∧
  (∀ z, fits T z → pico_lexical_cast_check T (to_string z) 0 = Ok z).
Proof.
  split; [intros v; apply pico_lexical_cast_spec|]. split; [|apply lexical_cast_to_string].
  intros z Hl Hn Hf Hu. apply pico_lexical_cast_spec. exists z.
  destruct (fits_parsed T z Hf) as (Hp&Hnar&Hch). done.
Qed.

(** Numbers that do not fit may be accepted: the value is cut to 32 bits before the range
    of the 8-bit and 16-bit types is checked, and the 32-bit types are not checked. *)
Example lexical_cast_truncates :
  pico_lexical_cast int8_t (lit "4294967297") 0 = Some 1 ∧
  pico_lexical_cast uint16_t (lit "4294967296") 0 = Some 0 ∧
  pico_lexical_cast int32_t (lit "2147483648") 0 = Some (- 2 ^ 31) ∧
  pico_lexical_cast uint8_t (lit "256") 0 = None ∧
  pico_lexical_cast int64_t (lit "9223372036854775808") 0 = None.
Proof. vm_compute. auto. Qed.

Example lexical_cast_texts :
  pico_lexical_cast int32_t (lit "-12x") 0 = None ∧ pico_lexical_cast int32_t (lit "-12x") 3 = Some (-12) ∧
  pico_lexical_cast uint32_t (lit "+7") 0 = Some 7 ∧ pico_lexical_cast uint32_t (lit "-7") 0 = None ∧
  pico_lexical_cast int32_t (lit " 7") 0 = None ∧ pico_lexical_cast int32_t [] 0 = None ∧
  (∀ b, inner_lexical_cast_bool (bool_to_string b) 0 = Some b).
Proof. repeat apply conj; try (vm_compute; reflexivity). intros []; vm_compute; reflexivity. Qed.
