(* ===== verification/Nodes.v ===== *)
(** * The node operations as functions on the tree

    Locks.v proves what the lock needs of [tree_node_add] and its relatives.  Here each
    of them (src/src/rpc/MasterClient.cpp) is an equation: what it returns and what the
    tree is afterwards, values included, on every branch.  The protocols built from them
    then are programs on trees.  [frame] says which part of the tree a program leaves
    alone. *)
From S2P Require Import Prelude Archive Serialize LazyArchive Message Master MasterClient Locks.
Import TcpMasterClient.

(** ** The operations on the tree *)
Definition node (t : tree) (p : str) : option (option sock * str) := t_nodes t !! p.

Definition owner_of (c : sock) (ephemeral : bool) : option sock := if ephemeral then Some c else None.

Definition t_add (t : tree) (c : sock) (p v : str) (e : bool) : tree * bool :=
  match node t (parent_of p), node t p with
  | Some (None, _), None => (Tree (<[p := (owner_of c e, v)]> (t_nodes t)) (t_gen t), true)
  | _, _ => (t, false)
  end.

Definition t_set (t : tree) (p v : str) : tree * bool :=
  match node t p with
  | Some (o, _) => (Tree (<[p := (o, v)]> (t_nodes t)) (t_gen t), true)
  | None => (t, false)
  end.

Definition t_get (t : tree) (p buf : str) : bool * str :=
  match node t p with Some (_, v) => (true, v) | None => (false, buf) end.

Definition t_del (t : tree) (p : str) : tree * bool :=
  match node t p with
  | Some _ =>
      if decide (children_of (t_nodes t) p = ∅)
      then (Tree (delete p (t_nodes t)) (delete p (t_gen t)), true)
      else (t, false)
  | None => (t, false)
  end.

Definition t_sub (t : tree) (p : str) (l : list str) : bool * list str :=
  match node t p with
  | Some _ => (true, in_order (children_of (t_nodes t) p))
  | None => (false, l)
  end.

(** The name is empty when there is no such node or the name is taken. *)
Definition t_new (t : tree) (c : sock) (p v : str) (e : bool) : tree * str :=
  match node t p with
  | Some (None, _) =>
      let n := counter t p in
      let gen := <[p := i32 (n + 1)]> (t_gen t) in
      match node t (child p (gen_key n)) with
      | Some _ => (Tree (t_nodes t) gen, [])
      | None => (Tree (<[child p (gen_key n) := (owner_of c e, v)]> (t_nodes t)) gen, gen_key n)
      end
  | _ => (t, [])
  end.

Definition t_drop (t : tree) (c : sock) : tree :=
  Tree (filter (λ pn, pn.2.1 ≠ Some c) (t_nodes t)) (t_gen t).

(** ** The calls compute them *)
Section calls.
Context {S : Type} `{!MasterService S} (root : str).

(** The root has been created by an earlier request. *)
Record live (s : S) : Prop := {
  live_good : ms_good s;
  live_root : is_Some (node (ms_view s) []);
}.

Definition path_ok (p : str) : Prop :=
  master_check_valid_path p = true ∧ Z.of_nat (length p) < 2 ^ 64.
Definition value_ok (v : str) : Prop := Z.of_nat (length v) < 2 ^ 64.

Lemma rooted t : is_Some (node t []) → t_root t = t.
Proof. intros [x Hx]. unfold t_root. unfold node in Hx. by rewrite Hx. Qed.

Lemma spec_keeps_root t c r : is_Some (node t []) → r ≠ Finalize → is_Some (node (spec_op t c r).1.1 []).
Proof.
  intros Ht Hr. unfold node in *. destruct r; cbn [spec_op]; repeat case_match; try done; cbn [fst t_nodes];
    try (rewrite lookup_insert_is_Some'; by right).
  rewrite lookup_delete_ne; [done|]. by apply valid_ne.
Qed.

Lemma node_call s c f :
  live s → path_ok (method_path f) → value_ok (method_value f) → gen_room (ms_view s) f →
  ∃ s' resp ch, retry 1 s c f = Ok (s', (result_of resp).1, (result_of resp).2) ∧ live s' ∧
    spec_op (ms_view s) c (request_of f) = (ms_view s', resp, ch).
Proof.
  intros [Hs Hr] [Hv Hl] Hval Hroom.
  destruct (retry_spec s c f Hs Hv) as (s'&resp&ch&Hc&Hs'&Hsp); [by apply str_ok_lt..|done|].
  rewrite rooted in Hsp by done. exists s', resp, ch. split; [done|]. split; [|done].
  split; [done|]. pose proof (spec_keeps_root (ms_view s) c (request_of f) Hr) as Hk.
  rewrite Hsp in Hk. apply Hk. by destruct f.
Qed.

Ltac answer_cases :=
  repeat case_match; simplify_eq;
  repeat match goal with H : (result_of _).2 = _ |- _ =>
    cbn [result_of v_status v_string v_strings snd] in H; simplify_eq end; done.

Lemma tree_node_add_eq s c path v e :
  live s → path_ok (root ++ path) → value_ok v →
  ∃ s', tree_node_add root s c path v e = Ok (s', (t_add (ms_view s) c (root ++ path) v e).2) ∧ live s' ∧
    ms_view s' = (t_add (ms_view s) c (root ++ path) v e).1.
Proof.
  intros Hs Hp Hv. unfold tree_node_add, RETRY_MASTER_METHOD. rewrite (proj1 Hp). step_ok.
  destruct (node_call s c (master_add (root ++ path) v e) Hs Hp Hv) as (s'&resp&ch&->&Hs'&Hsp); [done|].
  step_ok. exists s'. cbn [request_of spec_op] in Hsp. rewrite (proj1 Hp) in Hsp. unfold t_add, node in *.
  answer_cases.
Qed.

Lemma tree_node_set_eq s c path v :
  live s → path_ok (root ++ path) → value_ok v →
  ∃ s', tree_node_set root s c path v = Ok (s', (t_set (ms_view s) (root ++ path) v).2) ∧ live s' ∧
    ms_view s' = (t_set (ms_view s) (root ++ path) v).1.
Proof.
  intros Hs Hp Hv. unfold tree_node_set, RETRY_MASTER_METHOD. rewrite (proj1 Hp). step_ok.
  destruct (node_call s c (master_set (root ++ path) v) Hs Hp Hv) as (s'&resp&ch&->&Hs'&Hsp); [done|].
  step_ok. exists s'. cbn [request_of spec_op] in Hsp. rewrite (proj1 Hp) in Hsp. unfold t_set, node in *.
  answer_cases.
Qed.

Lemma tree_node_get_eq s c path buf :
  live s → path_ok (root ++ path) → value_ok buf →
  ∃ s', tree_node_get root s c path buf =
      Ok (s', (t_get (ms_view s) (root ++ path) buf).1, (t_get (ms_view s) (root ++ path) buf).2) ∧
    live s' ∧ ms_view s' = ms_view s.
Proof.
  intros Hs Hp Hv. unfold tree_node_get, RETRY_MASTER_METHOD. rewrite (proj1 Hp). step_ok.
  destruct (node_call s c (master_get (root ++ path) buf) Hs Hp Hv) as (s'&resp&ch&->&Hs'&Hsp); [done|].
  step_ok. exists s'. cbn [request_of spec_op] in Hsp. rewrite (proj1 Hp) in Hsp. unfold t_get, node in *.
  answer_cases.
Qed.

Lemma tree_node_del_eq s c path :
  live s → path_ok (root ++ path) →
  ∃ s', tree_node_del root s c path = Ok (s', (t_del (ms_view s) (root ++ path)).2) ∧ live s' ∧
    ms_view s' = (t_del (ms_view s) (root ++ path)).1.
Proof.
  intros Hs Hp. unfold tree_node_del, RETRY_MASTER_METHOD. rewrite (proj1 Hp). step_ok.
  destruct (node_call s c (master_del (root ++ path)) Hs Hp) as (s'&resp&ch&->&Hs'&Hsp); [done..|].
  step_ok. exists s'. cbn [request_of spec_op] in Hsp. rewrite (proj1 Hp) in Hsp. unfold t_del, node in *.
  answer_cases.
Qed.

Lemma tree_node_sub_eq s c path l :
  live s → path_ok (root ++ path) →
  ∃ s', tree_node_sub root s c path l =
      Ok (s', (t_sub (ms_view s) (root ++ path) l).1, (t_sub (ms_view s) (root ++ path) l).2) ∧
    live s' ∧ ms_view s' = ms_view s.
Proof.
  intros Hs Hp. unfold tree_node_sub, RETRY_MASTER_METHOD. rewrite (proj1 Hp). step_ok.
  destruct (node_call s c (master_sub (root ++ path)) Hs Hp) as (s'&resp&ch&->&Hs'&Hsp); [done..|].
  step_ok. exists s'. cbn [request_of spec_op] in Hsp. rewrite (proj1 Hp) in Hsp. unfold t_sub, node in *.
  answer_cases.
Qed.

Lemma tree_node_gen_eq s c path v e :
  live s → path_ok (root ++ path) → value_ok v → 0 ≤ counter (ms_view s) (root ++ path) < 2 ^ 31 - 1 →
  ∃ s', tree_node_gen root s c path v e = Ok (s', (t_new (ms_view s) c (root ++ path) v e).2) ∧ live s' ∧
    ms_view s' = (t_new (ms_view s) c (root ++ path) v e).1.
Proof.
  intros Hs Hp Hv Hroom. unfold tree_node_gen. rewrite (proj1 Hp). step_ok.
  destruct (node_call s c (master_gen (root ++ path) v e) Hs Hp Hv Hroom) as (s'&resp&ch&->&Hs'&Hsp).
  step_ok. exists s'. cbn [request_of spec_op] in Hsp. rewrite (proj1 Hp) in Hsp. cbn zeta in Hsp.
  fold (counter (ms_view s) (root ++ path)) in Hsp. rewrite length_gen_key in Hsp by lia.
  cbn [Nat.ltb Nat.leb] in Hsp. unfold t_new, node in *. cbn zeta.
  answer_cases.
Qed.

Lemma ms_drop_eq s c : live s → ∃ s', ms_drop s c = Ok s' ∧ ms_good s' ∧ ms_view s' = t_drop (ms_view s) c.
Proof.
  intros [Hs _]. destruct (ms_drop_spec s c Hs) as (s'&ch&Hd&Hs'&Hsp). exists s'.
  split; [done|]. split; [done|]. cbn [spec_op] in Hsp. by injection Hsp as <- _.
Qed.
End calls.

(** ** Parts of the tree *)

(** [q] lies below [D]. *)
Definition under (D q : str) : Prop := ∃ r, q = D ++ slash :: r.

Lemma under_child D k : under D (child D k).
Proof. by exists k. Qed.
Lemma under_grandchild D q k : under D q → under D (child q k).
Proof. intros [r ->]. exists (r ++ slash :: k). unfold child. by rewrite <- app_assoc. Qed.
#[export] Hint Resolve under_child under_grandchild : prpc.

Lemma not_under_self D : ¬ under D D.
Proof. intros [r E]. apply (f_equal length) in E. len. Qed.

(** Nodes below different nodes with the same parent. *)
Lemma segment_inj (a b r r' : str) :
  slash ∉ a → slash ∉ b → a ++ slash :: r = b ++ slash :: r' → a = b.
Proof.
  revert b. induction a as [|c a IH]; intros [|d b] Ha Hb E; cbn in E; simplify_eq; try done.
  - by rewrite not_elem_of_cons in Hb; destruct Hb.
  - by rewrite not_elem_of_cons in Ha; destruct Ha.
  - rewrite not_elem_of_cons in Ha, Hb. f_equal. apply IH; naive_solver.
Qed.

Lemma under_disjoint (root a b q : str) :
  slash ∉ a → slash ∉ b → a ≠ b → under (root ++ a) q → ¬ under (root ++ b) q.
Proof.
  intros Ha Hb Hab [r ->] [r' E]. rewrite <- !app_assoc in E. apply app_inv_head in E.
  by apply segment_inj in E.
Qed.

Lemma not_under_sibling (root a b : str) : slash ∉ b → ¬ under (root ++ a) (root ++ b).
Proof.
  intros Hb [r E]. rewrite <- app_assoc in E. apply app_inv_head in E. subst b.
  rewrite not_elem_of_app, not_elem_of_cons in Hb. naive_solver.
Qed.

(** Only nodes and counters below [D] differ. *)
Definition frame (D : str) (t t' : tree) : Prop :=
  ∀ q, ¬ under D q → node t' q = node t q ∧ counter t' q = counter t q.

#[global] Instance frame_refl D : Reflexive (frame D).
Proof. by intros t q. Qed.
#[global] Instance frame_trans D : Transitive (frame D).
Proof. intros t1 t2 t3 H1 H2 q Hq. destruct (H1 q Hq), (H2 q Hq). split; congruence. Qed.

Section frames.
Context (D : str) (t : tree) (c : sock).

Lemma add_frame p v e : under D p → frame D t (t_add t c p v e).1.
Proof.
  intros Hp q Hq. unfold t_add, node. repeat case_match; try done. cbn [fst t_nodes].
  rewrite lookup_insert_ne by congruence. done.
Qed.

Lemma new_frame p v e : under D p → frame D t (t_new t c p v e).1.
Proof.
  intros Hp q Hq. unfold t_new, node, counter. repeat case_match; try done; cbn [fst t_nodes t_gen];
    rewrite ?lookup_insert_ne by (intros <-; by auto with prpc); done.
Qed.

Lemma del_frame p : under D p → frame D t (t_del t p).1.
Proof.
  intros Hp q Hq. unfold t_del, node, counter. repeat case_match; try done; cbn [fst t_nodes t_gen];
    rewrite ?lookup_delete_ne by congruence; done.
Qed.

Lemma add_new p v e o :
  node t (parent_of p) = Some (None, o) → node t p = None →
  t_add t c p v e = (Tree (<[p := (owner_of c e, v)]> (t_nodes t)) (t_gen t), true).
Proof. intros Hp Hn. unfold t_add. by rewrite Hp, Hn. Qed.

Lemma add_old p v e : is_Some (node t p) → t_add t c p v e = (t, false).
Proof. intros [x Hx]. unfold t_add. rewrite Hx. by destruct (node t (parent_of p)) as [[[]]|]. Qed.

Lemma node_insert p x g q : node (Tree (<[p := x]> (t_nodes t)) g) q = if decide (p = q) then Some x else node t q.
Proof. unfold node. cbn [t_nodes]. rewrite lookup_insert. by case_decide. Qed.

Lemma node_delete p g q : node (Tree (delete p (t_nodes t)) g) q = if decide (p = q) then None else node t q.
Proof. unfold node. cbn [t_nodes]. rewrite lookup_delete. by case_decide. Qed.

Lemma node_drop q :
  node (t_drop t c) q = match node t q with Some (o, v) => if decide (o = Some c) then None else Some (o, v) | None => None end.
Proof.
  unfold node, t_drop. cbn [t_nodes]. destruct (t_nodes t !! q) as [[o v]|] eqn:E.
  - case_decide as Ho.
    + apply map_lookup_filter_None. right. intros x Hx. naive_solver.
    + by apply map_lookup_filter_Some.
  - apply map_lookup_filter_None. by left.
Qed.

Lemma elem_children p k :
  slash ∈ p → k ∈ children_of (t_nodes t) p ↔ slash ∉ k ∧ is_Some (node t (child p k)).
Proof. intros Hp. rewrite elem_of_children by done. unfold own. by rewrite fmap_is_Some. Qed.
End frames.

Lemma path_split (root a b : str) : root ++ a ++ [slash] ++ b = child (root ++ a) b.
Proof. unfold child. by rewrite <- app_assoc. Qed.

Lemma path_slash p : path_ok p → slash ∈ p.
Proof. intros [Hv _]. by apply valid_slash. Qed.

Lemma path_ok_child p k :
  path_ok p → good_key k → Z.of_nat (length p + length k) + 1 < 2 ^ 64 → path_ok (child p k).
Proof.
  intros [Hv Hl] Hk Hlen. split; [apply valid_child; [by right|done]|]. unfold child. len.
Qed.
