(* ===== verification/FairQueue.v ===== *)
(** * The fair queue of a service

    [FairQueue] of src/src/rpc/RpcContext.h and src/src/rpc/RpcContext.cpp, and the part
    of [RpcContext::push_request] that chooses a dealer.

    A fair queue holds, for every server of a service in this process, the dealers that
    take its requests in turn, and the requests that wait while a server has none.
    Dealers are addresses.  The functions run under the context's lock and are one step
    each; the caches are the lists that Queue.v shows [MpscQueue] to be. *)
From S2P Require Import Prelude Archive Serialize LazyArchive Message.
#[local] Open Scope Z_scope.

Section fair_queue.
Context {B : Type}.

(** A request or response: its head and what is streamed in it. *)
Record pkt := Pkt { hd : rpc_head_t; body : B }.

(** ** [FairQueue] *)
Record FairQueue := MkFairQueue {
  _sid2dealers : gmap Z (list nat);
  _sids : list Z;
  _sids_rr_index : Z;
  _dealer_id_rr_index : Z;
  _sid2cache : gmap Z (list pkt);
}.

(** The members [FairQueue() {}] leaves uninitialized have any value. *)
Definition FairQueue_ (rr drr : Z) : FairQueue := MkFairQueue ∅ [] rr drr ∅.

Definition with_dealers (q : FairQueue) d s :=
  MkFairQueue d s (_sids_rr_index q) (_dealer_id_rr_index q) (_sid2cache q).
Definition with_cache (q : FairQueue) c :=
  MkFairQueue (_sid2dealers q) (_sids q) (_sids_rr_index q) (_dealer_id_rr_index q) c.
Definition with_rr (q : FairQueue) r :=
  MkFairQueue (_sid2dealers q) (_sids q) r (_dealer_id_rr_index q) (_sid2cache q).
Definition with_drr (q : FairQueue) r :=
  MkFairQueue (_sid2dealers q) (_sids q) (_sids_rr_index q) r (_sid2cache q).

Definition add_server (q : FairQueue) (sid : Z) : result FairQueue :=
  match _sid2cache q !! sid with
  | Some _ => Abort
  | None => Ok (with_cache q (<[sid := []]> (_sid2cache q)))
  end.

Definition remove_server (q : FairQueue) (sid : Z) : result FairQueue :=
  match _sid2cache q !! sid with
  | None => Abort
  | Some _ => Ok (with_cache q (delete sid (_sid2cache q)))
  end.

(** The second component: the cached requests, pushed to the new dealer in order. *)
Definition add_server_dealer (q : FairQueue) (sid : Z) (dealer : nat) : FairQueue * list pkt :=
  let q := with_dealers q (<[sid := default [] (_sid2dealers q !! sid) ++ [dealer]]> (_sid2dealers q))
             (_sids q ++ [sid]) in
  match _sid2cache q !! sid with
  | Some reqs => (with_cache q (<[sid := []]> (_sid2cache q)), reqs)
  | None => (q, [])
  end.

(** [v[i] = std::move(v.back()); v.pop_back()]. *)
Definition swap_pop {A} (i : nat) (l : list A) : list A :=
  match last l with
  | Some x => take (length l - 1) (<[i := x]> l)
  | None => l
  end.

(** The first loop of [remove_server_dealer], from index [i]. *)
Fixpoint remove_dealers (fuel i : nat) (l : list nat) (dealer : nat) : list nat :=
  match fuel with
  | O => l
  | S fuel =>
      match l !! i with
      | None => l
      | Some d => remove_dealers fuel (S i) (if decide (d = dealer) then swap_pop i l else l) dealer
      end
  end.

(** The second loop: the first occurrence only. *)
Fixpoint find_sid (i : nat) (l : list Z) (sid : Z) : option nat :=
  match l with
  | [] => None
  | s :: l => if decide (s = sid) then Some i else find_sid (S i) l sid
  end.

Definition remove_sid (l : list Z) (sid : Z) : list Z :=
  match find_sid 0 l sid with Some i => swap_pop i l | None => l end.

Definition remove_server_dealer (q : FairQueue) (sid : Z) (dealer : nat) : result FairQueue :=
  match _sid2dealers q !! sid with
  | None => Abort
  | Some ds =>
      let ds := remove_dealers (length ds) 0 ds dealer in
      let m := if decide (ds = []) then delete sid (_sid2dealers q)
               else <[sid := ds]> (_sid2dealers q) in
      Ok (with_dealers q m (remove_sid (_sids q) sid))
  end.

Definition fq_empty (q : FairQueue) : bool :=
  bool_decide (_sid2dealers q = ∅) && bool_decide (_sid2cache q = ∅).

(** [_sids[_sids_rr_index.fetch_add(1) % _sids.size()]]: the [int] is converted to
    [size_t]; the size is not 0 where this is called. *)
Definition next_sid (q : FairQueue) : FairQueue * option Z :=
  (with_rr q (i32 (_sids_rr_index q + 1)),
   _sids q !! Z.to_nat (u64 (_sids_rr_index q) mod Z.of_nat (length (_sids q)))).

(** [next(sid)] once the server is known. *)
Definition next_dealer (q : FairQueue) (sid : Z) : result (FairQueue * option nat) :=
  match _sid2dealers q !! sid with
  | None => Ok (q, None)
  | Some d =>
      _ ← SCHECK (negb (bool_decide (d = [])));
      let index := u64 (_dealer_id_rr_index q + 1) in
      let index := if Z.of_nat (length d) <=? index then 0 else index in
      Ok (with_drr q index, d !! Z.to_nat index)
  end.

Definition next (q : FairQueue) (sid : Z) : result (FairQueue * option nat) :=
  if sid =? -1 then
    match _sids q with
    | [] => Ok (q, None)
    | _ => let '(q, s) := next_sid q in
           match s with Some sid => next_dealer q sid | None => Abort end
    end
  else next_dealer q sid.

(** [next()]. *)
Definition next_any (q : FairQueue) : result (FairQueue * option nat) :=
  match _sids q with
  | [] => Abort
  | _ => let '(q, s) := next_sid q in
         match s with
         | Some sid => if decide (_sid2dealers q = ∅) then Ok (q, None) else next q sid
         | None => Abort
         end
  end.

(** The dealer that gets the request, if any, and whether the request was taken.
    [first] is the key of [_sid2cache.begin()]. *)
Definition fq_push_request (first : gmap Z (list pkt) → Z) (q : FairQueue) (sid : Z) (req : pkt)
    : result (FairQueue * option nat * bool) :=
  let push q sid :=
    match _sid2dealers q !! sid with
    | Some ds =>
        match last ds with Some d => Ok (q, Some d, true) | None => Abort end
    | None =>
        match _sid2cache q !! sid with
        | Some reqs => Ok (with_cache q (<[sid := reqs ++ [req]]> (_sid2cache q)), None, true)
        | None => Ok (q, None, false)
        end
    end in
  if sid =? -1 then
    if decide (_sid2cache q = ∅) then Ok (q, None, false)
    else match _sids q with
    | [] => push q (first (_sid2cache q))
    | _ => let '(q, s) := next_sid q in
           match s with Some sid => push q sid | None => Abort end
    end
  else push q sid.

(** The dealer that [push_request] chooses: the next one of the server, or the one (or
    the cache) that the fair queue falls back to. *)
Definition route (first : gmap Z (list pkt) → Z) (q : FairQueue) (req : pkt)
    : result (FairQueue * option nat * bool) :=
  '(q, d) ← next q (sid (hd req));
  match d with
  | None => fq_push_request first q (sid (hd req)) req
  | Some d => Ok (q, Some d, true)
  end.

(** ** Lists edited in place *)
Lemma swap_pop_perm {A} (l : list A) i x : l !! i = Some x → l ≡ₚ x :: swap_pop i l.
Proof.
  intros Hi. unfold swap_pop. destruct (last l) as [y|] eqn:Hl.
  2: { apply last_None in Hl. by subst. }
  apply last_Some in Hl as [l' ->]. rewrite length_app. cbn [length].
  replace (length l' + 1 - 1)%nat with (length l') by lia.
  destruct (decide (i < length l')%nat) as [Hlt|Hge].
  - rewrite lookup_app_l in Hi by done. rewrite insert_app_l by done.
    rewrite take_app_length' by by rewrite length_insert.
    apply list_elem_of_split_length in Hi as (l1&l2&->&Hi). rewrite Hi.
    rewrite insert_app_r_alt by lia. rewrite Nat.sub_diag. cbn.
    rewrite <- app_assoc. cbn. rewrite <- !Permutation_middle. f_equiv.
    by rewrite app_assoc, Permutation_app_comm.
  - assert (i = length l') as ->.
    { apply lookup_lt_Some in Hi. len. }
    rewrite list_lookup_middle in Hi by done. injection Hi as ->.
    rewrite insert_app_r_alt, Nat.sub_diag by lia. cbn. rewrite take_app_length.
    by rewrite Permutation_app_comm.
Qed.

Lemma remove_dealers_other fuel : ∀ i l d, d ∉ l → remove_dealers fuel i l d = l.
Proof.
  induction fuel as [|fuel IH]; intros i l d Hd; [done|]. cbn.
  destruct (l !! i) as [x|] eqn:Hi; [|done]. rewrite decide_False; [by apply IH|].
  intros ->. apply list_elem_of_lookup_2 in Hi. done.
Qed.

(** The loop removes a dealer that is listed once. *)
Lemma remove_dealers_perm fuel : ∀ i j l d,
  NoDup l → l !! j = Some d → (i ≤ j)%nat → (length l - i ≤ fuel)%nat →
  l ≡ₚ d :: remove_dealers fuel i l d.
Proof.
  induction fuel as [|fuel IH]; intros i j l d Hnd Hj Hij Hf.
  { apply lookup_lt_Some in Hj. lia. }
  cbn. pose proof (lookup_lt_Some _ _ _ Hj).
  destruct (lookup_lt_is_Some_2 l i) as [x Hi]; [lia|]. rewrite Hi. case_decide as E.
  - subst x. pose proof (swap_pop_perm l i d Hi) as Hp. rewrite remove_dealers_other; [done|].
    rewrite Hp in Hnd. by apply NoDup_cons in Hnd as [? _].
  - assert (i ≠ j) by (intros ->; congruence). eapply IH; [done|done|lia|lia].
Qed.

Lemma find_sid_spec l sid : ∀ i, match find_sid i l sid with
  | Some j => (i ≤ j)%nat ∧ l !! (j - i)%nat = Some sid
  | None => sid ∉ l
  end.
Proof.
  induction l as [|s l IH]; intros i; cbn; [apply not_elem_of_nil|].
  destruct (decide (s = sid)) as [->|Hne].
  - rewrite Nat.sub_diag. split; [lia|done].
  - specialize (IH (S i)). destruct (find_sid (S i) l sid) as [j|].
    + destruct IH as [Hj Hl]. split; [lia|]. replace (j - i)%nat with (S (j - S i)) by lia. done.
    + rewrite not_elem_of_cons. done.
Qed.

Lemma remove_sid_perm l sid : sid ∈ l → l ≡ₚ sid :: remove_sid l sid.
Proof.
  intros Hin. unfold remove_sid. pose proof (find_sid_spec l sid 0) as Hs.
  destruct (find_sid 0 l sid) as [j|]; [|done]. destruct Hs as [_ Hj].
  rewrite Nat.sub_0_r in Hj. by apply swap_pop_perm.
Qed.

(** ** The fair queue as a dispatcher *)

(** The requests that wait in the caches. *)
Definition cached (m : gmap Z (list pkt)) : list pkt := map_to_list m ≫= snd.

Lemma cached_lookup m i x : m !! i = Some x → cached m ≡ₚ x ++ cached (delete i m).
Proof. intros Hi. unfold cached. by rewrite <- (map_to_list_delete m i x Hi). Qed.

Lemma cached_insert m i x y : m !! i = Some y → cached (<[i := x]> m) ≡ₚ x ++ cached (delete i m).
Proof. intros Hi. rewrite (cached_lookup _ i x) by apply lookup_insert_eq. by rewrite delete_insert_eq. Qed.

Lemma cached_add m i : m !! i = None → cached (<[i := []]> m) ≡ₚ cached m.
Proof. intros Hi. rewrite (cached_lookup _ i []) by apply lookup_insert_eq. by rewrite delete_insert_id. Qed.

Definition occ (s : Z) (l : list Z) : nat := length (filter (λ x, x = s) l).
Definition dealers_of (q : FairQueue) (s : Z) : list nat := default [] (_sid2dealers q !! s).
Definition cache_of (q : FairQueue) (s : Z) : list pkt := default [] (_sid2cache q !! s).

Lemma occ_perm s l l' : l ≡ₚ l' → occ s l = occ s l'.
Proof. intros Hp. unfold occ. by rewrite Hp. Qed.

Lemma occ_cons s x l : occ s (x :: l) = ((if decide (x = s) then 1 else 0) + occ s l)%nat.
Proof. unfold occ. rewrite filter_cons. by destruct (decide (x = s)). Qed.

Lemma occ_pos s l : (0 < occ s l)%nat ↔ s ∈ l.
Proof.
  induction l as [|x l IH]; [rewrite elem_of_nil; cbn; lia|].
  rewrite occ_cons, elem_of_cons, <- IH. destruct (decide (x = s)); split; intros; [by left|lia| |].
  - right. lia.
  - destruct H as [->|]; [done|lia].
Qed.

(** A request can be handled by server [s]. *)
Definition meant_for (r : pkt) (s : Z) : Prop := sid (hd r) = s ∨ sid (hd r) = -1.

Record FQInv (q : FairQueue) : Prop := {
  fq_dealers s ds : _sid2dealers q !! s = Some ds → ds ≠ [] ∧ NoDup ds;
  fq_sids s : occ s (_sids q) = length (dealers_of q s);
  fq_meant s r : r ∈ cache_of q s → meant_for r s;
  fq_idle s : is_Some (_sid2dealers q !! s) → cache_of q s = [];
}.

Inductive fq_op :=
  | AddServer (s : Z)
  | RemoveServer (s : Z)
  | AddDealer (s : Z) (d : nat)
  | RemoveDealer (s : Z) (d : nat)
  | Request (r : pkt).

(** What the callers guarantee: servers and dealers are added once and removed once. *)
Definition fq_legal (q : FairQueue) (o : fq_op) : Prop :=
  match o with
  | AddServer s => _sid2cache q !! s = None
  | RemoveServer s => is_Some (_sid2cache q !! s)
  | AddDealer s d => d ∉ dealers_of q s
  | RemoveDealer s d => d ∈ dealers_of q s
  | Request _ => True
  end.

(** The new queue, the requests handed to dealers, and the requests dropped. *)
Definition fq_exec (first : gmap Z (list pkt) → Z) (q : FairQueue) (o : fq_op)
    : result (FairQueue * list (nat * pkt) * list pkt) :=
  match o with
  | AddServer s => q ← add_server q s; Ok (q, [], [])
  | RemoveServer s => q' ← remove_server q s; Ok (q', [], cache_of q s)
  | AddDealer s d => let '(q, rs) := add_server_dealer q s d in Ok (q, pair d <$> rs, [])
  | RemoveDealer s d => q ← remove_server_dealer q s d; Ok (q, [], [])
  | Request r =>
      '(q, d, taken) ← route first q r;
      Ok (q, match d with Some d => [(d, r)] | None => [] end, if (taken : bool) then [] else [r])
  end.

Definition requests_of (o : fq_op) : list pkt := match o with Request r => [r] | _ => [] end.

(** Who may get a request, and when one may be dropped. *)
Definition deliveries_ok (q : FairQueue) (out : list (nat * pkt)) : Prop :=
  ∀ d r, (d, r) ∈ out → ∃ s, d ∈ dealers_of q s ∧ meant_for r s.

Definition drops_ok (q : FairQueue) (o : fq_op) (drop : list pkt) : Prop :=
  match o with
  | RemoveServer s => drop = cache_of q s
  | Request r =>
      drop = [] ∨
      drop = [r] ∧ ∀ s, meant_for r s → _sid2cache q !! s = None ∧ _sid2dealers q !! s = None
  | _ => drop = []
  end.

(** What one operation does. *)
Definition fq_step_ok (q : FairQueue) (o : fq_op) (q' : FairQueue) out drop : Prop :=
  FQInv q' ∧ requests_of o ++ cached (_sid2cache q) ≡ₚ out.*2 ++ drop ++ cached (_sid2cache q') ∧
  deliveries_ok q' out ∧ drops_ok q o drop.

Lemma dealers_of_some q s d : d ∈ dealers_of q s → ∃ ds, _sid2dealers q !! s = Some ds ∧ d ∈ ds.
Proof. unfold dealers_of. destruct (_sid2dealers q !! s) as [ds|]; [eauto|]. by intros ?%elem_of_nil. Qed.

Lemma FQInv_init rr drr : FQInv (FairQueue_ rr drr).
Proof.
  split; unfold cache_of, dealers_of; cbn; intros s *; rewrite ?lookup_empty; try done.
  - by intros ?%elem_of_nil.
Qed.

Lemma fq_add_server q s : FQInv q → _sid2cache q !! s = None →
  ∃ q', add_server q s = Ok q' ∧ fq_step_ok q (AddServer s) q' [] [].
Proof.
  intros Hq Hs. unfold add_server. rewrite Hs. eexists. split; [done|].
  split; [|split; [by cbn; rewrite cached_add|split; [by intros ? ? ?%elem_of_nil|done]]].
  destruct Hq as [H1 H2 H3 H4]. split; [exact H1|exact H2| |];
    intros s'; unfold cache_of in *; cbn; destruct (decide (s = s')) as [<-|];
    rewrite ?lookup_insert_eq, ?lookup_insert_ne by done; cbn; auto.
  by intros r ?%elem_of_nil.
Qed.

Lemma fq_remove_server q s : FQInv q → is_Some (_sid2cache q !! s) →
  ∃ q', remove_server q s = Ok q' ∧ fq_step_ok q (RemoveServer s) q' [] (cache_of q s).
Proof.
  intros Hq [c Hs]. unfold remove_server. rewrite Hs. eexists. split; [done|].
  split; [|split; [|split; [by intros ? ? ?%elem_of_nil|done]]].
  - destruct Hq as [H1 H2 H3 H4]. split; [exact H1|exact H2| |];
      intros s'; unfold cache_of in *; cbn; destruct (decide (s = s')) as [<-|];
      rewrite ?lookup_delete_eq, ?lookup_delete_ne by done; cbn; auto.
    by intros r ?%elem_of_nil.
  - cbn. unfold cache_of. rewrite Hs. by apply cached_lookup.
Qed.

Lemma dealers_insert q s ds l s' :
  dealers_of (with_dealers q (<[s := ds]> (_sid2dealers q)) l) s' =
  if decide (s = s') then ds else dealers_of q s'.
Proof.
  unfold dealers_of. cbn. case_decide as E; [subst; by rewrite lookup_insert_eq|].
  by rewrite lookup_insert_ne.
Qed.

Lemma FQInv_add_dealer q s d : FQInv q → d ∉ dealers_of q s → cache_of q s = [] →
  FQInv (with_dealers q (<[s := dealers_of q s ++ [d]]> (_sid2dealers q)) (_sids q ++ [s])).
Proof.
  intros [H1 H2 H3 H4] Hd Hc. split; cbn [_sid2dealers _sids with_dealers].
  - intros s' ds. destruct (decide (s = s')) as [<-|]; [|rewrite lookup_insert_ne by done; apply H1].
    rewrite lookup_insert_eq. intros [= <-]. split; [by destruct (dealers_of q s)|].
    apply NoDup_app. split; [|split; [|apply NoDup_singleton]].
    + unfold dealers_of. destruct (_sid2dealers q !! s) eqn:E; [by apply (H1 s)|apply NoDup_nil_2].
    + by intros x Hx ->%list_elem_of_singleton.
  - intros s'. rewrite dealers_insert. rewrite (occ_perm _ _ (s :: _sids q)), occ_cons, H2
      by (by rewrite Permutation_app_comm).
    destruct (decide (s = s')) as [<-|]; [rewrite length_app; cbn; lia|done].
  - exact H3.
  - intros s'. destruct (decide (s = s')) as [<-|]; [done|]. rewrite lookup_insert_ne by done. apply H4.
Qed.

Lemma FQInv_drain q s c : FQInv q → _sid2cache q !! s = Some c →
  FQInv (with_cache q (<[s := []]> (_sid2cache q))).
Proof.
  intros [H1 H2 H3 H4] Hc. split; [exact H1|exact H2| |]; intros s'; unfold cache_of in *; cbn;
    destruct (decide (s = s')) as [<-|]; rewrite ?lookup_insert_eq, ?lookup_insert_ne by done; cbn; auto.
  by intros r ?%elem_of_nil.
Qed.

Lemma fq_add_dealer q s d : FQInv q → d ∉ dealers_of q s →
  ∃ q' rs, add_server_dealer q s d = (q', rs) ∧ fq_step_ok q (AddDealer s d) q' (pair d <$> rs) [].
Proof.
  intros Hq Hd. unfold add_server_dealer. cbn.
  change (default [] (_sid2dealers q !! s)) with (dealers_of q s).
  destruct (_sid2cache q !! s) as [c|] eqn:Hc; (eexists _, _; split; [done|]); (split; [|split; [|split; [|done]]]).
  - pose proof (FQInv_add_dealer (with_cache q (<[s := []]> (_sid2cache q))) s d) as Ha.
    unfold with_cache, with_dealers, dealers_of in *. cbn in *. apply Ha.
    + by eapply FQInv_drain.
    + done.
    + unfold cache_of. cbn. by rewrite lookup_insert_eq.
  - cbn. rewrite <- list_fmap_compose, (cached_insert _ s [] c Hc), (cached_lookup _ s c Hc).
    cbn. by rewrite list_fmap_id.
  - intros d' r (r' & [= -> ->] & Hin)%list_elem_of_fmap. exists s. split.
    + unfold dealers_of. cbn. rewrite lookup_insert_eq. apply elem_of_app. right. by apply list_elem_of_singleton.
    + apply Hq. unfold cache_of. by rewrite Hc.
  - apply FQInv_add_dealer; [done..|]. unfold cache_of. by rewrite Hc.
  - done.
  - by intros ? ? ?%elem_of_nil.
Qed.

Lemma fq_remove_dealer q s d : FQInv q → d ∈ dealers_of q s →
  ∃ q', remove_server_dealer q s d = Ok q' ∧ fq_step_ok q (RemoveDealer s d) q' [] [].
Proof.
  intros Hq (ds & Hds & Hd)%dealers_of_some. unfold remove_server_dealer. rewrite Hds.
  destruct Hq as [H1 H2 H3 H4]. destruct (H1 s ds Hds) as [_ Hnd].
  apply list_elem_of_lookup_1 in Hd as [j Hj].
  pose proof (remove_dealers_perm (length ds) 0 j ds d Hnd Hj ltac:(lia) ltac:(lia)) as Hp.
  set (ds' := remove_dealers (length ds) 0 ds d) in *. cbv zeta.
  eexists. split; [done|]. split; [|split; [done|split; [by intros ? ? ?%elem_of_nil|done]]].
  set (m := if decide (ds' = []) then _ else _).
  assert (Hm : ∀ s', m !! s' = if decide (s = s') then if decide (ds' = []) then None else Some ds'
                               else _sid2dealers q !! s').
  { intros s'. unfold m. repeat case_decide; subst;
      by rewrite ?lookup_insert_eq, ?lookup_insert_ne, ?lookup_delete_eq, ?lookup_delete_ne. }
  assert (Hs : s ∈ _sids q).
  { apply occ_pos. rewrite H2. unfold dealers_of. rewrite Hds. cbn. apply lookup_lt_Some in Hj. lia. }
  clearbody m. split; cbn [_sid2dealers _sids with_dealers].
  - intros s' l. rewrite Hm. destruct (decide (s = s')); [destruct (decide (ds' = [])); [done|]|apply H1].
    intros [= <-]. split; [done|]. rewrite Hp in Hnd. by apply NoDup_cons in Hnd as [_ ?].
  - intros s'. pose proof (H2 s') as Hc. unfold dealers_of in *. cbn. rewrite Hm.
    rewrite (occ_perm _ _ _ (remove_sid_perm _ _ Hs)), occ_cons in Hc.
    destruct (decide (s = s')) as [<-|]; [|lia]. rewrite Hds in Hc. cbn in Hc. rewrite Hp in Hc. cbn in Hc.
    destruct (decide (ds' = [])) as [E|]; cbn; [rewrite E in Hc; cbn in Hc|]; lia.
  - exact H3.
  - intros s'. rewrite Hm. intros Hsome. apply H4. destruct (decide (s = s')); [subst; by rewrite Hds|done].
Qed.

(** The round-robin indices play no part in the invariant. *)
Lemma FQInv_indices q rr drr : FQInv q → FQInv (with_drr (with_rr q rr) drr).
Proof. by intros [H1 H2 H3 H4]. Qed.

Lemma next_dealer_spec q s ds : FQInv q → _sid2dealers q !! s = Some ds →
  ∃ i d, next_dealer q s = Ok (with_drr q i, Some d) ∧ d ∈ ds.
Proof.
  intros Hq Hds. unfold next_dealer. rewrite Hds. destruct (fq_dealers q Hq s ds Hds) as [Hne _].
  rewrite bool_decide_false by done. cbn [negb SCHECK]. step_ok. cbv zeta.
  match goal with |- context [with_drr q ?x] => set (i := x) end.
  assert (Hi : (Z.to_nat i < length ds)%nat).
  { assert (0 < length ds)%nat by (destruct ds; cbn; [done|lia]).
    subst i. pose proof (wrap_range 64 (_dealer_id_rr_index q + 1) ltac:(lia)) as Hr.
    unfold in_unsigned in Hr.
    destruct (Z.leb_spec (Z.of_nat (length ds)) (u64 (_dealer_id_rr_index q + 1))); lia. }
  destruct (lookup_lt_is_Some_2 ds (Z.to_nat i) Hi) as [d Hd]. exists i, d. rewrite Hd.
  split; [done|]. by eapply list_elem_of_lookup_2.
Qed.

Lemma next_sid_spec q : _sids q ≠ [] → ∃ rr s, next_sid q = (with_rr q rr, Some s) ∧ s ∈ _sids q.
Proof.
  intros Hne. unfold next_sid. set (i := Z.to_nat _).
  assert (Hi : (i < length (_sids q))%nat).
  { assert (0 < length (_sids q))%nat by (destruct (_sids q); cbn; [done|lia]). unfold i.
    pose proof (Z.mod_pos_bound (u64 (_sids_rr_index q)) (Z.of_nat (length (_sids q)))). lia. }
  destruct (lookup_lt_is_Some_2 _ _ Hi) as [s Hs]. exists (i32 (_sids_rr_index q + 1)), s. rewrite Hs.
  split; [done|]. by eapply list_elem_of_lookup_2.
Qed.

Lemma listed_has_dealers q s : FQInv q → s ∈ _sids q → ∃ ds, _sid2dealers q !! s = Some ds.
Proof.
  intros Hq Hs%occ_pos. rewrite (fq_sids q Hq) in Hs. unfold dealers_of in Hs.
  destruct (_sid2dealers q !! s); [eauto|cbn in Hs; lia].
Qed.

(** A request that a dealer takes at once. *)
Lemma fq_deliver q r s ds d rr drr : FQInv q → _sid2dealers q !! s = Some ds → d ∈ ds → meant_for r s →
  fq_step_ok q (Request r) (with_drr (with_rr q rr) drr) [(d, r)] [].
Proof.
  intros Hq Hds Hd Hm. split; [by apply FQInv_indices|]. split; [done|]. split; [|by left].
  intros d' r' [= -> ->]%list_elem_of_singleton. exists s. split; [|done].
  unfold dealers_of. cbn. by rewrite Hds.
Qed.

(** A request that waits for the first dealer of its server. *)
Lemma fq_park q r s c : FQInv q → _sid2dealers q !! s = None → _sid2cache q !! s = Some c →
  meant_for r s →
  fq_step_ok q (Request r) (with_cache q (<[s := c ++ [r]]> (_sid2cache q))) [] [].
Proof.
  intros Hq Hds Hc Hm. split; [|split; [|split; [by intros ? ? ?%elem_of_nil|by left]]].
  - destruct Hq as [H1 H2 H3 H4]. split; [exact H1|exact H2| |]; intros s'; unfold cache_of in *; cbn;
      destruct (decide (s = s')) as [<-|]; rewrite ?lookup_insert_eq, ?lookup_insert_ne by done; cbn; auto.
    + intros r' [Hr|Hr%list_elem_of_singleton]%elem_of_app; [|by subst]. apply H3. by rewrite Hc.
    + rewrite Hds. by intros [? [=]].
  - cbn. rewrite (cached_insert _ s _ c Hc), (cached_lookup _ s c Hc). rewrite <- app_assoc. cbn.
    by rewrite Permutation_middle.
Qed.

Lemma fq_refuse q r : FQInv q →
  (∀ s, meant_for r s → _sid2cache q !! s = None ∧ _sid2dealers q !! s = None) →
  fq_step_ok q (Request r) q [] [r].
Proof. intros Hq Hn. split; [done|]. split; [done|]. split; [by intros ? ? ?%elem_of_nil|by right]. Qed.

Section dispatch_laws.
Context (first : gmap Z (list pkt) → Z).
Context (first_ok : ∀ m, m ≠ ∅ → is_Some (m !! first m)).

Lemma no_sids_no_dealers q s : FQInv q → _sids q = [] → _sid2dealers q !! s = None.
Proof.
  intros Hq Hs. pose proof (fq_sids q Hq s) as Hc. rewrite Hs in Hc. unfold dealers_of in Hc.
  destruct (_sid2dealers q !! s) as [ds|] eqn:E; [|done].
  destruct (fq_dealers q Hq s ds E) as [? _]. by destruct ds.
Qed.

Definition outcome (q : FairQueue) (r : pkt) (x : result (FairQueue * option nat * bool)) : Prop :=
  ∃ q' d (taken : bool), x = Ok (q', d, taken) ∧
    fq_step_ok q (Request r) q' (match d with Some d => [(d, r)] | None => [] end) (if taken then [] else [r]).

Lemma route_any q r : FQInv q → sid (hd r) = -1 → outcome q r (route first q r).
Proof.
  intros Hq Hr. unfold route, next. rewrite Hr. cbn [Z.eqb Pos.eqb].
  assert (Hm : ∀ s, meant_for r s) by (by right). destruct (_sids q) as [|s0 l] eqn:Hs.
  - step_ok. unfold fq_push_request. cbn [Z.eqb Pos.eqb]. rewrite Hs. case_decide as E.
    + eexists _, _, _. split; [done|]. apply fq_refuse; [done|]. intros s _.
      by rewrite E, lookup_empty, (no_sids_no_dealers q s Hq Hs).
    + cbv zeta. rewrite (no_sids_no_dealers q _ Hq Hs). destruct (first_ok _ E) as [c Hc]. rewrite Hc.
      eexists _, _, _. split; [done|]. eapply fq_park; eauto using no_sids_no_dealers.
  - destruct (next_sid_spec q) as (rr & s & -> & Hin); [by rewrite Hs|].
    destruct (listed_has_dealers q s Hq Hin) as [ds Hds].
    destruct (next_dealer_spec (with_rr q rr) s ds) as (i & d & -> & Hd); [by destruct Hq|done|].
    step_ok. eexists _, _, _. split; [done|]. by eapply fq_deliver.
Qed.

Lemma route_to q r : FQInv q → sid (hd r) ≠ -1 → outcome q r (route first q r).
Proof.
  intros Hq Hr. unfold route, next. rewrite (proj2 (Z.eqb_neq _ _) Hr). set (s := sid (hd r)) in *.
  assert (Hm : meant_for r s) by (by left). destruct (_sid2dealers q !! s) as [ds|] eqn:Hds.
  - destruct (next_dealer_spec q s ds Hq Hds) as (i & d & -> & Hd). step_ok.
    eexists _, _, _. split; [done|]. by eapply (fq_deliver q r s ds d (_sids_rr_index q)).
  - unfold next_dealer. rewrite Hds. step_ok. unfold fq_push_request.
    rewrite (proj2 (Z.eqb_neq _ _) Hr). cbv zeta. rewrite Hds.
    destruct (_sid2cache q !! s) as [c|] eqn:Hc; eexists _, _, _; (split; [done|]).
    + by eapply fq_park.
    + apply fq_refuse; [done|]. intros s' [<-|?]; [done|by subst s].
Qed.

Lemma fq_exec_ok q o : FQInv q → fq_legal q o →
  ∃ q' out drop, fq_exec first q o = Ok (q', out, drop) ∧ fq_step_ok q o q' out drop.
Proof.
  intros Hq Hl. destruct o as [s|s|s d|s d|r]; cbn [fq_exec fq_legal] in *.
  - destruct (fq_add_server q s Hq Hl) as (q' & -> & ?). eauto.
  - destruct (fq_remove_server q s Hq Hl) as (q' & -> & ?). eauto.
  - destruct (fq_add_dealer q s d Hq Hl) as (q' & rs & -> & ?). eauto.
  - destruct (fq_remove_dealer q s d Hq Hl) as (q' & -> & ?). eauto.
  - assert (outcome q r (route first q r)) as (q' & d & taken & -> & ?).
    { destruct (decide (sid (hd r) = -1)); [by apply route_any|by apply route_to]. }
    step_ok. eauto.
Qed.

(** Histories of a fair queue: the requests accepted, handed out and dropped so far. *)
Inductive fq_reach : FairQueue → list pkt → list (nat * pkt) → list pkt → Prop :=
  | fq_start rr drr : fq_reach (FairQueue_ rr drr) [] [] []
  | fq_step q a out drop o q' out' drop' :
      fq_reach q a out drop → fq_legal q o → fq_exec first q o = Ok (q', out', drop') →
      fq_reach q' (a ++ requests_of o) (out ++ out') (drop ++ drop').

Lemma fq_reach_inv q a out drop : fq_reach q a out drop →
  FQInv q ∧ a ≡ₚ out.*2 ++ drop ++ cached (_sid2cache q).
Proof.
  induction 1 as [rr drr|q a out drop o q' out' drop' Hr [Hq IH] Hl He].
  { split; [apply FQInv_init|]. unfold cached. cbn. by rewrite map_to_list_empty. }
  destruct (fq_exec_ok q o Hq Hl) as (q1 & out1 & drop1 & He1 & Hi & Hp & _).
  assert (q1 = q' ∧ out1 = out' ∧ drop1 = drop') as (-> & -> & ->) by (split; [|split]; congruence).
  split; [done|]. rewrite IH, fmap_app, <- !app_assoc.
  rewrite (Permutation_app_comm (cached _)), Hp. solve_Permutation.
Qed.

(** C28: whatever sequence of servers and dealers coming and going and of requests
    arriving, no check of the fair queue fails, and no request is lost or duplicated:
    the requests that arrived are those handed to dealers, those dropped and those
    waiting.  Each operation hands requests only to dealers of the server they name (of
    any server when they name none); a request is dropped only when it names no server
    there is, or with the server it waits for; and a server with dealers has none
    waiting. *)
Theorem fair_queue_conserves_requests q a out drop : fq_reach q a out drop →
  a ≡ₚ out.*2 ++ drop ++ cached (_sid2cache q) ∧
  (∀ s, dealers_of q s ≠ [] → cache_of q s = []) ∧
  ∀ o, fq_legal q o → ∃ q' out' drop', fq_exec first q o = Ok (q', out', drop') ∧
    deliveries_ok q' out' ∧ drops_ok q o drop'.
Proof.
  intros Hr. destruct (fq_reach_inv q a out drop Hr) as [Hq Hp]. split; [done|]. split.
  - intros s Hs. apply (fq_idle q Hq). unfold dealers_of in Hs. by destruct (_sid2dealers q !! s).
  - intros o Hl. destruct (fq_exec_ok q o Hq Hl) as (q' & out' & drop' & He & _ & _ & Hd & Hx). eauto 10.
Qed.
End dispatch_laws.

(** ** The dealers of a server take turns *)
Fixpoint next_dealers (k : nat) (q : FairQueue) (s : Z) : result (FairQueue * list (option nat)) :=
  match k with
  | O => Ok (q, [])
  | S k => '(q, d) ← next_dealer q s; '(q, l) ← next_dealers k q s; Ok (q, d :: l)
  end.

Lemma next_dealers_S k q s : next_dealers (S k) q s =
  '(q, d) ← next_dealer q s; '(q, l) ← next_dealers k q s; Ok (q, d :: l).
Proof. done. Qed.

Lemma next_dealers_app k1 k2 q s q1 l1 q2 l2 :
  next_dealers k1 q s = Ok (q1, l1) → next_dealers k2 q1 s = Ok (q2, l2) →
  next_dealers (k1 + k2) q s = Ok (q2, l1 ++ l2).
Proof.
  revert q l1. induction k1 as [|k1 IH]; intros q l1; cbn [next_dealers Nat.add].
  { intros [= -> <-]. done. }
  destruct (next_dealer q s) as [[q' d]|]; [step_ok|done].
  destruct (next_dealers k1 q' s) as [[q'' l]|] eqn:E; [step_ok|done].
  intros [= -> <-] H2. by rewrite (IH _ _ E H2).
Qed.

Definition turn (n v : Z) : Z := if n <=? u64 (v + 1) then 0 else u64 (v + 1).

(** Calls that do not pass the end of the list. *)
Lemma next_dealers_run s ds m : ∀ q i, _sid2dealers q !! s = Some ds → Z.of_nat (length ds) < 2 ^ 64 →
  turn (Z.of_nat (length ds)) (_dealer_id_rr_index q) = Z.of_nat i → (i + S m ≤ length ds)%nat →
  next_dealers (S m) q s = Ok (with_drr q (Z.of_nat (i + m)), Some <$> take (S m) (drop i ds)).
Proof.
  induction m as [|m IH]; intros q i Hds Hlen Hi Hle.
  all: rewrite next_dealers_S.
  all: unfold next_dealer; rewrite Hds, bool_decide_false by (intros ->; cbn in Hle; lia).
  all: cbn [negb SCHECK]; step_ok; cbv zeta; unfold turn in Hi; rewrite Hi, Nat2Z.id.
  all: destruct (lookup_lt_is_Some_2 ds i) as [d Hd]; [lia|]; rewrite Hd.
  all: rewrite (drop_S ds d i Hd), firstn_cons.
  - cbn. by rewrite take_0, Nat.add_0_r.
  - rewrite (IH (with_drr q (Z.of_nat i)) (S i)); [|done|done| |lia].
    + step_ok. by rewrite Nat.add_succ_r.
    + cbn [_dealer_id_rr_index with_drr]. unfold turn.
      rewrite wrap_small by (unfold in_unsigned; lia).
      rewrite (proj2 (Z.leb_gt _ _)) by lia. lia.
Qed.

(** Over as many consecutive requests as a server has dealers, every dealer is
    chosen once, whatever value the shared index starts from. *)
Theorem dealers_take_turns q s ds :
  _sid2dealers q !! s = Some ds → ds ≠ [] → Z.of_nat (length ds) < 2 ^ 64 →
  in_unsigned 64 (_dealer_id_rr_index q) →
  ∃ q' picks, next_dealers (length ds) q s = Ok (q', Some <$> picks) ∧ picks ≡ₚ ds.
Proof.
  intros Hds Hne Hlen Hv. set (n := length ds) in *.
  assert (0 < n)%nat by (subst n; destruct ds; cbn; [done|lia]).
  assert (∃ i, turn (Z.of_nat n) (_dealer_id_rr_index q) = Z.of_nat i ∧ (i < n)%nat) as (i & Hi & Hlt).
  { exists (Z.to_nat (turn (Z.of_nat n) (_dealer_id_rr_index q))). unfold turn.
    pose proof (wrap_range 64 (_dealer_id_rr_index q + 1) ltac:(lia)) as Hr. unfold in_unsigned in Hr.
    destruct (Z.leb_spec (Z.of_nat n) (u64 (_dealer_id_rr_index q + 1))); lia. }
  pose proof (next_dealers_run s ds (n - i - 1) q i Hds Hlen Hi ltac:(lia)) as H1.
  replace (S (n - i - 1)) with (n - i)%nat in H1 by lia.
  rewrite (take_ge (drop i ds)) in H1 by (rewrite length_drop; lia).
  destruct i as [|i].
  { rewrite Nat.sub_0_r in H1. eexists _, _. split; [exact H1|]. by rewrite drop_0. }
  set (q1 := with_drr q _) in H1.
  assert (Ht : turn (Z.of_nat n) (_dealer_id_rr_index q1) = Z.of_nat 0).
  { subst q1. cbn [_dealer_id_rr_index with_drr]. unfold turn.
    rewrite wrap_small by (unfold in_unsigned; lia). rewrite (proj2 (Z.leb_le _ _)) by lia. done. }
  pose proof (next_dealers_run s ds i q1 0 Hds Hlen Ht ltac:(lia)) as H2.
  pose proof (next_dealers_app _ _ _ _ _ _ _ _ H1 H2) as H3.
  replace (n - S i + S i)%nat with n in H3 by lia. rewrite H3.
  eexists _, (drop (S i) ds ++ take (S i) ds). rewrite fmap_app, drop_0. split; [done|].
  by rewrite Permutation_app_comm, take_drop.
Qed.
End fair_queue.

(** ** Witnesses *)
Definition first_key {A} (m : gmap Z A) : Z := match map_to_list m with (k, _) :: _ => k | [] => 0 end.

Lemma first_key_ok {A} (m : gmap Z A) : m ≠ ∅ → is_Some (m !! first_key m).
Proof.
  intros Hm. unfold first_key. destruct (map_to_list m) as [|[k v] l] eqn:E.
  - by apply map_to_list_empty_iff in E.
  - exists v. apply elem_of_map_to_list. rewrite E. left.
Qed.

Definition request_for (s : Z) : pkt := Pkt (RpcHead 0 (-1) (-1) (-1) (-1) 0 s 0 0 SUCC) ().

Lemma fair_queue_conserves_requests_witness :
  let q := with_cache (FairQueue_ (B := unit) 5 9) {[3 := []]} in
  let q' := with_cache (FairQueue_ (B := unit) 5 9) {[3 := [request_for 3]]} in
  [request_for 3] ≡ₚ [] ++ [] ++ cached (_sid2cache q').
Proof.
  intros q q'.
  assert (fq_reach first_key q' [request_for 3] [] []) as Hr.
  { apply (fq_step _ q [] [] [] (Request (request_for 3)) q' [] []); [|done|by vm_compute].
    apply (fq_step _ (FairQueue_ 5 9) [] [] [] (AddServer 3) q [] []); [apply fq_start|done|by vm_compute]. }
  apply (fair_queue_conserves_requests first_key first_key_ok q' _ [] [] Hr).
Defined.

Lemma dealers_take_turns_witness :
  ∃ q' picks, next_dealers 3 (with_dealers (FairQueue_ (B := unit) 0 (2 ^ 64 - 1)) {[4 := [10; 11; 12]%nat]} [4; 4; 4]) 4
                = Ok (q', Some <$> picks) ∧ picks ≡ₚ [10; 11; 12]%nat.
Proof. apply (dealers_take_turns _ 4 [10; 11; 12]%nat); [done|done|done|split; done]. Defined.
