(* ===== verification/RpcContext.v ===== *)
(** * Routing: the context of a process and its dealers

    src/src/rpc/RpcContext.h, src/src/rpc/RpcContext.cpp, src/src/rpc/Dealer.h,
    src/src/rpc/Dealer.cpp and the state of src/src/rpc/FrontEnd.h.

    A process has dealers, which issue requests as clients and handle them as servers,
    and frontends, one connection object per peer and direction.  [RpcContext] holds the
    tables between them.  Dealers and frontends are shared objects that several tables
    point to: they live in heaps and the tables hold their addresses.

    Every function runs under the context's lock and is one step here; the channels inside
    are lists.  What a frontend does with a message is
    a log entry.  Bodies of messages are opaque.  Iteration orders, [rand()] and the
    clock are parameters. *)
From S2P Require Import Prelude Archive Serialize LazyArchive Message FairQueue.
#[local] Open Scope Z_scope.

Section routing.
Context {B : Type}.
#[local] Abbreviation pkt := (@FairQueue.pkt B).
#[local] Abbreviation FairQueue := (@FairQueue.FairQueue B).

(** ** Dealers and frontends *)
(** A channel is spent once [recv] of it has returned false: its counter [_size] then is one less
    than the number of its items, and [recv] checks that it is not negative. *)
Record dealer := MkDealer {
  _rpc_id : Z;
  _g_rank : Z;
  _id : Z;
  _server_req_ch : list pkt;
  _client_resp_ch : list pkt;
  _initialized_server : bool;
  _initialized_client : bool;
  _available_rank : Z;
  _servers : gset Z;
  _server_req_spent : bool;
  _client_resp_spent : bool;
}.

Definition FRONTEND_DISCONNECT : Z := 1.
Definition FRONTEND_CONNECT : Z := 2.
Definition FRONTEND_EPIPE : Z := 4.

(** [f_rested]: more than ten seconds have passed since [_epipe_time]. *)
Record frontend := MkFrontEnd {
  f_rank : Z;
  f_state : Z;
  f_rested : bool;
  _is_client_socket : bool;
  f_fds : list Z;
}.

Definition state_has (f : frontend) (flag : Z) : bool := negb (Z.land (f_state f) flag =? 0).

Definition available (f : frontend) : bool :=
  if state_has f FRONTEND_EPIPE then
    if state_has f FRONTEND_DISCONNECT then f_rested f else false
  else true.

(** ** [RpcContext] *)
Record ServerInfo := MkServerInfo { server_id : Z; server_rank : Z }.
Record RpcServiceInfo := MkServiceInfo {
  rpc_service_name : list byte;
  service_rpc_id : Z;
  servers : list ServerInfo;
}.

Record ctx := Ctx {
  _self : Z;
  dealers : gmap nat dealer;
  fronts : gmap nat frontend;
  _server_backend : gmap Z FairQueue;
  _client_backend : gmap Z nat;
  _to_del_client_sockets : gset Z;
  _client_sockets : gmap Z nat;
  _server_sockets : gmap Z nat;
  _fd_map : gmap Z nat;
  _rpc_info : gmap (list byte) RpcServiceInfo;
  _rpc_server_info : gmap Z (gmap Z Z);
  _rpc_server_frontend : gmap Z (list nat);
  _rpc_server_id_frontend : gmap Z nat;
  sent : list (nat * pkt);
}.

Definition set_dealers (c : ctx) x := Ctx (_self c) x (fronts c) (_server_backend c)
  (_client_backend c) (_to_del_client_sockets c) (_client_sockets c) (_server_sockets c)
  (_fd_map c) (_rpc_info c) (_rpc_server_info c) (_rpc_server_frontend c)
  (_rpc_server_id_frontend c) (sent c).
Definition set_backend (c : ctx) x := Ctx (_self c) (dealers c) (fronts c) x
  (_client_backend c) (_to_del_client_sockets c) (_client_sockets c) (_server_sockets c)
  (_fd_map c) (_rpc_info c) (_rpc_server_info c) (_rpc_server_frontend c)
  (_rpc_server_id_frontend c) (sent c).
Definition set_client_backend (c : ctx) x := Ctx (_self c) (dealers c) (fronts c) (_server_backend c)
  x (_to_del_client_sockets c) (_client_sockets c) (_server_sockets c)
  (_fd_map c) (_rpc_info c) (_rpc_server_info c) (_rpc_server_frontend c)
  (_rpc_server_id_frontend c) (sent c).
Definition set_sockets (c : ctx) fr del cl se fd := Ctx (_self c) (dealers c) fr (_server_backend c)
  (_client_backend c) del cl se fd (_rpc_info c) (_rpc_server_info c) (_rpc_server_frontend c)
  (_rpc_server_id_frontend c) (sent c).
Definition set_services (c : ctx) i si sf sidf := Ctx (_self c) (dealers c) (fronts c)
  (_server_backend c) (_client_backend c) (_to_del_client_sockets c) (_client_sockets c)
  (_server_sockets c) (_fd_map c) i si sf sidf (sent c).
Definition log_sent (c : ctx) f m := Ctx (_self c) (dealers c) (fronts c) (_server_backend c)
  (_client_backend c) (_to_del_client_sockets c) (_client_sockets c) (_server_sockets c)
  (_fd_map c) (_rpc_info c) (_rpc_server_info c) (_rpc_server_frontend c)
  (_rpc_server_id_frontend c) (sent c ++ [(f, m)]).

(** [rpc_id * 1000000007LL + sid] as a [uint64_t]. *)
Definition rpc_sid_pack (rpc_id sid : Z) : Z := u64 (rpc_id * 1000000007 + sid).

Definition got_requests (x : dealer) (reqs : list pkt) : dealer :=
  MkDealer (_rpc_id x) (_g_rank x) (_id x) (_server_req_ch x ++ reqs) (_client_resp_ch x)
    (_initialized_server x) (_initialized_client x) (_available_rank x) (_servers x)
    (_server_req_spent x) (_client_resp_spent x).

Definition got_response (x : dealer) (resp : pkt) : dealer :=
  MkDealer (_rpc_id x) (_g_rank x) (_id x) (_server_req_ch x) (_client_resp_ch x ++ [resp])
    (_initialized_server x) (_initialized_client x) (_available_rank x) (_servers x)
    (_server_req_spent x) (_client_resp_spent x).

(** [Dealer::push_request] and [Dealer::push_response]. *)
Definition dealer_push_request (c : ctx) (d : nat) (reqs : list pkt) : result ctx :=
  match dealers c !! d with
  | None => Abort
  | Some x =>
      _ ← SCHECK (_initialized_server x);
      Ok (set_dealers c (<[d := got_requests x reqs]> (dealers c)))
  end.

Definition dealer_push_response (c : ctx) (d : nat) (resp : pkt) : result ctx :=
  match dealers c !! d with
  | None => Abort
  | Some x =>
      _ ← SCHECK (_initialized_client x);
      Ok (set_dealers c (<[d := got_response x resp]> (dealers c)))
  end.

(** *** Servers and dealers come and go.  [fresh] are the uninitialized members of a new
    fair queue. *)
Definition backend_of (c : ctx) (fresh : Z * Z) (rpc_id : Z) : FairQueue :=
  default (FairQueue_ fresh.1 fresh.2) (_server_backend c !! rpc_id).

Definition end_add_server (c : ctx) (fresh : Z * Z) (rpc_id sid : Z) : result ctx :=
  q ← add_server (backend_of c fresh rpc_id) sid;
  Ok (set_backend c (<[rpc_id := q]> (_server_backend c))).

(** The tail of the two [remove_] functions: an empty fair queue is erased. *)
Definition put_or_erase (c : ctx) (rpc_id : Z) (q : FairQueue) : ctx :=
  set_backend c (if fq_empty q then delete rpc_id (_server_backend c)
                 else <[rpc_id := q]> (_server_backend c)).

Definition ctx_remove_server (c : ctx) (rpc_id sid : Z) : result ctx :=
  match _server_backend c !! rpc_id with
  | None => Abort
  | Some q => q ← remove_server q sid; Ok (put_or_erase c rpc_id q)
  end.

Definition ctx_add_server_dealer (c : ctx) (fresh : Z * Z) (rpc_id sid : Z) (d : nat) : result ctx :=
  let '(q, reqs) := add_server_dealer (backend_of c fresh rpc_id) sid d in
  let c := set_backend c (<[rpc_id := q]> (_server_backend c)) in
  match reqs with [] => Ok c | _ => dealer_push_request c d reqs end.

Definition ctx_remove_server_dealer (c : ctx) (rpc_id sid : Z) (d : nat) : result ctx :=
  match _server_backend c !! rpc_id with
  | None => Abort
  | Some q => q ← remove_server_dealer q sid d; Ok (put_or_erase c rpc_id q)
  end.

(** [emplace] keeps an entry that exists. *)
Definition add_client_dealer (c : ctx) (d : nat) : result ctx :=
  match dealers c !! d with
  | None => Abort
  | Some x => Ok (match _client_backend c !! _id x with
                  | Some _ => c
                  | None => set_client_backend c (<[_id x := d]> (_client_backend c))
                  end)
  end.

Definition remove_client_dealer (c : ctx) (d : nat) : result ctx :=
  match dealers c !! d with
  | None => Abort
  | Some x => Ok (set_client_backend c (delete (_id x) (_client_backend c)))
  end.

(** *** Delivery inside the process *)
Definition push_request (first : gmap Z (list pkt) → Z) (c : ctx) (req : pkt) : result ctx :=
  let id := rpc_id (hd req) in
  match _server_backend c !! id with
  | None => Ok c
  | Some q =>
      '(q, d, _) ← route first q req;
      let c := set_backend c (<[id := q]> (_server_backend c)) in
      match d with Some d => dealer_push_request c d [req] | None => Ok c end
  end.

Definition push_response (c : ctx) (resp : pkt) : result ctx :=
  match _client_backend c !! dest_dealer (hd resp) with
  | Some d => dealer_push_response c d resp
  | None => Ok c
  end.

(** *** Choosing a frontend *)
Definition is_available (c : ctx) (f : nat) : bool :=
  match fronts c !! f with Some x => available x | None => false end.

Definition get_client_frontend_by_rank (c : ctx) (rank : Z) : option nat :=
  match _client_sockets c !! rank with
  | None => None
  | Some f => if is_available c f then Some f else None
  end.

Definition get_server_frontend_by_rank (c : ctx) (rank : Z) : option nat :=
  match _server_sockets c !! rank with
  | None => None
  | Some f => if is_available c f then Some f else None
  end.

(** [rnd] is what [rand()] returns. *)
Definition get_client_frontend_by_rpc_id (c : ctx) (rnd : nat) (rpc_id : Z) : option nat :=
  match _rpc_server_frontend c !! rpc_id with
  | None => None
  | Some v =>
      match v !! (rnd `mod` length v)%nat with
      | None => None
      | Some f => if is_available c f then Some f
                  else snd <$> list_find (λ f, is_available c f = true) v
      end
  end.

Definition get_client_frontend_by_sid (c : ctx) (rpc_id server_id : Z) : option nat :=
  let slow :=
    match _rpc_server_info c !! rpc_id with
    | None => None
    | Some m =>
        match m !! server_id with
        | None => None
        | Some rank => get_client_frontend_by_rank c rank
        end
    end in
  match _rpc_server_id_frontend c !! rpc_sid_pack rpc_id server_id with
  | Some f => if is_available c f then Some f else slow
  | None => slow
  end.

(** *** Sending *)
Definition with_error (h : rpc_head_t) (err : Z) : rpc_head_t :=
  RpcHead (body_size h) (src_rank h) (dest_rank h) (src_dealer h) (dest_dealer h) (rpc_id h)
    (sid h) (extra_block_count h) (extra_block_length h) err.

(** [none] is the body of a response without content. *)
Definition ctx_send_request (first : gmap Z (list pkt) → Z) (none : B) (c : ctx) (rnd : nat) (m : pkt)
    : result (ctx * Z) :=
  let h := hd m in
  let f := if negb (sid h =? -1) then get_client_frontend_by_sid c (rpc_id h) (sid h)
           else if negb (dest_rank h =? -1) then get_client_frontend_by_rank c (dest_rank h)
           else get_client_frontend_by_rpc_id c rnd (rpc_id h) in
  match f ≫= λ f, (λ x, (f, x)) <$> fronts c !! f with
  | None =>
      c ← push_response c (Pkt (with_error (RpcResponse_head h) ENOSUCHSERVER) none);
      Ok (c, -1)
  | Some (f, x) =>
      if f_rank x =? _self c then c ← push_request first c m; Ok (c, f_rank x)
      else Ok (log_sent c f m, f_rank x)
  end.

Definition ctx_send_response (c : ctx) (resp : pkt) : ctx :=
  match get_server_frontend_by_rank c (dest_rank (hd resp)) ≫= λ f, (λ x, (f, x)) <$> fronts c !! f with
  | None => c
  | Some (f, x) => if state_has x FRONTEND_DISCONNECT then c else log_sent c f resp
  end.

(** *** Frontends come and go *)

(** [epoll] is not modelled; what is left of [remove_frontend] are the tables. *)
Definition remove_frontend (c : ctx) (f : nat) : ctx :=
  match fronts c !! f with
  | None => c
  | Some x =>
      let fd := foldr delete (_fd_map c) (f_fds x) in
      if _is_client_socket x
      then set_sockets c (fronts c) (_to_del_client_sockets c) (delete (f_rank x) (_client_sockets c))
             (_server_sockets c) fd
      else set_sockets c (fronts c) (_to_del_client_sockets c) (_client_sockets c)
             (delete (f_rank x) (_server_sockets c)) fd
  end.

Definition set_state (c : ctx) (f : nat) (st : Z) : ctx :=
  match fronts c !! f with
  | None => c
  | Some x => set_sockets c (<[f := MkFrontEnd (f_rank x) st (f_rested x) (_is_client_socket x) (f_fds x)]>
                               (fronts c))
                (_to_del_client_sockets c) (_client_sockets c) (_server_sockets c) (_fd_map c)
  end.

(** The asynchronous part of [accept]: [f] is the new object, for a peer of rank [rank]. *)
Definition accepted (c : ctx) (f : nat) (rank : Z) (fds : list Z) : ctx :=
  let c := match _server_sockets c !! rank with Some old => remove_frontend c old | None => c end in
  set_sockets c (<[f := MkFrontEnd rank FRONTEND_CONNECT false false fds]> (fronts c))
    (_to_del_client_sockets c) (_client_sockets c)
    (match _server_sockets c !! rank with
     | Some _ => _server_sockets c
     | None => <[rank := f]> (_server_sockets c)
     end)
    (foldr (λ fd m, <[fd := f]> m) (_fd_map c) fds).

(** [handle_message_event]: the complete messages of the descriptor, and whether its
    connection is alive. *)
Fixpoint dispatch (first : gmap Z (list pkt) → Z) (c : ctx) (ms : list pkt) : result ctx :=
  match ms with
  | [] => Ok c
  | m :: ms =>
      c ← (if dest_dealer (hd m) =? -1 then push_request first c m else push_response c m);
      dispatch first c ms
  end.

Definition handle_message_event (first : gmap Z (list pkt) → Z) (c : ctx) (fd : Z) (ms : list pkt)
    (alive : bool) : result ctx :=
  match _fd_map c !! fd with
  | None => Ok c
  | Some f =>
      c ← dispatch first c ms;
      if alive then Ok c
      else
        let c := set_state c f FRONTEND_EPIPE in
        match fronts c !! f with
        | Some x => Ok (if decide (f_rank x ∈ _to_del_client_sockets c) then remove_frontend c f else c)
        | None => Ok c
        end
  end.

(** The first halves of [update_comm_info]: which frontends have to go.  [list] and
    [master] are ranks: [CommInfo] compares by rank only.  [iter] is the iteration order
    of the two socket maps. *)
Definition stale (c : ctx) (iter : gmap Z nat → list (Z * nat)) (m : gmap Z nat) (known : list Z)
    : list nat :=
  snd <$> filter (λ rf, default 0 (f_rank <$> fronts c !! rf.2) ∉ known) (iter m).

Definition retire (c : ctx) (f : nat) : ctx :=
  match fronts c !! f with
  | None => c
  | Some x =>
      if available x
      then set_sockets c (fronts c) ({[f_rank x]} ∪ _to_del_client_sockets c) (_client_sockets c)
             (_server_sockets c) (_fd_map c)
      else remove_frontend c f
  end.

(** New client frontends get the addresses from [next] on. *)
Fixpoint add_frontends (c : ctx) (next : nat) (ranks : list Z) : ctx :=
  match ranks with
  | [] => c
  | rank :: ranks =>
      let fr := <[next := MkFrontEnd rank FRONTEND_DISCONNECT false true []]> (fronts c) in
      let cl := match _client_sockets c !! rank with
                | Some _ => _client_sockets c
                | None => <[rank := next]> (_client_sockets c)
                end in
      add_frontends (set_sockets c fr (_to_del_client_sockets c) cl (_server_sockets c) (_fd_map c))
        (S next) ranks
  end.

Definition update_comm_info (c : ctx) (iter : gmap Z nat → list (Z * nat)) (next : nat)
    (list_ master : list Z) : ctx :=
  let suspects := stale c iter (_server_sockets c) list_ in
  let known := match suspects with [] => list_ | _ => master end in
  let to_del := match suspects with [] => [] | _ => stale c iter (_server_sockets c) known end ++
                stale c iter (_client_sockets c) known in
  let c := foldl retire c to_del in
  add_frontends c next (filter (λ r, _client_sockets c !! r = None) list_).

(** [update_service_info]: servers on unknown ranks are left out, then the tables are
    rebuilt.  [iter] is the iteration order of [_rpc_info]. *)
Definition known_servers (c : ctx) (info : RpcServiceInfo) : RpcServiceInfo :=
  MkServiceInfo (rpc_service_name info) (service_rpc_id info)
    (filter (λ s, is_Some (_client_sockets c !! server_rank s)) (servers info)).

(** One server of a service in the second loop. *)
Definition add_server_entry (c : ctx) (id : Z) (s : ServerInfo) : result ctx :=
  let f := default 0%nat (_client_sockets c !! server_rank s) in
  let key := rpc_sid_pack id (server_id s) in
  let si := <[id := <[server_id s := server_rank s]> (default ∅ (_rpc_server_info c !! id))]>
              (_rpc_server_info c) in
  let sf := <[id := default [] (_rpc_server_frontend c !! id) ++ [f]]> (_rpc_server_frontend c) in
  match _rpc_server_id_frontend c !! key with
  | Some _ => Abort
  | None => Ok (set_services c (_rpc_info c) si sf (<[key := f]> (_rpc_server_id_frontend c)))
  end.

Fixpoint add_entries (c : ctx) (l : list (Z * ServerInfo)) : result ctx :=
  match l with
  | [] => Ok c
  | (id, s) :: l => c ← add_server_entry c id s; add_entries c l
  end.

Definition update_service_info (c : ctx)
    (iter : gmap (list byte) RpcServiceInfo → list (list byte * RpcServiceInfo))
    (list_ : list RpcServiceInfo) : result ctx :=
  let infos := foldl (λ (m : gmap (list byte) RpcServiceInfo) i, match m !! rpc_service_name i with
                            | Some _ => m
                            | None => <[rpc_service_name i := i]> m
                            end) ∅ (known_servers c <$> list_) in
  add_entries (set_services c infos ∅ ∅ ∅)
    (iter infos ≫= λ ni, (λ s, (service_rpc_id ni.2, s)) <$> servers ni.2).

Definition get_rpc_service_info (c : ctx) (name : list byte) : option RpcServiceInfo := _rpc_info c !! name.

Definition get_avaliable_servers (c : ctx) (name : list byte) : option (list Z) :=
  match _rpc_info c !! name with
  | None => None
  | Some info =>
      Some (server_id <$> filter (λ s,
        match get_client_frontend_by_sid c (service_rpc_id info) (server_id s) with
        | Some f => is_available c f
        | None => false
        end = true) (servers info))
  end.

(** ** [Dealer] *)

(** [gen_id]: the counter and the used numbers; [fuel] bounds the search, which ends
    after at most one more step than there are used numbers. *)
Fixpoint gen_id (fuel : nat) (next_ : Z) (used : gset Z) : option (Z * Z * gset Z) :=
  match fuel with
  | O => None
  | S fuel =>
      let ret := Z.land next_ (2 ^ 31 - 1) in
      let next_ := u32 (next_ + 1) in
      if decide (ret ∈ used) then gen_id fuel next_ used else Some (ret, next_, {[ret]} ∪ used)
  end.

(** The head a dealer gives to a request. *)
Definition request_head (x : dealer) (src_dealer : Z) (h : rpc_head_t) : rpc_head_t :=
  RpcHead (body_size h) (_g_rank x) (dest_rank h) src_dealer (dest_dealer h) (_rpc_id x) (sid h)
    (extra_block_count h) (extra_block_length h) (error_code h).

Definition set_route (c : ctx) (d : nat) (rank : Z) (srv : gset Z) : ctx :=
  match dealers c !! d with
  | None => c
  | Some x => set_dealers c (<[d := MkDealer (_rpc_id x) (_g_rank x) (_id x) (_server_req_ch x)
      (_client_resp_ch x) (_initialized_server x) (_initialized_client x) rank srv
      (_server_req_spent x) (_client_resp_spent x)]> (dealers c))
  end.

(** [_send_request], after the head was completed: local servers are preferred. *)
Definition _send_request (first : gmap Z (list pkt) → Z) (none : B) (c : ctx) (d : nat) (rnd : nat)
    (src_dealer : Z) (req : pkt) : result ctx :=
  match dealers c !! d with
  | None => Abort
  | Some x =>
      _ ← SCHECK (_initialized_client x);
      let req := Pkt (request_head x src_dealer (hd req)) (body req) in
      let sid := sid (hd req) in
      if negb (sid =? -1) then
        if decide (sid ∈ _servers x) then push_request first c req
        else
          '(c, rank) ← ctx_send_request first none c rnd req;
          Ok (if rank =? _g_rank x then set_route c d (_g_rank x) ({[sid]} ∪ _servers x) else c)
      else if negb (dest_rank (hd req) =? -1) then
        if dest_rank (hd req) =? _g_rank x then push_request first c req
        else
          '(c, rank) ← ctx_send_request first none c rnd req;
          Ok (if _available_rank x =? _g_rank x then c else set_route c d rank (_servers x))
      else if _available_rank x =? _g_rank x then push_request first c req
      else
        '(c, rank) ← ctx_send_request first none c rnd req;
        Ok (set_route c d rank (_servers x))
  end.

Definition send_request (first : gmap Z (list pkt) → Z) (none : B) (c : ctx) (d : nat) (rnd : nat)
    (req : pkt) : result ctx :=
  match dealers c !! d with
  | None => Abort
  | Some x => _send_request first none c d rnd (_id x) req
  end.

Definition send_request_one_way (first : gmap Z (list pkt) → Z) (none : B) (c : ctx) (d : nat)
    (rnd : nat) (req : pkt) : result ctx := _send_request first none c d rnd (-1) req.

Definition send_response (c : ctx) (d : nat) (resp : pkt) : result ctx :=
  match dealers c !! d with
  | None => Abort
  | Some x =>
      if dest_dealer (hd resp) =? -1 then Ok c
      else if dest_rank (hd resp) =? _g_rank x then push_response c resp
      else Ok (ctx_send_response c resp)
  end.

(** ** The service tables *)
Definition in_range (x : Z * ServerInfo) : Prop :=
  0 ≤ x.1 < 2 ^ 31 ∧ 0 ≤ server_id x.2 < 1000000007.

Definition key_of_server (x : Z * ServerInfo) : Z * Z := (x.1, server_id x.2).
Definition front_of (c : ctx) (s : ServerInfo) : nat := default 0%nat (_client_sockets c !! server_rank s).

Lemma rpc_sid_pack_inj i s i' s' :
  0 ≤ i < 2 ^ 31 → 0 ≤ s < 1000000007 → 0 ≤ i' < 2 ^ 31 → 0 ≤ s' < 1000000007 →
  rpc_sid_pack i s = rpc_sid_pack i' s' → i = i' ∧ s = s'.
Proof. intros. unfold rpc_sid_pack in *. rewrite !wrap_small in * by (unfold in_unsigned; lia). lia. Qed.

(** The tables list exactly the servers [l]. *)
Record Tables (c : ctx) (l : list (Z * ServerInfo)) : Prop := {
  tab_info i s r : (_rpc_server_info c !! i ≫= λ m, m !! s) = Some r ↔
    ∃ x, (i, x) ∈ l ∧ server_id x = s ∧ server_rank x = r;
  tab_pack k f : _rpc_server_id_frontend c !! k = Some f ↔
    ∃ x, x ∈ l ∧ k = rpc_sid_pack x.1 (server_id x.2) ∧ f = front_of c x.2;
  tab_list i : _rpc_server_frontend c !! i =
    match (λ x, front_of c x.2) <$> filter (λ x, x.1 = i) l with [] => None | v => Some v end;
}.

(** Rebuilding the tables touches nothing else. *)
Definition same_sockets (c c' : ctx) : Prop :=
  fronts c' = fronts c ∧ _client_sockets c' = _client_sockets c ∧ _rpc_info c' = _rpc_info c.

Lemma front_of_same c c' s : same_sockets c c' → front_of c' s = front_of c s.
Proof. intros (_ & H & _). unfold front_of. by rewrite H. Qed.

Lemma lookup_nested (m : gmap Z (gmap Z Z)) i s r i' s' :
  (<[i := <[s := r]> (default ∅ (m !! i))]> m !! i' ≫= λ m, m !! s') =
  if decide ((i, s) = (i', s')) then Some r else m !! i' ≫= λ m, m !! s'.
Proof.
  destruct (decide (i = i')) as [<-|Hne].
  - rewrite lookup_insert_eq. cbn. case_decide as E.
    + injection E as <-. by rewrite lookup_insert_eq.
    + rewrite lookup_insert_ne by congruence. destruct (m !! i); cbn; [done|]. by rewrite lookup_empty.
  - rewrite lookup_insert_ne, decide_False by congruence. done.
Qed.

Lemma add_server_entry_ok c l i s : Tables c l → Forall in_range (l ++ [(i, s)]) →
  NoDup (key_of_server <$> l ++ [(i, s)]) →
  ∃ c', add_server_entry c i s = Ok c' ∧ same_sockets c c' ∧ Tables c' (l ++ [(i, s)]).
Proof.
  intros [H1 H2 H3] Hr Hnd. rewrite fmap_app in Hnd. apply NoDup_app in Hnd as (_ & Hfresh & _).
  apply Forall_app in Hr as [Hr [Hri Hrs]%Forall_singleton]. cbn in Hri, Hrs.
  assert (Hnew : ∀ x, (i, x) ∈ l → server_id x ≠ server_id s).
  { intros x Hx E. apply (Hfresh (i, server_id x)); [by apply (list_elem_of_fmap_2 key_of_server _ (i, x))|].
    cbn. rewrite E. by apply list_elem_of_singleton. }
  unfold add_server_entry. fold (front_of c s).
  destruct (_rpc_server_id_frontend c !! rpc_sid_pack i (server_id s)) as [f|] eqn:Ek.
  { exfalso. apply H2 in Ek as ([i' x] & Hx & Hk & _). rewrite Forall_forall in Hr.
    destruct (Hr _ Hx) as [Hr1 Hr2]. cbn in *. apply rpc_sid_pack_inj in Hk as [-> Hs]; [|done..].
    by apply (Hnew x). }
  eexists. split; [done|]. split; [done|]. split; cbn.
  - intros i' s' r. rewrite lookup_nested. setoid_rewrite elem_of_app.
    setoid_rewrite list_elem_of_singleton. case_decide as E.
    + injection E as <- <-. split; [intros [= <-]; exists s; auto|].
      intros (x & [Hx|[= ->]] & Hs & <-); [by destruct (Hnew x Hx)|done].
    + rewrite H1. split; [intros (x & ? & ?); eauto|].
      intros (x & [Hx|[= -> ->]] & Hs & ?); [eauto|congruence].
  - intros k f. setoid_rewrite elem_of_app. setoid_rewrite list_elem_of_singleton.
    destruct (decide (rpc_sid_pack i (server_id s) = k)) as [<-|Hne].
    + rewrite lookup_insert_eq. split.
      * intros [= <-]. exists (i, s). auto.
      * intros (x & [Hx|[= ->]] & Hk & ->); [|done].
        assert (_rpc_server_id_frontend c !! rpc_sid_pack i (server_id s) = Some (front_of c x.2)) as E
          by (apply H2; eauto). congruence.
    + rewrite lookup_insert_ne by done. rewrite H2. split; [intros (x & ? & ?); eauto|].
      intros (x & [Hx| ->] & Hk & ?); [eauto|done].
  - intros i'. rewrite filter_app, fmap_app. specialize (H3 i').
    destruct (decide (i = i')) as [<-|Hne].
    + rewrite lookup_insert_eq, H3, filter_cons_True by done. cbn.
      destruct (_ <$> filter _ l); done.
    + rewrite lookup_insert_ne, H3, filter_cons_False by done. cbn. by rewrite app_nil_r.
Qed.

Lemma Tables_start c infos : Tables (set_services c infos ∅ ∅ ∅) [].
Proof.
  split; cbn.
  - intros i s r. rewrite lookup_empty. cbn. split; [done|]. by intros (x & ?%elem_of_nil & _).
  - intros k f. rewrite lookup_empty. split; [done|]. by intros (x & ?%elem_of_nil & _).
  - intros i. by rewrite lookup_empty.
Qed.

Lemma add_entries_ok l : ∀ c done, Tables c done → Forall in_range (done ++ l) →
  NoDup (key_of_server <$> done ++ l) →
  ∃ c', add_entries c l = Ok c' ∧ same_sockets c c' ∧ Tables c' (done ++ l).
Proof.
  induction l as [|[i s] l IH]; intros c dn Ht Hr Hnd; cbn [add_entries].
  { exists c. rewrite app_nil_r. done. }
  rewrite (cons_middle (i, s)), app_assoc in Hr, Hnd.
  destruct (add_server_entry_ok c dn i s) as (c1 & -> & Hs1 & Ht1); [done| | |].
  { by apply Forall_app in Hr as [? _]. }
  { rewrite fmap_app in Hnd. by apply NoDup_app in Hnd as [? _]. }
  step_ok. destruct (IH c1 (dn ++ [(i, s)])) as (c' & -> & Hs2 & Ht2); [done..|].
  exists c'. rewrite (cons_middle (i, s)), app_assoc. split; [done|]. split; [|done].
  destruct Hs1 as (? & ? & ?), Hs2 as (? & ? & ?). repeat split; congruence.
Qed.

(** The services of a list, by name, as [update_service_info] collects them. *)
Lemma collect_services (l : list RpcServiceInfo) : ∀ m : gmap (list byte) RpcServiceInfo,
  NoDup (rpc_service_name <$> l) → (∀ i, i ∈ l → m !! rpc_service_name i = None) →
  map_to_list (foldl (λ (m : gmap (list byte) RpcServiceInfo) i,
    match m !! rpc_service_name i with Some _ => m | None => <[rpc_service_name i := i]> m end) m l)
  ≡ₚ map_to_list m ++ ((λ i, (rpc_service_name i, i)) <$> l).
Proof.
  induction l as [|i l IH]; intros m Hnd Hm; cbn.
  { by rewrite app_nil_r. }
  apply NoDup_cons in Hnd as [Hi Hnd]. rewrite (Hm i) by (left; done). rewrite IH; [|done|].
  - rewrite map_to_list_insert by (apply Hm; left; done). by rewrite <- Permutation_middle.
  - intros j Hj. rewrite lookup_insert_ne; [apply Hm; by right|].
    intros E. apply Hi. rewrite E. by apply list_elem_of_fmap_2.
Qed.

(** The servers that [update_service_info] keeps. *)
Definition entries (c : ctx) (l : list RpcServiceInfo) : list (Z * ServerInfo) :=
  (known_servers c <$> l) ≫= λ i, pair (service_rpc_id i) <$> servers i.

Lemma entries_elem c l i s : (i, s) ∈ entries c l ↔
  ∃ info, info ∈ l ∧ service_rpc_id info = i ∧ s ∈ servers info ∧ is_Some (_client_sockets c !! server_rank s).
Proof.
  unfold entries. rewrite list_elem_of_bind. setoid_rewrite list_elem_of_fmap. split.
  - intros (x & (s' & [= -> ->] & Hs) & info & -> & Hinfo). cbn in Hs.
    apply list_elem_of_filter in Hs as [? ?]. eauto 10.
  - intros (info & Hinfo & <- & Hs & Hsome). exists (known_servers c info). split; [|eauto].
    exists s. split; [done|]. cbn. by apply list_elem_of_filter.
Qed.

Lemma update_service_info_tables c iter l :
  (∀ m, iter m ≡ₚ map_to_list m) → NoDup (rpc_service_name <$> l) →
  Forall in_range (entries c l) → NoDup (key_of_server <$> entries c l) →
  ∃ c' L, update_service_info c iter l = Ok c' ∧ L ≡ₚ entries c l ∧ Tables c' L ∧
    fronts c' = fronts c ∧ _client_sockets c' = _client_sockets c ∧
    ∀ i, i ∈ l → _rpc_info c' !! rpc_service_name i = Some (known_servers c i).
Proof.
  intros Hiter Hnames Hr Hnd. unfold update_service_info. set (infos := foldl _ _ _).
  assert (Hinfos : map_to_list infos ≡ₚ (λ i, (rpc_service_name i, i)) <$> (known_servers c <$> l)).
  { unfold infos. rewrite collect_services, map_to_list_empty; [done| |].
    - by rewrite <- list_fmap_compose.
    - intros. apply lookup_empty. }
  set (L := iter infos ≫= _).
  assert (HL : L ≡ₚ entries c l).
  { unfold L, entries. rewrite Hiter, Hinfos. by rewrite list_fmap_bind. }
  destruct (add_entries_ok L (set_services c infos ∅ ∅ ∅) []) as (c' & Ha & (Hf & Hcl & Hi) & Ht).
  - apply Tables_start.
  - cbn. by rewrite HL.
  - cbn. by rewrite HL.
  - exists c', L. split; [done|]. split; [done|]. split; [done|]. split; [done|]. split; [done|].
    intros i Hin. rewrite Hi. cbn. apply elem_of_map_to_list. rewrite Hinfos.
    change (rpc_service_name i) with (rpc_service_name (known_servers c i)).
    apply (list_elem_of_fmap_2 (λ i, (rpc_service_name i, i))). by apply list_elem_of_fmap_2.
Qed.

Lemma by_rank_front c s : is_Some (_client_sockets c !! server_rank s) →
  get_client_frontend_by_rank c (server_rank s) =
  if is_available c (front_of c s) then Some (front_of c s) else None.
Proof. intros [f Hf]. unfold get_client_frontend_by_rank, front_of. by rewrite Hf. Qed.

Section lookups.
Context (c : ctx) (L : list (Z * ServerInfo)) (tables : Tables c L).
Context (known : ∀ x, x ∈ L → is_Some (_client_sockets c !! server_rank x.2)).
Context (ranges : Forall in_range L) (keys : NoDup (key_of_server <$> L)).

Lemma by_sid_listed i s : (i, s) ∈ L →
  get_client_frontend_by_sid c i (server_id s) = get_client_frontend_by_rank c (server_rank s).
Proof.
  intros Hin. unfold get_client_frontend_by_sid.
  assert (Hp : _rpc_server_id_frontend c !! rpc_sid_pack i (server_id s) = Some (front_of c s)).
  { apply (tab_pack c L tables). by exists (i, s). }
  assert (Hi : (_rpc_server_info c !! i ≫= λ m, m !! server_id s) = Some (server_rank s)).
  { apply (tab_info c L tables). eauto. }
  rewrite Hp, (by_rank_front c s (known _ Hin)).
  destruct (is_available c (front_of c s)) eqn:E; [done|].
  destruct (_rpc_server_info c !! i) as [m|]; [|done]. cbn in Hi. rewrite Hi.
  by rewrite (by_rank_front c s (known _ Hin)), E.
Qed.

Lemma by_sid_unlisted i k : 0 ≤ i < 2 ^ 31 → 0 ≤ k < 1000000007 →
  (∀ s, (i, s) ∈ L → server_id s ≠ k) → get_client_frontend_by_sid c i k = None.
Proof.
  intros Hi Hk Hno. unfold get_client_frontend_by_sid.
  destruct (_rpc_server_id_frontend c !! rpc_sid_pack i k) as [f|] eqn:E.
  { apply (tab_pack c L tables) in E as ([i' s] & Hin & Hp & _). rewrite Forall_forall in ranges.
    destruct (ranges _ Hin) as [H1 H2]. cbn in *. apply rpc_sid_pack_inj in Hp as [-> ->]; [|done..].
    by destruct (Hno s Hin). }
  destruct (_rpc_server_info c !! i) as [m|] eqn:Em; [|done]. destruct (m !! k) as [r|] eqn:Er; [|done].
  assert ((_rpc_server_info c !! i ≫= λ m, m !! k) = Some r) as H by (rewrite Em; done).
  apply (tab_info c L tables) in H as (s & Hin & Hs & _). by destruct (Hno s Hin).
Qed.

Lemma by_rpc_id_listed rnd i :
  match get_client_frontend_by_rpc_id c rnd i with
  | Some f => is_available c f = true ∧ ∃ s, (i, s) ∈ L ∧ f = front_of c s
  | None => ∀ s, (i, s) ∈ L → get_client_frontend_by_rank c (server_rank s) = None
  end.
Proof.
  unfold get_client_frontend_by_rpc_id. rewrite (tab_list c L tables i).
  set (v := _ <$> filter _ L).
  assert (Hv : ∀ f, f ∈ v ↔ ∃ s, (i, s) ∈ L ∧ f = front_of c s).
  { intros f. unfold v. rewrite list_elem_of_fmap. setoid_rewrite list_elem_of_filter. split.
    - intros ([i' s] & -> & <- & Hin). eauto.
    - intros (s & Hin & ->). by exists (i, s). }
  assert (Hall : (∀ f, f ∈ v → is_available c f = false) →
                 ∀ s, (i, s) ∈ L → get_client_frontend_by_rank c (server_rank s) = None).
  { intros Ha s Hin. rewrite (by_rank_front c s (known _ Hin)), Ha; [done|]. apply Hv. eauto. }
  clearbody v. destruct v as [|f0 v0] eqn:Ev; [apply Hall; by intros f ?%elem_of_nil|].
  rewrite <- Ev in *. destruct (v !! (rnd `mod` length v)%nat) as [f|] eqn:Ef.
  2: { apply lookup_ge_None in Ef. pose proof (Nat.mod_upper_bound rnd (length v)). subst v. cbn in *. lia. }
  destruct (is_available c f) eqn:E; [split; [done|apply Hv; by eapply list_elem_of_lookup_2]|].
  destruct (list_find _ v) as [[j g]|] eqn:Eg; cbn.
  - apply list_find_Some in Eg as (Hg & Ha & _). split; [done|]. apply Hv. by eapply list_elem_of_lookup_2.
  - apply Hall. apply list_find_None in Eg. rewrite Forall_forall in Eg. intros g Hg.
    specialize (Eg g Hg). by destruct (is_available c g).
Qed.
End lookups.

(** C30: after [update_service_info] the routing tables agree with the list.  A server is
    looked up by its id as if by its rank, whether the fast table or the slow one
    answers; an id that is not listed finds nothing; a service finds an available
    server of its own as long as there is one; and the available servers of a service
    are reported in the order of the list.  Ids have to be distinct within a service and
    small enough for the packed keys. *)
Theorem service_tables_route c iter l :
  (∀ m, iter m ≡ₚ map_to_list m) → NoDup (rpc_service_name <$> l) →
  Forall in_range (entries c l) → NoDup (key_of_server <$> entries c l) →
  ∃ c', update_service_info c iter l = Ok c' ∧
  (∀ i s, (i, s) ∈ entries c l →
    get_client_frontend_by_sid c' i (server_id s) = get_client_frontend_by_rank c (server_rank s)) ∧
  (∀ i k, 0 ≤ i < 2 ^ 31 → 0 ≤ k < 1000000007 → (∀ s, (i, s) ∈ entries c l → server_id s ≠ k) →
    get_client_frontend_by_sid c' i k = None) ∧
  (∀ rnd i, match get_client_frontend_by_rpc_id c' rnd i with
    | Some f => is_available c f = true ∧ ∃ s, (i, s) ∈ entries c l ∧ f = front_of c s
    | None => ∀ s, (i, s) ∈ entries c l → get_client_frontend_by_rank c (server_rank s) = None
    end) ∧
  (∀ info, info ∈ l → get_avaliable_servers c' (rpc_service_name info) =
    Some (server_id <$> filter (λ s, is_Some (get_client_frontend_by_rank c (server_rank s))) (servers info))).
Proof.
  intros Hiter Hnames Hr Hnd.
  destruct (update_service_info_tables c iter l) as (c' & L & Hu & HL & Ht & Hf & Hcl & Hi); [done..|].
  assert (Hrank : ∀ r, get_client_frontend_by_rank c' r = get_client_frontend_by_rank c r).
  { intros r. unfold get_client_frontend_by_rank, is_available. by rewrite Hf, Hcl. }
  assert (Hk : ∀ x, x ∈ L → is_Some (_client_sockets c' !! server_rank x.2)).
  { intros [i s]. rewrite HL, Hcl. intros (? & _ & _ & _ & ?)%entries_elem. done. }
  assert (Hsid : ∀ i s, (i, s) ∈ entries c l →
    get_client_frontend_by_sid c' i (server_id s) = get_client_frontend_by_rank c (server_rank s)).
  { intros i s Hin. rewrite <- HL in Hin. by rewrite (by_sid_listed c' L Ht Hk i s Hin), Hrank. }
  exists c'. split; [done|]. split; [done|]. split; [|split].
  - intros i k Hi1 Hk1 Hno. eapply (by_sid_unlisted c' L); eauto; [by rewrite HL|].
    intros s Hs. apply Hno. by rewrite <- HL.
  - intros rnd i. pose proof (by_rpc_id_listed c' L Ht Hk rnd i) as Hl.
    unfold is_available, front_of in *. rewrite Hf in Hl.
    destruct (get_client_frontend_by_rpc_id c' rnd i); setoid_rewrite HL in Hl.
    + by rewrite Hcl in Hl.
    + intros s Hs. by rewrite <- Hrank, Hl.
  - intros info Hin. unfold get_avaliable_servers. rewrite (Hi info Hin). cbn. do 2 f_equal.
    rewrite list_filter_filter. apply filter_ext_in. intros s Hs. split.
    + intros [Ha Hc]. rewrite (Hsid (service_rpc_id info) s) in Ha by (apply entries_elem; eauto 10).
      destruct (get_client_frontend_by_rank c (server_rank s)); [done|discriminate].
    + intros [f Hb]. assert (is_Some (_client_sockets c !! server_rank s)) as Hc.
      { unfold get_client_frontend_by_rank in Hb. by destruct (_client_sockets c !! server_rank s). }
      split; [|done]. rewrite (Hsid (service_rpc_id info) s), Hb by (apply entries_elem; eauto 10).
      rewrite (by_rank_front c s Hc) in Hb. unfold is_available in *. rewrite Hf.
      destruct (fronts c !! front_of c s) as [x|] eqn:E; [|done].
      destruct (available x) eqn:Ea; [|done]. injection Hb as <-. by rewrite E.
Qed.

(** ** Dealer numbers *)
Lemma id_mask n : Z.land n (2 ^ 31 - 1) = n mod 2 ^ 31.
Proof. change (2 ^ 31 - 1) with (Z.ones 31). by rewrite Z.land_ones. Qed.

Lemma u32_mask n : u32 n mod 2 ^ 31 = n mod 2 ^ 31.
Proof. unfold wrap. rewrite <- Znumtheory.Zmod_div_mod; [done|lia|lia|]. by exists 2. Qed.

Lemma gen_id_cases k used : ∀ n,
  match gen_id k n used with
  | Some (r, _, used') => 0 ≤ r < 2 ^ 31 ∧ r ∉ used ∧ used' = {[r]} ∪ used
  | None => ∀ j, (j < k)%nat → (n + Z.of_nat j) mod 2 ^ 31 ∈ used
  end.
Proof.
  induction k as [|k IH]; intros n; cbn [gen_id]; [lia|]. rewrite id_mask. case_decide as E.
  - specialize (IH (u32 (n + 1))). destruct (gen_id k (u32 (n + 1)) used) as [[[r n'] used']|]; [done|].
    intros [|j] Hj; [by rewrite Z.add_0_r|]. specialize (IH j ltac:(lia)).
    rewrite <- Zplus_mod_idemp_l, u32_mask, Zplus_mod_idemp_l in IH.
    by replace (n + Z.of_nat (S j)) with (n + 1 + Z.of_nat j) by lia.
  - split; [apply Z.mod_pos_bound; lia|done].
Qed.

Lemma mod_window n k : (Z.of_nat k ≤ 2 ^ 31) →
  NoDup ((λ j, (n + Z.of_nat j) mod 2 ^ 31) <$> seq 0 k).
Proof.
  intros Hk. apply NoDup_fmap_2_strong; [|apply NoDup_seq].
  intros i j [_ Hi]%elem_of_seq [_ Hj]%elem_of_seq E.
  pose proof (Z.div_mod (n + Z.of_nat i) (2 ^ 31) ltac:(lia)).
  pose proof (Z.div_mod (n + Z.of_nat j) (2 ^ 31) ltac:(lia)). nia.
Qed.

(** [gen_id] ends, within one step more than there are numbers in use as long as
    these are fewer than [2^31], and gives a non-negative [int] that no dealer has; the
    counter may overflow meanwhile. *)
Lemma gen_id_fresh n used : Z.of_nat (size used) < 2 ^ 31 →
  ∃ r n', gen_id (S (size used)) n used = Some (r, n', {[r]} ∪ used) ∧ r ∉ used ∧ 0 ≤ r < 2 ^ 31.
Proof.
  intros Hs. pose proof (gen_id_cases (S (size used)) used n) as Hg.
  destruct (gen_id (S (size used)) n used) as [[[r n'] used']|].
  { destruct Hg as (? & ? & ->). eauto. }
  exfalso. set (l := (λ j, (n + Z.of_nat j) mod 2 ^ 31) <$> seq 0 (S (size used))).
  assert (NoDup l) as Hnd by (apply mod_window; lia).
  assert (Hsub : list_to_set l ⊆ used).
  { intros x Hx%elem_of_list_to_set. apply list_elem_of_fmap in Hx as (j & -> & [_ Hj]%elem_of_seq).
    apply Hg. lia. }
  apply subseteq_size in Hsub. rewrite size_list_to_set in Hsub by done.
  unfold l in Hsub. rewrite length_fmap, length_seq in Hsub. lia.
Qed.

(** ** Calls *)
Section calls.
Context (first : gmap Z (list pkt) → Z) (none : B).

(** A dealer that may issue requests. *)
Definition can_call (c : ctx) (d : nat) (x : dealer) : Prop :=
  dealers c !! d = Some x ∧ _initialized_client x = true ∧ _g_rank x = _self c ∧
  _client_backend c !! _id x = Some d ∧ _id x ≠ -1.

(** The process has server [s] of service [id], with dealers ready to take requests. *)
Definition can_serve (c : ctx) (id s : Z) : Prop :=
  s ≠ -1 ∧ ∃ q, _server_backend c !! id = Some q ∧ FQInv q ∧ dealers_of q s ≠ [] ∧
  ∀ e, e ∈ dealers_of q s → ∃ y, dealers c !! e = Some y ∧ _initialized_server y = true ∧ _g_rank y = _self c.

(** A request as the dealer sends it, and the head of its answer. *)
Definition outgoing (x : dealer) (req : pkt) : pkt := Pkt (request_head x (_id x) (hd req)) (body req).
Definition answer (m : pkt) (b : B) : pkt := Pkt (RpcResponse_head (hd m)) b.

(** What a request under way leaves alone of a dealer. *)
Definition keeps (x x' : dealer) : Prop :=
  _initialized_client x' = _initialized_client x ∧ _id x' = _id x ∧ _g_rank x' = _g_rank x ∧
  _client_resp_ch x' = _client_resp_ch x.

Definition undisturbed (c c' : ctx) : Prop :=
  (∀ d x, dealers c !! d = Some x → ∃ x', dealers c' !! d = Some x' ∧ keeps x x') ∧
  _client_backend c' = _client_backend c ∧ _self c' = _self c ∧ fronts c' = fronts c ∧
  _server_sockets c' = _server_sockets c ∧ _fd_map c' = _fd_map c.

(** Dealer [e] of the process got request [m]. *)
Definition served (c c' : ctx) (e : nat) (m : pkt) : Prop :=
  undisturbed c c' ∧ ∃ y y', dealers c !! e = Some y ∧ dealers c' !! e = Some y' ∧
  _g_rank y' = _self c ∧ _server_req_ch y' = _server_req_ch y ++ [m].

Lemma push_request_served c m : can_serve c (rpc_id (hd m)) (sid (hd m)) →
  ∃ c' e, push_request first c m = Ok c' ∧ served c c' e m ∧ sent c' = sent c ∧
    ∀ q, _server_backend c !! rpc_id (hd m) = Some q → e ∈ dealers_of q (sid (hd m)).
Proof.
  intros (Hs & q & Hb & Hq & Hne & Hready). unfold push_request. rewrite Hb. unfold route, next.
  rewrite (proj2 (Z.eqb_neq _ _) Hs). unfold dealers_of in *.
  destruct (_sid2dealers q !! sid (hd m)) as [ds|] eqn:Hds; [|done].
  destruct (next_dealer_spec q (sid (hd m)) ds Hq Hds) as (i & e & -> & He).
  destruct (Hready e He) as (y & Hy & Hi & Hg). step_ok. unfold dealer_push_request. cbn. rewrite Hy, Hi. step_ok.
  eexists _, e. split; [done|].
  split; [|split; [done|intros q' [= <-]; by rewrite Hds]]. split; [split; [|done]|].
  - intros d x Hd. cbn. destruct (decide (e = d)) as [->|Hne'].
    + exists (got_requests y [m]). rewrite lookup_insert_eq. split; [done|].
      assert (x = y) as -> by congruence. done.
    + exists x. by rewrite lookup_insert_ne.
  - exists y, (got_requests y [m]). cbn. by rewrite lookup_insert_eq.
Qed.

Lemma set_route_served c c' d rank srv e m : served c c' e m → served c (set_route c' d rank srv) e m.
Proof.
  intros [[Hk Hu] (y & y' & Hy & Hy' & Hg & Hch)]. unfold set_route.
  destruct (dealers c' !! d) as [x|] eqn:Hd; [|split; [by split|eauto 10]].
  split; [split; [|done]|].
  - intros d0 x0 H0. destruct (Hk d0 x0 H0) as (x' & Hx' & Hkeep). cbn.
    destruct (decide (d = d0)) as [->|]; [|by rewrite lookup_insert_ne; eauto].
    rewrite lookup_insert_eq. assert (x' = x) as -> by congruence. eauto.
  - cbn. destruct (decide (d = e)) as [->|]; [|rewrite lookup_insert_ne by done; eauto 10].
    rewrite lookup_insert_eq. assert (x = y') as -> by congruence. eauto 10.
Qed.

Lemma push_response_got c d x r :
  dealers c !! d = Some x → _initialized_client x = true → _client_backend c !! dest_dealer (hd r) = Some d →
  ∃ c2 x2, push_response c r = Ok c2 ∧ dealers c2 !! d = Some x2 ∧
    _client_resp_ch x2 = _client_resp_ch x ++ [r].
Proof.
  intros Hd Hi Hb. unfold push_response, dealer_push_response. rewrite Hb, Hd, Hi. step_ok.
  eexists _, (got_response x r). split; [done|]. split; [apply lookup_insert_eq|done].
Qed.

(** A response that reaches the process of the caller reaches the caller. *)
Lemma answer_arrives c c' d x r : can_call c d x → undisturbed c c' → dest_dealer (hd r) = _id x →
  ∃ c2 x2, push_response c' r = Ok c2 ∧ dealers c2 !! d = Some x2 ∧
    _client_resp_ch x2 = _client_resp_ch x ++ [r].
Proof.
  intros (Hd & Hi & _ & Hb & _) (Hk & Hcb & _) Hr. destruct (Hk d x Hd) as (x' & Hx' & Hi' & _ & _ & Hch).
  rewrite <- Hch. apply push_response_got; [done|congruence|by rewrite Hcb, Hr].
Qed.

Lemma answer_local c d x c' e m b : can_call c d x → served c c' e m →
  src_rank (hd m) = _self c → src_dealer (hd m) = _id x →
  ∃ c2 x2, send_response c' e (answer m b) = Ok c2 ∧ dealers c2 !! d = Some x2 ∧
    _client_resp_ch x2 = _client_resp_ch x ++ [answer m b].
Proof.
  intros Hc [Hu (y & y' & Hy & Hy' & Hg & _)] Hr Hd. unfold send_response. rewrite Hy'. cbn.
  pose proof Hc as (_ & _ & _ & _ & Hid). rewrite Hd, (proj2 (Z.eqb_neq _ _) Hid), Hr, Hg, Z.eqb_refl.
  by eapply answer_arrives.
Qed.

(** Where the caller sends a request for server [s]. *)
Definition routes_to (c : ctx) (x : dealer) (s : Z) (f : nat) (rank : Z) : Prop :=
  get_client_frontend_by_sid c (_rpc_id x) s = Some f ∧ f_rank <$> fronts c !! f = Some rank.

Lemma ctx_send_request_by_sid c rnd m x f rank : sid (hd m) ≠ -1 → rpc_id (hd m) = _rpc_id x →
  routes_to c x (sid (hd m)) f rank →
  ctx_send_request first none c rnd m =
    if rank =? _self c then c ← push_request first c m; Ok (c, rank) else Ok (log_sent c f m, rank).
Proof.
  intros Hs Hi [Hf (xf & Hxf & ->)%fmap_Some]. unfold ctx_send_request.
  rewrite (proj2 (Z.eqb_neq _ _) Hs). cbn [negb]. rewrite Hi, Hf. cbn. by rewrite Hxf.
Qed.

(** A call to a server of the same process.  The request lands at the end of the
    channel of a dealer of that server, stamped with the caller's rank and number, and
    whatever that dealer answers is appended to the caller's response channel; so for
    the first call, which goes through the tables, and for the later ones, which do
    not. *)
Theorem local_call_roundtrip c d x rnd req :
  can_call c d x → can_serve c (_rpc_id x) (sid (hd req)) →
  sid (hd req) ∈ _servers x ∨ (∃ f, routes_to c x (sid (hd req)) f (_self c)) →
  ∃ c1 e, send_request first none c d rnd req = Ok c1 ∧ served c c1 e (outgoing x req) ∧
    ∀ b, ∃ c2 x2, send_response c1 e (answer (outgoing x req) b) = Ok c2 ∧ dealers c2 !! d = Some x2 ∧
      _client_resp_ch x2 = _client_resp_ch x ++ [answer (outgoing x req) b].
Proof.
  intros Hc Hs Hroute. pose proof Hc as (Hd & Hi & Hg & _). pose proof Hs as [Hne _].
  assert (∃ c1 e, send_request first none c d rnd req = Ok c1 ∧ served c c1 e (outgoing x req)) as (c1 & e & Hsend & Hserved).
  { destruct (push_request_served c (outgoing x req)) as (c1 & e & Hp & Hsv & _); [done|].
    unfold send_request, _send_request. rewrite Hd, Hi. step_ok. fold (outgoing x req). cbv zeta.
    rewrite (proj2 (Z.eqb_neq _ _) Hne : (sid (hd (outgoing x req)) =? -1) = false). cbn [negb].
    case_decide as Hin; [eauto|]. destruct Hroute as [Hr|[f Hr]]; [done|].
    rewrite (ctx_send_request_by_sid c rnd (outgoing x req) x f (_self c)) by done.
    rewrite Z.eqb_refl, Hp. step_ok. rewrite Hg, Z.eqb_refl. eauto using set_route_served. }
  exists c1, e. split; [done|]. split; [done|]. intros b. by eapply answer_local.
Qed.

(** The request leaves the process through frontend [f]. *)
Lemma send_request_remote c d x rnd req f rank :
  can_call c d x → sid (hd req) ≠ -1 → sid (hd req) ∉ _servers x →
  routes_to c x (sid (hd req)) f rank → rank ≠ _self c →
  send_request first none c d rnd req = Ok (log_sent c f (outgoing x req)).
Proof.
  intros (Hd & Hi & Hg & _) Hs Hin Hr Hne. unfold send_request, _send_request. rewrite Hd, Hi. step_ok.
  fold (outgoing x req). cbv zeta.
  rewrite (proj2 (Z.eqb_neq _ _) Hs : (sid (hd (outgoing x req)) =? -1) = false). cbn [negb].
  rewrite decide_False by done.
  rewrite (ctx_send_request_by_sid c rnd (outgoing x req) x f rank) by done.
  rewrite (proj2 (Z.eqb_neq _ _) Hne). step_ok. by rewrite Hg, (proj2 (Z.eqb_neq _ _) Hne).
Qed.

Lemma log_sent_undisturbed c f m : undisturbed c (log_sent c f m).
Proof. split; [|done]. intros d x Hd. exists x. done. Qed.

(** A call to a server of another process.  The request leaves on the frontend of
    the server's rank; when the other process receives it, it lands at the end of the
    channel of a dealer of that server; what this dealer answers leaves on the frontend
    to the caller's rank, and when the caller's process receives it, it is appended to
    the caller's response channel. *)
Lemma remote_call_roundtrip a b d x rnd req f fd_a fa fd_b fb g :
  can_call a d x → sid (hd req) ∉ _servers x → routes_to a x (sid (hd req)) f (_self b) →
  _self b ≠ _self a → dest_dealer (hd req) = -1 →
  can_serve b (_rpc_id x) (sid (hd req)) →
  _fd_map b !! fd_b = Some fb → _fd_map a !! fd_a = Some fa →
  get_server_frontend_by_rank b (_self a) = Some g →
  (∃ xg, fronts b !! g = Some xg ∧ state_has xg FRONTEND_DISCONNECT = false) →
  ∃ a1, send_request first none a d rnd req = Ok a1 ∧ sent a1 = sent a ++ [(f, outgoing x req)] ∧
  ∃ b1 e, handle_message_event first b fd_b [outgoing x req] true = Ok b1 ∧ served b b1 e (outgoing x req) ∧
  (∀ q, _server_backend b !! _rpc_id x = Some q → e ∈ dealers_of q (sid (hd req))) ∧
  ∀ r, let resp := answer (outgoing x req) r in
  ∃ b2, send_response b1 e resp = Ok b2 ∧ sent b2 = sent b ++ [(g, resp)] ∧
  ∃ a2 x2, handle_message_event first a1 fd_a [resp] true = Ok a2 ∧ dealers a2 !! d = Some x2 ∧
    _client_resp_ch x2 = _client_resp_ch x ++ [resp].
Proof.
  intros Hc Hin Hr Hne Hdd Hs Hfb Hfa Hg (xg & Hxg & Hstate). pose proof Hs as [Hsid _].
  rewrite (send_request_remote a d x rnd req f (_self b)) by done.
  eexists. split; [done|]. split; [done|].
  destruct (push_request_served b (outgoing x req)) as (b1 & e & Hp & Hsv & Hsent & Hmem); [done|].
  unfold handle_message_event. rewrite Hfb. cbn [dispatch]. cbn [hd outgoing request_head dest_dealer].
  rewrite Hdd. cbn [Z.eqb Pos.eqb]. fold (request_head x (_id x) (hd req)). fold (outgoing x req).
  rewrite Hp. step_ok. exists b1, e. split; [done|]. split; [done|]. split; [exact Hmem|]. intros r.
  set (resp := answer (outgoing x req) r).
  destruct Hsv as [(_ & _ & _ & Hfr & Hsk & _) (y & y' & _ & Hy' & Hrank & _)].
  pose proof Hc as (_ & _ & Hga & _ & Hid).
  assert (Hto : dest_rank (hd resp) = _self a) by done.
  assert (Hdd' : dest_dealer (hd resp) = _id x) by done.
  exists (log_sent b1 g resp). split; [|split; [by cbn; rewrite Hsent|]].
  - unfold send_response. rewrite Hy', Hdd', (proj2 (Z.eqb_neq _ _) Hid), Hto, Hrank.
    rewrite (proj2 (Z.eqb_neq (_self a) (_self b))) by congruence. unfold ctx_send_response. rewrite Hto.
    assert (get_server_frontend_by_rank b1 (_self a) = Some g) as ->.
    { rewrite <- Hg. unfold get_server_frontend_by_rank, is_available. by rewrite Hsk, Hfr. }
    cbn. rewrite Hfr, Hxg. cbn. by rewrite Hstate.
  - cbn [_fd_map log_sent]. rewrite Hfa. cbn [dispatch]. rewrite Hdd', (proj2 (Z.eqb_neq _ _) Hid).
    destruct (answer_arrives a (log_sent a f (outgoing x req)) d x resp) as (a2 & x2 & -> & ? & ?);
      [done|apply log_sent_undisturbed|done|]. step_ok. eauto.
Qed.

(** C34: a call to a server that no available frontend leads to is answered at once, in the
    caller's own response channel, with [ENOSUCHSERVER]; nothing is sent. This is so for an
    initialized client dealer that the tables know, in a process with a rank, and a request with
    the number of a server that the dealer does not remember as one of its own process. (A
    server that it remembers but that is gone is not answered at all:
    [gone_local_server_is_silent].) *)
Theorem unreachable_server_answers_error c d x rnd req :
  can_call c d x → sid (hd req) ≠ -1 → sid (hd req) ∉ _servers x →
  get_client_frontend_by_sid c (_rpc_id x) (sid (hd req)) = None → -1 ≠ _self c →
  ∃ c2 x2, send_request first none c d rnd req = Ok c2 ∧ sent c2 = sent c ∧ dealers c2 !! d = Some x2 ∧
    _client_resp_ch x2 = _client_resp_ch x ++
      [Pkt (with_error (RpcResponse_head (hd (outgoing x req))) ENOSUCHSERVER) none].
Proof.
  intros Hc Hs Hin Hno Hself. pose proof Hc as (Hd & Hi & Hg & Hb & _).
  unfold send_request, _send_request. rewrite Hd, Hi. step_ok. fold (outgoing x req). cbv zeta.
  rewrite (proj2 (Z.eqb_neq _ _) Hs : (sid (hd (outgoing x req)) =? -1) = false). cbn [negb].
  rewrite decide_False by done. unfold ctx_send_request.
  rewrite (proj2 (Z.eqb_neq _ _) Hs : (sid (hd (outgoing x req)) =? -1) = false). cbn [negb].
  rewrite (Hno : get_client_frontend_by_sid c (rpc_id (hd (outgoing x req))) (sid (hd (outgoing x req))) = None).
  cbn [mbind option_bind]. set (r := Pkt (with_error _ _) none).
  unfold push_response, dealer_push_response. rewrite (Hb : _client_backend c !! dest_dealer (hd r) = Some d), Hd, Hi.
  step_ok. rewrite Hg, (proj2 (Z.eqb_neq _ _) Hself).
  eexists _, (got_response x r). split; [done|]. split; [done|]. split; [apply lookup_insert_eq|done].
Qed.

(** A server that the dealer once reached in its own process, and that is gone: unlike any
    other unreachable server it is not reported.  The request is dropped and the caller
    waits. *)
Lemma gone_local_server_is_silent c d x rnd req :
  dealers c !! d = Some x → _initialized_client x = true → sid (hd req) ≠ -1 → sid (hd req) ∈ _servers x →
  _server_backend c !! _rpc_id x = None → send_request first none c d rnd req = Ok c.
Proof.
  intros Hd Hi Hs Hin Hb. unfold send_request, _send_request. rewrite Hd, Hi. step_ok. fold (outgoing x req). cbv zeta.
  rewrite (proj2 (Z.eqb_neq _ _) Hs : (sid (hd (outgoing x req)) =? -1) = false). cbn [negb].
  rewrite decide_True by done. unfold push_request.
  by rewrite (Hb : _server_backend c !! rpc_id (hd (outgoing x req)) = None).
Qed.
End calls.
End routing.

(** ** Witnesses

    A process of rank 0 whose dealer 0 is both a client and a server of service 7, and a
    process of rank 1 with one of the same kind. *)
Definition node (rank : Z) (clients : gmap Z nat) (srv : gmap Z nat) : ctx (B := unit) :=
  Ctx rank {[0%nat := MkDealer 7 rank 5 [] [] true true (-1) ∅ false false]}
    {[0%nat := MkFrontEnd 0 FRONTEND_CONNECT false true [20]; 1%nat := MkFrontEnd 1 FRONTEND_CONNECT false false [21]]}
    {[7 := (add_server_dealer (FairQueue_ 0 0) 3 0).1]} {[5 := 0%nat]} ∅ clients srv
    {[20 := 0%nat; 21 := 1%nat]} ∅ {[7 := {[3 := 1]}]} ∅ ∅ [].

Definition services : list RpcServiceInfo :=
  [MkServiceInfo [] 7 [MkServerInfo 0 0; MkServerInfo 3 1; MkServerInfo 8 9]].

Lemma service_tables_route_witness :
  ∃ c, update_service_info (node 0 {[0 := 0%nat; 1 := 1%nat]} ∅) map_to_list services = Ok c ∧
    get_client_frontend_by_sid c 7 3 = Some 1%nat.
Proof.
  destruct (service_tables_route (node 0 {[0 := 0%nat; 1 := 1%nat]} ∅) map_to_list services)
    as (c & Hc & Hsid & _).
  - done.
  - apply NoDup_singleton.
  - apply (bool_decide_unpack _). by vm_compute.
  - apply (bool_decide_unpack _). by vm_compute.
  - exists c. split; [done|]. apply (Hsid 7 (MkServerInfo 3 1)).
    apply (list_elem_of_lookup_2 _ 1). by vm_compute.
Defined.

Lemma gen_id_fresh_witness :
  ∃ r n', gen_id 3 (2 ^ 32 - 1) {[2 ^ 31 - 1; 0]} = Some (r, n', {[r]} ∪ {[2 ^ 31 - 1; 0]}) ∧
    r ∉ ({[2 ^ 31 - 1; 0]} : gset Z) ∧ 0 ≤ r < 2 ^ 31.
Proof.
  assert (3%nat = S (size ({[2 ^ 31 - 1; 0]} : gset Z))) as -> by by vm_compute.
  apply (gen_id_fresh (2 ^ 32 - 1) {[2 ^ 31 - 1; 0]}). by vm_compute.
Defined.

Lemma node_can_serve rank cl srv : can_serve (node rank cl srv) 7 3.
Proof.
  split; [done|]. exists (add_server_dealer (FairQueue_ 0 0) 3 0).1. split; [apply lookup_singleton_eq|].
  split; [|split; [done|]].
  - destruct (fq_add_dealer (B := unit) (FairQueue_ 0 0) 3 0 (FQInv_init 0 0)) as (q & rs & -> & Hq & _); [|done].
    apply not_elem_of_nil.
  - intros e He. assert (e = 0%nat) as -> by (by apply list_elem_of_singleton in He). by eexists.
Qed.

Lemma node_can_call rank cl srv :
  can_call (node rank cl srv) 0 (MkDealer 7 rank 5 [] [] true true (-1) ∅ false false).
Proof. by repeat split. Qed.

Lemma local_call_roundtrip_witness :
  ∃ c1 e, send_request first_key () (node 1 {[1 := 1%nat]} ∅) 0 0 (request_for 3) = Ok c1 ∧
    served (node 1 {[1 := 1%nat]} ∅) c1 e (outgoing (MkDealer 7 1 5 [] [] true true (-1) ∅ false false) (request_for 3)).
Proof.
  destruct (local_call_roundtrip first_key () _ _ _ 0 (request_for 3) (node_can_call 1 {[1 := 1%nat]} ∅))
    as (c1 & e & Hs & He & _).
  - apply node_can_serve.
  - right. exists 1%nat. by split.
  - eauto.
Defined.

Lemma remote_call_roundtrip_witness :
  ∃ a1, send_request first_key () (node 0 {[1 := 1%nat]} ∅) 0 0 (request_for 3) = Ok a1 ∧
    sent a1 = [(1%nat, outgoing (MkDealer 7 0 5 [] [] true true (-1) ∅ false false) (request_for 3))].
Proof.
  destruct (remote_call_roundtrip first_key () _ (node 1 ∅ {[0 := 0%nat]}) _ _ 0 (request_for 3) 1
    20 0 20 0 0 (node_can_call 0 {[1 := 1%nat]} ∅)) as (a1 & Hs & Hl & _).
  - by apply (bool_decide_unpack _).
  - by split.
  - done.
  - done.
  - apply node_can_serve.
  - done.
  - done.
  - done.
  - by eexists.
  - eauto.
Defined.

Lemma unreachable_server_answers_error_witness :
  ∃ c2 x2, send_request first_key () (node 0 ∅ ∅) 0 0 (request_for 4) = Ok c2 ∧
    sent c2 = [] ∧ dealers c2 !! 0%nat = Some x2 ∧
    _client_resp_ch x2 = [Pkt (with_error (RpcResponse_head (hd (outgoing (MkDealer 7 0 5 [] [] true true (-1) ∅ false false)
      (request_for 4)))) ENOSUCHSERVER) ()].
Proof.
  apply (unreachable_server_answers_error first_key () _ _ _ 0 (request_for 4) (node_can_call 0 ∅ ∅)).
  - done.
  - by apply (bool_decide_unpack _).
  - done.
  - done.
Defined.
