(* ===== verification/Dealers.v ===== *)
(** * The life of a dealer and the tables of its process

    The constructor, [initialize_as_server], [initialize_as_client], [terminate],
    [finalize] and the receiving side of [Dealer] (src/src/rpc/Dealer.h,
    src/src/rpc/Dealer.cpp), as far as they concern the context.  Who created a dealer is
    the matter of Service.v.

    Every dealer of a process plays a role: it has a number, the number of a service, and
    may serve one of the service's servers and may issue calls.  [Agrees] says that the
    tables of the context are those of a given assignment of roles and a given set of
    servers.  Every operation of the context keeps such an agreement and, used as the
    roles allow, fails no check: the tables implement the assignment. *)
From S2P Require Import Prelude Archive Serialize LazyArchive Message FairQueue RpcContext.
#[local] Open Scope Z_scope.

Section dealers.
Context {B : Type}.
#[local] Abbreviation pkt := (@FairQueue.pkt B).
#[local] Abbreviation FairQueue := (@FairQueue.FairQueue B).
#[local] Abbreviation ctx := (@RpcContext.ctx B).
#[local] Abbreviation dealer := (@RpcContext.dealer B).
Implicit Types (c : ctx) (x : dealer) (q : FairQueue).

(** ** Operations *)

(** [Dealer(rpc_id, service)], at address [d]; [id] is what [gen_id] returned. *)
Definition Dealer_ c (d : nat) (rpc_id id : Z) : ctx :=
  set_dealers c (<[d := MkDealer rpc_id (_self c) id [] [] false false (-1) ∅ false false]> (dealers c)).

(** A new channel, or none, and the mark that goes with it. *)
Definition with_server x (b : bool) : dealer :=
  MkDealer (_rpc_id x) (_g_rank x) (_id x) [] (_client_resp_ch x) b (_initialized_client x)
    (_available_rank x) (_servers x) false (_client_resp_spent x).
Definition with_client x (b : bool) : dealer :=
  MkDealer (_rpc_id x) (_g_rank x) (_id x) (_server_req_ch x) [] (_initialized_server x) b
    (_available_rank x) (_servers x) (_server_req_spent x) false.

Definition on_dealer c (d : nat) (f : dealer → result dealer) : result ctx :=
  match dealers c !! d with
  | None => Abort
  | Some x => x ← f x; Ok (set_dealers c (<[d := x]> (dealers c)))
  end.

Definition initialize_as_server c (d : nat) : result ctx :=
  on_dealer c d (λ x, _ ← SCHECK (negb (_initialized_server x)); Ok (with_server x true)).
Definition initialize_as_client c (d : nat) : result ctx :=
  on_dealer c d (λ x, _ ← SCHECK (negb (_initialized_client x)); Ok (with_client x true)).

(** The ends of the two blocks of [finalize]. *)
Definition reset_server c (d : nat) : result ctx := on_dealer c d (λ x, Ok (with_server x false)).
Definition reset_client c (d : nat) : result ctx := on_dealer c d (λ x, Ok (with_client x false)).

(** The memory of a dealer is given back. *)
Definition forget c (d : nat) : ctx := set_dealers c (delete d (dealers c)).

(** What [recv] of a channel without a time limit does: the next item, [false] after the
    end of the channel, or nothing yet.  When it has returned false before, the counter of
    the channel is negative as long as the channel is empty, and another call fails its
    [SCHECK(sz >= 0)]; an item that arrives after all is received, and leaves the counter
    negative again. *)
Inductive received :=
  | Got (m : pkt)
  | Ended
  | Blocked.

Definition take_one (ch : list pkt) (ended spent : bool) : result (received * list pkt * bool) :=
  match ch with
  | m :: ch => Ok (Got m, ch, spent)
  | [] =>
      _ ← SCHECK (negb spent);
      Ok (if ended then (Ended, [], true) else (Blocked, [], false))
  end.

Definition recv_request c (d : nat) (ended : bool) : result (ctx * received) :=
  match dealers c !! d with
  | None => Abort
  | Some x =>
      _ ← SCHECK (_initialized_server x);
      '(r, ch, spent) ← take_one (_server_req_ch x) ended (_server_req_spent x);
      Ok (set_dealers c (<[d := MkDealer (_rpc_id x) (_g_rank x) (_id x) ch (_client_resp_ch x)
            (_initialized_server x) (_initialized_client x) (_available_rank x) (_servers x) spent (_client_resp_spent x)]> (dealers c)), r)
  end.

Definition recv_response c (d : nat) (ended : bool) : result (ctx * received) :=
  match dealers c !! d with
  | None => Abort
  | Some x =>
      _ ← SCHECK (_initialized_client x);
      '(r, ch, spent) ← take_one (_client_resp_ch x) ended (_client_resp_spent x);
      Ok (set_dealers c (<[d := MkDealer (_rpc_id x) (_g_rank x) (_id x) (_server_req_ch x) ch
            (_initialized_server x) (_initialized_client x) (_available_rank x) (_servers x) (_server_req_spent x) spent]> (dealers c)), r)
  end.

(** ** Roles

    [r_server], [r_client]: what the dealer is initialized as; [r_serves], [r_calls]: what
    the tables know it for. *)
Record role := Role {
  r_id : Z;
  r_rpc : Z;
  r_server : bool;
  r_client : bool;
  r_serves : option Z;
  r_calls : bool;
}.
#[global] Instance role_eq_dec : EqDecision role.
Proof. solve_decision. Defined.

Definition as_server (r : role) (b : bool) : role :=
  Role (r_id r) (r_rpc r) b (r_client r) (r_serves r) (r_calls r).
Definition as_client (r : role) (b : bool) : role :=
  Role (r_id r) (r_rpc r) (r_server r) b (r_serves r) (r_calls r).
Definition serving (r : role) (s : option Z) : role :=
  Role (r_id r) (r_rpc r) (r_server r) (r_client r) s (r_calls r).
Definition calling (r : role) (b : bool) : role :=
  Role (r_id r) (r_rpc r) (r_server r) (r_client r) (r_serves r) b.

(** Dealer [x] of a process of rank [rank] plays role [r]. *)
Definition plays (rank : Z) x (r : role) : Prop :=
  _id x = r_id r ∧ _rpc_id x = r_rpc r ∧ _g_rank x = rank ∧
  _initialized_server x = r_server r ∧ _initialized_client x = r_client r.

Definition queue_of c (i : Z) : FairQueue := default (FairQueue_ 0 0) (_server_backend c !! i).
Definition serving_dealers c (i s : Z) : list nat := dealers_of (queue_of c i) s.

Definition distinct_ids (D : gmap nat role) : Prop :=
  ∀ d d' r r', D !! d = Some r → D !! d' = Some r' → r_id r = r_id r' → d = d'.

(** [D]: the roles, by address; [SV]: the servers, by service and number. *)
Record Agrees c (D : gmap nat role) (SV : Z → Z → Prop) : Prop := {
  ag_dealer d : match D !! d with
    | Some r => ∃ x, dealers c !! d = Some x ∧ plays (_self c) x r
    | None => dealers c !! d = None
    end;
  ag_ready d r : D !! d = Some r → 0 ≤ r_id r ∧ (is_Some (r_serves r) → r_server r = true) ∧
    (r_calls r = true → r_client r = true);
  ag_inj : distinct_ids D;
  ag_client i d : _client_backend c !! i = Some d ↔ ∃ r, D !! d = Some r ∧ r_id r = i ∧ r_calls r = true;
  ag_queue i q : _server_backend c !! i = Some q → FQInv q ∧ fq_empty q = false;
  ag_serves i s d : d ∈ serving_dealers c i s ↔ ∃ r, D !! d = Some r ∧ r_rpc r = i ∧ r_serves r = Some s;
  ag_servers i s : is_Some (_sid2cache (queue_of c i) !! s) ↔ SV i s;
}.

(** ** Changes that leave the roles alone *)

(** A fair queue with the same dealers and servers. *)
Definition same_queue q q' : Prop :=
  _sid2dealers q' = _sid2dealers q ∧ ∀ s, is_Some (_sid2cache q' !! s) ↔ is_Some (_sid2cache q !! s).

Lemma same_queue_empty q q' : same_queue q q' → fq_empty q' = fq_empty q.
Proof.
  intros [Hd Hc]. unfold fq_empty. rewrite Hd. f_equal. apply bool_decide_ext.
  rewrite !map_empty. split; intros H s; apply eq_None_not_Some; [rewrite <- Hc|rewrite Hc];
    rewrite H; by intros [? [=]].
Qed.

Definition same_kind x x' : Prop :=
  _id x' = _id x ∧ _rpc_id x' = _rpc_id x ∧ _g_rank x' = _g_rank x ∧
  _initialized_server x' = _initialized_server x ∧ _initialized_client x' = _initialized_client x.

(** What the handling of messages and of frontends may change. *)
Record same_roles c c' : Prop := {
  sr_self : _self c' = _self c;
  sr_client : _client_backend c' = _client_backend c;
  sr_dealers d : option_Forall2 same_kind (dealers c !! d) (dealers c' !! d);
  sr_backend i : option_Forall2 (λ q q', same_queue q q' ∧ (FQInv q → FQInv q'))
    (_server_backend c !! i) (_server_backend c' !! i);
}.

#[global] Instance same_roles_refl : Reflexive same_roles.
Proof.
  intros c. split; [done|done| |].
  - intros d. destruct (dealers c !! d); by constructor.
  - intros i. destruct (_server_backend c !! i); by constructor.
Qed.

#[global] Instance same_roles_trans : Transitive same_roles.
Proof.
  intros c1 c2 c3 [H1 H2 H3 H4] [K1 K2 K3 K4]. split; [congruence|congruence| |].
  - intros d. specialize (H3 d). specialize (K3 d).
    destruct H3 as [x y (?&?&?&?&?)|]; inversion K3 as [? z (?&?&?&?&?)|]; subst; constructor.
    repeat split; congruence.
  - intros i. specialize (H4 i). specialize (K4 i).
    destruct H4 as [x y [[? Hc] ?]|]; inversion K4 as [? z [[? Kc] ?]|]; subst; constructor.
    split; [split; [congruence|]|auto]. intros s. by rewrite Kc.
Qed.

Lemma same_roles_queue c c' i : same_roles c c' → same_queue (queue_of c i) (queue_of c' i).
Proof. intros [_ _ _ Hb]. unfold queue_of. by destruct (Hb i) as [q q' [? _]|]. Qed.

Lemma Agrees_same c c' D SV : same_roles c c' → Agrees c D SV → Agrees c' D SV.
Proof.
  intros Hs [Ha Hrd Hi Hc Hq Hse Hsv]. pose proof (λ i, same_roles_queue _ _ i Hs) as Hsq.
  destruct Hs as [H1 H2 H3 H4]. split; [|done|done| | | |].
  - intros d. specialize (Ha d). specialize (H3 d). destruct (D !! d) as [r|].
    + destruct Ha as (x&Hx&?&?&?&?&?). rewrite Hx in H3. inversion H3 as [? x' (?&?&?&?&?)|]; subst.
      exists x'. split; [done|]. repeat split; congruence.
    + rewrite Ha in H3. by inversion H3.
  - intros i d. rewrite H2. apply Hc.
  - intros i q' Hq'. specialize (H4 i). rewrite Hq' in H4. inversion H4 as [q ? [Hsame Hinv]|]; subst.
    destruct (Hq i q) as [? ?]; [done|]. split; [auto|]. by rewrite (same_queue_empty q).
  - intros i s d. rewrite <- Hse. unfold serving_dealers, dealers_of. by rewrite (proj1 (Hsq i)).
  - intros i s. rewrite <- Hsv. apply (proj2 (Hsq i)).
Qed.

Section messages.
Context (first : gmap Z (list pkt) → Z) (none : B).
Context (first_ok : ∀ m, m ≠ ∅ → is_Some (m !! first m)).

Lemma same_queue_refl q : same_queue q q.
Proof. done. Qed.

Lemma next_same q s q' d : next q s = Ok (q', d) → same_queue q q'.
Proof.
  assert (Hd : ∀ q0 s0 q1 d0, next_dealer q0 s0 = Ok (q1, d0) → same_queue q0 q1).
  { intros q0 s0 q1 d0. unfold next_dealer. destruct (_sid2dealers q0 !! s0); [|by intros [= <- <-]].
    cbn zeta. destruct (SCHECK _); [|done]. step_ok. by intros [= <- <-]. }
  unfold next. destruct (s =? -1); [|apply Hd]. destruct (_sids q); [by intros [= <- <-]|].
  unfold next_sid. case_match; [|done]. intros Hn. by apply Hd in Hn.
Qed.

Lemma parked_same q s reqs l : _sid2cache q !! s = Some reqs → same_queue q (with_cache q (<[s := l]> (_sid2cache q))).
Proof.
  intros Hs. split; [done|]. intros s'. cbn. rewrite lookup_insert_is_Some'.
  split; [intros [<-|?]; [by rewrite Hs|done]|by right].
Qed.

Lemma push_same q s m q' d t :
  match _sid2dealers q !! s with
  | Some ds => match list.last ds with Some d => Ok (q, Some d, true) | None => Abort end
  | None =>
      match _sid2cache q !! s with
      | Some reqs => Ok (with_cache q (<[s := reqs ++ [m]]> (_sid2cache q)), None, true)
      | None => Ok (q, None, false)
      end
  end = Ok (q', d, t) → same_queue q q'.
Proof.
  destruct (_sid2dealers q !! s) as [ds|].
  - destruct (list.last ds); [|done]. by intros [= <- <- <-].
  - destruct (_sid2cache q !! s) eqn:E; intros [= <- <- <-]; [|done]. by eapply parked_same.
Qed.

Lemma fq_push_same q s m q' d t : fq_push_request first q s m = Ok (q', d, t) → same_queue q q'.
Proof.
  unfold fq_push_request. cbv zeta. destruct (s =? -1); [|by apply push_same].
  case_decide; [by intros [= <- <- <-]|]. destruct (_sids q); [by apply push_same|].
  unfold next_sid. destruct (_ !! _); [|done]. intros Hp. apply push_same in Hp. exact Hp.
Qed.

Lemma route_same q m q' d t : route first q m = Ok (q', d, t) → same_queue q q'.
Proof.
  unfold route. destruct (next q (sid (hd m))) as [[q1 d1]|] eqn:Hn; [|done]. step_ok.
  pose proof (next_same _ _ _ _ Hn) as Hs. destruct d1; [by intros [= <- <- <-]|].
  intros Hp%fq_push_same. destruct Hs as [Hd Hc], Hp as [Hd' Hc'].
  split; [by rewrite Hd'|]. intros s. by rewrite Hc'.
Qed.

(** [outcome] of FairQueue.v without the case distinction. *)
Lemma route_ok q m : FQInv q → outcome q m (route first q m).
Proof. intros Hq. destruct (decide (sid (hd m) = -1)); [by apply route_any|by apply route_to]. Qed.

Lemma backend_roles c i q q' : _server_backend c !! i = Some q → same_queue q q' → (FQInv q → FQInv q') →
  same_roles c (set_backend c (<[i := q']> (_server_backend c))).
Proof.
  intros Hi Hs Hq. split; [done|done| |].
  - intros d. cbn. destruct (dealers c !! d); by constructor.
  - intros j. cbn. destruct (decide (i = j)) as [<-|].
    + rewrite lookup_insert_eq, Hi. by constructor.
    + rewrite lookup_insert_ne by done. destruct (_server_backend c !! j); by constructor.
Qed.

Lemma dealer_roles c d x x' : dealers c !! d = Some x → same_kind x x' →
  same_roles c (set_dealers c (<[d := x']> (dealers c))).
Proof.
  intros Hd Hk. split; [done|done| |].
  - intros e. cbn. destruct (decide (d = e)) as [<-|].
    + rewrite lookup_insert_eq, Hd. by constructor.
    + rewrite lookup_insert_ne by done. destruct (dealers c !! e); by constructor.
  - intros i. cbn. destruct (_server_backend c !! i); by constructor.
Qed.

(** The other tables: those of connections and of services, and the log. *)
Definition same_wiring c c' : Prop :=
  fronts c' = fronts c ∧ _to_del_client_sockets c' = _to_del_client_sockets c ∧
  _client_sockets c' = _client_sockets c ∧ _server_sockets c' = _server_sockets c ∧ _fd_map c' = _fd_map c.

#[global] Instance same_wiring_refl : Reflexive same_wiring.
Proof. by intros c. Qed.
#[global] Instance same_wiring_trans : Transitive same_wiring.
Proof. intros c1 c2 c3 (?&?&?&?&?) (?&?&?&?&?). repeat split; congruence. Qed.

(** A computation that succeeds and leaves roles and connections alone. *)
Definition steady c (r : result ctx) : Prop := ∃ c', r = Ok c' ∧ same_roles c c' ∧ same_wiring c c'.

Lemma steady_ok c c' : same_roles c c' → same_wiring c c' → steady c (Ok c').
Proof. by exists c'. Qed.

Lemma steady_bind c r f : steady c r → (∀ c', same_roles c c' → same_wiring c c' → steady c' (f c')) →
  steady c (r ≫= f).
Proof.
  intros (c'&->&Hs&Hw) Hf. step_ok. destruct (Hf c' Hs Hw) as (c2&->&?&?).
  exists c2. split; [done|]. split; by etrans.
Qed.

Lemma push_request_steady c D SV m : Agrees c D SV → steady c (push_request first c m).
Proof.
  intros Ha. unfold push_request. destruct (_server_backend c !! rpc_id (hd m)) as [q|] eqn:Hq;
    [|by apply steady_ok].
  destruct (ag_queue _ _ _ Ha _ q Hq) as [Hinv _].
  destruct (route_ok q m Hinv) as (q'&d&t&Hr&Hinv'&_&Hdel&_). rewrite Hr. step_ok.
  pose proof (route_same _ _ _ _ _ Hr) as Hsame.
  assert (Hc : same_roles c (set_backend c (<[rpc_id (hd m) := q']> (_server_backend c))))
    by by eapply backend_roles.
  destruct d as [d|]; [|by apply steady_ok].
  destruct (Hdel d m) as (s&Hs&_); [by apply list_elem_of_singleton|].
  assert (Hin : d ∈ serving_dealers c (rpc_id (hd m)) s).
  { unfold serving_dealers, queue_of, dealers_of in *. rewrite Hq. cbn. by rewrite <- (proj1 Hsame). }
  apply (ag_serves _ _ _ Ha) in Hin as (r&Hr'&_&Hserves).
  pose proof (ag_dealer _ _ _ Ha d) as Hd. rewrite Hr' in Hd. destruct Hd as (x&Hx&_&_&_&Hx'&_).
  destruct (ag_ready _ _ _ Ha d r Hr') as (_&Hready&_). rewrite Hready in Hx' by by eexists.
  unfold dealer_push_request. cbn [dealers set_backend]. rewrite Hx, Hx'. step_ok.
  apply steady_ok; [|done]. etrans; [exact Hc|]. by apply (dealer_roles (set_backend c _) d x).
Qed.

Lemma push_response_steady c D SV m : Agrees c D SV → steady c (push_response c m).
Proof.
  intros Ha. unfold push_response. destruct (_client_backend c !! dest_dealer (hd m)) as [d|] eqn:Hd;
    [|by apply steady_ok].
  apply (ag_client _ _ _ Ha) in Hd as (r&Hr&_&Hcalls).
  pose proof (ag_dealer _ _ _ Ha d) as Hd. rewrite Hr in Hd. destruct Hd as (x&Hx&_&_&_&_&Hx').
  rewrite (proj2 (proj2 (ag_ready _ _ _ Ha d r Hr)) Hcalls) in Hx'.
  unfold dealer_push_response. rewrite Hx, Hx'. step_ok.
  apply steady_ok; [|done]. by apply (dealer_roles _ d x).
Qed.

Lemma dispatch_steady D SV ms : ∀ c, Agrees c D SV → steady c (dispatch first c ms).
Proof.
  induction ms as [|m ms IH]; intros c Ha; [by apply steady_ok|]. cbn [dispatch].
  apply steady_bind.
  - destruct (dest_dealer (hd m) =? -1); [by eapply push_request_steady|by eapply push_response_steady].
  - intros c' Hs _. apply IH. by eapply Agrees_same.
Qed.

Lemma same_tables_roles c c' : _self c' = _self c → _client_backend c' = _client_backend c →
  dealers c' = dealers c → _server_backend c' = _server_backend c → same_roles c c'.
Proof.
  intros H1 H2 H3 H4. split; [done|done| |].
  - intros d. rewrite H3. apply (sr_dealers c c), same_roles_refl.
  - intros i. rewrite H4. apply (sr_backend c c), same_roles_refl.
Qed.

Lemma set_route_roles c d rank srv : same_roles c (set_route c d rank srv).
Proof. unfold set_route. destruct (dealers c !! d) as [x|] eqn:E; [|done]. by eapply dealer_roles. Qed.

Lemma set_route_wiring c d rank srv : same_wiring c (set_route c d rank srv).
Proof. unfold set_route. by destruct (dealers c !! d). Qed.

Definition steady2 {A} c (r : result (ctx * A)) : Prop :=
  ∃ c' a, r = Ok (c', a) ∧ same_roles c c' ∧ same_wiring c c'.

Lemma steady2_bind {A} c (r : result (ctx * A)) f : steady2 c r →
  (∀ c' a, same_roles c c' → same_wiring c c' → steady c' (f (c', a))) → steady c (r ≫= f).
Proof.
  intros (c'&a&->&Hs&Hw) Hf. step_ok. destruct (Hf c' a Hs Hw) as (c2&->&?&?).
  exists c2. split; [done|]. split; by etrans.
Qed.

Lemma ctx_send_request_steady c D SV rnd m : Agrees c D SV → steady2 c (ctx_send_request first none c rnd m).
Proof.
  intros Ha. unfold ctx_send_request. cbv zeta.
  match goal with |- steady2 c (match ?f ≫= _ with _ => _ end) => destruct (f ≫= _) as [[f' x]|] end.
  - destruct (f_rank x =? _self c); [|exists (log_sent c f' m), (f_rank x); split; [done|]; split; [by apply same_tables_roles|done]].
    destruct (push_request_steady c D SV m Ha) as (c'&->&?&?). step_ok. by exists c', (f_rank x).
  - match goal with |- context [push_response c ?r] =>
      destruct (push_response_steady c D SV r Ha) as (c'&->&?&?) end. step_ok. by exists c', (-1).
Qed.

Lemma _send_request_steady c D SV d rnd src m r :
  Agrees c D SV → D !! d = Some r → r_client r = true → steady c (_send_request first none c d rnd src m).
Proof.
  intros Ha Hr Hcalls. pose proof (ag_dealer _ _ _ Ha d) as Hd. rewrite Hr in Hd.
  destruct Hd as (x&Hx&_&_&_&_&Hi). unfold _send_request. rewrite Hx, Hi, Hcalls. cbn [SCHECK].
  match goal with |- steady c (Ok () ≫= ?f) => change (steady c (f ())) end. cbv beta zeta.
  set (m' := Pkt _ _). pose proof (push_request_steady c D SV m' Ha) as Hpush.
  pose proof (ctx_send_request_steady c D SV rnd m' Ha) as Hsend.
  destruct (negb (sid (hd m') =? -1)); [case_decide|destruct (negb _); [destruct (_ =? _)|destruct (_ =? _)]];
    try exact Hpush; (eapply steady2_bind; [exact Hsend|]); intros c' a _ _; cbn beta iota; try case_match;
    apply steady_ok; auto using set_route_roles, set_route_wiring, same_roles_refl, same_wiring_refl.
Qed.

Lemma send_request_steady c D SV d rnd m r :
  Agrees c D SV → D !! d = Some r → r_client r = true → steady c (send_request first none c d rnd m).
Proof.
  intros Ha Hr Hcalls. unfold send_request. pose proof (ag_dealer _ _ _ Ha d) as Hd. rewrite Hr in Hd.
  destruct Hd as (x&Hx&_). rewrite Hx. by eapply _send_request_steady.
Qed.

Lemma send_response_steady c D SV d m : Agrees c D SV → is_Some (D !! d) → steady c (send_response c d m).
Proof.
  intros Ha [r Hr]. unfold send_response. pose proof (ag_dealer _ _ _ Ha d) as Hd. rewrite Hr in Hd.
  destruct Hd as (x&Hx&_). rewrite Hx. repeat case_match; [by apply steady_ok|by eapply push_response_steady|].
  apply steady_ok; unfold ctx_send_response; repeat case_match; done || by apply same_tables_roles.
Qed.

(** Connections come and go. *)
Lemma remove_frontend_roles c f : same_roles c (remove_frontend c f).
Proof. unfold remove_frontend. repeat case_match; by apply same_tables_roles. Qed.

Lemma set_state_roles c f st : same_roles c (set_state c f st).
Proof. unfold set_state. case_match; by apply same_tables_roles. Qed.

Lemma accepted_roles c f rank fds : same_roles c (accepted c f rank fds).
Proof.
  unfold accepted. cbv zeta.
  match goal with |- same_roles c (set_sockets ?c' _ _ _ _ _) => trans c' end; [|by apply same_tables_roles].
  case_match; [apply remove_frontend_roles|done].
Qed.

Lemma retire_roles c f : same_roles c (retire c f).
Proof. unfold retire. repeat case_match; [by apply same_tables_roles|apply remove_frontend_roles|done]. Qed.

Lemma add_frontends_roles ranks : ∀ c next, same_roles c (add_frontends c next ranks).
Proof.
  induction ranks as [|rank ranks IH]; intros c next; [done|]. cbn [add_frontends].
  etrans; [|apply IH]. by apply same_tables_roles.
Qed.

Lemma update_comm_info_roles c iter next l master : same_roles c (update_comm_info c iter next l master).
Proof.
  unfold update_comm_info. cbv zeta. etrans; [|apply add_frontends_roles].
  match goal with |- same_roles c (foldl retire c ?l) => generalize l end.
  clear. intros l. revert c. induction l as [|f l IH]; intros c; [done|]. cbn [foldl].
  etrans; [apply retire_roles|apply IH].
Qed.

Lemma update_service_info_roles c iter l c' : update_service_info c iter l = Ok c' → same_roles c c'.
Proof.
  unfold update_service_info. cbv zeta. match goal with |- add_entries (set_services c ?i ?a ?b ?d) ?l = _ → _ =>
    assert (H : same_roles c (set_services c i a b d)) by (by apply same_tables_roles);
    generalize dependent (set_services c i a b d); generalize l end.
  intros es. induction es as [|[i s] es IH]; intros c1 Hc1; cbn [add_entries]; [by intros [= <-]|].
  rewrite bind_ok. intros (c2&He&Hr). eapply IH; [|exact Hr]. etrans; [exact Hc1|].
  unfold add_server_entry in He. case_match; [done|]. injection He as <-. by apply same_tables_roles.
Qed.

Lemma handle_message_event_roles c D SV fd ms alive : Agrees c D SV →
  ∃ c', handle_message_event first c fd ms alive = Ok c' ∧ same_roles c c'.
Proof.
  intros Ha. unfold handle_message_event. destruct (_fd_map c !! fd) as [f|]; [|by exists c].
  destruct (dispatch_steady D SV ms c Ha) as (c'&->&Hs&_). step_ok.
  destruct alive; [by exists c'|]. pose proof (set_state_roles c' f FRONTEND_EPIPE) as Hs'. cbv zeta.
  repeat case_match; eexists; (split; [done|]); etrans; try exact Hs; try exact Hs'.
  etrans; [exact Hs'|apply remove_frontend_roles].
Qed.

(** A receiving dealer.  [can_recv]: the channel is not spent, or has an item. *)
Definition can_recv (ch : list pkt) (spent : bool) : Prop := spent = true → ch ≠ [].

Lemma take_one_ok ch ended spent : can_recv ch spent → is_ok (take_one ch ended spent).
Proof. destruct ch, spent; intros H; [by destruct H|by eexists..]. Qed.

Lemma recv_request_steady c D SV d ended r : Agrees c D SV → D !! d = Some r → r_server r = true →
  (∀ x, dealers c !! d = Some x → can_recv (_server_req_ch x) (_server_req_spent x)) →
  steady2 c (recv_request c d ended).
Proof.
  intros Ha Hr Hserves Hch. pose proof (ag_dealer _ _ _ Ha d) as Hd. rewrite Hr in Hd.
  destruct Hd as (x&Hx&_&_&_&Hi&_). rewrite Hserves in Hi. unfold recv_request. rewrite Hx, Hi. step_ok.
  destruct (take_one_ok _ ended _ (Hch x Hx)) as [[[a ch] spent] ->]. step_ok. eexists _, a. split; [done|]. split; [|done].
  apply (dealer_roles c d x); [done|]. by rewrite <- Hi.
Qed.

Lemma recv_response_steady c D SV d ended r : Agrees c D SV → D !! d = Some r → r_client r = true →
  (∀ x, dealers c !! d = Some x → can_recv (_client_resp_ch x) (_client_resp_spent x)) →
  steady2 c (recv_response c d ended).
Proof.
  intros Ha Hr Hcalls Hch. pose proof (ag_dealer _ _ _ Ha d) as Hd. rewrite Hr in Hd.
  destruct Hd as (x&Hx&_&_&_&_&Hi). rewrite Hcalls in Hi. unfold recv_response. rewrite Hx, Hi. step_ok.
  destruct (take_one_ok _ ended _ (Hch x Hx)) as [[[a ch] spent] ->]. step_ok. eexists _, a. split; [done|]. split; [|done].
  apply (dealer_roles c d x); [done|]. by rewrite <- Hi.
Qed.
End messages.

(** ** Changes of roles *)

Lemma distinct_insert D d r r' : distinct_ids D → D !! d = Some r → r_id r' = r_id r → distinct_ids (<[d := r']> D).
Proof.
  intros Hi Hr E e e' r1 r2 [[<- <-]|[_ H1]]%lookup_insert_Some [[<- <-]|[_ H2]]%lookup_insert_Some E';
    [done| | |by eapply Hi]; rewrite E in E'; by eapply Hi.
Qed.

(** One dealer's object changes, and only what the roles do not cover. *)
Lemma Agrees_dealer c D SV d x r r' :
  Agrees c D SV → D !! d = Some r → plays (_self c) x r' → r_id r' = r_id r → r_rpc r' = r_rpc r →
  r_serves r' = r_serves r → r_calls r' = r_calls r →
  (is_Some (r_serves r') → r_server r' = true) → (r_calls r' = true → r_client r' = true) →
  Agrees (set_dealers c (<[d := x]> (dealers c))) (<[d := r']> D) SV.
Proof.
  intros [Ha Hrd Hi Hc Hq Hse Hsv] Hr Hx Eid Erpc Eserves Ecalls W1 W2.
  assert (HD : ∀ e r0, <[d := r']> D !! e = Some r0 → ∃ r1, D !! e = Some r1 ∧ r_id r0 = r_id r1 ∧
    r_rpc r0 = r_rpc r1 ∧ r_serves r0 = r_serves r1 ∧ r_calls r0 = r_calls r1).
  { intros e r0 [[<- <-]|[_ ?]]%lookup_insert_Some; [by exists r|by exists r0]. }
  assert (HD' : ∀ e r1, D !! e = Some r1 → ∃ r0, <[d := r']> D !! e = Some r0 ∧ r_id r0 = r_id r1 ∧
    r_rpc r0 = r_rpc r1 ∧ r_serves r0 = r_serves r1 ∧ r_calls r0 = r_calls r1).
  { intros e r1 H1. destruct (decide (d = e)) as [<-|].
    - exists r'. rewrite lookup_insert_eq. by simplify_eq.
    - exists r1. by rewrite lookup_insert_ne. }
  split; cbn.
  - intros e. destruct (decide (d = e)) as [<-|].
    + rewrite !lookup_insert_eq. by exists x.
    + rewrite !lookup_insert_ne by done. apply Ha.
  - intros e r0. destruct (decide (d = e)) as [<-|].
    + rewrite lookup_insert_eq. intros [= <-]. rewrite Eid. split; [by apply (Hrd d r)|done].
    + rewrite lookup_insert_ne by done. apply Hrd.
  - by eapply distinct_insert.
  - intros i e. rewrite Hc. split.
    + intros (r1&H1&?&?). destruct (HD' e r1 H1) as (r0&?&?&?&?&?). exists r0. repeat split; congruence.
    + intros (r0&H0&?&?). destruct (HD e r0 H0) as (r1&?&?&?&?&?). exists r1. repeat split; congruence.
  - exact Hq.
  - intros i s e. unfold serving_dealers, queue_of in *. cbn. rewrite Hse. split.
    + intros (r1&H1&?&?). destruct (HD' e r1 H1) as (r0&?&?&?&?&?). exists r0. repeat split; congruence.
    + intros (r0&H0&?&?). destruct (HD e r0 H0) as (r1&?&?&?&?&?). exists r1. repeat split; congruence.
  - exact Hsv.
Qed.

Lemma agrees_lookup c D SV d r : Agrees c D SV → D !! d = Some r →
  ∃ x, dealers c !! d = Some x ∧ plays (_self c) x r.
Proof. intros Ha Hr. pose proof (ag_dealer _ _ _ Ha d) as Hd. by rewrite Hr in Hd. Qed.

Lemma initialize_as_server_ok c D SV d r : Agrees c D SV → D !! d = Some r → r_server r = false →
  ∃ c', initialize_as_server c d = Ok c' ∧ Agrees c' (<[d := as_server r true]> D) SV.
Proof.
  intros Ha Hr Hs. destruct (agrees_lookup _ _ _ _ _ Ha Hr) as (x&Hx&?&?&?&E&?).
  unfold initialize_as_server, on_dealer. rewrite Hx, E, Hs. step_ok. eexists. split; [done|].
  eapply Agrees_dealer; try done. by apply (ag_ready _ _ _ Ha d r).
Qed.

Lemma initialize_as_client_ok c D SV d r : Agrees c D SV → D !! d = Some r → r_client r = false →
  ∃ c', initialize_as_client c d = Ok c' ∧ Agrees c' (<[d := as_client r true]> D) SV.
Proof.
  intros Ha Hr Hs. destruct (agrees_lookup _ _ _ _ _ Ha Hr) as (x&Hx&?&?&?&?&E).
  unfold initialize_as_client, on_dealer. rewrite Hx, E, Hs. step_ok. eexists. split; [done|].
  eapply Agrees_dealer; try done. by apply (ag_ready _ _ _ Ha d r).
Qed.

Lemma reset_server_ok c D SV d r : Agrees c D SV → D !! d = Some r → r_serves r = None →
  ∃ c', reset_server c d = Ok c' ∧ Agrees c' (<[d := as_server r false]> D) SV.
Proof.
  intros Ha Hr Hs. destruct (agrees_lookup _ _ _ _ _ Ha Hr) as (x&Hx&?&?&?&?&?).
  unfold reset_server, on_dealer. rewrite Hx. step_ok. eexists. split; [done|].
  eapply Agrees_dealer; try done; cbn; [rewrite Hs; by intros [? [=]]|].
  by apply (ag_ready _ _ _ Ha d r).
Qed.

Lemma reset_client_ok c D SV d r : Agrees c D SV → D !! d = Some r → r_calls r = false →
  ∃ c', reset_client c d = Ok c' ∧ Agrees c' (<[d := as_client r false]> D) SV.
Proof.
  intros Ha Hr Hs. destruct (agrees_lookup _ _ _ _ _ Ha Hr) as (x&Hx&?&?&?&?&?).
  unfold reset_client, on_dealer. rewrite Hx. step_ok. eexists. split; [done|].
  eapply Agrees_dealer; try done; cbn; [by apply (ag_ready _ _ _ Ha d r)|congruence].
Qed.

Lemma Dealer_ok c D SV d rpc id : Agrees c D SV → D !! d = None → 0 ≤ id →
  (∀ e r, D !! e = Some r → r_id r ≠ id) →
  Agrees (Dealer_ c d rpc id) (<[d := Role id rpc false false None false]> D) SV.
Proof.
  intros [Ha Hrd Hi Hc Hq Hse Hsv] Hd Hid Hnew. split; cbn.
  - intros e. destruct (decide (d = e)) as [<-|]; [rewrite !lookup_insert_eq; by eexists|].
    rewrite !lookup_insert_ne by done. apply Ha.
  - intros e r [[<- <-]|[_ ?]]%lookup_insert_Some; [|by eapply Hrd].
    split; [done|]. split; [by intros [? [=]]|done].
  - intros e e' r r' [[<- <-]|[_ H1]]%lookup_insert_Some [[<- <-]|[_ H2]]%lookup_insert_Some E; cbn in E;
      [done|by destruct (Hnew _ _ H2)|by destruct (Hnew _ _ H1)|by eapply Hi].
  - intros i e. rewrite Hc. split; intros (r&H1&H2&H3); exists r; (split; [|done]).
    + rewrite lookup_insert_ne by congruence. done.
    + by apply lookup_insert_Some in H1 as [[<- <-]|[_ ?]].
  - exact Hq.
  - intros i s e. unfold serving_dealers, queue_of in *. cbn. rewrite Hse.
    split; intros (r&H1&H2&H3); exists r; (split; [|done]).
    + rewrite lookup_insert_ne by congruence. done.
    + by apply lookup_insert_Some in H1 as [[<- <-]|[_ ?]].
  - exact Hsv.
Qed.

Lemma forget_ok c D SV d r : Agrees c D SV → D !! d = Some r → r_serves r = None → r_calls r = false →
  Agrees (forget c d) (delete d D) SV.
Proof.
  intros [Ha Hrd Hi Hc Hq Hse Hsv] Hr Hs Hcalls. split; cbn.
  - intros e. destruct (decide (d = e)) as [<-|]; [by rewrite !lookup_delete_eq|].
    rewrite !lookup_delete_ne by done. apply Ha.
  - intros e r' [_ ?]%lookup_delete_Some. by eapply Hrd.
  - intros e e' r1 r2 [_ ?]%lookup_delete_Some [_ ?]%lookup_delete_Some. by eapply Hi.
  - intros i e. rewrite Hc. split; intros (r'&H1&H2&H3); exists r'; (split; [|done]).
    + apply lookup_delete_Some. split; [congruence|done].
    + by apply lookup_delete_Some in H1 as [_ ?].
  - exact Hq.
  - intros i s e. unfold serving_dealers, queue_of in *. cbn. rewrite Hse.
    split; intros (r'&H1&H2&H3); exists r'; (split; [|done]).
    + apply lookup_delete_Some. split; [congruence|done].
    + by apply lookup_delete_Some in H1 as [_ ?].
  - exact Hsv.
Qed.

(** *** The table of clients *)
Lemma add_client_dealer_ok c D SV d r : Agrees c D SV → D !! d = Some r → r_client r = true → r_calls r = false →
  ∃ c', add_client_dealer c d = Ok c' ∧ Agrees c' (<[d := calling r true]> D) SV.
Proof.
  intros Ha Hr Hcl Hno. destruct (agrees_lookup _ _ _ _ _ Ha Hr) as (x&Hx&Eid&Hplay).
  unfold add_client_dealer. rewrite Hx, Eid. destruct Ha as [Ha Hrd Hi Hc Hq Hse Hsv].
  assert (Hnone : _client_backend c !! r_id r = None).
  { apply eq_None_not_Some. intros [e (r'&H1&H2&H3)%Hc]. assert (e = d) as -> by by eapply Hi. congruence. }
  rewrite Hnone. eexists. split; [done|]. split; cbn.
  - intros e. destruct (decide (d = e)) as [<-|]; [rewrite lookup_insert_eq; by exists x|].
    rewrite lookup_insert_ne by done. apply Ha.
  - intros e r' [[<- <-]|[_ ?]]%lookup_insert_Some; [|by eapply Hrd].
    destruct (Hrd d r Hr) as (?&?&?). done.
  - by eapply distinct_insert.
  - intros i e. split.
    + intros [[<- <-]|[Hne H1]]%lookup_insert_Some.
      * exists (calling r true). by rewrite lookup_insert_eq.
      * apply Hc in H1 as (r'&H1&H2&H3). exists r'. rewrite lookup_insert_ne; [done|]. intros ->. congruence.
    + intros (r'&H1&H2&H3). apply lookup_insert_Some in H1 as [[<- <-]|[Hne H1]].
      * cbn in H2. subst i. by rewrite lookup_insert_eq.
      * apply lookup_insert_Some. right. split; [|apply Hc; by exists r'].
        intros E. apply Hne. eapply Hi; [exact Hr|exact H1|congruence].
  - exact Hq.
  - intros i s e. unfold serving_dealers, queue_of in *. cbn. rewrite Hse. split.
    + intros (r'&H1&H2&H3). destruct (decide (d = e)) as [<-|Hne];
        [exists (calling r true); rewrite lookup_insert_eq; by simplify_eq|].
      exists r'. by rewrite lookup_insert_ne.
    + intros (r'&[[<- <-]|[_ H1]]%lookup_insert_Some&H2&H3); [by exists r|by exists r'].
  - exact Hsv.
Qed.

Lemma remove_client_dealer_ok c D SV d r : Agrees c D SV → D !! d = Some r →
  ∃ c', remove_client_dealer c d = Ok c' ∧ Agrees c' (<[d := calling r false]> D) SV.
Proof.
  intros Ha Hr. destruct (agrees_lookup _ _ _ _ _ Ha Hr) as (x&Hx&Eid&Hplay).
  unfold remove_client_dealer. rewrite Hx, Eid. destruct Ha as [Ha Hrd Hi Hc Hq Hse Hsv].
  eexists. split; [done|]. split; cbn.
  - intros e. destruct (decide (d = e)) as [<-|]; [rewrite lookup_insert_eq; by exists x|].
    rewrite lookup_insert_ne by done. apply Ha.
  - intros e r' [[<- <-]|[_ ?]]%lookup_insert_Some; [|by eapply Hrd].
    destruct (Hrd d r Hr) as (?&?&?). done.
  - by eapply distinct_insert.
  - intros i e. split.
    + intros [Hne (r'&H1&H2&H3)%Hc]%lookup_delete_Some. exists r'. rewrite lookup_insert_ne; [done|]. naive_solver.
    + intros (r'&H1&H2&H3). apply lookup_insert_Some in H1 as [[<- <-]|[Hne H1]]; [done|].
      apply lookup_delete_Some. split; [|apply Hc; by exists r'].
      intros E. apply Hne. eapply Hi; [exact Hr|exact H1|congruence].
  - exact Hq.
  - intros i s e. unfold serving_dealers, queue_of in *. cbn. rewrite Hse. split.
    + intros (r'&H1&H2&H3). destruct (decide (d = e)) as [<-|Hne];
        [exists (calling r false); rewrite lookup_insert_eq; by simplify_eq|].
      exists r'. by rewrite lookup_insert_ne.
    + intros (r'&[[<- <-]|[_ H1]]%lookup_insert_Some&H2&H3); [by exists r|by exists r'].
  - exact Hsv.
Qed.

(** *** The fair queues *)

(** Only the queue of service [i] changes. *)
Definition queue_change c (i : Z) (b : gmap Z FairQueue) : Prop :=
  (∀ j, i ≠ j → b !! j = _server_backend c !! j) ∧ (∀ q, b !! i = Some q → FQInv q ∧ fq_empty q = false).

Definition queue_in (b : gmap Z FairQueue) (i : Z) : FairQueue := default (FairQueue_ 0 0) (b !! i).

Lemma Agrees_serving c D SV d r o b :
  Agrees c D SV → D !! d = Some r → (is_Some o → r_server r = true) → queue_change c (r_rpc r) b →
  (∀ s e, e ∈ dealers_of (queue_in b (r_rpc r)) s ↔ e = d ∧ o = Some s ∨ e ≠ d ∧ e ∈ serving_dealers c (r_rpc r) s) →
  (∀ s, is_Some (_sid2cache (queue_in b (r_rpc r)) !! s) ↔ is_Some (_sid2cache (queue_of c (r_rpc r)) !! s)) →
  Agrees (set_backend c b) (<[d := serving r o]> D) SV.
Proof.
  intros Ha Hr Ho [Hb Hq'] Hmem Hcache. destruct (agrees_lookup _ _ _ _ _ Ha Hr) as (x&Hx&Hplay).
  destruct Ha as [Ha Hrd Hi Hc Hq Hse Hsv]. split; cbn.
  - intros e. destruct (decide (d = e)) as [<-|]; [rewrite lookup_insert_eq; by exists x|].
    rewrite lookup_insert_ne by done. apply Ha.
  - intros e r' [[<- <-]|[_ ?]]%lookup_insert_Some; [|by eapply Hrd]. by destruct (Hrd d r Hr) as (?&?&?).
  - by eapply distinct_insert.
  - intros i e. rewrite Hc. split.
    + intros (r'&H1&H2&H3). destruct (decide (d = e)) as [<-|Hne];
        [exists (serving r o); rewrite lookup_insert_eq; by simplify_eq|].
      exists r'. by rewrite lookup_insert_ne.
    + intros (r'&[[<- <-]|[_ H1]]%lookup_insert_Some&H2&H3); [by exists r|by exists r'].
  - intros i q. destruct (decide (r_rpc r = i)) as [<-|]; [apply Hq'|rewrite Hb by done; apply Hq].
  - intros i s e. unfold serving_dealers, queue_of in *. cbn. fold (queue_in b i).
    destruct (decide (r_rpc r = i)) as [<-|Hne].
    + rewrite Hmem, Hse. split.
      * intros [[-> ->]|[He (r'&H1&H2&H3)]]; [exists (serving r (Some s)); by rewrite lookup_insert_eq|].
        exists r'. by rewrite lookup_insert_ne.
      * intros (r'&[[<- <-]|[Hne H1]]%lookup_insert_Some&H2&H3); [by left|]. right. split; [done|]. by exists r'.
    + unfold queue_in. rewrite Hb, Hse by done. split.
      * intros (r'&H1&H2&H3). exists r'. rewrite lookup_insert_ne; [done|]. naive_solver.
      * intros (r'&[[<- <-]|[_ H1]]%lookup_insert_Some&H2&H3); [done|by exists r'].
  - intros i s. rewrite <- Hsv. unfold queue_of at 1. cbn. fold (queue_in b i).
    destruct (decide (r_rpc r = i)) as [<-|Hne]; [by apply Hcache|]. unfold queue_in. by rewrite Hb.
Qed.

Lemma Agrees_servers c D SV SV' i b :
  Agrees c D SV → queue_change c i b →
  (∀ s, dealers_of (queue_in b i) s = serving_dealers c i s) →
  (∀ s, is_Some (_sid2cache (queue_in b i) !! s) ↔ SV' i s) →
  (∀ j s, j ≠ i → SV' j s ↔ SV j s) → Agrees (set_backend c b) D SV'.
Proof.
  intros [Ha Hrd Hi Hc Hq Hse Hsv] [Hb Hq'] Hmem Hcache Hrest. split; cbn; try done.
  - intros j q. destruct (decide (i = j)) as [<-|]; [apply Hq'|rewrite Hb by done; apply Hq].
  - intros j s e. rewrite <- Hse. unfold serving_dealers, queue_of in *. cbn. fold (queue_in b j).
    destruct (decide (i = j)) as [<-|Hne]; [by rewrite Hmem|]. unfold queue_in. by rewrite Hb.
  - intros j s. unfold queue_of. cbn. fold (queue_in b j). destruct (decide (i = j)) as [<-|Hne]; [done|].
    rewrite Hrest, <- Hsv by done. unfold queue_in. by rewrite Hb.
Qed.

(** What the operations on a fair queue do to its tables. *)
Lemma elem_dealers_insert q s l k s' e :
  e ∈ dealers_of (with_dealers q (<[s := l]> (_sid2dealers q)) k) s' ↔ e ∈ (if decide (s = s') then l else dealers_of q s').
Proof. by rewrite dealers_insert. Qed.

Lemma add_server_dealer_tables q s d q' rs : add_server_dealer q s d = (q', rs) →
  (∀ s' e, e ∈ dealers_of q' s' ↔ e = d ∧ s = s' ∨ e ∈ dealers_of q s') ∧
  (∀ s', is_Some (_sid2cache q' !! s') ↔ is_Some (_sid2cache q !! s')) ∧ fq_empty q' = false.
Proof.
  intros Hadd. assert (Hd : _sid2dealers q' = <[s := dealers_of q s ++ [d]]> (_sid2dealers q)).
  { unfold add_server_dealer in Hadd. cbn in Hadd. by destruct (_sid2cache q !! s); injection Hadd as <- <-. }
  split; [|split].
  - intros s' e. unfold dealers_of at 1. rewrite Hd. destruct (decide (s = s')) as [<-|].
    + rewrite lookup_insert_eq. cbn. rewrite elem_of_app, list_elem_of_singleton. naive_solver.
    + rewrite lookup_insert_ne by done. fold (dealers_of q s'). naive_solver.
  - intros s'. unfold add_server_dealer in Hadd. cbn in Hadd.
    destruct (_sid2cache q !! s) eqn:Hc; injection Hadd as <- <-; cbn; [|done].
    rewrite lookup_insert_is_Some'. split; [intros [<-|?]; [by rewrite Hc|done]|by right].
  - unfold fq_empty. rewrite Hd, bool_decide_false; [done|]. apply insert_non_empty.
Qed.

Lemma remove_server_dealer_tables q s d q' : FQInv q → d ∈ dealers_of q s → remove_server_dealer q s d = Ok q' →
  (∀ s' e, e ∈ dealers_of q' s' ↔ e ∈ dealers_of q s' ∧ ¬ (e = d ∧ s = s')) ∧ _sid2cache q' = _sid2cache q.
Proof.
  intros Hq (ds & Hds & Hd)%dealers_of_some. unfold remove_server_dealer. rewrite Hds. cbv zeta.
  destruct (fq_dealers q Hq s ds Hds) as [_ Hnd]. apply list_elem_of_lookup_1 in Hd as [j Hj].
  pose proof (remove_dealers_perm (length ds) 0 j ds d Hnd Hj ltac:(lia) ltac:(lia)) as Hp.
  set (ds' := remove_dealers (length ds) 0 ds d) in *. intros [= <-]. split; [|done].
  intros s' e. unfold dealers_of. cbn. destruct (decide (s = s')) as [<-|].
  - rewrite Hds. cbn. assert (Hmem : e ∈ ds ↔ e = d ∨ e ∈ ds') by (rewrite Hp, elem_of_cons; done).
    assert (Hnot : d ∉ ds') by (rewrite Hp in Hnd; by apply NoDup_cons in Hnd as [? _]).
    rewrite Hmem. case_decide as E; [rewrite lookup_delete_eq, E; cbn; rewrite elem_of_nil|rewrite lookup_insert_eq; cbn];
      naive_solver.
  - case_decide; rewrite ?lookup_delete_ne, ?lookup_insert_ne by done; naive_solver.
Qed.

(** A queue that is not there yet. *)
Lemma backend_of_tables c D SV fresh i : Agrees c D SV →
  FQInv (backend_of c fresh i) ∧ (∀ s, dealers_of (backend_of c fresh i) s = serving_dealers c i s) ∧
  _sid2cache (backend_of c fresh i) = _sid2cache (queue_of c i).
Proof.
  intros Ha. unfold backend_of, serving_dealers, queue_of.
  destruct (_server_backend c !! i) as [q|] eqn:Hq; cbn; [by destruct (ag_queue _ _ _ Ha i q Hq)|].
  split; [apply FQInv_init|done].
Qed.

Lemma put_change c i q : FQInv q → fq_empty q = false → queue_change c i (<[i := q]> (_server_backend c)).
Proof.
  intros Hq He. split; [intros j Hj; by rewrite lookup_insert_ne|].
  intros q'. rewrite lookup_insert_eq. by intros [= <-].
Qed.

(** What [put_or_erase] leaves. *)
Definition put_or_erased c (i : Z) q : gmap Z FairQueue :=
  if fq_empty q then delete i (_server_backend c) else <[i := q]> (_server_backend c).

Lemma put_or_erased_change c i q : FQInv q →
  queue_change c i (put_or_erased c i q) ∧
  _sid2dealers (queue_in (put_or_erased c i q) i) = _sid2dealers q ∧
  _sid2cache (queue_in (put_or_erased c i q) i) = _sid2cache q.
Proof.
  intros Hq. unfold put_or_erased, queue_in. destruct (fq_empty q) eqn:He.
  - split; [split; [intros j Hj; by rewrite lookup_delete_ne|intros q'; by rewrite lookup_delete_eq]|].
    rewrite lookup_delete_eq. cbn. unfold fq_empty in He. apply andb_true_iff in He as [H1 H2].
    apply bool_decide_eq_true in H1, H2. by rewrite H1, H2.
  - split; [by apply put_change|]. by rewrite lookup_insert_eq.
Qed.

Lemma has_backend c i : (∃ s d, d ∈ serving_dealers c i s) ∨ (∃ s, is_Some (_sid2cache (queue_of c i) !! s)) →
  _server_backend c !! i = Some (queue_of c i).
Proof.
  unfold serving_dealers, queue_of. destruct (_server_backend c !! i); [done|]. unfold dealers_of. cbn.
  intros [(s&d&Hd)|(s&Hs)]; [|by rewrite lookup_empty in Hs; destruct Hs].
  rewrite lookup_empty in Hd. by apply not_elem_of_nil in Hd.
Qed.

Lemma ctx_add_server_dealer_ok c D SV fresh d r s :
  Agrees c D SV → D !! d = Some r → r_server r = true → r_serves r = None →
  ∃ c', ctx_add_server_dealer c fresh (r_rpc r) s d = Ok c' ∧ Agrees c' (<[d := serving r (Some s)]> D) SV.
Proof.
  intros Ha Hr Hserver Hno. unfold ctx_add_server_dealer.
  destruct (backend_of_tables c D SV fresh (r_rpc r) Ha) as (Hq&Hd&Hc).
  set (q := backend_of c fresh (r_rpc r)) in *.
  assert (Hnot : ∀ s', d ∉ serving_dealers c (r_rpc r) s')
    by (intros s' (r'&H1&_&H3)%(ag_serves _ _ _ Ha); congruence).
  destruct (fq_add_dealer q s d Hq) as (q'&rs&Hadd&Hq'&_); [rewrite Hd; apply Hnot|].
  destruct (add_server_dealer_tables q s d q' rs Hadd) as (Hmem&Hcache&He). rewrite Hadd.
  set (c1 := set_backend c _).
  assert (Ha1 : Agrees c1 (<[d := serving r (Some s)]> D) SV).
  { apply Agrees_serving; [done..|by apply put_change| |]; unfold queue_in; rewrite lookup_insert_eq; cbn.
    - intros s' e. rewrite Hmem, Hd. specialize (Hnot s'). naive_solver.
    - intros s'. by rewrite Hcache, Hc. }
  destruct rs as [|m rs]; [by exists c1|].
  destruct (agrees_lookup _ _ _ d _ Ha1 (lookup_insert_eq _ _ _)) as (x&Hx&_&_&_&Hs'&_). cbn in Hs'.
  unfold dealer_push_request. rewrite Hx, Hs', Hserver. step_ok. eexists. split; [done|].
  eapply Agrees_same; [|exact Ha1]. by apply (dealer_roles c1 d x).
Qed.

Lemma ctx_remove_server_dealer_ok c D SV d r s :
  Agrees c D SV → D !! d = Some r → r_serves r = Some s →
  ∃ c', ctx_remove_server_dealer c (r_rpc r) s d = Ok c' ∧ Agrees c' (<[d := serving r None]> D) SV.
Proof.
  intros Ha Hr Hs. unfold ctx_remove_server_dealer.
  assert (Hin : d ∈ serving_dealers c (r_rpc r) s) by (apply (ag_serves _ _ _ Ha); by exists r).
  rewrite (has_backend c (r_rpc r)) by eauto. set (q := queue_of c (r_rpc r)).
  destruct (ag_queue _ _ _ Ha (r_rpc r) q) as [Hq _]; [apply has_backend; eauto|].
  destruct (fq_remove_dealer q s d Hq Hin) as (q'&Hrem&Hq'&_). rewrite Hrem. step_ok.
  destruct (remove_server_dealer_tables q s d q' Hq Hin Hrem) as (Hmem&Hcache).
  destruct (put_or_erased_change c (r_rpc r) q' Hq') as (Hch&Hd&Hc). eexists. split; [done|].
  unfold put_or_erase. fold (put_or_erased c (r_rpc r) q').
  apply Agrees_serving; [done..|by intros [? [=]]|done| |].
  - intros s' e. unfold dealers_of at 1. rewrite Hd. fold (dealers_of q' s'). rewrite Hmem.
    fold (serving_dealers c (r_rpc r) s'). split; [|naive_solver].
    intros [He Hne]. right. split; [|done]. intros ->. apply (ag_serves _ _ _ Ha) in He as (r'&H1&_&H3).
    apply Hne. split; congruence.
  - intros s'. by rewrite Hc, Hcache.
Qed.

Lemma end_add_server_ok c D SV fresh i s : Agrees c D SV → ¬ SV i s →
  ∃ c', end_add_server c fresh i s = Ok c' ∧ Agrees c' D (λ i' s', SV i' s' ∨ i' = i ∧ s' = s).
Proof.
  intros Ha Hno. unfold end_add_server. destruct (backend_of_tables c D SV fresh i Ha) as (Hq&Hd&Hc).
  set (q := backend_of c fresh i) in *.
  assert (Hnone : _sid2cache q !! s = None) by (apply eq_None_not_Some; by rewrite Hc, (ag_servers _ _ _ Ha)).
  destruct (fq_add_server q s Hq Hnone) as (q'&Hadd&Hq'&_). rewrite Hadd. step_ok.
  assert (Heq : q' = with_cache q (<[s := []]> (_sid2cache q))) by (unfold add_server in Hadd; rewrite Hnone in Hadd; by injection Hadd).
  eexists. split; [done|]. apply (Agrees_servers c D SV _ i); [done| | | |naive_solver].
  - apply put_change; [done|]. unfold fq_empty. rewrite Heq. cbn.
    rewrite (bool_decide_false (<[s := []]> _ = ∅)) by apply insert_non_empty. apply andb_false_r.
  - intros s'. unfold queue_in. rewrite lookup_insert_eq. cbn. rewrite Heq. apply Hd.
  - intros s'. unfold queue_in. rewrite lookup_insert_eq. cbn. rewrite Heq. cbn.
    rewrite lookup_insert_is_Some', Hc, (ag_servers _ _ _ Ha). naive_solver.
Qed.

Lemma ctx_remove_server_ok c D SV i s : Agrees c D SV → SV i s →
  ∃ c', ctx_remove_server c i s = Ok c' ∧ Agrees c' D (λ i' s', SV i' s' ∧ ¬ (i' = i ∧ s' = s)).
Proof.
  intros Ha Hs. apply (ag_servers _ _ _ Ha) in Hs. unfold ctx_remove_server.
  rewrite (has_backend c i) by eauto. set (q := queue_of c i) in *.
  destruct (ag_queue _ _ _ Ha i q) as [Hq _]; [apply has_backend; eauto|].
  destruct (fq_remove_server q s Hq Hs) as (q'&Hrem&Hq'&_). rewrite Hrem. step_ok.
  assert (Heq : q' = with_cache q (delete s (_sid2cache q))).
  { unfold remove_server in Hrem. destruct (_sid2cache q !! s); [by injection Hrem|done]. }
  destruct (put_or_erased_change c i q' Hq') as (Hch&Hd&Hc). eexists. split; [done|].
  unfold put_or_erase. fold (put_or_erased c i q'). apply (Agrees_servers c D SV _ i); [done|done| | |naive_solver].
  - intros s'. unfold dealers_of. rewrite Hd, Heq. done.
  - intros s'. rewrite Hc, Heq. cbn. unfold q. rewrite lookup_delete_is_Some, (ag_servers _ _ _ Ha). naive_solver.
Qed.

(** *** What these changes leave alone *)
Definition kept c c' : Prop := _self c' = _self c ∧ same_wiring c c'.

Definition keeps c (r : result ctx) : Prop := match r with Ok c' => kept c c' | Abort => True end.

Lemma keeps_ok c r c' : keeps c r → r = Ok c' → kept c c'.
Proof. by intros Hk ->. Qed.

Lemma on_dealer_keeps c d f : keeps c (on_dealer c d f).
Proof. unfold on_dealer. destruct (dealers c !! d) as [x|]; [|done]. by destruct (f x). Qed.
Lemma dealer_push_request_keeps c d ms : keeps c (dealer_push_request c d ms).
Proof. unfold dealer_push_request. destruct (dealers c !! d) as [x|]; [|done]. by destruct (_initialized_server x). Qed.
Lemma ctx_add_server_dealer_keeps c fresh i s d : keeps c (ctx_add_server_dealer c fresh i s d).
Proof.
  unfold ctx_add_server_dealer. destruct (add_server_dealer _ _ _) as [q rs]. destruct rs; [done|].
  apply (dealer_push_request_keeps (set_backend c _)).
Qed.
Lemma ctx_remove_server_dealer_keeps c i s d : keeps c (ctx_remove_server_dealer c i s d).
Proof. unfold ctx_remove_server_dealer. destruct (_ !! _); [|done]. by destruct (remove_server_dealer _ _ _). Qed.
Lemma end_add_server_keeps c fresh i s : keeps c (end_add_server c fresh i s).
Proof. unfold end_add_server. by destruct (add_server _ _). Qed.
Lemma ctx_remove_server_keeps c i s : keeps c (ctx_remove_server c i s).
Proof. unfold ctx_remove_server. destruct (_ !! _); [|done]. by destruct (remove_server _ _). Qed.
Lemma add_client_dealer_keeps c d : keeps c (add_client_dealer c d).
Proof. unfold add_client_dealer. destruct (_ !! d); [|done]. by destruct (_ !! _). Qed.
Lemma remove_client_dealer_keeps c d : keeps c (remove_client_dealer c d).
Proof. unfold remove_client_dealer. by destruct (_ !! d). Qed.
End dealers.
