(* ===== verification/FrontEnd.v ===== *)
(** * The sending side of a frontend

    src/src/rpc/FrontEnd.cpp: [send_msg_nonblock], [send_msg], [keep_writing] and [epipe].

    Many threads hand messages to a frontend and one of them writes: the one that finds
    the counter [_sending_queue_size] at zero, which then also writes what the others put
    into [_sending_queue] in the meantime.  When the kernel's buffer is full the rest is
    left to a new thread; when the connection is lost the messages go back to the context
    to be routed again.

    Each atomic instruction is a step, and so is each access to the queue and the socket.
    The queue is a list (Queue.v); a [pop] may fail although it is not empty, while a
    producer is between its two instructions.  What the socket, the connection attempt
    and [pop] answer is the label of the step. *)
From S2P Require Import Prelude Archive Serialize LazyArchive Message FairQueue RpcContext.
#[local] Open Scope Z_scope.

Section frontend.
Context {M : Type}.

(** ** Threads *)

(** Where the thread that writes is.  [Begin]: it has found the counter at zero.
    [Loop]: at [while (_more)].  [Write]: before [_socket->send_msg].  [Sub]: before the
    [fetch_sub].  [Spin]: at [while (!_sending_queue.pop(_msg))].  [Keep]: at the start of
    [keep_writing]; [Connect]: in [connect]; [Kept]: behind it.  [Epipe], [Resend], [ESub],
    [ESpin], [EFinal]: in [epipe].  [Stopped]: it has returned from [epipe] of a frontend
    that accepted its connection. *)
Inductive pc :=
  | Begin (nonblock : bool) (m : M)
  | Loop (nonblock : bool) (cnt : Z)
  | Write (nonblock : bool) (cnt : Z)
  | Sub (nonblock : bool) (cnt : Z)
  | Spin (nonblock : bool)
  | Keep (cnt : Z)
  | Connect (cnt : Z)
  | Kept (cnt : Z)
  | Epipe (cnt : Z)
  | Resend (cnt : Z)
  | ESub (cnt : Z)
  | ESpin
  | EFinal
  | Stopped (cnt : Z).

(** [chosen]: threads that have this frontend from the context's tables but have not
    called yet; [pushing]: threads between the [fetch_add] and the [push].  [_connected]:
    [_socket] is not null; [_broken]: it has failed.  [_unfinished]: [_it1] or [_it2] has
    something left.  [out] records the messages written ([true]) and those given back to
    the context ([false]). *)
Record front := Front {
  _state : Z;
  _sending_queue_size : Z;
  _sending_queue : list M;
  _msg : option M;
  _more : bool;
  _sending_msg : option M;
  _unfinished : bool;
  _connected : bool;
  _broken : bool;
  _is_client : bool;
  chosen : list (bool * M);
  pushing : list M;
  writers : list pc;
  out : list (bool * M);
}.

Definition has_flag (s : front) (flag : Z) : bool := negb (Z.land (_state s) flag =? 0).

Definition set_shared (s : front) msg more sending unfinished q := Front (_state s)
  (_sending_queue_size s) q msg more sending unfinished (_connected s) (_broken s) (_is_client s)
  (chosen s) (pushing s) (writers s) (out s).
Definition set_flags (s : front) st conn broken := Front st (_sending_queue_size s) (_sending_queue s)
  (_msg s) (_more s) (_sending_msg s) (_unfinished s) conn broken (_is_client s) (chosen s) (pushing s)
  (writers s) (out s).
Definition set_threads (s : front) sz ch pu wr := Front (_state s) sz (_sending_queue s) (_msg s)
  (_more s) (_sending_msg s) (_unfinished s) (_connected s) (_broken s) (_is_client s) ch pu wr (out s).
Definition goto (s : front) (i : nat) (p : option pc) := set_threads s (_sending_queue_size s)
  (chosen s) (pushing s)
  (match p with Some p => <[i := p]> (writers s) | None => delete i (writers s) end).
Definition emit (s : front) (wire : bool) (l : list M) := Front (_state s) (_sending_queue_size s)
  (_sending_queue s) (_msg s) (_more s) (_sending_msg s) (_unfinished s) (_connected s)
  (_broken s) (_is_client s) (chosen s) (pushing s) (writers s) (out s ++ (pair wire <$> l)).

(** A new client frontend is not connected; one that has accepted a connection is. *)
Definition init (client connected : bool) : front :=
  Front (if connected then FRONTEND_CONNECT else FRONTEND_DISCONNECT) 0 [] None false None false
    connected false client [] [] [] [].

(** ** Steps *)
Inductive outcome := Failed | Unfinished | Complete.

Inductive label :=
  | Choose (nonblock rested : bool) (m : M)  (** the context picks the frontend *)
  | Add (i : nat)                            (** thread [i] of [chosen]: [fetch_add] *)
  | Push (i : nat)                           (** thread [i] of [pushing] *)
  | Step (i : nat) (pops : bool) (o : outcome)
  | ReadEpipe.                               (** [handle_message_event] finds it closed *)

(** [_more = _sending_queue.pop(_msg)] after [_sending_msg = std::move(_msg)]. *)
Definition advance (s : front) (pops : bool) : front :=
  match _sending_queue s with
  | x :: q => if pops then set_shared s (Some x) true (_msg s) (_unfinished s) q
              else set_shared s None false (_msg s) (_unfinished s) (x :: q)
  | [] => set_shared s None false (_msg s) (_unfinished s) []
  end.

Definition msgs (o : option M) : list M := match o with Some m => [m] | None => [] end.

Definition fetch_sub (s : front) (cnt : Z) : front * bool :=
  (set_threads s (i32 (_sending_queue_size s - cnt)) (chosen s) (pushing s) (writers s),
   _sending_queue_size s =? cnt).

(** One step of a writer. *)
Definition writer_step (s : front) (i : nat) (p : pc) (pops : bool) (o : outcome) : result front :=
  match p with
  | Begin nonblock m =>
      let s := set_shared s (Some m) true (_sending_msg s) false (_sending_queue s) in
      Ok (goto s i (Some (if nonblock && negb (has_flag s FRONTEND_DISCONNECT) then Loop true 0 else Keep 0)))
  | Loop nonblock cnt =>
      if _more s then Ok (goto (advance s pops) i (Some (Write nonblock (cnt + 1))))
      else Ok (goto s i (Some (Sub nonblock cnt)))
  | Write nonblock cnt =>
      if _connected s then
        match o with
        | Failed => Ok (goto (set_flags s (_state s) (_connected s) true) i (Some (Epipe cnt)))
        | Complete => Ok (goto (emit s true (msgs (_sending_msg s))) i (Some (Loop nonblock cnt)))
        | Unfinished =>
            if nonblock
            then Ok (goto (set_shared s (_msg s) (_more s) (_sending_msg s) true (_sending_queue s)) i (Some (Keep cnt)))
            else Abort
        end
      else Abort
  | Sub nonblock cnt =>
      let '(s, last) := fetch_sub s cnt in
      Ok (goto s i (if last : bool then None else Some (Spin nonblock)))
  | Spin nonblock =>
      match _sending_queue s with
      | x :: q => if pops then Ok (goto (set_shared s (Some x) true (_sending_msg s) (_unfinished s) q) i
                                     (Some (Loop nonblock 0)))
                  else Ok s
      | [] => Ok s
      end
  | Keep cnt => Ok (goto s i (Some (if has_flag s FRONTEND_DISCONNECT then Connect cnt else Kept cnt)))
  | Connect cnt =>
      if has_flag s FRONTEND_DISCONNECT then
        match o with
        | Failed => Ok (goto (advance s pops) i (Some (Epipe (cnt + 1))))
        | _ => Ok (goto (set_flags s FRONTEND_CONNECT true false) i (Some (Kept cnt)))
        end
      else Ok (goto s i (Some (Kept cnt)))
  | Kept cnt =>
      if _unfinished s then
        match o with
        | Failed => Ok (goto (set_flags s (_state s) (_connected s) true) i (Some (Epipe cnt)))
        | _ => Ok (goto (emit (set_shared s (_msg s) (_more s) (_sending_msg s) false (_sending_queue s)) true
                           (msgs (_sending_msg s))) i (Some (Loop false cnt)))
        end
      else Ok (goto s i (Some (Loop false cnt)))
  | Epipe cnt =>
      let s := set_flags s FRONTEND_EPIPE (_connected s) (_broken s) in
      Ok (goto s i (Some (if _is_client s then Resend cnt else Stopped cnt)))
  | Resend cnt =>
      let s := set_shared s (_msg s) (_more s) (_sending_msg s) false (_sending_queue s) in
      let s := emit s false (msgs (_sending_msg s)) in
      if _more s
      then Ok (goto (emit s false (msgs (_msg s))) i (Some (ESub (cnt + 1))))
      else Ok (goto s i (Some (ESub cnt)))
  | ESub cnt =>
      let '(s, last) := fetch_sub s cnt in
      Ok (goto s i (Some (if last : bool then EFinal else ESpin)))
  | ESpin =>
      match _sending_queue s with
      | x :: q => if pops then Ok (goto (emit (set_shared s (_msg s) (_more s) (Some x) (_unfinished s) q) false [x]) i
                                     (Some (ESub 1)))
                  else Ok s
      | [] => Ok s
      end
  | EFinal => Ok (goto (set_flags s (Z.lor FRONTEND_DISCONNECT FRONTEND_EPIPE) (_connected s) (_broken s)) i None)
  | Stopped _ => Ok s
  end.

(** [available()], with the clock's answer. *)
Definition front_available (s : front) (rested : bool) : bool :=
  available (MkFrontEnd 0 (_state s) rested (_is_client s) []).

Definition step (s : front) (l : label) : result front :=
  match l with
  | Choose nonblock rested m =>
      Ok (if front_available s rested
          then set_threads s (_sending_queue_size s) (chosen s ++ [(nonblock, m)]) (pushing s) (writers s) else s)
  | Add i =>
      match chosen s !! i with
      | None => Ok s
      | Some (nonblock, m) =>
          let sz := i32 (_sending_queue_size s + 1) in
          Ok (if _sending_queue_size s =? 0
              then set_threads s sz (delete i (chosen s)) (pushing s) (writers s ++ [Begin nonblock m])
              else set_threads s sz (delete i (chosen s)) (pushing s ++ [m]) (writers s))
      end
  | Push i =>
      match pushing s !! i with
      | None => Ok s
      | Some m => Ok (set_threads (set_shared s (_msg s) (_more s) (_sending_msg s) (_unfinished s)
                                     (_sending_queue s ++ [m]))
                        (_sending_queue_size s) (chosen s) (delete i (pushing s)) (writers s))
      end
  | Step i pops o =>
      match writers s !! i with
      | None => Ok s
      | Some p => writer_step s i p pops o
      end
  | ReadEpipe => Ok (set_flags s FRONTEND_EPIPE (_connected s) (_broken s))
  end.

Fixpoint steps (s : front) (ls : list label) : result front :=
  match ls with
  | [] => Ok s
  | l :: ls => s ← step s l; steps s ls
  end.

(** ** One writer at a time *)

(** A thread that has left the counter at zero only has its state to set. *)
Definition own (p : pc) : bool := match p with EFinal => false | _ => true end.

Definition owners (s : front) : list pc := filter (λ p, own p = true) (writers s).

(** The socket cannot be written to. *)
Definition bad (s : front) : bool := negb (_connected s) || _broken s.

Definition next_msg (s : front) : list M := if _more s then msgs (_msg s) else [].

(** How many of the messages the counter counts are neither in the queue nor about to be,
    and which messages the writer holds. *)
Definition claims (s : front) (p : pc) : Z :=
  match p with
  | Begin _ _ => 1
  | Loop _ cnt | Write _ cnt | Sub _ cnt | Keep cnt | Connect cnt | Kept cnt | Epipe cnt | Resend cnt
  | Stopped cnt => cnt + Z.b2z (_more s)
  | ESub cnt => cnt
  | Spin _ | ESpin | EFinal => 0
  end.

Definition held (s : front) (p : pc) : list M :=
  match p with
  | Begin _ m => [m]
  | Loop _ _ => next_msg s
  | Keep _ | Connect _ | Kept _ => (if _unfinished s then msgs (_sending_msg s) else []) ++ next_msg s
  | Write _ _ | Epipe _ | Resend _ | Stopped _ => msgs (_sending_msg s) ++ next_msg s
  | Sub _ _ | Spin _ | ESub _ | ESpin | EFinal => []
  end.

Definition wf (s : front) (p : pc) : Prop :=
  match p with
  | Begin _ _ | Spin _ => True
  | Loop _ cnt => 0 ≤ cnt ∧ (cnt = 0 → _more s = true)
  | Write _ cnt => 1 ≤ cnt
  | Sub _ cnt => 1 ≤ cnt ∧ _more s = false
  | Connect cnt => _unfinished s = false ∧ cnt = 0 ∧ _more s = true
  | Keep cnt | Kept cnt => if _unfinished s then 1 ≤ cnt ∧ bad s = false else cnt = 0 ∧ _more s = true
  | Epipe cnt | Resend cnt | ESub cnt => 1 ≤ cnt ∧ bad s = true
  | Stopped cnt => 1 ≤ cnt
  | ESpin => bad s = true
  | EFinal => False
  end.

(** What is assumed of the environment: a socket that has failed fails again, a blocking
    [send_msg] finishes or fails (Socket.v), and nobody gets through [connect] while a
    thread is still about to mark the frontend as disconnected, which takes one
    instruction while the frontend is left alone for ten seconds. *)
Definition well_behaved (s : front) (l : label) : Prop :=
  match l with
  | Step i _ o =>
      match writers s !! i with
      | Some (Write nonblock _) => (_broken s = true → o = Failed) ∧ (nonblock = false → o ≠ Unfinished)
      | Some (Connect _) => o = Failed ∨ EFinal ∉ writers s
      | _ => True
      end
  | _ => True
  end.

(** The messages that are accepted by a step, and those that get their place in line. *)
Definition accepts (s : front) (l : label) : list M :=
  match l with
  | Add i => match chosen s !! i with Some (_, m) => [m] | None => [] end
  | _ => []
  end.

Definition places (s : front) (l : label) : list M :=
  match l with
  | Add i => if _sending_queue_size s =? 0 then accepts s l else []
  | Push i => msgs (pushing s !! i)
  | _ => []
  end.

Record Inv (s : front) (acc pl : list M) : Prop := {
  inv_more : _more s = true → is_Some (_msg s);
  inv_disc : has_flag s FRONTEND_DISCONNECT = true → bad s = true;
  inv_final : EFinal ∈ writers s → bad s = true;
  inv_own : match owners s with
    | [] => _sending_queue_size s = 0 ∧ _sending_queue s = [] ∧ pushing s = [] ∧ pl = (out s).*2
    | [p] => wf s p ∧
        _sending_queue_size s = claims s p + Z.of_nat (length (_sending_queue s) + length (pushing s)) ∧
        0 < _sending_queue_size s ∧ pl = (out s).*2 ++ held s p ++ _sending_queue s
    | _ => False
    end;
  inv_acc : acc ≡ₚ pl ++ pushing s;
  inv_size : _sending_queue_size s ≤ Z.of_nat (length acc);
}.

Lemma owner_here (l : list pc) i p p0 : l !! i = Some p → own p = true → filter (λ p, own p = true) l = [p0] →
  p = p0 ∧ (∀ q, filter (λ p, own p = true) (<[i := q]> l) = if own q then [q] else []) ∧
  filter (λ p, own p = true) (delete i l) = [].
Proof.
  intros Hi Ho Hf. apply list_elem_of_split_length in Hi as (l1 & l2 & -> & ->).
  rewrite filter_app, filter_cons_True in Hf by done.
  destruct (filter (λ p, own p = true) l1) as [|x [|y l]] eqn:E1, (filter (λ p, own p = true) l2) eqn:E2;
    simplify_eq/=. split; [done|]. split.
  - intros q. rewrite insert_app_r_alt, Nat.sub_diag by lia. cbn. rewrite filter_app, filter_cons, E1, E2.
    by destruct (own q).
  - rewrite delete_middle, filter_app, E1, E2. done.
Qed.

Lemma owner_other (l : list pc) i p : l !! i = Some p → own p = false →
  filter (λ p, own p = true) (delete i l) = filter (λ p, own p = true) l.
Proof.
  intros Hi Ho. apply list_elem_of_split_length in Hi as (l1 & l2 & -> & ->).
  rewrite delete_middle, !filter_app, filter_cons_False by (by rewrite Ho). done.
Qed.

Lemma final_insert (l : list pc) i q : own q = true → EFinal ∈ <[i := q]> l → EFinal ∈ l.
Proof.
  intros Hq (j & Hj)%list_elem_of_lookup_1. destruct (decide (i = j)) as [<-|Hne].
  - destruct (decide (i < length l)%nat).
    + rewrite list_lookup_insert_eq in Hj by done. by injection Hj as ->.
    + rewrite list_insert_ge in Hj by lia. by eapply list_elem_of_lookup_2.
  - rewrite list_lookup_insert_ne in Hj by done. by eapply list_elem_of_lookup_2.
Qed.

Lemma final_delete (l : list pc) i : EFinal ∈ delete i l → EFinal ∈ l.
Proof. intros Hin. eapply elem_of_sublist; [done|]. apply sublist_delete. Qed.

Lemma inv_owner s acc pl i p : Inv s acc pl → writers s !! i = Some p → own p = true →
  owners s = [p] ∧ wf s p ∧
  _sending_queue_size s = claims s p + Z.of_nat (length (_sending_queue s) + length (pushing s)) ∧
  0 < _sending_queue_size s ∧ pl = (out s).*2 ++ held s p ++ _sending_queue s.
Proof.
  intros Hinv Hi Ho. pose proof (inv_own s acc pl Hinv) as Hown. unfold owners in *.
  destruct (filter (λ p, own p = true) (writers s)) as [|p0 [|]] eqn:E; [|split|done].
  - exfalso. apply list_elem_of_lookup_2 in Hi.
    assert (p ∈ filter (λ p, own p = true) (writers s)) as Hin by by apply list_elem_of_filter.
    rewrite E in Hin. by apply elem_of_nil in Hin.
  - by destruct (owner_here (writers s) i p p0 Hi Ho E) as [-> _].
  - destruct (owner_here (writers s) i p p0 Hi Ho E) as [-> _]. done.
Qed.

(** The writer moves on and stays the writer. *)
Lemma inv_move s s' acc pl i p q : Inv s acc pl → writers s !! i = Some p → own p = true → own q = true →
  writers s' = <[i := q]> (writers s) → pushing s' = pushing s →
  (_more s' = true → is_Some (_msg s')) → (has_flag s' FRONTEND_DISCONNECT = true → bad s' = true) →
  (EFinal ∈ writers s → bad s' = true) →
  wf s' q → _sending_queue_size s' = claims s' q + Z.of_nat (length (_sending_queue s') + length (pushing s)) →
  0 < _sending_queue_size s' ≤ _sending_queue_size s →
  (out s).*2 ++ held s p ++ _sending_queue s = (out s').*2 ++ held s' q ++ _sending_queue s' →
  Inv s' acc pl.
Proof.
  intros Hinv Hi Hp Hq Hw Hpu Hmore Hdisc Hfin Hwf Hsz Hpos Hpl.
  destruct (inv_owner s acc pl i p Hinv Hi Hp) as (Hown & _ & _ & _ & ->).
  unfold owners in Hown. destruct (owner_here (writers s) i p p Hi Hp Hown) as (_ & Hins & _).
  split; [done|done| | |by rewrite Hpu; apply Hinv|pose proof (inv_size _ _ _ Hinv); lia].
  - rewrite Hw. intros Hin. apply Hfin. by eapply final_insert.
  - unfold owners. rewrite Hw, Hins, Hq, Hpu, Hpl. destruct Hpos. done.
Qed.

(** The writer is done: nothing is left. *)
Lemma inv_leave s s' acc pl i p : Inv s acc pl → writers s !! i = Some p → own p = true →
  held s p = [] → claims s p = _sending_queue_size s → _sending_queue_size s' = 0 →
  writers s' = <[i := EFinal]> (writers s) ∧ bad s = true ∨ writers s' = delete i (writers s) →
  pushing s' = pushing s → _sending_queue s' = _sending_queue s → out s' = out s →
  _more s' = _more s → _msg s' = _msg s → _state s' = _state s → bad s' = bad s →
  Inv s' acc pl.
Proof.
  intros Hinv Hi Hp Hheld Hcl Hsz Hw Hpu Hq Hout Hmore Hmsg Hst Hbad.
  destruct (inv_owner s acc pl i p Hinv Hi Hp) as (Hown & _ & Hs & _ & ->).
  unfold owners in Hown. destruct (owner_here (writers s) i p p Hi Hp Hown) as (_ & Hins & Hdel).
  destruct (_sending_queue s) eqn:Eq; [|cbn in Hs; lia]. destruct (pushing s) eqn:Ep; [|cbn in Hs; lia].
  rewrite Hheld in *. cbn [app] in *. rewrite app_nil_r in *.
  split.
  - rewrite Hmore, Hmsg. apply Hinv.
  - unfold has_flag. rewrite Hst, Hbad. apply Hinv.
  - rewrite Hbad. destruct Hw as [[-> Hb]| ->]; [done|]. intros Hin%final_delete. by eapply inv_final.
  - unfold owners. destruct Hw as [[-> _]| ->]; rewrite ?Hins, ?Hdel; cbn; by rewrite Hsz, Hq, Hpu, Hout.
  - rewrite Hpu, <- Ep. rewrite Ep. pose proof (inv_acc _ _ _ Hinv) as Ha. rewrite Ep in Ha. done.
  - lia.
Qed.

Lemma advance_queue s pops : _more s = true → is_Some (_msg s) →
  let s' := advance s pops in
  _sending_msg s' = _msg s ∧ (_more s' = true → is_Some (_msg s')) ∧
  Z.b2z (_more s') + Z.of_nat (length (_sending_queue s')) = Z.of_nat (length (_sending_queue s)) ∧
  next_msg s ++ _sending_queue s = msgs (_sending_msg s') ++ next_msg s' ++ _sending_queue s' ∧
  _state s' = _state s ∧ bad s' = bad s ∧ writers s' = writers s ∧ pushing s' = pushing s ∧
  _sending_queue_size s' = _sending_queue_size s ∧ out s' = out s.
Proof.
  intros Hmore [m Hm] s'. unfold s', advance, next_msg. rewrite Hmore, Hm.
  destruct (_sending_queue s) as [|x q]; [|destruct pops]; cbn; rewrite ?Hm; repeat split; try done; lia.
Qed.

Ltac front_simpl := cbn [set_shared set_flags set_threads goto emit fetch_sub _state _sending_queue_size
  _sending_queue _msg _more _sending_msg _unfinished _connected _broken _is_client chosen pushing writers out] in *.

(** Steps at which nothing but the place of the writer and the flags changes. *)
Lemma inv_goto s s' acc pl i p q : Inv s acc pl → writers s !! i = Some p → own p = true → own q = true →
  writers s' = <[i := q]> (writers s) → pushing s' = pushing s → _sending_queue s' = _sending_queue s →
  _sending_queue_size s' = _sending_queue_size s → out s' = out s → _more s' = _more s → _msg s' = _msg s →
  (has_flag s' FRONTEND_DISCONNECT = true → bad s' = true) → (EFinal ∈ writers s → bad s' = true) →
  wf s' q → claims s' q = claims s p → held s' q = held s p → Inv s' acc pl.
Proof.
  intros Hinv Hi Hp Hq Hw Hpu Hqu Hsz Hout Hmore Hmsg Hdisc Hfin Hwf Hcl Hheld.
  destruct (inv_owner s acc pl i p Hinv Hi Hp) as (_ & _ & Hs & Hpos & _).
  eapply (inv_move s s' acc pl i p q); try done.
  - rewrite Hmore, Hmsg. apply Hinv.
  - by rewrite Hcl, Hqu, Hsz.
  - lia.
  - by rewrite Hout, Hheld, Hqu.
Qed.

Lemma step_begin s acc pl i nonblock m pops o : Inv s acc pl → writers s !! i = Some (Begin nonblock m) →
  ∀ s', writer_step s i (Begin nonblock m) pops o = Ok s' → Inv s' acc pl.
Proof.
  intros Hinv Hi s' [= <-].
  destruct (inv_owner s acc pl i _ Hinv Hi eq_refl) as (_ & _ & Hs & Hpos & _).
  eapply (inv_move s _ acc pl i _ _ Hinv Hi eq_refl); [|reflexivity|reflexivity|..]; front_simpl.
  all: try done.
  - by destruct (nonblock && _).
  - apply Hinv.
  - apply Hinv.
  - destruct (nonblock && _); cbn; done.
  - destruct (nonblock && _); cbn; cbn in Hs; lia.
  - by destruct (nonblock && _).
Qed.

Lemma step_loop s acc pl i nonblock cnt pops o : Inv s acc pl → writers s !! i = Some (Loop nonblock cnt) →
  ∀ s', writer_step s i (Loop nonblock cnt) pops o = Ok s' → Inv s' acc pl.
Proof.
  intros Hinv Hi s'. destruct (inv_owner s acc pl i _ Hinv Hi eq_refl) as (_ & Hwf & Hs & Hpos & _).
  cbn [writer_step]. destruct (_more s) eqn:Hmore; intros [= <-].
  - destruct (advance_queue s pops Hmore (inv_more _ _ _ Hinv Hmore)) as (Hsend & Hm & Hlen & Hpl & Hst & Hb & Hw & Hpu & Hsz & Ho).
    eapply (inv_move s _ acc pl i _ (Write nonblock (cnt + 1)) Hinv Hi); try done; front_simpl.
    + by rewrite Hw.
    + unfold has_flag. cbn. rewrite Hst. unfold bad in *. cbn. rewrite Hb. apply Hinv.
    + unfold bad in *. cbn. rewrite Hb. apply Hinv.
    + cbn in *. lia.
    + cbn in *. rewrite Hmore in Hs. cbn in Hs. rewrite Hsz. lia.
    + rewrite Hsz. lia.
    + rewrite Ho. cbn [held]. f_equal. rewrite Hpl. unfold next_msg. cbn. by rewrite app_assoc.
  - eapply (inv_goto s _ acc pl i _ (Sub nonblock cnt) Hinv Hi); try done; front_simpl.
    + apply Hinv.
    + apply Hinv.
    + cbn in *. split; [|done]. destruct Hwf as [Hc Hz]. destruct (decide (cnt = 0)) as [E|]; [specialize (Hz E); congruence|lia].
    + cbn. unfold next_msg. by rewrite Hmore.
Qed.

Lemma fmap_snd_pair (b : bool) (l : list M) : (pair b <$> l).*2 = l.
Proof. rewrite <- list_fmap_compose. cbn. by rewrite list_fmap_id. Qed.

Lemma step_write s acc pl i nonblock cnt pops o : Inv s acc pl → writers s !! i = Some (Write nonblock cnt) →
  (_broken s = true → o = Failed) →
  ∀ s', writer_step s i (Write nonblock cnt) pops o = Ok s' → Inv s' acc pl.
Proof.
  intros Hinv Hi Hbr s'. destruct (inv_owner s acc pl i _ Hinv Hi eq_refl) as (_ & Hwf & Hs & Hpos & _).
  cbn [writer_step]. destruct (_connected s) eqn:Hconn; [|done]. destruct o.
  - intros [= <-]. eapply (inv_goto s _ acc pl i _ (Epipe cnt) Hinv Hi); try done; front_simpl; try (by apply Hinv).
    all: cbn in *; unfold bad; cbn; by rewrite ?orb_true_r.
  - destruct nonblock; [|done]. intros [= <-].
    assert (Hb : _broken s = false) by (destruct (_broken s); [by specialize (Hbr eq_refl)|done]).
    eapply (inv_goto s _ acc pl i _ (Keep cnt) Hinv Hi); try done; front_simpl; try (by apply Hinv).
    + cbn in *. split; [done|]. unfold bad. cbn. by rewrite Hconn, Hb.
  - intros [= <-]. eapply (inv_move s _ acc pl i _ (Loop nonblock cnt) Hinv Hi); try done; front_simpl; try (by apply Hinv).
    + cbn in *. lia.
    + cbn [held]. rewrite fmap_app, fmap_snd_pair. unfold next_msg. cbn. by rewrite <- !app_assoc.
Qed.

Lemma sub_exact s acc pl cnt : Inv s acc pl → Z.of_nat (length acc) < 2 ^ 31 → 0 ≤ cnt ≤ _sending_queue_size s →
  i32 (_sending_queue_size s - cnt) = _sending_queue_size s - cnt.
Proof. intros Hinv Hacc Hc. pose proof (inv_size _ _ _ Hinv). apply swrap_small; [lia|]. unfold in_signed. lia. Qed.

Lemma step_sub s acc pl i nonblock cnt pops o : Inv s acc pl → writers s !! i = Some (Sub nonblock cnt) →
  Z.of_nat (length acc) < 2 ^ 31 →
  ∀ s', writer_step s i (Sub nonblock cnt) pops o = Ok s' → Inv s' acc pl.
Proof.
  intros Hinv Hi Hacc s'. destruct (inv_owner s acc pl i _ Hinv Hi eq_refl) as (_ & Hwf & Hs & Hpos & _).
  cbn in Hwf, Hs. destruct Hwf as [Hc Hm]. rewrite Hm in Hs. cbn in Hs.
  cbn [writer_step fetch_sub]. destruct (Z.eqb_spec (_sending_queue_size s) cnt) as [E|E]; intros [= <-].
  - eapply (inv_leave s _ acc pl i _ Hinv Hi); try done; front_simpl; try (by apply Hinv).
    + cbn. rewrite Hm. cbn. lia.
    + rewrite E, Z.sub_diag. done.
    + by right.
  - assert (Hx := sub_exact s acc pl cnt Hinv Hacc ltac:(lia)).
    eapply (inv_move s _ acc pl i _ (Spin nonblock) Hinv Hi); try done; front_simpl; rewrite ?Hx; try (by apply Hinv).
    + cbn. lia.
    + lia.
Qed.

Lemma step_spin s acc pl i nonblock pops o : Inv s acc pl → writers s !! i = Some (Spin nonblock) →
  ∀ s', writer_step s i (Spin nonblock) pops o = Ok s' → Inv s' acc pl.
Proof.
  intros Hinv Hi s'. destruct (inv_owner s acc pl i _ Hinv Hi eq_refl) as (_ & _ & Hs & Hpos & _). cbn in Hs.
  cbn [writer_step]. destruct (_sending_queue s) as [|x q] eqn:Eq; [by intros [= <-]|].
  destruct pops; intros [= <-]; [|done].
  eapply (inv_move s _ acc pl i _ (Loop nonblock 0) Hinv Hi); try done; front_simpl; try (by apply Hinv).
  - rewrite Hs. cbn. lia.
  - cbn. by rewrite Eq.
Qed.

Lemma step_keep s acc pl i cnt pops o : Inv s acc pl → writers s !! i = Some (Keep cnt) →
  ∀ s', writer_step s i (Keep cnt) pops o = Ok s' → Inv s' acc pl.
Proof.
  intros Hinv Hi s' [= <-]. destruct (inv_owner s acc pl i _ Hinv Hi eq_refl) as (_ & Hwf & Hs & Hpos & _).
  eapply (inv_goto s _ acc pl i _ _ Hinv Hi eq_refl); [|reflexivity|..]; try done; front_simpl; try (by apply Hinv).
  - by destruct (has_flag s FRONTEND_DISCONNECT).
  - destruct (has_flag s FRONTEND_DISCONNECT) eqn:E; [|done]. cbn in *.
    destruct (_unfinished s); [|done]. pose proof (inv_disc _ _ _ Hinv E). destruct Hwf. congruence.
  - by destruct (has_flag s FRONTEND_DISCONNECT).
  - by destruct (has_flag s FRONTEND_DISCONNECT).
Qed.

Lemma step_connect s acc pl i cnt pops o : Inv s acc pl → writers s !! i = Some (Connect cnt) →
  o = Failed ∨ EFinal ∉ writers s →
  ∀ s', writer_step s i (Connect cnt) pops o = Ok s' → Inv s' acc pl.
Proof.
  intros Hinv Hi Ho s'. destruct (inv_owner s acc pl i _ Hinv Hi eq_refl) as (_ & (Hu & -> & Hmore) & Hs & Hpos & _).
  cbn [writer_step]. cbn in Hs. rewrite Hmore in Hs. cbn in Hs.
  destruct (has_flag s FRONTEND_DISCONNECT) eqn:E.
  2: { intros [= <-]. eapply (inv_goto s _ acc pl i _ (Kept 0) Hinv Hi); try done; front_simpl; try (by apply Hinv).
       - cbn. by rewrite Hu. }
  assert (o ≠ Failed → ∀ s', Ok (goto (set_flags s FRONTEND_CONNECT true false) i (Some (Kept 0))) = Ok s' → Inv s' acc pl) as Hok.
  { intros Hne s0 [= <-]. destruct Ho as [?|Hno]; [done|].
    eapply (inv_goto s _ acc pl i _ (Kept 0) Hinv Hi); try done; front_simpl; try (by apply Hinv). cbn. by rewrite Hu. }
  destruct o; [|by apply Hok..]. intros [= <-].
  destruct (advance_queue s pops Hmore (inv_more _ _ _ Hinv Hmore)) as (Hsend & Hm & Hlen & Hpl & Hst & Hb & Hw & Hpu & Hsz & Hout).
  pose proof (inv_disc _ _ _ Hinv E) as Hbad.
  eapply (inv_move s _ acc pl i _ (Epipe 1) Hinv Hi); try done; front_simpl; try (by apply Hinv).
  - by rewrite Hw.
  - intros _. unfold bad in *. cbn. by rewrite Hb.
  - intros _. unfold bad in *. cbn. by rewrite Hb.
  - cbn. split; [done|]. unfold bad in *. cbn. by rewrite Hb.
  - cbn. rewrite Hsz. lia.
  - rewrite Hsz. lia.
  - rewrite Hout. cbn [held]. rewrite Hu. cbn [app]. f_equal. rewrite Hpl. unfold next_msg. cbn. by rewrite app_assoc.
Qed.

Lemma step_kept s acc pl i cnt pops o : Inv s acc pl → writers s !! i = Some (Kept cnt) →
  ∀ s', writer_step s i (Kept cnt) pops o = Ok s' → Inv s' acc pl.
Proof.
  intros Hinv Hi s'. destruct (inv_owner s acc pl i _ Hinv Hi eq_refl) as (_ & Hwf & Hs & Hpos & _).
  cbn [writer_step]. cbn in Hwf, Hs. destruct (_unfinished s) eqn:Hu.
  - assert (∀ s', Ok (goto (emit (set_shared s (_msg s) (_more s) (_sending_msg s) false (_sending_queue s)) true
                           (msgs (_sending_msg s))) i (Some (Loop false cnt))) = Ok s' → Inv s' acc pl) as Hok.
    { intros s0 [= <-]. eapply (inv_move s _ acc pl i _ (Loop false cnt) Hinv Hi); try done; front_simpl; try (by apply Hinv).
      - cbn. lia.
      - cbn [held]. rewrite Hu, fmap_app, fmap_snd_pair. unfold next_msg. cbn. by rewrite <- !app_assoc. }
    destruct o; [|by apply Hok..]. intros [= <-].
    eapply (inv_goto s _ acc pl i _ (Epipe cnt) Hinv Hi); try done; front_simpl.
    + intros _. unfold bad. cbn. apply orb_true_r.
    + intros _. unfold bad. cbn. apply orb_true_r.
    + cbn. split; [lia|]. unfold bad. cbn. apply orb_true_r.
    + cbn [held]. by rewrite Hu.
  - intros [= <-]. destruct Hwf as [-> Hmore].
    eapply (inv_goto s _ acc pl i _ (Loop false 0) Hinv Hi); try done; front_simpl; try (by apply Hinv).
    cbn [held]. by rewrite Hu.
Qed.

Lemma step_epipe s acc pl i cnt pops o : Inv s acc pl → writers s !! i = Some (Epipe cnt) →
  ∀ s', writer_step s i (Epipe cnt) pops o = Ok s' → Inv s' acc pl.
Proof.
  intros Hinv Hi s' [= <-]. destruct (inv_owner s acc pl i _ Hinv Hi eq_refl) as (_ & [Hc Hb] & Hs & Hpos & _).
  front_simpl. destruct (_is_client s).
  - by eapply (inv_goto s _ acc pl i _ (Resend cnt) Hinv Hi).
  - by eapply (inv_goto s _ acc pl i _ (Stopped cnt) Hinv Hi).
Qed.

Lemma step_resend s acc pl i cnt pops o : Inv s acc pl → writers s !! i = Some (Resend cnt) →
  ∀ s', writer_step s i (Resend cnt) pops o = Ok s' → Inv s' acc pl.
Proof.
  intros Hinv Hi s'. destruct (inv_owner s acc pl i _ Hinv Hi eq_refl) as (_ & [Hc Hb] & Hs & Hpos & _).
  cbn [writer_step]. front_simpl. cbn in Hs. destruct (_more s) eqn:Hmore; intros [= <-].
  - eapply (inv_move s _ acc pl i _ (ESub (cnt + 1)) Hinv Hi); try done; front_simpl; try (by apply Hinv).
    + intros _. by apply Hinv.
    + cbn. split; [lia|done].
    + cbn [held]. rewrite !fmap_app, !fmap_snd_pair. unfold next_msg. rewrite Hmore. cbn. by rewrite <- !app_assoc.
  - eapply (inv_move s _ acc pl i _ (ESub cnt) Hinv Hi); try done; front_simpl; try (by apply Hinv).
    + cbn [claims]. cbn in Hs. lia.
    + cbn [held]. rewrite !fmap_app, !fmap_snd_pair. unfold next_msg. rewrite Hmore. cbn. by rewrite <- !app_assoc.
Qed.

Lemma step_esub s acc pl i cnt pops o : Inv s acc pl → writers s !! i = Some (ESub cnt) →
  Z.of_nat (length acc) < 2 ^ 31 →
  ∀ s', writer_step s i (ESub cnt) pops o = Ok s' → Inv s' acc pl.
Proof.
  intros Hinv Hi Hacc s'. destruct (inv_owner s acc pl i _ Hinv Hi eq_refl) as (_ & [Hc Hb] & Hs & Hpos & _).
  cbn in Hs. cbn [writer_step fetch_sub]. destruct (Z.eqb_spec (_sending_queue_size s) cnt) as [E|E]; intros [= <-].
  - eapply (inv_leave s _ acc pl i _ Hinv Hi); try done; front_simpl.
    + by rewrite E, Z.sub_diag.
    + by left.
  - assert (Hx := sub_exact s acc pl cnt Hinv Hacc ltac:(lia)).
    eapply (inv_move s _ acc pl i _ ESpin Hinv Hi); try done; front_simpl; rewrite ?Hx; try (by apply Hinv).
    + cbn. lia.
    + lia.
Qed.

Lemma step_espin s acc pl i pops o : Inv s acc pl → writers s !! i = Some ESpin →
  ∀ s', writer_step s i ESpin pops o = Ok s' → Inv s' acc pl.
Proof.
  intros Hinv Hi s'. destruct (inv_owner s acc pl i _ Hinv Hi eq_refl) as (_ & Hwf & Hs & Hpos & _). cbn in Hs, Hwf.
  cbn [writer_step]. destruct (_sending_queue s) as [|x q] eqn:Eq; [by intros [= <-]|].
  destruct pops; intros [= <-]; [|done].
  eapply (inv_move s _ acc pl i _ (ESub 1) Hinv Hi); try done; front_simpl; try (by apply Hinv).
  - rewrite Hs. cbn. lia.
  - cbn [held app]. rewrite fmap_app, Eq. cbn. by rewrite <- app_assoc.
Qed.

Lemma step_final s acc pl i pops o : Inv s acc pl → writers s !! i = Some EFinal →
  ∀ s', writer_step s i EFinal pops o = Ok s' → Inv s' acc pl.
Proof.
  intros Hinv Hi s' [= <-]. assert (Hb : bad s = true) by (apply (inv_final _ _ _ Hinv); by eapply list_elem_of_lookup_2).
  split; front_simpl; try (by apply Hinv); try done.
  pose proof (inv_own _ _ _ Hinv) as Ho. unfold owners in *. front_simpl. rewrite (owner_other _ i EFinal) by done.
  done.
Qed.

(** Every step of a writer keeps the invariant. *)
Lemma writer_step_inv s acc pl i p pops o s' : Inv s acc pl → writers s !! i = Some p →
  well_behaved s (Step i pops o) → Z.of_nat (length acc) < 2 ^ 31 →
  writer_step s i p pops o = Ok s' → Inv s' acc pl.
Proof.
  intros Hinv Hi Hwb Hacc. cbn in Hwb. rewrite Hi in Hwb.
  destruct p; [eapply step_begin|eapply step_loop|eapply step_write|eapply step_sub|eapply step_spin|eapply step_keep
    |eapply step_connect|eapply step_kept|eapply step_epipe|eapply step_resend|eapply step_esub|eapply step_espin
    |eapply step_final|by intros [= <-]]; try done. by destruct Hwb.
Qed.

(** *** The other threads *)
Lemma step_choose s acc pl ch : Inv s acc pl →
  Inv (set_threads s (_sending_queue_size s) ch (pushing s) (writers s)) acc pl.
Proof. intros [H1 H2 H3 H4 H5 H6]. by split. Qed.

Lemma add_exact s acc pl (m : M) : Inv s acc pl → Z.of_nat (length (acc ++ [m])) < 2 ^ 31 → 0 ≤ _sending_queue_size s →
  i32 (_sending_queue_size s + 1) = _sending_queue_size s + 1.
Proof.
  intros Hinv Hacc H0. pose proof (inv_size _ _ _ Hinv). rewrite length_app in Hacc. cbn in Hacc.
  apply swrap_small; [lia|]. unfold in_signed. lia.
Qed.

Lemma step_add s acc pl i nonblock m s' : Inv s acc pl → Z.of_nat (length (acc ++ [m])) < 2 ^ 31 →
  chosen s !! i = Some (nonblock, m) → step s (Add i) = Ok s' →
  Inv s' (acc ++ [m]) (pl ++ if _sending_queue_size s =? 0 then [m] else []).
Proof.
  intros Hinv Hacc Hi Hst. cbn in Hst. rewrite Hi in Hst. injection Hst as <-.
  pose proof (inv_own _ _ _ Hinv) as Ho. pose proof (inv_size _ _ _ Hinv) as Hsize. unfold owners in Ho.
  destruct (filter (λ p, own p = true) (writers s)) as [|p [|]] eqn:E; [| |done].
  - destruct Ho as (Hs & Hq & Hp & Hpl). rewrite (add_exact s acc pl m Hinv Hacc), Hs by lia. cbn [Z.eqb].
    split; front_simpl; try (by apply Hinv).
    + intros Hin. apply (inv_final _ _ _ Hinv). apply elem_of_app in Hin as [?|?%list_elem_of_singleton]; done.
    + unfold owners. cbn. rewrite filter_app, E, Hq, Hp, Hpl. done.
    + rewrite (inv_acc _ _ _ Hinv), Hp. by rewrite !app_nil_r.
    + rewrite length_app. cbn. lia.
  - destruct Ho as (Hwf & Hs & Hpos & Hpl). rewrite (add_exact s acc pl m Hinv Hacc) by lia.
    destruct (Z.eqb_spec (_sending_queue_size s) 0); [lia|]. rewrite app_nil_r.
    split; front_simpl; try (by apply Hinv).
    + unfold owners. cbn. rewrite E. split; [done|]. split; [|split; [lia|done]].
      rewrite length_app. change (claims _ p) with (claims s p). cbn. lia.
    + by rewrite (inv_acc _ _ _ Hinv), app_assoc.
    + rewrite length_app. cbn. lia.
Qed.

Lemma step_push s acc pl i m s' : Inv s acc pl → pushing s !! i = Some m → step s (Push i) = Ok s' →
  Inv s' acc (pl ++ [m]).
Proof.
  intros Hinv Hi Hst. cbn in Hst. rewrite Hi in Hst. injection Hst as <-.
  pose proof (inv_own _ _ _ Hinv) as Ho. unfold owners in Ho. pose proof (lookup_lt_Some _ _ _ Hi) as Hlt.
  pose proof (delete_Permutation _ _ _ Hi) as Hp.
  destruct (filter (λ p, own p = true) (writers s)) as [|p [|]] eqn:E; [| |done].
  { destruct Ho as (_ & _ & Hno & _). by rewrite Hno in Hi. }
  destruct Ho as (Hwf & Hs & Hpos & Hpl). split; front_simpl; try (by apply Hinv).
  - unfold owners. cbn. rewrite E. split; [done|]. split; [|split; [done|]].
    + change (claims _ p) with (claims s p). rewrite length_app, length_delete by (by rewrite Hi). cbn. lia.
    + rewrite Hpl. change (held _ p) with (held s p). by rewrite <- !app_assoc.
  - rewrite (inv_acc _ _ _ Hinv), Hp at 1. rewrite <- app_assoc. done.
Qed.

Lemma step_inv s acc pl l s' : Inv s acc pl → well_behaved s l → Z.of_nat (length (acc ++ accepts s l)) < 2 ^ 31 →
  step s l = Ok s' → Inv s' (acc ++ accepts s l) (pl ++ places s l).
Proof.
  intros Hinv Hwb Hacc Hst. destruct l as [nonblock rested m|i|i|i pops o|]; cbn [accepts places] in *;
    rewrite ?app_nil_r in *.
  - cbn in Hst. injection Hst as <-. destruct (front_available s rested); [by apply step_choose|done].
  - destruct (chosen s !! i) as [[nonblock m]|] eqn:E.
    + by eapply step_add.
    + cbn in Hst. rewrite E in Hst. injection Hst as <-. by destruct (_ =? _); rewrite !app_nil_r.
  - destruct (pushing s !! i) as [m|] eqn:E; cbn [msgs].
    + by eapply step_push.
    + cbn in Hst. rewrite E in Hst. injection Hst as <-. by rewrite app_nil_r.
  - cbn [step] in Hst. destruct (writers s !! i) as [p|] eqn:E; [|by injection Hst as <-].
    by eapply writer_step_inv.
  - injection Hst as <-. split; front_simpl; try (by apply Hinv). done.
Qed.

(** Histories: the state, the messages accepted so far, and those in line, in order. *)
Inductive reach (s0 : front) : front → list M → list M → Prop :=
  | reach_start : reach s0 s0 [] []
  | reach_step s acc pl l s' : reach s0 s acc pl → well_behaved s l → step s l = Ok s' →
      reach s0 s' (acc ++ accepts s l) (pl ++ places s l).

Lemma init_inv client connected : Inv (init client connected) [] [].
Proof. split; cbn; try done; [by destruct connected|by intros ?%elem_of_nil]. Qed.

Lemma reach_inv client connected s acc pl : reach (init client connected) s acc pl →
  Z.of_nat (length acc) < 2 ^ 31 → Inv s acc pl.
Proof.
  induction 1 as [|s acc pl l s' Hr IH Hwb Hst]; intros Hacc; [apply init_inv|].
  eapply step_inv; [|done..]. apply IH. rewrite length_app in Hacc. lia.
Qed.

(** Only a write without a socket, or a blocking write left unfinished, fails. *)
Lemma step_total s l : well_behaved s l → _connected s = true → ∃ s', step s l = Ok s'.
Proof.
  intros Hwb Hc. destruct l as [nonblock rested m|i|i|i pops o|]; cbn in *; [eauto| | | |eauto].
  - destruct (chosen s !! i) as [[nonblock m]|]; eauto.
  - destruct (pushing s !! i); eauto.
  - destruct (writers s !! i) as [p|]; [|eauto]. destruct p; cbn; rewrite ?Hc; eauto.
    + destruct (_more s); eauto.
    + destruct o; eauto. destruct nonblock; [eauto|]. by destruct Hwb as [_ Hx]; specialize (Hx eq_refl).
    + destruct (_sending_queue s); [eauto|destruct pops; eauto].
    + destruct (has_flag s FRONTEND_DISCONNECT); [destruct o|]; eauto.
    + destruct (_unfinished s); [destruct o|]; eauto.
    + destruct (_more s); eauto.
    + destruct (_sending_queue s); [eauto|destruct pops; eauto].
Qed.

Lemma step_connected s l s' : step s l = Ok s' → _connected s = true → _connected s' = true.
Proof.
  intros Hst Hc. destruct l as [nonblock rested m|i|i|i pops o|]; cbn in Hst.
  - injection Hst as <-. by destruct (front_available s rested).
  - destruct (chosen s !! i) as [[nonblock m]|]; injection Hst as <-; [|done]. by destruct (_ =? 0).
  - by destruct (pushing s !! i); injection Hst as <-.
  - destruct (writers s !! i) as [p|]; [|by injection Hst as <-]. unfold writer_step, advance in Hst.
    destruct p; cbn in Hst; repeat (case_match; try done); by simplify_eq.
  - by injection Hst as <-.
Qed.

(** C38: the threads that share a frontend write one at a time and lose nothing. This holds in
    every history of fewer than 2^31 messages in which the environment is [well_behaved]: a
    socket that has failed fails again, a blocking [send_msg] finishes or fails, and no thread
    gets through [connect] while another one is about to mark the frontend as disconnected
    (otherwise [epipe_releases_too_early]: messages are lost and a writer spins, a finding). At
    most one thread writes, and one does exactly while the counter is not zero; the messages in
    line, in the order they got there, are those written or given back to the context, those in
    the writer's hands, and the queue; a thread that spins on the queue waits for a message that
    is there or about to come; and while there is a socket no such step fails. So when the
    counter is zero again everything accepted has been written or given back. *)
Theorem frontend_writes_in_order client connected s acc pl :
  reach (init client connected) s acc pl → Z.of_nat (length acc) < 2 ^ 31 →
  (length (owners s) ≤ 1)%nat ∧ (owners s = [] ↔ _sending_queue_size s = 0) ∧
  pl = (out s).*2 ++ (owners s ≫= held s) ++ _sending_queue s ∧ acc ≡ₚ pl ++ pushing s ∧
  (_sending_queue_size s = 0 → acc ≡ₚ (out s).*2) ∧
  (∀ i p, writers s !! i = Some p → (p = ESpin ∨ ∃ b, p = Spin b) → _sending_queue s ≠ [] ∨ pushing s ≠ []) ∧
  (_connected s = true → ∀ l, well_behaved s l → ∃ s', step s l = Ok s' ∧ _connected s' = true).
Proof.
  intros Hr Hacc. pose proof (reach_inv _ _ _ _ _ Hr Hacc) as Hinv.
  pose proof (inv_own _ _ _ Hinv) as Ho. pose proof (inv_acc _ _ _ Hinv) as Ha.
  assert (Hspin : ∀ i p, writers s !! i = Some p → (p = ESpin ∨ ∃ b, p = Spin b) → _sending_queue s ≠ [] ∨ pushing s ≠ []).
  { intros i p Hi Hp. destruct (inv_owner s acc pl i p Hinv Hi) as (_ & _ & Hs & Hpos & _).
    { by destruct Hp as [->|[b ->]]. }
    assert (claims s p = 0) by (by destruct Hp as [->|[b ->]]).
    destruct (_sending_queue s); [|by left]. destruct (pushing s); [cbn in Hs; lia|by right]. }
  assert (Htotal : _connected s = true → ∀ l, well_behaved s l → ∃ s', step s l = Ok s' ∧ _connected s' = true).
  { intros Hc l Hwb. destruct (step_total s l Hwb Hc) as [s' Hs']. eauto using step_connected. }
  destruct (owners s) as [|p [|]]; [| |done]; cbn [length mbind list_bind app].
  - destruct Ho as (Hs & Hq & Hp & ->). split; [lia|]. split; [done|].
    split; [by rewrite Hq, app_nil_r|]. split; [done|]. split; [|done]. by rewrite Hp, app_nil_r in Ha.
  - destruct Ho as (Hwf & Hs & Hpos & Hpl). split; [lia|]. split; [split; [done|lia]|].
    rewrite app_nil_r. split; [done|]. split; [done|]. split; [lia|done].
Qed.

Lemma steps_closed ls : ∀ s : front, _state s = FRONTEND_EPIPE → chosen s = [] → pushing s = [] → writers s = [] →
  ∃ s', steps s ls = Ok s' ∧ _state s' = FRONTEND_EPIPE ∧ chosen s' = [] ∧ out s' = out s.
Proof.
  induction ls as [|l ls IH]; intros s Hst Hch Hpu Hw; [by exists s|]. cbn [steps].
  assert (∃ s1, step s l = Ok s1 ∧ _state s1 = FRONTEND_EPIPE ∧ chosen s1 = [] ∧ pushing s1 = [] ∧ writers s1 = [] ∧
    out s1 = out s) as (s1 & -> & H1 & H2 & H3 & H4 & <-).
  { destruct l as [nonblock rested m|i|i|i pops o|]; cbn [step]; rewrite ?Hch, ?Hpu, ?Hw; cbn; try (by exists s);
      [|by eexists]. exists s. unfold front_available, available, state_has. cbn. rewrite Hst. done. }
  step_ok. by apply IH.
Qed.

(** A connection that ends while nothing is being sent is never opened again.  The
    reader marks the frontend as broken but not as disconnected, and a frontend marked so
    is not available, whatever time passes: no thread gets it, so none comes to
    reconnect it. *)
Theorem idle_connection_is_lost ls :
  ∃ s', steps (init true true) (ReadEpipe :: ls) = Ok s' ∧
    (∀ rested, front_available s' rested = false) ∧ chosen s' = [] ∧ out s' = [].
Proof.
  destruct (steps_closed ls (set_flags (init true true) FRONTEND_EPIPE true false)) as (s' & Hs & Hst & Hch & Ho); [done..|].
  exists s'. split; [done|]. split; [|done]. intros rested. unfold front_available, available, state_has. cbn.
  by rewrite Hst.
Qed.
End frontend.

(** ** Witnesses, and what goes wrong *)
Fixpoint well_behaved_run {M} (s : @front M) (ls : list label) : bool :=
  match ls with
  | [] => true
  | l :: ls =>
      match l with
      | Step i _ o =>
          match writers s !! i with
          | Some (Write nonblock _) =>
              implb (_broken s) (if o is Failed then true else false) &&
              implb (negb nonblock) (if o is Unfinished then false else true)
          | Some (Connect _) => (if o is Failed then true else false) || forallb own (writers s)
          | _ => true
          end
      | _ => true
      end && match step s l with Ok s => well_behaved_run s ls | Abort => true end
  end.

Fixpoint history {M} (s : @front M) (acc pl : list M) (ls : list label) : option (@front M * list M * list M) :=
  match ls with
  | [] => Some (s, acc, pl)
  | l :: ls => match step s l with
               | Ok s' => history s' (acc ++ accepts s l) (pl ++ places s l) ls
               | Abort => None
               end
  end.

Lemma reach_history {M} (s0 : @front M) ls : ∀ s acc pl s' acc' pl', reach s0 s acc pl → well_behaved_run s ls = true →
  history s acc pl ls = Some (s', acc', pl') → reach s0 s' acc' pl'.
Proof.
  induction ls as [|l ls IH]; intros s acc pl s' acc' pl' Hr Hb Hs; cbn in *; [by injection Hs as <- <- <-|].
  apply andb_true_iff in Hb as [Hb Hb']. destruct (step s l) as [s1|] eqn:E; [|done].
  eapply IH; [|done..]. eapply reach_step; [done| |done].
  destruct l as [nonblock rested m|i|i|i pops o|]; cbn; try done. destruct (writers s !! i) as [[]|]; try done.
  - apply andb_true_iff in Hb as [H1 H2]. split.
    + intros Hx. rewrite Hx in H1. by destruct o.
    + intros ->. by destruct o.
  - destruct o; [by left|right..]; intros Hin; cbn in Hb; rewrite forallb_forall in Hb;
      discriminate (Hb EFinal (proj1 (list_elem_of_In _ _) Hin)).
Qed.

(** Writer [i] takes some steps. *)
Definition walks (i : nat) (os : list (bool * outcome)) : list (@label Z) := (λ x, Step i x.1 x.2) <$> os.

(** Three messages: the second is queued behind the first and written by the same
    thread, the third is given back when the socket fails. *)
Definition busy : list label :=
  [Choose true true 1; Choose true true 2; Add 0; Add 0; Push 0] ++
  walks 0 [(false, Failed); (true, Failed); (false, Complete); (false, Failed)] ++
  [Choose true true 3; Add 0; Push 0] ++
  walks 0 [(false, Failed); (false, Failed); (false, Failed); (false, Failed); (true, Failed)].

Lemma frontend_writes_in_order_witness : ∃ s acc pl,
  reach (init true true) s acc pl ∧ (length (owners s) ≤ 1)%nat ∧ (out s).*2 = [1; 2; 3].
Proof.
  destruct (history (init true true) [] [] busy) as [[[s acc] pl]|] eqn:E; [|by vm_compute in E].
  assert (Hr : reach (init true true) s acc pl).
  { apply (reach_history _ busy _ [] [] s acc pl (reach_start _)); [by vm_compute|exact E]. }
  assert (Hx : (λ x, ((out x.1.1).*2, length x.1.2)) <$> history (init true true) [] [] busy = Some ([1; 2; 3], 3%nat))
    by by vm_compute.
  rewrite E in Hx. injection Hx as Ho Hl. exists s, acc, pl. split; [done|]. split; [|done].
  apply (frontend_writes_in_order true true s acc pl Hr). rewrite Hl. lia.
Defined.

(** The connection attempt of the first thread fails; a second thread, which had been
    given the frontend before, starts between the last two instructions of [epipe]. *)
Definition race : list label :=
  [Choose true true 1; Choose true true 2; Add 0] ++ walks 0 (replicate 6 (false, Failed)) ++
  [Add 0] ++ walks 1 [(false, Failed); (false, Failed)].

(** Two threads give up a broken connection, a third reconnects before the first of them
    has marked the frontend, and a fourth is in the middle of a message when it does. *)
Definition late : list label :=
  [Choose true true 1; Choose true true 2; Add 0] ++ walks 0 (replicate 6 (false, Failed)) ++
  [Add 0] ++ walks 1 (replicate 7 (false, Failed)) ++
  [Choose true true 3; Add 0] ++ walks 1 (replicate 8 (false, Complete)) ++
  [Choose true true 4; Add 0] ++ walks 1 (replicate 3 (false, Unfinished)) ++
  walks 0 (replicate 7 (false, Failed)).

(** [epipe] lets go of the counter before it marks the frontend as disconnected, and
    what comes in between goes wrong.  A frontend whose first connection attempt fails
    writes to a socket that does not exist; this in a history of the kind of C38.  And
    when the mark is set after a reconnection, a message that was only partly written is
    forgotten, the counter drops below zero, and the writer spins for ever. *)
Theorem epipe_releases_too_early :
  (∃ (s : @front Z) acc pl, reach (init true false) s acc pl ∧ well_behaved s (Step 1 false Complete) ∧
     step s (Step 1 false Complete) = Abort) ∧
  (∃ s, steps (init true true) late = Ok s ∧ writers s = [ESpin] ∧ _sending_queue_size s = -1 ∧
     (out s).*2 = [1; 2; 3] ∧ _sending_queue s = [] ∧ pushing s = [] ∧ chosen s = []).
Proof.
  split.
  - destruct (history (init true false) [] [] race) as [[[s acc] pl]|] eqn:E; [|by vm_compute in E].
    exists s, acc, pl. split.
    { apply (reach_history _ race _ [] [] s acc pl (reach_start _)); [by vm_compute|exact E]. }
    assert (Hx : (λ x, (writers x.1.1, _connected x.1.1, _broken x.1.1)) <$> history (init true false) [] [] race =
      Some ([EFinal; Write true 1], false, false)) by by vm_compute.
    rewrite E in Hx. clear E. injection Hx as Hw Hc Hb. cbn. rewrite Hw. cbn. rewrite Hc, Hb. by split.
  - destruct (steps (init true true) late) as [s|] eqn:E; [|by vm_compute in E]. exists s. split; [reflexivity|].
    assert (Hx : (λ s, (writers s, _sending_queue_size s, (out s).*2, _sending_queue s, pushing s, chosen s)) <$>
      steps (init true true) late = Ok ([ESpin], -1, [1; 2; 3], [], [], [])) by by vm_compute.
    rewrite E in Hx. clear E. by injection Hx as -> -> -> -> -> ->.
Qed.
