(* ===== verification/HashTable.v ===== *)
(** * The hash table

    [HashTable] of src/src/misc/HashTable.h: chained buckets that grow one at a time
    (linear hashing) and move one at a time from an old array to a new one, so that no
    operation pays for a whole rehash.

    A chain of entries is a list, and a pointer to a link of it a position in the list.
    The arrays of buckets have the length they were allocated with; a cell of a fresh
    array is indeterminate ([None]), and reading it, like leaving the bounds, is [Abort].
    The load factor is a binary32 number.  The hash function is a parameter. *)
From S2P Require Import Prelude.
From Stdlib Require Import SpecFloat.
#[local] Open Scope Z_scope.

Section hash_table.
Context {K V : Type} `{Countable K}.
Context (hash : K → Z) (T_ : V).

(** ** The object *)
Record entry := Entry { e_key : K; e_val : V; hash_code : Z }.
Abbreviation chain := (list entry).

Record table := Table {
  _size : Z;
  _mask : Z;
  _bucket_count : Z;
  _bucket_capacity : Z;
  _new_begin : Z;
  _max_load_factor : spec_float;
  _new_buckets : list (option chain);
  _old_buckets : list (option chain);
}.

Definition with_arrays (t : table) nb new old :=
  Table (_size t) (_mask t) (_bucket_count t) (_bucket_capacity t) nb (_max_load_factor t) new old.
Definition with_size (t : table) n :=
  Table n (_mask t) (_bucket_count t) (_bucket_capacity t) (_new_begin t) (_max_load_factor t)
    (_new_buckets t) (_old_buckets t).

(** [new Entry*[n]] throws when the array would be larger than any object may be. *)
Definition new_array (n : Z) : result (list (option chain)) :=
  if n <? 2 ^ 60 then Ok (replicate (Z.to_nat n) None) else Abort.

Definition load_cell (a : list (option chain)) (i : Z) : result chain :=
  match a !! Z.to_nat i with Some (Some c) => Ok c | _ => Abort end.

Definition store_cell (a : list (option chain)) (i : Z) (c : chain) : result (list (option chain)) :=
  if (Z.to_nat i <? length a)%nat then Ok (<[Z.to_nat i := Some c]> a) else Abort.

(** binary32: [0.75f], the conversion from [size_t], and [_size > _max_load_factor * _bucket_count]. *)
Definition load_factor_default : spec_float := S754_finite false 12582912 (-24).
Definition to_float (n : Z) : spec_float := binary_normalize 24 128 n 0 false.
Definition overloaded (t : table) : bool :=
  SFltb (SFmul 24 128 (_max_load_factor t) (to_float (_bucket_count t))) (to_float (_size t)).

Definition HashTable_ (capacity : Z) : result table :=
  a ← new_array capacity;
  a ← store_cell a 0 [];
  Ok (Table 0 0 1 capacity 0 load_factor_default a []).

Definition hash_to_bucket (t : table) (h : Z) : Z :=
  let i := Z.land h (_mask t) in
  if i <? _bucket_count t then i else Z.land h (Z.shiftr (_mask t) 1).

Definition bucket (t : table) (i : Z) : result chain :=
  if i <? _new_begin t then load_cell (_old_buckets t) i else load_cell (_new_buckets t) i.

(** A write through the reference that [bucket(i)] returns. *)
Definition set_bucket (t : table) (i : Z) (c : chain) : result table :=
  if i <? _new_begin t
  then a ← store_cell (_old_buckets t) i c; Ok (with_arrays t (_new_begin t) (_new_buckets t) a)
  else a ← store_cell (_new_buckets t) i c; Ok (with_arrays t (_new_begin t) a (_old_buckets t)).

Definition reserve (t : table) (size : Z) : result table :=
  if size <=? _bucket_capacity t then Ok t
  else
    _ ← SCHECK (_new_begin t =? 0);
    a ← new_array size;
    Ok (Table (_size t) (_mask t) (_bucket_count t) size (_bucket_count t) (_max_load_factor t) a
          (_new_buckets t)).

(** The loop of [add_bucket]: what stays in the source chain, what is appended to the
    other one. *)
Fixpoint rehash (mask to_i : Z) (src : chain) : chain * chain :=
  match src with
  | [] => ([], [])
  | e :: src =>
      let '(keep, moved) := rehash mask to_i src in
      if Z.land (hash_code e) mask =? to_i then (keep, e :: moved) else (e :: keep, moved)
  end.

Definition add_bucket (t : table) : result table :=
  t ← (if _bucket_capacity t <=? _bucket_count t then reserve t (u64 (_bucket_capacity t * 2)) else Ok t);
  let n := _bucket_count t in
  let mask := if Z.land n (n - 1) =? 0 then n * 2 - 1 else _mask t in
  let t := Table (_size t) mask (n + 1) (_bucket_capacity t) (_new_begin t) (_max_load_factor t)
             (_new_buckets t) (_old_buckets t) in
  let from_i := Z.land n (Z.shiftr mask 1) in
  src ← bucket t from_i;
  let '(keep, moved) := rehash mask n src in
  t ← set_bucket t from_i keep;
  set_bucket t n moved.

Definition move_bucket (t : table) : result table :=
  if 0 <? _new_begin t then
    let nb := _new_begin t - 1 in
    c ← load_cell (_old_buckets t) nb;
    a ← store_cell (_new_buckets t) nb c;
    Ok (with_arrays t nb a (if nb =? 0 then [] else _old_buckets t))
  else Ok t.

Definition insert_postprocess (t : table) : result table :=
  let t := with_size t (_size t + 1) in
  t ← (if overloaded t then t ← add_bucket t; t ← move_bucket t; add_bucket t else Ok t);
  move_bucket t.

(** ** Lookup *)

(** The link at which the walk along a chain stops. *)
Fixpoint walk (c : chain) (h : Z) (key : K) : nat :=
  match c with
  | [] => 0
  | e :: c => if (hash_code e =? h) && bool_decide (e_key e = key) then 0 else S (walk c h key)
  end.

Definition find_entry (t : table) (key : K) : result (Z * chain * nat) :=
  let h := hash key in
  let i := hash_to_bucket t h in
  c ← bucket t i;
  Ok (i, c, walk c h key).

(** The entry that [find] points to; [at] throws when there is none. *)
Definition find (t : table) (key : K) : result (option entry) :=
  '(_, c, p) ← find_entry t key; Ok (c !! p).

Definition at_ (t : table) (key : K) : result (option V) :=
  match find t key with Ok e => Ok (e_val <$> e) | Abort => Abort end.

(** ** Updates *)
Definition insert (t : table) (key : K) (v : V) : result (table * bool) :=
  '(i, c, p) ← find_entry t key;
  match c !! p with
  | Some _ => Ok (t, false)
  | None =>
      t ← set_bucket t i (take p c ++ [Entry key v (hash key)]);
      t ← insert_postprocess t;
      Ok (t, true)
  end.

(** [t[key]], and an assignment through the reference it returns. *)
Definition operator_index (t : table) (key : K) : result (table * V) :=
  '(i, c, p) ← find_entry t key;
  match c !! p with
  | Some e => Ok (t, e_val e)
  | None =>
      t ← set_bucket t i (take p c ++ [Entry key T_ (hash key)]);
      t ← insert_postprocess t;
      Ok (t, T_)
  end.

Definition assign (t : table) (key : K) (v : V) : result table :=
  '(i, c, p) ← find_entry t key;
  match c !! p with
  | Some e => set_bucket t i (<[p := Entry (e_key e) v (hash_code e)]> c)
  | None => Abort
  end.

Definition erase (t : table) (key : K) : result (table * Z) :=
  '(i, c, p) ← find_entry t key;
  match c !! p with
  | None => Ok (t, 0)
  | Some _ =>
      t ← set_bucket t i (take p c ++ drop (S p) c);
      t ← move_bucket (with_size t (_size t - 1));
      Ok (t, 1)
  end.

(** [erase(pos)]: the iterator is given by the key it points to. *)
Definition erase_at (t : table) (key : K) : result table :=
  '(t, n) ← erase t key; _ ← SCHECK (n =? 1); Ok t.

(** The loop of [clear] over the buckets from [i] on. *)
Fixpoint clear_from (n : nat) (i : Z) (t : table) : result table :=
  match n with
  | O => Ok t
  | S n =>
      c ← bucket t i;
      t ← set_bucket (with_size t (_size t - Z.of_nat (length c))) i [];
      clear_from n (i + 1) t
  end.

Definition clear (t : table) : result table :=
  t ← clear_from (Z.to_nat (_bucket_count t)) 0 t;
  _ ← SCHECK (_size t =? 0);
  a ← store_cell (_new_buckets t) 0 [];
  Ok (Table (_size t) 0 1 (_bucket_capacity t) 0 (_max_load_factor t) a []).

(** ** Iteration: an iterator is the entry it points to *)
Fixpoint find_first_nonempty (n : nat) (t : table) (i : Z) : result Z :=
  match n with
  | O => Ok i
  | S n => c ← bucket t i; match c with [] => find_first_nonempty n t (i + 1) | _ => Ok i end
  end.

(** The first entry of a bucket from [i] on. *)
Definition first_from (t : table) (i : Z) : result (option entry) :=
  j ← find_first_nonempty (Z.to_nat (_bucket_count t - i)) t i;
  if _bucket_count t <=? j then Ok None else c ← bucket t j; Ok (c !! 0%nat).

Definition begin (t : table) : result (option entry) := first_from t 0.

(** [operator++]: [entry->next] is the entry behind [e] in its chain. *)
Definition next (t : table) (e : entry) : result (option entry) :=
  let i := hash_to_bucket t (hash_code e) in
  c ← bucket t i;
  match c !! S (walk c (hash_code e) (e_key e)) with
  | Some e' => Ok (Some e')
  | None => first_from t (i + 1)
  end.

(** A loop over the table. *)
Fixpoint iterate (n : nat) (t : table) (e : option entry) : result (list entry) :=
  match n, e with
  | _, None => Ok []
  | O, Some _ => Abort
  | S n, Some e => e' ← next t e; l ← iterate n t e'; Ok (e :: l)
  end.

Definition elements (t : table) : result (list entry) :=
  e ← begin t; iterate (Z.to_nat (_size t)) t e.

(** The copy constructor and the copy assignment, for an object that is another one. *)
Fixpoint insert_all (t : table) (l : list entry) : result table :=
  match l with
  | [] => Ok t
  | e :: l => '(t, _) ← insert t (e_key e) (e_val e); insert_all t l
  end.

Definition copy_construct (other : table) : result table :=
  t ← HashTable_ 1; l ← elements other; insert_all t l.

Definition copy_assign (t other : table) : result table :=
  t ← clear t; l ← elements other; insert_all t l.

(** [erase(first, last)] from an iterator to the end. *)
Fixpoint erase_range (n : nat) (t : table) (e : option entry) : result table :=
  match n, e with
  | _, None => Ok t
  | O, Some _ => Abort
  | S n, Some e => first ← next t e; t ← erase_at t (e_key e); erase_range n t first
  end.

(** ** Linear hashing

    With [n] buckets and [2^k] the least power of two that is not below [n], a hash code
    belongs to bucket [h mod 2^k], or [h mod 2^(k-1)] when that one does not exist yet. *)
Definition place (k n h : Z) : Z := if h mod 2 ^ k <? n then h mod 2 ^ k else h mod 2 ^ (k - 1).

Definition mask_for (k n : Z) : Prop := 0 ≤ k ∧ 1 ≤ n ≤ 2 ^ k ∧ (k = 0 ∨ 2 ^ (k - 1) < n).

Lemma ones_shiftr k : 0 ≤ k → Z.shiftr (2 ^ k - 1) 1 = 2 ^ (Z.max 0 (k - 1)) - 1.
Proof.
  intros Hk. rewrite Z.shiftr_div_pow2 by lia. change (2 ^ 1) with 2. destruct (decide (k = 0)) as [->|]; [done|].
  rewrite Z.max_r by lia. rewrite (pow2_half k) by lia.
  replace (2 * 2 ^ (k - 1) - 1) with (1 + (2 ^ (k - 1) - 1) * 2) by lia. by rewrite Z.div_add.
Qed.

Lemma land_mask k h : 0 ≤ k → Z.land h (2 ^ k - 1) = h mod 2 ^ k.
Proof. intros. replace (2 ^ k - 1) with (Z.ones k) by (rewrite Z.ones_equiv; lia). by apply Z.land_ones. Qed.

Lemma hash_to_bucket_place t k h : mask_for k (_bucket_count t) → _mask t = 2 ^ k - 1 →
  hash_to_bucket t h = place k (_bucket_count t) h.
Proof.
  intros (Hk & Hn & _) Hm. unfold hash_to_bucket, place. rewrite Hm, ones_shiftr, !land_mask by lia.
  destruct (decide (k = 0)) as [->|]; [|by rewrite Z.max_r by lia].
  rewrite Z.mod_1_r. rewrite (proj2 (Z.ltb_lt 0 _)) by lia. done.
Qed.

Lemma place_range k n h : mask_for k n → 0 ≤ place k n h < n.
Proof.
  intros (Hk & Hn & Hlow). unfold place. pose proof (Z.mod_pos_bound h (2 ^ k) ltac:(lia)).
  destruct (Z.ltb_spec (h mod 2 ^ k) n); [lia|]. destruct Hlow as [->|Hlow]; [rewrite Z.mod_1_r in *; lia|].
  assert (0 < 2 ^ (k - 1)) by (apply Z.pow_pos_nonneg; [lia|]; destruct (decide (k = 0)); [subst; cbn in *; lia|lia]).
  pose proof (Z.mod_pos_bound h (2 ^ (k - 1)) ltac:(lia)). lia.
Qed.

(** The test for a power of two. *)
Lemma land_pred k n : mask_for k n → (Z.land n (n - 1) =? 0) = bool_decide (n = 2 ^ k).
Proof.
  intros (Hk & Hn & Hlow). destruct (decide (n = 2 ^ k)) as [->|Hne].
  - rewrite bool_decide_true by done. rewrite land_mask, Z.mod_same by lia. done.
  - rewrite bool_decide_false by done. apply Z.eqb_neq. intros E.
    destruct Hlow as [->|Hlow]; [cbn in *; lia|].
    assert (1 ≤ k) by (destruct (decide (k = 0)); [subst; cbn in *; lia|lia]).
    pose proof (pow2_half k ltac:(lia)) as H2.
    assert (Z.testbit (Z.land n (n - 1)) (k - 1) = true) as Hb.
    { rewrite Z.land_spec. apply andb_true_iff. split; apply Z.testbit_true; [lia| |lia|].
      - by rewrite <- (Z.div_unique_pos n (2 ^ (k - 1)) 1 (n - 2 ^ (k - 1))) by lia.
      - by rewrite <- (Z.div_unique_pos (n - 1) (2 ^ (k - 1)) 1 (n - 1 - 2 ^ (k - 1))) by lia. }
    rewrite E, Z.bits_0 in Hb. done.
Qed.

Lemma mod_pow_succ k h : 0 ≤ k → h mod 2 ^ (k + 1) = h mod 2 ^ k ∨ h mod 2 ^ (k + 1) = h mod 2 ^ k + 2 ^ k.
Proof.
  intros Hk. rewrite Z.pow_add_r by lia. rewrite Z.rem_mul_r by lia.
  pose proof (Z.mod_pos_bound (h / 2 ^ k) 2 ltac:(lia)). change (2 ^ 1) with 2.
  destruct (decide ((h / 2 ^ k) mod 2 = 0)) as [->|]; [left; lia|right].
  replace ((h / 2 ^ k) mod 2) with 1 by lia. lia.
Qed.

(** The exponent after a bucket was added, and the bucket it takes its entries from. *)
Definition next_exp (k n : Z) : Z := if bool_decide (n = 2 ^ k) then k + 1 else k.

Lemma next_exp_spec k n : mask_for k n →
  let k' := next_exp k n in mask_for k' (n + 1) ∧ 1 ≤ k' ∧ 2 ^ (k' - 1) ≤ n < 2 ^ k' ∧
  n mod 2 ^ (k' - 1) = n - 2 ^ (k' - 1).
Proof.
  intros (Hk & Hn & Hlow) k'. unfold k', next_exp, mask_for. case_bool_decide as E.
  - replace (k + 1 - 1) with k by lia. rewrite Z.pow_add_r by lia. subst n.
    rewrite Z.mod_same by lia. lia.
  - destruct Hlow as [->|Hlow]; [cbn in *; lia|].
    assert (1 ≤ k) by (destruct (decide (k = 0)); [subst; cbn in *; lia|lia]).
    pose proof (pow2_half k ltac:(lia)). split; [lia|]. split; [lia|]. split; [lia|].
    symmetry. apply (Z.mod_unique_pos _ _ 1); lia.
Qed.

(** One more bucket: an entry stays, or moves to the new bucket from the one that is
    half a table before it. *)
Lemma place_split k n h : mask_for k n → let k' := next_exp k n in
  if h mod 2 ^ k' =? n then place k' (n + 1) h = n ∧ place k n h = n - 2 ^ (k' - 1)
  else place k' (n + 1) h = place k n h.
Proof.
  intros Hm k'. pose proof (next_exp_spec k n Hm) as (Hm' & Hk' & Hr & Hfrom). fold k' in Hm', Hk', Hr, Hfrom.
  destruct Hm as (Hk & Hn & Hlow). unfold place.
  pose proof (mod_pow_succ (k' - 1) h ltac:(lia)) as Hs. replace (k' - 1 + 1) with k' in Hs by lia.
  pose proof (Z.mod_pos_bound h (2 ^ (k' - 1)) ltac:(lia)). pose proof (pow2_half k' ltac:(lia)).
  unfold k', next_exp in *. case_bool_decide as E.
  - subst n. replace (k + 1 - 1) with k in * by lia. rewrite (proj2 (Z.ltb_lt (h mod 2 ^ k) (2 ^ k))) by lia.
    destruct (Z.eqb_spec (h mod 2 ^ (k + 1)) (2 ^ k)) as [Eh|Eh].
    + rewrite Eh, (proj2 (Z.ltb_lt _ _)) by lia. lia.
    + destruct (Z.ltb_spec (h mod 2 ^ (k + 1)) (2 ^ k + 1)); lia.
  - destruct (Z.eqb_spec (h mod 2 ^ k) n) as [Eh|Eh].
    + rewrite Eh, (proj2 (Z.ltb_lt n (n + 1))), (proj2 (Z.ltb_ge n n)) by lia. lia.
    + destruct (Z.ltb_spec (h mod 2 ^ k) (n + 1)), (Z.ltb_spec (h mod 2 ^ k) n); lia.
Qed.

(** ** The arrays

    [Shape s t bs]: [bs] are the chains of the buckets in use.  A table that is being
    moved must have moved everything before it is full: [s] is by how much the numbers
    of buckets in use and of buckets to be moved may exceed the capacity. *)
Record Shape (s : Z) (t : table) (bs : list chain) : Prop := {
  sh_len : Z.of_nat (length bs) = _bucket_count t;
  sh_cell i c : bs !! i = Some c → bucket t (Z.of_nat i) = Ok c;
  sh_count : 1 ≤ _bucket_count t ≤ _bucket_capacity t;
  sh_new : Z.of_nat (length (_new_buckets t)) = _bucket_capacity t;
  sh_cap : _bucket_capacity t < 2 ^ 60;
  sh_begin : 0 ≤ _new_begin t ≤ _bucket_count t;
  sh_old : _new_begin t ≤ Z.of_nat (length (_old_buckets t));
  sh_mask : ∃ k, mask_for k (_bucket_count t) ∧ _mask t = 2 ^ k - 1;
  sh_slack : _new_begin t = 0 ∨ _bucket_count t + _new_begin t ≤ _bucket_capacity t + s;
}.

(** Everything but the arrays. *)
Definition same (t t' : table) : Prop :=
  _size t' = _size t ∧ _mask t' = _mask t ∧ _bucket_count t' = _bucket_count t ∧
  _bucket_capacity t' = _bucket_capacity t ∧ _max_load_factor t' = _max_load_factor t.

Lemma same_place t t' h : same t t' → hash_to_bucket t' h = hash_to_bucket t h.
Proof. intros (_ & Hm & Hc & _). unfold hash_to_bucket. by rewrite Hm, Hc. Qed.

Lemma store_cell_ok a i c : (Z.to_nat i < length a)%nat → store_cell a i c = Ok (<[Z.to_nat i := Some c]> a).
Proof. intros Hi. unfold store_cell. by rewrite (proj2 (Nat.ltb_lt _ _) Hi). Qed.

Lemma load_store a i c j : 0 ≤ i → 0 ≤ j → (Z.to_nat i < length a)%nat →
  load_cell (<[Z.to_nat i := Some c]> a) j = if decide (i = j) then Ok c else load_cell a j.
Proof.
  intros Hi Hj Hl. unfold load_cell. case_decide as E.
  - subst j. by rewrite list_lookup_insert_eq.
  - by rewrite list_lookup_insert_ne by lia.
Qed.

(** [set_bucket] replaces a chain. *)
Lemma set_bucket_ok s t bs i c : Shape s t bs → (i < length bs)%nat →
  ∃ t', set_bucket t (Z.of_nat i) c = Ok t' ∧ Shape s t' (<[i := c]> bs) ∧ same t t' ∧ _new_begin t' = _new_begin t.
Proof.
  intros [Hlen Hcell Hcount Hnew Hcap Hbegin Hold Hmask Hslack] Hi. unfold set_bucket.
  assert (Hgoal : ∀ t', same t t' → _new_begin t' = _new_begin t →
    length (_new_buckets t') = length (_new_buckets t) → length (_old_buckets t') = length (_old_buckets t) →
    (∀ j : nat, bucket t' (Z.of_nat j) = if decide (i = j) then Ok c else bucket t (Z.of_nat j)) →
    Shape s t' (<[i := c]> bs)).
  { intros t' (Hs & Hm & Hc & Hca & Hml) Hb Hln Hlo Hbk. split; rewrite ?Hc, ?Hca, ?Hb, ?Hln, ?Hlo, ?Hm, ?length_insert; try done.
    intros j c' Hj. rewrite Hbk. destruct (decide (i = j)) as [<-|Hne].
    - rewrite list_lookup_insert_eq in Hj by done. congruence.
    - rewrite list_lookup_insert_ne in Hj by done. by apply Hcell. }
  destruct (Z.ltb_spec (Z.of_nat i) (_new_begin t)) as [Hlt|Hge].
  - rewrite store_cell_ok by lia. step_ok. eexists. split; [done|]. split; [|done]. apply Hgoal; try done.
    + cbn. by rewrite length_insert.
    + intros j. unfold bucket. cbn. rewrite load_store by lia.
      destruct (Z.ltb_spec (Z.of_nat j) (_new_begin t)), (decide (i = j)), (decide (Z.of_nat i = Z.of_nat j)); try lia; done.
  - rewrite store_cell_ok by lia. step_ok. eexists. split; [done|]. split; [|done]. apply Hgoal; try done.
    + cbn. by rewrite length_insert.
    + intros j. unfold bucket. cbn. rewrite load_store by lia.
      destruct (Z.ltb_spec (Z.of_nat j) (_new_begin t)), (decide (i = j)), (decide (Z.of_nat i = Z.of_nat j)); try lia; done.
Qed.

Lemma load_of_bucket t i : 0 ≤ i < _new_begin t → load_cell (_old_buckets t) i = bucket t i.
Proof. intros Hi. unfold bucket. by rewrite (proj2 (Z.ltb_lt _ _)) by lia. Qed.

(** [move_bucket] changes nothing but where the chains are. *)
Lemma move_bucket_ok s t bs : Shape s t bs →
  ∃ t', move_bucket t = Ok t' ∧ Shape (s - 1) t' bs ∧ same t t'.
Proof.
  intros Hsh. pose proof Hsh as [Hlen Hcell Hcount Hnew Hcap Hbegin Hold Hmask Hslack].
  unfold move_bucket. destruct (Z.ltb_spec 0 (_new_begin t)) as [Hlt|Hge].
  2: { exists t. split; [done|]. split; [|done]. split; try done. left. lia. }
  destruct (lookup_lt_is_Some_2 bs (Z.to_nat (_new_begin t - 1))) as [c Hc]; [lia|].
  pose proof (Hcell _ _ Hc) as Hb. rewrite Z2Nat.id in Hb by lia.
  rewrite load_of_bucket, Hb by lia. step_ok. rewrite store_cell_ok by lia. step_ok.
  eexists. split; [done|]. split; [|done]. split; cbn; try done.
  - intros j c' Hj. unfold bucket. cbn. specialize (Hcell j c' Hj). unfold bucket in Hcell.
    rewrite load_store by lia. destruct (Z.eqb_spec (_new_begin t - 1) 0) as [E|E].
    + rewrite (proj2 (Z.ltb_ge _ _)) by lia. case_decide as Ej.
      * assert (j = Z.to_nat (_new_begin t - 1)) as -> by lia. congruence.
      * rewrite (proj2 (Z.ltb_ge _ _)) in Hcell by lia. done.
    + case_decide as Ej.
      * assert (j = Z.to_nat (_new_begin t - 1)) as -> by lia.
        rewrite (proj2 (Z.ltb_ge _ _)) by lia. congruence.
      * destruct (Z.ltb_spec (Z.of_nat j) (_new_begin t - 1)), (Z.ltb_spec (Z.of_nat j) (_new_begin t)); try lia; done.
  - by rewrite length_insert.
  - lia.
  - destruct (Z.eqb_spec (_new_begin t - 1) 0); cbn; lia.
  - lia.
Qed.

(** ** Growing *)
Definition grow (mask : Z) (t : table) : table :=
  Table (_size t) mask (_bucket_count t + 1) (_bucket_capacity t) (_new_begin t) (_max_load_factor t)
    (_new_buckets t) (_old_buckets t).

Lemma set_bucket_grow mask t i c : set_bucket (grow mask t) i c = t' ← set_bucket t i c; Ok (grow mask t').
Proof. unfold set_bucket. cbn. by destruct (i <? _new_begin t), store_cell. Qed.

(** The array is doubled when it is full; everything in it has been moved by then. *)
Lemma make_room t bs : Shape 0 t bs → _bucket_capacity t * 2 < 2 ^ 60 →
  ∃ t1, (if _bucket_capacity t <=? _bucket_count t then reserve t (u64 (_bucket_capacity t * 2)) else Ok t) = Ok t1 ∧
    Shape 0 t1 bs ∧ _bucket_count t1 < _bucket_capacity t1 ∧
    _size t1 = _size t ∧ _mask t1 = _mask t ∧ _bucket_count t1 = _bucket_count t ∧
    _max_load_factor t1 = _max_load_factor t ∧ _bucket_capacity t1 ≤ Z.max (_bucket_capacity t) (2 * _bucket_count t).
Proof.
  intros Hsh Hsmall. pose proof Hsh as [Hlen Hcell Hcount Hnew Hcap Hbegin Hold Hmask Hslack].
  destruct (Z.leb_spec (_bucket_capacity t) (_bucket_count t)) as [Hfull|Hroom].
  2: { exists t. repeat split; try done; lia. }
  rewrite wrap_small by (unfold in_unsigned; lia). unfold reserve.
  rewrite (proj2 (Z.leb_gt _ _)) by lia. assert (Hnb : _new_begin t = 0) by lia.
  rewrite Hnb. cbn [Z.eqb SCHECK]. step_ok. unfold new_array. rewrite (proj2 (Z.ltb_lt _ _)) by lia. step_ok.
  eexists. split; [done|]. split; [|cbn; repeat split; lia]. split; cbn; try done; try lia.
  - intros i c Hi. specialize (Hcell i c Hi). unfold bucket in *. cbn. apply lookup_lt_Some in Hi.
    rewrite (proj2 (Z.ltb_lt _ _)) by lia. by rewrite (proj2 (Z.ltb_ge _ _)) in Hcell by lia.
  - rewrite length_replicate. lia.
Qed.

(** A bucket is put behind the others. *)
Lemma push_bucket mask k t bs c : Shape 0 t bs → _bucket_count t < _bucket_capacity t →
  mask_for k (_bucket_count t + 1) → mask = 2 ^ k - 1 →
  ∃ t', set_bucket (grow mask t) (_bucket_count t) c = Ok t' ∧ Shape 1 t' (bs ++ [c]) ∧ same (grow mask t) t'.
Proof.
  intros [Hlen Hcell Hcount Hnew Hcap Hbegin Hold _ Hslack] Hroom Hk Hmask. unfold set_bucket. cbn.
  rewrite (proj2 (Z.ltb_ge _ _)) by lia. rewrite store_cell_ok by lia. step_ok.
  eexists. split; [done|]. split; [|done]. split; cbn; try done; try lia.
  - rewrite length_app. cbn. lia.
  - intros i c' Hi. unfold bucket. cbn. rewrite load_store by lia.
    apply lookup_app_Some in Hi as [Hi|[Hge Hi]].
    + specialize (Hcell i c' Hi). unfold bucket in Hcell. apply lookup_lt_Some in Hi.
      rewrite decide_False by lia. done.
    + apply list_lookup_singleton_Some in Hi as [Hz <-].
      rewrite (proj2 (Z.ltb_ge _ _)), decide_True by lia. done.
  - by rewrite length_insert.
  - by exists k.
Qed.

Lemma rehash_spec mask i c : rehash mask i c =
  (filter (λ e, Z.land (hash_code e) mask ≠ i) c, filter (λ e, Z.land (hash_code e) mask = i) c).
Proof.
  induction c as [|e c IH]; [done|]. cbn [rehash]. rewrite IH, !filter_cons.
  destruct (Z.eqb_spec (Z.land (hash_code e) mask) i); by repeat case_decide.
Qed.

(** What [add_bucket] does to the chains. *)
Definition split_bucket (k : Z) (bs : list chain) (from : nat) (c : chain) : list chain :=
  let mine e := hash_code e mod 2 ^ k = Z.of_nat (length bs) in
  <[from := filter (λ e, ¬ mine e) c]> bs ++ [filter mine c].

Lemma add_bucket_ok t bs k : Shape 0 t bs → _bucket_capacity t * 2 < 2 ^ 60 →
  mask_for k (_bucket_count t) → _mask t = 2 ^ k - 1 →
  let k' := next_exp k (_bucket_count t) in
  ∃ t' c from, add_bucket t = Ok t' ∧ Z.of_nat from = _bucket_count t - 2 ^ (k' - 1) ∧ bs !! from = Some c ∧
    Shape 1 t' (split_bucket k' bs from c) ∧
    _bucket_count t' = _bucket_count t + 1 ∧ _mask t' = 2 ^ k' - 1 ∧ _size t' = _size t ∧
    _bucket_capacity t' ≤ Z.max (_bucket_capacity t) (2 * _bucket_count t).
Proof.
  intros Hsh Hsmall Hk Hmask k'. destruct (make_room t bs Hsh Hsmall)
    as (t1 & E1 & Hsh1 & Hroom & Hs1 & Hm1 & Hc1 & Hl1 & Hcap1).
  pose proof (next_exp_spec k _ Hk) as (Hk' & Hpos & Hr & Hfrom). fold k' in Hk', Hpos, Hr, Hfrom.
  unfold add_bucket. rewrite E1. step_ok. cbv zeta. rewrite Hc1, (land_pred k) by done.
  set (mask := if bool_decide _ then _ else _).
  assert (Hmask' : mask = 2 ^ k' - 1).
  { unfold mask, k', next_exp. rewrite Hm1, Hmask. case_bool_decide as E; [|done].
    rewrite Z.pow_add_r by (destruct Hk; lia). lia. }
  clearbody mask. rewrite <- Hc1. fold (grow mask t1).
  assert (Z.land (_bucket_count t1) (Z.shiftr mask 1) = _bucket_count t - 2 ^ (k' - 1)) as ->.
  { rewrite Hc1, Hmask', ones_shiftr, Z.max_r, land_mask by lia. done. }
  set (from := Z.to_nat (_bucket_count t - 2 ^ (k' - 1))).
  replace (_bucket_count t - 2 ^ (k' - 1)) with (Z.of_nat from) by lia.
  assert (0 < 2 ^ (k' - 1)) by lia.
  assert (Hlt : (from < length bs)%nat) by (pose proof (sh_len 0 t bs Hsh); lia).
  destruct (lookup_lt_is_Some_2 bs from Hlt) as [c Hc].
  change (bucket (grow mask t1) (Z.of_nat from)) with (bucket t1 (Z.of_nat from)).
  rewrite (sh_cell 0 t1 bs Hsh1 from c Hc). step_ok. rewrite rehash_spec.
  destruct (set_bucket_ok 0 t1 bs from (filter (λ e, Z.land (hash_code e) mask ≠ _bucket_count t1) c) Hsh1 Hlt)
    as (t2 & E2 & Hsh2 & (Hs2 & Hm2 & Hc2 & Hca2 & Hl2) & _).
  rewrite set_bucket_grow, E2. step_ok. rewrite <- Hc2.
  destruct (push_bucket mask k' t2 _ (filter (λ e, Z.land (hash_code e) mask = _bucket_count t2) c) Hsh2)
    as (t3 & E3 & Hsh3 & (Hs3 & Hm3 & Hc3 & Hca3 & Hl3)); [lia|by rewrite Hc2, Hc1|done|].
  exists t3, c, from. split; [exact E3|]. split; [lia|]. split; [done|]. cbn in *.
  split; [|repeat split; try lia; congruence].
  unfold split_bucket. rewrite (sh_len 0 t bs Hsh), <- Hc1.
  replace (filter (λ e, ¬ hash_code e mod 2 ^ k' = _bucket_count t1) c)
    with (filter (λ e, Z.land (hash_code e) mask ≠ _bucket_count t1) c); cycle 1.
  { apply list_filter_iff. intros e. rewrite Hmask', land_mask by lia. done. }
  replace (filter (λ e, hash_code e mod 2 ^ k' = _bucket_count t1) c)
    with (filter (λ e, Z.land (hash_code e) mask = _bucket_count t2) c); [done|].
  apply list_filter_iff. intros e. rewrite Hmask', land_mask, Hc2 by lia. done.
Qed.

(** ** The entries *)
Definition Placed (t : table) (bs : list chain) : Prop :=
  ∀ i c e, bs !! i = Some c → e ∈ c → hash_code e = hash (e_key e) ∧ hash_to_bucket t (hash_code e) = Z.of_nat i.

Lemma concat_insert (bs : list chain) i c : bs !! i = Some c →
  ∃ rest, concat bs ≡ₚ c ++ rest ∧ ∀ c', concat (<[i := c']> bs) ≡ₚ c' ++ rest.
Proof.
  intros Hi. exists (concat (take i bs) ++ concat (drop (S i) bs)).
  pose proof (lookup_lt_Some _ _ _ Hi) as Hlt.
  assert (Hc : ∀ c', concat (<[i := c']> bs) ≡ₚ c' ++ concat (take i bs) ++ concat (drop (S i) bs)).
  { intros c'. rewrite (insert_take_drop bs i c') by done. rewrite concat_app. cbn.
    by rewrite !app_assoc, (Permutation_app_comm c'). }
  split; [|done]. rewrite <- Hc. by rewrite list_insert_id.
Qed.

Lemma filter_split {A} (P : A → Prop) `{∀ x, Decision (P x)} (l : list A) :
  filter (λ x, ¬ P x) l ++ filter P l ≡ₚ l.
Proof.
  induction l as [|x l IH]; [done|]. rewrite !filter_cons. destruct (decide (P x)), (decide (¬ P x)); try done; cbn.
  - by rewrite <- Permutation_middle, IH.
  - by rewrite IH.
Qed.

Lemma concat_split k bs from c : bs !! from = Some c → concat (split_bucket k bs from c) ≡ₚ concat bs.
Proof.
  intros Hc. destruct (concat_insert bs from c Hc) as (rest & Hr & Hi).
  unfold split_bucket. rewrite concat_app, Hi, Hr. cbn [concat]. rewrite app_nil_r.
  rewrite <- app_assoc, (Permutation_app_comm rest), app_assoc. by rewrite filter_split.
Qed.

Lemma split_placed t t' bs k from c : Shape 0 t bs → Placed t bs → bs !! from = Some c →
  mask_for k (_bucket_count t) → _mask t = 2 ^ k - 1 →
  let k' := next_exp k (_bucket_count t) in
  Z.of_nat from = _bucket_count t - 2 ^ (k' - 1) →
  _bucket_count t' = _bucket_count t + 1 → _mask t' = 2 ^ k' - 1 →
  Placed t' (split_bucket k' bs from c).
Proof.
  intros Hsh Hp Hc Hk Hm k' Hfrom Hc' Hm' i ch e Hi He. pose proof (sh_len 0 t bs Hsh) as Hlen.
  pose proof (next_exp_spec k _ Hk) as (Hk' & _). fold k' in Hk'.
  pose proof (place_split k _ (hash_code e) Hk) as Hs. cbv zeta in Hs. fold k' in Hs.
  rewrite (hash_to_bucket_place t' k') by (by rewrite ?Hc'). rewrite Hc'.
  unfold split_bucket in Hi. rewrite Hlen in Hi. apply lookup_app_Some in Hi as [Hi|[Hge Hi]].
  - destruct (decide (from = i)) as [<-|Hne].
    + rewrite list_lookup_insert_eq in Hi by (by eapply lookup_lt_Some). injection Hi as <-.
      apply list_elem_of_filter in He as [Hn He]. rewrite (proj2 (Z.eqb_neq _ _) Hn) in Hs.
      rewrite Hs, <- (hash_to_bucket_place t k) by done. by apply (Hp from c).
    + rewrite list_lookup_insert_ne in Hi by done. destruct (Hp i ch e Hi He) as [Hh Hb]. split; [done|].
      rewrite (hash_to_bucket_place t k) in Hb by done.
      destruct (hash_code e mod 2 ^ k' =? _bucket_count t); [lia|congruence].
  - apply list_lookup_singleton_Some in Hi as [Hz <-]. rewrite length_insert in Hge, Hz.
    apply list_elem_of_filter in He as [Hn He]. rewrite (proj2 (Z.eqb_eq _ _) Hn) in Hs.
    destruct Hs as [-> _]. destruct (Hp from c e Hc He) as [Hh _]. split; [done|lia].
Qed.

(** ** The whole state *)
Record Good (t : table) (bs : list chain) : Prop := {
  good_shape : Shape 0 t bs;
  good_placed : Placed t bs;
  good_size : _size t = Z.of_nat (length (concat bs));
}.

Lemma Shape_weaken s s' t bs : s ≤ s' → Shape s t bs → Shape s' t bs.
Proof. intros Hs []. split; try done. lia. Qed.

Lemma Placed_same t t' bs : same t t' → Placed t bs → Placed t' bs.
Proof. intros Hs Hp i c e Hi He. rewrite (same_place t t' _ Hs). by apply (Hp i c). Qed.

Lemma add_bucket_keeps t bs : Shape 0 t bs → Placed t bs → _bucket_capacity t * 2 < 2 ^ 60 →
  ∃ t' bs', add_bucket t = Ok t' ∧ Shape 1 t' bs' ∧ Placed t' bs' ∧ concat bs' ≡ₚ concat bs ∧
    _size t' = _size t ∧ _bucket_count t' = _bucket_count t + 1 ∧
    _bucket_capacity t' ≤ Z.max (_bucket_capacity t) (2 * _bucket_count t).
Proof.
  intros Hsh Hp Hsmall. destruct (sh_mask 0 t bs Hsh) as (k & Hk & Hm).
  destruct (add_bucket_ok t bs k Hsh Hsmall Hk Hm) as (t' & c & from & E & Hf & Hc & Hsh' & Hcn & Hmn & Hs & Hcap).
  exists t', (split_bucket (next_exp k (_bucket_count t)) bs from c). split; [done|]. split; [done|].
  split; [by apply (split_placed t)|]. split; [by apply concat_split|]. done.
Qed.

Lemma move_bucket_keeps s t bs : Shape s t bs → Placed t bs →
  ∃ t', move_bucket t = Ok t' ∧ Shape (s - 1) t' bs ∧ Placed t' bs ∧ same t t'.
Proof.
  intros Hsh Hp. destruct (move_bucket_ok s t bs Hsh) as (t' & E & Hsh' & Hsame).
  exists t'. eauto using Placed_same.
Qed.

Lemma Shape_with_size s t bs n : Shape s t bs → Shape s (with_size t n) bs.
Proof. intros []. by split. Qed.

(** After an entry was linked in: the table grows by two buckets, or not at all. *)
Lemma insert_postprocess_ok t bs : Shape 0 t bs → Placed t bs → _bucket_capacity t * 4 < 2 ^ 60 →
  ∃ t' bs', insert_postprocess t = Ok t' ∧ Shape 0 t' bs' ∧ Placed t' bs' ∧ concat bs' ≡ₚ concat bs ∧
    _size t' = _size t + 1 ∧ _bucket_count t' ≤ _bucket_count t + 2 ∧
    _bucket_capacity t' ≤ Z.max (_bucket_capacity t) (2 * (_bucket_count t + 1)).
Proof.
  intros Hsh Hp Hsmall. unfold insert_postprocess. set (t0 := with_size t (_size t + 1)).
  assert (Hsh0 : Shape 0 t0 bs) by (by apply Shape_with_size).
  assert (Hp0 : Placed t0 bs) by done. pose proof (sh_count 0 t bs Hsh) as Hc.
  destruct (overloaded t0).
  - destruct (add_bucket_keeps t0 bs Hsh0 Hp0) as (t1 & bs1 & -> & Hsh1 & Hp1 & Hb1 & Hs1 & Hc1 & Hca1);
      [cbn; lia|]. step_ok.
    destruct (move_bucket_keeps 1 t1 bs1 Hsh1 Hp1) as (t2 & -> & Hsh2 & Hp2 & (Hs2 & _ & Hc2 & Hca2 & _)).
    step_ok. cbn in Hca1, Hc1, Hs1.
    destruct (add_bucket_keeps t2 bs1 Hsh2 Hp2) as (t3 & bs3 & -> & Hsh3 & Hp3 & Hb3 & Hs3 & Hc3 & Hca3);
      [lia|]. step_ok.
    destruct (move_bucket_keeps 1 t3 bs3 Hsh3 Hp3) as (t4 & -> & Hsh4 & Hp4 & (Hs4 & _ & Hc4 & Hca4 & _)).
    exists t4, bs3. split; [done|]. split; [done|]. split; [done|]. split; [by rewrite Hb3|]. lia.
  - step_ok. destruct (move_bucket_keeps 0 t0 bs Hsh0 Hp0) as (t1 & -> & Hsh1 & Hp1 & (Hs1 & _ & Hc1 & Hca1 & _)).
    exists t1, bs. split; [done|]. split; [by apply (Shape_weaken (0 - 1))|].
    split; [done|]. split; [done|]. cbn in *. lia.
Qed.

(** ** The table as a finite map *)
Definition kv (e : entry) : K * V := (e_key e, e_val e).

Definition models (t : table) (m : gmap K V) : Prop :=
  ∃ bs, Good t bs ∧ kv <$> concat bs ≡ₚ map_to_list m.

Lemma walk_spec c h key :
  match c !! walk c h key with
  | Some e => hash_code e = h ∧ e_key e = key
  | None => walk c h key = length c ∧ ∀ e, e ∈ c → ¬ (hash_code e = h ∧ e_key e = key)
  end.
Proof.
  induction c as [|e c IH]; cbn [walk]; [split; [done|by intros e ?%elem_of_nil]|].
  destruct (Z.eqb_spec (hash_code e) h), (bool_decide_reflect (e_key e = key)); cbn [andb lookup list_lookup];
    [done|..]; destruct (c !! walk c h key) eqn:E; cbn; rewrite ?E; try done;
    destruct IH as [-> IH]; (split; [done|]); intros e' [->|He']%elem_of_cons; naive_solver.
Qed.

Lemma bucket_in_range t bs h : Shape 0 t bs → ∃ i c, hash_to_bucket t h = Z.of_nat i ∧ bs !! i = Some c.
Proof.
  intros Hsh. destruct (sh_mask 0 t bs Hsh) as (k & Hk & Hm).
  pose proof (place_range k _ h Hk). rewrite (hash_to_bucket_place t k) by done.
  pose proof (sh_len 0 t bs Hsh). destruct (lookup_lt_is_Some_2 bs (Z.to_nat (place k (_bucket_count t) h))) as [c Hc]; [lia|].
  exists (Z.to_nat (place k (_bucket_count t) h)), c. split; [lia|done].
Qed.

Lemma elem_of_concat (bs : list chain) e : e ∈ concat bs ↔ ∃ i c, bs !! i = Some c ∧ e ∈ c.
Proof.
  induction bs as [|b bs IH]; cbn; [split; [by intros ?%elem_of_nil|by intros (i & c & ? & _)]|].
  rewrite elem_of_app, IH. split.
  - intros [Hb|(i & c & Hi & He)]; [by exists 0%nat, b|by exists (S i), c].
  - intros ([|i] & c & Hi & He); cbn in Hi; [left; congruence|right; eauto].
Qed.

Lemma models_lookup bs (m : gmap K V) key v : kv <$> concat bs ≡ₚ map_to_list m →
  m !! key = Some v ↔ ∃ e, e ∈ concat bs ∧ e_key e = key ∧ e_val e = v.
Proof.
  intros Hm. rewrite <- elem_of_map_to_list, <- Hm, list_elem_of_fmap. unfold kv. split.
  - intros (e & [= -> ->] & He). eauto.
  - intros (e & He & <- & <-). eauto.
Qed.

(** [find_entry] finds the link of the key, or the end of the chain it belongs to. *)
Lemma find_entry_ok t bs m key : Good t bs → kv <$> concat bs ≡ₚ map_to_list m →
  ∃ i c p, find_entry t key = Ok (Z.of_nat i, c, p) ∧ bs !! i = Some c ∧ hash_to_bucket t (hash key) = Z.of_nat i ∧
  match m !! key with
  | Some v => c !! p = Some (Entry key v (hash key))
  | None => c !! p = None ∧ p = length c
  end.
Proof.
  intros [Hsh Hp _] Hm. destruct (bucket_in_range t bs (hash key) Hsh) as (i & c & Hi & Hc).
  unfold find_entry. rewrite Hi, (sh_cell 0 t bs Hsh i c Hc). step_ok.
  exists i, c, (walk c (hash key) key). split; [done|]. split; [done|]. split; [done|].
  pose proof (walk_spec c (hash key) key) as Hw. destruct (c !! walk c (hash key) key) as [e|] eqn:E.
  - destruct Hw as [Hh Hk]. assert (m !! key = Some (e_val e)) as ->.
    { apply (models_lookup bs); [done|]. exists e. split; [|done]. apply elem_of_concat.
      exists i, c. split; [done|]. by eapply list_elem_of_lookup_2. }
    destruct e; cbn in *. congruence.
  - destruct Hw as [Hl Hno]. destruct (m !! key) as [v|] eqn:Em; [|done]. exfalso.
    apply (models_lookup bs m) in Em as (e & He & Hk & _); [|done].
    apply elem_of_concat in He as (j & c' & Hj & He). destruct (Hp j c' e Hj He) as [Hh Hb].
    assert (j = i) as -> by (rewrite Hh, Hk, Hi in Hb; lia). assert (c' = c) as -> by congruence.
    apply (Hno e He). rewrite Hh, Hk. done.
Qed.

(** A chain is replaced by one whose entries belong there. *)
Lemma relink t bs i c c' : Shape 0 t bs → Placed t bs → bs !! i = Some c →
  (∀ e, e ∈ c' → e ∈ c ∨ hash_code e = hash (e_key e) ∧ hash_to_bucket t (hash_code e) = Z.of_nat i) →
  ∃ t', set_bucket t (Z.of_nat i) c' = Ok t' ∧ Shape 0 t' (<[i := c']> bs) ∧ Placed t' (<[i := c']> bs) ∧ same t t'.
Proof.
  intros Hsh Hp Hc Hnew. pose proof (lookup_lt_Some _ _ _ Hc) as Hlt.
  destruct (set_bucket_ok 0 t bs i c' Hsh Hlt) as (t' & E & Hsh' & Hsame & _).
  exists t'. split; [done|]. split; [done|]. split; [|done]. apply (Placed_same t); [done|].
  intros j b e Hj He. destruct (decide (i = j)) as [<-|Hne].
  - rewrite list_lookup_insert_eq in Hj by done. injection Hj as <-.
    destruct (Hnew e He) as [?|?]; [by apply (Hp i c)|done].
  - rewrite list_lookup_insert_ne in Hj by done. by apply (Hp j b).
Qed.

(** A new key is linked at the end of its chain. *)
Lemma add_entry_ok t bs m key v i c : Good t bs → kv <$> concat bs ≡ₚ map_to_list m →
  _bucket_capacity t * 4 < 2 ^ 60 → bs !! i = Some c → hash_to_bucket t (hash key) = Z.of_nat i → m !! key = None →
  ∃ t0 t', set_bucket t (Z.of_nat i) (take (length c) c ++ [Entry key v (hash key)]) = Ok t0 ∧
    insert_postprocess t0 = Ok t' ∧ models t' (<[key := v]> m) ∧ _bucket_count t' ≤ _bucket_count t + 2 ∧
    _bucket_capacity t' ≤ Z.max (_bucket_capacity t) (2 * (_bucket_count t + 1)).
Proof.
  intros [Hsh Hp Hs] Hm Hsmall Hc Hi Hnone. rewrite take_ge by done.
  destruct (relink t bs i c (c ++ [Entry key v (hash key)]) Hsh Hp Hc) as (t0 & E0 & Hsh0 & Hp0 & (Hs0 & _ & Hc0 & Hca0 & _)).
  { intros e [?|Hx%list_elem_of_singleton]%elem_of_app; [by left|subst e; by right]. }
  destruct (insert_postprocess_ok t0 _ Hsh0 Hp0) as (t' & bs' & E & Hsh' & Hp' & Hb & Hs' & Hc' & Hca'); [lia|].
  destruct (concat_insert bs i c Hc) as (rest & Hr & Hins).
  assert (Hb' : concat bs' ≡ₚ Entry key v (hash key) :: concat bs).
  { rewrite Hb, Hins, Hr, <- app_assoc. cbn. by rewrite <- Permutation_middle. }
  exists t0, t'. split; [done|]. split; [done|]. split; [|lia]. exists bs'. split.
  - split; [done|done|]. rewrite Hb'. cbn. lia.
  - rewrite Hb', fmap_cons, Hm. by rewrite map_to_list_insert.
Qed.

(** *** Each operation on the map it represents *)
Lemma HashTable_ok capacity : 1 ≤ capacity < 2 ^ 60 →
  ∃ t, HashTable_ capacity = Ok t ∧ models t ∅ ∧ _bucket_count t = 1 ∧ _bucket_capacity t = capacity.
Proof.
  intros Hc. unfold HashTable_, new_array. rewrite (proj2 (Z.ltb_lt _ _)) by lia. step_ok.
  rewrite store_cell_ok by (rewrite length_replicate; lia). step_ok.
  eexists. split; [done|]. split; [|done]. exists [[]]. split; [|by rewrite map_to_list_empty].
  split; [|by intros [|?] c e [= <-] ?%elem_of_nil|done]. split; cbn; try done; try lia.
  - intros [|i] c [= <-]. unfold bucket. cbn. unfold load_cell. cbn.
    by rewrite list_lookup_insert_eq by (rewrite length_replicate; lia).
  - rewrite length_insert, length_replicate. lia.
  - exists 0. unfold mask_for. lia.
Qed.

Lemma find_ok t m key : models t m →
  find t key = Ok ((λ v, Entry key v (hash key)) <$> m !! key).
Proof.
  intros (bs & Hg & Hm). unfold find. destruct (find_entry_ok t bs m key Hg Hm) as (i & c & p & -> & _ & _ & Hl).
  step_ok. destruct (m !! key); [by rewrite Hl|by destruct Hl as [-> _]].
Qed.

Lemma insert_ok t m key v : models t m → _bucket_capacity t * 4 < 2 ^ 60 →
  ∃ t', insert t key v = Ok (t', bool_decide (m !! key = None)) ∧
    models t' (if decide (m !! key = None) then <[key := v]> m else m) ∧
    _bucket_count t' ≤ _bucket_count t + 2 ∧
    _bucket_capacity t' ≤ Z.max (_bucket_capacity t) (2 * (_bucket_count t + 1)).
Proof.
  intros (bs & Hg & Hm) Hsmall. unfold insert.
  destruct (find_entry_ok t bs m key Hg Hm) as (i & c & p & -> & Hc & Hi & Hl). step_ok.
  destruct (m !! key) as [v0|] eqn:E.
  - rewrite Hl. exists t. split; [done|]. split; [by exists bs|]. lia.
  - destruct Hl as [-> ->].
    destruct (add_entry_ok t bs m key v i c Hg Hm Hsmall Hc Hi E) as (t0 & t' & -> & E' & Hm' & Hb). step_ok.
    rewrite E'. step_ok. eauto.
Qed.

Lemma index_ok t m key : models t m → _bucket_capacity t * 4 < 2 ^ 60 →
  ∃ t', operator_index t key = Ok (t', default T_ (m !! key)) ∧ models t' (<[key := default T_ (m !! key)]> m) ∧
    _bucket_count t' ≤ _bucket_count t + 2 ∧
    _bucket_capacity t' ≤ Z.max (_bucket_capacity t) (2 * (_bucket_count t + 1)).
Proof.
  intros (bs & Hg & Hm) Hsmall. unfold operator_index.
  destruct (find_entry_ok t bs m key Hg Hm) as (i & c & p & -> & Hc & Hi & Hl). step_ok.
  destruct (m !! key) as [v0|] eqn:E.
  - rewrite Hl. exists t. split; [done|]. cbn. rewrite insert_id by done. split; [by exists bs|]. lia.
  - destruct Hl as [-> ->].
    destruct (add_entry_ok t bs m key T_ i c Hg Hm Hsmall Hc Hi E) as (t0 & t' & -> & E' & Hm' & Hb). step_ok.
    rewrite E'. step_ok. eauto.
Qed.

Lemma map_to_list_take bs (m : gmap K V) key v e rest : kv <$> concat bs ≡ₚ map_to_list m → m !! key = Some v →
  concat bs ≡ₚ e :: rest → kv e = (key, v) → kv <$> rest ≡ₚ map_to_list (delete key m).
Proof.
  intros Hm Hk Hb He. apply (Permutation_cons_inv (a := (key, v))).
  rewrite map_to_list_delete by done. rewrite <- Hm, Hb. cbn. by rewrite He.
Qed.

Lemma chain_middle (bs : list chain) i c p e : bs !! i = Some c → c !! p = Some e →
  ∃ rest, concat bs ≡ₚ e :: rest ∧
    (∀ e', concat (<[i := <[p := e']> c]> bs) ≡ₚ e' :: rest) ∧
    concat (<[i := take p c ++ drop (S p) c]> bs) ≡ₚ rest.
Proof.
  intros Hc He. destruct (concat_insert bs i c Hc) as (rest & Hr & Hins).
  exists (take p c ++ drop (S p) c ++ rest). rewrite Hins, <- app_assoc. split; [|split; [|done]].
  - rewrite Hr, <- (take_drop_middle c p e He) at 1. rewrite <- app_assoc. cbn. by rewrite <- Permutation_middle.
  - intros e'. rewrite Hins, (insert_take_drop c p e') by (by eapply lookup_lt_Some).
    rewrite <- app_assoc. cbn. by rewrite <- Permutation_middle.
Qed.

Lemma assign_ok t m key v v0 : models t m → m !! key = Some v0 →
  ∃ t', assign t key v = Ok t' ∧ models t' (<[key := v]> m) ∧
    _bucket_count t' = _bucket_count t ∧ _bucket_capacity t' = _bucket_capacity t.
Proof.
  intros (bs & Hg & Hm) Hk. unfold assign.
  destruct (find_entry_ok t bs m key Hg Hm) as (i & c & p & -> & Hc & Hi & Hl). step_ok.
  rewrite Hk in Hl. rewrite Hl. cbn [e_key hash_code]. destruct Hg as [Hsh Hp Hs].
  destruct (relink t bs i c (<[p := Entry key v (hash key)]> c) Hsh Hp Hc) as (t' & -> & Hsh' & Hp' & (Hs' & _ & Hc' & Hca' & _)).
  { intros e (j & Hj)%list_elem_of_lookup_1. destruct (decide (p = j)) as [<-|].
    - rewrite list_lookup_insert_eq in Hj by (by eapply lookup_lt_Some). injection Hj as <-. by right.
    - rewrite list_lookup_insert_ne in Hj by done. left. by eapply list_elem_of_lookup_2. }
  destruct (chain_middle bs i c p _ Hc Hl) as (rest & Hr & Hins & _).
  exists t'. split; [done|]. split; [|done]. exists (<[i := <[p := Entry key v (hash key)]> c]> bs). split.
  - split; [done|done|]. rewrite Hins, Hs', Hs, Hr. done.
  - rewrite Hins. cbn. rewrite (map_to_list_take bs m key v0 _ rest Hm Hk Hr eq_refl).
    rewrite <- (insert_delete_eq m). by rewrite map_to_list_insert by apply lookup_delete_eq.
Qed.

Lemma erase_ok t m key : models t m →
  ∃ t', erase t key = Ok (t', if decide (m !! key = None) then 0 else 1) ∧ models t' (delete key m) ∧
    _bucket_count t' = _bucket_count t ∧ _bucket_capacity t' = _bucket_capacity t.
Proof.
  intros (bs & Hg & Hm). unfold erase.
  destruct (find_entry_ok t bs m key Hg Hm) as (i & c & p & -> & Hc & Hi & Hl). step_ok.
  destruct (m !! key) as [v|] eqn:Hk.
  2: { destruct Hl as [-> _]. exists t. rewrite delete_id by done. split; [done|]. split; [by exists bs|done]. }
  rewrite Hl. destruct Hg as [Hsh Hp Hs].
  destruct (relink t bs i c (take p c ++ drop (S p) c) Hsh Hp Hc) as (t0 & -> & Hsh0 & Hp0 & (Hs0 & _ & Hc0 & Hca0 & _)).
  { intros e He. left. rewrite <- (take_drop_middle c p _ Hl). apply elem_of_app in He as [?|?]; apply elem_of_app;
      [by left|right; by right]. }
  step_ok. destruct (move_bucket_keeps 0 (with_size t0 (_size t0 - 1)) (<[i := take p c ++ drop (S p) c]> bs))
    as (t' & -> & Hsh' & Hp' & (Hs' & _ & Hc' & Hca' & _)); [by apply Shape_with_size|done|].
  step_ok. exists t'. split; [done|]. cbn in *. split; [|lia].
  destruct (chain_middle bs i c p _ Hc Hl) as (rest & Hr & _ & Hdel).
  exists (<[i := take p c ++ drop (S p) c]> bs). split.
  - split; [by apply (Shape_weaken (0 - 1))|done|]. rewrite Hdel, Hs', Hs0, Hs, Hr. cbn. lia.
  - rewrite Hdel. by apply (map_to_list_take bs m key v (Entry key v (hash key)) rest).
Qed.

Lemma clear_from_ok n : ∀ i t bs, Shape 0 t bs → (i + n = length bs)%nat →
  ∃ t' bs', clear_from n (Z.of_nat i) t = Ok t' ∧ Shape 0 t' bs' ∧
    _size t' = _size t - Z.of_nat (length (concat (drop i bs))) ∧
    _bucket_count t' = _bucket_count t ∧ _bucket_capacity t' = _bucket_capacity t.
Proof.
  induction n as [|n IH]; intros i t bs Hsh Hn.
  { exists t, bs. rewrite drop_ge by lia. cbn. split; [done|]. split; [done|]. lia. }
  destruct (lookup_lt_is_Some_2 bs i) as [c Hc]; [lia|]. cbn [clear_from].
  rewrite (sh_cell 0 t bs Hsh i c Hc). step_ok.
  destruct (set_bucket_ok 0 (with_size t (_size t - Z.of_nat (length c))) bs i [])
    as (t1 & -> & Hsh1 & (Hs1 & _ & Hc1 & Hca1 & _) & _); [by apply Shape_with_size|lia|]. step_ok.
  replace (Z.of_nat i + 1) with (Z.of_nat (S i)) by lia.
  destruct (IH (S i) t1 _ Hsh1) as (t' & bs' & -> & Hsh' & Hs' & Hc' & Hca'); [rewrite length_insert; lia|].
  exists t', bs'. split; [done|]. split; [done|]. cbn in *.
  rewrite (drop_S bs c i Hc). cbn [concat]. rewrite length_app.
  rewrite drop_insert_lt in Hs' by lia. lia.
Qed.

Lemma clear_ok t m : models t m →
  ∃ t', clear t = Ok t' ∧ models t' ∅ ∧ _bucket_count t' = 1 ∧ _bucket_capacity t' = _bucket_capacity t.
Proof.
  intros (bs & [Hsh _ Hs] & _). unfold clear.
  destruct (clear_from_ok (length bs) 0 t bs Hsh eq_refl) as (t1 & bs1 & E & Hsh1 & Hs1 & Hc1 & Hca1).
  rewrite <- (sh_len 0 t bs Hsh), Nat2Z.id. change (Z.of_nat 0) with 0 in E. rewrite E. step_ok.
  rewrite drop_0, Hs in Hs1. replace (_size t1) with 0 by lia. cbn [Z.eqb SCHECK]. step_ok.
  destruct Hsh1 as [_ _ Hcount Hnew Hcap _ _ _ _].
  rewrite store_cell_ok by lia. step_ok. eexists. split; [done|]. split; [|done].
  exists [[]]. split; [|by rewrite map_to_list_empty].
  split; [|by intros [|?] c e [= <-] ?%elem_of_nil|done]. split; cbn; try done; try lia.
  - intros [|i] c [= <-]. unfold bucket. cbn. rewrite load_store by lia. done.
  - by rewrite length_insert.
  - exists 0. unfold mask_for. lia.
Qed.

(** ** The contract *)
Inductive op := Insert (key : K) (v : V) | Index (key : K) | Assign (key : K) (v : V) | Erase (key : K) | At (key : K) | Clear.

Inductive answer := Inserted (b : bool) | Value (v : option V) | Erased (n : Z) | Done.

(** What the table does; [Assign] is [at(key) = v], which throws on a key that is missing. *)
Definition run_op (t : table) (o : op) : result (table * answer) :=
  match o with
  | Insert key v => '(t, b) ← insert t key v; Ok (t, Inserted b)
  | Index key => '(t, v) ← operator_index t key; Ok (t, Value (Some v))
  | Assign key v =>
      match find t key with
      | Ok (Some _) => t ← assign t key v; Ok (t, Value (Some v))
      | Ok None => Ok (t, Value None)
      | Abort => Abort
      end
  | Erase key => '(t, n) ← erase t key; Ok (t, Erased n)
  | At key => match at_ t key with Ok v => Ok (t, Value v) | Abort => Abort end
  | Clear => t ← clear t; Ok (t, Done)
  end.

(** What a finite map does. *)
Definition map_op (m : gmap K V) (o : op) : gmap K V * answer :=
  match o with
  | Insert key v => match m !! key with
                    | None => (<[key := v]> m, Inserted true)
                    | Some _ => (m, Inserted false)
                    end
  | Index key => (<[key := default T_ (m !! key)]> m, Value (Some (default T_ (m !! key))))
  | Assign key v => match m !! key with
                    | None => (m, Value None)
                    | Some _ => (<[key := v]> m, Value (Some v))
                    end
  | Erase key => (delete key m, Erased (if decide (m !! key = None) then 0 else 1))
  | At key => (m, Value (m !! key))
  | Clear => (∅, Done)
  end.

Lemma run_op_refines t m o : models t m → _bucket_capacity t * 4 < 2 ^ 60 →
  ∃ t', run_op t o = Ok (t', (map_op m o).2) ∧ models t' (map_op m o).1 ∧
    _bucket_count t' ≤ _bucket_count t + 2 ∧
    _bucket_capacity t' ≤ Z.max (_bucket_capacity t) (2 * (_bucket_count t + 1)).
Proof.
  intros Hm Hsmall. destruct o as [key v|key|key v|key|key|]; cbn [run_op map_op].
  - destruct (insert_ok t m key v Hm Hsmall) as (t' & -> & Hm' & Hb). step_ok. exists t'.
    destruct (m !! key); done.
  - destruct (index_ok t m key Hm Hsmall) as (t' & -> & Hm' & Hb). step_ok. eauto.
  - rewrite (find_ok t m key Hm). destruct (m !! key) as [v0|] eqn:E; cbn; [|exists t; split; [done|]; split; [done|]; lia].
    destruct (assign_ok t m key v v0 Hm E) as (t' & -> & Hm' & Hc & Hca). step_ok.
    exists t'. split; [done|]. split; [done|]. lia.
  - destruct (erase_ok t m key Hm) as (t' & -> & Hm' & Hc & Hca). step_ok.
    exists t'. split; [done|]. split; [done|]. lia.
  - unfold at_. rewrite (find_ok t m key Hm). exists t. rewrite <- option_fmap_compose.
    split; [by destruct (m !! key)|]. split; [done|]. lia.
  - destruct (clear_ok t m Hm) as (t' & -> & Hm' & Hc & Hca). step_ok. exists t'.
    destruct Hm as (bs & [Hsh _ _] & _). pose proof (sh_count 0 t bs Hsh).
    split; [done|]. split; [done|]. lia.
Qed.

Fixpoint run (t : table) (os : list op) : result (table * list answer) :=
  match os with
  | [] => Ok (t, [])
  | o :: os => '(t, a) ← run_op t o; '(t, l) ← run t os; Ok (t, a :: l)
  end.

Fixpoint map_run (m : gmap K V) (os : list op) : gmap K V * list answer :=
  match os with
  | [] => (m, [])
  | o :: os => let '(m', l) := map_run (map_op m o).1 os in (m', (map_op m o).2 :: l)
  end.

Lemma run_refines os : ∀ t m cap n, models t m → _bucket_count t ≤ 1 + 2 * n → 1 ≤ cap →
  _bucket_capacity t ≤ Z.max cap (4 * n + 4) → 0 ≤ n →
  4 * Z.max cap (4 * (n + Z.of_nat (length os)) + 4) < 2 ^ 60 →
  ∃ t', run t os = Ok (t', (map_run m os).2) ∧ models t' (map_run m os).1.
Proof.
  induction os as [|o os IH]; intros t m cap n Hm Hn Hcap Hc Hpos Hsmall; [by exists t|].
  cbn [run map_run]. rewrite length_cons in Hsmall.
  destruct (run_op_refines t m o Hm) as (t1 & -> & Hm1 & Hc1 & Hca1); [lia|]. step_ok.
  destruct (IH t1 _ cap (n + 1) Hm1) as (t' & -> & Hm'); [lia..|]. step_ok.
  exists t'. by destruct (map_run (map_op m o).1 os).
Qed.

(** ** Iteration *)

(** The walk to the next bucket that is not empty. *)
Lemma find_first_nonempty_ok n : ∀ t bs i, Shape 0 t bs → (i + n = length bs)%nat →
  ∃ j, find_first_nonempty n t (Z.of_nat i) = Ok (Z.of_nat j) ∧ concat (drop i bs) = concat (drop j bs) ∧
    (j = length bs ∨ ∃ e c, bs !! j = Some (e :: c)).
Proof.
  induction n as [|n IH]; intros t bs i Hsh Hn; cbn [find_first_nonempty].
  { exists i. split; [done|]. split; [done|]. left. lia. }
  destruct (lookup_lt_is_Some_2 bs i) as [c Hc]; [lia|]. rewrite (sh_cell 0 t bs Hsh i c Hc). step_ok.
  destruct c as [|e c]; [|exists i; eauto 10].
  replace (Z.of_nat i + 1) with (Z.of_nat (S i)) by lia.
  destruct (IH t bs (S i) Hsh) as (j & -> & Hd & Hj); [lia|]. exists j. by rewrite (drop_S bs [] i Hc).
Qed.

(** An iterator at [e], with [l] still to come. *)
Definition at_entry (bs : list chain) (e : entry) (l : list entry) : Prop :=
  ∃ i c p, bs !! i = Some c ∧ c !! p = Some e ∧ l = drop (S p) c ++ concat (drop (S i) bs).

Definition at_front (bs : list chain) (o : option entry) (l : list entry) : Prop :=
  match o with Some e => ∃ l', l = e :: l' ∧ at_entry bs e l' | None => l = [] end.

Lemma first_from_ok t bs i : Shape 0 t bs → (i ≤ length bs)%nat →
  ∃ o, first_from t (Z.of_nat i) = Ok o ∧ at_front bs o (concat (drop i bs)).
Proof.
  intros Hsh Hi. pose proof (sh_len 0 t bs Hsh) as Hlen. unfold first_from.
  replace (Z.to_nat (_bucket_count t - Z.of_nat i)) with (length bs - i)%nat by lia.
  destruct (find_first_nonempty_ok (length bs - i) t bs i Hsh) as (j & -> & -> & Hj); [lia|]. step_ok.
  destruct Hj as [->|(e & c & Hj)].
  - rewrite (proj2 (Z.leb_le _ _)) by lia. exists None. split; [done|]. by rewrite drop_ge.
  - pose proof (lookup_lt_Some _ _ _ Hj). rewrite (proj2 (Z.leb_gt _ _)) by lia.
    rewrite (sh_cell 0 t bs Hsh j _ Hj). step_ok. exists (Some e). split; [done|].
    rewrite (drop_S bs _ j Hj). cbn. exists (c ++ concat (drop (S j) bs)). split; [done|].
    exists j, (e :: c), 0%nat. done.
Qed.

Lemma walk_at c p e : NoDup (e_key <$> c) → c !! p = Some e → walk c (hash_code e) (e_key e) = p.
Proof.
  intros Hnd He. pose proof (walk_spec c (hash_code e) (e_key e)) as Hw.
  destruct (c !! walk c (hash_code e) (e_key e)) as [e'|] eqn:E.
  - destruct Hw as [_ Hk]. eapply NoDup_lookup; [done| |]; rewrite list_lookup_fmap; [by rewrite E|].
    rewrite He. cbn. by rewrite Hk.
  - destruct Hw as [_ Hno]. exfalso. apply (Hno e); [by eapply list_elem_of_lookup_2|done].
Qed.

Lemma models_nodup bs (m : gmap K V) : kv <$> concat bs ≡ₚ map_to_list m → NoDup (e_key <$> concat bs).
Proof.
  intros Hm. assert (e_key <$> concat bs = (kv <$> concat bs).*1) as -> by by rewrite <- list_fmap_compose.
  rewrite Hm. apply NoDup_fst_map_to_list.
Qed.

Lemma chain_nodup (bs : list chain) i c : NoDup (e_key <$> concat bs) → bs !! i = Some c → NoDup (e_key <$> c).
Proof.
  intros Hnd Hc. destruct (concat_insert bs i c Hc) as (rest & Hr & _). rewrite Hr, fmap_app in Hnd.
  by apply NoDup_app in Hnd as [? _].
Qed.

(** [operator++]. *)
Lemma next_ok t bs e l : Good t bs → NoDup (e_key <$> concat bs) → at_entry bs e l →
  ∃ o, next t e = Ok o ∧ at_front bs o l.
Proof.
  intros [Hsh Hp _] Hnd (i & c & p & Hc & He & ->). unfold next.
  destruct (Hp i c e Hc) as [_ ->]; [by eapply list_elem_of_lookup_2|].
  rewrite (sh_cell 0 t bs Hsh i c Hc). step_ok.
  rewrite (walk_at c p e) by eauto using chain_nodup. destruct (c !! S p) as [e'|] eqn:E.
  - exists (Some e'). split; [done|]. rewrite (drop_S c e' (S p) E). cbn. eexists. split; [done|].
    by exists i, c, (S p).
  - apply lookup_ge_None in E. rewrite drop_ge by done. cbn [app].
    replace (Z.of_nat i + 1) with (Z.of_nat (S i)) by lia. apply first_from_ok; [done|].
    apply lookup_lt_Some in Hc. lia.
Qed.

Lemma iterate_ok t bs l : Good t bs → NoDup (e_key <$> concat bs) → ∀ o n, at_front bs o l → (length l ≤ n)%nat →
  iterate n t o = Ok l.
Proof.
  intros Hg Hnd. induction l as [|e l IH]; intros [e'|] n Hf Hn; cbn in Hf.
  - by destruct Hf as (? & ? & _).
  - by destruct n.
  - destruct Hf as (l' & [= <- <-] & Ha). destruct n as [|n]; [cbn in Hn; lia|]. cbn [iterate].
    destruct (next_ok t bs e l Hg Hnd Ha) as (o & -> & Ho). step_ok. cbn in Hn. by rewrite (IH o n Ho) by lia.
  - done.
Qed.

Lemma elements_ok t bs : Good t bs → NoDup (e_key <$> concat bs) → elements t = Ok (concat bs).
Proof.
  intros Hg Hnd. pose proof Hg as [Hsh _ Hs]. unfold elements, begin.
  destruct (first_from_ok t bs 0 Hsh) as (o & E & Ho); [lia|]. change (Z.of_nat 0) with 0 in E. rewrite E. step_ok.
  rewrite drop_0 in Ho. apply (iterate_ok t bs); [done..|]. lia.
Qed.

(** *** Erasing while iterating *)
Lemma front_buckets (bs : list chain) n : ∀ i, (length bs - i ≤ n)%nat →
  at_front bs (head (concat (drop i bs))) (concat (drop i bs)).
Proof.
  induction n as [|n IH]; intros i Hn.
  { by rewrite drop_ge by lia. }
  destruct (bs !! i) as [c|] eqn:Hc; [|apply lookup_ge_None in Hc; by rewrite drop_ge].
  rewrite (drop_S bs c i Hc). destruct c as [|e c]; cbn [concat app head].
  - apply (IH (S i)). lia.
  - eexists. split; [done|]. by exists i, (e :: c), 0%nat.
Qed.

Lemma front_chain (bs : list chain) i c p : bs !! i = Some c →
  at_front bs (head (drop p c ++ concat (drop (S i) bs))) (drop p c ++ concat (drop (S i) bs)).
Proof.
  intros Hc. destruct (c !! p) as [e|] eqn:E.
  - rewrite (drop_S c e p E). cbn. eexists. split; [done|]. by exists i, c, p.
  - apply lookup_ge_None in E. rewrite drop_ge by done. cbn [app]. by eapply front_buckets.
Qed.

Lemma at_front_head bs o l : at_front bs o l → o = head l.
Proof. destruct o; cbn; [by intros (l' & -> & _)|by intros ->]. Qed.

(** Erasing the entry an iterator points to leaves the next one valid. *)
Lemma erase_at_entry t bs e l : Good t bs → NoDup (e_key <$> concat bs) → at_entry bs e l →
  ∃ t' bs', erase_at t (e_key e) = Ok t' ∧ Good t' bs' ∧ concat bs ≡ₚ e :: concat bs' ∧ at_front bs' (head l) l.
Proof.
  intros [Hsh Hp Hs] Hnd (i & c & p & Hc & He & ->).
  destruct (Hp i c e Hc) as [Hh Hb]; [by eapply list_elem_of_lookup_2|].
  unfold erase_at, erase, find_entry. rewrite <- Hh, Hb, (sh_cell 0 t bs Hsh i c Hc). step_ok.
  rewrite (walk_at c p e), He by eauto using chain_nodup.
  destruct (relink t bs i c (take p c ++ drop (S p) c) Hsh Hp Hc) as (t0 & -> & Hsh0 & Hp0 & (Hs0 & _)).
  { intros x Hx. left. rewrite <- (take_drop_middle c p e He). apply elem_of_app in Hx as [?|?]; apply elem_of_app;
      [by left|right; by right]. }
  step_ok. destruct (move_bucket_keeps 0 (with_size t0 (_size t0 - 1)) (<[i := take p c ++ drop (S p) c]> bs))
    as (t' & -> & Hsh' & Hp' & (Hs' & _)); [by apply Shape_with_size|done|]. step_ok. cbn [Z.eqb Pos.eqb SCHECK]. step_ok.
  destruct (chain_middle bs i c p e Hc He) as (rest & Hr & _ & Hdel).
  exists t', (<[i := take p c ++ drop (S p) c]> bs). split; [done|]. split; [|split].
  - split; [by apply (Shape_weaken (0 - 1))|done|]. rewrite Hdel, Hs'. cbn. rewrite Hs0, Hs, Hr. cbn. lia.
  - by rewrite Hdel.
  - pose proof (lookup_lt_Some _ _ _ Hc) as Hlt. pose proof (lookup_lt_Some _ _ _ He) as Hlp.
    pose proof (front_chain (<[i := take p c ++ drop (S p) c]> bs) i (take p c ++ drop (S p) c) p) as Hf.
    rewrite drop_insert_lt in Hf by lia. rewrite drop_app_length' in Hf by (rewrite length_take; lia).
    apply Hf. by rewrite list_lookup_insert_eq.
Qed.

Lemma erase_range_ok l : ∀ t bs o n, Good t bs → NoDup (e_key <$> concat bs) → at_front bs o l → (length l ≤ n)%nat →
  ∃ t' bs', erase_range n t o = Ok t' ∧ Good t' bs' ∧ concat bs ≡ₚ l ++ concat bs'.
Proof.
  induction l as [|e l IH]; intros t bs [e'|] n Hg Hnd Hf Hn; cbn in Hf.
  - by destruct Hf as (? & ? & _).
  - exists t, bs. by destruct n.
  - destruct Hf as (l' & [= <- <-] & Ha). destruct n as [|n]; [cbn in Hn; lia|]. cbn [erase_range].
    destruct (next_ok t bs e l Hg Hnd Ha) as (o & -> & ->%at_front_head). step_ok.
    destruct (erase_at_entry t bs e l Hg Hnd Ha) as (t1 & bs1 & -> & Hg1 & Hb1 & Hf1). step_ok. cbn in Hn.
    rewrite Hb1 in Hnd. apply NoDup_cons in Hnd as [_ Hnd].
    destruct (IH t1 bs1 (head l) n Hg1 Hnd Hf1) as (t' & bs' & -> & Hg' & Hb'); [lia|].
    exists t', bs'. split; [done|]. split; [done|]. by rewrite Hb1, Hb'.
  - done.
Qed.

(** *** Copying *)
Lemma insert_all_ok l : ∀ t m cap n, models t m → _bucket_count t ≤ 1 + 2 * n → 1 ≤ cap →
  _bucket_capacity t ≤ Z.max cap (4 * n + 4) → 0 ≤ n →
  4 * Z.max cap (4 * (n + Z.of_nat (length l)) + 4) < 2 ^ 60 →
  NoDup (e_key <$> l) → (∀ e, e ∈ l → m !! e_key e = None) →
  ∃ t' m', insert_all t l = Ok t' ∧ models t' m' ∧ map_to_list m' ≡ₚ map_to_list m ++ (kv <$> l).
Proof.
  induction l as [|e l IH]; intros t m cap n Hm Hn Hcap Hc Hpos Hsmall Hnd Hno; cbn [insert_all].
  { exists t, m. cbn. by rewrite app_nil_r. }
  rewrite length_cons in Hsmall. rewrite fmap_cons in Hnd. apply NoDup_cons in Hnd as [Hfresh Hnd].
  assert (He : m !! e_key e = None) by (apply Hno; by left).
  destruct (insert_ok t m (e_key e) (e_val e) Hm) as (t1 & -> & Hm1 & Hc1 & Hca1); [lia|]. step_ok.
  rewrite decide_True in Hm1 by done.
  destruct (IH t1 _ cap (n + 1) Hm1) as (t' & m' & E & Hm' & Hp); [lia..|done| |].
  { intros x Hx. rewrite lookup_insert_ne; [apply Hno; by right|].
    intros Ex. apply Hfresh. rewrite Ex. by apply list_elem_of_fmap_2. }
  exists t', m'. split; [done|]. split; [done|]. rewrite Hp, map_to_list_insert by done. cbn.
  by rewrite Permutation_middle.
Qed.

(** An iteration visits every entry exactly once and ends.  So a copy, made by iterating
    over the other table, represents the same map, and erasing every entry the iterator
    comes by empties the table. *)
Lemma table_iterates t m : models t m → Z.of_nat (size m) < 2 ^ 55 →
  (∃ l, elements t = Ok l ∧ kv <$> l ≡ₚ map_to_list m) ∧
  (∃ t', copy_construct t = Ok t' ∧ models t' m) ∧
  (∀ u mu, models u mu → _bucket_capacity u < 2 ^ 57 → ∃ u', copy_assign u t = Ok u' ∧ models u' m) ∧
  (∃ e t', begin t = Ok e ∧ erase_range (size m) t e = Ok t' ∧ models t' ∅).
Proof.
  intros (bs & Hg & Hm) Hs. pose proof (models_nodup bs m Hm) as Hnd.
  pose proof (elements_ok t bs Hg Hnd) as He.
  assert (Hlen : length (concat bs) = size m) by (by rewrite <- length_map_to_list, <- Hm, length_fmap).
  assert (Hcopy : ∀ u cap, models u ∅ → _bucket_count u = 1 → 1 ≤ cap < 2 ^ 57 → _bucket_capacity u ≤ cap →
    ∃ u', insert_all u (concat bs) = Ok u' ∧ models u' m).
  { intros u cap Hu Hc Hcap Hca. destruct (insert_all_ok (concat bs) u ∅ cap 0 Hu) as (u' & m' & Eu & Hu' & Hp); [lia..|done|done|].
    exists u'. split; [done|]. rewrite map_to_list_empty in Hp. cbn [app] in Hp. rewrite Hm in Hp.
    by apply map_to_list_inj in Hp as ->. }
  split; [by exists (concat bs)|]. split; [|split].
  - unfold copy_construct. destruct (HashTable_ok 1) as (u & -> & Hu & Hc & Hca); [lia|]. step_ok.
    rewrite He. step_ok. apply (Hcopy u 1); try done; lia.
  - intros u mu Hu Hcap. unfold copy_assign. destruct (clear_ok u mu Hu) as (u1 & -> & Hu1 & Hc & Hca). step_ok.
    rewrite He. step_ok. destruct Hu as (bu & [Hsh _ _] & _). pose proof (sh_count 0 u bu Hsh).
    apply (Hcopy u1 (_bucket_capacity u)); try done; lia.
  - destruct (first_from_ok t bs 0 (good_shape t bs Hg)) as (o & E & Ho); [lia|]. rewrite drop_0 in Ho.
    destruct (erase_range_ok (concat bs) t bs o (size m) Hg Hnd Ho) as (t' & bs' & E' & Hg' & Hb); [lia|].
    exists o, t'. split; [done|]. split; [done|]. exists bs'. split; [done|].
    rewrite map_to_list_empty.
    assert (concat bs' = []) as ->; [|done]. apply nil_length_inv. apply Permutation_length in Hb.
    rewrite length_app in Hb. lia.
Qed.

Lemma map_run_size os : ∀ m, (size (map_run m os).1 ≤ size m + length os)%nat.
Proof.
  induction os as [|o os IH]; intros m; cbn [map_run length]; [cbn; lia|].
  specialize (IH (map_op m o).1). destruct (map_run (map_op m o).1 os). cbn [fst] in *.
  assert (size (map_op m o).1 ≤ size m + 1)%nat; [|lia].
  assert (Hi : ∀ k (v : V), (size (<[k := v]> m) ≤ size m + 1)%nat).
  { intros k v. rewrite map_size_insert. unfold id. case_match; lia. }
  assert (Hd : ∀ k, (size (delete k m) ≤ size m)%nat) by (intros k; rewrite map_size_delete; unfold id; case_match; lia).
  destruct o; cbn [map_op]; repeat case_match; cbn [fst]; try apply Hi; try lia; try (etrans; [apply Hd|lia]).
  rewrite map_size_empty. lia.
Qed.

End hash_table.

(** ** Witnesses and the trouble with [reserve] *)
Definition id_hash (k : Z) : Z := u64 k.


Fixpoint fill (t : @table Z Z) (n : nat) : result table :=
  match n with O => Ok t | S n => t ← fill t n; '(t, _) ← insert id_hash t (Z.of_nat n) 0; Ok t end.

(** [reserve] does not work on a table in use.  While buckets are still being moved
    it fails its check: already after one insertion into a fresh table.  And when it
    succeeds with less than twice the buckets in use, the table fills up before it has
    been moved, and an ordinary insertion later fails the same check; without the call
    it would have succeeded.  A table made with room for nothing is written outside its
    array at once. *)
Theorem reserve_breaks_table :
  HashTable_ (K := Z) (V := Z) 0 = Abort ∧
  (∀ size, 4 < size → (t ← HashTable_ 1; t ← fill t 1; reserve t size) = Abort) ∧
  (t ← HashTable_ 3; t ← fill t 1; t ← reserve t 4; Ok (_bucket_capacity t)) = Ok 4 ∧
  (t ← HashTable_ 3; t ← fill t 1; t ← reserve t 4; '(t, _) ← insert id_hash t 7 0;
   '(t, _) ← insert id_hash t 8 0; Ok (_size t)) = Abort ∧
  (t ← HashTable_ 3; t ← fill t 1; '(t, _) ← insert id_hash t 7 0;
   '(t, _) ← insert id_hash t 8 0; Ok (_size t)) = Ok 3.
Proof.
  split; [done|]. split; [|repeat split; by vm_compute]. intros size Hs.
  assert (∃ t, (t ← HashTable_ 1; fill t 1) = Ok t ∧ _bucket_capacity t = 4 ∧ _new_begin t = 1) as (t & E & Hc & Hn).
  { eexists. split; [by vm_compute|done]. }
  destruct (HashTable_ 1) as [t0|]; [|done]. cbn [mbind result_bind] in *. rewrite E.
  cbn [mbind result_bind]. unfold reserve. rewrite Hc, Hn. by rewrite (proj2 (Z.leb_gt _ _)) by lia.
Qed.
