(* ===== verification/LruCache.v ===== *)
(** * The cache of recently used items

    src/src/misc/LRUCache.h: a hash map whose entries point to the nodes of a doubly
    linked list in the order of their use.  An insertion evicts the node at the tail when
    there are too many items or they use too much memory; a look-up removes an item that
    is too old or was accessed too often.

    The calls run one at a time: [_lock] is an [RWSpinLock] (SpinLock.v), which [insert]
    and [clear] hold exclusively.  Whether [try_upgrade] succeeds and what [std::time]
    returns are arguments.  The nodes live in a heap; an access to an address that is not
    allocated is [Abort]. *)
From S2P Require Import Prelude.

Abbreviation addr_t := nat.

Section cache.
Context {K V : Type} `{Countable K}.
(** [VALUE_MEMORY_USAGE_FN] and the four limits of the constructor. *)
Context (usage : V → Z).
Context (_max_item_count _max_item_memory_usage _item_ttl_sec _item_max_access_count : Z).

Record ListNode := MkNode {
  _key : K;
  _value_memory_usage : Z;
  _prev : option addr_t;
  _next : option addr_t;
}.

(** [_access_count] is shared by the copies of a [HashMapValue]: one counter per item. *)
Record HashMapValue := MkValue {
  _value : V;
  _node : addr_t;
  _access_count : Z;
  _insert_timestamp_sec : Z;
}.

Record cache := Cache {
  nodes : gmap addr_t ListNode;
  _hashmap : gmap K HashMapValue;
  _head : option addr_t;
  _tail : option addr_t;
  _item_count : Z;
  _item_memory_usage : Z;
}.

Definition LRUCache_ : cache := Cache ∅ ∅ None None 0 0.

Definition with_nodes (s : cache) (h : gmap addr_t ListNode) : cache :=
  Cache h (_hashmap s) (_head s) (_tail s) (_item_count s) (_item_memory_usage s).
Definition with_map (s : cache) (m : gmap K HashMapValue) : cache :=
  Cache (nodes s) m (_head s) (_tail s) (_item_count s) (_item_memory_usage s).
Definition with_ends (s : cache) (head tail : option addr_t) : cache :=
  Cache (nodes s) (_hashmap s) head tail (_item_count s) (_item_memory_usage s).
Definition with_counts (s : cache) (n u : Z) : cache :=
  Cache (nodes s) (_hashmap s) (_head s) (_tail s) n u.

Definition load (s : cache) (a : addr_t) : result ListNode :=
  match nodes s !! a with Some n => Ok n | None => Abort end.
Definition store (s : cache) (a : addr_t) (n : ListNode) : cache := with_nodes s (<[a := n]> (nodes s)).

(** [p->_next = q] and [p->_prev = q] unless [p] is null. *)
Definition set_next (s : cache) (p q : option addr_t) : result cache :=
  match p with
  | Some p => n ← load s p; Ok (store s p (MkNode (_key n) (_value_memory_usage n) (_prev n) q))
  | None => Ok s
  end.
Definition set_prev (s : cache) (p q : option addr_t) : result cache :=
  match p with
  | Some p => n ← load s p; Ok (store s p (MkNode (_key n) (_value_memory_usage n) q (_next n)))
  | None => Ok s
  end.

Definition _delink_node (s : cache) (node : addr_t) : result cache :=
  n ← load s node;
  let s := if decide (_tail s = Some node) then with_ends s (_head s) (_prev n) else s in
  let s := if decide (_head s = Some node) then with_ends s (_next n) (_tail s) else s in
  s ← set_next s (_prev n) (_next n);
  s ← set_prev s (_next n) (_prev n);
  n ← load s node;
  Ok (store s node (MkNode (_key n) (_value_memory_usage n) None None)).

Definition _push_node_to_front (s : cache) (node : addr_t) : result cache :=
  s ← set_prev s (_head s) (Some node);
  n ← load s node;
  let s := store s node (MkNode (_key n) (_value_memory_usage n) None (_head s)) in
  let s := with_ends s (Some node) (_tail s) in
  Ok (match _tail s with None => with_ends s (_head s) (_head s) | Some _ => s end).

Definition _evict (s : cache) (node : option addr_t) : result cache :=
  match node with
  | None => Ok s
  | Some node =>
      s ← _delink_node s node;
      n ← load s node;
      let s := with_counts s (u64 (_item_count s - 1)) (u64 (_item_memory_usage s - _value_memory_usage n)) in
      let s := with_map s (delete (_key n) (_hashmap s)) in
      Ok (with_nodes s (delete node (nodes s)))
  end.

(** The parameters are [size_t]; the subtraction of the times is unsigned. *)
Definition _item_outdated (now current_access_count insert_timestamp_sec : Z) : bool :=
  (negb (_item_max_access_count =? 0) && (_item_max_access_count <=? u64 current_access_count)) ||
  (negb (_item_ttl_sec =? 0) && (_item_ttl_sec <=? u64 (now - insert_timestamp_sec))).

Definition _need_to_evict (s : cache) : bool :=
  (negb (_max_item_count =? 0) && (_max_item_count <? _item_count s)) ||
  (negb (_max_item_memory_usage =? 0) && (_max_item_memory_usage <? _item_memory_usage s)).

(** [++( *_access_count)]. *)
Definition accessed (v : HashMapValue) : HashMapValue :=
  MkValue (_value v) (_node v) (i32 (_access_count v + 1)) (_insert_timestamp_sec v).

(** [find(key, value)]: the value when it returns true.  [now] and [now'] are what the two
    calls of [std::time] return. *)
Definition find (s : cache) (key : K) (now now' : Z) (upgraded : bool) : result (cache * option V) :=
  match _hashmap s !! key with
  | None => Ok (s, None)
  | Some it =>
      let it := accessed it in
      let s := with_map s (<[key := it]> (_hashmap s)) in
      if _item_outdated now (_access_count it) (_insert_timestamp_sec it) then
        s ← match _hashmap s !! key with
            | Some iter =>
                if _item_outdated now' (_access_count iter) (_insert_timestamp_sec iter)
                then _evict s (Some (_node iter)) else Ok s
            | None => Ok s
            end;
        Ok (s, Some (_value it))
      else if upgraded then
        s ← _delink_node s (_node it);
        s ← _push_node_to_front s (_node it);
        Ok (s, Some (_value it))
      else Ok (s, Some (_value it))
  end.

(** [insert(key, value)]; [fresh] is the address [new ListNode] returns, [now] the time. *)
Definition insert (s : cache) (key : K) (value : V) (fresh : addr_t) (now : Z) : result cache :=
  let '(s, node) :=
    match _hashmap s !! key with
    | Some it => (s, _node it)
    | None => (store s fresh (MkNode key 0 None None), fresh)
    end in
  s ← (if _need_to_evict s then _evict s (_tail s) else Ok s);
  n ← load s node;
  let s := store s node (MkNode (_key n) (usage value) (_prev n) (_next n)) in
  let s := match _hashmap s !! key with
           | Some _ => s
           | None => with_map s (<[key := MkValue value node 0 now]> (_hashmap s))
           end in
  s ← _delink_node s node;
  s ← _push_node_to_front s node;
  let s := with_counts s (u64 (_item_count s + 1)) (u64 (_item_memory_usage s + usage value)) in
  if _need_to_evict s then _evict s (_tail s) else Ok s.

(** The loop of [clear]: the nodes from [node] on are deleted. *)
Fixpoint delete_from (fuel : nat) (s : cache) (node : option addr_t) : result cache :=
  match fuel, node with
  | _, None => Ok s
  | O, Some _ => Abort
  | S fuel, Some cur =>
      n ← load s cur;
      delete_from fuel (with_nodes s (delete cur (nodes s))) (_next n)
  end.

Definition clear (s : cache) : result cache :=
  let s := with_map s ∅ in
  s ← delete_from (S (size (nodes s))) s (_head s);
  Ok (with_ends (with_counts s 0 0) None None).

(** ** Doubly linked segments *)

(** The nodes at the addresses [al] are linked to each other, the first one back to [pp]
    and the last one on to [qn]. *)
Definition hd_or (al : list addr_t) (qn : option addr_t) : option addr_t :=
  match al with [] => qn | a :: _ => Some a end.
Fixpoint last_or (al : list addr_t) (pp : option addr_t) : option addr_t :=
  match al with [] => pp | a :: al => last_or al (Some a) end.

Fixpoint dseg (h : gmap addr_t ListNode) (pp : option addr_t) (al : list addr_t) (qn : option addr_t) : Prop :=
  match al with
  | [] => True
  | a :: al => (∃ n, h !! a = Some n ∧ _prev n = pp ∧ _next n = hd_or al qn) ∧ dseg h (Some a) al qn
  end.

Lemma hd_or_none al : hd_or al None = head al.
Proof. by destruct al. Qed.
Lemma last_or_last al pp : last_or al pp = match last al with Some a => Some a | None => pp end.
Proof.
  revert pp. induction al as [|a al IH]; intros pp; [done|]. cbn [last_or]. rewrite IH.
  destruct al as [|b al]; [done|]. rewrite last_cons_cons. by destruct (last (b :: al)) eqn:E; [|apply last_None in E].
Qed.
Lemma last_or_none al : last_or al None = last al.
Proof. rewrite last_or_last. by destruct (last al). Qed.

Lemma dseg_app h al bl pp qn :
  dseg h pp (al ++ bl) qn ↔ dseg h pp al (hd_or bl qn) ∧ dseg h (last_or al pp) bl qn.
Proof.
  revert pp. induction al as [|a al IH]; intros pp; cbn [dseg app last_or]; [naive_solver|]. rewrite IH.
  assert (hd_or (al ++ bl) qn = hd_or al (hd_or bl qn)) as -> by by destruct al. naive_solver.
Qed.

Lemma dseg_ext h h' pp al qn : (∀ a, a ∈ al → h' !! a = h !! a) → dseg h pp al qn → dseg h' pp al qn.
Proof.
  revert pp. induction al as [|a al IH]; intros pp Hh; [done|]. cbn [dseg]. intros [Ha Hd].
  split; [rewrite Hh; [done|left]|]. apply IH; [|done]. intros b Hb. apply Hh. by right.
Qed.

(** What the links do not touch. *)
Definition data (n : ListNode) : K * Z := (_key n, _value_memory_usage n).
Definition same_data (h h' : gmap addr_t ListNode) : Prop := ∀ a, data <$> h' !! a = data <$> h !! a.

Lemma same_data_trans h1 h2 h3 : same_data h1 h2 → same_data h2 h3 → same_data h1 h3.
Proof. intros H1 H2 a. by rewrite H2. Qed.

Lemma same_data_insert h a n n' : h !! a = Some n → data n' = data n → same_data h (<[a := n']> h).
Proof.
  intros Ha Hn b. destruct (decide (b = a)) as [->|]; [by rewrite lookup_insert_eq, Ha; cbn; rewrite Hn|].
  by rewrite lookup_insert_ne.
Qed.

Lemma set_next_ok s al pp qn q :
  dseg (nodes s) pp al qn → NoDup al →
  ∃ h, set_next s (last al) q = Ok (with_nodes s h) ∧ dseg h pp al q ∧ same_data (nodes s) h ∧
    (∀ b, b ∉ al → h !! b = nodes s !! b).
Proof.
  intros Hd Hnd. destruct (last al) as [b|] eqn:Hl; cbn [set_next].
  - apply last_Some in Hl as [al' ->]. apply dseg_app in Hd as [Hd [(n&Hn&Hp&_) _]]. unfold load. rewrite Hn. step_ok.
    apply NoDup_app in Hnd as (_&Hnot&_). eexists. split; [reflexivity|]. split; [|split].
    + apply dseg_app. split; [|split; [|done]].
      * eapply dseg_ext; [|exact Hd]. intros a Ha. rewrite lookup_insert_ne; [done|]. intros <-. apply (Hnot b Ha). left.
      * eexists. rewrite lookup_insert_eq. by split.
    + by eapply same_data_insert.
    + intros a Ha. rewrite lookup_insert_ne; [done|]. intros <-. apply Ha. apply elem_of_app. right. left.
  - apply last_None in Hl. subst al. exists (nodes s). split; [by destruct s|]. split; [done|]. by split.
Qed.

Lemma set_prev_ok s al pp qn p :
  dseg (nodes s) pp al qn → NoDup al →
  ∃ h, set_prev s (head al) p = Ok (with_nodes s h) ∧ dseg h p al qn ∧ same_data (nodes s) h ∧
    (∀ b, b ∉ al → h !! b = nodes s !! b).
Proof.
  intros Hd Hnd. destruct al as [|b al]; cbn [head set_prev].
  - exists (nodes s). split; [by destruct s|]. split; [done|]. by split.
  - destruct Hd as [(n&Hn&_&Hx) Hd]. unfold load. rewrite Hn. step_ok. apply NoDup_cons in Hnd as [Hnot _].
    eexists. split; [reflexivity|]. split; [|split].
    + split; [eexists; rewrite lookup_insert_eq; by split|]. eapply dseg_ext; [|exact Hd].
      intros a Ha. rewrite lookup_insert_ne; [done|]. by intros <-.
    + by eapply same_data_insert.
    + intros a Ha. rewrite lookup_insert_ne; [done|]. intros <-. apply Ha. left.
Qed.

(** The list of a cache. *)
Record Linked (s : cache) (al : list addr_t) : Prop := {
  li_seg : dseg (nodes s) None al None;
  li_head : _head s = head al;
  li_tail : _tail s = last al;
  li_nodup : NoDup al;
}.

(** Everything but the links of the nodes in [al]. *)
Record Kept (al : list addr_t) (s s' : cache) : Prop := {
  ke_frame a : a ∉ al → nodes s' !! a = nodes s !! a;
  ke_data : same_data (nodes s) (nodes s');
  ke_map : _hashmap s' = _hashmap s;
  ke_counts : _item_count s' = _item_count s ∧ _item_memory_usage s' = _item_memory_usage s;
}.

Lemma delink_in s al a bl :
  Linked s (al ++ a :: bl) → ∃ s', _delink_node s a = Ok s' ∧ Linked s' (al ++ bl) ∧ Kept (al ++ a :: bl) s s'.
Proof.
  intros [Hd Hh Ht Hnd]. apply dseg_app in Hd as [Hal [(n&Hn&Hp&Hx) Hbl]].
  rewrite last_or_none in Hp. rewrite hd_or_none in Hx. cbn [hd_or] in Hal.
  pose proof Hnd as (Hnal&Hdis&[Ha Hnbl]%NoDup_cons)%NoDup_app.
  assert (Haal : a ∉ al) by (intros Hin; apply (Hdis a Hin); left).
  unfold _delink_node, load. rewrite Hn. step_ok. cbn zeta.
  set (s1 := if decide _ then _ else s). set (s2 := if decide _ then _ else s1).
  assert (Hn2 : nodes s2 = nodes s) by (unfold s2, s1; repeat case_decide; done).
  assert (H2 : _head s2 = head (al ++ bl) ∧ _tail s2 = last (al ++ bl) ∧
    _hashmap s2 = _hashmap s ∧ _item_count s2 = _item_count s ∧ _item_memory_usage s2 = _item_memory_usage s).
  { split; [|split; [|unfold s2, s1; repeat case_decide; done]].
    - assert (Hh1 : _head s1 = _head s) by (unfold s1; by case_decide). unfold s2. rewrite Hh1, Hh.
      destruct al as [|b al]; cbn [app head]; case_decide as E; cbn [with_ends _head]; try done.
      + injection E as ->. by destruct Haal; left.
      + by rewrite Hh1, Hh.
    - assert (_tail s2 = _tail s1) as -> by (unfold s2; by case_decide). unfold s1. rewrite Ht, !last_app.
      destruct bl as [|b bl]; [cbn [last]; by rewrite decide_True|]. rewrite last_cons_cons.
      destruct (last (b :: bl)) as [c|] eqn:E; [|by apply last_None in E]. rewrite decide_False; [by rewrite Ht, last_app, last_cons_cons, E|].
      intros [= ->]. apply Ha. by apply last_Some_elem_of. }
  destruct H2 as (Hh2&Ht2&Hm2&Hc2&Hu2). rewrite Hp, Hx. rewrite <- Hn2 in Hal, Hbl, Hn.
  destruct (set_next_ok s2 al None (Some a) (head bl) Hal Hnal) as (h3&->&Hal3&Hs3&Ho3). step_ok.
  assert (Hbl3 : dseg h3 (Some a) bl None).
  { eapply dseg_ext; [|exact Hbl]. intros b Hb. apply Ho3. intros Hin. apply (Hdis b Hin). by right. }
  destruct (set_prev_ok (with_nodes s2 h3) bl (Some a) None (last al) Hbl3 Hnbl) as (h4&->&Hbl4&Hs4&Ho4). step_ok.
  cbn [with_nodes nodes] in *. assert (Hal4 : dseg h4 None al (head bl)).
  { eapply dseg_ext; [|exact Hal3]. intros b Hb. apply Ho4. intros Hin. apply (Hdis b Hb). by right. }
  rewrite (Ho4 a Ha), (Ho3 a Haal), Hn. step_ok. eexists. split; [reflexivity|].
  assert (Hne : ∀ b, b ∈ al ++ bl → a ≠ b) by (intros b [?|?]%elem_of_app ->; done).
  split; [split|split]; cbn [store with_nodes nodes _head _tail _hashmap _item_count _item_memory_usage]; try done.
  - apply dseg_app. rewrite hd_or_none, last_or_none. split; (eapply dseg_ext; [|eassumption]);
      intros b Hb; rewrite lookup_insert_ne; [done|apply Hne, elem_of_app; auto|done|apply Hne, elem_of_app; auto].
  - apply NoDup_app. split; [done|]. split; [|done]. intros b Hb Hb'. apply (Hdis b Hb). by right.
  - intros b Hb. rewrite lookup_insert_ne by (intros <-; apply Hb, elem_of_app; right; left).
    rewrite Ho4, Ho3, Hn2; [done|..]; intros Hin; apply Hb, elem_of_app; [by left|right; by right].
  - rewrite Hn2 in Hs3. eapply same_data_trans; [exact Hs3|]. eapply same_data_trans; [exact Hs4|].
    eapply same_data_insert; [by rewrite (Ho4 a Ha), (Ho3 a Haal)|done].
Qed.

(** A node that is in no list. *)
Lemma delink_out s al a n :
  Linked s al → a ∉ al → nodes s !! a = Some n → _prev n = None → _next n = None → _delink_node s a = Ok s.
Proof.
  intros [_ Hh Ht _] Ha Hn Hp Hx. unfold _delink_node, load. rewrite Hn. step_ok. cbn zeta.
  assert (Ht' : _tail s ≠ Some a) by (rewrite Ht; intros E%last_Some_elem_of; done).
  assert (Hh' : _head s ≠ Some a) by (rewrite Hh; intros E%head_Some_elem_of; done).
  rewrite (decide_False (P := _tail s = Some a)), (decide_False (P := _head s = Some a)) by done. rewrite Hp, Hx. cbn [set_next set_prev]. step_ok.
  rewrite Hn. step_ok. unfold store. destruct n; cbn in *; subst. rewrite insert_id by done. by destruct s.
Qed.

Lemma push_front_ok s al a n :
  Linked s al → a ∉ al → nodes s !! a = Some n →
  ∃ s', _push_node_to_front s a = Ok s' ∧ Linked s' (a :: al) ∧ Kept (a :: al) s s'.
Proof.
  intros [Hd Hh Ht Hnd] Ha Hn. unfold _push_node_to_front. rewrite Hh.
  destruct (set_prev_ok s al None None (Some a) Hd Hnd) as (h1&->&Hd1&Hs1&Ho1). step_ok.
  unfold load. cbn [with_nodes nodes]. rewrite (Ho1 a Ha), Hn. step_ok. eexists. split; [reflexivity|].
  cbn [store with_nodes with_ends _head _tail nodes]. rewrite Hh, Ht.
  assert (Hd2 : dseg (<[a := MkNode (_key n) (_value_memory_usage n) None (head al)]> h1) None (a :: al) None).
  { split; [eexists; rewrite lookup_insert_eq, hd_or_none; by split|]. eapply dseg_ext; [|exact Hd1].
    intros b Hb. rewrite lookup_insert_ne; [done|]. by intros <-. }
  assert (Hsd : same_data (nodes s) (<[a := MkNode (_key n) (_value_memory_usage n) None (head al)]> h1)).
  { eapply same_data_trans; [exact Hs1|]. eapply same_data_insert; [by rewrite (Ho1 a Ha)|done]. }
  assert (Hnd' : NoDup (a :: al)) by by apply NoDup_cons.
  assert (Hfr : ∀ b, b ∉ a :: al →
    <[a := MkNode (_key n) (_value_memory_usage n) None (head al)]> h1 !! b = nodes s !! b).
  { intros b [? ?]%not_elem_of_cons. rewrite lookup_insert_ne by done. by apply Ho1. }
  destruct (last al) as [b|] eqn:El; (split; [split; cbn|split; cbn]); try done.
  - destruct al; [done|]. by rewrite last_cons_cons.
  - apply last_None in El. by subst al.
Qed.

(** ** The specification

    A cache is a list of items, the most recently used one first. *)
Record item := Item { i_key : K; i_value : V; i_count : Z; i_time : Z }.

Definition total (l : list item) : Z := foldr (λ i z, usage (i_value i) + z) 0 l.

Definition over (l : list item) : bool :=
  (negb (_max_item_count =? 0) && (_max_item_count <? Z.of_nat (length l))) ||
  (negb (_max_item_memory_usage =? 0) && (_max_item_memory_usage <? total l)).
Definition shrink (l : list item) : list item := if over l then removelast l else l.

Definition spec_insert (l : list item) (key : K) (value : V) (now : Z) : list item :=
  shrink (Item key value 0 now :: shrink l).

Definition outdated (now : Z) (i : item) : bool := _item_outdated now (i_count i) (i_time i).
Definition used (i : item) : item := Item (i_key i) (i_value i) (i32 (i_count i + 1)) (i_time i).

(** The item with a key, and those before and after it. *)
Fixpoint split_at (l : list item) (key : K) : option (list item * item * list item) :=
  match l with
  | [] => None
  | i :: l =>
      if decide (i_key i = key) then Some ([], i, l)
      else '(l1, j, l2) ← split_at l key; Some (i :: l1, j, l2)
  end.

Definition spec_find (l : list item) (key : K) (now now' : Z) (upgraded : bool) : list item * option V :=
  match split_at l key with
  | None => (l, None)
  | Some (l1, i, l2) =>
      (if outdated now (used i) then if outdated now' (used i) then l1 ++ l2 else l1 ++ used i :: l2
       else if upgraded then used i :: l1 ++ l2
       else l1 ++ used i :: l2,
       Some (i_value i))
  end.

(** ** The invariant *)

(** The nodes, the hash map and the counters describe the items of [L]; the nodes at [X]
    are in no list. *)
Record Data (X : list addr_t) (s : cache) (L : list (addr_t * item)) : Prop := {
  da_dom a : is_Some (nodes s !! a) → a ∈ L.*1 ++ X;
  da_node a i : (a, i) ∈ L → data <$> nodes s !! a = Some (i_key i, usage (i_value i));
  da_addrs : NoDup L.*1;
  da_keys : NoDup (i_key <$> L.*2);
  da_map k v : _hashmap s !! k = Some v ↔
    ∃ a i, (a, i) ∈ L ∧ i_key i = k ∧ v = MkValue (i_value i) a (i_count i) (i_time i);
  da_count : _item_count s = Z.of_nat (length L) ∧ Z.of_nat (length L) < 2 ^ 64;
  da_usage : _item_memory_usage s = total L.*2 ∧ total L.*2 < 2 ^ 64;
}.

Definition Rep (X : list addr_t) (s : cache) (L : list (addr_t * item)) : Prop := Linked s L.*1 ∧ Data X s L.

Lemma total_perm l l' : l ≡ₚ l' → total l = total l'.
Proof. unfold total. induction 1; cbn [foldr]; lia. Qed.

Lemma data_perm X s L L' : L ≡ₚ L' → Data X s L → Data X s L'.
Proof.
  intros Hp [Hd Hn Ha Hk Hm Hc Hu].
  assert (H2 : L.*2 ≡ₚ L'.*2) by by apply fmap_Permutation. split.
  - intros a Hs. rewrite <- Hp. by apply Hd.
  - intros a i. rewrite <- Hp. apply Hn.
  - by rewrite <- Hp.
  - by rewrite <- H2.
  - intros k v. rewrite Hm. by setoid_rewrite Hp.
  - by rewrite <- (Permutation_length Hp).
  - by rewrite <- (total_perm _ _ H2).
Qed.

Lemma data_kept X al s s' L : Kept al s s' → Data X s L → Data X s' L.
Proof.
  intros [_ Hsd Hm [Hc Hu]] [Hd Hn Ha Hk Hmap Hcn Hus]. split; rewrite ?Hm, ?Hc, ?Hu; try done.
  - intros a [n Hs]. apply Hd. specialize (Hsd a). rewrite Hs in Hsd. by destruct (nodes s !! a).
  - intros a i Hin. rewrite Hsd. by apply Hn.
Qed.

Lemma data_unique X s L a i b j : Data X s L → (a, i) ∈ L → (b, j) ∈ L → i_key i = i_key j → (a, i) = (b, j).
Proof.
  intros Hd [x Hx]%list_elem_of_lookup [y Hy]%list_elem_of_lookup Hk.
  assert (x = y) as ->; [|congruence]. eapply NoDup_lookup; [apply (da_keys _ _ _ Hd)|..];
    rewrite !list_lookup_fmap, ?Hx, ?Hy; cbn; [reflexivity|by rewrite Hk].
Qed.

Lemma total_nonneg l : (∀ v, 0 ≤ usage v) → 0 ≤ total l.
Proof. intros Hu. unfold total. induction l as [|i l IH]; cbn [foldr]; [done|]. pose proof (Hu (i_value i)). lia. Qed.

Lemma data_removed X s a i L hd tl :
  (∀ v, 0 ≤ usage v) → Data X s ((a, i) :: L) →
  Data X (Cache (delete a (nodes s)) (delete (i_key i) (_hashmap s)) hd tl
    (u64 (_item_count s - 1)) (u64 (_item_memory_usage s - usage (i_value i)))) L.
Proof.
  intros Hpos HD. pose proof HD as [Hd Hn Ha Hk Hm [Hc Hcb] [Hu Hub]]. rewrite !fmap_cons in *. cbn [fst snd] in *.
  apply NoDup_cons in Ha as [Hai Ha]. apply NoDup_cons in Hk as [Hki Hk].
  assert (Hne : ∀ b j, (b, j) ∈ L → b ≠ a ∧ i_key j ≠ i_key i).
  { intros b j Hin. split; intros E; [apply Hai|apply Hki]; rewrite <- E;
      [apply list_elem_of_fmap; by exists (b, j)|]. apply list_elem_of_fmap. exists j. split; [done|].
    apply list_elem_of_fmap. by exists (b, j). }
  pose proof (total_nonneg L.*2 Hpos). cbn [length total foldr] in *. fold (total L.*2) in *.
  split; cbn [nodes _hashmap _item_count _item_memory_usage]; try done.
  - intros b [n Hb]. apply lookup_delete_Some in Hb as [Hba Hb]. cbn [app] in Hd.
    assert (b ∈ a :: L.*1 ++ X) as Hin by (apply Hd; by eexists). by apply elem_of_cons in Hin as [?|?].
  - intros b j Hin. destruct (Hne b j Hin). rewrite lookup_delete_ne by done. apply Hn. by right.
  - intros k v. rewrite lookup_delete_Some, Hm. split.
    + intros [Hki' (b&j&[[= -> ->]|Hin]%elem_of_cons&Hkj&Hv)]; [congruence|]. by exists b, j.
    + intros (b&j&Hin&Hkj&Hv). destruct (Hne b j Hin). split; [congruence|]. exists b, j. split; [by right|done].
  - rewrite Hc. split; [|lia]. rewrite wrap_small; unfold in_unsigned; lia.
  - rewrite Hu. split; [|pose proof (Hpos (i_value i)); lia].
    rewrite wrap_small by (unfold in_unsigned; pose proof (Hpos (i_value i)); lia). lia.
Qed.

Section operations.
Context (usage_nonneg : ∀ v, 0 ≤ usage v).

Lemma evict_ok X s L1 a i L2 :
  Rep X s (L1 ++ (a, i) :: L2) →
  ∃ s', _evict s (Some a) = Ok s' ∧ Rep X s' (L1 ++ L2) ∧
    ∀ b, b ∉ (L1 ++ (a, i) :: L2).*1 → nodes s' !! b = nodes s !! b.
Proof.
  intros [Hl HD]. rewrite fmap_app, fmap_cons in Hl. cbn [fst] in Hl. cbn [_evict].
  destruct (delink_in s _ _ _ Hl) as (s1&->&Hl1&Hk). step_ok. pose proof (data_kept _ _ _ _ _ Hk HD) as HD1.
  apply (data_perm _ _ _ ((a, i) :: L1 ++ L2)) in HD1; [|symmetry; apply Permutation_middle].
  pose proof (da_node _ _ _ HD1 a i ltac:(left)) as Hn. unfold load.
  destruct (nodes s1 !! a) as [n|] eqn:En; [|done]. injection Hn as Hnk Hnu. step_ok.
  eexists. split; [reflexivity|]. cbn [with_counts with_map with_nodes nodes _hashmap _head _tail _item_count _item_memory_usage].
  rewrite Hnk, Hnu. pose proof (da_addrs _ _ _ HD1) as [Hai Hnd]%NoDup_cons. cbn [fst] in Hai. split; [split|].
  - destruct Hl1 as [Hs Hh Ht _]. rewrite <- fmap_app in *. split; cbn; try done.
    eapply dseg_ext; [|exact Hs]. intros b Hb. rewrite lookup_delete_ne; [done|]. by intros <-.
  - by apply data_removed.
  - intros b Hb. rewrite fmap_app, fmap_cons in Hb. cbn [fst] in Hb.
    rewrite lookup_delete_ne; [by apply Hk|]. intros <-. apply Hb, elem_of_app. right. left.
Qed.

Lemma need_ok X s L : Rep X s L → _need_to_evict s = over L.*2.
Proof.
  intros [_ HD]. unfold _need_to_evict, over.
  by rewrite (proj1 (da_count _ _ _ HD)), (proj1 (da_usage _ _ _ HD)), length_fmap.
Qed.

Lemma fmap_removelast {A B} (f : A → B) l : f <$> removelast l = removelast (f <$> l).
Proof. induction l as [|x [|y l] IH]; cbn in *; [done|done|by rewrite IH]. Qed.

Definition shrunk (L : list (addr_t * item)) : list (addr_t * item) := if over L.*2 then removelast L else L.
Lemma shrunk_items L : (shrunk L).*2 = shrink L.*2.
Proof. unfold shrunk, shrink. case_match; [apply fmap_removelast|done]. Qed.

(** [if (_need_to_evict()) _evict(_tail);]. *)
Lemma shrink_ok X s L :
  Rep X s L →
  ∃ s', (if _need_to_evict s then _evict s (_tail s) else Ok s) = Ok s' ∧ Rep X s' (shrunk L) ∧
    ∀ b, b ∉ L.*1 → nodes s' !! b = nodes s !! b.
Proof.
  intros HR. rewrite (need_ok X s L HR). unfold shrunk. destruct (over L.*2); [|by exists s].
  pose proof HR as [Hl _]. rewrite (li_tail _ _ Hl). destruct L as [|[a i] L _] using rev_ind.
  - exists s. by split.
  - rewrite fmap_app. change ([(a, i)].*1) with [a]. rewrite last_snoc, removelast_last.
    destruct (evict_ok X s L a i [] HR) as (s'&->&HR'&Hf). rewrite app_nil_r in HR'. exists s'. split; [done|].
    split; [done|]. intros b Hb. apply Hf. by rewrite fmap_app.
Qed.

Lemma split_at_spec l key :
  match split_at l key with
  | Some (l1, i, l2) => l = l1 ++ i :: l2 ∧ i_key i = key
  | None => key ∉ i_key <$> l
  end.
Proof.
  induction l as [|i l IH]; cbn [split_at]; [apply not_elem_of_nil|]. case_decide as Hi; [done|].
  destruct (split_at l key) as [[[l1 j] l2]|]; cbn [mbind option_bind].
  - destruct IH as [-> ?]. done.
  - rewrite fmap_cons, not_elem_of_cons. by split.
Qed.

Lemma items_split (L : list (addr_t * item)) l1 i l2 :
  L.*2 = l1 ++ i :: l2 → ∃ L1 a L2, L = L1 ++ (a, i) :: L2 ∧ L1.*2 = l1 ∧ L2.*2 = l2.
Proof.
  intros (L1&L2'&->&HL2&->)%fmap_app_inv. symmetry in HL2.
  apply fmap_cons_inv in HL2 as ([a j]&L2&->&->&->). by exists L1, a, L2.
Qed.

Definition value_of (a : addr_t) (i : item) : HashMapValue := MkValue (i_value i) a (i_count i) (i_time i).

Lemma map_lookup X s L1 a i L2 : Data X s (L1 ++ (a, i) :: L2) → _hashmap s !! i_key i = Some (value_of a i).
Proof. intros HD. apply (da_map _ _ _ HD). exists a, i. split; [|done]. apply elem_of_app. right. left. Qed.

Lemma map_absent X s L key : Data X s L → key ∉ i_key <$> L.*2 → _hashmap s !! key = None.
Proof.
  intros HD Hk. destruct (_hashmap s !! key) as [v|] eqn:E; [|done]. apply (da_map _ _ _ HD) in E as (a&i&Hin&Hi&_).
  destruct Hk. apply list_elem_of_fmap. exists i. split; [done|]. apply list_elem_of_fmap. by exists (a, i).
Qed.

(** The item is counted as used, where it is. *)
Lemma used_ok X s L1 a i L2 :
  Rep X s (L1 ++ (a, i) :: L2) →
  Rep X (with_map s (<[i_key i := value_of a (used i)]> (_hashmap s))) (L1 ++ (a, used i) :: L2).
Proof.
  intros [Hl HD]. split; [rewrite fmap_app in *; split; apply Hl|].
  apply (data_perm _ _ ((a, used i) :: L1 ++ L2)); [apply Permutation_middle|].
  apply (data_perm _ _ _ ((a, i) :: L1 ++ L2)) in HD; [|symmetry; apply Permutation_middle].
  generalize dependent (L1 ++ L2). clear L1 L2 Hl. intros L HD. pose proof HD as [Hd Hn Ha Hk Hm Hc Hu]. split; try done.
  - intros b j [[= -> ->]|Hin]%elem_of_cons; [apply (Hn a i); left|apply Hn; by right].
  - intros k v. cbn [with_map _hashmap]. rewrite lookup_insert_Some, Hm. split.
    + intros [[<- <-]|[Hne (b&j&[[= -> ->]|Hin]%elem_of_cons&Hj&Hv)]]; [|done|].
      * exists a, (used i). split; [left|done].
      * exists b, j. split; [by right|done].
    + intros (b&j&[[= -> ->]|Hin]%elem_of_cons&Hj&Hv); [left; by split|].
      right. split; [|exists b, j; split; [by right|done]]. intros Hij. rewrite !fmap_cons in Hk. cbn in Hk.
      apply NoDup_cons in Hk as [Hk _]. apply Hk. rewrite Hij, <- Hj. apply list_elem_of_fmap. exists j. split; [done|].
      apply list_elem_of_fmap. by exists (b, j).
Qed.

Lemma front_ok X s L1 a i L2 :
  Rep X s (L1 ++ (a, i) :: L2) →
  ∃ s1 s2, _delink_node s a = Ok s1 ∧ _push_node_to_front s1 a = Ok s2 ∧ Rep X s2 ((a, i) :: L1 ++ L2).
Proof.
  intros [Hl HD]. rewrite fmap_app, fmap_cons in Hl. cbn [fst] in Hl.
  destruct (delink_in s _ _ _ Hl) as (s1&Hs1&Hl1&Hk1). pose proof (data_kept _ _ _ _ _ Hk1 HD) as HD1.
  apply (data_perm _ _ _ ((a, i) :: L1 ++ L2)) in HD1; [|symmetry; apply Permutation_middle].
  pose proof (da_node _ _ _ HD1 a i ltac:(left)) as Hn. destruct (nodes s1 !! a) as [n|] eqn:En; [|done].
  pose proof (da_addrs _ _ _ HD1) as [Ha _]%NoDup_cons. rewrite <- fmap_app in Hl1.
  destruct (push_front_ok s1 (L1 ++ L2).*1 a n Hl1 Ha En) as (s2&Hs2&Hl2&Hk2).
  exists s1, s2. split; [done|]. split; [done|]. split; [done|]. by eapply data_kept.
Qed.

Lemma lru_find_ok X s L key now now' upgraded :
  Rep X s L →
  ∃ s' L', find s key now now' upgraded = Ok (s', (spec_find L.*2 key now now' upgraded).2) ∧ Rep X s' L' ∧
    L'.*2 = (spec_find L.*2 key now now' upgraded).1.
Proof.
  intros HR. pose proof HR as [_ HD]. unfold find, spec_find. pose proof (split_at_spec L.*2 key) as Hs.
  destruct (split_at L.*2 key) as [[[l1 i] l2]|].
  2: { rewrite (map_absent X s L) by done. by exists s, L. }
  destruct Hs as [HL <-]. apply items_split in HL as (L1&a&L2&->&<-&<-). rewrite (map_lookup _ _ _ _ _ _ HD). cbn zeta.
  change (accessed (value_of a i)) with (value_of a (used i)). cbn [value_of _access_count _insert_timestamp_sec _node _value].
  pose proof (used_ok _ _ _ _ _ _ HR) as HR1. set (s1 := with_map s _) in *.
  fold (outdated now (used i)). rewrite (map_lookup X s1 L1 a (used i) L2 (proj2 HR1) : _hashmap s1 !! i_key i = _).
  cbn [value_of _access_count _insert_timestamp_sec _node]. fold (outdated now' (used i)).
  assert (Hkeep : (L1 ++ (a, used i) :: L2).*2 = L1.*2 ++ used i :: L2.*2) by by rewrite fmap_app, fmap_cons.
  destruct (outdated now (used i)); [destruct (outdated now' (used i))|destruct upgraded].
  - destruct (evict_ok _ _ _ _ _ _ HR1) as (s2&->&HR2&_). step_ok. eexists s2, (L1 ++ L2).
    split; [done|]. split; [done|]. apply fmap_app.
  - step_ok. eexists s1, _. by split.
  - destruct (front_ok _ _ _ _ _ _ HR1) as (s2&s3&->&He&HR3). step_ok. rewrite He. step_ok. eexists s3, _.
    split; [done|]. split; [exact HR3|]. by rewrite fmap_cons, fmap_app.
  - eexists s1, _. by split.
Qed.

(** A node that was allocated and is in no list yet. *)
Lemma fresh_ok s L a n : Rep [] s L → nodes s !! a = None → a ∉ L.*1 ∧ Rep [a] (store s a n) L.
Proof.
  intros [Hl HD] Hn. assert (Ha : a ∉ L.*1).
  { intros ([b i]&->&Hin)%list_elem_of_fmap. pose proof (da_node _ _ _ HD _ _ Hin) as E. cbn [fst] in Hn. by rewrite Hn in E. }
  split; [done|]. assert (Hold : ∀ b, b ∈ L.*1 → nodes (store s a n) !! b = nodes s !! b).
  { intros b Hb. cbn. rewrite lookup_insert_ne; [done|]. by intros <-. }
  split.
  - destruct Hl. split; try done. by eapply dseg_ext.
  - destruct HD as [Hd Hnd Ha' Hk Hm Hc Hu]. split; try done.
    + intros b Hb. apply elem_of_app. destruct (decide (b = a)) as [->|Hne]; [right; left|left].
      cbn in Hb. rewrite lookup_insert_ne in Hb by done. specialize (Hd b Hb). by rewrite app_nil_r in Hd.
    + intros b i Hin. rewrite Hold; [by apply Hnd|]. apply list_elem_of_fmap. by exists (b, i).
Qed.

(** The node, with its key and memory usage, goes to the front. *)
Lemma added_ok s L a key v now :
  Rep [a] s L → a ∉ L.*1 → nodes s !! a = Some (MkNode key 0 None None) → key ∉ i_key <$> L.*2 →
  Z.of_nat (S (length L)) < 2 ^ 64 → total L.*2 + usage v < 2 ^ 64 →
  let s1 := with_map (store s a (MkNode key (usage v) None None)) (<[key := MkValue v a 0 now]> (_hashmap s)) in
  ∃ s2, _delink_node s1 a = Ok s1 ∧ _push_node_to_front s1 a = Ok s2 ∧
    Rep [] (with_counts s2 (u64 (_item_count s2 + 1)) (u64 (_item_memory_usage s2 + usage v)))
      ((a, Item key v 0 now) :: L).
Proof.
  intros [Hl HD] Ha Hn Hkey Hc1 Hu1 s1. pose proof HD as [Hd Hnd Had Hk Hm [Hc Hcb] [Hu Hub]].
  assert (Hold : ∀ b, b ≠ a → nodes s1 !! b = nodes s !! b) by (intros b Hb; cbn; by rewrite lookup_insert_ne).
  assert (Hn1 : nodes s1 !! a = Some (MkNode key (usage v) None None)) by (cbn; by rewrite lookup_insert_eq).
  assert (Hl1 : Linked s1 L.*1).
  { destruct Hl. split; try done. eapply dseg_ext; [|done]. intros b Hb. apply Hold. by intros ->. }
  pose proof (delink_out s1 L.*1 a _ Hl1 Ha Hn1 eq_refl eq_refl) as Hs1.
  destruct (push_front_ok s1 L.*1 a _ Hl1 Ha Hn1) as (s2&Hs2&Hl2&Hk2). exists s2. split; [done|]. split; [done|].
  split; [split; apply Hl2|]. destruct Hk2 as [Hf Hsd Hmap [Hcn Hus]]. pose proof (usage_nonneg v).
  pose proof (total_nonneg L.*2 usage_nonneg).
  split; cbn [with_counts nodes _hashmap _item_count _item_memory_usage]; rewrite ?Hmap, ?Hcn, ?Hus.
  - intros b [n Hb]. rewrite app_nil_r. destruct (decide (b = a)) as [->|Hne]; [left|]. right.
    pose proof (Hsd b) as E. rewrite Hb, (Hold b Hne) in E. destruct (nodes s !! b) as [m|] eqn:Em; [|done].
    specialize (Hd b ltac:(by eexists)). apply elem_of_app in Hd as [?|?%list_elem_of_singleton]; done.
  - intros b j [[= -> ->]|Hin]%elem_of_cons; rewrite Hsd; [by rewrite Hn1|]. rewrite Hold; [by apply Hnd|].
    intros ->. apply Ha, list_elem_of_fmap. by exists (a, j).
  - rewrite fmap_cons. by apply NoDup_cons.
  - rewrite !fmap_cons. by apply NoDup_cons.
  - intros k w. cbn [s1 with_map _hashmap]. rewrite lookup_insert_Some, Hm. split.
    + intros [[<- <-]|[Hne (b&j&Hin&Hj&Hv)]]; [exists a, (Item key v 0 now); split; [left|done]|].
      exists b, j. split; [by right|done].
    + intros (b&j&[[= -> ->]|Hin]%elem_of_cons&Hj&Hv); [left; by split|]. right. split; [|by exists b, j].
      intros <-. apply Hkey, list_elem_of_fmap. exists j. split; [done|]. apply list_elem_of_fmap. by exists (b, j).
  - cbn [s1 with_map store with_nodes _item_count length]. rewrite Hc, wrap_small by (unfold in_unsigned; lia). lia.
  - cbn [s1 with_map store with_nodes _item_memory_usage]. rewrite Hu, fmap_cons. cbn [total foldr snd i_value].
    fold (total L.*2). rewrite wrap_small by (unfold in_unsigned; lia). lia.
Qed.

Lemma removelast_sub {A} (l : list A) x : x ∈ removelast l → x ∈ l.
Proof.
  induction l as [|y [|z l] IH]; [done|by intros ?%not_elem_of_nil|]. change (removelast (y :: z :: l)) with (y :: removelast (z :: l)).
  rewrite !elem_of_cons. intros [->|Hx]; [by left|right]. by apply elem_of_cons, IH.
Qed.

Lemma shrink_le l :
  (length (shrink l) ≤ length l)%nat ∧ total (shrink l) ≤ total l ∧ ∀ i, i ∈ shrink l → i ∈ l.
Proof.
  unfold shrink. destruct (over l); [|auto with lia]. split; [|split; [|apply removelast_sub]].
  - induction l as [|x [|y l] IH]; cbn in *; lia.
  - induction l as [|x [|y l] IH]; [done|cbn; pose proof (usage_nonneg (i_value x)); lia|].
    change (removelast (x :: y :: l)) with (x :: removelast (y :: l)). cbn [total foldr] in *.
    unfold total in IH. lia.
Qed.

Lemma lru_insert_ok s L key v fresh now :
  Rep [] s L → key ∉ i_key <$> L.*2 → nodes s !! fresh = None →
  Z.of_nat (S (length L)) < 2 ^ 64 → total L.*2 + usage v < 2 ^ 64 →
  ∃ s' L', insert s key v fresh now = Ok s' ∧ Rep [] s' L' ∧ L'.*2 = spec_insert L.*2 key v now.
Proof.
  intros HR Hkey Hn Hc Hu. unfold insert. rewrite (map_absent [] s L) by (done || apply HR).
  destruct (fresh_ok s L fresh (MkNode key 0 None None) HR Hn) as [Hfr HR1]. set (s1 := store s fresh _) in *.
  destruct (shrink_ok [fresh] s1 L HR1) as (s2&->&HR2&Hf2). step_ok.
  assert (Hn2 : nodes s2 !! fresh = Some (MkNode key 0 None None)).
  { rewrite Hf2 by done. unfold s1. cbn. by rewrite lookup_insert_eq. }
  destruct (shrink_le L.*2) as (Hlen&Htot&Hsub). pose proof (shrunk_items L) as Hsh. rewrite <- Hsh in Hlen, Htot, Hsub.
  rewrite !length_fmap in Hlen.
  assert (Hkey2 : key ∉ i_key <$> (shrunk L).*2).
  { intros (i&->&Hin)%list_elem_of_fmap. apply Hkey, list_elem_of_fmap. exists i. split; [done|]. by apply Hsub. }
  assert (Hfr2 : fresh ∉ (shrunk L).*1).
  { unfold shrunk. destruct (over L.*2); [|done]. rewrite fmap_removelast. by intros ?%removelast_sub. }
  unfold load at 1. rewrite Hn2. step_ok. cbn [_key _prev _next].
  change (_hashmap (store s2 fresh ?n)) with (_hashmap s2). rewrite (map_absent _ _ _ _ (proj2 HR2) Hkey2).
  destruct (added_ok s2 (shrunk L) fresh key v now HR2 Hfr2 Hn2 Hkey2) as (s3&->&He&HR3); [lia|lia|].
  step_ok. rewrite He. step_ok.
  destruct (shrink_ok _ _ _ HR3) as (s4&->&HR4&_). eexists s4, _. split; [done|]. split; [exact HR4|].
  rewrite shrunk_items, fmap_cons, Hsh. done.
Qed.

Lemma delete_from_ok fuel : ∀ s al pp,
  dseg (nodes s) pp al None → NoDup al → (length al < fuel)%nat →
  ∃ h, delete_from fuel s (head al) = Ok (with_nodes s h) ∧ ∀ b, is_Some (h !! b) ↔ is_Some (nodes s !! b) ∧ b ∉ al.
Proof.
  induction fuel as [|fuel IH]; intros s al pp Hd Hnd Hf; [lia|]. destruct al as [|a al]; cbn [delete_from head].
  - exists (nodes s). split; [by destruct s|]. intros b. rewrite elem_of_nil. tauto.
  - destruct Hd as [(n&Hn&_&Hx) Hd]. unfold load. rewrite Hn. step_ok. rewrite Hx, hd_or_none.
    apply NoDup_cons in Hnd as [Ha Hnd]. cbn [length] in Hf.
    destruct (IH (with_nodes s (delete a (nodes s))) al (Some a)) as (h&->&Hh); [|done|lia|].
    + eapply dseg_ext; [|exact Hd]. intros b Hb. cbn. rewrite lookup_delete_ne; [done|]. by intros ->.
    + exists h. split; [done|]. intros b. rewrite Hh, elem_of_cons. cbn [with_nodes nodes].
      destruct (decide (b = a)) as [->|Hne]; [rewrite lookup_delete_eq|rewrite lookup_delete_ne by done]; [|tauto].
      split; [by intros [[? ?] _]|tauto].
Qed.

Lemma lru_clear_ok s L : Rep [] s L → clear s = Ok LRUCache_.
Proof.
  intros [[Hs Hh Ht Hnd] HD]. unfold clear. cbn [with_map nodes _head]. rewrite Hh.
  assert (Hlen : (length L.*1 ≤ size (nodes s))%nat).
  { rewrite <- size_dom, <- (size_list_to_set (C := gset addr_t) _ Hnd). apply subseteq_size. intros a.
    rewrite elem_of_list_to_set, elem_of_dom. intros ([b i]&->&Hin)%list_elem_of_fmap.
    pose proof (da_node _ _ _ HD b i Hin) as E. cbn [fst]. by destruct (nodes s !! b). }
  destruct (delete_from_ok (S (size (nodes s))) (with_map s ∅) L.*1 None Hs Hnd) as (h&->&Hd); [lia|]. step_ok.
  assert (h = ∅) as ->; [|done]. apply map_empty. intros b. apply eq_None_not_Some. rewrite Hd. cbn [with_map nodes].
  intros [Hb Hnb]. apply (da_dom _ _ _ HD) in Hb. by rewrite app_nil_r in Hb.
Qed.
End operations.

(** *** Sizes *)
Lemma rep_init : Rep [] LRUCache_ [].
Proof.
  split.
  - split; try done. constructor.
  - split; cbn [LRUCache_ nodes _hashmap _item_count _item_memory_usage length]; try done; try by constructor.
    + intros b [n Hn]. by rewrite lookup_empty in Hn.
    + intros b i Hin. by apply elem_of_nil in Hin.
    + intros k v. rewrite lookup_empty. split; [done|]. intros (b&i&Hin&_). by apply elem_of_nil in Hin.
Qed.

Lemma rep_nodes s L : Rep [] s L → size (nodes s) = length L.
Proof.
  intros [_ HD]. rewrite <- (length_fmap fst), <- (size_list_to_set (C := gset addr_t)) by apply HD.
  rewrite <- size_dom. f_equal. apply set_eq. intros a. rewrite elem_of_dom, elem_of_list_to_set. split.
  - intros Ha%(da_dom _ _ _ HD). by rewrite app_nil_r in Ha.
  - intros ([b i]&->&Hin)%list_elem_of_fmap. pose proof (da_node _ _ _ HD b i Hin) as E. cbn [fst]. by destruct (nodes s !! b).
Qed.

Lemma rep_entries X s L : Rep X s L → size (_hashmap s) = length L.
Proof.
  intros [_ HD]. rewrite <- (length_fmap snd), <- (length_fmap i_key), <- (size_list_to_set (C := gset K)) by apply HD.
  rewrite <- size_dom. f_equal. apply set_eq. intros k. rewrite elem_of_dom, elem_of_list_to_set. split.
  - intros [v (a&i&Hin&<-&_)%(da_map _ _ _ HD)]. apply list_elem_of_fmap. exists i. split; [done|].
    apply list_elem_of_fmap. by exists (a, i).
  - intros (i&->&([a j]&->&Hin)%list_elem_of_fmap)%list_elem_of_fmap. eexists. apply (da_map _ _ _ HD). by exists a, j.
Qed.

(** ** Runs *)
Inductive op :=
  | Find (key : K) (now now' : Z) (upgraded : bool)
  | Insert (key : K) (value : V) (fresh : addr_t) (now : Z)
  | Clear | ItemCount | ItemMemoryUsage.
Inductive answer := Found (r : option V) | Done | Size (z : Z).

Definition exec (s : cache) (o : op) : result (cache * answer) :=
  match o with
  | Find key now now' up => '(s, r) ← find s key now now' up; Ok (s, Found r)
  | Insert key v fresh now => s ← insert s key v fresh now; Ok (s, Done)
  | Clear => s ← clear s; Ok (s, Done)
  | ItemCount => Ok (s, Size (_item_count s))
  | ItemMemoryUsage => Ok (s, Size (_item_memory_usage s))
  end.

Definition spec_exec (l : list item) (o : op) : list item * answer :=
  match o with
  | Find key now now' up => let r := spec_find l key now now' up in (r.1, Found r.2)
  | Insert key v _ now => (spec_insert l key v now, Done)
  | Clear => ([], Done)
  | ItemCount => (l, Size (Z.of_nat (length l)))
  | ItemMemoryUsage => (l, Size (total l))
  end.

(** Insertions of keys that are absent, of nodes at free addresses, within 64 bits. *)
Definition allowed (s : cache) (o : op) : bool :=
  match o with
  | Insert key v fresh _ =>
      match _hashmap s !! key, nodes s !! fresh with None, None => true | _, _ => false end
      && (_item_count s <? 2 ^ 64 - 1) && (_item_memory_usage s + usage v <? 2 ^ 64)
  | _ => true
  end.

Inductive lru_run : cache → list (op * answer) → cache → Prop :=
  | lru_nil s : lru_run s [] s
  | lru_cons s o s1 a tr s2 :
      allowed s o = true → exec s o = Ok (s1, a) → lru_run s1 tr s2 → lru_run s ((o, a) :: tr) s2.

Inductive spec_run : list item → list (op * answer) → list item → Prop :=
  | spec_nil l : spec_run l [] l
  | spec_cons l o tr l2 :
      spec_run (spec_exec l o).1 tr l2 → spec_run l ((o, (spec_exec l o).2) :: tr) l2.

Fixpoint run_ops (s : cache) (ops : list op) : result (cache * list (op * answer)) :=
  match ops with
  | [] => Ok (s, [])
  | o :: ops =>
      _ ← SCHECK (allowed s o);
      '(s, a) ← exec s o;
      '(s, tr) ← run_ops s ops;
      Ok (s, (o, a) :: tr)
  end.

Lemma lru_run_ops_run ops : ∀ s s' tr, run_ops s ops = Ok (s', tr) → lru_run s tr s'.
Proof.
  induction ops as [|o ops IH]; intros s s' tr; cbn [run_ops]; [intros [= <- <-]; constructor|].
  destruct (allowed s o) eqn:Ha; [|done]. step_ok. rewrite bind_ok. intros ([s1 a]&He&Hr).
  apply bind_ok in Hr as ([s2 tr2]&Hr&[= <- <-]). econstructor; [done|done|]. by apply IH.
Qed.

Section refinement.
Context (usage_nonneg : ∀ v, 0 ≤ usage v).

(** No more items than the limit. *)
Definition within (l : list item) : Prop := 0 < _max_item_count → Z.of_nat (length l) ≤ _max_item_count.

Lemma shrink_within l : 0 < _max_item_count → Z.of_nat (length l) ≤ _max_item_count + 1 → within (shrink l).
Proof.
  intros Hm Hl _. unfold shrink. destruct (over l) eqn:Ho.
  - destruct l as [|i l _] using rev_ind; [cbn; lia|]. rewrite removelast_last. rewrite length_app in Hl. cbn in Hl. lia.
  - unfold over in Ho. lia.
Qed.

Lemma spec_within l o : within l → within (spec_exec l o).1.
Proof.
  intros Hw Hm. specialize (Hw Hm). destruct o as [key now now' up|key v a now| | |]; cbn [spec_exec fst]; try (cbn; lia).
  - unfold spec_find. pose proof (split_at_spec l key) as Hs. destruct (split_at l key) as [[[l1 i] l2]|]; [|done].
    destruct Hs as [-> _]. cbn [fst]. repeat case_match; rewrite ?length_app in *; cbn [length] in *; rewrite ?length_app; lia.
  - apply shrink_within; [done| |done]. cbn [length]. pose proof (shrink_le usage_nonneg l) as (?&_). lia.
Qed.

Lemma lru_exec_ok s L o :
  Rep [] s L → allowed s o = true →
  ∃ s' L', exec s o = Ok (s', (spec_exec L.*2 o).2) ∧ Rep [] s' L' ∧ L'.*2 = (spec_exec L.*2 o).1.
Proof.
  intros HR Ha. pose proof HR as [_ HD]. destruct (da_count _ _ _ HD) as [Hc _]. destruct (da_usage _ _ _ HD) as [Hu _].
  destruct o as [key now now' up|key v a now| | |]; cbn [exec spec_exec fst snd].
  - destruct (lru_find_ok usage_nonneg [] s L key now now' up HR) as (s'&L'&->&HR'&HL'). step_ok. by exists s', L'.
  - cbn [allowed] in Ha. apply andb_prop in Ha as [[Ha Hcb]%andb_prop Hub]. rewrite Hc in Hcb. rewrite Hu in Hub.
    destruct (_hashmap s !! key) eqn:Ek; [done|]. destruct (nodes s !! a) eqn:En; [done|].
    destruct (lru_insert_ok usage_nonneg s L key v a now HR) as (s'&L'&->&HR'&HL'); [|done|lia|lia|step_ok; by exists s', L'].
    intros (i&->&([b j]&->&Hin)%list_elem_of_fmap)%list_elem_of_fmap. cbn [snd] in Ek.
    assert (_hashmap s !! i_key j = Some (value_of b j)) as E; [|congruence]. apply (da_map _ _ _ HD). by exists b, j.
  - rewrite (lru_clear_ok s L HR). step_ok. exists LRUCache_, []. split; [done|]. split; [apply rep_init|done].
  - exists s, L. rewrite Hc, length_fmap. by split.
  - exists s, L. by rewrite Hu.
Qed.

Lemma lru_run_ok s tr s' L :
  lru_run s tr s' → Rep [] s L → within L.*2 → ∃ L', spec_run L.*2 tr L'.*2 ∧ Rep [] s' L' ∧ within L'.*2.
Proof.
  intros Hr. revert L. induction Hr as [s|s o s1 a tr s2 Ha He _ IH]; intros L HR Hw.
  { exists L. split; [constructor|done]. }
  destruct (lru_exec_ok s L o HR Ha) as (s1'&L1&He'&HR1&HL1). rewrite He in He'. injection He' as -> ->.
  destruct (IH L1 HR1) as (L'&Hs&HR'&Hw'); [rewrite HL1; by apply spec_within|].
  exists L'. split; [|done]. constructor. by rewrite <- HL1.
Qed.
End refinement.
End cache.
Arguments cache : clear implicits.
Arguments cache K V {_ _}.
Arguments ListNode : clear implicits.
Arguments HashMapValue : clear implicits.

(** ** Properties *)

(** C10: the cache is a list of items in the order of their use, with bounds. Any sequence of
    [find], [insert] of keys that are absent, [clear] and the counters, one call at a time and
    with counts and usages below 2^64, gives the answers of the specification, which works on
    that list, whatever the times, the outcomes of [try_upgrade] and the addresses of new nodes;
    no access to a freed node happens and every call ends; afterwards the counters are the
    number of the items and what they use, there are exactly as many nodes and entries as items,
    and any further such call answers as the specification does. After every call there are no
    more items than the limit, if there is one: the comment that the limits are not strict is
    right of the memory, where one item is evicted even if more would have to go, and of the
    moment within an [insert] before its second eviction, but not of the number of items between
    calls (finding). *)
Theorem lru_cache_refines {K V : Type} `{Countable K} (usage : V → Z)
    (max_count max_usage ttl max_access : Z) (s : cache K V) (tr : list (op * answer)) :
  (∀ v, 0 ≤ usage v) →
  lru_run usage max_count max_usage ttl max_access LRUCache_ tr s →
  ∃ l, spec_run usage max_count max_usage ttl max_access [] tr l ∧
    _item_count s = Z.of_nat (length l) ∧ _item_memory_usage s = total usage l ∧
    size (nodes s) = length l ∧ size (_hashmap s) = length l ∧
    (0 < max_count → Z.of_nat (length l) ≤ max_count) ∧
    ∀ o, allowed usage s o = true → ∃ s',
      exec usage max_count max_usage ttl max_access s o =
        Ok (s', (spec_exec usage max_count max_usage ttl max_access l o).2).
Proof.
  intros Hu Hr.
  assert (HR0 : Rep usage [] (LRUCache_ : cache K V) []) by apply rep_init.
  destruct (lru_run_ok usage max_count max_usage ttl max_access Hu _ tr s [] Hr HR0) as (L&Hs&HR&Hw); [intros Hm; cbn; lia|].
  exists L.*2. pose proof HR as [Hl HD]. split; [done|]. rewrite length_fmap.
  split; [apply HD|]. split; [apply HD|]. split; [by eapply rep_nodes|]. split; [by eapply rep_entries|].
  split; [by rewrite <- (length_fmap snd)|].
  intros o Ho. destruct (lru_exec_ok usage max_count max_usage ttl max_access Hu s L o HR Ho) as (s'&_&He&_). by exists s'.
Qed.

(** ** Witness *)
Definition demo_usage (v : nat) : Z := Z.of_nat v.
Definition demo_lru_ops : list (@op nat nat) :=
  [Insert 1 10 100 0; Insert 2 20 101 0; Find 1 1 1 true; Insert 3 30 102 2; Find 2 3 3 true;
   Find 1 3 3 true; ItemCount; ItemMemoryUsage]%nat.

Lemma lru_cache_refines_witness :
  ∃ s tr l, run_ops demo_usage 2 0 0 3 LRUCache_ demo_lru_ops = Ok (s, tr) ∧
    tr.*2 = [Done; Done; Found (Some 10%nat); Done; Found None; Found (Some 10%nat); Size 2; Size 40] ∧
    spec_run demo_usage 2 0 0 3 [] tr l ∧ _item_count s = Z.of_nat (length l).
Proof.
  destruct (run_ops demo_usage 2 0 0 3 LRUCache_ demo_lru_ops) as [[s tr]|] eqn:E; [|vm_compute in E; discriminate].
  assert (Ht : tr.*2 = [Done; Done; Found (Some 10%nat); Done; Found None; Found (Some 10%nat); Size 2; Size 40]).
  { vm_compute in E. injection E as _ <-. reflexivity. }
  destruct (lru_cache_refines demo_usage 2 0 0 3 s tr) as (l&Hs&Hc&_);
    [intros v; unfold demo_usage; lia|exact (lru_run_ops_run demo_usage 2 0 0 3 _ _ _ _ E)|].
  exists s, tr, l. split; [reflexivity|]. split; [exact Ht|]. split; [exact Hs|exact Hc].
Defined.

(** ** Where the cache fails: a key that is already there *)

(** The old value stays, and the item is counted twice. *)
Theorem reinsertion_keeps_old_value :
  match (s ← insert demo_usage 0 0 LRUCache_ 1%nat 10%nat 100%nat 0;
         s ← insert demo_usage 0 0 s 1%nat 20%nat 101%nat 0;
         '(s', r) ← find 0 0 s 1%nat 0 0 true; Ok (s', r)) with
  | Ok (s, r) => r = Some 10%nat ∧ _item_count s = 2 ∧ size (_hashmap s) = 1%nat
  | Abort => False
  end.
Proof. vm_compute. repeat split. Qed.

(** When the memory is exceeded and the key is the oldest, its node is freed and then used. *)
Theorem reinsertion_uses_freed_node :
  (s ← insert demo_usage 0 10 LRUCache_ 1%nat 1%nat 100%nat 0;
   s ← insert demo_usage 0 10 s 2%nat 1%nat 101%nat 0;
   s ← insert demo_usage 0 10 s 3%nat 20%nat 102%nat 0;
   insert demo_usage 0 10 s 2%nat 1%nat 103%nat 0) = Abort.
Proof. vm_compute. reflexivity. Qed.
