(* ===== verification/PoolHashTable.v ===== *)
(** * The hash table in one array

    [PoolHashTable] of src/src/misc/PoolHashTable.h over [ArrayHashSpace] and
    [PairItemType], with [HashTableMemorySerializer].  The nodes are an array that begins
    with a node for the list of free nodes; a node is named by its offset in bytes.  The
    lowest two bits of [next] say what the node is: empty, the first of a chain, inside
    one, or still to be placed while the table grows in place.  The item of a node lies over
    its [prev], which only free nodes need: writing one destroys the other.

    The load factor is left at 1, where the arithmetic of the code on [double] is exact for
    tables that fit in memory; offsets and counts do not wrap for the same reason.  The
    buffer for one item that is built before its place is known is an argument.

    The table implements a finite map, whatever the hash function, for items that may be
    copied as bytes and for others, and an iteration visits every item once even if it
    erases on the way.  Linear probing never takes place, and [prioritise] may use an item
    after its end. *)
From S2P Require Import Prelude.

(** ** What a node is *)
Definition EMPTY : Z := 0.
Definition PROBE : Z := 1.
Definition HEAD : Z := 2.
Definition REHASH : Z := 3.
Definition MASK : Z := 3.
Definition PROBE_LEN : Z := 128.

Record pool_node := PoolNode { next : Z; prev : Z }.

Definition is_rehashing (n : pool_node) : bool := Z.land (next n) REHASH =? REHASH.
Definition is_empty (n : pool_node) : bool := Z.land (next n) MASK =? EMPTY.
Definition is_head (n : pool_node) : bool := Z.land (next n) MASK =? HEAD.
Definition get_next (n : pool_node) : Z := Z.land (next n) (Z.lnot MASK).
Definition linked_to (n : pool_node) (offset : Z) : pool_node := PoolNode (Z.lor (Z.land (next n) MASK) offset) (prev n).

Section table.
Context {K V : Type} `{EqDecision K}.
(** The hash function; the size of a node; whether items may be moved as bytes; what an item
    that is written leaves of the [prev] of its node; the nodes behind the end that survive
    a change of the size, which depends on the pages of the system: what does not survive is
    zero when it comes back. *)
Context (hash_function : K → Z) (_node_size : Z) (trivial : bool) (overlay : K * V → Z → Z) (keep : Z → bool).

(** The [ArrayHashSpace] and the members of the table. *)
Record table := Table {
  _mask : Z;
  _num_nodes : Z;
  nodes : gmap Z pool_node;
  items : gmap Z (K * V);
  _num_items : Z;
  _max_num_items : Z;
}.

Definition with_nodes (t : table) m := Table (_mask t) (_num_nodes t) m (items t) (_num_items t) (_max_num_items t).
Definition with_items (t : table) m := Table (_mask t) (_num_nodes t) (nodes t) m (_num_items t) (_max_num_items t).
Definition with_num_items (t : table) n := Table (_mask t) (_num_nodes t) (nodes t) (items t) n (_max_num_items t).
Definition with_max_num_items (t : table) n := Table (_mask t) (_num_nodes t) (nodes t) (items t) (_num_items t) n.

(** ** ArrayHashSpace *)
Definition _max_offset (t : table) : Z := _num_nodes t * _node_size.

(** [while ((size_t(1) << (n + 1)) <= _num_nodes) ++n]. *)
Fixpoint log_loop (fuel : nat) (num n : Z) : Z :=
  match fuel with
  | O => n
  | S fuel => if Z.shiftl 1 (n + 1) <=? num then log_loop fuel num (n + 1) else n
  end.

Definition mask_of (num : Z) : Z := Z.shiftl 1 (log_loop (Z.to_nat num) num 0) - 1.

Definition set_space (t : table) (num : Z) : result table :=
  _ ← SCHECK (1 <=? num);
  let inside (o : Z) := (o <=? num * _node_size) || keep o in
  Ok (Table (mask_of num) num (filter (λ p, inside p.1 = true) (nodes t)) (filter (λ p, inside p.1 = true) (items t))
    (_num_items t) (_max_num_items t)).

(** [_num_nodes / _mask] between 1.4 and 1.8; [_num_nodes * 45 / 32]. *)
Definition expand_space (t : table) : Z :=
  let num := _num_nodes t in
  let mask := _mask t in
  if negb (mask =? 0) && (7 * mask <? 5 * num) && (5 * num <? 9 * mask) then (mask + 1) * 2
  else Z.max (num * 45 / 32) (num + 1).

Definition find_offset (t : table) (hash : Z) : Z := (Z.land hash (_mask t) + 1) * _node_size.

Definition probe_offset (t : table) (offset : Z) : Z := if offset <? _max_offset t then offset + _node_size else 0.

(** ** Nodes and items *)

(** A node that was never written is zero; what is not a node of the array is out of bounds. *)
Definition in_space (t : table) (offset : Z) : bool :=
  (0 <=? offset) && (offset <=? _max_offset t) && (offset mod _node_size =? 0).

Definition node_at (t : table) (offset : Z) : pool_node := default (PoolNode 0 0) (nodes t !! offset).

Definition get_node (t : table) (offset : Z) : result pool_node :=
  _ ← SCHECK (in_space t offset); Ok (node_at t offset).

Definition set_node (t : table) (offset : Z) (n : pool_node) : result table :=
  _ ← SCHECK (in_space t offset); Ok (with_nodes t (<[offset := n]> (nodes t))).

(** [get_node(offset)->next = x] and [->prev = x], and [set_next].  The item of a node lies
    behind [next], and over [prev] unless its alignment is larger than a word: a [prev] that
    is written destroys the item. *)
Definition put_next (t : table) (offset x : Z) : result table := n ← get_node t offset; set_node t offset (PoolNode x (prev n)).
Definition put_prev (t : table) (offset x : Z) : result table :=
  n ← get_node t offset;
  t ← set_node t offset (PoolNode (next n) x);
  Ok (with_items t (delete offset (items t))).
Definition set_next (t : table) (offset x : Z) : result table := n ← get_node t offset; set_node t offset (linked_to n x).

(** An item that has not been constructed, or has been destroyed, is not there; reading it
    is undefined. *)
Definition get_item (t : table) (offset : Z) : result (K * V) :=
  match items t !! offset with Some x => Ok x | None => Abort end.
Definition get_key (t : table) (offset : Z) : result K := x ← get_item t offset; Ok x.1.
Definition put_item (t : table) (offset : Z) (x : K * V) : result table :=
  n ← get_node t offset;
  t ← set_node t offset (PoolNode (next n) (overlay x (prev n)));
  Ok (with_items t (<[offset := x]> (items t))).
Definition destruct_item (t : table) (offset : Z) : result table :=
  _ ← get_item t offset; Ok (with_items t (delete offset (items t))).

(** [move_from] between items of the array, and out of it. *)
Definition moved (t : table) (offset : Z) : table := if trivial then t else with_items t (delete offset (items t)).
Definition move_from (t : table) (item other : Z) : result table :=
  x ← get_item t other; t ← put_item t item x; Ok (moved t other).
Definition move_out (t : table) (other : Z) : result (table * (K * V)) := x ← get_item t other; Ok (moved t other, x).

(** Three moves through a temporary item. *)
Definition swap_items (t : table) (a b : Z) : result table :=
  '(t, temp) ← move_out t a; t ← move_from t a b; put_item t b temp.

Definition get_hash_head (t : table) (key : K) : Z := find_offset t (hash_function key).

(** ** The list of free nodes *)
Definition allocate_node (t : table) (offset : Z) : result table :=
  let t := with_num_items t (_num_items t + 1) in
  n ← get_node t offset; t ← put_prev t (next n) (prev n);
  n ← get_node t offset; t ← put_next t (prev n) (next n);
  put_next t offset PROBE.

Definition deallocate_node (t : table) (offset : Z) : result table :=
  let t := with_num_items t (_num_items t - 1) in
  h ← get_node t 0;
  let prev := prev h in
  t ← put_next t offset 0;
  t ← put_prev t offset prev;
  t ← put_prev t 0 offset;
  put_next t prev offset.

(** Loops that walk over the nodes are given the number of nodes and one more. *)
Definition enough (t : table) : nat := S (Z.to_nat (_num_nodes t)).

(** [while (offset) { ...; if (next) offset = probe_offset(offset) }], where [body] says
    whether to go on to the next node. *)
Fixpoint scan (fuel : nat) (body : table → Z → result (table * bool)) (t : table) (offset : Z) : result table :=
  if offset =? 0 then Ok t
  else
    match fuel with
    | O => Abort
    | S fuel => '(t, go) ← body t offset; scan fuel body t (if go : bool then probe_offset t offset else offset)
    end.

Definition initialize_nodes (t : table) : result table :=
  let t := with_num_items t (_num_nodes t) in
  t ← put_next t 0 0; t ← put_prev t 0 0;
  scan (enough t) (λ t offset, t ← deallocate_node t offset; Ok (t, true)) t (probe_offset t 0).

(** The loops of [probe_node] and [probe_node_rehash]; the difference is unsigned. *)
Fixpoint probe_loop (fuel : nat) (found : pool_node → bool) (t : table) (offset probe : Z) : result Z :=
  match fuel with
  | O => Abort
  | S fuel =>
      if negb (probe =? 0) && (u64 (offset - probe) <? PROBE_LEN) then
        n ← get_node t probe;
        if found n then Ok probe else probe_loop fuel found t offset (probe_offset t probe)
      else h ← get_node t 0; Ok (prev h)
  end.

Definition probe_node (t : table) (probe : Z) : result Z := probe_loop (S (enough t)) is_empty t probe probe.
Definition probe_node_rehash (t : table) (probe : Z) : result Z :=
  probe_loop (S (enough t)) (λ n, is_empty n || is_rehashing n) t probe probe.

(** ** Chains *)

(** [while (get_node(prev)->get_next()) prev = get_node(prev)->get_next()], with the nodes
    it passes. *)
Fixpoint chain_from (fuel : nat) (t : table) (offset : Z) : result (list Z) :=
  match fuel with
  | O => Abort
  | S fuel =>
      n ← get_node t offset;
      if get_next n =? 0 then Ok [offset] else l ← chain_from fuel t (get_next n); Ok (offset :: l)
  end.

Definition last_from (t : table) (offset : Z) : result Z := l ← chain_from (enough t) t offset; Ok (List.last l offset).

Fixpoint find_node_before (fuel : nat) (t : table) (probe next : Z) : result Z :=
  match fuel with
  | O => Abort
  | S fuel => n ← get_node t probe; if get_next n =? next then Ok probe else find_node_before fuel t (get_next n) next
  end.

(** ** Looking a key up *)
Fixpoint find_loop (fuel : nat) (t : table) (key : K) (offset : Z) : result Z :=
  match fuel with
  | O => Abort
  | S fuel =>
      k ← get_key t offset;
      if decide (k = key) then Ok offset
      else
        n ← get_node t offset;
        if get_next n =? 0 then Ok 0 else find_loop fuel t key (get_next n)
  end.

Definition inner_find (t : table) (key : K) : result Z :=
  let offset := get_hash_head t key in
  n ← get_node t offset;
  if is_empty n then Ok 0 else find_loop (enough t) t key offset.

(** ** Making room for a key *)

(** The items of the nodes [l], which are on a stack, move up to [probe]. *)
Fixpoint shift_items (t : table) (probe : Z) (l : list Z) : result table :=
  match l with
  | [] => Ok t
  | back :: l => t ← move_from t probe back; shift_items t back l
  end.

Definition inner_allocate_not_exist_no_rehash (t : table) (key : K) : result (table * Z) :=
  let head := get_hash_head t key in
  n ← get_node t head;
  if is_empty n then
    t ← allocate_node t head; t ← put_next t head HEAD; Ok (t, head)
  else if is_head n then
    prev ← last_from t head;
    probe ← probe_node t prev;
    t ← allocate_node t probe;
    t ← set_next t prev probe;
    Ok (t, probe)
  else
    k ← get_key t head;
    let exchange := get_hash_head t k in
    temp ← chain_from (enough t) t head;
    let prev := List.last temp head in
    probe ← probe_node t prev;
    t ← allocate_node t probe;
    t ← set_next t prev probe;
    t ← shift_items t probe (reverse temp);
    exchange ← find_node_before (enough t) t exchange head;
    n ← get_node t head;
    t ← set_next t exchange (get_next n);
    t ← put_next t head HEAD;
    Ok (t, head).

(** ** Iteration *)
Fixpoint next_loop (fuel : nat) (t : table) (offset : Z) : result Z :=
  if offset =? 0 then Ok 0
  else
    match fuel with
    | O => Abort
    | S fuel => n ← get_node t offset; if is_empty n then next_loop fuel t (probe_offset t offset) else Ok offset
    end.

Definition get_next_offset (t : table) (offset : Z) : result Z := next_loop (enough t) t (probe_offset t offset).

Definition begin (t : table) : result Z := get_next_offset t 0.

(** [++it]. *)
Definition next_it (t : table) (it : Z) : result Z := _ ← SCHECK (negb (it =? 0)); get_next_offset t it.

(** [for (it = begin(); it != end(); ++it)], with what [body] does to the table. *)
Fixpoint for_loop {A} (fuel : nat) (body : table → Z → A → result (table * A)) (t : table) (it : Z) (a : A) : result (table * A) :=
  if it =? 0 then Ok (t, a)
  else
    match fuel with
    | O => Abort
    | S fuel => '(t, a) ← body t it a; it ← next_it t it; for_loop fuel body t it a
    end.

Definition for_each {A} (body : table → Z → A → result (table * A)) (t : table) (a : A) : result (table * A) :=
  it ← begin t; for_loop (enough t) body t it a.

(** The items, in the order of iteration. *)
Definition elements (t : table) : result (list (K * V)) :=
  '(_, l) ← for_each (λ t it l, x ← get_item t it; Ok (t, l ++ [x])) t []; Ok l.

Definition clear (t : table) : result table :=
  '(t, _) ← for_each (λ t it _, t ← destruct_item t it; Ok (t, ())) t ();
  initialize_nodes t.

(** ** Changing the number of nodes *)

(** [max_load_factor(1.0)]. *)
Definition max_load_factor (t : table) : table := with_max_num_items t (Z.min (_num_nodes t) (_num_nodes t)).

(** The three loops of [inner_remap_rehash]: every node is free or still to be placed; each
    item that can goes to the node of its hash; the others are appended to its chain. *)
Definition mark_step (t : table) (offset : Z) : result (table * bool) :=
  n ← get_node t offset;
  if is_empty n then t ← deallocate_node t offset; Ok (with_num_items t (_num_items t + 1), true)
  else t ← put_next t offset (Z.lor (next n) REHASH); Ok (t, true).

Definition head_step (t : table) (offset : Z) : result (table * bool) :=
  n ← get_node t offset;
  if is_rehashing n then
    k ← get_key t offset;
    let probe := get_hash_head t k in
    p ← get_node t probe;
    if is_rehashing p then
      t ← put_next t probe HEAD;
      if negb (probe =? offset) then t ← swap_items t probe offset; Ok (t, false) else Ok (t, true)
    else if is_empty p then
      t ← allocate_node t probe;
      t ← put_next t probe HEAD;
      t ← move_from t probe offset;
      t ← deallocate_node t offset;
      Ok (t, true)
    else Ok (t, true)
  else Ok (t, true).

Definition chain_step (t : table) (offset : Z) : result (table * bool) :=
  n ← get_node t offset;
  if is_rehashing n then
    k ← get_key t offset;
    prev ← last_from t (get_hash_head t k);
    probe ← probe_node_rehash t prev;
    p ← get_node t probe;
    if is_rehashing p then
      t ← put_next t probe PROBE;
      t ← set_next t prev probe;
      if negb (probe =? offset) then t ← swap_items t probe offset; Ok (t, false) else Ok (t, true)
    else
      t ← allocate_node t probe;
      t ← set_next t prev probe;
      t ← move_from t probe offset;
      t ← deallocate_node t offset;
      Ok (t, true)
  else Ok (t, true).

(** A step advances or places an item. *)
Definition enough_steps (t : table) : nat := (enough t + enough t)%nat.

Definition inner_remap_rehash (t : table) (n : Z) : result table :=
  _ ← SCHECK (_num_nodes t <? n);
  t ← set_space t n;
  let t := max_load_factor t in
  t ← put_next t 0 0; t ← put_prev t 0 0;
  t ← scan (enough t) mark_step t (probe_offset t 0);
  t ← scan (enough_steps t) head_step t (probe_offset t 0);
  scan (enough_steps t) chain_step t (probe_offset t 0).

(** The first loop of [inner_serialize_rehash]: what it pushes to the queue. *)
Fixpoint serialize_loop (fuel : nat) (t : table) (offset : Z) : result (list (K * V)) :=
  if offset =? 0 then Ok []
  else
    match fuel with
    | O => Abort
    | S fuel =>
        n ← get_node t offset;
        if is_empty n then serialize_loop fuel t (probe_offset t offset)
        else x ← get_item t offset; l ← serialize_loop fuel t (probe_offset t offset); Ok (x :: l)
    end.

(** [count] items are taken from the queue. *)
Fixpoint deserialize_loop (count : nat) (t : table) (que : list (K * V)) : result table :=
  match count, que with
  | O, _ => Ok t
  | S count, [] => Abort
  | S count, x :: que =>
      '(t, offset) ← inner_allocate_not_exist_no_rehash t x.1;
      t ← put_item t offset x;
      deserialize_loop count t que
  end.

Definition inner_serialize_rehash (t : table) (n : Z) : result table :=
  let count := _num_items t in
  que ← serialize_loop (enough t) t (probe_offset t 0);
  t ← clear t;
  t ← set_space t n;
  let t := max_load_factor t in
  t ← initialize_nodes t;
  deserialize_loop (Z.to_nat count) t que.

Definition rehash (t : table) (num_buckets : Z) : result table :=
  let num_buckets := Z.max (Z.max num_buckets 1) (_num_items t) in
  if num_buckets =? _num_nodes t then Ok t
  else if (_num_nodes t <? num_buckets) && trivial then inner_remap_rehash t num_buckets
  else inner_serialize_rehash t num_buckets.

Definition reserve (t : table) (n : Z) : result table :=
  if (_max_num_items t <? n) && (_num_nodes t <? n) then rehash t (Z.max n (expand_space t)) else Ok t.

(** ** Constructors *)
Definition PoolHashTable : result table :=
  t ← set_space (Table 0 0 ∅ ∅ 0 0) 1; initialize_nodes t.

(** What is left of a table that was moved from. *)
Definition moved_from (t : table) : result table :=
  t ← set_space (Table (_mask t) 0 ∅ ∅ (_num_items t) (_max_num_items t)) 1;
  t ← initialize_nodes t;
  Ok (with_num_items (with_max_num_items t 0) 0).

Definition inner_emplace_not_exist (t : table) (item : K * V) : result (table * Z) :=
  t ← reserve t (_num_items t + 1);
  '(t, offset) ← inner_allocate_not_exist_no_rehash t item.1;
  t ← put_item t offset item;
  Ok (t, offset).

Definition emplace (t : table) (item : K * V) : result (table * Z * bool) :=
  it ← inner_find t item.1;
  if negb (it =? 0) then Ok (t, it, false)
  else '(t, it) ← inner_emplace_not_exist t item; Ok (t, it, true).

(** [insert] of all of a list. *)
Fixpoint insert_all (t : table) (l : list (K * V)) : result table :=
  match l with [] => Ok t | x :: l => '(t, _, _) ← emplace t x; insert_all t l end.

Definition copy_construct (other : table) : result table :=
  t ← set_space (Table 0 0 ∅ ∅ 0 (_max_num_items other)) (_num_nodes other);
  t ← initialize_nodes t;
  t ← reserve t (_num_items other);
  l ← elements other;
  insert_all t l.

(** ** Operations *)
Definition size (t : table) : Z := _num_items t.
Definition bucket_count (t : table) : Z := _num_nodes t.
Definition empty (t : table) : bool := size t =? 0.

Definition count (t : table) (key : K) : result Z := it ← inner_find t key; Ok (Z.b2z (negb (it =? 0))).

Definition at_ (t : table) (key : K) : result V :=
  it ← inner_find t key; _ ← SCHECK (negb (it =? 0)); x ← get_item t it; Ok x.2.

(** [try_emplace], with the value made from the arguments. *)
Definition try_emplace (t : table) (key : K) (value : V) : result (table * Z * bool) :=
  it ← inner_find t key;
  if negb (it =? 0) then Ok (t, it, false)
  else '(t, it) ← inner_emplace_not_exist t (key, value); Ok (t, it, true).

(** [operator[]]: where the value is; [init] is [mapped_type()]. *)
Definition operator_index (init : V) (t : table) (key : K) : result (table * Z) :=
  it ← inner_find t key;
  if negb (it =? 0) then Ok (t, it) else inner_emplace_not_exist t (key, init).

(** Assigning through the reference. *)
Definition assign_mapped (t : table) (offset : Z) (value : V) : result table :=
  x ← get_item t offset; put_item t offset (x.1, value).

Definition erase_it (t : table) (it : Z) : result (table * Z) :=
  n ← get_node t it;
  _ ← SCHECK (negb (it =? 0) && negb (is_empty n));
  let next := get_next n in
  if negb (next =? 0) then
    t ← destruct_item t it;
    t ← move_from t it next;
    m ← get_node t next;
    t ← set_next t it (get_next m);
    t ← deallocate_node t next;
    it ← (if next <? it then next_it t it else Ok it);
    Ok (t, it)
  else
    it' ← next_it t it;
    k ← get_key t it;
    let head := get_hash_head t k in
    t ← destruct_item t it;
    t ← (if it =? head then Ok t
         else prev ← find_node_before (enough t) t head it; set_next t prev 0);
    t ← deallocate_node t it;
    Ok (t, it').

Definition erase (t : table) (key : K) : result (table * Z) :=
  it ← inner_find t key;
  if it =? 0 then Ok (t, 0) else '(t, _) ← erase_it t it; Ok (t, 1).

(** The loop of [prioritise]: where the key is, from a node that is not empty. *)
Definition prioritise (t : table) (key : K) : result (table * Z) :=
  let head := get_hash_head t key in
  n ← get_node t head;
  if is_empty n then Ok (t, 0)
  else
    offset ← find_loop (enough t) t key head;
    if offset =? 0 then Ok (t, 0)
    else
      '(t, temp) ← move_out t offset;
      t ← move_from t offset head;
      t ← put_item t head temp;
      Ok (t, head).

(** A loop that goes on with [it = erase(it)] where [p] holds and with [++it] elsewhere,
    and the items it looks at. *)
Fixpoint erase_if_loop (fuel : nat) (p : K * V → bool) (t : table) (it : Z) : result (table * list (K * V)) :=
  if it =? 0 then Ok (t, [])
  else
    match fuel with
    | O => Abort
    | S fuel =>
        x ← get_item t it;
        '(t, it) ← (if p x then erase_it t it else it ← next_it t it; Ok (t, it));
        '(t, seen) ← erase_if_loop fuel p t it;
        Ok (t, x :: seen)
    end.

Definition erase_if (p : K * V → bool) (t : table) : result (table * list (K * V)) :=
  it ← begin t; erase_if_loop (enough t) p t it.
End table.
