(* ===== verification/PoolMap.v ===== *)
(** * The hash table in one array is a map

    Proofs about [PoolHashTable]. [Rep] says which nodes form the chain of which home, which
    wait to be placed and which are free, doubly linked from the node in front; [Good] is
    what holds between operations. Each step of the code has a lemma on [Rep]; the three
    loops over the nodes that grow a table in place have invariants on top of it, with the
    nodes that wait as what decreases. *)
From S2P Require Import Prelude PoolHashTable.

(** ** Tags and links *)
Definition tag (z : Z) : Z := Z.land z MASK.
Definition link (z : Z) : Z := Z.land z (Z.lnot MASK).

Lemma tag_mod z : tag z = z mod 4.
Proof. apply (Z.land_ones z 2). lia. Qed.

Lemma small_tag a : 0 ≤ a < 4 → a = 0 ∨ a = 1 ∨ a = 2 ∨ a = 3.
Proof. lia. Qed.

Lemma tag_range z : 0 ≤ tag z < 4.
Proof. rewrite tag_mod. apply Z.mod_pos_bound. lia. Qed.

Lemma tag_aligned o : o mod 4 = 0 → tag o = 0.
Proof. by rewrite tag_mod. Qed.

Lemma link_aligned o : o mod 4 = 0 → link o = o.
Proof.
  intros Ho. pose proof (Z.lor_ldiff_and o MASK) as H. rewrite Z.ldiff_land in H. fold (link o) (tag o) in H.
  by rewrite tag_aligned, Z.lor_0_r in H.
Qed.

Lemma tag_lor a o : 0 ≤ a < 4 → o mod 4 = 0 → tag (Z.lor a o) = a.
Proof.
  intros Ha Ho. unfold tag at 1. rewrite Z.land_lor_distr_l. fold (tag o). rewrite tag_aligned, Z.lor_0_r by done.
  destruct (small_tag a Ha) as [->|[->|[->| ->]]]; done.
Qed.

Lemma link_lor a o : 0 ≤ a < 4 → o mod 4 = 0 → link (Z.lor a o) = o.
Proof.
  intros Ha Ho. unfold link at 1. rewrite Z.land_lor_distr_l. fold (link o). rewrite link_aligned by done.
  destruct (small_tag a Ha) as [->|[->|[->| ->]]]; by rewrite Z.lor_0_l.
Qed.

Lemma tag_marked z : tag (Z.lor z REHASH) = REHASH.
Proof.
  unfold tag. rewrite Z.land_lor_distr_l. fold (tag z). change (Z.land REHASH MASK) with REHASH.
  destruct (small_tag (tag z) (tag_range z)) as [->|[->|[->| ->]]]; done.
Qed.

(** ** Lists of nodes *)

(** [F] lies between [a] and [b], doubly linked by [f] and [g]. *)
Fixpoint between (f g : Z → Z) (a : Z) (F : list Z) (b : Z) : Prop :=
  match F with
  | [] => f a = b ∧ g b = a
  | x :: F => f a = x ∧ g x = a ∧ between f g x F b
  end.

Lemma between_app f g F1 x F2 b : ∀ a, between f g a (F1 ++ x :: F2) b ↔ between f g a F1 x ∧ between f g x F2 b.
Proof. induction F1 as [|y F1 IH]; intros a; cbn; [tauto|]. rewrite IH. tauto. Qed.

Lemma between_first f g a F b : between f g a F b → f a = List.hd b F.
Proof. by destruct F; intros [? ?]. Qed.

Lemma last_cons {A} (x d : A) l : List.last (x :: l) d = List.last l x.
Proof. revert x d. induction l as [|y l IH]; intros x d; [done|]. change (List.last (x :: y :: l) d) with (List.last (y :: l) d). by rewrite !IH. Qed.

Lemma last_app {A} (l : list A) x d : List.last (l ++ [x]) d = x.
Proof. induction l as [|y l IH] in d |- *; [done|]. cbn [app]. by rewrite last_cons. Qed.

Lemma last_in {A} (l : list A) d : List.last l d ∈ d :: l.
Proof.
  induction l as [|x l IH] in d |- *; [left|]. rewrite last_cons. right. apply IH.
Qed.

Lemma between_last f g a F b : between f g a F b → g b = List.last F a.
Proof. induction F as [|x F IH] in a |- *; [by intros [? ?]|]. intros (_&_&H). rewrite last_cons. auto. Qed.

Lemma between_frame f g f' g' a F b : between f g a F b → (∀ o, o ∈ a :: F → f' o = f o) →
  (∀ o, o ∈ F ++ [b] → g' o = g o) → between f' g' a F b.
Proof.
  induction F as [|x F IH] in a |- *; cbn.
  - intros [? ?] Hf Hg. by rewrite Hf, Hg by left.
  - intros (?&?&?) Hf Hg. rewrite Hf, (Hg x) by left. split; [done|]. split; [done|].
    apply IH; [done|intros o Ho; apply Hf; by right|intros o Ho; apply Hg; by right].
Qed.

(** The list ends elsewhere. *)
Lemma between_relast f g f' g' a F b c : between f g a F b → NoDup (a :: F) →
  (∀ o, o ∈ a :: F → o ≠ List.last F a → f' o = f o) → (∀ o, o ∈ F → g' o = g o) →
  f' (List.last F a) = c → g' c = List.last F a → between f' g' a F c.
Proof.
  induction F as [|x F IH] in a |- *; cbn; intros HF Hnd Hf Hg Hl Hc; [done|].
  destruct HF as (?&?&?). apply NoDup_cons in Hnd as [Ha Hnd]. assert (Ha' : a ≠ List.last F x).
  { intros ->. apply Ha, last_in. }
  change (match F with [] => x | _ => List.last F a end) with (List.last (x :: F) a) in *. rewrite last_cons in *.
  rewrite Hf, (Hg x) by (left || done). split; [done|]. split; [done|].
  apply IH; try done; [intros o Ho; apply Hf; by right|intros o Ho; apply Hg; by right].
Qed.

(** The nodes of [l] are linked by [f], the last one to [z]. *)
Fixpoint linked (f : Z → Z) (l : list Z) (z : Z) : Prop :=
  match l with
  | [] => True
  | o :: l => link (f o) = List.hd z l ∧ linked f l z
  end.

Lemma hd_app {A} (l k : list A) d : List.hd d (l ++ k) = List.hd (List.hd d k) l.
Proof. by destruct l. Qed.

Lemma linked_app f l k z : linked f (l ++ k) z ↔ linked f l (List.hd z k) ∧ linked f k z.
Proof. induction l as [|o l IH]; cbn; [tauto|]. rewrite IH, hd_app. tauto. Qed.

Lemma linked_frame f f' l z : linked f l z → (∀ o, o ∈ l → link (f' o) = link (f o)) → linked f' l z.
Proof.
  induction l as [|o l IH]; cbn; [done|]. intros [Ho Hl] Hf. rewrite Hf by left. split; [done|].
  apply IH; [done|]. intros o' Ho'. apply Hf. by right.
Qed.

Lemma linked_relast f f' o l z z' : linked f (o :: l) z → NoDup (o :: l) →
  (∀ o', o' ∈ o :: l → o' ≠ List.last l o → link (f' o') = link (f o')) → link (f' (List.last l o)) = z' →
  linked f' (o :: l) z'.
Proof.
  induction l as [|x l IH] in o |- *; intros Hl Hnd Hf Hlast; [by split|].
  destruct Hl as [Ho Hl]. apply NoDup_cons in Hnd as [Hnin Hnd]. rewrite last_cons in *.
  assert (o ≠ List.last l x) by (intros ->; apply Hnin, last_in). split.
  - by rewrite Hf by (left || done).
  - apply IH; try done. intros o' Ho'. apply Hf. by right.
Qed.

Section proofs.
Context {K V : Type} `{!EqDecision K, !Countable K}.
Context (hash_function : K → Z) (ns : Z).

(** A node begins with two words, and is aligned. *)
Hypothesis ns_pos : 0 < ns.
Hypothesis ns_aligned : ns mod 4 = 0.
Hypothesis ns_small : ns ≤ 2 ^ 63.

Abbreviation table := (@table K V).
Implicit Types (t : table) (o p : Z) (F R H l : list Z) (chs : list (list Z)).

Definition offsets (t : table) : list Z := (λ i, i * ns) <$> seqZ 1 (_num_nodes t).

Abbreviation nx t o := (next (node_at t o)).
Abbreviation pv t o := (prev (node_at t o)).

Lemma elem_offsets t o : o ∈ offsets t ↔ ∃ i, 1 ≤ i ≤ _num_nodes t ∧ o = i * ns.
Proof.
  unfold offsets. rewrite list_elem_of_fmap. setoid_rewrite elem_of_seqZ. split.
  - intros (i&->&?). exists i. split; [lia|done].
  - intros (i&?&->). exists i. split; [done|lia].
Qed.

Lemma offsets_NoDup t : NoDup (offsets t).
Proof using ns_pos ns_aligned ns_small. apply NoDup_fmap_2_strong; [|apply NoDup_seqZ]. intros i j _ _ Hij. apply (Z.mul_cancel_r i j ns); lia. Qed.

Lemma offsets_pos t o : o ∈ offsets t → 0 < o.
Proof using ns_pos ns_aligned ns_small. intros (i&?&->)%elem_offsets. lia. Qed.

Lemma aligned_mul i : (i * ns) mod 4 = 0.
Proof using ns_pos ns_aligned ns_small. by rewrite Z.mul_mod, ns_aligned, Z.mul_0_r by done. Qed.

Lemma offsets_aligned t o : o ∈ 0 :: offsets t → o mod 4 = 0.
Proof using ns_pos ns_aligned ns_small. intros [->|(i&_&->)%elem_offsets]%elem_of_cons; [done|apply aligned_mul]. Qed.

Lemma in_space_iff t o : 0 ≤ _num_nodes t → in_space ns t o = true ↔ o ∈ 0 :: offsets t.
Proof using ns_pos ns_aligned ns_small.
  intros Hn. unfold in_space, _max_offset. rewrite !andb_true_iff, !Z.leb_le, Z.eqb_eq, elem_of_cons, elem_offsets. split.
  - intros [[? ?] Hm]. apply Z.mod_divide in Hm as [i ->]; [|lia]. destruct (decide (i = 0)) as [->|]; [by left|].
    right. exists i. split; [nia|done].
  - intros [->|(i&?&->)]; [split; [nia|apply Z.mod_0_l; lia]|]. split; [nia|apply Z.mod_mul; lia].
Qed.

(** Tables whose array has the same bounds. *)
Record Same (t t' : table) : Prop := {
  same_mask : _mask t' = _mask t;
  same_num : _num_nodes t' = _num_nodes t;
  same_max : _max_num_items t' = _max_num_items t;
}.

Lemma same_trans t1 t2 t3 : Same t1 t2 → Same t2 t3 → Same t1 t3.
Proof. intros [] []. split; congruence. Qed.

Lemma same_offsets t t' : Same t t' → offsets t' = offsets t.
Proof. intros [_ Hn _]. unfold offsets. by rewrite Hn. Qed.

(** ** Accesses *)
Definition upd (t : table) (o x y : Z) : table := with_nodes t (<[o := PoolNode x y]> (nodes t)).

Lemma node_at_upd t o x y o' : node_at (upd t o x y) o' = if decide (o' = o) then PoolNode x y else node_at t o'.
Proof.
  unfold node_at, upd. cbn. destruct (decide (o' = o)) as [->|]; [by rewrite lookup_insert_eq|by rewrite lookup_insert_ne].
Qed.

Lemma get_node_ok t o : 0 ≤ _num_nodes t → o ∈ 0 :: offsets t → get_node ns t o = Ok (node_at t o).
Proof using ns_pos ns_aligned ns_small. intros Hn Ho. unfold get_node. by rewrite (proj2 (in_space_iff t o Hn) Ho). Qed.

Lemma set_node_ok t o x y : 0 ≤ _num_nodes t → o ∈ 0 :: offsets t → set_node ns t o (PoolNode x y) = Ok (upd t o x y).
Proof using ns_pos ns_aligned ns_small. intros Hn Ho. unfold set_node. by rewrite (proj2 (in_space_iff t o Hn) Ho). Qed.

Lemma put_next_ok t o x : 0 ≤ _num_nodes t → o ∈ 0 :: offsets t → put_next ns t o x = Ok (upd t o x (pv t o)).
Proof using ns_pos ns_aligned ns_small. intros Hn Ho. unfold put_next. rewrite get_node_ok by done. step_ok. by apply set_node_ok. Qed.

Lemma put_prev_over t o x : 0 ≤ _num_nodes t → o ∈ 0 :: offsets t →
  put_prev ns t o x = Ok (upd (with_items t (delete o (items t))) o (nx t o) x).
Proof using ns_pos ns_aligned ns_small.
  intros Hn Ho. unfold put_prev. rewrite get_node_ok by done. step_ok. rewrite set_node_ok by done. done.
Qed.

Lemma put_prev_ok t o x : 0 ≤ _num_nodes t → o ∈ 0 :: offsets t → items t !! o = None → put_prev ns t o x = Ok (upd t o (nx t o) x).
Proof using ns_pos ns_aligned ns_small.
  intros Hn Ho Hi. rewrite put_prev_over by done. rewrite delete_id by done. by destruct t.
Qed.

Lemma node_at_items t m o : node_at (with_items t m) o = node_at t o.
Proof. done. Qed.

Lemma link_next_ok t o x : 0 ≤ _num_nodes t → o ∈ 0 :: offsets t →
  set_next ns t o x = Ok (upd t o (Z.lor (tag (nx t o)) x) (pv t o)).
Proof using ns_pos ns_aligned ns_small. intros Hn Ho. unfold set_next. rewrite get_node_ok by done. step_ok. by apply set_node_ok. Qed.

Lemma nx_upd t o x y o' : nx (upd t o x y) o' = if decide (o' = o) then x else nx t o'.
Proof. rewrite node_at_upd. by destruct (decide _). Qed.

Lemma pv_upd t o x y o' : pv (upd t o x y) o' = if decide (o' = o) then y else pv t o'.
Proof. rewrite node_at_upd. by destruct (decide _). Qed.

(** [dec] decides the equations between offsets that the context settles. *)
Ltac dec := repeat (case_decide; subst; try done; try (exfalso; by auto)).

(** ** The list of free nodes *)
Abbreviation ring t F := (between (λ o, nx t o) (λ o, pv t o) 0 F 0).

Lemma ring_in t F a : ring t F → a ∈ F → nx t a ∈ 0 :: F ∧ pv t a ∈ 0 :: F.
Proof.
  intros HF Ha. apply list_elem_of_split in Ha as (F1&F2&->). apply between_app in HF as [H1 H2].
  apply between_last in H1. apply between_first in H2. cbn in *. rewrite H1, H2. split.
  - destruct F2 as [|x F2]; [left|]. right. apply elem_of_app. right. right. left.
  - pose proof (last_in F1 0) as Hl. apply elem_of_cons in Hl as [->|Hl]; [left|]. right. apply elem_of_app. by left.
Qed.

Lemma allocate_ok t F1 p F2 : 0 ≤ _num_nodes t → ring t (F1 ++ p :: F2) → NoDup (F1 ++ p :: F2) →
  (∀ o, o ∈ F1 ++ p :: F2 → o ∈ offsets t) → (∀ o, o ∈ 0 :: F1 ++ p :: F2 → items t !! o = None) →
  ∃ t', allocate_node ns t p = Ok t' ∧ Same t t' ∧ items t' = items t ∧ _num_items t' = _num_items t + 1 ∧
    ring t' (F1 ++ F2) ∧ nx t' p = PROBE ∧ ∀ o, o ∉ 0 :: F1 ++ p :: F2 → nx t' o = nx t o.
Proof using ns_pos ns_aligned ns_small.
  intros Hn HF Hnd Hin Hnone. assert (Hp : p ∈ F1 ++ p :: F2) by (apply elem_of_app; right; left).
  destruct (ring_in t _ p HF Hp) as [Hr Hl]. set (r := nx t p) in *. set (l := pv t p) in *.
  assert (Hspace : ∀ o, o ∈ 0 :: F1 ++ p :: F2 → o ∈ 0 :: offsets t).
  { intros o [->|Ho]%elem_of_cons; [left|right; auto]. }
  assert (H0 : ∀ o, o ∈ F1 ++ p :: F2 → o ≠ 0) by (intros o Ho; pose proof (offsets_pos t o (Hin o Ho)); lia).
  pose proof HF as [H1 H2]%between_app. pose proof (between_last _ _ _ _ _ H1) as Hl'. pose proof (between_first _ _ _ _ _ H2) as Hr'.
  cbn in Hl', Hr'. fold l in Hl'. fold r in Hr'.
  apply NoDup_app in Hnd as (Hnd1&Hnd12&[Hpn Hnd2]%NoDup_cons).
  assert (Hpr : p ≠ r). { rewrite Hr'. destruct F2; cbn; [by apply H0|]. intros ->. apply Hpn. left. }
  assert (Hpl : p ≠ l). { rewrite Hl'. pose proof (last_in F1 0) as [->|Hi]%elem_of_cons; [by apply H0|].
    intros Hx. rewrite <- Hx in Hi. apply (Hnd12 p Hi). left. }
  unfold allocate_node. set (t0 := with_num_items t (_num_items t + 1)).
  assert (Hat : ∀ o, node_at t0 o = node_at t o) by done.
  rewrite get_node_ok by (done || right; auto). step_ok. rewrite !Hat. fold r l.
  rewrite put_prev_ok by (done || auto || apply Hnone, Hr). step_ok. rewrite get_node_ok by (done || right; auto). step_ok.
  rewrite !nx_upd, !pv_upd, !Hat. rewrite !decide_False by done. fold r l.
  rewrite put_next_ok by (done || auto). step_ok. rewrite put_next_ok by (done || right; auto).
  eexists. split; [done|]. split; [done|]. split; [done|]. split; [done|].
  match goal with |- context [nx ?x p = PROBE] => set (t' := x) end.
  assert (Hnx : ∀ o, nx t' o = if decide (o = p) then PROBE else if decide (o = l) then r else nx t o).
  { intros o. unfold t'. rewrite !nx_upd, !Hat. dec. }
  assert (Hpv : ∀ o, o ≠ p → pv t' o = if decide (o = r) then l else pv t o).
  { intros o Ho. unfold t'. rewrite !pv_upd, !Hat. dec. }
  split; [|split].
  - assert (HA : ∀ c, c = r → between (λ o, nx t' o) (λ o, pv t' o) 0 F1 c).
    { intros c ->. eapply between_relast; [exact H1|..]; try (rewrite <- Hl').
      - apply NoDup_cons. split; [|done]. intros Hx. apply (H0 0); [|done]. apply elem_of_app. by left.
      - intros o Ho Hne. cbn. rewrite Hnx. rewrite !decide_False; [done|done|]. intros ->.
        apply elem_of_cons in Ho as [->|Ho]; [by apply (H0 0)|]. apply (Hnd12 p Ho). left.
      - intros o Ho. cbn. rewrite Hpv; [|intros ->; apply (Hnd12 p Ho); left]. rewrite decide_False; [done|]. intros ->.
        rewrite Hr' in Ho. destruct F2 as [|x F2]; cbn in Ho; [apply (H0 0); [|done]; apply elem_of_app; by left|].
        apply (Hnd12 x Ho). right. left.
      - cbn. rewrite Hnx, decide_False, decide_True by done. done.
      - cbn. rewrite Hpv, decide_True by done. done. }
    destruct F2 as [|x F2]; [rewrite app_nil_r; by apply HA|]. apply between_app. split; [by apply HA|].
    cbn in H2. destruct H2 as (_&_&H2). eapply between_frame; [exact H2|..]; cbn.
    + intros o Ho. rewrite Hnx. rewrite !decide_False; [done|..]; intros ->; [|done].
      rewrite Hl' in Ho. pose proof (last_in F1 0) as [E|Hi]%elem_of_cons.
      * rewrite E in Ho. apply (H0 0); [|done]. apply elem_of_app. right. by right.
      * apply (Hnd12 _ Hi). by right.
    + intros o Ho. apply NoDup_cons in Hnd2 as [Hx _]. rewrite Hpv.
      * rewrite decide_False; [done|]. rewrite Hr'. cbn. intros ->. apply elem_of_app in Ho as [Ho| ->%list_elem_of_singleton]; [done|].
        apply (H0 0); [|done]. apply elem_of_app. right. right. left.
      * intros ->. apply elem_of_app in Ho as [Ho|E%list_elem_of_singleton]; [apply Hpn; by right|]. by apply (H0 p).
  - by rewrite Hnx, decide_True.
  - intros o Ho. rewrite Hnx. rewrite !decide_False; [done|..]; intros ->; apply Ho; [done|]. right. done.
Qed.

Lemma deallocate_ok t F o : 0 ≤ _num_nodes t → ring t F → NoDup F → (∀ o, o ∈ F → o ∈ offsets t) → o ∉ F → o ∈ offsets t →
  items t !! 0 = None →
  ∃ t', deallocate_node ns t o = Ok t' ∧ Same t t' ∧ items t' = delete o (items t) ∧ _num_items t' = _num_items t - 1 ∧
    ring t' (F ++ [o]) ∧ ∀ o', o' ∉ 0 :: F ++ [o] → nx t' o' = nx t o'.
Proof using ns_pos ns_aligned ns_small.
  intros Hn HF Hnd Hin Ho Hoff Hnone. pose proof (between_last _ _ _ _ _ HF) as Hl. cbn in Hl. set (l := List.last F 0) in *.
  pose proof (offsets_pos t o Hoff) as Hpos.
  assert (H0 : ∀ o, o ∈ F → o ≠ 0) by (intros o' Ho'; pose proof (offsets_pos t o' (Hin o' Ho')); lia).
  assert (Hlin : l ∈ 0 :: F) by apply last_in.
  assert (Hlo : l ≠ o). { intros E. rewrite E in Hlin. apply elem_of_cons in Hlin as [?|?]; [lia|done]. }
  unfold deallocate_node. set (t0 := with_num_items t (_num_items t - 1)).
  assert (Hat : ∀ o, node_at t0 o = node_at t o) by done.
  rewrite get_node_ok by (done || left). step_ok. rewrite !Hat, Hl.
  rewrite put_next_ok by (done || right; done). step_ok. rewrite put_prev_over by (done || right; done). step_ok.
  rewrite put_prev_ok by (done || left || (cbn; by rewrite lookup_delete_ne by lia)). step_ok.
  rewrite put_next_ok; [|done|apply elem_of_cons in Hlin as [->|Hlin]; [left|right; auto]].
  eexists. split; [done|]. split; [done|]. split; [done|]. split; [done|].
  match goal with |- between (λ o, nx ?x o) _ _ _ _ ∧ _ => set (t' := x) end.
  assert (Hnx : ∀ o', nx t' o' = if decide (o' = l) then o else if decide (o' = o) then 0 else nx t o').
  { intros o'. unfold t'. repeat rewrite ?nx_upd, ?node_at_items, ?Hat. dec; lia. }
  assert (Hpv : ∀ o', pv t' o' = if decide (o' = 0) then o else if decide (o' = o) then l else pv t o').
  { intros o'. unfold t'. repeat rewrite ?pv_upd, ?node_at_items, ?Hat. dec; lia. }
  split.
  - apply between_app. split.
    + eapply between_relast; [exact HF|..]; fold l; cbn.
      * apply NoDup_cons. split; [intros Hx; by apply (H0 0)|done].
      * intros o' Ho' Hne. rewrite Hnx, !decide_False; [done|..]; try done. intros ->.
        apply elem_of_cons in Ho' as [?|?]; [lia|done].
      * intros o' Ho'. rewrite Hpv, !decide_False; [done|..]; [by intros ->|by apply H0].
      * by rewrite Hnx, decide_True.
      * rewrite Hpv, decide_False, decide_True by (done || lia). done.
    + cbn. rewrite Hnx, Hpv. rewrite decide_False, !decide_True by (done || lia). done.
  - intros o' Ho'. rewrite Hnx, !decide_False; [done|..]; intros ->; apply Ho'.
    + right. apply elem_of_app. right. left.
    + apply elem_of_cons in Hlin as [->|Hlin]; [left|]. right. apply elem_of_app. by left.
Qed.

(** ** What the array holds *)
Abbreviation home t k := (get_hash_head hash_function ns t k).

Lemma log_loop_le fuel num : ∀ n, 0 ≤ n → 2 ^ n ≤ num → 0 ≤ log_loop fuel num n ∧ 2 ^ log_loop fuel num n ≤ num.
Proof.
  induction fuel as [|fuel IH]; intros n Hn Hle; cbn [log_loop]; [done|].
  rewrite Z.shiftl_1_l. destruct (Z.leb_spec (2 ^ (n + 1)) num); [apply IH; [lia|done]|done].
Qed.

Lemma home_in t k : 1 ≤ _num_nodes t → _mask t = mask_of (_num_nodes t) → home t k ∈ offsets t.
Proof.
  intros Hn Hm. unfold get_hash_head, find_offset. rewrite Hm. unfold mask_of.
  destruct (log_loop_le (Z.to_nat (_num_nodes t)) (_num_nodes t) 0) as [H0 Hle]; [done|done|].
  set (n := log_loop _ _ _) in *. rewrite Z.shiftl_1_l, Z.sub_1_r, <- Z.ones_equiv, Z.land_ones by done.
  apply elem_offsets. eexists. split; [|done].
  pose proof (Z.mod_pos_bound (hash_function k) (2 ^ n) ltac:(apply Z.pow_pos_nonneg; lia)). lia.
Qed.

Definition entries (t : table) (os : list Z) : list (K * V) := omap (λ o, items t !! o) os.

Lemma entries_app t os os' : entries t (os ++ os') = entries t os ++ entries t os'.
Proof. apply omap_app. Qed.

#[local] Instance entries_proper t : Proper ((≡ₚ) ==> (≡ₚ)) (entries t).
Proof. intros os os' Hp. unfold entries. by rewrite Hp. Qed.

Lemma entries_cons t o os x : items t !! o = Some x → entries t (o :: os) = x :: entries t os.
Proof. intros Hx. unfold entries. cbn. by rewrite Hx. Qed.

Lemma entries_frame t t' os : (∀ o, o ∈ os → items t' !! o = items t !! o) → entries t' os = entries t os.
Proof.
  intros Hi. induction os as [|o os IH]; [done|]. unfold entries in *. cbn. rewrite Hi by left.
  rewrite IH by (intros o' Ho'; apply Hi; by right). done.
Qed.

Lemma elem_entries t os x : x ∈ entries t os ↔ ∃ o, o ∈ os ∧ items t !! o = Some x.
Proof. unfold entries. rewrite list_elem_of_omap. done. Qed.

(** The nodes [c], linked in this order, are the chain of the first. *)
Record Chain (t : table) (h : Z) (l : list Z) : Prop := {
  ch_head : tag (nx t h) = HEAD;
  ch_probe : Forall (λ o, tag (nx t o) = PROBE) l;
  ch_linked : linked (λ o, nx t o) (h :: l) 0;
  ch_home : Forall (λ o, ∃ x, items t !! o = Some x ∧ home t x.1 = h) (h :: l);
}.
Definition chain (t : table) (c : list Z) : Prop := match c with [] => False | h :: l => Chain t h l end.

Lemma chain_frame t t' c : _mask t' = _mask t → (∀ o, o ∈ c → nx t' o = nx t o ∧ items t' !! o = items t !! o) →
  chain t c → chain t' c.
Proof.
  intros Hm Hf. destruct c as [|h l]; [done|]. intros [H1 H2 H3 H4]. split.
  - by rewrite (proj1 (Hf h (list_elem_of_here h l))).
  - rewrite Forall_forall in *. intros o Ho. rewrite (proj1 (Hf o (list_elem_of_further o h l Ho))). auto.
  - eapply linked_frame; [exact H3|]. cbn. intros o Ho. by rewrite (proj1 (Hf o Ho)).
  - rewrite Forall_forall in *. intros o Ho. destruct (H4 o Ho) as (x&Hx&Hh). exists x.
    rewrite (proj2 (Hf o Ho)). split; [done|]. unfold get_hash_head, find_offset in *. by rewrite Hm.
Qed.

(** The nodes are chains, nodes still to be placed, free nodes and others; the items of the
    chains and the nodes to be placed are those of [m]. *)
Record Rep (t : table) chs R F H (m : gmap K V) : Prop := {
  rp_num : 1 ≤ _num_nodes t;
  rp_mask : _mask t = mask_of (_num_nodes t);
  rp_nodes : concat chs ++ R ++ F ++ H ≡ₚ offsets t;
  rp_chains : Forall (chain t) chs;
  rp_rehash : Forall (λ o, tag (nx t o) = REHASH ∧ is_Some (items t !! o)) R;
  rp_free : ring t F;
  rp_items : entries t (concat chs ++ R) ≡ₚ map_to_list m;
  rp_none o : o ∈ 0 :: F → items t !! o = None;
  rp_beyond o : o ∉ 0 :: offsets t → tag (nx t o) = EMPTY;
}.
Lemma rp_nodup t chs R F H m : Rep t chs R F H m → NoDup (concat chs ++ R ++ F ++ H).
Proof using ns_pos ns_aligned ns_small. intros Hr. rewrite (rp_nodes _ _ _ _ _ _ Hr). apply offsets_NoDup. Qed.

Lemma rp_in t chs R F H m o : Rep t chs R F H m → o ∈ concat chs ++ R ++ F ++ H ↔ o ∈ offsets t.
Proof. intros Hr. by rewrite (rp_nodes _ _ _ _ _ _ Hr). Qed.

Lemma rp_nonneg t chs R F H m : Rep t chs R F H m → 0 ≤ _num_nodes t.
Proof. intros Hr. pose proof (rp_num _ _ _ _ _ _ Hr). lia. Qed.

Lemma rp_nonzero t chs R F H m : Rep t chs R F H m → 0 ∉ concat chs ++ R ++ F ++ H.
Proof using ns_pos ns_aligned ns_small. intros Hr H0. apply (rp_in _ _ _ _ _ _ _ Hr), offsets_pos in H0. lia. Qed.

Lemma rep_perm t chs chs' R R' F H H' m : chs ≡ₚ chs' → R ≡ₚ R' → H ≡ₚ H' → Rep t chs R F H m → Rep t chs' R' F H' m.
Proof. intros Hc HR HH []. split; try done; by rewrite <- ?Hc, <- ?HR, <- ?HH. Qed.

(** Changes outside what is represented. *)
Lemma elem_concat (chs : list (list Z)) o : o ∈ concat chs ↔ ∃ c, o ∈ c ∧ c ∈ chs.
Proof.
  induction chs as [|c chs IH]; cbn.
  - split; [by intros ?%elem_of_nil|]. by intros (?&_&?%elem_of_nil).
  - rewrite elem_of_app, IH. setoid_rewrite elem_of_cons. naive_solver.
Qed.

Lemma rep_frame t t' chs R F H m : Rep t chs R F H m → Same t t' →
  (∀ o, o ∈ concat chs ++ R → nx t' o = nx t o ∧ items t' !! o = items t !! o) → ring t' F →
  (∀ o, o ∈ 0 :: F → items t' !! o = items t !! o) →
  (∀ o, o ∉ 0 :: offsets t → nx t' o = nx t o) → Rep t' chs R F H m.
Proof.
  intros [Hn Hm Hnodes Hc HR HF Hi He Hb] Hs Hf HF' Hi' Hb'. pose proof (same_offsets _ _ Hs) as Ho. destruct Hs as [Hsm Hsn _].
  split; rewrite ?Hsm, ?Hsn, ?Ho; try done.
  - rewrite Forall_forall in *. intros c Hin. eapply (chain_frame t); [done| |by apply Hc].
    intros o Hoc. apply Hf, elem_of_app. left. apply elem_concat. eauto.
  - rewrite Forall_forall in *. intros o Hin. destruct (Hf o) as [-> ->]; [apply elem_of_app; by right|auto].
  - rewrite (entries_frame t); [done|]. intros o Hin. by apply Hf.
  - intros o Hin. rewrite Hi' by done. auto.
  - intros o Hin. rewrite Hb' by done. auto.
Qed.

(** ** Steps *)
Lemma rep_alloc t chs R F1 p F2 H m : Rep t chs R (F1 ++ p :: F2) H m →
  ∃ t', allocate_node ns t p = Ok t' ∧ Rep t' chs R (F1 ++ F2) (p :: H) m ∧ Same t t' ∧ items t' = items t ∧
    _num_items t' = _num_items t + 1 ∧ nx t' p = PROBE ∧ ∀ o, o ∈ concat chs ++ R ++ H → nx t' o = nx t o.
Proof using ns_pos ns_aligned ns_small.
  intros Hr. pose proof (rp_nodup _ _ _ _ _ _ Hr) as Hnd. pose proof (rp_nonzero _ _ _ _ _ _ Hr) as H0.
  assert (Hdis : ∀ o, o ∈ concat chs ++ R ++ H → o ∉ 0 :: F1 ++ p :: F2).
  { intros o Ho. rewrite elem_of_cons. intros [->|Hf]; [apply H0; set_solver|].
    assert (Hnd' : NoDup ((concat chs ++ R ++ H) ++ (F1 ++ p :: F2))).
    { rewrite <- !(app_assoc (concat chs)), <- (app_assoc R). by rewrite (Permutation_app_comm H). }
    apply NoDup_app in Hnd' as (_&Hd&_). by apply (Hd o). }
  rewrite (app_assoc (concat chs)) in Hnd. apply NoDup_app in Hnd as (_&_&(HndF&_&_)%NoDup_app).
  destruct (allocate_ok t F1 p F2) as (t'&He&Hs&Hi&Hc&Hring&Hp&Hnx); [by eapply rp_nonneg|apply Hr|done| |apply Hr|].
  { intros o Ho. rewrite <- rp_in by done. set_solver. }
  exists t'. split; [done|]. split; [|split; [done|]; split; [done|]; split; [done|]; split; [done|]; intros o Ho; auto].
  destruct Hr as [Hn Hm Hnodes Hch HR HF Hit Hno Hb]. pose proof Hs as [Hsm Hsn _].
  split; rewrite ?Hsm, ?Hsn, ?(same_offsets _ _ Hs); try done.
  - rewrite <- Hnodes. solve_Permutation.
  - rewrite Forall_forall in *. intros c Hin. eapply (chain_frame t); [done| |by apply Hch].
    intros o Hoc. rewrite Hi. split; [|done]. apply Hnx, Hdis. apply elem_of_app. left. apply elem_concat. eauto.
  - rewrite Forall_forall in *. intros o Hin. rewrite Hi, Hnx; [auto|]. apply Hdis. set_solver.
  - rewrite (entries_frame t); [done|]. intros. by rewrite Hi.
  - intros o Hin. rewrite Hi. apply Hno. set_solver +Hin.
  - intros o Hin. rewrite Hnx; [auto|]. intros Ho. apply Hin. apply elem_of_cons in Ho as [->|Ho]; [left|].
    right. rewrite <- Hnodes. set_solver.
Qed.

Lemma rep_dealloc t chs R F o H m : Rep t chs R F (o :: H) m →
  ∃ t', deallocate_node ns t o = Ok t' ∧ Rep t' chs R (F ++ [o]) H m ∧ Same t t' ∧ items t' = delete o (items t) ∧
    _num_items t' = _num_items t - 1 ∧ ∀ o', o' ∈ concat chs ++ R ++ H → nx t' o' = nx t o'.
Proof using ns_pos ns_aligned ns_small.
  intros Hr. pose proof (rp_nodup _ _ _ _ _ _ Hr) as Hnd. pose proof (rp_nonzero _ _ _ _ _ _ Hr) as H0.
  assert (Hnd' : NoDup ((concat chs ++ R ++ H) ++ (F ++ [o]))).
  { refine (proj1 (NoDup_Permutation_proper _ _ _) Hnd). solve_Permutation. }
  assert (Hdis : ∀ o', o' ∈ concat chs ++ R ++ H → o' ∉ 0 :: F ++ [o]).
  { intros o' Ho. rewrite elem_of_cons. intros [->|Hf]; [apply H0; set_solver|]. apply NoDup_app in Hnd' as (_&Hd&_). by apply (Hd o'). }
  apply NoDup_app in Hnd' as (_&_&(HndF&Hd&_)%NoDup_app).
  destruct (deallocate_ok t F o) as (t'&He&Hs&Hi&Hc&Hring&Hnx); [by eapply rp_nonneg|apply Hr|done| | | |apply Hr; left|].
  { intros o' Ho. rewrite <- rp_in by done. set_solver. }
  { intros Ho. apply (Hd o Ho). left. }
  { rewrite <- rp_in by done. set_solver. }
  exists t'. split; [done|]. split; [|split; [done|]; split; [done|]; split; [done|]; intros o' Ho; auto].
  assert (Hio : ∀ o', o' ∈ concat chs ++ R → items t' !! o' = items t !! o').
  { intros o' Ho'. rewrite Hi, lookup_delete_ne; [done|]. intros <-. apply (Hdis o); set_solver +Ho'. }
  destruct Hr as [Hn Hm Hnodes Hch HR HF Hit Hno Hb]. pose proof Hs as [Hsm Hsn _].
  split; rewrite ?Hsm, ?Hsn, ?(same_offsets _ _ Hs); try done.
  - rewrite <- Hnodes. solve_Permutation.
  - rewrite Forall_forall in *. intros c Hin. eapply (chain_frame t); [done| |by apply Hch].
    intros o' Hoc. assert (Hc' : o' ∈ concat chs) by (apply elem_concat; eauto). rewrite Hio by set_solver +Hc'.
    split; [|done]. apply Hnx, Hdis. set_solver +Hc'.
  - rewrite Forall_forall in *. intros o' Hin. rewrite Hio, Hnx; [auto| |set_solver +Hin]. apply Hdis. set_solver +Hin.
  - by rewrite (entries_frame t).
  - intros o' Hin. rewrite Hi. destruct (decide (o' = o)) as [->|Hne]; [by rewrite lookup_delete_eq|].
    rewrite lookup_delete_ne by done. apply Hno. set_solver +Hin Hne.
  - intros o' Hin. rewrite Hnx; [auto|]. intros Ho. apply Hin. apply elem_of_cons in Ho as [->|Ho]; [left|].
    right. rewrite <- Hnodes. set_solver.
Qed.

Lemma between_ext f g f' g' a F b : between f g a F b → (∀ o, o ∈ a :: F → f' o = f o) → (∀ o, o ∈ b :: F → g' o = g o) →
  between f' g' a F b.
Proof. intros HF Hf Hg. eapply between_frame; [done|done|]. intros o Ho. apply Hg. set_solver. Qed.

(** Writing to a node that is neither free nor in use. *)
Lemma rep_put_next t chs R F H m o x : Rep t chs R F H m → o ∈ H →
  ∃ t', put_next ns t o x = Ok t' ∧ Rep t' chs R F H m ∧ Same t t' ∧ items t' = items t ∧ _num_items t' = _num_items t ∧
    nx t' o = x ∧ ∀ o', o' ≠ o → nx t' o' = nx t o'.
Proof using ns_pos ns_aligned ns_small.
  intros Hr Ho. pose proof (rp_nodup _ _ _ _ _ _ Hr) as Hnd. pose proof (rp_nonzero _ _ _ _ _ _ Hr) as H0.
  assert (Hin : o ∈ offsets t) by (rewrite <- rp_in by done; set_solver).
  exists (upd t o x (pv t o)). rewrite put_next_ok by (by eapply rp_nonneg || right). split; [done|].
  assert (Hnx : ∀ o', o' ≠ o → nx (upd t o x (pv t o)) o' = nx t o') by (intros o' Hne; by rewrite nx_upd, decide_False).
  assert (Hdis : ∀ o', o' ∈ 0 :: concat chs ++ R ++ F → o' ≠ o).
  { intros o' Ho' ->. apply elem_of_cons in Ho' as [->|Ho']; [apply H0; set_solver|].
    rewrite (app_assoc R), (app_assoc (concat chs)) in Hnd. apply NoDup_app in Hnd as (_&Hd&_). by apply (Hd o). }
  split; [|repeat (split; [done|]); by rewrite nx_upd, decide_True].
  eapply rep_frame; [exact Hr|done|..].
  - intros o' Ho'. split; [|done]. apply Hnx, Hdis. set_solver.
  - eapply between_ext; [apply Hr|..]; cbn; intros o' Ho'; [apply Hnx, Hdis; set_solver|].
    rewrite pv_upd. by destruct (decide (o' = o)) as [->|].
  - done.
  - intros o' Ho'. apply Hnx. intros ->. apply Ho'. by right.
Qed.

Lemma rep_items t t' chs R F H m : Rep t chs R F H m → Same t t' →
  (∀ o, nx t' o = nx t o) → (∀ o, o ∉ H → pv t' o = pv t o ∧ items t' !! o = items t !! o) → Rep t' chs R F H m.
Proof using ns_pos ns_aligned ns_small.
  intros Hr Hs Hn Hi. pose proof (rp_nodup _ _ _ _ _ _ Hr) as Hnd. pose proof (rp_nonzero _ _ _ _ _ _ Hr) as H0.
  assert (HF : ∀ o, o ∈ 0 :: F → o ∉ H).
  { intros o [->|Ho]%elem_of_cons Hh; [apply H0; set_solver +Hh|]. rewrite (app_assoc R), (app_assoc (concat chs)) in Hnd.
    apply NoDup_app in Hnd as (_&Hd&_). apply (Hd o); [set_solver +Ho|done]. }
  eapply rep_frame; [exact Hr|done|..].
  - intros o Ho. split; [done|]. apply Hi. intros Hh. rewrite (app_assoc (concat chs)) in Hnd. apply NoDup_app in Hnd as (_&Hd&_).
    apply (Hd o Ho). set_solver +Hh.
  - eapply between_ext; [apply Hr|..]; cbn; intros o Ho; [done|]. by apply Hi, HF.
  - intros o Ho. by apply Hi, HF.
  - done.
Qed.

(** Putting an item into such a node, or forgetting it. *)
Lemma put_item_ok (overlay : K * V → Z → Z) t o x : 0 ≤ _num_nodes t → o ∈ offsets t → ∃ t', put_item ns overlay t o x = Ok t' ∧
  Same t t' ∧ _num_items t' = _num_items t ∧ (∀ p, nx t' p = nx t p) ∧ (∀ p, p ≠ o → node_at t' p = node_at t p) ∧
  items t' = <[o := x]> (items t).
Proof using ns_pos ns_aligned ns_small.
  intros Hn Ho. unfold put_item. rewrite get_node_ok by (done || by right). step_ok. rewrite set_node_ok by (done || by right). step_ok.
  eexists. split; [done|]. split; [done|]. split; [done|]. split; [|split; [|done]]; intros p; rewrite node_at_items.
  - rewrite nx_upd. by destruct (decide (p = o)) as [->|].
  - intros Hp. by rewrite node_at_upd, decide_False.
Qed.

Lemma rep_num_items t chs R F H m n : Rep t chs R F H m → Rep (with_num_items t n) chs R F H m.
Proof using ns_pos ns_aligned ns_small. intros Hr. by eapply rep_items. Qed.

(** What is known of the items. *)
Lemma rep_item t chs R F H m o : Rep t chs R F H m → o ∈ concat chs ++ R → ∃ x, items t !! o = Some x ∧ m !! x.1 = Some x.2.
Proof.
  intros Hr Ho. assert (Hx : ∃ x, items t !! o = Some x).
  { apply elem_of_app in Ho as [(c&Hoc&Hc)%elem_concat|Ho].
    - pose proof (proj1 (Forall_forall _ _) (rp_chains _ _ _ _ _ _ Hr) c Hc) as Hch. destruct c as [|h l]; [done|].
      destruct (proj1 (Forall_forall _ _) (ch_home _ _ _ Hch) o Hoc) as (x&Hx&_). eauto.
    - by apply (proj1 (Forall_forall _ _) (rp_rehash _ _ _ _ _ _ Hr)). }
  destruct Hx as [[k v] Hx]. exists (k, v). split; [done|]. apply elem_of_map_to_list.
  rewrite <- (rp_items _ _ _ _ _ _ Hr). apply elem_entries. eauto.
Qed.

Lemma rep_lookup t chs R F H m k v : Rep t chs R F H m → m !! k = Some v →
  ∃ o, o ∈ concat chs ++ R ∧ items t !! o = Some (k, v).
Proof.
  intros Hr Hk. apply elem_of_map_to_list in Hk. rewrite <- (rp_items _ _ _ _ _ _ Hr) in Hk. by apply elem_entries.
Qed.

Lemma map_to_list_delete_perm (m : gmap K V) k v es : (k, v) :: es ≡ₚ map_to_list m → es ≡ₚ map_to_list (delete k m).
Proof.
  intros Hp. assert (Hk : m !! k = Some v) by (apply elem_of_map_to_list; rewrite <- Hp; left).
  rewrite <- (map_to_list_delete _ _ _ Hk) in Hp. by apply (inj (cons (k, v))) in Hp.
Qed.

(** An item leaves a node that is to be placed, or comes to one. *)
Lemma rep_unplace_rehash t chs R F o H m x : Rep t chs (o :: R) F H m → items t !! o = Some x →
  Rep t chs R F (o :: H) (delete x.1 m).
Proof.
  intros [Hn Hm Hnodes Hch HR HF Hit Hno Hb] Hx. apply Forall_cons in HR as [_ HR]. split; try done.
  - rewrite <- Hnodes. solve_Permutation.
  - apply (map_to_list_delete_perm m x.1 x.2). rewrite <- Hit, !entries_app, (entries_cons _ _ _ _ Hx).
    destruct x. cbn. by rewrite Permutation_middle.
Qed.

Lemma rep_place_rehash t chs R F o H m x : Rep t chs R F (o :: H) m → items t !! o = Some x → tag (nx t o) = REHASH →
  m !! x.1 = None → Rep t chs (o :: R) F H (<[x.1 := x.2]> m).
Proof.
  intros [Hn Hm Hnodes Hch HR HF Hit Hno Hb] Hx Ht Hk. split; try done.
  - rewrite <- Hnodes. solve_Permutation.
  - apply Forall_cons. split; [|done]. split; [done|by exists x].
  - rewrite map_to_list_insert, <- Hit, !entries_app, (entries_cons _ _ _ _ Hx) by done.
    destruct x. cbn. by rewrite <- Permutation_middle.
Qed.

Lemma rep_place_head t chs R F o H m x : Rep t chs R F (o :: H) m → items t !! o = Some x → nx t o = HEAD →
  home t x.1 = o → m !! x.1 = None → Rep t ([o] :: chs) R F H (<[x.1 := x.2]> m).
Proof.
  intros [Hn Hm Hnodes Hch HR HF Hit Hno Hb] Hx Ht Hh Hk. split; try done.
  - rewrite <- Hnodes. cbn. solve_Permutation.
  - apply Forall_cons. split; [|done]. split; rewrite ?Ht; try done.
    + cbn. by rewrite Ht.
    + apply Forall_singleton. by exists x.
  - rewrite map_to_list_insert by done. cbn [concat app]. rewrite (entries_cons _ _ _ _ Hx), <- Hit. by destruct x.
Qed.

(** The chains [cs] become [cs'] by changes to their nodes and to those outside. *)
Lemma rep_rechain t t' cs cs' chs R F H H' m m' : Rep t (cs ++ chs) R F H m → Same t t' →
  concat cs ++ H ≡ₚ concat cs' ++ H' → Forall (chain t') cs' →
  (∀ o, o ∉ concat cs ++ H → node_at t' o = node_at t o ∧ items t' !! o = items t !! o) →
  (∀ es, entries t (concat cs) ++ es ≡ₚ map_to_list m → entries t' (concat cs') ++ es ≡ₚ map_to_list m') →
  Rep t' (cs' ++ chs) R F H' m'.
Proof using ns_pos ns_aligned ns_small.
  intros Hr Hs Hp Hcs' Hf He. pose proof (rp_nodup _ _ _ _ _ _ Hr) as Hnd. pose proof (rp_nonzero _ _ _ _ _ _ Hr) as H0.
  assert (Hdis : ∀ o, o ∈ 0 :: concat chs ++ R ++ F → o ∉ concat cs ++ H).
  { rewrite concat_app in *. intros o [->|Ho]%elem_of_cons Hin; [apply H0; set_solver|].
    assert (Hnd' : NoDup ((concat chs ++ R ++ F) ++ (concat cs ++ H))).
    { refine (proj1 (NoDup_Permutation_proper _ _ _) Hnd). solve_Permutation. }
    apply NoDup_app in Hnd' as (_&Hd&_). by apply (Hd o). }
  assert (Hout : ∀ o, o ∉ 0 :: offsets t → o ∉ concat cs ++ H).
  { intros o Ho Hin. apply Ho. right. rewrite <- rp_in by done. rewrite concat_app. set_solver. }
  destruct Hr as [Hn Hm Hnodes Hch HR HF Hit Hno Hb]. pose proof Hs as [Hsm Hsn _]. rewrite concat_app in Hnodes, Hit.
  apply Forall_app in Hch as [_ Hch]. split; rewrite ?Hsm, ?Hsn, ?(same_offsets _ _ Hs), ?concat_app; try done.
  - rewrite <- Hnodes. trans ((concat cs' ++ H') ++ concat chs ++ R ++ F); [solve_Permutation|]. rewrite <- Hp. solve_Permutation.
  - apply Forall_app. split; [done|]. rewrite Forall_forall in *. intros c Hin. eapply (chain_frame t); [done| |by apply Hch].
    intros o Hoc. destruct (Hf o) as [-> ->]; [|done]. apply Hdis. right. apply elem_of_app. left. apply elem_concat. eauto.
  - rewrite Forall_forall in *. intros o Hin. destruct (Hf o) as [-> ->]; [apply Hdis; set_solver|auto].
  - eapply between_ext; [exact HF|..]; cbn; intros o Ho; (destruct (Hf o) as [-> _]; [apply Hdis; set_solver|done]).
  - rewrite <- app_assoc in Hit |- *. rewrite entries_app in Hit |- *. rewrite (entries_frame t t' (concat chs ++ R)).
    + by apply He.
    + intros o Ho. apply Hf, Hdis. set_solver.
  - intros o Ho. destruct (Hf o) as [_ ->]; [apply Hdis; set_solver +Ho|by apply Hno].
  - intros o Ho. destruct (Hf o) as [-> _]; [auto|by auto].
Qed.

Lemma rep_chain_nodup t c chs R F H m : Rep t (c :: chs) R F H m → NoDup (c ++ H).
Proof using ns_pos ns_aligned ns_small.
  intros Hr. pose proof (rp_nodup _ _ _ _ _ _ Hr) as Hnd. cbn in Hnd.
  assert (Hnd' : NoDup ((c ++ H) ++ (concat chs ++ R ++ F))).
  { refine (proj1 (NoDup_Permutation_proper _ _ _) Hnd). solve_Permutation. }
  by apply NoDup_app in Hnd' as (?&_).
Qed.

Lemma rep_chain_in t c chs R F H m o : Rep t (c :: chs) R F H m → o ∈ c ++ H → o ∈ offsets t.
Proof using ns_pos ns_aligned ns_small. intros Hr Ho. rewrite <- rp_in by done. cbn. set_solver. Qed.

Lemma rep_chain t c chs R F H m : Rep t (c :: chs) R F H m → chain t c.
Proof. intros Hr. by pose proof (rp_chains _ _ _ _ _ _ Hr) as [? _]%Forall_cons. Qed.

(** [set_next] on a node of the chain, to another node or to nothing. *)
Lemma set_next_chain t c chs R F H m e p : Rep t (c :: chs) R F H m → e ∈ c → p = 0 ∨ p ∈ offsets t →
  ∃ t', set_next ns t e p = Ok t' ∧ Same t t' ∧ items t' = items t ∧ _num_items t' = _num_items t ∧
    tag (nx t' e) = tag (nx t e) ∧ link (nx t' e) = p ∧ ∀ o, o ≠ e → node_at t' o = node_at t o.
Proof using ns_pos ns_aligned ns_small.
  intros Hr He Hp. assert (Hpa : p mod 4 = 0) by (apply (offsets_aligned t); destruct Hp as [->|?]; [left|by right]).
  assert (He' : e ∈ offsets t) by (eapply rep_chain_in; [exact Hr|set_solver]).
  rewrite link_next_ok by (by eapply rp_nonneg || by right).
  eexists. split; [done|]. split; [done|]. split; [done|]. split; [done|]. rewrite nx_upd, decide_True by done.
  split; [apply tag_lor; [apply tag_range|done]|]. split; [apply link_lor; [apply tag_range|done]|].
  intros o Ho. by rewrite node_at_upd, decide_False.
Qed.

(** An item [x] has come to the node [p]; what the nodes [H] hold may have changed too. *)
Record Placed H (t : table) (p : Z) (x : K * V) (t' : table) : Prop := {
  pl_same : Same t t';
  pl_count : _num_items t' = _num_items t;
  pl_next : ∀ o, nx t' o = nx t o;
  pl_item : items t' !! p = Some x;
  pl_node : ∀ o, o ∉ p :: H → node_at t' o = node_at t o;
  pl_items : ∀ o, o ∉ p :: H → items t' !! o = items t !! o;
}.

Lemma put_item_placed (overlay : K * V → Z → Z) H t o x : 0 ≤ _num_nodes t → o ∈ offsets t →
  ∃ t', put_item ns overlay t o x = Ok t' ∧ Placed H t o x t'.
Proof using ns_pos ns_aligned ns_small.
  intros Hn Ho. destruct (put_item_ok overlay t o x Hn Ho) as (t'&->&Hs&Hc&Hnx&Hat&Hi). exists t'. split; [done|].
  split; [done|done|done|by rewrite Hi, lookup_insert_eq|..]; intros p Hp; [apply Hat; set_solver +Hp|].
  rewrite Hi, lookup_insert_ne; [done|]. set_solver +Hp.
Qed.

Lemma rep_placed t t' chs R F p H m x : Rep t chs R F (p :: H) m → Placed H t p x t' → Rep t' chs R F (p :: H) m.
Proof using ns_pos ns_aligned ns_small.
  intros Hr [Hs _ Hn _ Hat Hi]. eapply rep_items; [exact Hr|done|done|]. intros o Ho. by rewrite Hat, Hi.
Qed.

(** To the end of a chain. *)
Lemma rep_place_tail t h l chs R F p H m x : Rep t ((h :: l) :: chs) R F (p :: H) m → nx t p = PROBE →
  home t x.1 = h → m !! x.1 = None →
  ∃ t', set_next ns t (List.last l h) p = Ok t' ∧ Same t t' ∧ items t' = items t ∧ _num_items t' = _num_items t ∧
    (∀ o, o ≠ List.last l h → node_at t' o = node_at t o) ∧
    ∀ t'', Placed H t' p x t'' → Rep t'' ((h :: l ++ [p]) :: chs) R F H (<[x.1 := x.2]> m).
Proof using ns_pos ns_aligned ns_small.
  intros Hr Hp Hh Hk. set (e := List.last l h). pose proof (last_in l h) as He. fold e in He.
  pose proof (rep_chain_nodup _ _ _ _ _ _ _ Hr) as Hnd. pose proof (rep_chain _ _ _ _ _ _ _ Hr) as [Hch1 Hch2 Hch3 Hch4].
  assert (Hpin : p ∈ offsets t) by (eapply rep_chain_in; [exact Hr|set_solver +]).
  destruct (set_next_chain _ _ _ _ _ _ _ e p Hr He) as (t'&Hset&Hs&Hi&Hc&Ht&Hl&Hat); [by right|].
  exists t'. split; [done|]. split; [done|]. split; [done|]. split; [done|]. split; [done|].
  intros t'' [Hs'' _ Hat' Hpp Hnode Hitems].
  apply NoDup_app in Hnd as (Hnd&Hpc&_). assert (Hpn : p ∉ h :: l). { intros Hx. apply (Hpc p Hx). left. }
  assert (Hst : Same t t'') by (by eapply same_trans).
  assert (Htag : ∀ o, tag (nx t' o) = tag (nx t o)). { intros o. destruct (decide (o = e)) as [->|Hne]; [done|by rewrite Hat]. }
  assert (Hitem : ∀ o, o ∉ p :: H → items t'' !! o = items t !! o) by (intros o Hne; by rewrite Hitems, Hi).
  apply (rep_rechain t _ [h :: l] [h :: l ++ [p]] chs R F (p :: H) H m); try done.
  - cbn. rewrite !app_nil_r. solve_Permutation.
  - apply Forall_singleton. split.
    + by rewrite Hat', Htag.
    + apply Forall_app. split; [|apply Forall_singleton; rewrite Hat', Htag; by rewrite Hp].
      eapply Forall_impl; [exact Hch2|]. intros o Ho. cbn. by rewrite Hat', Htag.
    + change (h :: l ++ [p]) with ((h :: l) ++ [p]). apply linked_app. cbn [List.hd]. split.
      * apply (linked_relast (λ o, nx t o) _ _ _ 0); [done|done| |fold e; cbn; by rewrite Hat'].
        intros o Ho Hne. cbn. by rewrite Hat', Hat.
      * cbn. rewrite Hat', Hat by (intros ->; done). by rewrite Hp.
    + change (h :: l ++ [p]) with ((h :: l) ++ [p]). apply Forall_app. split.
      * rewrite Forall_forall in *. intros o Ho. destruct (Hch4 o Ho) as (y&Hy&Hhy). exists y.
        rewrite Hitem by (by apply Hpc). split; [done|]. rewrite <- Hhy. unfold get_hash_head, find_offset. by rewrite (same_mask _ _ Hst).
      * apply Forall_singleton. exists x. split; [done|]. rewrite <- Hh. unfold get_hash_head, find_offset. by rewrite (same_mask _ _ Hst).
  - intros o Ho. cbn in Ho. rewrite app_nil_r in Ho. rewrite Hnode, Hat, Hitem; [done|..]; [set_solver +Ho| |set_solver +Ho].
    intros ->. set_solver +Ho He.
  - intros es Hes. rewrite map_to_list_insert by done. rewrite <- Hes. cbn [concat]. rewrite !app_nil_r.
    change (h :: l ++ [p]) with ((h :: l) ++ [p]). rewrite entries_app, (entries_frame t t'').
    + rewrite (entries_cons _ p [] x Hpp). destruct x. cbn. solve_Permutation.
    + intros o Ho. apply Hitem. by apply Hpc.
Qed.

(** ** Walking *)
Lemma chain_from_ok t l : ∀ fuel o, 0 ≤ _num_nodes t → linked (λ o, nx t o) (o :: l) 0 →
  (∀ o', o' ∈ o :: l → o' ∈ offsets t) → (length (o :: l) ≤ fuel)%nat → chain_from ns fuel t o = Ok (o :: l).
Proof using ns_pos ns_aligned ns_small.
  induction l as [|x l IH]; intros [|fuel] o Hn [Ho Hl] Hin Hlen; cbn in Hlen; try lia; cbn [chain_from];
    rewrite get_node_ok by (done || right; apply Hin; left); step_ok; change (get_next (node_at t o)) with (link (nx t o)); rewrite Ho; cbn.
  - done.
  - assert (Hx : x ∈ offsets t) by (apply Hin; right; left). pose proof (offsets_pos t x Hx).
    rewrite (proj2 (Z.eqb_neq x 0)) by lia. rewrite IH; [done|done|done| |cbn; lia]. intros o' Ho'. apply Hin. by right.
Qed.

Lemma find_loop_ok t key l : ∀ fuel o, 0 ≤ _num_nodes t → linked (λ o, nx t o) (o :: l) 0 →
  (∀ o', o' ∈ o :: l → o' ∈ offsets t ∧ is_Some (items t !! o')) → (length (o :: l) ≤ fuel)%nat →
  ∃ r, find_loop ns fuel t key o = Ok r ∧
    ((r = 0 ∧ ∀ o' x, o' ∈ o :: l → items t !! o' = Some x → x.1 ≠ key) ∨
     (r ∈ o :: l ∧ ∃ v, items t !! r = Some (key, v))).
Proof using ns_pos ns_aligned ns_small.
  induction l as [|y l IH]; intros [|fuel] o Hn [Ho Hl] Hin Hlen; cbn in Hlen; try lia; cbn [find_loop];
    destruct (Hin o ltac:(left)) as [Hoff [[k v] Hx]]; unfold get_key, get_item; rewrite Hx; step_ok; cbn [fst];
    (destruct (decide (k = key)) as [->|Hne]; [exists o; split; [done|right; split; [left|eauto]]|]);
    rewrite get_node_ok by (done || by right); step_ok; change (get_next (node_at t o)) with (link (nx t o)); rewrite Ho; cbn.
  - exists 0. split; [done|]. left. split; [done|]. intros o' x ->%list_elem_of_singleton. rewrite Hx. by intros [= <-].
  - destruct (Hin y) as [Hy _]; [right; left|]. pose proof (offsets_pos t y Hy). rewrite (proj2 (Z.eqb_neq y 0)) by lia.
    destruct (IH fuel y) as (r&He&Hr); [done|done|intros o' Ho'; apply Hin; by right|cbn; lia|].
    exists r. split; [done|]. destruct Hr as [[-> Hr]|[Hr Hv]].
    + left. split; [done|]. intros o' x [->|Ho']%elem_of_cons; [rewrite Hx; intros [= <-]; exact Hne|eauto].
    + right. split; [by right|done].
Qed.

Lemma find_node_before_ok t l nxt : ∀ fuel o, 0 ≤ _num_nodes t → linked (λ o, nx t o) (o :: l) nxt → nxt ∉ l →
  (∀ o', o' ∈ o :: l → o' ∈ offsets t) → (length (o :: l) ≤ fuel)%nat →
  find_node_before ns fuel t o nxt = Ok (List.last l o).
Proof using ns_pos ns_aligned ns_small.
  induction l as [|x l IH]; intros [|fuel] o Hn [Ho Hl] Hnin Hin Hlen; cbn in Hlen; try lia; cbn [find_node_before];
    rewrite get_node_ok by (done || right; apply Hin; left); step_ok; change (get_next (node_at t o)) with (link (nx t o)); rewrite Ho; cbn [List.hd].
  - by rewrite Z.eqb_refl.
  - rewrite (proj2 (Z.eqb_neq x nxt)) by (intros ->; apply Hnin; left). rewrite last_cons. apply IH; [done|done| | |cbn; lia].
    + intros Hx. apply Hnin. by right.
    + intros o' Ho'. apply Hin. by right.
Qed.

(** The difference is negative from the second round on, and so not less than the limit:
    the end of the list of free nodes is taken instead. *)
Lemma probe_loop_last found t o fuel : 0 ≤ _num_nodes t → o ∈ offsets t → found (node_at t o) = false →
  probe_loop ns (S (S fuel)) found t o o = Ok (pv t 0).
Proof using ns_pos ns_aligned ns_small.
  intros Hn Ho Hf. pose proof (offsets_pos t o Ho). cbn [probe_loop]. rewrite (proj2 (Z.eqb_neq o 0)) by lia.
  rewrite Z.sub_diag. cbn [negb andb]. change (u64 0 <? PROBE_LEN) with true. cbv iota.
  rewrite (get_node_ok t o) by (done || by right). step_ok. rewrite Hf. unfold probe_offset.
  destruct (o <? _max_offset ns t).
  - replace (u64 (o - (o + ns))) with (2 ^ 64 - ns).
    + rewrite (proj2 (Z.eqb_neq (o + ns) 0)) by lia. cbn [negb andb]. unfold PROBE_LEN.
      rewrite (proj2 (Z.ltb_ge _ _)) by lia. rewrite get_node_ok by (done || left). done.
    + replace (o - (o + ns)) with (- ns) by lia. unfold u64, wrap. rewrite Z.mod_opp_l_nz by (rewrite ?Z.mod_small; lia).
      by rewrite Z.mod_small by lia.
  - cbn [negb andb]. rewrite get_node_ok by (done || left). done.
Qed.

(** Linear probing never takes place: an occupied node is followed by the last free one,
    however many of its neighbours are free. *)
Theorem probing_is_dead t o : 0 ≤ _num_nodes t → o ∈ offsets t → is_empty (node_at t o) = false →
  probe_node ns t o = Ok (pv t 0).
Proof using ns_pos ns_aligned ns_small. intros. by apply probe_loop_last. Qed.

Lemma rep_length t c chs R F H m : Rep t (c :: chs) R F H m → (length c ≤ Z.to_nat (_num_nodes t))%nat.
Proof.
  intros Hr. pose proof (Permutation_length (rp_nodes _ _ _ _ _ _ Hr)) as Hl. unfold offsets in Hl. rewrite length_fmap, length_seqZ in Hl.
  cbn in Hl. rewrite <- Hl, <- app_assoc, length_app. lia.
Qed.

Lemma is_empty_tag n : is_empty n = (tag (next n) =? EMPTY).
Proof. done. Qed.
Lemma is_head_tag n : is_head n = (tag (next n) =? HEAD).
Proof. done. Qed.
Lemma is_rehashing_tag n : is_rehashing n = (tag (next n) =? REHASH).
Proof. done. Qed.

(** Which list a node is in shows in its tag. *)
Lemma tag_free t F o : ring t F → (∀ o, o ∈ F → o ∈ offsets t) → o ∈ F → tag (nx t o) = EMPTY.
Proof using ns_pos ns_aligned ns_small.
  intros HF Hin Ho. destruct (ring_in t F o HF Ho) as [Hn _]. apply tag_aligned, (offsets_aligned t).
  apply elem_of_cons in Hn as [->|?]; [left|right; auto].
Qed.

Lemma rep_tag_free t chs R F H m o : Rep t chs R F H m → o ∈ F → tag (nx t o) = EMPTY.
Proof using ns_pos ns_aligned ns_small.
  intros Hr. apply tag_free; [apply Hr|]. intros o' Ho'. rewrite <- rp_in by done. set_solver.
Qed.

Lemma rep_last_free t chs R F p H m : Rep t chs R (F ++ [p]) H m → pv t 0 = p.
Proof. intros Hr. pose proof (between_last _ _ _ _ _ (rp_free _ _ _ _ _ _ Hr)) as Hl. cbn in Hl. by rewrite last_app in Hl. Qed.

Lemma probe_node_ok t chs R F p H m o : Rep t chs R (F ++ [p]) H m → o ∈ concat chs → probe_node ns t o = Ok p.
Proof using ns_pos ns_aligned ns_small.
  intros Hr Ho. rewrite probing_is_dead.
  - f_equal. by eapply rep_last_free.
  - by eapply rp_nonneg.
  - rewrite <- rp_in by done. set_solver.
  - apply elem_concat in Ho as (c&Hoc&Hc). pose proof (proj1 (Forall_forall _ _) (rp_chains _ _ _ _ _ _ Hr) c Hc) as Hch.
    destruct c as [|h l]; [done|]. destruct Hch as [H1 H2 _ _]. rewrite is_empty_tag. apply elem_of_cons in Hoc as [->|Hoc].
    + by rewrite H1.
    + by rewrite (proj1 (Forall_forall _ _) H2 o Hoc).
Qed.

(** ** Looking up *)
Lemma concat_unique (chs : list (list Z)) c c' o : NoDup (concat chs) → c ∈ chs → c' ∈ chs → o ∈ c → o ∈ c' → c = c'.
Proof.
  induction chs as [|d chs IH]; cbn; intros Hnd Hc Hc' Ho Ho'; [by apply elem_of_nil in Hc|].
  apply NoDup_app in Hnd as (_&Hd&Hnd). apply elem_of_cons in Hc as [->|Hc], Hc' as [->|Hc']; auto.
  - exfalso. apply (Hd o Ho), elem_concat. eauto.
  - exfalso. apply (Hd o Ho'), elem_concat. eauto.
Qed.

Lemma rep_nodup_concat t chs R F H m : Rep t chs R F H m → NoDup (concat chs).
Proof using ns_pos ns_aligned ns_small. intros Hr. by pose proof (rp_nodup _ _ _ _ _ _ Hr) as [? _]%NoDup_app. Qed.

(** The chain of a node in use is that of the home of its key. *)
Lemma rep_home t chs R F H m o x : Rep t chs R F H m → o ∈ concat chs → items t !! o = Some x →
  ∃ l, (home t x.1 :: l) ∈ chs ∧ o ∈ home t x.1 :: l.
Proof.
  intros Hr (c&Hoc&Hc)%elem_concat Hx. pose proof (proj1 (Forall_forall _ _) (rp_chains _ _ _ _ _ _ Hr) c Hc) as Hch.
  destruct c as [|h l]; [done|]. destruct (proj1 (Forall_forall _ _) (ch_home _ _ _ Hch) o Hoc) as (y&Hy&<-).
  assert (x = y) as -> by congruence. by exists l.
Qed.

Lemma chain_suffix t c1 o c2 : chain t (c1 ++ o :: c2) → linked (λ o, nx t o) (o :: c2) 0.
Proof. destruct c1 as [|h c1]; [apply ch_linked|]. intros [_ _ Hl _]. apply (linked_app _ (h :: c1) (o :: c2)) in Hl. apply Hl. Qed.

Lemma rep_find t chs F m key : Rep t chs [] F [] m → ∃ o, inner_find hash_function ns t key = Ok o ∧
  ((o = 0 ∧ m !! key = None) ∨ (o ∈ concat chs ∧ ∃ v, items t !! o = Some (key, v) ∧ m !! key = Some v)).
Proof using ns_pos ns_aligned ns_small.
  intros Hr. pose proof (rp_nonneg _ _ _ _ _ _ Hr) as Hn. set (h := home t key).
  assert (Hh : h ∈ offsets t) by (apply home_in; apply Hr).
  assert (Hhome : ∀ v, m !! key = Some v → ∃ l, (h :: l) ∈ chs ∧ ∃ o, o ∈ h :: l ∧ items t !! o = Some (key, v)).
  { intros v Hk. destruct (rep_lookup _ _ _ _ _ _ _ _ Hr Hk) as (o&Ho&Hx). rewrite app_nil_r in Ho.
    destruct (rep_home _ _ _ _ _ _ _ _ Hr Ho Hx) as (l&Hl&Hol). eauto. }
  unfold inner_find. fold h. rewrite get_node_ok by (done || by right). step_ok. rewrite is_empty_tag.
  pose proof Hh as Hwhere. rewrite <- (rp_in _ _ _ _ _ _ _ Hr), app_nil_l, app_nil_r in Hwhere.
  apply elem_of_app in Hwhere as [(c&Hhc&Hc)%elem_concat|HF].
  - pose proof Hc as [chs' Hp]%elem_of_Permutation. pose proof (rep_perm _ _ _ _ _ _ _ _ _ Hp (reflexivity _) (reflexivity _) Hr) as Hr'.
    pose proof (rep_chain _ _ _ _ _ _ _ Hr') as Hch. pose proof (rep_length _ _ _ _ _ _ _ Hr') as Hlen.
    apply list_elem_of_split in Hhc as (c1&c2&->). rewrite length_app in Hlen. cbn in Hlen.
    assert (Ht : tag (nx t h) ≠ EMPTY).
    { destruct c1 as [|g c1]; destruct Hch as [H1 H2 _ _]; [rewrite H1; unfold HEAD, EMPTY; lia|].
      rewrite (proj1 (Forall_forall _ _) H2 h); [unfold PROBE, EMPTY; lia|]. apply elem_of_app. right. left. }
    rewrite (proj2 (Z.eqb_neq _ _) Ht).
    destruct (find_loop_ok t key c2 (enough t) h) as (r&He&Hr2); [done|by eapply chain_suffix| |unfold enough; cbn; lia|].
    { intros o' Ho'. split; [eapply rep_chain_in; [exact Hr'|set_solver]|].
      destruct (rep_item _ _ _ _ _ _ o' Hr) as (x&Hx&_); [|by exists x]. rewrite app_nil_r. apply elem_concat. exists (c1 ++ h :: c2). set_solver. }
    exists r. split; [exact He|]. destruct Hr2 as [[-> Hno]|[Hin [v Hv]]].
    + left. split; [done|]. destruct (m !! key) as [v|] eqn:Hk; [|done]. exfalso.
      destruct (Hhome v eq_refl) as (l&Hl&o&Ho&Hx). assert (Heq : h :: l = c1 ++ h :: c2).
      { apply (concat_unique chs _ _ h); [by eapply rep_nodup_concat|exact Hl|exact Hc|left|set_solver]. }
      assert (c1 = []) as ->. { pose proof (rep_chain_nodup _ _ _ _ _ _ _ Hr') as Hnd. rewrite app_nil_r in Hnd.
        destruct c1 as [|g c1]; [done|]. injection Heq as -> _. cbn in Hnd. apply NoDup_cons in Hnd as [Hnd _]. exfalso. set_solver. }
      injection Heq as ->. by apply (Hno o (key, v)).
    + right. assert (Hrc : r ∈ concat chs) by (apply elem_concat; exists (c1 ++ h :: c2); set_solver). split; [done|].
      exists v. split; [done|]. destruct (rep_item _ _ _ _ _ _ r Hr) as (x&Hx&Hm); [set_solver|].
      rewrite Hx in Hv. injection Hv as ->. done.
  - rewrite (proj2 (Z.eqb_eq _ _) (rep_tag_free _ _ _ _ _ _ _ Hr HF)). exists 0. split; [done|]. left. split; [done|].
    destruct (m !! key) as [v|] eqn:Hk; [|done]. exfalso. destruct (Hhome v eq_refl) as (l&Hl&_).
    pose proof (rp_nodup _ _ _ _ _ _ Hr) as (_&Hd&_)%NoDup_app. apply (Hd h); [|set_solver]. apply elem_concat. exists (h :: l). split; [left|done].
Qed.

(** ** Making room *)
Context (trivial : bool) (overlay : K * V → Z → Z).

Lemma moved_items t a b x : 0 ≤ _num_nodes t → a ∈ offsets t → items t !! b = Some x → a ≠ b →
  ∃ t', move_from ns trivial overlay t a b = Ok t' ∧ Placed [b] t a x t'.
Proof using ns_pos ns_aligned ns_small.
  intros Hn Ha Hx Hne. unfold move_from, get_item. rewrite Hx. step_ok.
  destruct (put_item_placed overlay [b] t a x Hn Ha) as (t1&->&Hp). step_ok. eexists. split; [done|]. unfold moved.
  destruct trivial; [done|]. destruct Hp as [Hs Hc Hnx Hi Hat Hit]. split; [by destruct Hs|done|done|..]; cbn.
  - by rewrite lookup_delete_ne.
  - intros o Ho. rewrite node_at_items. by apply Hat.
  - intros o Ho. rewrite lookup_delete_ne; [by apply Hit|]. set_solver +Ho.
Qed.

Lemma shift_items_ok a l : ∀ t p, 0 ≤ _num_nodes t → (∀ o, o ∈ a :: l ++ [p] → o ∈ offsets t) →
  NoDup (a :: l ++ [p]) → (∀ o, o ∈ a :: l → is_Some (items t !! o)) →
  ∃ t', shift_items ns trivial overlay t p (reverse (a :: l)) = Ok t' ∧ Same t t' ∧ (∀ o, nx t' o = nx t o) ∧ _num_items t' = _num_items t ∧
    entries t' (l ++ [p]) = entries t (a :: l) ∧ (∀ o, o ∉ a :: l ++ [p] → node_at t' o = node_at t o ∧ items t' !! o = items t !! o) ∧
    ∀ o, o ∈ l ++ [p] → ∃ o', o' ∈ a :: l ∧ items t' !! o = items t !! o'.
Proof using ns_pos ns_aligned ns_small.
  induction l as [|b l IH] using rev_ind; intros t p Hn Hoff Hnd Hi.
  - destruct (Hi a) as [x Hx]; [left|]. assert (p ≠ a) by (intros ->; apply NoDup_cons in Hnd as [Hnd _]; set_solver +Hnd).
    destruct (moved_items t p a x) as (t'&He&[Hs Hc Hnx Hp Hat Hoth]); [done|apply Hoff; set_solver +|done|done|].
    exists t'. change (reverse [a]) with [a]. cbn [shift_items].
    rewrite He. step_ok. split; [done|]. split; [done|]. split; [done|]. split; [done|]. split; [|split].
    + cbn [app]. by rewrite (entries_cons _ _ _ _ Hp), (entries_cons _ _ _ _ Hx).
    + intros o Ho. split; [apply Hat|apply Hoth]; set_solver +Ho.
    + intros o ->%list_elem_of_singleton. exists a. split; [left|congruence].
  - assert (Hb : b ∈ a :: l ++ [b]) by set_solver +. destruct (Hi b Hb) as [x Hx].
    assert (Hne : p ≠ b). { intros ->. apply NoDup_cons in Hnd as [_ Hnd]. apply NoDup_app in Hnd as (_&Hd&_). apply (Hd b); set_solver +. }
    assert (Hnd' : NoDup (a :: l ++ [b])). { rewrite app_comm_cons in Hnd. by apply NoDup_app in Hnd as (?&_). }
    assert (Hpn : p ∉ a :: l ++ [b]). { rewrite app_comm_cons in Hnd. apply NoDup_app in Hnd as (_&Hd&_). intros Hx'. apply (Hd p Hx'). left. }
    assert (Hbl : b ∉ a :: l). { rewrite app_comm_cons in Hnd'. apply NoDup_app in Hnd' as (_&Hd&_). intros Hx'. apply (Hd b Hx'). left. }
    destruct (moved_items t p b x) as (t1&He&[Hs1 Hc1 Hnx1 Hp1 Hat1 Hoth1]); [done|apply Hoff; set_solver +|done|done|].
    destruct (IH t1 b) as (t'&He'&Hs'&Hnx'&Hc'&Hent&Hoth'&Hwh).
    { by rewrite (same_num _ _ Hs1). } { intros o Ho. rewrite (same_offsets _ _ Hs1). apply Hoff. set_solver +Ho. } { done. }
    { intros o Ho. rewrite Hoth1; [apply Hi; set_solver +Ho|]. set_solver +Ho Hpn Hbl. }
    exists t'. change (a :: l ++ [b]) with ((a :: l) ++ [b]) at 1. rewrite reverse_app. change (reverse [b]) with [b]. cbn [app shift_items].
    rewrite He. step_ok. split; [done|]. split; [by eapply same_trans|]. split; [intros o; by rewrite Hnx'|]. split; [lia|].
    assert (Hpp : items t' !! p = Some x) by (by rewrite (proj2 (Hoth' p Hpn))).
    assert (Hfr : entries t1 (a :: l) = entries t (a :: l)).
    { apply entries_frame. intros o Ho. apply Hoth1. set_solver +Ho Hpn Hbl. }
    split; [|split].
    + rewrite entries_app, Hent, Hfr, (entries_cons _ _ _ _ Hpp).
      change (a :: l ++ [b]) with ((a :: l) ++ [b]). by rewrite (entries_app t), (entries_cons _ _ _ _ Hx).
    + intros o Ho. destruct (Hoth' o) as [-> ->]; [set_solver +Ho|]. split; [apply Hat1|apply Hoth1]; set_solver +Ho.
    + intros o Ho. apply elem_of_app in Ho as [Ho| ->%list_elem_of_singleton].
      * destruct (Hwh o Ho) as (o'&Ho'&Heq). exists o'. split; [set_solver +Ho'|]. rewrite Heq. apply Hoth1. set_solver +Ho' Hpn Hbl.
      * exists b. split; [done|congruence].
Qed.

Lemma hd_snoc {A} (l : list A) x d : List.hd d (l ++ [x]) = List.hd x l.
Proof. by destruct l. Qed.

(** The chain of another home gives up its node [h]; its items move on by one node. *)
Lemma rep_vacate t g c1 h c2 chs R F p H m : Rep t ((g :: c1 ++ h :: c2) :: chs) R F (p :: H) m → nx t p = PROBE →
  ∃ t1 t2 t3, set_next ns t (List.last c2 h) p = Ok t1 ∧
    shift_items ns trivial overlay t1 p (reverse (h :: c2)) = Ok t2 ∧
    find_node_before ns (enough t2) t2 g h = Ok (List.last c1 g) ∧
    get_node ns t2 h = Ok (node_at t2 h) ∧
    set_next ns t2 (List.last c1 g) (get_next (node_at t2 h)) = Ok t3 ∧
    Same t t3 ∧ _num_items t3 = _num_items t ∧
    Rep t3 ((g :: c1 ++ c2 ++ [p]) :: chs) R F (h :: H) m.
Proof using ns_pos ns_aligned ns_small.
  intros Hr Hp. set (c := g :: c1 ++ h :: c2). set (e := List.last c2 h). set (b := List.last c1 g).
  pose proof (last_in c2 h) as He. pose proof (last_in c1 g) as Hb. fold e in He. fold b in Hb.
  pose proof (rp_nonneg _ _ _ _ _ _ Hr) as Hn. pose proof (rep_chain_nodup _ _ _ _ _ _ _ Hr) as Hnd.
  pose proof (rep_length _ _ _ _ _ _ _ Hr) as Hlen.
  pose proof (rep_chain _ _ _ _ _ _ _ Hr) as [Hch1 Hch2 Hch3 Hch4].
  assert (Hoff : ∀ o, o ∈ c ++ p :: H → o ∈ offsets t) by (intros o; by eapply rep_chain_in).
  assert (Hec : e ∈ c) by (unfold c; set_solver +He). assert (Hbc : b ∈ c) by (unfold c; set_solver +Hb).
  assert (Hpin : p ∈ offsets t) by (apply Hoff; set_solver +).
  destruct (set_next_chain _ _ _ _ _ _ _ e p Hr Hec) as (t1&Hset&Hs1&Hi1&Hc1&Ht1&Hl1&Hat1); [by right|].
  assert (Hnd0 : NoDup (g :: c1) ∧ NoDup (h :: c2 ++ [p]) ∧ (∀ o, o ∈ g :: c1 → o ∉ h :: c2 ++ [p]) ∧
                 (∀ o, o ∈ H → o ∉ g :: c1 ∧ o ∉ h :: c2 ++ [p])).
  { assert (Hx : NoDup ((g :: c1) ++ (h :: c2 ++ [p]) ++ H)).
    { refine (proj1 (NoDup_Permutation_proper _ _ _) Hnd). cbn. rewrite <- app_assoc. solve_Permutation. }
    apply NoDup_app in Hx as (Hx1&Hx2&(Hx3&Hx4&_)%NoDup_app). split; [done|]. split; [done|]. split; [intros o Ho Ho'; apply (Hx2 o Ho); set_solver +Ho'|].
    intros o Ho. split; [intros Ho'; apply (Hx2 o Ho'); set_solver +Ho|intros Ho'; by apply (Hx4 o Ho')]. }
  destruct Hnd0 as (Hnd1&Hnd2&Hd12&HdH).
  assert (Hitem : ∀ o, o ∈ c → ∃ x, items t !! o = Some x ∧ home t x.1 = g) by (by apply Forall_forall).
  destruct (shift_items_ok h c2 t1 p) as (t2&Hshift&Hs2&Hnx2&Hc2&Hent&Hoth&Hwh).
  { by rewrite (same_num _ _ Hs1). } { intros o Ho. rewrite (same_offsets _ _ Hs1). apply Hoff. unfold c. set_solver +Ho. } { done. }
  { intros o Ho. rewrite Hi1. destruct (Hitem o) as (x&Hx&_); [unfold c; set_solver +Ho|by exists x]. }
  assert (Hs12 : Same t t2) by (by eapply same_trans).
  assert (Hn2 : 0 ≤ _num_nodes t2) by (by rewrite (same_num _ _ Hs12)).
  assert (Hbe : b ≠ e). { intros E. apply (Hd12 b Hb). rewrite E. set_solver +He. }
  apply (linked_app _ (g :: c1) (h :: c2)) in Hch3 as [Hch31 Hch32]. cbn [List.hd] in Hch31.
  (* the links after the first step *)
  assert (Hlb : linked (λ o, nx t2 o) (g :: c1) h).
  { eapply linked_frame; [exact Hch31|]. intros o Ho. cbn. rewrite Hnx2, Hat1; [done|]. intros ->. apply (Hd12 e Ho). set_solver +He. }
  assert (Hlc : linked (λ o, nx t2 o) (h :: c2) p).
  { apply (linked_relast (λ o, nx t o) _ _ _ 0); [done|by rewrite app_comm_cons in Hnd2; apply NoDup_app in Hnd2 as (?&_)| |by fold e; cbn; rewrite Hnx2].
    intros o Ho Hne. cbn. by rewrite Hnx2, Hat1. }
  assert (Hoff2 : offsets t2 = offsets t) by (by apply same_offsets).
  exists t1, t2. assert (Hln : link (nx t2 h) = List.hd p c2) by apply Hlc.
  assert (Hnxt : List.hd p c2 ∈ offsets t) by (destruct c2; cbn; [done|apply Hoff; unfold c; set_solver +]).
  exists (upd t2 b (Z.lor (tag (nx t2 b)) (List.hd p c2)) (pv t2 b)).
  split; [done|]. split; [done|]. split; [|split].
  { apply find_node_before_ok; [done|done| | |].
    - intros Hx. apply (Hd12 h); [by right|left].
    - intros o Ho. rewrite Hoff2. apply Hoff. unfold c. set_solver +Ho.
    - unfold enough. rewrite (same_num _ _ Hs12). cbn in Hlen |- *. rewrite length_app in Hlen. lia. }
  { apply get_node_ok; [done|]. right. rewrite Hoff2. apply Hoff. unfold c. set_solver +. }
  split. { change (get_next (node_at t2 h)) with (link (nx t2 h)). rewrite Hln. apply link_next_ok; [done|]. right. rewrite Hoff2. apply Hoff. set_solver +Hbc. }
  set (t3 := upd t2 b _ _). assert (Hs3 : Same t t3) by (destruct Hs12; by split). split; [done|]. split; [cbn; lia|].
  assert (Hnxa : List.hd p c2 mod 4 = 0) by (apply (offsets_aligned t); by right).
  assert (Htag : ∀ o, tag (nx t3 o) = tag (nx t o)).
  { intros o. unfold t3. rewrite nx_upd. destruct (decide (o = b)) as [->|Hne].
    - rewrite tag_lor by (apply tag_range || done). by rewrite Hnx2, Hat1.
    - rewrite Hnx2. destruct (decide (o = e)) as [->|]; [done|by rewrite Hat1]. }
  assert (Hat3 : ∀ o, o ≠ b → node_at t3 o = node_at t2 o) by (intros o Ho; unfold t3; by rewrite node_at_upd, decide_False).
  apply (rep_rechain t t3 [c] [g :: c1 ++ c2 ++ [p]] chs R F (p :: H) (h :: H) m m Hr Hs3).
  - cbn. rewrite !app_nil_r, <- !app_assoc. cbn. solve_Permutation.
  - apply Forall_singleton. split.
    + by rewrite Htag.
    + apply Forall_forall. intros o Ho. rewrite Htag. rewrite app_assoc in Ho. apply elem_of_app in Ho as [Ho|Ho%list_elem_of_singleton].
      * apply (proj1 (Forall_forall _ _) Hch2). set_solver +Ho.
      * subst o. by rewrite Hp.
    + change (g :: c1 ++ c2 ++ [p]) with ((g :: c1) ++ c2 ++ [p]). apply linked_app. rewrite hd_snoc. split.
      * apply (linked_relast (λ o, nx t2 o) _ _ _ h); [done|done| |].
        -- intros o Ho Hne. cbn. by rewrite Hat3.
        -- fold b. unfold t3. rewrite nx_upd, decide_True by done. apply link_lor; [apply tag_range|done].
      * apply linked_app. cbn [List.hd]. split.
        -- eapply linked_frame; [apply Hlc|]. intros o Ho. cbn. rewrite Hat3; [done|]. intros ->. apply (Hd12 b Hb). set_solver +Ho.
        -- cbn. rewrite Hat3 by (intros ->; apply (Hd12 b Hb); set_solver +). rewrite Hnx2, Hat1; [by rewrite Hp|].
           intros ->. apply NoDup_app in Hnd as (_&Hd&_). apply (Hd e Hec). left.
    + change (g :: c1 ++ c2 ++ [p]) with ((g :: c1) ++ (c2 ++ [p])). apply Forall_app. split; apply Forall_forall; intros o Ho.
      * destruct (Hitem o) as (x&Hx&Hhx); [unfold c; set_solver +Ho|]. exists x. split; [|rewrite <- Hhx; unfold get_hash_head, find_offset; by rewrite (same_mask _ _ Hs3)].
        change (items t3) with (items t2). rewrite (proj2 (Hoth o (Hd12 o Ho))), Hi1. done.
      * destruct (Hwh o Ho) as (o'&Ho'&Heq). destruct (Hitem o') as (x&Hx&Hhx); [unfold c; set_solver +Ho'|]. exists x.
        split; [|rewrite <- Hhx; unfold get_hash_head, find_offset; by rewrite (same_mask _ _ Hs3)]. change (items t3) with (items t2). by rewrite Heq, Hi1.
  - intros o Ho. cbn in Ho. rewrite app_nil_r in Ho. destruct (Hoth o) as [Ha1 Ha2]; [unfold c in Ho; set_solver +Ho|].
    rewrite Hat3, Ha1, Hat1; [|intros ->; apply Ho; set_solver +Hec|intros ->; apply Ho; set_solver +Hbc]. split; [done|].
    change (items t3) with (items t2). by rewrite Ha2, Hi1.
  - intros es Hes. cbn [concat] in Hes |- *. rewrite !app_nil_r in Hes |- *. unfold c in Hes.
    change (g :: c1 ++ h :: c2) with ((g :: c1) ++ (h :: c2)) in Hes. change (g :: c1 ++ c2 ++ [p]) with ((g :: c1) ++ (c2 ++ [p])).
    rewrite entries_app in Hes |- *. change (entries t3) with (entries t2). rewrite Hent.
    rewrite (entries_frame t1 t2 (g :: c1)) by (intros o Ho; apply Hoth; by apply Hd12).
    by rewrite (entries_frame t t1 (g :: c1)), (entries_frame t t1 (h :: c2)) by (intros; by rewrite Hi1).
Qed.
(** ** How many nodes are free *)
Lemma entries_length t os : (∀ o, o ∈ os → is_Some (items t !! o)) → length (entries t os) = length os.
Proof.
  intros Hi. induction os as [|o os IH]; [done|]. destruct (Hi o) as [x Hx]; [left|]. rewrite (entries_cons _ _ _ _ Hx). cbn.
  rewrite IH; [done|]. intros o' Ho'. apply Hi. by right.
Qed.

Lemma rep_size t chs R F H m : Rep t chs R F H m → length (concat chs ++ R) = base.size m.
Proof.
  intros Hr. rewrite <- (entries_length t).
  - by rewrite (rp_items _ _ _ _ _ _ Hr), length_map_to_list.
  - intros o Ho. destruct (rep_item _ _ _ _ _ _ _ Hr Ho) as (x&?&_). by exists x.
Qed.

Lemma rep_free_length t chs R F H m : Rep t chs R F H m →
  Z.of_nat (length F) = _num_nodes t - Z.of_nat (base.size m) - Z.of_nat (length H).
Proof.
  intros Hr. pose proof (rep_size _ _ _ _ _ _ Hr) as Hs. pose proof (rp_nonneg _ _ _ _ _ _ Hr) as Hn.
  pose proof (Permutation_length (rp_nodes _ _ _ _ _ _ Hr)) as Hl. unfold offsets in Hl.
  rewrite length_fmap, length_seqZ in Hl. rewrite !length_app in *. lia.
Qed.

(** A free node for a key that is not there. *)
Lemma rep_allocate t chs F m k : Rep t chs [] F [] m → Z.of_nat (base.size m) < _num_nodes t → m !! k = None →
  ∃ t' o, inner_allocate_not_exist_no_rehash hash_function ns trivial overlay t k = Ok (t', o) ∧ Same t t' ∧
    _num_items t' = _num_items t + 1 ∧ o ∈ offsets t ∧
    ∀ v t'', Placed [] t' o (k, v) t'' → ∃ chs' F', o ∈ concat chs' ∧ Rep t'' chs' [] F' [] (<[k := v]> m).
Proof using ns_pos ns_aligned ns_small.
  intros Hr Hsz Hk. pose proof (rp_nonneg _ _ _ _ _ _ Hr) as Hn. set (h := home t k).
  assert (Hh : h ∈ offsets t) by (apply home_in; apply Hr).
  pose proof (rep_free_length _ _ _ _ _ _ Hr) as Hfl. cbn in Hfl.
  destruct (exists_last (l := F)) as (F0&p&->); [intros ->; cbn in Hfl; lia|].
  unfold inner_allocate_not_exist_no_rehash. fold h. rewrite get_node_ok by (done || by right). step_ok.
  rewrite is_empty_tag, is_head_tag. pose proof Hh as Hwhere. rewrite <- (rp_in _ _ _ _ _ _ _ Hr), app_nil_l, app_nil_r in Hwhere.
  apply elem_of_app in Hwhere as [(c&Hhc&Hc)%elem_concat|HF].
  - pose proof Hc as [chs' Hp]%elem_of_Permutation. apply (rep_perm _ _ _ _ _ _ _ _ _ Hp (reflexivity _) (reflexivity _)) in Hr as Hr'.
    pose proof (rep_chain _ _ _ _ _ _ _ Hr') as Hch. pose proof (rep_length _ _ _ _ _ _ _ Hr') as Hlen.
    apply list_elem_of_split in Hhc as (c1&c2&->). rewrite length_app in Hlen. cbn in Hlen.
    assert (Hlast : ∀ o, o ∈ c1 ++ h :: c2 → probe_node ns t o = Ok p).
    { intros o Ho. eapply probe_node_ok; [exact Hr'|]. cbn. set_solver +Ho. }
    destruct (rep_alloc _ _ _ F0 p [] _ _ Hr') as (t1&Ha&Hr1&Hs1&Hi1&Hc1&Hp1&Hnx1). rewrite app_nil_r in Hr1.
    destruct c1 as [|g c1]; cbn [app] in *.
    + destruct Hch as [H1 H2 H3 H4]. rewrite H1. cbn [EMPTY HEAD Z.eqb Pos.eqb]. cbv iota.
      unfold last_from. rewrite (chain_from_ok t c2) by (done || unfold enough; cbn; lia || (intros o Ho; eapply rep_chain_in; [exact Hr'|set_solver +Ho])).
      step_ok. rewrite last_cons, Hlast by apply last_in. step_ok. rewrite Ha. step_ok.
      assert (Hh1 : home t1 k = h) by (unfold h, get_hash_head, find_offset; by rewrite (same_mask _ _ Hs1)).
      destruct (set_next_chain t1 _ _ _ _ _ _ (List.last c2 h) p Hr1) as (t2&Hset&Hs2&Hi2&Hc2&_&_&Hat2);
        [apply last_in|right; rewrite (same_offsets _ _ Hs1); rewrite <- rp_in by done; cbn; set_solver +|].
      rewrite Hset. step_ok. exists t2, p. split; [done|]. split; [by eapply same_trans|]. split; [lia|].
      split; [rewrite <- rp_in by done; cbn; set_solver +|]. intros v t'' Hpl.
      destruct (rep_place_tail t1 h c2 chs' [] F0 p [] m (k, v) Hr1 Hp1 Hh1 Hk) as (t2'&Hset'&_&_&_&_&Hr2).
      assert (t2' = t2) as -> by congruence. eexists _, _. split; [|by apply Hr2]. cbn. set_solver +.
    + pose proof Hch as [H1 H2 H3 H4].
      assert (Ht : tag (nx t h) = PROBE) by (apply (proj1 (Forall_forall _ _) H2); set_solver +).
      rewrite Ht. cbn [EMPTY HEAD PROBE Z.eqb Pos.eqb]. cbv iota.
      destruct (proj1 (Forall_forall _ _) H4 h) as (y&Hy&Hhy); [set_solver +|].
      unfold get_key, get_item. rewrite Hy. step_ok. rewrite Hhy.
      rewrite (chain_from_ok t c2); [|done|by eapply (chain_suffix t (g :: c1))| |unfold enough; cbn; lia].
      2: { intros o Ho. eapply rep_chain_in; [exact Hr'|set_solver +Ho]. }
      step_ok. rewrite last_cons, Hlast by (pose proof (last_in c2 h); set_solver). step_ok. rewrite Ha. step_ok.
      destruct (rep_vacate t1 g c1 h c2 chs' [] F0 p [] m Hr1 Hp1) as (t2&t3&t4&->&Hsh&Hfn&Hgn&Hsn&Hs4&Hc4&Hr4). step_ok.
      rewrite Hsh. step_ok. rewrite Hfn. step_ok. rewrite Hgn. step_ok. rewrite Hsn. step_ok.
      destruct (rep_put_next t4 _ _ _ _ _ h HEAD Hr4) as (t5&->&Hr5&Hs5&Hi5&Hc5&Hn5&_); [set_solver +|]. step_ok.
      exists t5, h. split; [done|]. assert (Hs15 : Same t t5) by (eapply same_trans; [exact Hs1|]; by eapply same_trans).
      split; [done|]. split; [lia|]. split; [done|]. intros v t'' Hpl.
      pose proof (rep_placed _ _ _ _ _ _ _ _ _ Hr5 Hpl) as Hr6. destruct Hpl as [Hs6 _ Hn6 Hi6 _ _].
      eexists ([h] :: _), _. split; [left|]. eapply (rep_place_head _ _ _ _ h [] m (k, v) Hr6).
      * done.
      * by rewrite Hn6.
      * unfold h, get_hash_head, find_offset. by rewrite (same_mask _ _ Hs6), (same_mask _ _ Hs15).
      * done.
  - rewrite (rep_tag_free _ _ _ _ _ _ _ Hr HF). cbn [EMPTY Z.eqb]. cbv iota.
    apply list_elem_of_split in HF as (F1&F2&HF). rewrite HF in Hr.
    destruct (rep_alloc _ _ _ F1 h F2 _ _ Hr) as (t1&->&Hr1&Hs1&Hi1&Hc1&Hp1&_). step_ok.
    destruct (rep_put_next t1 _ _ _ _ _ h HEAD Hr1) as (t2&->&Hr2&Hs2&Hi2&Hc2&Hn2&_); [left|]. step_ok.
    exists t2, h. split; [done|]. assert (Hs12 : Same t t2) by (by eapply same_trans). split; [done|]. split; [lia|]. split; [done|].
    intros v t'' Hpl. pose proof (rep_placed _ _ _ _ _ _ _ _ _ Hr2 Hpl) as Hr3. destruct Hpl as [Hs3 _ Hn3 Hi3 _ _].
    eexists ([h] :: _), _. split; [left|]. eapply (rep_place_head _ _ _ _ h [] m (k, v) Hr3).
    + done.
    + by rewrite Hn3.
    + unfold h, get_hash_head, find_offset. by rewrite (same_mask _ _ Hs3), (same_mask _ _ Hs12).
    + done.
Qed.

(** ** Loops over the nodes *)
Definition pos (num i : Z) : Z := if i <=? num then i * ns else 0.

(** The nodes from the [i]-th on. *)
Definition from_node (num i : Z) : list Z := (λ j, j * ns) <$> seqZ i (num + 1 - i).

Lemma probe_pos t i : 0 ≤ i ≤ _num_nodes t → probe_offset ns t (i * ns) = pos (_num_nodes t) (i + 1).
Proof using ns_pos ns_aligned ns_small.
  intros Hi. unfold probe_offset, pos, _max_offset. destruct (Z.leb_spec (i + 1) (_num_nodes t)).
  - rewrite (proj2 (Z.ltb_lt _ _)) by nia. lia.
  - rewrite (proj2 (Z.ltb_ge _ _)) by nia. done.
Qed.

Lemma probe_first t : 1 ≤ _num_nodes t → probe_offset ns t 0 = pos (_num_nodes t) 1.
Proof using ns_pos ns_aligned ns_small. intros. rewrite <- (Z.mul_0_l ns). apply probe_pos. lia. Qed.

Lemma from_node_cons num i : 1 ≤ i ≤ num → from_node num i = i * ns :: from_node num (i + 1).
Proof. intros Hi. unfold from_node. rewrite seqZ_cons by lia. cbn. do 3 f_equal. lia. Qed.

Lemma from_node_end num : from_node num (num + 1) = [].
Proof. unfold from_node. rewrite seqZ_nil by lia. done. Qed.

Lemma from_node_first t : from_node (_num_nodes t) 1 = offsets t.
Proof. unfold from_node, offsets. do 2 f_equal. lia. Qed.

Lemma pos_in num i : 1 ≤ i ≤ num → pos num i = i * ns ∧ i * ns ≠ 0.
Proof using ns_pos ns_aligned ns_small. intros Hi. unfold pos. rewrite (proj2 (Z.leb_le _ _)) by lia. split; [done|nia]. Qed.

Lemma pos_end num : pos num (num + 1) = 0.
Proof. unfold pos. by rewrite (proj2 (Z.leb_gt _ _)) by lia. Qed.

(** [I i w t]: at the [i]-th node, with at most [w] rounds that stay at their node. *)
Lemma scan_ok (body : table → Z → result (table * bool)) (I : Z → nat → table → Prop) num :
  (∀ i w t, I i w t → _num_nodes t = num) →
  (∀ i w t, 1 ≤ i ≤ num → I i w t → ∃ t' go w', body t (i * ns) = Ok (t', go) ∧
    if go : bool then I (i + 1) w' t' ∧ (w' ≤ w)%nat else I i w' t' ∧ (w' < w)%nat) →
  ∀ fuel i w t, 1 ≤ i ≤ num + 1 → I i w t → (Z.to_nat (num + 1 - i) + w ≤ fuel)%nat →
  ∃ t' w', scan ns fuel body t (pos num i) = Ok t' ∧ I (num + 1) w' t'.
Proof using ns_pos ns_aligned ns_small.
  intros Hnum Hbody. induction fuel as [|fuel IH]; intros i w t Hi HI Hf.
  - assert (i = num + 1) as -> by lia. rewrite pos_end. cbn. eauto.
  - destruct (decide (i = num + 1)) as [->|Hne]; [rewrite pos_end; cbn; eauto|].
    destruct (pos_in num i) as [-> Hz]; [lia|]. cbn [scan]. rewrite (proj2 (Z.eqb_neq _ _) Hz).
    destruct (Hbody i w t) as (t'&go&w'&->&Hgo); [lia|done|]. step_ok. destruct go.
    + destruct Hgo as [HI' Hw]. rewrite probe_pos, (Hnum _ _ _ HI') by (rewrite (Hnum _ _ _ HI'); lia).
      apply (IH (i + 1) w' t'); [lia|done|lia].
    + destruct Hgo as [HI' Hw]. replace (i * ns) with (pos num i) by (apply pos_in; lia). apply (IH i w' t'); [lia|done|lia].
Qed.

(** A table all of whose nodes are still to be looked at. *)
Lemma rep_start t : 1 ≤ _num_nodes t → _mask t = mask_of (_num_nodes t) →
  (∀ o, o ∉ 0 :: offsets t → tag (nx t o) = EMPTY) →
  ∃ t' t'', put_next ns t 0 0 = Ok t' ∧ put_prev ns t' 0 0 = Ok t'' ∧ Same t t'' ∧ items t'' = delete 0 (items t) ∧
    _num_items t'' = _num_items t ∧ Rep t'' [] [] [] (offsets t) ∅ ∧ ∀ o, o ≠ 0 → node_at t'' o = node_at t o.
Proof using ns_pos ns_aligned ns_small.
  intros Hn Hm Hb. eexists _, _. rewrite put_next_ok by (lia || left). split; [done|]. rewrite put_prev_over by (cbn; lia || left). split; [done|].
  set (t'' := upd _ _ _ _). split; [done|]. split; [done|]. split; [done|].
  assert (Hat : ∀ o, o ≠ 0 → node_at t'' o = node_at t o) by (intros o Ho; unfold t''; rewrite node_at_upd, decide_False by done; by rewrite node_at_items, node_at_upd, decide_False).
  split; [|done]. split; try done.
  - cbn. unfold t''. rewrite nx_upd, pv_upd, !decide_True, nx_upd, decide_True by done. done.
  - intros o ->%list_elem_of_singleton. cbn. by rewrite lookup_delete_eq.
  - intros o Ho. rewrite Hat; [by apply Hb|]. intros ->. apply Ho. left.
Qed.

Lemma initialize_nodes_ok t : 1 ≤ _num_nodes t → _mask t = mask_of (_num_nodes t) →
  (∀ o, o ∉ 0 :: offsets t → tag (nx t o) = EMPTY) →
  ∃ t' F, initialize_nodes ns t = Ok t' ∧ Same t t' ∧ _num_items t' = 0 ∧ Rep t' [] [] F [] ∅.
Proof using ns_pos ns_aligned ns_small.
  intros Hn Hm Hb. unfold initialize_nodes. set (t0 := with_num_items t (_num_nodes t)).
  destruct (rep_start t0) as (t1&t2&->&He2&Hs&Hi&Hc&Hr&_); [done|done|done|]. step_ok. rewrite He2. step_ok.
  rewrite probe_first by (rewrite (same_num _ _ Hs); done). rewrite (same_num _ _ Hs). change (_num_nodes t0) with (_num_nodes t). set (num := _num_nodes t) in *.
  set (I := λ (i : Z) (w : nat) t', w = 0%nat ∧ Same t2 t' ∧ _num_items t' = num + 1 - i ∧
    ∃ F, Rep t' [] [] F (from_node num i) ∅).
  destruct (scan_ok (λ t offset, t ← deallocate_node ns t offset; Ok (t, true)) I num) with (fuel := enough t2) (i := 1) (w := 0%nat) (t := t2)
    as (t'&w'&He&(_&Hs'&Hc'&F&Hr')).
  - intros i w t' (_&Hs'&_). by rewrite (same_num _ _ Hs'), (same_num _ _ Hs).
  - intros i w t' Hi2 (->&Hs'&Hc'&F&Hr'). rewrite from_node_cons in Hr' by done.
    destruct (rep_dealloc _ _ _ _ _ _ _ Hr') as (t3&->&Hr3&Hs3&Hi3&Hc3&_). step_ok. exists t3, true, 0%nat. split; [done|].
    split; [|done]. split; [done|]. split; [by eapply same_trans|]. split; [lia|]. eauto.
  - cbn. lia.
  - split; [done|]. split; [done|]. split; [rewrite Hc; cbn; lia|]. exists []. change num with (_num_nodes t). by rewrite from_node_first.
  - unfold enough. rewrite (same_num _ _ Hs). cbn. fold num. lia.
  - exists t', F. cbn beta in He. rewrite He. split; [done|]. split; [destruct Hs; destruct Hs'; split; cbn in *; congruence|]. split; [lia|].
    by rewrite from_node_end in Hr'.
Qed.

(** ** Growing in place *)
Lemma rep_keys t chs R F H m o o' x y : Rep t chs R F H m → o ∈ concat chs ++ R → o' ∈ concat chs ++ R →
  items t !! o = Some x → items t !! o' = Some y → x.1 = y.1 → o = o'.
Proof.
  intros Hr Ho Ho' Hx Hy Hk. destruct (decide (o = o')) as [|Hne]; [done|]. exfalso.
  apply elem_of_Permutation in Ho as [os Hos]. rewrite Hos in Ho'. apply elem_of_cons in Ho' as [?|Ho']; [done|].
  apply elem_of_Permutation in Ho' as [os' Hos']. pose proof (rp_items _ _ _ _ _ _ Hr) as Hi.
  rewrite Hos, Hos', (entries_cons _ _ _ _ Hx), (entries_cons _ _ _ _ Hy) in Hi.
  pose proof (NoDup_fst_map_to_list m) as Hnd. rewrite <- Hi in Hnd. cbn in Hnd. apply NoDup_cons in Hnd as [Hnd _].
  apply Hnd. rewrite Hk. left.
Qed.

Lemma chain_tag t chs R F H m o : Rep t chs R F H m → o ∈ concat chs → tag (nx t o) = HEAD ∨ tag (nx t o) = PROBE.
Proof.
  intros Hr (c&Hoc&Hc)%elem_concat. pose proof (proj1 (Forall_forall _ _) (rp_chains _ _ _ _ _ _ Hr) c Hc) as Hch.
  destruct c as [|h l]; [done|]. destruct Hch as [H1 H2 _ _]. apply elem_of_cons in Hoc as [->|Hoc]; [by left|].
  right. by apply (proj1 (Forall_forall _ _) H2).
Qed.

(** Where a node is shows in its tag. *)
Lemma rep_where t chs R F m o : Rep t chs R F [] m → o ∈ offsets t →
  (o ∈ concat chs ∧ (tag (nx t o) = HEAD ∨ tag (nx t o) = PROBE)) ∨ (o ∈ R ∧ tag (nx t o) = REHASH) ∨ (o ∈ F ∧ tag (nx t o) = EMPTY).
Proof using ns_pos ns_aligned ns_small.
  intros Hr Ho. rewrite <- (rp_in _ _ _ _ _ _ _ Hr), app_nil_r in Ho. apply elem_of_app in Ho as [Ho|[Ho|Ho]%elem_of_app].
  - left. split; [done|]. by eapply chain_tag.
  - right. left. split; [done|]. by apply (proj1 (Forall_forall _ _) (rp_rehash _ _ _ _ _ _ Hr)).
  - right. right. split; [done|]. by eapply rep_tag_free.
Qed.

Lemma rep_used t chs F m o : Rep t chs [] F [] m → o ∈ offsets t → is_empty (node_at t o) = false ↔ o ∈ concat chs.
Proof using ns_pos ns_aligned ns_small.
  intros Hr Ho. rewrite is_empty_tag, Z.eqb_neq. split.
  - intros He. destruct (rep_where _ _ _ _ _ _ Hr Ho) as [[? _]|[[[]%elem_of_nil _]|[_ ?]]]; done.
  - intros Hc. destruct (chain_tag _ _ _ _ _ _ _ Hr Hc) as [-> | ->]; unfold HEAD, PROBE, EMPTY; lia.
Qed.

Section remap.
(** The table before, and with the new bounds and an empty list of free nodes. *)
Context (told t0 : table) (chs0 : list (list Z)) (F0 : list Z) (m : gmap K V).
Hypothesis rep_old : Rep told chs0 [] F0 [] m.
Hypothesis node_old : ∀ o, o ∈ offsets t0 → is_empty (node_at t0 o) = false ↔ o ∈ concat chs0.
Hypothesis items_old : ∀ o, o ∈ concat chs0 → items t0 !! o = items told !! o.
Hypothesis incl_old : ∀ o, o ∈ concat chs0 → o ∈ offsets t0.
Abbreviation num := (_num_nodes t0).

Definition marking (i : Z) (w : nat) (t : table) : Prop :=
  w = 0%nat ∧ Same t0 t ∧ (∀ o, o ∈ concat chs0 → items t !! o = items told !! o) ∧ _num_items t = _num_items t0 ∧
  (∀ o, o ∈ from_node num i → nx t o = nx t0 o) ∧
  ∃ R F m', Rep t [] R F (from_node num i) m' ∧ (∀ o, o ∈ R → o ∈ concat chs0) ∧
    ∀ o, o ∈ F → o ∉ concat chs0.

Lemma mark_step_ok i w t : 1 ≤ i ≤ num → marking i w t → ∃ t' go w', mark_step ns t (i * ns) = Ok (t', go) ∧
  if go : bool then marking (i + 1) w' t' ∧ (w' ≤ w)%nat else marking i w' t' ∧ (w' < w)%nat.
Proof using ns_pos ns_aligned ns_small rep_old node_old items_old.
  intros Hi (->&Hs&Hit&Hc&Hnx&R&F&m'&Hr&HR&HF). set (o := i * ns). rewrite from_node_cons in Hr, Hnx by done. fold o in Hr, Hnx.
  assert (Ho : o ∈ offsets t) by (rewrite <- rp_in by done; cbn; set_solver +).
  assert (Ho0 : o ∈ offsets t0) by (by rewrite <- (same_offsets _ _ Hs)).
  pose proof (rp_nonneg _ _ _ _ _ _ Hr) as Hn. pose proof (node_old o Ho0) as Hold.
  assert (He : is_empty (node_at t o) = is_empty (node_at t0 o)).
  { unfold is_empty. by rewrite Hnx by left. }
  pose proof (rp_nodup _ _ _ _ _ _ Hr) as Hnd. cbn in Hnd.
  unfold mark_step. rewrite get_node_ok by (done || by right). step_ok. rewrite He.
  destruct (is_empty (node_at t0 o)) eqn:E.
  - destruct (rep_dealloc _ _ _ _ _ _ _ Hr) as (t1&->&Hr1&Hs1&Hi1&Hc1&Hnx1). step_ok.
    eexists _, true, 0%nat. split; [done|]. split; [|done]. split; [done|]. split; [destruct (same_trans _ _ _ Hs Hs1); by split|].
    split; [intros o' Ho'; cbn; rewrite Hi1, lookup_delete_ne; [by apply Hit|intros <-; by apply Hold in Ho']|].
    split; [cbn; lia|]. split; [|exists R, (F ++ [o]), m'; split; [by apply rep_num_items|]; split; [done|]].
    + intros o' Ho'. change (nx t1 o' = nx t0 o'). rewrite Hnx1; [|cbn; set_solver +Ho']. apply Hnx. by right.
    + intros o' [Ho'| ->%list_elem_of_singleton]%elem_of_app; [auto|]. intros Hx. by apply Hold in Hx.
  - assert (Hoc : o ∈ concat chs0) by (by apply Hold).
    destruct (rep_put_next t _ _ _ _ _ o (Z.lor (nx t o) REHASH) Hr) as (t1&->&Hr1&Hs1&Hi1&Hc1&Hn1&Hnx1); [left|]. step_ok.
    eexists _, true, 0%nat. split; [done|]. split; [|done]. split; [done|]. split; [by eapply same_trans|].
    split; [intros o' Ho'; rewrite Hi1; by apply Hit|]. split; [lia|]. split.
    { intros o' Ho'. rewrite Hnx1; [apply Hnx; by right|]. intros ->. rewrite !app_assoc in Hnd. apply NoDup_app in Hnd as (_&_&[Hx _]%NoDup_cons). done. }
    destruct (rep_item _ _ _ _ _ _ o rep_old) as (x&Hx&_); [by rewrite app_nil_r|].
    exists (o :: R), F, (<[x.1 := x.2]> m'). split; [|split; [|done]].
    + apply rep_place_rehash; [done|by rewrite Hi1, Hit|rewrite Hn1; apply tag_marked|].
      destruct (m' !! x.1) as [v|] eqn:Hk; [|done]. exfalso. destruct (rep_lookup _ _ _ _ _ _ _ _ Hr Hk) as (o'&Ho'&Hx').
      cbn in Ho'. assert (o = o') as <-.
      { eapply (rep_keys told); [exact rep_old|rewrite app_nil_r; exact Hoc|rewrite app_nil_r; by apply HR|exact Hx|rewrite <- Hit by (by apply HR); exact Hx'|done]. }
      apply NoDup_app in Hnd as (_&Hd&_). apply (Hd o Ho'). set_solver +.
    + intros o' [->|Ho']%elem_of_cons; auto.
Qed.

(** After the first loop. *)
Lemma marked t : Rep t0 [] [] [] (offsets t0) ∅ → marking (num + 1) 0 t →
  ∃ R F, Rep t [] R F [] m ∧ Same t0 t ∧ _num_items t = _num_items t0.
Proof using ns_pos ns_aligned ns_small rep_old node_old items_old incl_old.
  intros _ (_&Hs&Hit&Hc&_&R&F&m'&Hr&HR&HF). rewrite from_node_end in Hr. exists R, F. split; [|done].
  assert (HRc : R ≡ₚ concat chs0).
  { apply NoDup_Permutation.
    - pose proof (rp_nodup _ _ _ _ _ _ Hr) as Hnd. cbn in Hnd. by apply NoDup_app in Hnd as (?&_).
    - by eapply rep_nodup_concat.
    - intros o. split; [apply HR|]. intros Ho. pose proof (incl_old o Ho) as Hin. rewrite <- (same_offsets _ _ Hs) in Hin.
      rewrite <- (rp_in _ _ _ _ _ _ _ Hr), app_nil_r in Hin. cbn in Hin. apply elem_of_app in Hin as [?|Hf]; [done|]. by apply HF in Hf. }
  assert (m' = m) as <-; [|done]. apply map_to_list_inj. rewrite <- (rp_items _ _ _ _ _ _ Hr), <- (rp_items _ _ _ _ _ _ rep_old).
  cbn [concat app]. rewrite app_nil_r, HRc. by rewrite (entries_frame told t).
Qed.
End remap.

Lemma swap_items_ok t a b x y : 0 ≤ _num_nodes t → a ∈ offsets t → b ∈ offsets t → items t !! a = Some x → items t !! b = Some y → a ≠ b →
  ∃ t', swap_items ns trivial overlay t a b = Ok t' ∧ Same t t' ∧ (∀ o, nx t' o = nx t o) ∧ _num_items t' = _num_items t ∧
    items t' !! a = Some y ∧ items t' !! b = Some x ∧ ∀ o, o ≠ a → o ≠ b → node_at t' o = node_at t o ∧ items t' !! o = items t !! o.
Proof using ns_pos ns_aligned ns_small.
  intros Hn Hoa Hob Ha Hb Hne. unfold swap_items, move_out, get_item. rewrite Ha. step_ok. set (t1 := moved trivial t a).
  assert (H1 : Same t t1 ∧ _num_items t1 = _num_items t ∧ (∀ o, node_at t1 o = node_at t o) ∧ ∀ o, o ≠ a → items t1 !! o = items t !! o).
  { unfold t1, moved. destruct trivial; [done|]. split; [done|]. split; [done|]. split; [done|]. intros o Ho. cbn. by rewrite lookup_delete_ne. }
  destruct H1 as (Hs1&Hc1&Hat1&Hi1).
  destruct (moved_items t1 a b y) as (t2&->&[Hs2 Hc2 Hnx2 Hia Hat2 Hi2]);
    [by rewrite (same_num _ _ Hs1)|by rewrite (same_offsets _ _ Hs1)|by rewrite Hi1|done|]. step_ok.
  assert (Hs12 : Same t t2) by (by eapply same_trans).
  destruct (put_item_placed overlay [] t2 b x) as (t3&->&[Hs3 Hc3 Hnx3 Hib Hat3 Hi3]);
    [by rewrite (same_num _ _ Hs12)|by rewrite (same_offsets _ _ Hs12)|].
  exists t3. split; [done|]. split; [by eapply same_trans|]. split; [intros o; by rewrite Hnx3, Hnx2, Hat1|]. split; [lia|].
  split; [rewrite Hi3; [done|set_solver +Hne]|]. split; [done|]. intros o Hoa' Hob'.
  rewrite Hat3, Hat2, Hat1, Hi3, Hi2, Hi1 by set_solver +Hoa' Hob'. done.
Qed.

Lemma home_same t t' k : Same t t' → home t' k = home t k.
Proof. intros [Hm _ _]. unfold get_hash_head, find_offset. by rewrite Hm. Qed.

(** A node that waits to be placed becomes free for another use. *)
Lemma rep_unplace t chs R F m o : Rep t chs R F [] m → o ∈ R → ∃ R' x, R ≡ₚ o :: R' ∧ items t !! o = Some x ∧
  m !! x.1 = Some x.2 ∧ tag (nx t o) = REHASH ∧ Rep t chs R' F [o] (delete x.1 m).
Proof.
  intros Hr Ho. pose proof Ho as [R' HR]%elem_of_Permutation. destruct (rep_item _ _ _ _ _ _ o Hr) as (x&Hx&Hm); [set_solver +Ho|].
  exists R', x. split; [done|]. split; [done|]. split; [done|].
  split; [by apply (proj1 (Forall_forall _ _) (rp_rehash _ _ _ _ _ _ Hr))|].
  eapply rep_unplace_rehash; [|done]. by eapply rep_perm.
Qed.

Lemma insert_delete_back (m : gmap K V) x : m !! x.1 = Some x.2 → <[x.1 := x.2]> (delete x.1 m) = m.
Proof. apply insert_delete_id. Qed.

Lemma insert_delete_two (m : gmap K V) x y : m !! x.1 = Some x.2 → m !! y.1 = Some y.2 →
  <[x.1 := x.2]> (<[y.1 := y.2]> (delete x.1 (delete y.1 m))) = m.
Proof.
  intros Hx Hy. apply map_eq. intros k. destruct (decide (k = x.1)) as [->|Hkx]; [by rewrite lookup_insert_eq|].
  rewrite lookup_insert_ne by done. destruct (decide (k = y.1)) as [->|Hky]; [by rewrite lookup_insert_eq|].
  by rewrite lookup_insert_ne, !lookup_delete_ne.
Qed.

Section place.
Context (t0 : table) (m : gmap K V).
Abbreviation num := (_num_nodes t0).

(** The second loop: all chains have one node, and what the loop has passed either is in
    its place or waits for its home, which is taken. *)
Definition heading (i : Z) (w : nat) (t : table) : Prop :=
  Same t0 t ∧ _num_items t = _num_items t0 ∧ ∃ chs R F, Rep t chs R F [] m ∧ (∀ c, c ∈ chs → ∃ h, c = [h]) ∧
    (length R ≤ w)%nat ∧ ∀ o x, o ∈ R → o < i * ns → items t !! o = Some x → [home t x.1] ∈ chs.

Lemma head_step_ok i w t : 1 ≤ i ≤ num → heading i w t →
  ∃ t' go w', head_step hash_function ns trivial overlay t (i * ns) = Ok (t', go) ∧
    if go : bool then heading (i + 1) w' t' ∧ (w' ≤ w)%nat else heading i w' t' ∧ (w' < w)%nat.
Proof using ns_pos ns_aligned ns_small.
  intros Hi (Hs&Hc&chs&R&F&Hr&Hone&Hw&Hpast). set (o := i * ns).
  pose proof (rp_nonneg _ _ _ _ _ _ Hr) as Hn. pose proof (same_offsets _ _ Hs) as Hoff.
  assert (Ho : o ∈ offsets t) by (rewrite Hoff; apply elem_offsets; eauto).
  assert (Hnext : ∀ o', o' < (i + 1) * ns → o' ∈ R → o' < o ∨ o' = o).
  { intros o' Hlt HoR. assert (Hin : o' ∈ offsets t) by (rewrite <- rp_in by done; set_solver +HoR).
    apply elem_offsets in Hin as (j&_&->). unfold o. destruct (decide (j = i)); [by right; subst|left; nia]. }
  unfold head_step. rewrite get_node_ok by (done || by right). step_ok. rewrite is_rehashing_tag.
  destruct (rep_where _ _ _ _ _ _ Hr Ho) as [[Hch Htag]|[[HoR Htag]|[HoF Htag]]].
  (* not to be placed *)
  1, 3: exists t, true, w.
  1, 2: assert (Hne : tag (nx t o) ≠ REHASH) by (unfold HEAD, PROBE, EMPTY, REHASH in *; lia); rewrite (proj2 (Z.eqb_neq _ _) Hne).
  1, 2: split; [done|]; split; [|done]; split; [done|]; split; [done|]; exists chs, R, F; split; [done|]; split; [done|]; split; [done|].
  1, 2: intros o' x Ho' Hlt; destruct (Hnext o' Hlt Ho') as [Hlt'|E]; [by apply Hpast|].
  1, 2: exfalso; rewrite E in Ho'; apply Hne; by apply (proj1 (Forall_forall _ _) (rp_rehash _ _ _ _ _ _ Hr)).
  rewrite Htag, Z.eqb_refl.
  destruct (rep_unplace _ _ _ _ _ _ Hr HoR) as (R1&y&HR&Hy&Hmy&_&Hr1). unfold get_key, get_item. rewrite Hy. step_ok.
  set (p := home t y.1). assert (Hp : p ∈ offsets t) by (apply home_in; apply Hr).
  rewrite get_node_ok by (done || by right). step_ok. rewrite is_rehashing_tag, is_empty_tag.
  destruct (rep_where _ _ _ _ _ _ Hr Hp) as [[Hpc Hpt]|[[HpR Hpt]|[HpF Hpt]]].
  - (* the home is taken *)
    exists t, true, w. assert (Hne : tag (nx t p) ≠ REHASH ∧ tag (nx t p) ≠ EMPTY) by (unfold HEAD, PROBE, EMPTY, REHASH in *; lia).
    destruct Hne as [Hne1 Hne2]. rewrite (proj2 (Z.eqb_neq _ _) Hne1), (proj2 (Z.eqb_neq _ _) Hne2).
    split; [done|]. split; [|done]. split; [done|]. split; [done|]. exists chs, R, F. split; [done|]. split; [done|]. split; [done|].
    intros o' x Ho' Hlt Hx. destruct (Hnext o' Hlt Ho') as [Hlt'|E]; [by apply (Hpast o')|]. subst o'. assert (x = y) as -> by congruence.
    apply elem_concat in Hpc as (c&Hpc&Hcc). destruct (Hone c Hcc) as [h ->]. apply list_elem_of_singleton in Hpc. fold p. by rewrite Hpc.
  - (* the home waits too *)
    rewrite Hpt, Z.eqb_refl. destruct (decide (p = o)) as [Hpo|Hpo].
    + destruct (rep_put_next t _ _ _ _ _ p HEAD Hr1) as (t1&->&Hr2&Hs2&Hi2&Hc2&Hn2&Hnx2); [rewrite Hpo; left|]. step_ok.
      rewrite Hpo, Z.eqb_refl. cbn [negb]. exists t1, true, (length R1). assert (Hlen := Permutation_length HR). cbn in Hlen.
      split; [done|]. split; [|lia]. split; [by eapply same_trans|]. split; [lia|]. exists ([o] :: chs), R1, F.
      split; [|split; [|split; [done|]]].
      * rewrite <- (insert_delete_back m y Hmy). apply rep_place_head; [done|by rewrite Hi2|by rewrite <- Hpo|by rewrite (home_same _ _ _ Hs2)|by rewrite lookup_delete_eq].
      * intros c [->|Hcc]%elem_of_cons; eauto.
      * intros o' x Ho' Hlt Hx. rewrite Hi2 in Hx. rewrite (home_same _ _ _ Hs2). right.
        assert (HoR' : o' ∈ R) by (rewrite HR; by right). destruct (Hnext o' Hlt HoR') as [Hlt'|E]; [by apply (Hpast o')|].
        exfalso. subst o'. pose proof (rp_nodup _ _ _ _ _ _ Hr1) as (_&_&Hnd)%NoDup_app. apply NoDup_app in Hnd as (_&Hd&_).
        apply (Hd o Ho'). set_solver +.
    + (* they change places *)
      assert (HpR1 : p ∈ R1) by (rewrite HR in HpR; apply elem_of_cons in HpR as [?|?]; done).
      pose proof HpR1 as [R2 HR2]%elem_of_Permutation.
      destruct (rep_item _ _ _ _ _ _ p Hr) as (x&Hx&Hmx); [set_solver +HpR|].
      assert (Hkeys : x.1 ≠ y.1). { intros E. apply Hpo. eapply (rep_keys t); [exact Hr|set_solver +HpR|set_solver +HoR|exact Hx|exact Hy|done]. }
      pose proof (rep_perm _ _ _ _ _ _ _ _ _ (reflexivity chs) HR2 (reflexivity _) Hr1) as Hr1'.
      eapply rep_unplace_rehash in Hr1'; [|exact Hx].
      destruct (rep_put_next t _ _ _ _ _ p HEAD Hr1') as (t1&->&Hr2&Hs2&Hi2&Hc2&Hn2&Hnx2); [left|]. step_ok.
      rewrite (proj2 (Z.eqb_neq _ _) Hpo). cbn [negb].
      destruct (swap_items_ok t1 p o x y) as (t2&->&Hs3&Hnx3&Hc3&Hp3&Ho3&Hoth3);
        [by rewrite (same_num _ _ Hs2)|by rewrite (same_offsets _ _ Hs2)|by rewrite (same_offsets _ _ Hs2)|by rewrite Hi2|by rewrite Hi2|done|]. step_ok.
      assert (Hs13 : Same t t2) by (by eapply same_trans).
      exists t2, false, (length R1). assert (Hlen := Permutation_length HR). cbn in Hlen. split; [done|]. split; [|lia].
      split; [by eapply same_trans|]. split; [lia|]. exists ([p] :: chs), (o :: R2), F. split; [|split; [|split]].
      * assert (Hr3 : Rep t2 chs R2 F [p; o] (delete x.1 (delete y.1 m))).
        { eapply rep_items; [exact Hr2|done|done|]. intros q Hq.
          destruct (Hoth3 q) as [-> ->]; [set_solver +Hq..|done]. }
        assert (Hr4 : Rep t2 ([p] :: chs) R2 F [o] (<[y.1 := y.2]> (delete x.1 (delete y.1 m)))).
        { apply rep_place_head; [done|done|by rewrite Hnx3|by rewrite (home_same _ _ _ Hs13)|by rewrite lookup_delete_ne, lookup_delete_eq]. }
        apply (rep_place_rehash _ _ _ _ _ _ _ x) in Hr4; [|done|rewrite Hnx3, Hnx2; done|by rewrite lookup_insert_ne, lookup_delete_eq].
        replace m with (<[x.1 := x.2]> (<[y.1 := y.2]> (delete x.1 (delete y.1 m)))); [done|].
        by apply insert_delete_two.
      * intros c [->|Hcc]%elem_of_cons; eauto.
      * rewrite (Permutation_length HR2). done.
      * intros o' z Ho' Hlt Hz. rewrite (home_same _ _ _ Hs13). right. apply elem_of_cons in Ho' as [->|Ho']; [unfold o in Hlt; lia|].
        assert (HoR' : o' ∈ R) by (rewrite HR, HR2; set_solver +Ho').
        apply (Hpast o'); [done|done|]. rewrite <- Hz, <- Hi2. symmetry. apply (Hoth3 o'); intros ->.
        -- pose proof (rp_nodup _ _ _ _ _ _ Hr1') as (_&_&Hnd)%NoDup_app. apply NoDup_app in Hnd as (_&Hd&_). apply (Hd p Ho'). set_solver +.
        -- pose proof (rp_nodup _ _ _ _ _ _ Hr1') as (_&_&Hnd)%NoDup_app. apply NoDup_app in Hnd as (_&Hd&_). apply (Hd o Ho'). set_solver +.
  - (* the home is free *)
    rewrite Hpt. cbn [EMPTY REHASH Z.eqb]. cbv iota. apply list_elem_of_split in HpF as (F1&F2&->).
    destruct (rep_alloc _ _ _ F1 p F2 _ _ Hr1) as (t1&->&Hr2&Hs2&Hi2&Hc2&Hn2&Hnx2). step_ok.
    destruct (rep_put_next t1 _ _ _ _ _ p HEAD Hr2) as (t2&->&Hr3&Hs3&Hi3&Hc3&Hn3&Hnx3); [left|]. step_ok.
    assert (Hs13 : Same t t2) by (by eapply same_trans).
    assert (Hpo : p ≠ o). { intros E. pose proof (rp_nodup _ _ _ _ _ _ Hr2) as Hnd. rewrite !app_assoc in Hnd.
      apply NoDup_app in Hnd as (_&_&[Hx _]%NoDup_cons). apply Hx. rewrite E. left. }
    destruct (moved_items t2 p o y) as (t3&->&Hpl);
      [by rewrite (same_num _ _ Hs13)|by rewrite (same_offsets _ _ Hs13)|by rewrite Hi3, Hi2|done|]. step_ok.
    pose proof (rep_placed _ _ _ _ _ _ _ _ _ Hr3 Hpl) as Hr4. destruct Hpl as [Hs5 Hc5 Hnx5 Hi5 _ Hoth5].
    assert (Hr5 : Rep t3 ([p] :: chs) R1 (F1 ++ F2) [o] m).
    { rewrite <- (insert_delete_back m y Hmy). apply rep_place_head; [done|done|by rewrite Hnx5| |by rewrite lookup_delete_eq].
      by rewrite (home_same _ _ _ Hs5), (home_same _ _ _ Hs13). }
    destruct (rep_dealloc _ _ _ _ _ _ _ Hr5) as (t4&->&Hr6&Hs6&Hi6&Hc6&Hnx6). step_ok.
    assert (Hs16 : Same t t4) by (eapply same_trans; [exact Hs13|]; by eapply same_trans).
    exists t4, true, (length R1). assert (Hlen := Permutation_length HR). cbn in Hlen. split; [done|]. split; [|lia].
    split; [by eapply same_trans|]. split; [lia|]. exists ([p] :: chs), R1, ((F1 ++ F2) ++ [o]). split; [done|]. split; [|split; [done|]].
    * intros c [->|Hcc]%elem_of_cons; eauto.
    * intros o' z Ho' Hlt Hz. rewrite (home_same _ _ _ Hs16). right.
      assert (HoR' : o' ∈ R) by (rewrite HR; by right).
      pose proof (rp_nodup _ _ _ _ _ _ Hr3) as (_&_&Hnd)%NoDup_app. apply NoDup_app in Hnd as (_&Hd&_).
      assert (Ho'o : o' ≠ o) by (intros ->; apply (Hd o Ho'); set_solver +).
      assert (Ho'p : o' ≠ p) by (intros ->; apply (Hd p Ho'); set_solver +).
      destruct (Hnext o' Hlt HoR') as [Hlt'|E]; [|done]. apply (Hpast o'); [done|done|]. rewrite <- Hz, Hi6, lookup_delete_ne by done. rewrite Hoth5, Hi3, Hi2; [done|]. set_solver +Ho'o Ho'p.
Qed.
End place.

Section append.
Context (t0 : table) (m : gmap K V).
Abbreviation num := (_num_nodes t0).

(** The third loop: every home has its chain, and nothing the loop has passed waits. *)
Definition appending (i : Z) (w : nat) (t : table) : Prop :=
  w = 0%nat ∧ Same t0 t ∧ _num_items t = _num_items t0 ∧ ∃ chs R F, Rep t chs R F [] m ∧
    (∀ o x, o ∈ R → items t !! o = Some x → ∃ l, (home t x.1 :: l) ∈ chs) ∧ ∀ o, o ∈ R → i * ns ≤ o.

(** After the second loop it holds. *)
Lemma headed w t : heading t0 m (num + 1) w t → appending 1 0 t.
Proof using ns_pos ns_aligned ns_small.
  intros (Hs&Hc&chs&R&F&Hr&_&_&Hpast). split; [done|]. split; [done|]. split; [done|]. exists chs, R, F. split; [done|].
  assert (HR : ∀ o, o ∈ R → 1 * ns ≤ o < (num + 1) * ns).
  { intros o Ho. assert (Hin : o ∈ offsets t) by (rewrite <- rp_in by done; set_solver +Ho).
    rewrite (same_offsets _ _ Hs) in Hin. apply elem_offsets in Hin as (j&?&->). nia. }
  split; [|intros o Ho; by apply HR]. intros o x Ho Hx. exists []. apply (Hpast o); [done|by apply HR|done].
Qed.

Lemma last_from_ok t h l chs R F H m' : Rep t ((h :: l) :: chs) R F H m' → last_from ns t h = Ok (List.last l h).
Proof using ns_pos ns_aligned ns_small.
  intros Hr. pose proof (rep_length _ _ _ _ _ _ _ Hr) as Hlen. unfold last_from.
  rewrite (chain_from_ok t l).
  - step_ok. by rewrite last_cons.
  - by eapply rp_nonneg.
  - pose proof (rep_chain _ _ _ _ _ _ _ Hr) as [_ _ Hl _]. done.
  - intros o Ho. eapply rep_chain_in; [exact Hr|set_solver +Ho].
  - unfold enough. lia.
Qed.

Lemma chain_step_ok i w t : Z.of_nat (base.size m) < num → 1 ≤ i ≤ num → appending i w t →
  ∃ t' go w', chain_step hash_function ns trivial overlay t (i * ns) = Ok (t', go) ∧
    if go : bool then appending (i + 1) w' t' ∧ (w' ≤ w)%nat else appending i w' t' ∧ (w' < w)%nat.
Proof using ns_pos ns_aligned ns_small.
  intros Hsz Hi (->&Hs&Hc&chs&R&F&Hr&Hhome&Hpast). set (o := i * ns) in *.
  pose proof (rp_nonneg _ _ _ _ _ _ Hr) as Hn. pose proof (same_offsets _ _ Hs) as Hoff.
  assert (Ho : o ∈ offsets t) by (rewrite Hoff; apply elem_offsets; eauto).
  assert (Hnext : ∀ o', o' ∈ R → o' ≠ o → (i + 1) * ns ≤ o').
  { intros o' HoR Hne. assert (Hin : o' ∈ offsets t) by (rewrite <- rp_in by done; set_solver +HoR).
    apply Hpast in HoR as Hle. apply elem_offsets in Hin as (j&_&->). unfold o in *. assert (j ≠ i) by (by intros ->). nia. }
  unfold chain_step. rewrite get_node_ok by (done || by right). step_ok. rewrite is_rehashing_tag.
  destruct (decide (o ∈ R)) as [HoR|HoR].
  - destruct (rep_unplace _ _ _ _ _ _ Hr HoR) as (R1&y&HR&Hy&Hmy&Htag&Hr1). rewrite Htag, Z.eqb_refl.
    unfold get_key, get_item. rewrite Hy. step_ok. set (h := home t y.1).
    destruct (Hhome o y HoR Hy) as [l Hl]. fold h in Hl. pose proof Hl as [chs' Hchs]%elem_of_Permutation.
    pose proof (rep_perm _ _ _ _ _ _ _ _ _ Hchs (reflexivity _) (reflexivity _) Hr1) as Hr2.
    rewrite (last_from_ok t h l _ _ _ _ _ Hr2). step_ok.
    pose proof (rep_free_length _ _ _ _ _ _ Hr) as Hfl. cbn in Hfl. rewrite (same_num _ _ Hs) in Hfl.
    destruct (exists_last (l := F)) as (F0&p&->); [intros ->; cbn in Hfl; lia|].
    assert (Hlast : List.last l h ∈ concat chs) by (apply elem_concat; exists (h :: l); split; [apply last_in|done]).
    unfold probe_node_rehash, enough. rewrite probe_loop_last; [|done|rewrite <- (rp_in _ _ _ _ _ _ _ Hr); set_solver +Hlast|].
    2: { rewrite is_empty_tag, is_rehashing_tag. by destruct (chain_tag _ _ _ _ _ _ _ Hr Hlast) as [-> | ->]. }
    rewrite (rep_last_free _ _ _ _ _ _ _ Hr). step_ok.
    assert (Hp : p ∈ offsets t) by (rewrite <- (rp_in _ _ _ _ _ _ _ Hr); set_solver +).
    rewrite get_node_ok by (done || by right). step_ok. rewrite is_rehashing_tag.
    rewrite (rep_tag_free _ _ _ _ _ _ p Hr) by set_solver +. cbn [EMPTY REHASH Z.eqb]. cbv iota.
    destruct (rep_alloc _ _ _ F0 p [] _ _ Hr2) as (t1&->&Hr3&Hs3&Hi3&Hc3&Hn3&Hnx3). rewrite app_nil_r in Hr3. step_ok.
    assert (Hpo : p ≠ o). { intros E. pose proof (rp_nodup _ _ _ _ _ _ Hr3) as Hnd. rewrite !app_assoc in Hnd.
      apply NoDup_app in Hnd as (_&_&[Hx _]%NoDup_cons). apply Hx. rewrite E. left. }
    destruct (rep_place_tail t1 h l chs' R1 F0 p [o] (delete y.1 m) y Hr3 Hn3) as (t2&->&Hs4&Hi4&Hc4&Hat4&Hr4);
      [by rewrite (home_same _ _ _ Hs3)|by rewrite lookup_delete_eq|]. step_ok.
    assert (Hs34 : Same t t2) by (by eapply same_trans).
    destruct (moved_items t2 p o y) as (t3&->&Hpl);
      [by rewrite (same_num _ _ Hs34)|by rewrite (same_offsets _ _ Hs34)|by rewrite Hi4, Hi3|done|]. step_ok.
    apply Hr4 in Hpl as Hr5. rewrite insert_delete_back in Hr5 by done. destruct Hpl as [Hs5 Hc5 Hnx5 Hi5 _ Hoth5].
    destruct (rep_dealloc _ _ _ _ _ _ _ Hr5) as (t4&->&Hr6&Hs6&Hi6&Hc6&Hnx6). step_ok.
    assert (Hs14 : Same t t4) by (eapply same_trans; [exact Hs3|]; eapply same_trans; [exact Hs4|]; by eapply same_trans).
    pose proof (rp_nodup _ _ _ _ _ _ Hr3) as (_&_&Hnd)%NoDup_app. apply NoDup_app in Hnd as (_&Hd&_).
    exists t4, true, 0%nat. split; [done|]. split; [|done]. split; [done|]. split; [by eapply same_trans|]. split; [lia|].
    exists ((h :: l ++ [p]) :: chs'), R1, (F0 ++ [o]). split; [done|]. split.
    + intros o' x Ho' Hx. rewrite (home_same _ _ _ Hs14).
      assert (Ho'o : o' ≠ o) by (intros ->; apply (Hd o Ho'); set_solver +).
      assert (Ho'p : o' ≠ p) by (intros ->; apply (Hd p Ho'); set_solver +).
      rewrite Hi6, lookup_delete_ne in Hx by done. rewrite Hoth5, Hi4, Hi3 in Hx by set_solver +Ho'o Ho'p. destruct (Hhome o' x) as [l' Hl']; [rewrite HR; by right|done|].
      rewrite Hchs in Hl'. apply elem_of_cons in Hl' as [E|Hl']; [injection E as -> ->; eexists; left|exists l'; by right].
    + intros o' Ho'. apply Hnext; [rewrite HR; by right|]. intros ->. apply (Hd o Ho'). set_solver +.
  - assert (Hne : tag (nx t o) ≠ REHASH).
    { destruct (rep_where _ _ _ _ _ _ Hr Ho) as [[_ Ht]|[[? _]|[_ Ht]]]; [|done|]; unfold HEAD, PROBE, EMPTY, REHASH in *; lia. }
    rewrite (proj2 (Z.eqb_neq _ _) Hne). exists t, true, 0%nat. split; [done|]. split; [|done]. split; [done|]. split; [done|]. split; [done|].
    exists chs, R, F. split; [done|]. split; [done|]. intros o' Ho'. apply Hnext; [done|]. by intros ->.
Qed.

(** After the third loop. *)
Lemma appended_all w t : appending (num + 1) w t → ∃ chs F, Rep t chs [] F [] m ∧ Same t0 t ∧ _num_items t = _num_items t0.
Proof using ns_pos ns_aligned ns_small.
  intros (_&Hs&Hc&chs&R&F&Hr&_&HR). assert (R = []) as ->; [|eauto].
  destruct R as [|o R]; [done|]. exfalso. assert (Hin : o ∈ offsets t) by (rewrite <- rp_in by done; set_solver +).
  rewrite (same_offsets _ _ Hs) in Hin. apply elem_offsets in Hin as (j&?&->). pose proof (HR (j * ns) ltac:(left)). nia.
Qed.
End append.

(** ** What a table in use is *)
Record Good (t : table) (m : gmap K V) : Prop := {
  gd_rep : ∃ chs F, Rep t chs [] F [] m;
  gd_count : _num_items t = Z.of_nat (base.size m);
  gd_max : _max_num_items t ≤ _num_nodes t;
}.

Context (keep : Z → bool).

Lemma set_space_ok t n : 1 ≤ n → ∃ t', set_space ns keep t n = Ok t' ∧ _num_nodes t' = n ∧ _mask t' = mask_of n ∧
  _num_items t' = _num_items t ∧ _max_num_items t' = _max_num_items t ∧
  (∀ o, o ≤ n * ns → node_at t' o = node_at t o ∧ items t' !! o = items t !! o) ∧
  ∀ o, node_at t' o = node_at t o ∨ node_at t' o = PoolNode 0 0.
Proof.
  intros Hn. unfold set_space. rewrite (proj2 (Z.leb_le _ _) Hn). step_ok. eexists. split; [done|]. repeat (split; [done|]).
  match goal with |- context [∀ o, o ≤ n * ns → node_at ?x o = node_at t o ∧ _] => set (t' := x) end.
  assert (Hat : ∀ o, node_at t' o = if (o <=? n * ns) || keep o then node_at t o else PoolNode 0 0).
  { intros o. unfold node_at. cbn. rewrite map_lookup_filter. destruct (nodes t !! o) as [nd|]; cbn.
    - unfold guard. destruct (decide _) as [E|E]; cbn in E |- *; [by rewrite E|]. destruct ((o <=? n * ns) || keep o); [done|done].
    - by destruct (_ || _). }
  split; intros o.
  - intros Ho. rewrite Hat. cbn. rewrite map_lookup_filter, (proj2 (Z.leb_le _ _) Ho). split; [done|].
    destruct (items t !! o) as [x|]; [|done]. cbn. unfold guard. destruct (decide _) as [E|E]; [done|].
    destruct E. cbn. by rewrite ?(proj2 (Z.leb_le _ _) Ho).
  - rewrite Hat. destruct (_ || _); auto.
Qed.

Lemma offsets_le t t' o : _num_nodes t ≤ _num_nodes t' → o ∈ offsets t → o ∈ offsets t'.
Proof. intros Hle (i&?&->)%elem_offsets. apply elem_offsets. exists i. split; [lia|done]. Qed.

(** The items stay, the nodes are more. *)
Lemma inner_remap_rehash_ok t m n : Good t m → _num_nodes t < n →
  ∃ t', inner_remap_rehash hash_function ns trivial overlay keep t n = Ok t' ∧ Good t' m ∧ _num_nodes t' = n.
Proof using ns_pos ns_aligned ns_small.
  intros [(chs&F&Hr) Hcount Hmax] Hlt. pose proof (rp_num _ _ _ _ _ _ Hr) as Hnum. unfold inner_remap_rehash.
  rewrite (proj2 (Z.ltb_lt _ _) Hlt). step_ok.
  destruct (set_space_ok t n) as (t1&->&Hn1&Hm1&Hc1&_&Hat1&Hz1); [lia|]. step_ok.
  assert (Hle : ∀ o, o ∈ offsets t → o ≤ n * ns) by (intros o (i&?&->)%elem_offsets; nia).
  set (t2 := max_load_factor t1). assert (Hat2 : ∀ o, node_at t2 o = node_at t1 o) by done.
  assert (Hincl : ∀ o, o ∈ offsets t → o ∈ offsets t2) by (intros o; apply offsets_le; cbn; lia).
  assert (Hbeyond : ∀ o, o ∉ 0 :: offsets t → tag (nx t2 o) = EMPTY).
  { intros o Ho. rewrite Hat2. destruct (Hz1 o) as [-> | ->]; [by apply (rp_beyond _ _ _ _ _ _ Hr)|done]. }
  destruct (rep_start t2) as (t3&t4&He3&He4&Hs4&Hi4&Hc4&Hr4&Hat4).
  { cbn. lia. } { cbn. by rewrite Hn1. } { intros o Ho. apply Hbeyond. intros Hx. apply Ho. apply elem_of_cons in Hx as [->|Hx]; [left|right; auto]. }
  rewrite He3. step_ok. rewrite He4. step_ok.
  assert (Hn4 : _num_nodes t4 = n) by (rewrite (same_num _ _ Hs4); done). pose proof (same_offsets _ _ Hs4) as Hoff4.
  assert (Hin : ∀ o, o ∈ concat chs → o ∈ offsets t) by (intros o Ho; rewrite <- rp_in by done; set_solver +Ho).
  assert (Hold : ∀ o, o ∈ offsets t4 → is_empty (node_at t4 o) = false ↔ o ∈ concat chs).
  { intros o Ho. pose proof (offsets_pos _ _ Ho) as Hpos. rewrite Hat4 by lia. rewrite Hoff4 in Ho.
    destruct (decide (o ∈ offsets t)) as [Hot|Hot].
    - rewrite Hat2. rewrite (proj1 (Hat1 o (Hle o Hot))). by apply (rep_used _ _ _ _ _ Hr).
    - split; [|intros Hx; by apply Hin in Hx]. rewrite is_empty_tag, Hbeyond; [done|]. intros [->|?]%elem_of_cons; [lia|done]. }
  assert (Hi04 : ∀ o, o ∈ concat chs → items t4 !! o = items t !! o).
  { intros o Ho. rewrite Hi4. apply Hin in Ho. pose proof (offsets_pos _ _ Ho). rewrite lookup_delete_ne by lia.
    change (items t2) with (items t1). apply Hat1. auto. }
  assert (Hincl4 : ∀ o, o ∈ concat chs → o ∈ offsets t4) by (intros o Ho; rewrite Hoff4; auto).
  assert (Hsz : Z.of_nat (base.size m) < _num_nodes t4).
  { pose proof (rep_free_length _ _ _ _ _ _ Hr) as Hfl. lia. }
  rewrite probe_first by lia. rewrite Hn4.
  destruct (scan_ok (mark_step ns) (marking t t4 chs) n) with (fuel := enough t4) (i := 1) (w := 0%nat) (t := t4)
    as (t5&w5&->&HI5).
  { intros i w t' (_&Hs&_). by rewrite (same_num _ _ Hs). }
  { intros i w t' Hi HI. rewrite <- Hn4 in Hi. by apply (mark_step_ok t t4 chs F m Hr Hold Hi04). }
  { lia. }
  { split; [done|]. split; [done|]. split; [done|]. split; [done|]. split; [done|]. exists [], [], ∅.
    rewrite from_node_first, Hoff4. split; [done|]. split; intros o Ho%elem_of_nil; done. }
  { unfold enough. rewrite Hn4. lia. }
  step_ok. assert (w5 = 0%nat) as -> by apply HI5. rewrite <- Hn4 in HI5 at 1.
  destruct (marked t t4 chs F m Hr Hold Hi04 Hincl4 t5) as (R5&F5&Hr5&Hs5&Hc5); [rewrite Hoff4; done|done|].
  assert (Hn5 : _num_nodes t5 = n) by (by rewrite (same_num _ _ Hs5)).
  rewrite probe_first by lia. rewrite Hn5.
  destruct (scan_ok (head_step hash_function ns trivial overlay) (heading t5 m) n) with (fuel := enough_steps t5) (i := 1) (w := length R5) (t := t5)
    as (t6&w6&->&HI6).
  { intros i w t' (Hs&_). by rewrite (same_num _ _ Hs). }
  { intros i w t' Hi HI. rewrite <- Hn5 in Hi. by apply head_step_ok. }
  { lia. }
  { split; [done|]. split; [done|]. exists [], R5, F5. split; [done|]. split; [intros c Hc%elem_of_nil; done|]. split; [done|].
    intros o x Ho Hlo _. exfalso. assert (Hx : o ∈ offsets t5) by (rewrite <- rp_in by done; set_solver +Ho).
    apply elem_offsets in Hx as (j&?&->). nia. }
  { pose proof (Permutation_length (rp_nodes _ _ _ _ _ _ Hr5)) as Hl. unfold offsets in Hl.
    rewrite length_fmap, length_seqZ in Hl. rewrite !length_app in Hl. unfold enough_steps, enough. rewrite Hn5 in *. lia. }
  step_ok. rewrite <- Hn5 in HI6 at 1. apply headed in HI6 as HI6'.
  assert (Hn6 : _num_nodes t6 = n) by (destruct HI6 as (Hs&_); by rewrite (same_num _ _ Hs)).
  rewrite probe_first by lia. rewrite Hn6.
  destruct (scan_ok (chain_step hash_function ns trivial overlay) (appending t5 m) n) with (fuel := enough_steps t6) (i := 1) (w := 0%nat) (t := t6)
    as (t7&w7&->&HI7).
  { intros i w t' (_&Hs&_). by rewrite (same_num _ _ Hs). }
  { intros i w t' Hi HI. rewrite <- Hn5 in Hi. apply chain_step_ok; [rewrite Hn5, <- Hn4; done|done|done]. }
  { lia. } { done. }
  { unfold enough_steps, enough. rewrite Hn6. lia. }
  rewrite <- Hn5 in HI7 at 1. apply appended_all in HI7 as (chs7&F7&Hr7&Hs7&Hc7).
  assert (Hs47 : Same t4 t7) by (by eapply same_trans).
  exists t7. split; [done|]. split; [|by rewrite (same_num _ _ Hs7)]. split; [eauto|rewrite Hc7, Hc5, Hc4; cbn; lia|].
  rewrite (same_max _ _ Hs47), (same_num _ _ Hs47), (same_max _ _ Hs4), (same_num _ _ Hs4). cbn. lia.
Qed.

(** ** Iteration *)

(** The nodes in use, from the [i]-th on. *)
Definition used (t : table) (i : Z) : list Z := filter (λ o, is_empty (node_at t o) = false) (from_node (_num_nodes t) i).

Lemma used_cons t i : 1 ≤ i ≤ _num_nodes t →
  used t i = if is_empty (node_at t (i * ns)) then used t (i + 1) else i * ns :: used t (i + 1).
Proof.
  intros Hi. unfold used. rewrite from_node_cons, filter_cons by done. by destruct (is_empty _).
Qed.

Lemma used_end t : used t (_num_nodes t + 1) = [].
Proof. unfold used. by rewrite from_node_end. Qed.

Lemma elem_used t i o : 1 ≤ i → o ∈ used t i ↔ is_empty (node_at t o) = false ∧ o ∈ offsets t ∧ i * ns ≤ o.
Proof using ns_pos ns_aligned ns_small.
  intros Hi. unfold used, from_node. rewrite list_elem_of_filter, list_elem_of_fmap, elem_offsets. setoid_rewrite elem_of_seqZ.
  split; [intros (He&j&->&?)|intros (He&(j&?&->)&?)]; (split; [done|]); [split; [exists j; split; [lia|done]|nia]|].
  exists j. split; [done|nia].
Qed.

Lemma used_NoDup t i : NoDup (used t i).
Proof using ns_pos ns_aligned ns_small.
  unfold used, from_node. apply NoDup_filter. apply NoDup_fmap_2_strong; [|apply NoDup_seqZ].
  intros a b _ _ E. apply (Z.mul_cancel_r a b ns); lia.
Qed.

(** A tail of the list is the list from the node behind. *)
Lemma used_tail t o l : ∀ n i, 1 ≤ i ≤ _num_nodes t + 1 → n = Z.to_nat (_num_nodes t + 1 - i) → used t i = o :: l →
  ∃ j, i ≤ j ≤ _num_nodes t ∧ o = j * ns ∧ l = used t (j + 1).
Proof.
  induction n as [|n IH]; intros i Hi Hn Hu; [assert (i = _num_nodes t + 1) as -> by lia; by rewrite used_end in Hu|].
  rewrite used_cons in Hu by lia. destruct (is_empty _).
  - destruct (IH (i + 1)) as (j&?&?); [lia|lia|done|]. exists j. split; [lia|done].
  - injection Hu as <- <-. exists i. split; [lia|done].
Qed.

Lemma node_in t i : 1 ≤ i ≤ _num_nodes t → i * ns ∈ 0 :: offsets t.
Proof. intros Hi. right. apply elem_offsets. eauto. Qed.

Lemma rep_used_perm t chs F m : Rep t chs [] F [] m → used t 1 ≡ₚ concat chs.
Proof using ns_pos ns_aligned ns_small.
  intros Hr. apply NoDup_Permutation; [apply used_NoDup|by eapply rep_nodup_concat|]. intros o. rewrite elem_used by done. split.
  - intros (He&Ho&_). by apply (rep_used _ _ _ _ _ Hr).
  - intros Hc. assert (Ho : o ∈ offsets t) by (rewrite <- rp_in by done; set_solver +Hc). split; [by apply (rep_used _ _ _ _ _ Hr)|].
    split; [done|]. apply elem_offsets in Ho as (j&?&->). nia.
Qed.

Lemma rep_used_entries t chs F m : Rep t chs [] F [] m → entries t (used t 1) ≡ₚ map_to_list m.
Proof using ns_pos ns_aligned ns_small.
  intros Hr. rewrite (rep_used_perm _ _ _ _ Hr), <- (rp_items _ _ _ _ _ _ Hr). by rewrite app_nil_r.
Qed.

Lemma rep_used_items t chs F m o : Rep t chs [] F [] m → o ∈ used t 1 → is_Some (items t !! o).
Proof using ns_pos ns_aligned ns_small.
  intros Hr. rewrite (rep_used_perm _ _ _ _ Hr). intros Ho.
  destruct (rep_item _ _ _ _ _ _ o Hr) as (x&?&_); [set_solver +Ho|by exists x].
Qed.

Lemma used_incl t i o : 1 ≤ i → o ∈ used t i → o ∈ used t 1.
Proof using ns_pos ns_aligned ns_small. intros Hi. rewrite !elem_used by lia. intros (?&?&?). repeat split; try done. nia. Qed.

Lemma used_length t i : 0 ≤ _num_nodes t → 1 ≤ i → (length (used t i) ≤ Z.to_nat (_num_nodes t))%nat.
Proof.
  intros Hn Hi. unfold used. etrans; [apply length_filter|]. unfold from_node. rewrite length_fmap, length_seqZ. lia.
Qed.

Lemma serialize_loop_ok t : 0 ≤ _num_nodes t → (∀ o, o ∈ used t 1 → is_Some (items t !! o)) → ∀ fuel i, 1 ≤ i ≤ _num_nodes t + 1 →
  (Z.to_nat (_num_nodes t + 1 - i) ≤ fuel)%nat → serialize_loop ns fuel t (pos (_num_nodes t) i) = Ok (entries t (used t i)).
Proof using ns_pos ns_aligned ns_small.
  intros Hn Hit. induction fuel as [|fuel IH]; intros i Hi Hf.
  - assert (i = _num_nodes t + 1) as -> by lia. by rewrite pos_end, used_end.
  - destruct (decide (i = _num_nodes t + 1)) as [->|Hne]; [by rewrite pos_end, used_end|].
    destruct (pos_in (_num_nodes t) i) as [-> Hz]; [lia|]. cbn [serialize_loop]. rewrite (proj2 (Z.eqb_neq _ _) Hz).
    rewrite get_node_ok by (done || apply node_in; lia). step_ok.
    rewrite used_cons by lia. rewrite probe_pos by lia. destruct (is_empty (node_at t (i * ns))) eqn:He; [apply IH; lia|].
    destruct (Hit (i * ns)) as [x Hx]. { apply elem_used; [done|]. split; [done|]. split; [apply elem_offsets; exists i; split; [lia|done]|nia]. }
    unfold get_item. rewrite Hx. step_ok. rewrite IH by lia. step_ok. by rewrite (entries_cons _ _ _ _ Hx).
Qed.

Lemma next_loop_ok t : 0 ≤ _num_nodes t → ∀ fuel i, 1 ≤ i ≤ _num_nodes t + 1 →
  (Z.to_nat (_num_nodes t + 1 - i) ≤ fuel)%nat → next_loop ns fuel t (pos (_num_nodes t) i) = Ok (List.hd 0 (used t i)).
Proof using ns_pos ns_aligned ns_small.
  intros Hn. induction fuel as [|fuel IH]; intros i Hi Hf.
  - assert (i = _num_nodes t + 1) as -> by lia. by rewrite pos_end, used_end.
  - destruct (decide (i = _num_nodes t + 1)) as [->|Hne]; [by rewrite pos_end, used_end|].
    destruct (pos_in (_num_nodes t) i) as [-> Hz]; [lia|]. cbn [next_loop]. rewrite (proj2 (Z.eqb_neq _ _) Hz).
    rewrite get_node_ok by (done || apply node_in; lia). step_ok.
    rewrite used_cons by lia. rewrite probe_pos by lia. destruct (is_empty (node_at t (i * ns))) eqn:He; [apply IH; lia|done].
Qed.

Lemma get_next_offset_ok t j : 0 ≤ j ≤ _num_nodes t → get_next_offset ns t (j * ns) = Ok (List.hd 0 (used t (j + 1))).
Proof using ns_pos ns_aligned ns_small.
  intros Hj. unfold get_next_offset. rewrite probe_pos by done. apply next_loop_ok; unfold enough; lia.
Qed.

Lemma begin_ok t : 0 ≤ _num_nodes t → begin ns t = Ok (List.hd 0 (used t 1)).
Proof using ns_pos ns_aligned ns_small. intros Hn. unfold begin. rewrite <- (Z.mul_0_l ns). by apply (get_next_offset_ok t 0). Qed.

Lemma next_it_ok t j : 1 ≤ j ≤ _num_nodes t → next_it ns t (j * ns) = Ok (List.hd 0 (used t (j + 1))).
Proof using ns_pos ns_aligned ns_small.
  intros Hj. unfold next_it. rewrite (proj2 (Z.eqb_neq _ _)) by nia. step_ok. apply get_next_offset_ok. lia.
Qed.

Lemma used_same t t' i : (∀ o, nx t' o = nx t o) → _num_nodes t' = _num_nodes t → used t' i = used t i.
Proof. intros Hn Hnum. unfold used. rewrite Hnum. apply list_filter_iff. intros o. unfold is_empty. by rewrite Hn. Qed.

(** A loop over the items whose body leaves the nodes alone. *)
Lemma for_loop_ok {A} (body : table → Z → A → result (table * A)) (I : list Z → table → A → Prop) :
  (∀ o l t a, I (o :: l) t a → ∃ t' a', body t o a = Ok (t', a') ∧ (∀ o, nx t' o = nx t o) ∧ Same t t' ∧ I l t' a') →
  ∀ l fuel t i a, 1 ≤ i ≤ _num_nodes t + 1 → used t i = l → I l t a → (length l ≤ fuel)%nat →
  ∃ t' a', for_loop ns fuel body t (List.hd 0 l) a = Ok (t', a') ∧ (∀ o, nx t' o = nx t o) ∧ Same t t' ∧ I [] t' a'.
Proof using ns_pos ns_aligned ns_small.
  intros Hbody. induction l as [|o l IH]; intros fuel t i a Hi Hu HI Hf.
  - exists t, a. cbn [List.hd]. by destruct fuel.
  - destruct fuel as [|fuel]; [cbn in Hf; lia|]. cbn [List.hd for_loop].
    destruct (used_tail t o l _ i Hi eq_refl Hu) as (j&Hj&->&Hl). rewrite (proj2 (Z.eqb_neq _ _)) by nia.
    destruct (Hbody _ _ _ _ HI) as (t1&a1&->&Hno&Hs&HI1). step_ok.
    assert (Hn1 : _num_nodes t1 = _num_nodes t) by (apply Hs).
    rewrite next_it_ok by lia. step_ok. rewrite (used_same t t1), <- Hl by done.
    destruct (IH fuel t1 (j + 1) a1) as (t2&a2&He&Hno2&Hs2&HI2); [lia|by rewrite (used_same t t1)|done|cbn in Hf; lia|].
    exists t2, a2. split; [done|]. split; [intros o; by rewrite Hno2|]. split; [by eapply same_trans|done].
Qed.

Lemma pool_elements_ok t m : Good t m → ∃ es, elements ns t = Ok es ∧ es ≡ₚ map_to_list m.
Proof using ns_pos ns_aligned ns_small.
  intros [(chs&F&Hr) _ _]. pose proof (rp_nonneg _ _ _ _ _ _ Hr) as Hn. pose proof (rep_used_entries _ _ _ _ Hr) as He.
  unfold elements, for_each. rewrite begin_ok by done. step_ok.
  destruct (for_loop_ok (λ t it es, x ← get_item t it; Ok (t, es ++ [x]))
    (λ os t' es, t' = t ∧ (∀ o, o ∈ os → is_Some (items t !! o)) ∧ es ++ entries t os = entries t (used t 1))) with
    (l := used t 1) (fuel := enough t) (t := t) (i := 1) (a := @nil (K * V)) as (t'&l&->&_&_&->&_&Hl).
  - intros o os t' l (->&Hit&Hl). destruct (Hit o) as [x Hx]; [left|]. unfold get_item. rewrite Hx. step_ok.
    exists t, (l ++ [x]). split; [done|]. split; [done|]. split; [done|]. split; [done|]. split; [intros o' Ho'; apply Hit; by right|].
    rewrite <- Hl, (entries_cons _ _ _ _ Hx), <- app_assoc. done.
  - lia.
  - done.
  - split; [done|]. split; [|done]. intros o. by eapply rep_used_items.
  - unfold enough. pose proof (used_length t 1 Hn). lia.
  - step_ok. exists l. split; [done|]. cbn in Hl. rewrite app_nil_r in Hl. by rewrite Hl.
Qed.

(** No item is left; nor are there any in nodes behind the end. *)
Lemma pool_clear_ok t m : Good t m → ∃ t', clear ns t = Ok t' ∧ Good t' ∅ ∧ Same t t'.
Proof using ns_pos ns_aligned ns_small.
  intros [(chs&F&Hr) _ Hmax]. pose proof (rp_nonneg _ _ _ _ _ _ Hr) as Hn.
  unfold clear, for_each. rewrite begin_ok by done. step_ok.
  destruct (for_loop_ok (λ t it (_ : ()), t ← destruct_item t it; Ok (t, ()))
    (λ os t' _, NoDup os ∧ ∀ o, o ∈ os → is_Some (items t' !! o))) with
    (l := used t 1) (fuel := enough t) (t := t) (i := 1) (a := ()) as (t1&[]&->&Hno&Hs&_).
  - intros o os t' [] [Hnd Hit]. destruct (Hit o) as [x Hx]; [left|]. unfold destruct_item, get_item. rewrite Hx. step_ok.
    eexists _, tt. split; [done|]. split; [done|]. split; [done|]. apply NoDup_cons in Hnd as [Hno Hnd]. split; [done|].
    intros o' Ho'. cbn. rewrite lookup_delete_ne by (by intros ->). apply Hit. by right.
  - lia.
  - done.
  - split; [apply used_NoDup|]. intros o. by eapply rep_used_items.
  - unfold enough. pose proof (used_length t 1 Hn). lia.
  - step_ok. destruct (initialize_nodes_ok t1) as (t2&F2&->&Hs2&Hc2&Hr2).
    + rewrite (same_num _ _ Hs). apply Hr.
    + rewrite (same_num _ _ Hs), (same_mask _ _ Hs). apply Hr.
    + rewrite (same_offsets _ _ Hs). intros o Ho. rewrite Hno. by apply (rp_beyond _ _ _ _ _ _ Hr).
    + exists t2. split; [done|]. split; [|by eapply same_trans]. split; [eauto|by rewrite Hc2, map_size_empty|].
      rewrite (same_max _ _ Hs2), (same_num _ _ Hs2), (same_max _ _ Hs), (same_num _ _ Hs). done.
Qed.

(** ** Rebuilding *)
Lemma good_size t m : Good t m → Z.of_nat (base.size m) ≤ _num_nodes t.
Proof using ns_pos ns_aligned ns_small.
  intros [(chs&F&Hr) _ _]. pose proof (rep_free_length _ _ _ _ _ _ Hr) as Hl. cbn in Hl. lia.
Qed.

Lemma good_num t m : Good t m → 1 ≤ _num_nodes t.
Proof. intros [(chs&F&Hr) _ _]. apply Hr. Qed.

(** A place for an item whose key is not there, where a node is free. *)
Lemma good_allocate t m k v : Good t m → Z.of_nat (base.size m) < _num_nodes t → m !! k = None →
  ∃ t1 o t', inner_allocate_not_exist_no_rehash hash_function ns trivial overlay t k = Ok (t1, o) ∧
    put_item ns overlay t1 o (k, v) = Ok t' ∧ Same t t' ∧ o ∈ used t' 1 ∧ items t' !! o = Some (k, v) ∧ Good t' (<[k := v]> m).
Proof using ns_pos ns_aligned ns_small.
  intros [(chs&F&Hr) Hc Hmax] Hlt Hk. destruct (rep_allocate t chs F m k Hr Hlt Hk) as (t1&o&He&Hs&Hc1&Ho&Hput).
  destruct (put_item_placed overlay [] t1 o (k, v)) as (t'&Hp&Hpl);
    [rewrite (same_num _ _ Hs); by eapply rp_nonneg|by rewrite (same_offsets _ _ Hs)|].
  destruct (Hput v t' Hpl) as (chs'&F'&Hoc&Hr'). destruct Hpl as [Hs' Hc' _ Hi' _ _].
  assert (Hst : Same t t') by (by eapply same_trans). exists t1, o, t'. split; [done|]. split; [done|]. split; [done|].
  split; [by rewrite (rep_used_perm _ _ _ _ Hr')|]. split; [done|]. split; [eauto|..].
  - rewrite map_size_insert_None by done. lia.
  - by rewrite (same_max _ _ Hst), (same_num _ _ Hst).
Qed.

Lemma perm_not_in (m m' : gmap K V) x es : (x :: es) ++ map_to_list m ≡ₚ map_to_list m' → m !! x.1 = None.
Proof.
  intros Hp. destruct (m !! x.1) as [v|] eqn:Hk; [|done]. exfalso. pose proof (NoDup_fst_map_to_list m') as Hnd.
  rewrite <- Hp in Hnd. cbn in Hnd. apply NoDup_cons in Hnd as [Hnd _]. apply Hnd. rewrite fmap_app. apply elem_of_app. right.
  apply list_elem_of_fmap. exists (x.1, v). split; [done|]. by apply elem_of_map_to_list.
Qed.

Lemma perm_size (m m' : gmap K V) es : es ++ map_to_list m ≡ₚ map_to_list m' → base.size m' = (length es + base.size m)%nat.
Proof. intros Hp. rewrite <- !length_map_to_list, <- Hp. by rewrite length_app. Qed.

Lemma perm_step (m m' : gmap K V) x es : (x :: es) ++ map_to_list m ≡ₚ map_to_list m' →
  es ++ map_to_list (<[x.1 := x.2]> m) ≡ₚ map_to_list m'.
Proof.
  intros Hp. rewrite map_to_list_insert by (by eapply perm_not_in). rewrite <- Hp. destruct x. cbn. by rewrite <- Permutation_middle.
Qed.

Lemma deserialize_loop_ok m' : ∀ es t m, Good t m → es ++ map_to_list m ≡ₚ map_to_list m' → Z.of_nat (base.size m') ≤ _num_nodes t →
  ∃ t', deserialize_loop hash_function ns trivial overlay (length es) t es = Ok t' ∧ Good t' m' ∧ Same t t'.
Proof using ns_pos ns_aligned ns_small.
  induction es as [|x es IH]; intros t m Hg Hp Hle.
  - exists t. split; [done|]. cbn in Hp. by apply map_to_list_inj in Hp as ->.
  - cbn [deserialize_loop length]. pose proof (perm_size _ _ _ Hp) as Hsz. cbn in Hsz.
    destruct (good_allocate t m x.1 x.2 Hg) as (t1&o&t2&->&Hput&Hs&_&_&Hg1); [lia|by eapply perm_not_in|]. step_ok.
    rewrite <- surjective_pairing in Hput. rewrite Hput. step_ok.
    destruct (IH _ _ Hg1 (perm_step _ _ _ _ Hp)) as (t3&->&Hg3&Hs3); [by rewrite (same_num _ _ Hs)|].
    exists t3. split; [done|]. split; [done|]. by eapply same_trans.
Qed.

(** Through a queue, to any number of nodes that is enough. *)
Lemma inner_serialize_rehash_ok t m n : Good t m → 1 ≤ n → Z.of_nat (base.size m) ≤ n →
  ∃ t', inner_serialize_rehash hash_function ns trivial overlay keep t n = Ok t' ∧ Good t' m ∧ _num_nodes t' = n.
Proof using ns_pos ns_aligned ns_small.
  intros Hg Hn Hle. pose proof Hg as [(chs&F&Hr) _ _]. pose proof (rp_num _ _ _ _ _ _ Hr) as Hnum.
  unfold inner_serialize_rehash. rewrite probe_first by done.
  rewrite serialize_loop_ok by (lia || (intros o; by eapply rep_used_items) || (unfold enough; lia)). step_ok.
  destruct (pool_clear_ok t m Hg) as (t1&->&[(chs1&F1&Hr1) _ _]&Hs1). step_ok.
  destruct (set_space_ok t1 n Hn) as (t2&->&Hn2&Hm2&_&_&_&Hz2). step_ok.
  assert (chs1 = []) as ->.
  { pose proof (rep_size _ _ _ _ _ _ Hr1) as Hl. rewrite map_size_empty, app_nil_r in Hl. apply nil_length_inv in Hl.
    pose proof (rp_chains _ _ _ _ _ _ Hr1) as Hch. destruct chs1 as [|c chs1]; [done|]. apply Forall_cons in Hch as [Hc _].
    by destruct c. }
  destruct (initialize_nodes_ok (max_load_factor t2)) as (t3&F3&->&Hs3&Hc3&Hr3).
  - cbn. lia.
  - cbn. by rewrite Hn2.
  - intros o Ho. change (tag (nx t2 o) = EMPTY). destruct (Hz2 o) as [-> | ->]; [|done].
    destruct (decide (o ∈ offsets t1)) as [Hin|Hnin].
    + eapply rep_tag_free; [exact Hr1|]. by rewrite <- (rp_in _ _ _ _ _ _ _ Hr1), app_nil_l, app_nil_l, app_nil_r in Hin.
    + apply (rp_beyond _ _ _ _ _ _ Hr1). intros [->|?]%elem_of_cons; [apply Ho; left|done].
  - step_ok. assert (Hn3 : _num_nodes t3 = n) by (by rewrite (same_num _ _ Hs3)).
    assert (Hg3 : Good t3 ∅).
    { split; [eauto|by rewrite Hc3, map_size_empty|]. rewrite (same_max _ _ Hs3), Hn3. cbn. lia. }
    replace (Z.to_nat (_num_items t)) with (length (entries t (used t 1)))
      by (rewrite (rep_used_entries _ _ _ _ Hr), length_map_to_list, (gd_count _ _ Hg); lia).
    destruct (deserialize_loop_ok m (entries t (used t 1)) t3 ∅ Hg3) as (t4&->&Hg4&Hs4).
    + rewrite map_to_list_empty, app_nil_r. by eapply rep_used_entries.
    + lia.
    + exists t4. split; [done|]. split; [done|]. by rewrite (same_num _ _ Hs4).
Qed.

Lemma rehash_ok t m n : Good t m → ∃ t', rehash hash_function ns trivial overlay keep t n = Ok t' ∧ Good t' m ∧ n ≤ _num_nodes t'.
Proof using ns_pos ns_aligned ns_small.
  intros Hg. pose proof (gd_count _ _ Hg) as Hc. pose proof (good_num _ _ Hg). unfold rehash. set (b := Z.max _ _).
  destruct (Z.eqb_spec b (_num_nodes t)) as [E|Hne]; [exists t; split; [done|]; split; [done|lia]|].
  destruct ((_num_nodes t <? b) && trivial) eqn:Hb.
  - apply andb_true_iff in Hb as [Hlt%Z.ltb_lt _]. destruct (inner_remap_rehash_ok t m b Hg Hlt) as (t'&->&Hg'&Hn').
    exists t'. split; [done|]. split; [done|lia].
  - destruct (inner_serialize_rehash_ok t m b Hg) as (t'&->&Hg'&Hn'); [lia..|]. exists t'. split; [done|]. split; [done|lia].
Qed.

Lemma reserve_ok t m n : Good t m → ∃ t', reserve hash_function ns trivial overlay keep t n = Ok t' ∧ Good t' m ∧ n ≤ _num_nodes t'.
Proof using ns_pos ns_aligned ns_small.
  intros Hg. pose proof (gd_max _ _ Hg) as Hmax. unfold reserve. destruct ((_max_num_items t <? n) && (_num_nodes t <? n)) eqn:Hb.
  - destruct (rehash_ok t m (Z.max n (expand_space t)) Hg) as (t'&->&Hg'&Hn'). exists t'. split; [done|]. split; [done|lia].
  - exists t. split; [done|]. split; [done|]. apply andb_false_iff in Hb as [Hb|Hb]; apply Z.ltb_ge in Hb; lia.
Qed.

(** ** Constructors *)
Lemma fresh_space_ok mask n c x : 1 ≤ n → ∃ t1 t2, set_space ns keep (Table mask 0 ∅ ∅ c x) n = Ok t1 ∧ initialize_nodes ns t1 = Ok t2 ∧
  _num_nodes t2 = n ∧ _num_items t2 = 0 ∧ _max_num_items t2 = x ∧ ∃ F, Rep t2 [] [] F [] ∅.
Proof using ns_pos ns_aligned ns_small.
  intros Hn. destruct (set_space_ok (Table mask 0 ∅ ∅ c x) n Hn) as (t1&->&Hn1&Hm1&_&Hx1&_&Hz1).
  destruct (initialize_nodes_ok t1) as (t2&F&He&Hs&Hc&Hr); [lia|by rewrite Hn1| |].
  - intros o _. by destruct (Hz1 o) as [-> | ->].
  - exists t1, t2. split; [done|]. split; [done|]. split; [by rewrite (same_num _ _ Hs)|]. split; [done|].
    split; [by rewrite (same_max _ _ Hs), Hx1|eauto].
Qed.

Lemma PoolHashTable_ok : ∃ t, PoolHashTable ns keep = Ok t ∧ Good t ∅.
Proof using ns_pos ns_aligned ns_small.
  destruct (fresh_space_ok 0 1 0 0) as (t1&t2&He1&He2&Hn&Hc&Hx&F&Hr); [done|]. unfold PoolHashTable.PoolHashTable. rewrite He1. step_ok.
  exists t2. split; [done|]. split; [eauto|by rewrite Hc, map_size_empty|lia].
Qed.

Lemma moved_from_ok t : ∃ t', moved_from ns keep t = Ok t' ∧ Good t' ∅.
Proof using ns_pos ns_aligned ns_small.
  destruct (fresh_space_ok (_mask t) 1 (_num_items t) (_max_num_items t)) as (t1&t2&He1&He2&Hn&Hc&Hx&F&Hr); [done|].
  unfold moved_from. rewrite He1. step_ok. rewrite He2. step_ok. eexists. split; [done|]. split; [|done|cbn; lia].
  exists [], F. by destruct Hr.
Qed.

(** ** Operations *)
Lemma inner_find_ok t m key : Good t m → ∃ o, inner_find hash_function ns t key = Ok o ∧
  match m !! key with Some v => o ∈ used t 1 ∧ items t !! o = Some (key, v) | None => o = 0 end.
Proof using ns_pos ns_aligned ns_small.
  intros [(chs&F&Hr) _ _]. destruct (rep_find t chs F m key Hr) as (o&He&Ho). exists o. split; [done|].
  destruct Ho as [[-> ->]|(Ho&v&Hv&->)]; [done|]. by rewrite (rep_used_perm _ _ _ _ Hr).
Qed.

Lemma used_pos t o : o ∈ used t 1 → (o =? 0) = false.
Proof using ns_pos ns_aligned ns_small. intros (_&Ho&_)%elem_used; [|done]. apply offsets_pos in Ho. lia. Qed.

Lemma count_ok t m key : Good t m → count hash_function ns t key = Ok (if decide (is_Some (m !! key)) then 1 else 0).
Proof using ns_pos ns_aligned ns_small.
  intros Hg. destruct (inner_find_ok t m key Hg) as (o&He&Ho). unfold count. rewrite He. step_ok.
  destruct (m !! key) as [v|]; [destruct Ho as [Ho _]; by rewrite (used_pos _ _ Ho), decide_True by done|].
  subst o. by rewrite decide_False by (intros [? [=]]).
Qed.

Lemma at_ok t m key : Good t m → at_ hash_function ns t key = match m !! key with Some v => Ok v | None => Abort end.
Proof using ns_pos ns_aligned ns_small.
  intros Hg. destruct (inner_find_ok t m key Hg) as (o&He&Ho). unfold at_. rewrite He. step_ok.
  destruct (m !! key) as [v|]; [|by subst o]. destruct Ho as [Ho Hv]. rewrite (used_pos _ _ Ho). step_ok.
  unfold get_item. by rewrite Hv.
Qed.

Lemma emplace_not_exist_ok t m k v : Good t m → m !! k = None →
  ∃ t' o, inner_emplace_not_exist hash_function ns trivial overlay keep t (k, v) = Ok (t', o) ∧ Good t' (<[k := v]> m) ∧
    o ∈ used t' 1 ∧ items t' !! o = Some (k, v).
Proof using ns_pos ns_aligned ns_small.
  intros Hg Hk. unfold inner_emplace_not_exist. destruct (reserve_ok t m (_num_items t + 1) Hg) as (t1&->&Hg1&Hn1). step_ok. cbn [fst].
  rewrite (gd_count _ _ Hg) in Hn1. destruct (good_allocate t1 m k v Hg1) as (t2&o&t3&->&Hput&_&Ho&Hi&Hg2); [lia|done|]. step_ok.
  rewrite Hput. step_ok. exists t3, o. done.
Qed.

(** [emplace], [try_emplace] and [operator []] leave an item that is there alone. *)
Lemma emplace_ok t m k v : Good t m → ∃ t' o b, emplace hash_function ns trivial overlay keep t (k, v) = Ok (t', o, b) ∧
  match m !! k with
  | Some w => t' = t ∧ b = false ∧ items t !! o = Some (k, w)
  | None => Good t' (<[k := v]> m) ∧ b = true ∧ items t' !! o = Some (k, v)
  end.
Proof using ns_pos ns_aligned ns_small.
  intros Hg. destruct (inner_find_ok t m k Hg) as (o&He&Ho). unfold emplace. cbn [fst]. rewrite He. step_ok. destruct (m !! k) as [w|] eqn:Hk.
  - destruct Ho as [Ho Hw]. rewrite (used_pos _ _ Ho). cbn [negb]. exists t, o, false. done.
  - subst o. cbn [Z.eqb negb]. destruct (emplace_not_exist_ok t m k v Hg Hk) as (t'&o&->&Hg'&_&Hv). step_ok. exists t', o, true. done.
Qed.

Lemma try_emplace_ok t m k v : Good t m → ∃ t' o b, try_emplace hash_function ns trivial overlay keep t k v = Ok (t', o, b) ∧
  match m !! k with
  | Some w => t' = t ∧ b = false ∧ items t !! o = Some (k, w)
  | None => Good t' (<[k := v]> m) ∧ b = true ∧ items t' !! o = Some (k, v)
  end.
Proof using ns_pos ns_aligned ns_small. apply emplace_ok. Qed.

Lemma operator_index_ok init t m k : Good t m → ∃ t' o, operator_index hash_function ns trivial overlay keep init t k = Ok (t', o) ∧
  ∃ v, Good t' (<[k := v]> m) ∧ v = default init (m !! k) ∧ o ∈ used t' 1 ∧ items t' !! o = Some (k, v).
Proof using ns_pos ns_aligned ns_small.
  intros Hg. destruct (inner_find_ok t m k Hg) as (o&He&Ho). unfold operator_index. rewrite He. step_ok. destruct (m !! k) as [w|] eqn:Hk.
  - destruct Ho as [Ho Hw]. rewrite (used_pos _ _ Ho). cbn [negb]. exists t, o. split; [done|]. exists w.
    rewrite insert_id by done. done.
  - subst o. cbn [Z.eqb negb]. destruct (emplace_not_exist_ok t m k init Hg Hk) as (t'&o&->&Hg'&Ho&Hv). exists t', o. split; [done|]. by exists init.
Qed.

Lemma pool_insert_all_ok m' : ∀ es t m, Good t m → es ++ map_to_list m ≡ₚ map_to_list m' →
  ∃ t', insert_all hash_function ns trivial overlay keep t es = Ok t' ∧ Good t' m'.
Proof using ns_pos ns_aligned ns_small.
  induction es as [|x es IH]; intros t m Hg Hp.
  - exists t. split; [done|]. cbn in Hp. by apply map_to_list_inj in Hp as ->.
  - cbn [insert_all]. destruct (emplace_ok t m x.1 x.2 Hg) as (t1&o&b&He&Hc). rewrite <- surjective_pairing in He. rewrite He. step_ok.
    rewrite (perm_not_in _ _ _ _ Hp) in Hc. destruct Hc as (Hg1&_&_). apply (IH t1 _ Hg1). by apply perm_step.
Qed.

Lemma copy_construct_ok t m : Good t m → ∃ t', copy_construct hash_function ns trivial overlay keep t = Ok t' ∧ Good t' m.
Proof using ns_pos ns_aligned ns_small.
  intros Hg. unfold copy_construct. destruct (fresh_space_ok 0 (_num_nodes t) 0 (_max_num_items t)) as (t1&t2&->&He2&Hn&Hc&Hx&F&Hr); [by eapply good_num|].
  step_ok. rewrite He2. step_ok. assert (Hg2 : Good t2 ∅).
  { split; [eauto|by rewrite Hc, map_size_empty|]. rewrite Hx, Hn. by eapply gd_max. }
  destruct (reserve_ok t2 ∅ (_num_items t) Hg2) as (t3&->&Hg3&_). step_ok. destruct (pool_elements_ok t m Hg) as (es&->&Hes). step_ok.
  apply (pool_insert_all_ok m es t3 ∅ Hg3). by rewrite map_to_list_empty, app_nil_r.
Qed.

(** ** Changes within a chain *)
Lemma chain_change t t' h l l' : Chain t h l → _mask t' = _mask t → (∀ o, o ∈ l' → o ∈ l) →
  (∀ o, tag (nx t' o) = tag (nx t o)) → linked (λ o, nx t' o) (h :: l') 0 →
  (∀ o, o ∈ h :: l' → ∃ o' x y, o' ∈ h :: l ∧ items t !! o' = Some x ∧ items t' !! o = Some y ∧ y.1 = x.1) → Chain t' h l'.
Proof.
  intros [H1 H2 H3 H4] Hm Hl Ht Hlink Hi. rewrite Forall_forall in H2, H4. split; [by rewrite Ht|..|done|].
  - apply Forall_forall. intros o Ho. rewrite Ht. auto.
  - apply Forall_forall. intros o Ho. destruct (Hi o Ho) as (o'&x&y&Ho'&Hx&Hy&Hxy). exists y. split; [done|].
    destruct (H4 o' Ho') as (x'&Hx'&Hh). assert (x' = x) as -> by congruence.
    unfold get_hash_head, find_offset in *. by rewrite Hm, Hxy.
Qed.

Lemma rep_chain_items t h l chs R F H m o : Rep t ((h :: l) :: chs) R F H m → o ∈ h :: l → ∃ x, items t !! o = Some x.
Proof.
  intros Hr Ho. pose proof (rep_chain _ _ _ _ _ _ _ Hr) as [_ _ _ H4]. rewrite Forall_forall in H4. destruct (H4 o Ho) as (x&?&_). eauto.
Qed.

(** Other items in the nodes of a chain. *)
Lemma rep_reitem t t' h l chs R F H m m' : Rep t ((h :: l) :: chs) R F H m → Same t t' → (∀ o, nx t' o = nx t o) →
  (∀ o, o ∉ h :: l → node_at t' o = node_at t o ∧ items t' !! o = items t !! o) →
  (∀ o, o ∈ h :: l → ∃ o' x y, o' ∈ h :: l ∧ items t !! o' = Some x ∧ items t' !! o = Some y ∧ y.1 = x.1) →
  (∀ es, entries t (h :: l) ++ es ≡ₚ map_to_list m → entries t' (h :: l) ++ es ≡ₚ map_to_list m') →
  Rep t' ((h :: l) :: chs) R F H m'.
Proof using ns_pos ns_aligned ns_small.
  intros Hr Hs Hat Hout Hin He.
  pose proof (rep_chain _ _ _ _ _ _ _ Hr) as Hch. apply (rep_rechain t t' [h :: l] [h :: l] chs R F H H m m'); try done.
  - apply Forall_singleton. apply (chain_change t t' h l l); [done|apply Hs|done|intros o; by rewrite Hat| |done].
    eapply linked_frame; [apply Hch|]. intros o _. cbn. by rewrite Hat.
  - cbn. rewrite app_nil_r. intros o Ho. apply Hout. set_solver +Ho.
  - cbn. by rewrite app_nil_r.
Qed.

(** The item of the next node takes the place of an item. *)
Lemma rep_erase_next t c1 o n c2 chs F m x : Rep t ((c1 ++ o :: n :: c2) :: chs) [] F [] m → items t !! o = Some x →
  ∃ t1 t2 t3, destruct_item t o = Ok t1 ∧ move_from ns trivial overlay t1 o n = Ok t2 ∧ get_node ns t2 n = Ok (node_at t2 n) ∧
    set_next ns t2 o (get_next (node_at t2 n)) = Ok t3 ∧ Same t t3 ∧ _num_items t3 = _num_items t ∧
    items t3 !! o = items t !! n ∧ (∀ p, p ≠ o → p ≠ n → items t3 !! p = items t !! p) ∧
    Rep t3 ((c1 ++ o :: c2) :: chs) [] F [n] (delete x.1 m).
Proof using ns_pos ns_aligned ns_small.
  intros Hr Hx. pose proof (rp_nonneg _ _ _ _ _ _ Hr) as Hn. pose proof (rep_chain _ _ _ _ _ _ _ Hr) as Hch.
  assert (Hoff : ∀ p, p ∈ c1 ++ o :: n :: c2 → p ∈ offsets t) by (intros p Hp; eapply rep_chain_in; [exact Hr|set_solver +Hp]).
  pose proof (rep_chain_nodup _ _ _ _ _ _ _ Hr) as Hnd. rewrite app_nil_r in Hnd.
  assert (Hne : o ≠ n ∧ o ∉ c1 ∧ n ∉ c1 ∧ o ∉ c2 ∧ n ∉ c2 ∧ NoDup (c1 ++ o :: c2)).
  { apply NoDup_app in Hnd as (Hn1&Hd&[Ho [Hnn Hn2]%NoDup_cons]%NoDup_cons). split; [set_solver +Ho|]. split; [intros Hc; apply (Hd o Hc); left|].
    split; [intros Hc; apply (Hd n Hc); right; left|]. split; [set_solver +Ho|]. split; [done|]. apply NoDup_app. split; [done|].
    split; [intros p Hp Hp'; apply (Hd p Hp); set_solver +Hp'|]. apply NoDup_cons. split; [set_solver +Ho|done]. }
  destruct Hne as (Hon&Ho1&Hn1&Ho2&Hn2&Hnd').
  assert (Hy : ∃ y, items t !! n = Some y).
  { destruct (rep_item _ _ _ _ _ _ n Hr) as (y&?&_); [cbn; set_solver +|eauto]. }
  destruct Hy as [y Hy]. set (t1 := with_items t (delete o (items t))).
  destruct (moved_items t1 o n y) as (t2&He2&[Hs2 Hc2 Hnx2 Hi2 Hat2 Hoth2]);
    [done|apply Hoff; set_solver +|cbn; by rewrite lookup_delete_ne|done|].
  assert (Hs12 : Same t t2) by (by destruct Hs2). pose proof (same_offsets _ _ Hs12) as Hoff2.
  assert (Hlo : link (nx t o) = n ∧ link (nx t n) = List.hd 0 c2 ∧ linked (λ p, nx t p) c2 0).
  { apply chain_suffix in Hch as (?&?&?). done. } destruct Hlo as (Hlo&Hln&Hl2).
  set (z := List.hd 0 c2) in *.
  assert (Hz : z mod 4 = 0). { unfold z. apply (offsets_aligned t). destruct c2; cbn; [left|right; apply Hoff; set_solver +]. }
  set (t3 := upd t2 o (Z.lor (tag (nx t2 o)) z) (pv t2 o)).
  assert (Hs3 : Same t t3) by (by destruct Hs12). exists t1, t2, t3.
  split; [unfold destruct_item, get_item; by rewrite Hx|]. split; [done|].
  split; [rewrite get_node_ok; [done|by rewrite (same_num _ _ Hs12)|right; rewrite Hoff2; apply Hoff; set_solver +]|].
  split; [change (get_next (node_at t2 n)) with (link (nx t2 n)); rewrite Hnx2; change (nx t1 n) with (nx t n); rewrite Hln; apply link_next_ok; [by rewrite (same_num _ _ Hs12)|right; rewrite Hoff2; apply Hoff; set_solver +]|].
  split; [done|]. split; [done|]. assert (Hi3 : ∀ p, p ≠ o → p ≠ n → items t3 !! p = items t !! p).
  { intros p Hp Hpn. change (items t3) with (items t2). rewrite Hoth2 by set_solver +Hp Hpn. cbn. by rewrite lookup_delete_ne. }
  change (items t3) with (items t2) in *. split; [congruence|]. split; [done|].
  assert (Htag : ∀ p, tag (nx t3 p) = tag (nx t p)).
  { intros p. unfold t3. rewrite nx_upd. destruct (decide (p = o)) as [->|]; [|by rewrite Hnx2].
    rewrite tag_lor by (apply tag_range || done). by rewrite Hnx2. }
  assert (Hfr : ∀ p, p ≠ o → link (nx t3 p) = link (nx t p)) by (intros p Hp; unfold t3; by rewrite nx_upd, decide_False, Hnx2).
  assert (Hl3 : linked (λ p, nx t3 p) (o :: c2) 0).
  { split; [unfold t3; rewrite nx_upd, decide_True by done; apply link_lor; [apply tag_range|done]|].
    eapply linked_frame; [exact Hl2|]. intros p Hp. cbn. apply Hfr. by intros ->. }
  assert (Hi4 : ∀ p, p ∈ c1 ++ o :: c2 → ∃ o' x y, o' ∈ c1 ++ o :: n :: c2 ∧ items t !! o' = Some x ∧ items t3 !! p = Some y ∧ y.1 = x.1).
  { intros p Hp. destruct (decide (p = o)) as [->|Hpo]; [exists n, y, y; split; [set_solver +|done]|].
    assert (Hpn : p ≠ n) by (intros ->; set_solver +Hp Hon Hn1 Hn2). destruct (rep_item _ _ _ _ _ _ p Hr) as (w&Hw&_); [cbn; set_solver +Hp|].
    exists p, w, w. split; [set_solver +Hp|]. split; [done|]. split; [by rewrite Hi3|done]. }
  apply (rep_rechain t t3 [c1 ++ o :: n :: c2] [c1 ++ o :: c2] chs [] F [] [n] m (delete x.1 m) Hr Hs3).
  - cbn. rewrite !app_nil_r, <- app_assoc. cbn. solve_Permutation.
  - apply Forall_singleton. destruct c1 as [|g c1].
    + apply (chain_change t t3 o (n :: c2) c2 Hch); [apply Hs3|set_solver +|done|done|done].
    + apply (chain_change t t3 g (c1 ++ o :: n :: c2) (c1 ++ o :: c2) Hch); [apply Hs3|set_solver +|done| |done].
      apply (linked_app _ (g :: c1) (o :: c2)). split; [|done]. eapply linked_frame.
      * apply ch_linked in Hch. apply (linked_app _ (g :: c1) (o :: n :: c2)) in Hch as [Hch _]. exact Hch.
      * intros p Hp. cbn. apply Hfr. by intros ->.
  - intros p Hp. cbn in Hp. rewrite !app_nil_r in Hp. assert (p ≠ o ∧ p ≠ n) as [Hpo Hpn] by set_solver +Hp. split; [|by apply Hi3].
    unfold t3. rewrite node_at_upd, decide_False, Hat2 by set_solver +Hpo Hpn. done.
  - intros es Hes. apply (map_to_list_delete_perm m x.1 x.2). rewrite <- Hes. cbn [concat]. rewrite !app_nil_r, !entries_app.
    rewrite (entries_cons t o _ x Hx), (entries_cons t n _ y Hy), (entries_cons t3 o _ y) by done.
    rewrite (entries_frame t t3 c1), (entries_frame t t3 c2).
    + rewrite <- surjective_pairing. solve_Permutation.
    + intros p Hp. apply Hi3; by intros ->.
    + intros p Hp. apply Hi3; by intros ->.
Qed.

(** The last node of a chain, and the only one. *)
Lemma rep_erase_last t g c1 o chs F m x : Rep t ((g :: c1 ++ [o]) :: chs) [] F [] m → items t !! o = Some x →
  ∃ t1 t2, destruct_item t o = Ok t1 ∧ find_node_before ns (enough t1) t1 g o = Ok (List.last c1 g) ∧
    set_next ns t1 (List.last c1 g) 0 = Ok t2 ∧ Same t t2 ∧ _num_items t2 = _num_items t ∧
    (∀ p, p ≠ o → items t2 !! p = items t !! p) ∧ Rep t2 ((g :: c1) :: chs) [] F [o] (delete x.1 m).
Proof using ns_pos ns_aligned ns_small.
  intros Hr Hx. pose proof (rp_nonneg _ _ _ _ _ _ Hr) as Hn. pose proof (rep_chain _ _ _ _ _ _ _ Hr) as Hch.
  assert (Hoff : ∀ p, p ∈ g :: c1 ++ [o] → p ∈ offsets t) by (intros p Hp; eapply rep_chain_in; [exact Hr|set_solver +Hp]).
  pose proof (rep_chain_nodup _ _ _ _ _ _ _ Hr) as Hnd. rewrite app_nil_r in Hnd. rewrite app_comm_cons in Hnd.
  apply NoDup_app in Hnd as (Hnd&Hd&_). assert (Hog : o ∉ g :: c1) by (intros Hc; apply (Hd o Hc); left).
  pose proof (rep_length _ _ _ _ _ _ _ Hr) as Hlen. cbn in Hlen. rewrite length_app in Hlen.
  pose proof (last_in c1 g) as Hb. set (b := List.last c1 g) in *.
  pose proof (ch_linked _ _ _ Hch) as Hl. apply (linked_app _ (g :: c1) [o]) in Hl as [Hl _]. cbn [List.hd] in Hl.
  set (t1 := with_items t (delete o (items t))). assert (Hat1 : ∀ p, node_at t1 p = node_at t p) by done.
  set (t2 := upd t1 b (Z.lor (tag (nx t1 b)) 0) (pv t1 b)). exists t1, t2.
  split; [unfold destruct_item, get_item; by rewrite Hx|].
  split; [apply find_node_before_ok; [done|done|set_solver +Hog| |unfold enough; cbn in *; lia]|].
  { intros p Hp. apply Hoff. set_solver +Hp. }
  split; [apply link_next_ok; [done|right; apply Hoff; set_solver +Hb]|]. split; [done|]. split; [done|].
  assert (Hi2 : ∀ p, p ≠ o → items t2 !! p = items t !! p) by (intros p Hp; cbn; by rewrite lookup_delete_ne). split; [done|].
  assert (Htag : ∀ p, tag (nx t2 p) = tag (nx t p)).
  { intros p. unfold t2. rewrite nx_upd. destruct (decide (p = b)) as [->|]; [|done]. by rewrite tag_lor by (apply tag_range || done). }
  apply (rep_rechain t t2 [g :: c1 ++ [o]] [g :: c1] chs [] F [] [o] m (delete x.1 m) Hr); [done|..].
  - cbn. rewrite !app_nil_r. done.
  - apply Forall_singleton. apply (chain_change t t2 g (c1 ++ [o]) c1 Hch); [done|set_solver +|done|..].
    + apply (linked_relast (λ p, nx t p) _ _ _ o); [done|done| |].
      * intros p Hp Hpb. cbn. unfold t2. by rewrite nx_upd, decide_False.
      * fold b. unfold t2. rewrite nx_upd, decide_True by done. apply link_lor; [apply tag_range|done].
    + intros p Hp. assert (Hpo : p ≠ o) by (by intros ->). destruct (rep_chain_items _ _ _ _ _ _ _ _ p Hr) as [w Hw]; [set_solver +Hp|].
      exists p, w, w. split; [set_solver +Hp|]. split; [done|]. split; [by rewrite Hi2|done].
  - intros p Hp. cbn in Hp. rewrite !app_nil_r in Hp. split; [|apply Hi2; set_solver +Hp].
    unfold t2. rewrite node_at_upd, decide_False; [done|]. intros ->. set_solver +Hp Hb.
  - intros es Hes. apply (map_to_list_delete_perm m x.1 x.2). rewrite <- Hes. cbn [concat]. rewrite !app_nil_r, (app_comm_cons c1), entries_app.
    rewrite (entries_cons t o _ x Hx). rewrite (entries_frame t t2 (g :: c1)) by (intros p Hp; apply Hi2; by intros ->).
    destruct x. cbn. solve_Permutation.
Qed.

Lemma rep_erase_only t o chs F m x : Rep t ([o] :: chs) [] F [] m → items t !! o = Some x →
  ∃ t1, destruct_item t o = Ok t1 ∧ Same t t1 ∧ _num_items t1 = _num_items t ∧
    (∀ p, p ≠ o → items t1 !! p = items t !! p) ∧ Rep t1 chs [] F [o] (delete x.1 m).
Proof using ns_pos ns_aligned ns_small.
  intros Hr Hx. eexists. split; [unfold destruct_item, get_item; by rewrite Hx|]. split; [done|]. split; [done|].
  assert (Hi : ∀ p, p ≠ o → delete o (items t) !! p = items t !! p) by (intros p Hp; by rewrite lookup_delete_ne). split; [done|].
  apply (rep_rechain t _ [[o]] [] chs [] F [] [o] m (delete x.1 m) Hr); [done|done|done|..].
  - intros p Hp. split; [done|]. apply Hi. set_solver +Hp.
  - intros es Hes. apply (map_to_list_delete_perm m x.1 x.2). rewrite <- Hes. cbn [concat app]. rewrite (entries_cons t o [] x Hx).
    by destruct x.
Qed.

(** ** Erasing *)
Lemma rep_elem_used t chs F m i o : Rep t chs [] F [] m → 1 ≤ i → o ∈ used t i ↔ o ∈ concat chs ∧ i * ns ≤ o.
Proof using ns_pos ns_aligned ns_small.
  intros Hr Hi. rewrite elem_used by done. split.
  - intros (He&Ho&?). split; [|done]. by apply (rep_used _ _ _ _ _ Hr).
  - intros [Hc ?]. assert (Ho : o ∈ offsets t) by (rewrite <- rp_in by done; set_solver +Hc). split; [by apply (rep_used _ _ _ _ _ Hr)|done].
Qed.

Lemma filter_false_ext {A} (f g : A → bool) (l : list A) : (∀ x, x ∈ l → f x = g x) → filter (λ x, f x = false) l = filter (λ x, g x = false) l.
Proof. intros H. apply filter_ext_in. intros x Hx. by rewrite H. Qed.

(** The same nodes are in use. *)
Lemma used_ext t t' chs chs' F F' m m' i : Rep t chs [] F [] m → Rep t' chs' [] F' [] m' → Same t t' → 1 ≤ i →
  (∀ o, i * ns ≤ o → o ∈ concat chs' ↔ o ∈ concat chs) → used t' i = used t i.
Proof using ns_pos ns_aligned ns_small.
  intros Hr Hr' Hs Hi Hc. unfold used. rewrite (same_num _ _ Hs). apply filter_false_ext.
  intros o (j&->&Hj%elem_of_seqZ)%list_elem_of_fmap. assert (Ho : j * ns ∈ offsets t) by (apply elem_offsets; exists j; split; [lia|done]).
  pose proof (rep_used _ _ _ _ _ Hr Ho) as H1. rewrite <- (same_offsets _ _ Hs) in Ho. pose proof (rep_used _ _ _ _ _ Hr' Ho) as H2.
  rewrite Hc, <- H1 in H2 by nia. destruct (is_empty (node_at t (j * ns))), (is_empty (node_at t' (j * ns))); try done; exfalso.
  - discriminate (proj1 H2 eq_refl).
  - discriminate (proj2 H2 eq_refl).
Qed.

(** What is left to visit after [erase] of the item at the [i]-th node. *)
Definition erased (t : table) (m : gmap K V) (i : Z) (x : K * V) (t' : table) (it : Z) : Prop :=
  Good t' (delete x.1 m) ∧ Same t t' ∧ ∃ j, 1 ≤ j ≤ _num_nodes t + 1 ∧ it = List.hd 0 (used t' j) ∧
    entries t' (used t' j) ≡ₚ entries t (used t (i + 1)).

Lemma good_erased t t3 t' chs' F' m x : Good t m → m !! x.1 = Some x.2 → Same t t3 → _num_items t3 = _num_items t →
  Same t3 t' → _num_items t' = _num_items t3 - 1 → Rep t' chs' [] F' [] (delete x.1 m) → Good t' (delete x.1 m) ∧ Same t t'.
Proof.
  intros Hg Hm Hs Hc Hs' Hc' Hr. assert (Hst : Same t t') by (by eapply same_trans). split; [|done]. split; [eauto|..].
  - rewrite Hc', Hc, (gd_count _ _ Hg). rewrite map_size_delete_Some by done.
    pose proof (map_size_ne_0_lookup_2 m x.1 ltac:(by eexists)). lia.
  - rewrite (same_max _ _ Hst), (same_num _ _ Hst). by eapply gd_max.
Qed.

Lemma erase_next_ok t m i c1 n c2 chs F x : Good t m → Rep t ((c1 ++ i * ns :: n :: c2) :: chs) [] F [] m → 1 ≤ i ≤ _num_nodes t →
  items t !! (i * ns) = Some x → ∃ t' it, erase_it hash_function ns trivial overlay t (i * ns) = Ok (t', it) ∧ erased t m i x t' it.
Proof using ns_pos ns_aligned ns_small.
  clear keep. intros Hg Hr Hi Hx. set (o := i * ns) in *. pose proof (rp_nonneg _ _ _ _ _ _ Hr) as Hn.
  destruct (rep_item _ _ _ _ _ _ o Hr) as (x'&Hx'&Hmx); [cbn; set_solver +|]. assert (x' = x) as -> by congruence.
  assert (Hoff : ∀ p, p ∈ c1 ++ o :: n :: c2 → p ∈ offsets t) by (intros p Hp; eapply rep_chain_in; [exact Hr|set_solver +Hp]).
  assert (He : is_empty (node_at t o) = false) by (apply (rep_used _ _ _ _ _ Hr); [apply Hoff; set_solver +|cbn; set_solver +]).
  assert (Hlo : link (nx t o) = n) by (by pose proof (rep_chain _ _ _ _ _ _ _ Hr) as (?&?&?)%chain_suffix).
  assert (Hnz : (o =? 0) = false ∧ (n =? 0) = false).
  { pose proof (offsets_pos t n (Hoff n ltac:(set_solver +))). unfold o. split; nia. } destruct Hnz as [Hoz Hnz].
  unfold erase_it. rewrite get_node_ok by (done || right; apply Hoff; set_solver +). step_ok. rewrite Hoz, He. step_ok.
  change (get_next (node_at t o)) with (link (nx t o)). rewrite Hlo, Hnz. cbn [negb].
  pose proof (rep_chain_nodup _ _ _ _ _ _ _ Hr) as Hnd. rewrite app_nil_r in Hnd.
  assert (Hno : n ≠ o) by (apply NoDup_app in Hnd as (_&_&[Hno _]%NoDup_cons); set_solver +Hno).
  destruct (rep_erase_next t c1 o n c2 chs F m x Hr Hx) as (t1&t2&t3&->&He2&Hgn&Hsn&Hs3&Hc3&Hi3&Hoth3&Hr3).
  step_ok. rewrite He2. step_ok. rewrite Hgn. step_ok. rewrite Hsn. step_ok.
  destruct (rep_dealloc _ _ _ _ _ _ _ Hr3) as (t4&->&Hr4&Hs4&Hi4&Hc4&_). step_ok.
  destruct (good_erased t t3 t4 _ _ m x Hg Hmx Hs3 Hc3 Hs4 Hc4 Hr4) as [Hg4 Hst].
  assert (Hn4 : _num_nodes t4 = _num_nodes t) by apply Hst.
  assert (Hent : entries t4 (used t4 (i + 1)) = entries t (used t4 (i + 1))).
  { apply entries_frame. intros p (Hpc&Hple)%(rep_elem_used _ _ _ _ _ _ Hr4); [|lia].
    assert (Hpn : p ≠ n). { intros ->. pose proof (rp_nodup _ _ _ _ _ _ Hr3) as Hnd3. cbn [app] in Hnd3.
      apply NoDup_app in Hnd3 as (_&Hd&_). apply (Hd n Hpc). set_solver +. }
    rewrite Hi4, lookup_delete_ne by done. apply Hoth3; [unfold o; nia|done]. }
  assert (Hmem : ∀ p, (i + 1) * ns ≤ p → p ∈ used t (i + 1) ↔ p = n ∨ p ∈ used t4 (i + 1)).
  { intros p Hp. rewrite (rep_elem_used _ _ _ _ _ _ Hr4), (rep_elem_used _ _ _ _ _ _ Hr) by lia. cbn. rewrite !elem_of_app, !elem_of_cons.
    assert (p ≠ o) by (unfold o; nia). intuition. }
  destruct (Z.ltb_spec n o) as [Hlt|Hge].
  - unfold o at 1. rewrite next_it_ok by lia. step_ok. eexists t4, _. split; [done|]. split; [done|]. split; [done|].
    exists (i + 1). split; [lia|]. split; [done|]. rewrite Hent.
    rewrite (used_ext t t4 _ _ _ _ _ _ (i + 1) Hr Hr4 Hst); [done|lia|]. intros p Hp. cbn. rewrite !elem_of_app, !elem_of_cons.
    assert (p ≠ n) by (unfold o in *; nia). intuition.
  - assert (Hu : used t4 i = o :: used t4 (i + 1)).
    { rewrite used_cons by (rewrite Hn4; lia). fold o. replace (is_empty (node_at t4 o)) with false; [done|]. symmetry.
      apply (rep_used _ _ _ _ _ Hr4); [rewrite (same_offsets _ _ Hst); apply Hoff; set_solver +|cbn; set_solver +]. }
    step_ok. eexists t4, _. split; [done|]. split; [done|]. split; [done|]. exists i. split; [lia|]. split; [by rewrite Hu|].
    rewrite Hu. assert (Hny : ∃ y, items t !! n = Some y) by (destruct (rep_item _ _ _ _ _ _ n Hr) as (y&?&_); [cbn; set_solver +|eauto]).
    destruct Hny as [y Hy]. rewrite (entries_cons t4 o _ y) by (rewrite Hi4, lookup_delete_ne by done; congruence). rewrite Hent, <- (entries_cons t n _ y Hy).
    assert (Hnle : (i + 1) * ns ≤ n).
    { pose proof (Hoff n ltac:(set_solver +)) as (j&_&->)%elem_offsets. unfold o in *. assert (j ≠ i) by (by intros ->). nia. }
    assert (Hp : n :: used t4 (i + 1) ≡ₚ used t (i + 1)); [|by rewrite Hp]. apply NoDup_Permutation.
    + apply NoDup_cons. split; [|apply used_NoDup]. intros [Hnc _]%(rep_elem_used _ _ _ _ _ _ Hr4); [|lia].
      pose proof (rp_nodup _ _ _ _ _ _ Hr3) as Hnd3. cbn [app] in Hnd3. apply NoDup_app in Hnd3 as (_&Hd&_). apply (Hd n Hnc). set_solver +.
    + apply used_NoDup.
    + intros p. rewrite elem_of_cons. split.
      * intros Hp. apply Hmem; [|done]. destruct Hp as [->|Hp]; [done|]. by apply (rep_elem_used _ _ _ _ _ _ Hr4) in Hp as [_ ?]; [|lia].
      * intros Hp. apply Hmem; [|done]. by apply (rep_elem_used _ _ _ _ _ _ Hr) in Hp as [_ ?]; [|lia].
Qed.

Lemma erase_end_ok t m i c1 chs F x : Good t m → Rep t ((c1 ++ [i * ns]) :: chs) [] F [] m → 1 ≤ i ≤ _num_nodes t →
  items t !! (i * ns) = Some x → ∃ t' it, erase_it hash_function ns trivial overlay t (i * ns) = Ok (t', it) ∧ erased t m i x t' it.
Proof using ns_pos ns_aligned ns_small.
  clear keep. intros Hg Hr Hi Hx. set (o := i * ns) in *. pose proof (rp_nonneg _ _ _ _ _ _ Hr) as Hn.
  destruct (rep_item _ _ _ _ _ _ o Hr) as (x'&Hx'&Hmx); [cbn; set_solver +|]. assert (x' = x) as -> by congruence.
  assert (Hoff : o ∈ offsets t) by (eapply rep_chain_in; [exact Hr|set_solver +]).
  assert (He : is_empty (node_at t o) = false) by (apply (rep_used _ _ _ _ _ Hr); [done|cbn; set_solver +]).
  pose proof (rep_chain _ _ _ _ _ _ _ Hr) as Hch.
  assert (Hlo : link (nx t o) = 0) by (by pose proof Hch as [? _]%chain_suffix).
  assert (Hoz : (o =? 0) = false) by (unfold o; nia).
  unfold erase_it. rewrite get_node_ok by (done || by right). step_ok. rewrite Hoz, He. step_ok.
  change (get_next (node_at t o)) with (link (nx t o)). rewrite Hlo. cbn [negb Z.eqb]. change (next_it ns t o) with (next_it ns t (i * ns)). rewrite next_it_ok by lia. step_ok.
  unfold get_key, get_item. rewrite Hx. step_ok.
  assert (Hfin : ∀ t3 chs', Same t t3 → _num_items t3 = _num_items t → (∀ p, p ≠ o → items t3 !! p = items t !! p) →
    Rep t3 chs' [] F [o] (delete x.1 m) → (∀ p, p ≠ o → p ∈ concat chs' ↔ p ∈ concat ((c1 ++ [o]) :: chs)) →
    ∃ t' it, (t ← deallocate_node ns t3 o; Ok (t, List.hd 0 (used t (i + 1)))) = Ok (t', it) ∧ erased t m i x t' it ∧ it = List.hd 0 (used t (i + 1))).
  { intros t3 chs' Hs3 Hc3 Hi3 Hr3 Hc. destruct (rep_dealloc _ _ _ _ _ _ _ Hr3) as (t4&->&Hr4&Hs4&Hi4&Hc4&_). step_ok.
    destruct (good_erased t t3 t4 _ _ m x Hg Hmx Hs3 Hc3 Hs4 Hc4 Hr4) as [Hg4 Hst].
    assert (Hu : used t4 (i + 1) = used t (i + 1)).
    { apply (used_ext t t4 _ _ _ _ _ _ (i + 1) Hr Hr4 Hst); [lia|]. intros p Hp. apply Hc. unfold o. nia. }
    eexists t4, _. split; [done|]. split; [|by rewrite Hu]. split; [done|]. split; [done|]. exists (i + 1). split; [lia|]. split; [done|].
    rewrite Hu, (entries_frame t t4); [done|]. intros p (_&_&Hp)%elem_used; [|lia].
    assert (Hpo : p ≠ o) by (unfold o; nia). rewrite Hi4, lookup_delete_ne by done. by apply Hi3. }
  destruct c1 as [|g c1].
  - destruct (proj1 (Forall_forall _ _) (ch_home _ _ _ Hch) o) as (y&Hy&Hh); [left|]. assert (y = x) as -> by congruence. rewrite Hh, Z.eqb_refl.
    destruct (rep_erase_only t o chs F m x Hr Hx) as (t1&->&Hs1&Hc1&Hi1&Hr1). step_ok.
    destruct (Hfin t1 chs Hs1 Hc1 Hi1 Hr1) as (t'&it&Heq&Her&->).
    { intros p Hp. cbn. rewrite elem_of_cons. intuition. }
    destruct (deallocate_node ns t1 o) as [t4|]; [|discriminate Heq]. cbn in Heq |- *. injection Heq as ->. eauto.
  - destruct (proj1 (Forall_forall _ _) (ch_home _ _ _ Hch) o) as (y&Hy&Hh); [set_solver +|]. assert (y = x) as -> by congruence. rewrite Hh.
    assert (Hog : (o =? g) = false).
    { apply Z.eqb_neq. intros E. pose proof (rep_chain_nodup _ _ _ _ _ _ _ Hr) as Hnd. rewrite app_nil_r in Hnd. cbn in Hnd.
      apply NoDup_cons in Hnd as [Hnd _]. apply Hnd. rewrite <- E. set_solver +. }
    rewrite Hog. destruct (rep_erase_last t g c1 o chs F m x Hr Hx) as (t1&t2&->&Hfn&Hsn&Hs2&Hc2&Hi2&Hr2). step_ok.
    change (get_hash_head hash_function ns t1 x.1) with (home t1 x.1). rewrite Hfn. step_ok. rewrite Hsn. step_ok.
    destruct (Hfin t2 ((g :: c1) :: chs) Hs2 Hc2 Hi2 Hr2) as (t'&it&Heq&Her&->).
    { intros p Hp. cbn. rewrite !elem_of_cons, !elem_of_app, elem_of_cons. set_solver +Hp. }
    destruct (deallocate_node ns t2 o) as [t4|]; [|discriminate Heq]. cbn in Heq |- *. injection Heq as ->. eauto.
Qed.

Lemma good_chain t m o : Good t m → o ∈ used t 1 → ∃ c1 c2 chs F, Rep t ((c1 ++ o :: c2) :: chs) [] F [] m.
Proof using ns_pos ns_aligned ns_small.
  intros [(chs&F&Hr) _ _] Ho. rewrite (rep_used_perm _ _ _ _ Hr) in Ho. apply elem_concat in Ho as (c&Hoc&[chs' Hp]%elem_of_Permutation).
  apply list_elem_of_split in Hoc as (c1&c2&->). exists c1, c2, chs', F.
  by apply (rep_perm _ _ _ _ _ _ _ _ _ Hp (reflexivity _) (reflexivity _)).
Qed.

Lemma good_item t m o : Good t m → o ∈ used t 1 → ∃ x, items t !! o = Some x ∧ m !! x.1 = Some x.2.
Proof using ns_pos ns_aligned ns_small.
  intros [(chs&F&Hr) _ _] Ho. rewrite (rep_used_perm _ _ _ _ Hr) in Ho. apply (rep_item _ _ _ _ _ _ o Hr). by rewrite app_nil_r.
Qed.

Lemma erase_it_ok t m i x : Good t m → i * ns ∈ used t 1 → items t !! (i * ns) = Some x →
  ∃ t' it, erase_it hash_function ns trivial overlay t (i * ns) = Ok (t', it) ∧ erased t m i x t' it.
Proof using ns_pos ns_aligned ns_small.
  clear keep. intros Hg Ho Hx. destruct (good_chain t m (i * ns) Hg Ho) as (c1&c2&chs&F&Hr).
  apply elem_used in Ho as (_&(j&Hj&E)%elem_offsets&_); [|done]. assert (j = i) as -> by (apply (Z.mul_cancel_r j i ns); lia).
  destruct c2 as [|n c2]; [by eapply erase_end_ok|by eapply erase_next_ok].
Qed.

Lemma used_index t o : o ∈ used t 1 → ∃ i, 1 ≤ i ≤ _num_nodes t ∧ o = i * ns.
Proof using ns_pos ns_aligned ns_small. intros (_&(j&Hj&->)%elem_offsets&_)%elem_used; [|done]. eauto. Qed.

Lemma pool_erase_ok t m k : Good t m → ∃ t', erase hash_function ns trivial overlay t k = Ok (t', if decide (is_Some (m !! k)) then 1 else 0) ∧
  Good t' (delete k m).
Proof using ns_pos ns_aligned ns_small.
  clear keep. intros Hg. destruct (inner_find_ok t m k Hg) as (o&He&Ho). unfold erase. rewrite He. step_ok. destruct (m !! k) as [v|] eqn:Hk.
  - destruct Ho as [Ho Hx]. rewrite (used_pos _ _ Ho). destruct (used_index _ _ Ho) as (i&_&->).
    destruct (erase_it_ok t m i (k, v) Hg Ho Hx) as (t'&it&->&Hg'&_). step_ok. exists t'. by rewrite decide_True.
  - subst o. cbn [Z.eqb]. exists t. rewrite decide_False by (intros [? [=]]). split; [done|]. by rewrite delete_id.
Qed.

Lemma good_used_item t m i o : Good t m → 1 ≤ i → o ∈ used t i → is_Some (items t !! o).
Proof using ns_pos ns_aligned ns_small.
  intros Hg Hi Ho. destruct (good_item t m o Hg) as (x&?&_); [by apply (used_incl t i)|by exists x].
Qed.

(** A loop that erases while it iterates looks at every item once. *)
Lemma erase_if_loop_ok (p : K * V → bool) : ∀ fuel t m i, Good t m → 1 ≤ i ≤ _num_nodes t + 1 → (length (used t i) ≤ fuel)%nat →
  (∀ k v, m !! k = Some v → p (k, v) = true → (k, v) ∈ entries t (used t i)) →
  ∃ t' seen, erase_if_loop hash_function ns trivial overlay fuel p t (List.hd 0 (used t i)) = Ok (t', seen) ∧
    Good t' (filter (λ x, p x = false) m) ∧ Same t t' ∧ seen ≡ₚ entries t (used t i).
Proof using ns_pos ns_aligned ns_small.
  clear keep. induction fuel as [|fuel IH]; intros t m i Hg Hi Hf Hall; destruct (used t i) as [|o l] eqn:Hu; try (cbn in Hf; lia).
  1, 2: cbn; exists t, []; split; [done|]; split; [|done]; replace (filter _ m) with m; [done|].
  1, 2: symmetry; apply map_filter_id; intros k v Hk; destruct (p (k, v)) eqn:Hp; [|done]; by apply Hall, elem_of_nil in Hk.
  cbn [List.hd erase_if_loop]. destruct (used_tail t o l _ i Hi eq_refl Hu) as (j&Hj&->&Hl).
  assert (Ho : j * ns ∈ used t 1) by (apply (used_incl t i); [lia|]; rewrite Hu; left). rewrite (used_pos _ _ Ho).
  destruct (good_item t m _ Hg Ho) as (x&Hx&Hmx). unfold get_item. rewrite Hx. step_ok.
  rewrite (entries_cons t _ l x Hx) in Hall |- *. destruct (p x) eqn:Hp.
  - destruct (erase_it_ok t m j x Hg Ho Hx) as (t1&it&->&Hg1&Hs1&j1&Hj1&->&He1). step_ok.
    rewrite <- (same_num _ _ Hs1) in Hj1. rewrite <- Hl in He1.
    destruct (IH t1 (delete x.1 m) j1 Hg1 Hj1) as (t2&seen&->&Hg2&Hs2&Hse).
    + rewrite <- (entries_length t1) by (intros o Ho1; apply (good_used_item t1 (delete x.1 m) j1); [done|lia|done]).
      rewrite (Permutation_length He1), (entries_length t l); [cbn in Hf; lia|].
      intros o Ho1. apply (good_used_item t m i); [done|lia|]. rewrite Hu. by right.
    + intros k v [Hne Hk]%lookup_delete_Some Hpk. rewrite He1. specialize (Hall k v Hk Hpk). apply elem_of_cons in Hall as [E|?]; [|done].
      exfalso. apply Hne. by rewrite <- E.
    + step_ok. exists t2, (x :: seen). split; [done|]. split; [|split; [by eapply same_trans|by rewrite Hse, He1]].
      replace (filter _ m) with (filter (λ x, p x = false) (delete x.1 m)); [done|].
      rewrite map_filter_delete. apply delete_id. apply map_lookup_filter_None. right. intros w Hw. assert (w = x.2) as -> by congruence.
      rewrite <- surjective_pairing. congruence.
  - rewrite next_it_ok by lia. step_ok. destruct (IH t m (j + 1) Hg) as (t2&seen&->&Hg2&Hs2&Hse); [lia|rewrite <- Hl; cbn in Hf; lia|..].
    + intros k v Hk Hpk. rewrite <- Hl. specialize (Hall k v Hk Hpk). apply elem_of_cons in Hall as [E|?]; [|done]. congruence.
    + step_ok. exists t2, (x :: seen). split; [done|]. split; [done|]. split; [done|]. by rewrite Hse, <- Hl.
Qed.

Lemma erase_if_ok (p : K * V → bool) t m : Good t m → ∃ t' seen, erase_if hash_function ns trivial overlay p t = Ok (t', seen) ∧
  Good t' (filter (λ x, p x = false) m) ∧ seen ≡ₚ map_to_list m.
Proof using ns_pos ns_aligned ns_small.
  clear keep. intros Hg. pose proof Hg as [(chs&F&Hr) _ _]. pose proof (rp_nonneg _ _ _ _ _ _ Hr) as Hn. unfold erase_if. rewrite begin_ok by done. step_ok.
  destruct (erase_if_loop_ok p (enough t) t m 1) as (t'&seen&He&Hg'&_&Hse);
    [done|lia|unfold enough; pose proof (used_length t 1 Hn); lia|..].
  - intros k v Hk _. rewrite (rep_used_entries _ _ _ _ Hr). by apply elem_of_map_to_list.
  - exists t', seen. split; [done|]. split; [done|]. by rewrite Hse, (rep_used_entries _ _ _ _ Hr).
Qed.

(** ** Other values, other places *)
Lemma good_placed t t' m o k v w : Good t m → o ∈ used t 1 → items t !! o = Some (k, v) → Placed [] t o (k, w) t' →
  Good t' (<[k := w]> m).
Proof using ns_pos ns_aligned ns_small.
  clear keep. intros Hg Ho Hx [Hs Hc' Hnx Hi Hat Hit].
  destruct (good_chain t m o Hg Ho) as (c1&c2&chs&F&Hr). destruct (good_item t m o Hg Ho) as (x&Hx'&Hm).
  assert (x = (k, v)) as -> by congruence. cbn in Hm. destruct Hg as [_ Hc Hmax].
  split; [|by rewrite Hc', Hc, map_size_insert_Some by (by eexists)|by rewrite (same_max _ _ Hs), (same_num _ _ Hs)].
  destruct (c1 ++ o :: c2) as [|h l] eqn:Hl; [by destruct c1|]. exists ((h :: l) :: chs), F.
  assert (Hoin : o ∈ h :: l) by (rewrite <- Hl; set_solver +).
  assert (Hnd : NoDup (h :: l)) by (pose proof (rep_chain_nodup _ _ _ _ _ _ _ Hr) as Hnd; by rewrite app_nil_r in Hnd).
  assert (Hit' : ∀ p, p ≠ o → items t' !! p = items t !! p) by (intros p Hp; apply Hit; set_solver +Hp).
  apply (rep_reitem t _ h l chs [] F [] m _ Hr); [done|done|..].
  - intros p Hp. assert (p ≠ o) by (by intros ->). split; [apply Hat; set_solver|by apply Hit'].
  - intros p Hp. destruct (decide (p = o)) as [->|Hne]; [exists o, (k, v), (k, w); done|].
    destruct (rep_chain_items _ _ _ _ _ _ _ _ p Hr Hp) as [y Hy]. exists p, y, y. split; [done|]. split; [done|]. by rewrite Hit'.
  - intros es Hes. rewrite <- Hl in *. rewrite <- insert_delete_eq, map_to_list_insert by (by rewrite lookup_delete_eq).
    rewrite <- (map_to_list_delete_perm m k v (entries t c1 ++ entries t c2 ++ es)).
    + rewrite entries_app, (entries_cons _ o c2 (k, w)) by done.
      apply NoDup_app in Hnd as (_&Hd&[Ho2 _]%NoDup_cons). rewrite (entries_frame t t' c1), (entries_frame t t' c2).
      * solve_Permutation.
      * intros p Hp. apply Hit'. by intros ->.
      * intros p Hp. apply Hit'. intros ->. apply (Hd o Hp). left.
    + rewrite <- Hes, entries_app, (entries_cons t o c2 _ Hx). solve_Permutation.
Qed.

Lemma good_put_item t m o k v w : Good t m → o ∈ used t 1 → items t !! o = Some (k, v) →
  ∃ t', put_item ns overlay t o (k, w) = Ok t' ∧ Good t' (<[k := w]> m) ∧ o ∈ used t' 1 ∧ items t' !! o = Some (k, w) ∧ Same t t'.
Proof using ns_pos ns_aligned ns_small.
  intros Hg Ho Hx. pose proof (good_num _ _ Hg). destruct (put_item_placed overlay [] t o (k, w)) as (t'&He&Hp);
    [lia|by apply elem_used in Ho as (_&?&_)|]. exists t'. split; [done|]. split; [by eapply good_placed|].
  destruct Hp as [Hs _ Hnx Hi _ _]. split; [|done]. rewrite (used_same t t'); [done|done|apply Hs].
Qed.

Lemma assign_mapped_ok t m o k v w : Good t m → o ∈ used t 1 → items t !! o = Some (k, v) →
  ∃ t', assign_mapped ns overlay t o w = Ok t' ∧ Good t' (<[k := w]> m).
Proof using ns_pos ns_aligned ns_small.
  intros Hg Ho Hx. unfold assign_mapped, get_item. rewrite Hx. step_ok.
  destruct (good_put_item t m o k v w Hg Ho Hx) as (t'&He&Hg'&_). eauto.
Qed.

(** The code of [prioritise] begins as [inner_find] and goes on as [swap_items]. *)
Lemma prioritise_swap t key : prioritise hash_function ns trivial overlay t key =
  (o ← inner_find hash_function ns t key; if o =? 0 then Ok (t, 0) else t' ← swap_items ns trivial overlay t o (home t key); Ok (t', home t key)).
Proof.
  unfold prioritise, inner_find, swap_items. destruct (get_node ns t (home t key)) as [n|]; [|done]. step_ok.
  destruct (is_empty n); [done|]. destruct (find_loop _ _ _ _) as [o|]; [|done]. step_ok. destruct (o =? 0); [done|].
  destruct (move_out trivial t o) as [[t1 temp]|]; [|done]. step_ok. by destruct (move_from ns trivial overlay t1 o (home t key)).
Qed.

Lemma swap_chain_ok t h l chs R F H m o x y t' : Rep t ((h :: l) :: chs) R F H m → o ∈ l → items t !! o = Some x → items t !! h = Some y →
  Same t t' → (∀ p, nx t' p = nx t p) → items t' !! o = Some y → items t' !! h = Some x →
  (∀ p, p ≠ o → p ≠ h → node_at t' p = node_at t p ∧ items t' !! p = items t !! p) → home t x.1 = h → Rep t' ((h :: l) :: chs) R F H m.
Proof using ns_pos ns_aligned ns_small.
  intros Hr Ho Hx Hy Hs Hn Ho' Hh' Hoth Hhome. assert (Hnd : NoDup (h :: l)).
  { pose proof (rep_chain_nodup _ _ _ _ _ _ _ Hr) as Hnd. by apply NoDup_app in Hnd as (?&_). }
  apply (rep_reitem t t' h l chs R F H m m Hr Hs Hn).
  - intros p Hp. apply Hoth; intros ->; apply Hp; [by right|left].
  - intros p Hp. destruct (decide (p = o)) as [->|Hpo]; [exists h, y, y; split; [left|done]|].
    destruct (decide (p = h)) as [->|Hph]; [exists o, x, x; split; [by right|done]|].
    destruct (rep_chain_items _ _ _ _ _ _ _ _ p Hr Hp) as [z Hz]. exists p, z, z. split; [done|]. split; [done|]. by rewrite (proj2 (Hoth p Hpo Hph)).
  - intros es Hes. rewrite <- Hes. apply list_elem_of_split in Ho as (l1&l2&->).
    apply NoDup_cons in Hnd as [Hh Hnd]. apply NoDup_app in Hnd as (_&Hd&[Ho2 _]%NoDup_cons).
    rewrite (entries_cons t h _ y Hy), (entries_cons t' h _ x Hh'), !entries_app, (entries_cons t o _ x Hx), (entries_cons t' o _ y Ho').
    rewrite (entries_frame t t' l1), (entries_frame t t' l2); [solve_Permutation|..].
    + intros p Hp. apply (Hoth p); [by intros ->|intros ->; set_solver +Hh Hp].
    + intros p Hp. apply (Hoth p); [intros ->; apply (Hd o Hp); left|intros ->; set_solver +Hh Hp].
Qed.

Lemma prioritise_ok t m k : Good t m → match m !! k with
  | None => prioritise hash_function ns trivial overlay t k = Ok (t, 0)
  | Some v => ∃ o, inner_find hash_function ns t k = Ok o ∧
      if decide (o = home t k ∧ trivial = false) then prioritise hash_function ns trivial overlay t k = Abort
      else ∃ t', prioritise hash_function ns trivial overlay t k = Ok (t', home t k) ∧ Good t' m ∧ items t' !! home t k = Some (k, v)
  end.
Proof using ns_pos ns_aligned ns_small.
  intros Hg. destruct (inner_find_ok t m k Hg) as (o&He&Ho). rewrite prioritise_swap, He. destruct (m !! k) as [v|] eqn:Hk; [|by subst o].
  destruct Ho as [Ho Hx]. exists o. split; [done|]. step_ok. rewrite (used_pos _ _ Ho). pose proof Hg as [(chs&F&Hr) Hc Hmax].
  destruct (decide (o = home t k)) as [Heq|Hne].
  - unfold swap_items, move_out, get_item. rewrite Hx. step_ok. unfold move_from, get_item, moved. rewrite <- Heq.
    destruct trivial eqn:Htr; [rewrite decide_False by (by intros [_ ?])|rewrite decide_True by done].
    + rewrite Hx. step_ok. destruct (good_put_item t m o k v v Hg Ho Hx) as (t1&->&Hg1&Ho1&Hx1&Hs1). step_ok.
      rewrite insert_id in Hg1 by done. destruct (good_put_item t1 m o k v v Hg1 Ho1 Hx1) as (t2&->&Hg2&Ho2&Hx2&Hs2). step_ok.
      rewrite insert_id in Hg2 by done. eauto.
    + cbn. by rewrite lookup_delete_eq.
  - rewrite decide_False by (by intros [? _]). rewrite (rep_used_perm _ _ _ _ Hr) in Ho.
    destruct (rep_home _ _ _ _ _ _ o (k, v) Hr Ho Hx) as (l&Hl&Hol). cbn [fst] in *. set (h := home t k) in *.
    apply elem_of_cons in Hol as [?|Hol]; [done|]. pose proof Hl as [chs' Hp]%elem_of_Permutation.
    apply (rep_perm _ _ _ _ _ _ _ _ _ Hp (reflexivity _) (reflexivity _)) in Hr.
    destruct (rep_chain_items _ _ _ _ _ _ _ _ h Hr) as [y Hy]; [left|].
    destruct (swap_items_ok t o h (k, v) y (rp_nonneg _ _ _ _ _ _ Hr)) as (t'&->&Hs&Hn&Hc'&Ho'&Hh'&Hoth);
      [eapply rep_chain_in; [exact Hr|set_solver +Hol]|eapply rep_chain_in; [exact Hr|set_solver +]|done..|]. step_ok. exists t'. split; [done|]. split; [|done].
    split; [|by rewrite Hc'|by rewrite (same_max _ _ Hs), (same_num _ _ Hs)]. exists ((h :: l) :: chs'), F.
    by apply (swap_chain_ok t h l chs' [] F [] m o (k, v) y t').
Qed.
End proofs.

(** ** What a table is used for *)
Section refinement.
Context {K V : Type} `{!EqDecision K, !Countable K}.
Context (hash_function : K → Z) (ns : Z).
Hypothesis ns_pos : 0 < ns.
Hypothesis ns_aligned : ns mod 4 = 0.
Hypothesis ns_small : ns ≤ 2 ^ 63.
Context (trivial : bool) (overlay : K * V → Z → Z) (init : V).
Abbreviation table := (@table K V).
Implicit Types (m : gmap K V).

(** What the users of a table call.  [Assign k v] is [table[k] = v]; [Copy] and [MoveFrom]
    go on with a copy, and with what is left after a move. *)
Inductive op :=
  | Emplace (k : K) (v : V)
  | TryEmplace (k : K) (v : V)
  | Index (k : K)
  | Assign (k : K) (v : V)
  | Find (k : K)
  | Erase (k : K)
  | EraseIf (p : K * V → bool)
  | Prioritise (k : K)
  | Clear
  | Rehash (n : Z)
  | Reserve (n : Z)
  | Copy
  | MoveFrom.

(** The value an operation gives access to, and whether it did something. *)
Definition outcome : Type := bool * option V.

(** [keep] says which pages behind the end of the array survive a change of its size. *)
Definition run_op (t : table) (keep : Z → bool) (o : op) : result (table * outcome) :=
  match o with
  | Emplace k v =>
      '(t, it, b) ← emplace hash_function ns trivial overlay keep t (k, v);
      x ← get_item t it; Ok (t, (b, Some x.2))
  | TryEmplace k v =>
      '(t, it, b) ← try_emplace hash_function ns trivial overlay keep t k v;
      x ← get_item t it; Ok (t, (b, Some x.2))
  | Index k =>
      '(t, it) ← operator_index hash_function ns trivial overlay keep init t k;
      x ← get_item t it; Ok (t, (true, Some x.2))
  | Assign k v =>
      '(t, it) ← operator_index hash_function ns trivial overlay keep init t k;
      t ← assign_mapped ns overlay t it v;
      v ← at_ hash_function ns t k; Ok (t, (true, Some v))
  | Find k =>
      n ← count hash_function ns t k;
      if n =? 0 then Ok (t, (false, None)) else v ← at_ hash_function ns t k; Ok (t, (true, Some v))
  | Erase k => '(t, n) ← erase hash_function ns trivial overlay t k; Ok (t, (n =? 1, None))
  | EraseIf p => '(t, _) ← erase_if hash_function ns trivial overlay p t; Ok (t, (true, None))
  | Prioritise k => '(t, it) ← prioritise hash_function ns trivial overlay t k; Ok (t, (negb (it =? 0), None))
  | Clear => t ← clear ns t; Ok (t, (true, None))
  | Rehash n => t ← rehash hash_function ns trivial overlay keep t n; Ok (t, (true, None))
  | Reserve n => t ← reserve hash_function ns trivial overlay keep t n; Ok (t, (true, None))
  | Copy => t ← copy_construct hash_function ns trivial overlay keep t; Ok (t, (true, None))
  | MoveFrom => t ← moved_from ns keep t; Ok (t, (true, None))
  end.

Fixpoint run_ops (t : table) (l : list ((Z → bool) * op)) : result (table * list outcome) :=
  match l with
  | [] => Ok (t, [])
  | (keep, o) :: l => '(t, r) ← run_op t keep o; '(t, rs) ← run_ops t l; Ok (t, r :: rs)
  end.

(** The same on a finite map. *)
Definition spec_op m (o : op) : gmap K V * outcome :=
  match o with
  | Emplace k v | TryEmplace k v =>
      match m !! k with Some w => (m, (false, Some w)) | None => (<[k := v]> m, (true, Some v)) end
  | Index k => (<[k := default init (m !! k)]> m, (true, Some (default init (m !! k))))
  | Assign k v => (<[k := v]> m, (true, Some v))
  | Find k => (m, (bool_decide (is_Some (m !! k)), m !! k))
  | Erase k => (delete k m, (bool_decide (is_Some (m !! k)), None))
  | EraseIf p => (filter (λ x, p x = false) m, (true, None))
  | Prioritise k => (m, (bool_decide (is_Some (m !! k)), None))
  | Clear | MoveFrom => (∅, (true, None))
  | Rehash _ | Reserve _ | Copy => (m, (true, None))
  end.

Fixpoint spec_ops m (l : list ((Z → bool) * op)) : gmap K V * list outcome :=
  match l with
  | [] => (m, [])
  | (_, o) :: l => let r := spec_op m o in let rs := spec_ops r.1 l in (rs.1, r.2 :: rs.2)
  end.

(** [prioritise] is for items that may be moved as bytes. *)
Definition allowed (o : op) : Prop := match o with Prioritise _ => trivial = true | _ => True end.

Abbreviation Good := (Good hash_function ns).
#[local] Hint Resolve ns_pos ns_aligned ns_small : core.

Lemma map_to_list_filter_perm (p : K * V → bool) m :
  map_to_list (filter (λ x, p x = false) m) ≡ₚ filter (λ x, p x = false) (map_to_list m).
Proof.
  apply NoDup_Permutation; [apply NoDup_map_to_list|apply NoDup_filter, NoDup_map_to_list|]. intros [k v].
  rewrite list_elem_of_filter, !elem_of_map_to_list, map_lookup_filter_Some. tauto.
Qed.

Lemma prioritise_trivial t m k : trivial = true → Good t m → ∃ t' it, prioritise hash_function ns trivial overlay t k = Ok (t', it) ∧
  Good t' m ∧ negb (it =? 0) = bool_decide (is_Some (m !! k)).
Proof using ns_pos ns_aligned ns_small.
  intros Ht Hg. pose proof (prioritise_ok hash_function ns ns_pos ns_aligned ns_small trivial overlay t m k Hg) as Hp. destruct (m !! k) as [v|].
  - destruct Hp as (o&_&Hp). rewrite decide_False in Hp by (intros [_ E]; congruence). destruct Hp as (t'&->&Hg'&_).
    eexists t', _. split; [done|]. split; [done|]. rewrite bool_decide_true by done.
    pose proof Hg as [(chs&F&Hr) _ _]. assert (Hh : get_hash_head hash_function ns t k ∈ offsets ns t) by (apply home_in; apply Hr).
    apply (offsets_pos ns ns_pos ns_aligned ns_small) in Hh. by rewrite (proj2 (Z.eqb_neq _ _)) by lia.
  - exists t, 0. split; [done|]. split; [done|]. by rewrite bool_decide_false by (intros [? [=]]).
Qed.

Lemma run_op_ok t m keep o : allowed o → Good t m → ∃ t', run_op t keep o = Ok (t', (spec_op m o).2) ∧ Good t' (spec_op m o).1.
Proof using ns_pos ns_aligned ns_small.
  intros Ha Hg. destruct o as [k v|k v|k|k v|k|k|p|k| |n|n| |]; cbn [run_op spec_op].
  - destruct (emplace_ok hash_function ns ns_pos ns_aligned ns_small trivial overlay keep t m k v Hg) as (t'&o&b&->&H). step_ok. unfold get_item.
    destruct (m !! k); destruct H as (Ht&->&Hx); [subst t'|]; rewrite Hx; step_ok; eauto.
  - destruct (try_emplace_ok hash_function ns ns_pos ns_aligned ns_small trivial overlay keep t m k v Hg) as (t'&o&b&->&H). step_ok. unfold get_item.
    destruct (m !! k); destruct H as (Ht&->&Hx); [subst t'|]; rewrite Hx; step_ok; eauto.
  - destruct (operator_index_ok hash_function ns ns_pos ns_aligned ns_small trivial overlay keep init t m k Hg) as (t'&o&->&w&Hg'&->&_&Hx). step_ok.
    unfold get_item. rewrite Hx. step_ok. eauto.
  - destruct (operator_index_ok hash_function ns ns_pos ns_aligned ns_small trivial overlay keep init t m k Hg) as (t'&o&->&w&Hg'&_&Ho&Hx). step_ok.
    destruct (assign_mapped_ok hash_function ns ns_pos ns_aligned ns_small overlay t' _ o k w v Hg' Ho Hx) as (t2&->&Hg2). step_ok. rewrite insert_insert_eq in Hg2.
    rewrite (at_ok hash_function ns ns_pos ns_aligned ns_small _ _ k Hg2), lookup_insert_eq. step_ok. eauto.
  - rewrite (count_ok hash_function ns ns_pos ns_aligned ns_small t m k Hg). step_ok.
    rewrite (at_ok hash_function ns ns_pos ns_aligned ns_small t m k Hg). destruct (m !! k) as [v|].
    + rewrite decide_True, bool_decide_true by done. exists t. done.
    + rewrite decide_False, bool_decide_false by (intros [? [=]]). exists t. done.
  - destruct (pool_erase_ok hash_function ns ns_pos ns_aligned ns_small trivial overlay t m k Hg) as (t'&->&Hg'). step_ok. exists t'. split; [|done].
    destruct (decide (is_Some (m !! k))); [by rewrite bool_decide_true|by rewrite bool_decide_false].
  - destruct (erase_if_ok hash_function ns ns_pos ns_aligned ns_small trivial overlay p t m Hg) as (t'&seen&->&Hg'&_). step_ok. eauto.
  - destruct (prioritise_trivial t m k Ha Hg) as (t'&it&->&Hg'&E). step_ok. rewrite E. eauto.
  - destruct (pool_clear_ok hash_function ns ns_pos ns_aligned ns_small t m Hg) as (t'&->&Hg'&_). step_ok. eauto.
  - destruct (rehash_ok hash_function ns ns_pos ns_aligned ns_small trivial overlay keep t m n Hg) as (t'&->&Hg'&_). step_ok. eauto.
  - destruct (reserve_ok hash_function ns ns_pos ns_aligned ns_small trivial overlay keep t m n Hg) as (t'&->&Hg'&_). step_ok. eauto.
  - destruct (copy_construct_ok hash_function ns ns_pos ns_aligned ns_small trivial overlay keep t m Hg) as (t'&->&Hg'). step_ok. eauto.
  - destruct (moved_from_ok hash_function ns ns_pos ns_aligned ns_small keep t) as (t'&->&Hg'). step_ok. eauto.
Qed.

Lemma run_ops_ok l : ∀ t m, Forall (λ x, allowed x.2) l → Good t m →
  ∃ t', run_ops t l = Ok (t', (spec_ops m l).2) ∧ Good t' (spec_ops m l).1.
Proof using ns_pos ns_aligned ns_small.
  induction l as [|[keep o] l IH]; intros t m Ha Hg; [by exists t|]. apply Forall_cons in Ha as [Ha Hl].
  cbn [run_ops spec_ops fst snd]. destruct (run_op_ok t m keep o Ha Hg) as (t1&->&Hg1). step_ok.
  destruct (IH t1 _ Hl Hg1) as (t2&->&Hg2). step_ok. eauto.
Qed.

Lemma used_good keep l : Forall (λ x, allowed x.2) l →
  ∃ t0 t, PoolHashTable ns keep = Ok t0 ∧ run_ops t0 l = Ok (t, (spec_ops ∅ l).2) ∧ Good t (spec_ops ∅ l).1.
Proof using ns_pos ns_aligned ns_small.
  intros Ha. destruct (PoolHashTable_ok (V := V) hash_function ns ns_pos ns_aligned ns_small keep) as (t0&He&Hg).
  destruct (run_ops_ok l t0 ∅ Ha Hg) as (t&Hr&Hg'). exists t0, t. auto.
Qed.

(** C2: the hash table in one array is a finite map. Construct a table, with any hash function,
    and use it in any order: insertions, lookups, assignments, erasures by key and by a
    condition during an iteration, clearing, changing the number of nodes, copying, moving, and,
    for items that are moved as bytes, moving a key to the front of its chain. Whichever pages
    survive when the array shrinks and grows again: in such a history no check fails, no loop
    runs out, no item is read outside its life, each call has the result it has on the map, and
    in the end an iteration gives the items of the map, each once, the size is their number, and
    there are at least as many nodes. The size of a node is positive, a multiple of four and at
    most 2^63, and there is memory enough for the array. For items that are not moved as bytes
    [prioritise] is not part of the claim: it reads a destroyed item (finding,
    [prioritise_uses_destroyed_item]). *)
Theorem pool_table_refines_map keep l : Forall (λ x, allowed x.2) l →
  ∃ t0 t es, PoolHashTable ns keep = Ok t0 ∧ run_ops t0 l = Ok (t, (spec_ops ∅ l).2) ∧
    elements ns t = Ok es ∧ es ≡ₚ map_to_list (spec_ops ∅ l).1 ∧
    size t = Z.of_nat (length es) ∧ size t ≤ bucket_count t.
Proof using ns_pos ns_aligned ns_small.
  intros Ha. destruct (used_good keep l Ha) as (t0&t&H0&Hr&Hg). exists t0, t.
  destruct (pool_elements_ok hash_function ns ns_pos ns_aligned ns_small t _ Hg) as (es&He&Hp). exists es.
  split; [done|]. split; [done|]. split; [done|]. split; [done|]. unfold size, bucket_count.
  rewrite Hp, length_map_to_list, (gd_count _ _ _ _ Hg). split; [done|]. by eapply good_size.
Qed.

(** C27: erasing while iterating.  In any table that is in use, a loop that goes on with
    [it = erase(it)] at the items for which [p] holds and with [++it] at the others ends, has
    looked at every item exactly once, although [erase] moves items between nodes, and has
    erased just those. *)
Theorem erase_while_iterating keep l p : Forall (λ x, allowed x.2) l →
  ∃ t0 t outs t' seen es, PoolHashTable ns keep = Ok t0 ∧ run_ops t0 l = Ok (t, outs) ∧
    erase_if hash_function ns trivial overlay p t = Ok (t', seen) ∧
    seen ≡ₚ map_to_list (spec_ops ∅ l).1 ∧
    elements ns t' = Ok es ∧ es ≡ₚ filter (λ x, p x = false) seen.
Proof using ns_pos ns_aligned ns_small.
  intros Ha. destruct (used_good keep l Ha) as (t0&t&H0&Hr&Hg). exists t0, t, (spec_ops ∅ l).2.
  destruct (erase_if_ok hash_function ns ns_pos ns_aligned ns_small trivial overlay p t _ Hg) as (t'&seen&He&Hg'&Hs). exists t', seen.
  destruct (pool_elements_ok hash_function ns ns_pos ns_aligned ns_small t' _ Hg') as (es&He'&Hp). exists es.
  split; [done|]. split; [done|]. split; [done|]. split; [done|]. split; [done|]. by rewrite Hp, Hs, map_to_list_filter_perm.
Qed.

(** C22: growing in place.  In any table that is in use, the three loops that grow the
    array in place end after no more rounds than the fuel allows; they place every item,
    also where items change places in a cycle; and they give a table with the contents that
    the way through a queue gives: every lookup has the same result, and so have the
    iterations, up to the order. *)
Theorem growth_in_place_is_rehash keep l d : Forall (λ x, allowed x.2) l → 0 < d →
  ∃ t0 t outs n t1 t2 es1 es2, PoolHashTable ns keep = Ok t0 ∧ run_ops t0 l = Ok (t, outs) ∧ n = _num_nodes t + d ∧
    inner_remap_rehash hash_function ns trivial overlay keep t n = Ok t1 ∧
    inner_serialize_rehash hash_function ns trivial overlay keep t n = Ok t2 ∧
    _num_nodes t1 = n ∧ _num_nodes t2 = n ∧ size t1 = size t ∧ size t2 = size t ∧
    (∀ k, at_ hash_function ns t1 k = at_ hash_function ns t2 k) ∧
    elements ns t1 = Ok es1 ∧ elements ns t2 = Ok es2 ∧ es1 ≡ₚ es2.
Proof using Countable0 ns_pos ns_aligned ns_small.
  intros Ha Hd. destruct (used_good keep l Ha) as (t0&t&H0&Hr&Hg). exists t0, t, (spec_ops ∅ l).2, (_num_nodes t + d).
  pose proof (good_num _ _ _ _ Hg) as Hnum. pose proof (good_size _ _ ns_pos ns_aligned ns_small _ _ Hg) as Hsz.
  destruct (inner_remap_rehash_ok hash_function ns ns_pos ns_aligned ns_small trivial overlay keep t _ (_num_nodes t + d) Hg) as (t1&He1&Hg1&Hn1); [lia|].
  destruct (inner_serialize_rehash_ok hash_function ns ns_pos ns_aligned ns_small trivial overlay keep t _ (_num_nodes t + d) Hg) as (t2&He2&Hg2&Hn2); [lia..|].
  destruct (pool_elements_ok hash_function ns ns_pos ns_aligned ns_small t1 _ Hg1) as (es1&Hes1&Hp1).
  destruct (pool_elements_ok hash_function ns ns_pos ns_aligned ns_small t2 _ Hg2) as (es2&Hes2&Hp2).
  exists t1, t2, es1, es2. unfold size. rewrite (gd_count _ _ _ _ Hg), (gd_count _ _ _ _ Hg1), (gd_count _ _ _ _ Hg2).
  repeat (split; [done|]). split; [|split; [done|]; split; [done|]; by rewrite Hp1].
  intros k. by rewrite !(at_ok hash_function ns ns_pos ns_aligned ns_small _ _ k) by done.
Qed.

(** [prioritise] of a key that is already at its home uses the item after its end, if the
    items are not moved as bytes. *)
Theorem prioritise_uses_destroyed_item keep l k : Forall (λ x, allowed x.2) l → trivial = false →
  ∃ t0 t outs, PoolHashTable ns keep = Ok t0 ∧ run_ops t0 l = Ok (t, outs) ∧
    (inner_find hash_function ns t k = Ok (get_hash_head hash_function ns t k) → prioritise hash_function ns trivial overlay t k = Abort).
Proof using Countable0 ns_pos ns_aligned ns_small.
  intros Ha Ht. destruct (used_good keep l Ha) as (t0&t&H0&Hr&Hg). exists t0, t, (spec_ops ∅ l).2. split; [done|]. split; [done|].
  intros Hf. pose proof (prioritise_ok hash_function ns ns_pos ns_aligned ns_small trivial overlay t _ k Hg) as Hp.
  destruct (inner_find_ok hash_function ns ns_pos ns_aligned ns_small t _ k Hg) as (o&Ho&Hw).
  assert (o = get_hash_head hash_function ns t k) as -> by congruence. destruct (_ !! k) as [v|].
  - destruct Hp as (o&Ho'&Hp). by rewrite decide_True in Hp by (split; congruence).
  - pose proof Hg as [(chs&F&Hrep) _ _]. assert (Hh : get_hash_head hash_function ns t k ∈ offsets ns t) by (apply home_in; apply Hrep).
    apply (offsets_pos ns ns_pos ns_aligned ns_small) in Hh. lia.
Qed.
End refinement.

(** ** A table of numbers

    Nodes of 16 bytes; keys that differ by a multiple of eight meet whatever the size. *)
Module Witness.
Definition hash (k : Z) : Z := Z.land k 7.
Definition overlay (x : Z * Z) (_ : Z) : Z := x.1.
Definition all_pages (_ : Z) : bool := true.
Definition no_pages (_ : Z) : bool := false.
Definition session : list ((Z → bool) * op (K := Z) (V := Z)) :=
  [(all_pages, Emplace 1 10); (all_pages, Emplace 9 90); (no_pages, Assign 17 170); (all_pages, TryEmplace 2 20);
   (all_pages, Index 10); (all_pages, Emplace 3 30); (no_pages, Prioritise 9); (all_pages, Erase 1); (no_pages, Find 9);
   (all_pages, EraseIf (λ x, x.2 =? 30)); (no_pages, Rehash 3); (all_pages, Copy); (all_pages, Reserve 12); (no_pages, Emplace 25 250)].

Lemma session_allowed : Forall (λ x, allowed true x.2) session.
Proof. repeat constructor. Qed.
Definition aligned16 : 16 mod 4 = 0 := eq_refl.
End Witness.

Lemma pool_table_refines_map_witness : ∃ t0 t es, PoolHashTable 16 Witness.no_pages = Ok t0 ∧
  run_ops Witness.hash 16 true Witness.overlay 0 t0 Witness.session = Ok (t, (spec_ops 0 (∅ : gmap Z Z) Witness.session).2) ∧
  elements 16 t = Ok es ∧ es ≡ₚ map_to_list (spec_ops 0 (∅ : gmap Z Z) Witness.session).1 ∧
  size t = Z.of_nat (length es) ∧ size t ≤ bucket_count t.
Proof.
  apply (pool_table_refines_map Witness.hash 16 eq_refl Witness.aligned16); [by vm_compute|apply Witness.session_allowed].
Defined.

Lemma erase_while_iterating_witness : ∃ t0 t outs t' seen es, PoolHashTable 16 Witness.no_pages = Ok t0 ∧
  run_ops Witness.hash 16 true Witness.overlay 0 t0 Witness.session = Ok (t, outs) ∧
  erase_if Witness.hash 16 true Witness.overlay (λ x, Z.even x.1) t = Ok (t', seen) ∧
  seen ≡ₚ map_to_list (spec_ops 0 (∅ : gmap Z Z) Witness.session).1 ∧
  elements 16 t' = Ok es ∧ es ≡ₚ filter (λ x, Z.even x.1 = false) seen.
Proof.
  apply (erase_while_iterating Witness.hash 16 eq_refl Witness.aligned16); [by vm_compute|apply Witness.session_allowed].
Defined.

Lemma growth_in_place_is_rehash_witness : ∃ t0 t outs n t1 t2 es1 es2, PoolHashTable 16 Witness.no_pages = Ok t0 ∧
  run_ops Witness.hash 16 true Witness.overlay 0 t0 Witness.session = Ok (t, outs) ∧ n = _num_nodes t + 28 ∧
  inner_remap_rehash Witness.hash 16 true Witness.overlay Witness.no_pages t n = Ok t1 ∧
  inner_serialize_rehash Witness.hash 16 true Witness.overlay Witness.no_pages t n = Ok t2 ∧
  _num_nodes t1 = n ∧ _num_nodes t2 = n ∧ size t1 = size t ∧ size t2 = size t ∧
  (∀ k, at_ Witness.hash 16 t1 k = at_ Witness.hash 16 t2 k) ∧
  elements 16 t1 = Ok es1 ∧ elements 16 t2 = Ok es2 ∧ es1 ≡ₚ es2.
Proof.
  apply (growth_in_place_is_rehash Witness.hash 16 eq_refl Witness.aligned16); [by vm_compute|apply Witness.session_allowed|done].
Defined.
