(* ===== verification/Codec.v ===== *)
(** * Text encodings

    src/src/codec/Base64.h, src/src/codec/URICode.h and the [split] functions of
    src/src/misc/StringUtility.h.

    A buffer is the list of its bytes.  Reading outside a table or behind the end of a
    string is [Abort], like a failed [SCHECK]. *)
From S2P Require Import Prelude Archive Serialize.

Abbreviation text := String.list_byte_of_string.

(** An access to an array. *)
Definition elem_at {A} (l : list A) (i : Z) : result A :=
  if i <? 0 then Abort else match l !! Z.to_nat i with Some x => Ok x | None => Abort end.

(** [c >= lo && c <= hi] for characters. *)
Definition between (lo hi c : byte) : bool :=
  (byte.unsigned lo <=? byte.unsigned c) && (byte.unsigned c <=? byte.unsigned hi).

(** Every byte, for checks by computation. *)
Definition all_bytes : list byte := byte.of_Z <$> seqZ 0 256.

Lemma elem_of_all_bytes b : b ∈ all_bytes.
Proof.
  apply list_elem_of_fmap. exists (byte.unsigned b). split; [by rewrite byte.of_Z_unsigned|].
  apply elem_of_seqZ. pose proof (byte.unsigned_range b). lia.
Qed.

Lemma byte_check (p : byte → bool) : forallb p all_bytes = true → ∀ b, p b = true.
Proof. intros H b. rewrite forallb_forall in H. apply H, list_elem_of_In, elem_of_all_bytes. Qed.

Module Base64.
Definition encode_table : list byte := text "ABCDEFGHIJKLMNOPQRSTUVWXYZabcdefghijklmnopqrstuvwxyz0123456789+/".

Definition decode_table : list Z :=
  replicate 24 0 ++ replicate 19 0 ++ [62] ++ [0; 0; 0] ++ [63] ++
  [52; 53; 54; 55; 56; 57; 58; 59; 60; 61] ++ replicate 7 0 ++
  [0; 1; 2; 3; 4; 5; 6; 7; 8; 9; 10; 11; 12] ++ [13; 14; 15; 16; 17; 18; 19; 20; 21; 22; 23; 24; 25] ++
  replicate 6 0 ++ [26; 27; 28; 29; 30; 31; 32; 33; 34; 35; 36; 37; 38] ++
  [39; 40; 41; 42; 43; 44; 45; 46; 47; 48; 49; 50; 51].

Definition is_base64 (c : byte) : bool :=
  bool_decide (c = Byte.x2b) || bool_decide (c = Byte.x2f) || between Byte.x30 Byte.x39 c
  || between Byte.x41 Byte.x5a c || between Byte.x61 Byte.x7a c.

Definition pad : byte := Byte.x3d.

(** The loop over the groups of three bytes and the [switch] on the rest. *)
Fixpoint encode_groups (input : list byte) : result (list byte) :=
  let enc i := elem_at encode_table i in
  let u := byte.unsigned in
  match input with
  | b0 :: b1 :: b2 :: rest =>
      c0 ← enc (Z.shiftr (u b0) 2);
      c1 ← enc (Z.land (Z.lor (Z.shiftl (u b0) 4) (Z.shiftr (u b1) 4)) 0x3F);
      c2 ← enc (Z.land (Z.lor (Z.shiftl (u b1) 2) (Z.shiftr (u b2) 6)) 0x3F);
      c3 ← enc (Z.land (u b2) 0x3F);
      out ← encode_groups rest;
      Ok (c0 :: c1 :: c2 :: c3 :: out)
  | [b0] =>
      c0 ← enc (Z.shiftr (Z.land (u b0) 0xFC) 2);
      c1 ← enc (Z.shiftl (Z.land (u b0) 0x03) 4);
      Ok [c0; c1; pad; pad]
  | [b0; b1] =>
      c0 ← enc (Z.shiftr (Z.land (u b0) 0xFC) 2);
      c1 ← enc (Z.lor (Z.shiftl (Z.land (u b0) 0x03) 4) (Z.shiftr (Z.land (u b1) 0xF0) 4));
      c2 ← enc (Z.shiftl (Z.land (u b1) 0x0F) 2);
      Ok [c0; c1; c2; pad]
  | [] => Ok []
  end.

(** [base64_encode(input, in_len, output)]; [None] is a null pointer. *)
Definition base64_encode (input : option (list byte)) : result (list byte) :=
  _ ← SCHECK (match input with Some _ => true | None => false end);
  encode_groups (default [] input).

(** [input[i]] of a [std::string], whose end reads as a zero. *)
Definition char_at (input : list byte) (i : nat) : result byte :=
  if decide (i = length input) then Ok Byte.x00
  else match input !! i with Some c => Ok c | None => Abort end.

(** [decode_table[static_cast<size_t>(c)]]; [char] is signed. *)
Definition decoded (c : byte) : result Z := elem_at decode_table (u64 (swrap 8 (byte.unsigned c))).

(** One iteration of the loop of [base64_decode]: the bytes it writes and the new [in_idx]. *)
Definition decode_group (input : list byte) (in_idx : nat) : result (list byte * nat) :=
  c0 ← char_at input in_idx;
  _ ← SCHECK (is_base64 c0);
  d0 ← decoded c0;
  c1 ← char_at input (in_idx + 1);
  d1 ← decoded c1;
  let value := u32 (Z.shiftl d0 18 + Z.shiftl d1 12) in
  let o0 := byte.of_Z (Z.shiftr (Z.land value 0x00FF0000) 16) in
  c2 ← char_at input (in_idx + 2);
  if decide (c2 = pad) then Ok ([o0], (in_idx + 2)%nat) else
  _ ← SCHECK (is_base64 c2);
  d2 ← decoded c2;
  let value := u32 (value + Z.shiftl d2 6) in
  let o1 := byte.of_Z (Z.shiftr (Z.land value 0x0000FF00) 8) in
  c3 ← char_at input (in_idx + 3);
  if decide (c3 = pad) then Ok ([o0; o1], (in_idx + 3)%nat) else
  _ ← SCHECK (is_base64 c3);
  d3 ← decoded c3;
  let value := u32 (value + d3) in
  let o2 := byte.of_Z (Z.land value 0x000000FF) in
  Ok ([o0; o1; o2], (in_idx + 4)%nat).

(** The loop runs once for every four characters or part of them. *)
Fixpoint decode_loop (n : nat) (input : list byte) (in_idx : nat) : result (list byte) :=
  match n with
  | O => Ok []
  | S n =>
      '(out, in_idx) ← decode_group input in_idx;
      rest ← decode_loop n input in_idx;
      Ok (out ++ rest)
  end.

(** [base64_decode(input, output, out_len)]: the bytes before the final zero. *)
Definition base64_decode (input : list byte) : result (list byte) :=
  decode_loop ((length input + 3) / 4)%nat input 0.

(** ** The reference: RFC 4648

    The bits of the bytes, the most significant first, are cut into groups of six; the
    last group is filled with zeros; the text is filled with [=] to a multiple of four
    characters. *)
Definition bits_of (b : byte) : list bool := (λ i, Z.testbit (byte.unsigned b) (7 - i)) <$> seqZ 0 8.
Definition value_of (bits : list bool) : Z := foldl (λ z b, 2 * z + Z.b2z b) 0 bits.

Fixpoint sextets (fuel : nat) (bits : list bool) : list Z :=
  match fuel, bits with
  | O, _ | _, [] => []
  | S fuel, _ =>
      let g := take 6 bits in
      value_of (g ++ replicate (6 - length g) false) :: sextets fuel (drop 6 bits)
  end.

Definition rfc4648 (input : list byte) : list byte :=
  let bits := concat (bits_of <$> input) in
  let chars := (λ z, default pad (encode_table !! Z.to_nat z)) <$> sextets (length bits) bits in
  chars ++ replicate ((4 - length chars `mod` 4) `mod` 4) pad.

(** ** Lemmas *)

(** A loop over groups of three. *)
Lemma groups_ind (P : list byte → Prop) :
  P [] → (∀ b0, P [b0]) → (∀ b0 b1, P [b0; b1]) → (∀ b0 b1 b2 l, P l → P (b0 :: b1 :: b2 :: l)) → ∀ l, P l.
Proof.
  intros H0 H1 H2 H3. fix IH 1. intros [|b0 [|b1 [|b2 l]]]; [done|done|done|]. apply H3, IH.
Qed.

(** The four values of a group. *)
Definition z0 (b0 : byte) : Z := byte.unsigned b0 / 4.
Definition z1 (b0 b1 : byte) : Z := byte.unsigned b0 mod 4 * 16 + byte.unsigned b1 / 16.
Definition z2 (b1 b2 : byte) : Z := byte.unsigned b1 mod 16 * 4 + byte.unsigned b2 / 64.
Definition z3 (b2 : byte) : Z := byte.unsigned b2 mod 64.
Definition sx (z : Z) : byte := default pad (encode_table !! Z.to_nat z).

(** Facts about one byte, and about the two parts of a value. *)
Lemma byte_values b :
  let u := byte.unsigned b in
  Z.shiftr u 2 = u / 4 ∧ Z.shiftr (Z.land u 0xFC) 2 = u / 4 ∧
  Z.land (Z.shiftl u 4) 0x3F = u mod 4 * 16 ∧ Z.shiftl (Z.land u 0x03) 4 = u mod 4 * 16 ∧
  Z.land (Z.shiftr u 4) 0x3F = u / 16 ∧ Z.shiftr (Z.land u 0xF0) 4 = u / 16 ∧
  Z.land (Z.shiftl u 2) 0x3F = u mod 16 * 4 ∧ Z.shiftl (Z.land u 0x0F) 2 = u mod 16 * 4 ∧
  Z.land (Z.shiftr u 6) 0x3F = u / 64 ∧ Z.land u 0x3F = u mod 64.
Proof.
  cbn zeta. rewrite <- !Z.eqb_eq, <- !andb_true_iff. revert b. apply byte_check. vm_compute. reflexivity.
Qed.

Lemma byte_bits b :
  value_of (take 6 (bits_of b)) = byte.unsigned b / 4 ∧ value_of (drop 6 (bits_of b)) = byte.unsigned b mod 4 ∧
  value_of (take 4 (bits_of b)) = byte.unsigned b / 16 ∧ value_of (drop 4 (bits_of b)) = byte.unsigned b mod 16 ∧
  value_of (take 2 (bits_of b)) = byte.unsigned b / 64 ∧ value_of (drop 2 (bits_of b)) = byte.unsigned b mod 64.
Proof. rewrite <- !Z.eqb_eq, <- !andb_true_iff. revert b. apply byte_check. vm_compute. reflexivity. Qed.

Lemma small_check n (p : Z → bool) : forallb p (seqZ 0 n) = true → ∀ z, 0 ≤ z < n → p z = true.
Proof. intros H z Hz. rewrite forallb_forall in H. apply H, list_elem_of_In, elem_of_seqZ. lia. Qed.

Lemma lor_parts x y :
  (0 ≤ x < 4 → 0 ≤ y < 16 → Z.lor (x * 16) y = x * 16 + y) ∧
  (0 ≤ x < 16 → 0 ≤ y < 4 → Z.lor (x * 4) y = x * 4 + y).
Proof.
  split; intros Hx Hy; apply Z.eqb_eq; revert y Hy; apply small_check;
    [revert x Hx; apply (small_check 4 (λ x, forallb _ _))|revert x Hx; apply (small_check 16 (λ x, forallb _ _))];
    vm_compute; reflexivity.
Qed.

Lemma byte_parts b : let u := byte.unsigned b in
  0 ≤ u mod 4 < 4 ∧ 0 ≤ u mod 16 < 16 ∧ 0 ≤ u / 16 < 16 ∧ 0 ≤ u / 64 < 4 ∧ 0 ≤ u / 4 < 64 ∧ 0 ≤ u mod 64 < 64.
Proof. cbn zeta. pose proof (byte.unsigned_range b). change (2 ^ 8) with 256 in *. Z.div_mod_to_equations. lia. Qed.

(** What the code computes. *)
Lemma code_values b0 b1 :
  let u := byte.unsigned in
  Z.land (Z.lor (Z.shiftl (u b0) 4) (Z.shiftr (u b1) 4)) 0x3F = z1 b0 b1 ∧
  Z.lor (Z.shiftl (Z.land (u b0) 0x03) 4) (Z.shiftr (Z.land (u b1) 0xF0) 4) = z1 b0 b1 ∧
  Z.land (Z.lor (Z.shiftl (u b0) 2) (Z.shiftr (u b1) 6)) 0x3F = z2 b0 b1.
Proof.
  cbn zeta. rewrite !Z.land_lor_distr_l. destruct (byte_values b0) as (_&_&->&->&_&_&->&_&_&_).
  destruct (byte_values b1) as (_&_&_&_&->&->&_&_&->&_).
  pose proof (byte_parts b0). pose proof (byte_parts b1). cbn zeta in *. unfold z1, z2.
  split; [|split]; apply lor_parts; lia.
Qed.

(** What the reference computes. *)
Lemma value_of_app l1 l2 : value_of (l1 ++ l2) = value_of l1 * 2 ^ Z.of_nat (length l2) + value_of l2.
Proof.
  unfold value_of. rewrite foldl_app. generalize (foldl (λ z b, 2 * z + Z.b2z b) 0 l1). intros z.
  assert (∀ l a c, foldl (λ z b, 2 * z + Z.b2z b) (a + c) l =
    a * 2 ^ Z.of_nat (length l) + foldl (λ z b, 2 * z + Z.b2z b) c l) as E.
  { induction l as [|b l IH]; intros a c; cbn [foldl length]; [lia|].
    replace (2 * (a + c) + Z.b2z b) with (2 * a + (2 * c + Z.b2z b)) by lia. rewrite IH.
    rewrite Nat2Z.inj_succ, Z.pow_succ_r by lia. lia. }
  rewrite <- (Z.add_0_r z) at 1. apply E.
Qed.

Lemma length_bits b : length (bits_of b) = 8%nat.
Proof. done. Qed.

Lemma bits_values b0 b1 :
  value_of (take 6 (bits_of b0)) = z0 b0 ∧ value_of (drop 6 (bits_of b0) ++ take 4 (bits_of b1)) = z1 b0 b1 ∧
  value_of (drop 4 (bits_of b0) ++ take 2 (bits_of b1)) = z2 b0 b1 ∧ value_of (drop 2 (bits_of b0)) = z3 b0.
Proof.
  rewrite !value_of_app, !length_take, !length_bits. destruct (byte_bits b0) as (->&->&_&->&_&->).
  destruct (byte_bits b1) as (_&_&->&_&->&_). done.
Qed.

(** *** The text *)
Lemma enc_ok z : 0 ≤ z < 64 → elem_at encode_table z = Ok (sx z).
Proof.
  intros Hz. unfold elem_at, sx. rewrite (proj2 (Z.ltb_ge z 0)) by lia.
  destruct (lookup_lt_is_Some_2 encode_table (Z.to_nat z)) as [c ->]; [|done].
  change (length encode_table) with 64%nat. lia.
Qed.

Lemma z_ranges b0 b1 : 0 ≤ z0 b0 < 64 ∧ 0 ≤ z1 b0 b1 < 64 ∧ 0 ≤ z2 b0 b1 < 64 ∧ 0 ≤ z3 b0 < 64.
Proof. pose proof (byte_parts b0). pose proof (byte_parts b1). cbn zeta in *. unfold z0, z1, z2, z3. lia. Qed.

(** The text in groups. *)
Fixpoint groups (input : list byte) : list byte :=
  match input with
  | b0 :: b1 :: b2 :: rest => sx (z0 b0) :: sx (z1 b0 b1) :: sx (z2 b1 b2) :: sx (z3 b2) :: groups rest
  | [b0] => [sx (z0 b0); sx (z1 b0 Byte.x00); pad; pad]
  | [b0; b1] => [sx (z0 b0); sx (z1 b0 b1); sx (z2 b1 Byte.x00); pad]
  | [] => []
  end.

Lemma encode_groups_ok input : encode_groups input = Ok (groups input).
Proof.
  induction input as [|b0|b0 b1|b0 b1 b2 l IH] using groups_ind; [done|..]; cbn [encode_groups groups];
    destruct (byte_values b0) as (Ea&Eb&_&Ec&_&_&_&_&_&_); try destruct (byte_values b1) as (_&_&_&_&_&_&_&Ed&_&_).
  - rewrite Eb, Ec. destruct (z_ranges b0 Byte.x00) as (?&Hz&_&_).
    rewrite (enc_ok (byte.unsigned b0 / 4)) by done. step_ok. unfold z1 in *. change (byte.unsigned Byte.x00 / 16) with 0 in *.
    rewrite Z.add_0_r in *. by rewrite enc_ok.
  - rewrite Eb, Ed. destruct (code_values b0 b1) as (_&->&_). destruct (z_ranges b0 b1) as (?&?&_&_).
    destruct (z_ranges b1 Byte.x00) as (_&_&Hz&_).
    rewrite (enc_ok (byte.unsigned b0 / 4)) by done. step_ok. rewrite (enc_ok (z1 b0 b1)) by done. step_ok.
    unfold z2 in *. change (byte.unsigned Byte.x00 / 64) with 0 in *. rewrite Z.add_0_r in *. by rewrite enc_ok.
  - destruct (byte_values b2) as (_&_&_&_&_&_&_&_&_&Ef). rewrite Ea, Ef, IH.
    destruct (code_values b0 b1) as (->&_&_). destruct (code_values b1 b2) as (_&_&->).
    destruct (z_ranges b0 b1) as (?&?&_&_). destruct (z_ranges b1 b2) as (_&_&?&_). destruct (z_ranges b2 b2) as (_&_&_&?).
    rewrite (enc_ok (byte.unsigned b0 / 4)) by done. step_ok.
    rewrite (enc_ok (z1 b0 b1)) by done. step_ok. rewrite (enc_ok (z2 b1 b2)) by done. step_ok.
    by rewrite (enc_ok (byte.unsigned b2 mod 64)).
Qed.

(** *** The reference *)
Lemma sextets_fuel f : ∀ f' bits, (length bits ≤ f)%nat → (length bits ≤ f')%nat → sextets f bits = sextets f' bits.
Proof.
  induction f as [|f IH]; intros [|f'] [|b bits]; cbn [length]; intros; try done; try lia.
  cbn [sextets]. f_equal. apply IH; len.
Qed.

Lemma sextets_group fuel g bits :
  length g = 6%nat → (length (g ++ bits) ≤ fuel)%nat →
  sextets fuel (g ++ bits) = value_of g :: sextets (length bits) bits.
Proof.
  intros Hg Hf. rewrite length_app in Hf. destruct fuel as [|fuel]; [lia|]. destruct g as [|b g]; [done|].
  change (sextets (S fuel) ((b :: g) ++ bits)) with
    (value_of (take 6 ((b :: g) ++ bits) ++ replicate (6 - length (take 6 ((b :: g) ++ bits))) false)
      :: sextets fuel (drop 6 ((b :: g) ++ bits))).
  rewrite take_app_length', drop_app_length', Hg by done. cbn [Nat.sub replicate]. rewrite app_nil_r. f_equal.
  apply sextets_fuel; lia.
Qed.

Definition chars (input : list byte) : list byte :=
  let bits := concat (bits_of <$> input) in sx <$> sextets (length bits) bits.

Lemma chars_groups b0 b1 b2 l :
  chars (b0 :: b1 :: b2 :: l) = sx (z0 b0) :: sx (z1 b0 b1) :: sx (z2 b1 b2) :: sx (z3 b2) :: chars l.
Proof.
  unfold chars. cbn zeta. rewrite !fmap_cons. cbn [concat].
  set (rest := concat (bits_of <$> l)). set (bits := bits_of b0 ++ _).
  assert (E : bits = take 6 (bits_of b0) ++ (drop 6 (bits_of b0) ++ take 4 (bits_of b1)) ++
    (drop 4 (bits_of b1) ++ take 2 (bits_of b2)) ++ drop 2 (bits_of b2) ++ rest).
  { unfold bits. rewrite <- (take_drop 6 (bits_of b0)) at 1. rewrite <- (take_drop 4 (bits_of b1)) at 1.
    rewrite <- (take_drop 2 (bits_of b2)) at 1. by rewrite <- !app_assoc. }
  generalize dependent bits. intros bits ->.
  do 4 (rewrite sextets_group; [|done|len]). cbn [fmap list_fmap].
  destruct (bits_values b0 b1) as (->&->&_&_). destruct (bits_values b1 b2) as (_&_&->&_).
  destruct (bits_values b2 b2) as (_&_&_&->). done.
Qed.

Lemma sextets_last bits :
  (0 < length bits < 6)%nat →
  sextets (length bits) bits = [value_of (bits ++ take (6 - length bits) (bits_of Byte.x00))].
Proof.
  intros Hl. destruct bits as [|b bits]; [cbn in Hl; lia|]. cbn [sextets length].
  rewrite (take_ge (b :: bits)), (drop_ge (b :: bits)) by lia. change (S (length bits)) with (length (b :: bits)).
  assert (replicate (6 - length (b :: bits)) false = take (6 - length (b :: bits)) (bits_of Byte.x00)) as ->.
  { cbn [length] in *. destruct (length bits) as [|[|[|[|[|n]]]]]; done || lia. }
  by destruct (length bits).
Qed.

Lemma chars_rest b0 b1 :
  chars [b0] = [sx (z0 b0); sx (z1 b0 Byte.x00)] ∧
  chars [b0; b1] = [sx (z0 b0); sx (z1 b0 b1); sx (z2 b1 Byte.x00)].
Proof.
  destruct (bits_values b0 Byte.x00) as (E0&E1&_&_). destruct (bits_values b0 b1) as (_&F1&_&_).
  destruct (bits_values b1 Byte.x00) as (_&_&F2&_). unfold chars. cbn zeta. rewrite !fmap_cons. cbn [concat fmap list_fmap].
  rewrite !app_nil_r. split.
  - rewrite <- (take_drop 6 (bits_of b0)) at 2. rewrite sextets_group; [|done|by rewrite take_drop].
    rewrite sextets_last by (rewrite length_drop, length_bits; lia). rewrite length_drop, length_bits. change (6 - (8 - 6))%nat with 4%nat.
    cbn [fmap list_fmap]. by rewrite E0, E1.
  - assert (bits_of b0 ++ bits_of b1 = take 6 (bits_of b0) ++ (drop 6 (bits_of b0) ++ take 4 (bits_of b1)) ++
      drop 4 (bits_of b1)) as ->.
    { rewrite <- (take_drop 6 (bits_of b0)) at 1. rewrite <- (take_drop 4 (bits_of b1)) at 1. by rewrite <- !app_assoc. }
    do 2 (rewrite sextets_group; [|done|len]). rewrite sextets_last by (rewrite length_drop, length_bits; lia).
    rewrite length_drop, length_bits. change (6 - (8 - 4))%nat with 2%nat. cbn [fmap list_fmap]. by rewrite E0, F1, F2.
Qed.

Lemma rfc4648_groups input : rfc4648 input = groups input.
Proof.
  change (rfc4648 input) with (chars input ++ replicate ((4 - length (chars input) `mod` 4) `mod` 4) pad).
  induction input as [|b0|b0 b1|b0 b1 b2 l IH] using groups_ind; cbn [groups]; [done|..].
  - by rewrite (proj1 (chars_rest b0 b0)).
  - by rewrite (proj2 (chars_rest b0 b1)).
  - rewrite chars_groups, <- IH. cbn [length app]. do 4 f_equal. do 3 f_equal.
    change (S (S (S (S (length (chars l)))))) with (4 + length (chars l))%nat.
    rewrite Nat.Div0.add_mod. change (4 `mod` 4)%nat with 0%nat. by rewrite Nat.add_0_l, Nat.Div0.mod_mod.
Qed.

(** *** Decoding *)
Lemma sx_ok z : 0 ≤ z < 64 → is_base64 (sx z) = true ∧ decoded (sx z) = Ok z ∧ sx z ≠ pad.
Proof.
  intros Hz.
  assert (E : is_base64 (sx z) && match decoded (sx z) with Ok d => d =? z | Abort => false end
    && negb (bool_decide (sx z = pad)) = true).
  { revert z Hz. apply small_check. vm_compute. reflexivity. }
  apply andb_prop in E as [[Hb Hd]%andb_prop Hp]. split; [done|]. split.
  - destruct (decoded (sx z)); [|done]. by apply Z.eqb_eq in Hd as ->.
  - by apply negb_true_iff, bool_decide_eq_false in Hp.
Qed.

Lemma char_at_some input i c : input !! i = Some c → char_at input i = Ok c.
Proof. intros Hi. unfold char_at. rewrite decide_False, Hi; [done|]. intros ->. apply lookup_lt_Some in Hi. lia. Qed.

(** One byte of the value. *)
Lemma out_byte v k b : 0 ≤ k → v / 2 ^ k mod 2 ^ 8 = byte.unsigned b → 
  byte.of_Z (Z.shiftr (Z.land v (Z.shiftl 0xFF k)) k) = b.
Proof.
  intros Hk Hv. rewrite Z.shiftr_land, Z.shiftr_shiftl_l, Z.sub_diag, Z.shiftl_0_r by done.
  change 255 with (Z.ones 8). rewrite Z.land_ones, Z.shiftr_div_pow2, Hv by done. apply byte.of_Z_unsigned.
Qed.

(** The bytes of a value. *)
Lemma values_back b0 b1 b2 :
  let v0 := u32 (Z.shiftl (z0 b0) 18 + Z.shiftl (z1 b0 b1) 12) in
  let v1 := u32 (v0 + Z.shiftl (z2 b1 b2) 6) in
  let v2 := u32 (v1 + z3 b2) in
  byte.of_Z (Z.shiftr (Z.land v0 0x00FF0000) 16) = b0 ∧
  byte.of_Z (Z.shiftr (Z.land v1 0x0000FF00) 8) = b1 ∧
  byte.of_Z (Z.land v2 0x000000FF) = b2.
Proof.
  cbn zeta. rewrite !Z.shiftl_mul_pow2 by done. unfold z0, z1, z2, z3.
  pose proof (byte.unsigned_range b0). pose proof (byte.unsigned_range b1). pose proof (byte.unsigned_range b2).
  assert (E : byte.unsigned b0 / 4 * 2 ^ 18 + (byte.unsigned b0 mod 4 * 16 + byte.unsigned b1 / 16) * 2 ^ 12 =
    byte.unsigned b0 * 2 ^ 16 + byte.unsigned b1 / 16 * 2 ^ 12) by (Z.div_mod_to_equations; lia).
  rewrite E. rewrite (wrap_small 32) by (unfold in_unsigned; Z.div_mod_to_equations; lia).
  assert (E1 : byte.unsigned b0 * 2 ^ 16 + byte.unsigned b1 / 16 * 2 ^ 12 +
    (byte.unsigned b1 mod 16 * 4 + byte.unsigned b2 / 64) * 2 ^ 6 =
    byte.unsigned b0 * 2 ^ 16 + byte.unsigned b1 * 2 ^ 8 + byte.unsigned b2 / 64 * 2 ^ 6)
    by (Z.div_mod_to_equations; lia).
  rewrite E1. rewrite (wrap_small 32) by (unfold in_unsigned; Z.div_mod_to_equations; lia).
  rewrite (wrap_small 32) by (unfold in_unsigned; Z.div_mod_to_equations; lia).
  split; [|split].
  - apply (out_byte _ 16); [done|]. Z.div_mod_to_equations; lia.
  - apply (out_byte _ 8); [done|]. Z.div_mod_to_equations; lia.
  - rewrite <- (Z.shiftr_0_r (Z.land _ _)). apply (out_byte _ 0); [done|]. Z.div_mod_to_equations; lia.
Qed.

(** The characters of a group. *)
Section group.
Context (input pre post : list byte).

Lemma group_at g i c : input = pre ++ g ++ post → g !! i = Some c → char_at input (length pre + i) = Ok c.
Proof.
  intros -> Hg. apply char_at_some. rewrite lookup_app_r by lia.
  replace (length pre + i - length pre)%nat with i by lia. apply lookup_app_l_Some, Hg.
Qed.

Lemma decode_three b0 b1 b2 :
  input = pre ++ [sx (z0 b0); sx (z1 b0 b1); sx (z2 b1 b2); sx (z3 b2)] ++ post →
  decode_group input (length pre) = Ok ([b0; b1; b2], (length pre + 4)%nat).
Proof.
  intros Hi. destruct (z_ranges b0 b1) as (H0&H1&_&_). destruct (z_ranges b1 b2) as (_&_&H2&_). destruct (z_ranges b2 b2) as (_&_&_&H3).
  destruct (sx_ok _ H0) as (B0&D0&_), (sx_ok _ H1) as (_&D1&_), (sx_ok _ H2) as (B2&D2&P2), (sx_ok _ H3) as (B3&D3&P3).
  destruct (values_back b0 b1 b2) as (V0&V1&V2).
  pose proof (group_at _ 0 _ Hi eq_refl) as C0. rewrite Nat.add_0_r in C0.
  unfold decode_group. rewrite C0. step_ok. rewrite B0. step_ok. rewrite D0. step_ok.
  rewrite (group_at _ 1 _ Hi eq_refl). step_ok. rewrite D1. step_ok.
  rewrite (group_at _ 2 _ Hi eq_refl). step_ok. rewrite decide_False, B2 by done. step_ok. rewrite D2. step_ok.
  rewrite (group_at _ 3 _ Hi eq_refl). step_ok. rewrite decide_False, B3 by done. step_ok. rewrite D3. step_ok.
  by rewrite V0, V1, V2.
Qed.

Lemma decode_two b0 b1 :
  input = pre ++ [sx (z0 b0); sx (z1 b0 b1); sx (z2 b1 Byte.x00); pad] ++ post →
  decode_group input (length pre) = Ok ([b0; b1], (length pre + 3)%nat).
Proof.
  intros Hi. destruct (z_ranges b0 b1) as (H0&H1&_&_). destruct (z_ranges b1 Byte.x00) as (_&_&H2&_).
  destruct (sx_ok _ H0) as (B0&D0&_), (sx_ok _ H1) as (_&D1&_), (sx_ok _ H2) as (B2&D2&P2).
  destruct (values_back b0 b1 Byte.x00) as (V0&V1&_).
  pose proof (group_at _ 0 _ Hi eq_refl) as C0. rewrite Nat.add_0_r in C0.
  unfold decode_group. rewrite C0. step_ok. rewrite B0. step_ok. rewrite D0. step_ok.
  rewrite (group_at _ 1 _ Hi eq_refl). step_ok. rewrite D1. step_ok.
  rewrite (group_at _ 2 _ Hi eq_refl). step_ok. rewrite decide_False, B2 by done. step_ok. rewrite D2. step_ok.
  rewrite (group_at _ 3 _ Hi eq_refl). step_ok. rewrite decide_True by done. by rewrite V0, V1.
Qed.

Lemma decode_one b0 :
  input = pre ++ [sx (z0 b0); sx (z1 b0 Byte.x00); pad; pad] ++ post →
  decode_group input (length pre) = Ok ([b0], (length pre + 2)%nat).
Proof.
  intros Hi. destruct (z_ranges b0 Byte.x00) as (H0&H1&_&_). destruct (sx_ok _ H0) as (B0&D0&_), (sx_ok _ H1) as (_&D1&_).
  destruct (values_back b0 Byte.x00 Byte.x00) as (V0&_&_).
  pose proof (group_at _ 0 _ Hi eq_refl) as C0. rewrite Nat.add_0_r in C0.
  unfold decode_group. rewrite C0. step_ok. rewrite B0. step_ok. rewrite D0. step_ok.
  rewrite (group_at _ 1 _ Hi eq_refl). step_ok. rewrite D1. step_ok.
  rewrite (group_at _ 2 _ Hi eq_refl). step_ok. rewrite decide_True by done. by rewrite V0.
Qed.
End group.

Lemma length_groups input : length (groups input) = (4 * ((length input + 2) / 3))%nat.
Proof.
  induction input as [|b0|b0 b1|b0 b1 b2 l IH] using groups_ind; [done..|]. cbn [groups length]. rewrite IH.
  replace (S (S (S (length l))) + 2)%nat with (length l + 2 + 1 * 3)%nat by lia. rewrite Nat.div_add by done. lia.
Qed.

Lemma decode_groups input : ∀ pre,
  decode_loop ((length input + 2) / 3)%nat (pre ++ groups input) (length pre) = Ok input.
Proof.
  induction input as [|b0|b0 b1|b0 b1 b2 l IH] using groups_ind; intros pre; [done|..].
  - change ((length [b0] + 2) / 3)%nat with 1%nat. cbn [decode_loop].
    rewrite (decode_one _ pre [] b0); [done|]. by rewrite app_nil_r.
  - change ((length [b0; b1] + 2) / 3)%nat with 1%nat. cbn [decode_loop].
    rewrite (decode_two _ pre [] b0 b1); [done|]. by rewrite app_nil_r.
  - cbn [length]. replace (S (S (S (length l))) + 2)%nat with (length l + 2 + 1 * 3)%nat by lia.
    rewrite Nat.div_add, Nat.add_comm by done. cbn [Nat.add decode_loop groups].
    rewrite (decode_three _ pre (groups l) b0 b1 b2) by done. step_ok.
    specialize (IH (pre ++ [sx (z0 b0); sx (z1 b0 b1); sx (z2 b1 b2); sx (z3 b2)])).
    rewrite <- app_assoc, length_app in IH. cbn [app length] in IH. by rewrite IH.
Qed.
End Base64.

Module URICode.
Definition _hex : list byte := text "0123456789ABCDEF".

(** [isalnum] in the C locale. *)
Definition isalnum (c : byte) : bool :=
  between Byte.x30 Byte.x39 c || between Byte.x41 Byte.x5a c || between Byte.x61 Byte.x7a c.

Definition plain (c : byte) : bool :=
  isalnum c || bool_decide (c = Byte.x5f) || bool_decide (c = Byte.x2d)
  || bool_decide (c = Byte.x2e) || bool_decide (c = Byte.x7e).

(** [encode]; [char] is signed, and so is its shift. *)
Fixpoint encode (uri : list byte) : result (list byte) :=
  match uri with
  | [] => Ok []
  | c :: uri =>
      out ← (if plain c then Ok [c]
             else h ← elem_at _hex (Z.shiftr (swrap 8 (byte.unsigned c)) 4);
                  l ← elem_at _hex (Z.land (swrap 8 (byte.unsigned c)) 0x0F);
                  Ok [Byte.x25; h; l]);
      rest ← encode uri;
      Ok (out ++ rest)
  end.

Definition letter_to_hex (c : byte) : result Z :=
  let z := byte.unsigned c in
  if between Byte.x41 Byte.x46 c then Ok (z + 10 - 65)
  else if between Byte.x61 Byte.x66 c then Ok (z + 10 - 97)
  else if between Byte.x30 Byte.x39 c then Ok (z - 48)
  else Abort.

Fixpoint decode (uri : list byte) : result (list byte) :=
  match uri with
  | [] => Ok []
  | c :: uri =>
      if decide (c = Byte.x25) then
        match uri with
        | h :: l :: uri =>
            h ← letter_to_hex h;
            l ← letter_to_hex l;
            rest ← decode uri;
            Ok (byte.of_Z (Z.lor (Z.shiftl h 4) l) :: rest)
        | _ => Abort
        end
      else rest ← decode uri; Ok (c :: rest)
  end.

(** What [encode] makes of one character. *)
Lemma encode_char c :
  match encode [c] with
  | Ok e => byte.unsigned c < 128 ∧ Forall (λ x, plain x = true ∨ x = Byte.x25) e ∧
      ∀ rest, decode (e ++ rest) = (r ← decode rest; Ok (c :: r))
  | Abort => 128 ≤ byte.unsigned c
  end.
Proof.
  assert (Hc : match encode [c] with
    | Ok [d] => (byte.unsigned c <? 128) && plain d && bool_decide (d = c) && negb (bool_decide (c = Byte.x25))
    | Ok [p; h; l] => (byte.unsigned c <? 128) && bool_decide (p = Byte.x25) && plain h && plain l
        && match letter_to_hex h, letter_to_hex l with
           | Ok x, Ok y => bool_decide (byte.of_Z (Z.lor (Z.shiftl x 4) y) = c) | _, _ => false end
    | Ok _ => false
    | Abort => 128 <=? byte.unsigned c
    end = true) by (revert c; apply byte_check; vm_compute; reflexivity).
  destruct (encode [c]) as [[|p [|h [|l [|]]]]|]; try done; [| |by apply Z.leb_le].
  - apply andb_prop in Hc as [[[Hr Hp]%andb_prop Hd]%andb_prop Hn]. apply bool_decide_eq_true in Hd as ->.
    apply negb_true_iff, bool_decide_eq_false in Hn. split; [by apply Z.ltb_lt|]. split; [by apply Forall_singleton; left|].
    intros rest. cbn [app decode]. by rewrite decide_False.
  - apply andb_prop in Hc as [[[[Hr Hp]%andb_prop Hh]%andb_prop Hl]%andb_prop Hv]. apply bool_decide_eq_true in Hp as ->.
    split; [by apply Z.ltb_lt|]. split; [rewrite !Forall_cons, Forall_nil; auto|]. intros rest. cbn [app decode]. rewrite decide_True by done.
    destruct (letter_to_hex h), (letter_to_hex l); try done. apply bool_decide_eq_true in Hv. step_ok. by rewrite Hv.
Qed.

Lemma encode_cons c uri : encode (c :: uri) = (e ← encode [c]; r ← encode uri; Ok (e ++ r)).
Proof.
  cbn [encode]. destruct (if plain c then _ else _) as [out|]; [|done]. step_ok. by rewrite app_nil_r.
Qed.
End URICode.

(** ** Properties *)

(** C36: Base64 is RFC 4648, and decoding undoes it.  For every sequence of bytes
    [base64_encode] gives the text of the reference, which works on the bits: groups of six,
    filled with zeros, four characters for three bytes begun; [base64_decode] gives the bytes
    back; and neither reads outside a table or behind the end of its input. *)
Theorem base64_is_rfc4648 (input : list byte) :
  Base64.base64_encode (Some input) = Ok (Base64.rfc4648 input) ∧
  Base64.base64_decode (Base64.rfc4648 input) = Ok input ∧
  length (Base64.rfc4648 input) = (4 * ((length input + 2) / 3))%nat.
Proof.
  rewrite Base64.rfc4648_groups. split; [apply Base64.encode_groups_ok|]. split; [|apply Base64.length_groups].
  unfold Base64.base64_decode. rewrite Base64.length_groups.
  replace ((4 * ((length input + 2) / 3) + 3) / 4)%nat with ((length input + 2) / 3)%nat
    by (rewrite Nat.mul_comm, Nat.div_add_l by done; change (3 / 4)%nat with 0%nat; lia).
  apply (Base64.decode_groups input []).
Qed.

(** Percent encoding: decoding undoes it, the text has letters, digits, [_], [-], [.], [~]
    and [%] only, and it fails exactly on text that is not ASCII: [*i >> 4] of a negative
    [char] is a negative index. *)
Theorem uri_roundtrip (uri : list byte) :
  match URICode.encode uri with
  | Ok e => URICode.decode e = Ok uri ∧ Forall (λ c, URICode.plain c = true ∨ c = Byte.x25) e ∧
            Forall (λ c, byte.unsigned c < 128) uri
  | Abort => Exists (λ c, 128 ≤ byte.unsigned c) uri
  end.
Proof.
  induction uri as [|c uri IH]; [by repeat split; constructor|]. rewrite URICode.encode_cons.
  pose proof (URICode.encode_char c) as Hc. destruct (URICode.encode [c]) as [e|]; [|by left].
  destruct Hc as (Hr&He&Hd). step_ok. destruct (URICode.encode uri) as [r|]; [|by right]. destruct IH as (IHd&IHf&IHr).
  step_ok. split; [by rewrite Hd, IHd|]. split; [by apply Forall_app|by constructor].
Qed.
