(* ===== verification/Registry.v ===== *)
(** * Service discovery

    src/src/rpc/MasterClient.cpp: [register_rpc_service], [register_server],
    [deregister_server], [get_rpc_service_info] and the two functions of the distributed
    lock as one caller runs them.  The registry of an api is a part of the master's tree:

    - _rpc_/api/name holds the number of the service,
    - _rpc_/api/name/id, owned by the connection of the server, holds its rank.

    The numbers come from [generate_id] and are text, which LexicalCast.v reads. *)
From stdpp Require Import sorting.
From S2P Require Import Prelude Archive Serialize LazyArchive Message Master MasterClient Locks LexicalCast FairQueue RpcContext Nodes.

Definition PATH_RPC : str := lit "_rpc_".
Definition dollar : byte := Byte.x24.

Section operations.
Context {S : Type} `{!MasterService S}.
Context (_root_path : str).

(** [AsyncWatcher::wait]: the condition is evaluated until it holds.  [fuel] bounds the
    evaluations; running out of it stands for a thread that still sleeps. *)
Fixpoint wait (fuel : nat) (pred : S → result (S * bool)) (s : S) : result S :=
  match fuel with
  | O => Abort
  | Datatypes.S fuel => '(s, b) ← pred s; if (b : bool) then Ok s else wait fuel pred s
  end.

(** The locks the caller's process holds, [_acquired_lock], are an argument and a result. *)
Definition acquire_lock (s : S) (c : sock) (acquired : gmap str str) (lock_name : str)
    : result (S * gmap str str) :=
  let lock_path := PATH_LOCK ++ [slash] ++ lock_name in
  '(s, _) ← tree_node_add _root_path s c lock_path [] false;
  '(s, gen) ← tree_node_gen _root_path s c lock_path [] true;
  _ ← SCHECK (negb (bool_decide (gen = [])));
  s ← wait 1 (λ s,
    '(s, b, children) ← tree_node_sub _root_path s c lock_path [];
    _ ← SCHECK b;
    match children with [] => Abort | k :: _ => Ok (s, bool_decide (gen = k)) end) s;
  _ ← SCHECK (bool_decide (acquired !! lock_name = None));
  Ok (s, <[lock_name := lock_path ++ [slash] ++ gen]> acquired).

Definition release_lock (s : S) (c : sock) (acquired : gmap str str) (lock_name : str)
    : result (S * gmap str str) :=
  match acquired !! lock_name with
  | None => Abort
  | Some path =>
      '(s, b) ← tree_node_del _root_path s c path;
      _ ← SCHECK b;
      Ok (s, delete lock_name acquired)
  end.

Definition rpc_key (rpc_service_api rpc_name : str) : str := rpc_service_api ++ [dollar] ++ rpc_name.

(** The body of [register_rpc_service] between the two calls of the lock. *)
Definition find_or_create (s : S) (c : sock) (rpc_service_api rpc_name : str) : result (S * Z) :=
  let path := PATH_RPC ++ [slash] ++ rpc_service_api in
  '(s, _) ← tree_node_add _root_path s c path [] false;
  let path := path ++ [slash] ++ rpc_name in
  '(s, b, info_str) ← tree_node_get _root_path s c path [];
  if (b : bool) then
    rpc_id ← pico_lexical_cast_check int32_t info_str 0;
    Ok (s, rpc_id)
  else
    '(s, id) ← generate_id _root_path s c rpc_service_api;
    let rpc_id := i32 id in
    '(s, _) ← tree_node_add _root_path s c path (to_string rpc_id) false;
    Ok (s, rpc_id).

Definition register_rpc_service (s : S) (c : sock) (acquired : gmap str str)
    (rpc_service_api rpc_name : str) : result (S * gmap str str * Z) :=
  '(s, acquired) ← acquire_lock s c acquired (rpc_key rpc_service_api rpc_name);
  '(s, rpc_id) ← find_or_create s c rpc_service_api rpc_name;
  '(s, acquired) ← release_lock s c acquired (rpc_key rpc_service_api rpc_name);
  Ok (s, acquired, rpc_id).

Definition del_rpc_service_info (s : S) (c : sock) (rpc_service_api rpc_name : str) : result (S * bool) :=
  tree_node_del _root_path s c (PATH_RPC ++ [slash] ++ rpc_service_api ++ [slash] ++ rpc_name).

Definition deregister_rpc_service (s : S) (c : sock) (acquired : gmap str str)
    (rpc_service_api rpc_name : str) : result (S * gmap str str * bool) :=
  '(s, acquired) ← acquire_lock s c acquired (rpc_key rpc_service_api rpc_name);
  '(s, ret) ← del_rpc_service_info s c rpc_service_api rpc_name;
  '(s, acquired) ← release_lock s c acquired (rpc_key rpc_service_api rpc_name);
  Ok (s, acquired, ret).

(** The result: the numbers of the service and of the server, and whether it was added. *)
Definition register_server (s : S) (c : sock) (acquired : gmap str str)
    (rpc_service_api rpc_name : str) (global_rank server_id : Z)
    : result (S * gmap str str * (Z * Z * bool)) :=
  '(s, acquired, rpc_id) ← register_rpc_service s c acquired rpc_service_api rpc_name;
  '(s, server_id) ←
    (if decide (server_id = -1) then
       '(s, id) ← generate_id _root_path s c (rpc_key rpc_service_api rpc_name); Ok (s, i32 id)
     else Ok (s, server_id));
  '(s, b) ← tree_node_add _root_path s c
    (PATH_RPC ++ [slash] ++ rpc_service_api ++ [slash] ++ rpc_name ++ [slash] ++ to_string server_id)
    (to_string global_rank) true;
  Ok (s, acquired, (rpc_id, server_id, b)).

Definition deregister_server (s : S) (c : sock) (rpc_service_api rpc_name : str) (server_id : Z)
    : result (S * bool) :=
  tree_node_del _root_path s c
    (PATH_RPC ++ [slash] ++ rpc_service_api ++ [slash] ++ rpc_name ++ [slash] ++ to_string server_id).

(** The loop over the servers of a service. *)
Fixpoint read_servers (s : S) (c : sock) (path : str) (sids : list str) (acc : list ServerInfo)
    : result (S * list ServerInfo) :=
  match sids with
  | [] => Ok (s, acc)
  | sid :: sids =>
      '(s, b, g_rank) ← tree_node_get _root_path s c (path ++ [slash] ++ sid) [];
      if (b : bool) then
        id ← pico_lexical_cast_check int32_t sid 0;
        rank ← pico_lexical_cast_check int32_t g_rank 0;
        read_servers s c path sids (acc ++ [MkServerInfo id (i16 rank)])
      else read_servers s c path sids acc
  end.

(** [get_rpc_service_info] of one service; [out] is what the caller passed in. *)
Definition get_service (s : S) (c : sock) (rpc_service_api rpc_name : str) (out : RpcServiceInfo)
    : result (S * bool * RpcServiceInfo) :=
  let path := PATH_RPC ++ [slash] ++ rpc_service_api ++ [slash] ++ rpc_name in
  '(s, b, id) ← tree_node_get _root_path s c path [];
  if (b : bool) then
    rpc_id ← pico_lexical_cast_check int32_t id 0;
    '(s, b, sids) ← tree_node_sub _root_path s c path [];
    if (b : bool) then
      '(s, l) ← read_servers s c path sids [];
      Ok (s, true, MkServiceInfo rpc_name rpc_id l)
    else Ok (s, false, MkServiceInfo (rpc_service_name out) rpc_id (servers out))
  else Ok (s, false, out).

Fixpoint read_services (s : S) (c : sock) (rpc_service_api : str) (names : list str)
    (acc : list RpcServiceInfo) : result (S * list RpcServiceInfo) :=
  match names with
  | [] => Ok (s, acc)
  | name :: names =>
      '(s, b, info) ← get_service s c rpc_service_api name (MkServiceInfo [] 0 []);
      read_services s c rpc_service_api names (if (b : bool) then acc ++ [info] else acc)
  end.

(** [get_rpc_service_info] of all services of an api. *)
Definition get_services (s : S) (c : sock) (rpc_service_api : str)
    : result (S * bool * list RpcServiceInfo) :=
  '(s, b, names) ← tree_node_sub _root_path s c (PATH_RPC ++ [slash] ++ rpc_service_api) [];
  if (b : bool) then
    '(s, out) ← read_services s c rpc_service_api names []; Ok (s, true, out)
  else Ok (s, false, []).
End operations.

(** ** The parts of the tree the registry uses *)
Definition small (s : str) : Prop := Z.of_nat (length s) < 2 ^ 32.
Definition name_ok (s : str) : Prop := good_key s ∧ small s.

Section parts.
Context (root : str).

Definition LOCK : str := root ++ PATH_LOCK.
Definition IDS : str := root ++ PATH_GENERATE_ID.
Definition RPC : str := root ++ PATH_RPC.

(** A directory of counters: [child D key] is permanent. *)
Record CounterDir (D : str) (t : tree) : Prop := {
  cd_dir : ∃ v, node t D = Some (None, v);
  cd_key key o v : slash ∉ key → node t (child D key) = Some (o, v) → o = None;
  cd_counter key : slash ∉ key → 0 ≤ counter t (child D key);
}.

(** The nodes of the locks: the lock [held] is held, no other lock is wanted by anyone. *)
Record LockInv (t : tree) (held : option (sock * str * str)) : Prop := {
  lk_dir : CounterDir LOCK t;
  lk_kids key k : slash ∉ key → slash ∉ k →
    node t (child (child LOCK key) k) =
      match held with
      | Some (c, key', k') => if decide (key = key' ∧ k = k') then Some (Some c, []) else None
      | None => None
      end;
}.

(** The nodes of the identifiers. *)
Record IdInv (t : tree) : Prop := {
  id_dir : CounterDir IDS t;
  id_kids key k : slash ∉ key → slash ∉ k → is_Some (node t (child (child IDS key) k)) →
    ∃ n, k = gen_key n ∧ 0 ≤ n < counter t (child IDS key);
}.

Lemma counter_dir_frame D D' t t' :
  CounterDir D t → frame D' t t' → ¬ under D' D → (∀ q, under D q → ¬ under D' q) → CounterDir D t'.
Proof.
  intros [Hd Hk Hc] Hf HD Hun.
  split.
  - by rewrite (proj1 (Hf D HD)).
  - intros key o v. rewrite (proj1 (Hf _ (Hun _ (under_child D key)))). apply Hk.
  - intros key. rewrite (proj2 (Hf _ (Hun _ (under_child D key)))). apply Hc.
Qed.

Lemma lock_inv_frame D' t t' held :
  LockInv t held → frame D' t t' → ¬ under D' LOCK → (∀ q, under LOCK q → ¬ under D' q) →
  LockInv t' held.
Proof.
  intros [Hd Hk] Hf HD Hun. split; [by eapply counter_dir_frame|]. intros key k Hkey Hkk.
  rewrite (proj1 (Hf _ (Hun _ (under_grandchild _ _ k (under_child LOCK key))))). by apply Hk.
Qed.

Lemma id_inv_frame D' t t' :
  IdInv t → frame D' t t' → ¬ under D' IDS → (∀ q, under IDS q → ¬ under D' q) → IdInv t'.
Proof.
  intros [Hd Hk] Hf HD Hun. split; [by eapply counter_dir_frame|]. intros key k.
  rewrite (proj1 (Hf _ (Hun _ (under_grandchild _ _ k (under_child IDS key))))).
  rewrite (proj2 (Hf _ (Hun _ (under_child IDS key)))). apply Hk.
Qed.

(** The directories are apart. *)
Lemma apart (a b : str) :
  slash ∉ a → slash ∉ b → a ≠ b →
  ¬ under (root ++ b) (root ++ a) ∧ ∀ q, under (root ++ a) q → ¬ under (root ++ b) q.
Proof. intros Ha Hb Hab. split; [by apply not_under_sibling|]. intros q. by apply under_disjoint. Qed.

(** *** A new name below a counter *)
Section new_name.
Context (D key : str) (t : tree) (c : sock).
Context (HD : CounterDir D t) (Hkey : slash ∉ key).
Let p := child D key.
Let n := counter t p.
Context (Hroom : n < 2 ^ 31 - 1) (Hfree : node t (child p (gen_key n)) = None).
Let t1 := (t_add t c p [] false).1.
Let t2 := (t_new t1 c p [] true).1.

Lemma added_node q :
  node t1 q = if decide (q = p ∧ node t p = None) then Some (None, []) else node t q.
Proof.
  destruct (cd_dir D t HD) as [v Hv]. unfold t1. destruct (node t p) eqn:Hp.
  - rewrite add_old by by rewrite Hp. rewrite decide_False; [done|]. naive_solver.
  - rewrite (add_new t c p [] false v) by (unfold p; by rewrite ?parent_child). cbn [fst].
    rewrite node_insert. repeat case_decide; naive_solver.
Qed.

Lemma added_counter q : counter t1 q = counter t q.
Proof. unfold t1, t_add, counter. by repeat case_match. Qed.

Lemma added_permanent : ∃ v, node t1 p = Some (None, v).
Proof.
  rewrite added_node. case_decide as Hp; [by eexists|].
  destruct (node t p) as [[o v]|] eqn:E; [|naive_solver].
  by rewrite (cd_key D t HD key o v Hkey E) in *; eexists.
Qed.

Lemma new_name_is : t_new t1 c p [] true =
  (Tree (<[child p (gen_key n) := (Some c, [])]> (t_nodes t1)) (<[p := n + 1]> (t_gen t1)), gen_key n).
Proof.
  unfold t_new. destruct added_permanent as [v ->]. cbn zeta. rewrite added_counter. fold n.
  rewrite added_node, decide_False by (intros [E _]; by apply child_ne in E). rewrite Hfree.
  rewrite swrap_small; [done|lia|]. pose proof (cd_counter D t HD key Hkey). unfold in_signed, n, p in *. lia.
Qed.

Lemma new_name_node q :
  node t2 q = if decide (q = child p (gen_key n)) then Some (Some c, [])
              else if decide (q = p ∧ node t p = None) then Some (None, []) else node t q.
Proof.
  unfold t2. rewrite new_name_is. cbn [fst]. rewrite node_insert, added_node.
  repeat case_decide; naive_solver.
Qed.

Lemma new_name_counter q : counter t2 q = if decide (q = p) then n + 1 else counter t q.
Proof.
  unfold t2. rewrite new_name_is. unfold counter at 1. cbn [fst t_gen]. rewrite lookup_insert.
  case_decide as E; [rewrite decide_True by done; done|]. rewrite decide_False by congruence.
  apply added_counter.
Qed.

Lemma new_name_grandchild key' k :
  slash ∉ key' → slash ∉ k →
  node t2 (child (child D key') k) =
    if decide (key' = key ∧ k = gen_key n) then Some (Some c, []) else node t (child (child D key') k).
Proof.
  intros Hk' Hk. pose proof (gen_key_good n) as [Hg _]. rewrite new_name_node.
  destruct (decide (key' = key ∧ k = gen_key n)) as [[-> ->]|Hne]; [by rewrite decide_True|].
  rewrite decide_False, decide_False; [done| |].
  - intros [E _]. apply child_inj in E as [E _]; [|done|done]. by apply child_ne in E.
  - intros E. apply child_inj in E as [E ->]; [|done|done]. apply child_inj in E as [_ ->]; [|done|done]. naive_solver.
Qed.

Lemma new_name_frame : frame D t t2.
Proof. etrans; [apply (add_frame D t c p [] false)|apply new_frame]; apply under_child. Qed.

Lemma new_name_dir : CounterDir D t2.
Proof.
  split.
  - rewrite (proj1 (new_name_frame D (not_under_self D))). apply HD.
  - intros key' o v Hk'. rewrite new_name_node. rewrite decide_False.
    + case_decide; [by intros [= <- _]|by apply HD].
    + unfold p. intros E. apply child_inj in E as [E _]; [|done|apply gen_key_good].
      symmetry in E. by apply child_ne in E.
  - intros key' Hk'. rewrite new_name_counter. pose proof (cd_counter D t HD key' Hk').
    pose proof (cd_counter D t HD key Hkey). case_decide; unfold n, p in *; lia.
Qed.
End new_name.
End parts.

Lemma names_ok : name_ok PATH_LOCK ∧ name_ok PATH_GENERATE_ID ∧ name_ok PATH_RPC.
Proof. split; [|split]; (split; [split; vm_compute; [set_solver|done]|vm_compute; done]). Qed.

Lemma in_order_singleton k : in_order {[k]} = [k].
Proof.
  apply Permutation_singleton_r. unfold in_order. by rewrite merge_sort_Permutation, elements_singleton.
Qed.

Lemma child_depth D key key' g : slash ∉ key' → slash ∉ g → child D key' ≠ child (child D key) g.
Proof. intros Hk Hg E. apply child_inj in E as [E _]; [|done|done]. symmetry in E. by apply child_ne in E. Qed.

Lemma gen_name_ok n : 0 ≤ n < 2 ^ 31 → name_ok (gen_key n).
Proof. intros. split; [apply gen_key_good|]. unfold small. by rewrite length_gen_key. Qed.

Lemma slash_child p k : slash ∈ child p k.
Proof. unfold child. set_solver. Qed.

(** ** The calls of a caller that is alone *)
Section steps.
Context {S : Type} `{!MasterService S} (root : str).
Context (Hroot : ∃ p, good_path p ∧ root = p ++ [slash]) (Hsmall : small root).

Lemma dir_ok a : name_ok a → path_ok (root ++ a).
Proof.
  intros [Ha Hl]. destruct Hroot as (p&Hp&->). rewrite <- app_assoc. unfold small in *. split.
  - by apply valid_child.
  - len.
Qed.

Lemma key_ok a key : name_ok a → name_ok key → path_ok (root ++ a ++ [slash] ++ key).
Proof.
  intros Ha [Hk Hl]. rewrite path_split. apply path_ok_child; [by apply dir_ok|done|].
  destruct Ha as [_ Ha]. unfold small in *. len.
Qed.

(** [tree_node_add] and [tree_node_gen] of a counter. *)
Lemma add_gen_eq s c a key :
  let D := root ++ a in let p := child D key in let n := counter (ms_view s) p in
  live s → CounterDir D (ms_view s) → name_ok a → name_ok key → n < 2 ^ 31 - 1 →
  node (ms_view s) (child p (gen_key n)) = None →
  ∃ s1 b s2, tree_node_add root s c (a ++ [slash] ++ key) [] false = Ok (s1, b) ∧
    tree_node_gen root s1 c (a ++ [slash] ++ key) [] true = Ok (s2, gen_key n) ∧ live s2 ∧
    ms_view s2 = (t_new (t_add (ms_view s) c p [] false).1 c p [] true).1.
Proof.
  intros D p n Hs HD Ha Hk Hroom Hfree. pose proof (key_ok a key Ha Hk) as Hp. destruct Hk as [[Hsl Hne] Hsm].
  destruct (tree_node_add_eq root s c (a ++ [slash] ++ key) [] false Hs Hp) as (s1&->&Hs1&Hv1); [done|].
  rewrite path_split in Hv1. fold D in Hv1. fold p in Hv1.
  pose proof (cd_counter _ _ HD key Hsl) as H0.
  destruct (tree_node_gen_eq root s1 c (a ++ [slash] ++ key) [] true Hs1 Hp) as (s2&Hg&Hs2&Hv2); [done| |].
  { rewrite path_split, Hv1. unfold n, p, D in *. rewrite added_counter. lia. }
  rewrite path_split in Hg, Hv2. fold D p in Hg, Hv2. rewrite Hv1 in Hg, Hv2.
  exists s1, (t_add (ms_view s) c p [] false).2, s2. split; [by rewrite path_split|].
  split; [|done]. rewrite Hg. unfold n, p in *. by rewrite new_name_is.
Qed.

Lemma generate_id_ok s c key :
  let n := counter (ms_view s) (child (IDS root) key) in
  live s → IdInv root (ms_view s) → name_ok key → n < 2 ^ 31 - 1 →
  ∃ s', generate_id root s c key = Ok (s', n) ∧ live s' ∧ IdInv root (ms_view s') ∧
    frame (IDS root) (ms_view s) (ms_view s') ∧
    ∀ key', slash ∉ key' → counter (ms_view s') (child (IDS root) key') =
      if decide (key' = key) then n + 1 else counter (ms_view s) (child (IDS root) key').
Proof.
  intros n Hs [Hd Hk] Hkey Hroom. pose proof Hkey as [[Hsl _] _].
  assert (Hfree : node (ms_view s) (child (child (IDS root) key) (gen_key n)) = None).
  { apply eq_None_not_Some. intros Hsome. destruct (Hk key (gen_key n) Hsl) as (m&E&Hm);
      [apply gen_key_good|done|]. apply gen_key_inj in E; unfold n in *; lia. }
  pose proof (cd_counter _ _ Hd key Hsl) as H0.
  unfold generate_id.
  destruct (add_gen_eq s c PATH_GENERATE_ID key Hs Hd) as (s1&b&s2&->&Hg&Hs2&Hv);
    [apply names_ok|done|done|done|].
  step_ok. rewrite Hg. step_ok. fold (IDS root) n. rewrite length_gen_key by (unfold n in *; lia). cbn [Nat.ltb Nat.leb]. step_ok.
  fold (IDS root) n in Hv. exists s2. split.
  { rewrite gen_key_dec by (unfold n in *; lia). rewrite skipn_cons, skipn_O, (stoi_dec 10); [done|].
    unfold n in *. cbn. lia. }
  split; [done|]. rewrite Hv. unfold n in *. split; [|split].
  - split; [by apply new_name_dir|]. intros key' k Hk' Hkk. rewrite new_name_grandchild by done.
    rewrite new_name_counter by done. case_decide as E.
    + destruct E as [-> ->]. intros _. eexists. split; [done|]. rewrite decide_True by done. lia.
    + intros Hsome. destruct (Hk key' k Hk' Hkk Hsome) as (m&->&Hm). exists m. split; [done|].
      case_decide as E2; [|done]. apply child_inj in E2 as [_ ->]; [|done|done]. lia.
  - by apply new_name_frame.
  - intros key' Hk'. rewrite new_name_counter by done.
    destruct (decide (key' = key)) as [->|]; [by rewrite decide_True|].
    rewrite decide_False; [done|]. by intros [_ ?]%child_inj.
Qed.

Lemma acquire_lock_ok s c acquired key :
  let n := counter (ms_view s) (child (LOCK root) key) in
  live s → LockInv root (ms_view s) None → name_ok key → n < 2 ^ 31 - 1 → acquired !! key = None →
  ∃ s', acquire_lock root s c acquired key =
      Ok (s', <[key := PATH_LOCK ++ [slash] ++ key ++ [slash] ++ gen_key n]> acquired) ∧ live s' ∧
    LockInv root (ms_view s') (Some (c, key, gen_key n)) ∧
    frame (LOCK root) (ms_view s) (ms_view s').
Proof.
  intros n Hs [Hd Hk] Hkey Hroom Hacq. pose proof Hkey as [[Hsl _] _].
  assert (Hfree : node (ms_view s) (child (child (LOCK root) key) (gen_key n)) = None)
    by (apply Hk; [done|apply gen_key_good]).
  unfold acquire_lock.
  destruct (add_gen_eq s c PATH_LOCK key Hs Hd) as (s1&b&s2&->&Hg&Hs2&Hv);
    [apply names_ok|done|done|done|].
  step_ok. rewrite Hg. fold (LOCK root) n in Hv |- *. step_ok.
  rewrite (bool_decide_false (gen_key n = [])) by apply (gen_key_good n). step_ok. cbn [negb]. step_ok. cbn [wait].
  pose proof (key_ok PATH_LOCK key (proj1 names_ok) Hkey) as Hp.
  destruct (tree_node_sub_eq root s2 c (PATH_LOCK ++ [slash] ++ key) [] Hs2 Hp) as (s3&->&Hs3&Hv3).
  step_ok. rewrite path_split in *. fold (LOCK root) in *.
  assert (Hkids : ∀ key' k, slash ∉ key' → slash ∉ k → node (ms_view s2) (child (child (LOCK root) key') k) =
    if decide (key' = key ∧ k = gen_key n) then Some (Some c, []) else None).
  { intros key' k Hk' Hkk. rewrite Hv. unfold n in *. rewrite new_name_grandchild by done.
    by rewrite Hk by done. }
  assert (children_of (t_nodes (ms_view s2)) (child (LOCK root) key) = {[gen_key n]}) as Hch.
  { apply set_eq. intros k. rewrite elem_children by by apply path_slash. rewrite elem_of_singleton. split.
    - intros [Hkk Hsome]. rewrite Hkids in Hsome by done. case_decide; [naive_solver|by destruct Hsome].
    - intros ->. pose proof (gen_key_good n) as [Hg' _]. split; [done|].
      rewrite Hkids by done. rewrite decide_True by done. by eexists. }
  assert (Hnode : is_Some (node (ms_view s2) (child (LOCK root) key))).
  { rewrite Hv. unfold n in *. rewrite new_name_node by done.
    rewrite decide_False by (intros E; symmetry in E; by apply child_ne in E).
    case_decide as E; [by eexists|]. destruct (node (ms_view s) (child (LOCK root) key)); [by eexists|naive_solver]. }
  unfold t_sub. destruct Hnode as [x ->]. cbn [fst snd]. step_ok. rewrite Hch, in_order_singleton.
  step_ok. rewrite bool_decide_true by done. rewrite bool_decide_true by done. step_ok.
  exists s3. split; [by rewrite <- !app_assoc|]. split; [done|]. rewrite Hv3. split.
  - split; [rewrite Hv; by apply new_name_dir|done].
  - rewrite Hv. by apply new_name_frame.
Qed.

Lemma release_lock_ok s c acquired key g :
  live s → LockInv root (ms_view s) (Some (c, key, g)) → name_ok key → name_ok g →
  acquired !! key = Some (PATH_LOCK ++ [slash] ++ key ++ [slash] ++ g) →
  ∃ s', release_lock root s c acquired key = Ok (s', delete key acquired) ∧ live s' ∧
    LockInv root (ms_view s') None ∧ frame (LOCK root) (ms_view s) (ms_view s').
Proof.
  intros Hs [Hd Hk] Hkey Hg Hacq. unfold release_lock. rewrite Hacq.
  pose proof Hkey as [[Hsl _] Hsk]. pose proof Hg as [Hgood Hsg]. pose proof Hgood as [Hgsl _].
  assert (Hpath : root ++ PATH_LOCK ++ [slash] ++ key ++ [slash] ++ g = child (child (LOCK root) key) g).
  { unfold child, LOCK. by rewrite <- !app_assoc. }
  assert (Hp : path_ok (child (child (LOCK root) key) g)).
  { apply path_ok_child; [|done|].
    - unfold LOCK. rewrite <- path_split. by apply key_ok; [apply names_ok|].
    - unfold child, LOCK, small in *. assert (length PATH_LOCK = 6%nat) by done. len. }
  assert (Hnode : node (ms_view s) (child (child (LOCK root) key) g) = Some (Some c, []))
    by (rewrite Hk by done; by rewrite decide_True).
  destruct (tree_node_del_eq root s c (PATH_LOCK ++ [slash] ++ key ++ [slash] ++ g) Hs) as (s'&->&Hs'&Hv);
    [by rewrite Hpath|]. rewrite Hpath in *. step_ok. unfold t_del in *. rewrite Hnode in *.
  rewrite decide_True in *; [|apply (ephemeral_childless _ _ c);
    [apply ms_tree, Hs|by apply path_slash|unfold own; unfold node in Hnode; by rewrite Hnode]..].
  cbn [fst snd] in *. step_ok. exists s'. split; [done|]. split; [done|].
  assert (Hf : frame (LOCK root) (ms_view s) (ms_view s')).
  { intros q Hq. rewrite Hv, node_delete, decide_False by (intros <-; auto with prpc).
    split; [done|]. unfold counter. cbn [t_gen]. rewrite lookup_delete_ne; [done|]. intros <-. auto with prpc. }
  split; [|done]. rewrite Hv. split; [split|].
  - rewrite <- Hv, (proj1 (Hf _ (not_under_self _))). apply Hd.
  - intros key' o v Hk'. rewrite node_delete, decide_False by (intros E; symmetry in E; by apply child_depth in E).
    by apply Hd.
  - intros key' Hk'. unfold counter. cbn [t_gen].
    rewrite lookup_delete_ne by (intros E; symmetry in E; by apply child_depth in E). by apply Hd.
  - intros key' k Hk' Hkk. rewrite node_delete. case_decide as E; [done|]. rewrite Hk by done.
    rewrite decide_False; [done|]. naive_solver.
Qed.
End steps.

(** ** The registry of an api *)

(** The number of a service; for each server the connection that registered it and its rank. *)
Record service := Service { sv_id : Z; sv_servers : gmap Z (sock * Z) }.

Record RegRel (root api : str) (t : tree) (R : gmap str service) : Prop := {
  rr_dir : ∃ v, node t (RPC root) = Some (None, v);
  rr_api : (∃ v, node t (child (RPC root) api) = Some (None, v)) ∨
    node t (child (RPC root) api) = None ∧ R = ∅;
  rr_service name : slash ∉ name →
    node t (child (child (RPC root) api) name) = (λ sv, (None, to_string (sv_id sv))) <$> R !! name;
  rr_server name sv k x : R !! name = Some sv → slash ∉ k →
    node t (child (child (child (RPC root) api) name) k) = Some x ↔
    ∃ sid c rank, k = to_string sid ∧ sv_servers sv !! sid = Some (c, rank) ∧
      x = (Some c, to_string rank);
  rr_name name sv : R !! name = Some sv → name_ok name;
  rr_id name sv : R !! name = Some sv → in_signed 32 (sv_id sv);
  rr_range name sv sid c rank : R !! name = Some sv → sv_servers sv !! sid = Some (c, rank) →
    in_signed 32 sid ∧ in_signed 32 rank;
}.

Lemma reg_rel_frame root api D' t t' R :
  RegRel root api t R → frame D' t t' → ¬ under D' (RPC root) → (∀ q, under (RPC root) q → ¬ under D' q) →
  RegRel root api t' R.
Proof.
  intros [] Hf HD Hun. assert (Hq : ∀ q, under (RPC root) q → node t' q = node t q) by (intros q Hq; by apply Hf, Hun).
  split; try done.
  - by rewrite (proj1 (Hf _ HD)).
  - by rewrite Hq by auto with prpc.
  - intros name. rewrite Hq by auto with prpc. apply rr_service0.
  - intros name sv k x. rewrite Hq by auto with prpc. apply rr_server0.
Qed.

(** *** Numbers as names *)
Lemma to_string_inj y z : in_signed 32 y → in_signed 32 z → to_string y = to_string z → y = z.
Proof.
  intros Hy Hz E. pose proof (lexical_cast_to_string int32_t y Hy) as H.
  rewrite E, (lexical_cast_to_string int32_t z Hz) in H. congruence.
Qed.

Lemma length_digits fuel : ∀ z, (length (digits fuel z) ≤ fuel)%nat.
Proof. induction fuel as [|fuel IH]; intros z; cbn; [lia|]. case_match; [cbn; lia|]. rewrite length_app. specialize (IH (z / 10)). cbn. lia. Qed.

Lemma to_string_ok z : in_signed 32 z → name_ok (to_string z).
Proof.
  intros Hz. unfold in_signed in Hz. split; [split|].
  - unfold to_string. destruct (Z.ltb_spec z 0); [rewrite not_elem_of_cons; split; [done|]|];
      apply digits_no_slash; lia.
  - assert (Hn : numeral (to_string z) z) by (apply to_string_numeral; lia). by apply numeral_shape in Hn as (_&?&_).
  - unfold small, to_string. pose proof (length_digits 20 z). pose proof (length_digits 20 (- z)).
    case_match; cbn [length]; lia.
Qed.

Lemma value_ok_string z : value_ok (to_string z).
Proof.
  unfold value_ok, to_string. pose proof (length_digits 20 z). pose proof (length_digits 20 (- z)).
  case_match; cbn [length]; lia.
Qed.

(** *** Changes of the registry's part *)
Section changes.
Context (root api : str) (t : tree) (R : gmap str service) (c : sock).
Context (Hrel : RegRel root api t R) (Htree : tree_ok t) (Hapi : slash ∉ api).
Let A := child (RPC root) api.

Lemma tree_parent p x : node t p = Some x → p ≠ [] → ∃ v, node t (parent_of p) = Some (None, v).
Proof. intros. by eapply Htree. Qed.

Lemma child_depth2 key key' g g' : slash ∉ key' → slash ∉ g → slash ∉ g' →
  child A key' ≠ child (child (child A key) g) g'.
Proof.
  intros Hk Hg Hg' E. apply child_inj in E as [E _]; [|done|done].
  apply (f_equal length) in E. unfold child in E. len.
Qed.

Lemma rel_add_api :
  let t' := (t_add t c A [] false).1 in
  RegRel root api t' R ∧ (∃ v, node t' A = Some (None, v)) ∧ (∀ q, counter t' q = counter t q) ∧
  frame (RPC root) t t'.
Proof.
  intros t'. assert (Hf : frame (RPC root) t t') by (apply add_frame; unfold A; auto with prpc).
  assert (Hc : ∀ q, counter t' q = counter t q) by (intros q; unfold t', t_add, counter; by repeat case_match).
  destruct (rr_api _ _ _ _ Hrel) as [Hold|[Hnew ->]].
  - assert (t' = t) as -> by (unfold t'; rewrite add_old; [done|]; destruct Hold as [v Hv]; unfold A; by rewrite Hv).
    done.
  - destruct (rr_dir _ _ _ _ Hrel) as [w Hw].
    assert (Ht' : t' = Tree (<[A := (None, [])]> (t_nodes t)) (t_gen t)).
    { unfold t'. by rewrite (add_new t c A [] false w) by (unfold A; by rewrite ?parent_child). }
    assert (HA : ∃ v, node t' A = Some (None, v)) by (rewrite Ht', node_insert, decide_True by done; by eexists).
    split; [|done]. destruct Hrel. split; try done.
    + rewrite (proj1 (Hf _ (not_under_self _))). done.
    + by left.
    + intros name Hn. rewrite Ht', node_insert, decide_False by (intros E; symmetry in E; by apply child_ne in E).
      by apply rr_service0.
Qed.

Lemma rel_add_service name id :
  (∃ v, node t A = Some (None, v)) → R !! name = None → name_ok name → in_signed 32 id →
  let t' := (t_add t c (child A name) (to_string id) false).1 in
  (t_add t c (child A name) (to_string id) false).2 = true ∧
  RegRel root api t' (<[name := Service id ∅]> R) ∧ (∀ q, counter t' q = counter t q) ∧ frame (RPC root) t t'.
Proof.
  intros [v Hv] Hnone Hname Hid t'. pose proof Hname as [[Hsl _] _].
  assert (Hf : frame (RPC root) t t') by (apply add_frame; unfold A; auto with prpc).
  assert (Hn : node t (child A name) = None) by (unfold A; by rewrite (rr_service _ _ _ _ Hrel), Hnone).
  assert (E : t_add t c (child A name) (to_string id) false =
    (Tree (<[child A name := (None, to_string id)]> (t_nodes t)) (t_gen t), true))
    by (apply (add_new t c (child A name) (to_string id) false v); [by rewrite parent_child|done]).
  unfold t' in *. rewrite E in *. cbn [fst snd] in *. split; [done|]. split; [|done].
  assert (Hbelow : ∀ k, slash ∉ k → node t (child (child A name) k) = None).
  { intros k Hk. apply eq_None_not_Some. intros [x Hx].
    destruct (tree_parent _ _ Hx) as [w Hw]; [apply child_ne_nil|]. rewrite parent_child in Hw by done. congruence. }
  destruct Hrel. split.
  - by rewrite (proj1 (Hf _ (not_under_self _))).
  - left. fold A. rewrite node_insert, decide_False by apply child_ne. by eexists.
  - intros name' Hn'. fold A. rewrite node_insert. destruct (decide (name = name')) as [<-|Hne].
    + by rewrite decide_True, lookup_insert_eq.
    + rewrite decide_False, lookup_insert_ne by (done || by intros [_ ?]%child_inj). by apply rr_service0.
  - intros name' sv k x Hsv Hk. fold A. apply lookup_insert_Some in Hsv as [[<- <-]|[Hne Hsv]].
    + rewrite node_insert, decide_False by (intros E'; symmetry in E'; by apply child_ne in E').
      rewrite Hbelow by done. split; [done|]. by intros (?&?&?&_&?&_).
    + rewrite node_insert, decide_False by by apply child_depth. by apply rr_server0.
  - intros name' sv [[<- _]|[_ ?]]%lookup_insert_Some; [done|eauto].
  - intros name' sv [[_ <-]|[_ ?]]%lookup_insert_Some; [done|eauto].
  - intros name' sv sid d rank [[_ <-]|[_ ?]]%lookup_insert_Some; [done|eauto].
Qed.

Definition with_servers (sv : service) (m : gmap Z (sock * Z)) : service := Service (sv_id sv) m.

(** What the nodes of a registry with other servers of one service have to be. *)
Lemma rel_update name sv m t' :
  R !! name = Some sv → frame (RPC root) t t' →
  node t' A = node t A →
  (∀ name', slash ∉ name' → node t' (child A name') = node t (child A name')) →
  (∀ name' k, slash ∉ name' → name' ≠ name → slash ∉ k →
     node t' (child (child A name') k) = node t (child (child A name') k)) →
  (∀ k x, slash ∉ k → node t' (child (child A name) k) = Some x ↔
     ∃ sid d rank, k = to_string sid ∧ m !! sid = Some (d, rank) ∧ x = (Some d, to_string rank)) →
  (∀ sid d rank, m !! sid = Some (d, rank) → in_signed 32 sid ∧ in_signed 32 rank) →
  RegRel root api t' (<[name := with_servers sv m]> R).
Proof.
  intros Hsv Hf HA Hnames Hothers Hkids Hrange. pose proof (rr_name _ _ _ _ Hrel) as Hname.
  destruct Hrel. split.
  - by rewrite (proj1 (Hf _ (not_under_self _))).
  - left. fold A. rewrite HA. destruct rr_api0 as [?|[_ ->]]; done.
  - intros name' Hn'. fold A. rewrite Hnames by done. rewrite lookup_insert. case_decide as E; [subst name'|].
    + fold A in rr_service0. by rewrite rr_service0, Hsv.
    + by apply rr_service0.
  - intros name' sv' k x Hsv' Hk. fold A. apply lookup_insert_Some in Hsv' as [[<- <-]|[Hne Hsv']].
    + by apply Hkids.
    + destruct (Hname name' sv' Hsv') as [[Hsl _] _]. rewrite Hothers by done. by apply rr_server0.
  - intros name' sv' [[<- _]|[_ ?]]%lookup_insert_Some; eauto.
  - intros name' sv' [[_ <-]|[_ ?]]%lookup_insert_Some; cbn; eauto.
  - intros name' sv' sid d rank [[_ <-]|[_ ?]]%lookup_insert_Some; cbn; eauto.
Qed.

Lemma server_node_ne name k sid :
  slash ∉ k → in_signed 32 sid → k ≠ to_string sid → child (child A name) (to_string sid) ≠ child (child A name) k.
Proof. intros Hk Hs Hne E. apply child_inj in E as [_ ?]; [done| |done]. apply to_string_ok, Hs. Qed.

Lemma rel_server_node name sv sid :
  R !! name = Some sv → in_signed 32 sid →
  node t (child (child A name) (to_string sid)) =
    (λ x, (Some x.1, to_string x.2)) <$> sv_servers sv !! sid.
Proof.
  intros Hsv Hsid. assert (Hsl : slash ∉ to_string sid) by apply to_string_ok, Hsid.
  pose proof (λ x, rr_server _ _ _ _ Hrel name sv (to_string sid) x Hsv Hsl) as Hk. fold A in Hk.
  destruct (sv_servers sv !! sid) as [[d rank]|] eqn:E; cbn.
  - apply Hk. eauto 10.
  - apply eq_None_not_Some. intros [x (sid'&d&rank&E2&E3&_)%Hk].
    apply to_string_inj in E2; [congruence|done|]. by destruct (rr_range _ _ _ _ Hrel name sv sid' d rank).
Qed.

Lemma rel_add_server name sv sid rank :
  R !! name = Some sv → in_signed 32 sid → in_signed 32 rank →
  let r := t_add t c (child (child A name) (to_string sid)) (to_string rank) true in
  RegRel root api r.1 (match sv_servers sv !! sid with
    | Some _ => R | None => <[name := with_servers sv (<[sid := (c, rank)]> (sv_servers sv))]> R end) ∧
  r.2 = bool_decide (sv_servers sv !! sid = None) ∧ frame (RPC root) t r.1 ∧
  (∀ q, counter r.1 q = counter t q).
Proof.
  intros Hsv Hsid Hrank r. destruct (rr_name _ _ _ _ Hrel name sv Hsv) as [[Hsl _] _].
  assert (Hf : frame (RPC root) t r.1) by (apply add_frame; unfold A; auto with prpc).
  assert (Hc : ∀ q, counter r.1 q = counter t q) by (intros q; unfold r, t_add, counter; by repeat case_match).
  pose proof (rel_server_node name sv sid Hsv Hsid) as Hnode.
  assert (Hss : slash ∉ to_string sid) by apply to_string_ok, Hsid.
  destruct (sv_servers sv !! sid) as [x|] eqn:E.
  - assert (r = (t, false)) as -> by (unfold r; apply add_old; by rewrite Hnode). done.
  - assert (node t (child A name) = Some (None, to_string (sv_id sv))) as Hname
      by (unfold A; by rewrite (rr_service _ _ _ _ Hrel), Hsv).
    assert (Hr : r = (Tree (<[child (child A name) (to_string sid) := (Some c, to_string rank)]> (t_nodes t)) (t_gen t), true))
      by (apply (add_new t c _ (to_string rank) true (to_string (sv_id sv))); [by rewrite parent_child|done]).
    rewrite Hr in *. cbn [fst snd] in *. split; [|done].
    apply rel_update; try done.
    + rewrite node_insert, decide_False; [done|]. intros E'. apply (f_equal length) in E'. unfold child in E'. len.
    + intros name' Hn'. rewrite node_insert, decide_False; [done|]. intros E'. symmetry in E'. by apply child_depth in E'.
    + intros name' k Hn' Hne Hk. rewrite node_insert, decide_False; [done|].
      intros E'. apply child_inj in E' as [E' _]; [|done|done]. by apply child_inj in E' as [_ ?].
    + intros k x Hk. rewrite node_insert. destruct (decide (k = to_string sid)) as [->|Hne].
      * rewrite decide_True by done. split.
        { intros [= <-]. exists sid, c, rank. by rewrite lookup_insert_eq. }
        intros (sid'&d&rank'&E1&E2&->). assert (sid = sid') as <-.
        { destruct (decide (sid = sid')) as [|Hne]; [done|]. rewrite lookup_insert_ne in E2 by done.
          apply to_string_inj; [done| |done]. by destruct (rr_range _ _ _ _ Hrel name sv sid' d rank'). }
        rewrite lookup_insert_eq in E2. by simplify_eq.
      * rewrite decide_False by by apply server_node_ne.
        unfold A. rewrite (rr_server _ _ _ _ Hrel name sv) by done.
        split; intros (sid'&d&rank'&->&E2&->); exists sid', d, rank'; (split; [done|]; split; [|done]).
        { rewrite lookup_insert_ne; [done|congruence]. }
        { by rewrite lookup_insert_ne in E2 by congruence. }
    + intros sid' d rank' [[<- [= <- <-]]|[_ ?]]%lookup_insert_Some; [done|]. by eapply (rr_range _ _ _ _ Hrel name sv).
Qed.

Lemma del_counter p q : q ≠ p → counter (t_del t p).1 q = counter t q.
Proof.
  intros Hq. unfold t_del, counter. repeat case_match; try done. cbn [fst t_gen].
  by rewrite lookup_delete_ne by congruence.
Qed.

Lemma rel_del_server name sv sid :
  R !! name = Some sv → in_signed 32 sid →
  let r := t_del t (child (child A name) (to_string sid)) in
  RegRel root api r.1 (<[name := with_servers sv (delete sid (sv_servers sv))]> R) ∧
  r.2 = bool_decide (is_Some (sv_servers sv !! sid)) ∧ frame (RPC root) t r.1.
Proof.
  intros Hsv Hsid r. destruct (rr_name _ _ _ _ Hrel name sv Hsv) as [[Hsl _] _].
  assert (Hf : frame (RPC root) t r.1) by (apply del_frame; unfold A; auto with prpc).
  pose proof (rel_server_node name sv sid Hsv Hsid) as Hnode.
  assert (Hss : slash ∉ to_string sid) by apply to_string_ok, Hsid.
  destruct (sv_servers sv !! sid) as [[d rank]|] eqn:E.
  - assert (Hr : r = (Tree (delete (child (child A name) (to_string sid)) (t_nodes t))
      (delete (child (child A name) (to_string sid)) (t_gen t)), true)).
    { unfold r, t_del. rewrite Hnode. cbn. rewrite decide_True; [done|].
      apply (ephemeral_childless _ _ d); [done|apply slash_child|]. unfold own. unfold node in Hnode. by rewrite Hnode. }
    rewrite Hr in *. cbn [fst snd] in *. split; [|done]. apply rel_update; try done.
    + rewrite node_delete, decide_False; [done|]. intros E'. apply (f_equal length) in E'. unfold child in E'. len.
    + intros name' Hn'. rewrite node_delete, decide_False; [done|]. intros E'. symmetry in E'. by apply child_depth in E'.
    + intros name' k Hn' Hne Hk. rewrite node_delete, decide_False; [done|].
      intros E'. apply child_inj in E' as [E' _]; [|done|done]. by apply child_inj in E' as [_ ?].
    + intros k x Hk. rewrite node_delete. destruct (decide (k = to_string sid)) as [->|Hne].
      * rewrite decide_True by done. split; [done|]. intros (sid'&d'&rank'&E1&[Hne E2]%lookup_delete_Some&_).
        destruct Hne. apply to_string_inj; [done| |done]. by destruct (rr_range _ _ _ _ Hrel name sv sid' d' rank').
      * rewrite decide_False by by apply server_node_ne.
        unfold A. rewrite (rr_server _ _ _ _ Hrel name sv) by done.
        split; intros (sid'&d'&rank'&->&E2&->); exists sid', d', rank'; (split; [done|]; split; [|done]).
        { rewrite lookup_delete_ne; [done|congruence]. }
        { by apply lookup_delete_Some in E2 as [_ ?]. }
    + intros sid' d' rank' [_ ?]%lookup_delete_Some. by eapply (rr_range _ _ _ _ Hrel name sv).
  - assert (r = (t, false)) as -> by (unfold r, t_del; by rewrite Hnode). cbn [fst snd].
    split; [|done]. rewrite delete_id by done. rewrite insert_id; [done|]. rewrite Hsv. by destruct sv.
Qed.

Lemma rel_children name sv :
  R !! name = Some sv → children_of (t_nodes t) (child A name) = ∅ ↔ sv_servers sv = ∅.
Proof.
  intros Hsv. split.
  - intros He. apply map_empty. intros sid. apply eq_None_not_Some. intros [[d rank] E].
    destruct (rr_range _ _ _ _ Hrel name sv sid d rank Hsv E) as [Hsid _].
    assert (to_string sid ∈ children_of (t_nodes t) (child A name)) as Hin; [|by rewrite He in Hin; set_solver].
    apply elem_children; [apply slash_child|]. split; [apply to_string_ok, Hsid|].
    rewrite (rel_server_node name sv sid) by done. by rewrite E.
  - intros He. apply set_eq. intros k. split; [|set_solver]. rewrite elem_children by apply slash_child.
    intros [Hk [x Hx]]. apply (rr_server _ _ _ _ Hrel name sv k x Hsv Hk) in Hx as (sid&d&rank&_&E&_).
    by rewrite He in E.
Qed.

Lemma rel_del_service name :
  slash ∉ name →
  let r := t_del t (child A name) in
  let gone := match R !! name with Some sv => bool_decide (sv_servers sv = ∅) | None => false end in
  RegRel root api r.1 (if gone then delete name R else R) ∧ r.2 = gone ∧ frame (RPC root) t r.1.
Proof.
  intros Hsl r gone. assert (Hf : frame (RPC root) t r.1) by (apply del_frame; unfold A; auto with prpc).
  pose proof (rr_service _ _ _ _ Hrel name Hsl) as Hn. fold A in Hn. unfold gone.
  destruct (R !! name) as [sv|] eqn:Hsv; cbn in Hn.
  2: { assert (r = (t, false)) as -> by (unfold r, t_del; by rewrite Hn). done. }
  case_bool_decide as He.
  2: { assert (r = (t, false)) as ->; [|done]. unfold r, t_del. rewrite Hn, decide_False; [done|].
       by rewrite (rel_children name sv). }
  assert (Hr : r = (Tree (delete (child A name) (t_nodes t)) (delete (child A name) (t_gen t)), true))
    by (unfold r, t_del; rewrite Hn, decide_True; [done|by rewrite (rel_children name sv)]).
  rewrite Hr in *. cbn [fst snd] in *. split; [|done].
  pose proof (rr_name _ _ _ _ Hrel) as Hname. destruct Hrel. split.
  - by rewrite (proj1 (Hf _ (not_under_self _))).
  - left. fold A. rewrite node_delete, decide_False by apply child_ne. destruct rr_api0 as [?|[_ ->]]; done.
  - intros name' Hn'. fold A. rewrite node_delete. destruct (decide (name = name')) as [<-|Hne].
    + by rewrite decide_True, lookup_delete_eq.
    + rewrite decide_False, lookup_delete_ne by (done || by intros [_ ?]%child_inj). by apply rr_service0.
  - intros name' sv' k x [Hne Hsv']%lookup_delete_Some Hk. fold A.
    rewrite node_delete, decide_False by by apply child_depth. by apply rr_server0.
  - intros name' sv' [_ ?]%lookup_delete_Some; eauto.
  - intros name' sv' [_ ?]%lookup_delete_Some; eauto.
  - intros name' sv' sid d rank [_ ?]%lookup_delete_Some; eauto.
Qed.

Definition drop_servers (sv : service) : service :=
  with_servers sv (filter (λ x, x.2.1 ≠ c) (sv_servers sv)).

Lemma rel_drop : RegRel root api (t_drop t c) (drop_servers <$> R).
Proof.
  destruct Hrel. split.
  - destruct rr_dir0 as [v Hv]. exists v. by rewrite node_drop, Hv.
  - destruct rr_api0 as [[v Hv]|[Hv ->]]; [left; exists v; by rewrite node_drop, Hv|right].
    by rewrite node_drop, Hv, fmap_empty.
  - intros name Hn. rewrite node_drop, rr_service0 by done. rewrite lookup_fmap. by destruct (R !! name).
  - intros name sv k x Hsv Hk. apply lookup_fmap_Some in Hsv as (sv'&<-&Hsv). rewrite node_drop.
    pose proof (λ x, rr_server0 name sv' k x Hsv Hk) as Hs. cbn [drop_servers with_servers sv_servers].
    setoid_rewrite map_lookup_filter_Some. cbn.
    destruct (node t (child (child (child (RPC root) api) name) k)) as [[o v]|] eqn:Ek.
    + destruct (proj1 (Hs (o, v)) eq_refl) as (sid&d&rank&->&Hsid&[= -> ->]).
      case_decide as Ed.
      * injection Ed as ->. split; [done|]. intros (sid'&d'&rank'&E1&[E2 E3]&_).
        apply to_string_inj in E1; [|by destruct (rr_range0 name sv' sid c rank Hsv Hsid)|
          by destruct (rr_range0 name sv' sid' d' rank' Hsv E2)]. subst sid'. rewrite Hsid in E2. by simplify_eq.
      * split.
        { intros [= <-]. exists sid, d, rank. split; [done|]. split; [|done]. split; [done|]. congruence. }
        intros (sid'&d'&rank'&E1&[E2 _]&->). apply Hs. eauto 10.
    + split; [done|]. intros (sid'&d'&rank'&E1&[E2 E3]&E4).
      assert (Hx : None = Some x); [|done]. apply Hs. eauto 10.
  - intros name sv (sv'&<-&Hsv)%lookup_fmap_Some. eauto.
  - intros name sv (sv'&<-&Hsv)%lookup_fmap_Some. cbn. eauto.
  - intros name sv sid d rank (sv'&<-&Hsv)%lookup_fmap_Some [E _]%map_lookup_filter_Some. eauto.
Qed.
End changes.

(** ** The operations on the registry *)
Section registry.
Context {S : Type} `{!MasterService S} (root api : str).
Context (Hroot : ∃ p, good_path p ∧ root = p ++ [slash]) (Hsmall : small root) (Hapi : name_ok api).

Record RegInv (s : S) (R : gmap str service) : Prop := {
  ri_live : live s;
  ri_lock : LockInv root (ms_view s) None;
  ri_id : IdInv root (ms_view s);
  ri_rel : RegRel root api (ms_view s) R;
}.

Ltac apart_tac := apply apart; vm_compute; set_solver.

Lemma apart_lock_rpc : ¬ under (RPC root) (LOCK root) ∧ ∀ q, under (LOCK root) q → ¬ under (RPC root) q.
Proof. apart_tac. Qed.
Lemma apart_lock_ids : ¬ under (IDS root) (LOCK root) ∧ ∀ q, under (LOCK root) q → ¬ under (IDS root) q.
Proof. apart_tac. Qed.
Lemma apart_ids_rpc : ¬ under (RPC root) (IDS root) ∧ ∀ q, under (IDS root) q → ¬ under (RPC root) q.
Proof. apart_tac. Qed.
Lemma apart_ids_lock : ¬ under (LOCK root) (IDS root) ∧ ∀ q, under (IDS root) q → ¬ under (LOCK root) q.
Proof. apart_tac. Qed.
Lemma apart_rpc_lock : ¬ under (LOCK root) (RPC root) ∧ ∀ q, under (RPC root) q → ¬ under (LOCK root) q.
Proof. apart_tac. Qed.
Lemma apart_rpc_ids : ¬ under (IDS root) (RPC root) ∧ ∀ q, under (RPC root) q → ¬ under (IDS root) q.
Proof. apart_tac. Qed.

(** Nodes below the locks and the identifiers only. *)
Lemma frame_counter D D' t t' key :
  (∀ q, under D q → ¬ under D' q) → frame D' t t' → counter t' (child D key) = counter t (child D key).
Proof. intros Hun Hf. apply Hf, Hun, under_child. Qed.

(** The rest of the tree, and the counters of identifiers, which never go back. *)
Record rest_kept (t t' : tree) : Prop := {
  rk_node q : ¬ under (LOCK root) q → ¬ under (IDS root) q → ¬ under (RPC root) q → node t' q = node t q;
  rk_counter key : slash ∉ key → counter t (child (IDS root) key) ≤ counter t' (child (IDS root) key);
}.

#[global] Instance rest_kept_refl : Reflexive rest_kept.
Proof. by intros t. Qed.
#[global] Instance rest_kept_trans : Transitive rest_kept.
Proof.
  intros t1 t2 t3 [H1 H2] [K1 K2]. split.
  - intros q ???. by rewrite K1, H1.
  - intros key Hk. by etrans; [apply H2|apply K2].
Qed.

Lemma rest_kept_lock t t' : frame (LOCK root) t t' → rest_kept t t'.
Proof.
  intros Hf. split; [intros q ? _ _; by apply Hf|]. intros key _.
  by rewrite (frame_counter (IDS root) (LOCK root) t t' key (proj2 apart_ids_lock)).
Qed.
Lemma rest_kept_rpc t t' : frame (RPC root) t t' → rest_kept t t'.
Proof.
  intros Hf. split; [intros q _ _ ?; by apply Hf|]. intros key _.
  by rewrite (frame_counter (IDS root) (RPC root) t t' key (proj2 apart_ids_rpc)).
Qed.
Lemma rest_kept_ids t t' key : frame (IDS root) t t' →
  (∀ key', slash ∉ key' → counter t' (child (IDS root) key') =
     if decide (key' = key) then counter t (child (IDS root) key) + 1 else counter t (child (IDS root) key')) →
  rest_kept t t'.
Proof.
  intros Hf Hc. split; [intros q _ ? _; by apply Hf|]. intros key' Hk. rewrite Hc by done.
  case_decide; [subst; lia|lia].
Qed.

Lemma live_tree s : live s → tree_ok (ms_view s).
Proof. intros [Hs _]. by apply ms_tree. Qed.

Lemma service_ok name : name_ok name → path_ok (child (child (RPC root) api) name).
Proof.
  intros [Hn Hs]. apply path_ok_child; [|done|].
  - unfold RPC. rewrite <- path_split. by apply (key_ok root Hroot Hsmall); [apply names_ok|].
  - destruct Hapi as [_ Ha]. unfold child, RPC, small in *. assert (length PATH_RPC = 5%nat) by done. len.
Qed.

Lemma server_ok name k : name_ok name → name_ok k → path_ok (child (child (child (RPC root) api) name) k).
Proof.
  intros Hn [Hk Hs]. apply path_ok_child; [by apply service_ok|done|].
  destruct Hapi as [_ Ha], Hn as [_ Hn]. unfold child, RPC, small in *. assert (length PATH_RPC = 5%nat) by done. len.
Qed.

Lemma service_path name : root ++ (PATH_RPC ++ [slash] ++ api) ++ [slash] ++ name = child (child (RPC root) api) name.
Proof. unfold child, RPC. by rewrite <- !app_assoc. Qed.

Lemma find_or_create_ok s c name R :
  let n := counter (ms_view s) (child (IDS root) api) in
  let id := match R !! name with Some sv => sv_id sv | None => n end in
  live s → IdInv root (ms_view s) → RegRel root api (ms_view s) R → name_ok name → n < 2 ^ 31 - 1 →
  ∃ s', find_or_create root s c api name = Ok (s', id) ∧ live s' ∧ IdInv root (ms_view s') ∧
    RegRel root api (ms_view s') (match R !! name with Some _ => R | None => <[name := Service id ∅]> R end) ∧
    (∀ held, LockInv root (ms_view s) held → LockInv root (ms_view s') held) ∧
    (∀ key, slash ∉ key → counter (ms_view s') (child (IDS root) key) =
       if decide (key = api ∧ R !! name = None) then n + 1 else counter (ms_view s) (child (IDS root) key)) ∧
    rest_kept (ms_view s) (ms_view s').
Proof.
  intros n id Hs Hid Hrel Hname Hroom. unfold find_or_create.
  pose proof Hapi as [[Hasl _] _]. pose proof Hname as [[Hnsl _] _].
  pose proof (key_ok root Hroot Hsmall PATH_RPC api (proj2 (proj2 names_ok)) Hapi) as HA.
  destruct (tree_node_add_eq root s c (PATH_RPC ++ [slash] ++ api) [] false Hs HA) as (s1&->&Hs1&Hv1); [done|].
  step_ok. rewrite path_split in Hv1. fold (RPC root) in Hv1.
  destruct (rel_add_api root api _ R c Hrel Hasl) as (Hrel1&HA1&Hc1&Hf1).
  rewrite <- Hv1 in Hrel1, HA1, Hc1, Hf1.
  assert (Hid1 : IdInv root (ms_view s1)) by (eapply id_inv_frame; [done|done|exact (proj1 apart_ids_rpc)|exact (proj2 apart_ids_rpc)]).
  assert (HS : path_ok (root ++ (PATH_RPC ++ [slash] ++ api) ++ [slash] ++ name))
    by (rewrite service_path; by apply service_ok).
  destruct (tree_node_get_eq root s1 c ((PATH_RPC ++ [slash] ++ api) ++ [slash] ++ name) [] Hs1 HS)
    as (s2&->&Hs2&Hv2); [done|].
  step_ok. rewrite service_path in *. unfold t_get. rewrite (rr_service _ _ _ _ Hrel1) by done.
  unfold id. destruct (R !! name) as [sv|] eqn:Hsv; cbn [fmap option_fmap option_map fst snd].
  - rewrite (lexical_cast_to_string int32_t (sv_id sv)) by by eapply (rr_id _ _ _ _ Hrel). step_ok.
    exists s2. split; [done|]. rewrite Hv2. split; [done|]. split; [done|]. split; [done|]. split.
    + intros held Hl. eapply lock_inv_frame; [done|done|exact (proj1 apart_lock_rpc)|exact (proj2 apart_lock_rpc)].
    + split; [intros key _; rewrite decide_False by naive_solver; apply Hc1|by apply rest_kept_rpc].
  - rewrite <- Hv2 in *.
    destruct (generate_id_ok root Hroot Hsmall s2 c api Hs2 Hid1 Hapi) as (s3&->&Hs3&Hid3&Hf3&Hc3).
    { rewrite Hc1. done. }
    step_ok. rewrite Hc1. fold n. assert (Hn : in_signed 32 n).
    { pose proof (cd_counter _ _ (id_dir _ _ Hid) api Hasl). unfold in_signed, n in *. lia. }
    rewrite (swrap_small 32 n) by (done || lia).
    destruct (tree_node_add_eq root s3 c ((PATH_RPC ++ [slash] ++ api) ++ [slash] ++ name) (to_string n) false Hs3)
      as (s4&->&Hs4&Hv4); [by rewrite service_path|apply value_ok_string|].
    step_ok. rewrite service_path in Hv4.
    assert (Hrel3 : RegRel root api (ms_view s3) R) by (eapply reg_rel_frame; [done|done|exact (proj1 apart_rpc_ids)|exact (proj2 apart_rpc_ids)]).
    assert (HA3 : ∃ v, node (ms_view s3) (child (RPC root) api) = Some (None, v)).
    { destruct HA1 as [v Hv]. exists v. by rewrite (proj1 (Hf3 _ (proj2 apart_rpc_ids _ (under_child _ _)))). }
    destruct (rel_add_service root api _ R c Hrel3 (live_tree _ Hs3) name n HA3 Hsv Hname Hn)
      as (_&Hrel4&Hc4&Hf4).
    rewrite <- Hv4 in Hrel4, Hc4, Hf4. exists s4. split; [done|]. split; [done|]. split; [|split; [done|split]].
    + eapply id_inv_frame; [done|done|exact (proj1 apart_ids_rpc)|exact (proj2 apart_ids_rpc)].
    + intros held Hl. eapply lock_inv_frame; [|exact Hf4|exact (proj1 apart_lock_rpc)|exact (proj2 apart_lock_rpc)].
      eapply lock_inv_frame; [|exact Hf3|exact (proj1 apart_lock_ids)|exact (proj2 apart_lock_ids)].
      eapply lock_inv_frame; [done|exact Hf1|exact (proj1 apart_lock_rpc)|exact (proj2 apart_lock_rpc)].
    + split.
      * intros key Hk. rewrite Hc4, Hc3 by done. rewrite !Hc1. fold n.
        destruct (decide (key = api)) as [->|]; [by rewrite decide_True|]. rewrite decide_False; [done|]. naive_solver.
      * etrans; [by apply rest_kept_rpc|]. etrans; [by eapply rest_kept_ids|by apply rest_kept_rpc].
Qed.

(** There is room for another identifier of the api and of the service, and for another
    holder of the service's lock. *)
Record reg_room (s : S) (name : str) : Prop := {
  room_key : small (rpc_key api name);
  room_api : counter (ms_view s) (child (IDS root) api) < 2 ^ 31 - 1;
  room_server : counter (ms_view s) (child (IDS root) (rpc_key api name)) < 2 ^ 31 - 1;
  room_lock : counter (ms_view s) (child (LOCK root) (rpc_key api name)) < 2 ^ 31 - 1;
}.

Lemma rpc_key_ok name : name_ok name → small (rpc_key api name) → name_ok (rpc_key api name) ∧ rpc_key api name ≠ api.
Proof.
  intros [[Hn _] _] Hs. destruct Hapi as [[Ha _] _]. unfold rpc_key in *. split.
  - split; [|done]. split; [|by destruct api]. rewrite !not_elem_of_app, list_elem_of_singleton. done.
  - intros E. apply (f_equal length) in E. len.
Qed.

Definition with_service (R : gmap str service) (name : str) (n : Z) : gmap str service :=
  match R !! name with Some _ => R | None => <[name := Service n ∅]> R end.
Definition id_of (R : gmap str service) (name : str) (n : Z) : Z :=
  match R !! name with Some sv => sv_id sv | None => n end.

(** What happens under the lock leaves the lock alone: the caller gets it and gives it back. *)
Lemma locked_ok {A} s c name R (f : S → result (S * A)) (P : S → A → Prop) :
  RegInv s R → name_ok name → reg_room s name →
  (∀ s1, live s1 → IdInv root (ms_view s1) → RegRel root api (ms_view s1) R →
     frame (LOCK root) (ms_view s) (ms_view s1) →
     ∃ s2 a, f s1 = Ok (s2, a) ∧ live s2 ∧ P s2 a ∧
       ∀ held, LockInv root (ms_view s1) held → LockInv root (ms_view s2) held) →
  (∀ s2 s3 a, P s2 a → live s3 → frame (LOCK root) (ms_view s2) (ms_view s3) → P s3 a) →
  ∃ s' a,
    ('(s, acquired) ← acquire_lock root s c ∅ (rpc_key api name);
     '(s, a) ← f s;
     '(s, acquired) ← release_lock root s c acquired (rpc_key api name);
     Ok (s, acquired, a)) = Ok (s', ∅, a) ∧
    live s' ∧ LockInv root (ms_view s') None ∧ P s' a.
Proof.
  intros [Hs Hl Hi Hr] Hname [Hk Hra Hrs Hrl] Hf HP. destruct (rpc_key_ok name Hname Hk) as [Hkey _].
  destruct (acquire_lock_ok root Hroot Hsmall s c ∅ (rpc_key api name) Hs Hl Hkey Hrl)
    as (s1&->&Hs1&Hl1&Hf1); [done|]. step_ok.
  destruct (Hf s1) as (s2&a&->&Hs2&HP2&Hl2); [done| | |done|].
  { eapply id_inv_frame; [done|done|exact (proj1 apart_ids_lock)|exact (proj2 apart_ids_lock)]. }
  { eapply reg_rel_frame; [done|done|exact (proj1 apart_rpc_lock)|exact (proj2 apart_rpc_lock)]. }
  step_ok. set (n := counter (ms_view s) (child (LOCK root) (rpc_key api name))) in *.
  assert (Hn : name_ok (gen_key n)).
  { apply gen_name_ok. pose proof (cd_counter _ _ (lk_dir _ _ _ Hl) (rpc_key api name)) as H0.
    destruct Hkey as [[Hsl _] _]. specialize (H0 Hsl). unfold n in *. lia. }
  destruct (release_lock_ok root Hroot Hsmall s2 c
    (<[rpc_key api name := PATH_LOCK ++ [slash] ++ rpc_key api name ++ [slash] ++ gen_key n]> ∅)
    (rpc_key api name) (gen_key n) Hs2 (Hl2 _ Hl1) Hkey Hn) as (s3&->&Hs3&Hl3&Hf3); [by rewrite lookup_insert_eq|].
  step_ok. exists s3, a. rewrite delete_insert_id by done. split; [done|]. split; [done|]. split; [done|].
  by eapply HP.
Qed.

Lemma register_rpc_service_ok s c name R :
  let n := counter (ms_view s) (child (IDS root) api) in
  RegInv s R → name_ok name → reg_room s name →
  ∃ s', register_rpc_service root s c ∅ api name = Ok (s', ∅, id_of R name n) ∧
    RegInv s' (with_service R name n) ∧
    (∀ key, slash ∉ key → counter (ms_view s') (child (IDS root) key) =
       if decide (key = api ∧ R !! name = None) then n + 1 else counter (ms_view s) (child (IDS root) key)) ∧
    rest_kept (ms_view s) (ms_view s').
Proof.
  intros n Hinv Hname Hroom.
  destruct (locked_ok s c name R (λ s, find_or_create root s c api name)
    (λ s' id, id = id_of R name n ∧ IdInv root (ms_view s') ∧ RegRel root api (ms_view s') (with_service R name n) ∧
       (∀ key, slash ∉ key → counter (ms_view s') (child (IDS root) key) =
         if decide (key = api ∧ R !! name = None) then n + 1 else counter (ms_view s) (child (IDS root) key)) ∧
       rest_kept (ms_view s) (ms_view s'))
    Hinv Hname Hroom) as (s'&id&He&Hs'&Hl&->&Hi&Hr&Hc).
  - intros s1 Hs1 Hi1 Hr1 Hf1.
    assert (Hcnt : ∀ key, counter (ms_view s1) (child (IDS root) key) = counter (ms_view s) (child (IDS root) key))
      by (intros key; eapply frame_counter; [exact (proj2 apart_ids_lock)|done]).
    destruct (find_or_create_ok s1 c name R Hs1 Hi1 Hr1 Hname) as (s2&->&Hs2&Hi2&Hr2&Hl2&Hc2&Hu2).
    { rewrite Hcnt. apply Hroom. }
    rewrite Hcnt in *. exists s2, (id_of R name n). split; [done|]. split; [done|]. split; [|done].
    split; [done|]. split; [done|]. split; [|split; [intros key Hk; by rewrite Hc2, !Hcnt|]].
    + unfold with_service. by destruct (R !! name).
    + etrans; [by apply rest_kept_lock|done].
  - intros s2 s3 a (->&Hi2&Hr2&Hc2&Hu2) Hs3 Hf3. split; [done|]. split; [|split; [|split]].
    + eapply id_inv_frame; [done|done|exact (proj1 apart_ids_lock)|exact (proj2 apart_ids_lock)].
    + eapply reg_rel_frame; [done|done|exact (proj1 apart_rpc_lock)|exact (proj2 apart_rpc_lock)].
    + intros key Hk. rewrite <- Hc2 by done. eapply frame_counter; [exact (proj2 apart_ids_lock)|done].
    + etrans; [done|by apply rest_kept_lock].
  - exists s'. split; [exact He|]. split; [|done]. done.
Qed.

Lemma with_service_lookup R name n : with_service R name n !! name =
  Some (Service (id_of R name n) (default ∅ (sv_servers <$> R !! name))).
Proof.
  unfold with_service, id_of. destruct (R !! name) as [sv|] eqn:E; cbn; [by rewrite E; destruct sv|].
  by rewrite lookup_insert_eq.
Qed.

(** A server is added: the registry afterwards, the numbers, and whether it was new. *)
Definition reg_add (R : gmap str service) (c : sock) (name : str) (n m rank sid : Z)
    : gmap str service * (Z * Z * bool) :=
  let R1 := with_service R name n in
  let id := id_of R name n in
  let sid := if decide (sid = -1) then m else sid in
  let old := default ∅ (sv_servers <$> R !! name) in
  match old !! sid with
  | Some _ => (R1, (id, sid, false))
  | None => (<[name := Service id (<[sid := (c, rank)]> old)]> R1, (id, sid, true))
  end.

Lemma server_path name sid :
  root ++ PATH_RPC ++ [slash] ++ api ++ [slash] ++ name ++ [slash] ++ to_string sid =
  child (child (child (RPC root) api) name) (to_string sid).
Proof. unfold child, RPC. by rewrite <- !app_assoc. Qed.

Lemma register_server_ok s c name rank sid R :
  let n := counter (ms_view s) (child (IDS root) api) in
  let m := counter (ms_view s) (child (IDS root) (rpc_key api name)) in
  RegInv s R → name_ok name → reg_room s name → in_signed 32 sid → in_signed 32 rank →
  ∃ s', register_server root s c ∅ api name rank sid = Ok (s', ∅, (reg_add R c name n m rank sid).2) ∧
    RegInv s' (reg_add R c name n m rank sid).1 ∧
    counter (ms_view s') (child (IDS root) api) = (if decide (R !! name = None) then n + 1 else n) ∧
    rest_kept (ms_view s) (ms_view s').
Proof.
  intros n m Hinv Hname Hroom Hsid Hrank. unfold register_server.
  destruct (register_rpc_service_ok s c name R Hinv Hname Hroom) as (s1&->&[Hs1 Hl1 Hi1 Hr1]&Hcnt&Hu1). step_ok.
  destruct (rpc_key_ok name Hname (room_key _ _ Hroom)) as [Hkey Hne]. pose proof Hkey as [[Hksl _] _].
  assert (Hc1 : counter (ms_view s1) (child (IDS root) (rpc_key api name)) = m)
    by (rewrite Hcnt, decide_False by naive_solver; done).
  set (sid' := if decide (sid = -1) then m else sid).
  assert (Hm : 0 ≤ m) by (apply (cd_counter _ _ (id_dir _ _ (ri_id _ _ Hinv))); done).
  pose proof (room_server _ _ Hroom) as Hmax. fold m in Hmax.
  assert (Hsid' : in_signed 32 sid') by (unfold sid', in_signed in *; case_decide; lia).
  assert (∃ s2, (if decide (sid = -1)
      then '(s, id) ← generate_id root s1 c (rpc_key api name); Ok (s, i32 id) else Ok (s1, sid)) = Ok (s2, sid') ∧
      live s2 ∧ LockInv root (ms_view s2) None ∧ IdInv root (ms_view s2) ∧
      RegRel root api (ms_view s2) (with_service R name n) ∧
      counter (ms_view s2) (child (IDS root) api) = counter (ms_view s1) (child (IDS root) api) ∧
      rest_kept (ms_view s1) (ms_view s2))
    as (s2&->&Hs2&Hl2&Hi2&Hr2&Hc2&Hu2).
  { unfold sid'. case_decide; [|by exists s1].
    destruct (generate_id_ok root Hroot Hsmall s1 c (rpc_key api name) Hs1 Hi1 Hkey) as (s2&->&Hs2&Hi2&Hf2&Hc2);
      [by rewrite Hc1|]. rewrite Hc1. step_ok. exists s2.
    rewrite swrap_small by (unfold in_signed; lia). split; [done|]. split; [done|]. split; [|split; [done|split; [|split]]].
    - eapply lock_inv_frame; [done|done|exact (proj1 apart_lock_ids)|exact (proj2 apart_lock_ids)].
    - eapply reg_rel_frame; [done|done|exact (proj1 apart_rpc_ids)|exact (proj2 apart_rpc_ids)].
    - rewrite Hc2 by by destruct Hapi as [[? _] _]. by rewrite decide_False by congruence.
    - by eapply rest_kept_ids. }
  step_ok.
  destruct (tree_node_add_eq root s2 c
    (PATH_RPC ++ [slash] ++ api ++ [slash] ++ name ++ [slash] ++ to_string sid') (to_string rank) true Hs2)
    as (s3&->&Hs3&Hv3); [rewrite server_path; by apply server_ok, to_string_ok|apply value_ok_string|].
  step_ok. rewrite server_path in *.
  destruct (rel_add_server root api _ _ c Hr2 name _ sid' rank (with_service_lookup R name n) Hsid' Hrank)
    as (Hr3&Hb&Hf3&Hc3). rewrite <- Hv3 in Hr3, Hf3, Hc3. cbn [sv_servers] in *.
  exists s3. rewrite Hb, Hc3, Hc2, Hcnt by by destruct Hapi as [[? _] _]. unfold reg_add. fold sid'.
  assert (Hif : (if decide (api = api ∧ R !! name = None) then n + 1 else n) =
    if decide (R !! name = None) then n + 1 else n) by (repeat case_decide; naive_solver).
  destruct (default ∅ (sv_servers <$> R !! name) !! sid') eqn:E; cbn [fst snd bool_decide]; (split; [done|]);
    (split; [|split; [exact Hif|etrans; [exact Hu1|etrans; [exact Hu2|by apply rest_kept_rpc]]]]); (split; [done| | |done]);
    first [eapply lock_inv_frame; [done|done|exact (proj1 apart_lock_rpc)|exact (proj2 apart_lock_rpc)]
          |eapply id_inv_frame; [done|done|exact (proj1 apart_ids_rpc)|exact (proj2 apart_ids_rpc)]].
Qed.

Lemma inv_rpc_frame s s' R' :
  live s' → frame (RPC root) (ms_view s) (ms_view s') → LockInv root (ms_view s) None → IdInv root (ms_view s) →
  RegRel root api (ms_view s') R' → RegInv s' R'.
Proof.
  intros Hs Hf Hl Hi Hr. split; [done| | |done].
  - eapply lock_inv_frame; [done|done|exact (proj1 apart_lock_rpc)|exact (proj2 apart_lock_rpc)].
  - eapply id_inv_frame; [done|done|exact (proj1 apart_ids_rpc)|exact (proj2 apart_ids_rpc)].
Qed.

Definition reg_del (R : gmap str service) (name : str) (sid : Z) : gmap str service * bool :=
  match R !! name with
  | Some sv => (<[name := with_servers sv (delete sid (sv_servers sv))]> R,
                bool_decide (is_Some (sv_servers sv !! sid)))
  | None => (R, false)
  end.

Lemma deregister_server_ok s c name sid R :
  RegInv s R → name_ok name → in_signed 32 sid →
  ∃ s', deregister_server root s c api name sid = Ok (s', (reg_del R name sid).2) ∧
    RegInv s' (reg_del R name sid).1 ∧
    counter (ms_view s') (child (IDS root) api) = counter (ms_view s) (child (IDS root) api) ∧
    rest_kept (ms_view s) (ms_view s').
Proof.
  intros [Hs Hl Hi Hr] Hname Hsid. unfold deregister_server.
  destruct (tree_node_del_eq root s c
    (PATH_RPC ++ [slash] ++ api ++ [slash] ++ name ++ [slash] ++ to_string sid) Hs)
    as (s'&->&Hs'&Hv); [rewrite server_path; by apply server_ok, to_string_ok|].
  rewrite server_path in *. exists s'. unfold reg_del. destruct (R !! name) as [sv|] eqn:Hsv.
  - destruct (rel_del_server root api _ R Hr (live_tree _ Hs) name sv sid Hsv Hsid) as (Hr'&->&Hf).
    rewrite <- Hv in Hr', Hf. split; [done|].
    split; [by eapply inv_rpc_frame|]. split; [eapply frame_counter; [exact (proj2 apart_ids_rpc)|done]|by apply rest_kept_rpc].
  - assert (Hn : node (ms_view s) (child (child (child (RPC root) api) name) (to_string sid)) = None).
    { apply eq_None_not_Some. intros [x Hx].
      destruct (live_tree _ Hs _ _ Hx) as [v Hp]; [apply child_ne_nil|].
      assert (Hsl : slash ∉ to_string sid) by apply to_string_ok, Hsid. rewrite parent_child in Hp by done.
      destruct Hname as [[Hn _] _]. pose proof (rr_service _ _ _ _ Hr name Hn) as Hno. rewrite Hsv in Hno.
      unfold node in Hno. rewrite Hp in Hno. done. }
    unfold t_del in *. rewrite Hn in *. cbn [fst snd] in *. split; [done|].
    split; [|by rewrite Hv]. eapply inv_rpc_frame; [done| |done|done|by rewrite Hv]. by rewrite Hv.
Qed.

Definition reg_remove (R : gmap str service) (name : str) : gmap str service * bool :=
  let gone := match R !! name with Some sv => bool_decide (sv_servers sv = ∅) | None => false end in
  (if gone then delete name R else R, gone).

Lemma deregister_rpc_service_ok s c name R :
  RegInv s R → name_ok name → reg_room s name →
  ∃ s', deregister_rpc_service root s c ∅ api name = Ok (s', ∅, (reg_remove R name).2) ∧
    RegInv s' (reg_remove R name).1 ∧
    counter (ms_view s') (child (IDS root) api) = counter (ms_view s) (child (IDS root) api) ∧
    rest_kept (ms_view s) (ms_view s').
Proof.
  intros Hinv Hname Hroom.
  destruct (locked_ok s c name R (λ s, del_rpc_service_info root s c api name)
    (λ s' ret, ret = (reg_remove R name).2 ∧ IdInv root (ms_view s') ∧
       RegRel root api (ms_view s') (reg_remove R name).1 ∧
       counter (ms_view s') (child (IDS root) api) = counter (ms_view s) (child (IDS root) api) ∧
       rest_kept (ms_view s) (ms_view s'))
    Hinv Hname Hroom) as (s'&ret&He&Hs'&Hl&->&Hi&Hr&Hc).
  - intros s1 Hs1 Hi1 Hr1 Hf1. unfold del_rpc_service_info.
    assert (Hp : root ++ PATH_RPC ++ [slash] ++ api ++ [slash] ++ name = child (child (RPC root) api) name)
      by (rewrite <- service_path; by rewrite <- !app_assoc).
    destruct (tree_node_del_eq root s1 c (PATH_RPC ++ [slash] ++ api ++ [slash] ++ name) Hs1)
      as (s2&->&Hs2&Hv2); [rewrite Hp; by apply service_ok|]. rewrite Hp in *.
    destruct Hname as [[Hsl _] _].
    destruct (rel_del_service root api _ R Hr1 (live_tree _ Hs1) (proj1 (proj1 Hapi)) name Hsl) as (Hr2&Hb&Hf2). rewrite <- Hv2 in Hr2, Hf2.
    do 2 eexists. split; [done|]. split; [done|]. split; [split; [done|split; [|split; [done|split]]]|].
    + eapply id_inv_frame; [done|done|exact (proj1 apart_ids_rpc)|exact (proj2 apart_ids_rpc)].
    + etrans; (eapply frame_counter; [|done]); [exact (proj2 apart_ids_rpc)|exact (proj2 apart_ids_lock)].
    + etrans; [by apply rest_kept_lock|by apply rest_kept_rpc].
    + intros held Hl. eapply lock_inv_frame; [done|done|exact (proj1 apart_lock_rpc)|exact (proj2 apart_lock_rpc)].
  - intros s2 s3 a (->&Hi2&Hr2&Hc2&Hu2) Hs3 Hf3. split; [done|]. split; [|split; [|split]].
    + eapply id_inv_frame; [done|done|exact (proj1 apart_ids_lock)|exact (proj2 apart_ids_lock)].
    + eapply reg_rel_frame; [done|done|exact (proj1 apart_rpc_lock)|exact (proj2 apart_rpc_lock)].
    + rewrite <- Hc2. eapply frame_counter; [exact (proj2 apart_ids_lock)|done].
    + etrans; [done|by apply rest_kept_lock].
  - exists s'. split; [exact He|]. done.
Qed.

(** *** The end of a connection *)
Lemma root_permanent t p x :
  tree_ok t → master_check_valid_path p = true → node t p = Some x → ∃ v, node t [] = Some (None, v).
Proof.
  intros Ht. revert x. induction p as [p IH] using (well_founded_ind (well_founded_ltof _ length)).
  intros x Hv Hp. destruct (Ht p x Hp) as [v Hpar]; [by apply valid_ne|].
  destruct (valid_split p Hv) as (q&k&->&[Hk _]&[->|Hq]); rewrite parent_child in Hpar by done; [by exists v|].
  eapply (IH q); [|done|done]. unfold ltof, child. len.
Qed.

Lemma counter_dir_drop D t c : CounterDir D t → CounterDir D (t_drop t c).
Proof.
  intros [[v Hd] Hk Hc]. split; [exists v; by rewrite node_drop, Hd| |done].
  intros key o w Hs. rewrite node_drop. destruct (node t (child D key)) as [[o' w']|] eqn:E; [|done].
  case_decide; [done|]. intros [= <- <-]. eauto.
Qed.

Lemma drop_ok s c R : RegInv s R → 
  ∃ s', ms_drop s c = Ok s' ∧ RegInv s' (drop_servers c <$> R) ∧
    ms_view s' = t_drop (ms_view s) c.
Proof.
  intros [Hs Hl Hi Hr]. destruct (ms_drop_eq s c Hs) as (s'&->&Hs'&Hv). exists s'. split; [done|].
  split; [|done]. split; [split; [done|]|..]; rewrite Hv.
  - destruct (rr_dir _ _ _ _ Hr) as [v Hd]. destruct (root_permanent _ _ _ (live_tree _ Hs)
      (proj1 (dir_ok root Hroot Hsmall PATH_RPC (proj2 (proj2 names_ok)))) Hd) as [w Hw].
    exists (None, w). by rewrite node_drop, Hw.
  - destruct Hl as [Hd Hk]. split; [by apply counter_dir_drop|]. intros key k H1 H2.
    by rewrite node_drop, Hk by done.
  - destruct Hi as [Hd Hk]. split; [by apply counter_dir_drop|]. intros key k H1 H2 Hsome. apply Hk; [done|done|].
    rewrite node_drop in Hsome. by destruct (node _ _).
  - by apply rel_drop.
Qed.

(** *** Reading the registry *)

(** The entry of a server; the entries of a service; what is told about a service. *)
Definition server_info (x : Z * (sock * Z)) : ServerInfo := MkServerInfo x.1 (i16 x.2.2).
Definition describes (R : gmap str service) (name : str) (info : RpcServiceInfo) : Prop :=
  ∃ sv, R !! name = Some sv ∧ rpc_service_name info = name ∧ service_rpc_id info = sv_id sv ∧
    RpcContext.servers info ≡ₚ server_info <$> map_to_list (sv_servers sv).

Lemma read_servers_ok s c name sv R (l : list (Z * (sock * Z))) acc :
  live s → RegRel root api (ms_view s) R → name_ok name → R !! name = Some sv →
  (∀ x, x ∈ l → sv_servers sv !! x.1 = Some x.2) →
  ∃ s', read_servers root s c (PATH_RPC ++ [slash] ++ api ++ [slash] ++ name) ((to_string ∘ fst) <$> l) acc =
      Ok (s', acc ++ (server_info <$> l)) ∧ live s' ∧ ms_view s' = ms_view s.
Proof.
  intros Hs Hr Hname Hsv. revert s acc Hs Hr.
  induction l as [|[sid [d rank]] l IH]; intros s acc Hs Hr Hl; cbn [fmap list_fmap read_servers].
  { exists s. by rewrite app_nil_r. }
  pose proof (Hl (sid, (d, rank)) ltac:(left)) as Hsid. cbn [fst snd] in Hsid.
  destruct (rr_range _ _ _ _ Hr name sv sid d rank Hsv Hsid) as [H1 H2]. cbn [compose fst].
  assert (Hp : root ++ (PATH_RPC ++ [slash] ++ api ++ [slash] ++ name) ++ [slash] ++ to_string sid =
    child (child (child (RPC root) api) name) (to_string sid)) by (rewrite <- server_path; by rewrite <- !app_assoc).
  destruct (tree_node_get_eq root s c ((PATH_RPC ++ [slash] ++ api ++ [slash] ++ name) ++ [slash] ++ to_string sid) [] Hs)
    as (s1&->&Hs1&Hv1); [rewrite Hp; by apply server_ok, to_string_ok|done|].
  rewrite Hp. unfold t_get. rewrite (rel_server_node root api _ R Hr name sv sid Hsv H1), Hsid.
  cbn [fmap option_fmap option_map fst snd]. step_ok.
  rewrite (lexical_cast_to_string int32_t sid), (lexical_cast_to_string int32_t rank) by done. step_ok.
  destruct (IH s1 (acc ++ [MkServerInfo sid (i16 rank)]) Hs1) as (s2&->&Hs2&Hv2);
    [by rewrite Hv1|intros x Hx; apply Hl; by right|].
  exists s2. rewrite <- app_assoc. split; [done|]. split; [done|]. congruence.
Qed.

Lemma in_order_map (m : gmap Z (sock * Z)) X :
  (∀ k, k ∈ X ↔ ∃ sid, k = to_string sid ∧ is_Some (m !! sid)) →
  (∀ sid, is_Some (m !! sid) → in_signed 32 sid) →
  ∃ l, in_order X = (to_string ∘ fst) <$> l ∧ l ≡ₚ map_to_list m.
Proof.
  intros HX Hm. assert (Hp : in_order X ≡ₚ (to_string ∘ fst) <$> map_to_list m).
  { unfold in_order. rewrite merge_sort_Permutation. apply NoDup_Permutation; [apply NoDup_elements| |].
    - rewrite list_fmap_compose. apply NoDup_fmap_2_strong; [|apply NoDup_fst_map_to_list].
      intros y z Hy Hz. apply list_elem_of_fmap in Hy as ([y' v]&->&Hy), Hz as ([z' w]&->&Hz).
      apply elem_of_map_to_list in Hy, Hz. apply to_string_inj; apply Hm; by eexists.
    - intros k. rewrite elem_of_elements, HX, list_elem_of_fmap. split.
      + intros (sid&->&[x Hx]). exists (sid, x). split; [done|]. by apply elem_of_map_to_list.
      + intros ([sid x]&->&Hx%elem_of_map_to_list). eauto. }
  apply Permutation_map_inv in Hp as (l&Hl&Hp). exists l. split; [done|]. by symmetry.
Qed.

Lemma get_service_ok s c name sv R out :
  live s → RegRel root api (ms_view s) R → name_ok name → R !! name = Some sv →
  ∃ s' info, get_service root s c api name out = Ok (s', true, info) ∧ live s' ∧ ms_view s' = ms_view s ∧
    describes R name info.
Proof.
  intros Hs Hr Hname Hsv. pose proof Hname as [[Hsl _] _]. unfold get_service.
  assert (Hp : root ++ PATH_RPC ++ [slash] ++ api ++ [slash] ++ name = child (child (RPC root) api) name)
    by (rewrite <- service_path; by rewrite <- !app_assoc).
  assert (Hok : path_ok (root ++ PATH_RPC ++ [slash] ++ api ++ [slash] ++ name))
    by (rewrite Hp; by apply service_ok).
  destruct (tree_node_get_eq root s c _ [] Hs Hok) as (s1&->&Hs1&Hv1); [done|]. step_ok.
  pose proof (rr_service _ _ _ _ Hr name Hsl) as Hnode. rewrite Hsv in Hnode. cbn in Hnode.
  rewrite Hp. unfold t_get. rewrite Hnode. cbn [fst snd].
  rewrite (lexical_cast_to_string int32_t (sv_id sv)) by by eapply (rr_id _ _ _ _ Hr). step_ok.
  destruct (tree_node_sub_eq root s1 c _ [] Hs1 Hok) as (s2&->&Hs2&Hv2). step_ok.
  rewrite Hp, Hv1. unfold t_sub. rewrite Hnode. cbn [fst snd].
  destruct (in_order_map (sv_servers sv) (children_of (t_nodes (ms_view s)) (child (child (RPC root) api) name)))
    as (l&->&Hl).
  { intros k. rewrite elem_children by apply slash_child. split.
    - intros [Hk [x Hx]]. apply (rr_server _ _ _ _ Hr name sv k x Hsv Hk) in Hx as (sid&d&rank&->&Hsid&_). eauto.
    - intros (sid&->&[[d rank] Hsid]). destruct (rr_range _ _ _ _ Hr name sv sid d rank Hsv Hsid) as [H1 _].
      split; [apply to_string_ok, H1|]. rewrite (rel_server_node root api _ R Hr name sv sid Hsv H1), Hsid. by eexists. }
  { intros sid [[d rank] Hsid]. by destruct (rr_range _ _ _ _ Hr name sv sid d rank Hsv Hsid). }
  destruct (read_servers_ok s2 c name sv R l [] Hs2) as (s3&->&Hs3&Hv3); [by rewrite Hv2, Hv1|done|done| |].
  { intros [sid x] Hx. rewrite Hl in Hx. by apply elem_of_map_to_list in Hx. }
  step_ok. do 2 eexists. split; [done|]. split; [done|]. split; [congruence|].
  exists sv. cbn [rpc_service_name service_rpc_id RpcContext.servers app]. by rewrite Hl.
Qed.

Lemma read_services_ok s c R names acc :
  live s → RegRel root api (ms_view s) R → (∀ name, name ∈ names → is_Some (R !! name)) →
  ∃ s' infos, read_services root s c api names acc = Ok (s', acc ++ infos) ∧ live s' ∧ ms_view s' = ms_view s ∧
    Forall2 (describes R) names infos.
Proof.
  revert s acc. induction names as [|name names IH]; intros s acc Hs Hr Hn; cbn [read_services].
  { exists s, []. by rewrite app_nil_r. }
  destruct (Hn name ltac:(left)) as [sv Hsv].
  destruct (get_service_ok s c name sv R (MkServiceInfo [] 0 []) Hs Hr) as (s1&info&->&Hs1&Hv1&Hd);
    [by eapply (rr_name _ _ _ _ Hr)|done|]. step_ok.
  destruct (IH s1 (acc ++ [info]) Hs1) as (s2&infos&->&Hs2&Hv2&Hall);
    [by rewrite Hv1|intros x Hx; apply Hn; by right|].
  exists s2, (info :: infos). rewrite <- app_assoc. split; [done|]. split; [done|]. split; [congruence|].
  by constructor.
Qed.

Lemma get_services_ok s c R :
  RegInv s R →
  ∃ s' b infos, get_services root s c api = Ok (s', b, infos) ∧ RegInv s' R ∧ ms_view s' = ms_view s ∧
    Forall2 (describes R) (in_order (dom R)) infos ∧ (b = false → R = ∅).
Proof.
  intros [Hs Hl Hi Hr]. unfold get_services.
  pose proof (key_ok root Hroot Hsmall PATH_RPC api (proj2 (proj2 names_ok)) Hapi) as HA.
  destruct (tree_node_sub_eq root s c (PATH_RPC ++ [slash] ++ api) [] Hs HA) as (s1&->&Hs1&Hv1). step_ok.
  rewrite path_split. fold (RPC root). unfold t_sub.
  destruct (rr_api _ _ _ _ Hr) as [[v Hv]|[Hv ->]]; rewrite Hv; cbn [fst snd].
  2: { exists s1, false, []. split; [done|]. split; [by split; rewrite ?Hv1|]. split; [done|]. rewrite dom_empty_L. split; [|done].
       constructor. }
  assert (children_of (t_nodes (ms_view s)) (child (RPC root) api) = dom R) as ->.
  { apply set_eq. intros name. rewrite elem_children by apply slash_child. rewrite elem_of_dom. split.
    - intros [Hsl Hsome]. rewrite (rr_service _ _ _ _ Hr) in Hsome by done. by apply fmap_is_Some in Hsome.
    - intros [sv Hsv]. destruct (rr_name _ _ _ _ Hr name sv Hsv) as [[Hsl _] _]. split; [done|].
      rewrite (rr_service _ _ _ _ Hr), Hsv by done. by eexists. }
  destruct (read_services_ok s1 c R (in_order (dom R)) [] Hs1) as (s2&infos&->&Hs2&Hv2&Hall);
    [by rewrite Hv1|intros name; rewrite in_order_spec; apply elem_of_dom|].
  step_ok. exists s2, true, infos. split; [done|]. split; [|split; [congruence|done]].
  split; [done|..]; by rewrite Hv2, Hv1.
Qed.
End registry.
