(* ===== verification/Discovery.v ===== *)
(** * Service discovery: histories, the first client, and routing

    Registry.v proves what each operation does to the registry of an api.  Here the
    operations come in any order, from any connections; [MasterClient::initialize]
    (src/src/rpc/MasterClient.cpp) creates the state they start from; and
    [RpcService::update_ctx] (src/src/rpc/RpcService.cpp) turns what it reads into the
    routing tables of RpcContext.v. *)
From stdpp Require Import sorting.
From S2P Require Import Prelude Archive Serialize LazyArchive Message Master MasterClient Locks LexicalCast FairQueue RpcContext Dealers Nodes Registry.
Import TcpMasterClient.

(** ** Operations *)

(** Every operation names the connection it is called on. *)
Inductive reg_op :=
  | RegisterService (c : sock) (name : str)
  | DeregisterService (c : sock) (name : str)
  | RegisterServer (c : sock) (name : str) (rank sid : Z)
  | DeregisterServer (c : sock) (name : str) (sid : Z)
  | Lookup (c : sock)
  | Disconnect (c : sock).

Inductive reg_answer :=
  | ServiceId (rpc_id : Z)
  | ServerIds (rpc_id server_id : Z) (added : bool)
  | Done (b : bool)
  | Services (b : bool) (infos : list RpcServiceInfo)
  | Nothing.

Section histories.
Context {S : Type} `{!MasterService S} (root api : str).

Definition reg_exec (s : S) (op : reg_op) : result (S * reg_answer) :=
  match op with
  | RegisterService c name => '(s, _, id) ← register_rpc_service root s c ∅ api name; Ok (s, ServiceId id)
  | DeregisterService c name => '(s, _, b) ← deregister_rpc_service root s c ∅ api name; Ok (s, Done b)
  | RegisterServer c name rank sid =>
      '(s, _, (id, sid, b)) ← register_server root s c ∅ api name rank sid; Ok (s, ServerIds id sid b)
  | DeregisterServer c name sid => '(s, b) ← deregister_server root s c api name sid; Ok (s, Done b)
  | Lookup c => '(s, b, infos) ← get_services root s c api; Ok (s, Services b infos)
  | Disconnect c => s ← ms_drop s c; Ok (s, Nothing)
  end.

(** Names are keys, numbers are ints. *)
Definition op_ok (op : reg_op) : Prop :=
  match op with
  | RegisterService _ name | DeregisterService _ name => name_ok name
  | RegisterServer _ name rank sid => name_ok name ∧ in_signed 32 rank ∧ in_signed 32 sid
  | DeregisterServer _ name sid => name_ok name ∧ in_signed 32 sid
  | Lookup _ | Disconnect _ => True
  end.

Definition op_room (s : S) (op : reg_op) : Prop :=
  match op with
  | RegisterService _ name | DeregisterService _ name | RegisterServer _ name _ _ => reg_room root api s name
  | _ => True
  end.

(** *** What the operations mean for the registry

    [n] is the number a new service gets: larger than those in use. *)
Inductive reg_spec (R : gmap str service) : reg_op → reg_answer → gmap str service → Prop :=
  | spec_service c name n :
      (∀ name' sv, R !! name' = Some sv → sv_id sv < n) → 0 ≤ n →
      reg_spec R (RegisterService c name) (ServiceId (id_of R name n)) (with_service R name n)
  | spec_remove c name :
      reg_spec R (DeregisterService c name) (Done (reg_remove R name).2) (reg_remove R name).1
  | spec_server c name rank sid n m id sid' b :
      (∀ name' sv, R !! name' = Some sv → sv_id sv < n) → 0 ≤ n → 0 ≤ m →
      (reg_add R c name n m rank sid).2 = (id, sid', b) →
      reg_spec R (RegisterServer c name rank sid) (ServerIds id sid' b) (reg_add R c name n m rank sid).1
  | spec_del c name sid :
      reg_spec R (DeregisterServer c name sid) (Done (reg_del R name sid).2) (reg_del R name sid).1
  | spec_lookup c b infos :
      Forall2 (describes R) (in_order (dom R)) infos → (b = false → R = ∅) →
      reg_spec R (Lookup c) (Services b infos) R
  | spec_disconnect c : reg_spec R (Disconnect c) Nothing (drop_servers c <$> R).

Inductive spec_run : gmap str service → list (reg_op * reg_answer) → gmap str service → Prop :=
  | spec_nil R : spec_run R [] R
  | spec_cons R op a R1 tr R2 : reg_spec R op a R1 → spec_run R1 tr R2 → spec_run R ((op, a) :: tr) R2.

Inductive reg_run : S → list (reg_op * reg_answer) → S → Prop :=
  | run_nil s : reg_run s [] s
  | run_cons s op a s1 tr s2 :
      op_ok op → op_room s op → reg_exec s op = Ok (s1, a) → reg_run s1 tr s2 →
      reg_run s ((op, a) :: tr) s2.

(** *** The numbers of the services *)
Record RegGood (s : S) (R : gmap str service) : Prop := {
  rg_inv : RegInv root api s R;
  rg_below name sv : R !! name = Some sv → 0 ≤ sv_id sv < counter (ms_view s) (child (IDS root) api);
  rg_inj name name' sv sv' : R !! name = Some sv → R !! name' = Some sv' → sv_id sv = sv_id sv' → name = name';
}.

(** Registries with no other services than before. *)
Lemma good_sub s s' R R' :
  RegGood s R → RegInv root api s' R' →
  counter (ms_view s) (child (IDS root) api) ≤ counter (ms_view s') (child (IDS root) api) →
  (∀ name sv', R' !! name = Some sv' → ∃ sv, R !! name = Some sv ∧ sv_id sv = sv_id sv') →
  RegGood s' R'.
Proof.
  intros [Hinv Hb Hj] Hinv' Hc Hsub. split; [done| |].
  - intros name sv' (sv&Hsv&<-)%Hsub. specialize (Hb name sv Hsv). lia.
  - intros name name' sv1 sv2 (sv&Hsv&<-)%Hsub (sv'&Hsv'&<-)%Hsub. eauto.
Qed.

(** A service that may be new. *)
Lemma good_add s s' R R' name :
  let n := counter (ms_view s) (child (IDS root) api) in
  RegGood s R → 0 ≤ n → RegInv root api s' R' →
  counter (ms_view s') (child (IDS root) api) = (if decide (R !! name = None) then n + 1 else n) →
  (∀ name' sv', R' !! name' = Some sv' →
     (∃ sv, R !! name' = Some sv ∧ sv_id sv = sv_id sv') ∨ name' = name ∧ R !! name = None ∧ sv_id sv' = n) →
  RegGood s' R'.
Proof.
  intros n [Hinv Hb Hj] Hn Hinv' Hc Hsub. split; [done| |].
  - intros name' sv' [(sv&Hsv&<-)|(->&Hno&->)]%Hsub; rewrite Hc.
    + specialize (Hb name' sv Hsv). unfold n in *. case_decide; lia.
    + rewrite decide_True by done. lia.
  - intros n1 n2 sv1 sv2 [(sv&Hsv&<-)|(->&Hno&->)]%Hsub [(sv'&Hsv'&<-)|(->&Hno'&->)]%Hsub E; eauto.
    + specialize (Hb _ _ Hsv). unfold n in *. lia.
    + specialize (Hb _ _ Hsv'). unfold n in *. lia.
Qed.

Context (Hroot : ∃ p, good_path p ∧ root = p ++ [slash]) (Hsmall : small root) (Hapi : name_ok api).

Lemma good_counter s R : RegGood s R → 0 ≤ counter (ms_view s) (child (IDS root) api).
Proof. intros [[_ _ [Hd _] _] _ _]. apply Hd. apply Hapi. Qed.

Lemma with_service_old R name n name' sv' :
  with_service R name n !! name' = Some sv' →
  (∃ sv, R !! name' = Some sv ∧ sv_id sv = sv_id sv') ∨ name' = name ∧ R !! name = None ∧ sv_id sv' = n.
Proof.
  unfold with_service. destruct (R !! name) as [sv|] eqn:E; [eauto|].
  intros [[<- <-]|[_ ?]]%lookup_insert_Some; eauto.
Qed.

Lemma reg_add_old R c name n m rank sid name' sv' :
  (reg_add R c name n m rank sid).1 !! name' = Some sv' →
  (∃ sv, R !! name' = Some sv ∧ sv_id sv = sv_id sv') ∨ name' = name ∧ R !! name = None ∧ sv_id sv' = n.
Proof.
  unfold reg_add. case_match; cbn [fst]; [apply with_service_old|].
  intros [[<- <-]|[_ Hs]]%lookup_insert_Some; [|by eapply with_service_old].
  cbn [sv_id]. unfold id_of. destruct (R !! name) as [sv|]; eauto.
Qed.

Lemma reg_exec_ok s op R :
  RegGood s R → op_ok op → op_room s op →
  ∃ s' a R', reg_exec s op = Ok (s', a) ∧ reg_spec R op a R' ∧ RegGood s' R'.
Proof.
  intros Hg Hop Hroom. pose proof (good_counter s R Hg) as Hn.
  assert (Hlt : ∀ name' sv, R !! name' = Some sv → sv_id sv < counter (ms_view s) (child (IDS root) api))
    by (intros name' sv Hsv; apply (rg_below _ _ Hg name' sv Hsv)).
  destruct op as [c name|c name|c name rank sid|c name sid|c|c]; cbn [reg_exec op_ok op_room] in *.
  - destruct (register_rpc_service_ok root api Hroot Hsmall Hapi s c name R (rg_inv _ _ Hg) Hop Hroom)
      as (s'&->&Hinv&Hc&_). step_ok. do 3 eexists. split; [done|]. split; [by constructor|].
    eapply (good_add s _ R _ name); [done|done|done| |by apply with_service_old].
    rewrite Hc by apply (proj1 (proj1 Hapi)). repeat case_decide; naive_solver.
  - destruct (deregister_rpc_service_ok root api Hroot Hsmall Hapi s c name R (rg_inv _ _ Hg) Hop Hroom)
      as (s'&->&Hinv&Hc&_). step_ok. do 3 eexists. split; [done|]. split; [by constructor|].
    eapply (good_sub s); [done|done|lia|]. intros name' sv'. unfold reg_remove. cbn [fst].
    case_match; [|eauto]. intros [_ ?]%lookup_delete_Some. eauto.
  - destruct Hop as (Hname&Hrank&Hsid).
    destruct (register_server_ok root api Hroot Hsmall Hapi s c name rank sid R (rg_inv _ _ Hg) Hname Hroom Hsid Hrank)
      as (s'&->&Hinv&Hc&_). destruct (reg_add R c name _ _ rank sid).2 as [[id sid'] b] eqn:E. step_ok.
    do 3 eexists. split; [done|]. split; [eapply spec_server; [done|done| |exact E]|].
    + destruct (rg_inv _ _ Hg) as [_ _ [Hd _] _]. apply Hd.
      destruct (rpc_key_ok api Hapi name Hname (room_key _ _ _ _ Hroom)) as [[[? _] _] _]. done.
    + eapply (good_add s _ R _ name); [done|done|done|exact Hc|]. intros name' sv'. apply reg_add_old.
  - destruct Hop as [Hname Hsid].
    destruct (deregister_server_ok root api Hroot Hsmall Hapi s c name sid R (rg_inv _ _ Hg) Hname Hsid)
      as (s'&->&Hinv&Hc&_). step_ok. do 3 eexists. split; [done|]. split; [by constructor|].
    eapply (good_sub s); [done|done|lia|]. intros name' sv'. unfold reg_del. case_match; cbn [fst]; [|eauto].
    intros [[<- <-]|[_ ?]]%lookup_insert_Some; eauto.
  - destruct (get_services_ok root api Hroot Hsmall Hapi s c R (rg_inv _ _ Hg)) as (s'&b&infos&->&Hinv&Hv&Hd&Hb).
    step_ok. do 3 eexists. split; [done|]. split; [by constructor|].
    eapply (good_sub s); [done|done|by rewrite Hv|eauto].
  - destruct (drop_ok root api Hroot Hsmall s c R (rg_inv _ _ Hg)) as (s'&->&Hinv&Hc). step_ok.
    do 3 eexists. split; [done|]. split; [by constructor|].
    eapply (good_sub s); [done|done|by rewrite Hc|]. intros name sv' (sv&<-&Hsv)%lookup_fmap_Some. eauto.
Qed.

Lemma reg_run_refines s tr s' R :
  reg_run s tr s' → RegGood s R → ∃ R', spec_run R tr R' ∧ RegGood s' R'.
Proof.
  intros Hrun. revert R. induction Hrun as [s|s op a s1 tr s2 Hop Hroom He _ IH]; intros R Hg.
  { exists R. split; [constructor|done]. }
  destruct (reg_exec_ok s op R Hg Hop Hroom) as (s'&a'&R1&He'&Hsp&Hg1). rewrite He in He'. injection He' as <- <-.
  destruct (IH R1 Hg1) as (R'&Hrun'&Hg'). exists R'. split; [by econstructor|done].
Qed.
End histories.

(** ** The first client *)
Definition PATH_NODE : str := lit "_node_".
Definition PATH_TASK_STATE : str := lit "_task_state_".
Definition PATH_BARRIER : str := lit "_barrier_".
Definition PATH_CONTEXT : str := lit "_context_".
Definition PATH_MODEL : str := lit "_model_".

Definition top_paths : list str :=
  [PATH_NODE; PATH_TASK_STATE; PATH_RPC; PATH_GENERATE_ID; PATH_LOCK; PATH_BARRIER; PATH_CONTEXT; PATH_MODEL].

Section start.
Context {S : Type} `{!MasterService S}.
(** [boost::split(segs, path, boost::is_any_of(sep))] with the separator ['/']. *)
Context (split : str → list str).

(** The loop over the pieces of the root path; [_root_path] is empty meanwhile. *)
Fixpoint add_segs (s : S) (c : sock) (cur : str) (segs : list str) : result S :=
  match segs with
  | [] => Ok s
  | seg :: segs =>
      if decide (seg = []) then add_segs s c cur segs
      else
        let cur := cur ++ [slash] ++ seg in
        '(s, _) ← tree_node_add [] s c cur [] false; add_segs s c cur segs
  end.

Fixpoint add_tops (_root_path : str) (s : S) (c : sock) (paths : list str) : result S :=
  match paths with
  | [] => Ok s
  | path :: paths => '(s, _) ← tree_node_add _root_path s c path [] false; add_tops _root_path s c paths
  end.

Definition initialize (_root_path : str) (s : S) (c : sock) : result S :=
  s ← add_segs s c [] (split _root_path); add_tops _root_path s c top_paths.

(** A tree of permanent nodes without values. *)
Record Fresh (t : tree) (L : list str) : Prop := {
  fr_node q : node t q = if decide (q ∈ L) then Some (None, []) else None;
  fr_counter q : counter t q = 0;
}.

Lemma fresh_add t L c p : Fresh t L → parent_of p ∈ L → Fresh (t_add t c p [] false).1 (p :: L).
Proof.
  intros [Hn Hc] Hp. destruct (decide (p ∈ L)) as [Hin|Hin].
  - rewrite add_old by (rewrite Hn, decide_True by done; by eexists). split; [|done].
    intros q. cbn [fst]. rewrite Hn. apply decide_ext. rewrite elem_of_cons. naive_solver.
  - rewrite (add_new t c p [] false []); [|by rewrite Hn, decide_True|by rewrite Hn, decide_False]. cbn [fst].
    split; [|done]. intros q. rewrite node_insert, Hn. repeat case_decide; rewrite elem_of_cons in *; naive_solver.
Qed.

(** A call before or after the root exists. *)
Lemma add_first root s c path L :
  ms_good s → Fresh (t_root (ms_view s)) L → [] ∈ L → path_ok (root ++ path) → parent_of (root ++ path) ∈ L →
  ∃ s' b, tree_node_add root s c path [] false = Ok (s', b) ∧ ms_good s' ∧
    Fresh (ms_view s') ((root ++ path) :: L) ∧ t_root (ms_view s') = ms_view s'.
Proof.
  intros Hs Hf Hnil Hp Hpar. unfold tree_node_add, RETRY_MASTER_METHOD. rewrite (proj1 Hp). step_ok.
  destruct (retry_spec s c (master_add (root ++ path) [] false) Hs (proj1 Hp)) as (s'&resp&ch&->&Hs'&Hsp);
    [by apply str_ok_lt, Hp|by apply str_ok_lt|done|]. step_ok.
  assert (Hv : ms_view s' = (t_add (t_root (ms_view s)) c (root ++ path) [] false).1).
  { cbn [request_of spec_op] in Hsp. rewrite (proj1 Hp) in Hsp. unfold t_add, node.
    repeat case_match; simplify_eq; done. }
  do 2 eexists. split; [done|]. split; [done|]. rewrite Hv. pose proof (fresh_add _ L c _ Hf Hpar) as Hf'.
  split; [done|]. apply rooted. rewrite (fr_node _ _ Hf'), decide_True by by right. by eexists.
Qed.

Lemma add_tops_ok root p c paths : ∀ s L,
  root = p ++ [slash] → good_path p → small root → Forall name_ok paths →
  ms_good s → Fresh (t_root (ms_view s)) L → [] ∈ L → p ∈ L →
  ∃ s', add_tops root s c paths = Ok s' ∧ ms_good s' ∧ (t_root (ms_view s') = ms_view s' ∨ paths = [] ∧ s' = s) ∧
    ∃ L', Fresh (t_root (ms_view s')) L' ∧ ∀ q, q ∈ L' ↔ q ∈ L ∨ ∃ d, d ∈ paths ∧ q = root ++ d.
Proof.
  induction paths as [|d paths IH]; intros s L -> Hp Hsm Hok Hs Hf Hnil HpL; cbn [add_tops].
  { exists s. split; [done|]. split; [done|]. split; [by right|]. exists L. split; [done|].
    intros q. split; [auto|]. intros [?|(d&?%elem_of_nil&_)]; done. }
  apply Forall_cons in Hok as [Hd Hok].
  assert (Hpath : path_ok ((p ++ [slash]) ++ d)) by (apply dir_ok; [by exists p|done|done]).
  destruct (add_first (p ++ [slash]) s c d L Hs Hf Hnil Hpath) as (s1&b&->&Hs1&Hf1&Hr1).
  { rewrite <- app_assoc. change (p ++ [slash] ++ d) with (child p d). rewrite parent_child; [done|apply Hd]. }
  step_ok. destruct (IH s1 (((p ++ [slash]) ++ d) :: L)) as (s'&->&Hs'&Hr&L'&Hf'&HL'); try done.
  { by rewrite Hr1. }
  { by right. }
  { by right. }
  exists s'. split; [done|]. split; [done|]. split.
  - left. by destruct Hr as [?|[_ ->]].
  - exists L'. split; [done|]. intros q. rewrite HL', elem_of_cons. setoid_rewrite elem_of_cons. naive_solver.
Qed.

(** The pieces of the root path. *)
Lemma rooted_cons seg segs : MasterClient.rooted (seg :: segs) = [slash] ++ seg ++ MasterClient.rooted segs.
Proof. done. Qed.

Lemma rooted_slash segs : ∃ r, MasterClient.rooted segs ++ [slash] = slash :: r.
Proof. destruct segs; [by exists []|]. rewrite rooted_cons. by eexists. Qed.

Lemma rooted_inj xs : ∀ ys, Forall (λ seg, slash ∉ seg) xs → Forall (λ seg, slash ∉ seg) ys →
  MasterClient.rooted xs = MasterClient.rooted ys → xs = ys.
Proof.
  induction xs as [|x xs IH]; intros [|y ys] Hx Hy E; try done. rewrite !rooted_cons in E.
  apply Forall_cons in Hx as [Hx Hxs], Hy as [Hy Hys]. apply app_inv_head in E.
  assert (x = y) as ->.
  { destruct (rooted_slash xs) as [r Hr], (rooted_slash ys) as [r' Hr'].
    apply (f_equal (λ l, l ++ [slash])) in E. rewrite <- !app_assoc, Hr, Hr' in E. by apply segment_inj in E. }
  apply app_inv_head in E. f_equal. by apply IH.
Qed.

Hypothesis split_spec : ∀ s, join (split s) = s ∧ Forall (λ seg, slash ∉ seg) (split s) ∧ split s ≠ [].

Lemma split_root p : good_path p →
  ∃ segs, split (p ++ [slash]) = [] :: segs ++ [[]] ∧ MasterClient.rooted segs = p ∧ Forall good_key segs.
Proof.
  intros Hp. assert (∃ segs, MasterClient.rooted segs = p ∧ Forall good_key segs) as (segs&Hr&Hg).
  { destruct Hp as [->|Hv]; [by exists []|].
    destruct (split_valid split split_spec p Hv) as (segs&_&->&Hg). by exists segs. }
  exists segs. split; [|done]. destruct (split_spec (p ++ [slash])) as (Hj&Hs&Hne).
  destruct (split (p ++ [slash])) as [|x xs]; [done|]. rewrite join_rooted in Hj.
  apply Forall_cons in Hs as [Hx Hxs].
  assert (x = []) as ->.
  { destruct x as [|b x]; [done|]. exfalso. apply Hx. destruct (rooted_slash segs) as [r Hr'].
    rewrite Hr in Hr'. rewrite Hr' in Hj. injection Hj as -> _. left. }
  f_equal. apply rooted_inj; [done| |].
  - apply Forall_app. split; [|by repeat constructor; apply not_elem_of_nil].
    eapply Forall_impl; [exact Hg|]. by intros y [? _].
  - cbn [app] in Hj. rewrite Hj. unfold MasterClient.rooted in *. rewrite bind_app, Hr. done.
Qed.

Lemma add_segs_ok c segs : ∀ s cur L,
  Forall good_key segs → good_path cur → Z.of_nat (length (cur ++ MasterClient.rooted segs)) < 2 ^ 64 →
  ms_good s → Fresh (t_root (ms_view s)) L → [] ∈ L → cur ∈ L →
  ∃ s', add_segs s c cur (segs ++ [[]]) = Ok s' ∧ ms_good s' ∧
    ∃ L', Fresh (t_root (ms_view s')) L' ∧ (∀ q, q ∈ L → q ∈ L') ∧ cur ++ MasterClient.rooted segs ∈ L' ∧
      ∀ q, q ∈ L' → q ∈ L ∨ (length q ≤ length (cur ++ MasterClient.rooted segs))%nat.
Proof.
  induction segs as [|seg segs IH]; intros s cur L Hg Hcur Hlen Hs Hf Hnil HcL.
  { cbn [app add_segs]. rewrite decide_True by done. exists s. rewrite app_nil_r. split; [done|].
    split; [done|]. exists L. auto. }
  apply Forall_cons in Hg as [Hseg Hg]. cbn [app add_segs]. rewrite decide_False by apply Hseg.
  rewrite rooted_cons, !app_assoc in *. rewrite <- (app_assoc cur) in *.
  change (cur ++ [slash] ++ seg) with (child cur seg) in *.
  destruct (add_first [] s c (child cur seg) L Hs Hf Hnil) as (s1&b&He&Hs1&Hf1&Hr1).
  { split; [by apply valid_child|]. cbn [app]. len. }
  { cbn [app]. rewrite parent_child; [done|apply Hseg]. }
  cbn [app] in Hf1. change (slash :: seg) with ([slash] ++ seg). fold (child cur seg). rewrite He. step_ok.
  destruct (IH s1 (child cur seg) (child cur seg :: L)) as (s'&He'&Hs'&L'&Hf'&Hsub&Hin&Hall); try done.
  { right. by apply valid_child. }
  { by rewrite Hr1. }
  { by right. }
  { left. }
  exists s'. split; [done|]. split; [done|]. exists L'. split; [done|]. split; [intros q Hq; apply Hsub; by right|].
  split; [done|]. intros q [Hq|?]%Hall; [|by right]. apply elem_of_cons in Hq as [->|?]; [right|by left].
  len.
Qed.

Lemma fresh_good root api s L :
  ms_good s → Fresh (ms_view s) L → [] ∈ L →
  (∀ d, d ∈ top_paths → node (ms_view s) (root ++ d) = Some (None, [])) →
  (∀ d q, d ∈ top_paths → under (root ++ d) q → node (ms_view s) q = None) →
  RegGood root api s ∅.
Proof.
  intros Hs Hf Hnil Hdir Hnone.
  assert (Hlive : live s) by (split; [done|]; rewrite (fr_node _ _ Hf), decide_True by done; by eexists).
  assert (Htop : PATH_RPC ∈ top_paths ∧ PATH_GENERATE_ID ∈ top_paths ∧ PATH_LOCK ∈ top_paths).
  { split; [apply (list_elem_of_lookup_2 _ 2)|split; [apply (list_elem_of_lookup_2 _ 3)|apply (list_elem_of_lookup_2 _ 4)]]; done. }
  destruct Htop as (Hr&Hi&Hl).
  assert (Hcd : ∀ d, d ∈ top_paths → CounterDir (root ++ d) (ms_view s)).
  { intros d Hd. split; [by eexists; apply Hdir| |].
    - intros key o v _. by rewrite (Hnone d) by auto with prpc.
    - intros key _. by rewrite (fr_counter _ _ Hf). }
  split; [split; [done|..]|done|done].
  - split; [by apply Hcd|]. intros key k _ _. apply (Hnone _ _ Hl). unfold LOCK. auto with prpc.
  - split; [by apply Hcd|]. intros key k _ _. unfold IDS. rewrite (Hnone _ _ Hi) by auto with prpc. by intros [? ?].
  - assert (Hn : ∀ q, under (RPC root) q → node (ms_view s) q = None) by (intros q Hq; by apply (Hnone _ _ Hr)).
    split; try done; [by eexists; apply Hdir|right; split; [|done]|]; intros; by rewrite Hn by auto with prpc.
Qed.

(** The directories are there and empty. *)
Record Started (root : str) (t : tree) : Prop := {
  st_dir d : d ∈ top_paths → node t (root ++ d) = Some (None, []);
  st_empty d q : d ∈ top_paths → under (root ++ d) q → node t q = None;
}.

Lemma initialize_fresh p s c :
  good_path p → small (p ++ [slash]) → ms_good s → t_nodes (ms_view s) = ∅ → t_gen (ms_view s) = ∅ →
  ∃ s', initialize (p ++ [slash]) s c = Ok s' ∧ ms_good s' ∧ Started (p ++ [slash]) (ms_view s') ∧
    ∃ L, Fresh (ms_view s') L ∧ [] ∈ L.
Proof.
  intros Hp Hsm Hs Hnodes Hgen. destruct (split_root p Hp) as (segs&Hsp&Hr&Hg).
  assert (Hf : Fresh (t_root (ms_view s)) [[]]).
  { unfold t_root. rewrite Hnodes, lookup_empty, Hgen. split; [|done]. intros q. unfold node. cbn [t_nodes].
    destruct (decide (q = [])) as [->|Hq]; [by rewrite decide_True by left|].
    rewrite lookup_insert_ne, lookup_empty, decide_False; [done| |done]. by rewrite list_elem_of_singleton. }
  unfold initialize. rewrite Hsp. cbn [add_segs]. rewrite decide_True by done.
  destruct (add_segs_ok c segs s [] [[]]) as (s1&->&Hs1&L1&Hf1&Hsub1&Hp1&HL1); try done.
  { by left. }
  { cbn [app]. rewrite Hr. unfold small in Hsm. len. }
  { left. }
  { left. }
  step_ok. cbn [app] in *. rewrite Hr in *.
  assert (Hok : Forall name_ok top_paths).
  { repeat constructor; try (vm_compute; done); vm_compute; set_solver. }
  destruct (add_tops_ok (p ++ [slash]) p c top_paths s1 L1) as (s2&->&Hs2&Hroot2&L2&Hf2&HL2); try done.
  { apply Hsub1. left. }
  exists s2. split; [done|]. destruct Hroot2 as [Hroot2|[? _]]; [|done]. rewrite Hroot2 in Hf2.
  assert (Hdir : ∀ d, d ∈ top_paths → node (ms_view s2) ((p ++ [slash]) ++ d) = Some (None, [])).
  { intros d Hd. rewrite (fr_node _ _ Hf2), decide_True; [done|]. apply HL2. eauto. }
  assert (Hnone : ∀ d q, d ∈ top_paths → under ((p ++ [slash]) ++ d) q → node (ms_view s2) q = None).
  { intros d q Hd Hq. rewrite (fr_node _ _ Hf2), decide_False; [done|]. intros [Hin|(d'&Hd'&E)]%HL2.
    - destruct Hq as [r ->]. apply HL1 in Hin as [Hin|Hin]; [|len].
      apply list_elem_of_singleton in Hin. by destruct p.
    - subst q. revert Hq. apply not_under_sibling. eapply Forall_forall in Hok; [|exact Hd']. apply Hok. }
  split; [done|]. split; [by split|]. exists L2. split; [done|]. apply HL2. left. apply Hsub1. left.
Qed.

Lemma initialize_ok p api s c :
  good_path p → small (p ++ [slash]) → name_ok api → ms_good s → t_nodes (ms_view s) = ∅ → t_gen (ms_view s) = ∅ →
  ∃ s', initialize (p ++ [slash]) s c = Ok s' ∧ RegGood (p ++ [slash]) api s' ∅ ∧ Started (p ++ [slash]) (ms_view s').
Proof.
  intros Hp Hsm Hapi Hs Hnodes Hgen.
  destruct (initialize_fresh p s c Hp Hsm Hs Hnodes Hgen) as (s'&He&Hs'&[Hd Hn]&L&Hf&Hnil).
  exists s'. split; [done|]. split; [by apply (fresh_good _ api s' L)|done].
Qed.
End start.

(** ** Routing *)
Section routing.
Context {S : Type} `{!MasterService S} (root api : str) {B : Type}.
#[local] Abbreviation ctx := (@RpcContext.ctx B).

(** The part of [RpcService::update_ctx] that refreshes the services. *)
Definition update_services (s : S) (k : sock) (c : ctx)
    (iter : gmap (list byte) RpcServiceInfo → list (list byte * RpcServiceInfo)) : result (S * ctx) :=
  '(s, ret, rpc_info) ← get_services root s k api;
  if (ret : bool) then c ← update_service_info c iter rpc_info; Ok (s, c) else Ok (s, c).

(** The servers of a registry can be packed into routing keys and have ranks of processes. *)
Definition routable (R : gmap str service) : Prop :=
  ∀ name sv sid d rank, R !! name = Some sv → sv_servers sv !! sid = Some (d, rank) →
    0 ≤ sid < 1000000007 ∧ in_signed 16 rank.

(** A server the registry lists, by the numbers of its service and itself. *)
Definition listed (R : gmap str service) (id sid rank : Z) : Prop :=
  ∃ name sv d, R !! name = Some sv ∧ sv_id sv = id ∧ sv_servers sv !! sid = Some (d, rank).

Lemma describes_names R names infos :
  Forall2 (describes R) names infos → rpc_service_name <$> infos = names.
Proof. induction 1 as [|name info names infos (sv&_&Hn&_) _ IH]; [done|]. cbn. by rewrite Hn, IH. Qed.

Lemma describes_server R name info s :
  describes R name info → s ∈ servers info →
  ∃ sv d rank, R !! name = Some sv ∧ service_rpc_id info = sv_id sv ∧
    sv_servers sv !! server_id s = Some (d, rank) ∧ server_rank s = i16 rank.
Proof.
  intros (sv&Hsv&_&Hid&Hp) Hs. rewrite Hp in Hs. apply list_elem_of_fmap in Hs as ([sid [d rank]]&->&Hs).
  apply elem_of_map_to_list in Hs. cbn. eauto 10.
Qed.

Lemma NoDup_in_order X : NoDup (in_order X).
Proof. unfold in_order. rewrite merge_sort_Permutation. apply NoDup_elements. Qed.

Lemma NoDup_server_ids R name info : describes R name info → NoDup (server_id <$> servers info).
Proof.
  intros (sv&_&_&_&->). rewrite <- list_fmap_compose.
  change (server_id ∘ server_info) with (fst : Z * (sock * Z) → Z). apply NoDup_fst_map_to_list.
Qed.

Lemma entries_listed (c : ctx) R names infos i s :
  Forall2 (describes R) names infos → routable R → (i, s) ∈ entries c infos →
  listed R i (server_id s) (server_rank s) ∧ 0 ≤ server_id s < 1000000007.
Proof.
  intros Hd Hr (info&Hin&<-&Hs&_)%entries_elem.
  apply list_elem_of_lookup in Hin as [j Hj]. eapply Forall2_lookup_r in Hd as (name&_&Hdj); [|exact Hj].
  destruct (describes_server R name info s Hdj Hs) as (sv&d&rank&Hsv&->&Hsid&->).
  destruct (Hr name sv _ d rank Hsv Hsid) as [H1 H2]. rewrite swrap_small by (done || lia).
  split; [|done]. exists name, sv, d. done.
Qed.

Lemma listed_entries (c : ctx) R infos i sid rank :
  Forall2 (describes R) (in_order (dom R)) infos → routable R → listed R i sid rank →
  is_Some (_client_sockets c !! rank) → (i, MkServerInfo sid rank) ∈ entries c infos.
Proof.
  intros Hd Hr (name&sv&d&Hsv&<-&Hsid) Hk. apply entries_elem.
  assert (name ∈ in_order (dom R)) as Hn by (apply in_order_spec, elem_of_dom; by eexists).
  apply list_elem_of_lookup in Hn as [j Hj]. eapply Forall2_lookup_l in Hd as (info&Hinfo&Hdj); [|exact Hj].
  exists info. split; [by eapply list_elem_of_lookup_2|]. destruct Hdj as (sv'&Hsv'&_&Hid&Hp).
  rewrite Hsv in Hsv'. injection Hsv' as <-. split; [done|]. split; [|done]. rewrite Hp.
  apply list_elem_of_fmap. exists (sid, (d, rank)). unfold server_info. cbn.
  destruct (Hr name sv sid d rank Hsv Hsid) as [_ H2]. rewrite swrap_small by (done || lia). split; [done|].
  by apply elem_of_map_to_list.
Qed.

Lemma NoDup_entries (c : ctx) R names infos :
  Forall2 (describes R) names infos → NoDup names →
  (∀ name name' sv sv', R !! name = Some sv → R !! name' = Some sv' → sv_id sv = sv_id sv' → name = name') →
  NoDup (key_of_server <$> entries c infos).
Proof.
  intros Hd Hnd Hinj. induction Hd as [|name info names infos Hdi Hd IH]; [constructor|].
  apply NoDup_cons in Hnd as [Hnot Hnd].
  change (entries c (info :: infos)) with
    ((pair (service_rpc_id info) <$> servers (known_servers c info)) ++ entries c infos).
  rewrite fmap_app, <- list_fmap_compose. apply NoDup_app. split; [|split; [|by apply IH]].
  - change (key_of_server ∘ pair (service_rpc_id info)) with (pair (service_rpc_id info) ∘ server_id).
    rewrite list_fmap_compose. apply (NoDup_fmap_2 _). cbn [known_servers servers].
    eapply sublist_NoDup; [by eapply NoDup_server_ids|apply fmap_sublist, sublist_filter].
  - intros [i k] (s&E&Hs)%list_elem_of_fmap ([i' s']&E'&Hs')%list_elem_of_fmap. cbn in E, E'.
    injection E as -> ->. injection E' as Ei _. cbn [known_servers servers] in Hs.
    apply list_elem_of_filter in Hs as [_ Hs]. destruct (describes_server _ _ _ _ Hdi Hs) as (sv&_&_&Hsv&Hid&_).
    apply entries_elem in Hs' as (info'&Hin&Hid'&_). apply list_elem_of_lookup in Hin as [j Hj].
    eapply Forall2_lookup_r in Hd as (name'&Hj'&(sv'&Hsv'&_&Hid2&_)); [|exact Hj].
    apply Hnot. rewrite (Hinj name name' sv sv' Hsv Hsv'); [by eapply list_elem_of_lookup_2|congruence].
Qed.
End routing.

(** ** Properties *)


(** A registered server is routed to.  Take a state of the registry and refresh the
    routing tables of a process from it.  This succeeds; afterwards a request addressed
    to a registered server goes to the frontend of the rank the server registered with,
    whenever the process knows that rank, and an address that is not registered finds
    nobody.  (Numbers of servers have to be non-negative and below the modulus of the
    packed keys, ranks have to fit into 16 bits.) *)
Lemma registered_server_is_routed {S : Type} `{!MasterService S} {B : Type} (root api : str)
    (s : S) (k : sock) (R : gmap str service) (c : @RpcContext.ctx B)
    (iter : gmap (list byte) RpcServiceInfo → list (list byte * RpcServiceInfo)) :
  (∃ p, good_path p ∧ root = p ++ [slash]) → small root → name_ok api →
  RegGood root api s R → routable R → (∀ m, iter m ≡ₚ map_to_list m) →
  ∃ s' c', update_services root api s k c iter = Ok (s', c') ∧
  live s' ∧ ms_view s' = ms_view s ∧ fronts c' = fronts c ∧ _client_sockets c' = _client_sockets c ∧
  same_roles c c' ∧
  (∀ id sid rank, listed R id sid rank → is_Some (_client_sockets c !! rank) →
     get_client_frontend_by_sid c' id sid = get_client_frontend_by_rank c rank) ∧
  (R ≠ ∅ → ∀ id sid, 0 ≤ id < 2 ^ 31 → 0 ≤ sid < 1000000007 → (∀ rank, ¬ listed R id sid rank) →
     get_client_frontend_by_sid c' id sid = None).
Proof.
  intros Hroot Hsm Hapi HR Hr Hiter. unfold update_services.
  destruct (get_services_ok root api Hroot Hsm Hapi s k R (rg_inv _ _ _ _ HR)) as (s'&b&infos&->&Hinv'&Hv'&Hd&Hb). step_ok.
  destruct b.
  2: { rewrite (Hb eq_refl) in *. exists s', c. split; [done|]. do 5 (split; [apply Hinv' || done|]). split; [|done].
       by intros id sid rank (name&sv&d&?&_). }
  assert (Hrange : Forall in_range (entries c infos)).
  { apply Forall_forall. intros [i x] Hx. destruct (entries_listed c R _ infos i x Hd Hr Hx)
      as ((name&sv&d&Hsv&Hid&_)&Hsid). split; [|done]. cbn [fst]. rewrite <- Hid.
    pose proof (rg_below _ _ _ _ HR name sv Hsv) as H0. destruct (rg_inv _ _ _ _ HR) as [_ _ _ Hrel].
    pose proof (rr_id _ _ _ _ Hrel name sv Hsv). unfold in_signed in *. lia. }
  destruct (update_service_info_tables c iter infos) as (c'&L&He&HL&Ht&Hf&Hcl&_); [done| |done| |].
  { rewrite (describes_names R _ infos Hd). apply NoDup_in_order. }
  { eapply NoDup_entries; [done|apply NoDup_in_order|apply (rg_inj _ _ _ _ HR)]. }
  pose proof (update_service_info_roles c iter infos c' He) as Hroles. rewrite He. step_ok. exists s', c'.
  split; [done|]. do 5 (split; [apply Hinv' || done|]).
  assert (Hk : ∀ x, x ∈ L → is_Some (_client_sockets c' !! server_rank x.2)).
  { intros [i x]. rewrite HL, Hcl. by intros (?&_&_&_&?)%entries_elem. }
  split.
  - intros id sid rank Hlist Hsome. pose proof (listed_entries c R infos id sid rank Hd Hr Hlist Hsome) as Hin.
    rewrite <- HL in Hin. pose proof (by_sid_listed c' L Ht Hk id (MkServerInfo sid rank) Hin) as E.
    cbn [server_id server_rank] in E. rewrite E.
    unfold get_client_frontend_by_rank, is_available. by rewrite Hf, Hcl.
  - intros _ id sid Hid Hsid Hno. apply (by_sid_unlisted c' L Ht); [by rewrite HL|done|done|].
    intros x Hx. rewrite HL in Hx. intros <-. by destruct (entries_listed c R _ infos id x Hd Hr Hx) as [Hl _]; destruct (Hno _ Hl).
Qed.

(** ** Witnesses *)

(** Operations run one after the other. *)
Section running.
Context {S : Type} `{!MasterService S} (root api : str).

#[global] Instance reg_room_dec (s : S) name : Decision (reg_room root api s name).
Proof.
  destruct (decide (small (rpc_key api name) ∧ counter (ms_view s) (child (IDS root) api) < 2 ^ 31 - 1 ∧
    counter (ms_view s) (child (IDS root) (rpc_key api name)) < 2 ^ 31 - 1 ∧
    counter (ms_view s) (child (LOCK root) (rpc_key api name)) < 2 ^ 31 - 1)) as [H|H].
  - left. by destruct H as (?&?&?&?).
  - right. intros []. by destruct H.
Defined.

#[global] Instance op_room_dec (s : S) op : Decision (op_room root api s op).
Proof. destruct op; cbn; apply _. Defined.

Fixpoint run_ops (s : S) (ops : list reg_op) : result (S * list (reg_op * reg_answer)) :=
  match ops with
  | [] => Ok (s, [])
  | op :: ops =>
      _ ← SCHECK (bool_decide (op_room root api s op));
      '(s, a) ← reg_exec root api s op;
      '(s, tr) ← run_ops s ops;
      Ok (s, (op, a) :: tr)
  end.

Lemma run_ops_run ops : ∀ s s' tr, Forall op_ok ops → run_ops s ops = Ok (s', tr) → reg_run root api s tr s'.
Proof.
  induction ops as [|op ops IH]; intros s s' tr Hops; cbn [run_ops]; [intros [= <- <-]; constructor|].
  apply Forall_cons in Hops as [Hop Hops].
  destruct (bool_decide_reflect (op_room root api s op)) as [Hroom|]; [|done]. step_ok.
  rewrite bind_ok. intros ([s1 a]&He&Hr). apply bind_ok in Hr as ([s2 tr2]&Hr&[= <- <-]).
  by econstructor; [done|done|exact He|apply IH].
Qed.
End running.

Definition demo_api : str := lit "api".
Definition demo_name : str := lit "svc".
Definition demo_ops : list reg_op :=
  [RegisterServer 1 demo_name 1 (-1); RegisterServer 2 demo_name 0 5; RegisterService 1 (lit "other");
   RegisterServer 2 demo_name 0 5; Lookup 1].

Lemma demo_ops_ok : Forall op_ok demo_ops.
Proof.
  repeat constructor; unfold in_signed; try (vm_compute; done); try lia; vm_compute; set_solver.
Qed.

Lemma demo_names : name_ok demo_api ∧ small ([] ++ [slash]).
Proof. split; [split; [split|]|]; try (vm_compute; done). vm_compute. set_solver. Qed.

#[local] Abbreviation demo_init := (@initialize Master example_service split_slash ([] ++ [slash]) init 1%nat).
#[local] Abbreviation demo_run s := (@run_ops Master example_service ([] ++ [slash]) demo_api s demo_ops).

Lemma demo_answers :
  match demo_init with
  | Ok s => match demo_run s with Ok (_, tr) => snd <$> tr | Abort => [] end
  | Abort => []
  end = [ServerIds 0 0 true; ServerIds 0 5 true; ServiceId 1; ServerIds 0 5 false;
   Services true [MkServiceInfo (lit "other") 1 []; MkServiceInfo demo_name 0 [MkServerInfo 0 1; MkServerInfo 5 0]]].
Proof. vm_compute. reflexivity. Qed.


Definition demo_op : reg_op := RegisterServer 2 demo_name 1 3.

Lemma demo_room :
  match demo_init with
  | Ok s => bool_decide (@op_room Master example_service ([] ++ [slash]) demo_api s demo_op)
  | Abort => false
  end = true.
Proof. vm_compute. reflexivity. Qed.

Lemma demo_reg c id m :
  reg_add ∅ c demo_name id m 1 3 =
  (<[demo_name := Service id {[3 := (c, 1)]}]> (<[demo_name := Service id ∅]> ∅), (id, 3, true)).
Proof.
  unfold reg_add, with_service, id_of. rewrite !lookup_empty. cbn [fmap option_fmap option_map default].
  rewrite decide_False by done. by rewrite lookup_empty.
Qed.

Lemma demo_listed c id m : listed (reg_add ∅ c demo_name id m 1 3).1 id 3 1.
Proof.
  exists demo_name, (Service id {[3 := (c, 1)]}), c. rewrite demo_reg.
  split; [apply lookup_insert_eq|]. split; [done|]. apply lookup_singleton_eq.
Qed.

Lemma demo_routable c id m : routable (reg_add ∅ c demo_name id m 1 3).1.
Proof.
  intros name sv sid d rank Hsv Hsid. rewrite demo_reg in Hsv. cbn [fst] in Hsv.
  apply lookup_insert_Some in Hsv as [[<- <-]|[Hne Hsv]].
  - cbn [sv_servers] in Hsid. apply lookup_singleton_Some in Hsid as [<- [= <- <-]]. unfold in_signed. lia.
  - by rewrite lookup_insert_ne in Hsv.
Qed.

Lemma registered_server_is_routed_witness :
  ∃ s1 s2 id s3 c', demo_init = Ok s1 ∧
    @reg_exec Master example_service ([] ++ [slash]) demo_api s1 demo_op = Ok (s2, ServerIds id 3 true) ∧
    @update_services Master example_service ([] ++ [slash]) demo_api unit s2 5%nat
      (RpcContext.node 0 {[0 := 0%nat; 1 := 1%nat]} ∅) map_to_list = Ok (s3, c') ∧
    get_client_frontend_by_sid c' id 3 = Some 1%nat.
Proof.
  destruct demo_names as [Hapi Hsm].
  assert (Hroot : ∃ p, good_path p ∧ [] ++ [slash] = p ++ [slash]) by (exists []; split; [by left|done]).
  destruct (@initialize_ok Master example_service split_slash split_slash_spec [] demo_api init 1%nat)
    as (s1&Hs1&Hgood&_);
    [by left|exact Hsm|exact Hapi|apply init_live|vm_compute; reflexivity|vm_compute; reflexivity|].
  pose proof demo_room as Hroom. rewrite Hs1 in Hroom. apply bool_decide_eq_true in Hroom.
  assert (Hop : op_ok demo_op) by (cbn; unfold in_signed; split; [apply (proj1 (proj1 (Forall_cons _ _ _) demo_ops_ok))|lia]).
  destruct (reg_exec_ok _ demo_api Hroot Hsm Hapi s1 demo_op ∅ Hgood Hop Hroom) as (s2&a&R&He&Hsp&HR).
  inversion Hsp as [| |c name rank sid n m id sid' b Hn Hn0 Hm0 Ha| | |]; subst.
  rewrite demo_reg in Ha. injection Ha as <- <- <-.
  destruct (registered_server_is_routed ([] ++ [slash]) demo_api s2 5%nat _ (RpcContext.node 0 {[0 := 0%nat; 1 := 1%nat]} ∅)
    map_to_list Hroot Hsm Hapi HR (demo_routable 2 n m) (λ _, Permutation_refl _)) as (s3&c'&Hu&_&_&_&_&_&Hl&_).
  exists s1, s2, n, s3, c'. split; [exact Hs1|]. split; [exact He|]. split; [exact Hu|].
  rewrite (Hl n 3 1 (demo_listed 2 n m)); [reflexivity|]. by eexists.
Defined.
