(* ===== verification/Store.v ===== *)
(** * What the client library keeps in the tree

    src/src/rpc/MasterClient.cpp: the state of the task, the nodes of the cluster, the
    contexts of storages and the models.  Each is a directory of the tree with one node
    per entry.  [Dir] says that a directory holds a finite map, and the tree operations
    keep it so; the functions of the client are operations on these maps. *)
From stdpp Require Import sorting.
From S2P Require Import Prelude Archive Serialize LazyArchive Message Master MasterClient Locks LexicalCast FairQueue RpcContext Nodes Registry Discovery.

(** ** Operations *)
Record CommInfo := MkCommInfo { global_rank : Z; endpoint : str }.

Section operations.
Context {S : Type} `{!MasterService S}.
Context (_root_path : str).
(** The text of a [CommInfo]: JSON, which src/src/addition/PicoJsonNode.h writes and reads. *)
Context (to_json_str : CommInfo → str) (from_json_str : str → result CommInfo).

Definition set_task_ready (s : S) (c : sock) : result S :=
  '(s, b) ← tree_node_add _root_path s c (PATH_TASK_STATE ++ [slash] ++ lit "ready") [] false;
  _ ← SCHECK b; Ok s.

Definition set_task_failed (s : S) (c : sock) (message : str) : result (S * bool) :=
  tree_node_add _root_path s c (PATH_TASK_STATE ++ [slash] ++ lit "fail") message false.

Definition get_task_ready (s : S) (c : sock) : result (S * bool) :=
  '(s, b, _) ← tree_node_get _root_path s c (PATH_TASK_STATE ++ [slash] ++ lit "ready") []; Ok (s, b).

Definition get_task_failed (s : S) (c : sock) (message : str) : result (S * bool * str) :=
  tree_node_get _root_path s c (PATH_TASK_STATE ++ [slash] ++ lit "fail") message.

Definition task_node : str := PATH_TASK_STATE ++ [slash] ++ lit "node".

Definition add_task_node (s : S) (c : sock) (g_rank : Z) (role : str) : result (S * bool) :=
  '(s, _) ← tree_node_add _root_path s c task_node [] false;
  tree_node_add _root_path s c (task_node ++ [slash] ++ to_string g_rank) role false.

Definition del_task_node (s : S) (c : sock) (g_rank : Z) : result (S * bool) :=
  tree_node_del _root_path s c (task_node ++ [slash] ++ to_string g_rank).

(** The loop over the nodes; ranks become [comm_rank_t]. *)
Fixpoint read_task_nodes (s : S) (c : sock) (role : str) (ranks : list str) (acc : list Z)
    : result (S * list Z) :=
  match ranks with
  | [] => Ok (s, acc)
  | rank :: ranks =>
      if decide (role = []) then
        r ← pico_lexical_cast_check int32_t rank 0;
        read_task_nodes s c role ranks (acc ++ [i16 r])
      else
        '(s, b, rank_role) ← tree_node_get _root_path s c (task_node ++ [slash] ++ rank) [];
        if (b : bool) && bool_decide (rank_role = role) then
          r ← pico_lexical_cast_check int32_t rank 0;
          read_task_nodes s c role ranks (acc ++ [i16 r])
        else read_task_nodes s c role ranks acc
  end.

Definition get_task_node (s : S) (c : sock) (role : str) (g_rank : list Z) : result (S * bool * list Z) :=
  '(s, b, ranks) ← tree_node_sub _root_path s c task_node [];
  if (b : bool) then '(s, l) ← read_task_nodes s c role ranks []; Ok (s, true, l)
  else Ok (s, false, g_rank).

Definition register_node (s : S) (c : sock) (info : CommInfo) : result S :=
  '(s, b) ← tree_node_add _root_path s c (PATH_NODE ++ [slash] ++ to_string (global_rank info))
    (to_json_str info) true;
  _ ← SCHECK b; Ok s.

(** The text is read before the result is looked at. *)
Definition get_comm_info_of (s : S) (c : sock) (g_rank : Z) : result (S * bool * CommInfo) :=
  '(s, ret, text) ← tree_node_get _root_path s c (PATH_NODE ++ [slash] ++ to_string g_rank) [];
  info ← from_json_str text; Ok (s, ret, info).

Fixpoint read_comm_infos (s : S) (c : sock) (ranks : list str) (acc : list CommInfo)
    : result (S * list CommInfo) :=
  match ranks with
  | [] => Ok (s, acc)
  | rank :: ranks =>
      r ← pico_lexical_cast_check int32_t rank 0;
      '(s, b, tmp) ← get_comm_info_of s c (i16 r);
      read_comm_infos s c ranks (if (b : bool) then acc ++ [tmp] else acc)
  end.

Definition get_comm_info (s : S) (c : sock) : result (S * list CommInfo) :=
  '(s, _, ranks) ← tree_node_sub _root_path s c PATH_NODE [];
  read_comm_infos s c ranks [].

Definition context_path (storage_id : Z) : str := PATH_CONTEXT ++ [slash] ++ to_string storage_id.

Definition add_context (s : S) (c : sock) (storage_id : Z) (context : str) : result (S * bool) :=
  tree_node_add _root_path s c (context_path storage_id) context false.
Definition set_context (s : S) (c : sock) (storage_id : Z) (context : str) : result (S * bool) :=
  tree_node_set _root_path s c (context_path storage_id) context.
Definition get_context (s : S) (c : sock) (storage_id : Z) (context : str) : result (S * bool * str) :=
  tree_node_get _root_path s c (context_path storage_id) context.
Definition delete_storage (s : S) (c : sock) (storage_id : Z) : result (S * bool) :=
  tree_node_del _root_path s c (context_path storage_id).

Fixpoint cast_all (l : list str) : result (list Z) :=
  match l with
  | [] => Ok []
  | x :: l => z ← pico_lexical_cast_check int32_t x 0; l ← cast_all l; Ok (z :: l)
  end.

Definition get_storage_list (s : S) (c : sock) : result (S * list Z) :=
  '(s, b, storage_ids) ← tree_node_sub _root_path s c PATH_CONTEXT [];
  _ ← SCHECK b;
  l ← cast_all storage_ids; Ok (s, l).

Definition model_path (name : str) : str := PATH_MODEL ++ [slash] ++ name.

Definition add_model (s : S) (c : sock) (name model : str) : result (S * bool) :=
  tree_node_add _root_path s c (model_path name) model false.
Definition set_model (s : S) (c : sock) (name model : str) : result (S * bool) :=
  tree_node_set _root_path s c (model_path name) model.
Definition get_model (s : S) (c : sock) (name model : str) : result (S * bool * str) :=
  tree_node_get _root_path s c (model_path name) model.
Definition del_model (s : S) (c : sock) (name : str) : result (S * bool) :=
  tree_node_del _root_path s c (model_path name).
Definition get_model_names (s : S) (c : sock) : result (S * list str) :=
  '(s, b, names) ← tree_node_sub _root_path s c PATH_MODEL [];
  _ ← SCHECK b; Ok (s, names).
End operations.

(** ** A directory as a finite map

    [enc] is the name of a key, for the keys that are [ok]; [val] are owner and value of
    its node. *)
Section directory.
Context {K V : Type} `{Countable K} (enc : K → str) (ok : K → Prop) (val : V → option sock * str).
Context (enc_name : ∀ k, ok k → good_key (enc k)) (enc_inj : ∀ k k', ok k → ok k' → enc k = enc k' → k = k').
Implicit Types (m : gmap K V) (t : tree) (D : str).

Record Dir D t m : Prop := {
  dir_here : ∃ v, node t D = Some (None, v);
  dir_node k x : slash ∉ k → node t (child D k) = Some x ↔ ∃ i v, k = enc i ∧ m !! i = Some v ∧ x = val v;
  dir_keys i v : m !! i = Some v → ok i;
  dir_leaf k g : slash ∉ k → slash ∉ g → node t (child (child D k) g) = None;
}.

(** Trees that agree on the directory and what is below. *)
Lemma dir_ext D t t' m : Dir D t m → node t' D = node t D → (∀ k, slash ∉ k → node t' (child D k) = node t (child D k)) →
  (∀ k g, slash ∉ k → slash ∉ g → node t' (child (child D k) g) = node t (child (child D k) g)) → Dir D t' m.
Proof.
  intros [[v Hv] Hn Hk Hl] H1 H2 H3. split; [exists v; by rewrite H1| |done|intros; rewrite H3; auto].
  intros k x Hs. rewrite H2 by done. by apply Hn.
Qed.

Lemma dir_lookup D t m i : Dir D t m → ok i → node t (child D (enc i)) = val <$> m !! i.
Proof.
  intros [_ Hn Hk _] Hi. destruct (enc_name i Hi) as [Hsl _]. destruct (m !! i) as [v|] eqn:E; cbn.
  - apply Hn; [done|]. by exists i, v.
  - apply eq_None_not_Some. intros [x (i'&v&Ei&Em&->)%Hn]; [|done].
    apply enc_inj in Ei; [|done|by eapply Hk]. congruence.
Qed.

Lemma dir_frame D D' t t' m : Dir D t m → frame D' t t' → ¬ under D' D → (∀ q, under D q → ¬ under D' q) → Dir D t' m.
Proof.
  intros Hd Hf H1 H2. eapply dir_ext; [done|by apply Hf|intros; apply Hf; auto with prpc..].
Qed.

(** A node of the directory is written. *)
Lemma dir_insert D t m i v g : Dir D t m → ok i → Dir D (Tree (<[child D (enc i) := val v]> (t_nodes t)) g) (<[i := v]> m).
Proof.
  intros [[w Hw] Hn Hk Hleaf] Hi. destruct (enc_name i Hi) as [Hsl _]. split.
  - exists w. rewrite node_insert, decide_False; [done|]. intros E. by apply child_ne in E.
  - intros k x Hs. rewrite node_insert. destruct (decide (k = enc i)) as [->|Hne].
    + rewrite decide_True by done. split.
      * intros [= <-]. exists i, v. by rewrite lookup_insert_eq.
      * intros (i'&v'&E&Em&->). assert (i = i') as <-.
        { destruct (decide (i = i')); [done|]. rewrite lookup_insert_ne in Em by done.
          apply enc_inj in E; [done|done|by eapply Hk]. }
        rewrite lookup_insert_eq in Em. congruence.
    + rewrite decide_False by (intros E; by apply child_inj in E as [_ ?]). rewrite Hn by done.
      split; intros (i'&v'&->&Em&->); exists i', v'; (split; [done|split; [|done]]).
      * rewrite lookup_insert_ne by congruence. done.
      * rewrite lookup_insert_ne in Em by congruence. done.
  - intros i' v' [[<- <-]|[_ ?]]%lookup_insert_Some; [done|by eapply Hk].
  - intros k g0 Hks Hg. rewrite node_insert, decide_False by by apply child_depth. by apply Hleaf.
Qed.

Lemma set_frame D t p v : under D p → frame D t (t_set t p v).1.
Proof.
  intros Hp q Hq. unfold t_set, node, counter. repeat case_match; try done. cbn [fst t_nodes t_gen].
  rewrite lookup_insert_ne by congruence. done.
Qed.

Lemma dir_add D t m c i v s e : Dir D t m → ok i → slash ∈ D → val v = (owner_of c e, s) →
  (t_add t c (child D (enc i)) s e).2 = bool_decide (m !! i = None) ∧
  Dir D (t_add t c (child D (enc i)) s e).1 (if decide (m !! i = None) then <[i := v]> m else m).
Proof.
  intros Hd Hi HD Hv. pose proof (dir_lookup D t m i Hd Hi) as Hl. pose proof (dir_here _ _ _ Hd) as [w Hw].
  destruct (m !! i) as [v'|] eqn:E; cbn in Hl.
  - rewrite add_old by by rewrite Hl. by rewrite bool_decide_false, decide_False.
  - rewrite (add_new _ _ _ _ _ w), bool_decide_true, decide_True; [|done|done| |done].
    + split; [done|]. cbn [fst]. rewrite <- Hv. by apply dir_insert.
    + rewrite parent_child; [done|]. by apply enc_name.
Qed.

Lemma dir_set D t m i v s : Dir D t m → ok i → (∀ v', m !! i = Some v' → val v = ((val v').1, s)) →
  (t_set t (child D (enc i)) s).2 = bool_decide (is_Some (m !! i)) ∧
  Dir D (t_set t (child D (enc i)) s).1 (if decide (is_Some (m !! i)) then <[i := v]> m else m).
Proof.
  intros Hd Hi Hv. pose proof (dir_lookup D t m i Hd Hi) as Hl. unfold t_set.
  destruct (m !! i) as [v'|] eqn:E; cbn in Hl; rewrite Hl.
  - rewrite bool_decide_true, decide_True by by eexists. specialize (Hv v' eq_refl).
    destruct (val v') as [o w]. cbn [fst] in *. split; [done|]. rewrite <- Hv. by apply dir_insert.
  - rewrite bool_decide_false, decide_False by by intros [? [=]]. done.
Qed.

Lemma dir_get D t m i buf : Dir D t m → ok i →
  t_get t (child D (enc i)) buf = (bool_decide (is_Some (m !! i)), default buf ((λ v, (val v).2) <$> m !! i)).
Proof.
  intros Hd Hi. unfold t_get. rewrite (dir_lookup D t m i Hd Hi). destruct (m !! i) as [v|]; cbn; [|done].
  by destruct (val v) as [o w].
Qed.

Lemma dir_childless D t m i : Dir D t m → ok i → children_of (t_nodes t) (child D (enc i)) = ∅.
Proof.
  intros Hd Hi. destruct (enc_name i Hi) as [Hsl _]. apply set_eq. intros g.
  rewrite elem_children by apply slash_child. split; [|by intros ?%elem_of_empty].
  intros [Hg Hsome]. rewrite (dir_leaf _ _ _ Hd) in Hsome by done. by destruct Hsome.
Qed.

Lemma dir_del D t m i : Dir D t m → ok i →
  (t_del t (child D (enc i))).2 = bool_decide (is_Some (m !! i)) ∧
  Dir D (t_del t (child D (enc i))).1 (delete i m).
Proof.
  intros Hd Hi. pose proof (dir_childless D t m i Hd Hi) as Hch. pose proof (dir_lookup D t m i Hd Hi) as Hl. unfold t_del.
  destruct (enc_name i Hi) as [Hsl _].
  destruct (m !! i) as [v|] eqn:E; cbn in Hl; rewrite Hl.
  - rewrite decide_True, bool_decide_true by (done || by eexists). split; [done|]. cbn [fst].
    destruct Hd as [[w Hw] Hn Hk Hleaf]. split.
    + exists w. rewrite node_delete, decide_False; [done|]. intros E'. by apply child_ne in E'.
    + intros k x Hs. rewrite node_delete. destruct (decide (k = enc i)) as [->|Hne].
      * rewrite decide_True by done. split; [done|]. intros (i'&v'&E'&[Hne Em]%lookup_delete_Some&_).
        destruct Hne. apply enc_inj; [done|by eapply Hk|done].
      * rewrite decide_False by (intros E'; by apply child_inj in E' as [_ ?]). rewrite Hn by done.
        split; intros (i'&v'&->&Em&->); exists i', v'; (split; [done|split; [|done]]).
        { rewrite lookup_delete_ne by congruence. done. }
        { by apply lookup_delete_Some in Em as [_ ?]. }
    + intros i' v' [_ ?]%lookup_delete_Some. by eapply Hk.
    + intros k g Hks Hg. rewrite node_delete. case_decide; [done|by apply Hleaf].
  - rewrite bool_decide_false by by intros [? [=]]. cbn [fst]. by rewrite delete_id.
Qed.

Lemma dir_sub D t m l : Dir D t m → slash ∈ D →
  ∃ names, t_sub t D l = (true, (enc ∘ fst) <$> names) ∧ names ≡ₚ map_to_list m.
Proof.
  intros Hd HD. destruct (dir_here _ _ _ Hd) as [w Hw]. unfold t_sub. rewrite Hw.
  assert (Hp : in_order (children_of (t_nodes t) D) ≡ₚ (enc ∘ fst) <$> map_to_list m).
  { unfold in_order. rewrite merge_sort_Permutation. apply NoDup_Permutation; [apply NoDup_elements| |].
    - rewrite list_fmap_compose. apply NoDup_fmap_2_strong; [|apply NoDup_fst_map_to_list].
      intros y z Hy Hz. apply list_elem_of_fmap in Hy as ([y' v]&->&Hy), Hz as ([z' w']&->&Hz).
      apply elem_of_map_to_list in Hy, Hz. by apply enc_inj; eapply (dir_keys _ _ _ Hd).
    - intros k. rewrite elem_of_elements, elem_children, list_elem_of_fmap by done. split.
      + intros [Hs [x (i&v&->&Em&_)%(dir_node _ _ _ Hd)]]; [|done].
        exists (i, v). split; [done|]. by apply elem_of_map_to_list.
      + intros ([i v]&->&Em%elem_of_map_to_list). cbn. pose proof (dir_keys _ _ _ Hd i v Em) as Hi.
        split; [by apply enc_name|]. rewrite (dir_lookup D t m i Hd Hi), Em. by eexists. }
  apply Permutation_map_inv in Hp as (names&->&Hp). exists names. by split.
Qed.

Lemma dir_drop D t m c : Dir D t m → Dir D (t_drop t c) (filter (λ iv, (val iv.2).1 ≠ Some c) m).
Proof.
  intros [[w Hw] Hn Hk Hleaf]. split.
  - exists w. by rewrite node_drop, Hw.
  - intros k x Hs. rewrite node_drop. setoid_rewrite map_lookup_filter_Some. cbn.
    destruct (node t (child D k)) as [[o v]|] eqn:E.
    + pose proof (proj1 (Hn k (o, v) Hs) E) as (i&u&->&Em&Eu). case_decide as Eo.
      * subst o. split; [done|]. intros (i'&u'&Ei&[Em' Hne]&_).
        apply enc_inj in Ei as <-; [|by eapply Hk|by eapply Hk]. rewrite Em in Em'. simplify_eq.
        rewrite <- Eu in Hne. done.
      * split.
        { intros [= <-]. exists i, u. split; [done|]. split; [|done]. split; [done|]. by rewrite <- Eu. }
        { intros (i'&u'&Ei&[Em' _]&->). apply enc_inj in Ei as <-; [|by eapply Hk|by eapply Hk].
          rewrite Em in Em'. simplify_eq. by rewrite <- Eu. }
    + split; [done|]. intros (i&u&->&[Em _]&->).
      pose proof (proj2 (Hn (enc i) (val u) Hs)) as H'. rewrite E in H'. apply H'. eauto.
  - intros i v [? _]%map_lookup_filter_Some. by eapply Hk.
  - intros k g Hks Hg. by rewrite node_drop, Hleaf.
Qed.
End directory.

(** ** What the directories hold *)
Record store := MkStore {
  st_nodes : gmap Z (sock * CommInfo);
  st_contexts : gmap Z str;
  st_models : gmap str str;
  st_ready : bool;
  st_failed : option str;
  st_roles : option (gmap Z str);
}.

Definition with_nodes (st : store) m :=
  MkStore m (st_contexts st) (st_models st) (st_ready st) (st_failed st) (st_roles st).
Definition with_contexts (st : store) m :=
  MkStore (st_nodes st) m (st_models st) (st_ready st) (st_failed st) (st_roles st).
Definition with_models (st : store) m :=
  MkStore (st_nodes st) (st_contexts st) m (st_ready st) (st_failed st) (st_roles st).
Definition with_task (st : store) ready failed roles :=
  MkStore (st_nodes st) (st_contexts st) (st_models st) ready failed roles.

(** *** The names *)
Lemma dirs_ok : name_ok PATH_NODE ∧ name_ok PATH_TASK_STATE ∧ name_ok PATH_CONTEXT ∧ name_ok PATH_MODEL.
Proof. repeat split; vm_compute; try done; set_solver. Qed.

Lemma lits_differ : lit "ready" ≠ lit "fail" ∧ lit "ready" ≠ lit "node" ∧ lit "fail" ≠ lit "node" ∧
  slash ∉ lit "ready" ∧ slash ∉ lit "fail" ∧ slash ∉ lit "node".
Proof. repeat split; vm_compute; try done; set_solver. Qed.

Lemma node_lit : name_ok (lit "node") ∧ name_ok (lit "ready") ∧ name_ok (lit "fail").
Proof. repeat split; vm_compute; try done; set_solver. Qed.

Section stores.
Context {S : Type} `{!MasterService S} (root : str).
Context (Hroot : ∃ p, good_path p ∧ root = p ++ [slash]) (Hsmall : small root).
Context (to_json_str : CommInfo → str) (from_json_str : str → result CommInfo).

Definition text (v : str) : option sock * str := (None, v).
Definition node_text (x : sock * CommInfo) : option sock * str := (Some x.1, to_json_str x.2).

Definition NODE : str := root ++ PATH_NODE.
Definition TASK : str := root ++ PATH_TASK_STATE.
Definition CONTEXT : str := root ++ PATH_CONTEXT.
Definition MODEL : str := root ++ PATH_MODEL.

Definition RolesRel (t : tree) (roles : option (gmap Z str)) : Prop :=
  match roles with
  | Some m => Dir to_string (in_signed 16) text (child TASK (lit "node")) t m
  | None => node t (child TASK (lit "node")) = None ∧
      (∀ k, slash ∉ k → node t (child (child TASK (lit "node")) k) = None) ∧
      ∀ k g, slash ∉ k → slash ∉ g → node t (child (child (child TASK (lit "node")) k) g) = None
  end.

Record TaskRel (t : tree) (ready : bool) (failed : option str) (roles : option (gmap Z str)) : Prop := {
  tk_here : ∃ v, node t TASK = Some (None, v);
  tk_ready : node t (child TASK (lit "ready")) = if ready then Some (None, []) else None;
  tk_failed : node t (child TASK (lit "fail")) = text <$> failed;
  tk_roles : RolesRel t roles;
}.

Record StoreRel (t : tree) (st : store) : Prop := {
  sr_nodes : Dir to_string (in_signed 16) node_text NODE t (st_nodes st);
  sr_rank i x : st_nodes st !! i = Some x → global_rank x.2 = i;
  sr_contexts : Dir to_string (in_signed 32) text CONTEXT t (st_contexts st);
  sr_models : Dir id name_ok text MODEL t (st_models st);
  sr_task : TaskRel t (st_ready st) (st_failed st) (st_roles st);
}.

Lemma int32_name z : in_signed 32 z → good_key (to_string z).
Proof. intros Hz. by apply to_string_ok. Qed.
Lemma int16_wide z : in_signed 16 z → in_signed 32 z.
Proof. unfold in_signed. lia. Qed.
Lemma int16_name z : in_signed 16 z → good_key (to_string z).
Proof. intros Hz. by apply int32_name, int16_wide. Qed.
Lemma int16_inj y z : in_signed 16 y → in_signed 16 z → to_string y = to_string z → y = z.
Proof. intros Hy Hz. apply to_string_inj; by apply int16_wide. Qed.
Lemma name_good k : name_ok k → good_key (id k).
Proof. by intros [? _]. Qed.

Ltac apart_tac := apply apart; vm_compute; set_solver.

Lemma task_frame D t t' r f m :
  TaskRel t r f m → frame D t t' → ¬ under D TASK → (∀ q, under TASK q → ¬ under D q) → TaskRel t' r f m.
Proof.
  intros [[v Hv] H1 H2 H3] Hf Hn Hu.
  assert (Hq : ∀ q, under TASK q → node t' q = node t q) by (intros q Hq; by apply Hf, Hu).
  split; [exists v; by rewrite (proj1 (Hf _ Hn))|rewrite Hq; auto with prpc..|].
  destruct m as [m|].
  - eapply dir_ext; [done|intros; apply Hq; auto with prpc..].
  - destruct H3 as (H3&H4&H5). split; [rewrite Hq; auto with prpc|].
    split; intros; rewrite Hq by auto with prpc; auto.
Qed.

(** A change of one directory leaves the others alone. *)
Lemma store_nodes t t' st m : StoreRel t st → frame NODE t t' →
  Dir to_string (in_signed 16) node_text NODE t' m → (∀ i x, m !! i = Some x → global_rank x.2 = i) →
  StoreRel t' (with_nodes st m).
Proof.
  intros [] Hf Hd Hr. split; cbn; try done.
  - eapply dir_frame; [done|done|apart_tac..].
  - eapply dir_frame; [done|done|apart_tac..].
  - eapply task_frame; [done|done|apart_tac..].
Qed.

Lemma store_contexts t t' st m : StoreRel t st → frame CONTEXT t t' →
  Dir to_string (in_signed 32) text CONTEXT t' m → StoreRel t' (with_contexts st m).
Proof.
  intros [] Hf Hd. split; cbn; try done.
  - eapply dir_frame; [done|done|apart_tac..].
  - eapply dir_frame; [done|done|apart_tac..].
  - eapply task_frame; [done|done|apart_tac..].
Qed.

Lemma store_models t t' st m : StoreRel t st → frame MODEL t t' →
  Dir id name_ok text MODEL t' m → StoreRel t' (with_models st m).
Proof.
  intros [] Hf Hd. split; cbn; try done.
  - eapply dir_frame; [done|done|apart_tac..].
  - eapply dir_frame; [done|done|apart_tac..].
  - eapply task_frame; [done|done|apart_tac..].
Qed.

Lemma store_task t t' st r f m : StoreRel t st → frame TASK t t' → TaskRel t' r f m → StoreRel t' (with_task st r f m).
Proof.
  intros [] Hf Hd. split; cbn; try done; (eapply dir_frame; [done|done|apart_tac..]).
Qed.

(** *** The state of the task *)

(** A mark other than the directory of roles changes. *)
Lemma roles_kept t t' m k : slash ∉ k → k ≠ lit "node" →
  (∀ q, q ≠ child TASK k → node t' q = node t q) → RolesRel t m → RolesRel t' m.
Proof.
  intros Hk Hne Hq. destruct lits_differ as (_&_&_&_&_&Hn).
  assert (H1 : node t' (child TASK (lit "node")) = node t (child TASK (lit "node")))
    by (apply Hq; intros [_ E]%child_inj; done).
  assert (H2 : ∀ g, slash ∉ g → node t' (child (child TASK (lit "node")) g) = node t (child (child TASK (lit "node")) g))
    by (intros g Hg; apply Hq; intros E; symmetry in E; by apply child_depth in E).
  assert (H3 : ∀ g h, slash ∉ g → slash ∉ h → node t' (child (child (child TASK (lit "node")) g) h) =
    node t (child (child (child TASK (lit "node")) g) h)).
  { intros g h Hg Hh. apply Hq. intros E. apply child_inj in E as [E _]; [|done|done].
    apply (f_equal length) in E. unfold child in E. len. }
  unfold RolesRel. destruct m as [m|]; [intros Hd; by eapply dir_ext|].
  intros (H4&H5&H6). split; [by rewrite H1|]. split; intros; [rewrite H2|rewrite H3]; auto.
Qed.

Lemma task_ready t r f m c : TaskRel t r f m →
  (t_add t c (child TASK (lit "ready")) [] false).2 = negb r ∧
  TaskRel (t_add t c (child TASK (lit "ready")) [] false).1 true f m.
Proof.
  intros [[v Hv] H1 H2 H3]. destruct lits_differ as (Hd&Hd'&_&Hs&Hs'&_). destruct r.
  - rewrite add_old by by rewrite H1. split; [done|]. split; [by eexists|done..].
  - rewrite (add_new _ _ _ _ _ v); [|by rewrite parent_child|done]. split; [done|].
    split; cbn [fst]; rewrite ?node_insert.
    + exists v. rewrite decide_False; [done|]. intros E. by apply child_ne in E.
    + by rewrite decide_True.
    + rewrite decide_False; [done|]. by intros [_ ?]%child_inj.
    + eapply (roles_kept t); [exact Hs|done| |exact H3]. intros q Hq. by rewrite node_insert, decide_False.
Qed.

Lemma task_failed t r f m c v : TaskRel t r f m →
  (t_add t c (child TASK (lit "fail")) v false).2 = bool_decide (f = None) ∧
  TaskRel (t_add t c (child TASK (lit "fail")) v false).1 r (Some (default v f)) m.
Proof.
  intros [[w Hw] H1 H2 H3]. destruct lits_differ as (Hd&_&Hd'&Hs&Hs'&_). destruct f as [u|].
  - rewrite add_old by by rewrite H2. split; [done|]. split; [by eexists|done..].
  - rewrite (add_new _ _ _ _ _ w); [|by rewrite parent_child|done]. split; [done|].
    split; cbn [fst]; rewrite ?node_insert.
    + exists w. rewrite decide_False; [done|]. intros E. by apply child_ne in E.
    + rewrite decide_False; [done|]. intros [_ ?]%child_inj; congruence.
    + by rewrite decide_True.
    + eapply (roles_kept t); [exact Hs'|done| |exact H3]. intros q Hq. by rewrite node_insert, decide_False.
Qed.

(** The directory of roles is made. *)
Lemma task_node_dir t r f m c : TaskRel t r f m →
  TaskRel (t_add t c (child TASK (lit "node")) [] false).1 r f (Some (default ∅ m)).
Proof.
  intros [[w Hw] H1 H2 H3]. destruct lits_differ as (_&Hd&Hd'&Hs&Hs'&Hs''). destruct m as [m|].
  - rewrite add_old by (destruct (dir_here _ _ _ _ _ _ H3) as [u Hu]; rewrite Hu; by eexists). by split; [by eexists|..].
  - destruct H3 as (H3&H4&H5). rewrite (add_new _ _ _ _ _ w); [|by rewrite parent_child|done].
    split; cbn [fst]; rewrite ?node_insert.
    + exists w. rewrite decide_False; [done|]. intros E. by apply child_ne in E.
    + rewrite decide_False; [done|]. intros [_ ?]%child_inj; congruence.
    + rewrite decide_False; [done|]. intros [_ ?]%child_inj; congruence.
    + unfold RolesRel. cbn [default]. split.
      * exists []. by rewrite node_insert, decide_True.
      * intros k x Hk. rewrite node_insert, decide_False by (intros E; symmetry in E; by apply child_ne in E).
        rewrite H4 by done. split; [done|]. by intros (i&v&_&?&_).
      * done.
      * intros k g Hk Hg. rewrite node_insert, decide_False; [by apply H5|].
        intros E. apply (f_equal length) in E. unfold child in E. len.
Qed.

(** A node of the directory of roles changes. *)
Lemma task_roles t t' r f m m' : TaskRel t r f (Some m) → frame (child TASK (lit "node")) t t' →
  Dir to_string (in_signed 16) text (child TASK (lit "node")) t' m' → TaskRel t' r f (Some m').
Proof.
  intros [[w Hw] H1 H2 H3] Hf Hd. destruct lits_differ as (_&Hd1&Hd2&Hs&Hs'&_).
  assert (Hn : ∀ k, slash ∉ k → ¬ under (child TASK (lit "node")) (child TASK k)).
  { intros k Hk. unfold child. rewrite !app_assoc. by apply not_under_sibling. }
  assert (Hn' : ¬ under (child TASK (lit "node")) TASK)
    by (intros [q E]; apply (f_equal length) in E; unfold child in E; len).
  split; [exists w; by rewrite (proj1 (Hf _ Hn'))|by rewrite (proj1 (Hf _ (Hn _ Hs)))|
    by rewrite (proj1 (Hf _ (Hn _ Hs')))|done].
Qed.

(** ** The operations, as one type *)
Inductive store_op :=
  | SetTaskReady | SetTaskFailed (message : str) | GetTaskReady | GetTaskFailed (buf : str)
  | AddTaskNode (rank : Z) (role : str) | DelTaskNode (rank : Z) | GetTaskNode (role : str) (old : list Z)
  | RegisterNode (info : CommInfo) | GetCommInfo
  | AddContext (id : Z) (v : str) | SetContext (id : Z) (v : str) | GetContext (id : Z) (buf : str)
  | DeleteStorage (id : Z) | GetStorageList
  | AddModel (name v : str) | SetModel (name v : str) | GetModel (name buf : str)
  | DelModel (name : str) | GetModelNames
  | Leave.

Inductive store_answer :=
  | Nothing_ | Flag (b : bool) | Text (b : bool) (v : str) | Ranks (b : bool) (l : list Z)
  | Infos (l : list CommInfo) | Names (l : list str).

(** [Leave]: the connection ends. *)
Definition store_exec (s : S) (c : sock) (op : store_op) : result (S * store_answer) :=
  let flag (r : result (S * bool)) := '(s, b) ← r; Ok (s, Flag b) in
  let txt (r : result (S * bool * str)) := '(s, b, v) ← r; Ok (s, Text b v) in
  match op with
  | SetTaskReady => s ← set_task_ready root s c; Ok (s, Nothing_)
  | SetTaskFailed v => flag (set_task_failed root s c v)
  | GetTaskReady => flag (get_task_ready root s c)
  | GetTaskFailed buf => txt (get_task_failed root s c buf)
  | AddTaskNode rank role => flag (add_task_node root s c rank role)
  | DelTaskNode rank => flag (del_task_node root s c rank)
  | GetTaskNode role old => '(s, b, l) ← get_task_node root s c role old; Ok (s, Ranks b l)
  | RegisterNode info => s ← register_node root to_json_str s c info; Ok (s, Nothing_)
  | GetCommInfo => '(s, l) ← get_comm_info root from_json_str s c; Ok (s, Infos l)
  | AddContext id v => flag (add_context root s c id v)
  | SetContext id v => flag (set_context root s c id v)
  | GetContext id buf => txt (get_context root s c id buf)
  | DeleteStorage id => flag (delete_storage root s c id)
  | GetStorageList => '(s, l) ← get_storage_list root s c; Ok (s, Ranks true l)
  | AddModel name v => flag (add_model root s c name v)
  | SetModel name v => flag (set_model root s c name v)
  | GetModel name buf => txt (get_model root s c name buf)
  | DelModel name => flag (del_model root s c name)
  | GetModelNames => '(s, l) ← get_model_names root s c; Ok (s, Names l)
  | Leave => s ← ms_drop s c; Ok (s, Nothing_)
  end.

(** Keys are in range, texts can be sent. *)
Definition store_op_ok (op : store_op) : Prop :=
  match op with
  | SetTaskFailed v | GetTaskFailed v => value_ok v
  | AddTaskNode rank role => in_signed 16 rank ∧ value_ok role
  | DelTaskNode rank => in_signed 16 rank
  | RegisterNode info => in_signed 16 (global_rank info) ∧ value_ok (to_json_str info)
  | AddContext id v | SetContext id v | GetContext id v => in_signed 32 id ∧ value_ok v
  | DeleteStorage id => in_signed 32 id
  | AddModel name v | SetModel name v | GetModel name v => name_ok name ∧ value_ok v
  | DelModel name => name_ok name
  | _ => True
  end.

(** What an operation of connection [c] means: an entry is added unless it is there, set
    when it is there, and so on. *)
Definition add_entry {K V} `{Countable K} (m : gmap K V) (k : K) (v : V) : gmap K V :=
  if decide (m !! k = None) then <[k := v]> m else m.
Definition set_entry {K V} `{Countable K} (m : gmap K V) (k : K) (v : V) : gmap K V :=
  if decide (is_Some (m !! k)) then <[k := v]> m else m.
Definition has {K V} `{Countable K} (m : gmap K V) (k : K) : bool := bool_decide (is_Some (m !! k)).
Definition lacks {K V} `{Countable K} (m : gmap K V) (k : K) : bool := bool_decide (m !! k = None).

(** The operations whose answer is determined by the state. *)
Definition store_step (st : store) (c : sock) (op : store_op) : option (store * store_answer) :=
  let '(MkStore n cx md ready failed roles) := st in
  match op with
  | SetTaskReady => if ready then None else Some (with_task st true failed roles, Nothing_)
  | SetTaskFailed v => Some (with_task st ready (Some (default v failed)) roles, Flag (bool_decide (failed = None)))
  | GetTaskReady => Some (st, Flag ready)
  | GetTaskFailed buf => Some (st, Text (bool_decide (is_Some failed)) (default buf failed))
  | AddTaskNode rank role =>
      Some (with_task st ready failed (Some (add_entry (default ∅ roles) rank role)), Flag (lacks (default ∅ roles) rank))
  | DelTaskNode rank => Some (with_task st ready failed (delete rank <$> roles), Flag (has (default ∅ roles) rank))
  | RegisterNode info =>
      if has n (global_rank info) then None
      else Some (with_nodes st (<[global_rank info := (c, info)]> n), Nothing_)
  | AddContext id v => Some (with_contexts st (add_entry cx id v), Flag (lacks cx id))
  | SetContext id v => Some (with_contexts st (set_entry cx id v), Flag (has cx id))
  | GetContext id buf => Some (st, Text (has cx id) (default buf (cx !! id)))
  | DeleteStorage id => Some (with_contexts st (delete id cx), Flag (has cx id))
  | AddModel name v => Some (with_models st (add_entry md name v), Flag (lacks md name))
  | SetModel name v => Some (with_models st (set_entry md name v), Flag (has md name))
  | GetModel name buf => Some (st, Text (has md name) (default buf (md !! name)))
  | DelModel name => Some (with_models st (delete name md), Flag (has md name))
  | Leave => Some (with_nodes st (filter (λ ix, ix.2.1 ≠ c) n), Nothing_)
  | _ => None
  end.

(** The listings come in an order of their own. *)
Definition listing (op : store_op) : bool :=
  match op with GetTaskNode _ _ | GetCommInfo | GetStorageList | GetModelNames => true | _ => false end.

Definition store_list (st : store) (op : store_op) (a : store_answer) : Prop :=
  match op, a with
  | GetTaskNode role old, Ranks b l =>
      match st_roles st with
      | Some m => b = true ∧ l ≡ₚ (filter (λ iv, role = [] ∨ iv.2 = role) (map_to_list m)).*1
      | None => b = false ∧ l = old
      end
  | GetCommInfo, Infos l => l ≡ₚ (λ ix, ix.2.2) <$> map_to_list (st_nodes st)
  | GetStorageList, Ranks b l => b = true ∧ l ≡ₚ (map_to_list (st_contexts st)).*1
  | GetModelNames, Names l => l ≡ₚ (map_to_list (st_models st)).*1
  | _, _ => False
  end.

(** ** The calls *)

(** [a] is the name of a directory. *)
Record DirPath (a : str) : Prop := {
  dp_self : path_ok (root ++ a);
  dp_child k : name_ok k → path_ok (root ++ a ++ [slash] ++ k);
}.

Lemma top_path a : name_ok a → DirPath a.
Proof. intros Ha. split; [by apply (dir_ok root Hroot Hsmall)|intros k Hk; by apply (key_ok root Hroot Hsmall)]. Qed.

Lemma task_path : DirPath task_node ∧ root ++ task_node = child TASK (lit "node").
Proof.
  assert (E : root ++ task_node = child TASK (lit "node")) by apply path_split. split; [|done].
  pose proof (top_path PATH_TASK_STATE ltac:(apply dirs_ok)) as [Hp Hc].
  assert (Hn : path_ok (root ++ task_node)) by (apply Hc, node_lit).
  split; [done|]. intros k [Hk Hsm]. rewrite path_split. apply path_ok_child; [done|done|].
  unfold task_node, small in *. assert (length PATH_TASK_STATE = 12%nat) by done.
  assert (length (lit "node") = 4%nat) by done. len.
Qed.

Section calls.
Context (s : S) (c : sock) (Hs : live s).

(** An entry of a directory. *)
Lemma call_add a k v e : DirPath a → name_ok k → value_ok v →
  ∃ s', tree_node_add root s c (a ++ [slash] ++ k) v e = Ok (s', (t_add (ms_view s) c (child (root ++ a) k) v e).2) ∧
    live s' ∧ ms_view s' = (t_add (ms_view s) c (child (root ++ a) k) v e).1.
Proof.
  intros Ha Hk Hv. rewrite <- path_split. apply tree_node_add_eq; [done| |done].
  by apply Ha.
Qed.

Lemma call_set a k v : DirPath a → name_ok k → value_ok v →
  ∃ s', tree_node_set root s c (a ++ [slash] ++ k) v = Ok (s', (t_set (ms_view s) (child (root ++ a) k) v).2) ∧
    live s' ∧ ms_view s' = (t_set (ms_view s) (child (root ++ a) k) v).1.
Proof.
  intros Ha Hk Hv. rewrite <- path_split. apply tree_node_set_eq; [done| |done].
  by apply Ha.
Qed.

Lemma call_get a k v : DirPath a → name_ok k → value_ok v →
  ∃ s', tree_node_get root s c (a ++ [slash] ++ k) v =
      Ok (s', (t_get (ms_view s) (child (root ++ a) k) v).1, (t_get (ms_view s) (child (root ++ a) k) v).2) ∧
    live s' ∧ ms_view s' = ms_view s.
Proof.
  intros Ha Hk Hv. rewrite <- path_split. apply tree_node_get_eq; [done| |done].
  by apply Ha.
Qed.

Lemma call_del a k : DirPath a → name_ok k →
  ∃ s', tree_node_del root s c (a ++ [slash] ++ k) = Ok (s', (t_del (ms_view s) (child (root ++ a) k)).2) ∧
    live s' ∧ ms_view s' = (t_del (ms_view s) (child (root ++ a) k)).1.
Proof.
  intros Ha Hk. rewrite <- path_split. apply tree_node_del_eq; [done|].
  by apply Ha.
Qed.
End calls.

(** A directory of permanent entries. *)
Section entries.
Context {K : Type} `{Countable K} (enc : K → str) (ok : K → Prop) (a : str).
Context (enc_ok : ∀ k, ok k → name_ok (enc k)) (enc_inj : ∀ k k', ok k → ok k' → enc k = enc k' → k = k').
Context (Ha : DirPath a) (s : S) (c : sock) (m : gmap K str).
Context (Hs : live s) (Hd : Dir enc ok text (root ++ a) (ms_view s) m).

Lemma enc_good k : ok k → good_key (enc k).
Proof. intros Hk. by apply enc_ok. Qed.
Lemma dir_slash : slash ∈ root ++ a.
Proof. apply path_slash, Ha. Qed.

Lemma entry_add k v : ok k → value_ok v →
  ∃ s', tree_node_add root s c (a ++ [slash] ++ enc k) v false = Ok (s', lacks m k) ∧ live s' ∧
    frame (root ++ a) (ms_view s) (ms_view s') ∧ Dir enc ok text (root ++ a) (ms_view s') (add_entry m k v).
Proof.
  intros Hk Hv. destruct (call_add s c Hs a (enc k) v false Ha (enc_ok k Hk) Hv) as (s'&->&Hs'&Hv').
  destruct (dir_add enc ok text enc_good enc_inj _ _ m c k v v false Hd Hk dir_slash eq_refl) as [-> Hd'].
  exists s'. rewrite Hv'. split; [done|]. split; [done|]. split; [apply add_frame; auto with prpc|done].
Qed.

Lemma entry_set k v : ok k → value_ok v →
  ∃ s', tree_node_set root s c (a ++ [slash] ++ enc k) v = Ok (s', has m k) ∧ live s' ∧
    frame (root ++ a) (ms_view s) (ms_view s') ∧ Dir enc ok text (root ++ a) (ms_view s') (set_entry m k v).
Proof.
  intros Hk Hv. destruct (call_set s c Hs a (enc k) v Ha (enc_ok k Hk) Hv) as (s'&->&Hs'&Hv').
  destruct (dir_set enc ok text enc_good enc_inj _ _ m k v v Hd Hk) as [-> Hd']; [done|].
  exists s'. rewrite Hv'. split; [done|]. split; [done|]. split; [apply set_frame; auto with prpc|done].
Qed.

Lemma entry_get k v : ok k → value_ok v →
  ∃ s', tree_node_get root s c (a ++ [slash] ++ enc k) v = Ok (s', has m k, default v (m !! k)) ∧ live s' ∧
    ms_view s' = ms_view s.
Proof.
  intros Hk Hv. destruct (call_get s c Hs a (enc k) v Ha (enc_ok k Hk) Hv) as (s'&->&Hs'&Hv').
  rewrite (dir_get enc ok text enc_good enc_inj _ _ m k v Hd Hk). exists s'. split; [|done].
  unfold has. cbn [fst snd]. by destruct (m !! k).
Qed.

Lemma entry_del k : ok k →
  ∃ s', tree_node_del root s c (a ++ [slash] ++ enc k) = Ok (s', has m k) ∧ live s' ∧
    frame (root ++ a) (ms_view s) (ms_view s') ∧ Dir enc ok text (root ++ a) (ms_view s') (delete k m).
Proof.
  intros Hk. destruct (call_del s c Hs a (enc k) Ha (enc_ok k Hk)) as (s'&->&Hs'&Hv').
  destruct (dir_del enc ok text enc_good enc_inj _ _ m k Hd Hk) as [-> Hd'].
  exists s'. rewrite Hv'. split; [done|]. split; [done|]. split; [apply del_frame; auto with prpc|done].
Qed.

Lemma entry_names : ∃ s' l, tree_node_sub root s c a [] = Ok (s', true, (enc ∘ fst) <$> l) ∧ live s' ∧
  ms_view s' = ms_view s ∧ l ≡ₚ map_to_list m.
Proof.
  destruct (tree_node_sub_eq root s c a [] Hs) as (s'&->&Hs'&Hv'); [apply Ha|].
  destruct (dir_sub enc ok text enc_good enc_inj _ _ m [] Hd dir_slash) as (l&->&Hl). by exists s', l.
Qed.
End entries.

(** What an operation with a determined answer has to satisfy. *)
Definition does (s : S) (c : sock) (op : store_op) (st : store) : Prop :=
  match store_step st c op with
  | Some (st', a) => ∃ s', store_exec s c op = Ok (s', a) ∧ live s' ∧ StoreRel (ms_view s') st'
  | None => store_exec s c op = Abort
  end.

Lemma to_string_name k : in_signed 32 k → name_ok (to_string k).
Proof. apply to_string_ok. Qed.

Lemma context_ops s c op st : live s → StoreRel (ms_view s) st → store_op_ok op →
  match op with AddContext _ _ | SetContext _ _ | GetContext _ _ | DeleteStorage _ => does s c op st | _ => True end.
Proof.
  intros Hs Hst Hop. pose proof (top_path PATH_CONTEXT ltac:(apply dirs_ok)) as Hdir. pose proof (sr_contexts _ _ Hst) as Hd.
  pose proof (store_contexts (ms_view s)) as Hst'.
  destruct op as [| | | | | | | | |i v|i v|i v|i| | | | | | | ]; try done; cbn [store_op_ok] in Hop;
    destruct st as [n cx md ready failed roles]; cbn [st_contexts] in *;
    unfold does; cbn [store_step store_exec];
    unfold add_context, set_context, get_context, delete_storage, context_path.
  - destruct (entry_add to_string _ PATH_CONTEXT to_string_name to_string_inj Hdir s c cx Hs Hd i v) as (s'&->&?&?&?);
      [apply Hop..|]. step_ok. eauto.
  - destruct (entry_set to_string _ PATH_CONTEXT to_string_name to_string_inj Hdir s c cx Hs Hd i v) as (s'&->&?&?&?);
      [apply Hop..|]. step_ok. eauto.
  - destruct (entry_get to_string _ PATH_CONTEXT to_string_name to_string_inj Hdir s c cx Hs Hd i v) as (s'&->&?&Hv);
      [apply Hop..|]. step_ok. exists s'. by rewrite Hv.
  - destruct (entry_del to_string _ PATH_CONTEXT to_string_name to_string_inj Hdir s c cx Hs Hd i) as (s'&->&?&?&?);
      [apply Hop..|]. step_ok. eauto.
Qed.

Lemma id_name k : name_ok k → name_ok (id k).
Proof. done. Qed.
Lemma id_inj k k' : name_ok k → name_ok k' → id k = id k' → k = k'.
Proof. done. Qed.

Lemma model_ops s c op st : live s → StoreRel (ms_view s) st → store_op_ok op →
  match op with AddModel _ _ | SetModel _ _ | GetModel _ _ | DelModel _ => does s c op st | _ => True end.
Proof.
  intros Hs Hst Hop. pose proof (top_path PATH_MODEL ltac:(apply dirs_ok)) as Hdir. pose proof (sr_models _ _ Hst) as Hd.
  pose proof (store_models (ms_view s)) as Hst'.
  destruct op as [| | | | | | | | | | | | | |i v|i v|i v|i| | ]; try done; cbn [store_op_ok] in Hop;
    destruct st as [n cx md ready failed roles]; cbn [st_models] in *;
    unfold does; cbn [store_step store_exec];
    unfold add_model, set_model, get_model, del_model, model_path.
  - destruct (entry_add id _ PATH_MODEL id_name id_inj Hdir s c md Hs Hd i v) as (s'&He&?&?&?);
      [apply Hop..|]. change (id i) with i in *. rewrite He. step_ok. eauto.
  - destruct (entry_set id _ PATH_MODEL id_name id_inj Hdir s c md Hs Hd i v) as (s'&He&?&?&?);
      [apply Hop..|]. change (id i) with i in *. rewrite He. step_ok. eauto.
  - destruct (entry_get id _ PATH_MODEL id_name id_inj Hdir s c md Hs Hd i v) as (s'&He&?&Hv);
      [apply Hop..|]. change (id i) with i in *. rewrite He. step_ok. exists s'. by rewrite Hv.
  - destruct (entry_del id _ PATH_MODEL id_name id_inj Hdir s c md Hs Hd i) as (s'&He&?&?&?);
      [apply Hop..|]. change (id i) with i in *. rewrite He. step_ok. eauto.
Qed.

Lemma to_string16_name k : in_signed 16 k → name_ok (to_string k).
Proof. intros Hk. by apply to_string_name, int16_wide. Qed.

(** Operations that write below the directory of the task. *)
Lemma under_task p : under (child TASK (lit "node")) p → under TASK p.
Proof. intros [r ->]. exists (lit "node" ++ slash :: r). unfold child. by rewrite <- !app_assoc. Qed.

Lemma frame_task t t' : frame (child TASK (lit "node")) t t' → frame TASK t t'.
Proof. intros Hf q Hq. apply Hf. intros Hn. by apply Hq, under_task. Qed.

Lemma mark_ops s c op st : live s → StoreRel (ms_view s) st → store_op_ok op →
  match op with SetTaskReady | SetTaskFailed _ | GetTaskReady | GetTaskFailed _ => does s c op st | _ => True end.
Proof.
  intros Hs Hst Hop. pose proof (top_path PATH_TASK_STATE ltac:(apply dirs_ok)) as Hdir.
  destruct node_lit as (_&Hr&Hf). pose proof (sr_task _ _ Hst) as Ht. pose proof (store_task (ms_view s)) as Hst'.
  destruct op as [|v| |v| | | | | | | | | | | | | | | | ]; try done; cbn [store_op_ok] in Hop;
    destruct st as [n cx md ready failed roles]; cbn [st_ready st_failed st_roles] in *;
    unfold does; cbn [store_step store_exec];
    unfold set_task_ready, set_task_failed, get_task_ready, get_task_failed.
  - destruct (call_add s c Hs PATH_TASK_STATE (lit "ready") [] false Hdir Hr) as (s'&->&Hs'&Hv); [done|]. fold TASK in *.
    destruct (task_ready _ _ _ _ c Ht) as [-> Ht']. rewrite <- Hv in Ht'. step_ok. destruct ready; [done|].
    cbn [negb SCHECK]. step_ok. exists s'. split; [done|]. split; [done|].
    apply Hst'; [done|rewrite Hv; apply add_frame; auto with prpc|done].
  - destruct (call_add s c Hs PATH_TASK_STATE (lit "fail") v false Hdir Hf Hop) as (s'&->&Hs'&Hv). fold TASK in *.
    destruct (task_failed _ _ _ _ c v Ht) as [-> Ht']. rewrite <- Hv in Ht'. step_ok. exists s'. split; [done|].
    split; [done|]. apply Hst'; [done|rewrite Hv; apply add_frame; auto with prpc|done].
  - destruct (call_get s c Hs PATH_TASK_STATE (lit "ready") [] Hdir Hr) as (s'&->&Hs'&Hv); [done|]. fold TASK in *.
    unfold t_get. rewrite (tk_ready _ _ _ _ Ht). step_ok. exists s'. rewrite Hv. by destruct ready.
  - destruct (call_get s c Hs PATH_TASK_STATE (lit "fail") v Hdir Hf Hop) as (s'&->&Hs'&Hv). fold TASK in *.
    unfold t_get. rewrite (tk_failed _ _ _ _ Ht). step_ok. exists s'. rewrite Hv. by destruct failed.
Qed.

Lemma role_ops s c op st : live s → StoreRel (ms_view s) st → store_op_ok op →
  match op with AddTaskNode _ _ | DelTaskNode _ => does s c op st | _ => True end.
Proof.
  intros Hs Hst Hop. destruct task_path as [Hdir Epath]. pose proof (sr_task _ _ Hst) as Ht.
  pose proof (store_task (ms_view s)) as Hst'.
  destruct op as [| | | |i v|i| | | | | | | | | | | | | | ]; try done; cbn [store_op_ok] in Hop;
    destruct st as [n cx md ready failed roles]; cbn [st_ready st_failed st_roles] in *;
    unfold does; cbn [store_step store_exec]; unfold add_task_node, del_task_node.
  - destruct (tree_node_add_eq root s c task_node [] false Hs (dp_self _ Hdir)) as (s1&->&Hs1&Hv1); [done|].
    step_ok. rewrite Epath in Hv1. pose proof (task_node_dir _ _ _ _ c Ht) as Ht1. rewrite <- Hv1 in Ht1.
    pose proof (tk_roles _ _ _ _ Ht1) as Hd1. cbn [RolesRel] in Hd1. rewrite <- Epath in Hd1.
    destruct (entry_add to_string _ task_node to_string16_name int16_inj Hdir s1 c _ Hs1 Hd1 i v)
      as (s2&->&Hs2&Hf2&Hd2); [apply Hop..|]. step_ok. exists s2. split; [done|]. split; [done|].
    rewrite Epath in Hf2, Hd2. apply Hst'; [done| |by eapply task_roles].
    etrans; [|by apply frame_task]. rewrite Hv1. apply add_frame; auto with prpc.
  - pose proof (tk_roles _ _ _ _ Ht) as Hd. destruct roles as [m|].
    + cbn [RolesRel] in Hd. rewrite <- Epath in Hd.
      destruct (entry_del to_string _ task_node to_string16_name int16_inj Hdir s c m Hs Hd i Hop)
        as (s2&->&Hs2&Hf2&Hd2). step_ok. exists s2. split; [done|]. split; [done|].
      rewrite Epath in Hf2, Hd2. apply Hst'; [done|by apply frame_task|by eapply task_roles].
    + destruct Hd as (_&Hd&_). destruct (call_del s c Hs task_node (to_string i) Hdir) as (s'&->&Hs'&Hv');
        [by apply to_string16_name|]. rewrite Epath in *. unfold t_del in *.
      rewrite Hd in * by by apply to_string16_name. cbn [fst snd] in *. step_ok.
      exists s'. rewrite Hv'. by destruct Hst.
Qed.

(** *** Listings *)
Lemma cast_all_ok {A} (f : A → Z) l : Forall (λ x, in_signed 32 (f x)) l →
  cast_all (to_string ∘ f <$> l) = Ok (f <$> l).
Proof.
  induction 1 as [|x l Hx _ IH]; [done|]. cbn [fmap list_fmap cast_all compose].
  rewrite (lexical_cast_to_string int32_t (f x)) by done. step_ok. rewrite IH. done.
Qed.

Lemma keys_in {K V} `{Countable K} (m : gmap K V) l (P : K → Prop) :
  l ≡ₚ map_to_list m → (∀ i v, m !! i = Some v → P i) → Forall (λ x, P x.1) l.
Proof.
  intros Hl HP. apply Forall_forall. intros [i v] Hi. rewrite Hl in Hi. apply elem_of_map_to_list in Hi. eauto.
Qed.

Lemma read_task_nodes_ok (m : gmap Z str) c role l : ∀ s acc,
  live s → Dir to_string (in_signed 16) text (child TASK (lit "node")) (ms_view s) m →
  Forall (λ iv, m !! iv.1 = Some iv.2) l →
  ∃ s', read_task_nodes root s c role (to_string ∘ fst <$> l) acc =
      Ok (s', acc ++ (filter (λ iv, role = [] ∨ iv.2 = role) l).*1) ∧ live s' ∧ ms_view s' = ms_view s.
Proof.
  destruct task_path as [Hdir Epath]. induction l as [|[i v] l IH]; intros s acc Hs Hd Hl;
    cbn [fmap list_fmap read_task_nodes compose fst]; [exists s; by rewrite app_nil_r|].
  apply Forall_cons in Hl as [Hi Hl]. cbn in Hi. pose proof (dir_keys _ _ _ _ _ _ Hd i v Hi) as Hok.
  assert (Hcast : pico_lexical_cast_check int32_t (to_string i) 0 = Ok i)
    by (apply (lexical_cast_to_string int32_t), int16_wide, Hok).
  assert (E16 : i16 i = i) by (apply swrap_small; [lia|done]).
  rewrite filter_cons. destruct (decide (role = [])) as [Hrole|Hrole].
  - rewrite Hcast, (decide_True (P := role = [] ∨ _)) by by left. step_ok. rewrite E16.
    destruct (IH s (acc ++ [i]) Hs Hd Hl) as (s'&->&?&?). exists s'. by rewrite <- app_assoc.
  - rewrite <- Epath in Hd. destruct (entry_get to_string _ task_node to_string16_name int16_inj Hdir s c m Hs Hd i [] Hok)
      as (s1&->&Hs1&Hv1); [done|]. rewrite Epath in Hd. step_ok. unfold has. rewrite Hi, bool_decide_true by by eexists.
    cbn [default from_option andb]. change (id v) with v. assert (Hd1 : Dir to_string (in_signed 16) text (child TASK (lit "node")) (ms_view s1) m) by by rewrite Hv1.
    destruct (bool_decide_reflect (v = role)) as [E|E].
    + rewrite Hcast, decide_True by by right. step_ok. rewrite E16.
      destruct (IH s1 (acc ++ [i]) Hs1 Hd1 Hl) as (s'&->&?&?). exists s'. rewrite <- app_assoc. split; [done|]. by split; [|congruence].
    + rewrite decide_False by naive_solver.
      destruct (IH s1 acc Hs1 Hd1 Hl) as (s'&->&?&?). exists s'. split; [done|]. by split; [|congruence].
Qed.

Lemma same_store s s' st : ms_view s' = ms_view s → StoreRel (ms_view s) st → StoreRel (ms_view s') st.
Proof. by intros ->. Qed.

Lemma list_ops s c op st : live s → StoreRel (ms_view s) st →
  match op with
  | GetTaskNode _ _ | GetStorageList | GetModelNames =>
      ∃ s' a, store_exec s c op = Ok (s', a) ∧ store_list st op a ∧ live s' ∧ StoreRel (ms_view s') st
  | _ => True
  end.
Proof.
  intros Hs Hst. destruct op as [| | | | | |role old| | | | | | |  | | | | | | ]; try done; cbn [store_exec store_list].
  - unfold get_task_node. destruct task_path as [Hdir Epath]. pose proof (tk_roles _ _ _ _ (sr_task _ _ Hst)) as Hd.
    destruct (st_roles st) as [m|]; cbn [RolesRel] in Hd.
    + rewrite <- Epath in Hd.
      destruct (entry_names to_string _ task_node to_string16_name int16_inj Hdir s c m Hs Hd) as (s1&l&->&Hs1&Hv1&Hl).
      step_ok. rewrite Epath in Hd. destruct (read_task_nodes_ok m c role l s1 [] Hs1) as (s2&->&Hs2&Hv2).
      { by rewrite Hv1. }
      { apply Forall_forall. intros [i v]. rewrite Hl. apply elem_of_map_to_list. }
      step_ok. do 2 eexists. split; [done|]. split; [split; [done|]; by rewrite Hl|]. split; [done|].
      eapply same_store; [|done]. congruence.
    + destruct (tree_node_sub_eq root s c task_node [] Hs (dp_self _ Hdir)) as (s1&->&Hs1&Hv1). step_ok.
      rewrite Epath. unfold t_sub. rewrite (proj1 Hd). cbn [fst snd]. do 2 eexists. split; [done|].
      split; [done|]. split; [done|]. by eapply same_store.
  - unfold get_storage_list. pose proof (top_path PATH_CONTEXT ltac:(apply dirs_ok)) as Hdir.
    pose proof (sr_contexts _ _ Hst) as Hd.
    destruct (entry_names to_string _ PATH_CONTEXT to_string_name to_string_inj Hdir s c _ Hs Hd) as (s1&l&->&Hs1&Hv1&Hl).
    step_ok. cbn [SCHECK]. step_ok. rewrite cast_all_ok.
    2: { eapply (keys_in _ _ (in_signed 32)); [done|]. apply (dir_keys _ _ _ _ _ _ Hd). }
    step_ok. do 2 eexists. split; [done|]. split; [split; [done|]; by rewrite Hl|]. split; [done|]. by eapply same_store.
  - unfold get_model_names. pose proof (top_path PATH_MODEL ltac:(apply dirs_ok)) as Hdir.
    pose proof (sr_models _ _ Hst) as Hd.
    destruct (entry_names id _ PATH_MODEL id_name id_inj Hdir s c _ Hs Hd) as (s1&l&->&Hs1&Hv1&Hl).
    step_ok. cbn [SCHECK]. step_ok. do 2 eexists. split; [done|]. split; [by rewrite Hl|]. split; [done|]. by eapply same_store.
Qed.

(** *** Nodes of the cluster *)
Lemma register_node_ops s c info st : live s → StoreRel (ms_view s) st → store_op_ok (RegisterNode info) →
  does s c (RegisterNode info) st.
Proof.
  intros Hs Hst [Hi Hv]. pose proof (top_path PATH_NODE ltac:(apply dirs_ok)) as Hdir.
  pose proof (sr_nodes _ _ Hst) as Hd. pose proof (store_nodes (ms_view s)) as Hst'. pose proof (sr_rank _ _ Hst) as Hrank.
  destruct st as [n cx md ready failed roles]; cbn [st_nodes] in *.
  unfold does; cbn [store_step store_exec]; unfold register_node.
  destruct (call_add s c Hs PATH_NODE (to_string (global_rank info)) (to_json_str info) true Hdir) as (s'&->&Hs'&Hv');
    [by apply to_string16_name|done|]. fold NODE in *.
  destruct (dir_add to_string (in_signed 16) node_text int16_name int16_inj NODE (ms_view s) n c (global_rank info)
    (c, info) (to_json_str info) true Hd Hi) as [-> Hd']; [by apply path_slash, Hdir|done|].
  rewrite <- Hv' in Hd'. unfold has. step_ok. destruct (n !! global_rank info) as [x|] eqn:E; [done|].
  rewrite (bool_decide_false (is_Some _)) by by intros [? [=]]. rewrite bool_decide_true by done. cbn [SCHECK]. step_ok.
  exists s'. split; [done|]. split; [done|].
  apply Hst'; [done|rewrite Hv'; apply add_frame; auto with prpc|done|].
  intros i x [[<- <-]|[_ ?]]%lookup_insert_Some; [done|by eapply Hrank].
Qed.

(** Nothing permanent goes with a connection. *)
Lemma perm_drop {K} `{Countable K} (enc : K → str) ok D t m c :
  (∀ k k', ok k → ok k' → enc k = enc k' → k = k') →
  Dir enc ok text D t m → Dir enc ok text D (t_drop t c) m.
Proof.
  intros Hi Hd. pose proof (dir_drop enc ok text Hi D t m c Hd) as Hd'.
  rewrite map_filter_id in Hd'; [done|]. by intros i x _.
Qed.

Lemma task_drop t r f m c : TaskRel t r f m → TaskRel (t_drop t c) r f m.
Proof.
  intros [[v Hv] H1 H2 H3]. split; [exists v; by rewrite node_drop, Hv| | |].
  - rewrite node_drop, H1. by destruct r.
  - rewrite node_drop, H2. by destruct f.
  - destruct m as [m|]; [by apply perm_drop; [apply int16_inj|]|].
    destruct H3 as (H3&H4&H5). split; [by rewrite node_drop, H3|].
    split; intros; rewrite node_drop; by rewrite ?H4, ?H5.
Qed.

Lemma store_drop t st c : StoreRel t st →
  StoreRel (t_drop t c) (with_nodes st (filter (λ ix, ix.2.1 ≠ c) (st_nodes st))).
Proof.
  intros [Hn Hr Hc Hm Ht]. split; cbn.
  - pose proof (dir_drop to_string (in_signed 16) node_text int16_inj _ _ _ c Hn) as Hd.
    replace (filter (λ ix, ix.2.1 ≠ c) (st_nodes st)) with (filter (λ iv, (node_text iv.2).1 ≠ Some c) (st_nodes st));
      [done|]. apply map_filter_ext. intros i x _. cbn. split; congruence.
  - intros i x [? _]%map_lookup_filter_Some. by apply Hr.
  - by apply perm_drop; [apply to_string_inj|].
  - by apply perm_drop; [apply id_inj|].
  - by apply task_drop.
Qed.

Lemma leave_ops s c st : live s → StoreRel (ms_view s) st → does s c Leave st.
Proof.
  intros Hs Hst. pose proof (store_drop _ _ c Hst) as Hst'. destruct st as [n cx md ready failed roles].
  unfold does. cbn [store_step store_exec]. destruct (ms_drop_eq s c Hs) as (s'&->&Hs'&Hv). step_ok.
  exists s'. split; [done|]. rewrite Hv. split; [|exact Hst']. split; [done|]. rewrite Hv.
  destruct (dir_here _ _ _ _ _ _ (sr_contexts _ _ Hst)) as [v Hd].
  destruct (root_permanent _ _ _ (live_tree _ Hs) (proj1 (dp_self _ (top_path PATH_CONTEXT ltac:(apply dirs_ok)))) Hd)
    as [w Hw]. exists (None, w). by rewrite node_drop, Hw.
Qed.

Section infos.
Context (json_ok : ∀ info, from_json_str (to_json_str info) = Ok info).

Lemma get_comm_info_of_ok s c i x m : live s → Dir to_string (in_signed 16) node_text NODE (ms_view s) m → m !! i = Some x →
  ∃ s', get_comm_info_of root from_json_str s c i = Ok (s', true, x.2) ∧ live s' ∧ ms_view s' = ms_view s.
Proof.
  intros Hs Hd Hi. pose proof (dir_keys _ _ _ _ _ _ Hd i x Hi) as Hok. unfold get_comm_info_of.
  pose proof (top_path PATH_NODE ltac:(apply dirs_ok)) as Hdir.
  destruct (call_get s c Hs PATH_NODE (to_string i) [] Hdir) as (s'&->&Hs'&Hv'); [by apply to_string16_name|done|].
  fold NODE. step_ok. rewrite (dir_get to_string (in_signed 16) node_text int16_name int16_inj NODE _ m i [] Hd Hok), Hi.
  cbn [fst snd default from_option fmap option_fmap option_map node_text]. change (id (to_json_str x.2)) with (to_json_str x.2).
  rewrite json_ok. step_ok. exists s'. by rewrite bool_decide_true by by eexists.
Qed.

Lemma read_comm_infos_ok c m l : ∀ s acc, live s → Dir to_string (in_signed 16) node_text NODE (ms_view s) m →
  Forall (λ ix, m !! ix.1 = Some ix.2) l →
  ∃ s', read_comm_infos root from_json_str s c (to_string ∘ fst <$> l) acc =
      Ok (s', acc ++ ((λ ix, ix.2.2) <$> l)) ∧ live s' ∧ ms_view s' = ms_view s.
Proof.
  induction l as [|[i x] l IH]; intros s acc Hs Hd Hl; cbn [fmap list_fmap read_comm_infos compose fst];
    [exists s; by rewrite app_nil_r|].
  apply Forall_cons in Hl as [Hi Hl]. cbn in Hi. pose proof (dir_keys _ _ _ _ _ _ Hd i x Hi) as Hok.
  rewrite (lexical_cast_to_string int32_t i) by by apply int16_wide. step_ok. rewrite swrap_small by (done || lia).
  destruct (get_comm_info_of_ok s c i x m Hs Hd Hi) as (s1&->&Hs1&Hv1). step_ok.
  destruct (IH s1 (acc ++ [x.2]) Hs1) as (s'&->&?&?); [by rewrite Hv1|done|].
  exists s'. rewrite <- app_assoc. split; [done|]. by split; [|congruence].
Qed.

Lemma get_comm_info_ok s c st : live s → StoreRel (ms_view s) st →
  ∃ s' l, get_comm_info root from_json_str s c = Ok (s', l) ∧
    l ≡ₚ (λ ix, ix.2.2) <$> map_to_list (st_nodes st) ∧ live s' ∧ ms_view s' = ms_view s.
Proof.
  intros Hs Hst. unfold get_comm_info. pose proof (sr_nodes _ _ Hst) as Hd.
  pose proof (top_path PATH_NODE ltac:(apply dirs_ok)) as Hdir.
  destruct (tree_node_sub_eq root s c PATH_NODE [] Hs (dp_self _ Hdir)) as (s1&->&Hs1&Hv1). step_ok. fold NODE.
  destruct (dir_sub to_string (in_signed 16) node_text int16_name int16_inj NODE _ _ [] Hd) as (l&->&Hl);
    [by apply path_slash, Hdir|]. cbn [fst snd].
  destruct (read_comm_infos_ok c (st_nodes st) l s1 [] Hs1) as (s2&->&Hs2&Hv2); [by rewrite Hv1| |].
  { apply Forall_forall. intros [i x]. rewrite Hl. apply elem_of_map_to_list. }
  do 2 eexists. split; [done|]. split; [by rewrite Hl|]. split; [done|congruence].
Qed.

Lemma store_exec_ok s c op st : live s → StoreRel (ms_view s) st → store_op_ok op →
  if listing op then ∃ s' a, store_exec s c op = Ok (s', a) ∧ store_list st op a ∧ live s' ∧ StoreRel (ms_view s') st
  else does s c op st.
Proof.
  intros Hs Hst Hop. pose proof (mark_ops s c op st Hs Hst Hop) as H1. pose proof (role_ops s c op st Hs Hst Hop) as H2.
  pose proof (context_ops s c op st Hs Hst Hop) as H3. pose proof (model_ops s c op st Hs Hst Hop) as H4.
  pose proof (list_ops s c op st Hs Hst) as H5.
  destruct op; cbn [listing]; auto using register_node_ops, leave_ops.
  destruct (get_comm_info_ok s c st Hs Hst) as (s'&l&He&Hl&Hs'&Hv). cbn [store_exec store_list]. rewrite He. step_ok.
  do 2 eexists. split; [done|]. split; [done|]. split; [done|]. by eapply same_store.
Qed.
End infos.

(** *** Histories *)
Definition empty_store : store := MkStore ∅ ∅ ∅ false None None.

Lemma started_dir {K V} `{Countable K} (enc : K → str) ok (val : V → option sock * str) t d :
  Started root t → d ∈ top_paths → Dir enc ok val (root ++ d) t ∅.
Proof.
  intros [Hd Hn] Hin. split; [by eexists; apply Hd| |done|].
  - intros k x _. rewrite (Hn d) by auto with prpc. split; [done|]. by intros (?&?&_&?&_).
  - intros k g _ _. apply (Hn d); auto with prpc.
Qed.

Lemma started_store t : Started root t → StoreRel t empty_store.
Proof.
  intros Ht. assert (Hin : ∀ i d, top_paths !! i = Some d → d ∈ top_paths) by (intros; by eapply list_elem_of_lookup_2).
  split; cbn; [by apply started_dir; [|apply (Hin 0%nat)]|done|by apply started_dir; [|apply (Hin 6%nat)]|
    by apply started_dir; [|apply (Hin 7%nat)]|].
  assert (Htask : PATH_TASK_STATE ∈ top_paths) by by apply (Hin 1%nat).
  assert (Hn : ∀ q, under TASK q → node t q = None) by (intros q Hq; by apply (st_empty _ _ Ht PATH_TASK_STATE)).
  split; [eexists; by apply (st_dir _ _ Ht)|by apply Hn; auto with prpc..|].
  split; [apply Hn; auto with prpc|]. split; intros; apply Hn; auto with prpc.
Qed.

(** One operation, of any connection, as the maps see it. *)
Definition store_next (st : store) (c : sock) (op : store_op) (a : store_answer) (st' : store) : Prop :=
  if listing op then store_list st op a ∧ st' = st else store_step st c op = Some (st', a).

Inductive store_run : S → list (sock * store_op * store_answer) → S → Prop :=
  | store_nil s : store_run s [] s
  | store_cons s c op a s1 tr s2 : store_op_ok op → store_exec s c op = Ok (s1, a) → store_run s1 tr s2 →
      store_run s ((c, op, a) :: tr) s2.

Inductive store_spec : store → list (sock * store_op * store_answer) → store → Prop :=
  | spec_done st : store_spec st [] st
  | spec_more st c op a st1 tr st2 : store_next st c op a st1 → store_spec st1 tr st2 →
      store_spec st ((c, op, a) :: tr) st2.

Lemma store_run_refines s tr s' st : (∀ info, from_json_str (to_json_str info) = Ok info) →
  store_run s tr s' → live s → StoreRel (ms_view s) st →
  ∃ st', store_spec st tr st' ∧ live s' ∧ StoreRel (ms_view s') st'.
Proof.
  intros Hj Hrun. revert st. induction Hrun as [s|s c op a s1 tr s2 Hop He _ IH]; intros st Hs Hst.
  { exists st. split; [constructor|done]. }
  pose proof (store_exec_ok Hj s c op st Hs Hst Hop) as Hok. unfold does in Hok.
  assert (∃ st1, store_next st c op a st1 ∧ live s1 ∧ StoreRel (ms_view s1) st1) as (st1&Hnext&Hs1&Hst1).
  { unfold store_next. destruct (listing op).
    - destruct Hok as (s'&a'&He'&Hl&Hs'&Hst'). rewrite He in He'. injection He' as <- <-. by exists st.
    - destruct (store_step st c op) as [[st1 a1]|]; [|congruence].
      destruct Hok as (s'&He'&Hs'&Hst'). rewrite He in He'. injection He' as <- <-. by exists st1. }
  destruct (IH st1 Hs1 Hst1) as (st2&?&?). exists st2. split; [by econstructor|done].
Qed.
End stores.

(** ** The stores refine maps *)

(** C31: the stores of the client library. Start from an empty master with [initialize], with a
    root path that is a valid path (empty, or names each after a single slash) followed by a
    slash, and let the clients add, set, read and delete contexts, models and roles, register
    nodes, declare the task ready or failed, list what there is, and disconnect, in any order
    and from any connections, one call at a time, where ranks have 16 bits, numbers of contexts
    32, the names of models are not empty and have no slash, and texts are shorter than the
    machine's sizes ([store_op_ok]). Every such call answers what four finite maps and the two
    marks of the task would: an entry is added only when it is new and set only when it is
    there, a listing names exactly the entries, and the nodes of a connection vanish with it.
    Exactly two of these calls fail a check: declaring the task ready twice, and registering a
    rank that is taken. It is assumed that reading back the JSON text of a CommInfo gives the
    CommInfo, and that the segments of a path, split at slashes, give it back. Names of models
    outside the claim are not refused as such: one with a slash is a deeper path, whose parent
    may be missing, and the empty one fails a check. *)
Theorem client_store_refines {S : Type} `{!MasterService S} (split : str → list str)
    (to_json_str : CommInfo → str) (from_json_str : str → result CommInfo) (p : str) (s : S) (c : sock) :
  (∀ x, join (split x) = x ∧ Forall (λ seg, slash ∉ seg) (split x) ∧ split x ≠ []) →
  (∀ info, from_json_str (to_json_str info) = Ok info) →
  good_path p → small (p ++ [slash]) → ms_good s → t_nodes (ms_view s) = ∅ → t_gen (ms_view s) = ∅ →
  ∃ s1, initialize split (p ++ [slash]) s c = Ok s1 ∧
  ∀ tr s2, store_run (p ++ [slash]) to_json_str from_json_str s1 tr s2 →
    ∃ st, store_spec empty_store tr st ∧
    ∀ c op, store_op_ok to_json_str op →
      match store_exec (p ++ [slash]) to_json_str from_json_str s2 c op with
      | Ok (_, a) => ∃ st', store_next st c op a st'
      | Abort => op = SetTaskReady ∧ st_ready st = true ∨
          ∃ info, op = RegisterNode info ∧ is_Some (st_nodes st !! global_rank info)
      end.
Proof.
  intros Hsp Hj Hp Hsm Hs Hn Hg.
  destruct (initialize_fresh split Hsp p s c Hp Hsm Hs Hn Hg) as (s1&Hi&Hs1&Hst&L&Hf&Hnil). exists s1. split; [done|].
  intros tr s2 Hrun. assert (Hroot : ∃ q, good_path q ∧ p ++ [slash] = q ++ [slash]) by by exists p.
  assert (Hlive : live s1) by (split; [done|]; rewrite (fr_node _ _ Hf), decide_True by done; by eexists).
  destruct (store_run_refines _ Hroot Hsm _ _ s1 tr s2 empty_store Hj Hrun Hlive) as (st&Hspec&Hs2&Hst2).
  { by apply started_store. }
  exists st. split; [done|]. intros c' op Hop.
  pose proof (store_exec_ok _ Hroot Hsm to_json_str from_json_str Hj s2 c' op st Hs2 Hst2 Hop) as Hok.
  unfold store_next. destruct (listing op) eqn:El.
  - destruct Hok as (s3&a&->&Hl&_). by exists st.
  - unfold does in Hok. destruct (store_step st c' op) as [[st' a]|] eqn:Est.
    + destruct Hok as (s3&->&_). by exists st'.
    + rewrite Hok. destruct st as [n cx md ready failed roles]. destruct op; try done; cbn in Est.
      * left. by destruct ready.
      * right. exists info. split; [done|]. unfold has in Est.
        destruct (bool_decide_reflect (is_Some (n !! global_rank info))); done.
Qed.

(** A node that vanishes between the two calls of [get_comm_info]: the missing text is
    parsed all the same. *)
Lemma vanished_node_is_parsed {S : Type} `{!MasterService S} root (from_json_str : str → result CommInfo) (s : S) c i :
  (∃ p, good_path p ∧ root = p ++ [slash]) → small root → live s → in_signed 16 i →
  node (ms_view s) (child (root ++ PATH_NODE) (to_string i)) = None →
  ∃ s', get_comm_info_of root from_json_str s c i = (info ← from_json_str []; Ok (s', false, info)).
Proof.
  intros Hroot Hsm Hs Hi Hno. unfold get_comm_info_of.
  destruct (call_get root s c Hs PATH_NODE (to_string i) []) as (s'&->&_); [|by apply to_string16_name|done|].
  { apply (top_path root Hroot Hsm), (proj1 dirs_ok). }
  step_ok. unfold t_get. rewrite Hno. by exists s'.
Qed.

(** ** Witnesses *)

(** A text for ranks and endpoints: the rank in strokes, its sign, the endpoint. *)
Definition stroke : byte := Byte.x31.
Definition demo_text (info : CommInfo) : str :=
  replicate (Z.to_nat (Z.abs (global_rank info))) stroke ++
  [if global_rank info <? 0 then Byte.x2d else Byte.x2b] ++ endpoint info.

Fixpoint demo_parse (n : Z) (t : str) : result CommInfo :=
  match t with
  | [] => Abort
  | b :: t =>
      if decide (b = stroke) then demo_parse (n + 1) t
      else Ok (MkCommInfo (if decide (b = Byte.x2d) then - n else n) t)
  end.

Lemma demo_text_ok info : demo_parse 0 (demo_text info) = Ok info.
Proof.
  destruct info as [z e]. unfold demo_text. cbn [global_rank endpoint].
  assert (Hn : ∀ k n t, demo_parse n (replicate k stroke ++ t) = demo_parse (n + Z.of_nat k) t).
  { induction k as [|k IH]; intros n t; [cbn; f_equal; lia|]. cbn [replicate app demo_parse].
    rewrite decide_True, IH by done. f_equal. lia. }
  rewrite Hn. cbn [app demo_parse]. destruct (Z.ltb_spec z 0).
  - rewrite decide_False, decide_True by done. do 2 f_equal. lia.
  - rewrite !decide_False by done. do 2 f_equal. lia.
Qed.

Definition demo_script : list (sock * store_op) :=
  [(1%nat, RegisterNode (MkCommInfo 3 (lit "a"))); (2%nat, RegisterNode (MkCommInfo 0 (lit "b")));
   (1%nat, AddContext 7 (lit "x")); (2%nat, AddContext 7 (lit "y")); (2%nat, GetContext 7 []);
   (1%nat, AddModel (lit "m") (lit "v")); (2%nat, SetModel (lit "m") (lit "w")); (1%nat, GetModel (lit "m") []);
   (1%nat, GetTaskNode [] [9]); (1%nat, AddTaskNode 3 (lit "ps")); (2%nat, AddTaskNode 0 (lit "w"));
   (1%nat, GetTaskNode (lit "w") []); (2%nat, SetTaskReady); (1%nat, GetTaskReady); (2%nat, GetCommInfo);
   (1%nat, Leave); (2%nat, GetCommInfo); (2%nat, GetStorageList); (2%nat, DelModel (lit "m")); (2%nat, GetModelNames)].

Section scripts.
Context {S : Type} `{!MasterService S} (root : str).

Fixpoint run_script (s : S) (l : list (sock * store_op)) : result (S * list (sock * store_op * store_answer)) :=
  match l with
  | [] => Ok (s, [])
  | (c, op) :: l =>
      '(s, a) ← store_exec root demo_text (demo_parse 0) s c op;
      '(s, tr) ← run_script s l;
      Ok (s, (c, op, a) :: tr)
  end.

Lemma run_script_run l : ∀ s s' tr, Forall (λ x, store_op_ok demo_text x.2) l → run_script s l = Ok (s', tr) →
  store_run root demo_text (demo_parse 0) s tr s'.
Proof.
  induction l as [|[c op] l IH]; intros s s' tr Hl; cbn [run_script]; [intros [= <- <-]; constructor|].
  apply Forall_cons in Hl as [Hop Hl]. rewrite bind_ok. intros ([s1 a]&He&Hr).
  apply bind_ok in Hr as ([s2 tr2]&Hr&[= <- <-]). by econstructor; [done|exact He|apply IH].
Qed.
End scripts.

#[local] Abbreviation demo_start := (@initialize Master example_service split_slash ([] ++ [slash]) init 1%nat).
#[local] Abbreviation demo_run s := (@run_script Master example_service ([] ++ [slash]) s demo_script).

Lemma demo_script_ok : Forall (λ x, store_op_ok demo_text x.2) demo_script.
Proof.
  repeat constructor; cbn [store_op_ok snd]; unfold in_signed, value_ok, name_ok, good_key, small; cbn [global_rank];
    repeat split; try lia; try (vm_compute; done); vm_compute; set_solver.
Qed.

Lemma demo_script_answers :
  match demo_start with
  | Ok s => match demo_run s with Ok (_, tr) => snd <$> tr | Abort => [] end
  | Abort => []
  end = [Nothing_; Nothing_; Flag true; Flag false; Text true (lit "x"); Flag true; Flag true; Text true (lit "w");
    Ranks false [9]; Flag true; Flag true; Ranks true [0]; Nothing_; Flag true;
    Infos [MkCommInfo 0 (lit "b"); MkCommInfo 3 (lit "a")]; Nothing_; Infos [MkCommInfo 0 (lit "b")]; Ranks true [7];
    Flag true; Names []].
Proof. vm_compute. reflexivity. Qed.

Lemma client_store_refines_witness :
  ∃ s1 s2 tr st, demo_start = Ok s1 ∧ demo_run s1 = Ok (s2, tr) ∧
    store_spec empty_store tr st.
Proof.
  destruct (@client_store_refines Master example_service split_slash demo_text (demo_parse 0) [] init 1%nat)
    as (s1&Hs1&Hall);
    [apply split_slash_spec|apply demo_text_ok|by left|vm_compute; reflexivity|apply init_live|vm_compute; reflexivity|
     vm_compute; reflexivity|].
  pose proof demo_script_answers as E. rewrite Hs1 in E.
  destruct (demo_run s1) as [[s2 tr]|] eqn:Hrun; [|discriminate].
  destruct (Hall tr s2 (run_script_run _ demo_script s1 s2 tr demo_script_ok Hrun)) as (st&Hspec&_).
  exists s1, s2, tr, st. split; [exact Hs1|]. split; [exact Hrun|exact Hspec].
Defined.
