(* ===== verification/Service.v ===== *)
(** * Services: servers, clients and their dealers

    src/src/rpc/RpcService.h, RpcService.cpp, RpcServer.h, RpcServer.cpp, RpcClient.h,
    RpcClient.cpp and the links of a [Dealer] to its creator (src/src/rpc/Dealer.cpp).

    A process has a context (RpcContext.v), objects for its servers and clients, and for
    every dealer the object that created it.  Processes meet at the master: starting one
    draws its rank and registers its node (Store.v), creating a server enters it in the
    registry (Registry.v), and [update_ctx] turns what the master knows into routing
    tables (Discovery.v).  [ProcInv] says that the objects of a process and the tables of
    its context agree, and every call that a process makes on its own keeps it.  System.v
    adds the master.

    Objects are addresses in heaps of their own.  The methods of one process run one at a
    time: each takes the context's lock for what it does there, and [begin_add_server]
    keeps it until [end_add_server].  The receiving thread and the watching thread are
    steps of their own, [MessageEvent], [Accepted] and [update_ctx]. *)
From S2P Require Import Prelude Archive Serialize LazyArchive Message Master MasterClient Locks LexicalCast FairQueue RpcContext Dealers Nodes Registry Discovery Store.
#[local] Open Scope Z_scope.

Section services.
Context {B : Type}.
#[local] Abbreviation ctx := (@RpcContext.ctx B).
#[local] Abbreviation pkt := (@FairQueue.pkt B).

(** ** Objects *)
Record RpcServer := MkRpcServer {
  s_id : Z;
  s_rpc_id : Z;
  s_rpc_name : str;
  s_dealers : gset nat;
  s_terminate : bool;
}.

Record RpcClient := MkRpcClient {
  c_info : RpcServiceInfo;
  c_n_dealers : Z;
}.

(** What a dealer knows besides the members in RpcContext.v: its creators, and which of
    its channels have been terminated. *)
Record links := MkLinks {
  _rpc_server : option nat;
  _rpc_client : option nat;
  req_ended : bool;
  resp_ended : bool;
  _terminated : bool;
}.

(** A process: the connection of its master client, the context, the objects, and the
    static variables of [Dealer::gen_id]. *)
Record proc := Proc {
  p_conn : sock;
  p_ctx : ctx;
  p_servers : gmap nat RpcServer;
  p_clients : gmap nat RpcClient;
  p_links : gmap nat links;
  p_next : Z;
  p_used : gset Z;
}.

Definition with_ctx (p : proc) c := Proc (p_conn p) c (p_servers p) (p_clients p) (p_links p) (p_next p) (p_used p).
Definition with_servers_ (p : proc) m := Proc (p_conn p) (p_ctx p) m (p_clients p) (p_links p) (p_next p) (p_used p).
Definition with_clients (p : proc) m := Proc (p_conn p) (p_ctx p) (p_servers p) m (p_links p) (p_next p) (p_used p).
Definition with_links (p : proc) m := Proc (p_conn p) (p_ctx p) (p_servers p) (p_clients p) m (p_next p) (p_used p).

Definition find_ {A} (m : gmap nat A) (k : nat) : result A := match m !! k with Some x => Ok x | None => Abort end.

Definition rank_of (p : proc) : Z := _self (p_ctx p).

(** ** Dealers and their creators *)

(** The constructor, at address [d]; [gen_id] ends unless all numbers are used. *)
Definition new_dealer (p : proc) (d : nat) (rpc_id : Z) : result proc :=
  match gen_id (Datatypes.S (size (p_used p))) (p_next p) (p_used p) with
  | None => Abort
  | Some (id, next, used) =>
      Ok (Proc (p_conn p) (Dealer_ (p_ctx p) d rpc_id id) (p_servers p) (p_clients p)
            (<[d := MkLinks None None false false false]> (p_links p)) next used)
  end.

Definition dealer_as_server (p : proc) (d : nat) (server : option nat) : result proc :=
  c ← initialize_as_server (p_ctx p) d;
  l ← find_ (p_links p) d;
  Ok (with_links (with_ctx p c)
        (<[d := MkLinks server (_rpc_client l) false (resp_ended l) (_terminated l)]> (p_links p))).

Definition dealer_as_client (p : proc) (d : nat) (client : option nat) : result proc :=
  c ← initialize_as_client (p_ctx p) d;
  l ← find_ (p_links p) d;
  Ok (with_links (with_ctx p c)
        (<[d := MkLinks (_rpc_server l) client (req_ended l) false (_terminated l)]> (p_links p))).

(** A channel exists while the dealer is initialized for it. *)
Definition dealer_terminate (p : proc) (d : nat) : result proc :=
  x ← find_ (dealers (p_ctx p)) d;
  l ← find_ (p_links p) d;
  Ok (with_links p (<[d := MkLinks (_rpc_server l) (_rpc_client l) (req_ended l || _initialized_server x)
        (resp_ended l || _initialized_client x) true]> (p_links p))).

Fixpoint terminate_all (p : proc) (ds : list nat) : result proc :=
  match ds with
  | [] => Ok p
  | d :: ds => p ← dealer_terminate p d; terminate_all p ds
  end.

(** *** [RpcServer] *)
Definition set_server (p : proc) (k : nat) (sv : RpcServer) : proc := with_servers_ p (<[k := sv]> (p_servers p)).
Definition set_client (p : proc) (k : nat) (cl : RpcClient) : proc := with_clients p (<[k := cl]> (p_clients p)).
Definition with_dealers_ (sv : RpcServer) ds := MkRpcServer (s_id sv) (s_rpc_id sv) (s_rpc_name sv) ds (s_terminate sv).
Definition with_terminate (sv : RpcServer) b := MkRpcServer (s_id sv) (s_rpc_id sv) (s_rpc_name sv) (s_dealers sv) b.

Definition server_create_dealer (p : proc) (k d : nat) (fresh : Z * Z) : result proc :=
  sv ← find_ (p_servers p) k;
  p ← new_dealer p d (s_rpc_id sv);
  p ← dealer_as_server p d (Some k);
  c ← ctx_add_server_dealer (p_ctx p) fresh (s_rpc_id sv) (s_id sv) d;
  let p := set_server (with_ctx p c) k (with_dealers_ sv ({[d]} ∪ s_dealers sv)) in
  if s_terminate sv then dealer_terminate p d else Ok p.

Definition server_release_dealer (p : proc) (k d : nat) : result proc :=
  sv ← find_ (p_servers p) k;
  c ← ctx_remove_server_dealer (p_ctx p) (s_rpc_id sv) (s_id sv) d;
  Ok (set_server (with_ctx p c) k (with_dealers_ sv (s_dealers sv ∖ {[d]}))).

Definition server_terminate (p : proc) (k : nat) : result proc :=
  sv ← find_ (p_servers p) k;
  terminate_all (set_server p k (with_terminate sv true)) (elements (s_dealers sv)).

Definition server_restart (p : proc) (k : nat) : result proc :=
  sv ← find_ (p_servers p) k;
  Ok (set_server p k (with_terminate sv false)).

(** *** [RpcClient] *)
Definition client_create_dealer (p : proc) (k d : nat) : result proc :=
  cl ← find_ (p_clients p) k;
  p ← new_dealer p d (service_rpc_id (c_info cl));
  p ← dealer_as_client p d (Some k);
  c ← add_client_dealer (p_ctx p) d;
  Ok (set_client (with_ctx p c) k (MkRpcClient (c_info cl) (i32 (c_n_dealers cl + 1)))).

Definition client_release_dealer (p : proc) (k d : nat) : result proc :=
  cl ← find_ (p_clients p) k;
  c ← remove_client_dealer (p_ctx p) d;
  Ok (set_client (with_ctx p c) k (MkRpcClient (c_info cl) (i32 (c_n_dealers cl - 1)))).

Definition client_service_info (p : proc) (k : nat) : result (option RpcServiceInfo) :=
  cl ← find_ (p_clients p) k; Ok (get_rpc_service_info (p_ctx p) (rpc_service_name (c_info cl))).

Definition client_available_servers (p : proc) (k : nat) : result (option (list Z)) :=
  cl ← find_ (p_clients p) k; Ok (get_avaliable_servers (p_ctx p) (rpc_service_name (c_info cl))).

(** [~RpcClient]. *)
Definition client_destroy (p : proc) (k : nat) : result proc :=
  cl ← find_ (p_clients p) k;
  _ ← SCHECK (c_n_dealers cl =? 0);
  Ok (with_clients p (delete k (p_clients p))).

(** *** [Dealer::finalize], in its two blocks, and the destructor *)
Definition finalize_server (p : proc) (d : nat) : result proc :=
  x ← find_ (dealers (p_ctx p)) d;
  l ← find_ (p_links p) d;
  if _initialized_server x then
    p ← match _rpc_server l with
        | Some k => server_release_dealer p k d
        | None => c ← ctx_remove_server_dealer (p_ctx p) (_rpc_id x) (-1) d; Ok (with_ctx p c)
        end;
    c ← reset_server (p_ctx p) d;
    Ok (with_ctx p c)
  else Ok p.

Definition finalize_client (p : proc) (d : nat) : result proc :=
  x ← find_ (dealers (p_ctx p)) d;
  l ← find_ (p_links p) d;
  if _initialized_client x then
    p ← match _rpc_client l with
        | Some k => client_release_dealer p k d
        | None => c ← remove_client_dealer (p_ctx p) d; Ok (with_ctx p c)
        end;
    c ← reset_client (p_ctx p) d;
    Ok (with_ctx p c)
  else Ok p.

Definition dealer_finalize (p : proc) (d : nat) : result proc := p ← finalize_server p d; finalize_client p d.

Definition dealer_destroy (p : proc) (d : nat) : result proc :=
  p ← dealer_finalize p d;
  Ok (with_links (with_ctx p (forget (p_ctx p) d)) (delete d (p_links p))).

(** ** [RpcService] *)

(** A process that has just been started. *)
Definition start_ctx (rank : Z) : ctx := Ctx rank ∅ ∅ ∅ ∅ ∅ ∅ ∅ ∅ ∅ ∅ ∅ ∅ [].

Definition gen_rank : str := lit "gen_rank".

(** [Dealer(Dealer&&)], into a new object at [to]: what [operator=] does not copy has its
    initial value there, and the tables of the context are not told. *)
Definition dealer_move (p : proc) (to from : nat) : result proc :=
  x ← find_ (dealers (p_ctx p)) from;
  l ← find_ (p_links p) from;
  let left := MkDealer (_rpc_id x) (_g_rank x) (_id x) [] [] false false (_available_rank x) (_servers x) false false in
  let moved := MkDealer (_rpc_id x) (_g_rank x) (_id x) (_server_req_ch x) (_client_resp_ch x)
    (_initialized_server x) (_initialized_client x) (-1) ∅ (_server_req_spent x) (_client_resp_spent x) in
  Ok (with_links (with_ctx p (set_dealers (p_ctx p) (<[to := moved]> (<[from := left]> (dealers (p_ctx p))))))
        (<[to := MkLinks None None (req_ended l) (resp_ended l) false]> (p_links p))).

Section rpc_service.
Context {S : Type} `{!MasterService S}.
Context (root api : str) (to_json_str : CommInfo → str) (from_json_str : str → result CommInfo).

(** [initialize]: [ep] is the endpoint the acceptor was bound to.  The watches are
    insertions into a table of the client library (MasterClient.v). *)
Definition service_initialize (s : S) (c : sock) (ep : str) : result (S * proc) :=
  '(s, id) ← generate_id root s c (api ++ [dollar] ++ gen_rank);
  let rank := i16 id in
  s ← register_node root to_json_str s c (MkCommInfo rank ep);
  '(s, _) ← tree_node_add root s c (PATH_RPC ++ [slash] ++ api) [] false;
  '(s, _) ← tree_node_add root s c PATH_NODE [] false;
  Ok (s, Proc c (start_ctx rank) ∅ ∅ ∅ 0 ∅).

(** The new object gets the address [k]. *)
Definition create_server (s : S) (p : proc) (k : nat) (rpc_name : str) (server_id : Z) (fresh : Z * Z)
    : result (S * proc) :=
  '(s, _, (rpc_id, server_id, b)) ←
    register_server root s (p_conn p) ∅ api rpc_name (rank_of p) server_id;
  _ ← SCHECK b;
  c ← end_add_server (p_ctx p) fresh rpc_id server_id;
  Ok (s, set_server (with_ctx p c) k (MkRpcServer server_id rpc_id rpc_name ∅ false)).

Definition remove_server (s : S) (p : proc) (sv : RpcServer) : result (S * proc) :=
  '(s, ret) ← deregister_server root s (p_conn p) api (s_rpc_name sv) (s_id sv);
  c ← ctx_remove_server (p_ctx p) (s_rpc_id sv) (s_id sv);
  _ ← SCHECK ret;
  Ok (s, with_ctx p c).

(** [~RpcServer]. *)
Definition server_destroy (s : S) (p : proc) (k : nat) : result (S * proc) :=
  sv ← find_ (p_servers p) k;
  _ ← SCHECK (bool_decide (s_dealers sv = ∅));
  '(s, p) ← remove_server s p sv;
  Ok (s, with_servers_ p (delete k (p_servers p))).

Definition service_register (s : S) (p : proc) (rpc_name : str) : result (S * Z) :=
  '(s, _, rpc_id) ← register_rpc_service root s (p_conn p) ∅ api rpc_name; Ok (s, rpc_id).

Definition service_deregister (s : S) (p : proc) (rpc_name : str) : result S :=
  '(s, _, _) ← deregister_rpc_service root s (p_conn p) ∅ api rpc_name; Ok s.

(** [None]: the condition does not hold yet and the thread waits for the next update. *)
Definition create_client (s : S) (p : proc) (k : nat) (rpc_name : str) (expected_server_num : Z)
    : result (S * option proc) :=
  s ← (if expected_server_num =? 0 then '(s, _) ← service_register s p rpc_name; Ok s else Ok s);
  Ok (s, info ← get_rpc_service_info (p_ctx p) rpc_name;
         if expected_server_num <=? i32 (Z.of_nat (length (servers info)))
         then Some (set_client p k (MkRpcClient info 0)) else None).

(** What [create_dealer] does in its process. *)
Definition named_dealer (p : proc) (d : nat) (rpc_id : Z) (fresh : Z * Z) : result proc :=
  p ← new_dealer p d rpc_id;
  p ← dealer_as_client p d None;
  p ← dealer_as_server p d None;
  c ← ctx_add_server_dealer (p_ctx p) fresh rpc_id (-1) d;
  c ← add_client_dealer c d;
  Ok (with_ctx p c).

Definition create_dealer (s : S) (p : proc) (d : nat) (rpc_name : str) (fresh : Z * Z) : result (S * proc) :=
  '(s, rpc_id) ← service_register s p rpc_name;
  p ← named_dealer p d rpc_id fresh; Ok (s, p).

(** [Dealer(rpc_name, service)]. *)
Definition dealer_by_name (s : S) (p : proc) (d : nat) (rpc_name : str) : result (S * proc) :=
  '(s, rpc_id) ← service_register s p rpc_name;
  p ← new_dealer p d rpc_id; Ok (s, p).

Definition create_bare_dealer (p : proc) (d : nat) : result proc := new_dealer p d (-1).

(** [update_ctx].  [iter], [iter_info]: the iteration orders of the socket maps and of the
    map of services; [next]: the addresses of new frontends.  The nodes are read again
    when one of a connected peer is missing. *)
Definition update_ctx (s : S) (p : proc) (iter : gmap Z nat → list (Z * nat))
    (iter_info : gmap str RpcServiceInfo → list (str * RpcServiceInfo)) (next : nat) : result (S * proc) :=
  '(s, comm_info) ← get_comm_info root from_json_str s (p_conn p);
  let ranks := global_rank <$> comm_info in
  '(s, again) ← match stale (p_ctx p) iter (_server_sockets (p_ctx p)) ranks with
    | [] => Ok (s, [])
    | _ => get_comm_info root from_json_str s (p_conn p)
    end;
  let c := update_comm_info (p_ctx p) iter next ranks (global_rank <$> again) in
  '(s, c) ← update_services root api s (p_conn p) c iter_info;
  Ok (s, with_ctx p c).

End rpc_service.

(** ** The objects of a process agree with its tables *)
Definition has_server (m : gmap nat RpcServer) (i s : Z) : Prop :=
  ∃ k sv, m !! k = Some sv ∧ s_rpc_id sv = i ∧ s_id sv = s.

(** For whom a dealer serves, with the numbers it is registered under, and calls. *)
Definition serves_for (r : role) (l : links) : option (option nat * Z * Z) :=
  (λ s, (_rpc_server l, r_rpc r, s)) <$> r_serves r.
Definition calls_for (r : role) (l : links) : option (option nat) :=
  if r_calls r then Some (_rpc_client l) else None.

Definition server_of (D : gmap nat role) (L : gmap nat links) (d : nat) : option (option nat * Z * Z) :=
  r ← D !! d; l ← L !! d; serves_for r l.
Definition client_of (D : gmap nat role) (L : gmap nat links) (d : nat) : option (option nat) :=
  r ← D !! d; l ← L !! d; calls_for r l.

Record ServersOK (m : gmap nat RpcServer) (own : nat → option (option nat * Z * Z)) : Prop := {
  so_owner d k i s : own d = Some (Some k, i, s) →
    ∃ sv, m !! k = Some sv ∧ s_rpc_id sv = i ∧ s_id sv = s ∧ d ∈ s_dealers sv;
  so_named d i s : own d = Some (None, i, s) → s = -1;
  so_dealers k sv d : m !! k = Some sv → d ∈ s_dealers sv → own d = Some (Some k, s_rpc_id sv, s_id sv);
  so_distinct k k' sv sv' : m !! k = Some sv → m !! k' = Some sv' →
    s_rpc_id sv = s_rpc_id sv' → s_id sv = s_id sv' → k = k';
}.

Record ClientsOK (m : gmap nat RpcClient) (own : nat → option (option nat)) : Prop := {
  co_owner d k : own d = Some (Some k) → is_Some (m !! k);
  co_count k cl : m !! k = Some cl →
    c_n_dealers cl < 2 ^ 31 ∧
    ∃ X : gset nat, c_n_dealers cl = Z.of_nat (size X) ∧ ∀ d, d ∈ X ↔ own d = Some (Some k);
}.

Definition at_rest (r : role) : Prop := r_server r = bool_decide (is_Some (r_serves r)) ∧ r_client r = r_calls r.

(** Client sockets lead to frontends of their rank. *)
Definition Wired (c : ctx) : Prop :=
  ∀ rank f, _client_sockets c !! rank = Some f → f_rank <$> fronts c !! f = Some rank.

Record ProcInv (p : proc) (D : gmap nat role) : Prop := {
  pv_agrees : Agrees (p_ctx p) D (has_server (p_servers p));
  pv_links d : is_Some (p_links p !! d) ↔ is_Some (D !! d);
  pv_rest d r : D !! d = Some r → at_rest r ∧ r_id r ∈ p_used p;
  pv_servers : ServersOK (p_servers p) (server_of D (p_links p));
  pv_clients : ClientsOK (p_clients p) (client_of D (p_links p));
  pv_wired : Wired (p_ctx p);
}.

(** *** Owners, one dealer at a time *)
Lemma server_of_insert D L d r l e :
  server_of (<[d := r]> D) (<[d := l]> L) e = if decide (d = e) then serves_for r l else server_of D L e.
Proof.
  unfold server_of. case_decide as E; [subst; by rewrite !lookup_insert_eq|]. by rewrite !lookup_insert_ne.
Qed.
Lemma client_of_insert D L d r l e :
  client_of (<[d := r]> D) (<[d := l]> L) e = if decide (d = e) then calls_for r l else client_of D L e.
Proof.
  unfold client_of. case_decide as E; [subst; by rewrite !lookup_insert_eq|]. by rewrite !lookup_insert_ne.
Qed.

Lemma servers_ok_ext m own own' : ServersOK m own → (∀ d, own' d = own d) → ServersOK m own'.
Proof. intros [] He. split; [setoid_rewrite He..|]; done. Qed.
Lemma clients_ok_ext m own own' : ClientsOK m own → (∀ d, own' d = own d) → ClientsOK m own'.
Proof. intros [] He. by split; setoid_rewrite He. Qed.

(** A dealer enters or leaves a server, or becomes or ceases to be one of its own. *)
Lemma servers_ok_join m own own' d k sv : ServersOK m own → own d = None → m !! k = Some sv →
  (∀ e, own' e = if decide (d = e) then Some (Some k, s_rpc_id sv, s_id sv) else own e) →
  ServersOK (<[k := with_dealers_ sv ({[d]} ∪ s_dealers sv)]> m) own'.
Proof.
  intros [H1 H2 H3 H4] Hd Hk Ho. split.
  - intros e k' i s. rewrite Ho. case_decide as E.
    + intros [= <- <- <-]. eexists. rewrite lookup_insert_eq. split; [done|]. cbn. set_solver.
    + intros (sv'&Hk'&?&?&?)%H1. destruct (decide (k = k')) as [<-|].
      * eexists. rewrite lookup_insert_eq. split; [done|]. cbn. simplify_eq. set_solver.
      * exists sv'. by rewrite lookup_insert_ne.
  - intros e i s. rewrite Ho. case_decide; [done|apply H2].
  - intros k' sv' e [[<- <-]|[Hne Hk']]%lookup_insert_Some; cbn; rewrite Ho.
    + intros [->%elem_of_singleton|Hin]%elem_of_union; [by rewrite decide_True|].
      rewrite decide_False by (intros ->; rewrite (H3 k sv e) in Hd; done). by apply H3.
    + intros Hin. rewrite decide_False by (intros ->; rewrite (H3 k' sv' e) in Hd; done). by apply H3.
  - intros k1 k2 sv1 sv2 [[<- <-]|[N1 E1]]%lookup_insert_Some [[<- <-]|[N2 E2]]%lookup_insert_Some; cbn; eauto.
Qed.

Lemma servers_ok_leave m own own' d k sv i s : ServersOK m own → own d = Some (Some k, i, s) → m !! k = Some sv →
  (∀ e, own' e = if decide (d = e) then None else own e) →
  ServersOK (<[k := with_dealers_ sv (s_dealers sv ∖ {[d]})]> m) own'.
Proof.
  intros [H1 H2 H3 H4] Hd Hk Ho. split.
  - intros e k' i' s'. rewrite Ho. case_decide as E; [done|].
    intros (sv'&Hk'&?&?&?)%H1. destruct (decide (k = k')) as [<-|].
    + eexists. rewrite lookup_insert_eq. split; [done|]. cbn. simplify_eq. set_solver.
    + exists sv'. by rewrite lookup_insert_ne.
  - intros e i' s'. rewrite Ho. case_decide; [done|apply H2].
  - intros k' sv' e [[<- <-]|[Hne Hk']]%lookup_insert_Some; cbn; rewrite Ho.
    + intros [Hin Hne]%elem_of_difference. rewrite decide_False by set_solver. by apply H3.
    + intros Hin. rewrite decide_False; [by apply H3|]. intros ->. rewrite (H3 k' sv' e) in Hd; [congruence|done|done].
  - intros k1 k2 sv1 sv2 [[<- <-]|[N1 E1]]%lookup_insert_Some [[<- <-]|[N2 E2]]%lookup_insert_Some; cbn; eauto.
Qed.

Lemma servers_ok_own m own own' d o : ServersOK m own →
  (∀ k i s, own d ≠ Some (Some k, i, s)) → (o = None ∨ ∃ i, o = Some (None, i, -1)) →
  (∀ e, own' e = if decide (d = e) then o else own e) → ServersOK m own'.
Proof.
  intros [H1 H2 H3 H4] Hd Hnew Ho. split; [| | |done].
  - intros e k i s. rewrite Ho. case_decide; [|apply H1]. destruct Hnew as [->|[j ->]]; done.
  - intros e i s. rewrite Ho. case_decide; [|apply H2]. destruct Hnew as [->|[j ->]]; congruence.
  - intros k sv e Hk Hin. rewrite Ho. rewrite decide_False; [by apply H3|].
    intros ->. by destruct (Hd _ _ _ (H3 k sv e Hk Hin)).
Qed.

Lemma clients_ok_join m own own' d k cl : ClientsOK m own → own d = None → m !! k = Some cl →
  c_n_dealers cl < 2 ^ 31 - 1 →
  (∀ e, own' e = if decide (d = e) then Some (Some k) else own e) →
  ClientsOK (<[k := MkRpcClient (c_info cl) (i32 (c_n_dealers cl + 1))]> m) own'.
Proof.
  intros [H1 H2] Hd Hk Hroom Ho. split.
  - intros e k'. rewrite Ho, lookup_insert_is_Some'. case_decide; [intros [= <-]; by left|].
    intros ?%H1. by right.
  - intros k' cl' [[<- <-]|[Hne Hk']]%lookup_insert_Some.
    + destruct (H2 k cl Hk) as (_&X&HX&Hin). cbn. rewrite swrap_small by (unfold in_signed; lia).
      split; [lia|]. exists ({[d]} ∪ X).
      assert (d ∉ X) by (rewrite Hin, Hd; done). rewrite size_union, size_singleton by set_solver. split; [lia|].
      intros e. rewrite Ho, elem_of_union, elem_of_singleton, Hin. case_decide; naive_solver.
    + destruct (H2 k' cl' Hk') as (?&X&HX&Hin). split; [done|]. exists X. split; [done|]. intros e. rewrite Hin, Ho.
      case_decide as E; [|done]. subst. rewrite Hd. split; [done|congruence].
Qed.

Lemma clients_ok_leave m own own' d k cl : ClientsOK m own → own d = Some (Some k) → m !! k = Some cl →
  (∀ e, own' e = if decide (d = e) then None else own e) →
  ClientsOK (<[k := MkRpcClient (c_info cl) (i32 (c_n_dealers cl - 1))]> m) own'.
Proof.
  intros [H1 H2] Hd Hk Ho. split.
  - intros e k'. rewrite Ho, lookup_insert_is_Some'. case_decide; [done|]. intros ?%H1. by right.
  - intros k' cl' [[<- <-]|[Hne Hk']]%lookup_insert_Some.
    + destruct (H2 k cl Hk) as (?&X&HX&Hin). cbn.
      assert (Hdx : d ∈ X) by by rewrite Hin.
      assert (size X = Datatypes.S (size (X ∖ {[d]}))) as Hsz.
      { rewrite (union_difference_singleton_L d X Hdx) at 1. rewrite size_union, size_singleton by set_solver. done. }
      rewrite swrap_small by (unfold in_signed; lia). split; [lia|]. exists (X ∖ {[d]}). split; [lia|].
      intros e. rewrite Ho, elem_of_difference, elem_of_singleton, Hin. case_decide; naive_solver.
    + destruct (H2 k' cl' Hk') as (?&X&HX&Hin). split; [done|]. exists X. split; [done|]. intros e. rewrite Hin, Ho.
      case_decide as E; [|done]. subst. rewrite Hd. split; [congruence|done].
Qed.

Lemma clients_ok_own m own own' d o : ClientsOK m own →
  (∀ k, own d ≠ Some (Some k)) → (∀ k, o ≠ Some (Some k)) →
  (∀ e, own' e = if decide (d = e) then o else own e) → ClientsOK m own'.
Proof.
  intros [H1 H2] Hd Hnew Ho. split.
  - intros e k. rewrite Ho. case_decide; [|apply H1]. intros E. by destruct (Hnew k).
  - intros k cl Hk. destruct (H2 k cl Hk) as (?&X&HX&Hin). split; [done|]. exists X. split; [done|]. intros e. rewrite Hin, Ho.
    case_decide as E; [|done]. subst. split; intros E; [by destruct (Hd k)|by destruct (Hnew k)].
Qed.

(** ** The steps of one process *)

Lemma Agrees_iff (c : ctx) D SV SV' : (∀ i s, SV' i s ↔ SV i s) → Agrees c D SV → Agrees c D SV'.
Proof. intros Hi []. split; try done. intros i s. by rewrite Hi. Qed.

Lemma Wired_kept (c c' : ctx) : kept c c' → Wired c → Wired c'.
Proof. intros (_&Hf&_&Hc&_&_) Hw rank f. rewrite Hf, Hc. apply Hw. Qed.

#[local] Instance kept_refl : Reflexive (kept (B := B)).
Proof. by intros c. Qed.
#[local] Instance kept_trans : Transitive (kept (B := B)).
Proof. intros c1 c2 c3 [E1 H1] [E2 H2]. split; [congruence|by etrans]. Qed.

(** What the outside knows of a process: its connection, its rank, its servers. *)
Definition obj_key (sv : RpcServer) : Z * Z * str := (s_rpc_id sv, s_id sv, s_rpc_name sv).

Record same_objects (p p' : proc) : Prop := {
  sm_conn : p_conn p' = p_conn p;
  sm_rank : rank_of p' = rank_of p;
  sm_key k : obj_key <$> p_servers p' !! k = obj_key <$> p_servers p !! k;
}.

#[local] Instance same_objects_refl : Reflexive same_objects.
Proof. by intros p. Qed.
#[local] Instance same_objects_trans : Transitive same_objects.
Proof. intros p1 p2 p3 [] []. split; congruence. Qed.

Lemma has_server_key m m' : (∀ k, obj_key <$> m' !! k = obj_key <$> m !! k) → ∀ i s, has_server m' i s ↔ has_server m i s.
Proof.
  assert (∀ m m' : gmap nat RpcServer, (∀ k, obj_key <$> m' !! k = obj_key <$> m !! k) → ∀ i s, has_server m' i s → has_server m i s) as Hd.
  { clear. intros m m' H i s (k&sv&Hk&<-&<-). specialize (H k). rewrite Hk in H. symmetry in H.
    apply fmap_Some in H as (sv'&Hk'&E). exists k, sv'. split; [done|]. by injection E. }
  intros H i s. by split; apply Hd.
Qed.

Lemma key_insert (m : gmap nat RpcServer) k sv sv' : m !! k = Some sv → obj_key sv' = obj_key sv →
  ∀ k', obj_key <$> <[k := sv']> m !! k' = obj_key <$> m !! k'.
Proof.
  intros Hk He k'. destruct (decide (k = k')) as [<-|]; [|by rewrite lookup_insert_ne].
  by rewrite lookup_insert_eq, Hk; cbn; rewrite He.
Qed.

(** One dealer gets a new role and new links. *)
Lemma inv_update p D (c : ctx) m cls d r l next used :
  ProcInv p D → Agrees c (<[d := r]> D) (has_server m) → kept (p_ctx p) c →
  at_rest r → r_id r ∈ used → p_used p ⊆ used →
  ServersOK m (server_of (<[d := r]> D) (<[d := l]> (p_links p))) →
  ClientsOK cls (client_of (<[d := r]> D) (<[d := l]> (p_links p))) →
  ProcInv (Proc (p_conn p) c m cls (<[d := l]> (p_links p)) next used) (<[d := r]> D).
Proof.
  intros [Ha Hl Hr Hs Hcl Hw] Ha' Hk Hrest Hid Hu Hs' Hcl'. split; cbn; try done.
  - intros e. rewrite !lookup_insert_is_Some'. naive_solver.
  - intros e r' [[<- <-]|[_ He]]%lookup_insert_Some; [done|]. destruct (Hr e r' He). split; [done|set_solver].
  - by eapply Wired_kept.
Qed.

Definition stays (p : proc) (r : result proc) : Prop := ∃ p' D', r = Ok p' ∧ ProcInv p' D' ∧ same_objects p p'.

(** *** Dealers come *)
Definition no_links : links := MkLinks None None false false false.

Lemma new_dealer_ok p D d rpc : ProcInv p D → D !! d = None → Z.of_nat (size (p_used p)) < 2 ^ 31 →
  ∃ id next c', new_dealer p d rpc =
      Ok (Proc (p_conn p) c' (p_servers p) (p_clients p) (<[d := no_links]> (p_links p)) next ({[id]} ∪ p_used p)) ∧
    Agrees c' (<[d := Role id rpc false false None false]> D) (has_server (p_servers p)) ∧ kept (p_ctx p) c'.
Proof.
  intros [Ha Hl Hr Hs Hcl Hw] Hd Hroom. unfold new_dealer.
  destruct (gen_id_fresh (p_next p) (p_used p) Hroom) as (id&next&->&Hid&Hrange).
  exists id, next, (Dealer_ (p_ctx p) d rpc id). split; [done|]. split; [|done].
  apply Dealer_ok; [done|done|lia|]. intros e r He E. destruct (Hr e r He) as [_ Hin]. by rewrite E in Hin.
Qed.

Lemma dealer_as_server_ok p D SV d r l k :
  Agrees (p_ctx p) D SV → D !! d = Some r → r_server r = false → p_links p !! d = Some l →
  ∃ c', dealer_as_server p d k = Ok (with_links (with_ctx p c')
      (<[d := MkLinks k (_rpc_client l) false (resp_ended l) (_terminated l)]> (p_links p))) ∧
    Agrees c' (<[d := as_server r true]> D) SV ∧ kept (p_ctx p) c'.
Proof.
  intros Ha Hr Hs Hl. unfold dealer_as_server. destruct (initialize_as_server_ok _ _ _ _ _ Ha Hr Hs) as (c'&He&Ha').
  pose proof (on_dealer_keeps (p_ctx p) d (λ x, _ ← SCHECK (negb (_initialized_server x)); Ok (with_server x true))) as Hk.
  fold (initialize_as_server (p_ctx p) d) in Hk. rewrite He in *. step_ok. unfold find_. rewrite Hl. step_ok. eauto.
Qed.

Lemma dealer_as_client_ok p D SV d r l k :
  Agrees (p_ctx p) D SV → D !! d = Some r → r_client r = false → p_links p !! d = Some l →
  ∃ c', dealer_as_client p d k = Ok (with_links (with_ctx p c')
      (<[d := MkLinks (_rpc_server l) k (req_ended l) false (_terminated l)]> (p_links p))) ∧
    Agrees c' (<[d := as_client r true]> D) SV ∧ kept (p_ctx p) c'.
Proof.
  intros Ha Hr Hs Hl. unfold dealer_as_client. destruct (initialize_as_client_ok _ _ _ _ _ Ha Hr Hs) as (c'&He&Ha').
  pose proof (on_dealer_keeps (p_ctx p) d (λ x, _ ← SCHECK (negb (_initialized_client x)); Ok (with_client x true))) as Hk.
  fold (initialize_as_client (p_ctx p) d) in Hk. rewrite He in *. step_ok. unfold find_. rewrite Hl. step_ok. eauto.
Qed.

Lemma found_ok {A} (m : gmap nat A) k x : m !! k = Some x → find_ m k = Ok x.
Proof. unfold find_. by intros ->. Qed.

Lemma server_of_new p D d : ProcInv p D → D !! d = None → server_of D (p_links p) d = None ∧ client_of D (p_links p) d = None.
Proof. intros _ Hd. unfold server_of, client_of. by rewrite Hd. Qed.

Lemma bare_dealer_stays p D d rpc : ProcInv p D → D !! d = None → Z.of_nat (size (p_used p)) < 2 ^ 31 →
  stays p (new_dealer p d rpc).
Proof.
  intros Hp Hd Hroom. destruct (new_dealer_ok p D d rpc Hp Hd Hroom) as (id&next&c'&->&Ha&Hk).
  destruct (server_of_new p D d Hp Hd) as [Hso Hco].
  eexists _, _. split; [done|]. split; [|by split; [|destruct Hk|]].
  apply inv_update; [done..|by split|cbn; set_solver|set_solver| |].
  - eapply (servers_ok_own _ _ _ d None); [apply Hp|by rewrite Hso|by left|]. intros e. by rewrite server_of_insert.
  - eapply (clients_ok_own _ _ _ d None); [apply Hp|by rewrite Hco|done|]. intros e. by rewrite client_of_insert.
Qed.

Lemma server_create_dealer_stays p D k d fresh : ProcInv p D → is_Some (p_servers p !! k) → D !! d = None →
  Z.of_nat (size (p_used p)) < 2 ^ 31 → stays p (server_create_dealer p k d fresh).
Proof.
  intros Hp [sv Hsv] Hd Hroom. unfold server_create_dealer. rewrite (found_ok _ _ _ Hsv). step_ok.
  destruct (new_dealer_ok p D d (s_rpc_id sv) Hp Hd Hroom) as (id&next&c1&->&Ha1&Hk1). step_ok.
  set (p1 := Proc _ c1 _ _ _ _ _).
  destruct (dealer_as_server_ok p1 _ _ d _ no_links (Some k) Ha1 (lookup_insert_eq _ _ _)) as (c2&->&Ha2&Hk2);
    [done|apply lookup_insert_eq|]. step_ok. rewrite insert_insert_eq in Ha2.
  destruct (ctx_add_server_dealer_ok c2 _ _ fresh d _ (s_id sv) Ha2 (lookup_insert_eq _ _ _)) as (c3&He&Ha3); [done..|].
  cbn [p_ctx with_links with_ctx]. cbn [r_rpc as_server] in He.
  pose proof (keeps_ok _ _ _ (ctx_add_server_dealer_keeps _ _ _ _ _) He) as Hk3. rewrite He. step_ok.
  rewrite insert_insert_eq in Ha3.
  set (r := serving _ _) in Ha3. destruct (server_of_new p D d Hp Hd) as [Hso Hco].
  unfold set_server, with_servers_, with_links, with_ctx, p1.
  cbn [p_conn p_ctx p_servers p_clients p_links p_next p_used]. rewrite insert_insert_eq.
  set (m := <[k := with_dealers_ sv _]> (p_servers p)).
  set (l1 := MkLinks (Some k) _ _ _ _).
  assert (Hkey : ∀ k', obj_key <$> m !! k' = obj_key <$> p_servers p !! k') by by eapply key_insert.
  assert (Hk : kept (p_ctx p) c3) by (etrans; [exact Hk1|]; etrans; [exact Hk2|exact Hk3]).
  assert (Hinv : ∀ l, _rpc_server l = Some k → _rpc_client l = None →
    ProcInv (Proc (p_conn p) c3 m (p_clients p) (<[d := l]> (p_links p)) next ({[id]} ∪ p_used p)) (<[d := r]> D)).
  { intros l El El'. apply inv_update; [done| |done|by split|cbn; set_solver|set_solver| |].
    - by apply (Agrees_iff _ _ _ _ (has_server_key _ _ Hkey)).
    - eapply (servers_ok_join _ _ _ d k sv); [apply Hp|done|done|]. intros e. rewrite server_of_insert.
      unfold serves_for. cbn. by rewrite El.
    - eapply (clients_ok_own _ _ _ d None); [apply Hp|by rewrite Hco|done|]. intros e. by rewrite client_of_insert. }
  destruct (s_terminate sv).
  - unfold dealer_terminate, find_. cbn [p_ctx p_links with_links p_conn p_servers p_clients p_next p_used].
    destruct (agrees_lookup _ _ _ d _ Ha3 (lookup_insert_eq _ _ _)) as (x&Hx&_). rewrite Hx. step_ok.
    rewrite lookup_insert_eq. step_ok. eexists _, _. split; [done|]. unfold with_links. cbn. rewrite insert_insert_eq.
    split; [by apply Hinv|]. split; [done|apply Hk|exact Hkey].
  - eexists _, _. split; [done|]. split; [by apply Hinv|]. split; [done|apply Hk|exact Hkey].
Qed.

Lemma client_create_dealer_stays p D k cl d : ProcInv p D → p_clients p !! k = Some cl → c_n_dealers cl < 2 ^ 31 - 1 →
  D !! d = None → Z.of_nat (size (p_used p)) < 2 ^ 31 → stays p (client_create_dealer p k d).
Proof.
  intros Hp Hcl Hn Hd Hroom. unfold client_create_dealer. rewrite (found_ok _ _ _ Hcl). step_ok.
  destruct (new_dealer_ok p D d (service_rpc_id (c_info cl)) Hp Hd Hroom) as (id&next&c1&->&Ha1&Hk1). step_ok.
  set (p1 := Proc _ c1 _ _ _ _ _).
  destruct (dealer_as_client_ok p1 _ _ d _ no_links (Some k) Ha1 (lookup_insert_eq _ _ _)) as (c2&->&Ha2&Hk2);
    [done|apply lookup_insert_eq|]. step_ok. rewrite insert_insert_eq in Ha2.
  destruct (add_client_dealer_ok c2 _ _ d _ Ha2 (lookup_insert_eq _ _ _)) as (c3&He&Ha3); [done..|].
  cbn [p_ctx with_links with_ctx]. pose proof (keeps_ok _ _ _ (add_client_dealer_keeps _ _) He) as Hk3.
  rewrite He. step_ok. rewrite insert_insert_eq in Ha3. destruct (server_of_new p D d Hp Hd) as [Hso Hco].
  assert (Hk : kept (p_ctx p) c3) by (etrans; [exact Hk1|]; etrans; [exact Hk2|exact Hk3]).
  eexists _, _. split; [done|]. split; [|by split; [|apply Hk|]].
  unfold set_client, with_clients, with_links, with_ctx, p1.
  cbn [p_conn p_ctx p_servers p_clients p_links p_next p_used]. rewrite insert_insert_eq.
  apply inv_update; [done..|by split|cbn; set_solver|set_solver| |].
  - eapply (servers_ok_own _ _ _ d None); [apply Hp|by rewrite Hso|by left|]. intros e. by rewrite server_of_insert.
  - eapply (clients_ok_join _ _ _ d k cl); [apply Hp|done|done|done|]. intros e. by rewrite client_of_insert.
Qed.

Lemma named_dealer_stays p D d rpc fresh : ProcInv p D → D !! d = None → Z.of_nat (size (p_used p)) < 2 ^ 31 →
  stays p (named_dealer p d rpc fresh).
Proof.
  intros Hp Hd Hroom. unfold named_dealer.
  destruct (new_dealer_ok p D d rpc Hp Hd Hroom) as (id&next&c1&->&Ha1&Hk1). step_ok. set (p1 := Proc _ c1 _ _ _ _ _).
  destruct (dealer_as_client_ok p1 _ _ d _ no_links None Ha1 (lookup_insert_eq _ _ _)) as (c2&->&Ha2&Hk2);
    [done|apply lookup_insert_eq|]. step_ok. rewrite insert_insert_eq in Ha2. set (p2 := with_links _ _).
  destruct (dealer_as_server_ok p2 _ _ d _ no_links None Ha2 (lookup_insert_eq _ _ _)) as (c3&->&Ha3&Hk3);
    [done|cbn; by rewrite lookup_insert_eq|]. step_ok. rewrite insert_insert_eq in Ha3.
  destruct (ctx_add_server_dealer_ok c3 _ _ fresh d _ (-1) Ha3 (lookup_insert_eq _ _ _)) as (c4&He4&Ha4); [done..|].
  cbn [p_ctx with_links with_ctx]. cbn [r_rpc as_server as_client] in He4.
  pose proof (keeps_ok _ _ _ (ctx_add_server_dealer_keeps _ _ _ _ _) He4) as Hk4. rewrite He4. step_ok.
  rewrite insert_insert_eq in Ha4.
  destruct (add_client_dealer_ok c4 _ _ d _ Ha4 (lookup_insert_eq _ _ _)) as (c5&He5&Ha5); [done..|].
  pose proof (keeps_ok _ _ _ (add_client_dealer_keeps _ _) He5) as Hk5. rewrite He5. step_ok.
  rewrite insert_insert_eq in Ha5. destruct (server_of_new p D d Hp Hd) as [Hso Hco].
  assert (Hk : kept (p_ctx p) c5)
    by (etrans; [exact Hk1|]; etrans; [exact Hk2|]; etrans; [exact Hk3|]; etrans; [exact Hk4|exact Hk5]).
  eexists _, _. split; [done|]. split; [|by split; [|apply Hk|]].
  unfold p2, with_links, with_ctx, p1. cbn [p_conn p_ctx p_servers p_clients p_links p_next p_used]. rewrite !insert_insert_eq.
  apply inv_update; [done..|by split|cbn; set_solver|set_solver| |].
  - eapply (servers_ok_own _ _ _ d (Some (None, rpc, -1))); [apply Hp|by rewrite Hso|eauto|].
    intros e. by rewrite server_of_insert.
  - eapply (clients_ok_own _ _ _ d (Some None)); [apply Hp|by rewrite Hco|done|]. intros e. by rewrite client_of_insert.
Qed.

(** *** Dealers go *)
Definition stays_as (p : proc) (d : nat) (r : role) (D : gmap nat role) (res : result proc) : Prop :=
  ∃ p', res = Ok p' ∧ ProcInv p' (<[d := r]> D) ∧ same_objects p p' ∧ dom (p_links p') = dom (p_links p).

Lemma link_of p D d r : ProcInv p D → D !! d = Some r → ∃ l, p_links p !! d = Some l.
Proof. intros Hp Hr. destruct (proj2 (pv_links _ _ Hp d)) as [l Hl]; [by rewrite Hr|]. by exists l. Qed.

(** The first block of [finalize], for a dealer that serves. *)
Lemma released p D d r l s : ProcInv p D → D !! d = Some r → p_links p !! d = Some l → r_serves r = Some s →
  ∃ m c1, match _rpc_server l with
    | Some k => server_release_dealer p k d
    | None => c ← ctx_remove_server_dealer (p_ctx p) (r_rpc r) (-1) d; Ok (with_ctx p c)
    end = Ok (with_servers_ (with_ctx p c1) m) ∧ ctx_remove_server_dealer (p_ctx p) (r_rpc r) s d = Ok c1 ∧
    Agrees c1 (<[d := serving r None]> D) (has_server (p_servers p)) ∧
    (∀ k, obj_key <$> m !! k = obj_key <$> p_servers p !! k) ∧
    ∀ own, (∀ e, own e = if decide (d = e) then None else server_of D (p_links p) e) → ServersOK m own.
Proof.
  intros Hp Hr Hl Hs. pose proof (pv_servers _ _ Hp) as Hsv.
  assert (Hso : server_of D (p_links p) d = Some (_rpc_server l, r_rpc r, s))
    by (unfold server_of, serves_for; rewrite Hr, Hl; cbn; by rewrite Hs).
  destruct (ctx_remove_server_dealer_ok (p_ctx p) _ _ d r s (pv_agrees _ _ Hp) Hr Hs) as (c1&He1&Ha1).
  destruct (_rpc_server l) as [k|].
  - destruct (so_owner _ _ Hsv d k _ _ Hso) as (sv&Hk&Ei&Esd&Hin). unfold server_release_dealer.
    rewrite (found_ok _ _ _ Hk). step_ok. rewrite Ei, Esd, He1. step_ok. eexists _, c1.
    split; [done|]. split; [done|]. split; [done|]. split; [by eapply key_insert|].
    intros own Ho. by eapply servers_ok_leave.
  - assert (s = -1) as -> by by eapply (so_named _ _ Hsv). rewrite He1. step_ok. exists (p_servers p), c1.
    split; [done|]. split; [done|]. split; [done|]. split; [done|].
    intros own Ho. eapply (servers_ok_own _ _ _ d None); [done|by rewrite Hso|by left|done].
Qed.

Lemma finalize_server_stays p D d r : ProcInv p D → D !! d = Some r →
  stays_as p d (as_server (serving r None) false) D (finalize_server p d).
Proof.
  intros Hp Hr. destruct (link_of _ _ _ _ Hp Hr) as [l Hl].
  destruct (agrees_lookup _ _ _ _ _ (pv_agrees _ _ Hp) Hr) as (x&Hx&_&Hrpc&_&Hxs&_).
  destruct (pv_rest _ _ Hp d r Hr) as [[Es Ec] Hid].
  unfold finalize_server. rewrite (found_ok _ _ _ Hx). step_ok. rewrite (found_ok _ _ _ Hl). step_ok. rewrite Hxs, Hrpc.
  destruct (r_server r) eqn:Er.
  2: { assert (as_server (serving r None) false = r) as ->.
       { destruct r as [? ? ? ? [?|] ?]; cbn in *; [done|by subst]. }
       exists p. by rewrite insert_id. }
  symmetry in Es. apply bool_decide_eq_true in Es as [s Hs].
  destruct (released p D d r l s Hp Hr Hl Hs) as (m&c1&->&He1&Ha1&Hm&Hown).
  step_ok. cbn [p_ctx with_servers_ with_ctx].
  destruct (reset_server_ok c1 _ _ d _ Ha1 (lookup_insert_eq _ _ _) eq_refl) as (c2&He2&Ha2). rewrite He2. step_ok.
  rewrite insert_insert_eq in Ha2.
  assert (Hk : kept (p_ctx p) c2).
  { etrans; [by eapply keeps_ok; [apply ctx_remove_server_dealer_keeps|]|]. eapply keeps_ok; [apply on_dealer_keeps|exact He2]. }
  eexists. split; [done|].
  split; [|split; [split; [done|apply Hk|exact Hm]|done]].
  unfold with_servers_, with_ctx. cbn [p_conn p_ctx p_servers p_clients p_links p_next p_used].
  rewrite <- (insert_id (p_links p) d l Hl) at 1.
  apply inv_update; [done| |done|by split|done|done| |].
  - by apply (Agrees_iff _ _ _ _ (has_server_key _ _ Hm)).
  - apply Hown. intros e. by rewrite server_of_insert.
  - eapply clients_ok_ext; [apply Hp|]. intros e. rewrite client_of_insert. case_decide as E; [|done]. subst e.
    unfold client_of. by rewrite Hr, Hl.
Qed.

Lemma finalize_client_stays p D d r : ProcInv p D → D !! d = Some r →
  stays_as p d (as_client (calling r false) false) D (finalize_client p d).
Proof.
  intros Hp Hr. destruct (link_of _ _ _ _ Hp Hr) as [l Hl]. pose proof (pv_agrees _ _ Hp) as Ha.
  destruct (agrees_lookup _ _ _ _ _ Ha Hr) as (x&Hx&_&_&_&_&Hxc). destruct (pv_rest _ _ Hp d r Hr) as [[Es Ec] Hid].
  unfold finalize_client. rewrite (found_ok _ _ _ Hx). step_ok. rewrite (found_ok _ _ _ Hl). step_ok. rewrite Hxc, Ec.
  assert (Hso : server_of D (p_links p) d = serves_for r l) by (unfold server_of; by rewrite Hr, Hl).
  assert (Hco : client_of D (p_links p) d = calls_for r l) by (unfold client_of; by rewrite Hr, Hl).
  unfold calls_for in Hco. destruct (r_calls r) eqn:Er.
  2: { assert (as_client (calling r false) false = r) as -> by (clear -Ec Er; destruct r; cbn in *; subst; done).
       exists p. by rewrite insert_id. }
  pose proof (pv_clients _ _ Hp) as Hcl. destruct (remove_client_dealer_ok (p_ctx p) _ _ d r Ha Hr) as (c1&He1&Ha1).
  assert (∃ cls, match _rpc_client l with
      | Some k => client_release_dealer p k d
      | None => c ← remove_client_dealer (p_ctx p) d; Ok (with_ctx p c)
      end = Ok (with_clients (with_ctx p c1) cls) ∧
      ∀ own, (∀ e, own e = if decide (d = e) then None else client_of D (p_links p) e) → ClientsOK cls own)
    as (cls&->&Hown).
  { destruct (_rpc_client l) as [k|].
    - destruct (co_owner _ _ Hcl d k Hco) as [cl Hk]. unfold client_release_dealer. rewrite (found_ok _ _ _ Hk). step_ok.
      rewrite He1. step_ok. eexists. split; [done|]. intros own Ho. by eapply clients_ok_leave.
    - rewrite He1. step_ok. exists (p_clients p). split; [done|].
      intros own Ho. eapply (clients_ok_own _ _ _ d None); [done|by rewrite Hco|done|done]. }
  step_ok. cbn [p_ctx with_clients with_ctx].
  destruct (reset_client_ok c1 _ _ d _ Ha1 (lookup_insert_eq _ _ _) eq_refl) as (c2&He2&Ha2). rewrite He2. step_ok.
  rewrite insert_insert_eq in Ha2.
  assert (Hk : kept (p_ctx p) c2).
  { etrans; [by eapply keeps_ok; [apply remove_client_dealer_keeps|]|]. eapply keeps_ok; [apply on_dealer_keeps|exact He2]. }
  eexists. split; [done|].
  split; [|split; [by split; [|apply Hk|]|done]].
  unfold with_clients, with_ctx. cbn [p_conn p_ctx p_servers p_clients p_links p_next p_used].
  rewrite <- (insert_id (p_links p) d l Hl) at 1.
  apply inv_update; [done|done|done|by split|done|done| |].
  - eapply servers_ok_ext; [apply Hp|]. intros e. rewrite server_of_insert. case_decide as E; [|done]. subst e. by rewrite Hso.
  - apply Hown. intros e. by rewrite client_of_insert.
Qed.

Lemma stays_as_bind p d r1 r2 D res f : stays_as p d r1 D res →
  (∀ p1, ProcInv p1 (<[d := r1]> D) → same_objects p p1 → dom (p_links p1) = dom (p_links p) →
     stays_as p1 d r2 (<[d := r1]> D) (f p1)) →
  stays_as p d r2 D (res ≫= f).
Proof.
  intros (p1&->&Hp1&Hs1&Hd1) Hf. step_ok. destruct (Hf p1 Hp1 Hs1 Hd1) as (p2&->&Hp2&Hs2&Hd2).
  rewrite insert_insert_eq in Hp2. exists p2. split; [done|]. split; [done|]. split; [by etrans|congruence].
Qed.

Definition idle (r : role) : role := Role (r_id r) (r_rpc r) false false None false.

Lemma finalize_stays_as p D d r : ProcInv p D → D !! d = Some r → stays_as p d (idle r) D (dealer_finalize p d).
Proof.
  intros Hp Hr. unfold dealer_finalize. eapply stays_as_bind; [by apply finalize_server_stays|].
  intros p1 Hp1 _ _. apply (finalize_client_stays p1 _ d (as_server (serving r None) false)); [done|apply lookup_insert_eq].
Qed.

Lemma stays_as_stays p d r D res : stays_as p d r D res → stays p res.
Proof. intros (p'&->&?&?&_). by exists p', (<[d := r]> D). Qed.

Lemma destroy_stays p D d r : ProcInv p D → D !! d = Some r → stays p (dealer_destroy p d).
Proof.
  intros Hp Hr. unfold dealer_destroy. destruct (finalize_stays_as p D d r Hp Hr) as (p1&->&Hp1&Hs1&_). step_ok.
  destruct Hp1 as [Ha Hl Hrest Hsv Hcl Hw]. eexists _, (delete d D). split; [done|]. split; [|by destruct Hs1].
  pose proof (forget_ok _ _ _ d _ Ha (lookup_insert_eq _ _ _) eq_refl eq_refl) as Ha'. rewrite delete_insert_eq in Ha'.
  assert (Hso : ∀ e, server_of (delete d D) (delete d (p_links p1)) e = server_of (<[d := idle r]> D) (p_links p1) e).
  { intros e. unfold server_of. destruct (decide (d = e)) as [<-|].
    - rewrite !lookup_delete_eq, lookup_insert_eq. cbn. by destruct (p_links p1 !! d).
    - by rewrite !lookup_delete_ne, lookup_insert_ne. }
  assert (Hco : ∀ e, client_of (delete d D) (delete d (p_links p1)) e = client_of (<[d := idle r]> D) (p_links p1) e).
  { intros e. unfold client_of. destruct (decide (d = e)) as [<-|].
    - rewrite !lookup_delete_eq, lookup_insert_eq. cbn. by destruct (p_links p1 !! d).
    - by rewrite !lookup_delete_ne, lookup_insert_ne. }
  split; cbn; [done| | |by eapply servers_ok_ext|by eapply clients_ok_ext|done].
  - intros e. specialize (Hl e). rewrite !lookup_delete_is_Some, lookup_insert_is_Some' in *. naive_solver.
  - intros e r' [Hne He]%lookup_delete_Some. apply (Hrest e). by rewrite lookup_insert_ne.
Qed.

(** *** Flags *)
Definition same_owners (l l' : links) : Prop := _rpc_server l' = _rpc_server l ∧ _rpc_client l' = _rpc_client l.

Lemma links_inv p D L : ProcInv p D → (∀ d, option_Forall2 same_owners (p_links p !! d) (L !! d)) → ProcInv (with_links p L) D.
Proof.
  intros [Ha Hl Hr Hs Hcl Hw] HL. split; try done; cbn.
  - intros d. rewrite <- Hl. specialize (HL d). destruct HL; split; by intros [].
  - eapply servers_ok_ext; [done|]. intros d. unfold server_of, serves_for.
    destruct (D !! d) as [r|]; [|done]. cbn. destruct (HL d) as [l l' [E _]|]; [|done]. cbn.
    destruct (r_serves r); [|done]. cbn. by rewrite E.
  - eapply clients_ok_ext; [done|]. intros d. unfold client_of, calls_for.
    destruct (D !! d); [|done]. cbn. destruct (HL d) as [l l' [_ E]|]; [|done]. cbn. by rewrite E.
Qed.

Lemma servers_inv p D k sv sv' : ProcInv p D → p_servers p !! k = Some sv → obj_key sv' = obj_key sv →
  s_dealers sv' = s_dealers sv → ProcInv (set_server p k sv') D ∧ same_objects p (set_server p k sv').
Proof.
  intros [Ha Hl Hr [H1 H2 H3 H4] Hcl Hw] Hk He Hd. pose proof (key_insert _ k sv sv' Hk He) as Hkey.
  split; [|by split]. split; try done; cbn; [by apply (Agrees_iff _ _ _ _ (has_server_key _ _ Hkey))|].
  injection He as E1 E2 E3. split; [|done| |].
  - intros d k' i s Ho. destruct (H1 d k' i s Ho) as (sv1&Hk'&?&?&?). destruct (decide (k = k')) as [<-|].
    + exists sv'. rewrite lookup_insert_eq. simplify_eq. repeat split; [congruence..|]. by rewrite Hd.
    + exists sv1. by rewrite lookup_insert_ne.
  - intros k' sv1 d [[<- <-]|[_ Hk']]%lookup_insert_Some; [|by apply H3]. rewrite E1, E2, Hd. by apply H3.
  - intros k1 k2 sv1 sv2 [[<- <-]|[N1 K1]]%lookup_insert_Some [[<- <-]|[N2 K2]]%lookup_insert_Some;
      rewrite ?E1, ?E2; eauto.
Qed.

Lemma terminate_stays p D d r : ProcInv p D → D !! d = Some r →
  ∃ p', dealer_terminate p d = Ok p' ∧ ProcInv p' D ∧ same_objects p p'.
Proof.
  intros Hp Hr. destruct (link_of _ _ _ _ Hp Hr) as [l Hl].
  destruct (agrees_lookup _ _ _ _ _ (pv_agrees _ _ Hp) Hr) as (x&Hx&_). unfold dealer_terminate.
  rewrite (found_ok _ _ _ Hx). step_ok. rewrite (found_ok _ _ _ Hl). step_ok. eexists. split; [done|]. split; [|done].
  apply links_inv; [done|]. intros e. destruct (decide (d = e)) as [<-|].
  - rewrite lookup_insert_eq, Hl. by constructor.
  - rewrite lookup_insert_ne by done. by destruct (p_links p !! e); constructor.
Qed.

Lemma terminate_all_stays D ds : ∀ p, ProcInv p D → Forall (λ d, is_Some (D !! d)) ds →
  ∃ p', terminate_all p ds = Ok p' ∧ ProcInv p' D ∧ same_objects p p'.
Proof.
  induction ds as [|d ds IH]; intros p Hp Hds; [by exists p|]. apply Forall_cons in Hds as [[r Hr] Hds].
  cbn [terminate_all]. destruct (terminate_stays p D d r Hp Hr) as (p1&->&Hp1&Hs1). step_ok.
  destruct (IH p1 Hp1 Hds) as (p2&->&?&?). exists p2. split; [done|]. split; [done|by etrans].
Qed.

Lemma own_dealers p D k sv : ProcInv p D → p_servers p !! k = Some sv →
  Forall (λ d, is_Some (D !! d)) (elements (s_dealers sv)).
Proof.
  intros Hp Hk. apply Forall_forall. intros d Hd%elem_of_elements.
  pose proof (so_dealers _ _ (pv_servers _ _ Hp) k sv d Hk Hd) as Ho. unfold server_of in Ho. by destruct (D !! d).
Qed.

Lemma server_terminate_stays p D k : ProcInv p D → is_Some (p_servers p !! k) → stays p (server_terminate p k).
Proof.
  intros Hp [sv Hk]. unfold server_terminate. rewrite (found_ok _ _ _ Hk). step_ok.
  destruct (servers_inv p D k sv (with_terminate sv true) Hp Hk eq_refl eq_refl) as [Hp1 Hs1].
  destruct (terminate_all_stays D (elements (s_dealers sv)) _ Hp1) as (p2&->&?&?); [exact (own_dealers p D k sv Hp Hk)|].
  exists p2, D. split; [done|]. split; [done|]. by etrans; [exact Hs1|].
Qed.

Lemma server_restart_stays p D k : ProcInv p D → is_Some (p_servers p !! k) → stays p (server_restart p k).
Proof.
  intros Hp [sv Hk]. unfold server_restart. rewrite (found_ok _ _ _ Hk). step_ok.
  destruct (servers_inv p D k sv (with_terminate sv false) Hp Hk eq_refl eq_refl). eexists _, D. by split.
Qed.

(** *** Clients *)
Lemma clients_inv p D k cl n : ProcInv p D → p_clients p !! k = None → n = 0 → 
  ProcInv (set_client p k (MkRpcClient cl n)) D.
Proof.
  intros [Ha Hl Hr Hs [H1 H2] Hw] Hk ->. split; try done. split; cbn.
  - intros d k' Ho. rewrite lookup_insert_is_Some'. right. by eapply H1.
  - intros k' cl' [[<- <-]|[_ Hk']]%lookup_insert_Some; [|by apply H2]. split; [done|]. exists ∅. split; [done|].
    intros d. split; [by intros ?%elem_of_empty|]. intros Ho%H1. rewrite Hk in Ho. by destruct Ho.
Qed.

Lemma client_destroy_stays p D k cl : ProcInv p D → p_clients p !! k = Some cl → c_n_dealers cl = 0 →
  stays p (client_destroy p k).
Proof.
  intros [Ha Hl Hr Hs [H1 H2] Hw] Hk Hn. unfold client_destroy. rewrite (found_ok _ _ _ Hk). step_ok. rewrite Hn. step_ok.
  eexists _, D. split; [done|]. split; [|by split]. split; try done. cbn. split.
  - intros d k' Ho. rewrite lookup_delete_is_Some. split; [|by eapply H1]. intros <-.
    destruct (H2 k cl Hk) as (_&X&HX&Hin). apply Hin in Ho. assert (size X = 0%nat) as E by lia.
    apply size_empty_inv in E. set_solver.
  - intros k' cl' [_ Hk']%lookup_delete_Some. by apply H2.
Qed.

(** *** Servers come and go *)
Lemma add_server_inv p D k sv (c : ctx) : ProcInv p D → p_servers p !! k = None → s_dealers sv = ∅ →
  ¬ has_server (p_servers p) (s_rpc_id sv) (s_id sv) →
  Agrees c D (λ i s, has_server (p_servers p) i s ∨ i = s_rpc_id sv ∧ s = s_id sv) → kept (p_ctx p) c →
  ProcInv (set_server (with_ctx p c) k sv) D.
Proof.
  intros [_ Hl Hr [H1 H2 H3 H4] Hcl Hw] Hk Hd Hno Ha Hc. split; try done; cbn; [| |by eapply Wired_kept].
  - eapply Agrees_iff; [|exact Ha]. intros i s. split.
    + intros (k'&o&[[<- <-]|[_ Hk']]%lookup_insert_Some&<-&<-); [by right|]. left. by exists k', o.
    + intros [(k'&o&Hk'&?&?)|[-> ->]]; [exists k', o; by rewrite lookup_insert_ne by congruence|].
      exists k, sv. by rewrite lookup_insert_eq.
  - split; [|done| |].
    + intros d k' i s (o&Hk'&?&?&?)%H1. exists o. by rewrite lookup_insert_ne by congruence.
    + intros k' o d [[<- <-]|[_ Hk']]%lookup_insert_Some; [set_solver|by apply H3].
    + intros k1 k2 o1 o2 [[<- <-]|[N1 K1]]%lookup_insert_Some [[<- <-]|[N2 K2]]%lookup_insert_Some Ei Es; eauto.
      * destruct Hno. exists k2, o2. done.
      * destruct Hno. exists k1, o1. done.
Qed.

Lemma remove_server_inv p D k sv (c : ctx) : ProcInv p D → p_servers p !! k = Some sv → s_dealers sv = ∅ →
  Agrees c D (λ i s, has_server (p_servers p) i s ∧ ¬ (i = s_rpc_id sv ∧ s = s_id sv)) → kept (p_ctx p) c →
  ProcInv (with_servers_ (with_ctx p c) (delete k (p_servers p))) D.
Proof.
  intros [_ Hl Hr [H1 H2 H3 H4] Hcl Hw] Hk Hd Ha Hc. split; try done; cbn; [| |by eapply Wired_kept].
  - eapply Agrees_iff; [|exact Ha]. intros i s. split.
    + intros (k'&o&[Hne Hk']%lookup_delete_Some&<-&<-). split; [by exists k', o|].
      intros [Ei Es]. apply Hne. by eapply H4.
    + intros [(k'&o&Hk'&<-&<-) Hne]. exists k', o. split; [|done]. apply lookup_delete_Some. split; [|done].
      intros <-. apply Hne. by simplify_eq.
  - split; [|done| |].
    + intros d k' i s (o&Hk'&?&?&?)%H1. exists o. split; [|done]. apply lookup_delete_Some. split; [|done].
      intros <-. assert (o = sv) as -> by congruence. set_solver.
    + intros k' o d [_ Hk']%lookup_delete_Some. by apply H3.
    + intros k1 k2 o1 o2 [_ ?]%lookup_delete_Some [_ ?]%lookup_delete_Some. by eapply H4.
Qed.

(** *** The context of a process: messages and connections *)
Lemma ctx_inv p D (c : ctx) : ProcInv p D → same_roles (p_ctx p) c → Wired c →
  ProcInv (with_ctx p c) D ∧ same_objects p (with_ctx p c).
Proof.
  intros [Ha Hl Hr Hs Hcl Hw] Hc Hw'. split; [|split; [done|by apply Hc|done]].
  split; try done. by eapply Agrees_same.
Qed.

Lemma steady_stays p D res : ProcInv p D → steady (p_ctx p) res → stays p (c ← res; Ok (with_ctx p c)).
Proof.
  intros Hp (c&->&Hs&Hw). step_ok. destruct (ctx_inv p D c Hp Hs).
  - eapply Wired_kept; [split; [apply Hs|exact Hw]|apply Hp].
  - by eexists _, D.
Qed.

Lemma steady2_stays {A} p D (res : result (ctx * A)) : ProcInv p D → steady2 (p_ctx p) res →
  stays p ('(c, _) ← res; Ok (with_ctx p c)).
Proof.
  intros Hp (c&a&->&Hs&Hw). step_ok. destruct (ctx_inv p D c Hp Hs).
  - eapply Wired_kept; [split; [apply Hs|exact Hw]|apply Hp].
  - by eexists _, D.
Qed.

(** Frontends keep their rank, and a socket stays or goes. *)
Definition wiring_kept (c c' : ctx) : Prop :=
  (∀ f x, fronts c !! f = Some x → f_rank <$> fronts c' !! f = Some (f_rank x)) ∧
  ∀ rank f, _client_sockets c' !! rank = Some f → _client_sockets c !! rank = Some f.

#[local] Instance wiring_kept_refl : Reflexive wiring_kept.
Proof. intros c. split; [|done]. by intros f x ->. Qed.
#[local] Instance wiring_kept_trans : Transitive wiring_kept.
Proof.
  intros c1 c2 c3 [H1 K1] [H2 K2]. split; [|eauto].
  intros f x (y&Hy&->)%H1%fmap_Some. by apply H2.
Qed.

Lemma Wired_wiring (c c' : ctx) : wiring_kept c c' → Wired c → Wired c'.
Proof. intros [H1 H2] Hw rank f (x&Hx&->)%H2%Hw%fmap_Some. by apply H1. Qed.

Lemma wiring_same (c c' : ctx) : same_wiring c c' → wiring_kept c c'.
Proof. intros (Hf&_&Hc&_&_). split; [|by rewrite Hc]. intros f x. rewrite Hf. by intros ->. Qed.

Lemma remove_frontend_wiring (c : ctx) f : wiring_kept c (remove_frontend c f).
Proof.
  unfold remove_frontend. destruct (fronts c !! f) as [x|]; [|done].
  destruct (_is_client_socket x); split; cbn; try done; try (by intros ?? ->). by intros rank f' [_ ?]%lookup_delete_Some.
Qed.

Lemma set_state_wiring (c : ctx) f st : wiring_kept c (set_state c f st).
Proof.
  unfold set_state. destruct (fronts c !! f) as [x|] eqn:Hx; [|done]. split; [|done]. cbn. intros f' x' Hf'.
  destruct (decide (f = f')) as [<-|]; [rewrite lookup_insert_eq; cbn; congruence|by rewrite lookup_insert_ne, Hf'].
Qed.

Lemma new_front_wiring (c : ctx) f x del se fd : fronts c !! f = None →
  wiring_kept c (set_sockets c (<[f := x]> (fronts c)) del (_client_sockets c) se fd).
Proof. intros Hf. split; [|done]. cbn. intros f' x' Hf'. rewrite lookup_insert_ne by congruence. by rewrite Hf'. Qed.

Lemma fronts_removed (c : ctx) f : fronts (remove_frontend c f) = fronts c.
Proof. unfold remove_frontend. by repeat case_match. Qed.

Lemma accepted_wiring (c : ctx) f rank fds : fronts c !! f = None → wiring_kept c (accepted c f rank fds).
Proof.
  intros Hf. unfold accepted. cbv zeta.
  match goal with |- wiring_kept c (set_sockets ?c' _ _ _ _ _) => trans c' end.
  - case_match; [apply remove_frontend_wiring|done].
  - apply new_front_wiring. case_match; [by rewrite fronts_removed|done].
Qed.

Lemma retire_wiring (c : ctx) f : wiring_kept c (retire c f) ∧ fronts (retire c f) = fronts c.
Proof.
  unfold retire. destruct (fronts c !! f) as [x|]; [|done]. destruct (available x).
  - split; [split; [cbn; by intros ?? ->|done]|done].
  - split; [apply remove_frontend_wiring|apply fronts_removed].
Qed.

Lemma add_frontends_wired ranks : ∀ (c : ctx) next, (∀ n, (next ≤ n)%nat → fronts c !! n = None) →
  Wired c → Wired (add_frontends c next ranks).
Proof.
  induction ranks as [|rank ranks IH]; intros c next Hn Hw; [done|]. cbn [add_frontends]. apply IH; cbn.
  - intros n Hle. rewrite lookup_insert_ne by lia. apply Hn. lia.
  - intros rank' f. assert (Hold : ∀ f', is_Some (fronts c !! f') → next ≠ f').
    { intros f' Hs <-. rewrite Hn in Hs by lia. by destruct Hs. }
    assert (Hgo : _client_sockets c !! rank' = Some f →
      f_rank <$> <[next := MkFrontEnd rank FRONTEND_DISCONNECT false true []]> (fronts c) !! f = Some rank').
    { intros Hf%Hw. rewrite lookup_insert_ne; [done|]. apply Hold. by destruct (fronts c !! f). }
    cbn. destruct (_client_sockets c !! rank); [done|].
    intros [[<- <-]|[_ ?]]%lookup_insert_Some; [by rewrite lookup_insert_eq|by apply Hgo].
Qed.

Lemma update_comm_info_wired (c : ctx) iter next l master : (∀ n, (next ≤ n)%nat → fronts c !! n = None) →
  Wired c → Wired (update_comm_info c iter next l master).
Proof.
  intros Hn Hw. unfold update_comm_info. cbv zeta.
  match goal with |- context [foldl retire c ?l] => generalize l end. intros to_del.
  assert (Wired (foldl retire c to_del) ∧ fronts (foldl retire c to_del) = fronts c) as [Hw' Hf].
  { clear Hn. revert c Hw. induction to_del as [|f fs IH]; intros c Hw; [done|]. cbn [foldl].
    destruct (retire_wiring c f) as [H1 H2]. destruct (IH (retire c f)) as [H3 H4]; [by eapply Wired_wiring|].
    split; [done|congruence]. }
  apply add_frontends_wired; [|done]. intros n. rewrite Hf. apply Hn.
Qed.

(** A rank that is reported has an available frontend afterwards, unless it had one that is
    not available. *)
Definition usable (c : ctx) (rank : Z) : Prop := ∀ f, _client_sockets c !! rank = Some f → is_available c f = true.

Lemma add_frontends_usable ranks rank : ∀ (c : ctx) next, (∀ n, (next ≤ n)%nat → fronts c !! n = None) →
  Wired c → usable c rank → (rank ∈ ranks ∨ is_Some (_client_sockets c !! rank)) →
  is_Some (_client_sockets (add_frontends c next ranks) !! rank) ∧ usable (add_frontends c next ranks) rank.
Proof.
  induction ranks as [|r ranks IH]; intros c next Hn Hw Hu Hin; cbn [add_frontends].
  { destruct Hin as [?%elem_of_nil|Hin]; done. }
  apply IH; cbn.
  - intros n Hle. rewrite lookup_insert_ne by lia. apply Hn. lia.
  - apply (add_frontends_wired [r] c next Hn Hw).
  - assert (Hold : ∀ f, _client_sockets c !! rank = Some f → is_available (set_sockets c (<[next :=
        MkFrontEnd r FRONTEND_DISCONNECT false true []]> (fronts c)) (_to_del_client_sockets c)
        match _client_sockets c !! r with Some _ => _client_sockets c | None => <[r:=next]> (_client_sockets c) end
        (_server_sockets c) (_fd_map c)) f = true).
    { intros f Hf. unfold is_available. cbn. rewrite lookup_insert_ne; [by apply Hu|]. intros <-.
      apply Hw in Hf. by rewrite Hn in Hf. }
    intros f. cbn. destruct (_client_sockets c !! r) eqn:Er; [apply Hold|].
    intros [[<- <-]|[_ Hf]]%lookup_insert_Some; [|by apply Hold]. unfold is_available. cbn. by rewrite lookup_insert_eq.
  - destruct (decide (rank = r)) as [->|Hne].
    + right. destruct (_client_sockets c !! r) eqn:Er; [by rewrite Er|by rewrite lookup_insert_eq].
    + destruct Hin as [[->|Hin]%elem_of_cons|Hin]; [done|by left|right].
      destruct (_client_sockets c !! r); [done|by rewrite lookup_insert_ne].
Qed.

Lemma update_comm_info_usable (c : ctx) iter next l master rank : (∀ n, (next ≤ n)%nat → fronts c !! n = None) →
  Wired c → rank ∈ l → usable c rank →
  ∃ f, get_client_frontend_by_rank (update_comm_info c iter next l master) rank = Some f.
Proof.
  intros Hn Hw Hin Hu. unfold update_comm_info. cbv zeta.
  match goal with |- context [foldl retire c ?l] => generalize l end. intros to_del.
  assert (wiring_kept c (foldl retire c to_del) ∧ fronts (foldl retire c to_del) = fronts c) as [Hk Hf].
  { clear Hn Hu Hw. revert c. induction to_del as [|f fs IH]; intros c; [done|]. cbn [foldl].
    destruct (retire_wiring c f) as [H1 H2]. destruct (IH (retire c f)) as [H3 H4]. split; [by etrans|congruence]. }
  set (c1 := foldl retire c to_del) in *. set (news := filter _ l).
  destruct (add_frontends_usable news rank c1 next) as [[f Hsome] Hu'].
  - intros n. rewrite Hf. apply Hn.
  - by eapply Wired_wiring.
  - intros f Hf'. unfold is_available. rewrite Hf. apply Hu. by apply Hk.
  - destruct (_client_sockets c1 !! rank) eqn:E; [right; by eexists|left]. by apply list_elem_of_filter.
  - exists f. unfold get_client_frontend_by_rank. by rewrite Hsome, Hu'.
Qed.

Section process.
Context (first : gmap Z (list pkt) → Z) (none : B).
Context (first_ok : ∀ m, m ≠ ∅ → is_Some (m !! first m)).

Lemma dispatch_keeps ms : ∀ (c : ctx) D SV, Agrees c D SV → ∃ c', dispatch first c ms = Ok c' ∧ same_roles c c' ∧ same_wiring c c'.
Proof. intros c D SV Ha. by destruct (dispatch_steady first first_ok D SV ms c Ha) as (c'&?&?&?); exists c'. Qed.

Lemma message_stays p D fd ms alive : ProcInv p D →
  stays p (c ← handle_message_event first (p_ctx p) fd ms alive; Ok (with_ctx p c)).
Proof.
  intros Hp. pose proof (pv_agrees _ _ Hp) as Ha.
  destruct (handle_message_event_roles first first_ok (p_ctx p) _ _ fd ms alive Ha) as (c&He&Hs).
  assert (wiring_kept (p_ctx p) c).
  { unfold handle_message_event in He. destruct (_fd_map (p_ctx p) !! fd) as [f|]; [|injection He as <-; done].
    destruct (dispatch_keeps ms (p_ctx p) _ _ Ha) as (c1&Hd&_&Hw%wiring_same). rewrite Hd in He. cbn in He.
    destruct alive; [by injection He as <-|].
    assert (Hw1 : wiring_kept (p_ctx p) (set_state c1 f FRONTEND_EPIPE)) by (etrans; [exact Hw|apply set_state_wiring]).
    destruct (fronts (set_state c1 f FRONTEND_EPIPE) !! f) as [x|]; [|by injection He as <-].
    case_decide; [|by injection He as <-]. injection He as <-. etrans; [exact Hw1|apply remove_frontend_wiring]. }
  rewrite He. step_ok. destruct (ctx_inv p D c Hp Hs); [eapply Wired_wiring; [done|apply Hp]|]. by eexists _, D.
Qed.

(** ** Who serves whom *)
Lemma serving_own p D k sv e : ProcInv p D → p_servers p !! k = Some sv → s_id sv ≠ -1 →
  e ∈ serving_dealers (p_ctx p) (s_rpc_id sv) (s_id sv) ↔ e ∈ s_dealers sv.
Proof.
  intros Hp Hk Hne. pose proof (pv_servers _ _ Hp) as Hs. rewrite (ag_serves _ _ _ (pv_agrees _ _ Hp)). split.
  - intros (r&Hr&Hi&Hsv). destruct (link_of _ _ _ _ Hp Hr) as [l Hl].
    assert (Ho : server_of D (p_links p) e = Some (_rpc_server l, s_rpc_id sv, s_id sv)).
    { unfold server_of, serves_for. rewrite Hr, Hl. cbn. by rewrite Hsv, Hi. }
    destruct (_rpc_server l) as [k'|]; [|by destruct Hne; eapply (so_named _ _ Hs)].
    destruct (so_owner _ _ Hs _ _ _ _ Ho) as (sv'&Hk'&Ei&Es&Hin).
    assert (k' = k) as -> by by eapply (so_distinct _ _ Hs). congruence.
  - intros Hin. pose proof (so_dealers _ _ Hs k sv e Hk Hin) as Ho. unfold server_of, serves_for in Ho.
    destruct (D !! e) as [r|]; [|done]. destruct (p_links p !! e) as [l|]; [|done]. cbn in Ho.
    destruct (r_serves r) as [s|] eqn:Er; [|done]. injection Ho as _ <- <-. by exists r.
Qed.

Lemma server_can_serve p D k sv : ProcInv p D → p_servers p !! k = Some sv → s_id sv ≠ -1 → s_dealers sv ≠ ∅ →
  can_serve (p_ctx p) (s_rpc_id sv) (s_id sv).
Proof.
  intros Hp Hk Hne Hd. pose proof (pv_agrees _ _ Hp) as Ha. split; [done|].
  apply set_choose_L in Hd as [e He]. apply (serving_own p D k sv e Hp Hk Hne) in He.
  pose proof (has_backend (p_ctx p) (s_rpc_id sv) (or_introl (ex_intro _ _ (ex_intro _ e He)))) as Hb.
  exists (queue_of (p_ctx p) (s_rpc_id sv)). split; [done|]. split; [by apply (ag_queue _ _ _ Ha) in Hb as [? _]|].
  split; [intros E; unfold serving_dealers in He; rewrite E in He; by apply not_elem_of_nil in He|].
  intros e' (r&Hr&_&Hsv)%(ag_serves _ _ _ Ha). destruct (agrees_lookup _ _ _ _ _ Ha Hr) as (y&Hy&_&_&Hg&Hi&_).
  exists y. split; [done|]. split; [|done]. rewrite Hi. apply (ag_ready _ _ _ Ha e' r Hr). by eexists.
Qed.

Lemma client_can_call p D d x : ProcInv p D → dealers (p_ctx p) !! d = Some x → _initialized_client x = true →
  can_call (p_ctx p) d x.
Proof.
  intros Hp Hx Hi. pose proof (pv_agrees _ _ Hp) as Ha. pose proof (ag_dealer _ _ _ Ha d) as Hd.
  destruct (D !! d) as [r|] eqn:Hr; [|congruence]. destruct Hd as (x'&Hx'&Eid&_&Hg&_&Hc).
  assert (x' = x) as -> by congruence. destruct (pv_rest _ _ Hp d r Hr) as [[_ Hrest] _].
  destruct (ag_ready _ _ _ Ha d r Hr) as [H0 _]. split; [done|]. split; [done|]. split; [done|].
  split; [|lia]. apply (ag_client _ _ _ Ha). exists r. split; [done|]. split; [done|]. congruence.
Qed.

(** The library does not survive the move of a client dealer: the table of clients still
    leads to the old object, and the next response for the dealer fails its check. *)
Lemma moved_dealer_breaks p D to from x resp : ProcInv p D → dealers (p_ctx p) !! from = Some x →
  _initialized_client x = true → to ≠ from → dest_dealer (hd resp) = _id x →
  ∃ p', dealer_move p to from = Ok p' ∧ push_response (p_ctx p') resp = Abort.
Proof.
  intros Hp Hx Hi Hne Hd. destruct (client_can_call p D from x Hp Hx Hi) as (_&_&_&Hb&_).
  pose proof (ag_dealer _ _ _ (pv_agrees _ _ Hp) from) as Hr. destruct (D !! from) as [r|] eqn:Er; [|congruence].
  destruct (link_of p D from r Hp Er) as [l Hl]. unfold dealer_move. rewrite (found_ok _ _ _ Hx). step_ok.
  rewrite (found_ok _ _ _ Hl). step_ok. eexists. split; [done|]. unfold push_response, dealer_push_response. cbn.
  by rewrite Hd, Hb, lookup_insert_ne, lookup_insert_eq.
Qed.

(** ** The calls a process can make without the master *)
Inductive call :=
  | ServerCreateDealer (k d : nat) (fresh : Z * Z)
  | ServerTerminate (k : nat)
  | ServerRestart (k : nat)
  | ClientCreateDealer (k d : nat)
  | ClientDestroy (k : nat)
  | BareDealer (d : nat)
  | DealerFinalize (d : nat)
  | DealerDestroy (d : nat)
  | DealerTerminate (d : nat)
  | SendRequest (d rnd : nat) (req : pkt)
  | SendRequestOneWay (d rnd : nat) (req : pkt)
  | SendResponse (d : nat) (resp : pkt)
  | RecvRequest (d : nat)
  | RecvResponse (d : nat)
  | MessageEvent (fd : Z) (ms : list pkt) (alive : bool)
  | Accepted (f : nat) (rank : Z) (fds : list Z).

Definition run_call (p : proc) (x : call) : result proc :=
  match x with
  | ServerCreateDealer k d fresh => server_create_dealer p k d fresh
  | ServerTerminate k => server_terminate p k
  | ServerRestart k => server_restart p k
  | ClientCreateDealer k d => client_create_dealer p k d
  | ClientDestroy k => client_destroy p k
  | BareDealer d => create_bare_dealer p d
  | DealerFinalize d => dealer_finalize p d
  | DealerDestroy d => dealer_destroy p d
  | DealerTerminate d => dealer_terminate p d
  | SendRequest d rnd req => c ← send_request first none (p_ctx p) d rnd req; Ok (with_ctx p c)
  | SendRequestOneWay d rnd req => c ← send_request_one_way first none (p_ctx p) d rnd req; Ok (with_ctx p c)
  | SendResponse d resp => c ← send_response (p_ctx p) d resp; Ok (with_ctx p c)
  | RecvRequest d => l ← find_ (p_links p) d; '(c, _) ← recv_request (p_ctx p) d (req_ended l); Ok (with_ctx p c)
  | RecvResponse d => l ← find_ (p_links p) d; '(c, _) ← recv_response (p_ctx p) d (resp_ended l); Ok (with_ctx p c)
  | MessageEvent fd ms alive => c ← handle_message_event first (p_ctx p) fd ms alive; Ok (with_ctx p c)
  | Accepted f rank fds => Ok (with_ctx p (accepted (p_ctx p) f rank fds))
  end.

(** What the caller has to see to: new objects get unused addresses, objects that are used
    exist, a dealer is used as what it was made for, a client object has no dealer left when it
    goes, numbers are left, and after a [recv_request] or [recv_response] that returned false
    there is no other one unless something has arrived. *)
Definition dealer_is (p : proc) (d : nat) (P : @RpcContext.dealer B → Prop) : Prop :=
  ∃ x, dealers (p_ctx p) !! d = Some x ∧ P x.
Definition new_address (p : proc) (d : nat) : Prop :=
  dealers (p_ctx p) !! d = None ∧ Z.of_nat (size (p_used p)) < 2 ^ 31.

Definition legal (p : proc) (x : call) : Prop :=
  match x with
  | ServerCreateDealer k d _ => is_Some (p_servers p !! k) ∧ new_address p d
  | ServerTerminate k | ServerRestart k => is_Some (p_servers p !! k)
  | ClientCreateDealer k d => (∃ cl, p_clients p !! k = Some cl ∧ c_n_dealers cl < 2 ^ 31 - 1) ∧ new_address p d
  | ClientDestroy k => ∃ cl, p_clients p !! k = Some cl ∧ ∀ d l, p_links p !! d = Some l →
      _rpc_client l = Some k → dealer_is p d (λ x, _initialized_client x = false)
  | BareDealer d => new_address p d
  | DealerFinalize d | DealerDestroy d | DealerTerminate d | SendResponse d _ => dealer_is p d (λ _, True)
  | SendRequest d _ _ | SendRequestOneWay d _ _ => dealer_is p d (λ x, _initialized_client x = true)
  | RecvRequest d => dealer_is p d (λ x, _initialized_server x = true ∧ can_recv (_server_req_ch x) (_server_req_spent x))
  | RecvResponse d => dealer_is p d (λ x, _initialized_client x = true ∧ can_recv (_client_resp_ch x) (_client_resp_spent x))
  | MessageEvent _ _ _ => True
  | Accepted f _ _ => fronts (p_ctx p) !! f = None
  end.

Lemma role_of p D d P : ProcInv p D → dealer_is p d P →
  ∃ x r, dealers (p_ctx p) !! d = Some x ∧ D !! d = Some r ∧ plays (_self (p_ctx p)) x r ∧ P x.
Proof.
  intros Hp (x&Hx&HP). pose proof (ag_dealer _ _ _ (pv_agrees _ _ Hp) d) as Hd. destruct (D !! d) as [r|]; [|congruence].
  destruct Hd as (x'&Hx'&Hpl). assert (x' = x) as -> by congruence. eauto 10.
Qed.

Lemma unused p D d : ProcInv p D → dealers (p_ctx p) !! d = None → D !! d = None.
Proof.
  intros Hp Hd. pose proof (ag_dealer _ _ _ (pv_agrees _ _ Hp) d) as Ha. destruct (D !! d) as [r|]; [|done].
  destruct Ha as (x&?&_). congruence.
Qed.

Lemma no_dealers_left p D k cl : ProcInv p D → p_clients p !! k = Some cl →
  (∀ d l, p_links p !! d = Some l → _rpc_client l = Some k → dealer_is p d (λ x, _initialized_client x = false)) →
  c_n_dealers cl = 0.
Proof.
  intros Hp Hk Hno. destruct (co_count _ _ (pv_clients _ _ Hp) k cl Hk) as (_&X&->&Hin).
  assert (X = ∅) as ->; [|done]. apply set_eq. intros d. rewrite Hin. split; [|by intros ?%elem_of_empty].
  unfold client_of, calls_for. destruct (D !! d) as [r|] eqn:Hr; [|done]. destruct (p_links p !! d) as [l|] eqn:Hl; [|done].
  cbn. destruct (r_calls r) eqn:Hc; [|done]. intros [= El].
  destruct (role_of p D d _ Hp (Hno d l Hl El)) as (x&r'&_&Hr'&(_&_&_&_&Hi)&Hf).
  assert (r' = r) as -> by congruence. destruct (pv_rest _ _ Hp d r Hr) as [[_ Hrest] _]. congruence.
Qed.

Lemma call_stays p D x : ProcInv p D → legal p x → stays p (run_call p x).
Proof.
  intros Hp Hx. pose proof (pv_agrees _ _ Hp) as Ha. destruct x; cbn [run_call legal] in *.
  - destruct Hx as [Hk [Hd Hroom]]. apply (server_create_dealer_stays p D); eauto using unused.
  - by apply (server_terminate_stays p D).
  - by apply (server_restart_stays p D).
  - destruct Hx as [(cl&Hcl&Hn) [Hd Hroom]]. apply (client_create_dealer_stays p D k cl); eauto using unused.
  - destruct Hx as (cl&Hk&Hno). apply (client_destroy_stays p D k cl); [done..|]. by eapply no_dealers_left.
  - destruct Hx as [Hd Hroom]. apply (bare_dealer_stays p D); eauto using unused.
  - destruct (role_of _ _ _ _ Hp Hx) as (x&r&_&Hr&_). eapply stays_as_stays. by apply finalize_stays_as.
  - destruct (role_of _ _ _ _ Hp Hx) as (x&r&_&Hr&_). by eapply destroy_stays.
  - destruct (role_of _ _ _ _ Hp Hx) as (x&r&_&Hr&_). destruct (terminate_stays p D d r Hp Hr) as (p'&?&?&?).
    by exists p', D.
  - destruct (role_of _ _ _ _ Hp Hx) as (x&r&_&Hr&(_&_&_&_&Hi)&Hc). eapply steady_stays; [done|].
    eapply send_request_steady; [done..|congruence].
  - destruct (role_of _ _ _ _ Hp Hx) as (x&r&_&Hr&(_&_&_&_&Hi)&Hc). eapply steady_stays; [done|].
    eapply _send_request_steady; [done..|congruence].
  - destruct (role_of _ _ _ _ Hp Hx) as (x&r&_&Hr&_). eapply steady_stays; [done|].
    eapply send_response_steady; [done|by eexists].
  - destruct (role_of _ _ _ _ Hp Hx) as (x&r&Hd&Hr&(_&_&_&Hi&_)&Hc&Hch). destruct (link_of _ _ _ _ Hp Hr) as [l Hl].
    rewrite (found_ok _ _ _ Hl). step_ok. eapply steady2_stays; [done|]. eapply recv_request_steady; [done..|congruence|].
    intros y Hy. by assert (y = x) as -> by congruence.
  - destruct (role_of _ _ _ _ Hp Hx) as (x&r&Hd&Hr&(_&_&_&_&Hi)&Hc&Hch). destruct (link_of _ _ _ _ Hp Hr) as [l Hl].
    rewrite (found_ok _ _ _ Hl). step_ok. eapply steady2_stays; [done|]. eapply recv_response_steady; [done..|congruence|].
    intros y Hy. by assert (y = x) as -> by congruence.
  - by eapply message_stays.
  - destruct (ctx_inv p D (accepted (p_ctx p) f rank fds) Hp); [apply accepted_roles| |by eexists _, D].
    eapply Wired_wiring; [by apply accepted_wiring|apply Hp].
Qed.
End process.
End services.
