(* ===== verification/System.v ===== *)
(** * The whole: a master and its processes

    The steps of Service.v and of the registry taken together.  A system is a master and
    the processes that use it; a step is a call of the library in one process, the arrival
    of a message or a connection there, the start of a process or its death. *)
From S2P Require Import Prelude Archive Serialize LazyArchive Message Master MasterClient Locks LexicalCast FairQueue RpcContext Dealers Nodes Registry Discovery Store Service.
#[local] Open Scope Z_scope.

Section system.
Context {S : Type} `{!MasterService S} {B : Type} (root api : str).
Context (to_json_str : CommInfo → str) (from_json_str : str → result CommInfo).
Context (first : gmap Z (list (@FairQueue.pkt B)) → Z) (none : B).
#[local] Abbreviation proc := (@Service.proc B).
#[local] Abbreviation ctx := (@RpcContext.ctx B).

(** ** Steps *)
Record system := Sys { sy_master : S; sy_procs : gmap nat proc }.

Inductive sys_op :=
  | Start (n : nat) (conn : sock) (ep : str)
  | Crash (n : nat)
  | Call (n : nat) (x : @Service.call B)
  | CreateServer (n k : nat) (rpc_name : str) (server_id : Z) (fresh : Z * Z)
  | DestroyServer (n k : nat)
  | RegisterRpcService (n : nat) (rpc_name : str)
  | DeregisterRpcService (n : nat) (rpc_name : str)
  | CreateClient (n k : nat) (rpc_name : str) (expected_server_num : Z)
  | CreateDealer (n d : nat) (rpc_name : str) (fresh : Z * Z)
  | DealerByName (n d : nat) (rpc_name : str)
  | UpdateCtx (n : nat) (iter : gmap Z nat → list (Z * nat))
      (iter_info : gmap str RpcServiceInfo → list (str * RpcServiceInfo)) (next : nat).

Definition on_proc (σ : system) (n : nat) (f : S → proc → result (S * proc)) : result system :=
  p ← find_ (sy_procs σ) n;
  '(s, p) ← f (sy_master σ) p;
  Ok (Sys s (<[n := p]> (sy_procs σ))).

Definition sys_exec (σ : system) (op : sys_op) : result system :=
  match op with
  | Start n conn ep =>
      '(s, p) ← service_initialize root api to_json_str (sy_master σ) conn ep;
      Ok (Sys s (<[n := p]> (sy_procs σ)))
  | Crash n =>
      p ← find_ (sy_procs σ) n;
      s ← ms_drop (sy_master σ) (p_conn p);
      Ok (Sys s (delete n (sy_procs σ)))
  | Call n x => on_proc σ n (λ s p, p ← run_call first none p x; Ok (s, p))
  | CreateServer n k rpc_name server_id fresh =>
      on_proc σ n (λ s p, create_server root api s p k rpc_name server_id fresh)
  | DestroyServer n k => on_proc σ n (λ s p, server_destroy root api s p k)
  | RegisterRpcService n rpc_name => on_proc σ n (λ s p, '(s, _) ← service_register root api s p rpc_name; Ok (s, p))
  | DeregisterRpcService n rpc_name => on_proc σ n (λ s p, s ← service_deregister root api s p rpc_name; Ok (s, p))
  | CreateClient n k rpc_name expected =>
      on_proc σ n (λ s p, '(s, p') ← create_client root api s p k rpc_name expected; Ok (s, default p p'))
  | CreateDealer n d rpc_name fresh => on_proc σ n (λ s p, create_dealer root api s p d rpc_name fresh)
  | DealerByName n d rpc_name => on_proc σ n (λ s p, dealer_by_name root api s p d rpc_name)
  | UpdateCtx n iter iter_info next =>
      on_proc σ n (λ s p, update_ctx root api from_json_str s p iter iter_info next)
  end.

(** ** What the parts say of each other *)
Definition rank_key : str := api ++ [dollar] ++ gen_rank.
Definition ranks_given (s : S) : Z := counter (ms_view s) (child (IDS root) rank_key).

(** Server [sid] of the service [name] with number [id], as the registry and as the
    processes have it. *)
Definition registered (R : gmap str service) (name : str) (id sid : Z) (conn : sock) (rank : Z) : Prop :=
  ∃ sv, R !! name = Some sv ∧ sv_id sv = id ∧ sv_servers sv !! sid = Some (conn, rank).

Definition object (ps : gmap nat proc) (name : str) (id sid : Z) (conn : sock) (rank : Z) : Prop :=
  ∃ n p k o, ps !! n = Some p ∧ p_servers p !! k = Some o ∧
    obj_key o = (id, sid, name) ∧ p_conn p = conn ∧ rank_of p = rank.

Definition member (ps : gmap nat proc) (rank : Z) (conn : sock) : Prop :=
  ∃ n p, ps !! n = Some p ∧ rank_of p = rank ∧ p_conn p = conn.

(** [R]: the registry's table of services; [st]: the other stores of the tree. *)
Record Consistent (σ : system) (R : gmap str service) (st : store) : Prop := {
  cs_registry : RegGood root api (sy_master σ) R;
  cs_store : StoreRel root to_json_str (ms_view (sy_master σ)) st;
  cs_proc n p : sy_procs σ !! n = Some p → ∃ D, ProcInv p D;
  cs_conn n n' p p' : sy_procs σ !! n = Some p → sy_procs σ !! n' = Some p' → p_conn p = p_conn p' → n = n';
  cs_node rank conn : (∃ info, st_nodes st !! rank = Some (conn, info)) ↔ member (sy_procs σ) rank conn;
  cs_rank rank conn : member (sy_procs σ) rank conn → 0 ≤ rank < 2 ^ 15 ∧ rank < ranks_given (sy_master σ);
  cs_server name id sid conn rank : registered R name id sid conn rank ↔ object (sy_procs σ) name id sid conn rank;
  cs_sid name id sid conn rank : object (sy_procs σ) name id sid conn rank → 0 ≤ sid < 1000000007 ∧ name_ok name;
}.

(** What the users of the library have to see to, besides what Service.v says of the calls
    inside one process: fresh names and addresses, room in the counters, a number for a
    server that no server of the service has. *)
Definition chosen (s : S) (rpc_name : str) (server_id : Z) : Z :=
  if decide (server_id = -1) then counter (ms_view s) (child (IDS root) (rpc_key api rpc_name)) else server_id.

Definition nameable (s : S) (rpc_name : str) : Prop := name_ok rpc_name ∧ reg_room root api s rpc_name.

Definition in_proc (σ : system) (n : nat) (P : proc → Prop) : Prop := ∃ p, sy_procs σ !! n = Some p ∧ P p.

Definition sys_legal (σ : system) (op : sys_op) : Prop :=
  let s := sy_master σ in
  match op with
  | Start n conn ep => sy_procs σ !! n = None ∧ (∀ n' p', sy_procs σ !! n' = Some p' → p_conn p' ≠ conn) ∧
      ranks_given s < 2 ^ 15 ∧ value_ok (to_json_str (MkCommInfo (ranks_given s) ep))
  | Crash n => is_Some (sy_procs σ !! n)
  | Call n x => in_proc σ n (λ p, legal p x)
  | CreateServer n k name sid _ => in_proc σ n (λ p, p_servers p !! k = None) ∧ nameable s name ∧
      0 ≤ chosen s name sid < 1000000007 ∧
      ∀ id conn rank, ¬ object (sy_procs σ) name id (chosen s name sid) conn rank
  | DestroyServer n k => in_proc σ n (λ p, ∃ o, p_servers p !! k = Some o ∧ s_dealers o = ∅)
  | RegisterRpcService n name | DeregisterRpcService n name => is_Some (sy_procs σ !! n) ∧ nameable s name
  | CreateClient n k name _ => in_proc σ n (λ p, p_clients p !! k = None) ∧ nameable s name
  | CreateDealer n d name _ | DealerByName n d name => in_proc σ n (λ p, new_address p d) ∧ nameable s name
  | UpdateCtx n iter iter_info next => in_proc σ n (λ p, ∀ f, (next ≤ f)%nat → fronts (p_ctx p) !! f = None) ∧
      ∀ m, iter_info m ≡ₚ map_to_list m
  end.

Inductive sys_run : system → system → Prop :=
  | sys_done σ : sys_run σ σ
  | sys_more σ op σ1 σ2 : sys_legal σ op → sys_exec σ op = Ok σ1 → sys_run σ1 σ2 → sys_run σ σ2.

(** ** The tree *)
Context (Hroot : ∃ p, good_path p ∧ root = p ++ [slash]) (Hsmall : small root) (Hapi : name_ok api).
Context (Hrank : small rank_key).

Lemma store_rest t t' st : StoreRel root to_json_str t st → rest_kept root t t' → StoreRel root to_json_str t' st.
Proof.
  intros [Hn Hr Hc Hm [[v Ht] H1 H2 H3]] [Hk _].
  assert (Hrest : ∀ a, a ∈ [PATH_NODE; PATH_TASK_STATE; PATH_CONTEXT; PATH_MODEL] →
    node t' (root ++ a) = node t (root ++ a) ∧ ∀ q, under (root ++ a) q → node t' q = node t q).
  { intros a Ha. assert (∀ b, b ∈ [PATH_LOCK; PATH_GENERATE_ID; PATH_RPC] →
      ¬ under (root ++ b) (root ++ a) ∧ ∀ q, under (root ++ a) q → ¬ under (root ++ b) q) as Hap.
    { intros b Hb. repeat setoid_rewrite elem_of_cons in Ha. repeat setoid_rewrite elem_of_cons in Hb.
      destruct Ha as [->|[->|[->|[->|?%elem_of_nil]]]]; [..|done];
      (destruct Hb as [->|[->|[->|?%elem_of_nil]]]; [..|done]); apply apart; vm_compute; set_solver. }
    destruct (Hap PATH_LOCK) as [L1 L2]; [by apply (list_elem_of_lookup_2 _ 0)|].
    destruct (Hap PATH_GENERATE_ID) as [I1 I2]; [by apply (list_elem_of_lookup_2 _ 1)|].
    destruct (Hap PATH_RPC) as [R1 R2]; [by apply (list_elem_of_lookup_2 _ 2)|].
    split; [by apply Hk|]. intros q Hq. apply Hk; auto. }
  destruct (Hrest PATH_NODE) as [N1 N2]; [by apply (list_elem_of_lookup_2 _ 0)|].
  destruct (Hrest PATH_TASK_STATE) as [T1 T2]; [by apply (list_elem_of_lookup_2 _ 1)|].
  destruct (Hrest PATH_CONTEXT) as [C1 C2]; [by apply (list_elem_of_lookup_2 _ 2)|].
  destruct (Hrest PATH_MODEL) as [M1 M2]; [by apply (list_elem_of_lookup_2 _ 3)|]. split.
  - eapply dir_ext; [done|done|intros; apply N2; auto with prpc..].
  - done.
  - eapply dir_ext; [done|done|intros; apply C2; auto with prpc..].
  - eapply dir_ext; [done|done|intros; apply M2; auto with prpc..].
  - split; [exists v; by rewrite <- Ht|rewrite T2; auto with prpc..|].
    destruct (st_roles st) as [m|].
    + eapply dir_ext; [done|intros; apply T2; auto with prpc..].
    + destruct H3 as (H3&H4&H5). split; [rewrite T2; auto with prpc|].
      split; intros; rewrite T2 by auto with prpc; auto.
Qed.

(** ** The registry and the processes *)
Lemma object_key ps name id sid conn rank : object ps name id sid conn rank ↔
  ∃ n p k, ps !! n = Some p ∧ obj_key <$> p_servers p !! k = Some (id, sid, name) ∧ p_conn p = conn ∧ rank_of p = rank.
Proof.
  split.
  - intros (n&p&k&o&Hn&Hk&Ho&?&?). exists n, p, k. by rewrite Hk, <- Ho.
  - intros (n&p&k&Hn&(o&Hk&Ho)%fmap_Some&?&?). by exists n, p, k, o.
Qed.

Lemma object_same ps n p p' name id sid conn rank : ps !! n = Some p → same_objects p p' →
  object (<[n := p']> ps) name id sid conn rank ↔ object ps name id sid conn rank.
Proof.
  intros Hn [Hc Hr Hk]. rewrite !object_key. split.
  - intros (m&q&k&[[<- <-]|[Hne Hm]]%lookup_insert_Some&Ho&Eq&Er); [|by exists m, q, k].
    exists n, p, k. rewrite <- Hk. split; [done|]. split; [done|]. split; congruence.
  - intros (m&q&k&Hm&Ho&Eq&Er). destruct (decide (n = m)) as [<-|].
    + exists n, p', k. rewrite lookup_insert_eq, Hk. assert (q = p) as -> by congruence.
      split; [done|]. split; [done|]. split; congruence.
    + exists m, q, k. by rewrite lookup_insert_ne.
Qed.

(** The same connection and rank. *)
Definition same_member (p p' : proc) : Prop := p_conn p' = p_conn p ∧ rank_of p' = rank_of p.

Lemma member_same ps n p p' rank conn : ps !! n = Some p → same_member p p' →
  member (<[n := p']> ps) rank conn ↔ member ps rank conn.
Proof.
  intros Hn [Hc Hr]. split.
  - intros (m&q&[[<- <-]|[Hne Hm]]%lookup_insert_Some&Er&Eq); [|by exists m, q].
    exists n, p. split; [done|]. split; congruence.
  - intros (m&q&Hm&Er&Eq). destruct (decide (n = m)) as [<-|].
    + exists n, p'. rewrite lookup_insert_eq. assert (q = p) as -> by congruence. split; [done|]. split; congruence.
    + exists m, q. by rewrite lookup_insert_ne.
Qed.

Definition apart_conns (ps : gmap nat proc) : Prop :=
  ∀ n n' p p', ps !! n = Some p → ps !! n' = Some p' → p_conn p = p_conn p' → n = n'.

Lemma conns_same ps n p p' : ps !! n = Some p → same_member p p' → apart_conns ps → apart_conns (<[n := p']> ps).
Proof.
  intros Hn [Hc _] Hd n1 n2 p1 p2 [[<- <-]|[_ H1]]%lookup_insert_Some [[<- <-]|[_ H2]]%lookup_insert_Some E;
    [done|apply (Hd n n2 p p2); congruence|apply (Hd n1 n p1 p); congruence|by eapply Hd].
Qed.

Lemma rank_key_ok : name_ok rank_key.
Proof. apply (rpc_key_ok api Hapi gen_rank); [|done]. split; [split|]; vm_compute; [set_solver|done|done]. Qed.

(** A process changes, and the registry with it. *)
Lemma consistent_change σ R st n p p' D s R' : Consistent σ R st → sy_procs σ !! n = Some p →
  ProcInv p' D → same_member p p' → RegGood root api s R' → rest_kept root (ms_view (sy_master σ)) (ms_view s) →
  (∀ name id sid conn rank, registered R' name id sid conn rank ↔ object (<[n := p']> (sy_procs σ)) name id sid conn rank) →
  (∀ name id sid conn rank, object (<[n := p']> (sy_procs σ)) name id sid conn rank → 0 ≤ sid < 1000000007 ∧ name_ok name) →
  Consistent (Sys s (<[n := p']> (sy_procs σ))) R' st.
Proof.
  intros [H1 H2 H3 H4 H5 H6 _ _] Hn Hp' Hs HR Hrest Hreg Hsid. split; cbn; [done|by eapply store_rest| | | | |done|done].
  - intros m q [[<- <-]|[_ Hm]]%lookup_insert_Some; eauto.
  - by eapply conns_same.
  - intros rank conn. rewrite member_same by done. apply H5.
  - intros rank conn Hm. rewrite member_same in Hm by done. destruct (H6 rank conn Hm) as [Hr Hlt]. split; [done|].
    unfold ranks_given in *. pose proof (rk_counter _ _ _ Hrest rank_key (proj1 (proj1 rank_key_ok))). lia.
Qed.

(** A process changes, and the registry in a way that is not visible. *)
Lemma consistent_update σ R st n p p' D s R' : Consistent σ R st → sy_procs σ !! n = Some p →
  ProcInv p' D → same_objects p p' → RegGood root api s R' → rest_kept root (ms_view (sy_master σ)) (ms_view s) →
  (∀ name id sid conn rank, registered R' name id sid conn rank ↔ registered R name id sid conn rank) →
  Consistent (Sys s (<[n := p']> (sy_procs σ))) R' st.
Proof.
  intros Hσ Hn Hp' Hs HR Hrest Hreg. eapply consistent_change; try done; [by destruct Hs| |]; intros name id sid conn rank.
  - rewrite Hreg, object_same by done. apply (cs_server _ _ _ Hσ).
  - rewrite object_same by done. apply (cs_sid _ _ _ Hσ).
Qed.

Lemma registered_with_service R name n name' id sid conn rank :
  registered (with_service R name n) name' id sid conn rank ↔ registered R name' id sid conn rank.
Proof.
  unfold registered, with_service. destruct (R !! name) as [sv|] eqn:E; [done|].
  split; intros (sv&Hsv&Hid&Hsid).
  - apply lookup_insert_Some in Hsv as [[<- <-]|[_ ?]]; [|by exists sv]. cbn in Hsid. by rewrite lookup_empty in Hsid.
  - exists sv. rewrite lookup_insert_ne; [done|]. congruence.
Qed.

Lemma service_register_ok σ R st (p : proc) name : Consistent σ R st → nameable (sy_master σ) name →
  ∃ s' id R', service_register root api (sy_master σ) p name = Ok (s', id) ∧ RegGood root api s' R' ∧
    rest_kept root (ms_view (sy_master σ)) (ms_view s') ∧
    ∀ name id sid conn rank, registered R' name id sid conn rank ↔ registered R name id sid conn rank.
Proof.
  intros Hσ [Hname Hroom]. pose proof (cs_registry _ _ _ Hσ) as HR. unfold service_register.
  destruct (register_rpc_service_ok root api Hroot Hsmall Hapi _ (p_conn p) name R (rg_inv _ _ _ _ HR) Hname Hroom)
    as (s'&->&Hinv&Hc&Hrest). step_ok. do 3 eexists. split; [done|]. split; [|split; [done|]].
  - eapply (good_add root api _ _ R _ name); [done|by eapply good_counter|done| |by apply with_service_old].
    rewrite Hc by apply (proj1 (proj1 Hapi)). repeat case_decide; naive_solver.
  - intros. apply registered_with_service.
Qed.

Lemma service_deregister_ok σ R st (p : proc) name : Consistent σ R st → nameable (sy_master σ) name →
  ∃ s' R', service_deregister root api (sy_master σ) p name = Ok s' ∧ RegGood root api s' R' ∧
    rest_kept root (ms_view (sy_master σ)) (ms_view s') ∧
    ∀ name id sid conn rank, registered R' name id sid conn rank ↔ registered R name id sid conn rank.
Proof.
  intros Hσ [Hname Hroom]. pose proof (cs_registry _ _ _ Hσ) as HR. unfold service_deregister.
  destruct (deregister_rpc_service_ok root api Hroot Hsmall Hapi _ (p_conn p) name R (rg_inv _ _ _ _ HR) Hname Hroom)
    as (s'&->&Hinv&Hc&Hrest). step_ok. do 2 eexists. split; [done|].
  assert (Hsub : ∀ name' sv', (reg_remove R name).1 !! name' = Some sv' → R !! name' = Some sv').
  { intros name' sv'. unfold reg_remove. cbn [fst]. case_match; [|done]. by intros [_ ?]%lookup_delete_Some. }
  split; [|split; [done|]].
  - eapply (good_sub root api); [done|done|lia|]. intros name' sv' H. exists sv'. auto.
  - intros name' id sid conn rank. split; intros (sv&Hsv&Hid&Hsid); [exists sv; auto|].
    exists sv. split; [|done]. unfold reg_remove. cbn [fst]. case_match eqn:E; [|done].
    apply lookup_delete_Some. split; [|done]. intros <-. rewrite Hsv in E. apply bool_decide_eq_true in E.
    by rewrite E in Hsid.
Qed.

(** *** A server is created *)
Lemma object_added ps n p p' k o name id sid conn rank : ps !! n = Some p → p_servers p !! k = None →
  p_conn p' = p_conn p → rank_of p' = rank_of p → p_servers p' = <[k := o]> (p_servers p) →
  object (<[n := p']> ps) name id sid conn rank ↔
  object ps name id sid conn rank ∨ (id, sid, name) = obj_key o ∧ conn = p_conn p ∧ rank = rank_of p.
Proof.
  intros Hn Hk Hc Hr Hs. split.
  - intros (m&q&k'&o'&[[<- <-]|[Hne Hm]]%lookup_insert_Some&Ho&Ek&Eq&Er); [|left; by exists m, q, k', o'].
    rewrite Hs in Ho. apply lookup_insert_Some in Ho as [[<- <-]|[_ Ho]]; [right; split; [done|split; congruence]|].
    left. exists n, p, k', o'. split; [done|]. split; [done|]. split; [done|]. split; congruence.
  - intros [(m&q&k'&o'&Hm&Ho&Ek&Eq&Er)|(Ek&->&->)].
    + destruct (decide (n = m)) as [<-|]; [|exists m, q, k', o'; by rewrite lookup_insert_ne].
      assert (q = p) as -> by congruence. exists n, p', k', o'. rewrite lookup_insert_eq, Hs, lookup_insert_ne by congruence.
      split; [done|]. split; [done|]. split; [done|]. split; congruence.
    + exists n, p', k, o. rewrite lookup_insert_eq, Hs, lookup_insert_eq. split; [done|]. split; [done|]. by split.
Qed.

Lemma registered_added R n name conn rank sid name' id' sid' conn' rank' :
  let id := id_of R name n in
  (∀ c r, ¬ registered R name id sid c r) →
  registered (<[name := Service id (<[sid := (conn, rank)]> (default ∅ (sv_servers <$> R !! name)))]> (with_service R name n))
    name' id' sid' conn' rank' ↔
  registered R name' id' sid' conn' rank' ∨ (id', sid', name') = (id, sid, name) ∧ conn' = conn ∧ rank' = rank.
Proof.
  intros id Hno. rewrite <- (registered_with_service R name n). unfold registered at 1.
  pose proof (with_service_lookup R name n) as Hlook. fold id in Hlook.
  destruct (decide (name = name')) as [<-|Hne].
  - rewrite lookup_insert_eq. split.
    + intros (sv&[= <-]&<-&Hsid). cbn in Hsid. apply lookup_insert_Some in Hsid as [[<- [= <- <-]]|[_ Hsid]]; [by right|]. left. eexists. by rewrite Hlook.
    + intros [(sv&Hsv&<-&Hsid)|([= -> ->]&->&->)].
      * rewrite Hlook in Hsv. injection Hsv as <-. eexists. split; [done|]. split; [done|]. cbn in *.
        destruct (decide (sid = sid')) as [<-|]; [|by rewrite lookup_insert_ne].
        exfalso. apply (Hno conn' rank'). apply (registered_with_service R name n). eexists. by rewrite Hlook.
      * eexists. split; [done|]. split; [done|]. apply lookup_insert_eq.
  - rewrite lookup_insert_ne by done. split; [by left|]. intros [?|([= <- <- <-]&_)]; done.
Qed.

Lemma proc_rank σ R st n p : Consistent σ R st → sy_procs σ !! n = Some p → 0 ≤ rank_of p < 2 ^ 15.
Proof. intros Hσ Hn. by apply (cs_rank _ _ _ Hσ (rank_of p) (p_conn p)); exists n, p. Qed.

Lemma object_in σ n p k o : sy_procs σ !! n = Some p → p_servers p !! k = Some o →
  object (sy_procs σ) (s_rpc_name o) (s_rpc_id o) (s_id o) (p_conn p) (rank_of p).
Proof. intros Hn Hk. by exists n, p, k, o. Qed.

(** The number is free, in the registry and in the process. *)
Lemma reg_add_free R conn name n m rank sid :
  let sid' := if decide (sid = -1) then m else sid in
  (∀ c r, ¬ registered R name (id_of R name n) sid' c r) →
  reg_add R conn name n m rank sid =
    (<[name := Service (id_of R name n) (<[sid' := (conn, rank)]> (default ∅ (sv_servers <$> R !! name)))]>
      (with_service R name n), (id_of R name n, sid', true)).
Proof.
  intros sid' Hnot. unfold reg_add. cbv zeta. fold sid'.
  destruct (default ∅ (sv_servers <$> R !! name) !! sid') as [[c r]|] eqn:E; [|done]. exfalso. apply (Hnot c r).
  unfold registered, id_of. destruct (R !! name) as [sv|]; cbn in E; [by exists sv|by rewrite lookup_empty in E].
Qed.

Lemma no_server_yet σ R st n p name sid : Consistent σ R st → sy_procs σ !! n = Some p →
  let id := id_of R name (counter (ms_view (sy_master σ)) (child (IDS root) api)) in
  (∀ c r, ¬ registered R name id sid c r) → ¬ has_server (p_servers p) id sid.
Proof.
  intros Hσ Hn id Hnot (k&o&Ho&Ei&Es). pose proof (cs_registry _ _ _ Hσ) as HR.
  pose proof (object_in σ n p k o Hn Ho) as (sv&Hsv&Eid&Hin)%(cs_server _ _ _ Hσ).
  rewrite Ei in Eid. rewrite Es in Hin. unfold id, id_of in *. destruct (R !! name) as [sv0|] eqn:E0.
  - assert (s_rpc_name o = name) as En by by eapply (rg_inj _ _ _ _ HR). rewrite En in Hsv.
    assert (sv = sv0) as -> by congruence. apply (Hnot (p_conn p) (rank_of p)). by exists sv0.
  - pose proof (rg_below _ _ _ _ HR _ _ Hsv). lia.
Qed.

Lemma consistent_create_server σ R st n p k name sid fresh : Consistent σ R st → sy_procs σ !! n = Some p →
  p_servers p !! k = None → nameable (sy_master σ) name → 0 ≤ chosen (sy_master σ) name sid < 1000000007 →
  (∀ id conn rank, ¬ object (sy_procs σ) name id (chosen (sy_master σ) name sid) conn rank) →
  ∃ σ' R', sys_exec σ (CreateServer n k name sid fresh) = Ok σ' ∧ Consistent σ' R' st.
Proof.
  intros Hσ Hn Hk [Hname Hroom] Hsid Hfree. pose proof (cs_registry _ _ _ Hσ) as HR.
  pose proof (cs_server _ _ _ Hσ) as Hso. destruct (cs_proc _ _ _ Hσ n p Hn) as [D Hinv].
  pose proof (proc_rank _ _ _ _ _ Hσ Hn) as Hrk.
  assert (Hs32 : in_signed 32 sid) by (unfold chosen, in_signed in *; case_decide; lia).
  destruct (register_server_ok root api Hroot Hsmall Hapi (sy_master σ) (p_conn p) name (rank_of p) sid R
    (rg_inv _ _ _ _ HR) Hname Hroom Hs32) as (s'&Hreg&Hinv'&Hc&Hrest); [unfold in_signed; lia|].
  set (cnt := counter (ms_view (sy_master σ)) (child (IDS root) api)) in *.
  set (sid' := chosen (sy_master σ) name sid) in *.
  assert (Hnot : ∀ c r, ¬ registered R name (id_of R name cnt) sid' c r) by (intros c r Hin%Hso; by apply Hfree in Hin).
  pose proof (λ name' sv', reg_add_old R (p_conn p) name cnt
    (counter (ms_view (sy_master σ)) (child (IDS root) (rpc_key api name))) (rank_of p) sid name' sv') as Hold.
  rewrite (reg_add_free R (p_conn p) name cnt _ (rank_of p) sid Hnot) in *.
  fold (chosen (sy_master σ) name sid) in *. fold sid' in Hreg, Hinv', Hold. cbn [fst snd] in *.
  pose proof (no_server_yet σ R st n p name sid' Hσ Hn Hnot) as Hnew. fold cnt in Hnew. set (id := id_of R name cnt) in *.
  destruct (end_add_server_ok (p_ctx p) D _ fresh id sid' (pv_agrees _ _ Hinv) Hnew) as (c'&He&Ha').
  pose proof (keeps_ok _ _ _ (end_add_server_keeps _ _ _ _) He) as Hkept.
  set (sv := MkRpcServer sid' id name ∅ false). set (p' := set_server (with_ctx p c') k sv).
  assert (Hp' : ProcInv p' D) by by apply add_server_inv.
  exists (Sys s' (<[n := p']> (sy_procs σ))). eexists. split.
  - cbn [sys_exec]. unfold on_proc, create_server. rewrite (found_ok _ _ _ Hn). step_ok. rewrite Hreg. step_ok.
    rewrite He. step_ok. done.
  - assert (Hr' : rank_of p' = rank_of p) by apply Hkept.
    pose proof (λ name id sid conn rank, object_added (sy_procs σ) n p p' k sv name id sid conn rank
      Hn Hk eq_refl Hr' eq_refl) as Hobj.
    eapply consistent_change; [exact Hσ|done|exact Hp'|by split| |exact Hrest| |].
    + eapply (good_add root api _ _ R _ name); [done|by eapply good_counter|exact Hinv'|exact Hc|exact Hold].
    + intros name' id' sid0 conn rank. rewrite Hobj. unfold id. rewrite registered_added, Hso by done. done.
    + intros name' id' sid0 conn rank. rewrite Hobj. intros [?|([= -> -> ->]&_)]; [by eapply (cs_sid _ _ _ Hσ)|done].
Qed.

(** *** A server goes *)
Lemma registered_fun R name id id' sid c c' r r' : registered R name id sid c r → registered R name id' sid c' r' →
  id = id' ∧ c = c' ∧ r = r'.
Proof. intros (sv&Hsv&<-&Hin) (sv'&Hsv'&<-&Hin'). simplify_eq. done. Qed.

Lemma object_unique σ R st n p k o n' p' k' o' : Consistent σ R st →
  sy_procs σ !! n = Some p → p_servers p !! k = Some o → sy_procs σ !! n' = Some p' → p_servers p' !! k' = Some o' →
  s_rpc_name o' = s_rpc_name o → s_id o' = s_id o → n' = n ∧ k' = k.
Proof.
  intros Hσ Hn Hk Hn' Hk' En Es. pose proof (object_in σ n p k o Hn Hk) as H1. pose proof (object_in σ n' p' k' o' Hn' Hk') as H2.
  apply (cs_server _ _ _ Hσ) in H1, H2. rewrite En, Es in H2. destruct (registered_fun _ _ _ _ _ _ _ _ _ H2 H1) as (Ei&Ec&_).
  assert (n' = n) as -> by by eapply (cs_conn _ _ _ Hσ). split; [done|]. assert (p' = p) as -> by congruence.
  destruct (cs_proc _ _ _ Hσ n p Hn) as [D Hp]. by eapply (so_distinct _ _ (pv_servers _ _ Hp)).
Qed.

Lemma object_removed σ R st n p p' k o name id sid conn rank : Consistent σ R st →
  sy_procs σ !! n = Some p → p_servers p !! k = Some o → same_member p p' → p_servers p' = delete k (p_servers p) →
  object (<[n := p']> (sy_procs σ)) name id sid conn rank ↔
  object (sy_procs σ) name id sid conn rank ∧ ¬ (name = s_rpc_name o ∧ sid = s_id o).
Proof.
  intros Hσ Hn Hk [Hc Hr] Hs. split.
  - intros (m&q&k'&o'&[[<- <-]|[Hne Hm]]%lookup_insert_Some&Ho&[= <- <- <-]&<-&<-).
    + rewrite Hs in Ho. apply lookup_delete_Some in Ho as [Hne Ho]. rewrite Hc, Hr.
      split; [by exists n, p, k', o'|]. intros [E1 E2].
      destruct (object_unique σ R st n p k o n p k' o' Hσ Hn Hk Hn Ho E1 E2); congruence.
    + split; [by exists m, q, k', o'|]. intros [E1 E2].
      destruct (object_unique σ R st n p k o m q k' o' Hσ Hn Hk Hm Ho E1 E2); congruence.
  - intros [(m&q&k'&o'&Hm&Ho&[= <- <- <-]&<-&<-) Hne]. destruct (decide (n = m)) as [<-|].
    + assert (q = p) as -> by congruence. exists n, p', k', o'. rewrite lookup_insert_eq, Hs.
      split; [done|]. split; [|done]. apply lookup_delete_Some. split; [|done]. intros <-. apply Hne.
      by assert (o' = o) as -> by congruence.
    + exists m, q, k', o'. by rewrite lookup_insert_ne.
Qed.

Lemma registered_removed R name sid sv name' id' sid' conn' rank' : R !! name = Some sv →
  registered (<[name := with_servers sv (delete sid (sv_servers sv))]> R) name' id' sid' conn' rank' ↔
  registered R name' id' sid' conn' rank' ∧ ¬ (name' = name ∧ sid' = sid).
Proof.
  intros Hsv. unfold registered. destruct (decide (name = name')) as [<-|Hne].
  - rewrite lookup_insert_eq, Hsv. split.
    + intros (?&[= <-]&<-&Hin). cbn in Hin. apply lookup_delete_Some in Hin as [Hne Hin]. split; [by exists sv|]. naive_solver.
    + intros [(?&[= <-]&<-&Hin) Hne]. eexists. split; [done|]. split; [done|]. apply lookup_delete_Some. naive_solver.
  - rewrite lookup_insert_ne by done. naive_solver.
Qed.

Lemma consistent_destroy_server σ R st n p k o : Consistent σ R st → sy_procs σ !! n = Some p →
  p_servers p !! k = Some o → s_dealers o = ∅ →
  ∃ σ' R', sys_exec σ (DestroyServer n k) = Ok σ' ∧ Consistent σ' R' st.
Proof.
  intros Hσ Hn Hk Hd. pose proof (object_in σ n p k o Hn Hk) as Hobj.
  destruct (cs_sid _ _ _ Hσ _ _ _ _ _ Hobj) as [Hsid Hname]. pose proof Hobj as (sv&Hsv&Eid&Hin)%(cs_server _ _ _ Hσ).
  destruct (cs_proc _ _ _ Hσ n p Hn) as [D Hp]. pose proof (cs_registry _ _ _ Hσ) as HR.
  destruct (deregister_server_ok root api Hroot Hsmall Hapi (sy_master σ) (p_conn p) (s_rpc_name o) (s_id o) R
    (rg_inv _ _ _ _ HR) Hname) as (s'&Hdel&Hinv'&Hc&Hrest); [unfold in_signed; lia|].
  unfold reg_del in *. rewrite Hsv in *. cbn [fst snd] in *. rewrite bool_decide_true in Hdel by by eexists.
  destruct (ctx_remove_server_ok (p_ctx p) D _ (s_rpc_id o) (s_id o) (pv_agrees _ _ Hp)) as (c'&Hrem&Ha'); [by exists k, o|].
  pose proof (keeps_ok _ _ _ (ctx_remove_server_keeps _ _ _) Hrem) as Hkept.
  pose proof (remove_server_inv p D k o c' Hp Hk Hd Ha' Hkept) as Hp'. set (p' := with_servers_ _ _) in Hp'.
  exists (Sys s' (<[n := p']> (sy_procs σ))). eexists. split.
  - cbn [sys_exec]. unfold on_proc, server_destroy, remove_server. rewrite (found_ok _ _ _ Hn). step_ok.
    rewrite (found_ok _ _ _ Hk). step_ok. rewrite bool_decide_true by done. cbn [SCHECK]. step_ok. rewrite Hdel. step_ok.
    rewrite Hrem. step_ok. done.
  - assert (Hm : same_member p p') by (split; [done|apply Hkept]).
    pose proof (λ name id sid conn rank, object_removed σ R st n p p' k o name id sid conn rank Hσ Hn Hk Hm eq_refl) as Ho.
    eapply consistent_change; [exact Hσ|done|exact Hp'|done| |exact Hrest| |].
    + eapply (good_sub root api); [done|exact Hinv'|lia|]. intros name' sv' [[<- <-]|[_ ?]]%lookup_insert_Some; eauto.
    + intros name id sid conn rank. rewrite Ho, registered_removed by done. by rewrite (cs_server _ _ _ Hσ).
    + intros name id sid conn rank. rewrite Ho. intros [? _]. by eapply (cs_sid _ _ _ Hσ).
Qed.

(** *** A process dies *)
Lemma member_gone σ R st n p rank conn : Consistent σ R st → sy_procs σ !! n = Some p →
  member (delete n (sy_procs σ)) rank conn ↔ member (sy_procs σ) rank conn ∧ conn ≠ p_conn p.
Proof.
  intros Hσ Hn. split.
  - intros (m&q&[Hne Hm]%lookup_delete_Some&<-&<-). split; [by exists m, q|]. intros E.
    apply Hne. by eapply (cs_conn _ _ _ Hσ).
  - intros [(m&q&Hm&<-&<-) Hne]. exists m, q. split; [|done]. apply lookup_delete_Some. split; [|done]. intros <-. congruence.
Qed.

Lemma object_gone σ R st n p name id sid conn rank : Consistent σ R st → sy_procs σ !! n = Some p →
  object (delete n (sy_procs σ)) name id sid conn rank ↔
  object (sy_procs σ) name id sid conn rank ∧ conn ≠ p_conn p.
Proof.
  intros Hσ Hn. split.
  - intros (m&q&k&o&[Hne Hm]%lookup_delete_Some&Hk&Ho&<-&<-). split; [by exists m, q, k, o|]. intros E.
    apply Hne. by eapply (cs_conn _ _ _ Hσ).
  - intros [(m&q&k&o&Hm&Hk&Ho&<-&<-) Hne]. exists m, q, k, o. split; [|done]. apply lookup_delete_Some.
    split; [|done]. intros <-. congruence.
Qed.

Lemma registered_drop R c name id sid conn rank :
  registered (drop_servers c <$> R) name id sid conn rank ↔ registered R name id sid conn rank ∧ conn ≠ c.
Proof.
  unfold registered. rewrite lookup_fmap. split.
  - intros (sv&(sv'&Hsv&->)%fmap_Some&<-&[Hin Hne]%map_lookup_filter_Some). split; [by exists sv'|done].
  - intros [(sv&Hsv&<-&Hin) Hne]. exists (drop_servers c sv). rewrite Hsv. split; [done|]. split; [done|].
    by apply map_lookup_filter_Some.
Qed.

Lemma consistent_crash σ R st n p : Consistent σ R st → sy_procs σ !! n = Some p →
  ∃ σ' R' st', sys_exec σ (Crash n) = Ok σ' ∧ Consistent σ' R' st'.
Proof.
  intros Hσ Hn. pose proof (cs_registry _ _ _ Hσ) as HR. cbn [sys_exec]. rewrite (found_ok _ _ _ Hn). step_ok.
  destruct (drop_ok root api Hroot Hsmall (sy_master σ) (p_conn p) R (rg_inv _ _ _ _ HR)) as (s'&->&Hinv&Hv). step_ok.
  do 3 eexists. split; [done|]. split; cbn.
  - eapply (good_sub root api); [done|exact Hinv|by rewrite Hv|]. intros name sv' (sv&<-&Hsv)%lookup_fmap_Some. eauto.
  - rewrite Hv. apply store_drop, Hσ.
  - intros m q [_ Hm]%lookup_delete_Some. by eapply (cs_proc _ _ _ Hσ).
  - intros m m' q q' [_ ?]%lookup_delete_Some [_ ?]%lookup_delete_Some. by eapply (cs_conn _ _ _ Hσ).
  - intros rank conn. rewrite (member_gone σ R st n p) by done. rewrite <- (cs_node _ _ _ Hσ). cbn.
    setoid_rewrite map_lookup_filter_Some. cbn. naive_solver.
  - intros rank conn [Hm _]%(member_gone σ R st n p); [|done..]. destruct (cs_rank _ _ _ Hσ _ _ Hm) as [? Hlt].
    split; [done|]. unfold ranks_given in *. by rewrite Hv.
  - intros name id sid conn rank. rewrite registered_drop, (object_gone σ R st n p) by done. by rewrite (cs_server _ _ _ Hσ).
  - intros name id sid conn rank [Ho _]%(object_gone σ R st n p); [|done..]. by eapply (cs_sid _ _ _ Hσ).
Qed.

(** *** A process starts *)
Lemma good_frame D s s' R : RegGood root api s R → live s' → frame D (ms_view s) (ms_view s') →
  (∀ a, a ∈ [LOCK root; IDS root; RPC root] → ¬ under D a ∧ ∀ q, under a q → ¬ under D q) →
  RegGood root api s' R.
Proof.
  intros [[Hs Hl Hi Hr] Hb Hj] Hs' Hf Hap.
  destruct (Hap (LOCK root)) as [L1 L2]; [by apply (list_elem_of_lookup_2 _ 0)|].
  destruct (Hap (IDS root)) as [I1 I2]; [by apply (list_elem_of_lookup_2 _ 1)|].
  destruct (Hap (RPC root)) as [R1 R2]; [by apply (list_elem_of_lookup_2 _ 2)|].
  split; [split; [done|by eapply lock_inv_frame|by eapply id_inv_frame|by eapply reg_rel_frame]| |done].
  intros name sv Hsv. rewrite (frame_counter (IDS root) D (ms_view s) (ms_view s') api I2 Hf). by eapply Hb.
Qed.

Lemma node_apart a : a ∈ [LOCK root; IDS root; RPC root] → ¬ under (NODE root) a ∧ ∀ q, under a q → ¬ under (NODE root) q.
Proof.
  intros Ha. repeat setoid_rewrite elem_of_cons in Ha. unfold LOCK, IDS, RPC, NODE in *.
  destruct Ha as [->|[->|[->|?%elem_of_nil]]]; [..|done]; apply apart; vm_compute; set_solver.
Qed.

Lemma generate_rank σ R st c : Consistent σ R st → ranks_given (sy_master σ) < 2 ^ 15 →
  ∃ s', generate_id root (sy_master σ) c rank_key = Ok (s', ranks_given (sy_master σ)) ∧ RegGood root api s' R ∧
    StoreRel root to_json_str (ms_view s') st ∧ ranks_given s' = ranks_given (sy_master σ) + 1.
Proof.
  intros Hσ Hlt. destruct (cs_registry _ _ _ Hσ) as [[Hs Hl Hi Hr] Hb Hj].
  destruct (generate_id_ok root Hroot Hsmall (sy_master σ) c rank_key Hs Hi rank_key_ok) as (s'&He&Hs'&Hi'&Hf&Hc);
    [unfold ranks_given in *; lia|]. exists s'. split; [exact He|].
  assert (Hne : rank_key ≠ api).
  { apply (rpc_key_ok api Hapi gen_rank); [|done]. split; [split|]; vm_compute; [set_solver|done|done]. }
  split; [|split].
  - split; [split; [done| |done|]| |done].
    + eapply lock_inv_frame; [done|done|exact (proj1 (apart_lock_ids root api Hroot Hsmall Hapi))|exact (proj2 (apart_lock_ids root api Hroot Hsmall Hapi))].
    + eapply reg_rel_frame; [done|done|exact (proj1 (apart_rpc_ids root api Hroot Hsmall Hapi))|exact (proj2 (apart_rpc_ids root api Hroot Hsmall Hapi))].
    + intros name sv Hsv. rewrite Hc, decide_False by (congruence || apply Hapi). by eapply Hb.
  - eapply store_rest; [apply Hσ|]. by eapply rest_kept_ids.
  - unfold ranks_given at 1. rewrite Hc, decide_True by (done || apply rank_key_ok). done.
Qed.

Lemma node_registered s c info R st : RegGood root api s R → StoreRel root to_json_str (ms_view s) st →
  in_signed 16 (global_rank info) → value_ok (to_json_str info) → st_nodes st !! global_rank info = None →
  ∃ s', register_node root to_json_str s c info = Ok s' ∧ RegGood root api s' R ∧
    StoreRel root to_json_str (ms_view s') (with_nodes st (<[global_rank info := (c, info)]> (st_nodes st))) ∧
    ranks_given s' = ranks_given s.
Proof.
  intros HR Hst Hi Hv Hno. pose proof (ri_live _ _ _ _ (rg_inv _ _ _ _ HR)) as Hs.
  pose proof (register_node_ops root Hroot Hsmall to_json_str from_json_str s c info st Hs Hst (conj Hi Hv)) as Hdoes.
  assert (Hstep : store_step st c (RegisterNode info) =
      Some (with_nodes st (<[global_rank info := (c, info)]> (st_nodes st)), Nothing_)).
  { destruct st. cbn in *. unfold has. rewrite bool_decide_false; [done|]. rewrite Hno. by intros [? [=]]. }
  unfold does in Hdoes. rewrite Hstep in Hdoes. cbn [store_exec] in Hdoes.
  destruct Hdoes as (s'&He&Hs'&Hst'). destruct (register_node root to_json_str s c info) as [s1|] eqn:Hreg; [|done].
  cbn in He. injection He as ->. exists s'. split; [done|].
  assert (Hf : frame (NODE root) (ms_view s) (ms_view s')).
  { unfold register_node in Hreg. pose proof (top_path root Hroot Hsmall PATH_NODE ltac:(apply dirs_ok)) as Hdir.
    destruct (call_add root s c Hs PATH_NODE (to_string (global_rank info)) (to_json_str info) true Hdir)
      as (s2&Hadd&_&Hv2); [by apply to_string16_name|done|]. rewrite Hadd in Hreg. cbn in Hreg.
    destruct (t_add _ _ _ _ _).2; [|done]. injection Hreg as <-. rewrite Hv2. apply add_frame. auto with prpc. }
  split; [by eapply good_frame; [| | |apply node_apart]|]. split; [done|].
  unfold ranks_given. eapply frame_counter; [|exact Hf]. apply (node_apart (IDS root)), (list_elem_of_lookup_2 _ 1). done.
Qed.

(** The two directories that [initialize] asks for. *)
Lemma api_added s c R : RegGood root api s R →
  ∃ s' b, tree_node_add root s c (PATH_RPC ++ [slash] ++ api) [] false = Ok (s', b) ∧ RegGood root api s' R ∧
    rest_kept root (ms_view s) (ms_view s').
Proof.
  intros [[Hs Hl Hi Hr] Hb Hj].
  destruct (tree_node_add_eq root s c (PATH_RPC ++ [slash] ++ api) [] false Hs) as (s'&->&Hs'&Hv); [|done|].
  { apply (key_ok root Hroot Hsmall); [apply names_ok|done]. }
  rewrite path_split in Hv. fold (RPC root) in Hv.
  destruct (rel_add_api root api (ms_view s) R c Hr (proj1 (proj1 Hapi))) as (Hr'&_&Hc&Hf). rewrite <- Hv in Hr', Hc, Hf.
  do 2 eexists. split; [done|]. split; [|by apply (rest_kept_rpc root api)].
  split; [by eapply inv_rpc_frame| |done]. intros name sv Hsv. rewrite Hc. by eapply Hb.
Qed.

Lemma node_dir_added s c R st : RegGood root api s R → StoreRel root to_json_str (ms_view s) st →
  ∃ s' b, tree_node_add root s c PATH_NODE [] false = Ok (s', b) ∧ live s' ∧ ms_view s' = ms_view s.
Proof.
  intros HR Hst. pose proof (ri_live _ _ _ _ (rg_inv _ _ _ _ HR)) as Hs.
  destruct (tree_node_add_eq root s c PATH_NODE [] false Hs) as (s'&->&Hs'&Hv); [|done|].
  { apply (top_path root Hroot Hsmall PATH_NODE), (proj1 dirs_ok). }
  do 2 eexists. split; [done|]. split; [done|]. rewrite Hv, add_old; [done|].
  destruct (dir_here _ _ _ _ _ _ (sr_nodes _ _ _ _ Hst)) as [v Hd]. unfold NODE in Hd. rewrite Hd. by eexists.
Qed.

Lemma good_view s s' R : RegGood root api s R → live s' → ms_view s' = ms_view s → RegGood root api s' R.
Proof. intros [[Hs Hl Hi Hr] Hb Hj] Hs' Hv. split; [split; by rewrite ?Hv| |done]. intros name sv. rewrite Hv. apply Hb. Qed.

Lemma started_proc c rank : ProcInv (Proc c (start_ctx rank) ∅ ∅ ∅ 0 ∅ : proc) ∅.
Proof.
  split; cbn.
  - split; cbn; [done|done|done| |done| |].
    + intros i d. rewrite lookup_empty. split; [done|]. by intros (r&?&_).
    + intros i s d. split; [by intros ?%not_elem_of_nil|]. by intros (r&?&_).
    + intros i s. split; [by intros [? ?]|]. by intros (k&sv&?&_).
  - intros d. by rewrite !lookup_empty.
  - intros d r. by rewrite lookup_empty.
  - by split.
  - by split.
  - intros rank' f. cbn. by rewrite lookup_empty.
Qed.

Lemma consistent_start σ R st n c ep : Consistent σ R st → sys_legal σ (Start n c ep) →
  ∃ σ' st', sys_exec σ (Start n c ep) = Ok σ' ∧ Consistent σ' R st'.
Proof.
  intros Hσ (Hn&Hc&Hlt&Hv). set (rank := ranks_given (sy_master σ)) in *.
  assert (H0 : 0 ≤ rank).
  { destruct (ri_id _ _ _ _ (rg_inv _ _ _ _ (cs_registry _ _ _ Hσ))) as [Hd _]. apply Hd, rank_key_ok. }
  assert (H16 : in_signed 16 rank) by (unfold in_signed; lia).
  destruct (generate_rank σ R st c Hσ Hlt) as (s1&He1&HR1&Hst1&Hr1). fold rank in He1, Hr1.
  assert (Hno : st_nodes st !! rank = None).
  { apply eq_None_not_Some. intros [[c' info] Hin]. destruct (cs_rank σ R st Hσ rank c'); [|unfold rank in *; lia].
    apply (cs_node _ _ _ Hσ). eauto. }
  destruct (node_registered s1 c (MkCommInfo rank ep) R st HR1 Hst1 H16 Hv Hno) as (s2&He2&HR2&Hst2&Hr2).
  destruct (api_added s2 c R HR2) as (s3&b3&He3&HR3&Hk3).
  pose proof (store_rest _ _ _ Hst2 Hk3) as Hst3.
  destruct (node_dir_added s3 c R _ HR3 Hst3) as (s4&b4&He4&Hs4&Hv4).
  set (p := Proc c (start_ctx rank) ∅ ∅ ∅ 0 ∅ : proc).
  exists (Sys s4 (<[n := p]> (sy_procs σ))). eexists. split.
  { cbn [sys_exec]. unfold service_initialize. fold rank_key. rewrite He1. step_ok. rewrite swrap_small by (done || lia).
    rewrite He2. step_ok. rewrite He3. step_ok. rewrite He4. step_ok. done. }
  assert (Hmem : ∀ rank' conn', member (<[n := p]> (sy_procs σ)) rank' conn' ↔
    member (sy_procs σ) rank' conn' ∨ rank' = rank ∧ conn' = c).
  { intros rank' conn'. split.
    - intros (m&q&[[<- <-]|[_ Hm]]%lookup_insert_Some&<-&<-); [by right|]. left. by exists m, q.
    - intros [(m&q&Hm&<-&<-)|[-> ->]]; [exists m, q; by rewrite lookup_insert_ne by congruence|].
      exists n, p. by rewrite lookup_insert_eq. }
  assert (Hobj : ∀ name id sid conn' rank', object (<[n := p]> (sy_procs σ)) name id sid conn' rank' ↔
    object (sy_procs σ) name id sid conn' rank').
  { intros name id sid conn' rank'. split.
    - intros (m&q&k&o&[[<- <-]|[_ Hm]]%lookup_insert_Some&Hk&?); [done|]. by exists m, q, k, o.
    - intros (m&q&k&o&Hm&?). exists m, q, k, o. by rewrite lookup_insert_ne by congruence. }
  split; cbn.
  - by eapply good_view.
  - rewrite Hv4. exact Hst3.
  - intros m q [[<- <-]|[_ Hm]]%lookup_insert_Some; [exists ∅; apply started_proc|by eapply (cs_proc _ _ _ Hσ)].
  - intros n1 n2 p1 p2 [[<- <-]|[_ K1]]%lookup_insert_Some [[<- <-]|[_ K2]]%lookup_insert_Some E;
      [done|by destruct (Hc _ _ K2)|by destruct (Hc _ _ K1)|by eapply (cs_conn _ _ _ Hσ)].
  - intros rank' conn'. rewrite Hmem, <- (cs_node _ _ _ Hσ). cbn. split.
    + intros [info [[<- [= <- <-]]|[_ Hin]]%lookup_insert_Some]; [by right|]. left. eauto.
    + intros [[info Hin]|[-> ->]]; [|eexists; apply lookup_insert_eq].
      exists info. rewrite lookup_insert_ne; [done|]. congruence.
  - assert (ranks_given s4 = rank + 1 ∨ rank + 1 ≤ ranks_given s4) as Hg.
    { right. unfold ranks_given at 1. rewrite Hv4. pose proof (rk_counter _ _ _ Hk3 rank_key (proj1 (proj1 rank_key_ok))).
      unfold ranks_given in Hr1, Hr2. lia. }
    intros rank' conn' [Hm|[-> _]]%Hmem; [|lia]. destruct (cs_rank _ _ _ Hσ _ _ Hm). unfold rank in *. lia.
  - intros name id sid conn' rank'. rewrite Hobj. apply (cs_server _ _ _ Hσ).
  - intros name id sid conn' rank'. rewrite Hobj. apply (cs_sid _ _ _ Hσ).
Qed.

(** *** What a process learns of the others *)
Context (json_ok : ∀ info, from_json_str (to_json_str info) = Ok info).

Lemma consistent_routable σ R st : Consistent σ R st → routable R.
Proof.
  intros Hσ name sv sid d rank Hsv Hin.
  assert (Hobj : object (sy_procs σ) name (sv_id sv) sid d rank) by (apply (cs_server _ _ _ Hσ); by exists sv).
  split; [by eapply (cs_sid _ _ _ Hσ)|]. destruct Hobj as (n&p&k&o&Hn&_&_&_&<-).
  pose proof (proc_rank _ _ _ _ _ Hσ Hn). unfold in_signed. lia.
Qed.

Lemma reported σ R st l rank conn : Consistent σ R st → l ≡ₚ (λ ix, ix.2.2) <$> map_to_list (st_nodes st) →
  member (sy_procs σ) rank conn → rank ∈ global_rank <$> l.
Proof.
  intros Hσ Hl [info Hin]%(cs_node _ _ _ Hσ). rewrite Hl, <- list_fmap_compose. apply list_elem_of_fmap.
  exists (rank, (conn, info)). split; [|by apply elem_of_map_to_list]. cbn.
  symmetry. by apply (sr_rank _ _ _ _ (cs_store _ _ _ Hσ) rank (conn, info)).
Qed.

Lemma update_ctx_ok σ R st n p D iter iter_info next : Consistent σ R st → sy_procs σ !! n = Some p → ProcInv p D →
  (∀ f, (next ≤ f)%nat → fronts (p_ctx p) !! f = None) → (∀ m, iter_info m ≡ₚ map_to_list m) →
  ∃ s' c', update_ctx root api from_json_str (sy_master σ) p iter iter_info next = Ok (s', with_ctx p c') ∧
    live s' ∧ ms_view s' = ms_view (sy_master σ) ∧ ProcInv (with_ctx p c') D ∧ same_objects p (with_ctx p c') ∧
    ∀ name id sid conn rank, object (sy_procs σ) name id sid conn rank → usable (p_ctx p) rank →
      ∃ f, get_client_frontend_by_sid c' id sid = Some f ∧ f_rank <$> fronts c' !! f = Some rank.
Proof.
  intros Hσ Hn Hp Hnext Hiter. pose proof (cs_registry _ _ _ Hσ) as HR. pose proof (cs_store _ _ _ Hσ) as Hst.
  pose proof (ri_live _ _ _ _ (rg_inv _ _ _ _ HR)) as Hs. unfold update_ctx.
  destruct (get_comm_info_ok root Hroot Hsmall to_json_str from_json_str json_ok _ (p_conn p) st Hs Hst)
    as (s1&l&->&Hl&Hs1&Hv1). step_ok.
  assert (∃ s2 again, match stale (p_ctx p) iter (_server_sockets (p_ctx p)) (global_rank <$> l) with
      | [] => Ok (s1, [])
      | _ => get_comm_info root from_json_str s1 (p_conn p)
      end = Ok (s2, again) ∧ live s2 ∧ ms_view s2 = ms_view s1) as (s2&again&->&Hs2&Hv2).
  { case_match; [by eexists s1, []|].
    destruct (get_comm_info_ok root Hroot Hsmall to_json_str from_json_str json_ok s1 (p_conn p) st Hs1)
      as (s2&l2&->&_&?&?); [by rewrite Hv1|]. by eexists s2, l2. }
  step_ok. set (c1 := update_comm_info _ _ _ _ _).
  assert (HR2 : RegGood root api s2 R) by (eapply good_view; [exact HR|done|congruence]).
  destruct (registered_server_is_routed root api s2 (p_conn p) R c1 iter_info Hroot Hsmall Hapi HR2
    (consistent_routable _ _ _ Hσ) Hiter) as (s3&c'&->&Hs3&Hv3&Hf&Hcl&Hroles&Hby&_). step_ok.
  pose proof (update_comm_info_wired (p_ctx p) iter next (global_rank <$> l) (global_rank <$> again) Hnext (pv_wired _ _ Hp)) as Hw1.
  fold c1 in Hw1.
  destruct (ctx_inv p D c' Hp) as [Hp' Hsame].
  { etrans; [apply update_comm_info_roles|exact Hroles]. }
  { intros rank f. rewrite Hf, Hcl. apply Hw1. }
  exists s3, c'. split; [done|]. split; [done|]. split; [congruence|]. split; [done|]. split; [done|].
  intros name id sid conn rank Hobj Hu.
  assert (Hm : member (sy_procs σ) rank conn) by (destruct Hobj as (m&q&_&_&Hm&_&_&?&?); by exists m, q).
  destruct (update_comm_info_usable (p_ctx p) iter next (global_rank <$> l) (global_rank <$> again) rank Hnext
    (pv_wired _ _ Hp) (reported _ _ _ _ _ _ Hσ Hl Hm) Hu) as [f Hby1]. fold c1 in Hby1. exists f.
  assert (Hsock : _client_sockets c1 !! rank = Some f).
  { unfold get_client_frontend_by_rank in Hby1. destruct (_client_sockets c1 !! rank) as [g|]; [|done].
    destruct (is_available c1 g); [|done]. congruence. }
  rewrite Hf. split; [|by apply Hw1]. rewrite (Hby id sid rank); [done| |by rewrite Hsock].
  apply (cs_server _ _ _ Hσ) in Hobj as (sv&Hsv&Hid&Hin). by exists name, sv, conn.
Qed.

(** ** Every step *)
Context (first_ok : ∀ m, m ≠ ∅ → is_Some (m !! first m)).

(** A step of one process that does not show in the registry. *)
Lemma on_proc_ok σ R st n p f s' p' D' R' : Consistent σ R st → sy_procs σ !! n = Some p →
  f (sy_master σ) p = Ok (s', p') → ProcInv p' D' → same_objects p p' → RegGood root api s' R' →
  rest_kept root (ms_view (sy_master σ)) (ms_view s') →
  (∀ name id sid conn rank, registered R' name id sid conn rank ↔ registered R name id sid conn rank) →
  ∃ σ' R' st', on_proc σ n f = Ok σ' ∧ Consistent σ' R' st'.
Proof.
  intros Hσ Hn He Hp' Hs HR' Hrest Hreg. unfold on_proc. rewrite (found_ok _ _ _ Hn). step_ok. rewrite He. step_ok.
  do 3 eexists. split; [done|]. by eapply consistent_update.
Qed.

(** The same for one that registers a service first. *)
Lemma on_proc_registers σ R st n p name (f : S → proc → result (S * proc)) (g : Z → result proc) :
  Consistent σ R st → sy_procs σ !! n = Some p → nameable (sy_master σ) name → (∀ id, stays p (g id)) →
  (∀ s id, service_register root api (sy_master σ) p name = Ok (s, id) → f (sy_master σ) p = (p' ← g id; Ok (s, p'))) →
  ∃ σ' R' st', on_proc σ n f = Ok σ' ∧ Consistent σ' R' st'.
Proof.
  intros Hσ Hn Hname Hg Hf. destruct (service_register_ok σ R st p name Hσ Hname) as (s'&id&R'&He&HR'&Hrest&Hreg).
  destruct (Hg id) as (p'&D'&He'&Hp'&Hs).
  eapply on_proc_ok; [done|done| |done|done|done|done|done]. by rewrite (Hf s' id He), He'.
Qed.

Lemma create_client_ok σ R st n p D k name e : Consistent σ R st → sy_procs σ !! n = Some p → ProcInv p D →
  p_clients p !! k = None → nameable (sy_master σ) name →
  ∃ σ' R' st', sys_exec σ (CreateClient n k name e) = Ok σ' ∧ Consistent σ' R' st'.
Proof.
  intros Hσ Hn Hp Hk Hname. pose proof (cs_registry _ _ _ Hσ) as HR.
  assert (∃ s' R', (if e =? 0 then '(s, _) ← service_register root api (sy_master σ) p name; Ok s else Ok (sy_master σ)) = Ok s' ∧
    RegGood root api s' R' ∧ rest_kept root (ms_view (sy_master σ)) (ms_view s') ∧
    ∀ name id sid conn rank, registered R' name id sid conn rank ↔ registered R name id sid conn rank)
    as (s'&R'&He&HR'&Hrest&Hreg).
  { destruct (e =? 0); [|by exists (sy_master σ), R].
    destruct (service_register_ok σ R st p name Hσ Hname) as (s'&id&R'&->&?&?&?). step_ok. by exists s', R'. }
  assert (∃ p', default p (info ← get_rpc_service_info (p_ctx p) name;
      if e <=? i32 (Z.of_nat (length (servers info))) then Some (set_client p k (MkRpcClient info 0)) else None) = p' ∧
    ProcInv p' D ∧ same_objects p p') as (p'&Ep&Hp'&Hs).
  { eexists. split; [done|]. destruct (get_rpc_service_info (p_ctx p) name) as [info|]; [|done]. cbn.
    destruct (e <=? _); [|done]. split; [by apply clients_inv|done]. }
  cbn [sys_exec]. eapply on_proc_ok; [done|done| |exact Hp'|done|exact HR'|done|done].
  cbv beta. unfold create_client. rewrite He. step_ok. by rewrite <- Ep.
Qed.

Lemma sys_exec_ok σ R st op : Consistent σ R st → sys_legal σ op →
  ∃ σ' R' st', sys_exec σ op = Ok σ' ∧ Consistent σ' R' st'.
Proof.
  intros Hσ Hop. pose proof (cs_registry _ _ _ Hσ) as HR.
  destruct op as [n c ep|n|n x|n k name sid fresh|n k|n name|n name|n k name e|n d name fresh|n d name|n iter iter_info next].
  - destruct (consistent_start σ R st n c ep Hσ Hop) as (σ'&st'&?&?). eauto.
  - destruct Hop as [p Hn]. by eapply consistent_crash.
  - destruct Hop as (p&Hn&Hx). destruct (cs_proc _ _ _ Hσ n p Hn) as [D Hp].
    destruct (call_stays first none first_ok p D x Hp Hx) as (p'&D'&He&Hp'&Hs).
    eapply (on_proc_ok σ R st n p); try done. cbv beta. by rewrite He.
  - destruct Hop as ((p&Hn&Hk)&Hname&Hsid&Hfree).
    destruct (consistent_create_server σ R st n p k name sid fresh Hσ Hn Hk Hname Hsid Hfree) as (σ'&R'&?&?). eauto.
  - destruct Hop as (p&Hn&o&Hk&Hd). destruct (consistent_destroy_server σ R st n p k o Hσ Hn Hk Hd) as (σ'&R'&?&?). eauto.
  - destruct Hop as [[p Hn] Hname]. destruct (cs_proc _ _ _ Hσ n p Hn) as [D Hp].
    apply (on_proc_registers σ R st n p name _ (λ _, Ok p)); [done..| |].
    + intros _. by exists p, D.
    + intros s id He. cbv beta. by rewrite He.
  - destruct Hop as [[p Hn] Hname]. destruct (cs_proc _ _ _ Hσ n p Hn) as [D Hp].
    destruct (service_deregister_ok σ R st p name Hσ Hname) as (s'&R'&He&HR'&Hrest&Hreg).
    eapply (on_proc_ok σ R st n p); try done. cbv beta. by rewrite He.
  - destruct Hop as ((p&Hn&Hk)&Hname). destruct (cs_proc _ _ _ Hσ n p Hn) as [D Hp]. by eapply create_client_ok.
  - destruct Hop as ((p&Hn&Hd&Hroom)&Hname). destruct (cs_proc _ _ _ Hσ n p Hn) as [D Hp].
    apply (on_proc_registers σ R st n p name _ (λ id, named_dealer p d id fresh)); [done..| |].
    + intros id. apply (named_dealer_stays p D); eauto using unused.
    + intros s id He. unfold create_dealer. by rewrite He.
  - destruct Hop as ((p&Hn&Hd&Hroom)&Hname). destruct (cs_proc _ _ _ Hσ n p Hn) as [D Hp].
    apply (on_proc_registers σ R st n p name _ (λ id, new_dealer p d id)); [done..| |].
    + intros id. apply (bare_dealer_stays p D); eauto using unused.
    + intros s id He. unfold dealer_by_name. by rewrite He.
  - destruct Hop as ((p&Hn&Hnext)&Hiter). destruct (cs_proc _ _ _ Hσ n p Hn) as [D Hp].
    destruct (update_ctx_ok σ R st n p D iter iter_info next Hσ Hn Hp Hnext Hiter) as (s'&c'&He&Hs'&Hv&Hp'&Hs&_).
    eapply (on_proc_ok σ R st n p); [done|done|exact He|done|done|by eapply good_view|by rewrite Hv|done].
Qed.

Lemma sys_run_consistent σ σ' R st : sys_run σ σ' → Consistent σ R st → ∃ R' st', Consistent σ' R' st'.
Proof.
  intros Hrun. revert R st. induction Hrun as [σ|σ op σ1 σ2 Hop He _ IH]; intros R st Hσ; [by eexists _, _|].
  destruct (sys_exec_ok σ R st op Hσ Hop) as (σ'&R'&st'&He'&Hσ'). rewrite He in He'. injection He' as <-. by eapply IH.
Qed.

Lemma consistent_init s : RegGood root api s ∅ → Started root (ms_view s) → Consistent (Sys s ∅) ∅ empty_store.
Proof.
  intros HR Hst. split; cbn; [done|by apply started_store|by intros n p; rewrite lookup_empty|
    by intros n n' p p'; rewrite lookup_empty| | | |].
  - intros rank conn. split; [intros [? ?]; done|]. by intros (n&p&Hn&_).
  - by intros rank conn (n&p&Hn&_).
  - intros name id sid conn rank. split; [by intros (sv&?&_)|by intros (n&p&k&o&Hn&_)].
  - by intros name id sid conn rank (n&p&k&o&Hn&_).
Qed.

Lemma ranks_differ σ R st na nb a b : Consistent σ R st → sy_procs σ !! na = Some a → sy_procs σ !! nb = Some b →
  na ≠ nb → rank_of a ≠ rank_of b.
Proof.
  intros Hσ Ha Hb Hne E. apply Hne.
  destruct (proj2 (cs_node _ _ _ Hσ (rank_of a) (p_conn a))) as [ia Hia]; [by exists na, a|].
  destruct (proj2 (cs_node _ _ _ Hσ (rank_of b) (p_conn b))) as [ib Hib]; [by exists nb, b|].
  rewrite E in Hia. eapply (cs_conn _ _ _ Hσ); [done|done|congruence].
Qed.
End system.

(** ** Scripts: legality as a test *)
Section scripts.
Context {S : Type} `{!MasterService S} {B : Type} (root api : str).
Context (to_json_str : CommInfo → str) (from_json_str : str → result CommInfo).
Context (first : gmap Z (list (@FairQueue.pkt B)) → Z) (none : B).
#[local] Abbreviation proc := (@Service.proc B).
#[local] Abbreviation system := (@system S B).
#[local] Abbreviation sys_op := (@sys_op B).

Definition absent {A} (m : gmap nat A) (k : nat) : bool := match m !! k with None => true | Some _ => false end.
Definition new_address_b (p : proc) (d : nat) : bool :=
  absent (dealers (p_ctx p)) d && bool_decide (Z.of_nat (size (p_used p)) < 2 ^ 31).

Definition call_test (p : proc) (x : @call B) : bool :=
  match x with
  | ServerCreateDealer k d _ => negb (absent (p_servers p) k) && new_address_b p d
  | ClientCreateDealer k d =>
      match p_clients p !! k with Some cl => bool_decide (c_n_dealers cl < 2 ^ 31 - 1) | None => false end && new_address_b p d
  | Accepted f _ _ => absent (fronts (p_ctx p)) f
  | MessageEvent _ _ _ => true
  | _ => false
  end.

Definition no_server (ps : gmap nat proc) (name : str) (sid : Z) : Prop :=
  map_Forall (λ _ p, map_Forall (λ _ o, ¬ (s_rpc_name o = name ∧ s_id o = sid)) (p_servers p)) ps.

Definition nameable_b (s : S) (name : str) : bool :=
  bool_decide (slash ∉ name) && bool_decide (name ≠ []) && bool_decide (Z.of_nat (length name) < 2 ^ 32) &&
  bool_decide (reg_room root api s name).

Definition in_proc_b (σ : system) (n : nat) (f : proc → bool) : bool :=
  match sy_procs σ !! n with Some p => f p | None => false end.

Definition op_test (σ : system) (op : sys_op) : bool :=
  let s := sy_master σ in
  match op with
  | Start n conn ep => absent (sy_procs σ) n && bool_decide (map_Forall (λ _ p, p_conn p ≠ conn) (sy_procs σ)) &&
      bool_decide (ranks_given root api s < 2 ^ 15) &&
      bool_decide (Z.of_nat (length (to_json_str (MkCommInfo (ranks_given root api s) ep))) < 2 ^ 64)
  | Crash n => negb (absent (sy_procs σ) n)
  | Call n x => in_proc_b σ n (λ p, call_test p x)
  | CreateServer n k name sid _ => in_proc_b σ n (λ p, absent (p_servers p) k) && nameable_b s name &&
      bool_decide (0 ≤ chosen root api s name sid < 1000000007) &&
      bool_decide (no_server (sy_procs σ) name (chosen root api s name sid))
  | CreateClient n k name _ => in_proc_b σ n (λ p, absent (p_clients p) k) && nameable_b s name
  | UpdateCtx n _ _ next => in_proc_b σ n (λ p, bool_decide (map_Forall (λ f _, (f < next)%nat) (fronts (p_ctx p))))
  | _ => false
  end.

(** The iteration orders of a script. *)
Definition in_some_order (op : sys_op) : Prop :=
  match op with UpdateCtx _ _ iter_info _ => ∀ m, iter_info m ≡ₚ map_to_list m | _ => True end.

Lemma absent_none {A} (m : gmap nat A) k : absent m k = true → m !! k = None.
Proof. unfold absent. by destruct (m !! k). Qed.
Lemma absent_some {A} (m : gmap nat A) k : negb (absent m k) = true → is_Some (m !! k).
Proof. unfold absent. destruct (m !! k); [by eexists|done]. Qed.
Lemma new_address_true (p : proc) d : new_address_b p d = true → new_address p d.
Proof. intros [H1 H2]%andb_true_iff. split; [by apply absent_none|by apply bool_decide_eq_true in H2]. Qed.
Lemma in_proc_true σ n f (P : proc → Prop) : (∀ p, f p = true → P p) → in_proc_b σ n f = true → in_proc σ n P.
Proof. unfold in_proc_b, in_proc. intros Hf. destruct (_ !! n) as [p|]; [|done]. eauto. Qed.

Lemma nameable_true s name : nameable_b s name = true → nameable root api s name.
Proof.
  unfold nameable_b. intros [[[H1 H2]%andb_true_iff H3]%andb_true_iff H4]%andb_true_iff.
  by apply bool_decide_eq_true in H1, H2, H3, H4.
Qed.

Lemma call_test_legal (p : proc) x : call_test p x = true → legal p x.
Proof.
  destruct x; cbn; try done.
  - intros [H1 H2]%andb_true_iff. split; [by apply absent_some|by apply new_address_true].
  - intros [H1 H2]%andb_true_iff. split; [|by apply new_address_true]. destruct (p_clients p !! k) as [cl|]; [|done].
    exists cl. by apply bool_decide_eq_true in H1.
  - apply absent_none.
Qed.

Lemma op_test_legal σ op : in_some_order op → op_test σ op = true → sys_legal root api to_json_str σ op.
Proof.
  intros Ho. destruct op; cbn; try done.
  - intros [[[H1 H2]%andb_true_iff H3]%andb_true_iff H4]%andb_true_iff. apply bool_decide_eq_true in H2, H3, H4.
    split; [by apply absent_none|]. split; [intros n' p' Hp; by apply (H2 n' p' Hp)|]. split; [done|]. exact H4.
  - intros Hn. by apply absent_some.
  - apply in_proc_true. intros p. apply call_test_legal.
  - intros [[[H1 H2]%andb_true_iff H3]%andb_true_iff H4]%andb_true_iff. apply bool_decide_eq_true in H3, H4.
    split; [eapply in_proc_true; [|exact H1]; intros p; apply absent_none|]. split; [by apply nameable_true|]. split; [done|].
    intros id conn rank (m&q&k'&o&Hm&Hk&[= _ Es En]&_). by destruct (H4 m q Hm k' o Hk).
  - intros [H1 H2]%andb_true_iff. split; [eapply in_proc_true; [|exact H1]; intros p; apply absent_none|by apply nameable_true].
  - intros H1. split; [|exact Ho]. eapply in_proc_true; [|exact H1]. intros p H2%bool_decide_eq_true f Hf.
    apply eq_None_not_Some. intros [x Hx]. specialize (H2 f x Hx). cbn in H2. lia.
Qed.

Fixpoint run_tested (σ : system) (ops : list sys_op) : result system :=
  match ops with
  | [] => Ok σ
  | op :: ops =>
      _ ← SCHECK (op_test σ op);
      σ ← sys_exec root api to_json_str from_json_str first none σ op;
      run_tested σ ops
  end.

Lemma run_tested_run ops : ∀ σ σ', Forall in_some_order ops → run_tested σ ops = Ok σ' →
  sys_run root api to_json_str from_json_str first none σ σ'.
Proof.
  induction ops as [|op ops IH]; intros σ σ' Hops; cbn [run_tested]; [intros [= <-]; constructor|].
  apply Forall_cons in Hops as [Ho Hops]. destruct (op_test σ op) eqn:Ht; [|done]. step_ok. rewrite bind_ok.
  intros (σ1&He&Hr). econstructor; [by apply op_test_legal|exact He|by apply IH].
Qed.
End scripts.

(** ** Properties *)

(** C37: the library holds together. Start from an empty master with [initialize], with a valid
    root path (empty, or names each after a single slash) followed by a slash and an api that is
    a name; it succeeds. Then let processes start and die, create and destroy servers, clients
    and dealers, register and deregister services, send and receive, learn of each other, and
    get messages of any content, in any order, one call at a time, as long as the callers
    respect what [sys_legal] and [legal] say: new objects have unused addresses, objects that
    are used exist, dealers are used as what they were made for, a dealer is not asked to
    receive again after [recv_request] or [recv_response] returned false unless something has
    arrived since (the channel would fail its check), servers are destroyed after their dealers
    and a client object after its, names are not empty and have no slash, the numbers of servers
    are in range and not in use, and counters are not exhausted. No check of the library ever
    fails on the way, and the parts always agree: the registry lists exactly the server objects
    of the processes that are alive, under their numbers and ranks; the nodes of the master are
    these processes, with ranks of their own; and in every process the routing tables are those
    of its servers, its clients and its dealers. It is assumed that the JSON text of a CommInfo
    can be read back, that boost::split splits at slashes, and that the iteration order of a map
    begins with an element if there is one. *)
Theorem service_is_safe {S : Type} `{!MasterService S} {B : Type} (split : str → list str) (p api : str)
    (to_json_str : CommInfo → str) (from_json_str : str → result CommInfo)
    (first : gmap Z (list (@FairQueue.pkt B)) → Z) (none : B) (s : S) (c : sock) :
  (∀ x, join (split x) = x ∧ Forall (λ seg, slash ∉ seg) (split x) ∧ split x ≠ []) →
  (∀ info, from_json_str (to_json_str info) = Ok info) → (∀ m, m ≠ ∅ → is_Some (m !! first m)) →
  good_path p → small (p ++ [slash]) → name_ok api → small (rank_key api) →
  ms_good s → t_nodes (ms_view s) = ∅ → t_gen (ms_view s) = ∅ →
  ∃ s1, initialize split (p ++ [slash]) s c = Ok s1 ∧
  ∀ σ, sys_run (p ++ [slash]) api to_json_str from_json_str first none (Sys s1 ∅) σ →
    (∃ R st, Consistent (p ++ [slash]) api to_json_str σ R st) ∧
    ∀ op, sys_legal (p ++ [slash]) api to_json_str σ op →
      ∃ σ', sys_exec (p ++ [slash]) api to_json_str from_json_str first none σ op = Ok σ'.
Proof.
  intros Hsp Hj Hfirst Hp Hsm Hapi Hrank Hs Hn Hg.
  destruct (initialize_ok split Hsp p api s c Hp Hsm Hapi Hs Hn Hg) as (s1&Hi&Hgood&Hst). exists s1. split; [done|].
  intros σ Hrun. assert (Hroot : ∃ q, good_path q ∧ p ++ [slash] = q ++ [slash]) by by exists p.
  destruct (sys_run_consistent (p ++ [slash]) api to_json_str from_json_str first none Hroot Hsm Hapi Hrank Hj Hfirst
    _ _ _ _ Hrun (consistent_init _ _ to_json_str s1 Hgood Hst)) as (R&st&Hσ).
  split; [eauto|]. intros op Hop.
  destruct (sys_exec_ok (p ++ [slash]) api to_json_str from_json_str first none Hroot Hsm Hapi Hrank Hj Hfirst
    σ R st op Hσ Hop) as (σ'&_&_&?&_). eauto.
Qed.

(** C33: a call from one process to a server of another, from the registry to the answer. Take
    any system that was reached as in [service_is_safe] (with its conditions: a valid root path
    and names, the legal calls only, the JSON text of a CommInfo can be read back, boost::split
    splits at slashes, and [first] picks an element), a process [a], and another process [b]
    that has created a server with a dealer. Let [a] refresh its tables from the master and have
    no broken connection to [b]. Then a request that a client dealer of that service in [a]
    addresses to the server by number leaves on a frontend to [b], unless the dealer remembers a
    server of that number in its own process, since it then never asks the tables again
    (Dealer.cpp:110); when [b] receives it, it lands at the end of the channel of one of the
    dealers that were made for this very server object; and what this dealer answers leaves on
    the connection to [a], if [b] has one that is not disconnected, and, when [a] receives it,
    is appended to the response channel of the caller. *)
Theorem service_call_roundtrip {S : Type} `{!MasterService S} {B : Type} (split : str → list str) (p api : str)
    (to_json_str : CommInfo → str) (from_json_str : str → result CommInfo)
    (first : gmap Z (list (@FairQueue.pkt B)) → Z) (none : B) (s : S) (c : sock) :
  (∀ x, join (split x) = x ∧ Forall (λ seg, slash ∉ seg) (split x) ∧ split x ≠ []) →
  (∀ info, from_json_str (to_json_str info) = Ok info) → (∀ m, m ≠ ∅ → is_Some (m !! first m)) →
  good_path p → small (p ++ [slash]) → name_ok api → small (rank_key api) →
  ms_good s → t_nodes (ms_view s) = ∅ → t_gen (ms_view s) = ∅ →
  let exec := sys_exec (p ++ [slash]) api to_json_str from_json_str first none in
  ∃ s1, initialize split (p ++ [slash]) s c = Ok s1 ∧
  ∀ σ na a nb b k sv iter iter_info next,
    sys_run (p ++ [slash]) api to_json_str from_json_str first none (Sys s1 ∅) σ →
    sy_procs σ !! na = Some a → sy_procs σ !! nb = Some b → na ≠ nb →
    p_servers b !! k = Some sv → s_dealers sv ≠ ∅ → usable (p_ctx a) (rank_of b) →
    sys_legal (p ++ [slash]) api to_json_str σ (UpdateCtx na iter iter_info next) →
  ∃ σ' a', exec σ (UpdateCtx na iter iter_info next) = Ok σ' ∧ sy_procs σ' !! na = Some a' ∧
  ∀ d x rnd req fd_a fa fd_b fb g xg,
    dealers (p_ctx a') !! d = Some x → _initialized_client x = true → _rpc_id x = s_rpc_id sv →
    sid (hd req) = s_id sv → dest_dealer (hd req) = -1 → s_id sv ∉ _servers x →
    _fd_map (p_ctx b) !! fd_b = Some fb → _fd_map (p_ctx a') !! fd_a = Some fa →
    get_server_frontend_by_rank (p_ctx b) (rank_of a) = Some g → fronts (p_ctx b) !! g = Some xg →
    state_has xg FRONTEND_DISCONNECT = false →
  ∃ f a1, f_rank <$> fronts (p_ctx a') !! f = Some (rank_of b) ∧
    send_request first none (p_ctx a') d rnd req = Ok a1 ∧
    sent a1 = sent (p_ctx a') ++ [(f, outgoing x req)] ∧
  ∃ b1 e, handle_message_event first (p_ctx b) fd_b [outgoing x req] true = Ok b1 ∧
    e ∈ s_dealers sv ∧ served (p_ctx b) b1 e (outgoing x req) ∧
  ∀ r, let resp := answer (outgoing x req) r in
  ∃ b2, send_response b1 e resp = Ok b2 ∧ sent b2 = sent (p_ctx b) ++ [(g, resp)] ∧
  ∃ a2 x2, handle_message_event first a1 fd_a [resp] true = Ok a2 ∧ dealers a2 !! d = Some x2 ∧
    _client_resp_ch x2 = _client_resp_ch x ++ [resp].
Proof.
  intros Hsp Hj Hfirst Hp Hsm Hapi Hrank Hs Hn Hg exec.
  destruct (initialize_ok split Hsp p api s c Hp Hsm Hapi Hs Hn Hg) as (s1&Hi&Hgood&Hst). exists s1. split; [done|].
  intros σ na a nb b k sv iter iter_info next Hrun Ha Hb Hne Hk Hd Hu (Hnext&Hiter).
  assert (Hroot : ∃ q, good_path q ∧ p ++ [slash] = q ++ [slash]) by by exists p.
  destruct (sys_run_consistent (p ++ [slash]) api to_json_str from_json_str first none Hroot Hsm Hapi Hrank Hj Hfirst
    _ _ _ _ Hrun (consistent_init _ _ to_json_str s1 Hgood Hst)) as (R&st&Hσ).
  destruct (cs_proc _ _ _ _ _ _ Hσ na a Ha) as [Da Hpa]. destruct (cs_proc _ _ _ _ _ _ Hσ nb b Hb) as [Db Hpb].
  destruct Hnext as (a0&Ha0&Hnext). assert (a0 = a) as -> by congruence.
  pose proof (object_in σ nb b k sv Hb Hk) as Hobj. destruct (cs_sid _ _ _ _ _ _ Hσ _ _ _ _ _ Hobj) as [Hsid _].
  pose proof (ranks_differ _ _ _ σ R st na nb a b Hσ Ha Hb Hne) as Hdiff.
  destruct (update_ctx_ok (p ++ [slash]) api to_json_str from_json_str Hroot Hsm Hapi Hj σ R st na a Da iter iter_info next
    Hσ Ha Hpa Hnext Hiter) as (s'&c'&He&_&_&Hpa'&[_ Hself _]&Hroute).
  destruct (Hroute _ _ _ _ _ Hobj Hu) as (f&Hf&Hrk).
  exists (Sys s' (<[na := with_ctx a c']> (sy_procs σ))), (with_ctx a c'). split.
  { unfold exec. cbn [sys_exec]. unfold on_proc. rewrite (found_ok _ _ _ Ha). step_ok. by rewrite He. }
  split; [apply lookup_insert_eq|].
  intros d x rnd req fd_a fa fd_b fb g xg Hx Hc Hrpc Hreq Hdd Hin Hfb Hfa Hg' Hxg Hstate. exists f.
  pose proof (client_can_call _ Da d x Hpa' Hx Hc) as Hcall.
  pose proof (server_can_serve b Db k sv Hpb Hk ltac:(lia) Hd) as Hserve.
  change (rank_of (with_ctx a c')) with (_self c') in Hself. unfold rank_of in *. cbn [p_ctx with_ctx] in *.
  rewrite <- Hrpc, <- Hreq in Hserve, Hf.
  destruct (remote_call_roundtrip first none c' (p_ctx b) d x rnd req f fd_a fa fd_b fb g) as (a1&Hsend&Hsent&b1&e&Hrecv&Hsv&Hmem&Hresp);
    [done|by rewrite Hreq|by split|congruence|done|done|done|done|by rewrite Hself|by exists xg|].
  exists a1. split; [done|]. split; [done|]. split; [done|]. exists b1, e. split; [done|]. split; [|split; [done|]].
  - apply (serving_own b Db k sv e Hpb Hk ltac:(lia)). destruct Hserve as (_&q&Hq&_).
    pose proof (Hmem q Hq) as Hq'. unfold serving_dealers, queue_of. rewrite <- Hrpc, Hq. cbn. by rewrite <- Hreq.
  - exact Hresp.
Qed.

(** ** Witnesses

    Two processes, a server with a dealer in the second, a client with a dealer in the
    first, and connections in both directions. *)
Definition two_processes : list (@sys_op unit) :=
  [Start 0 1%nat (lit "a"); Start 1 2%nat (lit "b"); CreateServer 1 0 demo_name (-1) (0, 0);
   Call 1 (ServerCreateDealer 0 0 (0, 0)); UpdateCtx 0 map_to_list map_to_list 10; CreateClient 0 0 demo_name 1;
   Call 0 (ClientCreateDealer 0 0); Call 1 (Accepted 5 0 [30]); Call 0 (Accepted 20 1 [40])].

Definition refresh : @sys_op unit := UpdateCtx 0 map_to_list map_to_list 30.

Lemma two_processes_order : Forall in_some_order (refresh :: two_processes).
Proof. unfold two_processes, refresh. repeat (apply Forall_cons_2; [by cbn; intros|]). by apply Forall_nil_2. Qed.

#[local] Abbreviation demo_boot := (@initialize Master example_service split_slash ([] ++ [slash]) init 1%nat).
#[local] Abbreviation demo_play s := (@run_tested Master example_service unit ([] ++ [slash]) demo_api demo_text (demo_parse 0)
  first_key () (Sys s ∅) two_processes).
#[local] Abbreviation demo_exec := (@sys_exec Master example_service unit ([] ++ [slash]) demo_api demo_text (demo_parse 0)
  first_key ()).

(** What the last theorem asks of the two processes. *)
Definition ready_to_call (a b a' : @proc unit) : bool :=
  match p_servers b !! 0%nat, dealers (p_ctx a') !! 0%nat, fronts (p_ctx b) !! 5%nat with
  | Some sv, Some x, Some xg =>
      bool_decide (s_dealers sv ≠ ∅) && (s_id sv =? 0) && _initialized_client x && (_rpc_id x =? s_rpc_id sv) &&
      bool_decide (0 ∉ _servers x) && bool_decide (_fd_map (p_ctx b) !! 30 = Some 5%nat) &&
      bool_decide (_fd_map (p_ctx a') !! 40 = Some 20%nat) &&
      bool_decide (get_server_frontend_by_rank (p_ctx b) (rank_of a) = Some 5%nat) &&
      negb (state_has xg FRONTEND_DISCONNECT) &&
      bool_decide (default true (is_available (p_ctx a) <$> _client_sockets (p_ctx a) !! rank_of b) = true)
  | _, _, _ => false
  end.

Lemma two_processes_played :
  match demo_boot with
  | Ok s =>
      match demo_play s with
      | Ok σ =>
          @op_test Master example_service unit ([] ++ [slash]) demo_api demo_text σ refresh &&
          match sy_procs σ !! 0%nat, sy_procs σ !! 1%nat, demo_exec σ refresh with
          | Some a, Some b, Ok σ' => match sy_procs σ' !! 0%nat with Some a' => ready_to_call a b a' | None => false end
          | _, _, _ => false
          end
      | Abort => false
      end
  | Abort => false
  end = true.
Proof. vm_compute. reflexivity. Qed.

Lemma demo_rank_key : small (rank_key demo_api).
Proof. vm_compute. reflexivity. Qed.

Lemma service_is_safe_witness :
  ∃ s1 σ σ' R st, demo_boot = Ok s1 ∧ demo_play s1 = Ok σ ∧
    @Consistent Master example_service unit ([] ++ [slash]) demo_api demo_text σ R st ∧ demo_exec σ refresh = Ok σ'.
Proof.
  destruct demo_names as [Hapi Hsm].
  destruct (@service_is_safe Master example_service unit split_slash [] demo_api demo_text (demo_parse 0) first_key () init 1%nat)
    as (s1&Hs1&Hall);
    [apply split_slash_spec|apply demo_text_ok|apply first_key_ok|by left|exact Hsm|exact Hapi|exact demo_rank_key|
     apply init_live|vm_compute; reflexivity|vm_compute; reflexivity|].
  pose proof two_processes_played as E. rewrite Hs1 in E. destruct (demo_play s1) as [σ|] eqn:Hrun; [|discriminate].
  apply andb_true_iff in E as [Hop _]. pose proof two_processes_order as [Hro Hord]%Forall_cons.
  destruct (Hall σ (run_tested_run _ _ _ _ _ _ _ _ _ Hord Hrun)) as [(R&st&Hσ) Hstep].
  destruct (Hstep refresh (op_test_legal _ _ _ σ refresh Hro Hop)) as [σ' He].
  exists s1, σ, σ', R, st. split; [exact Hs1|]. split; [exact Hrun|]. split; [exact Hσ|exact He].
Defined.

Lemma ready_to_call_true a b a' : ready_to_call a b a' = true →
  ∃ sv x xg, p_servers b !! 0%nat = Some sv ∧ dealers (p_ctx a') !! 0%nat = Some x ∧ fronts (p_ctx b) !! 5%nat = Some xg ∧
    s_dealers sv ≠ ∅ ∧ s_id sv = 0 ∧ _initialized_client x = true ∧ _rpc_id x = s_rpc_id sv ∧ 0 ∉ _servers x ∧
    _fd_map (p_ctx b) !! 30 = Some 5%nat ∧ _fd_map (p_ctx a') !! 40 = Some 20%nat ∧
    get_server_frontend_by_rank (p_ctx b) (rank_of a) = Some 5%nat ∧ state_has xg FRONTEND_DISCONNECT = false ∧
    usable (p_ctx a) (rank_of b).
Proof.
  unfold ready_to_call. destruct (p_servers b !! 0%nat) as [sv|], (dealers (p_ctx a') !! 0%nat) as [x|],
    (fronts (p_ctx b) !! 5%nat) as [xg|]; try done.
  rewrite !andb_true_iff, !bool_decide_eq_true, !Z.eqb_eq, negb_true_iff.
  intros [[[[[[[[[H1 H2] H3] H4] H5] H6] H7] H8] H9] H10]. exists sv, x, xg. repeat (split; [done|]).
  intros f Hf. rewrite Hf in H10. exact H10.
Qed.

Lemma service_call_roundtrip_witness :
  ∃ s1 σ a b σ' a' x f a1, demo_boot = Ok s1 ∧ demo_play s1 = Ok σ ∧ sy_procs σ !! 0%nat = Some a ∧
    sy_procs σ !! 1%nat = Some b ∧ demo_exec σ refresh = Ok σ' ∧ sy_procs σ' !! 0%nat = Some a' ∧
    f_rank <$> fronts (p_ctx a') !! f = Some (rank_of b) ∧
    send_request first_key () (p_ctx a') 0 0 (request_for 0) = Ok a1 ∧
    sent a1 = sent (p_ctx a') ++ [(f, outgoing x (request_for 0))].
Proof.
  destruct demo_names as [Hapi Hsm].
  destruct (@service_call_roundtrip Master example_service unit split_slash [] demo_api demo_text (demo_parse 0) first_key ()
    init 1%nat) as (s1&Hs1&Hall);
    [apply split_slash_spec|apply demo_text_ok|apply first_key_ok|by left|exact Hsm|exact Hapi|exact demo_rank_key|
     apply init_live|vm_compute; reflexivity|vm_compute; reflexivity|].
  pose proof two_processes_played as E. rewrite Hs1 in E. destruct (demo_play s1) as [σ|] eqn:Hrun; [|discriminate].
  apply andb_true_iff in E as [Hop E]. destruct (sy_procs σ !! 0%nat) as [a|] eqn:Ha; [|discriminate].
  destruct (sy_procs σ !! 1%nat) as [b|] eqn:Hb; [|discriminate].
  destruct (demo_exec σ refresh) as [σ'|] eqn:He; [|discriminate].
  destruct (sy_procs σ' !! 0%nat) as [a'|] eqn:Ha'; [|discriminate].
  apply ready_to_call_true in E as (sv&x&xg&Hk&Hx&Hxg&Hd&Hsid&Hc&Hrpc&Hin&Hfb&Hfa&Hg&Hst&Hu).
  pose proof two_processes_order as [Hro Hord]%Forall_cons.
  destruct (Hall σ 0%nat a 1%nat b 0%nat sv map_to_list map_to_list 30%nat (run_tested_run _ _ _ _ _ _ _ _ _ Hord Hrun)
    Ha Hb ltac:(discriminate) Hk Hd Hu (op_test_legal _ _ _ σ refresh Hro Hop)) as (σ2&a2&He2&Ha2&Hcall).
  cbv zeta in He2. unfold refresh in He. rewrite He in He2. injection He2 as <-. rewrite Ha' in Ha2. injection Ha2 as <-.
  destruct (Hcall 0%nat x 0%nat (request_for 0) 40 20%nat 30 5%nat 5%nat xg) as (f&a1&Hf&Hsend&Hsent&_);
    [exact Hx|exact Hc|exact Hrpc|by rewrite Hsid|reflexivity|by rewrite Hsid|exact Hfb|exact Hfa|exact Hg|exact Hxg|exact Hst|].
  exists s1, σ, a, b, σ', a', x, f, a1. repeat (split; [done|]). exact Hsent.
Defined.
