(* ===== verification/Barrier.v ===== *)
(** * The distributed barrier

    src/src/rpc/MasterClient.cpp, [MasterClient::barrier].  As many threads as the
    barrier has places, in any number of processes, call it again and again.  Each call
    generates an ephemeral child below the barrier's node; the thread whose child makes
    them complete leads: it creates the node [ready], waits until the others have removed
    their children, and removes its own and [ready].

    The threads are interleaved call by call, with each other and with requests that
    leave the barrier's nodes alone. *)
From stdpp Require Import sorting.
From S2P Require Import Prelude Archive Serialize LazyArchive Message Master MasterClient Locks Nodes Registry Discovery.
Import TcpMasterClient.

(** ** The program *)

(** Where a thread is: outside; waiting for [ready] to be gone; before each of the calls
    [tree_node_add(base_path)], [tree_node_add(node_path)], [tree_node_gen],
    [tree_node_sub]; the leader before [tree_node_add(ready_path)], waiting for the
    others, before its two deletions; a follower waiting for [ready], before its deletion. *)
Inductive bpc :=
  | BOut | BEnter | BAddBase | BAddNode | BGen | BSub (gen : str)
  | BReady (gen : str) | BAlone (gen : str) | BDelOwn (gen : str) | BDelReady
  | BFollow (gen : str) | BLeave (gen : str).

(** The connection of the thread's process, and how often the thread has left the barrier. *)
Record thr := Thr { th_sock : sock; th_pc : bpc; th_left : nat }.

Record barrier_sys {S : Type} := BarrierSys { bsvc : S; bthreads : list thr }.
Arguments barrier_sys : clear implicits.
Arguments BarrierSys {S} _ _.

Section program.
Context {S : Type} `{!MasterService S}.
Context (_root_path barrier_name : str) (number : nat).

Definition base_path : str := PATH_BARRIER ++ [slash] ++ barrier_name.
Definition node_path : str := base_path ++ lit "/node".
Definition ready_path : str := base_path ++ lit "/ready".

Definition bgoto (y : barrier_sys S) (s : S) (i : nat) (x : thr) (p : bpc) : barrier_sys S :=
  BarrierSys s (<[i := Thr (th_sock x) p (th_left x)]> (bthreads y)).
Definition bleave (y : barrier_sys S) (s : S) (i : nat) (x : thr) : barrier_sys S :=
  BarrierSys s (<[i := Thr (th_sock x) BOut (Datatypes.S (th_left x))]> (bthreads y)).

(** The next action of a thread.  A thread whose condition does not hold stays where it is. *)
Definition barrier_step (y : barrier_sys S) (i : nat) : result (barrier_sys S) :=
  match bthreads y !! i with
  | None => Ok y
  | Some x =>
      let c := th_sock x in
      match th_pc x with
      | BOut => Ok (bgoto y (bsvc y) i x BEnter)
      | BEnter =>
          '(s, b, _) ← tree_node_get _root_path (bsvc y) c ready_path [];
          Ok (bgoto y s i x (if (b : bool) then BEnter else BAddBase))
      | BAddBase =>
          '(s, _) ← tree_node_add _root_path (bsvc y) c base_path [] false;
          Ok (bgoto y s i x BAddNode)
      | BAddNode =>
          '(s, _) ← tree_node_add _root_path (bsvc y) c node_path [] false;
          Ok (bgoto y s i x BGen)
      | BGen =>
          '(s, gen) ← tree_node_gen _root_path (bsvc y) c node_path [] true;
          _ ← SCHECK (negb (bool_decide (gen = [])));
          Ok (bgoto y s i x (BSub gen))
      | BSub gen =>
          '(s, b, children) ← tree_node_sub _root_path (bsvc y) c node_path [];
          _ ← SCHECK b;
          Ok (bgoto y s i x
                (if decide (length children = number ∧ last children = Some gen) then BReady gen else BFollow gen))
      | BReady gen =>
          '(s, b) ← tree_node_add _root_path (bsvc y) c ready_path [] true;
          _ ← SCHECK b;
          Ok (bgoto y s i x (BAlone gen))
      | BAlone gen =>
          '(s, b, children) ← tree_node_sub _root_path (bsvc y) c node_path [];
          _ ← SCHECK b;
          Ok (bgoto y s i x (if decide (length children = 1%nat) then BDelOwn gen else BAlone gen))
      | BDelOwn gen =>
          '(s, b) ← tree_node_del _root_path (bsvc y) c (node_path ++ [slash] ++ gen);
          _ ← SCHECK b;
          Ok (bgoto y s i x BDelReady)
      | BDelReady =>
          '(s, b) ← tree_node_del _root_path (bsvc y) c ready_path;
          _ ← SCHECK b;
          Ok (bleave y s i x)
      | BFollow gen =>
          '(s, b, _) ← tree_node_get _root_path (bsvc y) c ready_path [];
          Ok (bgoto y s i x (if (b : bool) then BLeave gen else BFollow gen))
      | BLeave gen =>
          '(s, b) ← tree_node_del _root_path (bsvc y) c (node_path ++ [slash] ++ gen);
          _ ← SCHECK b;
          Ok (bleave y s i x)
      end
  end.
End program.

(** ** The state *)

(** The name of the child a thread has. *)
Definition bhas (p : bpc) : option str :=
  match p with
  | BSub g | BReady g | BAlone g | BDelOwn g | BFollow g | BLeave g => Some g
  | _ => None
  end.
Definition names (l : list thr) : list str := omap (bhas ∘ th_pc) l.

(** How many of the nodes a thread has made sure of. *)
Definition stage (p : bpc) : nat :=
  match p with BOut | BEnter | BAddBase => 0 | BAddNode => 1 | _ => 2 end.

Lemma names_insert l i x x' :
  l !! i = Some x →
  names l ≡ₚ option_list (bhas (th_pc x)) ++ names (delete i l) ∧
  names (<[i := x']> l) ≡ₚ option_list (bhas (th_pc x')) ++ names (delete i l).
Proof.
  intros Hi. unfold names. revert i Hi. induction l as [|z l IH]; intros [|i] Hi; try done.
  - injection Hi as ->. change (delete 0%nat (x :: l)) with l. change (<[0%nat := x']> (x :: l)) with (x' :: l).
    cbn [omap list_omap compose]. split; [by destruct (bhas (th_pc x))|by destruct (bhas (th_pc x'))].
  - destruct (IH i Hi) as [H1 H2]. change (delete (S i) (z :: l)) with (z :: delete i l).
    change (<[S i := x']> (z :: l)) with (z :: <[i := x']> l). cbn [omap list_omap].
    destruct ((bhas ∘ th_pc) z); [|done]. split; [rewrite H1|rewrite H2]; apply Permutation_middle.
Qed.

Lemma elem_names l k : k ∈ names l ↔ ∃ i x, l !! i = Some x ∧ bhas (th_pc x) = Some k.
Proof.
  unfold names. rewrite list_elem_of_omap. split.
  - intros (x&[i Hi]%list_elem_of_lookup&Hk). eauto.
  - intros (i&x&Hi&Hk). exists x. split; [by eapply list_elem_of_lookup_2|done].
Qed.

Lemma length_names l : (length (names l) ≤ length l)%nat.
Proof. unfold names. induction l as [|x l IH]; cbn; [done|]. destruct (bhas _); cbn; lia. Qed.

(** All threads have a child exactly when there are as many children as threads. *)
Lemma names_full l :
  length (names l) = length l ↔ ∀ i x, l !! i = Some x → is_Some (bhas (th_pc x)).
Proof.
  unfold names. induction l as [|z l IH]; cbn; [split; [by intros _ [] ?|done]|].
  pose proof (length_names l) as Hle. unfold names in Hle. split.
  - destruct (bhas (th_pc z)) eqn:Ez; cbn; [|lia]. intros E [|i] x Hx; [by injection Hx as <-; rewrite Ez|].
    apply IH in Hx; [done|]. cbn in *. lia.
  - intros Hall. destruct (Hall 0%nat z eq_refl) as [g Hg]. rewrite Hg. cbn. f_equal. apply IH.
    intros i x Hi. by apply (Hall (S i)).
Qed.

(** The last of a sorted list is its greatest element. *)
Lemma sorted_last (ks : list str) g :
  StronglySorted str_le ks → last ks = Some g ↔ g ∈ ks ∧ ∀ k, k ∈ ks → str_le k g.
Proof.
  intros Hs. split.
  - intros Hl. apply last_Some in Hl as [l' ->]. split; [set_solver|]. intros k.
    rewrite elem_of_app, list_elem_of_singleton. intros [Hk| ->]; [|apply str_ltb_irrefl].
    apply StronglySorted_app in Hs as (Hs&_&_). apply (Hs k g Hk). set_solver.
  - intros [Hin Hmax]. destruct (last ks) as [h|] eqn:Hl.
    + apply last_Some in Hl as [l' ->]. f_equal. apply (anti_symm str_le).
      * apply Hmax. set_solver.
      * apply StronglySorted_app in Hs as (Hs&_&_). apply elem_of_app in Hin as [Hin|Hin%list_elem_of_singleton].
        { apply Hs; [done|set_solver]. }
        subst. apply str_ltb_irrefl.
    + apply last_None in Hl. subst. set_solver.
Qed.

Section invariant.
Context {S : Type} `{!MasterService S} (root name : str) (number : nat).
Context (Hroot : ∃ p, good_path p ∧ root = p ++ [slash]) (Hsmall : small root) (Hname : name_ok name).

Definition BDIR : str := root ++ PATH_BARRIER.
Definition BASE : str := child BDIR name.
Definition NODE : str := child BASE (lit "node").
Definition READY : str := child BASE (lit "ready").

Lemma lit_keys : name_ok (lit "node") ∧ name_ok (lit "ready") ∧ name_ok PATH_BARRIER.
Proof. clear. split; [|split]; (split; [split; vm_compute; [set_solver|done]|vm_compute; done]). Qed.

Lemma base_eq : root ++ base_path name = BASE.
Proof. unfold base_path. by rewrite path_split. Qed.
Lemma node_eq : root ++ node_path name = NODE.
Proof. unfold node_path. rewrite app_assoc, base_eq. done. Qed.
Lemma ready_eq : root ++ ready_path name = READY.
Proof. unfold ready_path. rewrite app_assoc, base_eq. done. Qed.
Lemma own_eq g : root ++ node_path name ++ [slash] ++ g = child NODE g.
Proof. rewrite app_assoc, node_eq. done. Qed.

Lemma base_ok : path_ok BASE.
Proof. rewrite <- base_eq. apply (key_ok root Hroot Hsmall); [apply lit_keys|done]. Qed.

Lemma below_base_ok k : name_ok k → path_ok (child BASE k).
Proof.
  intros [Hk Hs]. apply path_ok_child; [apply base_ok|done|]. destruct Hname as [_ Hn].
  unfold BASE, child, BDIR, small in *. assert (length PATH_BARRIER = 9%nat) by done. len.
Qed.
Lemma node_ok : path_ok NODE.
Proof. apply below_base_ok, lit_keys. Qed.
Lemma ready_ok : path_ok READY.
Proof. apply below_base_ok, lit_keys. Qed.
Lemma own_ok g : name_ok g → path_ok (child NODE g).
Proof.
  intros [Hk Hs]. apply path_ok_child; [apply node_ok|done|]. destruct Hname as [_ Hn].
  unfold NODE, BASE, child, BDIR, small in *. assert (length PATH_BARRIER = 9%nat) by done.
  assert (length (lit "node") = 4%nat) by done. len.
Qed.

(** The nodes stand for the threads. *)
Record Core (t : tree) (l : list thr) : Prop := {
  co_dir : ∃ v, node t BDIR = Some (None, v);
  co_base : node t BASE = None ∨ ∃ v, node t BASE = Some (None, v);
  co_node : node t NODE = None ∨ ∃ v, node t NODE = Some (None, v);
  co_stage i x : l !! i = Some x →
    ((1 ≤ stage (th_pc x))%nat → is_Some (node t BASE)) ∧ ((2 ≤ stage (th_pc x))%nat → is_Some (node t NODE));
  co_counter : 0 ≤ counter t NODE < 2 ^ 31;
  co_own k : k ∈ names l → ∃ c, node t (child NODE k) = Some (Some c, []);
  co_kids k : slash ∉ k → is_Some (node t (child NODE k)) → k ∈ names l;
  co_gen k : k ∈ names l → ∃ n, k = gen_key n ∧ 0 ≤ n < counter t NODE;
  co_nodup : NoDup (names l);
}.

(** Before [ready] exists in round [r]; and while [leader] holds it. *)
Definition topmost (l : list thr) (g : str) : Prop := ∀ k, k ∈ names l → str_le k g.

Definition gathering (p : bpc) : Prop :=
  match p with
  | BOut | BEnter | BAddBase | BAddNode | BGen | BSub _ | BReady _ | BFollow _ => True
  | _ => False
  end.

Record PhaseA (l : list thr) (r : nat) : Prop := {
  pa_round i x : l !! i = Some x → th_left x = r;
  pa_pc i x : l !! i = Some x → gathering (th_pc x);
  pa_ready i x g : l !! i = Some x → th_pc x = BReady g → length (names l) = length l ∧ topmost l g;
  pa_follow i x g : l !! i = Some x → th_pc x = BFollow g → length (names l) = length l → ¬ topmost l g;
}.

Record PhaseB (l : list thr) (r j : nat) (z : thr) : Prop := {
  pb_leader : l !! j = Some z;
  pb_left : th_left z = r;
  pb_pc : match th_pc z with
    | BAlone g => topmost l g
    | BDelOwn g => names l = [g]
    | BDelReady => names l = []
    | _ => False
    end;
  pb_others i x : l !! i = Some x → i ≠ j →
    match th_pc x with
    | BSub _ | BFollow _ | BLeave _ => th_left x = r
    | BOut | BEnter => th_left x = Datatypes.S r
    | _ => False
    end;
}.

Definition Phase (t : tree) (l : list thr) : Prop :=
  node t READY = None ∧ (∃ r, PhaseA l r) ∨
  ∃ r j z, node t READY = Some (Some (th_sock z), []) ∧ PhaseB l r j z.

Record BInv (y : barrier_sys S) : Prop := {
  bi_live : live (bsvc y);
  bi_number : length (bthreads y) = number;
  bi_core : Core (ms_view (bsvc y)) (bthreads y);
  bi_phase : Phase (ms_view (bsvc y)) (bthreads y);
}.

(** *** The nodes are different *)
Lemma dir_base : BDIR ≠ BASE.
Proof. intros E. symmetry in E. by apply child_ne in E. Qed.
Lemma base_node : BASE ≠ NODE.
Proof. intros E. symmetry in E. by apply child_ne in E. Qed.
Lemma base_ready : BASE ≠ READY.
Proof. intros E. symmetry in E. by apply child_ne in E. Qed.
Lemma node_ready : NODE ≠ READY.
Proof. intros E. apply (f_equal length) in E. unfold NODE, READY, child in E. autorewrite with prpc_len in E. cbn in E. lia. Qed.
Lemma dir_below k : BDIR ≠ child BASE k.
Proof. intros E. apply (f_equal length) in E. unfold BASE, child in E. len. Qed.
Lemma own_ne k : child NODE k ≠ NODE ∧ child NODE k ≠ BASE ∧ child NODE k ≠ BDIR.
Proof.
  split; [apply child_ne|]. split; intros E; apply (f_equal length) in E; unfold NODE, BASE, child in E; len.
Qed.
Lemma own_ready k : slash ∉ k → child NODE k ≠ READY.
Proof.
  intros Hk E. symmetry in E. apply child_depth in E; [done|apply lit_keys|done].
Qed.

(** The part of the tree the barrier uses. *)
Definition part (q : str) : Prop := q = BDIR ∨ q = BASE ∨ under BASE q.
Definition same_part (t t' : tree) : Prop := ∀ q, part q → node t' q = node t q ∧ counter t' q = counter t q.

Lemma part_dir : part BDIR.
Proof. by left. Qed.
Lemma part_base : part BASE.
Proof. by right; left. Qed.
Lemma part_below q : under BASE q → part q.
Proof. by right; right. Qed.
#[local] Hint Resolve part_dir part_base part_below : core.

Lemma core_part t t' l : Core t l → same_part t t' → Core t' l.
Proof.
  intros [] Hs. assert (Hn : ∀ q, part q → node t' q = node t q) by (intros q Hq; by apply Hs).
  assert (Hnode : part NODE) by (apply part_below, under_child).
  assert (Hkid : ∀ k, part (child NODE k)) by (intros k; apply part_below, under_grandchild, under_child).
  split; rewrite ?Hn, ?(proj2 (Hs NODE Hnode)) by auto; try done.
  - intros k. rewrite Hn by auto. auto.
  - intros k. rewrite Hn by auto. auto.
Qed.

Lemma phase_part t t' l : Phase t l → same_part t t' → Phase t' l.
Proof.
  intros HP Hs. unfold Phase. by rewrite (proj1 (Hs READY (part_below _ (under_child _ _)))).
Qed.

(** *** Children and names *)
Lemma sub_names t l :
  Core t l → is_Some (node t NODE) →
  ∃ ks, t_sub t NODE [] = (true, ks) ∧ ks ≡ₚ names l ∧ StronglySorted str_le ks.
Proof.
  intros Hc [v Hv]. unfold t_sub. rewrite Hv. eexists. split; [done|]. split; [|apply in_order_sorted].
  unfold in_order. rewrite merge_sort_Permutation. apply NoDup_Permutation; [apply NoDup_elements|apply Hc|].
  intros k. rewrite elem_of_elements, elem_children by apply slash_child. split.
  - intros [Hk Hs]. by apply (co_kids _ _ Hc).
  - intros Hk. destruct (co_gen _ _ Hc k Hk) as (n&->&_). split; [apply gen_key_good|].
    destruct (co_own _ _ Hc _ Hk) as [c ->]. by eexists.
Qed.

(** *** What the calls do to the nodes *)
Lemma core_threads t l l' :
  Core t l → names l' ≡ₚ names l →
  (∀ i x, l' !! i = Some x →
    ((1 ≤ stage (th_pc x))%nat → is_Some (node t BASE)) ∧ ((2 ≤ stage (th_pc x))%nat → is_Some (node t NODE))) →
  Core t l'.
Proof.
  intros [] Hp Hst. split; try done; try (intros k; rewrite Hp; auto). by rewrite Hp.
Qed.

Lemma stage_insert t (l : list thr) (i : nat) (x' : thr) :
  (∀ j x, l !! j = Some x →
    ((1 ≤ stage (th_pc x))%nat → is_Some (node t BASE)) ∧ ((2 ≤ stage (th_pc x))%nat → is_Some (node t NODE))) →
  ((1 ≤ stage (th_pc x'))%nat → is_Some (node t BASE)) → ((2 ≤ stage (th_pc x'))%nat → is_Some (node t NODE)) →
  ∀ j x, <[i := x']> l !! j = Some x →
    ((1 ≤ stage (th_pc x))%nat → is_Some (node t BASE)) ∧ ((2 ≤ stage (th_pc x))%nat → is_Some (node t NODE)).
Proof. intros Hl H1 H2 j x [(->&<-&_)|[_ Hj]]%list_lookup_insert_Some; eauto. Qed.

Lemma core_move t l i x x' :
  Core t l → l !! i = Some x → bhas (th_pc x') = bhas (th_pc x) →
  ((1 ≤ stage (th_pc x'))%nat → is_Some (node t BASE)) → ((2 ≤ stage (th_pc x'))%nat → is_Some (node t NODE)) →
  Core t (<[i := x']> l).
Proof.
  intros Hc Hi Hh H1 H2. eapply core_threads; [done| |by apply stage_insert; [apply Hc|..]].
  destruct (names_insert l i x x' Hi) as [E1 E2]. by rewrite E1, E2, Hh.
Qed.

Lemma parent_base : parent_of BASE = BDIR.
Proof. apply parent_child, Hname. Qed.
Lemma parent_node : parent_of NODE = BASE ∧ parent_of READY = BASE.
Proof. split; apply parent_child, lit_keys. Qed.

(** A permanent node is added unless it is there. *)
Lemma add_permanent t c p v :
  node t (parent_of p) = Some (None, v) → (node t p = None ∨ ∃ w, node t p = Some (None, w)) →
  let t' := (t_add t c p [] false).1 in
  (∃ w, node t' p = Some (None, w)) ∧ (∀ q, q ≠ p → node t' q = node t q) ∧ (∀ q, counter t' q = counter t q).
Proof.
  intros Hpar [Hp|[w Hp]] t'; unfold t'.
  - rewrite (add_new t c p [] false v) by done. cbn [fst]. split; [|split; [|done]].
    + rewrite node_insert, decide_True by done. by eexists.
    + intros q Hq. by rewrite node_insert, decide_False.
  - rewrite add_old by by rewrite Hp. by split; [exists w|].
Qed.

Lemma core_add_base t l c :
  Core t l → let t' := (t_add t c BASE [] false).1 in
  Core t' l ∧ is_Some (node t' BASE) ∧ node t' READY = node t READY.
Proof.
  intros Hc t'. destruct (co_dir _ _ Hc) as [v Hv].
  destruct (add_permanent t c BASE v) as ([w Hw]&Ho&Hcnt); [by rewrite parent_base|apply Hc|]. fold t' in Hw, Ho, Hcnt.
  pose proof (base_node : BASE ≠ NODE) as N1. pose proof (base_ready : BASE ≠ READY) as N2.
  split; [|split; [by rewrite Hw|by apply Ho]]. destruct Hc. split; rewrite ?Hcnt, ?Ho by done; try done.
  - by rewrite Ho by apply dir_base.
  - right. by exists w.
  - intros i x Hi. rewrite Hw, Ho by done. split; [by eexists|]. by apply (co_stage0 i x).
  - intros k. rewrite Ho by apply own_ne. auto.
  - intros k. rewrite Ho by apply own_ne. auto.
Qed.

Lemma core_add_node t l c :
  Core t l → is_Some (node t BASE) → let t' := (t_add t c NODE [] false).1 in
  Core t' l ∧ is_Some (node t' BASE) ∧ is_Some (node t' NODE) ∧ node t' READY = node t READY.
Proof.
  intros Hc Hb t'. assert (∃ v, node t BASE = Some (None, v)) as [v Hv].
  { destruct (co_base _ _ Hc) as [E|?]; [|done]. rewrite E in Hb. by destruct Hb. }
  destruct (add_permanent t c NODE v) as ([w Hw]&Ho&Hcnt); [by rewrite (proj1 parent_node)|apply Hc|].
  fold t' in Hw, Ho, Hcnt. pose proof (base_node : BASE ≠ NODE) as N1. pose proof (node_ready : NODE ≠ READY) as N2.
  split; [|split; [by rewrite Ho by done|split; [by rewrite Hw|by rewrite Ho by done]]].
  destruct Hc. split; rewrite ?Hcnt, ?Ho by done; try done.
  - by rewrite Ho by apply dir_below.
  - right. by exists w.
  - intros k. rewrite Ho by apply own_ne. auto.
  - intros k. rewrite Ho by apply own_ne. auto.
Qed.

Lemma node_permanent t l : Core t l → is_Some (node t NODE) → ∃ v, node t NODE = Some (None, v).
Proof. intros Hc Hn. destruct (co_node _ _ Hc) as [E|?]; [|done]. rewrite E in Hn. by destruct Hn. Qed.

Lemma core_gen t l i x :
  let n := counter t NODE in let g := gen_key n in let x' := Thr (th_sock x) (BSub g) (th_left x) in
  Core t l → l !! i = Some x → th_pc x = BGen → n < 2 ^ 31 - 1 →
  let r := t_new t (th_sock x) NODE [] true in
  r.2 = g ∧ Core r.1 (<[i := x']> l) ∧ node r.1 READY = node t READY ∧ (∀ k, k ∈ names l → str_le k g ∧ k ≠ g).
Proof.
  intros n g x' Hc Hi Hpc Hn r. destruct (co_stage _ _ Hc i x Hi) as [_ Hst].
  destruct (node_permanent t l Hc) as [v Hv]; [apply Hst; rewrite Hpc; cbn; lia|].
  pose proof (gen_key_good n) as Hgood. pose proof Hgood as [Hgsl _].
  pose proof (co_counter _ _ Hc) as H0.
  assert (Hold : ∀ k, k ∈ names l → str_le k g ∧ k ≠ g).
  { intros k Hk. destruct (co_gen _ _ Hc k Hk) as (m&->&Hm). split.
    - apply str_ltb_asym, gen_key_lt; unfold n in *; lia.
    - intros E. apply gen_key_inj in E; unfold n in *; lia. }
  assert (Hfree : node t (child NODE g) = None).
  { apply eq_None_not_Some. intros Hs. apply (co_kids _ _ Hc) in Hs; [|done]. by apply Hold in Hs as [_ ?]. }
  assert (Hr : r = (Tree (<[child NODE g := (Some (th_sock x), [])]> (t_nodes t)) (<[NODE := n + 1]> (t_gen t)), g)).
  { unfold r, t_new. rewrite Hv. cbn zeta. fold n. fold g. rewrite Hfree.
    rewrite swrap_small; [done|lia|unfold in_signed, n in *; lia]. }
  rewrite Hr. cbn [fst snd]. destruct (own_ne g) as (N1&N2&N3).
  assert (Hnode : ∀ q, q ≠ child NODE g → node r.1 q = node t q)
    by (intros q Hq; rewrite Hr; cbn [fst]; by rewrite node_insert, decide_False).
  rewrite Hr in Hnode. cbn [fst] in Hnode. set (t' := Tree _ _) in *.
  assert (Hcnt : counter t' NODE = n + 1) by (unfold t', counter; cbn [t_gen]; by rewrite lookup_insert_eq).
  assert (Hg : node t' (child NODE g) = Some (Some (th_sock x), [])) by (unfold t'; by rewrite node_insert, decide_True).
  assert (E2 : names (<[i := x']> l) ≡ₚ g :: names l).
  { destruct (names_insert l i x x' Hi) as [E1 E2]. rewrite Hpc in E1. rewrite E2. symmetry. by apply Permutation_cons. }
  split; [done|]. split; [|split; [by rewrite Hnode by (intros E; symmetry in E; by apply own_ready in E)|done]].
  split; rewrite ?Hcnt.
  - rewrite Hnode by done. apply Hc.
  - rewrite Hnode by done. apply Hc.
  - rewrite Hnode by done. apply Hc.
  - intros j z Hj. rewrite !Hnode by done. revert j z Hj. apply stage_insert; [apply Hc| |]; cbn; intros _.
    + destruct (co_stage _ _ Hc i x Hi) as [Hb _]. apply Hb. rewrite Hpc. cbn. lia.
    + by rewrite Hv.
  - unfold n in *. lia.
  - intros k. rewrite E2, elem_of_cons. intros [->|Hk]; [eauto|].
    rewrite Hnode; [by apply (co_own _ _ Hc)|]. destruct (Hold k Hk) as [_ Hne].
    intros E. destruct (co_gen _ _ Hc k Hk) as (m&->&_). apply child_inj in E as [_ ?]; [done|apply gen_key_good|done].
  - intros k Hk. rewrite E2, elem_of_cons. destruct (decide (k = g)) as [|Hne]; [by left|].
    rewrite Hnode by (by intros [_ ?]%child_inj). right. by apply (co_kids _ _ Hc).
  - intros k. rewrite E2, elem_of_cons. intros [->|Hk]; [exists n; unfold n in *; split; [done|lia]|].
    destruct (co_gen _ _ Hc k Hk) as (m&->&Hm). exists m. split; [done|]. unfold n in *. lia.
  - rewrite E2. apply NoDup_cons. split; [|apply Hc]. intros Hk. by apply Hold in Hk as [_ ?].
Qed.

Lemma core_del t l i x x' k :
  Core t l → tree_ok t → l !! i = Some x → bhas (th_pc x) = Some k → bhas (th_pc x') = None →
  let r := t_del t (child NODE k) in
  r.2 = true ∧ Core r.1 (<[i := x']> l) ∧ node r.1 READY = node t READY.
Proof.
  intros Hc Ht Hi Hk Hk' r. assert (Hin : k ∈ names l) by (apply elem_names; eauto).
  destruct (co_own _ _ Hc k Hin) as [c Hown]. destruct (co_gen _ _ Hc k Hin) as (n&Hgen&_).
  assert (Hsl : slash ∉ k) by (rewrite Hgen; apply gen_key_good).
  assert (Hr : r = (Tree (delete (child NODE k) (t_nodes t)) (delete (child NODE k) (t_gen t)), true)).
  { unfold r, t_del. rewrite Hown, decide_True; [done|].
    apply (ephemeral_childless _ _ c); [done|apply slash_child|]. unfold own. unfold node in Hown. by rewrite Hown. }
  rewrite Hr. cbn [fst snd]. destruct (own_ne k) as (N1&N2&N3). set (t' := Tree _ _).
  assert (Hnode : ∀ q, q ≠ child NODE k → node t' q = node t q)
    by (intros q Hq; unfold t'; by rewrite node_delete, decide_False).
  assert (Hcnt : counter t' NODE = counter t NODE)
    by (unfold t', counter; cbn [t_gen]; by rewrite lookup_delete_ne).
  assert (Hgone : node t' (child NODE k) = None) by (unfold t'; by rewrite node_delete, decide_True).
  destruct (names_insert l i x x' Hi) as [E1 E2]. rewrite Hk in E1. rewrite Hk' in E2. cbn [option_list app] in E1, E2.
  rewrite <- E2 in E1. assert (Hnd : NoDup (k :: names (<[i := x']> l))) by (rewrite <- E1; apply Hc).
  apply NoDup_cons in Hnd as [Hknot Hnd].
  assert (Hsub : ∀ h, h ∈ names (<[i := x']> l) → h ∈ names l ∧ h ≠ k)
    by (intros h Hh; split; [rewrite E1; by right|by intros ->]).
  split; [done|]. split; [|by rewrite Hnode by (intros E; symmetry in E; by apply own_ready in E)].
  split; rewrite ?Hcnt; rewrite ?Hnode by done; try apply Hc; try done.
  - apply stage_insert; [apply Hc| |]; cbn.
    + intros _. destruct (co_stage _ _ Hc i x Hi) as [Hb _]. apply Hb. by destruct (th_pc x); cbn; try done; lia.
    + intros _. destruct (co_stage _ _ Hc i x Hi) as [_ Hb]. apply Hb. by destruct (th_pc x); cbn; try done; lia.
  - intros h [Hh Hne]%Hsub. rewrite Hnode; [by apply (co_own _ _ Hc)|].
    destruct (co_gen _ _ Hc h Hh) as (m&->&_). intros [_ ?]%child_inj; [done|apply gen_key_good|done].
  - intros h Hh. destruct (decide (h = k)) as [->|Hne]; [rewrite Hgone; by intros [? ?]|].
    rewrite Hnode by (by intros [_ ?]%child_inj). intros Hs. apply (co_kids _ _ Hc) in Hs; [|done].
    rewrite E1 in Hs. by apply elem_of_cons in Hs as [?|?].
  - intros h [Hh _]%Hsub. by apply Hc.
Qed.

Lemma core_ready t t' l :
  Core t l → (∀ q, q ≠ READY → node t' q = node t q ∧ counter t' q = counter t q) → Core t' l.
Proof.
  intros Hc Hs. pose proof (base_ready : BASE ≠ READY) as N1. pose proof (node_ready : NODE ≠ READY) as N2.
  destruct Hc. split; rewrite ?(proj1 (Hs NODE N2)), ?(proj1 (Hs BASE N1)), ?(proj2 (Hs NODE N2)); try done.
  - by rewrite (proj1 (Hs _ (dir_below _))).
  - intros k Hk. destruct (co_gen0 k Hk) as (n&Hgen&_).
    assert (Hsl : slash ∉ k) by (rewrite Hgen; apply gen_key_good).
    rewrite (proj1 (Hs (child NODE k) (own_ready _ Hsl))). auto.
  - intros k Hk. rewrite (proj1 (Hs (child NODE k) (own_ready _ Hk))). auto.
Qed.

(** *** The phases *)
Lemma names_inj l i j x z k :
  NoDup (names l) → l !! i = Some x → l !! j = Some z → bhas (th_pc x) = Some k → bhas (th_pc z) = Some k → i = j.
Proof.
  intros Hnd Hi Hj Hx Hz. destruct (decide (i = j)) as [|Hne]; [done|]. exfalso.
  destruct (names_insert l i x (Thr 0 BOut 0) Hi) as [E1 E2]. rewrite Hx in E1. cbn in E1, E2.
  rewrite <- E2 in E1. rewrite E1 in Hnd. apply NoDup_cons in Hnd as [Hk _]. apply Hk.
  apply elem_names. exists j, z. by rewrite list_lookup_insert_ne.
Qed.

Lemma names_same l i x x' :
  l !! i = Some x → bhas (th_pc x') = bhas (th_pc x) → names (<[i := x']> l) ≡ₚ names l.
Proof. intros Hi Hb. destruct (names_insert l i x x' Hi) as [E1 E2]. by rewrite E1, E2, Hb. Qed.

Lemma topmost_perm l l' g : names l' ≡ₚ names l → topmost l g ↔ topmost l' g.
Proof. intros E. unfold topmost. by setoid_rewrite E. Qed.

Lemma phaseA_move l r i x x' :
  PhaseA l r → l !! i = Some x → bhas (th_pc x') = bhas (th_pc x) → th_left x' = r → gathering (th_pc x') →
  (∀ g, th_pc x' = BReady g → length (names l) = length l ∧ topmost l g) →
  (∀ g, th_pc x' = BFollow g → length (names l) = length l → ¬ topmost l g) →
  PhaseA (<[i := x']> l) r.
Proof.
  intros [] Hi Hb Hl Hg Hr Hf. pose proof (names_same l i x x' Hi Hb) as E.
  split.
  - intros j z. rewrite list_lookup_insert_Some. intros [(->&<-&_)|[_ Hj]]; eauto.
  - intros j z. rewrite list_lookup_insert_Some. intros [(->&<-&_)|[_ Hj]]; eauto.
  - intros j z g. rewrite list_lookup_insert_Some, E, length_insert, <- (topmost_perm l _ g E).
    intros [(->&<-&_)|[_ Hj]]; eauto.
  - intros j z g. rewrite list_lookup_insert_Some, E, length_insert, <- (topmost_perm l _ g E).
    intros [(->&<-&_)|[_ Hj]]; eauto.
Qed.

Lemma phaseB_move l r j z i x x' :
  PhaseB l r j z → l !! i = Some x → i ≠ j → bhas (th_pc x') = bhas (th_pc x) →
  match th_pc x' with
  | BSub _ | BFollow _ | BLeave _ => th_left x' = r
  | BOut | BEnter => th_left x' = Datatypes.S r
  | _ => False
  end →
  PhaseB (<[i := x']> l) r j z.
Proof.
  intros [] Hi Hij Hb Ho. pose proof (names_same l i x x' Hi Hb) as E. split; [|done| |].
  - by rewrite list_lookup_insert_ne.
  - destruct (th_pc z); try done.
    + by rewrite <- (topmost_perm l).
    + rewrite pb_pc0 in E. by apply Permutation_singleton_r in E.
    + rewrite pb_pc0 in E. by apply Permutation_nil_r in E.
  - intros k w. rewrite list_lookup_insert_Some. intros [(->&<-&_)|[_ Hk]]; [intros _; exact Ho|by apply pb_others0].
Qed.

(** A thread with a child that does not lead. *)
Lemma phaseB_child l r j z i x g :
  NoDup (names l) → PhaseB l r j z → l !! i = Some x → bhas (th_pc x) = Some g → i ≠ j →
  ∃ h, th_pc z = BAlone h ∧ topmost l h ∧ h ≠ g ∧ h ∈ names l.
Proof.
  intros Hnd [] Hi Hg Hij. assert (Hin : g ∈ names l) by (apply elem_names; eauto).
  destruct (th_pc z) as [| | | | | | |h|h| | |] eqn:Hz; try done.
  - exists h. assert (h ∈ names l) by (apply elem_names; exists j, z; by rewrite Hz).
    split; [done|]. split; [done|]. split; [|done]. intros ->. apply Hij.
    eapply (names_inj l); [done|exact Hi|done|done|]. by rewrite Hz.
  - exfalso. rewrite pb_pc0 in Hin. apply list_elem_of_singleton in Hin as ->. apply Hij.
    eapply (names_inj l); [done|exact Hi|done|done|]. by rewrite Hz.
  - rewrite pb_pc0 in Hin. by apply not_elem_of_nil in Hin.
Qed.

Lemma phaseA_gen l r i x g c d :
  PhaseA l r → l !! i = Some x → th_pc x = BGen → (∀ k, k ∈ names l → str_le k g ∧ k ≠ g) → d = r →
  PhaseA (<[i := Thr c (BSub g) d]> l) r.
Proof.
  intros [] Hi Hpc Hg ->.
  destruct (names_insert l i x (Thr c (BSub g) r) Hi) as [E1 E2]. rewrite Hpc in E1. cbn in E1, E2. rewrite <- E1 in E2.
  split.
  - intros j z. rewrite list_lookup_insert_Some. intros [(->&<-&_)|[_ Hj]]; eauto.
  - intros j z. rewrite list_lookup_insert_Some. intros [(->&<-&_)|[_ Hj]]; [done|eauto].
  - intros j z h. rewrite list_lookup_insert_Some. intros [(->&<-&_)|[_ Hj]]; [done|]. intros Hz.
    destruct (pa_ready0 j z h Hj Hz) as [Hfull _]. rewrite names_full in Hfull.
    destruct (Hfull i x Hi) as [? Hs]. by rewrite Hpc in Hs.
  - intros j z h. rewrite list_lookup_insert_Some. intros [(->&<-&_)|[_ Hj]]; [done|]. intros Hz _ Htop.
    assert (Hh : h ∈ names l) by (apply elem_names; exists j, z; by rewrite Hz).
    destruct (Hg h Hh) as [H1 H2]. apply H2. apply (anti_symm str_le); [done|]. apply Htop. rewrite E2. left.
Qed.

Lemma phaseB_start l r i x g c :
  NoDup (names l) → PhaseA l r → l !! i = Some x → th_pc x = BReady g →
  PhaseB (<[i := Thr c (BAlone g) (th_left x)]> l) r i (Thr c (BAlone g) (th_left x)).
Proof.
  intros Hnd [] Hi Hpc. destruct (pa_ready0 i x g Hi Hpc) as [Hfull Htop].
  assert (E : names (<[i := Thr c (BAlone g) (th_left x)]> l) ≡ₚ names l)
    by (apply (names_same l i x); [done|by rewrite Hpc]).
  split; cbn.
  - apply list_lookup_insert_eq. by eapply lookup_lt_Some.
  - eauto.
  - by rewrite <- (topmost_perm l).
  - intros j z. rewrite list_lookup_insert_Some. intros [(->&_)|[Hne Hj]] Hij; [done|].
    rewrite names_full in Hfull. destruct (Hfull j z Hj) as [h Hh]. pose proof (pa_pc0 j z Hj) as Hga.
    destruct (th_pc z) eqn:Hz; try done; eauto. exfalso. cbn in Hh. injection Hh as ->.
    destruct (pa_ready0 j z h Hj Hz) as [_ Htop']. apply Hne. apply (names_inj l i j x z g); try done.
    + by rewrite Hpc.
    + rewrite Hz. cbn. f_equal. apply (anti_symm str_le); [apply Htop|apply Htop'];
        apply elem_names; [exists j, z; by rewrite Hz|exists i, x; by rewrite Hpc].
Qed.

Lemma phaseB_leave l r j z i x g c d :
  NoDup (names l) → PhaseB l r j z → l !! i = Some x → th_pc x = BLeave g → i ≠ j → d = Datatypes.S r →
  PhaseB (<[i := Thr c BOut d]> l) r j z.
Proof.
  intros Hnd HB Hi Hpc Hij ->.
  destruct (phaseB_child l r j z i x g Hnd HB Hi) as (h&Hz&Htop&_&_); [by rewrite Hpc|done|].
  destruct (names_insert l i x (Thr c BOut (Datatypes.S r)) Hi) as [E1 E2]. rewrite Hpc in E1. cbn in E1, E2.
  rewrite <- E2 in E1. destruct HB. split; [by rewrite list_lookup_insert_ne|done| |].
  - rewrite Hz. intros k Hk. apply Htop. rewrite E1. by right.
  - intros k w. rewrite list_lookup_insert_Some. intros [(->&<-&_)|[_ Hk]]; [done|by apply pb_others0].
Qed.

Lemma phaseB_done l r j z c :
  PhaseB l r j z → th_pc z = BDelReady → PhaseA (<[j := Thr c BOut (Datatypes.S r)]> l) (Datatypes.S r).
Proof.
  intros [] Hz. rewrite Hz in pb_pc0.
  assert (Ho : ∀ i x, <[j := Thr c BOut (Datatypes.S r)]> l !! i = Some x →
    (th_pc x = BOut ∨ th_pc x = BEnter) ∧ th_left x = Datatypes.S r).
  { intros i x. rewrite list_lookup_insert_Some. intros [(->&<-&_)|[Hne Hi]]; [cbn; auto|].
    specialize (pb_others0 i x Hi ltac:(done)).
    assert (Hno : ∀ g, bhas (th_pc x) ≠ Some g).
    { intros g Hg. assert (g ∈ names l) as Hin by (apply elem_names; eauto). rewrite pb_pc0 in Hin.
      by apply not_elem_of_nil in Hin. }
    destruct (th_pc x); try done; auto; by destruct (Hno gen). }
  split; intros i x; [| |intros g|intros g]; intros Hi; destruct (Ho i x Hi) as [[Hp|Hp] Hl]; rewrite ?Hp; done.
Qed.

(** *** The steps *)
Definition broom (y : barrier_sys S) : Prop := counter (ms_view (bsvc y)) NODE < 2 ^ 31 - 1.

Section step.
Context (y : barrier_sys S) (i : nat) (x : thr) (Hy : BInv y) (Hi : bthreads y !! i = Some x).
Let l := bthreads y.
Let t := ms_view (bsvc y).

(** The thread moves, the tree of the barrier stays. *)
Lemma step_same s p :
  live s → ms_view s = t → bhas p = bhas (th_pc x) → (stage p ≤ stage (th_pc x))%nat →
  Phase t (<[i := Thr (th_sock x) p (th_left x)]> l) → BInv (bgoto y s i x p).
Proof.
  intros Hs Hv Hh Hst HP. split; cbn [bgoto bsvc bthreads]; rewrite ?length_insert, ?Hv; [done|apply Hy| |done].
  destruct (co_stage _ _ (bi_core _ Hy) i x Hi). eapply (core_move _ _ _ x); [apply Hy|done|done|cbn; intros; auto with lia..].
Qed.

Lemma stay p : th_pc x = p → <[i := Thr (th_sock x) p (th_left x)]> l = l.
Proof. intros <-. apply list_insert_id. unfold l. rewrite Hi. by destruct x. Qed.

(** Whether [ready] exists, as a thread reads it. *)
Lemma read_ready c :
  ∃ s, tree_node_get root (bsvc y) c (ready_path name) [] =
      Ok (s, (t_get t READY []).1, (t_get t READY []).2) ∧ live s ∧ ms_view s = t.
Proof.
  destruct (tree_node_get_eq root (bsvc y) c (ready_path name) [] (bi_live _ Hy)) as (s&->&Hs&Hv);
    [rewrite ready_eq; apply ready_ok|done|]. rewrite ready_eq. eauto.
Qed.

(** The children, as a thread reads them. *)
Lemma read_children c :
  (2 ≤ stage (th_pc x))%nat →
  ∃ s ks, tree_node_sub root (bsvc y) c (node_path name) [] = Ok (s, true, ks) ∧ live s ∧ ms_view s = t ∧
    ks ≡ₚ names l ∧ StronglySorted str_le ks.
Proof.
  intros Hst. destruct (co_stage _ _ (bi_core _ Hy) i x Hi) as [_ Hn].
  destruct (sub_names t l (bi_core _ Hy) (Hn Hst)) as (ks&Hks&Hp&Hsort).
  destruct (tree_node_sub_eq root (bsvc y) c (node_path name) [] (bi_live _ Hy)) as (s&->&Hs&Hv);
    [rewrite node_eq; apply node_ok|]. rewrite node_eq. fold t. rewrite Hks. eauto 10.
Qed.

(** Which phase a thread's position belongs to. *)
Lemma phase_a :
  match th_pc x with BAddBase | BAddNode | BGen | BReady _ => True | _ => False end →
  ∃ r, node t READY = None ∧ PhaseA l r.
Proof.
  intros Hpc. destruct (bi_phase _ Hy) as [[HR [r HA]]|(r&j&z&HR&HB)]; [by exists r|]. exfalso.
  destruct (decide (i = j)) as [->|Hij].
  - pose proof (pb_leader _ _ _ _ HB) as Hj. assert (x = z) as <- by (unfold l in *; congruence).
    pose proof (pb_pc _ _ _ _ HB) as Hp. by destruct (th_pc x).
  - pose proof (pb_others _ _ _ _ HB i x Hi Hij) as Ho. by destruct (th_pc x).
Qed.

Lemma phase_b :
  match th_pc x with BAlone _ | BDelOwn _ | BDelReady => True | _ => False end →
  ∃ r, node t READY = Some (Some (th_sock x), []) ∧ PhaseB l r i x.
Proof.
  intros Hpc. destruct (bi_phase _ Hy) as [[HR [r HA]]|(r&j&z&HR&HB)].
  - pose proof (pa_pc _ _ HA i x Hi) as Hg. by destruct (th_pc x).
  - destruct (decide (i = j)) as [->|Hij].
    + pose proof (pb_leader _ _ _ _ HB) as Hj. assert (x = z) as <- by (unfold l in *; congruence). by exists r.
    + pose proof (pb_others _ _ _ _ HB i x Hi Hij) as Ho. by destruct (th_pc x).
Qed.

(** A follower is not the leader. *)
Lemma not_leader r j z :
  PhaseB l r j z → match th_pc x with BAlone _ | BDelOwn _ | BDelReady => False | _ => True end → i ≠ j.
Proof.
  intros HB Hpc ->. pose proof (pb_leader _ _ _ _ HB) as Hj. assert (x = z) as <- by (unfold l in *; congruence).
  pose proof (pb_pc _ _ _ _ HB) as Hp. by destruct (th_pc x).
Qed.
Lemma step_out : th_pc x = BOut → BInv (bgoto y (bsvc y) i x BEnter).
Proof.
  intros Hpc. apply step_same; [apply Hy|done|by rewrite Hpc|by rewrite Hpc|].
  destruct (bi_phase _ Hy) as [[HR [r HA]]|(r&j&z&HR&HB)]; [left|right].
  - split; [done|]. exists r. eapply (phaseA_move l r i x); try done; [by rewrite Hpc|exact (pa_round _ _ HA i x Hi)].
  - exists r, j, z. split; [done|]. assert (i ≠ j) by (eapply not_leader; [exact HB|by rewrite Hpc]).
    eapply (phaseB_move l r j z i x); [done|done|done|by rewrite Hpc|]. cbn.
    pose proof (pb_others _ _ _ _ HB i x Hi ltac:(done)) as Ho. by rewrite Hpc in Ho.
Qed.


Definition steps : Prop := ∃ y', barrier_step root name number y i = Ok y' ∧ BInv y'.

Ltac begin_step Hpc := unfold steps, barrier_step; rewrite Hi, Hpc; cbn zeta.

Lemma step_enter : th_pc x = BEnter → steps.
Proof.
  intros Hpc. begin_step Hpc. destruct (read_ready (th_sock x)) as (s&->&Hs&Hv). step_ok.
  eexists. split; [done|]. unfold t_get.
  destruct (bi_phase _ Hy) as [[HR [r HA]]|(r&j&z&HR&HB)]; fold t in HR; rewrite HR; cbn [fst].
  - apply step_same; [done|done|by rewrite Hpc|by rewrite Hpc|]. left. split; [done|]. exists r.
    eapply (phaseA_move l r i x); try done; [by rewrite Hpc|exact (pa_round _ _ HA i x Hi)].
  - apply step_same; [done|done|by rewrite Hpc|by rewrite Hpc|]. rewrite stay by done. apply Hy.
Qed.

(** A call that only adds permanent nodes. *)
Lemma step_add_any s p t' r :
  live s → ms_view s = t' → PhaseA l r → node t READY = None → node t' READY = node t READY →
  Core t' l → bhas (th_pc x) = None → bhas p = None → gathering p →
  ((1 ≤ stage p)%nat → is_Some (node t' BASE)) → ((2 ≤ stage p)%nat → is_Some (node t' NODE)) →
  BInv (bgoto y s i x p).
Proof.
  intros Hs <- HA HR HR' Hc Hx Hp Hg H1 H2. split; cbn [bgoto bsvc bthreads].
  - done.
  - rewrite length_insert. apply Hy.
  - eapply (core_move _ _ _ x); [done|done|by rewrite Hx|done|done].
  - left. split; [by rewrite HR'|]. exists r. eapply (phaseA_move l r i x); try done.
    + by rewrite Hx.
    + exact (pa_round _ _ HA i x Hi).
    + intros g. cbn. intros ->. done.
    + intros g. cbn. intros ->. done.
Qed.

Lemma step_base : th_pc x = BAddBase → steps.
Proof.
  intros Hpc. begin_step Hpc. destruct phase_a as (r&HR&HA); [by rewrite Hpc|].
  destruct (tree_node_add_eq root (bsvc y) (th_sock x) (base_path name) [] false (bi_live _ Hy)) as (s&->&Hs&Hv);
    [rewrite base_eq; apply base_ok|done|]. step_ok. rewrite base_eq in Hv. fold t in Hv.
  destruct (core_add_base t l (th_sock x) (bi_core _ Hy)) as (Hc&Hb&HR').
  eexists. split; [done|]. eapply step_add_any; try done; [by rewrite Hpc|cbn; lia].
Qed.

Lemma step_node : th_pc x = BAddNode → steps.
Proof.
  intros Hpc. begin_step Hpc. destruct phase_a as (r&HR&HA); [by rewrite Hpc|].
  destruct (tree_node_add_eq root (bsvc y) (th_sock x) (node_path name) [] false (bi_live _ Hy)) as (s&->&Hs&Hv);
    [rewrite node_eq; apply node_ok|done|]. step_ok. rewrite node_eq in Hv. fold t in Hv.
  destruct (co_stage _ _ (bi_core _ Hy) i x Hi) as [Hb _].
  destruct (core_add_node t l (th_sock x) (bi_core _ Hy)) as (Hc&Hb'&Hn&HR').
  { apply Hb. rewrite Hpc. cbn. lia. }
  eexists. split; [done|]. eapply step_add_any; try done. by rewrite Hpc.
Qed.

Lemma step_gen : th_pc x = BGen → broom y → steps.
Proof.
  intros Hpc Hroom. begin_step Hpc. destruct phase_a as (r&HR&HA); [by rewrite Hpc|].
  pose proof (co_counter _ _ (bi_core _ Hy)) as H0. unfold broom in Hroom. fold t in Hroom, H0.
  destruct (tree_node_gen_eq root (bsvc y) (th_sock x) (node_path name) [] true (bi_live _ Hy)) as (s&->&Hs&Hv);
    [rewrite node_eq; apply node_ok|done|rewrite node_eq; fold t; lia|]. step_ok. rewrite node_eq in *. fold t in Hv |- *.
  destruct (core_gen t l i x (bi_core _ Hy) Hi Hpc Hroom) as (Hg&Hc&HR'&Hold). rewrite <- Hv in Hc, HR'. rewrite Hg.
  rewrite (bool_decide_false (gen_key _ = [])) by apply (gen_key_good (counter t NODE)). step_ok. cbn [negb]. step_ok.
  eexists. split; [done|]. split; cbn [bgoto bsvc bthreads]; [done|rewrite length_insert; apply Hy|done|].
  left. split; [by rewrite HR'|]. exists r. eapply (phaseA_gen l r i x); try done. exact (pa_round _ _ HA i x Hi).
Qed.

Lemma step_look g : th_pc x = BSub g → steps.
Proof.
  intros Hpc. begin_step Hpc.
  destruct (read_children (th_sock x)) as (s&ks&->&Hs&Hv&Hp&Hsort); [rewrite Hpc; cbn; lia|]. step_ok.
  eexists. split; [done|]. assert (Hin : g ∈ names l) by (apply elem_names; exists i, x; by rewrite Hpc).
  assert (Htop : last ks = Some g ↔ topmost l g).
  { rewrite (sorted_last ks g Hsort). unfold topmost. setoid_rewrite Hp. naive_solver. }
  assert (Hlen : length ks = number ↔ length (names l) = length l)
    by (rewrite (Permutation_length Hp); unfold l; by rewrite (bi_number _ Hy)).
  assert (Hfull : length ks = number ∧ last ks = Some g ↔ length (names l) = length l ∧ topmost l g)
    by (by rewrite Hlen, Htop). clear Hlen Htop.
  apply step_same; [done|done|rewrite Hpc; by case_decide|rewrite Hpc; case_decide; cbn; lia|].
  destruct (bi_phase _ Hy) as [[HR [r HA]]|(r&j&z&HR&HB)]; [left|right].
  - split; [done|]. exists r. eapply (phaseA_move l r i x); try done; cbn [th_pc th_left].
    + rewrite Hpc. by case_decide.
    + exact (pa_round _ _ HA i x Hi).
    + by case_decide.
    + intros h. case_decide as E; [|done]. intros [= <-]. by apply Hfull.
    + intros h. case_decide as E; [done|]. intros [= <-] H1 H2. by apply E, Hfull.
  - exists r, j, z. split; [done|]. assert (Hij : i ≠ j) by (eapply not_leader; [exact HB|by rewrite Hpc]).
    destruct (phaseB_child l r j z i x g (co_nodup _ _ (bi_core _ Hy)) HB Hi) as (h&Hz&Hh&Hne&Hhin); [by rewrite Hpc|done|].
    rewrite decide_False by (intros [_ Ht]%Hfull; apply Hne, (anti_symm str_le); auto).
    eapply (phaseB_move l r j z i x); [done|done|done|by rewrite Hpc|]. cbn.
    pose proof (pb_others _ _ _ _ HB i x Hi Hij) as Ho. by rewrite Hpc in Ho.
Qed.

Lemma step_ready g : th_pc x = BReady g → steps.
Proof.
  intros Hpc. begin_step Hpc. destruct phase_a as (r&HR&HA); [by rewrite Hpc|].
  destruct (tree_node_add_eq root (bsvc y) (th_sock x) (ready_path name) [] true (bi_live _ Hy)) as (s&->&Hs&Hv);
    [rewrite ready_eq; apply ready_ok|done|]. step_ok. rewrite ready_eq in *. fold t in Hv |- *.
  destruct (co_stage _ _ (bi_core _ Hy) i x Hi) as [Hb _]. rewrite Hpc in Hb. specialize (Hb ltac:(cbn; lia)).
  assert (∃ v, node t BASE = Some (None, v)) as [v Hbase].
  { destruct (co_base _ _ (bi_core _ Hy)) as [E|?]; [|done]. fold t in E, Hb. rewrite E in Hb. by destruct Hb. }
  rewrite (add_new t (th_sock x) READY [] true v) in *; [|by rewrite (proj2 parent_node)|done|by rewrite (proj2 parent_node)|done].
  cbn [fst snd] in *. step_ok. eexists. split; [done|]. split; cbn [bgoto bsvc bthreads].
  - done.
  - rewrite length_insert. apply Hy.
  - rewrite Hv. eapply (core_move _ _ _ x); [|done|by rewrite Hpc|..].
    + eapply core_ready; [apply Hy|]. intros q Hq. by rewrite node_insert, decide_False.
    + intros _. rewrite node_insert, decide_False by (intros E; symmetry in E; by apply base_ready in E). done.
    + intros _. rewrite node_insert, decide_False by (intros E; symmetry in E; by apply node_ready in E).
      apply (co_stage _ _ (bi_core _ Hy) i x Hi). rewrite Hpc. cbn. lia.
  - right. exists r, i, (Thr (th_sock x) (BAlone g) (th_left x)). rewrite Hv. split.
    + by rewrite node_insert, decide_True.
    + apply phaseB_start; [apply Hy|done|done|done].
Qed.

Lemma step_alone g : th_pc x = BAlone g → steps.
Proof.
  intros Hpc. begin_step Hpc. destruct phase_b as (r&HR&HB); [by rewrite Hpc|].
  destruct (read_children (th_sock x)) as (s&ks&->&Hs&Hv&Hp&Hsort); [rewrite Hpc; cbn; lia|]. step_ok.
  eexists. split; [done|]. assert (Hin : g ∈ names l) by (apply elem_names; exists i, x; by rewrite Hpc).
  apply step_same; [done|done|rewrite Hpc; by case_decide|rewrite Hpc; case_decide; cbn; lia|].
  case_decide as E; [|rewrite stay by done; apply Hy].
  rewrite (Permutation_length Hp) in E.
  assert (Hn : names l = [g]).
  { destruct (names l) as [|h [|? ?]]; try done. by apply list_elem_of_singleton in Hin as ->. }
  right. exists r, i, (Thr (th_sock x) (BDelOwn g) (th_left x)). split; [done|]. destruct HB. split; cbn.
  - apply list_lookup_insert_eq. by eapply lookup_lt_Some.
  - done.
  - apply Permutation_singleton_r. rewrite <- Hn. apply (names_same l i x); [done|by rewrite Hpc].
  - intros j z. rewrite list_lookup_insert_Some. intros [(->&_)|[_ Hj]] Hij; [done|exact (pb_others0 j z Hj Hij)].
Qed.

Lemma step_del_own g : th_pc x = BDelOwn g → steps.
Proof.
  intros Hpc. begin_step Hpc. destruct phase_b as (r&HR&HB); [by rewrite Hpc|].
  assert (Hin : g ∈ names l) by (apply elem_names; exists i, x; by rewrite Hpc).
  destruct (co_gen _ _ (bi_core _ Hy) g Hin) as (n&Hn&Hrange). fold t in Hrange. pose proof (co_counter _ _ (bi_core _ Hy)) as Hcnt.
  destruct (tree_node_del_eq root (bsvc y) (th_sock x) (node_path name ++ [slash] ++ g) (bi_live _ Hy)) as (s&->&Hs&Hv).
  { rewrite own_eq. apply own_ok. rewrite Hn. apply gen_name_ok. fold t in Hcnt. lia. }
  rewrite own_eq in *. fold t in Hv |- *. step_ok.
  destruct (core_del t l i x (Thr (th_sock x) BDelReady (th_left x)) g (bi_core _ Hy)) as (->&Hc&HR');
    [apply live_tree, Hy|done|by rewrite Hpc|done|]. rewrite <- Hv in Hc, HR'. step_ok.
  eexists. split; [done|]. split; cbn [bgoto bsvc bthreads]; [done|rewrite length_insert; apply Hy|done|].
  right. exists r, i, (Thr (th_sock x) BDelReady (th_left x)). split; [by rewrite HR'|].
  destruct HB. rewrite Hpc in pb_pc0. split; cbn.
  - apply list_lookup_insert_eq. by eapply lookup_lt_Some.
  - done.
  - destruct (names_insert l i x (Thr (th_sock x) BDelReady (th_left x)) Hi) as [E1 E2].
    rewrite Hpc in E1. cbn in E1, E2. rewrite <- E2, pb_pc0 in E1. apply (Permutation_cons_inv (l := [])) in E1.
    symmetry in E1. by apply Permutation_nil_r in E1.
  - intros j z. rewrite list_lookup_insert_Some. intros [(->&_)|[_ Hj]] Hij; [done|exact (pb_others0 j z Hj Hij)].
Qed.

Lemma step_del_ready : th_pc x = BDelReady → steps.
Proof.
  intros Hpc. begin_step Hpc. destruct phase_b as (r&HR&HB); [by rewrite Hpc|].
  destruct (tree_node_del_eq root (bsvc y) (th_sock x) (ready_path name) (bi_live _ Hy)) as (s&->&Hs&Hv);
    [rewrite ready_eq; apply ready_ok|]. rewrite ready_eq in *. fold t in Hv |- *.
  unfold t_del in *. rewrite HR in *.
  assert (Hno : children_of (t_nodes t) READY = ∅).
  { apply (ephemeral_childless _ _ (th_sock x)); [apply live_tree, Hy|apply slash_child|].
    unfold own. unfold node in HR. by rewrite HR. }
  rewrite decide_True in * by done. cbn [fst snd] in *. step_ok.
  eexists. split; [done|]. split; cbn [bleave bsvc bthreads].
  - done.
  - rewrite length_insert. apply Hy.
  - rewrite Hv. eapply (core_move _ _ _ x); [|done|by rewrite Hpc|cbn; lia..].
    eapply core_ready; [apply Hy|]. intros q Hq. rewrite node_delete, decide_False by done. split; [done|].
    unfold counter. cbn [t_gen]. by rewrite lookup_delete_ne.
  - left. rewrite Hv, node_delete, decide_True by done. split; [done|]. exists (Datatypes.S r).
    rewrite (pb_left _ _ _ _ HB). by eapply phaseB_done.
Qed.

Lemma step_follow g : th_pc x = BFollow g → steps.
Proof.
  intros Hpc. begin_step Hpc. destruct (read_ready (th_sock x)) as (s&->&Hs&Hv). step_ok.
  eexists. split; [done|]. unfold t_get.
  destruct (bi_phase _ Hy) as [[HR [r HA]]|(r&j&z&HR&HB)]; fold t in HR; rewrite HR; cbn [fst].
  - apply step_same; [done|done|by rewrite Hpc|by rewrite Hpc|]. rewrite stay by done. apply Hy.
  - apply step_same; [done|done|by rewrite Hpc|by rewrite Hpc|]. right. exists r, j, z. split; [done|].
    assert (Hij : i ≠ j) by (eapply not_leader; [exact HB|by rewrite Hpc]).
    eapply (phaseB_move l r j z i x); [done|done|done|by rewrite Hpc|]. cbn.
    pose proof (pb_others _ _ _ _ HB i x Hi Hij) as Ho. by rewrite Hpc in Ho.
Qed.

Lemma step_leave g : th_pc x = BLeave g → steps.
Proof.
  intros Hpc. begin_step Hpc.
  destruct (bi_phase _ Hy) as [[HR [r HA]]|(r&j&z&HR&HB)].
  { pose proof (pa_pc _ _ HA i x Hi) as Hg. by rewrite Hpc in Hg. }
  assert (Hij : i ≠ j) by (eapply not_leader; [exact HB|by rewrite Hpc]).
  pose proof (pb_others _ _ _ _ HB i x Hi Hij) as Ho. rewrite Hpc in Ho.
  assert (Hin : g ∈ names l) by (apply elem_names; exists i, x; by rewrite Hpc).
  destruct (co_gen _ _ (bi_core _ Hy) g Hin) as (n&Hn&Hrange). fold t in Hrange. pose proof (co_counter _ _ (bi_core _ Hy)) as Hcnt.
  destruct (tree_node_del_eq root (bsvc y) (th_sock x) (node_path name ++ [slash] ++ g) (bi_live _ Hy)) as (s&->&Hs&Hv).
  { rewrite own_eq. apply own_ok. rewrite Hn. apply gen_name_ok. fold t in Hcnt. lia. }
  rewrite own_eq in *. fold t in Hv |- *. step_ok.
  destruct (core_del t l i x (Thr (th_sock x) BOut (Datatypes.S (th_left x))) g (bi_core _ Hy)) as (->&Hc&HR');
    [apply live_tree, Hy|done|by rewrite Hpc|done|]. rewrite <- Hv in Hc, HR'. step_ok.
  eexists. split; [done|]. split; cbn [bleave bsvc bthreads]; [done|rewrite length_insert; apply Hy|done|].
  right. exists r, j, z. split; [by rewrite HR'|].
  eapply (phaseB_leave l r j z i x); [apply Hy|done|done|done|done|by rewrite Ho].
Qed.
End step.

Lemma barrier_step_ok y i : BInv y → broom y → ∃ y', barrier_step root name number y i = Ok y' ∧ BInv y'.
Proof.
  intros Hy Hroom. destruct (bthreads y !! i) as [x|] eqn:Hi.
  2: { exists y. unfold barrier_step. by rewrite Hi. }
  destruct (th_pc x) as [| | | | |g|g|g|g| |g|g] eqn:Hpc.
  - exists (bgoto y (bsvc y) i x BEnter). split; [|by apply step_out]. unfold barrier_step. by rewrite Hi, Hpc.
  - by apply (step_enter y i x).
  - by apply (step_base y i x).
  - by apply (step_node y i x).
  - by apply (step_gen y i x).
  - by apply (step_look y i x Hy Hi g).
  - by apply (step_ready y i x Hy Hi g).
  - by apply (step_alone y i x Hy Hi g).
  - by apply (step_del_own y i x Hy Hi g).
  - by apply (step_del_ready y i x).
  - by apply (step_follow y i x Hy Hi g).
  - by apply (step_leave y i x Hy Hi g).
Qed.

(** *** The system *)

(** Requests of others that leave the barrier's part of the tree alone. *)
Definition bforeign (f : method) : Prop :=
  match f with
  | master_gen p _ _ | master_add p _ _ | master_set p _ | master_del p => ¬ part p
  | _ => True
  end.

Lemma under_parent D p k : slash ∉ k → under D (child p k) → p = D ∨ under D p.
Proof.
  intros Hk [r E]. destruct (decide (slash ∈ r)) as [Hr|Hr].
  - destruct (last_slash r Hr) as (r1&r2&->&Hr2). right. exists r1.
    assert (child p k = child (D ++ slash :: r1) r2) as E2 by (rewrite E; unfold child; by rewrite <- app_assoc).
    by apply child_inj in E2 as [-> _].
  - left. by apply (child_inj p k D r) in E as [-> _].
Qed.

Lemma part_child p k q : slash ∉ k → part q → q = child p k → q = BDIR ∨ part p.
Proof.
  intros Hk [->|[->|Hq]] E; [by left|right..].
  - apply child_inj in E as [<- _]; [apply part_dir|apply Hname|done].
  - subst q. apply under_parent in Hq as [->|Hq]; [apply part_base|by apply part_below|done].
Qed.

Lemma spec_part t c f t' resp ch :
  spec_op t c (request_of f) = (t', resp, ch) → bforeign f → is_Some (node t BDIR) → same_part t t'.
Proof.
  intros Hs Hf Hd q Hq. unfold node, counter in *.
  destruct f as [p v e|p v e|p v|p v|p|p]; cbn [request_of spec_op bforeign] in Hs, Hf;
    repeat case_match; simplify_eq; try done; cbn [t_nodes t_gen];
    rewrite ?lookup_delete_ne, ?lookup_insert_ne by (intros <-; done); try done.
  all: (split; [|rewrite lookup_insert_ne by (intros <-; done); done]); rewrite lookup_insert_ne; [done|]; intros E; symmetry in E; pose proof E as E';
    apply part_child in E as [E|Hp]; [|done|apply gen_key_good|done];
    rewrite <- E, E' in Hd;
    match goal with H : t_nodes _ !! _ = None |- _ => rewrite H in Hd end; by destruct Hd.
Qed.

Inductive bstep : barrier_sys S → barrier_sys S → Prop :=
  | bstep_thread y i y' : broom y → barrier_step root name number y i = Ok y' → bstep y y'
  | bstep_foreign y c f s' r :
      bforeign f → Forall valid_any (rpc_request f) → ms_call (bsvc y) c f = Ok (s', r) →
      bstep y (BarrierSys s' (bthreads y)).

(** Nobody has called; the node above the barrier's exists, the barrier's own nodes may. *)
Record binit (y : barrier_sys S) : Prop := {
  bin_live : live (bsvc y);
  bin_number : length (bthreads y) = number;
  bin_dir : ∃ v, node (ms_view (bsvc y)) BDIR = Some (None, v);
  bin_base : node (ms_view (bsvc y)) BASE = None ∨ ∃ v, node (ms_view (bsvc y)) BASE = Some (None, v);
  bin_node : node (ms_view (bsvc y)) NODE = None ∨ ∃ v, node (ms_view (bsvc y)) NODE = Some (None, v);
  bin_ready : node (ms_view (bsvc y)) READY = None;
  bin_counter : 0 ≤ counter (ms_view (bsvc y)) NODE < 2 ^ 31;
  bin_kids k : slash ∉ k → node (ms_view (bsvc y)) (child NODE k) = None;
  bin_threads : Forall (λ x, th_pc x = BOut ∧ th_left x = 0%nat) (bthreads y);
}.

Lemma binit_inv y : binit y → BInv y.
Proof.
  intros [Hlv Hnum Hdir Hb Hn Hr Hc Hk Hth].
  assert (Hout : ∀ i x, bthreads y !! i = Some x → th_pc x = BOut ∧ th_left x = 0%nat)
    by (intros i x Hi; by eapply (Forall_lookup_1 _ _ _ _ Hth) in Hi).
  assert (Hno : names (bthreads y) = []).
  { destruct (names (bthreads y)) as [|k ks] eqn:E; [done|]. assert (k ∈ names (bthreads y)) as Hin by (rewrite E; left).
    apply elem_names in Hin as (i&x&Hi&Hx). destruct (Hout i x Hi) as [Hp _]. by rewrite Hp in Hx. }
  split; [done|done| |].
  - split; try done; rewrite ?Hno.
    + intros i x Hi. destruct (Hout i x Hi) as [-> _]. cbn. split; lia.
    + intros k. by rewrite elem_of_nil.
    + intros k Hsl [v Hv]. by rewrite Hk in Hv.
    + intros k. by rewrite elem_of_nil.
    + constructor.
  - left. split; [done|]. exists 0%nat. split; intros i x; [| |intros g|intros g]; intros Hi; destruct (Hout i x Hi) as [Hp Hl];
      rewrite ?Hp; done.
Qed.

Lemma bstep_inv y y' : BInv y → bstep y y' → BInv y'.
Proof.
  intros Hy Hst. destruct Hst as [y i y' Hr He|y c f s' r Hf Hv Hc].
  - destruct (barrier_step_ok y i Hy Hr) as (y2&He2&Hy2). congruence.
  - destruct (ms_call_spec _ c f (live_good _ (bi_live _ Hy)) Hv) as (s2&resp&ch&Hc2&Hs2&Hsp).
    rewrite Hc in Hc2. injection Hc2 as <- _. rewrite rooted in Hsp by apply Hy.
    destruct (co_dir _ _ (bi_core _ Hy)) as [v Hd].
    assert (Hsame : same_part (ms_view (bsvc y)) (ms_view s')) by (eapply spec_part; [done|done|by rewrite Hd]).
    split; cbn [bsvc bthreads].
    + split; [done|]. pose proof (spec_keeps_root (ms_view (bsvc y)) c (request_of f) (live_root _ (bi_live _ Hy))) as Hk.
      rewrite Hsp in Hk. apply Hk. by destruct f.
    + apply Hy.
    + eapply core_part; [apply Hy|done].
    + eapply phase_part; [apply Hy|done].
Qed.

Lemma breach_inv y0 y : binit y0 → rtc bstep y0 y → BInv y.
Proof.
  intros H0%binit_inv Hr. induction Hr as [|y0 y1 y Hst _ IH]; [done|]. apply IH. by eapply bstep_inv.
Qed.

(** How often a thread has called the barrier. *)
Definition calls (x : thr) : nat := match th_pc x with BOut => th_left x | _ => Datatypes.S (th_left x) end.

Lemma inv_calls y i j x z :
  BInv y → bthreads y !! i = Some x → bthreads y !! j = Some z → (th_left x ≤ calls z)%nat.
Proof.
  intros Hy Hi Hj. unfold calls. destruct (bi_phase _ Hy) as [[_ [r HA]]|(r&k&w&_&HB)].
  - pose proof (pa_round _ _ HA i x Hi). pose proof (pa_round _ _ HA j z Hj). case_match; lia.
  - assert (Hle : ∀ n u, bthreads y !! n = Some u → (th_left u ≤ Datatypes.S r)%nat ∧ (Datatypes.S r ≤ calls u)%nat).
    { intros n u Hn. unfold calls. destruct (decide (n = k)) as [->|Hnk].
      - pose proof (pb_leader _ _ _ _ HB) as Hw. assert (u = w) as -> by congruence.
        pose proof (pb_left _ _ _ _ HB). pose proof (pb_pc _ _ _ _ HB) as Hp. destruct (th_pc w); try done; lia.
      - pose proof (pb_others _ _ _ _ HB n u Hn Hnk) as Ho. destruct (th_pc u); try done; lia. }
    destruct (Hle i x Hi) as [? _], (Hle j z Hj) as [_ ?]. unfold calls in *. lia.
Qed.

(** The thread that lets the others go. *)
Definition leads (p : bpc) : Prop := match p with BReady _ | BAlone _ | BDelOwn _ | BDelReady => True | _ => False end.

Lemma inv_leader y i j x z :
  BInv y → bthreads y !! i = Some x → bthreads y !! j = Some z → leads (th_pc x) → leads (th_pc z) → i = j.
Proof.
  intros Hy Hi Hj Hx Hz. destruct (bi_phase _ Hy) as [[_ [r HA]]|(r&k&w&_&HB)].
  - pose proof (pa_pc _ _ HA i x Hi) as Gx. pose proof (pa_pc _ _ HA j z Hj) as Gz.
    destruct (th_pc x) as [| | | | | |g| | | | |] eqn:Px; try done.
    destruct (th_pc z) as [| | | | | |h| | | | |] eqn:Pz; try done.
    destruct (pa_ready _ _ HA i x g Hi Px) as [_ Tg], (pa_ready _ _ HA j z h Hj Pz) as [_ Th].
    assert (g = h) as <-.
    { apply (anti_symm str_le); [apply Th|apply Tg]; apply elem_names;
        [exists i, x; by rewrite Px|exists j, z; by rewrite Pz]. }
    eapply (names_inj (bthreads y)); [apply (bi_core _ Hy)|done|done|by rewrite Px|by rewrite Pz].
  - assert (Hone : ∀ n u, bthreads y !! n = Some u → leads (th_pc u) → n = k).
    { intros n u Hn Hu. destruct (decide (n = k)) as [|Hnk]; [done|]. pose proof (pb_others _ _ _ _ HB n u Hn Hnk) as Ho.
      by destruct (th_pc u). }
    rewrite (Hone i x Hi Hx). symmetry. by apply (Hone j z).
Qed.
End invariant.

(** ** The barrier opens *)

(** How many actions a thread has at most before it has left. *)
Definition weight (p : bpc) : nat :=
  match p with
  | BOut => 0 | BEnter => 10 | BAddBase => 9 | BAddNode => 8 | BGen => 7 | BSub _ => 6
  | BReady _ => 5 | BAlone _ => 4 | BDelOwn _ => 3 | BDelReady => 2 | BFollow _ => 3 | BLeave _ => 2
  end.
Definition work (l : list thr) : nat := sum_list_with (weight ∘ th_pc) l.

Lemma work_insert l i x x' :
  l !! i = Some x → (work (<[i := x']> l) + weight (th_pc x) = work l + weight (th_pc x'))%nat.
Proof.
  unfold work. revert i. induction l as [|z l IH]; intros [|i] Hi; try done.
  - injection Hi as ->. change (<[0%nat := x']> (x :: l)) with (x' :: l). cbn [sum_list_with compose]. lia.
  - specialize (IH i Hi). change (<[S i := x']> (z :: l)) with (z :: <[i := x']> l). cbn [sum_list_with compose]. lia.
Qed.

Lemma work_bound l : (work l ≤ 10 * length l)%nat.
Proof.
  unfold work. induction l as [|x l IH]; cbn [sum_list_with length compose]; [lia|].
  assert (weight (th_pc x) ≤ 10)%nat by (destruct (th_pc x); cbn; lia). lia.
Qed.

Section opening.
Context {S : Type} `{!MasterService S} (root name : str) (number : nat).

(** A thread stays where it is, or gets closer to the end of its call. *)
Definition waiting (p : bpc) : Prop := match p with BEnter | BAlone _ | BFollow _ => True | _ => False end.
Definition closer (x x' : thr) : Prop :=
  x' = x ∧ waiting (th_pc x) ∨ (weight (th_pc x') < weight (th_pc x))%nat ∧
    (th_pc x' = BOut ∧ th_left x' = Datatypes.S (th_left x) ∨ th_pc x' ≠ BOut ∧ th_left x' = th_left x).

Lemma step_local y i x y' :
  bthreads y !! i = Some x → th_pc x ≠ BOut → barrier_step root name number y i = Ok y' →
  ∃ x', bthreads y' = <[i := x']> (bthreads y) ∧ closer x x'.
Proof.
  intros Hi Hout He. unfold barrier_step in He. rewrite Hi in He. destruct x as [c p left].
  cbn [th_pc th_sock th_left] in *.
  assert (Hgo : ∀ s q, (weight q < weight p)%nat → q ≠ BOut → y' = bgoto y s i (Thr c p left) q →
    ∃ x', bthreads y' = <[i := x']> (bthreads y) ∧ closer (Thr c p left) x').
  { intros s q Hw Hq ->. eexists. split; [done|]. right. cbn. auto. }
  assert (Hstay : ∀ s, waiting p → y' = bgoto y s i (Thr c p left) p →
    ∃ x', bthreads y' = <[i := x']> (bthreads y) ∧ closer (Thr c p left) x').
  { intros s Hw ->. eexists. split; [done|]. by left. }
  assert (Hleave : ∀ s, (0 < weight p)%nat → y' = bleave y s i (Thr c p left) →
    ∃ x', bthreads y' = <[i := x']> (bthreads y) ∧ closer (Thr c p left) x').
  { intros s Hw ->. eexists. split; [done|]. right. cbn. auto. }
  destruct p as [| | | | |g|g|g|g| |g|g]; [done|..];
    repeat (apply bind_ok in He as (?&_&He); repeat case_match); injection He as <-;
    first [eapply Hgo; [| |reflexivity]; [cbn; lia|done] | eapply Hstay; [|reflexivity]; done
          | eapply Hleave; [|reflexivity]; cbn; lia].
Qed.

(** Some thread inside the barrier does something. *)
Definition work_step (y y' : barrier_sys S) : Prop :=
  ∃ i x, bthreads y !! i = Some x ∧ th_pc x ≠ BOut ∧ broom root name y ∧
    barrier_step root name number y i = Ok y' ∧ bthreads y' ≠ bthreads y.

(** Every thread is in its call number [r + 1] or has left it. *)
Definition in_round (r : nat) (l : list thr) : Prop := ∀ i x, l !! i = Some x →
  th_pc x ≠ BOut ∧ th_left x = r ∨ th_pc x = BOut ∧ th_left x = Datatypes.S r.

Lemma work_step_closer y y' :
  work_step y y' → ∃ i x x', bthreads y !! i = Some x ∧ th_pc x ≠ BOut ∧ bthreads y' = <[i := x']> (bthreads y) ∧
    (weight (th_pc x') < weight (th_pc x))%nat ∧
    (th_pc x' = BOut ∧ th_left x' = Datatypes.S (th_left x) ∨ th_pc x' ≠ BOut ∧ th_left x' = th_left x).
Proof.
  intros (i&x&Hi&Hout&_&He&Hne). destruct (step_local y i x y' Hi Hout He) as (x'&Hl&[[-> _]|Hc]); [|eauto 10].
  exfalso. apply Hne. rewrite Hl. by apply list_insert_id.
Qed.

Lemma work_step_less y y' : work_step y y' → (work (bthreads y') < work (bthreads y))%nat.
Proof.
  intros (i&x&x'&Hi&_&Hl&Hw&_)%work_step_closer. rewrite Hl. pose proof (work_insert _ i x x' Hi). lia.
Qed.

Lemma work_step_round r y y' : work_step y y' → in_round r (bthreads y) → in_round r (bthreads y').
Proof.
  intros (i&x&x'&Hi&Hout&Hl&_&Hc)%work_step_closer Hr j z. rewrite Hl, list_lookup_insert_Some.
  intros [(->&<-&_)|[_ Hj]]; [|by eapply Hr]. destruct (Hr _ x Hi) as [[_ Hx]|[? _]]; [|done].
  destruct Hc as [[? ?]|[? ?]]; [right|left]; split; congruence.
Qed.

Context (Hroot : ∃ p, good_path p ∧ root = p ++ [slash]) (Hsmall : small root) (Hname : name_ok name).

Lemma work_nonwaiting y i x :
  BInv root name number y → broom root name y → bthreads y !! i = Some x → th_pc x ≠ BOut → ¬ waiting (th_pc x) →
  ∃ y', work_step y y'.
Proof.
  intros Hy Hr Hi Hout Hw.
  destruct (barrier_step_ok root name number Hroot Hsmall Hname y i Hy Hr) as (y'&He&_). exists y', i, x.
  split; [done|]. split; [done|]. split; [done|]. split; [done|].
  destruct (step_local y i x y' Hi Hout He) as (x'&Hl&[[_ ?]|[Hlt _]]); [done|].
  rewrite Hl. intros E. apply (f_equal (λ l, l !! i)) in E.
  rewrite list_lookup_insert_eq, Hi in E by by eapply lookup_lt_Some. injection E as ->. lia.
Qed.

(** A thread whose condition holds. *)
Lemma work_waiting y i x p s :
  broom root name y → bthreads y !! i = Some x → th_pc x ≠ BOut → p ≠ th_pc x →
  barrier_step root name number y i = Ok (bgoto y s i x p) → ∃ y', work_step y y'.
Proof.
  intros Hr Hi Hout Hp He. exists (bgoto y s i x p), i, x. split; [done|]. split; [done|]. split; [done|].
  split; [done|]. cbn [bgoto bthreads]. intros E. apply (f_equal (λ l, l !! i)) in E.
  rewrite list_lookup_insert_eq, Hi in E by by eapply lookup_lt_Some. injection E as E. by rewrite <- E in Hp.
Qed.

Lemma work_enter y i x :
  BInv root name number y → broom root name y → bthreads y !! i = Some x → th_pc x = BEnter →
  node (ms_view (bsvc y)) (READY root name) = None → ∃ y', work_step y y'.
Proof.
  intros Hy Hr Hi Hpc HR. destruct (read_ready root name number Hroot Hsmall Hname y Hy (th_sock x)) as (s&Hg&_).
  eapply (work_waiting y i x BAddBase s); [done|done|by rewrite Hpc|by rewrite Hpc|].
  unfold barrier_step. rewrite Hi, Hpc. cbn zeta. rewrite Hg. unfold t_get. by rewrite HR.
Qed.

Lemma work_follow y i x g w :
  BInv root name number y → broom root name y → bthreads y !! i = Some x → th_pc x = BFollow g →
  node (ms_view (bsvc y)) (READY root name) = Some w → ∃ y', work_step y y'.
Proof.
  intros Hy Hr Hi Hpc HR. destruct (read_ready root name number Hroot Hsmall Hname y Hy (th_sock x)) as (s&Hg&_).
  eapply (work_waiting y i x (BLeave g) s); [done|done|by rewrite Hpc|by rewrite Hpc|].
  unfold barrier_step. rewrite Hi, Hpc. cbn zeta. rewrite Hg. unfold t_get. rewrite HR. by destruct w.
Qed.

Lemma work_alone y i x g :
  BInv root name number y → broom root name y → bthreads y !! i = Some x → th_pc x = BAlone g →
  length (names (bthreads y)) = 1%nat → ∃ y', work_step y y'.
Proof.
  intros Hy Hr Hi Hpc Hlen.
  destruct (read_children root name number Hroot Hsmall Hname y i x Hy Hi (th_sock x)) as (s&ks&Hg&_&_&Hp&_);
    [rewrite Hpc; cbn; lia|].
  eapply (work_waiting y i x (BDelOwn g) s); [done|done|by rewrite Hpc|by rewrite Hpc|].
  unfold barrier_step. rewrite Hi, Hpc. cbn zeta. rewrite Hg. step_ok.
  by rewrite decide_True by (by rewrite (Permutation_length Hp)).
Qed.

#[local] Instance waiting_dec p : Decision (waiting p).
Proof. destruct p; cbn; apply _. Defined.
#[local] Instance out_dec p : Decision (p = BOut).
Proof. destruct p; (left; done) || (right; done). Defined.
#[local] Instance enter_dec p : Decision (p = BEnter).
Proof. destruct p; (left; done) || (right; done). Defined.

(** Before [ready] exists: if all wait, the one with the last name would not. *)
Lemma work_phaseA y r :
  BInv root name number y → broom root name y → node (ms_view (bsvc y)) (READY root name) = None →
  PhaseA (bthreads y) r → (∀ i x, bthreads y !! i = Some x → th_pc x ≠ BOut) → bthreads y ≠ [] →
  (∀ i x, bthreads y !! i = Some x → waiting (th_pc x)) → ∃ y', work_step y y'.
Proof.
  intros Hy Hr HR HA Hin Hne Hw.
  destruct (decide (Exists (λ x, th_pc x = BEnter) (bthreads y))) as [He|He].
  { apply Exists_exists in He as (x&[i Hi]%list_elem_of_lookup&Hx). by eapply work_enter. }
  exfalso. assert (Hf : ∀ i x, bthreads y !! i = Some x → ∃ g, th_pc x = BFollow g).
  { intros i x Hi. pose proof (pa_pc _ _ HA i x Hi) as Hg. pose proof (Hw i x Hi) as Hwx. 
    destruct (th_pc x) eqn:Hx; try done; [|by eexists]. destruct He. apply Exists_exists. exists x.
    split; [by eapply list_elem_of_lookup_2|done]. }
  assert (Hfull : length (names (bthreads y)) = length (bthreads y)).
  { apply names_full. intros i x Hi. destruct (Hf i x Hi) as [g ->]. by eexists. }
  destruct (bthreads y) as [|x0 l0] eqn:El; [done|]. rewrite <- El in *.
  assert (H0 : bthreads y !! 0%nat = Some x0) by by rewrite El.
  destruct (Hf 0%nat x0 H0) as [g0 Hx0].
  destruct (read_children root name number Hroot Hsmall Hname y 0 x0 Hy H0 (th_sock x0)) as (s&ks&_&_&_&Hp&Hsort);
    [rewrite Hx0; cbn; lia|].
  destruct (last ks) as [g|] eqn:Hlast.
  2: { apply last_None in Hlast. subst ks. apply Permutation_length in Hp. rewrite Hfull, El in Hp. done. }
  apply (sorted_last ks g Hsort) in Hlast as [Hg Hmax]. rewrite Hp in Hg.
  apply elem_names in Hg as (i&x&Hi&Hx). destruct (Hf i x Hi) as [h Hxh]. rewrite Hxh in Hx. injection Hx as ->.
  eapply (pa_follow _ _ HA i x g); [done|done|done|]. intros k Hk. apply Hmax. by rewrite Hp.
Qed.

(** While [ready] exists. *)
Lemma work_phaseB y r j z w :
  BInv root name number y → broom root name y → node (ms_view (bsvc y)) (READY root name) = Some w →
  PhaseB (bthreads y) r j z →
  (∀ i x, bthreads y !! i = Some x → waiting (th_pc x) ∨ th_pc x = BOut) → ∃ y', work_step y y'.
Proof.
  intros Hy Hr HR HB Hw. pose proof (pb_leader _ _ _ _ HB) as Hj. pose proof (pb_pc _ _ _ _ HB) as Hpc.
  destruct (Hw j z Hj) as [Hwz|Hwz]; destruct (th_pc z) as [| | | | | | |g| | | |] eqn:Hz; try done.
  destruct (names_insert (bthreads y) j z z Hj) as [E _]. rewrite Hz in E. cbn [bhas option_list] in E.
  destruct (names (delete j (bthreads y))) as [|k ks] eqn:Ek.
  { eapply (work_alone y j z g); [done|done|done|done|]. by rewrite (Permutation_length E). }
  assert (Hnd : NoDup (names (bthreads y))) by apply (bi_core _ _ _ _ Hy).
  assert (Hk : k ∈ names (bthreads y)) by (rewrite E; set_solver).
  assert (k ≠ g) as Hkg.
  { rewrite E in Hnd. apply NoDup_cons in Hnd as [Hnot _]. intros ->. apply Hnot. cbn. left. }
  apply elem_names in Hk as (i&x&Hi&Hx).
  assert (Hij : i ≠ j) by (intros ->; assert (x = z) as -> by congruence; rewrite Hz in Hx; cbn in Hx; congruence).
  pose proof (pb_others _ _ _ _ HB i x Hi Hij) as Ho.
  destruct (Hw i x Hi) as [Hwx|Hwx]; destruct (th_pc x) eqn:Hxp; try done. by eapply work_follow.
Qed.

Lemma can_work y r :
  BInv root name number y → broom root name y → in_round r (bthreads y) →
  (∃ y', work_step y y') ∨ ∀ i x, bthreads y !! i = Some x → th_pc x = BOut ∧ th_left x = Datatypes.S r.
Proof.
  intros Hy Hr Hround.
  destruct (decide (Exists (λ x, ¬ (waiting (th_pc x) ∨ th_pc x = BOut)) (bthreads y))) as [He|He].
  { left. apply Exists_exists in He as (x&[i Hi]%list_elem_of_lookup&Hx). eapply (work_nonwaiting y i x); naive_solver. }
  assert (Hw : ∀ i x, bthreads y !! i = Some x → waiting (th_pc x) ∨ th_pc x = BOut).
  { intros i x Hi. destruct (decide (waiting (th_pc x) ∨ th_pc x = BOut)) as [|Hx]; [done|]. destruct He.
    apply Exists_exists. exists x. split; [by eapply list_elem_of_lookup_2|done]. }
  destruct (bi_phase _ _ _ _ Hy) as [[HR [r' HA]]|(r'&j&z&HR&HB)]; [|left; by eapply work_phaseB].
  destruct (decide (bthreads y = [])) as [Hnil|Hne]; [right; intros i x; by rewrite Hnil|].
  destruct (decide (r' = r)) as [->|Hrr].
  - left. assert (Hin : ∀ i x, bthreads y !! i = Some x → th_pc x ≠ BOut).
    { intros i x Hi. pose proof (pa_round _ _ HA i x Hi). destruct (Hround i x Hi) as [[? _]|[_ ?]]; [done|lia]. }
    eapply (work_phaseA y r); try done. intros i x Hi. destruct (Hw i x Hi) as [?|?]; [done|]. by destruct (Hin i x Hi).
  - right. intros i x Hi. pose proof (pa_round _ _ HA i x Hi). destruct (Hround i x Hi) as [[_ ?]|?]; [congruence|done].
Qed.

Lemma work_steps_inv y y' : rtc work_step y y' → rtc (bstep root name number) y y'.
Proof.
  induction 1 as [|y y1 y' (i&x&_&_&Hr&He&_) _ IH]; [done|]. eapply rtc_l; [|done]. by econstructor.
Qed.

Lemma work_steps_round r y y' : rtc work_step y y' → in_round r (bthreads y) → in_round r (bthreads y').
Proof. induction 1 as [|y y1 y' Hs _ IH]; [done|]. intros Hr. apply IH. by eapply work_step_round. Qed.

Lemma work_steps_bounded n y y' :
  nsteps work_step n y y' → (n + work (bthreads y') ≤ work (bthreads y))%nat.
Proof. induction 1 as [|n y y1 y' Hs _ IH]; [lia|]. apply work_step_less in Hs. lia. Qed.
End opening.

(** Threads scheduled one after the other. *)
Section schedule.
Context {S : Type} `{!MasterService S} (root name : str) (number : nat).

#[global] Instance broom_dec (y : barrier_sys S) : Decision (broom root name y).
Proof. unfold broom. apply _. Defined.

Fixpoint run_barrier (y : barrier_sys S) (schedule : list nat) : result (barrier_sys S) :=
  match schedule with
  | [] => Ok y
  | i :: schedule =>
      _ ← SCHECK (bool_decide (broom root name y));
      y ← barrier_step root name number y i; run_barrier y schedule
  end.

Lemma run_barrier_reach schedule : ∀ y y',
  run_barrier y schedule = Ok y' → rtc (bstep root name number) y y'.
Proof.
  induction schedule as [|i schedule IH]; intros y y'; cbn [run_barrier]; [intros [= ->]; constructor|].
  destruct (bool_decide_reflect (broom root name y)); [|done]. step_ok.
  rewrite bind_ok. intros (y1&Hst&Hr). eapply rtc_l; [|by apply IH]. by econstructor.
Qed.
End schedule.

(** ** Properties *)

(** C39: the barrier synchronises.  [number] threads in any number of processes call
    [barrier] on one name again and again, interleaved call by call with each other and
    with requests that leave the barrier's nodes alone.  In every reachable state a thread
    has left its [k]-th call only when every thread has entered its own [k]-th call, no two
    threads are more than one call apart, no [SCHECK] of the function can fail, and at most
    one thread leads. *)
Theorem barrier_synchronises {S : Type} `{!MasterService S} (root name : str) (number : nat) (y0 y : barrier_sys S) :
  (∃ p, good_path p ∧ root = p ++ [slash]) → small root → name_ok name →
  binit root name number y0 → rtc (bstep root name number) y0 y →
  (∀ i j x z, bthreads y !! i = Some x → bthreads y !! j = Some z →
     (th_left x ≤ calls z)%nat ∧ (th_left x ≤ Datatypes.S (th_left z))%nat) ∧
  (∀ i j x z, bthreads y !! i = Some x → bthreads y !! j = Some z → leads (th_pc x) → leads (th_pc z) → i = j) ∧
  (broom root name y → ∀ i, ∃ y', barrier_step root name number y i = Ok y').
Proof.
  intros Hroot Hsmall Hname H0 Hr. pose proof (breach_inv root name number Hroot Hsmall Hname y0 y H0 Hr) as Hy.
  split; [|split].
  - intros i j x z Hi Hj. pose proof (inv_calls root name number y i j x z Hy Hi Hj) as Hc. split; [done|].
    unfold calls in Hc. case_match; lia.
  - intros i j x z. by apply inv_leader with root name number.
  - intros Hroom i. destruct (barrier_step_ok root name number Hroot Hsmall Hname y i Hy Hroom) as (y'&?&_). by exists y'.
Qed.

(** C40: the barrier opens.  From every reachable state in which all [number] threads have
    entered their call [r + 1] (or have left it already), as long as the node's counter
    has room: either some thread inside can move, or every thread has left that call.  A
    thread moves at most ten times in one call, so after at most [10 * number] moves all
    have left, whichever thread is chosen each time. *)
Theorem barrier_opens {S : Type} `{!MasterService S} (root name : str) (number r : nat) (y0 y : barrier_sys S) :
  (∃ p, good_path p ∧ root = p ++ [slash]) → small root → name_ok name →
  binit root name number y0 → rtc (bstep root name number) y0 y → in_round r (bthreads y) →
  (∀ y', rtc (work_step root name number) y y' → broom root name y' →
     (∃ y'', work_step root name number y' y'') ∨
     ∀ i x, bthreads y' !! i = Some x → th_pc x = BOut ∧ th_left x = Datatypes.S r) ∧
  (∀ n y', nsteps (work_step root name number) n y y' → (n ≤ 10 * number)%nat).
Proof.
  intros Hroot Hsmall Hname H0 Hr Hround.
  pose proof (breach_inv root name number Hroot Hsmall Hname y0 y H0 Hr) as Hy. split.
  - intros y' Hw Hroom. apply (can_work root name number Hroot Hsmall Hname); [|done|by eapply work_steps_round].
    eapply breach_inv; [done..|]. etrans; [exact Hr|]. by apply work_steps_inv.
  - intros n y' Hn%work_steps_bounded. pose proof (work_bound (bthreads y)). pose proof (bi_number _ _ _ _ Hy). lia.
Qed.

(** ** Witnesses *)

(** Two processes and a master on which the node above the barriers exists. *)
Definition demo_master : Master :=
  match @ms_call Master example_service init 1%nat (master_add (lit "/_barrier_") [] false) with
  | Ok (s, _) => s
  | Abort => init
  end.
Definition demo_sys : barrier_sys Master := BarrierSys demo_master [Thr 1 BOut 0; Thr 2 BOut 0].

Definition demo_sched (schedule : list nat) : barrier_sys Master :=
  match @run_barrier Master example_service (lit "/") (lit "b") 2 demo_sys schedule with
  | Ok y => y
  | Abort => demo_sys
  end.

Lemma demo_reach schedule :
  rtc (@bstep Master example_service (lit "/") (lit "b") 2) demo_sys (demo_sched schedule).
Proof.
  unfold demo_sched. destruct (run_barrier _ _ _ _ _) eqn:E; [|constructor]. by eapply run_barrier_reach.
Qed.

Lemma demo_binit : @binit Master example_service (lit "/") (lit "b") 2 demo_sys.
Proof.
  destruct (@ms_call_spec Master example_service init 1%nat (master_add (lit "/_barrier_") [] false))
    as (s'&resp&ch&Hcall&Hs'&Hsp); [apply init_live|apply request_valid; by apply str_ok_lt|].
  assert (Hm : demo_master = s') by (unfold demo_master; by rewrite Hcall).
  assert (Hv : @ms_view Master example_service demo_master =
    Tree (<[lit "/_barrier_" := (None, [])]> (<[[] := (None, [])]> ∅)) ∅) by (vm_compute; reflexivity).
  split; cbn [demo_sys bsvc bthreads].
  - split; [by rewrite Hm|]. rewrite Hv. by eexists.
  - done.
  - rewrite Hv. eexists. vm_compute. reflexivity.
  - rewrite Hv. left. vm_compute. reflexivity.
  - rewrite Hv. left. vm_compute. reflexivity.
  - rewrite Hv. vm_compute. reflexivity.
  - rewrite Hv. vm_compute. intuition congruence.
  - intros k Hk. rewrite Hv. unfold node. cbn [t_nodes]. rewrite !lookup_insert_ne; [done|by intros ?%eq_sym%child_ne_nil|].
    intros E. apply (f_equal length) in E. unfold child in E. autorewrite with prpc_len in E. cbn in E. lia.
  - by repeat constructor.
Qed.

Lemma demo_root : ∃ p, good_path p ∧ lit "/" = p ++ [slash].
Proof. exists []. split; [by left|done]. Qed.
Lemma demo_barrier : name_ok (lit "b").
Proof. split; [split; [vm_compute; set_solver|done]|by vm_compute]. Qed.

(** The first thread has left, the leader has not yet. *)
Lemma barrier_synchronises_witness :
  let I := example_service in
  let y := demo_sched [0; 0; 0; 0; 0; 0; 1; 1; 1; 1; 1; 1; 1; 1; 0; 0]%nat in
  bthreads y = [Thr 1 BOut 1; Thr 2 (BAlone (gen_key 1)) 0] ∧
  (∀ i j x z, bthreads y !! i = Some x → bthreads y !! j = Some z →
     (th_left x ≤ calls z)%nat ∧ (th_left x ≤ Datatypes.S (th_left z))%nat) ∧
  (∀ i j x z, bthreads y !! i = Some x → bthreads y !! j = Some z → leads (th_pc x) → leads (th_pc z) → i = j) ∧
  (@broom Master I (lit "/") (lit "b") y → ∀ i, ∃ y', @barrier_step Master I (lit "/") (lit "b") 2 y i = Ok y').
Proof.
  intros I y. split; [vm_compute; reflexivity|].
  apply (barrier_synchronises (lit "/") (lit "b") 2 demo_sys y);
    [apply demo_root|by vm_compute|apply demo_barrier|apply demo_binit|apply demo_reach].
Defined.

(** Both threads have entered: the barrier opens within twenty moves. *)
Lemma barrier_opens_witness :
  let I := example_service in
  let y := demo_sched [0; 1; 0; 1; 1]%nat in
  bthreads y = [Thr 1 BAddBase 0; Thr 2 BAddNode 0] ∧
  (∀ y', rtc (@work_step Master I (lit "/") (lit "b") 2) y y' → @broom Master I (lit "/") (lit "b") y' →
     (∃ y'', @work_step Master I (lit "/") (lit "b") 2 y' y'') ∨
     ∀ i x, bthreads y' !! i = Some x → th_pc x = BOut ∧ th_left x = 1%nat) ∧
  (∀ n y', nsteps (@work_step Master I (lit "/") (lit "b") 2) n y y' → (n ≤ 20)%nat).
Proof.
  intros I y. assert (Ht : bthreads y = [Thr 1 BAddBase 0; Thr 2 BAddNode 0]) by (vm_compute; reflexivity).
  split; [done|].
  apply (barrier_opens (lit "/") (lit "b") 2 0 demo_sys y);
    [apply demo_root|by vm_compute|apply demo_barrier|apply demo_binit|apply demo_reach|].
  rewrite Ht. intros [|[|i]] x; [intros [= <-]; left; by split..|done].
Defined.
