(* ===== verification/Aggregator.v ===== *)
(** * Aggregators

    src/src/accumulator/Aggregator.h and its implementations SumAggregator.h,
    ArithmeticMaxAggregator.h, ArithmeticMinAggregator.h, AvgAggregator.h and
    TimerAggregator.h, and the factory of src/src/common/Factory.h that makes them by name.

    The virtual methods are the class [Aggregator]; what the accumulators rely on is the
    class [AggregatorLaws]: merging is a commutative monoid in which a single value is an
    aggregator of its own, and an aggregator survives its serialization.  One instance of
    both per implementation.  Sums are of unsigned types at least as wide as [int], which
    wrap; for signed ones an overflow is undefined.  Maxima and minima are of any integer
    type.  Floating point and the texts of [try_to_string] are not modelled. *)
From S2P Require Import Prelude Archive Serialize Master.
Import MemoryArchive.

(** ** The interface *)
Class Aggregator (A V : Type) := {
  init : A;
  merge_value : A → V → A;
  merge_aggregator : A → A → A;
  serialize : archive → A → result archive;
  deserialize : archive → result (archive * A);
}.

(** The state after [init] and a sequence of [merge_value]. *)
Definition collect {A V} `{Aggregator A V} (vs : list V) : A := foldl merge_value init vs.

Class AggregatorLaws {A V} (agg : Aggregator A V) (valid : A → Prop) (valid_value : V → Prop)
    (enc : A → list byte) : Prop := {
  init_valid : valid init;
  merge_value_valid s v : valid s → valid_value v → valid (merge_value s v);
  merge_aggregator_valid s s' : valid s → valid s' → valid (merge_aggregator s s');
  merge_init s : valid s → merge_aggregator init s = s;
  merge_comm s s' : valid s → valid s' → merge_aggregator s s' = merge_aggregator s' s;
  merge_assoc s1 s2 s3 : valid s1 → valid s2 → valid s3 →
    merge_aggregator s1 (merge_aggregator s2 s3) = merge_aggregator (merge_aggregator s1 s2) s3;
  merge_value_single s v : valid s → valid_value v →
    merge_value s v = merge_aggregator s (merge_value init v);
  serialize_ok a s : ready a → valid s → ∃ a', serialize a s = Ok a' ∧ appended a (enc s) a';
  deserialize_ok a s rest : wf a → valid s → content a = enc s ++ rest →
    ∃ a', deserialize a = Ok (a', s) ∧ consumed a rest a';
}.

(** ** What follows from the laws *)
Section laws.
Context {A V : Type} {agg : Aggregator A V} {valid : A → Prop} {valid_value : V → Prop} {enc : A → list byte}.
Context {laws : AggregatorLaws agg valid valid_value enc}.

Lemma collect_snoc vs v : collect (vs ++ [v]) = merge_value (collect vs) v.
Proof. apply foldl_snoc. Qed.

Lemma collect_valid vs : Forall valid_value vs → valid (collect vs).
Proof.
  induction vs as [|v vs IH] using rev_ind; intros Hv; [apply (init_valid (AggregatorLaws := laws))|].
  apply Forall_app in Hv as [Hvs [Hv _]%Forall_cons].
  rewrite collect_snoc. apply (merge_value_valid (AggregatorLaws := laws)); auto.
Qed.

(** Merging the aggregators of two sequences gives the one of their concatenation. *)
Lemma collect_app vs ws : Forall valid_value vs → Forall valid_value ws →
  merge_aggregator (collect vs) (collect ws) = collect (vs ++ ws).
Proof.
  intros Hvs. induction ws as [|w ws IH] using rev_ind; intros Hws.
  - rewrite app_nil_r, (merge_comm (AggregatorLaws := laws)) by
      (by apply collect_valid || apply (init_valid (AggregatorLaws := laws))).
    by apply (merge_init (AggregatorLaws := laws)), collect_valid.
  - apply Forall_app in Hws as [Hws [Hw _]%Forall_cons]. rewrite app_assoc, !collect_snoc.
    assert (Hs : valid (merge_value init w)).
    { by apply (merge_value_valid (AggregatorLaws := laws)); [apply (init_valid (AggregatorLaws := laws))|]. }
    rewrite (merge_value_single (AggregatorLaws := laws)), (merge_assoc (AggregatorLaws := laws)), IH
      by (auto using collect_valid).
    symmetry. apply (merge_value_single (AggregatorLaws := laws)); [|done]. by apply collect_valid, Forall_app.
Qed.

(** The order of the values does not matter. *)
Lemma collect_perm vs ws : Forall valid_value vs → vs ≡ₚ ws → collect vs = collect ws.
Proof.
  intros Hv Hp. induction Hp as [|v vs ws Hp IH|v w vs|vs us ws Hp1 IH1 Hp2 IH2]; [done|..].
  - apply Forall_cons in Hv as [Hv Hvs]. assert (Forall valid_value ws) by by rewrite <- Hp.
    change (v :: vs) with ([v] ++ vs). change (v :: ws) with ([v] ++ ws).
    rewrite <- !collect_app by (try done; by repeat constructor). f_equal. auto.
  - apply Forall_cons in Hv as [Hv [Hw Hvs]%Forall_cons].
    change (v :: w :: vs) with ([v; w] ++ vs). change (w :: v :: vs) with ([w; v] ++ vs).
    rewrite <- !collect_app by (try done; by repeat constructor). f_equal.
    change [v; w] with ([v] ++ [w]). change [w; v] with ([w] ++ [v]).
    rewrite <- !collect_app by by repeat constructor.
    apply (merge_comm (AggregatorLaws := laws)); apply collect_valid; by repeat constructor.
  - rewrite IH1, IH2 by (by rewrite <- ?Hp1). done.
Qed.
End laws.

(** ** Arithmetic types

    [arith t]: an unsigned type that is not promoted to [int]. *)
Definition width (t : int_type) : Z := Z.of_nat (it_size t) * 8.
Definition arith (t : int_type) : bool := negb (it_signed t) && (4 <=? it_size t)%nat.

(** [x + y] and [x * y]. *)
Definition plus_ (t : int_type) (x y : Z) : Z := wrap (width t) (x + y).
Definition times_ (t : int_type) (x y : Z) : Z := wrap (width t) (x * y).

(** [std::numeric_limits]. *)
Definition limits_min (t : int_type) : Z := if it_signed t then - 2 ^ (width t - 1) else 0.
Definition limits_max (t : int_type) : Z := if it_signed t then 2 ^ (width t - 1) - 1 else 2 ^ width t - 1.

Lemma arith_pos t : arith t = true → (0 < it_size t)%nat ∧ it_signed t = false.
Proof. unfold arith. intros [Hs Hn%Nat.leb_le]%andb_true_iff. apply negb_true_iff in Hs. split; [lia|done]. Qed.

Lemma limits_in_int t z : (0 < it_size t)%nat → in_int t z ↔ limits_min t ≤ z ≤ limits_max t.
Proof. intros. unfold in_int, limits_min, limits_max, in_signed, in_unsigned, width. destruct (it_signed t); lia. Qed.

Lemma limits_ordered t : (0 < it_size t)%nat → limits_min t ≤ limits_max t.
Proof.
  intros. unfold limits_min, limits_max, width.
  assert (0 < 2 ^ (Z.of_nat (it_size t) * 8)) by (apply Z.pow_pos_nonneg; lia).
  assert (0 < 2 ^ (Z.of_nat (it_size t) * 8 - 1)) by (apply Z.pow_pos_nonneg; lia).
  destruct (it_signed t); lia.
Qed.

Lemma limits_min_in t : (0 < it_size t)%nat → in_int t (limits_min t).
Proof. intros Hs. apply limits_in_int; [done|]. pose proof (limits_ordered t Hs). lia. Qed.

Lemma limits_max_in t : (0 < it_size t)%nat → in_int t (limits_max t).
Proof. intros Hs. apply limits_in_int; [done|]. pose proof (limits_ordered t Hs). lia. Qed.

Lemma wrap_in_int t z : it_signed t = false → in_int t (wrap (width t) z).
Proof. intros Hs. unfold in_int. rewrite Hs. apply wrap_range. unfold width. lia. Qed.

Lemma plus_in t x y : it_signed t = false → in_int t (plus_ t x y).
Proof. apply wrap_in_int. Qed.

Lemma arith_0 t : arith t = true → in_int t 0.
Proof.
  intros [Hp Hs]%arith_pos. apply limits_in_int; [done|]. pose proof (limits_ordered t Hp).
  unfold limits_min, limits_max in *. rewrite Hs in *. lia.
Qed.

Lemma plus_0 t x : it_signed t = false → in_int t x → plus_ t 0 x = x.
Proof. unfold in_int. intros Hs. rewrite Hs. apply wrap_small. Qed.

Lemma plus_comm t x y : plus_ t x y = plus_ t y x.
Proof. unfold plus_. by rewrite Z.add_comm. Qed.

Lemma plus_assoc t x y z : plus_ t x (plus_ t y z) = plus_ t (plus_ t x y) z.
Proof. unfold plus_, wrap. by rewrite Zplus_mod_idemp_r, Zplus_mod_idemp_l, Z.add_assoc. Qed.

Lemma times_in t x y : it_signed t = false → in_int t (times_ t x y).
Proof. apply wrap_in_int. Qed.

(** A serialization in several fields. *)
Section fields.
Context {T : Type} (c : codec T) (valid : T → Prop) (enc : T → list byte) `{!Lawful c valid enc}.

Lemma field_out_ok a x : ready a → valid x → ∃ a', op_out c a x = Ok a' ∧ appended a (enc x) a'.
Proof.
  intros Ha Hx. destruct (lawful_ser (c := c) a x Ha Hx) as (a'&Hs&Hap). exists a'.
  unfold op_out. by rewrite Hs.
Qed.

Lemma field_in_ok a x rest : wf a → valid x → content a = enc x ++ rest →
  ∃ a', op_in c a = Ok (a', x) ∧ consumed a rest a'.
Proof.
  intros Ha Hx Hc. destruct (lawful_des (c := c) a x rest Ha Hx Hc) as (a'&Hs&Hap). exists a'.
  unfold op_in. by rewrite Hs.
Qed.
(** One field after others. *)
Lemma out_seq a bs a1 x : appended a bs a1 → valid x →
  ∃ a2, op_out c a1 x = Ok a2 ∧ appended a (bs ++ enc x) a2.
Proof.
  intros Ha Hx. destruct (field_out_ok a1 x) as (a2&->&?); [apply Ha|done|]. exists a2. split; [done|].
  by eapply appended_trans.
Qed.

Lemma in_seq a a1 x rest : consumed a (enc x ++ rest) a1 → valid x →
  ∃ a2, op_in c a1 = Ok (a2, x) ∧ consumed a rest a2.
Proof.
  intros Ha Hx. destruct (field_in_ok a1 x rest) as (a2&->&?); [apply Ha|done|apply Ha|]. exists a2. split; [done|].
  by eapply consumed_trans.
Qed.
End fields.

Lemma consumed_start a bs : wf a → content a = bs → consumed a bs a.
Proof. intros. by split. Qed.

(** [ser_int] and [des_int] run the next of several integer fields. *)
Ltac ser_int t := match goal with H : appended ?a ?bs ?a1 |- context [op_out (c_int ?j t) ?a1 ?x] =>
  let H' := fresh "H" in
  destruct (out_seq (c_int j t) (in_int t) (le_split (it_size t)) a bs a1 x H) as (?&->&H'); [done|clear H];
  cbn [mbind result_bind] end.
Ltac des_int t := match goal with H : consumed ?a _ ?a1 |- context [op_in (c_int ?j t) ?a1] =>
  let H' := fresh "H" in
  destruct (in_seq (c_int j t) (in_int t) (le_split (it_size t)) a a1 _ _ H) as (?&->&H'); [done|clear H];
  cbn [mbind result_bind] end.

Section implementations.
Context (junk : nat → byte).

(** ** SumAggregator *)
Section sum.
Context (t : int_type).

#[export] Instance SumAggregator : Aggregator Z Z := {
  init := 0;
  merge_value _value val := plus_ t _value val;
  merge_aggregator _value agg := plus_ t _value agg;
  serialize ba _value := op_out (c_int junk t) ba _value;
  deserialize ba := op_in (c_int junk t) ba;
}.

Lemma SumAggregator_laws : arith t = true → AggregatorLaws SumAggregator (in_int t) (in_int t) (le_split (it_size t)).
Proof.
  intros Ht. destruct (arith_pos t Ht) as [Hp Hs]. pose proof (arith_0 t Ht).
  split; cbn -[op_out op_in]; intros; rewrite ?plus_0 by (done || by apply plus_in); try done; try (by apply plus_in).
  - apply plus_comm.
  - apply plus_assoc.
  - by apply (field_out_ok (c_int junk t) (in_int t) (le_split (it_size t))).
  - by apply (field_in_ok (c_int junk t) (in_int t) (le_split (it_size t))).
Qed.
End sum.

(** ** ArithmeticMaxAggregator and ArithmeticMinAggregator *)
Section extrema.
Context (t : int_type).

#[export] Instance ArithmeticMaxAggregator : Aggregator Z Z := {
  init := limits_min t;
  merge_value _value val := if _value <? val then val else _value;
  merge_aggregator _value agg := if _value <? agg then agg else _value;
  serialize ba _value := op_out (c_int junk t) ba _value;
  deserialize ba := op_in (c_int junk t) ba;
}.

#[export] Instance ArithmeticMinAggregator : Aggregator Z Z := {
  init := limits_max t;
  merge_value _value val := if val <? _value then val else _value;
  merge_aggregator _value agg := if agg <? _value then agg else _value;
  serialize ba _value := op_out (c_int junk t) ba _value;
  deserialize ba := op_in (c_int junk t) ba;
}.

(** The comparisons are those of [Z.max] and [Z.min]. *)
Lemma max_if x y : (if x <? y then y else x) = Z.max x y.
Proof. destruct (Z.ltb_spec x y); lia. Qed.
Lemma min_if x y : (if y <? x then y else x) = Z.min x y.
Proof. destruct (Z.ltb_spec y x); lia. Qed.

Lemma ArithmeticMaxAggregator_laws : (0 < it_size t)%nat →
  AggregatorLaws ArithmeticMaxAggregator (in_int t) (in_int t) (le_split (it_size t)).
Proof.
  intros Hp. pose proof (limits_min_in t Hp).
  split; cbn -[op_out op_in]; intros; rewrite ?max_if; try done;
    try (by apply (field_out_ok (c_int junk t) (in_int t) (le_split (it_size t)))); try (by apply (field_in_ok (c_int junk t) (in_int t) (le_split (it_size t))));
    repeat match goal with H : in_int t _ |- _ => apply (limits_in_int t _ Hp) in H end;
    rewrite ?limits_in_int by done; lia.
Qed.

Lemma ArithmeticMinAggregator_laws : (0 < it_size t)%nat →
  AggregatorLaws ArithmeticMinAggregator (in_int t) (in_int t) (le_split (it_size t)).
Proof.
  intros Hp. pose proof (limits_max_in t Hp).
  split; cbn -[op_out op_in]; intros; rewrite ?min_if; try done;
    try (by apply (field_out_ok (c_int junk t) (in_int t) (le_split (it_size t)))); try (by apply (field_in_ok (c_int junk t) (in_int t) (le_split (it_size t))));
    repeat match goal with H : in_int t _ |- _ => apply (limits_in_int t _ Hp) in H end;
    rewrite ?limits_in_int by done; lia.
Qed.
End extrema.
(** ** AvgAggregator<VAL, void> *)
Section avg.
Context (t : int_type).

Record avg := Avg { avg_value : Z; avg_count : Z }.

Definition avg_valid (s : avg) : Prop := in_int t (avg_value s) ∧ in_int t_size (avg_count s).

Definition merge_value_internal (s : avg) (val cnt : Z) : avg :=
  Avg (plus_ t (avg_value s) val) (plus_ t_size (avg_count s) cnt).

#[export] Instance AvgAggregator : Aggregator avg Z := {
  init := Avg 0 0;
  merge_value s val := merge_value_internal s val 1;
  merge_aggregator s agg := merge_value_internal s (avg_value agg) (avg_count agg);
  serialize ba s := ba ← op_out (c_int junk t) ba (avg_value s); op_out (c_int junk t_size) ba (avg_count s);
  deserialize ba :=
    '(ba, v) ← op_in (c_int junk t) ba; '(ba, c) ← op_in (c_int junk t_size) ba; Ok (ba, Avg v c);
}.

Lemma AvgAggregator_laws : arith t = true →
  AggregatorLaws AvgAggregator avg_valid (in_int t)
    (λ s, le_split (it_size t) (avg_value s) ++ le_split 8 (avg_count s)).
Proof.
  intros Ht. destruct (arith_pos t Ht) as [Hp Hs]. assert (H0 : in_int t 0) by (by apply arith_0).
  assert (H1 : in_int t_size 0 ∧ in_int t_size 1) by (unfold in_int, in_unsigned; cbn; lia). destruct H1 as [H01 H1].
  split; unfold avg_valid, init, merge_value, merge_aggregator, serialize, deserialize, AvgAggregator, merge_value_internal;
    cbn [avg_value avg_count].
  - done.
  - intros. split; by apply plus_in.
  - intros. split; by apply plus_in.
  - intros [] []. by rewrite !plus_0.
  - intros. by rewrite (plus_comm t), (plus_comm t_size).
  - intros. by rewrite !plus_assoc.
  - intros. by rewrite !plus_0.
  - intros a [v c] Ha [??]. cbn [avg_value avg_count] in *. pose proof (appended_nil a Ha).
    ser_int t. ser_int t_size. eauto.
  - intros a [v c] rest Ha [??] Hc. cbn [avg_value avg_count] in *. rewrite <- app_assoc in Hc.
    pose proof (consumed_start _ _ Ha Hc). des_int t. des_int t_size. eauto.
Qed.
End avg.
(** ** AvgAggregator<VAL, KEY>, for an integer key; [order] is the order of iteration *)
Section avg_by.
Context (t k : int_type) (order : gmap Z (Z * Z) → list (Z * (Z * Z))).

Definition by_value (m : gmap Z (Z * Z)) (val : Z * Z) : gmap Z (Z * Z) :=
  let h := default (0, 0) (m !! val.1) in <[val.1 := (plus_ t h.1 val.2, plus_ t_size h.2 1)]> m.

Definition by_entry (m : gmap Z (Z * Z)) (pr : Z * (Z * Z)) : gmap Z (Z * Z) :=
  let h := default (0, 0) (m !! pr.1) in <[pr.1 := (plus_ t h.1 pr.2.1, plus_ t_size h.2 pr.2.2)]> m.

Definition c_avg_by : codec (gmap Z (Z * Z)) :=
  c_map junk order (c_int junk k) (c_pair (c_int junk t) (c_int junk t_size)).

#[export] Instance AvgAggregatorBy : Aggregator (gmap Z (Z * Z)) (Z * Z) := {
  init := ∅;
  merge_value := by_value;
  merge_aggregator m agg := foldl by_entry m (order agg);
  serialize ba m := op_out c_avg_by ba m;
  deserialize ba := op_in c_avg_by ba;
}.

Hypothesis order_perm : ∀ m, order m ≡ₚ map_to_list m.

Definition by_valid : gmap Z (Z * Z) → Prop :=
  map_Forall (λ key v, in_int k key ∧ in_int t v.1 ∧ in_int t_size v.2).

Definition add_pair (x y : Z * Z) : Z * Z := (plus_ t x.1 y.1, plus_ t_size x.2 y.2).

Definition add_option (x y : option (Z * Z)) : option (Z * Z) :=
  match y with Some y => Some (add_pair (default (0, 0) x) y) | None => x end.

Lemma fold_entries l : ∀ m i, NoDup l.*1 →
  foldl by_entry m l !! i = add_option (m !! i) (list_to_map (M := gmap Z (Z * Z)) l !! i).
Proof.
  induction l as [|[j y] l IH]; intros m i Hnd; [done|]. cbn in *. apply NoDup_cons in Hnd as [Hj Hnd].
  rewrite IH by done. unfold by_entry. cbn. destruct (decide (i = j)) as [->|].
  - rewrite !lookup_insert_eq. by rewrite not_elem_of_list_to_map_1.
  - by rewrite !lookup_insert_ne by done.
Qed.

Lemma merge_lookup m m' i :
  merge_aggregator (Aggregator := AvgAggregatorBy) m m' !! i = add_option (m !! i) (m' !! i).
Proof.
  cbn. rewrite fold_entries by (rewrite order_perm; apply NoDup_fst_map_to_list). do 2 f_equal.
  trans (list_to_map (M := gmap Z (Z * Z)) (map_to_list m')); [|apply list_to_map_to_list].
  apply list_to_map_proper; [rewrite order_perm; apply NoDup_fst_map_to_list|apply order_perm].
Qed.

(** There are no more keys than values of their type. *)
Lemma by_valid_size m : (it_size k ≤ 4)%nat → (0 < it_size k)%nat → by_valid m → in_int t_size (Z.of_nat (size m)).
Proof.
  intros Hk Hp Hm. set (n := limits_max k - limits_min k + 1).
  assert (Hn : 0 ≤ n ≤ 2 ^ 32).
  { unfold n, limits_max, limits_min, width. pose proof (limits_ordered k Hp) as Ho. unfold limits_max, limits_min, width in Ho.
    assert (2 ^ (Z.of_nat (it_size k) * 8) ≤ 2 ^ 32) by (apply Z.pow_le_mono_r; lia).
    pose proof (pow2_half (Z.of_nat (it_size k) * 8) ltac:(lia)). destruct (it_signed k); lia. }
  assert (Hle : (size m ≤ length (seqZ (limits_min k) n))%nat).
  { rewrite <- size_dom. trans (size (list_to_set (C := gset Z) (seqZ (limits_min k) n))).
    - apply subseteq_size. intros i [v Hv]%elem_of_dom. apply elem_of_list_to_set, elem_of_seqZ.
      destruct (Hm i v Hv) as [Hi _]. rewrite limits_in_int in Hi by done. unfold n. lia.
    - by rewrite size_list_to_set by apply NoDup_seqZ. }
  rewrite length_seqZ in Hle. unfold in_int, in_unsigned. cbn [t_size t_u64 it_signed it_size].
  change (Z.of_nat 8 * 8) with 64. lia.
Qed.

Lemma add_option_valid (P : Z → Prop) i x y : it_signed t = false →
  (∀ v, x = Some v → P i ∧ in_int t v.1 ∧ in_int t_size v.2) →
  (∀ v, y = Some v → P i ∧ in_int t v.1 ∧ in_int t_size v.2) →
  ∀ v, add_option x y = Some v → P i ∧ in_int t v.1 ∧ in_int t_size v.2.
Proof.
  intros Hs Hx Hy v. destruct y as [y|]; cbn; [|auto]. intros [= <-]. destruct (Hy y) as [? _]; [done|].
  split; [done|]. split; [by apply plus_in|by apply (plus_in t_size)].
Qed.

Lemma by_value_entry m v : by_value m v = by_entry m (v.1, (v.2, 1)).
Proof. done. Qed.

Lemma by_entry_lookup m pr i : by_entry m pr !! i = add_option (m !! i) (({[ pr.1 := pr.2 ]} : gmap Z (Z * Z)) !! i).
Proof.
  unfold by_entry. destruct (decide (i = pr.1)) as [->|].
  - by rewrite lookup_insert_eq, lookup_singleton_eq.
  - by rewrite lookup_insert_ne, lookup_singleton_ne by done.
Qed.

Lemma add_pair_0 y : it_signed t = false → in_int t y.1 → in_int t_size y.2 → add_pair (0, 0) y = y.
Proof. intros. destruct y. unfold add_pair. by rewrite !plus_0. Qed.

Lemma AvgAggregatorBy_laws : arith t = true → (0 < it_size k)%nat → (it_size k ≤ 4)%nat →
  ∃ enc, AggregatorLaws AvgAggregatorBy by_valid (λ v, in_int k v.1 ∧ in_int t v.2) enc.
Proof.
  intros Ht Hk0 Hk. destruct (arith_pos t Ht) as [Hp Hs].
  assert (H1 : in_int t_size 1) by (unfold in_int, in_unsigned; cbn; lia).
  pose proof (lawful_c_map junk (c_int junk k) _ _ (c_pair (c_int junk t) (c_int junk t_size)) _ _ order order_perm) as Hc.
  eexists. split.
  - apply map_Forall_empty.
  - intros m v Hm [??] i x. change (merge_value m v) with (by_value m v). rewrite by_value_entry, by_entry_lookup.
    apply add_option_valid; [done|intros y Hy; by apply Hm|]. cbn. intros y [<- <-]%lookup_singleton_Some. done.
  - intros m m' Hm Hm' i x. rewrite merge_lookup. apply add_option_valid; [done|..]; intros y Hy; [by apply Hm|by apply Hm'].
  - intros m Hm. apply map_eq. intros i. rewrite merge_lookup. change (init !! i) with ((∅ : gmap Z (Z * Z)) !! i).
    rewrite lookup_empty. destruct (m !! i) as [y|] eqn:E; [|done]. cbn. destruct (Hm i y E) as (_&?&?). by rewrite add_pair_0.
  - intros m m' Hm Hm'. apply map_eq. intros i. rewrite !merge_lookup.
    destruct (m !! i) as [x|] eqn:E, (m' !! i) as [y|] eqn:E'; cbn; try done.
    + unfold add_pair. by rewrite (plus_comm t), (plus_comm t_size).
    + destruct (Hm i x E) as (_&?&?). by rewrite add_pair_0.
    + destruct (Hm' i y E') as (_&?&?). by rewrite add_pair_0.
  - intros m1 m2 m3 H2 H3 H4. apply map_eq. intros i. rewrite !merge_lookup.
    destruct (m2 !! i) as [y|] eqn:E2, (m3 !! i) as [z|] eqn:E3; cbn; try done.
    + unfold add_pair. cbn. by rewrite !plus_assoc.
    + destruct (H4 i z E3) as (_&?&?). by rewrite add_pair_0.
  - intros m v Hm [??]. apply map_eq. intros i. rewrite merge_lookup.
    change (merge_value m v) with (by_value m v). change (merge_value init v) with (by_value ∅ v).
    rewrite !by_value_entry, !by_entry_lookup, lookup_empty. cbn [fst snd]. do 2 f_equal.
    destruct (decide (i = v.1)) as [->|]; [rewrite lookup_singleton_eq|by rewrite lookup_singleton_ne].
    cbn. by rewrite add_pair_0.
  - intros a m Ha Hm. eapply (field_out_ok c_avg_by _ _ (Lawful0 := Hc)); [done|]. split; [by apply by_valid_size|exact Hm].
  - intros a m rest Ha Hm Hcont. eapply (field_in_ok c_avg_by _ _ (Lawful0 := Hc)); [done|split; [by apply by_valid_size|exact Hm]|done].
Qed.
End avg_by.
(** ** TimerAggregator *)
Section timer.
Context (t : int_type).

Record timer := Timer { tm_sum : Z; tm_sum2 : Z; tm_min : Z; tm_max : Z; tm_count : Z }.

Definition timer_valid (s : timer) : Prop :=
  in_int t (tm_sum s) ∧ in_int t (tm_sum2 s) ∧ in_int t (tm_min s) ∧ in_int t (tm_max s) ∧ in_int t_size (tm_count s).

#[export] Instance TimerAggregator : Aggregator timer Z := {
  init := Timer 0 0 (limits_max t) (limits_min t) 0;
  merge_value s val := Timer (plus_ t (tm_sum s) val) (plus_ t (tm_sum2 s) (times_ t val val))
    (if val <? tm_min s then val else tm_min s) (if tm_max s <? val then val else tm_max s) (plus_ t_size (tm_count s) 1);
  merge_aggregator s agg := Timer (plus_ t (tm_sum s) (tm_sum agg)) (plus_ t (tm_sum2 s) (tm_sum2 agg))
    (if tm_min agg <? tm_min s then tm_min agg else tm_min s) (if tm_max s <? tm_max agg then tm_max agg else tm_max s)
    (plus_ t_size (tm_count s) (tm_count agg));
  serialize ba s :=
    ba ← op_out (c_int junk t) ba (tm_sum s); ba ← op_out (c_int junk t) ba (tm_sum2 s);
    ba ← op_out (c_int junk t) ba (tm_min s); ba ← op_out (c_int junk t) ba (tm_max s);
    op_out (c_int junk t_size) ba (tm_count s);
  deserialize ba :=
    '(ba, sum) ← op_in (c_int junk t) ba; '(ba, sum2) ← op_in (c_int junk t) ba;
    '(ba, min) ← op_in (c_int junk t) ba; '(ba, max) ← op_in (c_int junk t) ba;
    '(ba, count) ← op_in (c_int junk t_size) ba; Ok (ba, Timer sum sum2 min max count);
}.

Definition timer_enc (s : timer) : list byte :=
  le_split (it_size t) (tm_sum s) ++ le_split (it_size t) (tm_sum2 s) ++ le_split (it_size t) (tm_min s) ++
  le_split (it_size t) (tm_max s) ++ le_split 8 (tm_count s).

Lemma timer_eq a b c d e a' b' c' d' e' : a = a' → b = b' → c = c' → d = d' → e = e' →
  Timer a b c d e = Timer a' b' c' d' e'.
Proof. congruence. Qed.

Lemma extremum_in x y : (0 < it_size t)%nat → in_int t x → in_int t y → in_int t (Z.max x y) ∧ in_int t (Z.min x y).
Proof. intros Hp. rewrite !limits_in_int by done. lia. Qed.

Lemma TimerAggregator_laws : arith t = true → AggregatorLaws TimerAggregator timer_valid (in_int t) timer_enc.
Proof.
  intros Ht. destruct (arith_pos t Ht) as [Hp Hs]. pose proof (arith_0 t Ht).
  pose proof (limits_min_in t Hp). pose proof (limits_max_in t Hp).
  assert (in_int t_size 0) by (unfold in_int, in_unsigned; cbn; lia).
  assert (in_int t_size 1) by (unfold in_int, in_unsigned; cbn; lia).
  split; unfold timer_valid, timer_enc, init, merge_value, merge_aggregator, serialize, deserialize, TimerAggregator;
    cbn [tm_sum tm_sum2 tm_min tm_max tm_count]; rewrite ?max_if, ?min_if.
  - done.
  - intros s v (?&?&?&?&?) ?. rewrite max_if, min_if.
    repeat (split; [first [by apply plus_in|by apply extremum_in]|]). by apply (plus_in t_size).
  - intros s v (?&?&?&?&?) (?&?&?&?&?). rewrite max_if, min_if.
    repeat (split; [first [by apply plus_in|by apply extremum_in]|]). by apply (plus_in t_size).
  - intros [] (?&?&Hmin&Hmax&?). cbn in *. rewrite max_if, min_if. rewrite limits_in_int in Hmin, Hmax by done.
    apply timer_eq; rewrite ?plus_0 by done; lia || done.
  - intros s s' _ _. rewrite !max_if, !min_if. apply timer_eq; first [apply plus_comm|lia].
  - intros s1 s2 s3 _ _ _. rewrite !max_if, !min_if. apply timer_eq; first [apply plus_assoc|lia].
  - intros s v _ Hv. rewrite !max_if, !min_if. pose proof Hv as Hv'. rewrite limits_in_int in Hv' by done.
    apply timer_eq; rewrite ?plus_0 by (done || by apply times_in); lia || done.
  - intros a [s1 s2 s3 s4 s5] Ha (?&?&?&?&?). cbn [tm_sum tm_sum2 tm_min tm_max tm_count] in *.
    pose proof (appended_nil a Ha). do 4 ser_int t. ser_int t_size. rewrite <- !app_assoc in *. eauto.
  - intros a [s1 s2 s3 s4 s5] rest Ha (?&?&?&?&?) Hc. cbn [tm_sum tm_sum2 tm_min tm_max tm_count] in *.
    rewrite <- !app_assoc in Hc. pose proof (consumed_start _ _ Ha Hc). do 4 des_int t. des_int t_size. eauto.
Qed.
End timer.
End implementations.

(** ** Objects of any of these classes *)
#[export] Instance int_type_eq_dec : EqDecision int_type.
Proof. solve_decision. Defined.

Inductive agg_type :=
  | SumOf (t : int_type)
  | MaxOf (t : int_type)
  | MinOf (t : int_type)
  | AvgOf (t : int_type)
  | AvgByOf (t k : int_type)
  | TimerOf (t : int_type).

#[export] Instance agg_type_eq_dec : EqDecision agg_type.
Proof. solve_decision. Defined.

Definition state_of (ty : agg_type) : Type :=
  match ty with
  | SumOf _ | MaxOf _ | MinOf _ => Z
  | AvgOf _ => avg
  | AvgByOf _ _ => gmap Z (Z * Z)
  | TimerOf _ => timer
  end.

Definition value_of (ty : agg_type) : Type := match ty with AvgByOf _ _ => Z * Z | _ => Z end.

(** The instantiations that are modelled. *)
Definition type_ok (ty : agg_type) : bool :=
  match ty with
  | SumOf t | AvgOf t | TimerOf t => arith t
  | MaxOf t | MinOf t => (1 <=? it_size t)%nat
  | AvgByOf t k => arith t && (1 <=? it_size k)%nat && (it_size k <=? 4)%nat
  end.

Definition state_valid (ty : agg_type) : state_of ty → Prop :=
  match ty with
  | SumOf t | MaxOf t | MinOf t => in_int t
  | AvgOf t => avg_valid t
  | AvgByOf t k => by_valid t k
  | TimerOf t => timer_valid t
  end.

Definition value_valid (ty : agg_type) : value_of ty → Prop :=
  match ty with
  | SumOf t | MaxOf t | MinOf t | AvgOf t | TimerOf t => in_int t
  | AvgByOf t k => λ v, in_int k v.1 ∧ in_int t v.2
  end.

(** An object of the class [ty] behind an [AggregatorBase*]. *)
Record object := Object { o_type : agg_type; o_state : state_of o_type }.

(** [static_cast<AGG*>]: undefined for an object of another class. *)
Definition static_cast (ty : agg_type) (o : object) : result (state_of ty) :=
  match decide (o_type o = ty) with
  | left e => Ok (eq_rect _ state_of (o_state o) _ e)
  | right _ => Abort
  end.

Lemma static_cast_ok ty s : static_cast ty (Object ty s) = Ok s.
Proof.
  unfold static_cast. destruct (decide _) as [e|]; [|done]. cbn in *. by rewrite <- (Eqdep_dec.eq_rect_eq_dec agg_type_eq_dec).
Qed.

Lemma static_cast_inv ty o s : static_cast ty o = Ok s → o = Object ty s.
Proof. unfold static_cast. destruct (decide _) as [<-|]; [|done]. destruct o. cbn. by intros [= <-]. Qed.

(** [_producers]: a producer is the class it makes. *)
Abbreviation factory := (gmap str agg_type).

Section objects.
Context (junk : nat → byte) (order : gmap Z (Z * Z) → list (Z * (Z * Z))).
Hypothesis order_perm : ∀ m, order m ≡ₚ map_to_list m.

#[export] Instance agg_of (ty : agg_type) : Aggregator (state_of ty) (value_of ty) :=
  match ty with
  | SumOf t => SumAggregator junk t
  | MaxOf t => ArithmeticMaxAggregator junk t
  | MinOf t => ArithmeticMinAggregator junk t
  | AvgOf t => AvgAggregator junk t
  | AvgByOf t k => AvgAggregatorBy junk t k order
  | TimerOf t => TimerAggregator junk t
  end.

Lemma laws_of ty : type_ok ty = true →
  ∃ enc, AggregatorLaws (agg_of ty) (state_valid ty) (value_valid ty) enc.
Proof using order_perm.
  destruct ty as [t|t|t|t|t k|t]; cbn [type_ok]; intros Hok.
  - eexists. by apply SumAggregator_laws.
  - eexists. apply ArithmeticMaxAggregator_laws. apply Nat.leb_le in Hok. lia.
  - eexists. apply ArithmeticMinAggregator_laws. apply Nat.leb_le in Hok. lia.
  - eexists. by apply AvgAggregator_laws.
  - apply andb_true_iff in Hok as [[Hok H1%Nat.leb_le]%andb_true_iff H2%Nat.leb_le].
    apply AvgAggregatorBy_laws; [done|done|lia|done].
  - eexists. by apply TimerAggregator_laws.
Qed.

(** The virtual methods. *)
Definition obj_init (o : object) : object := Object (o_type o) (init (Aggregator := agg_of (o_type o))).
Definition obj_serialize (ba : archive) (o : object) : result archive := serialize ba (o_state o).
Definition obj_deserialize (ba : archive) (o : object) : result (archive * object) :=
  '(ba, s) ← deserialize (Aggregator := agg_of (o_type o)) ba; Ok (ba, Object (o_type o) s).

(** [merge_aggregator] of an object behind a pointer to the base class. *)
Definition obj_merge (o agg : object) : result object :=
  s ← static_cast (o_type o) agg; Ok (Object (o_type o) (merge_aggregator (o_state o) s)).

(** ** The factory *)

(** What [typeid(T).name()] is. *)
Context (type_name : agg_type → str).

Definition register_producer (f : factory) (ty : agg_type) : factory * bool :=
  match f !! type_name ty with
  | None => (<[type_name ty := ty]> f, true)
  | Some _ => (f, false)
  end.

(** Value-initialization. *)
Definition zero_of (ty : agg_type) : state_of ty :=
  match ty with
  | SumOf _ | MaxOf _ | MinOf _ => 0
  | AvgOf _ => Avg 0 0
  | AvgByOf _ _ => ∅
  | TimerOf _ => Timer 0 0 0 0 0
  end.

(** [None] is the null pointer. *)
Definition create (f : factory) (name : str) : option object := (λ ty, Object ty (zero_of ty)) <$> f !! name.

Definition exist (f : factory) (name : str) : bool := bool_decide (is_Some (f !! name)).

(** The factory after the instantiations of [AggregatorRegisterAgent::dummy]. *)
Definition register_all (f : factory) (tys : list agg_type) : factory :=
  foldl (λ f ty, (register_producer f ty).1) f tys.

(** A factory of the classes [tys] only, each under its own name. *)
Definition FactoryGood (tys : list agg_type) (f : factory) : Prop :=
  ∀ n ty, f !! n = Some ty → ty ∈ tys ∧ n = type_name ty.

(** The names of the classes [all] are different. *)
Context (all : list agg_type).
Hypothesis names_inj : ∀ a b, a ∈ all → b ∈ all → type_name a = type_name b → a = b.

Lemma register_producer_eq f ty : FactoryGood all f → ty ∈ all →
  (register_producer f ty).1 = <[type_name ty := ty]> f.
Proof using names_inj.
  intros Hf Hty. unfold register_producer. destruct (f !! type_name ty) as [ty'|] eqn:E; [|done].
  destruct (Hf _ _ E) as [? ->%names_inj]; [|done..]. by rewrite insert_id.
Qed.

(** Every class is made under its own name, and nothing else is made. *)
Lemma register_all_lookup tys : ∀ f, FactoryGood all f → (∀ ty, ty ∈ tys → ty ∈ all) → ∀ n ty,
  register_all f tys !! n = Some ty ↔ (ty ∈ tys ∧ n = type_name ty) ∨ f !! n = Some ty.
Proof using names_inj.
  induction tys as [|t tys IH]; intros f Hf Hall n ty; cbn.
  { split; [auto|]. intros [[[]%elem_of_nil _]|?]; done. }
  assert (Ht : t ∈ all) by (apply Hall; left).
  rewrite register_producer_eq by done. rewrite IH.
  - rewrite elem_of_cons. destruct (decide (n = type_name t)) as [->|].
    + rewrite lookup_insert_eq. split.
      * intros [[? ?]|[= ->]]; auto.
      * intros [[[->|?] Hn]|H]; [auto|auto|]. destruct (Hf _ _ H) as [? ->%names_inj]; auto.
    + rewrite lookup_insert_ne by done. split; [naive_solver|]. intros [[[->|?] ?]|?]; naive_solver.
  - intros n' ty'. destruct (decide (n' = type_name t)) as [->|].
    + rewrite lookup_insert_eq. by intros [= <-].
    + rewrite lookup_insert_ne by done. apply Hf.
  - intros ty' ?. apply Hall. by right.
Qed.

Lemma create_registered ty : ty ∈ all → create (register_all ∅ all) (type_name ty) = Some (Object ty (zero_of ty)).
Proof using names_inj.
  intros Hty. unfold create. assert (Hf : register_all ∅ all !! type_name ty = Some ty); [|by rewrite Hf].
  apply register_all_lookup; [|auto|auto]. intros n ty'. by rewrite lookup_empty.
Qed.
End objects.
