(* ===== verification/Accumulator.v ===== *)
(** * Accumulators

    src/src/accumulator: [AccumulatorManager] (names, numbers and classes of a process),
    [AccumulatorServer] (the aggregators of the cluster and the requests on them),
    [AccumulatorClient] (the two buffers of a process and the requests it sends) and
    [Accumulator] (what a thread writes to).  Each operation is a function here, as far as
    it holds its lock; AccSystem.v interleaves them.

    A request or a response is the [item] of Message.v, written and read through the
    serializers; between the two ends its body is the same (C6 and C33), which is
    [arrive].  An aggregator is the [object] of Aggregator.v.  A [std::unordered_map] is a
    finite map, the two entries of an array of buffers are its values at [false] and [true]. *)
From S2P Require Import Prelude Archive Serialize LazyArchive Message Master Aggregator.
Import MemoryArchive.

Section accumulator.
Context (junk : nat → byte) (order : gmap Z (Z * Z) → list (Z * (Z * Z))) (type_name : agg_type → str).
(** The producers that were registered when the process started. *)
Context (f : factory).

Abbreviation put c a x := (op_out c a x).
Abbreviation put_string a s := (op_out (c_string junk) a s).
Abbreviation get_string a := (op_in (c_string junk) a).
Abbreviation put_char a z := (op_out (c_int junk t_i8) a z).
Abbreviation get_char a := (op_in (c_int junk t_i8) a).

(** The characters [ACCUMULATOR_SERVICE_API_]... *)
Definition API_READ : Z := 82.
Definition API_WRITE : Z := 87.
Definition API_RESET : Z := 67.
Definition API_ERASE : Z := 69.
Definition API_ERASE_ALL : Z := 65.
Definition API_WAIT_EMPTY : Z := 73.
Definition API_START : Z := 48.
Definition API_STOP : Z := 49.

(** ** AccumulatorManager *)
Record manager := Manager { _vec_name_type : list (str * str); mg_name2id : gmap str nat }.

Definition manager_ : manager := Manager [] ∅.

Definition alloc_accumulator_id (m : manager) (name : str) (ty : agg_type) : result (manager * nat) :=
  match mg_name2id m !! name with
  | None =>
      let id := length (_vec_name_type m) in
      Ok (Manager (_vec_name_type m ++ [(name, type_name ty)]) (<[name := id]> (mg_name2id m)), id)
  | Some id =>
      match _vec_name_type m !! id with
      | Some (_, old) => _ ← SCHECK (bool_decide (type_name ty = old)); Ok (m, id)
      | None => Abort
      end
  end.

Definition get_id_by_name (m : manager) (name : str) : option nat := mg_name2id m !! name.

(** [_vec_name_type[id]] out of range is undefined. *)
Definition get_typename_by_name (m : manager) (name : str) : result (option str) :=
  match mg_name2id m !! name with
  | None => Ok None
  | Some id => match _vec_name_type m !! id with Some (_, ty) => Ok (Some ty) | None => Abort end
  end.

Definition get_typename_by_id (m : manager) (id : nat) : option str := snd <$> _vec_name_type m !! id.
Definition get_name_by_id (m : manager) (id : nat) : option str := fst <$> _vec_name_type m !! id.

(** ** AccumulatorServer *)
Record server := Server {
  sv_started : bool;
  _client_count : Z;
  _umap_name2aggs : gmap str (str * object);
  _agg_pool : gmap str object;
}.

Definition server_ : server := Server false 0 ∅ ∅.

Definition with_aggs (s : server) m := Server (sv_started s) (_client_count s) m (_agg_pool s).
Definition with_pool (s : server) p := Server (sv_started s) (_client_count s) (_umap_name2aggs s) p.
Definition with_count (s : server) n := Server (sv_started s) n (_umap_name2aggs s) (_agg_pool s).

Definition server_initialize (s : server) : result server :=
  _ ← SCHECK (negb (sv_started s)); Ok (Server true (_client_count s) (_umap_name2aggs s) (_agg_pool s)).

Definition server_finalize (s : server) : result server :=
  _ ← SCHECK (sv_started s); Ok (Server false (_client_count s) (_umap_name2aggs s) (_agg_pool s)).

Definition get_agg_from_pool (s : server) (ty : str) : result (server * object) :=
  match _agg_pool s !! ty with
  | Some o => Ok (s, o)
  | None =>
      match create f ty with
      | None => Abort
      | Some o => Ok (with_pool s (<[ty := o]> (_agg_pool s)), o)
      end
  end.

(** The first lines of reading and resetting: the aggregator, if there is one. *)
Definition find_agg (s : server) (ba : archive) : result (archive * str * option object) :=
  '(ba, name) ← get_string ba;
  '(ba, ty) ← get_string ba;
  match _umap_name2aggs s !! name with
  | None => Ok (ba, name, None)
  | Some (ty', o) => _ ← SCHECK (bool_decide (ty = ty')); Ok (ba, name, Some o)
  end.

Definition process_read_request (s : server) (q : item) : result (archive * item) :=
  '(ba, _, o) ← find_agg s (q_ar q);
  response ← RpcResponse_new junk (q_head q);
  match o with
  | None => Ok (ba, set_error_code response ENOTFOUND)
  | Some o => ar ← obj_serialize junk order (q_ar response) o; Ok (ba, with_ar response ar)
  end.

Definition process_reset_request (s : server) (q : item) : result (server * archive * item) :=
  '(ba, name, o) ← find_agg s (q_ar q);
  response ← RpcResponse_new junk (q_head q);
  match o with
  | None => Ok (s, ba, set_error_code response ENOTFOUND)
  | Some o =>
      let aggs := alter (λ p, (p.1, obj_init junk order o)) name (_umap_name2aggs s) in
      Ok (with_aggs s aggs, ba, response)
  end.

(** One round of the loop of [process_write_request]. *)
Definition write_one (s : server) (ba : archive) : result (server * archive) :=
  '(ba, name) ← get_string ba;
  '(ba, ty) ← get_string ba;
  match _umap_name2aggs s !! name with
  | None =>
      match create f ty with
      | None => Abort
      | Some o =>
          '(ba, o) ← obj_deserialize junk order ba (obj_init junk order o);
          Ok (with_aggs s (<[name := (ty, o)]> (_umap_name2aggs s)), ba)
      end
  | Some (ty', o) =>
      '(s, delta) ← get_agg_from_pool s ty;
      '(ba, delta) ← obj_deserialize junk order ba (obj_init junk order delta);
      let s := with_pool s (<[ty := delta]> (_agg_pool s)) in
      _ ← SCHECK (bool_decide (ty = ty'));
      o ← obj_merge junk order o delta;
      Ok (with_aggs s (<[name := (ty', o)]> (_umap_name2aggs s)), ba)
  end.

Fixpoint write_loop (n : nat) (s : server) (ba : archive) : result (server * archive) :=
  match n with
  | O => Ok (s, ba)
  | S n => '(s, ba) ← write_one s ba; write_loop n s ba
  end.

Definition process_write_request (s : server) (q : item) : result (server * archive * item) :=
  '(ba, count) ← op_in (c_int junk t_size) (q_ar q);
  '(s, ba) ← write_loop (Z.to_nat count) s ba;
  response ← RpcResponse_new junk (q_head q);
  Ok (s, ba, response).

Definition process_erase_request (s : server) (q : item) : result (server * archive * item) :=
  '(ba, names) ← op_in (c_vector junk (c_string junk)) (q_ar q);
  response ← RpcResponse_new junk (q_head q);
  Ok (with_aggs s (foldl (λ m name, delete name m) (_umap_name2aggs s) names), ba, response).

Definition process_erase_all_request (s : server) (q : item) : result (server * archive * item) :=
  response ← RpcResponse_new junk (q_head q); Ok (with_aggs s ∅, q_ar q, response).

(** [comm_rank_t] is [int16_t]. *)
Definition process_start_request (s : server) (q : item) : result (server * archive * item) :=
  response ← RpcResponse_new junk (q_head q); Ok (with_count s (i16 (_client_count s + 1)), q_ar q, response).

Definition process_stop_request (s : server) (q : item) : result (server * archive * item) :=
  _ ← SCHECK (0 <? _client_count s);
  response ← RpcResponse_new junk (q_head q);
  Ok (with_count s (i16 (_client_count s - 1)), q_ar q, response).

(** What becomes of a request: it is answered, kept until the queue is empty, or, with an
    unknown operation, dropped. *)
Inductive answer := Reply (resp : item) | Keep (q : item) | Drop.

(** The [switch] of [process_request]. *)
Definition handle (op : Z) (s : server) (q : item) : result (server * archive * answer) :=
  if op =? API_READ then '(ba, r) ← process_read_request s q; Ok (s, ba, Reply r)
  else if op =? API_WRITE then '(s, ba, r) ← process_write_request s q; Ok (s, ba, Reply r)
  else if op =? API_RESET then '(s, ba, r) ← process_reset_request s q; Ok (s, ba, Reply r)
  else if op =? API_ERASE then '(s, ba, r) ← process_erase_request s q; Ok (s, ba, Reply r)
  else if op =? API_ERASE_ALL then '(s, ba, r) ← process_erase_all_request s q; Ok (s, ba, Reply r)
  else if op =? API_START then '(s, ba, r) ← process_start_request s q; Ok (s, ba, Reply r)
  else if op =? API_STOP then '(s, ba, r) ← process_stop_request s q; Ok (s, ba, Reply r)
  else if op =? API_WAIT_EMPTY then Ok (s, MemoryArchive_ false, Keep q)
  else Ok (s, q_ar q, Drop).

(** The body of its inner loop: what is left of the request must be nothing. *)
Definition dispatch (s : server) (q : item) : result (server * answer) :=
  '(ba, op) ← get_char (q_ar q);
  '(s, ba, r) ← handle op s (with_ar q ba);
  _ ← SCHECK (is_exhausted ba);
  Ok (s, r).

(** The loop of [process_request]: [recv_request] has returned a request, or has returned
    false because the queue is empty (it does not wait when requests are kept) or the
    dealer terminated.  The third component is whether the thread ends. *)
Definition process_request (s : server) (wait_empty_reqs : list item) (q : option item)
    : result (server * list item * list item * bool) :=
  match q with
  | Some q =>
      '(s, r) ← dispatch s q;
      Ok match r with
         | Reply resp => (s, wait_empty_reqs, [resp], false)
         | Keep q => (s, wait_empty_reqs ++ [q], [], false)
         | Drop => (s, wait_empty_reqs, [], false)
         end
  | None =>
      match wait_empty_reqs with
      | [] => Ok (s, [], [], true)
      | reqs =>
          resps ← foldr (λ q rs, r ← RpcResponse_new junk (q_head q); rs ← rs; Ok (r :: rs)) (Ok []) reqs;
          Ok (s, [], resps, false)
      end
  end.

(** ** A call *)

(** What the other side gets. *)
Definition arrive (q : item) : result item :=
  ar ← set_read_buffer (MemoryArchive_ false) (content (q_ar q)) DelNone;
  Ok (Item (q_head q) ar LazyArchive_ None).

(** [sync_rpc_call], up to the answer of the server. *)
Definition rpc (s : server) (q : item) : result (server * item) :=
  q ← arrive q;
  '(s, r) ← dispatch s q;
  match r with Reply resp => resp ← arrive resp; Ok (s, resp) | _ => Abort end.

(** [RpcRequest request; request.head().sid = sd; request << op]; resetting and erasing leave
    the number of the server at -1. *)
Definition new_request (sd op : Z) : result item :=
  ar ← empty_body junk;
  ar ← put_char ar op;
  Ok (Item (RpcHead 0 (-1) (-1) (-1) (-1) (-1) sd 0 0 SUCC) ar LazyArchive_ None).

Definition has_error (resp : item) : bool := negb (error_code (q_head resp) =? SUCC).

(** [get_error]: an unknown code is fatal. *)
Definition get_error (resp : item) : result str :=
  if error_code (q_head resp) =? SUCC then Ok []
  else if error_code (q_head resp) =? ENOTFOUND then Ok (lit "Cannot find aggregator on server")
  else Abort.

(** ** AccumulatorClient *)

(** One of the two buffers; an entry is an aggregator, its name and its class. *)
Record buffer := Buffer {
  _pending_aggs : list (object * str * str);
  _pending_aggs_flag : list bool;
  _write_pending_cnt : Z;
}.

(** [cl_dealer]: [_dealer] is not null.  [cl_adding]: a thread is in [add_aggregator] with a new
    name; it holds [_client_mutex] and [_pending_agg_size_mutex] and is appending to the
    vectors of both buffers. *)
Record client := Client {
  _writer_closed : bool;
  cl_started : bool;
  cl_buf : bool → buffer;
  cl_name2id : gmap str nat;
  _pending_aggs_idx : bool;
  cl_dealer : bool;
  cl_adding : bool;
}.

Definition client_ : client := Client true false (λ _, Buffer [] [] 0) ∅ false false false.

Definition set_buf (c : client) (i : bool) (b : buffer) : client :=
  Client (_writer_closed c) (cl_started c) (λ j, if Bool.eqb j i then b else cl_buf c j) (cl_name2id c)
    (_pending_aggs_idx c) (cl_dealer c) (cl_adding c).
Definition with_cnt (b : buffer) n := Buffer (_pending_aggs b) (_pending_aggs_flag b) n.
Definition with_closed (c : client) x := Client x (cl_started c) (cl_buf c) (cl_name2id c) (_pending_aggs_idx c) (cl_dealer c) (cl_adding c).
Definition with_started (c : client) x := Client (_writer_closed c) x (cl_buf c) (cl_name2id c) (_pending_aggs_idx c) (cl_dealer c) (cl_adding c).
Definition with_idx (c : client) i :=
  Client (_writer_closed c) (cl_started c) (cl_buf c) (cl_name2id c) i (cl_dealer c) (cl_adding c).
Definition with_dealer (c : client) x :=
  Client (_writer_closed c) (cl_started c) (cl_buf c) (cl_name2id c) (_pending_aggs_idx c) x (cl_adding c).
Definition with_adding (c : client) x :=
  Client (_writer_closed c) (cl_started c) (cl_buf c) (cl_name2id c) (_pending_aggs_idx c) (cl_dealer c) x.

(** [write<AGG>]: the class of what is written is [ty].  It looks the name up under
    [_client_mutex] and does the rest under [_write_mutex]; the vectors that it indexes may then
    be growing in [add_aggregator], which is a data race. *)
Definition client_write (c : client) (name : str) (ty : agg_type) (agg : state_of ty) : result (client * bool) :=
  match cl_name2id c !! name with
  | None => Ok (c, false)
  | Some id =>
      if _writer_closed c then Ok (c, false)
      else if cl_adding c then Abort
      else
        let i := _pending_aggs_idx c in
        let b := cl_buf c i in
        match _pending_aggs b !! id with
        | None => Abort
        | Some (o, n, tn) =>
            s ← static_cast ty o;
            let o := Object ty (merge_aggregator (Aggregator := agg_of junk order ty) s agg) in
            let b := Buffer (<[id := (o, n, tn)]> (_pending_aggs b)) (<[id := true]> (_pending_aggs_flag b))
                       (u64 (_write_pending_cnt b + 1)) in
            Ok (set_buf c i b, true)
        end
  end.

(** A round of the loop of [add_aggregator]. *)
Definition add_pending (b : buffer) (o : object) (name tn : str) : buffer :=
  Buffer (_pending_aggs b ++ [(obj_init junk order o, name, tn)]) (_pending_aggs_flag b ++ [false]) (_write_pending_cnt b).

(** [add_aggregator] up to where it has its locks, and the whole of it. *)
Definition add_begin (c : client) (name : str) : client :=
  match cl_name2id c !! name with Some _ => c | None => with_adding c true end.

Definition add_aggregator (c : client) (name : str) (ty : agg_type) : result client :=
  match cl_name2id c !! name with
  | Some _ => Ok c
  | None =>
      match create f (type_name ty) with
      | None => Abort
      | Some o =>
          let id := length (_pending_aggs (cl_buf c false)) in
          Ok (Client (_writer_closed c) (cl_started c) (λ i, add_pending (cl_buf c i) o name (type_name ty))
                (<[name := id]> (cl_name2id c)) (_pending_aggs_idx c) (cl_dealer c) false)
      end
  end.

(** The two loops of [send2server] over a buffer: how many aggregators are sent, and
    writing them. *)
Definition sending_cnt (flags : list bool) : nat := length (filter (λ b, b = true) flags).

Fixpoint send_pending (ar : archive) (aggs : list (object * str * str)) (flags : list bool)
    : result (archive * list (object * str * str)) :=
  match aggs, flags with
  | [], _ => Ok (ar, [])
  | (o, name, tn) :: aggs, true :: flags =>
      ar ← put_string ar name;
      ar ← put_string ar tn;
      ar ← obj_serialize junk order ar o;
      '(ar, aggs) ← send_pending ar aggs flags;
      Ok (ar, (obj_init junk order o, name, tn) :: aggs)
  | a :: aggs, false :: flags => '(ar, aggs) ← send_pending ar aggs flags; Ok (ar, a :: aggs)
  | _ :: _, [] => Abort
  end.

(** [send2server] up to the call; [None]: nothing is to be sent. *)
Definition send2server (c : client) (idx : bool) : result (client * option item) :=
  let b := cl_buf c idx in
  let n := sending_cnt (_pending_aggs_flag b) in
  if (n =? 0)%nat then Ok (c, None)
  else
    q ← new_request 0 API_WRITE;
    ar ← put (c_int junk t_size) (q_ar q) (u64 (Z.of_nat n));
    '(ar, aggs) ← send_pending ar (_pending_aggs b) (_pending_aggs_flag b);
    Ok (set_buf c idx (Buffer aggs (replicate (length (_pending_aggs_flag b)) false) (_write_pending_cnt b)),
        Some (with_ar q ar)).

(** The end of [send2server]. *)
Definition send_call (s : server) (q : item) : result server :=
  '(s, resp) ← rpc s q; _ ← SCHECK (negb (has_error resp)); Ok s.

(** [_dealer->sync_rpc_call]. *)
Definition dealer_call (c : client) (s : server) (q : item) : result (server * item) :=
  if cl_dealer c then rpc s q else Abort.

(** [initialize] and [finalize] send an operation without arguments. *)
Definition simple_call (c : client) (s : server) (op : Z) : result (server * bool) :=
  q ← new_request 0 op; '(s, resp) ← dealer_call c s q;
  if has_error resp then _ ← get_error resp; Ok (s, false) else Ok (s, true).

Definition initialize_writer (c : client) : client := if _writer_closed c then with_closed c false else c.

Definition client_initialize (s : server) (c : client) : result (server * client) :=
  let c := with_dealer c true in
  _ ← SCHECK (negb (cl_started c));
  '(s, ok) ← simple_call c s API_START;
  _ ← SCHECK ok;
  Ok (s, initialize_writer (with_started c true)).

(** [finalize] until it waits for the thread, and after that. *)
Definition client_finalize_begin (c : client) : result client :=
  _ ← SCHECK (cl_started c); Ok (with_closed c true).

Definition client_finalize_end (s : server) (c : client) : result (server * client) :=
  let c := with_started c false in
  '(s, ok) ← simple_call c s API_STOP;
  _ ← SCHECK ok;
  Ok (s, with_dealer c false).

(** The condition [wait_empty] waits for. *)
Definition wait_empty_writer (c : client) : bool :=
  _writer_closed c || ((_write_pending_cnt (cl_buf c false) =? 0) && (_write_pending_cnt (cl_buf c true) =? 0)).

(** [read]: [None] is a failure that is reported. *)
Definition inner_read (c : client) (s : server) (name tn : str) (ty : agg_type) : result (server * option (state_of ty)) :=
  q ← new_request 0 API_READ;
  ar ← put_string (q_ar q) name; ar ← put_string ar tn;
  '(s, resp) ← dealer_call c s (with_ar q ar);
  if has_error resp then _ ← get_error resp; Ok (s, None)
  else
    '(ar, st) ← deserialize (Aggregator := agg_of junk order ty) (q_ar resp);
    _ ← SCHECK (is_exhausted ar);
    Ok (s, Some st).

Definition client_read (c : client) (s : server) (m : manager) (name : str) (ty : agg_type)
    : result (server * option (state_of ty)) :=
  tn ← get_typename_by_name m name;
  match tn with None => Ok (s, None) | Some tn => inner_read c s name tn ty end.

Definition client_reset (c : client) (s : server) (m : manager) (name : str) : result (server * bool) :=
  tn ← get_typename_by_name m name;
  match tn with
  | None => Ok (s, false)
  | Some tn =>
      q ← new_request (-1) API_RESET;
      ar ← put_string (q_ar q) name; ar ← put_string ar tn;
      '(s, resp) ← dealer_call c s (with_ar q ar);
      if has_error resp then _ ← get_error resp; Ok (s, false) else Ok (s, true)
  end.

Definition client_erase (c : client) (s : server) (names : list str) : result (server * bool) :=
  q ← new_request (-1) API_ERASE;
  ar ← put (c_vector junk (c_string junk)) (q_ar q) names;
  '(s, resp) ← dealer_call c s (with_ar q ar);
  if has_error resp then _ ← get_error resp; Ok (s, false) else Ok (s, true).

Definition client_erase_all (c : client) (s : server) : result (server * bool) := simple_call c s API_ERASE_ALL.

(** ** Accumulator *)
Record accumulator := MkAccumulator {
  ac_type : agg_type;
  _agg : state_of ac_type;
  _id : nat;
  _name : str;
  _cached_count : Z;
  _flush_freq : Z;
  _final_need_flush : bool;
}.

(** The constructor, up to the call of [add_aggregator]. *)
Definition Accumulator_ (m : manager) (ty : agg_type) (name : str) (flush_freq : Z) (final : bool)
    : result (manager * accumulator) :=
  '(m, id) ← alloc_accumulator_id m name ty;
  Ok (m, MkAccumulator ty (init (Aggregator := agg_of junk order ty)) id name 0 flush_freq final).

Definition flush_nonlock (c : client) (a : accumulator) : result (client * accumulator * bool) :=
  if _cached_count a =? 0 then Ok (c, a, true)
  else
    '(c, ret) ← client_write c (_name a) (ac_type a) (_agg a);
    Ok (c, MkAccumulator (ac_type a) (init (Aggregator := agg_of junk order (ac_type a))) (_id a) (_name a) 0
             (_flush_freq a) (_final_need_flush a), ret).

(** [write], for a value of the class of the accumulator. *)
Definition acc_write (c : client) (a : accumulator) (v : value_of (ac_type a)) : result (client * accumulator * bool) :=
  let a := MkAccumulator (ac_type a) (merge_value (Aggregator := agg_of junk order (ac_type a)) (_agg a) v) (_id a)
             (_name a) (u64 (_cached_count a + 1)) (_flush_freq a) (_final_need_flush a) in
  if (0 <? _flush_freq a) && (_flush_freq a <=? _cached_count a) then flush_nonlock c a else Ok (c, a, true).

(** The destructor. *)
Definition acc_destroy (c : client) (a : accumulator) : result client :=
  if _final_need_flush a then '(c, _, _) ← flush_nonlock c a; Ok c else Ok c.
End accumulator.

(** ** What the bytes of a request stand for *)
Section proofs.
Context (junk : nat → byte) (order : gmap Z (Z * Z) → list (Z * (Z * Z))) (type_name : agg_type → str).
Context (tys : list agg_type) (class_of : str → agg_type).

(** The assumptions: [order] enumerates a map; the names of classes are different and are
    strings; [class_of] says of which class the accumulators with a name are, and all these
    classes are registered. *)
Hypothesis order_perm : ∀ m, order m ≡ₚ map_to_list m.
Hypothesis names_ok : ∀ ty, ty ∈ tys → str_ok (type_name ty).
Hypothesis classes : ∀ name, class_of name ∈ tys ∧ type_ok (class_of name) = true.
Hypothesis names_inj : ∀ a b, a ∈ tys → b ∈ tys → type_name a = type_name b → a = b.

Abbreviation f := (register_all type_name ∅ tys).
Abbreviation agg_at ty := (agg_of junk order ty).
Abbreviation merge ty := (merge_aggregator (Aggregator := agg_at ty)).
Abbreviation fresh ty := (init (Aggregator := agg_at ty)).

(** [bs] is read as the state of [o]. *)
Definition obj_bytes (o : object) (bs : list byte) : Prop := ∀ a rest, wf a → content a = bs ++ rest →
  ∃ a', deserialize (Aggregator := agg_at (o_type o)) a = Ok (a', o_state o) ∧ consumed a rest a'.

Lemma obj_serialize_ok ty s a : type_ok ty = true → state_valid ty s → ready a →
  ∃ a' bs, obj_serialize junk order a (Object ty s) = Ok a' ∧ appended a bs a' ∧ obj_bytes (Object ty s) bs.
Proof using order_perm.
  intros Hok Hs Ha. destruct (laws_of junk order order_perm ty Hok) as [enc laws].
  destruct (serialize_ok (AggregatorLaws := laws) a s Ha Hs) as (a'&He&Hap).
  exists a', (enc s). split; [done|]. split; [done|]. intros b rest Hb Hc.
  by apply (deserialize_ok (AggregatorLaws := laws)).
Qed.

Lemma obj_deserialize_ok ty s o bs a rest : obj_bytes (Object ty s) bs → wf a → content a = bs ++ rest → o_type o = ty →
  ∃ a', obj_deserialize junk order a (obj_init junk order o) = Ok (a', Object ty s) ∧ consumed a rest a'.
Proof.
  intros Hb Ha Hc <-. destruct (Hb a rest Ha Hc) as (a'&He&?). exists a'. split; [|done].
  unfold obj_deserialize, obj_init. cbn [o_type o_state] in *. by rewrite He.
Qed.

Lemma obj_merge_ok ty s d : obj_merge junk order (Object ty s) (Object ty d) = Ok (Object ty (merge ty s d)).
Proof. unfold obj_merge. cbn [o_type o_state]. by rewrite static_cast_ok. Qed.

(** The commutative monoid of a class. *)
Ltac from_laws law :=
  match goal with |- context [agg_of _ _ ?ty] =>
    let Hok := fresh in let L := fresh in intros Hok; destruct (laws_of junk order order_perm ty Hok) as [? L]; 
    pose proof (law _ _ _ _ _ _ L); auto end.

Lemma fresh_valid ty : type_ok ty = true → state_valid ty (fresh ty).
Proof using order_perm. from_laws (@init_valid). Qed.

Lemma merge_valid ty s d : type_ok ty = true → state_valid ty s → state_valid ty d → state_valid ty (merge ty s d).
Proof using order_perm. from_laws (@merge_aggregator_valid). Qed.

Lemma merge_fresh_l ty s : type_ok ty = true → state_valid ty s → merge ty (fresh ty) s = s.
Proof using order_perm. from_laws (@merge_init). Qed.

Lemma merge_sym ty s d : type_ok ty = true → state_valid ty s → state_valid ty d → merge ty s d = merge ty d s.
Proof using order_perm. from_laws (@merge_comm). Qed.

Lemma merge_fresh_r ty s : type_ok ty = true → state_valid ty s → merge ty s (fresh ty) = s.
Proof using order_perm. intros. rewrite merge_sym, merge_fresh_l by auto using fresh_valid. done. Qed.

Lemma merge_ass ty s1 s2 s3 : type_ok ty = true → state_valid ty s1 → state_valid ty s2 → state_valid ty s3 →
  merge ty s1 (merge ty s2 s3) = merge ty (merge ty s1 s2) s3.
Proof using order_perm. from_laws (@merge_assoc). Qed.

Lemma single_value ty s v : type_ok ty = true → state_valid ty s → value_valid ty v →
  merge_value (Aggregator := agg_at ty) s v = merge ty s (merge_value (Aggregator := agg_at ty) (fresh ty) v).
Proof using order_perm. from_laws (@merge_value_single). Qed.

Lemma value_merged_valid ty s v : type_ok ty = true → state_valid ty s → value_valid ty v →
  state_valid ty (merge_value (Aggregator := agg_at ty) s v).
Proof using order_perm. from_laws (@merge_value_valid). Qed.

(** Sums of states. *)
Definition merge_all ty (l : list (state_of ty)) : state_of ty := foldr (merge ty) (fresh ty) l.

Lemma merge_all_valid ty l : type_ok ty = true → Forall (state_valid ty) l → state_valid ty (merge_all ty l).
Proof using order_perm. intros Hok. induction 1; cbn; auto using fresh_valid, merge_valid. Qed.

Lemma merge_all_app ty l k : type_ok ty = true → Forall (state_valid ty) l → Forall (state_valid ty) k →
  merge_all ty (l ++ k) = merge ty (merge_all ty l) (merge_all ty k).
Proof using order_perm.
  intros Hok Hl Hk. pose proof (merge_all_valid ty k Hok Hk) as Hvk. induction Hl as [|s l Hs Hl IH].
  - symmetry. by apply merge_fresh_l.
  - cbn [app merge_all foldr]. fold (merge_all ty (l ++ k)) (merge_all ty l). rewrite IH. apply merge_ass; auto using merge_all_valid.
Qed.

Lemma merge_all_perm ty l k : type_ok ty = true → Forall (state_valid ty) l → l ≡ₚ k → merge_all ty l = merge_all ty k.
Proof using order_perm.
  intros Hok Hl Hp. induction Hp as [|s l k Hp IH|s d l|l m k Hp1 IH1 Hp2 IH2]; [done|..].
  - apply Forall_cons in Hl as [_ Hl]. cbn. f_equal. auto.
  - apply Forall_cons in Hl as [Hs [Hd Hl]%Forall_cons]. pose proof (merge_all_valid ty l Hok Hl).
    cbn [merge_all foldr]. fold (merge_all ty l). rewrite !merge_ass by done. f_equal. by apply merge_sym.
  - rewrite IH1, IH2 by (by rewrite <- ?Hp1). done.
Qed.
(** ** The server *)

(** What an object stands for as an aggregator named [n]. *)
Definition mass (n : str) (o : object) : state_of (class_of n) :=
  match static_cast (class_of n) o with Ok s => s | Abort => fresh (class_of n) end.

Lemma mass_eq n s : mass n (Object (class_of n) s) = s.
Proof. unfold mass. by rewrite static_cast_ok. Qed.

(** An object that is an aggregator named [n]. *)
Definition obj_good (n : str) (o : object) : Prop :=
  ∃ s, o = Object (class_of n) s ∧ state_valid (class_of n) s.

Lemma obj_good_mass n o : obj_good n o → o = Object (class_of n) (mass n o) ∧ state_valid (class_of n) (mass n o).
Proof. intros (s&->&Hs). by rewrite mass_eq. Qed.

Lemma obj_merge_good n o d : obj_good n o → obj_good n d →
  obj_merge junk order o d = Ok (Object (class_of n) (merge (class_of n) (mass n o) (mass n d))).
Proof. intros (s&->&_) (s'&->&_). by rewrite obj_merge_ok, !mass_eq. Qed.

Record ServerGood (s : server) : Prop := {
  sg_aggs name ty o : _umap_name2aggs s !! name = Some (ty, o) → ty = type_name (class_of name) ∧ obj_good name o;
  sg_pool ty o : _agg_pool s !! ty = Some o → o_type o ∈ tys ∧ ty = type_name (o_type o);
}.

Definition server_mass (s : server) (n : str) : state_of (class_of n) :=
  match _umap_name2aggs s !! n with Some (_, o) => mass n o | None => fresh (class_of n) end.

Lemma class_ok n : type_ok (class_of n) = true.
Proof using classes. apply classes. Qed.

Lemma type_name_ok n : str_ok (type_name (class_of n)).
Proof using classes names_ok. apply names_ok, classes. Qed.

Lemma mass_valid n o : obj_good n o → state_valid (class_of n) (mass n o).
Proof. apply obj_good_mass. Qed.

Lemma server_mass_valid s n : ServerGood s → state_valid (class_of n) (server_mass s n).
Proof using classes order_perm.
  intros Hs. unfold server_mass. destruct (_umap_name2aggs s !! n) as [[ty o]|] eqn:E.
  - by apply mass_valid, (sg_aggs s Hs n ty o).
  - apply fresh_valid, class_ok.
Qed.

(** Objects of the pool have the class they are found under. *)
Lemma get_agg_from_pool_ok s n : ServerGood s →
  ∃ s' o, get_agg_from_pool f s (type_name (class_of n)) = Ok (s', o) ∧ o_type o = class_of n ∧
    _umap_name2aggs s' = _umap_name2aggs s ∧ _client_count s' = _client_count s ∧ ServerGood s'.
Proof using classes names_inj.
  intros Hs. unfold get_agg_from_pool. destruct (_agg_pool s !! _) as [o|] eqn:E.
  - exists s, o. split; [done|]. split; [|done]. destruct (sg_pool s Hs _ _ E) as [? He]. symmetry. apply names_inj; [apply classes|done..].
  - rewrite (create_registered type_name tys names_inj (class_of n)) by apply classes.
    eexists _, _. split; [done|]. split; [done|]. split; [done|]. split; [done|]. split; [apply Hs|].
    cbn. intros ty o [[<- <-]|[_ ?]]%lookup_insert_Some; [split; [apply classes|done]|by apply Hs].
Qed.
(** One aggregator of a request. *)
Definition string_bytes (s : str) : list byte := le_split 8 (Z.of_nat (length s)) ++ s.

Definition entry_bytes (n : str) (o : object) (bs : list byte) : Prop :=
  ∃ b, bs = string_bytes n ++ string_bytes (type_name (class_of n)) ++ b ∧ obj_bytes o b.

Lemma get_string_ok a s rest : wf a → str_ok s → content a = string_bytes s ++ rest →
  ∃ a', op_in (c_string junk) a = Ok (a', s) ∧ consumed a rest a'.
Proof. apply (field_in_ok (c_string junk) _ string_bytes). Qed.

(** [delta] merged into the aggregator named [n], and nothing else changed. *)
Definition added (s s' : server) (n : str) (o : object) : Prop :=
  ServerGood s' ∧ _client_count s' = _client_count s ∧
  server_mass s' n = merge (class_of n) (server_mass s n) (mass n o) ∧
  ∀ n', n' ≠ n → server_mass s' n' = server_mass s n'.

Lemma server_insert s s1 n o : ServerGood s1 → _umap_name2aggs s1 = _umap_name2aggs s → _client_count s1 = _client_count s →
  obj_good n o → ServerGood s →
  let s' := with_aggs s1 (<[n := (type_name (class_of n), o)]> (_umap_name2aggs s1)) in
  ServerGood s' ∧ _client_count s' = _client_count s ∧ server_mass s' n = mass n o ∧
  ∀ n', n' ≠ n → server_mass s' n' = server_mass s n'.
Proof.
  intros Hs1 He Hc Ho Hs s'. split; [split|].
  - intros name ty o'. cbn. intros [[<- [= <- <-]]|[_ Hl]]%lookup_insert_Some; [done|]. by apply (sg_aggs s1 Hs1).
  - apply Hs1.
  - split; [done|]. unfold server_mass, s'. cbn. rewrite lookup_insert_eq. split; [done|].
    intros n' Hne. by rewrite lookup_insert_ne, He by done.
Qed.

Lemma write_one_ok s n o bs ba rest : ServerGood s → str_ok n → obj_good n o → entry_bytes n o bs →
  wf ba → content ba = bs ++ rest →
  ∃ s' ba', write_one junk order f s ba = Ok (s', ba') ∧ consumed ba rest ba' ∧ added s s' n o.
Proof using classes names_ok order_perm names_inj.
  intros Hs Hn Ho (b&->&Hb) Hwf Hc. destruct (obj_good_mass n o Ho) as [Heo Hv]. rewrite <- !app_assoc in Hc.
  destruct (get_string_ok ba n _ Hwf Hn Hc) as (b1&He1&Hc1).
  destruct (get_string_ok b1 (type_name (class_of n)) (b ++ rest)) as (b2&He2&Hc2); [apply Hc1|apply type_name_ok|apply Hc1|].
  unfold write_one. rewrite He1. step_ok. rewrite He2. step_ok.
  assert (Hdes : ∀ o', o_type o' = class_of n → ∃ b3, obj_deserialize junk order b2 (obj_init junk order o') = Ok (b3, o) ∧ consumed ba rest b3).
  { intros o' Ho'. rewrite Heo in Hb. destruct (obj_deserialize_ok _ _ o' b b2 rest Hb) as (b3&He3&Hc3); [apply Hc2|apply Hc2|done|].
    exists b3. rewrite He3, <- Heo. split; [done|]. eapply consumed_trans; [exact Hc1|]. by eapply consumed_trans. }
  unfold server_mass. destruct (_umap_name2aggs s !! n) as [[ty oo]|] eqn:E.
  - destruct (sg_aggs s Hs n ty oo E) as [-> Hoo]. destruct (obj_good_mass n oo Hoo) as [Heoo Hvoo].
    destruct (get_agg_from_pool_ok s n Hs) as (s1&p&->&Hp&Hag&Hcc&Hs1). step_ok.
    destruct (Hdes p Hp) as (b3&->&Hc3). step_ok. rewrite bool_decide_true by done. step_ok.
    rewrite (obj_merge_good n) by done. step_ok. eexists _, b3. split; [done|]. split; [done|].
    set (s2 := with_pool s1 _). assert (Hs2 : ServerGood s2).
    { split; [apply Hs1|]. cbn. intros ty o' [[<- <-]|[_ ?]]%lookup_insert_Some; [rewrite Heo; split; [apply classes|done]|by apply Hs1]. }
    destruct (server_insert s s2 n (Object (class_of n) (merge (class_of n) (mass n oo) (mass n o)))) as (Hg&Hcount&Hm&Hoth);
      try done. { eexists. split; [done|]. apply merge_valid; [apply class_ok|done..]. }
    split; [exact Hg|]. split; [exact Hcount|]. split; [|exact Hoth]. rewrite Hm, mass_eq. unfold server_mass. by rewrite E.
  - rewrite (create_registered type_name tys names_inj (class_of n)) by apply classes.
    destruct (Hdes (Object (class_of n) (zero_of (class_of n))) eq_refl) as (b3&->&Hc3). step_ok.
    eexists _, b3. split; [done|]. split; [done|].
    destruct (server_insert s s n o) as (Hg&Hcount&Hm&Hoth); try done.
    split; [exact Hg|]. split; [exact Hcount|]. split; [|exact Hoth]. rewrite Hm. unfold server_mass. rewrite E.
    symmetry. apply merge_fresh_l; [apply class_ok|done].
Qed.
(** A request with any number of them. *)
Fixpoint entries_bytes (es : list (str * object)) (bs : list byte) : Prop :=
  match es with
  | [] => bs = []
  | (n, o) :: es => ∃ b1 b2, bs = b1 ++ b2 ∧ entry_bytes n o b1 ∧ entries_bytes es b2
  end.

Definition entries_good (es : list (str * object)) : Prop := Forall (λ e, str_ok e.1 ∧ obj_good e.1 e.2) es.

(** What the entries with the name [n] add up to. *)
Definition entries_mass (n : str) (es : list (str * object)) : state_of (class_of n) :=
  merge_all (class_of n) (omap (λ e : str * object, if decide (e.1 = n) then Some (mass n e.2) else None) es).

Lemma entries_masses_valid n es : entries_good es →
  Forall (state_valid (class_of n)) (omap (λ e : str * object, if decide (e.1 = n) then Some (mass n e.2) else None) es).
Proof.
  intros Hes. apply Forall_forall. intros x ([n' o]&Hin&Hx)%list_elem_of_omap. cbn in Hx.
  destruct (decide (n' = n)) as [->|]; [|done]. injection Hx as <-.
  apply mass_valid. unfold entries_good in Hes. rewrite Forall_forall in Hes. apply (Hes (n, o) Hin).
Qed.

Lemma entries_mass_valid n es : entries_good es → state_valid (class_of n) (entries_mass n es).
Proof using classes order_perm. intros. apply merge_all_valid; [apply class_ok|by apply entries_masses_valid]. Qed.

Lemma entries_mass_perm n es es' : entries_good es → es ≡ₚ es' → entries_mass n es = entries_mass n es'.
Proof using classes order_perm.
  intros Hes Hp. apply merge_all_perm; [apply class_ok|by apply entries_masses_valid|]. by rewrite Hp.
Qed.

Definition added_all (s s' : server) (es : list (str * object)) : Prop :=
  ServerGood s' ∧ _client_count s' = _client_count s ∧
  ∀ n, server_mass s' n = merge (class_of n) (server_mass s n) (entries_mass n es).

Lemma write_loop_ok es : ∀ s bs ba rest, ServerGood s → entries_good es → entries_bytes es bs →
  wf ba → content ba = bs ++ rest →
  ∃ s' ba', write_loop junk order f (length es) s ba = Ok (s', ba') ∧ consumed ba rest ba' ∧ added_all s s' es.
Proof using classes names_ok order_perm names_inj.
  induction es as [|[n o] es IH]; intros s bs ba rest Hs Hes Hb Hwf Hc; cbn in Hb.
  - subst bs. exists s, ba. split; [done|]. split; [done|]. split; [done|]. split; [done|].
    intros n. cbn. symmetry. apply merge_fresh_r; [apply class_ok|by apply server_mass_valid].
  - destruct Hb as (b1&b2&->&Hb1&Hb2). apply Forall_cons in Hes as [[Hn Ho] Hes]. rewrite <- app_assoc in Hc.
    destruct (write_one_ok s n o b1 ba (b2 ++ rest)) as (s1&ba1&He1&Hc1&Hs1&Hcnt1&Hm1&Hoth1); try done.
    destruct (IH s1 b2 ba1 rest) as (s2&ba2&He2&Hc2&Hs2&Hcnt2&Hm2); [done|done|done|apply Hc1|apply Hc1|].
    exists s2, ba2. cbn [length write_loop]. rewrite He1. step_ok. split; [done|].
    split; [by eapply consumed_trans|]. split; [done|]. split; [congruence|]. intros n'. rewrite Hm2.
    pose proof (class_ok n'). pose proof (server_mass_valid s n' Hs). pose proof (entries_mass_valid n' es Hes).
    unfold entries_mass. cbn [omap list_omap]. cbn [fst snd]. destruct (decide (n = n')) as [<-|Hne].
    + rewrite Hm1. symmetry. apply merge_ass; try done. by apply mass_valid.
    + by rewrite Hoth1 by done.
Qed.

(** ** Calls *)
Definition char_bytes (op : Z) : list byte := le_split 1 op.

(** [q] is a request for [op] with the arguments [body]. *)
Definition requests (q : item) (op : Z) (body : list byte) : Prop := content (q_ar q) = char_bytes op ++ body.

Lemma arrive_ok q : ∃ ar, arrive q = Ok (Item (q_head q) ar LazyArchive_ None) ∧ wf ar ∧ content ar = content (q_ar q).
Proof.
  unfold arrive. rewrite set_read_buffer_ok. step_ok. eexists. split; [done|]. split; [|apply content_whole].
  unfold wf, capacity. rewrite mem_mk. cbn. lia.
Qed.

Lemma RpcResponse_new_ok hd : ∃ ar, RpcResponse_new junk hd = Ok (Item (RpcResponse_head hd) ar LazyArchive_ None) ∧
  ready ar ∧ content ar = [].
Proof.
  unfold RpcResponse_new. rewrite empty_body_eq. step_ok. eexists. split; [done|]. split; [|done].
  split; [|done]. unfold wf, capacity. rewrite mem_mk, length_buf_malloc. cbn. unfold head_size. lia.
Qed.

Lemma new_request_ok sd op : in_int t_i8 op → ∃ q, new_request junk sd op = Ok q ∧ ready (q_ar q) ∧ requests q op [].
Proof.
  intros Hop. unfold new_request. rewrite empty_body_eq. step_ok. match goal with |- context [op_out _ ?a _] => set (a0 := a) end.
  destruct (field_out_ok (c_int junk t_i8) (in_int t_i8) (le_split 1) a0 op) as (a1&->&Hr&Hc&_); [|done|].
  { split; [|done]. unfold wf, capacity, a0. rewrite mem_mk, length_buf_malloc. cbn. unfold head_size. lia. }
  step_ok. eexists. split; [done|]. split; [exact Hr|]. unfold requests. cbn [q_ar]. rewrite Hc. done.
Qed.

(** The operation is read, and the request is exhausted when its arguments are. *)
Lemma exhausted ba ba' : consumed ba [] ba' → is_exhausted ba' = true.
Proof.
  intros (Hwf&Hc&_). pose proof (length_content ba' Hwf) as Hl. rewrite Hc in Hl. cbn in Hl.
  unfold is_exhausted, readable_length, wf in *. apply Nat.eqb_eq. lia.
Qed.
Lemma get_op a op body : wf a → in_int t_i8 op → content a = char_bytes op ++ body →
  ∃ a1, op_in (c_int junk t_i8) a = Ok (a1, op) ∧ consumed a body a1.
Proof. apply (field_in_ok (c_int junk t_i8) (in_int t_i8) (le_split 1)). Qed.

(** A request that is answered: [P] says how. *)
Definition answers (s : server) (op : Z) (hd : rpc_head_t) (body : list byte) (P : server → item → Prop) : Prop :=
  ∀ ba, wf ba → content ba = body → ∃ s' ba' resp,
    handle junk order f op s (Item hd ba LazyArchive_ None) = Ok (s', ba', Reply resp) ∧ consumed ba [] ba' ∧ P s' resp.

Lemma rpc_ok s q op body P : in_int t_i8 op → requests q op body → answers s op (q_head q) body P →
  ∃ s' ar resp, rpc junk order f s q = Ok (s', Item (q_head resp) ar LazyArchive_ None) ∧
    wf ar ∧ content ar = content (q_ar resp) ∧ P s' resp.
Proof.
  intros Hop Hq Hans. unfold rpc. destruct (arrive_ok q) as (ar&->&Hwf&Hc). step_ok. unfold requests in Hq. rewrite Hq in Hc.
  destruct (get_op ar op body Hwf Hop Hc) as (a1&He&Hc1). unfold dispatch. cbn [q_ar]. rewrite He. step_ok.
  destruct (Hans a1) as (s'&ba'&resp&Hh&Hex&HP); [apply Hc1|apply Hc1|]. unfold with_ar. cbn [q_head q_lazy q_msg].
  rewrite Hh. step_ok. rewrite (exhausted _ _ Hex). step_ok. destruct (arrive_ok resp) as (ar'&->&?&?). step_ok.
  by exists s', ar', resp.
Qed.

(** The answer without contents. *)
Definition empty_answer (hd : rpc_head_t) (resp : item) : Prop :=
  q_head resp = RpcResponse_head hd ∧ content (q_ar resp) = [].

Lemma write_answers s hd es bs : ServerGood s → entries_good es → entries_bytes es bs →
  in_int t_size (Z.of_nat (length es)) →
  answers s API_WRITE hd (le_split 8 (Z.of_nat (length es)) ++ bs) (λ s' resp, added_all s s' es ∧ empty_answer hd resp).
Proof using classes names_ok order_perm names_inj.
  intros Hs Hes Hb Hn ba Hwf Hc. unfold handle, process_write_request. cbn [Z.eqb API_READ API_WRITE Pos.eqb q_ar q_head].
  destruct (field_in_ok (c_int junk t_size) (in_int t_size) (le_split 8) ba (Z.of_nat (length es)) bs Hwf Hn Hc) as (b1&->&Hc1). step_ok.
  rewrite Nat2Z.id. destruct (write_loop_ok es s bs b1 [] Hs Hes Hb) as (s'&b2&->&Hc2&Hadd);
    [apply Hc1|rewrite app_nil_r; apply Hc1|]. step_ok.
  destruct (RpcResponse_new_ok hd) as (ar&->&_&Har). step_ok.
  eexists s', b2, _. split; [done|]. split; [by eapply consumed_trans|done].
Qed.

Lemma start_answers s hd : answers s API_START hd [] (λ s' resp,
  s' = with_count s (i16 (_client_count s + 1)) ∧ empty_answer hd resp).
Proof.
  intros ba Hwf Hc. unfold handle, process_start_request. cbn [Z.eqb API_READ API_WRITE API_RESET API_ERASE API_ERASE_ALL API_START Pos.eqb q_ar q_head].
  destruct (RpcResponse_new_ok hd) as (ar&->&_&Har). step_ok. eexists _, ba, _. split; [done|]. split; [|done].
  by apply consumed_start.
Qed.

Lemma stop_answers s hd : 0 < _client_count s → answers s API_STOP hd [] (λ s' resp,
  s' = with_count s (i16 (_client_count s - 1)) ∧ empty_answer hd resp).
Proof.
  intros Hcnt ba Hwf Hc. unfold handle, process_stop_request.
  cbn [Z.eqb API_READ API_WRITE API_RESET API_ERASE API_ERASE_ALL API_START API_STOP Pos.eqb q_ar q_head].
  rewrite (proj2 (Z.ltb_lt _ _) Hcnt). step_ok.
  destruct (RpcResponse_new_ok hd) as (ar&->&_&Har). step_ok. eexists _, ba, _. split; [done|]. split; [|done].
  by apply consumed_start.
Qed.

(** Reading and resetting look an aggregator up. *)
Lemma find_agg_ok s n ba : ServerGood s → str_ok n → wf ba →
  content ba = string_bytes n ++ string_bytes (type_name (class_of n)) →
  ∃ ba', find_agg junk s ba = Ok (ba', n, snd <$> _umap_name2aggs s !! n) ∧ consumed ba [] ba'.
Proof using classes names_ok.
  intros Hs Hn Hwf Hc. unfold find_agg.
  destruct (get_string_ok ba n _ Hwf Hn Hc) as (b1&->&Hc1). step_ok.
  destruct (get_string_ok b1 (type_name (class_of n)) []) as (b2&->&Hc2); [apply Hc1|apply type_name_ok|by rewrite app_nil_r; apply Hc1|]. step_ok.
  exists b2. split; [|by eapply consumed_trans]. destruct (_umap_name2aggs s !! n) as [[ty o]|] eqn:E; [|done].
  destruct (sg_aggs s Hs n ty o E) as [-> _]. by rewrite bool_decide_true.
Qed.

(** What a reader gets: nothing for an unknown name, or the bytes of the aggregator. *)
Definition read_answer (s : server) (n : str) (hd : rpc_head_t) (resp : item) : Prop :=
  match _umap_name2aggs s !! n with
  | None => error_code (q_head resp) = ENOTFOUND
  | Some _ => q_head resp = RpcResponse_head hd ∧ obj_bytes (Object (class_of n) (server_mass s n)) (content (q_ar resp))
  end.

Lemma read_answers s n hd : ServerGood s → str_ok n →
  answers s API_READ hd (string_bytes n ++ string_bytes (type_name (class_of n)))
    (λ s' resp, s' = s ∧ read_answer s n hd resp).
Proof using classes names_ok order_perm.
  intros Hs Hn ba Hwf Hc. unfold handle, process_read_request. cbn [Z.eqb API_READ Pos.eqb q_ar q_head].
  destruct (find_agg_ok s n ba Hs Hn Hwf Hc) as (b1&->&Hc1). step_ok.
  destruct (RpcResponse_new_ok hd) as (ar&->&Hr&Har). step_ok.
  unfold read_answer. pose proof (server_mass_valid s n Hs) as Hv. unfold server_mass in *.
  destruct (_umap_name2aggs s !! n) as [[ty o]|] eqn:E; cbn [fmap option_fmap option_map snd].
  - destruct (sg_aggs s Hs n ty o E) as [_ Ho]. destruct (obj_good_mass n o Ho) as [Heo _].
    destruct (obj_serialize_ok (class_of n) (mass n o) ar (class_ok n) Hv Hr) as (ar'&bs&Hse&(_&Hcon&_)&Hb).
    cbn [q_ar]. assert (Hse' : obj_serialize junk order ar o = Ok ar') by (by rewrite Heo). rewrite Hse'. step_ok. eexists s, b1, _. split; [done|]. split; [done|]. split; [done|].
    split; [done|]. cbn [with_ar q_ar]. by rewrite Hcon, Har.
  - eexists s, b1, _. split; [done|]. done.
Qed.
(** ** The buffers of a client *)
Definition entry_of (a : object * str * str) : str * object := (a.1.2, a.1.1).
Definition entries (b : buffer) : list (str * object) := entry_of <$> _pending_aggs b.

(** An aggregator of a buffer under its name and its class. *)
Definition pending_good (a : object * str * str) : Prop :=
  str_ok a.1.2 ∧ obj_good a.1.2 a.1.1 ∧ a.2 = type_name (class_of a.1.2).

Record BufferGood (b : buffer) : Prop := {
  bg_entries : Forall pending_good (_pending_aggs b);
  bg_flags : length (_pending_aggs_flag b) = length (_pending_aggs b);
  bg_clean id o n tn : _pending_aggs b !! id = Some (o, n, tn) → _pending_aggs_flag b !! id = Some false →
    mass n o = fresh (class_of n);
  bg_cnt : in_int t_size (_write_pending_cnt b);
  bg_idle : _write_pending_cnt b = 0 → Forall (λ x, x = false) (_pending_aggs_flag b);
  bg_room : in_int t_size (Z.of_nat (length (_pending_aggs b)));
}.

(** The entries that are flagged. *)
Fixpoint flagged (aggs : list (object * str * str)) (flags : list bool) : list (str * object) :=
  match aggs, flags with
  | a :: aggs, x :: flags => if x : bool then entry_of a :: flagged aggs flags else flagged aggs flags
  | _, _ => []
  end.

Lemma entries_good_of aggs : Forall pending_good aggs → entries_good (entry_of <$> aggs).
Proof. intros Ha. apply Forall_fmap. eapply Forall_impl; [exact Ha|]. intros a (?&?&_). done. Qed.

Lemma flagged_good aggs : ∀ flags, Forall pending_good aggs → entries_good (flagged aggs flags).
Proof.
  induction aggs as [|a aggs IH]; intros [|x flags] Ha; try constructor.
  apply Forall_cons in Ha as [(?&?&_) Ha]. cbn. destruct x; [constructor; [done|]|]; by apply IH.
Qed.

Lemma length_flagged aggs : ∀ flags, length flags = length aggs → length (flagged aggs flags) = sending_cnt flags.
Proof.
  induction aggs as [|a aggs IH]; intros [|x flags] Hl; try done. injection Hl as Hl. specialize (IH flags Hl).
  unfold sending_cnt in *. rewrite filter_cons. destruct x; cbn [flagged length]; [by rewrite IH|done].
Qed.

Lemma entries_mass_cons n e es :
  entries_mass n (e :: es) = if decide (e.1 = n) then merge (class_of n) (mass n e.2) (entries_mass n es) else entries_mass n es.
Proof. unfold entries_mass. cbn. by destruct (decide (e.1 = n)). Qed.

(** The aggregators that are not flagged contribute nothing. *)
Lemma flagged_mass n aggs : ∀ flags, length flags = length aggs → Forall pending_good aggs →
  (∀ id o n tn, aggs !! id = Some (o, n, tn) → flags !! id = Some false → mass n o = fresh (class_of n)) →
  entries_mass n (flagged aggs flags) = entries_mass n (entry_of <$> aggs).
Proof using classes order_perm.
  induction aggs as [|[[o m] tn] aggs IH]; intros [|x flags] Hl Ha Hclean; try done.
  injection Hl as Hl. pose proof Ha as Ha'. apply Forall_cons in Ha as [(?&Ho&?) Ha]. pose proof (entries_good_of aggs Ha) as Hg.
  assert (IH' := IH flags Hl Ha (λ id, Hclean (S id))). cbn [flagged fmap list_fmap].
  pose proof (flagged_good aggs flags Ha). destruct x.
  - rewrite !entries_mass_cons. by rewrite IH'.
  - rewrite entries_mass_cons. cbn [entry_of fst snd]. rewrite IH'. destruct (decide (m = n)) as [<-|]; [|done].
    rewrite (Hclean 0%nat o m tn) by done. symmetry. apply merge_fresh_l; [apply class_ok|by apply entries_mass_valid].
Qed.

(** What is left when everything that was flagged has been sent. *)
Fixpoint unflagged (aggs : list (object * str * str)) (flags : list bool) : list (object * str * str) :=
  match aggs, flags with
  | a :: aggs, x :: flags => (if x : bool then (obj_init junk order a.1.1, a.1.2, a.2) else a) :: unflagged aggs flags
  | _, _ => []
  end.

Lemma put_string_seq a bs a1 s : appended a bs a1 → str_ok s →
  ∃ a2, op_out (c_string junk) a1 s = Ok a2 ∧ appended a (bs ++ string_bytes s) a2.
Proof. apply (out_seq (c_string junk) str_ok string_bytes). Qed.

Lemma send_pending_ok aggs : ∀ flags a0 bs0 ar, length flags = length aggs → Forall pending_good aggs → appended a0 bs0 ar →
  ∃ ar' bs, send_pending junk order ar aggs flags = Ok (ar', unflagged aggs flags) ∧
    appended a0 (bs0 ++ bs) ar' ∧ entries_bytes (flagged aggs flags) bs.
Proof using classes names_ok order_perm.
  induction aggs as [|[[o n] tn] aggs IH]; intros [|x flags] a0 bs0 ar Hl Ha Hap; try done.
  { exists ar, []. split; [done|]. by rewrite app_nil_r. }
  injection Hl as Hl. apply Forall_cons in Ha as [(Hn&Ho&Htn) Ha]. cbn in Hn, Ho, Htn. subst tn.
  destruct x; cbn [send_pending].
  - destruct (put_string_seq _ _ _ _ Hap Hn) as (a1&->&Hap1). step_ok.
    destruct (put_string_seq _ _ _ _ Hap1 (type_name_ok n)) as (a2&->&Hap2). step_ok.
    destruct (obj_good_mass n o Ho) as [Heo Hv].
    destruct (obj_serialize_ok (class_of n) (mass n o) a2 (class_ok n) Hv) as (a3&b&Hse&Hap3&Hb); [apply Hap2|].
    rewrite <- Heo in Hse, Hb. rewrite Hse. step_ok. pose proof (appended_trans _ _ _ _ _ Hap2 Hap3) as Hap4.
    destruct (IH flags _ _ a3 Hl Ha Hap4) as (ar'&bs&->&Hap'&Hbs). step_ok.
    eexists ar', _. split; [done|]. split; [rewrite <- !app_assoc in Hap'; exact Hap'|].
    cbn. exists (string_bytes n ++ string_bytes (type_name (class_of n)) ++ b), bs. split; [by rewrite <- !app_assoc|].
    split; [|done]. by exists b.
  - destruct (IH flags _ _ ar Hl Ha Hap) as (ar'&bs&->&Hap'&Hbs). step_ok. by exists ar', bs.
Qed.
Lemma unflagged_entries aggs : ∀ flags, length flags = length aggs → Forall pending_good aggs →
  (∀ id o n tn, aggs !! id = Some (o, n, tn) → flags !! id = Some false → mass n o = fresh (class_of n)) →
  Forall (λ a, pending_good a ∧ mass a.1.2 a.1.1 = fresh (class_of a.1.2)) (unflagged aggs flags).
Proof using classes order_perm.
  induction aggs as [|[[o n] tn] aggs IH]; intros [|x flags] Hl Ha Hclean; try done.
  injection Hl as Hl. apply Forall_cons in Ha as [(Hn&Ho&Htn) Ha]. cbn in Hn, Ho, Htn.
  destruct Ho as (st&->&Hst). constructor.
  - destruct x; cbn in *.
    + unfold obj_init. cbn. rewrite mass_eq. split; [|done]. split; [done|]. split; [|done].
      eexists. split; [done|]. apply fresh_valid, class_ok.
    + pose proof (Hclean 0%nat _ n tn eq_refl eq_refl). split; [|done]. split; [done|]. split; [by eexists|done].
  - by apply (IH flags Hl Ha (λ id, Hclean (S id))).
Qed.

Lemma length_unflagged aggs : ∀ flags, length flags = length aggs → length (unflagged aggs flags) = length aggs.
Proof. induction aggs as [|a aggs IH]; intros [|x flags] Hl; try done. injection Hl as Hl. cbn. by rewrite IH. Qed.

Lemma unflagged_same aggs : ∀ flags, length flags = length aggs → Forall (λ x, x = false) flags → unflagged aggs flags = aggs.
Proof.
  induction aggs as [|a aggs IH]; intros [|x flags] Hl Hf; try done. injection Hl as Hl.
  apply Forall_cons in Hf as [-> Hf]. cbn. by rewrite IH.
Qed.

(** Fresh aggregators add up to nothing. *)
Lemma entries_mass_fresh n es : Forall (λ e : str * object, mass e.1 e.2 = fresh (class_of e.1)) es →
  entries_mass n es = fresh (class_of n).
Proof using classes order_perm.
  induction 1 as [|[m o] es He Hes IH]; [done|].
  rewrite entries_mass_cons. cbn in *. destruct (decide (m = n)) as [<-|]; [|done]. rewrite IH, He.
  apply merge_fresh_l; [apply class_ok|apply fresh_valid, class_ok].
Qed.

Lemma all_fresh n (l : list (state_of (class_of n))) : Forall (λ x, x = fresh (class_of n)) l → merge_all (class_of n) l = fresh (class_of n).
Proof using classes order_perm.
  induction 1 as [|x l -> Hl IH]; [done|]. cbn [merge_all foldr]. fold (merge_all (class_of n) l). rewrite IH.
  apply merge_fresh_l; [apply class_ok|apply fresh_valid, class_ok].
Qed.

(** The entries with one name. *)
Lemma entries_mass_fresh_at n es : (∀ m o, (m, o) ∈ es → m = n → mass m o = fresh (class_of m)) → entries_mass n es = fresh (class_of n).
Proof using classes order_perm.
  intros Hes. apply all_fresh, Forall_forall. intros x ([m o]&Hin&Hx)%list_elem_of_omap. cbn in Hx.
  destruct (decide (m = n)) as [->|]; [|done]. injection Hx as <-. by apply Hes.
Qed.

(** A buffer without pending writes has nothing. *)
Lemma idle_mass b n : BufferGood b → _write_pending_cnt b = 0 → entries_mass n (entries b) = fresh (class_of n).
Proof using classes order_perm.
  intros [He Hf Hc _ Hidle _] Hz. apply entries_mass_fresh_at. intros m o Hin _.
  apply list_elem_of_fmap in Hin as ([[o' m'] tn]&[= -> ->]&Hin). apply list_elem_of_lookup in Hin as [id Hid].
  apply (Hc id o' m' tn Hid). destruct (lookup_lt_is_Some_2 (_pending_aggs_flag b) id) as [x Hx].
  { rewrite Hf. by eapply lookup_lt_Some. }
  specialize (Hidle Hz). rewrite Forall_lookup in Hidle. by rewrite Hx, (Hidle id x Hx).
Qed.

(** A buffer after it was sent. *)
Definition drained (b : buffer) : buffer :=
  Buffer (unflagged (_pending_aggs b) (_pending_aggs_flag b)) (replicate (length (_pending_aggs_flag b)) false)
    (_write_pending_cnt b).

Lemma drained_good b : BufferGood b → BufferGood (drained b).
Proof using classes order_perm.
  intros [He Hf Hc Hcnt Hidle Hroom]. pose proof (unflagged_entries _ _ Hf He Hc) as Hu. rewrite Forall_forall in Hu.
  split; cbn.
  - apply Forall_forall. intros a Ha. by apply Hu.
  - by rewrite length_replicate, length_unflagged.
  - intros id o n tn Hid _. by apply list_elem_of_lookup_2, Hu in Hid as [_ ?].
  - done.
  - intros _. by apply Forall_replicate.
  - by rewrite length_unflagged.
Qed.

Lemma drained_mass b n : BufferGood b → entries_mass n (entries (drained b)) = fresh (class_of n).
Proof using classes order_perm.
  intros [He Hf Hc Hcnt Hidle Hroom]. apply entries_mass_fresh, Forall_fmap.
  eapply Forall_impl; [by apply unflagged_entries|]. by intros [[o m] tn] [_ ?].
Qed.

Lemma sending_none flags : sending_cnt flags = 0%nat → Forall (λ x, x = false) flags.
Proof.
  induction flags as [|x flags IH]; [constructor|]. unfold sending_cnt in *. rewrite filter_cons.
  destruct x; [done|]. intros Hn. constructor; [done|]. by apply IH.
Qed.

(** The call changes neither [_dealer] nor whether an accumulator is being made. *)
Definition same_flags (c c' : client) : Prop := cl_dealer c' = cl_dealer c ∧ cl_adding c' = cl_adding c.

(** [send2server] takes what is flagged out of the buffer and puts it into a request. *)
Lemma send2server_ok c i : BufferGood (cl_buf c i) → ∃ c' q, send2server junk order c i = Ok (c', q) ∧
  _writer_closed c' = _writer_closed c ∧ cl_started c' = cl_started c ∧ cl_name2id c' = cl_name2id c ∧
  _pending_aggs_idx c' = _pending_aggs_idx c ∧ same_flags c c' ∧
  (∀ j, cl_buf c' j = if Bool.eqb j i then drained (cl_buf c i) else cl_buf c j) ∧
  let es := flagged (_pending_aggs (cl_buf c i)) (_pending_aggs_flag (cl_buf c i)) in
  match q with
  | None => es = []
  | Some q => ∃ bs, requests q API_WRITE (le_split 8 (Z.of_nat (length es)) ++ bs) ∧ entries_bytes es bs ∧
                in_int t_size (Z.of_nat (length es))
  end.
Proof using classes names_ok order_perm.
  intros Hb. pose proof Hb as [He Hf Hc Hcnt Hidle Hroom]. unfold send2server.
  set (b := cl_buf c i) in *. pose proof (length_flagged _ _ Hf) as Hlen.
  destruct (Nat.eqb_spec (sending_cnt (_pending_aggs_flag b)) 0) as [Hz|Hnz].
  - exists c, None. repeat (split; [done|]). split.
    + intros j. destruct (Bool.eqb j i) eqn:E; [|done]. apply Bool.eqb_prop in E as ->. fold b. unfold drained.
      pose proof (sending_none _ Hz) as Hall. rewrite unflagged_same by done.
      assert (Hr : replicate (length (_pending_aggs_flag b)) false = _pending_aggs_flag b).
      { apply replicate_as_elem_of. split; [done|]. rewrite Forall_forall in Hall. auto. }
      rewrite Hr. by destruct b.
    + cbn. apply length_zero_iff_nil. lia.
  - destruct (new_request_ok 0 API_WRITE) as (q&->&Hr&Hq); [unfold in_int, in_signed; cbn; unfold API_WRITE; lia|]. step_ok.
    assert (Hn : in_int t_size (Z.of_nat (sending_cnt (_pending_aggs_flag b)))).
    { revert Hroom. unfold in_int, in_unsigned. cbn [t_size t_u64 it_signed]. rewrite <- Hf. unfold sending_cnt.
      pose proof (length_filter (λ b, b = true) (_pending_aggs_flag b)). lia. }
    rewrite wrap_small by exact Hn.
    destruct (out_seq (c_int junk t_size) (in_int t_size) (le_split 8) (q_ar q) [] (q_ar q) _ (appended_nil _ Hr) Hn)
      as (a1&->&Hap1). step_ok.
    destruct (send_pending_ok (_pending_aggs b) (_pending_aggs_flag b) _ _ a1 Hf He Hap1) as (ar&bs&->&Hap&Hbs). step_ok.
    eexists _, _. split; [done|]. repeat (split; [done|]). exists bs. rewrite Hlen. split; [|done].
    unfold requests. destruct Hap as (_&Hcon&_). cbn [with_ar q_ar]. unfold requests in Hq. by rewrite Hcon, Hq, <- !app_assoc.
Qed.
(** ** The client and the manager *)
Record ClientGood (c : client) : Prop := {
  cg_buf i : BufferGood (cl_buf c i);
  cg_len : length (_pending_aggs (cl_buf c true)) = length (_pending_aggs (cl_buf c false));
  cg_name n id i : cl_name2id c !! n = Some id →
    ∃ o, _pending_aggs (cl_buf c i) !! id = Some (o, n, type_name (class_of n));
}.

Definition ManagerGood (m : manager) : Prop :=
  ∀ n id, mg_name2id m !! n = Some id → _vec_name_type m !! id = Some (n, type_name (class_of n)).

Lemma client_good_init : ClientGood client_.
Proof.
  split; [|done|done]. intros i. split; cbn; try done; unfold in_int, in_unsigned; cbn; lia.
Qed.

(** An aggregator of a list is replaced by one that has more. *)
Lemma entries_mass_insert m o o' d es : ∀ id, entries_good es → es !! id = Some (m, o) → state_valid (class_of m) d →
  mass m o' = merge (class_of m) (mass m o) d →
  entries_mass m (<[id := (m, o')]> es) = merge (class_of m) (entries_mass m es) d ∧
  ∀ n, n ≠ m → entries_mass n (<[id := (m, o')]> es) = entries_mass n es.
Proof using classes order_perm.
  induction es as [|[k p] es IH]; intros [|id] Hg Hid Hd Ho'; try done.
  - injection Hid as -> ->. change (<[0%nat := (m, o')]> ((m, o) :: es)) with ((m, o') :: es).
    apply Forall_cons in Hg as [[_ Ho] Hes]. pose proof (entries_mass_valid m es Hes). pose proof (mass_valid m o Ho).
    split.
    + rewrite !entries_mass_cons. cbn [fst snd]. rewrite !decide_True, Ho' by done. pose proof (class_ok m).
      rewrite <- !merge_ass by done. f_equal. by apply merge_sym.
    + intros n Hn. rewrite !entries_mass_cons. cbn [fst snd]. by rewrite !decide_False by done.
  - change (<[S id := (m, o')]> ((k, p) :: es)) with ((k, p) :: <[id := (m, o')]> es).
    apply Forall_cons in Hg as [[_ Hp] Hes]. destruct (IH id Hes Hid Hd Ho') as [IH1 IH2]. pose proof (class_ok m).
    pose proof (entries_mass_valid m es Hes). split.
    + rewrite !entries_mass_cons, IH1. cbn [fst snd]. destruct (decide (k = m)) as [->|]; [|done].
      pose proof (mass_valid m p Hp). by rewrite merge_ass.
    + intros n Hn. by rewrite !entries_mass_cons, IH2.
Qed.

Definition buf_mass (b : buffer) (n : str) : state_of (class_of n) := entries_mass n (entries b).

Lemma buf_mass_valid b n : BufferGood b → state_valid (class_of n) (buf_mass b n).
Proof using classes order_perm. intros Hb. apply entries_mass_valid, entries_good_of, Hb. Qed.

(** A buffer after [agg] was merged into the aggregator number [id], named [n]. *)
Lemma buffer_write_good b id o n agg : BufferGood b →
  _pending_aggs b !! id = Some (o, n, type_name (class_of n)) → state_valid (class_of n) agg →
  _write_pending_cnt b + 1 < 2 ^ 64 →
  let o' := Object (class_of n) (merge (class_of n) (mass n o) agg) in
  let b' := Buffer (<[id := (o', n, type_name (class_of n))]> (_pending_aggs b)) (<[id := true]> (_pending_aggs_flag b))
              (u64 (_write_pending_cnt b + 1)) in
  BufferGood b' ∧ buf_mass b' n = merge (class_of n) (buf_mass b n) agg ∧
  ∀ n', n' ≠ n → buf_mass b' n' = buf_mass b n'.
Proof using classes order_perm.
  intros [He Hf Hc Hcnt Hidle Hroom] Hid Hagg Hlt o' b'. pose proof He as He'. rewrite Forall_forall in He'.
  destruct (He' _ (list_elem_of_lookup_2 _ _ _ Hid)) as (Hn&Ho&_). cbn in Hn, Ho. pose proof (mass_valid n o Ho).
  assert (Hcnt' : 0 ≤ _write_pending_cnt b) by apply Hcnt.
  assert (Hu : u64 (_write_pending_cnt b + 1) = _write_pending_cnt b + 1) by (apply wrap_small; unfold in_unsigned; lia).
  split; [split; cbn|].
  - apply Forall_insert; [done|]. split; [done|]. split; [|done]. eexists. split; [done|]. apply merge_valid; [apply class_ok|done..].
  - by rewrite !length_insert.
  - intros id' o1 n' tn [(<-&[= <- <- <-]&_)|[Hne Hl]]%list_lookup_insert_Some Hfl.
    + rewrite list_lookup_insert_eq in Hfl; [done|]. rewrite Hf. by eapply lookup_lt_Some.
    + rewrite list_lookup_insert_ne in Hfl by done. by eapply Hc.
  - rewrite Hu. unfold in_int, in_unsigned. cbn [t_size t_u64 it_signed it_size]. change (Z.of_nat 8 * 8) with 64. lia.
  - rewrite Hu. lia.
  - by rewrite length_insert.
  - assert (Hent : entries b' = <[id := (n, o')]> (entries b)).
    { unfold entries, b'. cbn [_pending_aggs]. by rewrite list_fmap_insert. }
    unfold buf_mass. rewrite Hent. apply (entries_mass_insert n o o'); [by apply entries_good_of| |done|by apply mass_eq].
    unfold entries. by rewrite list_lookup_fmap, Hid.
Qed.
Lemma set_buf_lookup c i b j : cl_buf (set_buf c i b) j = if Bool.eqb j i then b else cl_buf c j.
Proof. done. Qed.

(** [write] merges into the buffer that is being filled, unless the name is unknown or the
    writer is closed. *)
Lemma client_write_ok c n agg : ClientGood c → state_valid (class_of n) agg →
  _write_pending_cnt (cl_buf c (_pending_aggs_idx c)) + 1 < 2 ^ 64 →
  is_Some (cl_name2id c !! n) → _writer_closed c = false → cl_adding c = false →
  let i := _pending_aggs_idx c in
  ∃ c', client_write junk order c n (class_of n) agg = Ok (c', true) ∧ ClientGood c' ∧
    cl_name2id c' = cl_name2id c ∧ _writer_closed c' = false ∧ cl_started c' = cl_started c ∧ same_flags c c' ∧
    _pending_aggs_idx c' = i ∧ cl_buf c' (negb i) = cl_buf c (negb i) ∧
    0 < _write_pending_cnt (cl_buf c' i) ∧
    buf_mass (cl_buf c' i) n = merge (class_of n) (buf_mass (cl_buf c i) n) agg ∧
    ∀ n', n' ≠ n → buf_mass (cl_buf c' i) n' = buf_mass (cl_buf c i) n'.
Proof using classes order_perm.
  intros Hc Hagg Hlt [id Hid] Hcl Hadd i. destruct (cg_name c Hc n id i Hid) as [o Ho]. unfold client_write. rewrite Hid, Hcl, Hadd. fold i in Hlt.
  fold i. rewrite Ho. pose proof (bg_entries _ (cg_buf c Hc i)) as He. rewrite Forall_forall in He.
  destruct (He _ (list_elem_of_lookup_2 _ _ _ Ho)) as (_&Hgo&_). cbn in Hgo.
  assert (Hcast : static_cast (class_of n) o = Ok (mass n o)).
  { destruct Hgo as (s&->&_). by rewrite mass_eq, static_cast_ok. }
  rewrite Hcast. step_ok.
  destruct (buffer_write_good (cl_buf c i) id o n agg (cg_buf c Hc i) Ho Hagg Hlt) as (Hb&Hm&Hoth).
  eexists. split; [done|]. assert (Hu : u64 (_write_pending_cnt (cl_buf c i) + 1) = _write_pending_cnt (cl_buf c i) + 1).
  { apply wrap_small. pose proof (bg_cnt _ (cg_buf c Hc i)) as H0. unfold in_int, in_unsigned in H0. cbn in H0. unfold in_unsigned. lia. }
  split; [split|].
  - intros j. rewrite set_buf_lookup. destruct (Bool.eqb j i); [done|apply Hc].
  - pose proof (cg_len c Hc) as Hl. rewrite !set_buf_lookup. destruct i; cbn; by rewrite length_insert.
  - intros n' id' j Hn'. destruct (cg_name c Hc n' id' j Hn') as [o1 Ho1]. rewrite set_buf_lookup.
    destruct (Bool.eqb j i) eqn:E; [|by exists o1]. apply Bool.eqb_prop in E as ->. cbn [_pending_aggs].
    destruct (decide (id = id')) as [<-|].
    + rewrite list_lookup_insert_eq by by eapply lookup_lt_Some. rewrite Ho in Ho1. injection Ho1 as <- ->. eauto.
    + rewrite list_lookup_insert_ne by done. eauto.
  - repeat (split; [done|]). rewrite !set_buf_lookup, Bool.eqb_reflx. destruct (Bool.eqb (negb i) i) eqn:E; [by destruct i|].
    split; [done|]. split; [|done]. cbn [_write_pending_cnt]. rewrite Hu.
    pose proof (bg_cnt _ (cg_buf c Hc i)) as H0. unfold in_int, in_unsigned in H0. cbn in H0. lia.
Qed.

(** [add_aggregator]: a name that is there already changes nothing. *)
Lemma buffer_add_good b o n : BufferGood b → str_ok n → o_type o = class_of n →
  Z.of_nat (length (_pending_aggs b)) + 1 < 2 ^ 64 →
  let b' := add_pending junk order b o n (type_name (class_of n)) in
  BufferGood b' ∧ ∀ n', buf_mass b' n' = buf_mass b n'.
Proof using classes order_perm.
  intros Hb Hn Ho Hlt b'. pose proof Hb as [He Hf Hc Hcnt Hidle Hroom].
  assert (Heq : obj_init junk order o = Object (class_of n) (fresh (class_of n))) by (unfold obj_init; by rewrite Ho).
  split; [split; cbn|].
  - apply Forall_app. split; [done|]. constructor; [|done]. split; [done|]. split; [|done]. cbn. rewrite Heq.
    eexists. split; [done|]. apply fresh_valid, class_ok.
  - rewrite !length_app. cbn. lia.
  - intros id o1 n' tn [Hl|[_ Hl]]%lookup_app_Some Hfl.
    + rewrite lookup_app_l in Hfl by (rewrite Hf; by eapply lookup_lt_Some). by eapply Hc.
    + apply list_lookup_singleton_Some in Hl as [_ [= <- <- <-]]. rewrite Heq. apply mass_eq.
  - done.
  - intros Hz. apply Forall_app. split; [by apply Hidle|by repeat constructor].
  - rewrite length_app. cbn [length]. split; [lia|]. change (2 ^ (Z.of_nat (it_size t_size) * 8)) with (2 ^ 64). lia.
  - intros n'. unfold buf_mass, entries, b'. cbn [_pending_aggs add_pending]. rewrite fmap_app. unfold entries_mass. rewrite omap_app.
    pose proof (entries_masses_valid n' (entry_of <$> _pending_aggs b) (entries_good_of _ He)) as Hv.
    pose proof (class_ok n'). cbn. destruct (decide (n = n')) as [<-|]; [|by rewrite app_nil_r].
    cbn [entry_of fst snd]. rewrite Heq, mass_eq, merge_all_app by (done || by repeat constructor; apply fresh_valid).
    cbn. rewrite merge_fresh_l by (try done; by apply fresh_valid).
    apply merge_fresh_r; [done|by apply merge_all_valid].
Qed.

Lemma add_aggregator_ok c n : ClientGood c → str_ok n → (∀ i, Z.of_nat (length (_pending_aggs (cl_buf c i))) + 1 < 2 ^ 64) →
  ∃ c', add_aggregator junk order type_name f c n (class_of n) = Ok c' ∧ ClientGood c' ∧ is_Some (cl_name2id c' !! n) ∧
    (∀ m, is_Some (cl_name2id c !! m) → is_Some (cl_name2id c' !! m)) ∧
    _writer_closed c' = _writer_closed c ∧ cl_started c' = cl_started c ∧ _pending_aggs_idx c' = _pending_aggs_idx c ∧
    cl_dealer c' = cl_dealer c ∧ (cl_name2id c !! n = None ∨ cl_adding c = false → cl_adding c' = false) ∧
    ∀ i, (_write_pending_cnt (cl_buf c' i) = _write_pending_cnt (cl_buf c i) ∧
          (Forall (λ x, x = false) (_pending_aggs_flag (cl_buf c i)) → Forall (λ x, x = false) (_pending_aggs_flag (cl_buf c' i)))) ∧
         ∀ m, buf_mass (cl_buf c' i) m = buf_mass (cl_buf c i) m.
Proof using classes order_perm names_inj.
  intros Hc Hn Hroom. unfold add_aggregator. destruct (cl_name2id c !! n) as [id|] eqn:E.
  { exists c. split; [done|]. split; [done|]. split; [by eexists|]. repeat (split; [done|]). split; [by intros [?|?]|done]. }
  rewrite (create_registered type_name tys names_inj (class_of n)) by apply classes. set (o := Object _ _).
  assert (Hadd : ∀ i, _) by (intros i; exact (buffer_add_good (cl_buf c i) o n (cg_buf c Hc i) Hn eq_refl (Hroom i))).
  eexists. split; [done|]. split; [split|].
  - intros i. apply Hadd.
  - cbn. rewrite !length_app. cbn. by rewrite (cg_len c Hc).
  - cbn. intros n' id' i [[<- <-]|[_ Hl]]%lookup_insert_Some.
    + exists (obj_init junk order o). assert (Hlen : length (_pending_aggs (cl_buf c false)) = length (_pending_aggs (cl_buf c i)))
        by (destruct i; [symmetry; apply Hc|done]). rewrite Hlen. by apply list_lookup_middle.
    + destruct (cg_name c Hc n' id' i Hl) as [o1 Ho1]. exists o1. by apply lookup_app_l_Some.
  - cbn. split; [by rewrite lookup_insert_eq|]. split.
    + intros m [id Hm]. destruct (decide (m = n)) as [->|]; [by rewrite lookup_insert_eq|by rewrite lookup_insert_ne by done; exists id].
    + repeat (split; [done|]). intros i. split; [|apply Hadd]. split; [done|].
      intros Hf. apply Forall_app. split; [done|by constructor].
Qed.

(** The manager gives a name one number and one class. *)
Lemma alloc_ok m n : ManagerGood m → ∃ m' id, alloc_accumulator_id type_name m n (class_of n) = Ok (m', id) ∧
  ManagerGood m' ∧ mg_name2id m' !! n = Some id ∧
  ∀ k, is_Some (mg_name2id m !! k) → mg_name2id m' !! k = mg_name2id m !! k.
Proof.
  intros Hm. unfold alloc_accumulator_id. destruct (mg_name2id m !! n) as [id|] eqn:E.
  - rewrite (Hm n id E), bool_decide_true by done. step_ok. by exists m, id.
  - eexists _, _. split; [done|]. cbn. split; [|split; [by rewrite lookup_insert_eq|]].
    + intros k id. cbn. intros [[<- <-]|[_ Hk]]%lookup_insert_Some; [by apply list_lookup_middle|].
      apply lookup_app_l_Some. by apply Hm.
    + intros k [id Hk]. by rewrite lookup_insert_ne by congruence.
Qed.

Lemma typename_ok m n : ManagerGood m → get_typename_by_name m n = Ok ((λ _, type_name (class_of n)) <$> mg_name2id m !! n).
Proof.
  intros Hm. unfold get_typename_by_name. destruct (mg_name2id m !! n) as [id|] eqn:E; [|done]. by rewrite (Hm n id E).
Qed.
(** ** The calls of a client *)
Lemma answered_well hd resp ar : empty_answer hd resp →
  has_error (Item (q_head resp) ar LazyArchive_ None) = false.
Proof. intros [E _]. unfold has_error. cbn. by rewrite E. Qed.

Lemma send_call_ok s q es bs : ServerGood s → entries_good es → entries_bytes es bs → in_int t_size (Z.of_nat (length es)) →
  requests q API_WRITE (le_split 8 (Z.of_nat (length es)) ++ bs) →
  ∃ s', send_call junk order f s q = Ok s' ∧ added_all s s' es.
Proof using classes names_ok order_perm names_inj.
  intros Hs Hes Hb Hn Hq. destruct (rpc_ok s q API_WRITE _ _ ltac:(unfold in_int, in_signed, API_WRITE; cbn; lia) Hq
    (write_answers s (q_head q) es bs Hs Hes Hb Hn)) as (s'&ar&resp&He&_&_&Hadd&Hresp).
  exists s'. unfold send_call. rewrite He. step_ok. by rewrite (answered_well _ _ _ Hresp).
Qed.

Lemma simple_call_ok c s op P : cl_dealer c = true → in_int t_i8 op → (∀ hd, answers s op hd [] (λ s' resp, P s' ∧ empty_answer hd resp)) →
  ∃ s', simple_call junk order f c s op = Ok (s', true) ∧ P s'.
Proof.
  intros Hdl Hop Hans. unfold simple_call, dealer_call. rewrite Hdl. destruct (new_request_ok 0 op Hop) as (q&->&_&Hq). step_ok.
  destruct (rpc_ok s q op [] _ Hop Hq (Hans (q_head q))) as (s'&ar&resp&->&_&_&HP&Hresp). step_ok.
  rewrite (answered_well _ _ _ Hresp). by exists s'.
Qed.

Lemma start_call_ok c s : cl_dealer c = true → simple_call junk order f c s API_START = Ok (with_count s (i16 (_client_count s + 1)), true).
Proof.
  intros Hdl. destruct (simple_call_ok c s API_START (λ s', s' = with_count s (i16 (_client_count s + 1))) Hdl) as (s'&He&->); [|apply start_answers|done].
  unfold in_int, in_signed, API_START. cbn. lia.
Qed.

Lemma stop_call_ok c s : cl_dealer c = true → 0 < _client_count s → simple_call junk order f c s API_STOP = Ok (with_count s (i16 (_client_count s - 1)), true).
Proof.
  intros Hdl Hc. destruct (simple_call_ok c s API_STOP (λ s', s' = with_count s (i16 (_client_count s - 1))) Hdl) as (s'&He&->); [| |done].
  - unfold in_int, in_signed, API_STOP. cbn. lia.
  - intros hd. by apply stop_answers.
Qed.

Lemma with_count_good s n : ServerGood s → ServerGood (with_count s n).
Proof. by intros [? ?]. Qed.

Lemma erase_all_call_ok c s : cl_dealer c = true → simple_call junk order f c s API_ERASE_ALL = Ok (with_aggs s ∅, true).
Proof.
  intros Hdl. destruct (simple_call_ok c s API_ERASE_ALL (λ s', s' = with_aggs s ∅) Hdl) as (s'&He&->); [| |done].
  - unfold in_int, in_signed, API_ERASE_ALL. cbn. lia.
  - intros hd ba Hwf Hc. unfold handle, process_erase_all_request.
    cbn [Z.eqb API_READ API_WRITE API_RESET API_ERASE API_ERASE_ALL Pos.eqb q_ar q_head].
    destruct (RpcResponse_new_ok hd) as (ar&->&_&Har). step_ok. eexists _, ba, _. split; [done|]. split; [|done].
    by apply consumed_start.
Qed.

(** A request with a name and a class. *)
Lemma named_request_ok sd op n : in_int t_i8 op → str_ok n → ∃ q ar1 ar2, new_request junk sd op = Ok q ∧
  op_out (c_string junk) (q_ar q) n = Ok ar1 ∧ op_out (c_string junk) ar1 (type_name (class_of n)) = Ok ar2 ∧
  requests (with_ar q ar2) op (string_bytes n ++ string_bytes (type_name (class_of n))).
Proof using classes names_ok.
  intros Hop Hn. destruct (new_request_ok sd op Hop) as (q&Hq&Hr&Hc).
  destruct (put_string_seq _ _ _ n (appended_nil _ Hr) Hn) as (a1&H1&Hap1).
  destruct (put_string_seq _ _ _ _ Hap1 (type_name_ok n)) as (a2&H2&Hap2).
  exists q, a1, a2. repeat (split; [done|]). unfold requests in *. destruct Hap2 as (_&Hcon&_). cbn. by rewrite Hcon, Hc, <- !app_assoc.
Qed.

(** Reading gives what the server has, and changes nothing. *)
Lemma inner_read_ok c s n : cl_dealer c = true → ServerGood s → str_ok n →
  inner_read junk order f c s n (type_name (class_of n)) (class_of n) =
    Ok (s, (λ _, server_mass s n) <$> _umap_name2aggs s !! n).
Proof using classes names_ok order_perm.
  intros Hdl Hs Hn. unfold inner_read, dealer_call. rewrite Hdl.
  destruct (named_request_ok 0 API_READ n) as (q&a1&a2&->&H1&H2&Hq); [unfold in_int, in_signed, API_READ; cbn; lia|done|].
  step_ok. rewrite H1. step_ok. rewrite H2. step_ok.
  destruct (rpc_ok s _ API_READ _ _ ltac:(unfold in_int, in_signed, API_READ; cbn; lia) Hq (read_answers s n _ Hs Hn))
    as (s'&ar&resp&->&Hwf&Hc&->&Hresp). step_ok. unfold read_answer in Hresp. unfold has_error. cbn [q_head error_code q_ar].
  destruct (_umap_name2aggs s !! n) as [[ty o]|] eqn:E; cbn [fmap option_fmap option_map].
  - destruct Hresp as [Hhd Hb]. rewrite Hhd. cbn. destruct (Hb ar [] Hwf) as (a'&Hd&Hex); [by rewrite Hc, app_nil_r|].
    cbn [o_type o_state] in Hd. rewrite Hd. step_ok. by rewrite (exhausted _ _ Hex).
  - rewrite Hresp. cbn. unfold get_error. cbn [q_head error_code]. rewrite Hresp. done.
Qed.

Lemma client_read_ok c s m n : (is_Some (mg_name2id m !! n) → cl_dealer c = true) → ServerGood s → ManagerGood m → str_ok n →
  client_read junk order f c s m n (class_of n) =
    Ok (s, _ ← mg_name2id m !! n; (λ _, server_mass s n) <$> _umap_name2aggs s !! n).
Proof using classes names_ok order_perm.
  intros Hdl Hs Hm Hn. unfold client_read. rewrite typename_ok by done. step_ok.
  destruct (mg_name2id m !! n); [|done]. cbn. apply inner_read_ok; auto.
Qed.

(** Resetting and erasing leave the other names alone. *)
Definition others_kept (P : str → Prop) (s s' : server) : Prop :=
  ServerGood s' ∧ _client_count s' = _client_count s ∧ ∀ n, ¬ P n → server_mass s' n = server_mass s n.

Lemma reset_answers s n hd : ServerGood s → str_ok n →
  answers s API_RESET hd (string_bytes n ++ string_bytes (type_name (class_of n)))
    (λ s' resp, others_kept (λ n', n' = n) s s' ∧ (error_code (q_head resp) = SUCC ∨ error_code (q_head resp) = ENOTFOUND)).
Proof using classes names_ok order_perm.
  intros Hs Hn ba Hwf Hc. unfold handle, process_reset_request. cbn [Z.eqb API_READ API_WRITE API_RESET Pos.eqb q_ar q_head].
  destruct (find_agg_ok s n ba Hs Hn Hwf Hc) as (b1&->&Hc1). step_ok.
  destruct (RpcResponse_new_ok hd) as (ar&->&Hr&Har). step_ok.
  destruct (_umap_name2aggs s !! n) as [[ty o]|] eqn:E; cbn [fmap option_fmap option_map snd].
  2: { eexists s, b1, _. split; [done|]. split; [done|]. split; [by split|by right]. }
  eexists _, b1, _. split; [done|]. split; [done|]. split; [|by left]. split; [|split; [done|]].
  - destruct (sg_aggs s Hs n ty o E) as [-> (st&->&Hst)].
    split; [|apply Hs]. cbn. intros k ty o'. destruct (decide (k = n)) as [->|].
    + rewrite lookup_alter_eq, E. cbn. intros [= <- <-]. split; [done|]. unfold obj_init. cbn [o_type].
      eexists. split; [done|]. apply fresh_valid, class_ok.
    + rewrite lookup_alter_ne by done. by apply (sg_aggs s Hs).
  - intros n' Hne. unfold server_mass. cbn. by rewrite lookup_alter_ne.
Qed.

Lemma client_reset_ok c s m n : (is_Some (mg_name2id m !! n) → cl_dealer c = true) → ServerGood s → ManagerGood m → str_ok n →
  ∃ s' r, client_reset junk order f c s m n = Ok (s', r) ∧ others_kept (λ n', n' = n) s s'.
Proof using classes names_ok order_perm.
  intros Hdl Hs Hm Hn. unfold client_reset, dealer_call. rewrite typename_ok by done. step_ok.
  destruct (mg_name2id m !! n); cbn [fmap option_fmap option_map]; [|by exists s, false]. rewrite Hdl by eauto.
  destruct (named_request_ok (-1) API_RESET n) as (q&a1&a2&->&H1&H2&Hq); [unfold in_int, in_signed, API_RESET; cbn; lia|done|].
  step_ok. rewrite H1. step_ok. rewrite H2. step_ok.
  destruct (rpc_ok s _ API_RESET _ _ ltac:(unfold in_int, in_signed, API_RESET; cbn; lia) Hq (reset_answers s n _ Hs Hn))
    as (s'&ar&resp&->&_&_&Hk&Hec). step_ok. unfold has_error, get_error. cbn [q_head error_code].
  destruct Hec as [->| ->]; cbn; by eexists _, _.
Qed.

Lemma delete_all_lookup (names : list str) : ∀ (m : gmap str (str * object)) n,
  foldl (λ m name, delete name m) m names !! n = if decide (n ∈ names) then None else m !! n.
Proof.
  induction names as [|k names IH]; intros m n; [done|]. cbn [foldl]. rewrite IH.
  destruct (decide (n ∈ names)), (decide (n ∈ k :: names)) as [Hin|Hin]; try done.
  - exfalso. apply Hin. by right.
  - apply elem_of_cons in Hin as [->|]; [|done]. by rewrite lookup_delete_eq.
  - rewrite lookup_delete_ne; [done|]. intros ->. apply Hin. by left.
Qed.

Lemma lawful_names : Lawful (c_vector junk (c_string junk)) (valid_list str_ok) (enc_list string_bytes).
Proof. apply lawful_c_vector, (lawful_c_string junk). Qed.

Lemma erase_answers s names hd : ServerGood s → valid_list str_ok names →
  answers s API_ERASE hd (enc_list string_bytes names) (λ s' resp, others_kept (λ n, n ∈ names) s s' ∧ empty_answer hd resp).
Proof.
  intros Hs Hn ba Hwf Hc. unfold handle, process_erase_request. cbn [Z.eqb API_READ API_WRITE API_RESET API_ERASE Pos.eqb q_ar q_head].
  destruct (field_in_ok (Lawful0 := lawful_names) _ _ _ ba names [] Hwf Hn) as (b1&->&Hc1); [by rewrite app_nil_r|]. step_ok.
  destruct (RpcResponse_new_ok hd) as (ar&->&_&Har). step_ok. eexists _, b1, _. split; [done|]. split; [done|]. split; [|done].
  split; [split|split; [done|]].
  - cbn. intros k ty o. rewrite delete_all_lookup. destruct (decide (k ∈ names)); [done|]. by apply (sg_aggs s Hs).
  - apply Hs.
  - intros n Hnot. unfold server_mass. cbn. by rewrite delete_all_lookup, decide_False.
Qed.

Lemma client_erase_ok c s names : cl_dealer c = true → ServerGood s → valid_list str_ok names →
  ∃ s', client_erase junk order f c s names = Ok (s', true) ∧ others_kept (λ n, n ∈ names) s s'.
Proof.
  intros Hdl Hs Hn. unfold client_erase, dealer_call. rewrite Hdl.
  destruct (new_request_ok (-1) API_ERASE) as (q&->&Hr&Hq); [unfold in_int, in_signed, API_ERASE; cbn; lia|]. step_ok.
  destruct (out_seq (Lawful0 := lawful_names) _ _ _ _ _ _ names (appended_nil _ Hr) Hn) as (a1&->&Hap). step_ok.
  destruct (rpc_ok s (with_ar q a1) API_ERASE (enc_list string_bytes names) (λ s' resp, others_kept (λ n, n ∈ names) s s' ∧ empty_answer (q_head (with_ar q a1)) resp))
    as (s'&ar&resp&->&_&_&Hk&Hresp).
  - unfold in_int, in_signed, API_ERASE. cbn. lia.
  - unfold requests in *. destruct Hap as (_&Hcon&_). cbn [with_ar q_ar]. by rewrite Hcon, Hq, <- !app_assoc.
  - by apply erase_answers.
  - step_ok. rewrite (answered_well _ _ _ Hresp). by exists s'.
Qed.
End proofs.
