(* ===== verification/AccSystem.v ===== *)
(** * The accumulators of a cluster

    The server of src/src/accumulator/AccumulatorServer.cpp and any number of processes,
    each with its manager, its client with the thread that sends, and the accumulators its
    threads write to (src/src/accumulator).  A step is a critical section of the code or a
    remote call: the send thread swaps the buffers under its lock, packs the other buffer,
    calls the server and takes the lock again, and everything else happens in between.

    [legal] says what a correct program does, and [keeps] which steps lose nothing of a name.
    In the states such a program reaches every aggregator has the class of its name and no
    step aborts; nothing that is written is lost or counted twice by steps that keep it; and
    the send thread of a process empties its buffers, whatever the others do meanwhile. *)
From stdpp Require Import sorting.
From S2P Require Import Prelude Archive Serialize LazyArchive Message Master Aggregator Accumulator.
Import MemoryArchive.

(** A value of some class, as a thread hands it to [write]. *)
Record value_obj := Value { vo_type : agg_type; vo_value : value_of vo_type }.

Definition value_cast (ty : agg_type) (v : value_obj) : option (value_of ty) :=
  match decide (vo_type v = ty) with
  | left e => Some (eq_rect _ value_of (vo_value v) _ e)
  | right _ => None
  end.

Lemma value_cast_eq ty v : value_cast ty (Value ty v) = Some v.
Proof.
  unfold value_cast. cbn. destruct (decide _) as [e|]; [|done]. by rewrite <- (Eqdep_dec.eq_rect_eq_dec agg_type_eq_dec).
Qed.

Lemma value_cast_inv ty v x : value_cast ty v = Some x → v = Value ty x.
Proof. unfold value_cast. destruct (decide _) as [<-|]; [|done]. destruct v. cbn. by intros [= <-]. Qed.

Section system.
Context (junk : nat → byte) (order : gmap Z (Z * Z) → list (Z * (Z * Z))) (type_name : agg_type → str) (f : factory).
Context (class_of : str → agg_type).

(** Where [send_thread_procedure] is: not running; in the wait; with buffer [i] to be packed;
    with its request to be sent; about to take the lock again. *)
Inductive sender := NoThread | Waiting | Sending (i : bool) | Calling (i : bool) (q : option item) | Locking (i : bool).

(** [pr_new]: the accumulator whose constructor is in [add_aggregator], and the number it will
    be known by. *)
Record process := Process {
  pr_manager : manager;
  pr_client : client;
  pr_accs : gmap nat accumulator;
  pr_sender : sender;
  pr_finalizing : bool;
  pr_new : option (nat * accumulator);
}.

Record system := Sys { sy_server : server; sy_procs : gmap nat process }.

Definition with_client (p : process) c := Process (pr_manager p) c (pr_accs p) (pr_sender p) (pr_finalizing p) (pr_new p).
Definition with_accs (p : process) a := Process (pr_manager p) (pr_client p) a (pr_sender p) (pr_finalizing p) (pr_new p).
Definition with_sender (p : process) t := Process (pr_manager p) (pr_client p) (pr_accs p) t (pr_finalizing p) (pr_new p).

Definition zero_cnt (c : client) (i : bool) : client := set_buf c i (with_cnt (cl_buf c i) 0).

(** What [send2server] does after packing. *)
Definition send_packed (s : server) (q : option item) : result server :=
  match q with None => Ok s | Some q => send_call junk order f s q end.

(** [send_thread_procedure], step by step.  The last step, with the writer closed, keeps the
    lock while it sends what is left.  [send2server] does not begin while an accumulator is
    being made: it waits for [_pending_agg_size_mutex]. *)
Definition send_step (s : server) (p : process) : result (server * process) :=
  let c := pr_client p in
  let idx := _pending_aggs_idx c in
  match pr_sender p with
  | NoThread => Ok (s, p)
  | Waiting =>
      if 0 <? _write_pending_cnt (cl_buf c idx)
      then Ok (s, with_sender (with_client p (with_idx c (negb idx))) (Sending idx))
      else if _writer_closed c then Ok (s, with_sender p NoThread) else Ok (s, p)
  | Sending i =>
      if cl_adding c then Ok (s, p)
      else '(c, q) ← send2server junk order c i; Ok (s, with_sender (with_client p c) (Calling i q))
  | Calling i q => s ← send_packed s q; Ok (s, with_sender p (Locking i))
  | Locking i =>
      let c := zero_cnt c i in
      if _writer_closed c then
        if 0 <? _write_pending_cnt (cl_buf c idx) then
          if cl_adding c then Ok (s, p) else
          '(c, q) ← send2server junk order c idx;
          s ← send_packed s q;
          Ok (s, with_sender (with_client p (zero_cnt c idx)) NoThread)
        else Ok (s, with_sender (with_client p c) NoThread)
      else Ok (s, with_sender (with_client p c) Waiting)
  end.

(** What may happen in the process [n]; [k] is an accumulator of it.  An accumulator is made in
    two steps: in between [add_aggregator] has its locks, and other threads go on. *)
Inductive op :=
  | Spawn (n : nat)
  | Initialize (n : nat)
  | FinalizeBegin (n : nat)
  | FinalizeEnd (n : nat)
  | NewBegin (n k : nat) (name : str) (flush_freq : Z) (final_need_flush : bool)
  | NewEnd (n : nat)
  | Write (n k : nat) (v : value_obj)
  | Flush (n k : nat)
  | Destroy (n k : nat)
  | SendStep (n : nat)
  | Read (n : nat) (name : str)
  | Reset_ (n : nat) (name : str)
  | Erase (n : nat) (names : list str)
  | EraseAll (n : nat).

Definition on_process (σ : system) (n : nat) (g : server → process → result (server * process)) : result system :=
  match sy_procs σ !! n with
  | Some p => '(s, p) ← g (sy_server σ) p; Ok (Sys s (<[n := p]> (sy_procs σ)))
  | None => Abort
  end.

Definition on_acc (σ : system) (n k : nat) (g : client → accumulator → result (client * option accumulator)) : result system :=
  on_process σ n (λ s p,
    match pr_accs p !! k with
    | Some a => '(c, a) ← g (pr_client p) a; Ok (s, with_client (with_accs p (partial_alter (λ _, a) k (pr_accs p))) c)
    | None => Abort
    end).

Definition exec (σ : system) (o : op) : result system :=
  match o with
  | Spawn n => Ok (Sys (sy_server σ) (<[n := Process manager_ client_ ∅ NoThread false None]> (sy_procs σ)))
  | Initialize n => on_process σ n (λ s p,
      '(s, c) ← client_initialize junk order f s (pr_client p);
      Ok (s, with_sender (with_client p c) Waiting))
  | FinalizeBegin n => on_process σ n (λ s p,
      c ← client_finalize_begin (pr_client p); Ok (s, Process (pr_manager p) c (pr_accs p) (pr_sender p) true (pr_new p)))
  | FinalizeEnd n => on_process σ n (λ s p,
      '(s, c) ← client_finalize_end junk order f s (pr_client p);
      Ok (s, Process (pr_manager p) c (pr_accs p) (pr_sender p) false (pr_new p)))
  | NewBegin n k name freq final => on_process σ n (λ s p,
      '(m, a) ← Accumulator_ junk order type_name (pr_manager p) (class_of name) name freq final;
      Ok (s, Process m (add_begin (pr_client p) name) (pr_accs p) (pr_sender p) (pr_finalizing p) (Some (k, a))))
  | NewEnd n => on_process σ n (λ s p,
      match pr_new p with
      | Some (k, a) =>
          c ← add_aggregator junk order type_name f (pr_client p) (_name a) (ac_type a);
          Ok (s, Process (pr_manager p) c (<[k := a]> (pr_accs p)) (pr_sender p) (pr_finalizing p) None)
      | None => Abort
      end)
  | Write n k v => on_acc σ n k (λ c a,
      match value_cast (ac_type a) v with
      | Some v => '(c, a, _) ← acc_write junk order c a v; Ok (c, Some a)
      | None => Abort
      end)
  | Flush n k => on_acc σ n k (λ c a, '(c, a, _) ← flush_nonlock junk order c a; Ok (c, Some a))
  | Destroy n k => on_acc σ n k (λ c a, c ← acc_destroy junk order c a; Ok (c, None))
  | SendStep n => on_process σ n send_step
  | Read n name => on_process σ n (λ s p,
      '(s, _) ← client_read junk order f (pr_client p) s (pr_manager p) name (class_of name); Ok (s, p))
  | Reset_ n name => on_process σ n (λ s p, '(s, _) ← client_reset junk order f (pr_client p) s (pr_manager p) name; Ok (s, p))
  | Erase n names => on_process σ n (λ s p, '(s, _) ← client_erase junk order f (pr_client p) s names; Ok (s, p))
  | EraseAll n => on_process σ n (λ s p, '(s, _) ← client_erase_all junk order f (pr_client p) s; Ok (s, p))
  end.

(** What a correct program does, and the locks let it do, within what fits in memory.  A
    process calls [initialize] and [finalize] in turn; an accumulator is used after it was
    made and with values of its class, which belongs to its name; only one accumulator is
    being made at a time, and none while the process is initialized or finalized (all hold
    [_client_mutex]); nothing goes from an accumulator to the client while another one is being
    made with a new name (no lock prevents it); and reading a name that the process knows,
    resetting it and erasing need the process to be initialized and not yet finalized (they
    use [_dealer]). *)
Definition legal (σ : system) (o : op) : Prop :=
  match o with
  | Spawn n => sy_procs σ !! n = None
  | Initialize n => ∃ p, sy_procs σ !! n = Some p ∧ pr_new p = None ∧ cl_started (pr_client p) = false ∧
      _client_count (sy_server σ) + 1 < 2 ^ 15
  | FinalizeBegin n => ∃ p, sy_procs σ !! n = Some p ∧ pr_new p = None ∧ cl_started (pr_client p) = true ∧
      pr_finalizing p = false
  | FinalizeEnd n => ∃ p, sy_procs σ !! n = Some p ∧ pr_finalizing p = true ∧ pr_sender p = NoThread
  | NewBegin n k name freq _ => ∃ p, sy_procs σ !! n = Some p ∧ pr_new p = None ∧ pr_finalizing p = false ∧ str_ok name
  | NewEnd n => ∃ p k a, sy_procs σ !! n = Some p ∧ pr_new p = Some (k, a) ∧ pr_accs p !! k = None ∧
      ∀ i, Z.of_nat (length (_pending_aggs (cl_buf (pr_client p) i))) + 1 < 2 ^ 64
  | Write n k v => ∃ p a x, sy_procs σ !! n = Some p ∧ pr_accs p !! k = Some a ∧ v = Value (ac_type a) x ∧
      value_valid (ac_type a) x ∧ _cached_count a + 1 < 2 ^ 64 ∧ cl_adding (pr_client p) = false ∧
      _write_pending_cnt (cl_buf (pr_client p) (_pending_aggs_idx (pr_client p))) + 1 < 2 ^ 64
  | Flush n k | Destroy n k => ∃ p a, sy_procs σ !! n = Some p ∧ pr_accs p !! k = Some a ∧ cl_adding (pr_client p) = false ∧
      _write_pending_cnt (cl_buf (pr_client p) (_pending_aggs_idx (pr_client p))) + 1 < 2 ^ 64
  | SendStep n => is_Some (sy_procs σ !! n)
  | Read n name | Reset_ n name => ∃ p, sy_procs σ !! n = Some p ∧ str_ok name ∧
      (is_Some (get_id_by_name (pr_manager p) name) → cl_dealer (pr_client p) = true)
  | Erase n names => ∃ p, sy_procs σ !! n = Some p ∧ cl_dealer (pr_client p) = true ∧
      Forall str_ok names ∧ in_int t_size (Z.of_nat (length names))
  | EraseAll n => ∃ p, sy_procs σ !! n = Some p ∧ cl_dealer (pr_client p) = true
  end.

(** The steps that lose nothing of the accumulators named [m]. *)
Definition keeps (m : str) (σ : system) (o : op) : Prop :=
  match o with
  | Write n k _ | Flush n k => ∀ p a, sy_procs σ !! n = Some p → pr_accs p !! k = Some a → _name a = m →
      _writer_closed (pr_client p) = false
  | Destroy n k => ∀ p a, sy_procs σ !! n = Some p → pr_accs p !! k = Some a → _name a = m →
      _cached_count a = 0 ∨ (_writer_closed (pr_client p) = false ∧ _final_need_flush a = true)
  | Reset_ _ name => name ≠ m
  | Erase _ names => m ∉ names
  | EraseAll _ => False
  | _ => True
  end.

(** What a step writes to the accumulators named [m]. *)
Definition writes (m : str) (σ : system) (o : op) : list (value_of (class_of m)) :=
  match o with
  | Write n k v =>
      match sy_procs σ !! n ≫= λ p, pr_accs p !! k with
      | Some a => if decide (_name a = m) then option_list (value_cast (class_of m) v) else []
      | None => []
      end
  | _ => []
  end.

(** A run that loses nothing of [m], with what was written to it. *)
Inductive run (m : str) : system → list (value_of (class_of m)) → system → Prop :=
  | run_nil σ : run m σ [] σ
  | run_step σ vs σ1 o σ2 : run m σ vs σ1 → legal σ1 o → keeps m σ1 o → exec σ1 o = Ok σ2 →
      run m σ (vs ++ writes m σ1 o) σ2.

Inductive reachable : system → Prop :=
  | reachable_init : reachable (Sys (Server true 0 ∅ ∅) ∅)
  | reachable_step σ o σ' : reachable σ → legal σ o → exec σ o = Ok σ' → reachable σ'.

(** The steps [l], one after the other; what they write to [m], and that they lose nothing of it. *)
Inductive steps : system → list op → system → Prop :=
  | steps_nil σ : steps σ [] σ
  | steps_cons σ o σ1 l σ2 : legal σ o → exec σ o = Ok σ1 → steps σ1 l σ2 → steps σ (o :: l) σ2.

Fixpoint all_writes (m : str) (σ : system) (l : list op) : list (value_of (class_of m)) :=
  match l with
  | [] => []
  | o :: l => writes m σ o ++ match exec σ o with Ok σ1 => all_writes m σ1 l | Abort => [] end
  end.

Fixpoint all_keep (m : str) (σ : system) (l : list op) : Prop :=
  match l with
  | [] => True
  | o :: l => keeps m σ o ∧ match exec σ o with Ok σ1 => all_keep m σ1 l | Abort => True end
  end.

(** What may happen while a thread of the process [n] waits in [wait_empty], which holds
    [_client_mutex], and no thread of it that already passed this lock is still writing:
    anything in the other processes, and the steps of the send thread. *)
Definition op_process (o : op) : nat :=
  match o with
  | Spawn n | Initialize n | FinalizeBegin n | FinalizeEnd n | NewBegin n _ _ _ _ | NewEnd n | Write n _ _ | Flush n _
  | Destroy n _ | SendStep n | Read n _ | Reset_ n _ | Erase n _ | EraseAll n => n
  end.

Definition quiet (n : nat) (o : op) : Prop :=
  match o with
  | SendStep _ | Read _ _ | Reset_ _ _ | Erase _ _ | EraseAll _ => True
  | _ => op_process o ≠ n
  end.

Definition is_send (n : nat) (o : op) : bool := match o with SendStep k => (k =? n)%nat | _ => false end.

Fixpoint sends (n : nat) (l : list op) : nat :=
  match l with [] => O | o :: l => (Nat.b2n (is_send n o) + sends n l)%nat end.

(** Nothing of [m] is on its way: [wait_empty] would return everywhere, and the accumulators
    with the name have been flushed. *)
Definition settled (m : str) (σ : system) : Prop := ∀ n p, sy_procs σ !! n = Some p →
  (∀ i, _write_pending_cnt (cl_buf (pr_client p) i) = 0) ∧
  ∀ k a, pr_accs p !! k = Some a → _name a = m → _cached_count a = 0.

(** The server has been initialized, and no process has started. *)
Definition system_ : system := Sys (Server true 0 ∅ ∅) ∅.
End system.

Section proofs.
Context (junk : nat → byte) (order : gmap Z (Z * Z) → list (Z * (Z * Z))) (type_name : agg_type → str).
Context (tys : list agg_type) (class_of : str → agg_type).
Hypothesis order_perm : ∀ m, order m ≡ₚ map_to_list m.
Hypothesis names_ok : ∀ ty, ty ∈ tys → str_ok (type_name ty).
Hypothesis classes : ∀ name, class_of name ∈ tys ∧ type_ok (class_of name) = true.
Hypothesis names_inj : ∀ a b, a ∈ tys → b ∈ tys → type_name a = type_name b → a = b.

Abbreviation f := (register_all type_name ∅ tys).
Abbreviation agg_at ty := (agg_of junk order ty).
Abbreviation merge ty := (merge_aggregator (Aggregator := agg_at ty)).
Abbreviation fresh ty := (init (Aggregator := agg_at ty)).
Abbreviation mass := (mass junk order class_of).
Abbreviation server_mass := (server_mass junk order class_of).
Abbreviation buf_mass := (buf_mass junk order class_of).
Abbreviation entries_mass := (entries_mass junk order class_of).
Abbreviation merge_all := (merge_all junk order).
Abbreviation obj_good := (obj_good class_of).
Abbreviation entries_good := (entries_good class_of).
Abbreviation ServerGood := (ServerGood type_name tys class_of).
Abbreviation ClientGood := (ClientGood junk order type_name class_of).
Abbreviation ManagerGood := (ManagerGood type_name class_of).
Abbreviation entries_bytes := (entries_bytes junk order type_name class_of).
Abbreviation valid n := (state_valid (class_of n)).
Abbreviation collect n := (collect (H := agg_at (class_of n))).

#[local] Hint Resolve class_ok : core.

Lemma mall_fresh n l : Forall (valid n) l → merge_all (class_of n) (fresh (class_of n) :: l) = merge_all (class_of n) l.
Proof using order_perm classes. intros. apply (merge_fresh_l junk order order_perm); eauto using merge_all_valid. Qed.

Lemma mall_perm n l k : Forall (valid n) l → l ≡ₚ k → merge_all (class_of n) l = merge_all (class_of n) k.
Proof using order_perm classes. intros. apply (merge_all_perm junk order order_perm); eauto. Qed.

(** ** Equations between sums

    A sum is reified as a tree over the positions of its terms in a list; two sums are equal
    when they have the same terms. *)
Inductive sum := Zero | Term (i : nat) | Plus (a b : sum).

Fixpoint terms (t : sum) : list nat :=
  match t with Zero => [] | Term i => [i] | Plus a b => terms a ++ terms b end.

Fixpoint denote (n : str) (env : list (state_of (class_of n))) (t : sum) : state_of (class_of n) :=
  match t with
  | Zero => fresh (class_of n)
  | Term i => default (fresh (class_of n)) (env !! i)
  | Plus a b => merge (class_of n) (denote n env a) (denote n env b)
  end.

Lemma denote_terms n env t : Forall (valid n) env →
  denote n env t = merge_all (class_of n) ((λ i, default (fresh (class_of n)) (env !! i)) <$> terms t) ∧
  Forall (valid n) ((λ i, default (fresh (class_of n)) (env !! i)) <$> terms t).
Proof using order_perm classes.
  intros He. assert (Ht : ∀ i, valid n (default (fresh (class_of n)) (env !! i))).
  { intros i. destruct (env !! i) as [x|] eqn:E; [by eapply Forall_lookup_1|]. eapply fresh_valid; eauto. }
  induction t as [|i|a [IHa Ha] b [IHb Hb]]; cbn [denote terms].
  - by split.
  - split; [|by repeat constructor]. symmetry. eapply merge_fresh_r; eauto.
  - rewrite fmap_app. split; [|by apply Forall_app]. rewrite IHa, IHb. symmetry. eapply merge_all_app; eauto.
Qed.

Lemma sums_equal n env a b : Forall (valid n) env → merge_sort (≤)%nat (terms a) = merge_sort (≤)%nat (terms b) →
  denote n env a = denote n env b.
Proof using order_perm classes.
  intros He Hab. destruct (denote_terms n env a He) as [-> Ha]. destruct (denote_terms n env b He) as [-> _].
  eapply merge_all_perm; eauto. by rewrite <- (merge_sort_Permutation (≤)%nat (terms a)), Hab, merge_sort_Permutation.
Qed.

Ltac term_index x env :=
  match env with
  | x :: _ => constr:(0%nat)
  | _ :: ?env => let i := term_index x env in constr:(S i)
  end.
Ltac reify_sum env t :=
  match t with
  | merge _ ?a ?b => let a := reify_sum env a in let b := reify_sum env b in constr:(Plus a b)
  | fresh _ => constr:(Zero)
  | _ => let i := term_index t env in constr:(Term i)
  end.
(** [sums n env]: both sides of the goal are sums of terms of [env] and [fresh]. *)
Ltac sums n env :=
  match goal with |- ?l = ?r =>
    let a := reify_sum env l in let b := reify_sum env r in
    change (denote n env a = denote n env b); apply sums_equal; [|reflexivity]; repeat (apply Forall_cons_2; [assumption|]);
    apply Forall_nil_2 end.

(** ** The accumulators of a process *)
Definition acc_entry (a : accumulator) : str * object := (_name a, Object (ac_type a) (_agg a)).

Definition acc_mass (accs : gmap nat accumulator) (n : str) : state_of (class_of n) :=
  entries_mass n (acc_entry <$> (map_to_list accs).*2).

(** What the accumulator [a] contributes to [n]. *)
Definition acc_part (a : accumulator) (n : str) : state_of (class_of n) :=
  if decide (_name a = n) then mass n (Object (ac_type a) (_agg a)) else fresh (class_of n).

Record AccGood (p : process) (a : accumulator) : Prop := {
  ag_name : str_ok (_name a);
  ag_obj : obj_good (_name a) (Object (ac_type a) (_agg a));
  ag_known : is_Some (cl_name2id (pr_client p) !! _name a);
  ag_managed : is_Some (mg_name2id (pr_manager p) !! _name a);
  ag_cached : in_int t_size (_cached_count a);
  ag_empty : _cached_count a = 0 → mass (_name a) (Object (ac_type a) (_agg a)) = fresh (class_of (_name a));
}.

Definition AccsGood (p : process) : Prop := map_Forall (λ _ a, AccGood p a) (pr_accs p).

Lemma acc_entries_good p (accs : gmap nat accumulator) : map_Forall (λ _ a, AccGood p a) accs → entries_good (acc_entry <$> (map_to_list accs).*2).
Proof.
  intros Ha. apply Forall_fmap, Forall_fmap, Forall_forall. intros [k a] Hin%elem_of_map_to_list.
  destruct (Ha k a Hin). done.
Qed.

Lemma acc_mass_valid p (accs : gmap nat accumulator) n : map_Forall (λ _ a, AccGood p a) accs → valid n (acc_mass accs n).
Proof using order_perm classes. intros. eapply (entries_mass_valid junk order tys class_of); eauto using acc_entries_good. Qed.

Lemma acc_part_valid p a n : AccGood p a → valid n (acc_part a n).
Proof using order_perm classes.
  intros [_ Ho _ _ _ _]. unfold acc_part. destruct (decide _) as [<-|]; [by apply mass_valid|]. eapply fresh_valid; eauto.
Qed.

Lemma acc_mass_insert p accs k a n : map_Forall (λ _ a, AccGood p a) accs → AccGood p a → accs !! k = None →
  acc_mass (<[k := a]> accs) n = merge (class_of n) (acc_part a n) (acc_mass accs n).
Proof using order_perm classes.
  intros Hg Ha Hk. unfold acc_mass, acc_part. pose proof (acc_entries_good p accs Hg) as Hes.
  assert (Hp : acc_entry <$> (map_to_list (<[k := a]> accs)).*2 ≡ₚ acc_entry a :: (acc_entry <$> (map_to_list accs).*2)).
  { by rewrite map_to_list_insert. }
  rewrite (entries_mass_perm junk order tys class_of order_perm classes n _ _ (acc_entries_good p _ (map_Forall_insert_2 _ _ _ _ Ha Hg)) Hp).
  rewrite entries_mass_cons. cbn [acc_entry fst snd]. destruct (decide (_name a = n)); [done|].
  symmetry. apply (merge_fresh_l junk order order_perm); eauto using acc_mass_valid.
Qed.

(** An accumulator taken out of the map. *)
Lemma acc_mass_lookup p accs k a n : map_Forall (λ _ a, AccGood p a) accs → accs !! k = Some a →
  acc_mass accs n = merge (class_of n) (acc_part a n) (acc_mass (delete k accs) n).
Proof using order_perm classes.
  intros Hg Hk. pose proof (acc_mass_insert p (delete k accs) k a n) as Hi. rewrite insert_delete_id in Hi by done.
  apply Hi; [by apply map_Forall_delete|by eapply Hg|by rewrite lookup_delete_eq].
Qed.
(** ** The invariant of a process *)

(** [_dealer] is there while the process is started, and the vectors grow only in
    [add_aggregator], with a new name. *)
Definition StateGood (p : process) : Prop :=
  cl_dealer (pr_client p) = cl_started (pr_client p) ∧
  match pr_new p with
  | Some (_, a) => ∃ m id ff fin, a = MkAccumulator (class_of m) (fresh (class_of m)) id m 0 ff fin ∧ str_ok m ∧
      is_Some (mg_name2id (pr_manager p) !! m) ∧ (cl_adding (pr_client p) = true → cl_name2id (pr_client p) !! m = None)
  | None => cl_adding (pr_client p) = false
  end.

Lemma state_same p p' : pr_new p' = pr_new p → pr_manager p' = pr_manager p → cl_name2id (pr_client p') = cl_name2id (pr_client p) →
  cl_started (pr_client p') = cl_started (pr_client p) → same_flags (pr_client p) (pr_client p') → StateGood p → StateGood p'.
Proof. unfold StateGood. by intros -> -> -> -> [-> ->]. Qed.

(** The send thread runs from [initialize] to [finalize] and has a buffer to itself. *)
Record ThreadGood (p : process) : Prop := {
  tg_open : _writer_closed (pr_client p) = false ↔ cl_started (pr_client p) = true ∧ pr_finalizing p = false;
  tg_off : cl_started (pr_client p) = false → pr_sender p = NoThread ∧ pr_finalizing p = false;
  tg_buf :
    let c := pr_client p in let idx := _pending_aggs_idx c in
    match pr_sender p with
    | NoThread => _writer_closed c = true ∧ ∀ i, _write_pending_cnt (cl_buf c i) = 0
    | Waiting => _write_pending_cnt (cl_buf c (negb idx)) = 0
    | Sending i => idx = negb i ∧ 0 < _write_pending_cnt (cl_buf c i)
    | Calling i _ => (idx = negb i ∧ 0 < _write_pending_cnt (cl_buf c i)) ∧
                     Forall (λ x, x = false) (_pending_aggs_flag (cl_buf c i))
    | Locking i => idx = negb i ∧ Forall (λ x, x = false) (_pending_aggs_flag (cl_buf c i))
    end;
}.

(** The request [q] carries the aggregators [es]. *)
Definition flight (q : option item) (es : list (str * object)) : Prop :=
  match q with
  | Some q => ∃ bs, requests q API_WRITE (le_split 8 (Z.of_nat (length es)) ++ bs) ∧ entries_bytes es bs ∧
                    in_int t_size (Z.of_nat (length es))
  | None => es = []
  end.

(** [es]: the aggregators that are in a request of the send thread. *)
Record ProcGood (p : process) (es : list (str * object)) : Prop := {
  pg_manager : ManagerGood (pr_manager p);
  pg_client : ClientGood (pr_client p);
  pg_accs : AccsGood p;
  pg_thread : ThreadGood p;
  pg_good : entries_good es;
  pg_flight : match pr_sender p with Calling _ q => flight q es | _ => es = [] end;
  pg_state : StateGood p;
}.

Definition parts (p : process) (es : list (str * object)) (n : str) : list (state_of (class_of n)) :=
  [buf_mass (cl_buf (pr_client p) false) n; buf_mass (cl_buf (pr_client p) true) n; entries_mass n es; acc_mass (pr_accs p) n].

Lemma parts_valid p es n : ProcGood p es → Forall (valid n) (parts p es n).
Proof using order_perm classes.
  intros Hp. repeat constructor.
  - eapply buf_mass_valid; eauto. apply Hp.
  - eapply buf_mass_valid; eauto. apply Hp.
  - eapply entries_mass_valid; eauto. apply Hp.
  - eapply acc_mass_valid. apply Hp.
Qed.

(** What the server and the process have of [n]. *)
Definition local (s : server) (p : process) (es : list (str * object)) (n : str) : state_of (class_of n) :=
  merge_all (class_of n) (server_mass s n :: parts p es n).

(** The step [r] of a process keeps the invariant, and [n] has become [d] more. *)
Definition started (p : process) : bool := cl_started (pr_client p).

(** The server counts the processes that have started, in 16 bits. *)
Definition counted (s s' : server) (p p' : process) : Prop :=
  _client_count s' = _client_count s + Z.b2z (started p') - Z.b2z (started p) ∧
  (started p' = started p ∨ _client_count s' < 2 ^ 15).

Lemma counted_same s s' p p' : _client_count s' = _client_count s → cl_started (pr_client p') = cl_started (pr_client p) →
  counted s s' p p'.
Proof. unfold counted, started. intros -> ->. split; [lia|by left]. Qed.

Definition stepped (s : server) (p : process) (es : list (str * object)) (r : result (server * process))
    (d : ∀ n, state_of (class_of n)) (keep : str → Prop) : Prop :=
  ∃ s' p' es', r = Ok (s', p') ∧ ServerGood s' ∧ ProcGood p' es' ∧
    counted s s' p p' ∧
    ∀ n, keep n → local s' p' es' n = merge (class_of n) (local s p es n) (d n).

(** An accumulator has the class of its name. *)
Lemma acc_typed p a : AccGood p a → ∃ m st id cc ff fin, a = MkAccumulator (class_of m) st id m cc ff fin ∧ valid m st.
Proof.
  intros [_ Ho _ _ _ _]. destruct a as [ty st id m cc ff fin]. cbn in Ho.
  assert (Ht : ty = class_of m) by (destruct Ho as (s&E&_); apply (f_equal o_type) in E; done).
  revert st Ho. rewrite Ht. intros st Ho. exists m, st, id, cc, ff, fin. split; [done|].
  apply (obj_good_mass junk order) in Ho as [_ Ho]. by rewrite mass_eq in Ho.
Qed.

Lemma acc_part_eq m st id cc ff fin : acc_part (MkAccumulator (class_of m) st id m cc ff fin) m = st.
Proof. unfold acc_part. cbn. rewrite decide_True by done. apply mass_eq. Qed.

Lemma acc_part_ne m st id cc ff fin n : n ≠ m → acc_part (MkAccumulator (class_of m) st id m cc ff fin) n = fresh (class_of n).
Proof. intros. unfold acc_part. cbn. by rewrite decide_False. Qed.

(** ** Writing *)

(** The client after a call of [write]: it may have got something into the buffer that is
    being filled, and a closed writer is left alone. *)
Record Wrote (c c' : client) : Prop := {
  wr_good : ClientGood c';
  wr_names : cl_name2id c' = cl_name2id c;
  wr_closed : _writer_closed c' = _writer_closed c;
  wr_started : cl_started c' = cl_started c;
  wr_idx : _pending_aggs_idx c' = _pending_aggs_idx c;
  wr_other : cl_buf c' (negb (_pending_aggs_idx c)) = cl_buf c (negb (_pending_aggs_idx c));
  wr_off : _writer_closed c = true → c' = c;
  wr_flags : same_flags c c';
}.

Lemma wrote_refl c : ClientGood c → Wrote c c.
Proof. by split. Qed.

(** [x] goes from the accumulator, which becomes [a'], to the buffer, after [d] came in. *)
Definition moves (c c' : client) (before after d : ∀ n, state_of (class_of n)) (n : str) : Prop :=
  ∃ x, valid n x ∧
    buf_mass (cl_buf c' (_pending_aggs_idx c)) n = merge (class_of n) (buf_mass (cl_buf c (_pending_aggs_idx c)) n) x ∧
    merge (class_of n) (before n) (d n) = merge (class_of n) x (after n).

Definition option_part (a : option accumulator) (n : str) : state_of (class_of n) :=
  match a with Some a => acc_part a n | None => fresh (class_of n) end.

Lemma thread_wrote p c' accs : ThreadGood p → Wrote (pr_client p) c' → ThreadGood (with_client (with_accs p accs) c').
Proof.
  intros [Ho Hoff Hb] [Hg Hn Hcl Hst Hi Hoth Hoff']. split; unfold with_client, with_accs; cbn in *.
  - by rewrite Hcl, Hst.
  - by rewrite Hst.
  - destruct (pr_sender p) as [| |i|i q|i].
    + destruct Hb as [Hc Hcnt]. by rewrite (Hoff' Hc).
    + by rewrite Hi, Hoth.
    + destruct Hb as [Hx Hf]. rewrite Hi. split; [done|]. rewrite Hx, negb_involutive in Hoth. by rewrite Hoth.
    + destruct Hb as [[Hx Hf] Hall]. rewrite Hi, Hx, negb_involutive in *. by rewrite Hoth.
    + destruct Hb as [Hx Hf]. rewrite Hi. split; [done|]. rewrite Hx, negb_involutive in Hoth. by rewrite Hoth.
Qed.

Lemma wrote_step s p es k a c' a' d keep : ServerGood s → ProcGood p es → pr_accs p !! k = Some a → Wrote (pr_client p) c' →
  (∀ b, a' = Some b → AccGood (with_client p c') b) → (∀ n, valid n (d n)) →
  (∀ n, keep n → moves (pr_client p) c' (acc_part a) (option_part a') d n) →
  stepped s p es (Ok (s, with_client (with_accs p (partial_alter (λ _, a') k (pr_accs p))) c')) d keep.
Proof.
  intros Hs Hp Hk Hw Ha' Hd Hmoves. pose proof Hp as [Hm Hc Ha Ht Hes Hfl Hsg]. pose proof Hw as [Hg Hnames Hcl Hst Hi Hoth Hoff Hsf].
  assert (Hknown : ∀ b, AccGood p b → AccGood (with_client p c') b).
  { intros b [? ? ? ? ?]. split; try done. cbn. by rewrite Hnames. }
  assert (Hdel : map_Forall (λ _ b, AccGood p b) (delete k (pr_accs p))) by by apply map_Forall_delete.
  assert (Hdel' : map_Forall (λ _ b, AccGood (with_client p c') b) (delete k (pr_accs p))) by (eapply map_Forall_impl; [done|auto]).
  set (p' := with_client _ _). assert (Haccs : AccsGood p').
  { intros j b. cbn. intros Hj. apply lookup_partial_alter_Some in Hj. destruct Hj as [[<- Hb]|[Hne Hj]].
    - destruct (Ha' b Hb). by split.
    - destruct (Hknown b (Ha j b Hj)). by split. }
  exists s, p', es. split; [done|]. split; [done|]. split; [|split].
  - split; [done|done|done|by apply thread_wrote|done|done|by apply (state_same p)].
  - by apply counted_same.
  - intros n Hkeep. destruct (Hmoves n Hkeep) as (x&Hx&Hbuf&Hpart). unfold local, parts.
    assert (Hacc : acc_mass (pr_accs p') n = merge (class_of n) (option_part a' n) (acc_mass (delete k (pr_accs p)) n)).
    { unfold p'. cbn. destruct a' as [b|]; cbn.
      - rewrite <- (acc_mass_insert (with_client p c') _ k b); [|done|by apply Ha'|by rewrite lookup_delete_eq].
        by rewrite insert_delete_eq.
      - symmetry. apply (merge_fresh_l junk order order_perm); eauto. by eapply acc_mass_valid. }
    rewrite Hacc, (acc_mass_lookup p (pr_accs p) k a) by done. clear Hacc.
    set (srv := server_mass s n). set (rest := acc_mass (delete k (pr_accs p)) n). set (fl := entries_mass n es).
    assert (valid n srv) by (eapply server_mass_valid; eauto). assert (valid n rest) by (by eapply acc_mass_valid).
    assert (valid n fl) by (eapply entries_mass_valid; eauto).
    assert (Hpa : valid n (acc_part a n)) by (eapply acc_part_valid; by eapply Ha).
    assert (Hpa' : valid n (option_part a' n)).
    { destruct a' as [b|]; [by eapply acc_part_valid, Ha'|eapply fresh_valid; eauto]. }
    assert (Hb : ∀ i, valid n (buf_mass (cl_buf (pr_client p) i) n)) by (intros i; eapply buf_mass_valid; eauto; apply Hc).
    specialize (Hd n). cbn [Accumulator.merge_all foldr]. unfold p'. cbn [pr_client with_client].
    assert (Hsum : ∀ b c, valid n b → valid n c →
      merge (class_of n) srv (merge (class_of n) (merge (class_of n) b x) (merge (class_of n) c (merge (class_of n) fl
        (merge (class_of n) (merge (class_of n) (option_part a' n) rest) (fresh (class_of n)))))) =
      merge (class_of n) (merge (class_of n) srv (merge (class_of n) b (merge (class_of n) c (merge (class_of n) fl
        (merge (class_of n) (merge (class_of n) (acc_part a n) rest) (fresh (class_of n))))))) (d n)).
    { intros b c Hb0 Hc0. trans (merge (class_of n) (merge (class_of n) x (option_part a' n))
        (merge (class_of n) srv (merge (class_of n) b (merge (class_of n) c (merge (class_of n) fl rest))))).
      - set (pa' := option_part a' n) in *. sums n [srv; b; c; fl; x; pa'; rest].
      - rewrite <- Hpart. set (pa := acc_part a n) in *. set (dn := d n) in *. sums n [srv; b; c; fl; pa; dn; rest]. }
    destruct (_pending_aggs_idx (pr_client p)); cbn [negb] in Hoth; rewrite Hoth, Hbuf.
    + rewrite <- (Hsum _ _ (Hb false) (Hb true)).
      set (b0 := buf_mass (cl_buf (pr_client p) false) n) in *. set (b1 := buf_mass (cl_buf (pr_client p) true) n) in *.
      set (pa' := option_part a' n) in *. pose proof (Hb false). pose proof (Hb true). sums n [srv; b0; b1; fl; x; pa'; rest].
    + apply Hsum; apply Hb.
Qed.

Definition no_value : ∀ n, state_of (class_of n) := λ n, fresh (class_of n).

Lemma no_value_valid n : valid n (no_value n).
Proof using order_perm classes. eapply fresh_valid; eauto. Qed.

(** Moving nothing. *)
Lemma moves_nothing c before after d n : ClientGood c → valid n (before n) → valid n (after n) →
  merge (class_of n) (before n) (d n) = after n → moves c c before after d n.
Proof using order_perm classes.
  intros Hc Hb Ha He. exists (fresh (class_of n)). split; [eapply fresh_valid; eauto|]. split.
  - symmetry. eapply merge_fresh_r; eauto. eapply buf_mass_valid; eauto. apply Hc.
  - rewrite He. symmetry. eapply merge_fresh_l; eauto.
Qed.

Lemma flush_ok p a : ClientGood (pr_client p) → AccGood p a → cl_adding (pr_client p) = false →
  _write_pending_cnt (cl_buf (pr_client p) (_pending_aggs_idx (pr_client p))) + 1 < 2 ^ 64 →
  ∃ c' a' ret, flush_nonlock junk order (pr_client p) a = Ok (c', a', ret) ∧ Wrote (pr_client p) c' ∧
    AccGood (with_client p c') a' ∧ _cached_count a' = 0 ∧ _name a' = _name a ∧
    ∀ n, (_name a = n → _cached_count a = 0 ∨ _writer_closed (pr_client p) = false) →
      moves (pr_client p) c' (acc_part a) (acc_part a') no_value n.
Proof using order_perm classes.
  intros Hc Ha Hna Hlt. pose proof (acc_part_valid p a) as Hv.
  destruct (acc_typed p a Ha) as (m&st&id&cc&ff&fin&->&Hst). pose proof Ha as [Hn _ Hknown Hmgr Hcached _]. cbn in *.
  unfold flush_nonlock. cbn [_cached_count _name ac_type _agg _id _flush_freq _final_need_flush].
  destruct (Z.eqb_spec cc 0) as [->|Hcc].
  { eexists _, _, true. split; [done|]. split; [by apply wrote_refl|]. split; [by destruct p|]. split; [done|]. split; [done|].
    intros n _. pose proof (Hv n Ha). apply moves_nothing; [done..|]. eapply merge_fresh_r; eauto. }
  set (a' := MkAccumulator (class_of m) (fresh (class_of m)) id m 0 ff fin).
  assert (Hfr : ∀ n, valid n (fresh (class_of n))) by (intros; eapply fresh_valid; eauto).
  assert (Hpart' : ∀ n, acc_part a' n = fresh (class_of n)).
  { intros n. destruct (decide (n = m)) as [->|]; [apply acc_part_eq|by apply acc_part_ne]. }
  assert (Ha' : ∀ c', cl_name2id c' = cl_name2id (pr_client p) → AccGood (with_client p c') a').
  { intros c' Hnames. split; cbn; [done| |by rewrite Hnames|done| |intros _; apply mass_eq].
    - eexists. split; [done|]. apply Hfr.
    - unfold in_int, in_unsigned. cbn. lia. }
  destruct (_writer_closed (pr_client p)) eqn:Hcl.
  - assert (Hw : client_write junk order (pr_client p) m (class_of m) st = Ok (pr_client p, false)).
    { unfold client_write. destruct Hknown as [id' ->]. by rewrite Hcl. }
    rewrite Hw. step_ok. eexists _, _, false. split; [done|]. split; [by apply wrote_refl|]. split; [by apply Ha'|].
    split; [done|]. split; [done|]. intros n Hn'. destruct (decide (m = n)) as [E|Hne]; [by destruct (Hn' E)|].
    apply moves_nothing; [done|by apply Hv|by rewrite Hpart'|]. rewrite Hpart', acc_part_ne by done. eapply merge_fresh_l; eauto.
  - destruct (client_write_ok junk order type_name tys class_of order_perm classes (pr_client p) m st Hc Hst Hlt Hknown Hcl Hna)
      as (c'&->&Hc'&Hnames&Hcl'&Hs'&Hsf&Hi&Hoth&_&Hm&Hrest). step_ok.
    eexists _, _, true. split; [done|]. split; [by split; congruence|]. split; [by apply Ha'|]. split; [done|]. split; [done|].
    intros n _. destruct (decide (n = m)) as [->|Hne].
    + exists st. split; [done|]. split; [done|]. by rewrite acc_part_eq, Hpart'.
    + exists (fresh (class_of n)). rewrite Hrest by done. split; [apply Hfr|]. split.
      * symmetry. eapply merge_fresh_r; eauto. eapply buf_mass_valid; eauto. apply Hc.
      * by rewrite acc_part_ne, Hpart' by done.
Qed.

(** What a value adds to [n]. *)
Definition written (a : accumulator) (v : value_obj) (n : str) : list (value_of (class_of n)) :=
  if decide (_name a = n) then option_list (value_cast (class_of n) v) else [].

Lemma acc_merge_value p a x : AccGood p a → value_valid (ac_type a) x → _cached_count a + 1 < 2 ^ 64 →
  let a1 := MkAccumulator (ac_type a) (merge_value (Aggregator := agg_at (ac_type a)) (_agg a) x) (_id a) (_name a)
              (u64 (_cached_count a + 1)) (_flush_freq a) (_final_need_flush a) in
  AccGood p a1 ∧ ∀ n, valid n (collect n (written a (Value (ac_type a) x) n)) ∧
    acc_part a1 n = merge (class_of n) (acc_part a n) (collect n (written a (Value (ac_type a) x) n)).
Proof using order_perm classes.
  intros Ha Hx Hlt. pose proof (acc_part_valid p a) as Hv.
  destruct (acc_typed p a Ha) as (m&st&id&cc&ff&fin&->&Hst). pose proof Ha as [Hn _ Hknown Hmgr Hcached _].
  cbn [ac_type _agg _id _name _cached_count _flush_freq _final_need_flush] in *.
  assert (Hu : u64 (cc + 1) = cc + 1).
  { apply wrap_small. unfold in_int, in_unsigned in *. cbn in Hcached. lia. }
  assert (Hst' : valid m (merge_value (Aggregator := agg_at (class_of m)) st x)) by (eapply value_merged_valid; eauto).
  split.
  - split; cbn; [done|by eexists|done|done| |].
    + rewrite Hu. unfold in_int, in_unsigned in *. cbn in *. lia.
    + rewrite Hu. unfold in_int, in_unsigned in Hcached. cbn in Hcached. lia.
  - intros n. unfold written. cbn [_name]. destruct (decide (m = n)) as [<-|Hne].
    + rewrite value_cast_eq. cbn [option_list]. unfold Aggregator.collect. cbn [foldl]. split.
      * eapply value_merged_valid; eauto. eapply fresh_valid; eauto.
      * rewrite !acc_part_eq. eapply single_value; eauto.
    + unfold Aggregator.collect. cbn [foldl]. split; [eapply fresh_valid; eauto|].
      rewrite !acc_part_ne by done. symmetry. eapply merge_fresh_l; eauto. eapply fresh_valid; eauto.
Qed.

Lemma write_step s p es k a x : ServerGood s → ProcGood p es → pr_accs p !! k = Some a → value_valid (ac_type a) x →
  _cached_count a + 1 < 2 ^ 64 → cl_adding (pr_client p) = false →
  _write_pending_cnt (cl_buf (pr_client p) (_pending_aggs_idx (pr_client p))) + 1 < 2 ^ 64 →
  ∃ c' a' ret, acc_write junk order (pr_client p) a x = Ok (c', a', ret) ∧
    stepped s p es (Ok (s, with_client (with_accs p (<[k := a']> (pr_accs p))) c'))
      (λ n, collect n (written a (Value (ac_type a) x) n)) (λ n, _name a = n → _writer_closed (pr_client p) = false).
Proof using order_perm classes.
  intros Hs Hp Hk Hx Hcc Hna Hlt. pose proof (pg_accs _ _ Hp k a Hk : AccGood p a) as Ha. pose proof (pg_client _ _ Hp) as Hc.
  destruct (acc_merge_value p a x Ha Hx Hcc) as [Ha1 Hd]. unfold acc_write. cbn zeta. set (a1 := MkAccumulator _ _ _ _ _ _ _) in *.
  pose proof (acc_part_valid p a1) as Hv1.
  destruct ((0 <? _flush_freq a1) && (_flush_freq a1 <=? _cached_count a1)).
  - destruct (flush_ok p a1 Hc Ha1 Hna Hlt) as (c'&a'&ret&->&Hw&Ha'&_&Hname&Hmv).
    eexists _, _, ret. split; [done|]. apply (wrote_step s p es k a c' (Some a')); try done.
    + by intros b [= <-].
    + intros n. apply Hd.
    + intros n Hkeep. destruct (Hmv n) as (y&Hy&Hbuf&Hpart); [right; auto|].
      exists y. split; [done|]. split; [done|]. cbn. rewrite <- Hpart. rewrite (proj2 (Hd n)). symmetry.
      eapply merge_fresh_r; eauto. rewrite <- (proj2 (Hd n)). by apply Hv1.
  - eexists _, a1, true. split; [done|]. apply (wrote_step s p es k a (pr_client p) (Some a1)); try done.
    + intros b [= <-]. by destruct p.
    + intros n. apply Hd.
    + intros n _. apply moves_nothing; [done|by eapply acc_part_valid|by apply Hv1|]. cbn. by rewrite (proj2 (Hd n)).
Qed.

Lemma flush_step s p es k a : ServerGood s → ProcGood p es → pr_accs p !! k = Some a → cl_adding (pr_client p) = false →
  _write_pending_cnt (cl_buf (pr_client p) (_pending_aggs_idx (pr_client p))) + 1 < 2 ^ 64 →
  ∃ c' a' ret, flush_nonlock junk order (pr_client p) a = Ok (c', a', ret) ∧ _cached_count a' = 0 ∧
    stepped s p es (Ok (s, with_client (with_accs p (<[k := a']> (pr_accs p))) c')) no_value
      (λ n, _name a = n → _writer_closed (pr_client p) = false).
Proof using order_perm classes.
  intros Hs Hp Hk Hna Hlt. pose proof (pg_accs _ _ Hp k a Hk : AccGood p a) as Ha. pose proof (pg_client _ _ Hp) as Hc.
  destruct (flush_ok p a Hc Ha Hna Hlt) as (c'&a'&ret&->&Hw&Ha'&Hcc&Hname&Hmv).
  eexists _, _, ret. split; [done|]. split; [done|]. apply (wrote_step s p es k a c' (Some a')); try done.
  - by intros b [= <-].
  - apply no_value_valid.
  - intros n Hkeep. apply Hmv. auto.
Qed.

Lemma destroy_step s p es k a : ServerGood s → ProcGood p es → pr_accs p !! k = Some a → cl_adding (pr_client p) = false →
  _write_pending_cnt (cl_buf (pr_client p) (_pending_aggs_idx (pr_client p))) + 1 < 2 ^ 64 →
  ∃ c', acc_destroy junk order (pr_client p) a = Ok c' ∧
    stepped s p es (Ok (s, with_client (with_accs p (delete k (pr_accs p))) c')) no_value
      (λ n, _name a = n → _cached_count a = 0 ∨ (_writer_closed (pr_client p) = false ∧ _final_need_flush a = true)).
Proof using order_perm classes.
  intros Hs Hp Hk Hna Hlt. pose proof (pg_accs _ _ Hp k a Hk : AccGood p a) as Ha. pose proof (pg_client _ _ Hp) as Hc.
  assert (Hpart : ∀ c b n, AccGood (with_client p c) b → (_name b = n → _cached_count b = 0) → acc_part b n = fresh (class_of n)).
  { intros c b n Hb Hz. unfold acc_part. destruct (decide (_name b = n)) as [<-|]; [|done]. by apply (ag_empty _ _ Hb), Hz. }
  unfold acc_destroy. destruct (_final_need_flush a) eqn:Ef.
  - destruct (flush_ok p a Hc Ha Hna Hlt) as (c'&a'&ret&->&Hw&Ha'&Hcc&Hname&Hmv). step_ok.
    eexists. split; [done|]. apply (wrote_step s p es k a c' None); try done; [apply no_value_valid|].
    intros n Hkeep. destruct (Hmv n) as (y&Hy&Hbuf&Hpt); [intros E; destruct (Hkeep E) as [?|[? _]]; auto|].
    exists y. split; [done|]. split; [done|]. rewrite Hpt. cbn. by rewrite (Hpart c').
  - eexists. split; [done|]. apply (wrote_step s p es k a (pr_client p) None); try done; [apply no_value_valid|].
    intros n Hkeep. assert (E : acc_part a n = fresh (class_of n)).
    { apply (Hpart (pr_client p)); [by destruct p|]. intros E. by destruct (Hkeep E) as [?|[_ ?]]. }
    apply moves_nothing; [done|by eapply acc_part_valid|apply no_value_valid|]. rewrite E. cbn. eapply merge_fresh_l; eauto.
    apply no_value_valid.
Qed.

(** The terms of [local], as variables. *)
Ltac local_terms s p es n Hs Hp :=
  let Hv := fresh in pose proof (parts_valid p es n Hp) as Hv; unfold parts in Hv;
  apply Forall_cons in Hv as [? [? [? [? _]%Forall_cons]%Forall_cons]%Forall_cons];
  assert (valid n (server_mass s n)) by (eapply server_mass_valid; eauto).

Lemma stepped_same s p es p' d keep : ServerGood s → ProcGood p es → ProcGood p' es → started p' = started p →
  (∀ n, parts p' es n = parts p es n) → (∀ n, d n = fresh (class_of n)) → stepped s p es (Ok (s, p')) d keep.
Proof using order_perm classes.
  intros Hs Hp Hp' Hst Hparts Hd. exists s, p', es. repeat (split; [done|]). split; [by apply counted_same|].
  intros n _. unfold local. rewrite Hparts, Hd. symmetry. eapply merge_fresh_r; eauto. eapply merge_all_valid; eauto.
  constructor; [eapply server_mass_valid; eauto|by apply parts_valid].
Qed.

(** ** New accumulators *)
Lemma new_begin_step s p es k name freq final : ServerGood s → ProcGood p es → pr_new p = None → str_ok name →
  stepped s p es ('(m, a) ← Accumulator_ junk order type_name (pr_manager p) (class_of name) name freq final;
    Ok (s, Process m (add_begin (pr_client p) name) (pr_accs p) (pr_sender p) (pr_finalizing p) (Some (k, a)))) no_value (λ _, True).
Proof using order_perm classes.
  intros Hs Hp Hnew Hname. pose proof Hp as [Hm Hc Ha Ht Hes Hfl [Hd Hsg]]. rewrite Hnew in Hsg. unfold Accumulator_.
  destruct (alloc_ok type_name class_of (pr_manager p) name Hm) as (m&id&->&Hm'&Hid&Hmgr). step_ok.
  set (a := MkAccumulator _ _ _ _ _ _ _). set (p' := Process _ _ _ _ _ _).
  assert (Hsame : cl_name2id (pr_client p') = cl_name2id (pr_client p) ∧ cl_buf (pr_client p') = cl_buf (pr_client p)).
  { cbn. unfold add_begin. by destruct (cl_name2id (pr_client p) !! name). }
  destruct Hsame as [Hnames Hbuf].
  assert (Hp' : ProcGood p' es).
  { split; try done.
    - cbn. unfold add_begin. destruct (cl_name2id (pr_client p) !! name); [done|by destruct Hc].
    - intros j b Hj. destruct (Ha j b Hj) as [? ? Hk1 Hk2 ? ?]. split; try done; cbn [p' pr_manager]; [rewrite Hnames; exact Hk1|rewrite Hmgr; exact Hk2].
    - destruct Ht as [Ho Hoff Hb]. split; cbn; unfold add_begin; by destruct (cl_name2id (pr_client p) !! name).
    - split; cbn.
      + unfold add_begin. by destruct (cl_name2id (pr_client p) !! name).
      + exists name, id, freq, final. split; [done|]. split; [done|]. split; [by eexists|]. unfold add_begin.
        destruct (cl_name2id (pr_client p) !! name) eqn:E; [by rewrite Hsg|done]. }
  apply stepped_same; try done.
  - unfold started. cbn. unfold add_begin. by destruct (cl_name2id (pr_client p) !! name).
  - intros n. unfold parts. by rewrite Hbuf.
Qed.

Lemma new_end_step s p es k a : ServerGood s → ProcGood p es → pr_new p = Some (k, a) → pr_accs p !! k = None →
  (∀ i, Z.of_nat (length (_pending_aggs (cl_buf (pr_client p) i))) + 1 < 2 ^ 64) →
  stepped s p es (c ← add_aggregator junk order type_name f (pr_client p) (_name a) (ac_type a);
    Ok (s, Process (pr_manager p) c (<[k := a]> (pr_accs p)) (pr_sender p) (pr_finalizing p) None)) no_value (λ _, True).
Proof using order_perm classes names_inj.
  intros Hs Hp Hnew Hk Hroom. pose proof Hp as [Hm Hc Ha Ht Hes Hfl [Hdl Hsg]]. rewrite Hnew in Hsg.
  destruct Hsg as (name&id&freq&final&->&Hname&Hmgr&Hadding). cbn [_name ac_type].
  destruct (add_aggregator_ok junk order type_name tys class_of order_perm classes names_inj (pr_client p) name Hc Hname Hroom)
    as (c&->&Hc'&Hknown&Hnames&Hcl&Hst&Hi&Hd&Hadd&Hbuf). step_ok.
  set (a := MkAccumulator _ _ _ _ _ _ _). set (p' := Process _ _ _ _ _ _).
  assert (Ha0 : AccGood p' a).
  { split; cbn; [done| |done|done| |intros _; apply mass_eq].
    - eexists. split; [done|]. eapply fresh_valid; eauto.
    - unfold in_int, in_unsigned. cbn. lia. }
  assert (Hold : map_Forall (λ _ b, AccGood p' b) (pr_accs p)).
  { eapply map_Forall_impl; [exact Ha|]. intros j b [? ? Hk1 Hk2 ? ?]. split; try done; cbn. by apply Hnames. }
  exists s, p', es. split; [done|]. split; [done|]. split; [|split].
  - split; try done; [by apply map_Forall_insert_2| |].
    2: { split; cbn; [by rewrite Hd, Hst|]. apply Hadd. destruct (cl_adding (pr_client p)); [left; auto|by right]. }
    destruct Ht as [Ho Hoff Hb]. split; cbn.
    + by rewrite Hcl, Hst.
    + by rewrite Hst.
    + rewrite Hcl, Hi. destruct (pr_sender p) as [| |i|i q|i].
      * destruct Hb as [? Hz]. split; [done|]. intros i. by rewrite (proj1 (proj1 (Hbuf i))).
      * by rewrite (proj1 (proj1 (Hbuf _))).
      * by rewrite (proj1 (proj1 (Hbuf i))).
      * destruct Hb as [Hi' Hf]. rewrite (proj1 (proj1 (Hbuf i))). split; [done|]. by apply (Hbuf i).
      * destruct Hb as [-> Hf]. split; [done|]. by apply (Hbuf i).
  - by apply counted_same.
  - intros n _. unfold local, parts. cbn [p' pr_client pr_accs].
    rewrite (acc_mass_insert p'), (proj2 (Hbuf false)), (proj2 (Hbuf true)) by done.
    assert (Hpart : acc_part a n = fresh (class_of n)).
    { destruct (decide (n = name)) as [->|]; [apply acc_part_eq|by apply acc_part_ne]. }
    rewrite Hpart. unfold no_value. local_terms s p es n Hs Hp. cbn [Accumulator.merge_all foldr].
    set (x0 := server_mass s n) in *. set (x1 := buf_mass _ n) in *. set (x2 := buf_mass (cl_buf (pr_client p) true) n) in *.
    set (x3 := entries_mass n es) in *. set (x4 := acc_mass (pr_accs p) n) in *. sums n [x0; x1; x2; x3; x4].
Qed.

(** ** The send thread *)
Lemma unflagged_lookup aggs : ∀ flags id o n tn, length flags = length aggs → aggs !! id = Some (o, n, tn) →
  ∃ o', unflagged junk order aggs flags !! id = Some (o', n, tn).
Proof.
  induction aggs as [|a aggs IH]; intros [|x flags] [|id] o n tn Hl Hid; try done.
  - injection Hid as ->. cbn. destruct x; by eexists.
  - injection Hl as Hl. cbn. by eapply IH.
Qed.

Lemma pack_ok c i : ClientGood c → ∃ c' q es, send2server junk order c i = Ok (c', q) ∧ ClientGood c' ∧
  cl_name2id c' = cl_name2id c ∧ _writer_closed c' = _writer_closed c ∧ cl_started c' = cl_started c ∧
  _pending_aggs_idx c' = _pending_aggs_idx c ∧ same_flags c c' ∧ cl_buf c' (negb i) = cl_buf c (negb i) ∧
  _write_pending_cnt (cl_buf c' i) = _write_pending_cnt (cl_buf c i) ∧
  Forall (λ x, x = false) (_pending_aggs_flag (cl_buf c' i)) ∧
  entries_good es ∧ flight q es ∧ ∀ n, buf_mass (cl_buf c' i) n = fresh (class_of n) ∧ entries_mass n es = buf_mass (cl_buf c i) n.
Proof using order_perm classes names_ok.
  intros Hc. pose proof (cg_buf _ _ _ _ _ Hc i) as Hb. pose proof Hb as [He Hf Hclean _ _ _].
  destruct (send2server_ok junk order type_name tys class_of order_perm names_ok classes c i Hb)
    as (c'&q&Hse&Hcl&Hst&Hnames&Hidx&Hsf&Hbuf&Hq).
  set (b := cl_buf c i) in *. exists c', q, (flagged (_pending_aggs b) (_pending_aggs_flag b)).
  assert (Hi : cl_buf c' i = drained junk order b) by (by rewrite Hbuf, Bool.eqb_reflx).
  assert (Hni : cl_buf c' (negb i) = cl_buf c (negb i)) by (rewrite Hbuf; by destruct i).
  assert (Hpend : ∀ j, length (_pending_aggs (cl_buf c' j)) = length (_pending_aggs (cl_buf c j))).
  { intros j. rewrite Hbuf. destruct (Bool.eqb j i) eqn:E; [|done]. apply Bool.eqb_prop in E as ->. by apply length_unflagged. }
  split; [done|]. split; [split|].
  - intros j. rewrite Hbuf. destruct (Bool.eqb j i); [eapply drained_good; eauto|apply Hc].
  - rewrite !Hpend. apply Hc.
  - intros n id j Hn. rewrite Hnames in Hn. destruct (cg_name _ _ _ _ _ Hc n id j Hn) as [o Ho].
    rewrite Hbuf. destruct (Bool.eqb j i) eqn:E; [|by exists o]. apply Bool.eqb_prop in E as ->. by eapply unflagged_lookup.
  - repeat (split; [done|]). rewrite Hi. split; [done|]. split; [by apply Forall_replicate|]. split; [by eapply flagged_good|].
    split; [by destruct q|]. intros n. split; [eapply drained_mass; eauto|]. eapply flagged_mass; eauto.
Qed.

Lemma packed_ok s q es : ServerGood s → entries_good es → flight q es →
  ∃ s', send_packed junk order f s q = Ok s' ∧ added_all junk order type_name tys class_of s s' es.
Proof using order_perm classes names_ok names_inj.
  intros Hs Hes Hfl. destruct q as [q|]; cbn in *.
  - destruct Hfl as (bs&Hq&Hb&Hn). eapply send_call_ok; eauto.
  - subst es. exists s. split; [done|]. split; [done|]. split; [done|]. intros n. symmetry. eapply merge_fresh_r; eauto.
    eapply server_mass_valid; eauto.
Qed.

Lemma zero_cnt_good c i : ClientGood c → Forall (λ x, x = false) (_pending_aggs_flag (cl_buf c i)) → ClientGood (zero_cnt c i).
Proof.
  intros Hc Hf. split.
  - intros j. unfold zero_cnt. rewrite set_buf_lookup. destruct (Bool.eqb j i) eqn:E; [|apply Hc].
    destruct (cg_buf _ _ _ _ _ Hc i) as [? ? ? ? ? ?]. split; cbn; done.
  - unfold zero_cnt. rewrite !set_buf_lookup. pose proof (cg_len _ _ _ _ _ Hc). by destruct i.
  - intros n id j Hn. unfold zero_cnt. rewrite set_buf_lookup. destruct (Bool.eqb j i) eqn:E; [|by eapply cg_name].
    apply Bool.eqb_prop in E as ->. by apply (cg_name _ _ _ _ _ Hc n id i).
Qed.

Lemma zero_cnt_mass c i j n : buf_mass (cl_buf (zero_cnt c i) j) n = buf_mass (cl_buf c j) n.
Proof. unfold zero_cnt. rewrite set_buf_lookup. destruct (Bool.eqb j i) eqn:E; [|done]. by apply Bool.eqb_prop in E as ->. Qed.

Lemma accs_same p p' : pr_accs p' = pr_accs p → cl_name2id (pr_client p') = cl_name2id (pr_client p) →
  pr_manager p' = pr_manager p → AccsGood p → AccsGood p'.
Proof. intros Ha Hn Hm Hg k a Hk. rewrite Ha in Hk. destruct (Hg k a Hk). split; try done; [by rewrite Hn|by rewrite Hm]. Qed.

(** The process after the thread has packed a buffer, and after the server has got it. *)
Lemma packed_local s s' p p' i es n : ServerGood s → ProcGood p [] → added_all junk order type_name tys class_of s s' es →
  pr_accs p' = pr_accs p →
  buf_mass (cl_buf (pr_client p') i) n = fresh (class_of n) → entries_mass n es = buf_mass (cl_buf (pr_client p) i) n →
  buf_mass (cl_buf (pr_client p') (negb i)) n = buf_mass (cl_buf (pr_client p) (negb i)) n →
  local s p' es n = merge (class_of n) (local s p [] n) (no_value n) ∧
  local s' p' [] n = merge (class_of n) (local s p [] n) (no_value n).
Proof using order_perm classes.
  intros Hs Hp (_&_&Hadd) Haccs Hi Hm Hni. local_terms s p (@nil (str * object)) n Hs Hp.
  unfold local, parts. rewrite Haccs, Hadd, Hm. unfold no_value. cbn [Accumulator.merge_all foldr].
  change (entries_mass n []) with (fresh (class_of n)).
  set (x0 := server_mass s n) in *. set (x4 := acc_mass (pr_accs p) n) in *.
  destruct i; cbn [negb] in *; rewrite Hi, Hni;
    set (x1 := buf_mass (cl_buf (pr_client p) false) n) in *; set (x2 := buf_mass (cl_buf (pr_client p) true) n) in *;
    split; sums n [x0; x1; x2; x4].
Qed.

(** The thread has the lock again. *)
Lemma zero_cnt_cnt c i : _write_pending_cnt (cl_buf (zero_cnt c i) i) = 0.
Proof. unfold zero_cnt. by rewrite set_buf_lookup, Bool.eqb_reflx. Qed.

Lemma zero_cnt_other c i : cl_buf (zero_cnt c i) (negb i) = cl_buf c (negb i).
Proof. unfold zero_cnt. rewrite set_buf_lookup. by destruct i. Qed.

Lemma both_buffers (P : bool → Prop) i : P i → P (negb i) → ∀ j, P j.
Proof. by destruct i; intros ?? []. Qed.

(** [p] with another client and another place of the thread, that has no request. *)
Lemma proc_good_with p es c t : ProcGood p es → pr_sender p ≠ NoThread → ClientGood c → cl_name2id c = cl_name2id (pr_client p) →
  _writer_closed c = _writer_closed (pr_client p) → cl_started c = cl_started (pr_client p) → same_flags (pr_client p) c →
  (∀ i q, t ≠ Calling i q) → ThreadGood (with_sender (with_client p c) t) → ProcGood (with_sender (with_client p c) t) [].
Proof.
  intros [Hm _ Ha _ _ _ Hsg] _ Hc Hn Hcl Hst Hsf Ht Htg. split; cbn; try done; [by apply (accs_same p)|by constructor| |by apply (state_same p)].
  destruct t; try done. by destruct (Ht i q).
Qed.

Lemma locking_step s p i : ServerGood s → ProcGood p [] → pr_sender p = Locking i →
  stepped s p [] (send_step junk order f s p) no_value (λ _, True).
Proof using order_perm classes names_ok names_inj.
  intros Hs Hp Epc. pose proof Hp as [Hm Hc Ha [Hopen Hoff Hb] Hes _]. rewrite Epc in Hb. destruct Hb as [Hidx Hf].
  unfold send_step. rewrite Epc. pose proof (zero_cnt_good (pr_client p) i Hc Hf) as Hc1. set (c1 := zero_cnt (pr_client p) i) in *.
  assert (Hst0 : cl_started (pr_client p) = true) by (destruct (cl_started (pr_client p)); [done|]; destruct (Hoff eq_refl); congruence).
  assert (Hparts : ∀ t n, parts (with_sender (with_client p c1) t) [] n = parts p [] n).
  { intros t n. unfold parts. cbn [with_sender with_client pr_client pr_accs]. unfold c1. by rewrite !zero_cnt_mass. }
  change (_writer_closed c1) with (_writer_closed (pr_client p)). destruct (_writer_closed (pr_client p)) eqn:Hcl.
  2: { apply stepped_same; try done. apply (proc_good_with p []); try done; [by rewrite Epc|].
       split; cbn; [by rewrite Hcl|by rewrite Hst0|]. rewrite Hidx, negb_involutive. apply zero_cnt_cnt. }
  destruct (Z.ltb_spec 0 (_write_pending_cnt (cl_buf c1 (_pending_aggs_idx (pr_client p))))) as [Hlt|Hge].
  - destruct (cl_adding c1); [by apply stepped_same|].
    destruct (pack_ok c1 (_pending_aggs_idx (pr_client p)) Hc1) as (c2&q&es&->&Hc2&Hnames&Hcl2&Hst&Hidx2&Hsf&Hoth&_&Hf2&Hg&Hq&Hmass). step_ok.
    destruct (packed_ok s q es Hs Hg Hq) as (s'&->&Hadd). step_ok. pose proof Hadd as (Hs'&Hcnt&_).
    assert (Hcl2' : _writer_closed c2 = true) by (rewrite Hcl2; exact Hcl).
    assert (Hst2' : cl_started c2 = true) by (rewrite Hst; exact Hst0).
    exists s', (with_sender (with_client p (zero_cnt c2 (_pending_aggs_idx (pr_client p)))) NoThread), [].
    split; [done|]. split; [done|]. split; [|split].
    + apply (proc_good_with p []); try done; [by rewrite Epc|by apply zero_cnt_good|].
          split; [cbn; by rewrite Hcl2', Hst2', Hst0 in *|cbn; by rewrite Hst2'|]. split; [done|].
      apply (both_buffers _ (_pending_aggs_idx (pr_client p))); [apply zero_cnt_cnt|].
      cbn [with_sender with_client pr_client]. rewrite zero_cnt_other, Hoth, Hidx, negb_involutive.
      apply zero_cnt_cnt.
    + apply counted_same; [done|]. cbn. by rewrite Hst2', Hst0.
    + intros n _. apply (packed_local s s' p _ (_pending_aggs_idx (pr_client p)) es); try done; cbn [with_sender with_client pr_client].
      * rewrite zero_cnt_mass. apply Hmass.
      * rewrite (proj2 (Hmass n)). apply zero_cnt_mass.
      * rewrite zero_cnt_mass, Hoth. apply zero_cnt_mass.
  - apply stepped_same; try done. apply (proc_good_with p []); try done; [by rewrite Epc|].
    split; [cbn; by rewrite Hcl|cbn; by rewrite Hst0|]. split; [done|].
    apply (both_buffers _ i); [apply zero_cnt_cnt|].
    rewrite Hidx in Hge. cbn [with_sender with_client pr_client].
    pose proof (bg_cnt _ _ _ _ _ (cg_buf _ _ _ _ _ Hc1 (negb i))) as Hn. unfold in_int, in_unsigned in Hn. cbn [t_size t_u64 it_signed] in Hn. clear -Hge Hn. unfold c1 in *. lia.
Qed.

Lemma sender_step_ok s p es : ServerGood s → ProcGood p es → stepped s p es (send_step junk order f s p) no_value (λ _, True).
Proof using order_perm classes names_ok names_inj.
  intros Hs Hp. pose proof Hp as [Hm Hc Ha Ht Hes Hfl]. pose proof Ht as [Hopen Hoff Hb]. unfold send_step.
  destruct (pr_sender p) as [| |i|i q|i] eqn:Epc.
  - by apply stepped_same.
  - destruct (Z.ltb_spec 0 (_write_pending_cnt (cl_buf (pr_client p) (_pending_aggs_idx (pr_client p))))) as [Hlt|Hge].
    + apply stepped_same; try done. split; try done; [by destruct Hc|by apply (accs_same p)|]. split; cbn; [done| |].
      * intros Hst. by destruct (Hoff Hst).
      * done.
    + destruct (_writer_closed (pr_client p)) eqn:Hcl; [|by apply stepped_same].
      apply stepped_same; try done. split; try done; [by apply (accs_same p)|]. split; cbn; [by rewrite Hcl|by intros Hst; destruct (Hoff Hst)|].
      split; [done|]. intros i. pose proof (bg_cnt _ _ _ _ _ (cg_buf _ _ _ _ _ Hc i)) as Hcnt.
      unfold in_int, in_unsigned in Hcnt. cbn in Hcnt. destruct (decide (i = _pending_aggs_idx (pr_client p))) as [->|Hne]; [lia|].
      replace i with (negb (_pending_aggs_idx (pr_client p))) by (destruct i, (_pending_aggs_idx (pr_client p)); done). done.
  - subst es. destruct (cl_adding (pr_client p)); [by apply stepped_same|].
    destruct (pack_ok (pr_client p) i Hc) as (c'&q&es&->&Hc'&Hnames&Hcl&Hst&Hidx&Hsf&Hoth&Hpc&Hf&Hg&Hq&Hmass). step_ok.
    exists s, (with_sender (with_client p c') (Calling i q)), es. split; [done|]. split; [done|]. split; [|split].
    + split; cbn; try done; [by apply (accs_same p)| |by apply (state_same p)]. split; cbn; [by rewrite Hcl, Hst|intros E; rewrite Hst in E; by destruct (Hoff E)|].
      rewrite Hidx, Hpc. by split.
    + by apply counted_same.
    + intros n _. destruct (packed_ok s q es Hs Hg Hq) as (s'&_&Hadd). eapply (packed_local s s'); try done; [apply Hmass..|by rewrite <- Hoth].
  - destruct (packed_ok s q es Hs Hes Hfl) as (s'&->&Hs'&Hcnt&Hadd). step_ok. cbn in Hb.
    exists s', (with_sender p (Locking i)), []. split; [done|]. split; [done|]. split; [|split].
    + split; cbn; try done; [by apply (accs_same p)| |by constructor]. split; cbn; [done|intros E; by destruct (Hoff E)|].
      destruct Hb as [[? _] ?]. by split.
    + by apply counted_same.
    + intros n _. local_terms s p es n Hs Hp. unfold local, parts, no_value. cbn [Accumulator.merge_all foldr with_sender pr_client pr_accs].
      rewrite Hadd. change (entries_mass n []) with (fresh (class_of n)).
      set (x0 := server_mass s n) in *. set (x1 := buf_mass (cl_buf (pr_client p) false) n) in *.
      set (x2 := buf_mass (cl_buf (pr_client p) true) n) in *. set (x3 := entries_mass n es) in *.
      set (x4 := acc_mass (pr_accs p) n) in *. sums n [x0; x1; x2; x3; x4].
  - subst es. pose proof (locking_step s p i Hs Hp Epc) as Hl. unfold send_step in Hl. by rewrite Epc in Hl.
Qed.

(** ** Starting, stopping and reading *)
Lemma stepped_server s s' p p' es (P keep : str → Prop) : ServerGood s → ServerGood s' → ProcGood p es → ProcGood p' es →
  counted s s' p p' →
  (∀ n, ¬ P n → server_mass s' n = server_mass s n) → (∀ n, parts p' es n = parts p es n) → (∀ n, keep n → ¬ P n) →
  stepped s p es (Ok (s', p')) no_value keep.
Proof using order_perm classes.
  intros Hs Hs' Hp Hp' Hcnt Hm Hparts Hkeep. exists s', p', es. repeat (split; [done|]).
  intros n Hn. unfold local. rewrite Hparts, Hm by auto. symmetry. eapply merge_fresh_r; eauto. eapply merge_all_valid; eauto.
  constructor; [eapply server_mass_valid; eauto|by apply parts_valid].
Qed.

Lemma proc_good_client p es c t fin : ProcGood p es → ClientGood c → cl_name2id c = cl_name2id (pr_client p) →
  (t = pr_sender p ∨ (pr_sender p = NoThread ∧ t = Waiting)) → let p' := Process (pr_manager p) c (pr_accs p) t fin (pr_new p) in
  ThreadGood p' → cl_dealer c = cl_started c → cl_adding c = cl_adding (pr_client p) → ProcGood p' es.
Proof.
  intros [Hm _ Ha _ Hes Hfl [_ Hsg]] Hc Hn Ht p' Htg Hd Hadd. split; try done; [by apply (accs_same p)| |].
  2: { split; [done|]. cbn. by rewrite Hadd, Hn. }
  cbn. destruct Ht as [->|[Hoff ->]]; [done|]. by rewrite Hoff in Hfl.
Qed.

Lemma initialize_step s p es : ServerGood s → ProcGood p es → cl_started (pr_client p) = false → 0 ≤ _client_count s →
  _client_count s + 1 < 2 ^ 15 →
  stepped s p es ('(s, c) ← client_initialize junk order f s (pr_client p); Ok (s, with_sender (with_client p c) Waiting))
    no_value (λ _, True).
Proof using order_perm classes.
  intros Hs Hp Hst Hcnt0 Hcnt. pose proof Hp as [_ Hc _ [Hopen Hoff Hb] _ _]. destruct (Hoff Hst) as [Hthread Hfin].
  rewrite Hthread in Hb. destruct Hb as [Hcl Hz]. unfold client_initialize. cbn [with_dealer cl_started]. rewrite Hst. step_ok.
  rewrite start_call_ok by done. step_ok. unfold initialize_writer. cbn [with_started with_dealer _writer_closed]. rewrite Hcl.
  apply (stepped_server s _ p _ es (λ _, False)); try done; [by apply with_count_good| | |auto].
  - apply (proc_good_client p es); try done; [by destruct Hc|by right|]. split; cbn; [by split|done|apply Hz].
  - unfold counted, started. cbn. rewrite Hst, swrap_small by (unfold in_signed; lia || lia). cbn. lia.
Qed.

Lemma finalize_begin_step s p es : ServerGood s → ProcGood p es → cl_started (pr_client p) = true →
  stepped s p es (c ← client_finalize_begin (pr_client p); Ok (s, Process (pr_manager p) c (pr_accs p) (pr_sender p) true (pr_new p)))
    no_value (λ _, True).
Proof using order_perm classes.
  intros Hs Hp Hst. pose proof Hp as [_ Hc _ [Hopen Hoff Hb] _ _ Hsg]. unfold client_finalize_begin. rewrite Hst. step_ok.
  apply stepped_same; try done. apply (proc_good_client p es); try done; [by destruct Hc|by left| |apply Hsg]. split; cbn.
  - split; [done|]. by intros [_ ?].
  - by rewrite Hst.
  - by destruct (pr_sender p) as [| |i|i q|i]; try destruct Hb.
Qed.

Lemma finalize_end_step s p es : ServerGood s → ProcGood p es → pr_finalizing p = true → pr_sender p = NoThread →
  0 < _client_count s < 2 ^ 15 →
  stepped s p es ('(s, c) ← client_finalize_end junk order f s (pr_client p);
                  Ok (s, Process (pr_manager p) c (pr_accs p) (pr_sender p) false (pr_new p))) no_value (λ _, True).
Proof using order_perm classes.
  intros Hs Hp Hfin Hthread Hcnt. pose proof Hp as [_ Hc _ [Hopen Hoff Hb] _ _ Hsg].
  assert (Hst : cl_started (pr_client p) = true).
  { destruct (cl_started (pr_client p)); [done|]. destruct (Hoff eq_refl). congruence. }
  unfold client_finalize_end. rewrite stop_call_ok; [|by rewrite <- Hst; apply Hsg|lia]. step_ok. rewrite Hthread in *. destruct Hb as [Hcl Hz].
  apply (stepped_server s _ p _ es (λ _, False)); try done; [by apply with_count_good| | |auto].
  - rewrite <- Hthread. apply (proc_good_client p es); try done; [by destruct Hc|by left|]. split; cbn; rewrite ?Hthread, ?Hcl; [|done|done].
    split; [done|]. by intros [? _].
  - unfold counted, started. cbn. rewrite Hst, swrap_small by (unfold in_signed; lia || lia). cbn. lia.
Qed.

Abbreviation dealer_for p name := (is_Some (get_id_by_name (pr_manager p) name) → cl_dealer (pr_client p) = true).

Lemma read_step s p es name : ServerGood s → ProcGood p es → str_ok name → dealer_for p name →
  stepped s p es ('(s, _) ← client_read junk order f (pr_client p) s (pr_manager p) name (class_of name); Ok (s, p)) no_value (λ _, True).
Proof using order_perm classes names_ok.
  intros Hs Hp Hn Hd. pose proof (pg_manager _ _ Hp) as Hm. rewrite (client_read_ok junk order type_name tys class_of) by done.
  step_ok. by apply stepped_same.
Qed.

Lemma kept_step s s' p es (P : str → Prop) : ServerGood s → ProcGood p es → others_kept junk order type_name tys class_of P s s' →
  stepped s p es (Ok (s', p)) no_value (λ n, ¬ P n).
Proof using order_perm classes. intros Hs Hp (Hs'&Hcnt&Hm). apply (stepped_server s s' p p es P); auto. by apply counted_same. Qed.

Lemma reset_step s p es name : ServerGood s → ProcGood p es → str_ok name → dealer_for p name →
  stepped s p es ('(s, _) ← client_reset junk order f (pr_client p) s (pr_manager p) name; Ok (s, p)) no_value (λ n, n ≠ name).
Proof using order_perm classes names_ok.
  intros Hs Hp Hn Hd. pose proof (pg_manager _ _ Hp) as Hm.
  destruct (client_reset_ok junk order type_name tys class_of order_perm names_ok classes (pr_client p) s (pr_manager p) name Hd Hs Hm Hn)
    as (s'&r&->&Hk). step_ok. by apply (kept_step s s' p es (λ n, n = name)).
Qed.

Lemma erase_step s p es names : ServerGood s → ProcGood p es → cl_dealer (pr_client p) = true → Forall str_ok names →
  in_int t_size (Z.of_nat (length names)) →
  stepped s p es ('(s, _) ← client_erase junk order f (pr_client p) s names; Ok (s, p)) no_value (λ n, n ∉ names).
Proof using order_perm classes.
  intros Hs Hp Hd Hn Hl. destruct (client_erase_ok junk order type_name tys class_of (pr_client p) s names Hd Hs) as (s'&->&Hk); [by split|].
  step_ok. by apply (kept_step s s' p es (λ n, n ∈ names)).
Qed.

Lemma erase_all_step s p es : ServerGood s → ProcGood p es → cl_dealer (pr_client p) = true →
  stepped s p es ('(s, _) ← client_erase_all junk order f (pr_client p) s; Ok (s, p)) no_value (λ _, False).
Proof using order_perm classes.
  intros Hs Hp Hd. unfold client_erase_all. rewrite erase_all_call_ok by done. step_ok.
  apply (stepped_server s _ p p es (λ _, True)); try done; [split; [by cbn|apply Hs]|by apply counted_same].
Qed.

(** ** The whole system *)
Lemma bind_ext_in {A B} (g h : A → list B) l : (∀ x, x ∈ l → g x = h x) → l ≫= g = l ≫= h.
Proof.
  induction l as [|x l IH]; intros Hl; [done|]. cbn. rewrite Hl by left. f_equal. apply IH. intros y Hy. apply Hl. by right.
Qed.

Abbreviation flights := (nat → list (str * object)).

Definition started_count (procs : gmap nat process) : Z := cnt (λ np : nat * process, started np.2) (map_to_list procs).

(** [fl]: what the requests carry that are on their way. *)
Record Good (σ : system) (fl : flights) : Prop := {
  gd_server : ServerGood (sy_server σ);
  gd_proc n p : sy_procs σ !! n = Some p → ProcGood p (fl n);
  gd_count : _client_count (sy_server σ) = started_count (sy_procs σ);
  gd_bound : _client_count (sy_server σ) < 2 ^ 15;
}.

Definition procs_parts (procs : gmap nat process) (fl : flights) (n : str) : list (state_of (class_of n)) :=
  map_to_list procs ≫= λ ip, parts ip.2 (fl ip.1) n.

(** What the cluster has of [n]. *)
Definition total (σ : system) (fl : flights) (n : str) : state_of (class_of n) :=
  merge_all (class_of n) (server_mass (sy_server σ) n :: procs_parts (sy_procs σ) fl n).

Definition set_flight (fl : flights) (n : nat) (es : list (str * object)) : flights :=
  λ m, if decide (m = n) then es else fl m.

Lemma procs_parts_valid procs fl n : (∀ i p, procs !! i = Some p → ProcGood p (fl i)) → Forall (valid n) (procs_parts procs fl n).
Proof using order_perm classes.
  intros Hg. unfold procs_parts. apply Forall_bind, Forall_forall. intros [i p] Hin%elem_of_map_to_list. by apply parts_valid, Hg.
Qed.

Lemma procs_parts_insert procs fl n i p es : procs !! i = None →
  procs_parts (<[i := p]> procs) (set_flight fl i es) n ≡ₚ parts p es n ++ procs_parts procs fl n.
Proof.
  intros Hi. unfold procs_parts. rewrite map_to_list_insert by done. rewrite bind_cons. cbn [fst snd].
  unfold set_flight at 1. rewrite decide_True by done. apply Permutation_app_head.
  apply reflexive_eq, bind_ext_in. intros [j q] Hin%elem_of_map_to_list. cbn. unfold set_flight. rewrite decide_False; [done|]. intros ->. by rewrite Hi in Hin.
Qed.

(** One process and the others. *)
Definition rest (σ : system) (fl : flights) (i : nat) (n : str) : list (state_of (class_of n)) :=
  procs_parts (delete i (sy_procs σ)) fl n.

Lemma total_split σ fl i p n : ServerGood (sy_server σ) → ProcGood p (fl i) →
  (∀ j q, j ≠ i → sy_procs σ !! j = Some q → ProcGood q (fl j)) → sy_procs σ !! i = Some p →
  total σ fl n = merge (class_of n) (local (sy_server σ) p (fl i) n) (merge_all (class_of n) (rest σ fl i n)) ∧
  Forall (valid n) (rest σ fl i n).
Proof using order_perm classes.
  intros Hs Hp Hg Hi.
  assert (Hr : Forall (valid n) (rest σ fl i n)).
  { apply procs_parts_valid. intros j q [Hne Hj]%lookup_delete_Some. by apply Hg. }
  split; [|done]. unfold total, local.
  assert (Hv : Forall (valid n) (server_mass (sy_server σ) n :: parts p (fl i) n)).
  { constructor; [eapply server_mass_valid; eauto|by apply parts_valid]. }
  assert (Hperm : procs_parts (sy_procs σ) fl n ≡ₚ parts p (fl i) n ++ rest σ fl i n).
  { unfold rest, procs_parts. rewrite <- (insert_delete_id (sy_procs σ) i p Hi) at 1.
    rewrite map_to_list_insert by apply lookup_delete_eq. by rewrite bind_cons. }
  rewrite <- (merge_all_app junk order order_perm (class_of n)) by eauto.
  symmetry. eapply merge_all_perm; eauto; [by apply Forall_app|]. by rewrite Hperm.
Qed.

Lemma started_insert procs i p : procs !! i = None → started_count (<[i := p]> procs) = Z.b2z (started p) + started_count procs.
Proof.
  intros Hi. unfold started_count. rewrite <- (cnt_cons (λ np : nat * process, started np.2) (i, p)). unfold cnt. f_equal.
  apply Permutation_length. by rewrite map_to_list_insert.
Qed.

Lemma started_lookup procs i p : procs !! i = Some p → started_count procs = Z.b2z (started p) + started_count (delete i procs).
Proof.
  intros Hi. rewrite <- (started_insert _ i) by apply lookup_delete_eq. by rewrite insert_delete_id.
Qed.

(** A step of a process is a step of the system. *)
Lemma on_process_good σ fl i p g d keep : Good σ fl → sy_procs σ !! i = Some p →
  stepped (sy_server σ) p (fl i) (g (sy_server σ) p) d keep → (∀ n, keep n → valid n (d n)) →
  ∃ σ' fl', on_process σ i g = Ok σ' ∧ Good σ' fl' ∧ ∀ n, keep n → total σ' fl' n = merge (class_of n) (total σ fl n) (d n).
Proof using order_perm classes.
  intros [Hs Hproc Hcnt Hbound] Hi (s'&p'&es'&He&Hs'&Hp'&[Hc Hc']&Hlocal) Hd.
  exists (Sys s' (<[i := p']> (sy_procs σ))), (set_flight fl i es').
  unfold on_process. rewrite Hi, He. step_ok. split; [done|].
  assert (Hfl : set_flight fl i es' i = es') by (unfold set_flight; by rewrite decide_True).
  assert (Hfl' : ∀ j, j ≠ i → set_flight fl i es' j = fl j) by (intros j Hj; unfold set_flight; by rewrite decide_False).
  assert (Hg' : ∀ j q, <[i := p']> (sy_procs σ) !! j = Some q → ProcGood q (set_flight fl i es' j)).
  { intros j q [[<- <-]|[Hne Hj]]%lookup_insert_Some; [by rewrite Hfl|]. rewrite Hfl' by done. by apply Hproc. }
  split.
  - split; [done|exact Hg'| |]; cbn; pose proof (started_lookup _ i p Hi).
    + rewrite <- insert_delete_eq, (started_insert _ i) by apply lookup_delete_eq. lia.
    + destruct Hc' as [E|?]; [|done]. rewrite E in Hc. lia.
  - intros n Hn. destruct (total_split σ fl i p n Hs (Hproc i p Hi) (λ j q _, Hproc j q) Hi) as [-> Hr].
    destruct (total_split (Sys s' (<[i := p']> (sy_procs σ))) (set_flight fl i es') i p' n Hs') as [-> _];
      [by rewrite Hfl|intros j q _; apply Hg'|apply lookup_insert_eq|].
    cbn [sy_server]. rewrite Hfl, Hlocal by done.
    assert (Hrest : rest (Sys s' (<[i := p']> (sy_procs σ))) (set_flight fl i es') i n = rest σ fl i n).
    { unfold rest. cbn [sy_procs]. rewrite delete_insert_eq. apply bind_ext_in. intros [j q] [Hne _]%elem_of_map_to_list%lookup_delete_Some.
      cbn. by rewrite Hfl'. }
    rewrite Hrest. set (r := merge_all (class_of n) (rest σ fl i n)). set (l := local (sy_server σ) p (fl i) n).
    assert (valid n r) by (eapply merge_all_valid; eauto). specialize (Hd n Hn). set (dn := d n) in *.
    assert (valid n l).
    { eapply merge_all_valid; eauto. constructor; [eapply server_mass_valid; eauto|by apply parts_valid, Hproc]. }
    sums n [l; r; dn].
Qed.

Lemma spawn_good σ fl i : Good σ fl → sy_procs σ !! i = None →
  let σ' := Sys (sy_server σ) (<[i := Process manager_ client_ ∅ NoThread false None]> (sy_procs σ)) in
  Good σ' (set_flight fl i []) ∧ ∀ n, total σ' (set_flight fl i []) n = total σ fl n.
Proof using order_perm classes.
  intros [Hs Hproc Hcnt Hbound] Hi σ'. set (p := Process manager_ client_ ∅ NoThread false None).
  assert (Hp : ProcGood p []).
  { split; try done; [split; cbn; [split; [done|by intros [? _]]|done|done]|by constructor]. }
  split; [split; [done| | |done]|].
  - intros j q. cbn. unfold set_flight. intros [[<- <-]|[Hne Hj]]%lookup_insert_Some; [by rewrite decide_True|].
    rewrite decide_False by done. by apply Hproc.
  - cbn. by rewrite started_insert.
  - intros n. unfold total. cbn [σ' sy_server sy_procs].
    assert (Hv : Forall (valid n) (procs_parts (sy_procs σ) fl n)) by by apply procs_parts_valid.
    pose proof (parts_valid p [] n Hp) as Hpv. assert (valid n (server_mass (sy_server σ) n)) by (eapply server_mass_valid; eauto).
    rewrite (mall_perm n _ (parts p [] n ++ server_mass (sy_server σ) n :: procs_parts (sy_procs σ) fl n)).
    2: { constructor; [done|]. rewrite procs_parts_insert by done. by apply Forall_app. }
    2: { rewrite procs_parts_insert by done. apply Permutation_middle. }
    cbn [parts app]. change (merge_all (class_of n) (fresh (class_of n) :: fresh (class_of n) :: fresh (class_of n) :: fresh (class_of n) ::
      server_mass (sy_server σ) n :: procs_parts (sy_procs σ) fl n) = merge_all (class_of n) (server_mass (sy_server σ) n :: procs_parts (sy_procs σ) fl n)).
    assert (Hf : valid n (fresh (class_of n))) by (eapply fresh_valid; eauto). by rewrite !mall_fresh by by repeat constructor.
Qed.

Lemma on_acc_good σ fl i k p a g c' a' d keep : Good σ fl → sy_procs σ !! i = Some p → pr_accs p !! k = Some a →
  g (pr_client p) a = Ok (c', a') →
  stepped (sy_server σ) p (fl i)
    (Ok (sy_server σ, with_client (with_accs p (partial_alter (λ _, a') k (pr_accs p))) c')) d keep →
  (∀ n, keep n → valid n (d n)) →
  ∃ σ' fl', on_acc σ i k g = Ok σ' ∧ Good σ' fl' ∧ ∀ n, keep n → total σ' fl' n = merge (class_of n) (total σ fl n) (d n).
Proof using order_perm classes.
  intros Hg Hi Hk He Hstep Hd. eapply on_process_good; eauto. cbv beta. by rewrite Hk, He.
Qed.

Lemma total_valid σ fl n : Good σ fl → valid n (total σ fl n).
Proof using order_perm classes.
  intros [Hs Hp _ _]. eapply merge_all_valid; eauto. constructor; [eapply server_mass_valid; eauto|by apply procs_parts_valid].
Qed.

Lemma on_process_mono σ fl (r : result system) (keep keep' : str → Prop) d :
  (∃ σ' fl', r = Ok σ' ∧ Good σ' fl' ∧ ∀ n, keep n → total σ' fl' n = merge (class_of n) (total σ fl n) (d n)) →
  (∀ n, keep' n → keep n) →
  ∃ σ' fl', r = Ok σ' ∧ Good σ' fl' ∧ ∀ n, keep' n → total σ' fl' n = merge (class_of n) (total σ fl n) (d n).
Proof. intros (σ'&fl'&?&?&Ht) Hk. exists σ', fl'. auto. Qed.

(** Every step a correct program takes succeeds, keeps the invariant and adds what it writes. *)
Lemma exec_good σ fl o : Good σ fl → legal σ o → ∃ σ' fl', exec junk order type_name f class_of σ o = Ok σ' ∧ Good σ' fl' ∧
  ∀ n, keeps n σ o → total σ' fl' n = merge (class_of n) (total σ fl n) (collect n (writes class_of n σ o)).
Proof using order_perm classes names_ok names_inj.
  intros Hgood Ho. pose proof Hgood as [Hs Hproc Hcnt Hbound].
  destruct o as [i|i|i|i|i k name freq final|i|i k v|i k|i k|i|i name|i name|i names|i]; cbn [exec keeps writes legal] in *.
  - eexists _, _. split; [done|]. destruct (spawn_good σ fl i Hgood Ho) as [Hg Ht]. split; [exact Hg|]. intros n _. rewrite Ht.
    symmetry. eapply merge_fresh_r; eauto. by apply total_valid.
  - destruct Ho as (p&Hi&Hnew&Hst&Hlt). eapply (on_process_good σ fl i p _ no_value (λ _, True)); eauto using no_value_valid.
    eapply initialize_step; eauto. rewrite Hcnt. apply cnt_nonneg.
  - destruct Ho as (p&Hi&Hnew&Hst&_). eapply (on_process_good σ fl i p _ no_value (λ _, True)); eauto using no_value_valid, finalize_begin_step.
  - destruct Ho as (p&Hi&Hfin&Hthread). eapply (on_process_good σ fl i p _ no_value (λ _, True)); eauto using no_value_valid.
    eapply finalize_end_step; eauto. split; [|done]. rewrite Hcnt, (started_lookup _ i p Hi).
    pose proof (cnt_nonneg (λ np : nat * process, started np.2) (map_to_list (delete i (sy_procs σ)))) as Hnn.
    fold (started_count (delete i (sy_procs σ))) in Hnn.
    assert (Hst : started p = true).
    { unfold started. destruct (cl_started (pr_client p)) eqn:E; [done|].
      destruct (tg_off _ (pg_thread _ _ (Hproc i p Hi)) E). congruence. }
    rewrite Hst. cbn. lia.
  - destruct Ho as (p&Hi&Hnew&Hfin&Hname).
    eapply (on_process_good σ fl i p _ no_value (λ _, True)); eauto using no_value_valid, new_begin_step.
  - destruct Ho as (p&k&a&Hi&Hnew&Hk&Hroom).
    eapply (on_process_good σ fl i p _ no_value (λ _, True)); eauto using no_value_valid. rewrite Hnew. by apply new_end_step; eauto.
  - destruct Ho as (p&a&x&Hi&Hk&->&Hx&Hcc&Hna&Hlt). rewrite Hi. cbn [mbind option_bind]. rewrite Hk.
    destruct (write_step (sy_server σ) p (fl i) k a x) as (c'&a'&ret&He&Hstep); eauto.
    eapply on_process_mono; [eapply (on_acc_good σ fl i k p a _ c' (Some a')); eauto|].
    + cbv beta. by rewrite value_cast_eq, He.
    + intros n _. by apply (acc_merge_value p a x (pg_accs _ _ (Hproc i p Hi) k a Hk) Hx Hcc).
    + intros n Hkeep Hn. by apply (Hkeep p a).
  - destruct Ho as (p&a&Hi&Hk&Hna&Hlt). destruct (flush_step (sy_server σ) p (fl i) k a) as (c'&a'&ret&He&_&Hstep); eauto.
    eapply on_process_mono; [eapply (on_acc_good σ fl i k p a _ c' (Some a') no_value); eauto using no_value_valid; cbv beta; by rewrite He|].
    intros n Hkeep Hn. by apply (Hkeep p a).
  - destruct Ho as (p&a&Hi&Hk&Hna&Hlt). destruct (destroy_step (sy_server σ) p (fl i) k a) as (c'&He&Hstep); eauto.
    eapply on_process_mono; [eapply (on_acc_good σ fl i k p a _ c' None no_value); eauto using no_value_valid; cbv beta; by rewrite He|].
    intros n Hkeep Hn. by apply (Hkeep p a).
  - destruct Ho as [p Hi]. eapply (on_process_good σ fl i p _ no_value (λ _, True)); eauto using no_value_valid, sender_step_ok.
  - destruct Ho as (p&Hi&Hn&Hd). eapply (on_process_good σ fl i p _ no_value (λ _, True)); eauto using no_value_valid, read_step.
  - destruct Ho as (p&Hi&Hn&Hd). eapply on_process_mono; [eapply (on_process_good σ fl i p _ no_value); eauto using no_value_valid, reset_step|].
    intros n Hne ->. done.
  - destruct Ho as (p&Hi&Hd&Hn&Hl). eapply (on_process_good σ fl i p _ no_value); eauto using no_value_valid, erase_step.
  - destruct Ho as (p&Hi&Hd). eapply (on_process_good σ fl i p _ no_value (λ _, False)); eauto using no_value_valid, erase_all_step.
Qed.

(** ** Runs *)
Abbreviation exec := (exec junk order type_name f class_of).
Abbreviation run := (run junk order type_name f class_of).
Abbreviation steps := (steps junk order type_name f class_of).
Abbreviation reachable := (reachable junk order type_name f class_of).

Lemma good_init : Good system_ (λ _, []).
Proof. split; [by split|by intros n p|done|done]. Qed.

Lemma total_init n : total system_ (λ _, []) n = collect n [].
Proof using order_perm classes. unfold total. eapply merge_fresh_r; eauto. eapply fresh_valid; eauto. Qed.

Lemma reachable_good σ : reachable σ → ∃ fl, Good σ fl.
Proof using order_perm classes names_ok names_inj.
  induction 1 as [|σ o σ' _ [fl Hg] Ho He]; [exists (λ _, []); apply good_init|].
  destruct (exec_good σ fl o Hg Ho) as (σ2&fl'&He'&Hg'&_). exists fl'. congruence.
Qed.

Lemma writes_valid σ fl o n : Good σ fl → legal σ o → Forall (value_valid (class_of n)) (writes class_of n σ o).
Proof.
  intros Hg Ho. destruct o as [i|i|i|i|i k name freq final|i|i k v|i k|i k|i|i name|i name|i names|i]; cbn [writes]; try constructor.
  destruct Ho as (p&a&x&Hi&Hk&->&Hx&_). rewrite Hi. cbn [mbind option_bind]. rewrite Hk.
  destruct (acc_typed p a (pg_accs _ _ (gd_proc _ _ Hg i p Hi) k a Hk)) as (m&st&id&cc&ff&fin&->&_). cbn [ac_type _name] in *.
  destruct (decide (m = n)) as [<-|]; [|constructor]. rewrite value_cast_eq. by constructor.
Qed.

(** What the cluster has of [m] is what was written to it. *)
Lemma run_total m σ0 vs σ : run m σ0 vs σ → σ0 = system_ → ∃ fl, Good σ fl ∧ total σ fl m = collect m vs ∧
  Forall (value_valid (class_of m)) vs.
Proof using order_perm classes names_ok names_inj.
  intros Hrun E. induction Hrun as [σ|σ vs σ1 o σ2 _ IH Ho Hkeep He].
  - subst σ. exists (λ _, []). split; [apply good_init|]. split; [apply total_init|constructor].
  - destruct (IH E) as (fl&Hg&Ht&Hv). destruct (exec_good σ1 fl o Hg Ho) as (σ'&fl'&He'&Hg'&Ht').
    rewrite He in He'. injection He' as <-. exists fl'. split; [done|].
    pose proof (writes_valid σ1 fl o m Hg Ho) as Hw. split; [|by apply Forall_app].
    rewrite Ht', Ht by done. destruct (laws_of junk order order_perm (class_of m) (class_ok tys class_of classes m)) as [enc laws].
    by apply (collect_app (laws := laws)).
Qed.

(** A settled cluster has nothing outside the server. *)
Lemma settled_total σ fl m : Good σ fl → settled m σ → total σ fl m = server_mass (sy_server σ) m.
Proof using order_perm classes.
  intros Hg Hset. pose proof Hg as [Hs Hproc _ _]. assert (Hsv : valid m (server_mass (sy_server σ) m)) by (eapply server_mass_valid; eauto).
  unfold total. cbn [Accumulator.merge_all foldr]. fold (merge_all (class_of m) (procs_parts (sy_procs σ) fl m)).
  rewrite (all_fresh junk order tys class_of order_perm classes m); [eapply merge_fresh_r; eauto|]. unfold procs_parts. apply Forall_bind, Forall_forall.
  intros [i p] Hi%elem_of_map_to_list. cbn [fst snd]. destruct (Hset i p Hi) as [Hz Hacc].
  pose proof (Hproc i p Hi) as [_ Hc Ha [_ _ Hb] _ Hfl].
  assert (Hbuf : ∀ j, buf_mass (cl_buf (pr_client p) j) m = fresh (class_of m)).
  { intros j. eapply idle_mass; eauto. apply Hc. }
  assert (Hes : fl i = []).
  { destruct (pr_sender p) as [| |j|j q|j]; try done. destruct Hb as [[_ Hlt] _]. rewrite Hz in Hlt. lia. }
  unfold compose, parts. cbn [fst snd]. rewrite !Hbuf, Hes. repeat (constructor; [done|]). constructor; [|constructor].
  apply (entries_mass_fresh_at junk order tys class_of order_perm classes). intros n o Hin ->. apply list_elem_of_fmap in Hin as (a&[= -> ->]&Hin).
  apply list_elem_of_fmap in Hin as ([k a']&->&Hin%elem_of_map_to_list). cbn.
  by apply (ag_empty p a' (Ha k a' Hin)), (Hacc k).
Qed.

(** ** What is on its way *)

(** What the request carries that the send thread has packed and not yet got through: what a
    server without aggregators would have of [n] after it. *)
Definition in_flight (p : process) (n : str) : state_of (class_of n) :=
  match pr_sender p with
  | Calling _ (Some q) =>
      match send_call junk order f (Server true 0 ∅ ∅) q with
      | Ok s => server_mass s n
      | Abort => fresh (class_of n)
      end
  | _ => fresh (class_of n)
  end.

(** What the cluster has of [n]: in the server, in the buffers of the clients, in requests and in
    the accumulators. *)
Definition held (σ : system) (n : str) : state_of (class_of n) :=
  merge_all (class_of n) (server_mass (sy_server σ) n :: (map_to_list (sy_procs σ) ≫= λ ip,
    [buf_mass (cl_buf (pr_client ip.2) false) n; buf_mass (cl_buf (pr_client ip.2) true) n; in_flight ip.2 n;
     acc_mass (pr_accs ip.2) n])).

Lemma in_flight_eq p es n : ProcGood p es → in_flight p n = entries_mass n es.
Proof using order_perm classes names_ok names_inj.
  intros [_ _ _ _ Hes Hfl _]. unfold in_flight. destruct (pr_sender p) as [| |i|i [q|]|i]; try (cbn in Hfl; by subst es).
  destruct (packed_ok (Server true 0 ∅ ∅) (Some q) es (gd_server _ _ good_init) Hes Hfl) as (s'&He&_&_&Hadd).
  cbn [send_packed] in He. rewrite He, Hadd. eapply merge_fresh_l; eauto. eapply entries_mass_valid; eauto.
Qed.

Lemma held_total σ fl n : Good σ fl → held σ n = total σ fl n.
Proof using order_perm classes names_ok names_inj.
  intros Hg. unfold held, total, procs_parts. f_equal. f_equal. apply bind_ext_in. intros [i p] Hi%elem_of_map_to_list. cbn [fst snd].
  unfold parts. by rewrite (in_flight_eq p (fl i)) by by apply (gd_proc _ _ Hg).
Qed.

Lemma collects_valid m vs : Forall (value_valid (class_of m)) vs → valid m (collect m vs).
Proof using order_perm classes.
  intros Hv. destruct (laws_of junk order order_perm (class_of m) (class_ok tys class_of classes m)) as [enc laws].
  by apply (collect_valid (laws := laws)).
Qed.

(** Steps that lose nothing of [m] add to it what they write. *)
Lemma steps_total σ l σ' : steps σ l σ' → ∀ fl, Good σ fl → ∃ fl', Good σ' fl' ∧ ∀ m,
  Forall (value_valid (class_of m)) (all_writes junk order type_name f class_of m σ l) ∧
  (all_keep junk order type_name f class_of m σ l →
    total σ' fl' m = merge (class_of m) (total σ fl m) (collect m (all_writes junk order type_name f class_of m σ l))).
Proof using order_perm classes names_ok names_inj.
  induction 1 as [σ|σ o σ1 l σ2 Ho He _ IH]; intros fl Hg.
  { exists fl. split; [done|]. intros m. split; [constructor|]. intros _. symmetry. eapply merge_fresh_r; eauto. by apply total_valid. }
  destruct (exec_good σ fl o Hg Ho) as (σ1'&fl1&He'&Hg1&Ht1). rewrite He in He'. injection He' as <-.
  destruct (IH fl1 Hg1) as (fl2&Hg2&Ht2). exists fl2. split; [done|]. intros m. destruct (Ht2 m) as [Hv2 Ht2'].
  pose proof (writes_valid σ fl o m Hg Ho) as Hv1. cbn [all_writes all_keep]. rewrite He. split; [by apply Forall_app|].
  intros [Hk1 Hk2]. rewrite (Ht2' Hk2), (Ht1 m Hk1).
  destruct (laws_of junk order order_perm (class_of m) (class_ok tys class_of classes m)) as [enc laws].
  rewrite <- (collect_app (laws := laws)) by done. symmetry. eapply merge_ass; eauto using total_valid, collects_valid.
Qed.

(** ** The send thread empties the buffers *)

(** How many of its steps are left. *)
Definition rank (p : process) : nat :=
  let c := pr_client p in
  let more := ((if (0 <? _write_pending_cnt (cl_buf c (_pending_aggs_idx c)))%Z then 4 else 0) + Nat.b2n (_writer_closed c))%nat in
  match pr_sender p with
  | NoThread => 0
  | Waiting => more
  | Locking _ => 1 + more
  | Calling _ _ => 2 + more
  | Sending _ => 3 + more
  end%nat.

Lemma rank_bound p : (rank p ≤ 8)%nat.
Proof.
  unfold rank. destruct (pr_sender p), (_writer_closed (pr_client p)), (0 <? _write_pending_cnt (cl_buf (pr_client p) (_pending_aggs_idx (pr_client p)))); cbn; lia.
Qed.

(** What is left after the last one. *)
Record Drained (p : process) : Prop := {
  dr_cnt i : _write_pending_cnt (cl_buf (pr_client p) i) = 0;
  dr_mass i n : buf_mass (cl_buf (pr_client p) i) n = fresh (class_of n);
  dr_flight n : in_flight p n = fresh (class_of n);
  dr_empty : wait_empty_writer (pr_client p) = true;
  dr_sender : pr_sender p = if _writer_closed (pr_client p) then NoThread else Waiting;
}.

Lemma rank_zero p es : ProcGood p es → rank p = 0%nat → Drained p.
Proof using order_perm classes.
  intros [_ Hc _ [_ _ Hb] _ _] Hr.
  assert (Hz : (∀ i, _write_pending_cnt (cl_buf (pr_client p) i) = 0) ∧ wait_empty_writer (pr_client p) = true ∧
    pr_sender p = if _writer_closed (pr_client p) then NoThread else Waiting).
  { unfold rank in Hr. destruct (pr_sender p) as [| |i|i q|i] eqn:Epc; cbn in Hb, Hr; try lia.
    - destruct Hb as [Hcl Hz]. unfold wait_empty_writer. by rewrite Hcl.
    - destruct (Z.ltb_spec 0 (_write_pending_cnt (cl_buf (pr_client p) (_pending_aggs_idx (pr_client p))))) as [|Hge]; [done|].
      destruct (_writer_closed (pr_client p)) eqn:Hcl; [done|].
      assert (Hz : ∀ j, _write_pending_cnt (cl_buf (pr_client p) j) = 0).
      { apply (both_buffers _ (_pending_aggs_idx (pr_client p))); [|done].
        pose proof (bg_cnt _ _ _ _ _ (cg_buf _ _ _ _ _ Hc (_pending_aggs_idx (pr_client p)))) as Hcnt.
        unfold in_int, in_unsigned in Hcnt. cbn in Hcnt. lia. }
      split; [done|]. unfold wait_empty_writer. by rewrite !Hz, Hcl. }
  destruct Hz as (Hz&Hw&Hs). split; [done| | |done|done].
  - intros i n. eapply idle_mass; eauto. apply Hc.
  - intros n. unfold in_flight. rewrite Hs. by destruct (_writer_closed (pr_client p)).
Qed.

Lemma send2server_kept c i c' q : send2server junk order c i = Ok (c', q) →
  _writer_closed c' = _writer_closed c ∧ cl_adding c' = cl_adding c.
Proof.
  unfold send2server. cbv zeta. destruct (sending_cnt _ =? 0)%nat; [by intros [= <- _]|].
  destruct (new_request junk 0 API_WRITE) as [q0|]; [|done]. cbn [mbind result_bind]. destruct (op_out _ _ _) as [ar|]; [|done]. cbn [mbind result_bind].
  destruct (send_pending junk order ar _ _) as [[ar' aggs]|]; [|done]. cbn [mbind result_bind]. by intros [= <- _].
Qed.

(** A step of the thread leaves one less; it keeps the writer closed or open. *)
Lemma send_step_rank s p es s' p' : ProcGood p es → pr_new p = None → send_step junk order f s p = Ok (s', p') →
  (rank p' ≤ Nat.pred (rank p))%nat ∧ _writer_closed (pr_client p') = _writer_closed (pr_client p) ∧ pr_new p' = None.
Proof using order_perm classes names_ok.
  intros [_ Hc _ [_ _ Hb] _ _ [_ Hsg]] Hnew Hs. rewrite Hnew in Hsg. unfold send_step in Hs. unfold rank in *. set (c := pr_client p) in *.
  destruct (pr_sender p) as [| |i|i q|i] eqn:Epc; cbn in Hb; [by injection Hs as <- <-; rewrite Epc|..].
  - destruct (0 <? _write_pending_cnt (cl_buf c (_pending_aggs_idx c))) eqn:Hlt.
    + injection Hs as <- <-. cbn. change (cl_buf c (negb (_pending_aggs_idx c))) with (cl_buf (with_idx c (negb (_pending_aggs_idx c))) (negb (_pending_aggs_idx c))) in Hb.
      cbn in Hb. rewrite Hb. cbn. split; [lia|done].
    + destruct (_writer_closed c) eqn:Hcl; injection Hs as <- <-; cbn.
      * split; [lia|done].
      * fold c. rewrite Epc, Hlt, Hcl. by cbn.
  - destruct Hb as [Hidx _]. rewrite Hsg in Hs. destruct (pack_ok c i Hc) as (c'&q&es'&He&_&_&Hcl&_&Hi&_&Hoth&_). rewrite He in Hs. cbn in Hs.
    injection Hs as <- <-. cbn. rewrite Hi, Hcl, Hidx, Hoth. split; [lia|done].
  - destruct (send_packed junk order f s q) as [s1|] eqn:E; [|done]. cbn in Hs. injection Hs as <- <-. cbn. fold c. split; [lia|done].
  - destruct Hb as [Hidx _]. cbv zeta in Hs. change (_writer_closed (zero_cnt c i)) with (_writer_closed c) in Hs. rewrite Hidx in *.
    change (cl_adding (zero_cnt c i)) with (cl_adding c) in Hs. rewrite Hsg in Hs.
    destruct (_writer_closed c) eqn:Hcl.
    + destruct (0 <? _write_pending_cnt (cl_buf (zero_cnt c i) (negb i))) eqn:Hlt; [|by injection Hs as <- <-; cbn; split; [lia|done]].
      destruct (send2server junk order (zero_cnt c i) (negb i)) as [[c' q]|] eqn:E; [|done]. cbn in Hs.
      destruct (send_packed junk order f s q) as [s1|] eqn:E'; [|done]. cbn in Hs. injection Hs as <- <-. cbn. split; [lia|].
      split; [|done]. rewrite <- Hcl. by apply send2server_kept in E as [? _].
    + injection Hs as <- <-. cbn [with_sender with_client pr_sender pr_client pr_new]. change (_pending_aggs_idx (zero_cnt c i)) with (_pending_aggs_idx c).
      change (_writer_closed (zero_cnt c i)) with (_writer_closed c). rewrite Hidx, zero_cnt_other, Hcl. split; [lia|done].
Qed.

(** A quiet step leaves the process alone, but for its send thread. *)
Lemma on_process_kept σ i n g σ' : (n = i → ∀ s p s' p', g s p = Ok (s', p') → p' = p) →
  on_process σ n g = Ok σ' → sy_procs σ' !! i = sy_procs σ !! i.
Proof.
  intros Hg. unfold on_process. destruct (sy_procs σ !! n) as [p|] eqn:E; [|done].
  destruct (g (sy_server σ) p) as [[s' p']|] eqn:E'; [|done]. cbn. intros [= <-]. cbn. destruct (decide (n = i)) as [->|Hne].
  - rewrite lookup_insert_eq, E. f_equal. by eapply Hg.
  - by rewrite lookup_insert_ne.
Qed.

Lemma quiet_other σ o σ' i : quiet i o → is_send i o = false → legal σ o → exec σ o = Ok σ' → is_Some (sy_procs σ !! i) →
  sy_procs σ' !! i = sy_procs σ !! i.
Proof.
  assert (Hb : ∀ A (r : result (server * A)) (p : process) s' p', ('(s, _) ← r; Ok (s, p)) = Ok (s', p') → p' = p).
  { intros A [[s x]|] p s' p'; cbn; [by intros [= _ <-]|done]. }
  intros Hq Hs Ho He Hi. destruct o; cbn [exec quiet op_process is_send] in *;
    try (eapply on_process_kept; [|exact He]; intros ->; done || (intros s p s' p'; apply Hb)).
  - injection He as <-. cbn. by rewrite lookup_insert_ne.
  - eapply on_process_kept; [|exact He]. intros ->. by rewrite Nat.eqb_refl in Hs.
Qed.

(** A step of the send thread, as a step of the system. *)
Lemma exec_send σ σ' i p : sy_procs σ !! i = Some p → exec σ (SendStep i) = Ok σ' →
  ∃ p', sy_procs σ' !! i = Some p' ∧ send_step junk order f (sy_server σ) p = Ok (sy_server σ', p').
Proof.
  cbn [AccSystem.exec]. unfold on_process. intros ->. destruct (send_step _ _ _ _ p) as [[s' p']|]; [|done]. cbn. intros [= <-].
  exists p'. cbn. by rewrite lookup_insert_eq.
Qed.

Lemma steps_drain σ l σ' : steps σ l σ' → ∀ fl i p, Good σ fl → sy_procs σ !! i = Some p → pr_new p = None → Forall (quiet i) l →
  ∃ fl' p', Good σ' fl' ∧ sy_procs σ' !! i = Some p' ∧ _writer_closed (pr_client p') = _writer_closed (pr_client p) ∧
    (rank p' ≤ rank p - sends i l)%nat.
Proof using order_perm classes names_ok names_inj.
  induction 1 as [σ|σ o σ1 l σ2 Ho He _ IH]; intros fl i p Hg Hi Hnew Hq.
  { exists fl, p. cbn. repeat (split; [done|]). lia. }
  apply Forall_cons in Hq as [Hq1 Hq]. destruct (exec_good σ fl o Hg Ho) as (σ1'&fl1&He'&Hg1&_). rewrite He in He'. injection He' as <-.
  assert (Hp1 : ∃ p1, sy_procs σ1 !! i = Some p1 ∧ (rank p1 ≤ rank p - Nat.b2n (is_send i o))%nat ∧
    _writer_closed (pr_client p1) = _writer_closed (pr_client p) ∧ pr_new p1 = None).
  { destruct (is_send i o) eqn:Hs.
    - destruct o; try done. cbn in Hs. apply Nat.eqb_eq in Hs as ->. destruct (exec_send σ σ1 i p Hi He) as (p1&Hi1&Hst).
      destruct (send_step_rank _ p (fl i) _ p1 (gd_proc _ _ Hg i p Hi) Hnew Hst) as (Hr&Hcl&Hn). exists p1. split; [done|]. cbn. split; [lia|done].
    - exists p. rewrite (quiet_other σ o σ1 i) by (done || by rewrite Hi). cbn. split; [done|]. split; [lia|done]. }
  destruct Hp1 as (p1&Hi1&Hr1&Hcl1&Hnew1). destruct (IH fl1 i p1 Hg1 Hi1 Hnew1 Hq) as (fl2&p2&Hg2&Hi2&Hcl2&Hr2).
  exists fl2, p2. split; [done|]. split; [done|]. split; [congruence|]. cbn [sends]. lia.
Qed.

(** The send thread can always go on. *)
Lemma can_send k : ∀ σ fl i p, Good σ fl → sy_procs σ !! i = Some p → ∃ σ', steps σ (replicate k (SendStep i)) σ'.
Proof using order_perm classes names_ok names_inj.
  induction k as [|k IH]; intros σ fl i p Hg Hi; [exists σ; constructor|]. assert (Ho : legal σ (SendStep i)) by by exists p.
  destruct (exec_good σ fl _ Hg Ho) as (σ1&fl1&He&Hg1&_). destruct (exec_send σ σ1 i p Hi He) as (p1&Hi1&_).
  destruct (IH σ1 fl1 i p1 Hg1 Hi1) as [σ' Hss]. exists σ'. cbn. by econstructor.
Qed.

(** ** The properties *)
Lemma good_typed n o : obj_good n o → o_type o = class_of n ∧ state_valid (o_type o) (o_state o).
Proof. by intros (s&->&Hs). Qed.

(** C29: in every state that a correct program reaches, everything that is an aggregator of a
    name is of the class that belongs to the name, wherever it is: in the server, in the buffers
    of a client or in an accumulator; what waits in the pool of the server has the class it is
    found under. So the casts of the code are right, and no further step of a correct program
    aborts: no cast, no index, no null [_dealer], no check. A correct program is what [legal]
    says, while the server runs: names have the class that belongs to them and values are of
    this class; accumulators are written to, flushed and destroyed after they were made;
    [initialize] and [finalize] alternate; only between them is anything erased, or a name that
    the process knows read or reset, one remote call at a time; accumulators are made one after
    the other, not while the process is initialized or finalized (all hold one lock), and while
    one is being made with a new name no thread of the process writes, flushes or destroys
    another one, which no lock prevents (finding); strings, counters and vectors stay within the
    machine's sizes and fewer than 2^15 processes are initialized. *)
Theorem accumulators_typed σ : reachable σ →
  (∀ name ty o, _umap_name2aggs (sy_server σ) !! name = Some (ty, o) →
    ty = type_name (class_of name) ∧ o_type o = class_of name ∧ state_valid (o_type o) (o_state o)) ∧
  (∀ ty o, _agg_pool (sy_server σ) !! ty = Some o → o_type o ∈ tys ∧ ty = type_name (o_type o)) ∧
  (∀ i p, sy_procs σ !! i = Some p →
    (∀ k a, pr_accs p !! k = Some a → ac_type a = class_of (_name a) ∧ state_valid (ac_type a) (_agg a)) ∧
    (∀ j id o name tn, _pending_aggs (cl_buf (pr_client p) j) !! id = Some (o, name, tn) →
      tn = type_name (class_of name) ∧ o_type o = class_of name ∧ state_valid (o_type o) (o_state o))) ∧
  ∀ o, legal σ o → is_ok (exec σ o).
Proof using order_perm classes names_ok names_inj.
  intros (fl&Hg)%reachable_good. pose proof Hg as [Hs Hp _ _]. split_and!.
  - intros name ty o Ho. destruct (sg_aggs _ _ _ _ Hs _ _ _ Ho) as [-> Hob]. split; [done|by apply good_typed].
  - apply Hs.
  - intros i p Hi. split.
    + intros k a Ha. apply (good_typed _ (Object (ac_type a) (_agg a))), (ag_obj p a). by apply (pg_accs _ _ (Hp i p Hi) k).
    + intros j id o name tn Hid. pose proof (bg_entries _ _ _ _ _ (cg_buf _ _ _ _ _ (pg_client _ _ (Hp i p Hi)) j)) as He.
      destruct (Forall_lookup_1 _ _ _ _ He Hid) as (?&?&?). split; [done|by apply good_typed].
  - intros o Ho. destruct (exec_good σ fl o Hg Ho) as (σ'&_&He&_). by exists σ'.
Qed.

(** C32: nothing that is written to a name is lost or counted twice, for the classes that are
    modelled: sums, averages, averages by key (an integer of at most four bytes) and timers of
    unsigned integers, which are sums modulo the width, and maxima and minima of integers. It
    needs a correct program (what [legal] says, see C29) of which every step keeps the values of
    the name ([keeps]): no reset or erase of it, no erase of all; no flush of or write to an
    accumulator of it while the writer of the process is closed (before [initialize] and from
    [finalize] on); and no destructor of one that still holds values, unless the writer is open
    and the accumulator has [final_need_flush]. Then, whatever the threads of the processes
    write in between, once nothing of the name is on its way (the buffers of all processes and
    the accumulators of the name are empty) a read of it, by a process that is initialized and
    knows the name, returns what a single aggregator would hold to which all the values had been
    written one after the other; nothing, or an empty aggregator, if there are none. *)
Theorem accumulators_conserve m vs σ : run m system_ vs σ → settled m σ → str_ok m →
  ∀ i p, sy_procs σ !! i = Some p → is_Some (get_id_by_name (pr_manager p) m) → cl_dealer (pr_client p) = true →
  ∃ r, client_read junk order f (pr_client p) (sy_server σ) (pr_manager p) m (class_of m) = Ok (sy_server σ, r) ∧
    default (fresh (class_of m)) r = collect m vs.
Proof using order_perm classes names_ok names_inj.
  intros Hrun Hset Hm i p Hi [id Hid] Hdl. destruct (run_total m system_ vs σ Hrun eq_refl) as (fl&Hg&Ht&_).
  rewrite (settled_total σ fl m Hg Hset) in Ht. pose proof (pg_manager _ _ (gd_proc σ fl Hg i p Hi)) as Hmg.
  eexists. split; [apply (client_read_ok junk order type_name tys class_of order_perm names_ok classes _ _ _ _ (λ _, Hdl) (gd_server _ _ Hg) Hmg Hm)|].
  unfold get_id_by_name in Hid. rewrite Hid. cbn. rewrite <- Ht. unfold Accumulator.server_mass.
  by destruct (_umap_name2aggs (sy_server σ) !! m) as [[ty o]|].
Qed.

(** C12: [wait_empty] returns, and nothing is lost on the way. In any state that a correct
    program (see C29) reaches in which a process makes no accumulator, its send thread can take
    eight more steps; and after any legal steps of the cluster that contain eight of this
    thread, with anything that other processes do in between, as long as the process itself
    neither writes to, flushes nor destroys an accumulator, nor makes one, nor is initialized or
    finalized ([wait_empty], which checks that the process is initialized, holds the lock that
    these need, so that only threads which passed it before can still write): both buffers of
    the process are empty, no request of it is on its way, the condition that [wait_empty] waits
    for holds, and the thread waits for more or, when the writer is closed, has ended. Of every
    name, unless one of these steps loses values of it ([keeps], see C32), the cluster (server,
    buffers, requests and accumulators together) then holds what it held before and what these
    steps wrote to it. That the thread gets to take its steps is the scheduler's and the
    network's part. *)
Theorem accumulators_drain σ i p : reachable σ → sy_procs σ !! i = Some p → pr_new p = None →
  (∃ σ', steps σ (replicate 8 (SendStep i)) σ') ∧
  ∀ l σ', steps σ l σ' → Forall (quiet i) l → (8 ≤ sends i l)%nat →
    (∃ p', sy_procs σ' !! i = Some p' ∧
      (∀ j, _write_pending_cnt (cl_buf (pr_client p') j) = 0 ∧ ∀ m, buf_mass (cl_buf (pr_client p') j) m = fresh (class_of m)) ∧
      (∀ m, in_flight p' m = fresh (class_of m)) ∧ wait_empty_writer (pr_client p') = true ∧
      pr_sender p' = if _writer_closed (pr_client p) then NoThread else Waiting) ∧
    ∀ m, all_keep junk order type_name f class_of m σ l →
      held σ' m = merge (class_of m) (held σ m) (collect m (all_writes junk order type_name f class_of m σ l)).
Proof using order_perm classes names_ok names_inj.
  intros (fl&Hg)%reachable_good Hi Hnew. split; [by eapply can_send|]. intros l σ' Hl Hq Hn. split.
  - destruct (steps_drain σ l σ' Hl fl i p Hg Hi Hnew Hq) as (fl'&p'&Hg'&Hi'&Hcl&Hr). pose proof (rank_bound p).
    destruct (rank_zero p' (fl' i)) as [Hz Hm Hf Hw Hs]; [by apply (gd_proc _ _ Hg')|lia|]. exists p'. rewrite <- Hcl. auto 10.
  - intros m Hk. destruct (steps_total σ l σ' Hl fl Hg) as (fl'&Hg'&Ht). rewrite (held_total σ fl), (held_total σ' fl') by done.
    by apply Ht.
Qed.
End proofs.

(** ** A cluster of one process that adds two numbers *)
Definition ex_junk (n : nat) : byte := Byte.x00.
Definition ex_name (ty : agg_type) : str := lit "sum".
Definition ex_class (name : str) : agg_type := SumOf t_u64.

Definition ex_exec := exec ex_junk map_to_list ex_name (register_all ex_name ∅ [SumOf t_u64]) ex_class.

Definition ex_ops : list op :=
  [Spawn 0; Initialize 0; NewBegin 0 0 (lit "x") 2 true; NewEnd 0; Write 0 0 (Value (SumOf t_u64) 5); Write 0 0 (Value (SumOf t_u64) 7);
   SendStep 0; SendStep 0; SendStep 0; SendStep 0].

Fixpoint ex_state (k : nat) : system :=
  match k with
  | O => system_
  | S k =>
      match ex_ops !! k with
      | Some o => match ex_exec (ex_state k) o with Ok σ => σ | Abort => system_ end
      | None => ex_state k
      end
  end.

Definition ex_proc (k : nat) : process := default (Process manager_ client_ ∅ NoThread false None) (sy_procs (ex_state k) !! 0%nat).

(** What is written to [x] in the step [k], and before it. *)
Definition ex_writes (k : nat) : list Z := match k with 4%nat => [5] | 5%nat => [7] | _ => [] end.
Definition ex_written (k : nat) : list Z := concat (ex_writes <$> seq 0 k).

Abbreviation ex_run := (run ex_junk map_to_list ex_name (register_all ex_name ∅ [SumOf t_u64]) ex_class).
Abbreviation ex_reachable := (reachable ex_junk map_to_list ex_name (register_all ex_name ∅ [SumOf t_u64]) ex_class).

Lemma ex_step k o : ex_ops !! k = Some o → (if ex_exec (ex_state k) o then true else false) = true → legal (ex_state k) o →
  keeps (lit "x") (ex_state k) o → writes ex_class (lit "x") (ex_state k) o = ex_writes k →
  ex_run (lit "x") system_ (ex_written k) (ex_state k) ∧ ex_reachable (ex_state k) →
  ex_run (lit "x") system_ (ex_written (S k)) (ex_state (S k)) ∧ ex_reachable (ex_state (S k)).
Proof.
  intros Ho He Hl Hk Hw [Hr Hreach]. unfold ex_written. rewrite seq_S, fmap_app, concat_app. cbn [ex_state]. rewrite Ho.
  destruct (ex_exec (ex_state k) o) as [σ|] eqn:E; [|done]. split; [|by econstructor].
  cbn. rewrite app_nil_r, <- Hw. by econstructor.
Qed.

Lemma ex_keeps k : sy_procs (ex_state k) !! 0%nat = Some (ex_proc k) → _writer_closed (pr_client (ex_proc k)) = false →
  ∀ p (a : accumulator), sy_procs (ex_state k) !! 0%nat = Some p → pr_accs p !! 0%nat = Some a → _name a = lit "x" →
  _writer_closed (pr_client p) = false.
Proof. intros -> H p a [= <-] _ _. exact H. Qed.

Ltac ex_send k := apply (ex_step k (SendStep 0));
  [reflexivity|vm_compute; reflexivity|exists (ex_proc k); vm_compute; reflexivity|exact I|reflexivity|].
Ltac ex_add k v n := apply (ex_step k (Write 0 0 (Value (SumOf t_u64) v)));
  [reflexivity|vm_compute; reflexivity
  |exists (ex_proc k), (MkAccumulator (SumOf t_u64) n 0 (lit "x") (Z.of_nat (k - 4)) 2 true), v;
   split; [vm_compute; reflexivity|]; split; [vm_compute; reflexivity|]; split; [reflexivity|];
   split; [vm_compute; split; [discriminate|reflexivity]|]; split; [vm_compute; reflexivity|]; split; vm_compute; reflexivity
  |refine (ex_keeps k _ _); vm_compute; reflexivity|vm_compute; reflexivity|].

Lemma ex_written_to : ex_run (lit "x") system_ (ex_written 6) (ex_state 6) ∧ ex_reachable (ex_state 6).
Proof.
  ex_add 5%nat 7 5. ex_add 4%nat 5 0.
  apply (ex_step 3 (NewEnd 0)); [reflexivity|vm_compute; reflexivity| |exact I|reflexivity|].
  { exists (ex_proc 3), 0%nat, (MkAccumulator (SumOf t_u64) 0 0 (lit "x") 0 2 true). split; [vm_compute; reflexivity|].
    split; [vm_compute; reflexivity|]. split; [vm_compute; reflexivity|]. intros []; vm_compute; reflexivity. }
  apply (ex_step 2 (NewBegin 0 0 (lit "x") 2 true)); [reflexivity|vm_compute; reflexivity| |exact I|reflexivity|].
  { exists (ex_proc 2). split; [vm_compute; reflexivity|]. split; [vm_compute; reflexivity|]. split; [vm_compute; reflexivity|].
    vm_compute; split; [discriminate|reflexivity]. }
  apply (ex_step 1 (Initialize 0)); [reflexivity|vm_compute; reflexivity| |exact I|reflexivity|].
  { exists (ex_proc 1). split; [vm_compute; reflexivity|]. split; [vm_compute; reflexivity|]. split; vm_compute; reflexivity. }
  apply (ex_step 0 (Spawn 0)); [reflexivity|vm_compute; reflexivity|vm_compute; reflexivity|exact I|reflexivity|]. split; constructor.
Qed.

Lemma ex_runs : ex_run (lit "x") system_ (ex_written 10) (ex_state 10) ∧ ex_reachable (ex_state 10).
Proof. ex_send 9%nat. ex_send 8%nat. ex_send 7%nat. ex_send 6%nat. exact ex_written_to. Qed.

Lemma ex_order (m : gmap Z (Z * Z)) : map_to_list m ≡ₚ map_to_list m.
Proof. done. Qed.

Lemma ex_names_ok ty : ty ∈ [SumOf t_u64] → str_ok (ex_name ty).
Proof. intros _. vm_compute. by split. Qed.

Lemma ex_classes name : ex_class name ∈ [SumOf t_u64] ∧ type_ok (ex_class name) = true.
Proof. split; [left|done]. Qed.

Lemma ex_names_inj a b : a ∈ [SumOf t_u64] → b ∈ [SumOf t_u64] → ex_name a = ex_name b → a = b.
Proof. by intros ->%list_elem_of_singleton ->%list_elem_of_singleton. Qed.

Lemma ex_settled : settled (lit "x") (ex_state 10).
Proof.
  assert (He : sy_procs (ex_state 10) = {[0%nat := ex_proc 10]}) by (vm_compute; reflexivity).
  intros i p Hi. rewrite He in Hi. apply lookup_singleton_Some in Hi as [<- <-]. split; [intros []; vm_compute; reflexivity|].
  assert (Ha : pr_accs (ex_proc 10) = {[0%nat := MkAccumulator (SumOf t_u64) 0 0 (lit "x") 0 2 true]}) by (vm_compute; reflexivity).
  intros k a Hk. rewrite Ha in Hk. by apply lookup_singleton_Some in Hk as [<- <-].
Qed.

(** The server has the sum, of its class. *)
Lemma accumulators_typed_witness :
  _umap_name2aggs (sy_server (ex_state 10)) !! lit "x" = Some (lit "sum", Object (SumOf t_u64) 12) ∧
  lit "sum" = ex_name (SumOf t_u64).
Proof.
  split; [vm_compute; reflexivity|].
  apply (accumulators_typed ex_junk map_to_list ex_name [SumOf t_u64] ex_class ex_order ex_names_ok ex_classes ex_names_inj
    (ex_state 10) (proj2 ex_runs)) with (name := lit "x") (o := Object (SumOf t_u64) 12). vm_compute; reflexivity.
Defined.

(** A read returns the sum of what was written. *)
Lemma accumulators_conserve_witness : ex_written 10 = [5; 7] ∧ ∃ r,
  client_read ex_junk map_to_list (register_all ex_name ∅ [SumOf t_u64]) (pr_client (ex_proc 10)) (sy_server (ex_state 10)) (pr_manager (ex_proc 10))
    (lit "x") (SumOf t_u64) = Ok (sy_server (ex_state 10), r) ∧ default 0 r = 12.
Proof.
  split; [reflexivity|].
  apply (accumulators_conserve ex_junk map_to_list ex_name [SumOf t_u64] ex_class ex_order ex_names_ok ex_classes ex_names_inj
    (lit "x") (ex_written 10) (ex_state 10) (proj1 ex_runs) ex_settled) with (i := 0%nat);
  [vm_compute; split; [discriminate|reflexivity]|vm_compute; reflexivity|eexists; vm_compute; reflexivity|vm_compute; reflexivity].
Defined.

(** The flushed sum waits in a buffer; after eight steps of the send thread the server has it. *)
Lemma accumulators_drain_witness : wait_empty_writer (pr_client (ex_proc 6)) = false ∧ ∃ σ' p',
  steps ex_junk map_to_list ex_name (register_all ex_name ∅ [SumOf t_u64]) ex_class (ex_state 6) (replicate 8 (SendStep 0)) σ' ∧
  sy_procs σ' !! 0%nat = Some p' ∧ wait_empty_writer (pr_client p') = true.
Proof.
  split; [vm_compute; reflexivity|].
  destruct (accumulators_drain ex_junk map_to_list ex_name [SumOf t_u64] ex_class ex_order ex_names_ok ex_classes ex_names_inj
    (ex_state 6) 0 (ex_proc 6) (proj2 ex_written_to)) as [(σ'&Hs) Hd]; [vm_compute; reflexivity|vm_compute; reflexivity|].
  destruct (Hd _ σ' Hs) as [(p'&Hp&_&_&Hw&_) _]; [repeat constructor|cbn; repeat constructor|].
  exists σ', p'. split; [exact Hs|]. split; [exact Hp|exact Hw].
Defined.
